(* ===== verification/_CoqProject ===== *)
-Q . S2P
Prelude.v
Crypto.v
Record.v
RecordFormat.v
RecordWriter.v
RecordReader.v
RecordTotal.v
RecordIntegrity.v
RecordSpec.v
SyncQueue.v
LogWriter.v
LogWriterFacts.v
LogWriterSpec.v
LogWriterLive.v
LogWriterExamples.v
KeyManager.v
KeyManagerSpec.v
Freshness.v
GoStd.v
Filenames.v
Comparer.v
InternalKey.v
Keyspan.v
KeyspanSpec.v
RangeKey.v
RangeKeySpec.v
RangeKeyCoalesce.v
Iterators.v
Arenaskl.v
ArenasklAlloc.v
ArenasklSpec.v
ArenasklAdd.v
ArenasklIter.v
ArenasklRun.v
ArenasklExamples.v
Batch.v
BatchSpec.v
BatchRoundtrip.v
MemTable.v
MemTableSpec.v
RecordSpans.v
MemTableSteps.v
Flushable.v
FlushableSpec.v
FlushableEquiv.v
FlushableIter.v
FlushableExamples.v
Commit.v
CommitFacts.v
CommitInv.v
CommitSteps.v
CommitRing.v
CommitPublish.v
CommitSpec.v
CommitLive.v
CommitExamples.v
ValueBlock.v
Block.v
BlockFormat.v
BlockRead.v
BlockIter.v
BlockSeek.v
BlockPrefix.v
Sstable.v
BlockSpec.v
SstableSpec.v
Bloom.v
Merger.v
CompactionIter.v
CompactionStep.v
CompactionNext.v
CompactionOps.v
CompactionLoop.v
Splitter.v
Compaction.v
CompactionRun.v
CompactionOutput.v
CompactionFinish.v
CompactionSpec.v
CompactionExamples.v
