(* ===== verification/Prelude.v ===== *)
(** * Verification of estore

    estore is a key-value store that encrypts its files: a fork of Pebble, an LSM tree in
    Go.  Writes are collected in batches, a batch is appended to a write-ahead log and
    applied to a memtable (or, if it is large, becomes one), memtables are flushed to
    tables and tables are compacted.  Every file is encrypted with a key of its own, and a
    counter protects against going back to an older state of the store.  This development
    covers the log and its encryption, the key manager, the counter, the way of a write
    from a batch through the commit pipeline to the memtable, the blocks of tables with
    their encryption and bloom filters, and compactions.

    ** Conventions

    Pure code is translated to functions, methods to functions that take and return the
    struct, which is a record updated with [r <| field := v |>].  Code that may panic is in
    the monad [go] ([Ret] or [Panic]), code that may fail returns [result] or a pair with
    an optional error.  Bytes are lists of [Byte.byte]; sizes of slices are [nat]; integers
    whose width matters are [Z] with [u8], [u32], [u64], [i32], [i64] where the code wraps.
    What the code does through an interface, or with a package that is not part of the
    repository, is a type class with its operations, and a second class with the laws the
    theorems use; concrete instances show that the laws can hold.

    Loops that are not structural take fuel.  The fuel is the length of the data that is
    left, or a count of the bits or digits that can be processed, so that running out of it
    is a panic that the theorems exclude; where a result is claimed it is claimed to be
    returned, never only to be right if it is.

    ** Files

    - Prelude.v: bytes, integers, records, the monads, fixed-width and varint encodings.
    - Crypto.v: interfaces of AES-GCM, HMAC and HKDF; [GetCipher] of internal/edg/edg.go.
    - Record.v: [Writer] and [Reader] of record/record.go, chunks in 32 KiB blocks, each
      sealed with a nonce that counts chunks.  RecordFormat.v is the format as a relation;
      RecordWriter.v, RecordReader.v, RecordTotal.v and RecordIntegrity.v relate it to the
      code; RecordSpec.v has the theorems.
    - SyncQueue.v: the lock-free queue of sync waiters in record/log_writer.go.
      LogWriter.v: [LogWriter] of the same file as two threads with step functions that
      interleave.  LogWriterFacts.v has the invariants, LogWriterSpec.v and LogWriterLive.v
      the theorems, LogWriterExamples.v executions on a concrete disk.
    - KeyManager.v: internal/edg/key.go, the SALTCHAIN file and the OPTIONS file;
      KeyManagerSpec.v its guarantees.
    - Freshness.v: the monotonic counter of edg.go and [Commit] of transaction.go.
    - Comparer.v, InternalKey.v, Filenames.v: comparer.go, internal.go and filenames.go of
      internal/base.  GoStd.v models what is used of Go's sort, strconv, strings
      and fmt.
    - Keyspan.v: span.go and fragmenter.go of internal/keyspan; KeyspanSpec.v.
    - RangeKey.v: internal/rangekey and internal/rangedel; RangeKeySpec.v for the encoding,
      RangeKeyCoalesce.v for coalescing.
    - Batch.v: [Batch] and [BatchReader] of batch.go; BatchSpec.v has the invariant of the
      buffer, BatchRoundtrip.v the theorems.
    - Iterators.v: the interface of iterators over internal keys (internal/base/iterator.go)
      and what it promises, as an iterator over a sorted list.
    - Arenaskl.v: internal/arenaskl, the arena and the skiplists of memtables.
      ArenasklAlloc.v is about allocation and links, ArenasklSpec.v has the invariant of a
      skiplist and the search, ArenasklAdd.v insertion, ArenasklIter.v the iterators;
      ArenasklRun.v is about several skiplists in one arena and has the theorems,
      ArenasklExamples.v a concrete skiplist.
    - MemTable.v: mem_table.go, and the fragmenting functions of batch.go.  MemTableSpec.v
      relates applying a batch to the skiplists, RecordSpans.v is about the spans in a
      batch, MemTableSteps.v has the states of a memtable in use and the theorems.
    - Flushable.v: [flushableBatch] and its iterator in batch.go; FlushableSpec.v,
      FlushableEquiv.v and FlushableIter.v; FlushableExamples.v has concrete batches.
    - Commit.v: commit.go as a transition system, one access to shared memory per step, for
      any number of goroutines that commit batches or allocate sequence numbers.
      CommitFacts.v, CommitRing.v, CommitInv.v, CommitSteps.v and CommitPublish.v have the
      invariant and its preservation, CommitSpec.v and CommitLive.v the theorems,
      CommitExamples.v executions.
    - ValueBlock.v: value prefixes and value handles of sstable/value_block.go.
    - Block.v: sstable/block.go, the writer of blocks and the block iterator.  BlockFormat.v
      is the format of a block, BlockRead.v and BlockIter.v relate decoding and the moves of
      the iterator to it, BlockSeek.v seeks, BlockPrefix.v [NextPrefix]; BlockSpec.v has the
      theorem and a concrete block.
    - Sstable.v: writing and reading one block of a table, its checksum, compression and
      encryption, and the footer (writer.go, reader.go, edg.go, table.go of sstable).
      SstableSpec.v has the theorems and a concrete table.
    - Bloom.v: bloom/bloom.go and sstable/filter.go, bloom filters.
    - Merger.v: the interface of merge operators and the default one (internal/base/merger.go).
    - CompactionIter.v: compaction_iter.go, the iterator that drops, merges and rewrites keys.
      CompactionStep.v says what a compaction may do to the entries of a key without any
      reader noticing; CompactionNext.v, CompactionOps.v and CompactionLoop.v show that each
      method of the iterator does such steps.
    - Splitter.v: the output splitters of compaction.go, with the interface and its laws.
    - Compaction.v: the loop of [runCompaction] in compaction.go with [finishOutput], the rules
      for eliding tombstones, and the bounds of tables (internal/manifest/version.go).
      CompactionRun.v has the invariant of a running compaction, CompactionOutput.v fills an
      output, CompactionFinish.v finishes it; CompactionSpec.v has the theorems and
      CompactionExamples.v a concrete compaction.

    ** Theorems

    - Compactions (C1, C2): a compaction ends, and every reader finds in its tables what it
      found in the input; the tables are in order and keep the range keys.
    - Records (C3-C5): what is written is read back; on any bytes, reading ends and gives a
      prefix of what was written, provided that the cipher cannot be forged; errors stay.
    - Log writer (C6-C10): a record whose waiter is released without an error is on disk; a
      closed log reads back; no panic, no lost wakeup, and closing ends; the queue is a FIFO.
      A record of 2 GiB or more is cut short ([logwriter_long_record]).
    - Key manager (C11-C13): exactly the chains of salts linked by their HMACs are accepted;
      two with the same last MAC are equal, up to a collision between blocks of the two; keys
      survive reopening.
    - Rollback protection (C14, C15): a store is accessible after any crash, and no accepted
      rollback undoes an acknowledged transaction that is not the last; [freshness_gap] shows
      that the last one is not covered.
    - Keys, names, spans (C16-C21): round trips; order and separators of internal keys; the
      fragmenter preserves which keys apply to which user key; coalescing of range keys.
    - Skiplists (C22, C23): additions keep them sorted, and their iterators are iterators
      over the sorted entries.  Inserters must be given new keys ([inserter_duplicate] shows
      why).
    - Batches (C24): what is written to a batch is read from it.
    - Memtables (C25-C28): a batch that has reserved room can be applied; a memtable shows
      the batches that were applied; a flushable batch looks like a memtable unless it has
      log data, which is a defect ([flushable_logdata]); its iterator.
    - Commits (C29-C35): what is visible is applied; the log is in the order of sequence
      numbers; what a call has done, for every way in which it returns; no panic; some goroutine can always
      move, and all calls end.
    - Tables (C36-C40): the iterator of a block that the writer built is an iterator over its
      entries; nonces of a table do not repeat; what is read from a changed table is what
      was written at that position, up to forgery; round trip; bloom filters never deny a key
      that was added.

    ** Assumptions

    The laws of the classes: [AEADLaws], [MACLaws], [LogSinkLaws], [PathsLaws], [SortLaws]
    and [ComparerLaws] state documented behaviour of packages or of user-supplied code.
    [ArenaEnv], the random numbers for the heights of towers and the leftovers in reused
    buffers, has no laws.  [BatchSkl], the skiplist that indexes a batch, has none either:
    the theorems on batches are about batches without an index.  The commit pipeline calls
    its environment (the log and the memtable) through parameters; its theorems assume that
    sequence numbers stay in their range, that the counters of its queue do not lap, and
    that a batch is committed once.  Blocks are shorter than 2^31 bytes, and a read outside
    of a block is a panic.  [BlockEnv], snappy and xxhash, has laws for the round trip only.
    [MergeLaws] states that merging is associative, does not fail and does not delete; the
    interface allows the last two, and then a compaction may fail, lose the key as documented
    or panic ([deleting_merger_panics]).  The
    theorems on compactions assume that the merged input is sorted and in the range of the
    compaction, that the files of the next level and the key ranges in use are in order, and
    that the levels below have only keys that are in use; about a key, that single deletes
    are used as documented.

    ** Not modelled

    - Memory: slices are values.  Where a slice is shared and later written (a batch's
      deferred operation) positions in the buffer are kept; other aliasing and buffer pools
      are not modelled.
    - Concurrency, other than in the log writer, its queue and commits: batches reserve room in a
      memtable and are applied in any order, but one call at a time.  The retries of the
      skiplists are modelled, and proved not to change the result; nothing makes them
      necessary here.
    - Indexed batches beyond the calls that fill the index: batchIter, [Get] and [NewIter];
      flushFlushableBatchIter.
    - Of tables: the index and the properties, the iterators over a table, the writer of
      value blocks, and what the writer keeps between two blocks.
    - Of compactions: the choice of compactions, the merging iterator that makes their input,
      the calculation of the key ranges in use, and the heap of frontiers, which is replaced
      by what it does: the splitters are told the key that is returned.
    - The skiplist of internal/batchskl, versions and the manifest, iterators over the
      database, ingestion and caches: larger parts that have no definitions here.
    - File systems, object storage, metrics, events and tools: input and output, reporting.
*)
From stdpp Require Export base list gmap numbers strings.
From Stdlib Require Export ZArith Lia.
From Stdlib Require Import Strings.Byte.

#[export] Set Default Goal Selector "!".

(** ** Bytes *)
Abbreviation byte := Byte.byte.
Abbreviation bytes := (list byte).

#[export] Instance byte_eq_dec : EqDecision byte := Byte.byte_eq_dec.
Lemma byte_of_to_N b : Byte.of_N (Byte.to_N b) = Some b.
Proof. apply Byte.of_to_N. Qed.
#[export] Instance byte_countable : Countable byte :=
  inj_countable Byte.to_N Byte.of_N byte_of_to_N.

Definition b2z (b : byte) : Z := Z.of_N (Byte.to_N b).
Definition z2b (z : Z) : byte := default x00 (Byte.of_N (Z.to_N (z mod 256))).

Lemma b2z_range b : (0 <= b2z b < 256)%Z.
Proof. unfold b2z. pose proof (Byte.to_N_bounded b). lia. Qed.

Lemma b2z_z2b z : b2z (z2b z) = (z mod 256)%Z.
Proof.
  unfold b2z, z2b.
  pose proof (Z.mod_pos_bound z 256 ltac:(lia)).
  destruct (Byte.of_N (Z.to_N (z mod 256))) as [b|] eqn:E; simpl.
  - apply Byte.to_of_N in E. rewrite E. lia.
  - apply Byte.of_N_None_iff in E. lia.
Qed.

Lemma b2z_inj a b : b2z a = b2z b -> a = b.
Proof.
  unfold b2z. intros H. assert (Byte.to_N a = Byte.to_N b) as E by lia.
  pose proof (Byte.of_to_N a) as Ha. rewrite E, Byte.of_to_N in Ha. congruence.
Qed.

Lemma z2b_b2z b : z2b (b2z b) = b.
Proof.
  apply b2z_inj. rewrite b2z_z2b. apply Z.mod_small, b2z_range.
Qed.

(** ** Machine integers *)
Section words.
Local Open Scope Z_scope.

Definition u64 (z : Z) : Z := z mod 2 ^ 64.
Definition u32 (z : Z) : Z := z mod 2 ^ 32.
Definition u8 (z : Z) : Z := z mod 256.
Definition i32 (z : Z) : Z := (z + 2 ^ 31) mod 2 ^ 32 - 2 ^ 31.
Definition i64 (z : Z) : Z := (z + 2 ^ 63) mod 2 ^ 64 - 2 ^ 63.

Lemma u64_range z : 0 <= u64 z < 2 ^ 64.
Proof. apply Z.mod_pos_bound. lia. Qed.
Lemma u64_small z : 0 <= z < 2 ^ 64 -> u64 z = z.
Proof. apply Z.mod_small. Qed.
Lemma i32_small z : - 2 ^ 31 <= z < 2 ^ 31 -> i32 z = z.
Proof. intros. unfold i32. rewrite Z.mod_small; lia. Qed.

Lemma i64_small z : - 2 ^ 63 <= z < 2 ^ 63 -> i64 z = z.
Proof. intros. unfold i64. rewrite Z.mod_small; lia. Qed.

Lemma u32_range z : 0 <= u32 z < 2 ^ 32.
Proof. apply Z.mod_pos_bound. lia. Qed.
Lemma u32_small z : 0 <= z < 2 ^ 32 -> u32 z = z.
Proof. apply Z.mod_small. Qed.

(** Disjoint bit ranges: [lor] is addition. *)
Lemma lor_shiftl_add x y s :
  0 <= s -> 0 <= x < 2 ^ s -> Z.lor x (Z.shiftl y s) = x + y * 2 ^ s.
Proof.
  intros Hs Hx. rewrite <- Z.shiftl_mul_pow2 by lia.
  assert (Z.land x (Z.shiftl y s) = 0) as E.
  { apply Z.bits_inj'. intros n Hn. rewrite Z.land_spec, Z.bits_0.
    destruct (Z.lt_ge_cases n s).
    - rewrite (Z.shiftl_spec_low y s n) by lia. apply andb_false_r.
    - rewrite <- (Z.mod_small x (2 ^ s)) by lia.
      by rewrite Z.mod_pow2_bits_high by lia. }
  by rewrite Z.add_nocarry_lxor, Z.lxor_lor.
Qed.

Lemma land_ones_mod x n : 0 <= n -> Z.land x (2 ^ n - 1) = x mod 2 ^ n.
Proof.
  intros. rewrite <- Z.land_ones by lia. by rewrite Z.ones_equiv, <- Z.sub_1_r.
Qed.
End words.

(** A Go string constant. *)
Definition bytes_of_string (s : string) : bytes := String.list_byte_of_string s.

(** ** Record update *)

(** [r <| f := v |>] is the record [r] with field [f] changed.  An instance of
    [Settable] rebuilds the record from its projections; the setter of a field
    is found by abstracting that projection. *)
Class Settable (R : Type) := rebuild : R -> R.
Class Setter {R T : Type} (proj : R -> T) := set : (T -> T) -> R -> R.
#[export] Hint Extern 1 (@Setter ?R ?T ?proj) =>
  (let i := constr:(_ : Settable R) in
   let b := eval hnf in i in
   match eval pattern proj in b with
   | ?g _ => exact (fun f => g (fun r => f (proj r)))
   end) : typeclass_instances.
Global Arguments set {R T} proj {_} f r.
Notation "r <| f := v |>" := (set f (fun _ => v) r)
  (at level 1, f at next level, left associativity).

(** ** Slices *)

(** [slice l i j] is Go's [l[i:j]]. *)
Definition slice {A} (l : list A) (i j : nat) : list A := take (j - i) (drop i l).

(** [copy_at dst i src] is [copy(dst[i:], src)]: it overwrites as many elements
    of [dst] from index [i] as both sides have. *)
Definition copy_at {A} (dst : list A) (i : nat) (src : list A) : list A :=
  take i dst ++ take (length dst - i) src ++ drop (i + length src) dst.

Create Rewrite HintDb len.
#[export] Hint Rewrite @length_app @length_take @length_drop @length_replicate
  @length_insert @length_fmap @length_nil @length_cons : len.

(** [len] proves equalities and inequalities on list lengths. *)
Ltac len := autorewrite with len in *; first [lia | simpl in *; try lia].

Section slices.
Context {A : Type}.
Implicit Types l a b c : list A.

Lemma length_slice l i j :
  length (slice l i j) = (Nat.min (j - i) (length l - i))%nat.
Proof. unfold slice. len. Qed.

Lemma slice_app_mid a b c i j :
  i = length a -> j = (length a + length b)%nat -> slice (a ++ b ++ c) i j = b.
Proof.
  intros -> ->. unfold slice. rewrite drop_app_length.
  apply take_app_length'. lia.
Qed.

Lemma slice_app_l a b i j : j = length a -> slice (a ++ b) i j = drop i a.
Proof.
  intros ->. unfold slice. rewrite drop_app. apply take_app_length'. len.
Qed.

Lemma slice_app_lm a b c i j :
  (i <= length a)%nat -> j = (length a + length b)%nat ->
  slice (a ++ b ++ c) i j = drop i a ++ b.
Proof.
  intros Hi ->. rewrite app_assoc, slice_app_l by len.
  by rewrite drop_app_le.
Qed.

Lemma slice_alt l i j : slice l i j = drop i (take j l).
Proof. unfold slice. by rewrite skipn_firstn_comm. Qed.

Lemma slice_nil l i : slice l i i = [].
Proof. unfold slice. by rewrite Nat.sub_diag. Qed.

Lemma slice_to_end l i j : (length l <= j)%nat -> slice l i j = drop i l.
Proof. intros. unfold slice. apply take_ge. len. Qed.

Lemma slice_all l j : (length l <= j)%nat -> slice l 0 j = l.
Proof. intros. unfold slice. rewrite drop_0. apply take_ge. lia. Qed.

Lemma slice_split l i j k :
  (i <= j <= k)%nat -> slice l i k = slice l i j ++ slice l j k.
Proof.
  intros. unfold slice.
  replace (k - i)%nat with ((j - i) + (k - j))%nat by lia.
  rewrite <- (take_take_drop (drop i l) (j - i)), drop_drop.
  do 3 f_equal. lia.
Qed.

Lemma slice_drop l i j k : slice (drop i l) j k = slice l (i + j) (i + k).
Proof. unfold slice. rewrite drop_drop. f_equal. lia. Qed.

Lemma slice_app_prefix a b j k : (k <= length a)%nat -> slice (a ++ b) j k = slice a j k.
Proof.
  intros Hk. unfold slice. destruct (decide (j <= length a)%nat).
  - rewrite drop_app_le by lia. apply take_app_le. len.
  - replace (k - j)%nat with 0%nat by lia. done.
Qed.

Lemma slice_slice l i j m n :
  (i + n <= j)%nat -> slice (slice l i j) m n = slice l (i + m) (i + n).
Proof.
  intros Hn. unfold slice. rewrite skipn_firstn_comm, drop_drop, take_take.
  f_equal. lia.
Qed.

Lemma slice_decompose l i j :
  (i <= j <= length l)%nat -> l = take i l ++ slice l i j ++ drop j l.
Proof.
  intros. unfold slice. rewrite <- (take_drop i l) at 1. f_equal.
  rewrite <- (take_drop (j - i) (drop i l)) at 1. f_equal.
  rewrite drop_drop. f_equal. lia.
Qed.

Lemma length_copy_at l i a : length (copy_at l i a) = length l.
Proof. unfold copy_at. len. Qed.

(** Overwriting an interval of the right size. *)
Lemma copy_at_app a b b' c i :
  i = length a -> length b' = length b ->
  copy_at (a ++ b ++ c) i b' = a ++ b' ++ c.
Proof.
  intros -> Hb. unfold copy_at. rewrite take_app_length. f_equal.
  rewrite take_ge by len. f_equal.
  rewrite drop_app_add. apply drop_app_length'. lia.
Qed.

Lemma slice_copy_at_before l i a j k :
  (k <= i)%nat -> slice (copy_at l i a) j k = slice l j k.
Proof.
  intros Hk. unfold slice, copy_at. apply list_eq. intros n.
  destruct (decide (n < k - j)%nat); [|rewrite !lookup_take_ge by lia; done].
  rewrite !lookup_take_lt, !lookup_drop by lia.
  destruct (decide (j + n < length l)%nat).
  - rewrite lookup_app_l by len. by rewrite lookup_take_lt by lia.
  - rewrite !lookup_ge_None_2 by len. done.
Qed.

Lemma slice_copy_at_extend l i a j k :
  (j <= i <= length l)%nat -> k = (i + Nat.min (length l - i) (length a))%nat ->
  slice (copy_at l i a) j k = slice l j i ++ take (length l - i) a.
Proof.
  intros Hj ->. unfold copy_at. rewrite slice_app_lm by len.
  f_equal. unfold slice. rewrite take_drop_commute. do 2 f_equal. lia.
Qed.

Lemma insert_app_mid a x y c i :
  i = length a -> <[i := y]> (a ++ x :: c) = a ++ y :: c.
Proof.
  intros ->. rewrite insert_app_r_alt by lia. by rewrite Nat.sub_diag.
Qed.
End slices.
#[export] Hint Rewrite @length_slice @length_copy_at : len.

(** ** Little-endian integers (package [encoding/binary]) *)
Section endian.
Local Open Scope Z_scope.

(** [le_put n z]: the [n] low bytes of [z], least significant first. *)
Fixpoint le_put (n : nat) (z : Z) : bytes :=
  match n with
  | O => []
  | S n => z2b z :: le_put n (Z.shiftr z 8)
  end.

Fixpoint le_get (l : bytes) : Z :=
  match l with
  | [] => 0
  | b :: l => Z.lor (b2z b) (Z.shiftl (le_get l) 8)
  end.

Definition PutUint16 (z : Z) : bytes := le_put 2 z.
Definition PutUint32 (z : Z) : bytes := le_put 4 z.
Definition PutUint64 (z : Z) : bytes := le_put 8 z.
Definition Uint16 (l : bytes) : Z := le_get (take 2 l).
Definition Uint32 (l : bytes) : Z := le_get (take 4 l).
Definition Uint64 (l : bytes) : Z := le_get (take 8 l).

Lemma length_le_put n z : length (le_put n z) = n.
Proof. revert z. induction n; simpl; auto. Qed.

Lemma le_get_cons b l : le_get (b :: l) = b2z b + 256 * le_get l.
Proof.
  simpl. rewrite lor_shiftl_add by (pose proof (b2z_range b); lia). lia.
Qed.

Lemma le_get_range l : 0 <= le_get l < 2 ^ (8 * Z.of_nat (length l)).
Proof.
  induction l as [|b l IH]; [simpl; lia|].
  rewrite le_get_cons, length_cons, Nat2Z.inj_succ.
  replace (8 * Z.succ (Z.of_nat (length l))) with (8 + 8 * Z.of_nat (length l)) by lia.
  rewrite Z.pow_add_r by lia. pose proof (b2z_range b). lia.
Qed.

Lemma le_get_put n z : le_get (le_put n z) = z mod 2 ^ (8 * Z.of_nat n).
Proof.
  revert z. induction n as [|n IH]; intros z; [by rewrite Z.mod_1_r|].
  cbn [le_put]. rewrite le_get_cons, IH, b2z_z2b.
  rewrite Z.shiftr_div_pow2 by lia.
  replace (8 * Z.of_nat (S n)) with (8 + 8 * Z.of_nat n) by lia.
  rewrite Z.pow_add_r, Z.rem_mul_r by lia. change (2 ^ 8) with 256. lia.
Qed.

Lemma le_put_get l : le_put (length l) (le_get l) = l.
Proof.
  induction l as [|b l IH]; [done|].
  rewrite le_get_cons. cbn [length le_put]. f_equal.
  - apply b2z_inj. rewrite b2z_z2b. pose proof (b2z_range b).
    rewrite Z.add_mod, Z.mul_comm, Z.mod_mul by lia.
    rewrite Z.add_0_r, Z.mod_mod, Z.mod_small by lia. done.
  - rewrite Z.shiftr_div_pow2 by lia. change (2 ^ 8) with 256.
    rewrite Z.mul_comm, Z.div_add by lia. pose proof (b2z_range b).
    rewrite Z.div_small by lia. by rewrite Z.add_0_l.
Qed.

Lemma le_put_inj n x y :
  0 <= x < 2 ^ (8 * Z.of_nat n) -> 0 <= y < 2 ^ (8 * Z.of_nat n) ->
  le_put n x = le_put n y -> x = y.
Proof.
  intros Hx Hy H. apply (f_equal le_get) in H. rewrite !le_get_put in H.
  by rewrite !Z.mod_small in H.
Qed.

Lemma Uint16_Put z l : 0 <= z < 2 ^ 16 -> Uint16 (PutUint16 z ++ l) = z.
Proof.
  intros. unfold Uint16. rewrite take_app_length' by (symmetry; apply length_le_put).
  unfold PutUint16. rewrite le_get_put. by apply Z.mod_small.
Qed.
Lemma Uint32_Put z l : 0 <= z < 2 ^ 32 -> Uint32 (PutUint32 z ++ l) = z.
Proof.
  intros. unfold Uint32. rewrite take_app_length' by (symmetry; apply length_le_put).
  unfold PutUint32. rewrite le_get_put. by apply Z.mod_small.
Qed.
Lemma Uint64_Put z l : 0 <= z < 2 ^ 64 -> Uint64 (PutUint64 z ++ l) = z.
Proof.
  intros. unfold Uint64. rewrite take_app_length' by (symmetry; apply length_le_put).
  unfold PutUint64. rewrite le_get_put. by apply Z.mod_small.
Qed.
Lemma PutUint64_Uint64 l : length l = 8%nat -> PutUint64 (Uint64 l) = l.
Proof.
  intros H. unfold PutUint64, Uint64. rewrite take_ge by lia.
  rewrite <- H. apply le_put_get.
Qed.
Lemma Uint64_range l : 0 <= Uint64 l < 2 ^ 64.
Proof.
  unfold Uint64. pose proof (le_get_range (take 8 l)) as H.
  assert (2 ^ (8 * Z.of_nat (length (take 8 l))) <= 2 ^ 64); [|lia].
  apply Z.pow_le_mono_r; [lia|]. rewrite length_take. lia.
Qed.
Lemma length_PutUint16 z : length (PutUint16 z) = 2%nat.
Proof. apply length_le_put. Qed.
Lemma length_PutUint32 z : length (PutUint32 z) = 4%nat.
Proof. apply length_le_put. Qed.
Lemma length_PutUint64 z : length (PutUint64 z) = 8%nat.
Proof. apply length_le_put. Qed.
End endian.
#[export] Hint Rewrite @length_le_put @length_PutUint16 @length_PutUint32
  @length_PutUint64 : len.
Global Arguments le_put : simpl never.
Global Arguments le_get : simpl never.
Global Arguments PutUint16 : simpl never.
Global Arguments PutUint32 : simpl never.
Global Arguments PutUint64 : simpl never.

(** ** Errors and results *)

(** Go's [error] values: the sentinels the code compares against, and the
    [errors.New] values, which it only propagates. *)
Inductive error :=
| EOF
| UnexpectedEOF
| New (msg : string).
#[export] Instance error_eq_dec : EqDecision error.
Proof. solve_decision. Defined.

(** A Go function returning [(A, error)], where the value is used only when the
    error is [nil]. *)
Inductive result (A : Type) :=
| Ok (a : A)
| Err (e : error).
Global Arguments Ok {_} _.
Global Arguments Err {_} _.

(** A Go function that may panic. *)
Inductive go (A : Type) :=
| Ret (a : A)
| Panic (msg : string).
Global Arguments Ret {_} _.
Global Arguments Panic {_} _.

#[export] Instance result_ret : MRet result := fun A a => Ok a.
#[export] Instance result_bind : MBind result := fun A B f m =>
  match m with Ok a => f a | Err e => Err e end.
#[export] Instance go_ret : MRet go := fun A a => Ret a.
#[export] Instance go_bind : MBind go := fun A B f m =>
  match m with Ret a => f a | Panic s => Panic s end.

Lemma bind_Ret {A B} (a : A) (f : A -> go B) : (Ret a ≫= f) = f a.
Proof. done. Qed.

(** Instantiates an existential state with the one a computation returns. *)
Ltac witness_ret :=
  match goal with
  | |- exists w, Ret (?a, _) = _ /\ _ => exists a; split; [reflexivity|]
  | |- exists w, Ret ?a = _ /\ _ => exists a; split; [reflexivity|]
  | |- exists w, Some (?a, _) = _ /\ _ => exists a; split; [reflexivity|]
  end.

Lemma result_bind_Ok {A B} (m : result A) (f : A -> result B) b :
  m ≫= f = Ok b -> exists a, m = Ok a /\ f a = Ok b.
Proof. destruct m; [eauto | discriminate]. Qed.

(** A function that may fail or panic; the early returns of errors. *)
Definition bind_ok {A B} (m : go (result A)) (f : A -> go (result B)) : go (result B) :=
  match m with
  | Ret (Ok a) => f a
  | Ret (Err e) => Ret (Err e)
  | Panic s => Panic s
  end.
Notation "x ⇐ m ; k" := (bind_ok m (fun x => k)) (at level 20, m at level 100, k at level 200, right associativity).
Notation "' x ⇐ m ; k" := (bind_ok m (fun x => k))
  (at level 20, x pattern, m at level 100, k at level 200, right associativity).
Lemma bind_ok_Ok {A B} (a : A) (f : A -> go (result B)) : bind_ok (Ret (Ok a)) f = f a.
Proof. done. Qed.
Lemma bind_ok_inv {A B} (m : go (result A)) (f : A -> go (result B)) b :
  bind_ok m f = Ret (Ok b) -> exists a, m = Ret (Ok a) /\ f a = Ret (Ok b).
Proof. destruct m as [[a|e]|s]; [eauto|discriminate..]. Qed.

(** ** Unsigned varints (package [encoding/binary]) *)
Section varint.
Local Open Scope Z_scope.

Definition MaxVarintLen64 : nat := 10.

(** [binary.AppendUvarint] / [PutUvarint]; nine continuation bytes are enough
    for 64 bits. *)
Fixpoint put_uvarint_aux (fuel : nat) (x : Z) : bytes :=
  match fuel with
  | O => [z2b x]
  | S fuel =>
      if x <? 128 then [z2b x]
      else z2b (Z.lor x 128) :: put_uvarint_aux fuel (Z.shiftr x 7)
  end.
Definition PutUvarint (x : Z) : bytes := put_uvarint_aux 9 x.

(** [binary.Uvarint]: the value and the number of bytes read; 0 when [buf] is
    too short, negative on overflow. *)
Fixpoint uvarint_aux (buf : bytes) (i : nat) (x s : Z) : Z * Z :=
  match buf with
  | [] => (0, 0)
  | b :: buf =>
      if (i =? MaxVarintLen64)%nat then (0, - (Z.of_nat i + 1))
      else if b2z b <? 128 then
        if (i =? MaxVarintLen64 - 1)%nat && (1 <? b2z b) then (0, - (Z.of_nat i + 1))
        else (Z.lor x (u64 (Z.shiftl (b2z b) s)), Z.of_nat i + 1)
      else uvarint_aux buf (S i) (Z.lor x (u64 (Z.shiftl (Z.land (b2z b) 127) s))) (s + 7)
  end.
Definition Uvarint (buf : bytes) : Z * Z := uvarint_aux buf 0 0 0.

Lemma b2z_cont x : b2z (z2b (Z.lor x 128)) = 128 + x mod 128.
Proof.
  rewrite b2z_z2b. apply Z.bits_inj'. intros n Hn.
  replace (128 + x mod 128) with (x mod 2 ^ 7 + 1 * 2 ^ 7) by (change (2 ^ 7) with 128; lia).
  rewrite <- lor_shiftl_add by (try apply Z.mod_pos_bound; lia).
  change 256 with (2 ^ 8). change (Z.shiftl 1 7) with (2 ^ 7). change 128 with (2 ^ 7).
  rewrite Z.lor_spec.
  destruct (Z.lt_ge_cases n 8).
  - rewrite Z.mod_pow2_bits_low, Z.lor_spec by lia.
    destruct (Z.lt_ge_cases n 7).
    + by rewrite Z.mod_pow2_bits_low by lia.
    + replace n with 7 by lia. by rewrite Z.pow2_bits_true, !orb_true_r.
  - rewrite !Z.mod_pow2_bits_high by lia.
    rewrite Z.pow2_bits_false by lia. done.
Qed.

Lemma put_uvarint_aux_spec fuel x rest i acc :
  (i + fuel = 9)%nat ->
  0 <= acc < 2 ^ (7 * Z.of_nat i) ->
  0 <= x < 2 ^ (64 - 7 * Z.of_nat i) ->
  uvarint_aux (put_uvarint_aux fuel x ++ rest) i acc (7 * Z.of_nat i) =
    (acc + x * 2 ^ (7 * Z.of_nat i),
     Z.of_nat (i + length (put_uvarint_aux fuel x))).
Proof.
  revert x i acc. induction fuel as [|fuel IH]; intros x i acc Hi Hacc Hx.
  - assert (i = 9%nat) as -> by lia. simpl in Hx. simpl.
    rewrite b2z_z2b, Z.mod_small by lia.
    destruct (Z.ltb_spec x 128); [|lia]. destruct (Z.ltb_spec 1 x); [lia|].
    simpl in Hacc. rewrite u64_small.
    + change (7 * Z.of_nat 9) with 63. rewrite lor_shiftl_add by lia. done.
    + rewrite Z.shiftl_mul_pow2 by lia. lia.
  - pose proof (Z.pow_pos_nonneg 2 (7 * Z.of_nat i) ltac:(lia) ltac:(lia)) as Hpos.
    assert (2 ^ (64 - 7 * Z.of_nat i) * 2 ^ (7 * Z.of_nat i) = 2 ^ 64) as E.
    { rewrite <- Z.pow_add_r by lia. f_equal. lia. }
    assert (forall y, 0 <= y <= x -> u64 (Z.shiftl y (7 * Z.of_nat i)) =
      Z.shiftl y (7 * Z.of_nat i)) as Hu.
    { intros y Hy. apply u64_small. rewrite Z.shiftl_mul_pow2, <- E by lia.
      split; [apply Z.mul_nonneg_nonneg; lia|]. apply Z.mul_lt_mono_pos_r; [done | lia]. }
    simpl. destruct (Z.ltb_spec x 128) as [Hlt|Hge]; simpl.
    + destruct (Nat.eqb_spec i MaxVarintLen64) as [->|_]; [unfold MaxVarintLen64 in *; lia|].
      rewrite b2z_z2b, Z.mod_small by lia.
      destruct (Z.ltb_spec x 128); [|lia].
      destruct (Nat.eqb_spec i 9); [lia|].
      simpl. rewrite Hu by lia. rewrite lor_shiftl_add by lia. f_equal. lia.
    + destruct (Nat.eqb_spec i MaxVarintLen64) as [->|_]; [unfold MaxVarintLen64 in *; lia|].
      rewrite b2z_cont. pose proof (Z.mod_pos_bound x 128 ltac:(lia)).
      destruct (Z.ltb_spec (128 + x mod 128) 128); [lia|].
      assert (Z.land (128 + x mod 128) 127 = x mod 128) as ->.
      { change 127 with (2 ^ 7 - 1). rewrite land_ones_mod by lia.
        change (2 ^ 7) with 128. rewrite <- Z.add_mod_idemp_l by lia.
        rewrite Z.mod_same, Z.add_0_l, Z.mod_mod by lia. done. }
      rewrite Hu by (pose proof (Z.mod_le x 128); lia).
      rewrite lor_shiftl_add by lia.
      replace (7 * Z.of_nat i + 7) with (7 * Z.of_nat (S i)) by lia.
      assert (2 ^ (7 * Z.of_nat (S i)) = 128 * 2 ^ (7 * Z.of_nat i)) as Ep.
      { replace (7 * Z.of_nat (S i)) with (7 + 7 * Z.of_nat i) by lia.
        rewrite Z.pow_add_r by lia. done. }
      rewrite Z.shiftr_div_pow2 by lia. change (2 ^ 7) with 128.
      rewrite IH; [| lia | rewrite Ep; nia |].
      * rewrite Ep. f_equal; [|lia].
        rewrite (Z.div_mod x 128) at 3 by lia. nia.
      * split; [apply Z.div_pos; lia|]. apply Z.div_lt_upper_bound; [lia|].
        replace 128 with (2 ^ 7) by done. rewrite <- Z.pow_add_r by lia.
        replace (7 + (64 - 7 * Z.of_nat (S i))) with (64 - 7 * Z.of_nat i) by lia. lia.
Qed.

(** Decoding an encoded 64-bit integer gives it back, whatever follows it. *)
Lemma Uvarint_Put x rest :
  0 <= x < 2 ^ 64 ->
  Uvarint (PutUvarint x ++ rest) = (x, Z.of_nat (length (PutUvarint x))).
Proof.
  intros Hx. unfold Uvarint, PutUvarint.
  pose proof (put_uvarint_aux_spec 9 x rest 0 0 eq_refl) as H.
  change (7 * Z.of_nat 0) with 0 in H. rewrite H by lia. f_equal. lia.
Qed.

Lemma length_put_uvarint_aux fuel x :
  (1 <= length (put_uvarint_aux fuel x) <= S fuel)%nat.
Proof.
  revert x. induction fuel as [|fuel IH]; intros x; simpl; [lia|].
  destruct (x <? 128); simpl; [lia|]. specialize (IH (Z.shiftr x 7)). lia.
Qed.
Lemma length_PutUvarint x : (1 <= length (PutUvarint x) <= 10)%nat.
Proof. apply length_put_uvarint_aux. Qed.
(** ** Varints of 32 bits

    Decoded by code that is inlined where it is needed. *)
(** The varint of at most five bytes, and its size.  The code reads through pointers
    without checking the length; [None] where that leaves the slice. *)
Definition decodeVarint32 (data : bytes) : option (Z * nat) :=
  match data with
  | [] => None
  | a :: data =>
  let a := b2z a in
  if a <? 128 then Some (a, 1%nat) else
  let a := Z.land a 127 in
  match data with
  | [] => None
  | b :: data =>
  let b := b2z b in
  if b <? 128 then Some (Z.lor (Z.shiftl b 7) a, 2%nat) else
  let b := Z.land b 127 in
  match data with
  | [] => None
  | c :: data =>
  let c := b2z c in
  if c <? 128 then Some (Z.lor (Z.lor (Z.shiftl c 14) (Z.shiftl b 7)) a, 3%nat) else
  let c := Z.land c 127 in
  match data with
  | [] => None
  | d :: data =>
  let d := b2z d in
  if d <? 128
  then Some (Z.lor (Z.lor (Z.lor (Z.shiftl d 21) (Z.shiftl c 14)) (Z.shiftl b 7)) a, 4%nat) else
  let d := Z.land d 127 in
  match data with
  | [] => None
  | e :: _ =>
  Some (Z.lor (Z.lor (Z.lor (Z.lor (u32 (Z.shiftl (b2z e) 28)) (Z.shiftl d 21))
    (Z.shiftl c 14)) (Z.shiftl b 7)) a, 5%nat)
  end end end end end.

Lemma land_127_cont x : Z.land (128 + x mod 128) 127 = x mod 128.
Proof.
  change 127 with (2 ^ 7 - 1). rewrite land_ones_mod by lia. change (2 ^ 7) with 128.
  rewrite <- Z.add_mod_idemp_l by lia. by rewrite Z.mod_same, Z.add_0_l, Z.mod_mod by lia.
Qed.

Lemma shiftl_lor_add x y s :
  0 <= s -> 0 <= y < 2 ^ s -> Z.lor (Z.shiftl x s) y = x * 2 ^ s + y.
Proof. intros. rewrite Z.lor_comm, lor_shiftl_add by lia. lia. Qed.

(** Two digits of a number in base 128 next to each other. *)
Lemma shiftl_lor_shiftl x y s :
  0 <= s -> 0 <= y < 128 ->
  Z.lor (Z.shiftl x (s + 7)) (Z.shiftl y s) = Z.shiftl (x * 128 + y) s.
Proof.
  intros Hs Hy. rewrite (Z.add_comm s 7), <- Z.shiftl_shiftl, <- Z.shiftl_lor by lia.
  f_equal. rewrite shiftl_lor_add by lia. done.
Qed.

Lemma shiftr_7 y : Z.shiftr y 7 = y / 128.
Proof. by rewrite Z.shiftr_div_pow2 by lia. Qed.

(** Encodes one more digit; if it is the last one, evaluates the decoder. *)
Ltac varint_digit :=
  cbn [put_uvarint_aux]; rewrite ?shiftr_7;
  match goal with |- context [(?y <? 128)%Z] => destruct (Z.ltb_spec y 128) end;
  [cbn [app decodeVarint32 length];
   rewrite ?b2z_cont, ?b2z_z2b, ?land_127_cont, ?(Z.mod_small _ 256) by lia;
   repeat match goal with
     | |- context [(?y <? 128)%Z] => rewrite (proj2 (Z.ltb_lt y 128)) by lia
     | |- context [(?y <? 128)%Z] => rewrite (proj2 (Z.ltb_ge y 128)) by lia
     end
  |].

Lemma decodeVarint32_Put x rest :
  0 <= x < 2 ^ 32 ->
  decodeVarint32 (PutUvarint x ++ rest) = Some (x, length (PutUvarint x)).
Proof.
  intros Hx. unfold PutUvarint.
  assert (forall y, 0 <= y -> 0 <= y / 128 /\ y = 128 * (y / 128) + y mod 128 /\ 0 <= y mod 128 < 128)
    as Hd.
  { intros y Hy. split; [apply Z.div_pos; lia|].
    split; [apply Z.div_mod; lia|apply Z.mod_pos_bound; lia]. }
  destruct (Hd x) as (? & ? & ?); [lia|]. destruct (Hd (x / 128)) as (? & ? & ?); [done|].
  destruct (Hd (x / 128 / 128)) as (? & ? & ?); [done|].
  destruct (Hd (x / 128 / 128 / 128)) as (? & ? & ?); [done|].
  varint_digit; [done|].
  varint_digit; [rewrite shiftl_lor_add by lia; do 2 f_equal; lia|].
  varint_digit; [rewrite (shiftl_lor_shiftl _ _ 7), shiftl_lor_add by lia; do 2 f_equal; lia|].
  varint_digit;
    [rewrite (shiftl_lor_shiftl _ _ 14), (shiftl_lor_shiftl _ _ 7), shiftl_lor_add by lia;
     do 2 f_equal; lia|].
  varint_digit; [|lia].
  rewrite u32_small by (rewrite Z.shiftl_mul_pow2 by lia; lia).
  rewrite (shiftl_lor_shiftl _ _ 21), (shiftl_lor_shiftl _ _ 14), (shiftl_lor_shiftl _ _ 7),
    shiftl_lor_add by lia.
  do 2 f_equal. lia.
Qed.

Lemma length_PutUvarint32 x : 0 <= x < 2 ^ 32 -> (length (PutUvarint x) <= 5)%nat.
Proof.
  intros Hx. pose proof (decodeVarint32_Put x [] Hx) as H. revert H.
  unfold decodeVarint32. repeat (case_match; try discriminate; try (intros [= _ <-]; lia)).
Qed.
End varint.
Global Arguments PutUvarint : simpl never.
Global Arguments Uvarint : simpl never.

(** ** Lexicographic order on byte strings ([bytes.Compare]) *)
Section compare.
Fixpoint bytes_Compare (a b : bytes) : comparison :=
  match a, b with
  | [], [] => Eq
  | [], _ :: _ => Lt
  | _ :: _, [] => Gt
  | x :: a, y :: b =>
      match (b2z x ?= b2z y)%Z with
      | Eq => bytes_Compare a b
      | c => c
      end
  end.

Lemma bytes_Compare_refl a : bytes_Compare a a = Eq.
Proof. induction a; simpl; [done|]. by rewrite Z.compare_refl. Qed.

Lemma bytes_Compare_eq a b : bytes_Compare a b = Eq <-> a = b.
Proof.
  split; [|intros ->; apply bytes_Compare_refl].
  revert b. induction a as [|x a IH]; intros [|y b]; simpl; try done.
  destruct (Z.compare_spec (b2z x) (b2z y)) as [E|?|?]; try done.
  intros H. apply b2z_inj in E as ->. by rewrite (IH b).
Qed.

Lemma bytes_Compare_antisym a b : bytes_Compare b a = CompOpp (bytes_Compare a b).
Proof.
  revert b. induction a as [|x a IH]; intros [|y b]; simpl; try done.
  rewrite Z.compare_antisym. destruct (b2z x ?= b2z y)%Z; simpl; auto.
Qed.

Lemma bytes_Compare_lt_trans a b c :
  bytes_Compare a b = Lt -> bytes_Compare b c = Lt -> bytes_Compare a c = Lt.
Proof.
  revert b c. induction a as [|x a IH]; intros [|y b] [|z c]; simpl; try done.
  destruct (Z.compare_spec (b2z x) (b2z y)) as [E1|E1|E1];
    destruct (Z.compare_spec (b2z y) (b2z z)) as [E2|E2|E2];
    destruct (Z.compare_spec (b2z x) (b2z z)) as [E3|E3|E3]; try done; try lia.
  apply IH.
Qed.

Lemma bytes_Compare_app_l p a b :
  bytes_Compare (p ++ a) (p ++ b) = bytes_Compare a b.
Proof. induction p; simpl; [done|]. by rewrite Z.compare_refl. Qed.
End compare.
