(* ===== verification/Crypto.v ===== *)
(** The cryptographic interfaces the store is written against.

    [AEAD] stands for Go's AES-GCM ([crypto/cipher]), [MAC] for HMAC-SHA256
    ([crypto/hmac]) and HKDF-SHA256 ([golang.org/x/crypto/hkdf]); their laws are
    the documented functional behaviour of these primitives.  [GetCipher] is the
    function of internal/edg/edg.go.  The [Toy] instances show that the laws can
    be met and let the other files evaluate concrete inputs. *)
From S2P Require Import Prelude.

(** [GCMTagSize] of internal/edg/edg.go. *)
Definition GCMTagSize : nat := 16.
(** [aead.NonceSize()] of AES-GCM. *)
Definition NonceSize : nat := 12.

(** AES-GCM: key, nonce and plaintext to ciphertext with the tag at its end. *)
Class AEAD := {
  Seal : bytes -> bytes -> bytes -> bytes;
  Open : bytes -> bytes -> bytes -> option bytes;
}.

(** [Open] accepts exactly the output of [Seal] for the same key and nonce: GCM
    encryption is a bijection for a fixed key and nonce and the tag is a
    function of key, nonce and ciphertext. *)
Class AEADLaws (C : AEAD) := {
  Seal_length k n p : length (Seal k n p) = (length p + GCMTagSize)%nat;
  Open_Seal k n p : Open k n (Seal k n p) = Some p;
  Open_Some k n c p : Open k n c = Some p -> c = Seal k n p;
}.

(** HMAC-SHA256 and HKDF-SHA256.  [hkdf master salt n] reads [n] bytes from
    [hkdf.New(sha256.New, master, salt, nil)]. *)
Class MAC := {
  hmac_sha256 : bytes -> bytes -> bytes;
  hkdf : bytes -> bytes -> nat -> result bytes;
}.

(** [sha256.Size]. *)
Definition sha256_Size : nat := 32.

(** HKDF yields at most 255 blocks of output. *)
Class MACLaws (M : MAC) := {
  hmac_length k d : length (hmac_sha256 k d) = sha256_Size;
  hkdf_length k s n out : hkdf k s n = Ok out -> length out = n;
  hkdf_ok k s n : (Z.of_nat n <= 255 * 32)%Z -> exists out, hkdf k s n = Ok out;
}.

(** [aes.NewCipher] accepts 16, 24 and 32 byte keys. *)
Definition aes_key_ok (key : bytes) : bool :=
  (length key =? 16)%nat || (length key =? 24)%nat || (length key =? 32)%nat.

(** [GetCipher] returns the cipher of a key; here a cipher is its key.
    [randomTestKey] is the package variable, empty outside of tests. *)
Definition GetCipher (randomTestKey key : bytes) : result bytes :=
  let key := if (length key =? 0)%nat && (length randomTestKey =? 16)%nat
             then randomTestKey else key in
  if aes_key_ok key then Ok key else Err (New "crypto/aes: invalid key size").

Lemma GetCipher_ok rtk key : aes_key_ok key = true -> GetCipher rtk key = Ok key.
Proof.
  intros H. unfold GetCipher. destruct (length key =? 0)%nat eqn:E; simpl; [|by rewrite H].
  apply Nat.eqb_eq in E. unfold aes_key_ok in H. by rewrite E in H.
Qed.

(** ** Concrete instances *)
Module Toy.
Definition digest (l : bytes) : Z :=
  foldl (fun acc b => Z.land (31 * acc + b2z b + 7) 2305843009213693951)%Z 1%Z l.

Definition tag (k n p : bytes) : bytes :=
  le_put 16 (digest (k ++ n ++ p)).

Definition seal (k n p : bytes) : bytes := p ++ tag k n p.
Definition open (k n c : bytes) : option bytes :=
  let p := take (length c - 16) c in
  if decide (c = seal k n p) then Some p else None.

#[export] Instance toy_aead : AEAD := {| Seal := seal; Open := open |}.

Lemma take_seal k n p : take (length (seal k n p) - 16) (seal k n p) = p.
Proof.
  unfold seal, tag. rewrite length_app, length_le_put.
  apply take_app_length'. lia.
Qed.

#[export] Instance toy_aead_laws : AEADLaws toy_aead.
Proof.
  split; simpl.
  - intros. unfold seal, tag. by rewrite length_app, length_le_put.
  - intros. unfold open. rewrite take_seal. by rewrite decide_True.
  - intros k n c p. unfold open. case_decide as E; [|done].
    intros [= <-]. done.
Qed.

#[export] Instance toy_mac : MAC := {|
  hmac_sha256 k d := le_put 32 (digest (k ++ d));
  hkdf k s n := if (Z.of_nat n <=? 255 * 32)%Z
                then Ok (le_put n (digest (k ++ s)))
                else Err (New "hkdf: entropy limit reached");
|}.

#[export] Instance toy_mac_laws : MACLaws toy_mac.
Proof.
  split; simpl hmac_sha256; simpl hkdf.
  - intros. apply length_le_put.
  - intros k s n out. destruct (Z.of_nat n <=? 255 * 32)%Z; [|discriminate].
    intros [= <-]. apply length_le_put.
  - intros k s n Hn. rewrite (proj2 (Z.leb_le _ _) Hn). eauto.
Qed.
End Toy.
