(* ===== verification/Record.v ===== *)
(** The record format of package record (src/record/record.go): chunks sealed
    with AES-GCM and packed into 32 KiB blocks.

    [Writer] and [Reader] are the two structs of the file with one definition
    per method; [stream] is the on-disk format both are proved against. *)
From S2P Require Import Prelude.
From S2P Require Import Crypto.

(** ** Constants of the wire format *)
Definition fullChunkType : byte := z2b 1.
Definition firstChunkType : byte := z2b 2.
Definition middleChunkType : byte := z2b 3.
Definition lastChunkType : byte := z2b 4.

Definition blockSize : nat := Z.to_nat (32 * 1024).
Definition legacyHeaderSize : nat := 19.

Definition ErrInvalidChunk : error := New "pebble/record: invalid chunk".
Definition ErrNoLastRecord : error := New "pebble/record: no last record exists".

Lemma blockSize_Z : Z.of_nat blockSize = 32768%Z.
Proof. unfold blockSize. rewrite Z2Nat.id; lia. Qed.

(** [edgMakeNonce] of src/record/edg.go. *)
Definition edgMakeNonce (iv : Z) : bytes := PutUint64 iv ++ replicate 4 (z2b 0).

(** ** The underlying writer and reader *)

(** The [edg.Writer] a [Writer] is given: [WriteApproved], and the optional
    interfaces [NewWriter] looks for, a flusher and [Seek(0, io.SeekCurrent)]. *)
Class EdgWriter (W : Type) := {
  WriteApproved : W -> bytes -> W * option error;
  Flusher : option (W -> W * option error);
  SeekCurrent : option (W -> result Z);
}.

(** [io.ReadFull] on the [io.Reader] a [Reader] is given: the bytes read, and
    [nil] when all [n] were read, [EOF] when none were, [UnexpectedEOF] when
    the source ended in between, or an error of the source. *)
Class IoReader (R : Type) := {
  ReadFull : R -> nat -> R * bytes * option error;
}.

(** An in-memory file as a sink and as a source. *)
#[export] Instance mem_writer : EdgWriter bytes := {
  WriteApproved s p := (s ++ p, None);
  Flusher := None;
  SeekCurrent := None;
}.
#[export] Instance mem_reader : IoReader bytes := {
  ReadFull s n :=
    (drop n s, take n s,
     if (n <=? length s)%nat then None
     else if (length s =? 0)%nat then Some EOF else Some UnexpectedEOF);
}.

(** ** Writer *)
Record Writer (W : Type) := mkWriter {
  w_w : W;
  w_seq : Z;
  w_i : nat;
  w_j : nat;
  w_written : nat;
  w_baseOffset : Z;
  w_blockNumber : Z;
  w_lastRecordOffset : Z;
  w_first : bool;
  w_pending : bool;
  w_err : option error;
  w_buf : bytes;
  w_EncryptionKey : bytes;
  w_chunkNum : Z;
}.
Global Arguments mkWriter {W}.
Global Arguments w_w {W}.
Global Arguments w_seq {W}.
Global Arguments w_i {W}.
Global Arguments w_j {W}.
Global Arguments w_written {W}.
Global Arguments w_baseOffset {W}.
Global Arguments w_blockNumber {W}.
Global Arguments w_lastRecordOffset {W}.
Global Arguments w_first {W}.
Global Arguments w_pending {W}.
Global Arguments w_err {W}.
Global Arguments w_buf {W}.
Global Arguments w_EncryptionKey {W}.
Global Arguments w_chunkNum {W}.
#[export] Instance writer_settable W : Settable (Writer W) := fun w =>
  mkWriter (w_w w) (w_seq w) (w_i w) (w_j w) (w_written w) (w_baseOffset w)
    (w_blockNumber w) (w_lastRecordOffset w) (w_first w) (w_pending w) (w_err w)
    (w_buf w) (w_EncryptionKey w) (w_chunkNum w).

(** The message of an error, for [panic(err)]. *)
Definition error_msg (e : error) : string :=
  match e with EOF => "EOF" | UnexpectedEOF => "unexpected EOF" | New s => s end.

Section writer.
Context `{C : AEAD} `{EW : EdgWriter W} (randomTestKey : bytes).
Implicit Types w : Writer W.

(** The [EncryptionKey] field is set by the caller right after [NewWriter]. *)
Definition NewWriter (w : W) (key : bytes) : Writer W :=
  let o := match SeekCurrent with
           | Some seek => match seek w with Ok o => o | Err _ => 0%Z end
           | None => 0%Z
           end in
  mkWriter w 0 0 0 0 o 0 (-1) false false None (replicate blockSize (z2b 0)) key 0.

Definition fillHeader w (last : bool) : go (Writer W) :=
  let i := w_i w in
  let j := w_j w in
  if (j <? i + legacyHeaderSize)%nat || (blockSize <? j)%nat
  then Panic "pebble/record: bad writer state"
  else
    let typ := if last then if w_first w then fullChunkType else lastChunkType
               else if w_first w then firstChunkType else middleChunkType in
    let buf := <[(i + 18)%nat := typ]> (w_buf w) in
    let buf := copy_at buf (i + 16)
                 (PutUint16 (Z.of_nat (j - i - legacyHeaderSize))) in
    match GetCipher randomTestKey (w_EncryptionKey w) with
    | Err e => Panic (error_msg e)
    | Ok aead =>
        let chunkNum := u64 (w_chunkNum w + 1) in
        let ciphertext := Seal aead (edgMakeNonce chunkNum) (slice buf (i + 18) j) in
        let n := (length ciphertext - 16)%nat in
        let buf := copy_at buf i (drop n ciphertext) in
        let buf := copy_at buf (i + 18) (take n ciphertext) in
        Ret (w <| w_chunkNum := chunkNum |> <| w_buf := buf |>)
    end.

Definition writeBlock w : Writer W :=
  let '(sink, err) := WriteApproved (w_w w) (drop (w_written w) (w_buf w)) in
  w <| w_w := sink |> <| w_err := err |> <| w_i := 0%nat |>
    <| w_j := legacyHeaderSize |> <| w_written := 0%nat |>
    <| w_blockNumber := (w_blockNumber w + 1)%Z |>.

Definition writePending w : go (Writer W) :=
  match w_err w with
  | Some _ => Ret w
  | None =>
      w ← (if w_pending w
           then w ← fillHeader w true; Ret (w <| w_pending := false |>)
           else Ret w);
      let '(sink, err) := WriteApproved (w_w w) (slice (w_buf w) (w_written w) (w_j w)) in
      Ret (w <| w_w := sink |> <| w_err := err |> <| w_written := w_j w |>)
  end.

Definition Close w : go (Writer W * option error) :=
  w ← writePending (w <| w_seq := (w_seq w + 1)%Z |>);
  match w_err w with
  | Some e => Ret (w, Some e)
  | None => Ret (w <| w_err := Some (New "pebble/record: closed Writer") |>, None)
  end.

Definition Flush w : go (Writer W * option error) :=
  w ← writePending (w <| w_seq := (w_seq w + 1)%Z |>);
  match w_err w with
  | Some e => Ret (w, Some e)
  | None =>
      match Flusher with
      | Some flush =>
          let '(sink, err) := flush (w_w w) in
          Ret (w <| w_w := sink |> <| w_err := err |>, err)
      | None => Ret (w, None)
      end
  end.

(** [Next] returns a [singleWriter], which is the writer and the sequence
    number of the record. *)
Definition Next w : go (Writer W * result Z) :=
  let w := w <| w_seq := (w_seq w + 1)%Z |> in
  match w_err w with
  | Some e => Ret (w, Err e)
  | None =>
      w ← (if w_pending w then fillHeader w true else Ret w);
      let w := w <| w_i := w_j w |> in
      let w := w <| w_j := (w_j w + legacyHeaderSize)%nat |> in
      let w :=
        if (blockSize <? w_j w)%nat
        then writeBlock (w <| w_buf :=
               copy_at (w_buf w) (w_i w) (replicate (blockSize - w_i w) (z2b 0)) |>)
        else w in
      match w_err w with
      | Some e => Ret (w, Err e)
      | None =>
          let w := w <| w_lastRecordOffset :=
            (w_baseOffset w + w_blockNumber w * Z.of_nat blockSize + Z.of_nat (w_i w))%Z |>
            <| w_first := true |> <| w_pending := true |> in
          Ret (w, Ok (w_seq w))
      end
  end.

(** The start of an iteration of [singleWriter.Write]: write a block, if it is
    full. *)
Definition spill w : go (Writer W * option error) :=
  if (w_j w =? blockSize)%nat
  then w ← fillHeader w false;
       let w := writeBlock w in
       match w_err w with
       | Some e => Ret (w, Some e)
       | None => Ret (w <| w_first := false |>, None)
       end
  else Ret (w, None).

(** The loop of [singleWriter.Write]; every iteration consumes a byte of [p]. *)
Fixpoint write_loop (fuel : nat) w (p : bytes) : go (Writer W * option error) :=
  match fuel with
  | O => Ret (w, None)
  | S fuel =>
      match p with
      | [] => Ret (w, None)
      | _ =>
          '(w, err) ← spill w;
          match err with
          | Some e => Ret (w, Some e)
          | None =>
              let n := Nat.min (length (w_buf w) - w_j w) (length p) in
              let w := w <| w_buf := copy_at (w_buf w) (w_j w) p |>
                         <| w_j := (w_j w + n)%nat |> in
              write_loop fuel w (drop n p)
          end
      end
  end.

Definition Write w (seq : Z) (p : bytes) : go (Writer W * result nat) :=
  if (w_seq w =? seq)%Z then
    match w_err w with
    | Some e => Ret (w, Err e)
    | None =>
        '(w, err) ← write_loop (length p) w p;
        match err with
        | Some e => Ret (w, Err e)
        | None => Ret (w, Ok (length p))
        end
    end
  else Ret (w, Err (New "pebble/record: stale writer")).

Definition WriteRecord w (p : bytes) : go (Writer W * result Z) :=
  match w_err w with
  | Some e => Ret (w, Err e)
  | None =>
      '(w, t) ← Next w;
      match t with
      | Err e => Ret (w, Err e)
      | Ok seq =>
          '(w, n) ← Write w seq p;
          match n with
          | Err e => Ret (w, Err e)
          | Ok _ =>
              w ← writePending w;
              let offset := (w_blockNumber w * Z.of_nat blockSize + Z.of_nat (w_j w))%Z in
              Ret (w, match w_err w with Some e => Err e | None => Ok offset end)
          end
      end
  end.

Definition Size w : Z := (w_blockNumber w * Z.of_nat blockSize + Z.of_nat (w_j w))%Z.

Definition LastRecordOffset w : result Z :=
  match w_err w with
  | Some e => Err e
  | None => if (w_lastRecordOffset w <? 0)%Z then Err ErrNoLastRecord
            else Ok (w_lastRecordOffset w)
  end.
End writer.

(** ** Reader *)
Record Reader (R : Type) := mkReader {
  r_r : R;
  r_logNum : Z;
  r_blockNum : Z;
  r_seq : Z;
  r_begin : nat;
  r_end : nat;
  r_n : nat;
  r_recovering : bool;
  r_last : bool;
  r_err : option error;
  r_buf : bytes;
  r_EncryptionKey : bytes;
  r_chunkNum : Z;
}.
Global Arguments mkReader {R}.
Global Arguments r_r {R}.
Global Arguments r_logNum {R}.
Global Arguments r_blockNum {R}.
Global Arguments r_seq {R}.
Global Arguments r_begin {R}.
Global Arguments r_end {R}.
Global Arguments r_n {R}.
Global Arguments r_recovering {R}.
Global Arguments r_last {R}.
Global Arguments r_err {R}.
Global Arguments r_buf {R}.
Global Arguments r_EncryptionKey {R}.
Global Arguments r_chunkNum {R}.
#[export] Instance reader_settable R : Settable (Reader R) := fun r =>
  mkReader (r_r r) (r_logNum r) (r_blockNum r) (r_seq r) (r_begin r) (r_end r)
    (r_n r) (r_recovering r) (r_last r) (r_err r) (r_buf r) (r_EncryptionKey r)
    (r_chunkNum r).

Section reader.
Context `{C : AEAD} `{IR : IoReader R} (randomTestKey : bytes).
Implicit Types r : Reader R.

(** The [EncryptionKey] field is set by the caller right after [NewReader]. *)
Definition NewReader (r : R) (logNum : Z) (key : bytes) : Reader R :=
  mkReader r (u32 logNum) (-1) 0 0 0 0 false false None
    (replicate blockSize (z2b 0)) key 0.

(** [nextChunk]: [None] means that [fuel] loop iterations were not enough. *)
Fixpoint nextChunk (fuel : nat) (wantFirst : bool) r : option (Reader R * option error) :=
  match fuel with
  | O => None
  | S fuel =>
      if (r_end r + legacyHeaderSize <=? r_n r)%nat then
        let tag := slice (r_buf r) (r_end r) (r_end r + 16) in
        let len := Z.to_nat (Uint16 (slice (r_buf r) (r_end r + 16) (r_end r + 18))) in
        let r := r <| r_begin := (r_end r + legacyHeaderSize)%nat |> in
        let r := r <| r_end := (r_begin r + len)%nat |> in
        if (r_n r <? r_end r)%nat then Some (r, Some ErrInvalidChunk)
        else
          match GetCipher randomTestKey (r_EncryptionKey r) with
          | Err e => Some (r, Some e)
          | Ok aead =>
              let ciphertext := slice (r_buf r) (r_begin r - 1) (r_end r) ++ tag in
              let r := r <| r_chunkNum := u64 (r_chunkNum r + 1) |> in
              match Open aead (edgMakeNonce (r_chunkNum r)) ciphertext with
              | None => Some (r, Some ErrInvalidChunk)
              | Some plaintext =>
                  let r := r <| r_buf := copy_at (r_buf r) (r_begin r - 1) plaintext |> in
                  let chunkType := nth (r_begin r - 1) (r_buf r) (z2b 0) in
                  if wantFirst && negb (bool_decide (chunkType = fullChunkType))
                               && negb (bool_decide (chunkType = firstChunkType))
                  then nextChunk fuel wantFirst r
                  else
                    Some (r <| r_last := bool_decide (chunkType = fullChunkType)
                                      || bool_decide (chunkType = lastChunkType) |>
                            <| r_recovering := false |>, None)
              end
          end
      else if (r_n r <? blockSize)%nat && (0 <=? r_blockNum r)%Z then
        if negb wantFirst || negb (r_end r =? r_n r)%nat
        then Some (r, Some ErrInvalidChunk)
        else Some (r, Some EOF)
      else
        let '(src, data, err) := ReadFull (r_r r) blockSize in
        let r := r <| r_r := src |> <| r_buf := copy_at (r_buf r) 0 data |> in
        match err with
        | Some UnexpectedEOF | None =>
            nextChunk fuel wantFirst
              (r <| r_begin := 0%nat |> <| r_end := 0%nat |> <| r_n := length data |>
                 <| r_blockNum := (r_blockNum r + 1)%Z |>)
        | Some EOF => Some (r, Some (if wantFirst then EOF else UnexpectedEOF))
        | Some e => Some (r, Some e)
        end
  end.

(** [Next] returns a [singleReader], which is the reader and the sequence
    number of the record. *)
Definition NextRecord (fuel : nat) r : option (Reader R * result Z) :=
  let r := r <| r_seq := (r_seq r + 1)%Z |> in
  match r_err r with
  | Some e => Some (r, Err e)
  | None =>
      let r := r <| r_begin := r_end r |> in
      match nextChunk fuel true r with
      | None => None
      | Some (r, err) =>
          let r := r <| r_err := err |> in
          Some (r, match err with Some e => Err e | None => Ok (r_seq r) end)
      end
  end.

Definition Offset r : Z :=
  if (r_blockNum r <? 0)%Z then 0%Z
  else (r_blockNum r * Z.of_nat blockSize + Z.of_nat (r_end r))%Z.

(** The loop of [singleReader.Read] that skips exhausted chunks. *)
Fixpoint read_loop (fuel : nat) r : option (Reader R * option error) :=
  match fuel with
  | O => None
  | S fuel' =>
      if (r_begin r =? r_end r)%nat then
        if r_last r then Some (r, Some EOF)
        else
          match nextChunk fuel false r with
          | None => None
          | Some (r, Some e) => Some (r <| r_err := Some e |>, Some e)
          | Some (r, None) => read_loop fuel' (r <| r_err := None |>)
          end
      else Some (r, None)
  end.

(** [Read(p)] with [len(p) = k]. *)
Definition Read (fuel : nat) r (seq : Z) (k : nat) : option (Reader R * bytes * option error) :=
  if (r_seq r =? seq)%Z then
    match r_err r with
    | Some e => Some (r, [], Some e)
    | None =>
        match read_loop fuel r with
        | None => None
        | Some (r, Some e) => Some (r, [], Some e)
        | Some (r, None) =>
            let data := take k (slice (r_buf r) (r_begin r) (r_end r)) in
            Some (r <| r_begin := (r_begin r + length data)%nat |>, data, None)
        end
    end
  else Some (r, [], Some (New "pebble/record: stale reader")).

(** [io.ReadAll] on the reader of a record, asking for [k] bytes at a time. *)
Fixpoint ReadAll (fuel : nat) r (seq : Z) (k : nat) : option (Reader R * result bytes) :=
  match fuel with
  | O => None
  | S fuel' =>
      match Read fuel r seq k with
      | None => None
      | Some (r, _, Some EOF) => Some (r, Ok [])
      | Some (r, _, Some e) => Some (r, Err e)
      | Some (r, data, None) =>
          match ReadAll fuel' r seq k with
          | Some (r, Ok rest) => Some (r, Ok (data ++ rest))
          | x => x
          end
      end
  end.

(** The reading loop of the package documentation and of the WAL replay:
    [Next] and read the record until [Next] returns [EOF]; the records read
    and the error that ended the loop. *)
Fixpoint ReadRecords (fuel : nat) r (k : nat) : option (list bytes * error) :=
  match fuel with
  | O => None
  | S fuel' =>
      match NextRecord fuel r with
      | None => None
      | Some (r, Err e) => Some ([], e)
      | Some (r, Ok seq) =>
          match ReadAll fuel r seq k with
          | None => None
          | Some (r, Err e) => Some ([], e)
          | Some (r, Ok data) =>
              match ReadRecords fuel' r k with
              | None => None
              | Some (l, e) => Some (data :: l, e)
              end
          end
      end
  end.
End reader.
