(* ===== verification/RecordFormat.v ===== *)
(** The on-disk format of package record as a relation between chunk lists and
    bytes, independent of the code that writes and reads it. *)
From S2P Require Import Prelude.
From S2P Require Import Crypto.
From S2P Require Import Record.

Abbreviation chunk := (byte * bytes)%type.

Global Opaque blockSize.

Section format.
Context `{C : AEAD} `{CL : !AEADLaws C} (key : bytes).

(** A chunk on disk: tag, payload length, sealed type and payload. *)
Definition enc_chunk (n : Z) (t : byte) (p : bytes) : bytes :=
  let ct := Seal key (edgMakeNonce n) (t :: p) in
  drop (length ct - 16) ct ++ PutUint16 (Z.of_nat (length p)) ++ take (length ct - 16) ct.

(** [stream n p cs s m q]: starting with [n] chunks already written and at
    offset [p] of a block, the bytes [s] hold exactly the chunks [cs] and end
    with [m] chunks written at offset [q].  Chunks do not cross blocks; the
    rest of a block that has no room for a header is zero. *)
Inductive stream : Z -> nat -> list chunk -> bytes -> Z -> nat -> Prop :=
| stream_nil n p : stream n p [] [] n p
| stream_pad n p cs s m q :
    (p <= blockSize)%nat -> (blockSize < p + legacyHeaderSize)%nat ->
    stream n 0 cs s m q ->
    stream n p cs (replicate (blockSize - p) (z2b 0) ++ s) m q
| stream_chunk n p t d cs s m q :
    (p + legacyHeaderSize + length d <= blockSize)%nat ->
    stream (u64 (n + 1)) (p + legacyHeaderSize + length d) cs s m q ->
    stream n p ((t, d) :: cs) (enc_chunk (u64 (n + 1)) t d ++ s) m q.

Lemma stream_app n p cs1 s1 m q cs2 s2 m' q' :
  stream n p cs1 s1 m q -> stream m q cs2 s2 m' q' ->
  stream n p (cs1 ++ cs2) (s1 ++ s2) m' q'.
Proof.
  induction 1; intros Hs; simpl; [done | |];
    rewrite <- app_assoc; constructor; auto.
Qed.

(** The chunks of one record.  [rec_chunks f cs d]: [cs] are the chunks, from
    the first one on if [f], otherwise after the first one, of data [d]. *)
Inductive rec_chunks : bool -> list chunk -> bytes -> Prop :=
| rc_last (f : bool) d :
    rec_chunks f [(if f then fullChunkType else lastChunkType, d)] d
| rc_more (f : bool) d cs d' :
    rec_chunks false cs d' ->
    rec_chunks f ((if f then firstChunkType else middleChunkType, d) :: cs) (d ++ d').

(** Chunks of an unfinished record: all but the last one. *)
Inductive part_chunks : bool -> list chunk -> bytes -> bool -> Prop :=
| pc_nil f : part_chunks f [] [] f
| pc_more (f : bool) d cs d' f' :
    part_chunks false cs d' f' ->
    part_chunks f ((if f then firstChunkType else middleChunkType, d) :: cs) (d ++ d') f'.

Lemma part_rec f cs d f' cs' d' :
  part_chunks f cs d f' -> rec_chunks f' cs' d' -> rec_chunks f (cs ++ cs') (d ++ d').
Proof.
  induction 1; intros Hr; simpl; [done|].
  rewrite <- app_assoc. constructor. auto.
Qed.

Lemma part_snoc f cs d f' d' :
  part_chunks f cs d f' ->
  part_chunks f (cs ++ [(if f' then firstChunkType else middleChunkType, d')])
    (d ++ d') false.
Proof.
  induction 1; simpl.
  - pose proof (pc_more f d' [] [] false (pc_nil false)) as Hp.
    by rewrite app_nil_r in Hp.
  - rewrite <- app_assoc. constructor. auto.
Qed.

(** The chunks of a sequence of records. *)
Inductive recs_chunks : list chunk -> list bytes -> Prop :=
| rcs_nil : recs_chunks [] []
| rcs_cons cs d css ds :
    rec_chunks true cs d -> recs_chunks css ds -> recs_chunks (cs ++ css) (d :: ds).

Lemma recs_snoc css ds cs d :
  recs_chunks css ds -> rec_chunks true cs d ->
  recs_chunks (css ++ cs) (ds ++ [d]).
Proof.
  induction 1; intros; simpl.
  - rewrite <- (app_nil_r cs). by repeat constructor.
  - rewrite <- app_assoc. constructor; auto.
Qed.

Lemma length_edgMakeNonce n : length (edgMakeNonce n) = NonceSize.
Proof. unfold edgMakeNonce. by autorewrite with len. Qed.

Lemma length_enc_chunk n t p :
  length (enc_chunk n t p) = (legacyHeaderSize + length p)%nat.
Proof.
  unfold enc_chunk. autorewrite with len. rewrite Seal_length. simpl. 
  unfold legacyHeaderSize, GCMTagSize. lia.
Qed.

(** Sealing a chunk in place: what the writers do to a buffer that has room for a
    header [h] followed by the payload [d]. *)
Definition seal_in_place (buf : bytes) (i j : nat) (n : Z) (typ : byte) : bytes :=
  let buf := copy_at (<[(i + 18)%nat := typ]> buf) (i + 16)
               (PutUint16 (Z.of_nat (j - i - legacyHeaderSize))) in
  let ct := Seal key (edgMakeNonce n) (slice buf (i + 18) j) in
  copy_at (copy_at buf i (drop (length ct - 16) ct)) (i + 18) (take (length ct - 16) ct).

Lemma seal_in_place_spec a h d rest n typ :
  length h = legacyHeaderSize ->
  seal_in_place (a ++ h ++ d ++ rest) (length a) (length a + legacyHeaderSize + length d) n typ =
    a ++ enc_chunk n typ d ++ rest.
Proof.
  unfold legacyHeaderSize. intros Hh. unfold seal_in_place.
  assert (exists h1 h2 x, h = h1 ++ h2 ++ [x] /\ length h1 = 16%nat /\ length h2 = 2%nat)
    as (h1 & h2 & x & -> & Hh1 & Hh2).
  { exists (take 16 h), (take 2 (drop 16 h)).
    destruct (drop 18 h) as [|x [|y l]] eqn:E.
    - apply (f_equal length) in E. len.
    - exists x. split_and!; [|len|len]. rewrite <- E.
      change 18%nat with (16 + 2)%nat. rewrite <- drop_drop.
      by rewrite !take_drop.
    - apply (f_equal length) in E. len. }
  replace (a ++ (h1 ++ h2 ++ [x]) ++ d ++ rest)
    with ((a ++ h1 ++ h2) ++ x :: d ++ rest) by (by rewrite <- !app_assoc).
  rewrite insert_app_mid by len.
  replace ((a ++ h1 ++ h2) ++ typ :: d ++ rest)
    with ((a ++ h1) ++ h2 ++ (typ :: d ++ rest)) by (by rewrite <- !app_assoc).
  rewrite copy_at_app by len.
  replace (length a + 19 + length d - length a - legacyHeaderSize)%nat with (length d)
    by (unfold legacyHeaderSize; lia).
  set (L := PutUint16 _).
  replace ((a ++ h1) ++ L ++ typ :: d ++ rest)
    with ((a ++ h1 ++ L) ++ (typ :: d) ++ rest) by (by rewrite <- !app_assoc).
  assert (length L = 2%nat) as HL by apply length_PutUint16.
  rewrite slice_app_mid by len.
  set (ct := Seal _ _ (typ :: d)).
  assert (length ct = length d + 17)%nat as Hct.
  { unfold ct. rewrite Seal_length. unfold GCMTagSize. simpl. lia. }
  replace ((a ++ h1 ++ L) ++ (typ :: d) ++ rest)
    with (a ++ h1 ++ (L ++ (typ :: d) ++ rest)) by (by rewrite <- !app_assoc).
  rewrite copy_at_app by len.
  replace (a ++ drop (length ct - 16) ct ++ L ++ (typ :: d) ++ rest)
    with ((a ++ drop (length ct - 16) ct ++ L) ++ (typ :: d) ++ rest)
    by (by rewrite <- !app_assoc).
  rewrite copy_at_app by len.
  unfold enc_chunk. fold ct. fold L. by rewrite <- !app_assoc.
Qed.
End format.
#[export] Hint Rewrite @length_enc_chunk using typeclasses eauto : len.
