(* ===== verification/RecordWriter.v ===== *)
(** [Writer] produces the format of [RecordFormat]. *)
From S2P Require Import Prelude.
From S2P Require Import Crypto.
From S2P Require Import Record.
From S2P Require Import RecordFormat.

Section writer_facts.
Context `{C : AEAD} `{CL : !AEADLaws C} (rtk key : bytes).
Context (Hkey : aes_key_ok key = true).
Implicit Types w : Writer bytes.

Definition chunk_type (first last : bool) : byte :=
  if last then if first then fullChunkType else lastChunkType
  else if first then firstChunkType else middleChunkType.

(** [fillHeader] turns the reserved header and the payload after it into one
    sealed chunk and leaves the rest of the buffer alone. *)
Lemma fillHeader_spec w last a h d rest :
  w_EncryptionKey w = key ->
  w_buf w = a ++ h ++ d ++ rest ->
  length a = w_i w -> length h = legacyHeaderSize ->
  w_j w = (w_i w + legacyHeaderSize + length d)%nat -> (w_j w <= blockSize)%nat ->
  fillHeader rtk w last =
    Ret (w <| w_chunkNum := u64 (w_chunkNum w + 1) |>
           <| w_buf := a ++ enc_chunk key (u64 (w_chunkNum w + 1))
                             (chunk_type (w_first w) last) d ++ rest |>).
Proof.
  intros Hk Hbuf Ha Hh Hj HB. unfold fillHeader.
  destruct (Nat.ltb_spec (w_j w) (w_i w + legacyHeaderSize)); [lia|].
  destruct (Nat.ltb_spec blockSize (w_j w)); [lia|]. simpl.
  rewrite Hk, GetCipher_ok by done.
  pose proof (seal_in_place_spec key a h d rest (u64 (w_chunkNum w + 1))
    (chunk_type (w_first w) last) Hh) as Hs.
  rewrite <- Hbuf, Ha, <- Hj in Hs. by rewrite <- Hs.
Qed.

(** Everything before offset [e] of the current block is sealed: together with
    what the sink already holds it is the stream of the chunks [cs]. *)
Record Sealed w (cs : list chunk) (e : nat) : Prop := {
  sealed_key : w_EncryptionKey w = key;
  sealed_err : w_err w = None;
  sealed_len : length (w_buf w) = blockSize;
  sealed_written : (w_written w <= e)%nat;
  sealed_e : (e <= blockSize)%nat;
  sealed_stream : stream key 0 0 cs (w_w w ++ slice (w_buf w) (w_written w) e)
                    (w_chunkNum w) e;
  sealed_offset : Z.of_nat (length (w_w w ++ slice (w_buf w) (w_written w) e)) =
                    (w_blockNumber w * Z.of_nat blockSize + Z.of_nat e)%Z;
}.

(** The payload of the pending chunk. *)
Definition payload w : bytes := slice (w_buf w) (w_i w + legacyHeaderSize) (w_j w).

Lemma buf_decompose w e :
  length (w_buf w) = blockSize -> (e + legacyHeaderSize <= w_j w)%nat ->
  (w_j w <= blockSize)%nat ->
  exists a h rest, w_buf w = a ++ h ++ slice (w_buf w) (e + legacyHeaderSize) (w_j w) ++ rest /\
    length a = e /\ length h = legacyHeaderSize.
Proof.
  intros Hl He Hj. exists (take e (w_buf w)), (slice (w_buf w) e (e + legacyHeaderSize)),
    (drop (w_j w) (w_buf w)).
  split_and!; [|len|len].
  rewrite (slice_decompose (w_buf w) e (w_j w)) at 1 by lia. f_equal.
  rewrite (slice_split _ e (e + legacyHeaderSize) (w_j w)) by lia.
  by rewrite <- app_assoc.
Qed.

Lemma fillHeader_sealed w last cs :
  Sealed w cs (w_i w) ->
  (w_i w + legacyHeaderSize <= w_j w <= blockSize)%nat ->
  exists buf, let w' := w <| w_chunkNum := u64 (w_chunkNum w + 1) |> <| w_buf := buf |> in
    fillHeader rtk w last = Ret w' /\
    Sealed w' (cs ++ [(chunk_type (w_first w) last, payload w)]) (w_j w).
Proof.
  intros [Hk He Hl Hw HB Hs Ho] Hj.
  destruct (buf_decompose w (w_i w)) as (a & h & rest & Hbuf & Ha & Hh); [done|lia|lia|].
  fold (payload w) in Hbuf.
  assert (length (payload w) = w_j w - w_i w - legacyHeaderSize)%nat as Hp.
  { unfold payload. len. }
  eexists. split.
  - apply fillHeader_spec with (h := h); [done|exact Hbuf|done|done|lia|lia].
  - assert (length (enc_chunk key (u64 (w_chunkNum w + 1)) (chunk_type (w_first w) last)
      (payload w)) = (legacyHeaderSize + length (payload w))%nat) as Henc
      by apply length_enc_chunk.
    split; simpl; [done|done| | lia | lia | |].
    + rewrite <- Hl, Hbuf. len.
    + rewrite slice_app_lm by lia. rewrite app_assoc.
      rewrite Hbuf, slice_app_l in Hs by done.
      eapply stream_app; [exact Hs|].
      rewrite <- (app_nil_r (enc_chunk _ _ _ _)).
      replace (w_j w) with (w_i w + legacyHeaderSize + length (payload w))%nat by lia.
      constructor; [lia|constructor].
    + rewrite slice_app_lm by lia. rewrite Hbuf, slice_app_l in Ho by done. len.
Qed.

(** A full block, or one whose rest is too short for a header, is padded with
    zeros and handed to the sink. *)
Lemma writeBlock_sealed w cs e :
  Sealed w cs e -> (blockSize < e + legacyHeaderSize)%nat ->
  Sealed (writeBlock (w <| w_buf := copy_at (w_buf w) e (replicate (blockSize - e) (z2b 0)) |>))
    cs 0.
Proof.
  intros [Hk He Hl Hw HB Hs Ho] Hpad. unfold writeBlock. simpl.
  split; simpl; [done|done|len|lia|lia| |].
  2: { len. }
  rewrite slice_nil, app_nil_r.
  rewrite (slice_decompose (w_buf w) e blockSize) at 1 by lia.
  rewrite copy_at_app by len.
  rewrite (drop_ge (w_buf w) blockSize), app_nil_r, drop_app_le by len.
  rewrite app_assoc, <- (app_nil_r cs).
  eapply stream_app.
  - replace (drop (w_written w) (take e (w_buf w))) with (slice (w_buf w) (w_written w) e);
      [exact Hs|].
    unfold slice. rewrite take_drop_commute. do 2 f_equal. lia.
  - rewrite <- (app_nil_r (replicate _ _)). constructor; [lia|lia|constructor].
Qed.

Lemma writeBlock_full_sealed w cs :
  Sealed w cs blockSize -> Sealed (writeBlock w) cs 0.
Proof.
  intros Hs. pose proof (writeBlock_sealed w cs blockSize Hs) as H.
  rewrite Nat.sub_diag in H. simpl in H.
  assert (copy_at (w_buf w) blockSize [] = w_buf w) as E.
  { unfold copy_at. simpl. rewrite Nat.add_0_r, take_nil. simpl. apply take_drop. }
  rewrite E in H. apply H. unfold legacyHeaderSize. lia.
Qed.

(** No record is being written; [ds] are complete and handed to the sink. *)
Record Idle w (ds : list bytes) : Prop := {
  idle_pending : w_pending w = false;
  idle_chunks : exists cs, recs_chunks cs ds /\ Sealed w cs (w_j w);
}.

(** After the records [ds], a record with the data [d] so far is being written. *)
Record Opened w (ds : list bytes) (d : bytes) : Prop := {
  opened_pending : w_pending w = true;
  opened_pos : (w_i w + legacyHeaderSize <= w_j w <= blockSize)%nat;
  opened_chunks : exists cs ps dp, recs_chunks cs ds /\
    part_chunks true ps dp (w_first w) /\ d = dp ++ payload w /\
    Sealed w (cs ++ ps) (w_i w);
}.

(** Finishing now gives the records [ds]. *)
Definition Holds w (ds : list bytes) : Prop :=
  Idle w ds \/ exists ds' d, ds = ds' ++ [d] /\ Opened w ds' d.

Lemma NewWriter_idle : Idle (NewWriter [] key) [].
Proof.
  split; [done|]. exists []. split; [constructor|].
  split; simpl; [done|done|len|lia|lia|constructor|len].
Qed.

(** Sealing the last chunk of the current record. *)
Lemma finish_record w ds d :
  Opened w ds d ->
  exists buf cs, let w' := w <| w_chunkNum := u64 (w_chunkNum w + 1) |> <| w_buf := buf |> in
    fillHeader rtk w true = Ret w' /\ recs_chunks cs (ds ++ [d]) /\ Sealed w' cs (w_j w).
Proof.
  intros [Hp Hpos (cs & ps & dp & Hcs & Hps & -> & Hs)].
  destruct (fillHeader_sealed w true _ Hs Hpos) as (buf & Hf & Hs').
  exists buf, (cs ++ ps ++ [(chunk_type (w_first w) true, payload w)]).
  split_and!; [exact Hf| |by rewrite app_assoc].
  eapply recs_snoc; [exact Hcs|]. eapply part_rec; [exact Hps|].
  destruct (w_first w); constructor.
Qed.

Lemma writePending_ok w ds :
  Holds w ds ->
  exists w', writePending rtk w = Ret w' /\ Idle w' ds /\ w_written w' = w_j w' /\
    w_seq w' = w_seq w.
Proof.
  intros [[Hp (cs & Hcs & [Hk He Hl Hw HB Hs Ho])]|(ds' & d & -> & Hop)].
  - unfold writePending. rewrite He, Hp. simpl. eexists. split; [done|].
    simpl. split_and!; [|done..]. split; [done|]. exists cs. split; [done|].
    split; simpl; [done|done|len|lia|lia| |]; rewrite slice_nil, app_nil_r; done.
  - pose proof (opened_pending _ _ _ Hop) as Hp.
    destruct (finish_record _ _ _ Hop) as (buf & cs & Hf & Hcs & [Hk He Hl Hw HB Hs Ho]).
    simpl in *. unfold writePending. rewrite He, Hp, Hf. simpl. eexists. split; [done|].
    simpl. split_and!; [|done..]. split; [done|]. exists cs. split; [done|].
    split; simpl; [done|done|len|lia|lia| |]; rewrite slice_nil, app_nil_r; done.
Qed.

(** The position after [Next]: a header is reserved, at the start of a new
    block if the current one has no room for it. *)
Lemma reserve_header w cs e :
  Sealed w cs e ->
  let w1 := w <| w_i := e |> in
  let w1 := w1 <| w_j := (e + legacyHeaderSize)%nat |> in
  let w2 := if (blockSize <? w_j w1)%nat
            then writeBlock (w1 <| w_buf :=
                   copy_at (w_buf w1) (w_i w1) (replicate (blockSize - w_i w1) (z2b 0)) |>)
            else w1 in
  Sealed w2 cs (w_i w2) /\ w_j w2 = (w_i w2 + legacyHeaderSize)%nat /\
  (w_j w2 <= blockSize)%nat /\ w_seq w2 = w_seq w.
Proof.
  intros Hs w1 w1' w2. unfold w2, w1', w1. simpl.
  destruct (Nat.ltb_spec blockSize (e + legacyHeaderSize)) as [Hlt|Hge].
  - assert (Sealed (w <| w_i := e |> <| w_j := (e + legacyHeaderSize)%nat |>) cs e) as Hs1
      by (destruct Hs; by split).
    pose proof (writeBlock_sealed _ _ _ Hs1 Hlt) as Hs2. simpl in *.
    split_and!; [exact Hs2|done| |done].
    pose proof blockSize_Z. unfold legacyHeaderSize. lia.
  - simpl. split_and!; [|done|lia|done]. destruct Hs; by split.
Qed.

Lemma Next_ok w ds :
  Holds w ds ->
  exists w', Next rtk w = Ret (w', Ok (w_seq w')) /\ Opened w' ds [] /\
    w_seq w' = (w_seq w + 1)%Z /\
    w_lastRecordOffset w' =
      (w_baseOffset w' + w_blockNumber w' * Z.of_nat blockSize + Z.of_nat (w_i w'))%Z.
Proof.
  intros Hh.
  assert (exists w1 cs, recs_chunks cs ds /\ Sealed w1 cs (w_j w1) /\ w_err w = None /\
    w_seq w1 = (w_seq w + 1)%Z /\
    (if w_pending w then fillHeader rtk (w <| w_seq := (w_seq w + 1)%Z |>) true
     else Ret (w <| w_seq := (w_seq w + 1)%Z |>)) = Ret w1) as (w1 & cs & Hcs & Hs & He & Hq & Hf).
  { destruct Hh as [[Hp (cs & Hcs & Hs)]|(ds' & d & -> & Hop)].
    - rewrite Hp. exists (w <| w_seq := (w_seq w + 1)%Z |>), cs.
      split_and!; [done| |by destruct Hs|done|done]. destruct Hs; by split.
    - assert (Opened (w <| w_seq := (w_seq w + 1)%Z |>) ds' d) as Hop1.
      { destruct Hop as [Hp Hpos (cs & ps & dp & Hcs & Hps & Hd & Hs)].
        split; [done|done|]. exists cs, ps, dp. split_and!; [done..|]. destruct Hs; by split. }
      rewrite (opened_pending _ _ _ Hop).
      destruct (finish_record _ _ _ Hop1) as (buf & cs & Hf & Hcs & Hs).
      rewrite Hf. eexists _, cs. split_and!; [exact Hcs|exact Hs| |done|done].
      by destruct Hs. }
  unfold Next. cbv zeta.
  change (w_err (w <| w_seq := (w_seq w + 1)%Z |>)) with (w_err w).
  change (w_pending (w <| w_seq := (w_seq w + 1)%Z |>)) with (w_pending w).
  rewrite He, Hf. simpl.
  pose proof (reserve_header w1 cs _ Hs) as (Hs2 & Hj2 & Hb2 & Hq2).
  simpl in Hs2, Hj2, Hb2, Hq2.
  set (w2 := if (blockSize <? _)%nat then _ else _) in *.
  rewrite (sealed_err _ _ _ Hs2). witness_ret. simpl.
  split_and!; [|congruence|done].
  split; simpl; [done|lia|]. exists cs, [], []. split_and!; [done|constructor| |].
  - unfold payload. simpl. by rewrite Hj2, slice_nil.
  - rewrite app_nil_r. destruct Hs2; by split.
Qed.

(** Copying bytes into the buffer extends the pending payload. *)
Lemma copy_payload w ds d p :
  Opened w ds d ->
  let n := Nat.min (length (w_buf w) - w_j w) (length p) in
  Opened (w <| w_buf := copy_at (w_buf w) (w_j w) p |> <| w_j := (w_j w + n)%nat |>)
    ds (d ++ take n p).
Proof.
  intros [Hp Hpos (cs & ps & dp & Hcs & Hps & -> & [Hk He Hl Hw HB Hs Ho])] n.
  split; simpl; [done|lia|]. exists cs, ps, dp. split_and!; [done|done| |].
  - unfold payload. simpl. rewrite <- app_assoc. f_equal.
    rewrite (slice_copy_at_extend _ _ p _ (w_j w + n)) by lia. f_equal.
    unfold n. destruct (Nat.min_dec (length (w_buf w) - w_j w) (length p)) as [E|E];
      rewrite E; [done|]. rewrite !take_ge by lia. done.
  - split; simpl; [done|done|len|lia|lia| |];
      rewrite slice_copy_at_before by (unfold legacyHeaderSize in *; lia); done.
Qed.

(** A full block in the middle of a record. *)
Lemma spill_ok w ds d :
  Opened w ds d ->
  exists w', spill rtk w = Ret (w', None) /\ Opened w' ds d /\
    (w_j w' < blockSize)%nat /\ w_seq w' = w_seq w.
Proof.
  intros Hop. unfold spill.
  destruct (Nat.eqb_spec (w_j w) blockSize) as [Hj|Hj].
  2: { exists w. split_and!; [done|done| |done]. destruct Hop. lia. }
  destruct Hop as [Hp Hpos (cs & ps & dp & Hcs & Hps & -> & Hs)].
  destruct (fillHeader_sealed w false _ Hs Hpos) as (buf & Hf & Hs1).
  rewrite Hf. cbn [mbind go_bind]. rewrite Hj in Hs1.
  pose proof (writeBlock_full_sealed _ _ Hs1) as Hs2. cbv zeta.
  rewrite (sealed_err _ _ _ Hs2). witness_ret. split_and!; [| |done].
  - split; simpl; [done| |].
    + pose proof blockSize_Z. unfold legacyHeaderSize. lia.
    + exists cs, (ps ++ [(chunk_type (w_first w) false, payload w)]), (dp ++ payload w).
      split_and!; [done| | |].
      * pose proof (part_snoc _ _ _ _ (payload w) Hps) as Hp'.
        destruct (w_first w); exact Hp'.
      * unfold payload at 3. simpl. by rewrite slice_nil, app_nil_r.
      * rewrite app_assoc. destruct Hs2; by split.
  - simpl. pose proof blockSize_Z. unfold legacyHeaderSize. lia.
Qed.

Lemma write_loop_ok fuel w ds d p :
  (length p <= fuel)%nat -> Opened w ds d ->
  exists w', write_loop rtk fuel w p = Ret (w', None) /\ Opened w' ds (d ++ p) /\
    w_seq w' = w_seq w.
Proof.
  revert w d p. induction fuel as [|fuel IH]; intros w d p Hlen Hop; simpl.
  { destruct p; [|simpl in Hlen; lia]. rewrite app_nil_r. eauto. }
  destruct p as [|x p'] eqn:Ep; [rewrite app_nil_r; eauto|]. rewrite <- Ep in *.
  assert (0 < length p)%nat by (subst; simpl; lia). clear Ep.
  destruct (spill_ok _ _ _ Hop) as (w1 & -> & Hop1 & Hj1 & <-).
  simpl. set (n := Nat.min (length (w_buf w1) - w_j w1) (length p)).
  pose proof (copy_payload _ _ _ p Hop1) as Hop2. fold n in Hop2.
  assert (length (w_buf w1) = blockSize) as Hl
    by (destruct Hop1 as [_ _ (?&?&?&_&_&_&[])]; done).
  destruct (IH _ _ (drop n p) ltac:(len) Hop2) as (w' & Hw & Hop' & Hq).
  exists w'. split_and!; [exact Hw| |done].
  by rewrite <- app_assoc, take_drop in Hop'.
Qed.

Lemma Opened_err w ds d : Opened w ds d -> w_err w = None.
Proof. by intros [_ _ (?&?&?&_&_&_&[])]. Qed.

Lemma Write_ok w ds d p :
  Opened w ds d ->
  exists w', Write rtk w (w_seq w) p = Ret (w', Ok (length p)) /\ Opened w' ds (d ++ p) /\
    w_seq w' = w_seq w.
Proof.
  intros Hop. unfold Write. rewrite Z.eqb_refl, (Opened_err _ _ _ Hop).
  destruct (write_loop_ok (length p) w ds d p ltac:(lia) Hop) as (w' & -> & Hop' & Hq).
  simpl. eauto.
Qed.

Lemma Holds_opened w ds d : Opened w ds d -> Holds w (ds ++ [d]).
Proof. right. eauto. Qed.

Lemma Idle_err w ds : Idle w ds -> w_err w = None.
Proof. by intros [_ (?&_&[])]. Qed.

Lemma Holds_err w ds : Holds w ds -> w_err w = None.
Proof. intros [?|(?&?&_&?)]; [by eapply Idle_err|by eapply Opened_err]. Qed.

Lemma Holds_seq w ds s : Holds w ds -> Holds (w <| w_seq := s |>) ds.
Proof.
  intros [[Hp (cs & Hcs & Hs)]|(ds' & d & -> & [Hp Hpos (cs&ps&dp&Hcs&Hps&Hd&Hs)])].
  - left. split; [done|]. exists cs. split; [done|]. destruct Hs; by split.
  - right. exists ds', d. split; [done|]. split; [done|done|].
    exists cs, ps, dp. split_and!; [done..|]. destruct Hs; by split.
Qed.

(** All that was written is in the sink. *)
Lemma Idle_sink w ds :
  Idle w ds -> w_written w = w_j w ->
  exists cs q, recs_chunks cs ds /\ stream key 0 0 cs (w_w w) (w_chunkNum w) q /\
    Z.of_nat (length (w_w w)) = Size w.
Proof.
  intros [Hp (cs & Hcs & [Hk He Hl Hw HB Hs Ho])] Hwr.
  rewrite Hwr, slice_nil, app_nil_r in *. eauto.
Qed.

Lemma WriteRecord_ok w ds p :
  Holds w ds ->
  exists w', WriteRecord rtk w p = Ret (w', Ok (Z.of_nat (length (w_w w')))) /\
    Idle w' (ds ++ [p]) /\ Size w' = Z.of_nat (length (w_w w')).
Proof.
  intros Hh. unfold WriteRecord. rewrite (Holds_err _ _ Hh).
  destruct (Next_ok _ _ Hh) as (w1 & -> & Hop1 & _ & _). simpl.
  destruct (Write_ok _ _ _ p Hop1) as (w2 & -> & Hop2 & _). simpl.
  destruct (writePending_ok _ _ (Holds_opened _ _ _ Hop2)) as (w3 & -> & Hi & Hwr & _). simpl.
  exists w3. rewrite (Idle_err _ _ Hi).
  destruct (Idle_sink _ _ Hi Hwr) as (_ & _ & _ & _ & ->). done.
Qed.

Lemma Flush_ok w ds :
  Holds w ds ->
  exists w', Flush rtk w = Ret (w', None) /\ Idle w' ds /\ w_written w' = w_j w'.
Proof.
  intros Hh. unfold Flush.
  destruct (writePending_ok _ _ (Holds_seq _ _ (w_seq w + 1) Hh)) as (w1 & -> & Hi & Hwr & _).
  simpl. rewrite (Idle_err _ _ Hi). eauto.
Qed.

Lemma Close_ok w ds :
  Holds w ds ->
  exists w' cs q, Close rtk w = Ret (w', None) /\ recs_chunks cs ds /\
    stream key 0 0 cs (w_w w') (w_chunkNum w') q.
Proof.
  intros Hh. unfold Close.
  destruct (writePending_ok _ _ (Holds_seq _ _ (w_seq w + 1) Hh)) as (w1 & -> & Hi & Hwr & _).
  simpl. rewrite (Idle_err _ _ Hi).
  destruct (Idle_sink _ _ Hi Hwr) as (cs & q & Hcs & Hs & _).
  eexists _, cs, q. split_and!; [done|done|]. exact Hs.
Qed.
End writer_facts.
