(* ===== verification/RecordReader.v ===== *)
(** [Reader] reads back exactly the records of the format of [RecordFormat]. *)
From S2P Require Import Prelude.
From S2P Require Import Crypto.
From S2P Require Import Record.
From S2P Require Import RecordFormat.

Section reader_facts.
Context `{C : AEAD} `{CL : !AEADLaws C} (rtk key : bytes).
Context (Hkey : aes_key_ok key = true).
Implicit Types r : Reader bytes.

(** What is left to read: the rest of the block in the buffer, then the rest
    of the source.  A block shorter than [blockSize] is the last one. *)
Record Unread r (s : bytes) : Prop := {
  unread_key : r_EncryptionKey r = key;
  unread_len : length (r_buf r) = blockSize;
  unread_pos : (r_end r <= r_n r <= blockSize)%nat;
  unread_bytes : slice (r_buf r) (r_end r) (r_n r) ++ r_r r = s;
  unread_blockNum : (-1 <= r_blockNum r)%Z;
  unread_block : r_n r = blockSize \/ (r_r r = [] /\ (0 <= r_blockNum r)%Z) \/
                 (r_n r = 0%nat /\ (r_blockNum r < 0)%Z);
}.

(** What the reader has not been given yet. *)
Lemma NewReader_unread file logNum : Unread (NewReader file logNum key) file.
Proof.
  split; simpl; [done|by rewrite length_replicate|lia|done|lia|right; right; lia].
Qed.

(** The reader after [io.ReadFull] delivered the next block. *)
Definition loaded r : Reader bytes :=
  r <| r_r := drop blockSize (r_r r) |>
    <| r_buf := copy_at (r_buf r) 0 (take blockSize (r_r r)) |>
    <| r_begin := 0%nat |> <| r_end := 0%nat |>
    <| r_n := length (take blockSize (r_r r)) |>
    <| r_blockNum := (r_blockNum r + 1)%Z |>.

Definition needs_block r : Prop :=
  (r_n r < r_end r + legacyHeaderSize)%nat /\
  (r_n r = blockSize \/ (r_n r = 0%nat /\ (r_blockNum r < 0)%Z)).

Lemma needs_block_test r :
  needs_block r ->
  (r_end r + legacyHeaderSize <=? r_n r)%nat = false /\
  ((r_n r <? blockSize)%nat && (0 <=? r_blockNum r)%Z) = false.
Proof.
  intros [Hend Hn]. split; [by apply Nat.leb_gt|].
  destruct Hn as [->|[-> Hneg]]; [by rewrite Nat.ltb_irrefl|].
  rewrite andb_false_iff. right. by apply Z.leb_gt.
Qed.

(** Reading the next block when the current one is used up. *)
Lemma nextChunk_read fuel wf r :
  needs_block r -> r_r r <> [] ->
  nextChunk rtk (S fuel) wf r = nextChunk rtk fuel wf (loaded r).
Proof.
  intros [E1 E2]%needs_block_test Hne. cbn [nextChunk]. rewrite E1, E2.
  assert (0 < length (r_r r))%nat by (destruct (r_r r); simpl; [done|lia]).
  unfold loaded. simpl.
  destruct (Nat.leb_spec blockSize (length (r_r r))); [reflexivity|].
  destruct (Nat.eqb_spec (length (r_r r)) 0); [lia|reflexivity].
Qed.

Lemma nextChunk_read_eof fuel wf r :
  needs_block r -> r_r r = [] ->
  exists r', nextChunk rtk (S fuel) wf r =
    Some (r', Some (if wf then EOF else UnexpectedEOF)).
Proof.
  intros [E1 E2]%needs_block_test Hnil. cbn [nextChunk]. rewrite E1, E2, Hnil. simpl.
  destruct (Nat.leb_spec blockSize 0); [pose proof blockSize_Z; lia|].
  eexists. reflexivity.
Qed.

Lemma loaded_fields r :
  r_EncryptionKey (loaded r) = r_EncryptionKey r /\
  r_buf (loaded r) = copy_at (r_buf r) 0 (take blockSize (r_r r)) /\
  r_end (loaded r) = 0%nat /\ r_n (loaded r) = length (take blockSize (r_r r)) /\
  r_r (loaded r) = drop blockSize (r_r r) /\
  r_blockNum (loaded r) = (r_blockNum r + 1)%Z /\
  r_chunkNum (loaded r) = r_chunkNum r /\ r_seq (loaded r) = r_seq r /\
  r_err (loaded r) = r_err r.
Proof. done. Qed.

Lemma loaded_unread r s :
  Unread r s ->
  Unread (loaded r) (r_r r) /\
  (r_n (loaded r) = blockSize \/ (r_r (loaded r) = [] /\ (0 <= r_blockNum (loaded r))%Z)).
Proof.
  intros [Hk Hl Hp Hb Hbn Hblk].
  destruct (loaded_fields r) as (E1 & E2 & E3 & E4 & E5 & E6 & _).
  generalize dependent (loaded r). intros r' E1 E2 E3 E4 E5 E6.
  assert (r_n r' = blockSize \/ (r_r r' = [] /\ (0 <= r_blockNum r')%Z)) as Hn.
  { rewrite E4, E5, E6. destruct (Nat.le_gt_cases blockSize (length (r_r r))) as [Hle|Hgt].
    - left. len.
    - right. split; [apply drop_ge; lia|lia]. }
  split; [|exact Hn]. split.
  - by rewrite E1.
  - rewrite E2. len.
  - rewrite E3, E4. len.
  - rewrite E2, E3, E4, E5. unfold slice, copy_at.
    rewrite drop_0, !Nat.sub_0_r, Hl, take_take, Nat.min_id, take_0.
    rewrite app_nil_l, take_app_length. apply take_drop.
  - rewrite E6. lia.
  - destruct Hn as [Hn|Hn]; [by left|by right; left].
Qed.

(** Where a chunk at the front of what is unread lies in the buffer. *)
Lemma chunk_in_buf r c s :
  Unread r (c ++ s) ->
  r_n r = blockSize \/ r_r r = [] -> (r_end r + length c <= blockSize)%nat ->
  exists a rest, r_buf r = a ++ c ++ rest /\ length a = r_end r /\
    (r_end r + length c <= r_n r)%nat /\
    forall b, length b = (r_end r + length c)%nat ->
      slice (b ++ rest) (r_end r + length c) (r_n r) ++ r_r r = s.
Proof.
  intros [Hk Hl Hp Hb Hbn _] Hn Hfit.
  assert (length c <= length (slice (r_buf r) (r_end r) (r_n r)))%nat as Hc.
  { destruct Hn as [Hn|Hn]; [len|]. rewrite Hn, app_nil_r in Hb. rewrite Hb. len. }
  assert (slice (r_buf r) (r_end r) (r_n r) =
    c ++ drop (length c) (slice (r_buf r) (r_end r) (r_n r))) as Hs.
  { rewrite <- (take_drop (length c) (slice _ _ _)) at 1. f_equal.
    apply (f_equal (take (length c))) in Hb.
    by rewrite take_app_le, take_app_length in Hb. }
  exists (take (r_end r) (r_buf r)),
    (drop (length c) (slice (r_buf r) (r_end r) (r_n r)) ++ drop (r_n r) (r_buf r)).
  rewrite length_slice in Hc. split_and!; [|len|len|].
  - rewrite (slice_decompose (r_buf r) (r_end r) (r_n r)) at 1 by lia.
    rewrite Hs at 1. by rewrite <- app_assoc.
  - intros b Hlb. rewrite slice_app_mid by len.
    apply (f_equal (drop (length c))) in Hb.
    by rewrite drop_app_le, drop_app_length in Hb by len.
Qed.

(** A sealed chunk at the front of what is unread. *)
Lemma nextChunk_chunk fuel wf r t d s :
  Unread r (enc_chunk key (u64 (r_chunkNum r + 1)) t d ++ s) ->
  r_n r = blockSize \/ (r_r r = [] /\ (0 <= r_blockNum r)%Z) ->
  (r_end r + legacyHeaderSize + length d <= blockSize)%nat ->
  (wf = true -> t = fullChunkType \/ t = firstChunkType) ->
  exists r', nextChunk rtk (S fuel) wf r = Some (r', None) /\ Unread r' s /\
    slice (r_buf r') (r_begin r') (r_end r') = d /\
    (r_begin r' + length d = r_end r')%nat /\
    r_end r' = (r_end r + legacyHeaderSize + length d)%nat /\
    r_last r' = bool_decide (t = fullChunkType) || bool_decide (t = lastChunkType) /\
    r_chunkNum r' = u64 (r_chunkNum r + 1) /\ r_seq r' = r_seq r /\ r_err r' = r_err r.
Proof.
  intros Hu Hn Hfit Hwf.
  set (n := u64 (r_chunkNum r + 1)) in *.
  pose proof (length_enc_chunk key n t d) as Henc. unfold legacyHeaderSize in *.
  destruct (chunk_in_buf _ _ _ Hu) as (a & rest & Hbuf & Ha & Hin & Hrest); [tauto|lia|].
  destruct Hu as [Hk Hl Hp Hb Hbn Hblk].
  unfold enc_chunk in Hbuf. set (ct := Seal key (edgMakeNonce n) (t :: d)) in *.
  assert (length ct = length d + 17)%nat as Hct.
  { unfold ct. rewrite Seal_length. unfold GCMTagSize. simpl. lia. }
  set (tag := drop (length ct - 16) ct) in *. set (body := take (length ct - 16) ct) in *.
  assert (length tag = 16%nat) as Htag by (unfold tag; len).
  assert (length body = S (length d)) as Hbody by (unfold body; len).
  set (L := PutUint16 (Z.of_nat (length d))) in *.
  assert (length L = 2%nat) as HL by apply length_PutUint16.
  rewrite <- !app_assoc in Hbuf.
  assert (slice (r_buf r) (r_end r) (r_end r + 16) = tag) as Etag.
  { rewrite Hbuf. apply slice_app_mid; lia. }
  assert (slice (r_buf r) (r_end r + 16) (r_end r + 18) = L) as EL.
  { rewrite Hbuf, (app_assoc a). apply slice_app_mid; len. }
  assert (slice (r_buf r) (r_end r + 18) (r_end r + 19 + length d) = body) as Ebody.
  { rewrite Hbuf, (app_assoc a), (app_assoc (a ++ tag)). apply slice_app_mid; len. }
  assert (Z.to_nat (Uint16 L) = length d) as Elen.
  { unfold L. rewrite <- (app_nil_r (PutUint16 _)), Uint16_Put; [lia|].
    pose proof blockSize_Z. lia. }
  cbn [nextChunk].
  destruct (Nat.leb_spec (r_end r + legacyHeaderSize) (r_n r));
    [|unfold legacyHeaderSize in *; lia].
  rewrite Etag, EL, Elen. simpl. unfold legacyHeaderSize.
  destruct (Nat.ltb_spec (r_n r) (r_end r + 19 + length d)); [lia|].
  rewrite Hk, GetCipher_ok by done. fold n.
  replace (r_end r + 19 - 1)%nat with (r_end r + 18)%nat by lia.
  rewrite Ebody. unfold body, tag at 1. rewrite take_drop. unfold ct at 1.
  rewrite Open_Seal.
  rewrite Hbuf, (app_assoc a), (app_assoc (a ++ tag)).
  rewrite copy_at_app by len.
  rewrite app_nth2 by len.
  replace (r_end r + 18 - length ((a ++ tag) ++ L))%nat with 0%nat by len. simpl nth.
  assert (wf && negb (bool_decide (t = fullChunkType)) &&
    negb (bool_decide (t = firstChunkType)) = false) as ->.
  { destruct wf; [|done]. simpl.
    destruct (Hwf eq_refl); repeat case_bool_decide; done. }
  witness_ret. split_and!; [| | | | |done..].
  - split; simpl; [done| | | | |].
    + rewrite <- Hl, Hbuf. len.
    + lia.
    + replace (((a ++ tag) ++ L) ++ t :: d ++ rest)
        with ((((a ++ tag) ++ L) ++ t :: d) ++ rest) by (by rewrite <- !app_assoc).
      replace (r_end r + 19 + length d)%nat
        with (r_end r + (19 + length d))%nat by lia.
      rewrite <- Henc. apply Hrest. rewrite Henc. len.
    + done.
    + done.
  - simpl. replace (((a ++ tag) ++ L) ++ t :: d ++ rest)
      with ((((a ++ tag) ++ L) ++ [t]) ++ d ++ rest) by (by rewrite <- !app_assoc).
    apply slice_app_mid; len.
  - done.
  - done.
  - done.
Qed.

Lemma blockSize_header : (legacyHeaderSize < blockSize)%nat.
Proof. pose proof blockSize_Z. unfold legacyHeaderSize. lia. Qed.

Lemma stream_0_inv n t d cs s m q :
  stream key n 0 ((t, d) :: cs) s m q ->
  (legacyHeaderSize + length d <= blockSize)%nat /\
  exists s', s = enc_chunk key (u64 (n + 1)) t d ++ s' /\
    stream key (u64 (n + 1)) (legacyHeaderSize + length d) cs s' m q.
Proof.
  intros Hs. pose proof blockSize_header. inversion Hs; subst; [lia|]. eauto.
Qed.

Lemma stream_0_nil n s m q : stream key n 0 [] s m q -> s = [].
Proof. intros Hs. pose proof blockSize_header. inversion Hs; subst; [done|lia]. Qed.

(** [nextChunk] delivers the next chunk of the stream, whatever bytes [tl] follow
    the stream; two iterations are enough. *)
Lemma nextChunk_ok fuel wf r t d cs s m q tl :
  stream key (r_chunkNum r) (r_end r) ((t, d) :: cs) s m q -> Unread r (s ++ tl) ->
  (wf = true -> t = fullChunkType \/ t = firstChunkType) ->
  exists r' s', nextChunk rtk (S (S fuel)) wf r = Some (r', None) /\
    stream key (r_chunkNum r') (r_end r') cs s' m q /\ Unread r' (s' ++ tl) /\
    slice (r_buf r') (r_begin r') (r_end r') = d /\
    (r_begin r' + length d = r_end r')%nat /\
    r_last r' = bool_decide (t = fullChunkType) || bool_decide (t = lastChunkType) /\
    r_seq r' = r_seq r /\ r_err r' = r_err r.
Proof.
  intros Hs Hu Hwf.
  (* from a freshly loaded block *)
  assert (needs_block r -> forall s0, r_r r = s0 ++ tl ->
    stream key (r_chunkNum r) 0 ((t, d) :: cs) s0 m q ->
    exists r' s', nextChunk rtk (S (S fuel)) wf r = Some (r', None) /\
      stream key (r_chunkNum r') (r_end r') cs s' m q /\ Unread r' (s' ++ tl) /\
      slice (r_buf r') (r_begin r') (r_end r') = d /\
      (r_begin r' + length d = r_end r')%nat /\
      r_last r' = bool_decide (t = fullChunkType) || bool_decide (t = lastChunkType) /\
      r_seq r' = r_seq r /\ r_err r' = r_err r) as Hload.
  { intros Hneed s0 Hr Hs0. destruct (stream_0_inv _ _ _ _ _ _ _ Hs0) as (Hfit & s' & -> & Hs').
    assert (r_r r <> []) as Hne.
    { rewrite Hr. intros E. apply (f_equal length) in E. len. }
    rewrite (nextChunk_read _ _ _ Hneed Hne).
    destruct (loaded_unread _ _ Hu) as [Hu' Hn'].
    destruct (loaded_fields r) as (_ & _ & E3 & _ & _ & _ & E7 & E8 & E9).
    generalize dependent (loaded r). intros r1 Hu' Hn' E3 E7 E8 E9.
    rewrite Hr, <- E7, <- app_assoc in Hu'.
    destruct (nextChunk_chunk fuel wf _ _ _ _ Hu' Hn') as
      (r' & Hc & Hu1 & Hd & Hlen & Hend & Hlast & Hcn & Hsq & Her); [lia|done|].
    exists r', s'. rewrite Hcn, Hend, E3, E7.
    split_and!; [done|exact Hs'|done|by rewrite <- E3, <- Hend|lia|done|congruence|congruence]. }
  inversion Hs as [|n p cs0 s0 m0 q0 Hp Hpad Hs0|n p t0 d0 cs0 s0 m0 q0 Hfit Hs0]; subst.
  - (* padding up to the end of the block *)
    destruct Hu as [Hk Hl Hpos Hb Hbn Hblk].
    pose proof blockSize_header.
    destruct (stream_0_inv _ _ _ _ _ _ _ Hs0) as (_ & s' & Es & _).
    assert (0 < length s0)%nat by (rewrite Es; len; unfold legacyHeaderSize; lia).
    assert (length (slice (r_buf r) (r_end r) (r_n r)) <= blockSize - r_end r)%nat by len.
    assert (r_n r = blockSize) as Hn.
    { destruct Hblk as [?|[[Hr _]|[Hn _]]]; [done| |lia].
      rewrite Hr, app_nil_r in Hb. rewrite Hb in *. len. }
    assert (needs_block r) as Hneed by (split; [lia|by left]).
    apply (Hload Hneed s0); [|done].
    rewrite <- app_assoc in Hb.
    apply app_inj_1 in Hb as [_ Hb]; [done|]. rewrite Hn. len.
  - (* the chunk is in the buffer, or nothing has been read yet *)
    pose proof Hu as Hu0. rewrite <- app_assoc in Hu.
    destruct (unread_block _ _ Hu) as [Hn|[Hn|[Hn Hbn]]].
    + destruct (nextChunk_chunk (S fuel) wf _ _ _ _ Hu (or_introl Hn)) as
        (r' & Hc & Hu1 & Hd & Hlen & Hend & Hlast & Hcn & Hsq & Her); [done|done|].
      exists r', s0. rewrite Hcn, Hend.
      split_and!; [done|done|done|by rewrite <- Hend|lia|done..].
    + destruct (nextChunk_chunk (S fuel) wf _ _ _ _ Hu (or_intror Hn)) as
        (r' & Hc & Hu1 & Hd & Hlen & Hend & Hlast & Hcn & Hsq & Her); [done|done|].
      exists r', s0. rewrite Hcn, Hend.
      split_and!; [done|done|done|by rewrite <- Hend|lia|done..].
    + pose proof (unread_pos _ _ Hu) as Hpos. assert (r_end r = 0%nat) as E by lia.
      rewrite E in Hs.
      eapply Hload; [| |exact Hs].
      * split; [unfold legacyHeaderSize; lia|by right].
      * pose proof (unread_bytes _ _ Hu0) as Hb. by rewrite E, Hn, slice_nil in Hb.
Qed.

Lemma nextChunk_eof fuel r s m q :
  stream key (r_chunkNum r) (r_end r) [] s m q -> Unread r s ->
  exists r', nextChunk rtk (S fuel) true r = Some (r', Some EOF).
Proof.
  intros Hs [_ Hl Hpos Hb Hbn Hblk]. pose proof blockSize_header.
  assert (r_r r = [] /\ (r_end r = r_n r \/ r_n r = blockSize /\
    (blockSize < r_end r + legacyHeaderSize)%nat)) as [Hr Hend].
  { revert Hb. inversion Hs as [n p|n p cs0 s0 m0 q0 Hp Hpad Hs0|]; subst; intros Hb.
    - apply app_eq_nil in Hb as [E ->]. split; [done|left].
      apply (f_equal length) in E. len.
    - rewrite (stream_0_nil _ _ _ _ Hs0), app_nil_r in Hb.
      apply (f_equal length) in Hb as Hlen. len.
      destruct Hblk as [Hn|[[Hr _]|[Hn _]]]; [|rewrite Hr in *; simpl in *|lia].
      + split; [|by right]. apply length_zero_iff_nil. lia.
      + split; [done|]. right. lia. }
  assert (needs_block r \/ (r_n r < blockSize)%nat /\ (0 <= r_blockNum r)%Z /\ r_end r = r_n r)
    as [Hneed|(Hn & Hb0 & He)].
  { destruct Hend as [He|[Hn Hpad]]; [|left; split; [lia|by left]].
    rewrite He. destruct Hblk as [Hn|[[_ Hb0]|Hn]].
    - left. split; [unfold legacyHeaderSize; lia|by left].
    - destruct (decide (r_n r = blockSize)).
      + left. split; [unfold legacyHeaderSize; lia|by left].
      + right. lia.
    - left. split; [unfold legacyHeaderSize; lia|by right]. }
  - destruct (nextChunk_read_eof fuel true r Hneed Hr) as [r' ->]. eauto.
  - cbn [nextChunk]. rewrite He.
    destruct (Nat.leb_spec (r_n r + legacyHeaderSize) (r_n r));
      [unfold legacyHeaderSize in *; lia|].
    rewrite (proj2 (Nat.ltb_lt _ _) Hn), (proj2 (Z.leb_le _ _) Hb0). simpl.
    rewrite Nat.eqb_refl. simpl. eauto.
Qed.

Lemma rec_chunks_data f cs d :
  rec_chunks f cs d -> concat (snd <$> cs) = d /\ (1 <= length cs)%nat.
Proof.
  induction 1 as [|f d cs d' _ [IH _]]; simpl; [by rewrite app_nil_r; split|].
  split; [by rewrite <- IH|lia].
Qed.

(** Between two records: the chunks [cs] of the following ones are unread, and
    the bytes [tl] after them. *)
Record AtEnd tl r (cs : list chunk) : Prop := {
  at_err : r_err r = None;
  at_stream : exists s m q, stream key (r_chunkNum r) (r_end r) cs s m q /\ Unread r (s ++ tl);
}.

(** Inside a record: [d] of its data is unread, at most [N] chunks follow, the
    last ones of them being [cs'], of the following records. *)
Record InRecord tl r (d : bytes) (cs' : list chunk) (N : nat) : Prop := {
  in_err : r_err r = None;
  in_pos : (r_begin r <= r_end r)%nat;
  in_rest : exists cs d' s m q,
    (if r_last r then cs = [] /\ d' = [] else rec_chunks false cs d') /\
    d = slice (r_buf r) (r_begin r) (r_end r) ++ d' /\
    (length (cs ++ cs') <= N)%nat /\
    stream key (r_chunkNum r) (r_end r) (cs ++ cs') s m q /\ Unread r (s ++ tl);
}.

Lemma AtEnd_fields tl r r' cs :
  r_r r' = r_r r -> r_end r' = r_end r -> r_n r' = r_n r -> r_buf r' = r_buf r ->
  r_chunkNum r' = r_chunkNum r -> r_blockNum r' = r_blockNum r ->
  r_EncryptionKey r' = r_EncryptionKey r -> r_err r' = None ->
  AtEnd tl r cs -> AtEnd tl r' cs.
Proof.
  intros E1 E2 E3 E4 E5 E6 E7 E8 [_ (s & m & q & Hs & [])]. split; [done|].
  exists s, m, q. rewrite E2, E5. split; [done|].
  split; rewrite ?E1, ?E2, ?E3, ?E4, ?E6, ?E7; done.
Qed.

(** The chunk just read, seen as the start of the rest of its record. *)
Lemma enter_chunk tl (f : bool) r cs0 cs' d t d1 s m q :
  rec_chunks f ((t, d1) :: cs0) d ->
  r_last r = bool_decide (t = fullChunkType) || bool_decide (t = lastChunkType) ->
  slice (r_buf r) (r_begin r) (r_end r) = d1 -> (r_begin r + length d1 = r_end r)%nat ->
  r_err r = None ->
  stream key (r_chunkNum r) (r_end r) (cs0 ++ cs') s m q -> Unread r (s ++ tl) ->
  InRecord tl r d cs' (length (cs0 ++ cs')).
Proof.
  intros Hrec Hlast Hd Hpos Herr Hs Hu. split; [done|lia|].
  inversion Hrec as [f0 d0|f0 d0 cs1 d' Hrec']; subst.
  - exists [], [], s, m, q. rewrite app_nil_r. split_and!; [|done|done|done|done].
    rewrite Hlast. by destruct f.
  - exists cs0, d', s, m, q. split_and!; [|done|done|done|done].
    rewrite Hlast. by destruct f.
Qed.

Lemma read_loop_ok tl fuel r d cs' N :
  InRecord tl r d cs' N -> (N + 3 <= fuel)%nat ->
  exists r', r_seq r' = r_seq r /\
    (d = [] /\ read_loop rtk fuel r = Some (r', Some EOF) /\ AtEnd tl r' cs' \/
     d <> [] /\ read_loop rtk fuel r = Some (r', None) /\ InRecord tl r' d cs' N /\
       (r_begin r' < r_end r')%nat).
Proof.
  revert r N. induction fuel as [|fuel IH]; intros r N Hin HN; [lia|].
  destruct Hin as [Herr Hpos (cs & d' & s & m & q & Hcs & Hd & Hlen & Hs & Hu)].
  cbn [read_loop]. destruct (Nat.eqb_spec (r_begin r) (r_end r)) as [E|E].
  - rewrite E, slice_nil in Hd. simpl in Hd.
    destruct (r_last r).
    + destruct Hcs as [-> ->]. exists r. split; [done|]. left. split_and!; [done|done|].
      split; [done|]. eauto.
    + destruct cs as [|[t d1] cs0]; [by inversion Hcs|].
      destruct fuel as [|fuel]; [simpl in *; lia|].
      destruct (nextChunk_ok fuel false r t d1 _ _ _ _ _ Hs Hu) as
        (r1 & s1 & Hc & Hs1 & Hu1 & Hd1 & Hpos1 & Hlast1 & Hsq1 & Her1); [done|].
      rewrite Hc. subst d'.
      assert (InRecord tl (r1 <| r_err := None |>) d cs' (length (cs0 ++ cs'))) as Hin1.
      { eapply enter_chunk; [exact Hcs|exact Hlast1|exact Hd1|exact Hpos1|done|exact Hs1|].
        by destruct Hu1. }
      assert (InRecord tl (r1 <| r_err := None |>) d cs' (N - 1)) as Hin2.
      { destruct Hin1 as [? ? (cs2 & d2 & s2 & m2 & q2 & ? & ? & ? & ? & ?)].
        split; [done|done|]. exists cs2, d2, s2, m2, q2. split_and!; try done.
        simpl in Hlen. lia. }
      destruct (IH _ _ Hin2) as (r' & Hsq & Hres); [simpl in Hlen; lia|].
      exists r'. split; [by rewrite Hsq, <- Hsq1|].
      destruct Hres as [(?&?&?)|(?&?&[? ? (cs2&d2&s2&m2&q2&?&?&?&?&?)]&?)]; [by left|right].
      split_and!; [done|done| |done]. split; [done|done|].
      exists cs2, d2, s2, m2, q2. split_and!; try done. lia.
  - exists r. split; [done|]. right. split_and!; [|done| |lia].
    + rewrite Hd. intros [En _]%app_eq_nil. apply (f_equal length) in En.
      destruct Hu. len.
    + split; [done|done|]. exists cs, d', s, m, q. done.
Qed.

Lemma InRecord_advance tl r d cs' N n :
  InRecord tl r d cs' N -> (n <= r_end r - r_begin r)%nat ->
  InRecord tl (r <| r_begin := (r_begin r + n)%nat |>) (drop n d) cs' N.
Proof.
  intros [Herr Hpos (cs & d' & s & m & q & Hcs & -> & Hlen & Hs & Hu)] Hn.
  split; simpl; [done|lia|]. exists cs, d', s, m, q.
  split_and!; [done| |done|done|by destruct Hu].
  destruct Hu as [_ Hl Hp _ _ _]. rewrite drop_app_le by len. f_equal.
  unfold slice. rewrite skipn_firstn_comm, drop_drop. f_equal. lia.
Qed.

(** [Read] returns some of the rest of the record, or [EOF] at its end. *)
Lemma Read_ok tl fuel r d cs' N k :
  InRecord tl r d cs' N -> (N + 3 <= fuel)%nat -> (0 < k)%nat ->
  exists r' n, r_seq r' = r_seq r /\
    (d = [] /\ Read rtk fuel r (r_seq r) k = Some (r', [], Some EOF) /\ AtEnd tl r' cs' \/
     (0 < n <= length d)%nat /\ Read rtk fuel r (r_seq r) k = Some (r', take n d, None) /\
       InRecord tl r' (drop n d) cs' N).
Proof.
  intros Hin HN Hk. unfold Read. rewrite Z.eqb_refl, (in_err _ _ _ _ _ Hin).
  destruct (read_loop_ok _ _ _ _ _ _ Hin HN) as (r1 & Hsq & [(Hd & -> & Hat)|(Hd & -> & Hin1 & Hlt)]).
  - exists r1, 0%nat. split; [done|]. by left.
  - set (data := take k (slice (r_buf r1) (r_begin r1) (r_end r1))).
    destruct (in_rest _ _ _ _ _ Hin1) as (cs & d' & s & m & q & _ & Hdd & _ & _ & Hu).
    assert (length (slice (r_buf r1) (r_begin r1) (r_end r1)) = r_end r1 - r_begin r1)%nat as Hl.
    { destruct Hu. len. }
    assert (length data = Nat.min k (r_end r1 - r_begin r1))%nat as Hdl.
    { unfold data. rewrite length_take, Hl. done. }
    exists (r1 <| r_begin := (r_begin r1 + length data)%nat |>), (length data).
    split; [done|]. right. split_and!.
    + lia.
    + rewrite Hdd, length_app, Hl. lia.
    + do 2 f_equal. rewrite Hdd, take_app_le by lia. unfold data.
      rewrite length_take. destruct (Nat.min_dec k (length (slice (r_buf r1) (r_begin r1) (r_end r1))))
        as [E|E]; rewrite E; [done|]. rewrite !take_ge by lia. done.
    + apply InRecord_advance; [done|lia].
Qed.

Lemma ReadAll_ok tl fuel r d cs' N k :
  InRecord tl r d cs' N -> (N + length d + 4 <= fuel)%nat -> (0 < k)%nat ->
  exists r', ReadAll rtk fuel r (r_seq r) k = Some (r', Ok d) /\ AtEnd tl r' cs'.
Proof.
  revert r d. induction fuel as [|fuel IH]; intros r d Hin HN Hk; [lia|].
  cbn [ReadAll].
  destruct (Read_ok tl (S fuel) r d cs' N k Hin) as
    (r1 & n & Hsq & [(-> & -> & Hat)|(Hn & -> & Hin1)]); [lia|done| |].
  - eauto.
  - rewrite <- Hsq. destruct (IH _ _ Hin1) as (r2 & -> & Hat); [len|done|].
    rewrite take_drop. eauto.
Qed.

Lemma NextRecord_ok tl fuel r cs css d :
  AtEnd tl r (cs ++ css) -> rec_chunks true cs d -> (2 <= fuel)%nat ->
  exists r', NextRecord rtk fuel r = Some (r', Ok (r_seq r')) /\
    InRecord tl r' d css (length (cs ++ css)).
Proof.
  intros Hat Hrec Hfuel.
  destruct fuel as [|[|fuel]]; [lia|lia|].
  destruct cs as [|[t d1] cs0]; [by inversion Hrec|].
  unfold NextRecord. simpl r_err. rewrite (at_err _ _ _ Hat).
  set (r1 := r <| r_seq := _ |> <| r_begin := _ |>).
  assert (AtEnd tl r1 (((t, d1) :: cs0) ++ css)) as [_ (s & m & q & Hs & Hu)].
  { eapply AtEnd_fields; [..|exact Hat]; try done. apply (at_err _ _ _ Hat). }
  destruct (nextChunk_ok fuel true r1 t d1 _ _ _ _ _ Hs Hu) as
    (r2 & s2 & Hc & Hs2 & Hu2 & Hd2 & Hpos2 & Hlast2 & Hsq2 & Her2).
  { intros _. inversion Hrec; subst; auto. }
  rewrite Hc. witness_ret.
  assert (InRecord tl (r2 <| r_err := None |>) d css (length (cs0 ++ css))) as [? ? (a&b&c&e&g&?&?&?&?&?)].
  { eapply enter_chunk; [exact Hrec|exact Hlast2|exact Hd2|exact Hpos2|done|exact Hs2|].
    by destruct Hu2. }
  split; [done|done|]. exists a, b, c, e, g. split_and!; try done. simpl. lia.
Qed.

Lemma NextRecord_eof fuel r :
  AtEnd [] r [] -> (1 <= fuel)%nat ->
  exists r', NextRecord rtk fuel r = Some (r', Err EOF).
Proof.
  intros Hat Hfuel. destruct fuel as [|fuel]; [lia|].
  unfold NextRecord. simpl r_err. rewrite (at_err _ _ _ Hat).
  set (r1 := r <| r_seq := _ |> <| r_begin := _ |>).
  assert (AtEnd [] r1 []) as [_ (s & m & q & Hs & Hu)].
  { eapply AtEnd_fields; [..|exact Hat]; try done. apply (at_err _ _ _ Hat). }
  rewrite app_nil_r in Hu. destruct (nextChunk_eof fuel r1 _ _ _ Hs Hu) as [r' ->]. eauto.
Qed.

Lemma ReadRecords_ok fuel r css ds k :
  recs_chunks css ds -> AtEnd [] r css -> (0 < k)%nat ->
  (length css + length (concat ds) + length ds + 5 <= fuel)%nat ->
  ReadRecords rtk fuel r k = Some (ds, EOF).
Proof.
  intros Hrecs. revert fuel r.
  induction Hrecs as [|cs d css ds Hrec Hrecs IH]; intros fuel r Hat Hk Hfuel;
    (destruct fuel as [|fuel]; [lia|]); cbn [ReadRecords].
  - destruct (NextRecord_eof (S fuel) r Hat) as [r' ->]; [lia|done].
  - simpl in Hfuel. rewrite !length_app in Hfuel.
    destruct (NextRecord_ok [] (S fuel) r cs css d Hat Hrec) as (r1 & -> & Hin); [lia|].
    destruct (ReadAll_ok [] (S fuel) r1 d css _ k Hin) as (r2 & -> & Hat2); [len|done|].
    rewrite (IH fuel r2); [done|done|done|].
    assert (1 <= length cs)%nat by (destruct Hrec; simpl; lia). lia.
Qed.

(** Whatever follows the stream, reading does not fail before its end: the
    records read, if there are enough iterations, start with those of the stream. *)
Lemma ReadRecords_prefix tl fuel r css ds k l e :
  recs_chunks css ds -> AtEnd tl r css -> (0 < k)%nat ->
  (length css + length (concat ds) + length ds + 5 <= fuel)%nat ->
  ReadRecords rtk fuel r k = Some (l, e) -> ds `prefix_of` l.
Proof.
  intros Hrecs. revert fuel r l.
  induction Hrecs as [|cs d css ds Hrec Hrecs IH]; intros fuel r l Hat Hk Hfuel Hread;
    [apply prefix_nil|].
  destruct fuel as [|fuel]; [lia|]. cbn [ReadRecords] in Hread.
  simpl in Hfuel. rewrite !length_app in Hfuel.
  destruct (NextRecord_ok tl (S fuel) r cs css d Hat Hrec) as (r1 & E1 & Hin); [lia|].
  destruct (ReadAll_ok tl (S fuel) r1 d css _ k Hin) as (r2 & E2 & Hat2); [len|done|].
  rewrite E1, E2 in Hread.
  destruct (ReadRecords rtk fuel r2 k) as [[l' e']|] eqn:E; [|done]. simplify_eq.
  apply prefix_cons. eapply IH; [exact Hat2|done| |exact E].
  destruct (rec_chunks_data _ _ _ Hrec). lia.
Qed.

(** Chunks, their data and the records fit in the length of the stream. *)
Lemma stream_length n p cs s m q :
  stream key n p cs s m q ->
  (legacyHeaderSize * length cs + length (concat (snd <$> cs)) <= length s)%nat.
Proof.
  induction 1; cbn [length fmap list_fmap concat snd]; autorewrite with len; lia.
Qed.

Lemma recs_chunks_data cs ds :
  recs_chunks cs ds ->
  concat (snd <$> cs) = concat ds /\ (length ds <= length cs)%nat.
Proof.
  induction 1 as [|cs d css ds Hrec _ [IH1 IH2]]; [done|].
  destruct (rec_chunks_data _ _ _ Hrec) as [E1 E2].
  rewrite fmap_app, concat_app. simpl. rewrite IH1, E1, length_app. split; [done|lia].
Qed.

(** Reading a file in the format gives its records and then [EOF]. *)
Lemma ReadRecords_stream file logNum cs ds m q k fuel :
  recs_chunks cs ds -> stream key 0 0 cs file m q -> (0 < k)%nat ->
  (length file + 5 <= fuel)%nat ->
  ReadRecords rtk fuel (NewReader file logNum key) k = Some (ds, EOF).
Proof.
  intros Hrecs Hs Hk Hfuel.
  eapply ReadRecords_ok; [exact Hrecs| |done|].
  - split; [done|]. exists file, m, q. split; [exact Hs|rewrite app_nil_r; apply NewReader_unread].
  - pose proof (stream_length _ _ _ _ _ _ Hs) as Hl.
    destruct (recs_chunks_data _ _ Hrecs) as [E1 E2]. rewrite E1 in Hl.
    unfold legacyHeaderSize in Hl. lia.
Qed.
End reader_facts.
