(* ===== verification/RecordTotal.v ===== *)
(** Reading terminates on every file, whatever its bytes: each iteration of the
    reader's loops uses up some of the file. *)
From S2P Require Import Prelude.
From S2P Require Import Crypto.
From S2P Require Import Record.
From S2P Require Import RecordFormat.
From S2P Require Import RecordReader.

Section total.
Context `{C : AEAD} (rtk : bytes).
Implicit Types r : Reader bytes.

(** The buffer holds at most a block and the current chunk lies in it. *)
Record Sane r : Prop := {
  sane_len : length (r_buf r) = blockSize;
  sane_pos : (r_begin r <= r_end r <= r_n r)%nat;
  sane_n : (r_n r <= blockSize)%nat;
}.

(** What is left of the file; bytes not in the buffer yet count twice. *)
Definition left r : nat := 2 * length (r_r r) + (r_n r - r_end r).
Definition payload_left r : nat := left r + (r_end r - r_begin r).

Lemma nextChunk_total fuel wf r :
  Sane r -> (left r < fuel)%nat ->
  exists r' res, nextChunk rtk fuel wf r = Some (r', res) /\
    (res = None -> Sane r' /\ (payload_left r' < left r)%nat /\ r_seq r' = r_seq r).
Proof.
  revert r. induction fuel as [|fuel IH]; intros r [Hl Hp Hn] Hfuel; [lia|].
  cbn [nextChunk].
  destruct (Nat.leb_spec (r_end r + legacyHeaderSize) (r_n r)) as [Hh|Hh].
  - set (n := Z.to_nat (Uint16 _)). simpl.
    destruct (Nat.ltb_spec (r_n r) (r_end r + legacyHeaderSize + n)) as [?|Hfit].
    { by eexists _, _. }
    destruct (GetCipher rtk (r_EncryptionKey r)); [|by eexists _, _].
    destruct (Open _ _ _) as [pt|]; [|by eexists _, _].
    set (r1 := r <| r_begin := _ |> <| r_end := _ |> <| r_chunkNum := _ |> <| r_buf := _ |>).
    assert (r_r r1 = r_r r /\ r_n r1 = r_n r /\ r_seq r1 = r_seq r /\
      r_begin r1 = (r_end r + legacyHeaderSize)%nat /\
      r_end r1 = (r_end r + legacyHeaderSize + n)%nat /\ length (r_buf r1) = blockSize)
      as (E1 & E2 & E3 & E4 & E5 & E6).
    { unfold r1. simpl. split_and!; [done..|len]. }
    unfold payload_left, left in *. unfold legacyHeaderSize in *.
    assert (Sane r1) as Hs1 by (split; lia).
    destruct (wf && _ && _) eqn:E.
    + destruct (IH r1 Hs1) as (r' & res & Hr & Hres); [unfold left; rewrite E1; lia|].
      eexists r', res. split; [exact Hr|]. intros Hnone.
      destruct (Hres Hnone) as (? & Hlt & ?). split_and!; [done| |congruence].
      unfold payload_left, left in *. rewrite E1 in Hlt. lia.
    + eexists _, _. split; [done|]. intros _. split_and!; [by destruct Hs1| |done].
      unfold r1, left. simpl. lia.
  - destruct ((r_n r <? blockSize)%nat && (0 <=? r_blockNum r)%Z).
    { destruct (_ || _); by eexists _, _. }
    simpl ReadFull.
    assert (forall data, data = take blockSize (r_r r) -> r_r r <> [] ->
      exists r' res, nextChunk rtk fuel wf
        (r <| r_r := drop blockSize (r_r r) |> <| r_buf := copy_at (r_buf r) 0 data |>
           <| r_begin := 0%nat |> <| r_end := 0%nat |> <| r_n := length data |>
           <| r_blockNum := (r_blockNum r + 1)%Z |>) = Some (r', res) /\
        (res = None -> Sane r' /\ (payload_left r' < left r)%nat /\ r_seq r' = r_seq r)) as Hload.
    { intros data -> Hne. set (r1 := r <| r_r := _ |> <| r_buf := _ |> <| r_begin := _ |>
        <| r_end := _ |> <| r_n := _ |> <| r_blockNum := _ |>).
      assert (0 < length (r_r r))%nat by (destruct (r_r r); simpl; [done|lia]).
      assert (r_r r1 = drop blockSize (r_r r) /\ r_n r1 = length (take blockSize (r_r r)) /\
        r_seq r1 = r_seq r /\ r_begin r1 = 0%nat /\ r_end r1 = 0%nat /\
        length (r_buf r1) = blockSize) as (E1 & E2 & E3 & E4 & E5 & E6).
      { unfold r1. simpl. split_and!; [done..|len]. }
      rewrite length_take in E2. generalize dependent r1. intros r1 E1 E2 E3 E4 E5 E6.
      assert (length (r_r r1) = length (r_r r) - blockSize)%nat as E7 by (rewrite E1; len).
      pose proof blockSize_header. unfold payload_left, left in *.
      destruct (IH r1) as (r' & res & Hr & Hres); [split; lia|lia|].
      eexists r', res. split; [exact Hr|]. intros Hnone.
      destruct (Hres Hnone) as (? & Hlt & ?). split_and!; [done|unfold left in *; lia|congruence]. }
    destruct (Nat.leb_spec blockSize (length (r_r r))) as [Hge|Hlt].
    { apply Hload; [done|]. intros E. rewrite E in Hge. pose proof blockSize_header. simpl in *. lia. }
    destruct (Nat.eqb_spec (length (r_r r)) 0) as [E0|Hne]; [by eexists _, _|].
    apply Hload; [done|]. intros E. by rewrite E in Hne.
Qed.

(** What one of the reading functions leaves: a reader that has an error, or one
    with no more than [n] of the file left. *)
Definition Leaves r (n : nat) : Prop :=
  r_err r <> None \/ Sane r /\ (payload_left r <= n)%nat.

Lemma read_loop_total fuel r :
  Sane r -> (payload_left r < fuel)%nat ->
  exists r' res, read_loop rtk fuel r = Some (r', res) /\
    match res with
    | Some _ => Leaves r' (payload_left r)
    | None => Sane r' /\ (payload_left r' <= payload_left r)%nat /\ r_seq r' = r_seq r /\
                (r_begin r' < r_end r')%nat
    end.
Proof.
  revert r. induction fuel as [|fuel IH]; intros r Hs Hfuel; [lia|].
  cbn [read_loop]. destruct (Nat.eqb_spec (r_begin r) (r_end r)) as [E|E].
  2: { eexists r, None. destruct Hs. split_and!; [done|done|lia|done|lia]. }
  destruct (r_last r).
  { eexists r, (Some EOF). split; [done|]. right. done. }
  destruct (nextChunk_total (S fuel) false r Hs) as (r1 & [e|] & -> & Hres);
    [unfold payload_left in Hfuel; lia| |].
  { eexists _, _. split; [done|]. by left. }
  destruct (Hres eq_refl) as (Hs1 & Hlt & Hseq).
  assert (payload_left r1 < payload_left r)%nat by (unfold payload_left in *; lia).
  destruct (IH (r1 <| r_err := None |>)) as (r' & res & -> & H').
  { by destruct Hs1. }
  { change (payload_left (r1 <| r_err := None |>)) with (payload_left r1). lia. }
  change (payload_left (r1 <| r_err := None |>)) with (payload_left r1) in H'.
  exists r', res. split; [done|]. destruct res as [e|].
  - destruct H' as [?|[? ?]]; [by left|]. right. split; [done|lia].
  - destruct H' as (? & ? & Hsq & ?). split_and!; [done|lia|by rewrite Hsq|done].
Qed.

Lemma Read_total fuel r k :
  Leaves r (payload_left r) -> (payload_left r < fuel)%nat -> (0 < k)%nat ->
  exists r' data res, Read rtk fuel r (r_seq r) k = Some (r', data, res) /\
    match res with
    | Some _ => Leaves r' (payload_left r)
    | None => Sane r' /\ (payload_left r' < payload_left r)%nat /\ r_seq r' = r_seq r
    end.
Proof.
  intros Hl Hfuel Hk. unfold Read. rewrite Z.eqb_refl. destruct (r_err r) as [e|] eqn:Herr.
  { exists r, [], (Some e). split; [done|]. left. by rewrite Herr. }
  destruct Hl as [?|[Hs _]]; [done|].
  destruct (read_loop_total fuel r Hs Hfuel) as (r1 & [e|] & -> & H1).
  { by exists r1, [], (Some e). }
  destruct H1 as (Hs1 & Hle & Hsq & Hlt).
  set (data := take k _). eexists _, data, None. split; [done|].
  assert (0 < length data <= r_end r1 - r_begin r1)%nat as Hd.
  { destruct Hs1. unfold data. len. }
  destruct Hs1. split_and!; [split; simpl; [done|lia|done]| |done].
  unfold payload_left, left in *. simpl. lia.
Qed.

Lemma ReadAll_total fuel r k :
  Leaves r (payload_left r) -> (payload_left r < fuel)%nat -> (0 < k)%nat ->
  exists r' res, ReadAll rtk fuel r (r_seq r) k = Some (r', res) /\
    match res with Ok _ => Leaves r' (payload_left r) | Err _ => True end.
Proof.
  revert r. induction fuel as [|fuel IH]; intros r Hl Hfuel Hk; [lia|].
  cbn [ReadAll].
  destruct (Read_total (S fuel) r k Hl Hfuel Hk) as (r1 & data & [e|] & -> & H1).
  { destruct e; by eexists _, _. }
  destruct H1 as (Hs1 & Hlt & Hsq). rewrite <- Hsq.
  destruct (IH r1) as (r2 & res & -> & H2); [by right|lia|done|].
  destruct res; eexists _, _; (split; [done|]); [|done].
  destruct H2 as [?|[? ?]]; [by left|right]. split; [done|lia].
Qed.

Lemma NextRecord_total fuel r :
  Leaves r (payload_left r) -> (payload_left r < fuel)%nat ->
  exists r' res, NextRecord rtk fuel r = Some (r', res) /\
    match res with
    | Ok seq => seq = r_seq r' /\ Sane r' /\ (payload_left r' < payload_left r)%nat
    | Err _ => True
    end.
Proof.
  intros Hl Hfuel. unfold NextRecord. simpl r_err.
  destruct (r_err r) eqn:Herr; [by eexists _, _|].
  destruct Hl as [?|[Hs _]]; [done|].
  set (r1 := r <| r_seq := _ |> <| r_begin := _ |>).
  assert (Sane r1 /\ left r1 = left r) as [Hs1 El].
  { split; [|done]. destruct Hs. split; simpl; [done|lia|done]. }
  destruct (nextChunk_total fuel true r1 Hs1) as (r2 & [e|] & -> & H2);
    [unfold payload_left in Hfuel; lia|by eexists _, _|].
  destruct (H2 eq_refl) as (Hs2 & Hlt & _). eexists _, _. split; [done|].
  split_and!; [done|by destruct Hs2|].
  change (payload_left (r2 <| r_err := None |>)) with (payload_left r2).
  unfold payload_left in *. lia.
Qed.

(** [ReadRecords] returns on every input. *)
Lemma ReadRecords_total fuel r k :
  Leaves r (payload_left r) -> (payload_left r < fuel)%nat -> (0 < k)%nat ->
  exists l e, ReadRecords rtk fuel r k = Some (l, e).
Proof.
  revert r. induction fuel as [|fuel IH]; intros r Hl Hfuel Hk; [lia|].
  cbn [ReadRecords].
  destruct (NextRecord_total (S fuel) r Hl Hfuel) as (r1 & [seq|e] & -> & H1); [|by eexists _, _].
  destruct H1 as (-> & Hs1 & Hlt).
  destruct (ReadAll_total (S fuel) r1 k) as (r2 & [d|e] & -> & H2);
    [by right|lia|done| |by eexists _, _].
  destruct (r_err r2) as [e|] eqn:Herr2.
  - destruct fuel as [|fuel]; [lia|]. cbn [ReadRecords]. unfold NextRecord. simpl r_err.
    rewrite Herr2. by eexists _, _.
  - destruct H2 as [?|[Hs2 Hle]]; [done|].
    destruct (IH r2) as (l & e & ->); [by right|lia|done|by eexists _, _].
Qed.
End total.

Lemma ReadRecords_file `{C : AEAD} rtk key F logNum k fuel :
  (0 < k)%nat -> (2 * length F + 1 <= fuel)%nat ->
  exists l e, ReadRecords rtk fuel (NewReader F logNum key) k = Some (l, e).
Proof.
  intros Hk Hfuel. apply ReadRecords_total; [|unfold payload_left, left; simpl; lia|done].
  right. split; [|done]. split; simpl; [by rewrite length_replicate|lia|lia].
Qed.
