(* ===== verification/RecordIntegrity.v ===== *)
(** Integrity of record files: whatever bytes the reader is given, if the only
    chunks in them that open are chunks the writer sealed under the same number,
    then the records read are a prefix of the records written. *)
From S2P Require Import Prelude.
From S2P Require Import Crypto.
From S2P Require Import Record.
From S2P Require Import RecordFormat.
From S2P Require Import RecordReader.

Section integrity.
Context `{C : AEAD} `{CL : !AEADLaws C} (rtk key : bytes).
Context (Hkey : aes_key_ok key = true).
Context (F : bytes) (log : list chunk).
Implicit Types r : Reader bytes.

(** What the reader passes to [Open] for a chunk whose header is at offset [i]
    of the file and whose payload ends at offset [j]. *)
Definition chunk_at (i j : nat) : bytes := slice F (i + 18) j ++ slice F i (i + 16).

(** No forgery among the chunks of the file: for each [n], as long as the file
    has room for [n] chunks, the [n]-th nonce opens only the [n]-th chunk of the
    log. *)
Definition genuine : Prop :=
  forall n i j p, (1 <= n)%nat -> (legacyHeaderSize * n <= length F)%nat ->
    (i + legacyHeaderSize <= j <= length F)%nat ->
    Open key (edgMakeNonce (Z.of_nat n)) (chunk_at i j) = Some p ->
    exists t d, log !! (n - 1)%nat = Some (t, d) /\ p = t :: d.

Context (Hgen : genuine) (HF : (Z.of_nat (length F) < 2 ^ 64)%Z).

(** Of the log, the chunks [cs] have not been read yet. *)
Definition Rest r (cs : list chunk) : Prop :=
  exists pre off, log = pre ++ cs /\ r_chunkNum r = Z.of_nat (length pre) /\
    Unread key r (drop off F) /\ (legacyHeaderSize * length pre <= off <= length F)%nat.

(** What bytes that open at offset [off] look like. *)
Lemma opened_chunk off n len p :
  (off + 19 + len <= length F)%nat -> (Z.of_nat len < 2 ^ 16)%Z ->
  Uint16 (slice F (off + 16) (off + 18)) = Z.of_nat len ->
  Open key (edgMakeNonce n) (chunk_at off (off + 19 + len)) = Some p ->
  exists t d, p = t :: d /\ length d = len /\
    drop off F = enc_chunk key n t d ++ drop (off + 19 + len) F.
Proof.
  intros Hoff Hlen Hu16 Ho. apply Open_Some in Ho as Hseal.
  assert (length (chunk_at off (off + 19 + len)) = len + 17)%nat as Hl
    by (unfold chunk_at; len).
  rewrite Hseal, Seal_length in Hl. unfold GCMTagSize in Hl.
  destruct p as [|t d]; [simpl in Hl; lia|]. simpl in Hl.
  exists t, d. split_and!; [done|lia|].
  assert (length d = len) as Hd by lia.
  unfold enc_chunk. rewrite <- Hseal. unfold chunk_at.
  replace (length _ - 16)%nat with (length (slice F (off + 18) (off + 19 + len))) by len.
  rewrite drop_app_length, take_app_length.
  assert (PutUint16 (Z.of_nat (length d)) = slice F (off + 16) (off + 18)) as ->.
  { rewrite Hd, <- Hu16. unfold PutUint16, Uint16.
    rewrite (take_ge (slice _ _ _)) by len.
    replace 2%nat with (length (slice F (off + 16) (off + 18))) at 1 by len.
    apply le_put_get. }
  rewrite <- !app_assoc.
  replace (drop off F) with (slice F off (length F)) by (apply slice_to_end; lia).
  replace (drop (off + 19 + len) F) with (slice F (off + 19 + len) (length F))
    by (apply slice_to_end; lia).
  rewrite (slice_split F off (off + 16) (length F)) by lia. f_equal.
  rewrite (slice_split F (off + 16) (off + 18) (length F)) by lia. f_equal.
  apply slice_split. lia.
Qed.

Lemma unread_slice r off a b :
  Unread key r (drop off F) -> (r_end r + b <= r_n r)%nat ->
  slice (r_buf r) (r_end r + a) (r_end r + b) = slice F (off + a) (off + b).
Proof.
  intros [_ Hl Hp Hb _ _] Hn. rewrite <- (slice_drop F off a b), <- Hb.
  rewrite slice_app_prefix by len. by rewrite slice_slice.
Qed.

Lemma unread_bound r off :
  Unread key r (drop off F) -> (off <= length F)%nat ->
  (off + (r_n r - r_end r) <= length F)%nat.
Proof.
  intros [_ Hl Hp Hb _ _] Hoff. apply (f_equal length) in Hb. len.
Qed.

(** What one call of [nextChunk] may do: fail, or deliver the next chunk of the
    log.  The end of the file is an error inside of a record. *)
Definition chunk_or_error (wf : bool) r (cs : list chunk) r' (res : option error) : Prop :=
  match res with
  | Some e => wf = false -> e <> EOF
  | None => exists t d cs', cs = (t, d) :: cs' /\ Rest r' cs' /\
      slice (r_buf r') (r_begin r') (r_end r') = d /\
      (r_begin r' + length d = r_end r')%nat /\
      r_last r' = bool_decide (t = fullChunkType) || bool_decide (t = lastChunkType) /\
      r_seq r' = r_seq r /\ r_err r' = r_err r
  end.

Definition starts_record (wf : bool) (cs : list chunk) : Prop :=
  wf = true -> forall t d cs', cs = (t, d) :: cs' -> t = fullChunkType \/ t = firstChunkType.

(** The chunk whose header is in the buffer. *)
Lemma nextChunk_parse fuel wf r cs :
  Rest r cs -> starts_record wf cs -> (r_end r + legacyHeaderSize <= r_n r)%nat ->
  exists r' res, nextChunk rtk (S fuel) wf r = Some (r', res) /\
    chunk_or_error wf r cs r' res.
Proof.
  intros (pre & off & Hlog & Hcn & Hu & Hoff) Hfirst Hhdr.
  pose proof (unread_bound _ _ Hu ltac:(lia)) as Hbound.
  pose proof (unread_pos _ _ _ Hu) as Hpos. unfold legacyHeaderSize in *.
  assert (u64 (r_chunkNum r + 1) = Z.of_nat (S (length pre))) as Hnext.
  { rewrite Hcn. rewrite u64_small by lia. lia. }
  set (len := Z.to_nat (Uint16 (slice (r_buf r) (r_end r + 16) (r_end r + 18)))).
  assert (Uint16 (slice F (off + 16) (off + 18)) = Z.of_nat len /\ (Z.of_nat len < 2 ^ 16)%Z)
    as [Hu16 Hlen].
  { unfold len. rewrite (unread_slice _ _ 16 18 Hu) by lia.
    unfold Uint16. pose proof (le_get_range (take 2 (slice F (off + 16) (off + 18)))) as Hr.
    rewrite length_take, length_slice in Hr.
    replace (8 * Z.of_nat _)%Z with 16%Z in Hr by lia. lia. }
  destruct (decide (r_n r < r_end r + 19 + len)%nat) as [Hbig|Hfit].
  { (* the chunk does not end in this block *)
    cbn [nextChunk]. destruct (Nat.leb_spec (r_end r + legacyHeaderSize) (r_n r));
      [|unfold legacyHeaderSize in *; lia].
    simpl. unfold legacyHeaderSize. fold len.
    destruct (Nat.ltb_spec (r_n r) (r_end r + 19 + len)); [|lia].
    eexists _, _. split; [done|]. done. }
  destruct (Open key (edgMakeNonce (u64 (r_chunkNum r + 1))) (chunk_at off (off + 19 + len)))
    as [p|] eqn:Ho.
  - destruct (opened_chunk off _ len _ ltac:(lia) Hlen Hu16 Ho) as (t & d & -> & Hd & Hdrop).
    rewrite Hnext in Ho. destruct (Hgen (S (length pre)) off (off + 19 + len) _ ltac:(lia)
      ltac:(unfold legacyHeaderSize; lia) ltac:(unfold legacyHeaderSize; lia) Ho)
      as (t' & d' & Hlook & [= <- <-]).
    replace (S (length pre) - 1)%nat with (length pre) in Hlook by lia.
    rewrite Hlog, lookup_app_r, Nat.sub_diag in Hlook by lia.
    destruct cs as [|c cs']; [done|]. simpl in Hlook. injection Hlook as ->.
    rewrite Hdrop in Hu.
    destruct (nextChunk_chunk rtk key Hkey fuel wf r t d _ Hu) as
      (r' & Hc & Hu' & Hs' & Hb' & He' & Hl' & Hcn' & Hq' & Herr').
    + destruct (unread_block _ _ _ Hu) as [?|[?|[? ?]]]; [by left|by right|lia].
    + unfold legacyHeaderSize. lia.
    + intros Hw. by eapply Hfirst.
    + eexists r', None. split; [exact Hc|]. exists t, d, cs'. split_and!; try done.
      exists (pre ++ [(t, d)]), (off + 19 + len)%nat. split_and!; [|len|done| |lia].
      * by rewrite <- app_assoc.
      * unfold legacyHeaderSize. len.
  - (* the chunk does not open *)
    cbn [nextChunk]. destruct (Nat.leb_spec (r_end r + legacyHeaderSize) (r_n r));
      [|unfold legacyHeaderSize in *; lia].
    simpl. unfold legacyHeaderSize. fold len.
    destruct (Nat.ltb_spec (r_n r) (r_end r + 19 + len)); [lia|].
    rewrite (unread_key _ _ _ Hu), GetCipher_ok by done.
    replace (r_end r + 19 - 1)%nat with (r_end r + 18)%nat by lia.
    replace (slice (r_buf r) (r_end r + 18) (r_end r + 19 + len)) with
      (slice F (off + 18) (off + 19 + len)).
    2: { symmetry. rewrite <- !Nat.add_assoc. apply unread_slice; [done|lia]. }
    replace (slice (r_buf r) (r_end r) (r_end r + 16)) with (slice F off (off + 16)).
    2: { symmetry. rewrite <- (Nat.add_0_r (r_end r)) at 1. rewrite (unread_slice _ off) by (done || lia).
         by rewrite Nat.add_0_r. }
    unfold chunk_at in Ho. rewrite Ho.
    eexists _, _. split; [done|]. done.
Qed.

(** Too few bytes left in the last block. *)
Lemma nextChunk_short fuel wf r cs :
  (r_n r < r_end r + legacyHeaderSize)%nat -> (r_n r < blockSize)%nat ->
  (0 <= r_blockNum r)%Z ->
  exists r' res, nextChunk rtk (S fuel) wf r = Some (r', res) /\
    chunk_or_error wf r cs r' res.
Proof.
  intros Hhdr Hn Hb. cbn [nextChunk].
  destruct (Nat.leb_spec (r_end r + legacyHeaderSize) (r_n r)); [lia|].
  rewrite (proj2 (Nat.ltb_lt _ _) Hn), (proj2 (Z.leb_le _ _) Hb).
  destruct wf, (r_end r =? r_n r)%nat; eexists _, _; (split; [done|]); done.
Qed.

Lemma nextChunk_any fuel wf r cs :
  Rest r cs -> starts_record wf cs ->
  exists r' res, nextChunk rtk (S (S fuel)) wf r = Some (r', res) /\
    chunk_or_error wf r cs r' res.
Proof.
  intros Hrest Hfirst. pose proof blockSize_header as HB.
  destruct (decide (r_end r + legacyHeaderSize <= r_n r)%nat) as [Hhdr|Hhdr];
    [by apply nextChunk_parse|].
  destruct Hrest as (pre & off & Hlog & Hcn & Hu & Hoff).
  destruct (decide (needs_block r)) as [Hneed|Hneed]; cycle 1.
  { apply nextChunk_short; [lia| |].
    - destruct (decide (r_n r = blockSize)) as [E|E]; [|destruct (unread_pos _ _ _ Hu); lia].
      exfalso. apply Hneed. split; [lia|by left].
    - destruct (unread_block _ _ _ Hu) as [?|[[_ ?]|?]]; [|done|];
        exfalso; apply Hneed; (split; [lia|tauto]). }
  destruct (decide (r_r r = [])) as [Hnil|Hne].
  { destruct (nextChunk_read_eof rtk (S fuel) wf r Hneed Hnil) as [r' ->].
    eexists _, _. split; [done|]. by destruct wf. }
  rewrite (nextChunk_read rtk (S fuel) wf r Hneed Hne).
  destruct (loaded_unread key r _ Hu) as [Hu' Hn'].
  destruct (loaded_fields r) as (_ & _ & E3 & E4 & _ & _ & E7 & E8 & E9).
  assert (r_r r = drop (off + (r_n r - r_end r)) F) as Hrr.
  { destruct Hu as [_ Hl Hp Hb _ _]. rewrite <- drop_drop, <- Hb.
    symmetry. apply drop_app_length'. len. }
  pose proof (unread_bound _ _ Hu ltac:(lia)) as Hbound.
  rewrite Hrr in Hu'.
  generalize dependent (loaded r). intros r1 Hu' Hn' E3 E4 E7 E8 E9.
  assert (Rest r1 cs) as Hrest1.
  { exists pre, (off + (r_n r - r_end r))%nat. split_and!; [done|congruence|done|lia|lia]. }
  assert (forall r' res, chunk_or_error wf r1 cs r' res -> chunk_or_error wf r cs r' res) as Hco.
  { intros r' [e|]; simpl; [done|]. by rewrite E8, E9. }
  destruct (decide (r_end r1 + legacyHeaderSize <= r_n r1)%nat) as [Hhdr1|Hhdr1].
  - destruct (nextChunk_parse fuel wf r1 cs Hrest1 Hfirst Hhdr1) as (r' & res & ? & ?). eauto.
  - destruct (nextChunk_short fuel wf r1 cs) as (r' & res & ? & ?); [lia|lia| |eauto].
    destruct Hn' as [?|[_ ?]]; [lia|done].
Qed.

(** Inside a record of the log; compare [InRecord] of [RecordReader]. *)
Record InRest r (d : bytes) (cs' : list chunk) (N : nat) : Prop := {
  inr_err : r_err r = None;
  inr_pos : (r_begin r <= r_end r)%nat;
  inr_rest : exists cs d',
    (if r_last r then cs = [] /\ d' = [] else rec_chunks false cs d') /\
    d = slice (r_buf r) (r_begin r) (r_end r) ++ d' /\
    (length (cs ++ cs') <= N)%nat /\ Rest r (cs ++ cs');
}.

Lemma Rest_err r e cs : Rest r cs -> Rest (r <| r_err := e |>) cs.
Proof.
  intros (pre & off & ? & ? & Hu & ?). exists pre, off. split_and!; try done; try lia.
  by destruct Hu.
Qed.

Lemma InRest_mono r d cs' N N' : InRest r d cs' N -> (N <= N')%nat -> InRest r d cs' N'.
Proof.
  intros [? ? (cs & d' & ? & ? & ? & ?)] ?. split; [done|done|].
  exists cs, d'. split_and!; try done. lia.
Qed.

Lemma enter_rest (f : bool) r cs0 cs' d t d1 :
  rec_chunks f ((t, d1) :: cs0) d ->
  r_last r = bool_decide (t = fullChunkType) || bool_decide (t = lastChunkType) ->
  slice (r_buf r) (r_begin r) (r_end r) = d1 -> (r_begin r + length d1 = r_end r)%nat ->
  Rest r (cs0 ++ cs') ->
  InRest (r <| r_err := None |>) d cs' (length (cs0 ++ cs')).
Proof.
  intros Hrec Hlast Hd Hpos Hr%(Rest_err _ None). split; simpl; [done|lia|].
  inversion Hrec as [f0 d0|f0 d0 cs1 d' Hrec']; subst.
  - exists [], []. rewrite app_nil_r. split_and!; [|done|done|done].
    rewrite Hlast. by destruct f.
  - exists cs0, d'. split_and!; [|done|done|done].
    rewrite Hlast. by destruct f.
Qed.

Lemma read_loop_any fuel r d cs' N :
  InRest r d cs' N -> (N + 3 <= fuel)%nat ->
  exists r' res, read_loop rtk fuel r = Some (r', res) /\
    match res with
    | Some EOF => d = [] /\ r_err r' = None /\ Rest r' cs'
    | Some _ => True
    | None => (r_begin r' < r_end r')%nat /\ InRest r' d cs' N /\ r_seq r' = r_seq r
    end.
Proof.
  revert r N. induction fuel as [|fuel IH]; intros r N Hin HN; [lia|].
  destruct Hin as [Herr Hpos (cs & d' & Hcs & Hd & Hlen & Hr)].
  cbn [read_loop]. destruct (Nat.eqb_spec (r_begin r) (r_end r)) as [E|E].
  2: { eexists r, None. split_and!; [done|lia| |done]. split; [done|done|]. exists cs, d'. done. }
  rewrite E, slice_nil in Hd. simpl in Hd. subst d'.
  destruct (r_last r).
  { destruct Hcs as [-> ->]. eexists r, (Some EOF). done. }
  destruct cs as [|[t d1] cs0]; [by inversion Hcs|].
  destruct fuel as [|fuel]; [simpl in *; lia|].
  destruct (nextChunk_any fuel false r _ Hr) as (r1 & [e|] & -> & Hc); [done| |].
  - eexists _, _. split; [done|]. destruct e; try done. by destruct Hc.
  - destruct Hc as (t' & d' & cs1 & [= <- <- <-] & Hr1 & Hd1 & Hpos1 & Hlast1 & Hsq1 & Her1).
    destruct (IH _ _ (enter_rest false _ _ _ _ _ _ Hcs Hlast1 Hd1 Hpos1 Hr1))
      as (r' & res & Hl & Hres); [simpl in Hlen; lia|].
    exists r', res. rewrite Hl. split; [done|].
    destruct res as [e|]; [done|]. destruct Hres as (? & Hin & Hsq).
    split_and!; [done| |by rewrite Hsq].
    eapply InRest_mono; [exact Hin|]. simpl in Hlen. lia.
Qed.

Lemma InRest_advance r d cs' N n :
  InRest r d cs' N -> (n <= r_end r - r_begin r)%nat ->
  InRest (r <| r_begin := (r_begin r + n)%nat |>) (drop n d) cs' N.
Proof.
  intros [Herr Hpos (cs & d' & Hcs & -> & Hlen & (pre & off & ? & ? & Hu & ?))] Hn.
  split; simpl; [done|lia|]. exists cs, d'. split_and!; [done| |done|].
  - destruct Hu as [_ Hl Hp _ _ _]. rewrite drop_app_le by len. f_equal.
    unfold slice. rewrite skipn_firstn_comm, drop_drop. f_equal. lia.
  - exists pre, off. split_and!; try done; try lia. by destruct Hu.
Qed.

(** Reading one record fails or gives all of it. *)
Lemma ReadAll_any fuel r d cs' N k :
  InRest r d cs' N -> (N + length d + 4 <= fuel)%nat -> (0 < k)%nat ->
  exists r' res, ReadAll rtk fuel r (r_seq r) k = Some (r', res) /\
    match res with
    | Ok x => x = d /\ r_err r' = None /\ Rest r' cs'
    | Err _ => True
    end.
Proof.
  revert r d. induction fuel as [|fuel IH]; intros r d Hin HN Hk; [lia|].
  cbn [ReadAll]. unfold Read at 1. rewrite Z.eqb_refl, (inr_err _ _ _ _ Hin).
  destruct (read_loop_any (S fuel) _ _ _ _ Hin) as (r1 & [[| |]|] & -> & Hres); [lia| | | |].
  - eexists _, _. split; [done|]. destruct Hres as (-> & ? & ?). done.
  - by eexists _, _.
  - by eexists _, _.
  - destruct Hres as (Hlt & Hin1 & Hsq).
    set (data := take k (slice (r_buf r1) (r_begin r1) (r_end r1))).
    destruct (inr_rest _ _ _ _ Hin1) as (cs & d' & _ & Hdd & _ & (pre & off & _ & _ & Hu & _)).
    assert (length (slice (r_buf r1) (r_begin r1) (r_end r1)) = r_end r1 - r_begin r1)%nat as Hl.
    { destruct Hu. len. }
    assert (length data = Nat.min k (r_end r1 - r_begin r1))%nat as Hdl.
    { unfold data. rewrite length_take, Hl. done. }
    assert (data = take (length data) d) as Hdata.
    { rewrite Hdd, take_app_le by lia. unfold data. rewrite length_take.
      destruct (Nat.min_dec k (length (slice (r_buf r1) (r_begin r1) (r_end r1))))
        as [E|E]; rewrite E; [done|]. rewrite !take_ge by lia. done. }
    assert (length data <= length d)%nat by (rewrite Hdd, length_app, Hl; lia).
    destruct (IH (r1 <| r_begin := (r_begin r1 + length data)%nat |>) (drop (length data) d))
      as (r2 & res & Hread & Hres2); [apply InRest_advance; [done|lia]|len|done|].
    simpl in Hread. rewrite Hsq in Hread. rewrite Hread.
    destruct res as [x|e]; (eexists _, _; split; [done|]); [|done].
    destruct Hres2 as (-> & ? & ?). rewrite Hdata at 1. by rewrite take_drop.
Qed.

Lemma NextRecord_any fuel r css ds :
  r_err r = None -> Rest r css -> recs_chunks css ds -> (2 <= fuel)%nat ->
  exists r' res, NextRecord rtk fuel r = Some (r', res) /\
    match res with
    | Ok seq => seq = r_seq r' /\ exists d cs css' ds', css = cs ++ css' /\ ds = d :: ds' /\
        recs_chunks css' ds' /\ rec_chunks true cs d /\ InRest r' d css' (length css)
    | Err _ => True
    end.
Proof.
  intros Herr Hr Hrecs Hfuel. destruct fuel as [|[|fuel]]; [lia|lia|].
  unfold NextRecord. simpl r_err. rewrite Herr.
  set (r1 := r <| r_seq := _ |> <| r_begin := _ |>).
  assert (Rest r1 css) as Hr1.
  { destruct Hr as (pre & off & ? & ? & Hu & ?). exists pre, off.
    split_and!; try done; try lia. by destruct Hu. }
  assert (starts_record true css) as Hst.
  { intros _ t d cs' ->. inversion Hrecs as [|cs d0 css' ds' Hrec Hrecs' E]; subst.
    inversion Hrec; subst; simplify_eq/=; auto. }
  destruct (nextChunk_any fuel true r1 css Hr1 Hst) as (r2 & [e|] & -> & Hc);
    [by eexists _, _|].
  destruct Hc as (t & d1 & cs1 & -> & Hr2 & Hd2 & Hpos2 & Hlast2 & Hsq2 & Her2).
  eexists _, _. split; [done|]. split; [done|].
  inversion Hrecs as [|cs d css' ds' Hrec Hrecs' E]; subst.
  destruct cs as [|[t0 d0] cs0]; [by inversion Hrec|]. simplify_eq/=.
  exists d, ((t, slice (r_buf r2) (r_begin r2) (r_end r2)) :: cs0), css', ds'.
  split_and!; try done.
  eapply InRest_mono; [eapply enter_rest; done|]. lia.
Qed.

Lemma ReadRecords_any fuel r css ds k :
  recs_chunks css ds -> r_err r = None -> Rest r css -> (0 < k)%nat ->
  (length css + length (concat ds) + length ds + 5 <= fuel)%nat ->
  exists l e, ReadRecords rtk fuel r k = Some (l, e) /\ l `prefix_of` ds.
Proof.
  revert r css ds. induction fuel as [|fuel IH]; intros r css ds Hrecs Herr Hr Hk Hfuel; [lia|].
  cbn [ReadRecords].
  destruct (NextRecord_any (S fuel) r css ds Herr Hr Hrecs) as (r1 & [seq|e] & -> & Hres);
    [lia| |eexists _, _; split; [done|apply prefix_nil]].
  destruct Hres as (-> & d & cs & css' & ds' & -> & -> & Hrecs' & Hrec & Hin).
  simpl in Hfuel. rewrite !length_app in *.
  destruct (ReadAll_any (S fuel) r1 d css' _ k Hin) as (r2 & [x|e] & -> & Hres);
    [lia|done| |eexists _, _; split; [done|apply prefix_nil]].
  destruct Hres as (-> & Herr2 & Hr2).
  destruct (rec_chunks_data _ _ _ Hrec) as [_ Hcs].
  destruct (IH r2 css' ds' Hrecs' Herr2 Hr2 Hk) as (l & e & -> & Hpre); [lia|].
  eexists _, _. split; [done|]. by apply prefix_cons.
Qed.
End integrity.
