(* ===== verification/RecordSpec.v ===== *)
(** The properties of package record: round trip, offsets, integrity of tampered
    files, and errors of the sink. *)
From S2P Require Import Prelude.
From S2P Require Import Crypto.
From S2P Require Import Record.
From S2P Require Import RecordFormat.
From S2P Require Import RecordWriter.
From S2P Require Import RecordReader.
From S2P Require Import RecordIntegrity.
From S2P Require Import RecordTotal.
Import Toy.

(** What a client of [Writer] does: write a record at once, write it in pieces
    with the writer [Next] returns, or flush. *)
Inductive wop :=
| OpWriteRecord (p : bytes)
| OpPieces (ps : list bytes)
| OpFlush.

(** The records a client has written. *)
Fixpoint written_records (ops : list wop) : list bytes :=
  match ops with
  | [] => []
  | OpWriteRecord p :: ops => p :: written_records ops
  | OpPieces ps :: ops => concat ps :: written_records ops
  | OpFlush :: ops => written_records ops
  end.

Section client.
Context `{C : AEAD} `{EW : EdgWriter W} (rtk : bytes).
Implicit Types w : Writer W.

Fixpoint write_pieces w (seq : Z) (ps : list bytes) : go (Writer W * option error) :=
  match ps with
  | [] => Ret (w, None)
  | p :: ps =>
      '(w, n) ← Write rtk w seq p;
      match n with Err e => Ret (w, Some e) | Ok _ => write_pieces w seq ps end
  end.

Definition run_op w (op : wop) : go (Writer W * option error) :=
  match op with
  | OpWriteRecord p =>
      '(w, n) ← WriteRecord rtk w p;
      Ret (w, match n with Err e => Some e | Ok _ => None end)
  | OpPieces ps =>
      '(w, t) ← Next rtk w;
      match t with Err e => Ret (w, Some e) | Ok seq => write_pieces w seq ps end
  | OpFlush => Flush rtk w
  end.

(** Runs the operations up to the first error. *)
Fixpoint run_ops w (ops : list wop) : go (Writer W * option error) :=
  match ops with
  | [] => Ret (w, None)
  | op :: ops =>
      '(w, err) ← run_op w op;
      match err with Some e => Ret (w, Some e) | None => run_ops w ops end
  end.

(** Runs the operations and closes the writer. *)
Definition run_close w (ops : list wop) : go (Writer W * option error) :=
  '(w, err) ← run_ops w ops;
  match err with Some e => Ret (w, Some e) | None => Close rtk w end.
End client.

Section client_facts.
Context `{C : AEAD} `{CL : !AEADLaws C} (rtk key : bytes).
Context (Hkey : aes_key_ok key = true).

Lemma write_pieces_ok (w : Writer bytes) ds d ps :
  Opened key w ds d ->
  exists w', write_pieces rtk w (w_seq w) ps = Ret (w', None) /\
    Opened key w' ds (d ++ concat ps).
Proof.
  revert w d. induction ps as [|p ps IH]; intros w d Hop; simpl.
  - rewrite app_nil_r. eauto.
  - destruct (Write_ok rtk key Hkey w ds d p Hop) as (w1 & -> & Hop1 & Hq). simpl.
    destruct (IH _ _ Hop1) as (w2 & Hw2 & Hop2). rewrite Hq in Hw2. rewrite Hw2.
    exists w2. by rewrite app_assoc.
Qed.

Lemma run_op_ok (w : Writer bytes) ds op :
  Holds key w ds ->
  exists w', run_op rtk w op = Ret (w', None) /\ Holds key w' (ds ++ written_records [op]).
Proof.
  intros Hh. destruct op as [p|ps|]; simpl.
  - destruct (WriteRecord_ok rtk key Hkey w ds p Hh) as (w1 & -> & Hi & _). simpl.
    exists w1. split; [done|]. by left.
  - destruct (Next_ok rtk key Hkey w ds Hh) as (w1 & -> & Hop & _). simpl.
    destruct (write_pieces_ok _ _ _ ps Hop) as (w2 & -> & Hop2).
    exists w2. split; [done|]. by apply Holds_opened.
  - destruct (Flush_ok rtk key Hkey w ds Hh) as (w1 & -> & Hi & _).
    exists w1. split; [done|]. rewrite app_nil_r. by left.
Qed.

Lemma run_ops_ok (w : Writer bytes) ds ops :
  Holds key w ds ->
  exists w', run_ops rtk w ops = Ret (w', None) /\ Holds key w' (ds ++ written_records ops).
Proof.
  revert w ds. induction ops as [|op ops IH]; intros w ds Hh; simpl.
  - rewrite app_nil_r. eauto.
  - destruct (run_op_ok w ds op Hh) as (w1 & -> & Hh1). simpl.
    destruct (IH _ _ Hh1) as (w2 & -> & Hh2). exists w2. split; [done|].
    by destruct op; simpl in *; rewrite <- ?app_assoc in Hh2.
Qed.

Lemma run_close_ok ops :
  exists w cs q, run_close rtk (NewWriter [] key) ops = Ret (w, None) /\
    recs_chunks cs (written_records ops) /\
    stream key 0 0 cs (w_w w) (w_chunkNum w) q.
Proof.
  unfold run_close.
  destruct (run_ops_ok _ [] ops (or_introl (NewWriter_idle key))) as (w1 & -> & Hh). simpl.
  by apply Close_ok.
Qed.
End client_facts.

(** C3. Round trip: however a client writes its records (at once, in pieces, with
    flushes in between), closing the writer succeeds and reading the file with
    the same key gives exactly these records, in order, and then [EOF]; the
    reader needs no more loop iterations than the file has bytes. *)
Theorem record_roundtrip `{C : AEAD} `{CL : !AEADLaws C} rtk key logNum ops k fuel :
  aes_key_ok key = true -> (0 < k)%nat ->
  exists w, run_close rtk (NewWriter [] key) ops = Ret (w, None) /\
    ((length (w_w w) + 5 <= fuel)%nat ->
     ReadRecords rtk fuel (NewReader (w_w w) logNum key) k = Some (written_records ops, EOF)).
Proof.
  intros Hkey Hk. destruct (run_close_ok rtk key Hkey ops) as (w & cs & q & Hrun & Hcs & Hs).
  exists w. split; [done|]. intros Hfuel. by eapply ReadRecords_stream.
Qed.

Definition toy_key : bytes := replicate 16 (z2b 7).
Definition toy_ops : list wop :=
  [OpWriteRecord [z2b 1; z2b 2]; OpPieces [[z2b 3]; []; [z2b 4; z2b 5]]; OpFlush; OpWriteRecord []].

Lemma record_roundtrip_witness :
  aes_key_ok toy_key = true /\ (0 < 2)%nat /\
  exists w, run_close [] (NewWriter [] toy_key) toy_ops = Ret (w, None) /\
    ((length (w_w w) + 5 <= 100)%nat ->
     ReadRecords [] 100 (NewReader (w_w w) 3 toy_key) 2 =
       Some ([[z2b 1; z2b 2]; [z2b 3; z2b 4; z2b 5]; []], EOF)).
Proof.
  split; [reflexivity|]. split; [lia|].
  apply (record_roundtrip [] toy_key 3 toy_ops 2 100); [reflexivity|lia].
Defined.

(** C4. Integrity: give the reader any bytes [F] at all.  If each chunk number
    opens, among the chunks of [F], at most the chunk the writer sealed under
    that number, then reading terminates and yields a prefix of the records
    written: no record is altered, reordered, replayed or cut short.  (Only
    whole records at the end of the file can be missing.) *)
Theorem record_integrity `{C : AEAD} `{CL : !AEADLaws C} rtk key logNum F cs ds k fuel :
  aes_key_ok key = true -> (0 < k)%nat -> (Z.of_nat (length F) < 2 ^ 64)%Z ->
  recs_chunks cs ds -> genuine key F cs ->
  (length cs + length (concat ds) + length ds + 5 <= fuel)%nat ->
  exists l e, ReadRecords rtk fuel (NewReader F logNum key) k = Some (l, e) /\
    l `prefix_of` ds.
Proof.
  intros Hkey Hk HF Hrecs Hgen Hfuel.
  eapply ReadRecords_any; [exact Hkey|exact Hgen|exact HF|exact Hrecs|done| |exact Hk|exact Hfuel].
  exists [], 0%nat. split_and!; [done|done|apply NewReader_unread|simpl; lia|lia].
Qed.

(** [genuine] as a computation, for concrete files. *)
Definition genuineb `{C : AEAD} (key F : bytes) (log : list chunk) : bool :=
  let N := seq 0 (S (length F)) in
  forallb (fun n => forallb (fun i => forallb (fun j =>
    if (i + legacyHeaderSize <=? j)%nat then
      match Open key (edgMakeNonce (Z.of_nat n)) (chunk_at F i j), log !! (n - 1)%nat with
      | None, _ => true
      | Some p, Some (t, d) => bool_decide (p = t :: d)
      | Some _, None => false
      end
    else true) N) N) (seq 1 (length F / legacyHeaderSize)).

Lemma genuineb_ok `{C : AEAD} key F log : genuineb key F log = true -> genuine key F log.
Proof.
  unfold genuineb. intros H n i j p Hn HnF Hij Ho. unfold legacyHeaderSize in *.
  rewrite forallb_forall in H.
  assert (n <= length F / 19)%nat by (apply Nat.div_le_lower_bound; lia).
  specialize (H n ltac:(apply in_seq; lia)).
  rewrite forallb_forall in H. specialize (H i ltac:(apply in_seq; lia)).
  rewrite forallb_forall in H. specialize (H j ltac:(apply in_seq; lia)).
  cbv beta in H. rewrite (proj2 (Nat.leb_le _ _)), Ho in H by lia.
  destruct (log !! (n - 1)%nat) as [[t d]|]; [|done].
  apply bool_decide_eq_true in H. eauto.
Qed.

(** Two records were written; the file was cut in the middle of the second one. *)
Definition toy_log : list chunk :=
  [(fullChunkType, [z2b 1]); (fullChunkType, [z2b 2])].
Definition toy_file : bytes :=
  enc_chunk toy_key 1 fullChunkType [z2b 1] ++
  take 18 (enc_chunk toy_key 2 fullChunkType [z2b 2]).

Lemma toy_genuine : genuine toy_key toy_file toy_log.
Proof. apply genuineb_ok. vm_compute. reflexivity. Qed.

Lemma record_integrity_witness :
  genuine toy_key toy_file toy_log /\
  exists l e, ReadRecords [] 20 (NewReader toy_file 0 toy_key) 8 = Some (l, e) /\
    l `prefix_of` [[z2b 1]; [z2b 2]].
Proof.
  split; [exact toy_genuine|].
  apply (record_integrity [] toy_key 0 toy_file toy_log [[z2b 1]; [z2b 2]] 8 20);
    [reflexivity|lia| | |exact toy_genuine|simpl; lia].
  - vm_compute. reflexivity.
  - apply (rcs_cons [(fullChunkType, [z2b 1])]); [apply (rc_last true)|].
    apply (rcs_cons [(fullChunkType, [z2b 2])]); [apply (rc_last true)|constructor].
Defined.

(** Offsets: after any operations, [WriteRecord] succeeds and returns the
    number of bytes the sink then holds, which is the offset just past the end of
    the record, and equals [Size]. *)
Theorem record_offsets `{C : AEAD} `{CL : !AEADLaws C} rtk key ops p :
  aes_key_ok key = true ->
  exists w w', run_ops rtk (NewWriter [] key) ops = Ret (w, None) /\
    WriteRecord rtk w p = Ret (w', Ok (Z.of_nat (length (w_w w')))) /\
    Size w' = Z.of_nat (length (w_w w')).
Proof.
  intros Hkey.
  destruct (run_ops_ok rtk key Hkey _ [] ops (or_introl (NewWriter_idle key))) as (w & Hrun & Hh).
  destruct (WriteRecord_ok rtk key Hkey w _ p Hh) as (w' & Hw' & _ & Hsz).
  exists w, w'. done.
Qed.

Lemma record_offsets_witness :
  exists w w', run_ops [] (NewWriter [] toy_key) toy_ops = Ret (w, None) /\
    WriteRecord [] w [z2b 9] = Ret (w', Ok (Z.of_nat (length (w_w w')))) /\
    Size w' = Z.of_nat (length (w_w w')).
Proof. apply (record_offsets [] toy_key toy_ops [z2b 9]). reflexivity. Defined.

(** Errors stick: once a write to the sink has failed, whatever the sink is,
    every later operation returns that error and neither panics nor writes
    anything more. *)
Theorem record_error_sticky `{C : AEAD} `{EW : EdgWriter W} rtk (w : Writer W) e op :
  w_err w = Some e ->
  exists w', run_op rtk w op = Ret (w', Some e) /\ w_err w' = Some e /\ w_w w' = w_w w /\
    Close rtk w = Ret (w <| w_seq := (w_seq w + 1)%Z |>, Some e).
Proof.
  intros He. unfold Close, writePending. simpl. rewrite He. simpl. rewrite He.
  destruct op as [p|ps|]; simpl.
  - unfold WriteRecord. rewrite He. simpl. eexists. done.
  - unfold Next. simpl. rewrite He. simpl. eexists. split_and!; done.
  - unfold Flush, writePending. simpl. rewrite He. simpl. rewrite He.
    eexists. split_and!; done.
Qed.

(** A sink that takes one block and then fails. *)
Definition full_disk : EdgWriter bytes := {|
  WriteApproved s p := if (length s =? 0)%nat then (s ++ p, None) else (s, Some (New "disk full"));
  Flusher := None;
  SeekCurrent := None;
|}.

Lemma record_error_sticky_witness :
  let w := (NewWriter (EW := full_disk) [z2b 1] toy_key) <| w_err := Some (New "disk full") |> in
  exists w', run_op (EW := full_disk) [] w (OpWriteRecord [z2b 1]) = Ret (w', Some (New "disk full")) /\
    w_err w' = Some (New "disk full") /\ w_w w' = [z2b 1] /\
    Close (EW := full_disk) [] w =
      Ret (w <| w_seq := (w_seq w + 1)%Z |>, Some (New "disk full")).
Proof.
  exact (record_error_sticky (EW := full_disk) []
    ((NewWriter (EW := full_disk) [z2b 1] toy_key) <| w_err := Some (New "disk full") |>)
    (New "disk full") (OpWriteRecord [z2b 1]) eq_refl).
Defined.

(** C5. Termination: whatever bytes a file holds and whatever the key is, the
    reading loop ends, after at most two iterations per byte of the file. *)
Theorem record_terminates `{C : AEAD} rtk key F logNum k fuel :
  (0 < k)%nat -> (2 * length F + 1 <= fuel)%nat ->
  exists l e, ReadRecords rtk fuel (NewReader F logNum key) k = Some (l, e).
Proof. apply ReadRecords_file. Qed.

Lemma record_terminates_witness :
  exists l e, ReadRecords [] 41 (NewReader (replicate 20 (z2b 9)) 0 toy_key) 5 = Some (l, e).
Proof. apply (record_terminates [] toy_key); [lia|simpl; lia]. Defined.
