(* ===== verification/SyncQueue.v ===== *)
(** The queue of sync waiters of the log writer (src/record/log_writer.go,
    [syncQueue]): a single-producer, single-consumer ring of 4096 slots whose
    head and tail are packed in one 64-bit word.  It implements a bounded FIFO
    queue as long as the 32-bit tail does not overflow. *)
From S2P Require Import Prelude.

Local Open Scope Z_scope.

Definition SyncConcurrency : Z := 4096.
Definition dequeueBits : Z := 32.

(** A waiter: the wait group and the error variable of one [SyncRecord] call,
    identified by a number.  A slot is empty ([wg] is nil) or holds a waiter. *)
Definition waiter := nat.

Record syncQueue := mkSyncQueue {
  headTail : Z;
  slots : list (option waiter);
  blocked : bool;
}.
#[export] Instance syncQueue_settable : Settable syncQueue := fun q =>
  mkSyncQueue (headTail q) (slots q) (blocked q).

Definition new_syncQueue : syncQueue :=
  mkSyncQueue 0 (replicate (Z.to_nat SyncConcurrency) None) false.

Definition unpack (ptrs : Z) : Z * Z :=
  let mask := Z.shiftl 1 dequeueBits - 1 in
  (u32 (Z.land (Z.shiftr ptrs dequeueBits) mask), u32 (Z.land ptrs mask)).

Definition slot_index (x : Z) : nat := Z.to_nat (Z.land x (SyncConcurrency - 1)).

Definition push (q : syncQueue) (wg : waiter) : go syncQueue :=
  let '(head, tail) := unpack (headTail q) in
  if Z.land (u32 (tail + SyncConcurrency)) (Z.shiftl 1 dequeueBits - 1) =? head
  then Panic "pebble: queue is full"
  else Ret (q <| slots := <[slot_index head := Some wg]> (slots q) |>
              <| headTail := u64 (headTail q + Z.shiftl 1 dequeueBits) |>).

Definition setBlocked (q : syncQueue) : syncQueue := q <| blocked := true |>.
Definition clearBlocked (q : syncQueue) : syncQueue := q <| blocked := false |>.

Definition load (q : syncQueue) : Z * Z * Z :=
  let '(head, tail) := unpack (headTail q) in
  let realLength := u32 (head - tail) in
  if blocked q then (0, 0, realLength) else (head, tail, realLength).

Definition empty (q : syncQueue) : bool :=
  let '(head, tail, _) := load q in head =? tail.

(** [pop(head, tail, err)]: the queue, the waiters signalled with the error they
    were given, and the error returned.  One iteration per slot; more than
    [SyncConcurrency] iterations meet an empty slot.  (The index that the message
    of the error mentions is left out.) *)
Fixpoint pop_loop (fuel : nat) (q : syncQueue) (head tail : Z) (err : option error)
    (done : list (waiter * option error)) : syncQueue * list (waiter * option error) * option error :=
  match fuel with
  | O => (q, done, None)
  | S fuel =>
      if tail =? head then (q, done, None)
      else
        match default None (slots q !! slot_index tail) with
        | None => (q, done, Some (New "nil waiter"))
        | Some wg =>
            pop_loop fuel
              (q <| slots := <[slot_index tail := None]> (slots q) |>
                 <| headTail := u64 (headTail q + 1) |>)
              head (u32 (tail + 1)) err (done ++ [(wg, err)])
        end
  end.
Definition pop (q : syncQueue) (head tail : Z) (err : option error) :=
  pop_loop (S (Z.to_nat SyncConcurrency)) q head tail err [].

#[global] Arguments pop : simpl never.

(** ** Refinement *)

(** [Rep q t l]: the waiters [l] are queued, the oldest with index [t]. *)
Record Rep (q : syncQueue) (t : Z) (l : list waiter) : Prop := {
  rep_tail : 0 <= t;
  rep_bound : t + Z.of_nat (length l) < 2 ^ 32;
  rep_len : Z.of_nat (length l) <= SyncConcurrency;
  rep_word : headTail q = (t + Z.of_nat (length l)) * 2 ^ 32 + t;
  rep_size : Z.of_nat (length (slots q)) = SyncConcurrency;
  rep_full i x : l !! i = Some x -> slots q !! slot_index (t + Z.of_nat i) = Some (Some x);
  rep_free k : 0 <= k < SyncConcurrency - Z.of_nat (length l) ->
    slots q !! slot_index (t + Z.of_nat (length l) + k) = Some None;
}.

Lemma unpack_word h t :
  0 <= h < 2 ^ 32 -> 0 <= t < 2 ^ 32 -> unpack (h * 2 ^ 32 + t) = (h, t).
Proof.
  intros Hh Ht. unfold unpack, dequeueBits.
  change (Z.shiftl 1 32 - 1) with (2 ^ 32 - 1). rewrite !land_ones_mod by lia.
  rewrite Z.shiftr_div_pow2 by lia.
  rewrite Z.div_add_l, (Z.div_small t), Z.add_0_r by lia.
  rewrite (Z.add_comm (h * 2 ^ 32)), Z.mod_add by lia.
  rewrite !u32_small by (rewrite Z.mod_small; lia).
  by rewrite !Z.mod_small by lia.
Qed.

Lemma slot_index_mod x : slot_index x = Z.to_nat (x mod SyncConcurrency).
Proof.
  unfold slot_index. change (SyncConcurrency - 1) with (2 ^ 12 - 1).
  by rewrite land_ones_mod by lia.
Qed.

Lemma slot_index_lt x : Z.of_nat (slot_index x) < SyncConcurrency.
Proof.
  rewrite slot_index_mod. pose proof (Z.mod_pos_bound x SyncConcurrency ltac:(done)). lia.
Qed.

Lemma slot_index_ne x y :
  x <= y < x + SyncConcurrency -> x <> y -> slot_index x <> slot_index y.
Proof.
  intros Hxy Hne. rewrite !slot_index_mod. unfold SyncConcurrency in *.
  pose proof (Z.mod_pos_bound x 4096). pose proof (Z.mod_pos_bound y 4096).
  pose proof (Z.div_mod x 4096). pose proof (Z.div_mod y 4096).
  intros E. assert (x mod 4096 = y mod 4096) by lia. nia.
Qed.

Lemma Rep_unpack q t l : Rep q t l -> unpack (headTail q) = (t + Z.of_nat (length l), t).
Proof. intros []. rewrite rep_word0. apply unpack_word; lia. Qed.

Lemma clearBlocked_id q : blocked q = false -> clearBlocked q = q.
Proof. destruct q. simpl. by intros ->. Qed.

Lemma blocked_empty q : blocked q = true -> empty q = true.
Proof. intros H. unfold empty, load. rewrite H. by destruct (unpack _). Qed.

Lemma Rep_new : Rep new_syncQueue 0 [].
Proof.
  split; simpl length; try done; try lia.
  intros k Hk. unfold new_syncQueue. cbn [slots].
  rewrite lookup_replicate. split; [done|].
  pose proof (slot_index_lt (0 + Z.of_nat 0 + k)). lia.
Qed.

Lemma push_full q t l wg :
  Rep q t l -> Z.of_nat (length l) = SyncConcurrency ->
  push q wg = Panic "pebble: queue is full".
Proof.
  intros Hr Hfull. unfold push. rewrite (Rep_unpack _ _ _ Hr). destruct Hr.
  unfold dequeueBits. change (Z.shiftl 1 32 - 1) with (2 ^ 32 - 1).
  rewrite land_ones_mod, u32_small, Z.mod_small by (unfold SyncConcurrency in *; lia).
  rewrite (proj2 (Z.eqb_eq _ _)); [done|lia].
Qed.

Lemma push_ret q t l wg :
  Rep q t l -> Z.of_nat (length l) < SyncConcurrency ->
  push q wg = Ret (q <| slots := <[slot_index (t + Z.of_nat (length l)) := Some wg]> (slots q) |>
                     <| headTail := u64 (headTail q + 2 ^ 32) |>).
Proof.
  intros Hr Hlen. unfold push. rewrite (Rep_unpack _ _ _ Hr).
  destruct Hr as [H1 H2 H3 H4 H5 H6 H7].
  unfold dequeueBits. change (Z.shiftl 1 32 - 1) with (2 ^ 32 - 1).
  change (Z.shiftl 1 32) with (2 ^ 32). rewrite land_ones_mod by lia.
  destruct (Z.eqb_spec (u32 (t + SyncConcurrency) mod 2 ^ 32) (t + Z.of_nat (length l))) as [E|E];
    [|done].
  exfalso. unfold u32 in E. rewrite Z.mod_mod in E by lia. unfold SyncConcurrency in *.
  destruct (Z.lt_ge_cases (t + 4096) (2 ^ 32)).
  - rewrite Z.mod_small in E by lia. lia.
  - assert (t + 4096 = (t + 4096 - 2 ^ 32) + 1 * 2 ^ 32) as E' by lia.
    rewrite E', Z.mod_add, Z.mod_small in E by lia. lia.
Qed.

Lemma push_ok q t l wg :
  Rep q t l -> Z.of_nat (length l) < SyncConcurrency ->
  t + Z.of_nat (length l) + 1 < 2 ^ 32 ->
  exists q', push q wg = Ret q' /\ Rep q' t (l ++ [wg]) /\ blocked q' = blocked q.
Proof.
  intros Hr Hlen Hb. rewrite (push_ret _ _ _ _ Hr Hlen).
  destruct Hr as [H1 H2 H3 H4 H5 H6 H7].
  witness_ret. split; [|done]. split; simpl.
  - done.
  - len.
  - len.
  - rewrite H4, u64_small by lia. len.
  - len.
  - intros i x Hi. destruct (decide (i < length l)%nat).
    + rewrite lookup_app_l in Hi by lia.
      rewrite list_lookup_insert_ne; [by apply H6|].
      apply not_eq_sym, slot_index_ne; lia.
    + rewrite lookup_app_r in Hi by lia.
      apply list_lookup_singleton_Some in Hi as [Hi <-].
      replace i with (length l) by lia. apply list_lookup_insert_eq.
      pose proof (slot_index_lt (t + Z.of_nat (length l))). lia.
  - intros k Hk. rewrite length_app in *. simpl in *.
    rewrite list_lookup_insert_ne.
    + replace (t + Z.of_nat (length l + 1) + k) with (t + Z.of_nat (length l) + (k + 1)) by lia.
      apply H7. lia.
    + apply slot_index_ne; lia.
Qed.

(** One iteration of [pop]. *)
Lemma pop_one q t wg l :
  Rep q t (wg :: l) ->
  slots q !! slot_index t = Some (Some wg) /\
  Rep (q <| slots := <[slot_index t := None]> (slots q) |>
         <| headTail := u64 (headTail q + 1) |>) (t + 1) l.
Proof.
  intros [H1 H2 H3 H4 H5 H6 H7]. simpl length in *. split.
  - pose proof (H6 0%nat wg eq_refl) as H. simpl in H. by rewrite Z.add_0_r in H.
  - split; simpl; try lia.
    + rewrite H4, u64_small by lia. lia.
    + len.
    + intros i x Hi. rewrite list_lookup_insert_ne.
      * replace (t + 1 + Z.of_nat i) with (t + Z.of_nat (S i)) by lia. by apply H6.
      * apply lookup_lt_Some in Hi. apply slot_index_ne; lia.
    + intros k Hk. destruct (decide (k = SyncConcurrency - Z.of_nat (length l) - 1)) as [->|Hne].
      * replace (slot_index (t + 1 + _ + _)) with (slot_index t).
        -- apply list_lookup_insert_eq. pose proof (slot_index_lt t). lia.
        -- rewrite !slot_index_mod. f_equal.
           replace (t + 1 + Z.of_nat (length l) + (SyncConcurrency - Z.of_nat (length l) - 1))
             with (t + 1 * SyncConcurrency) by lia.
           by rewrite Z.mod_add.
      * rewrite list_lookup_insert_ne.
        -- replace (t + 1 + Z.of_nat (length l) + k) with (t + Z.of_nat (S (length l)) + k) by lia.
           apply H7. lia.
        -- apply slot_index_ne; lia.
Qed.

Lemma pop_loop_ok fuel q t l l' err done :
  Rep q t (l ++ l') -> (length l < fuel)%nat ->
  exists q', pop_loop fuel q (t + Z.of_nat (length l)) t err done =
      (q', done ++ ((fun wg => (wg, err)) <$> l), None) /\
    Rep q' (t + Z.of_nat (length l)) l' /\ blocked q' = blocked q.
Proof.
  revert q t l done. induction fuel as [|fuel IH]; intros q t l done Hr Hf; [lia|].
  destruct l as [|wg l]; cbn [pop_loop].
  - simpl. rewrite Z.add_0_r, Z.eqb_refl, app_nil_r. eauto.
  - replace (t + Z.of_nat (length (wg :: l))) with (t + 1 + Z.of_nat (length l)) by (simpl; lia).
    destruct (Z.eqb_spec t (t + 1 + Z.of_nat (length l))) as [E|_]; [lia|].
    destruct (pop_one _ _ _ _ Hr) as [Hs Hr'].
    rewrite Hs. cbn [default from_option id]. rewrite u32_small by (destruct Hr'; lia).
    destruct (IH _ _ l (done ++ [(wg, err)]) Hr') as (q' & Hp & Hr2 & Hb); [simpl in Hf; lia|].
    rewrite Hp. exists q'. split_and!; [|done|done]. by rewrite <- app_assoc.
Qed.

Lemma pop_same q x err : pop q x x err = (q, [], None).
Proof.
  unfold pop. generalize (Z.to_nat SyncConcurrency). intros n. simpl. by rewrite Z.eqb_refl.
Qed.

(** [pop] with a head and a tail that [load] returned earlier signals exactly the
    waiters that were queued then, in order; those pushed since stay queued. *)
Lemma pop_ok q t l l' err :
  Rep q t (l ++ l') ->
  exists q', pop q (t + Z.of_nat (length l)) t err = (q', (fun wg => (wg, err)) <$> l, None) /\
    Rep q' (t + Z.of_nat (length l)) l' /\ blocked q' = blocked q.
Proof.
  intros Hr. unfold pop. apply (pop_loop_ok _ q t l l' err []); [done|].
  destruct Hr. rewrite length_app in *. lia.
Qed.

(** ** The queue against its specification *)

(** A use of the queue: a client pushes a waiter, or the flusher loads the waiters
    and releases them with an error or nil. *)
Inductive qop := QPush (wg : waiter) | QPop (err : option error).

Fixpoint q_run (ops : list qop) (q : syncQueue) (rel : list (waiter * option error)) :
    go (syncQueue * list (waiter * option error) * option error) :=
  match ops with
  | [] => Ret (q, rel, None)
  | QPush wg :: ops => match push q wg with Ret q => q_run ops q rel | Panic m => Panic m end
  | QPop err :: ops =>
      let '(head, tail, _) := load q in
      match pop q head tail err with
      | (q, rel', None) => q_run ops q (rel ++ rel')
      | (q, rel', e) => Ret (q, rel ++ rel', e)
      end
  end.

(** The specification: a FIFO queue of at most [SyncConcurrency] waiters. *)
Fixpoint fifo_run (ops : list qop) (l : list waiter) (rel : list (waiter * option error)) :
    go (list waiter * list (waiter * option error)) :=
  match ops with
  | [] => Ret (l, rel)
  | QPush wg :: ops =>
      if Z.of_nat (length l) =? SyncConcurrency then Panic "pebble: queue is full"
      else fifo_run ops (l ++ [wg]) rel
  | QPop err :: ops => fifo_run ops [] (rel ++ ((fun wg => (wg, err)) <$> l))
  end.

Definition is_push (op : qop) : bool := match op with QPush _ => true | QPop _ => false end.

Lemma q_run_fifo ops q t l rel :
  Rep q t l -> blocked q = false ->
  t + Z.of_nat (length l) + Z.of_nat (length (List.filter is_push ops)) < 2 ^ 32 ->
  match fifo_run ops l rel with
  | Panic m => q_run ops q rel = Panic m
  | Ret (l', rel') => exists q' t', q_run ops q rel = Ret (q', rel', None) /\ Rep q' t' l'
  end.
Proof.
  revert q t l rel. induction ops as [|[wg|err] ops IH]; intros q t l rel Hr Hb Hn; simpl in *.
  - by exists q, t.
  - destruct (Z.eqb_spec (Z.of_nat (length l)) SyncConcurrency) as [E|E].
    + by rewrite (push_full q t l wg).
    + destruct (push_ok q t l wg Hr) as (q' & -> & Hr' & Hb'); [destruct Hr; lia|lia|].
      apply (IH q' t); [done|congruence|]. rewrite length_app. simpl. lia.
  - unfold load. rewrite (Rep_unpack _ _ _ Hr), Hb.
    destruct (pop_ok q t l [] err) as (q' & -> & Hr' & Hb'); [by rewrite app_nil_r|].
    apply (IH q' (t + Z.of_nat (length l))); [done|congruence|]. simpl. lia.
Qed.

(** C10. The ring of waiters is a bounded FIFO queue: over any sequence of fewer
    than 2^32 pushes and any number of releases, each release signals exactly the
    waiters queued since the last one, in order, no release meets an empty slot,
    and a push panics exactly when 4096 waiters are queued. *)
Theorem sync_queue_fifo ops :
  Z.of_nat (length (List.filter is_push ops)) < 2 ^ 32 ->
  match fifo_run ops [] [] with
  | Panic m => q_run ops new_syncQueue [] = Panic m
  | Ret (l, rel) => exists q t, q_run ops new_syncQueue [] = Ret (q, rel, None) /\ Rep q t l
  end.
Proof. intros Hn. apply (q_run_fifo ops _ 0 []); [apply Rep_new|done|simpl; lia]. Qed.

Lemma sync_queue_fifo_witness :
  exists q t, q_run [QPush 5; QPush 6; QPop None; QPush 7]%nat new_syncQueue [] =
    Ret (q, [(5%nat, None); (6%nat, None)], None) /\ Rep q t [7%nat].
Proof. apply (sync_queue_fifo [QPush 5; QPush 6; QPop None; QPush 7]%nat). simpl. lia. Defined.

(** The bound is needed: the tail is advanced by adding one to the 64-bit
    word, so that its 32-bit overflow carries into the head.  After 2^32 - 1
    waiters have come and gone, the next one is released but leaves the queue
    with a waiter that does not exist, and the release after that fails. *)
Theorem sync_queue_tail_overflow q wg :
  Rep q (2 ^ 32 - 1) [] -> blocked q = false ->
  exists q1 q2 q3,
    push q wg = Ret q1 /\
    pop q1 (load q1).1.1 (load q1).1.2 None = (q2, [(wg, None)], None) /\
    (load q2).1.1 <> (load q2).1.2 /\
    pop q2 (load q2).1.1 (load q2).1.2 None = (q3, [], Some (New "nil waiter")).
Proof.
  intros Hr Hb. rewrite (push_ret q _ _ wg Hr) by done.
  destruct Hr as [_ _ _ Hw Hsz _ Hfree]. destruct q as [ht sl bl]. simpl in *. subst bl ht.
  assert (sl !! 0%nat = Some None) as H0.
  { pose proof (Hfree 1 ltac:(done)) as H. by change (slot_index _) with 0%nat in H. }
  assert (4095 < length sl)%nat as Hlen by (unfold SyncConcurrency in *; lia).
  change (slot_index (2 ^ 32 - 1 + 0)) with 4095%nat.
  set (sl1 := <[4095%nat := Some wg]> sl).
  set (sl2 := <[4095%nat := None]> sl1).
  assert (sl1 !! 4095%nat = Some (Some wg)) as H1 by (by apply list_lookup_insert_eq).
  assert (sl2 !! 0%nat = Some None) as H2.
  { unfold sl2, sl1. by rewrite !list_lookup_insert_ne. }
  exists (mkSyncQueue (2 ^ 32 - 1) sl1 false), (mkSyncQueue (2 ^ 32) sl2 false),
    (mkSyncQueue (2 ^ 32) sl2 false).
  change (load (mkSyncQueue (2 ^ 32 - 1) sl1 false)) with (0, 2 ^ 32 - 1, 1).
  change (load (mkSyncQueue (2 ^ 32) sl2 false)) with (1, 0, 1). cbn [fst snd].
  unfold pop. split_and!; [done| |done|].
  - generalize (Z.to_nat SyncConcurrency) as fuel. intros fuel.
    cbn [pop_loop].
    change (2 ^ 32 - 1 =? 0) with false. cbv iota. cbn [slots].
    change (slot_index (2 ^ 32 - 1)) with 4095%nat. rewrite H1. cbn [default from_option id].
    change (u32 (2 ^ 32 - 1 + 1)) with 0. by destruct fuel.
  - generalize (Z.to_nat SyncConcurrency) as fuel. intros fuel. cbn [pop_loop].
    change (0 =? 1) with false. cbv iota. cbn [slots].
    change (slot_index 0) with 0%nat. by rewrite H2.
Qed.

Lemma sync_queue_tail_overflow_witness :
  let q := mkSyncQueue ((2 ^ 32 - 1) * 2 ^ 32 + (2 ^ 32 - 1)) (replicate 4096 None) false in
  exists q1 q2, push q 3%nat = Ret q1 /\
    pop q1 (load q1).1.1 (load q1).1.2 None = (q2, [(3%nat, None)], None) /\
    (load q2).1.1 <> (load q2).1.2.
Proof.
  intros q. destruct (sync_queue_tail_overflow q 3%nat) as (q1 & q2 & q3 & H1 & H2 & H3 & _).
  - split; [lia|simpl; lia|done|done|unfold q; cbn [slots]; by rewrite length_replicate|done|].
    intros k Hk. unfold q. cbn [slots]. rewrite lookup_replicate. split; [done|].
    pose proof (slot_index_lt (2 ^ 32 - 1 + Z.of_nat (length ([] : list waiter)) + k)) as H.
    unfold SyncConcurrency in H. lia.
  - done.
  - exists q1, q2. done.
Defined.
