(* ===== verification/LogWriter.v ===== *)
(** The write-ahead log's writer (src/record/log_writer.go): [LogWriter] with its
    two threads.  The client ([SyncRecord], [Close]) copies records into blocks;
    the flusher ([flushLoop]) writes the blocks to the file, syncs it and releases
    the clients that wait for their record.  Each thread is a program counter and
    an executable step function; an execution is any interleaving of their steps
    and those of the min-sync-interval timer. *)
From S2P Require Import Prelude.
From S2P Require Import Crypto.
From S2P Require Import Record.
From S2P Require Import SyncQueue.

Definition errClosedWriter : error := New "pebble/record: closed LogWriter".

Record block := mkBlock {
  b_written : nat;
  b_flushed : nat;
  b_buf : bytes;
}.
#[export] Instance block_settable : Settable block := fun b =>
  mkBlock (b_written b) (b_flushed b) (b_buf b).

(** The optional interfaces [NewLogWriter] looks for in the file: a syncer and an
    [io.Closer]. *)
Class LogSink (W : Type) := {
  Sync : option (W -> W * option error);
  CloseFile : option (W -> W * option error);
}.

Record LogWriter (W : Type) := mkLogWriter {
  lw_w : W;
  lw_blockNum : Z;
  lw_err : option error;
  lw_block : block;
  lw_free : list block;
  lw_close : bool;                (* flusher.close *)
  lw_ferr : option error;         (* flusher.err *)
  lw_pending : list block;        (* flusher.pending *)
  lw_syncQ : syncQueue;           (* flusher.syncQ *)
  lw_EncryptionKey : bytes;
  lw_chunkNum : Z;
}.
Arguments mkLogWriter {W}.
Arguments lw_w {W}. Arguments lw_blockNum {W}. Arguments lw_err {W}.
Arguments lw_block {W}. Arguments lw_free {W}. Arguments lw_close {W}.
Arguments lw_ferr {W}. Arguments lw_pending {W}. Arguments lw_syncQ {W}.
Arguments lw_EncryptionKey {W}. Arguments lw_chunkNum {W}.
#[export] Instance logwriter_settable W : Settable (LogWriter W) := fun w =>
  mkLogWriter (lw_w w) (lw_blockNum w) (lw_err w) (lw_block w) (lw_free w)
    (lw_close w) (lw_ferr w) (lw_pending w) (lw_syncQ w) (lw_EncryptionKey w)
    (lw_chunkNum w).

(** Program counter of the flusher; see [flusher_step]. *)
Inductive fphase :=
| FCheck                                  (* looking for work, lock held *)
| FAdd                                    (* no work: about to enter the wait list *)
| FUnlock                                 (* in the wait list, lock held *)
| FUnlocked                               (* lock released, queue not checked again *)
| FBlocked                                (* waiting for a signal *)
| FGrabbed (pending : list block)
| FLoaded (pending : list block) (head tail : Z)
| FFlush (data : bytes) (pending : list block) (head tail : Z)
| FFlushed (synced : bool) (err : option error)
| FDone.

(** Program counter of the client; see [client_step].  [rec] is the whole record
    and [p] what is left of it; [sync] tells if a wait group was passed. *)
Inductive cphase :=
| CIdle
| CEmit (n : nat) (p rec : bytes) (sync : bool)
| CQueue (n : nat) (p rec : bytes) (sync : bool)
| CPush
| CSignal
| CClose
| CCloseWait
| CClosed (err : option error)
| CPanic (msg : string).

(** The fields [g_*] are history: the bytes of the log so far, the records
    written, and for the [i]-th waiter how many records and which bytes had been
    written when it was queued.  [sem] counts the elements of [queueSemChan]. *)
Record state (W : Type) := mkState {
  lw : LogWriter W;
  fp : fphase;
  cp : cphase;
  notified : bool;
  armed : bool;                   (* syncTimer is running *)
  firing : bool;                  (* its function is about to signal *)
  sem : Z;
  done : list (waiter * option error);
  g_stream : bytes;
  g_recs : list bytes;
  g_wait : list (nat * bytes);
}.
Arguments mkState {W}.
Arguments lw {W}. Arguments fp {W}. Arguments cp {W}. Arguments notified {W}.
Arguments armed {W}. Arguments firing {W}. Arguments sem {W}. Arguments done {W}.
Arguments g_stream {W}. Arguments g_recs {W}. Arguments g_wait {W}.
#[export] Instance state_settable W : Settable (state W) := fun s =>
  mkState (lw s) (fp s) (cp s) (notified s) (armed s) (firing s) (sem s) (done s)
    (g_stream s) (g_recs s) (g_wait s).

Section model.
Context `{C : AEAD} `{EW : EdgWriter W} `{LS : !LogSink W} (randomTestKey : bytes).
Implicit Types w : LogWriter W.
Implicit Types s : state W.

(** A block of [blockPool]: it is empty, its contents are whatever is left there. *)
Definition pool_block (pool : bytes) : block := mkBlock 0 0 pool.

(** The caller sets [EncryptionKey] right after [NewLogWriter]. *)
Definition NewLogWriter (sink : W) (key pool : bytes) : LogWriter W :=
  mkLogWriter sink 0 None (pool_block pool) [] false None [] new_syncQueue key 0.

(** ** The client *)

(** [emitFragment] up to [b.written.Store(j)]; returns the rest of the record. *)
Definition fillFragment w (n : nat) (p : bytes) : go (LogWriter W * bytes) :=
  let b := lw_block w in
  let i := b_written b in
  if (blockSize <? i + legacyHeaderSize)%nat then Panic "slice bounds out of range" else
  let first := (n =? 0)%nat in
  let last := (i32 (Z.of_nat (length p)) <=?
               Z.of_nat blockSize - Z.of_nat i - Z.of_nat legacyHeaderSize)%Z in
  let typ := if last then if first then fullChunkType else lastChunkType
             else if first then firstChunkType else middleChunkType in
  let buf := <[(i + 18)%nat := typ]> (b_buf b) in
  let r := Nat.min (blockSize - (i + legacyHeaderSize)) (length p) in
  let buf := copy_at buf (i + legacyHeaderSize) p in
  let j := (i + (legacyHeaderSize + r))%nat in
  let buf := copy_at buf (i + 16) (PutUint16 (Z.of_nat r)) in
  match GetCipher randomTestKey (lw_EncryptionKey w) with
  | Err e => Panic (error_msg e)
  | Ok aead =>
      let chunkNum := u64 (lw_chunkNum w + 1) in
      let ciphertext := Seal aead (edgMakeNonce chunkNum) (slice buf (i + 18) j) in
      let m := (length ciphertext - 16)%nat in
      let buf := copy_at buf i (drop m ciphertext) in
      let buf := copy_at buf (i + 18) (take m ciphertext) in
      Ret (w <| lw_chunkNum := chunkNum |> <| lw_block := mkBlock j (b_flushed b) buf |>,
           drop r p)
  end.

(** The rest of [emitFragment]: a block without room for another fragment is
    filled with zeros and queued. *)
Definition noRoom w : bool := (blockSize - b_written (lw_block w) <? legacyHeaderSize)%nat.

Definition zeroFill w : LogWriter W :=
  let b := lw_block w in
  w <| lw_block := b <| b_buf := take (b_written b) (b_buf b) ++
                                 replicate (blockSize - b_written b) (z2b 0) |> |>.

(** The free list, refilled from the pool when it is empty. *)
Definition refill (pool : bytes) (free : list block) : list block :=
  match free with [] => [pool_block pool] | _ => free end.

(** [queueBlock]; the critical section is one step. *)
Definition queueBlock (pool : bytes) w : LogWriter W :=
  let free := refill pool (lw_free w) in
  let nextBlock := List.last free (pool_block pool) in
  w <| lw_free := removelast free |>
    <| lw_pending := lw_pending w ++ [lw_block w] |>
    <| lw_block := nextBlock |>
    <| lw_err := lw_ferr w |>
    <| lw_blockNum := (lw_blockNum w + 1)%Z |>.

Definition LogSize w : Z :=
  (lw_blockNum w * Z.of_nat blockSize + Z.of_nat (b_written (lw_block w)))%Z.

(** [flusher.Mutex] is held by the flusher at these points. *)
Definition locked (f : fphase) : bool :=
  match f with
  | FCheck | FAdd | FUnlock | FGrabbed _ | FLoaded _ _ _ => true
  | _ => false
  end.

(** The flusher is in the wait list of [flusher.ready]. *)
Definition waiting (f : fphase) : bool :=
  match f with FUnlock | FUnlocked | FBlocked => true | _ => false end.

Definition Signal s : state W := s <| notified := notified s || waiting (fp s) |>.

(** The loop condition of [SyncRecord] after a fragment. *)
Definition nextFragment (n : nat) (p rec : bytes) (sync : bool) s : state W :=
  if decide (p = []) then
    s <| g_recs := g_recs s ++ [rec] |> <| cp := if sync then CPush else CIdle |>
  else s <| cp := CEmit n p rec sync |>.

(** The end of [Close], after the flush loop has closed. *)
Definition finishClose w : LogWriter W * option error :=
  let '(sink, err) := match lw_ferr w, Sync with
                      | None, Some sync => sync (lw_w w)
                      | e, _ => (lw_w w, e)
                      end in
  match CloseFile with
  | Some close =>
      match close sink with
      | (sink, Some cerr) => (w <| lw_w := sink |>, Some cerr)
      | (sink, None) => (w <| lw_w := sink |> <| lw_err := Some errClosedWriter |>, err)
      end
  | None => (w <| lw_w := sink |> <| lw_err := Some errClosedWriter |>, err)
  end.

Definition client_step (pool : bytes) s : option (state W) :=
  match cp s with
  | CIdle | CClosed _ | CPanic _ => None
  | CEmit n p rec sync =>
      match fillFragment (lw s) n p with
      | Panic m => Some (s <| cp := CPanic m |>)
      | Ret (w, rest) =>
          let i := b_written (lw_block (lw s)) in
          let s := s <| lw := w |>
                     <| g_stream := g_stream s ++ slice (b_buf (lw_block w)) i
                                      (b_written (lw_block w)) |> in
          Some (if noRoom w
                then s <| lw := zeroFill w |> <| cp := CQueue (S n) rest rec sync |>
                else nextFragment (S n) rest rec sync s)
      end
  | CQueue n rest rec sync =>
      if locked (fp s) then None else
      let b := lw_block (lw s) in
      Some (nextFragment n rest rec sync
              (Signal (s <| lw := queueBlock pool (lw s) |>
                         <| g_stream := g_stream s ++ slice (b_buf b) (b_written b) blockSize |>)))
  | CPush =>
      match push (lw_syncQ (lw s)) (length (g_wait s)) with
      | Panic m => Some (s <| cp := CPanic m |>)
      | Ret q => Some (s <| lw := (lw s) <| lw_syncQ := q |> |>
                         <| g_wait := g_wait s ++ [(length (g_recs s), g_stream s)] |>
                         <| cp := CSignal |>)
      end
  | CSignal => Some (Signal (s <| cp := CIdle |>))
  | CClose =>
      if locked (fp s) then None else
      Some (Signal (s <| lw := (lw s) <| lw_close := true |> |> <| cp := CCloseWait |>))
  | CCloseWait =>
      match fp s with
      | FDone => let '(w, err) := finishClose (lw s) in
                 Some (s <| lw := w |> <| cp := CClosed err |>)
      | _ => None
      end
  end.

(** ** The flusher *)
Definition flushBlock w (b : block) : LogWriter W * option error :=
  match WriteApproved (lw_w w) (drop (b_flushed b) (b_buf b)) with
  | (sink, Some e) => (w <| lw_w := sink |>, Some e)
  | (sink, None) =>
      (w <| lw_w := sink |> <| lw_free := lw_free w ++ [mkBlock 0 0 (b_buf b)] |>, None)
  end.

Fixpoint flushBlocks w (pending : list block) : LogWriter W * option error :=
  match pending with
  | [] => (w, None)
  | b :: pending =>
      match flushBlock w b with
      | (w, Some e) => (w, Some e)
      | (w, None) => flushBlocks w pending
      end
  end.

(** [flushPending]: the writer, the waiters released, [synced] and [err]. *)
Definition flushPending w (data : bytes) (pending : list block) (head tail : Z) :
    LogWriter W * list (waiter * option error) * bool * option error :=
  let '(w, err) := flushBlocks w pending in
  let '(w, err) :=
    match err with
    | None => if (0 <? length data)%nat then
                let '(sink, err) := WriteApproved (lw_w w) data in (w <| lw_w := sink |>, err)
              else (w, None)
    | Some _ => (w, err)
    end in
  if (head =? tail)%Z then (w, [], false, err)
  else
    let '(w, err) :=
      match err, Sync with
      | None, Some sync => let '(sink, err) := sync (lw_w w) in (w <| lw_w := sink |>, err)
      | _, _ => (w, err)
      end in
    let '(q, rel, popErr) := pop (lw_syncQ w) head tail err in
    (w <| lw_syncQ := q |>, rel, true, match popErr with Some _ => popErr | None => err end).

(** One step of [flushLoop].  [throttle]: [minSyncInterval()] is positive. *)
Definition flusher_step (throttle : bool) s : option (state W) :=
  let w := lw s in
  let grab s := s <| fp := FGrabbed (lw_pending (lw s)) |>
                  <| lw := (lw s) <| lw_pending := [] |> |> in
  match fp s with
  | FCheck =>
      let b := lw_block w in
      if bool_decide (lw_pending w <> []) || (b_flushed b <? b_written b)%nat
         || negb (empty (lw_syncQ w))
      then Some (grab s)
      else if lw_close w then
        let s := s <| lw := w <| lw_syncQ := clearBlocked (lw_syncQ w) |> |> in
        if negb (empty (lw_syncQ (lw s))) then Some (grab s)
        else Some (s <| fp := FDone |> <| armed := false |>)
      else Some (s <| fp := FAdd |>)
  | FAdd => Some (s <| fp := FUnlock |> <| notified := false |>)
  | FUnlock => Some (s <| fp := FUnlocked |>)
  | FUnlocked =>
      let s := if negb (empty (lw_syncQ w)) then Signal s else s in
      Some (s <| fp := FBlocked |>)
  | FBlocked => if notified s then Some (s <| fp := FCheck |>) else None
  | FGrabbed pending =>
      let '(head, tail, _) := load (lw_syncQ w) in
      Some (s <| fp := FLoaded pending head tail |>)
  | FLoaded pending head tail =>
      let b := lw_block w in
      let data := slice (b_buf b) (b_flushed b) (b_written b) in
      let w := w <| lw_block := b <| b_flushed := b_written b |> |> in
      match lw_ferr w with
      | Some _ =>
          let '(q, rel, _) := pop (lw_syncQ w) head tail (lw_ferr w) in
          Some (s <| lw := w <| lw_syncQ := q |> |> <| fp := FCheck |>
                  <| done := done s ++ rel |> <| sem := (sem s - Z.of_nat (length rel))%Z |>)
      | None => Some (s <| lw := w |> <| fp := FFlush data pending head tail |>)
      end
  | FFlush data pending head tail =>
      let '(w, rel, synced, err) := flushPending w data pending head tail in
      Some (s <| lw := w |> <| fp := FFlushed synced err |>
              <| done := done s ++ rel |> <| sem := (sem s - Z.of_nat (length rel))%Z |>)
  | FFlushed synced err =>
      let w := w <| lw_ferr := err |> in
      match err with
      | Some _ => Some (s <| lw := w <| lw_syncQ := clearBlocked (lw_syncQ w) |> |>
                          <| fp := FCheck |>)
      | None =>
          if synced && throttle then
            Some (s <| lw := w <| lw_syncQ := setBlocked (lw_syncQ w) |> |>
                    <| armed := true |> <| fp := FCheck |>)
          else Some (s <| lw := w |> <| fp := FCheck |>)
      end
  | FDone => None
  end.

(** ** Executions *)

(** Starting [SyncRecord] with a wait group takes an element of the semaphore
    (src/commit.go: [logSyncQSem]), which has room for [SyncConcurrency - 1]. *)
Definition start_sync_record (p : bytes) (sync : bool) s : option (state W) :=
  match cp s, lw_err (lw s) with
  | CIdle, None =>
      if sync then
        if (sem s <? SyncConcurrency - 1)%Z
        then Some (s <| sem := (sem s + 1)%Z |> <| cp := CEmit 0 p p true |>)
        else None
      else Some (s <| cp := CEmit 0 p p false |>)
  | _, _ => None
  end.

Definition start_close s : option (state W) :=
  match cp s with CIdle => Some (s <| cp := CClose |>) | _ => None end.

(** The function of the timer clears [blocked], then signals. *)
Definition timer_fire s : option (state W) :=
  if armed s then
    Some (s <| lw := (lw s) <| lw_syncQ := clearBlocked (lw_syncQ (lw s)) |> |>
            <| armed := false |> <| firing := true |>)
  else None.

Definition timer_signal s : option (state W) :=
  if firing s then Some (Signal (s <| firing := false |>)) else None.

Inductive event :=
| ESyncRecord (p : bytes) (sync : bool)
| EClose
| EClient (pool : bytes)
| EFlusher (throttle : bool)
| ETimerFire
| ETimerSignal.

Definition do_event (e : event) s : option (state W) :=
  match e with
  | ESyncRecord p sync => start_sync_record p sync s
  | EClose => start_close s
  | EClient pool => client_step pool s
  | EFlusher throttle => flusher_step throttle s
  | ETimerFire => timer_fire s
  | ETimerSignal => timer_signal s
  end.

Fixpoint run (es : list event) s : option (state W) :=
  match es with
  | [] => Some s
  | e :: es => match do_event e s with Some s => run es s | None => None end
  end.

(** The state after [NewLogWriter] started the flush loop. *)
Definition init (sink : W) (key pool : bytes) : state W :=
  mkState (NewLogWriter sink key pool) FCheck CIdle false false false 0 [] [] [] [].
End model.
