(* ===== verification/LogWriterFacts.v ===== *)
(** Invariants of the log writer's executions ([LogWriter]). *)
From S2P Require Import Prelude.
From S2P Require Import Crypto.
From S2P Require Import Record.
From S2P Require Import RecordFormat.
From S2P Require Import RecordWriter.
From S2P Require Import SyncQueue.
From S2P Require Import LogWriter.

(** What is relied on of a file: a write appends its bytes, or some of them when
    it fails; a sync makes durable what was written. *)
Class LogSinkLaws (W : Type) `{EW : EdgWriter W} `{LS : !LogSink W} := {
  contents : W -> bytes;
  durable : W -> bytes;
  durable_contents f : durable f `prefix_of` contents f;
  write_ok f p f' : WriteApproved f p = (f', None) -> contents f' = contents f ++ p;
  write_err f p f' e : WriteApproved f p = (f', Some e) ->
    exists n, contents f' = contents f ++ take n p;
  write_durable f p f' e : WriteApproved f p = (f', e) -> durable f `prefix_of` durable f';
  sync : W -> W * option error;
  sync_some : Sync = Some sync;
  sync_ok f f' : sync f = (f', None) -> durable f' = contents f';
  sync_contents f f' e : sync f = (f', e) -> contents f' = contents f;
  sync_durable f f' e : sync f = (f', e) -> durable f `prefix_of` durable f';
  close_same close f f' e : CloseFile = Some close -> close f = (f', e) ->
    contents f' = contents f /\ durable f' = durable f;
}.

#[local] Arguments fillFragment : simpl never.
#[local] Arguments nextFragment : simpl never.
#[local] Arguments noRoom : simpl never.
#[local] Arguments flushPending : simpl never.
#[local] Arguments load : simpl never.
#[local] Arguments empty : simpl never.
#[local] Arguments enc_chunk : simpl never.

(** Computes record updates and projections of explicit states. *)
Ltac states :=
  cbv beta iota zeta delta [set lw fp cp notified armed firing sem done g_stream g_recs
    g_wait lw_w lw_blockNum lw_err lw_block lw_free lw_close lw_ferr lw_pending lw_syncQ
    lw_EncryptionKey lw_chunkNum b_written b_flushed b_buf] in *.

Section facts.
Context `{C : AEAD} `{CL : !AEADLaws C} `{EW : EdgWriter W} `{LS : !LogSink W}.
Context `{SL : !LogSinkLaws W} (rtk key : bytes) (Hkey : aes_key_ok key = true).
Implicit Types w : LogWriter W.
Implicit Types s : state W.

(** ** What the client has written *)
Definition block_ok (b : block) : Prop :=
  length (b_buf b) = blockSize /\ (b_flushed b <= b_written b <= blockSize)%nat.

Definition is_last (i : nat) (p : bytes) : bool :=
  (i32 (Z.of_nat (length p)) <=?
   Z.of_nat blockSize - Z.of_nat i - Z.of_nat legacyHeaderSize)%Z.

(** [emitFragment] seals as much of the record as fits into the block. *)
Lemma fillFragment_spec w n p :
  let b := lw_block w in let i := b_written b in
  let d := take (blockSize - (i + legacyHeaderSize)) p in
  lw_EncryptionKey w = key -> block_ok b -> (i + legacyHeaderSize <= blockSize)%nat ->
  exists rest,
    fillFragment rtk w n p =
      Ret (w <| lw_chunkNum := u64 (lw_chunkNum w + 1) |>
             <| lw_block := mkBlock (i + legacyHeaderSize + length d) (b_flushed b)
                  (take i (b_buf b) ++
                   enc_chunk key (u64 (lw_chunkNum w + 1))
                     (chunk_type (n =? 0)%nat (is_last i p)) d ++ rest) |>,
           drop (length d) p) /\
    (i + legacyHeaderSize + length d + length rest = blockSize)%nat.
Proof.
  intros b i d Hk [Hl Hb] Hroom. unfold fillFragment. fold b. fold i.
  destruct (Nat.ltb_spec blockSize (i + legacyHeaderSize)); [lia|].
  rewrite Hk, GetCipher_ok by done. fold (is_last i p).
  assert (length d = Nat.min (blockSize - (i + legacyHeaderSize)) (length p)) as Hd
    by (unfold d; len).
  rewrite <- Hd. set (typ := chunk_type _ _).
  change (if is_last i p then _ else _) with typ.
  exists (drop (i + legacyHeaderSize + length d) (b_buf b)).
  split; [|rewrite length_drop; lia].
  pose proof (seal_in_place_spec key (take i (b_buf b))
    (slice (b_buf b) i (i + legacyHeaderSize)) d
    (drop (i + legacyHeaderSize + length d) (b_buf b)) (u64 (lw_chunkNum w + 1)) typ) as Hs.
  rewrite length_take, length_slice in Hs.
  replace (Nat.min i (length (b_buf b))) with i in Hs by lia.
  rewrite <- Hs by lia. unfold seal_in_place.
  replace (i + legacyHeaderSize + length d - i - legacyHeaderSize)%nat with (length d) by lia.
  replace (i + (legacyHeaderSize + length d))%nat with (i + legacyHeaderSize + length d)%nat by lia.
  replace (copy_at (<[(i + 18)%nat:=typ]> (b_buf b)) (i + legacyHeaderSize) p) with
    (<[(i + 18)%nat:=typ]> (take i (b_buf b) ++ slice (b_buf b) i (i + legacyHeaderSize) ++ d ++
       drop (i + legacyHeaderSize + length d) (b_buf b))); [done|].
  rewrite app_assoc, insert_app_l by (unfold legacyHeaderSize in *; len).
  unfold copy_at. rewrite length_insert, Hl. fold d.
  rewrite drop_insert_lt, take_insert_lt by (unfold legacyHeaderSize; lia).
  f_equal; [f_equal|f_equal].
  - unfold slice. rewrite <- (take_drop i (take (i + legacyHeaderSize) (b_buf b))).
    f_equal; [by rewrite take_take, Nat.min_l by lia|].
    by rewrite skipn_firstn_comm.
  - destruct (decide (length d = length p)) as [E|E]; [by rewrite E|].
    rewrite !drop_ge by lia. done.
Qed.

(** The chunks [cs] of the stream are those of the finished records [gr] and of
    the fragments of the current one. *)
Definition client_chunks (c : cphase) (gr : list bytes) (cs : list chunk) : Prop :=
  match c with
  | CEmit n p rec _ =>
      exists cs1 cs2 d, cs = cs1 ++ cs2 /\ recs_chunks cs1 gr /\ rec = d ++ p /\
        part_chunks true cs2 d (n =? 0)%nat /\ (Z.of_nat (length p) < 2 ^ 31)%Z
  | CQueue n p rec _ =>
      exists cs1 cs2 d, cs = cs1 ++ cs2 /\ recs_chunks cs1 gr /\ rec = d ++ p /\
        (if decide (p = []) then rec_chunks true cs2 rec
         else part_chunks true cs2 d (n =? 0)%nat) /\ (Z.of_nat (length p) < 2 ^ 31)%Z
  | CPanic _ => False
  | _ => recs_chunks cs gr
  end.

(** What a waiter waits for: [k] records in the bytes [S]. *)
Definition wait_ok (gs : bytes) (gr : list bytes) (x : nat * bytes) : Prop :=
  x.2 `prefix_of` gs /\ (x.1 <= length gr)%nat /\
  exists cs m q, stream key 0 0 cs x.2 m q /\ recs_chunks cs (take x.1 gr).

Record ClientInv (k : bytes) (cn : Z) (i : nat) (buf : bytes) (bn : Z) (c : cphase)
    (gs : bytes) (gr : list bytes) (gw : list (nat * bytes)) : Prop := {
  ci_key : k = key;
  ci_size : Z.of_nat (length gs) = (bn * Z.of_nat blockSize + Z.of_nat i)%Z;
  ci_chunks : exists cs, stream key 0 0 cs gs cn i /\ client_chunks c gr cs;
  ci_room : match c with
            | CQueue _ _ _ _ => (blockSize < i + legacyHeaderSize)%nat /\
                drop i buf = replicate (blockSize - i) (z2b 0)
            | _ => (i + legacyHeaderSize <= blockSize)%nat
            end;
  ci_wait : Forall (wait_ok gs gr) gw;
}.

(** ** The data on its way to the file *)
Definition unflushed (b : block) : bytes := drop (b_flushed b) (b_buf b).

Definition grabbed (f : fphase) : list block :=
  match f with FGrabbed p | FLoaded p _ _ | FFlush _ p _ _ => p | _ => [] end.

Definition inflight (f : fphase) : bytes :=
  concat (unflushed <$> grabbed f) ++ match f with FFlush data _ _ _ => data | _ => [] end.

Definition failed (f : fphase) (ferr : option error) : Prop :=
  ferr <> None \/ exists synced e, f = FFlushed synced (Some e).

Record DataInv (fw : W) (f : fphase) (pend free : list block) (b : block)
    (ferr : option error) (gs : bytes) : Prop := {
  di_block : block_ok b;
  di_pend : Forall (fun b => length (b_buf b) = blockSize) (pend ++ grabbed f);
  di_free : Forall (fun b => length (b_buf b) = blockSize /\ b_written b = 0%nat /\
                             b_flushed b = 0%nat) free;
  di_grab : match f with FGrabbed _ | FLoaded _ _ _ => pend = [] | _ => True end;
  di_ferr : match f with FFlush _ _ _ _ | FFlushed _ _ => ferr = None | _ => True end;
  di_bytes : failed f ferr \/
    contents fw ++ inflight f ++ concat (unflushed <$> pend) ++
      slice (b_buf b) (b_flushed b) (b_written b) = gs;
  di_prefix : contents fw `prefix_of` gs;
}.

(** ** The waiters *)
Definition wants_sync (c : cphase) : bool :=
  match c with CEmit _ _ _ sync | CQueue _ _ _ sync => sync | CPush => true | _ => false end.

Definition picked (f : fphase) : option (Z * Z) :=
  match f with FLoaded _ h t | FFlush _ _ h t => Some (h, t) | _ => None end.

Record QueueInv (q : syncQueue) (f : fphase) (c : cphase) (sm : Z) (n : nat) (t : Z)
    (l : list waiter) : Prop := {
  qi_rep : Rep q t l;
  qi_seq : l = seq (Z.to_nat t) (length l);
  qi_count : (t + Z.of_nat (length l))%Z = Z.of_nat n;
  qi_sem : sm = (Z.of_nat (length l) + if wants_sync c then 1 else 0)%Z;
  qi_cap : (sm <= SyncConcurrency - 1)%Z;
  qi_picked : match picked f with
              | Some (h, t') => h = t' \/ t' = t /\ (t <= h <= t + Z.of_nat (length l))%Z
              | None => True
              end;
}.

Record DoneInv (fw : W) (f : fphase) (dn : list (waiter * option error))
    (gw : list (nat * bytes)) : Prop := {
  do_done wg : (wg, None) ∈ dn -> exists k S, gw !! wg = Some (k, S) /\ S `prefix_of` durable fw;
  do_flush : match f with
             | FFlush _ _ h t => forall i, (t <= Z.of_nat i < h)%Z ->
                 exists k S, gw !! i = Some (k, S) /\ S `prefix_of` contents fw ++ inflight f
             | _ => True
             end;
}.

(** ** Closing and waking up *)
Record CloseInv (f : fphase) (c : cphase) (cl : bool) (pend : list block) (b : block) : Prop := {
  cl_client : cl = true -> c = CCloseWait \/ exists e, c = CClosed e;
  cl_done : f = FDone -> cl = true /\ pend = [] /\ b_flushed b = b_written b;
  cl_closed : forall e, c = CClosed e -> f = FDone;
  cl_wait : c = CCloseWait -> cl = true;
}.

(** A flusher that waits without having been notified has nothing to do, unless
    the client or the timer is about to notify it. *)
Record WakeInv (f : fphase) (c : cphase) (nt ar fi : bool) (pend : list block)
    (q : syncQueue) (cl : bool) : Prop := {
  wk_lock : f = FAdd \/ (waiting f = true /\ nt = false) -> pend = [] /\ cl = false;
  wk_wait : f = FBlocked -> nt = false -> empty q = false -> c = CSignal \/ fi = true;
  wk_timer : blocked q = true -> ar = true;
}.

Record Inv s : Prop := {
  inv_client : ClientInv (lw_EncryptionKey (lw s)) (lw_chunkNum (lw s))
    (b_written (lw_block (lw s))) (b_buf (lw_block (lw s))) (lw_blockNum (lw s))
    (cp s) (g_stream s) (g_recs s) (g_wait s);
  inv_data : DataInv (lw_w (lw s)) (fp s) (lw_pending (lw s)) (lw_free (lw s))
    (lw_block (lw s)) (lw_ferr (lw s)) (g_stream s);
  inv_queue : exists t l, QueueInv (lw_syncQ (lw s)) (fp s) (cp s) (sem s)
    (length (g_wait s)) t l;
  inv_done : DoneInv (lw_w (lw s)) (fp s) (done s) (g_wait s);
  inv_close : CloseInv (fp s) (cp s) (lw_close (lw s)) (lw_pending (lw s)) (lw_block (lw s));
  inv_wake : WakeInv (fp s) (cp s) (notified s) (armed s) (firing s) (lw_pending (lw s))
    (lw_syncQ (lw s)) (lw_close (lw s));
}.

Lemma Inv_init sink pool :
  contents sink = [] -> length pool = blockSize -> Inv (init sink key pool).
Proof.
  intros Hs Hp. split; simpl.
  - split; [done|simpl; lia| |unfold legacyHeaderSize; pose proof blockSize_Z; lia|done].
    exists []. split; constructor.
  - split; [split; simpl; [done|lia]|done|done|done|done| |].
    + right. by rewrite Hs.
    + rewrite Hs. apply prefix_nil.
  - exists 0%Z, []. split; [apply Rep_new|done|done|done|done|done].
  - split; [|done]. intros wg H. by apply elem_of_nil in H.
  - split; done.
  - split; [|done|done]. intros [?|[??]]; done.
Qed.

(** *** Steps of the client *)
Lemma wait_ok_mono gs gr gs' gr' gw :
  gs `prefix_of` gs' -> gr `prefix_of` gr' ->
  Forall (wait_ok gs gr) gw -> Forall (wait_ok gs' gr') gw.
Proof.
  intros Hs [gr2 ->] Hw. eapply Forall_impl; [exact Hw|].
  intros [k S] (H1 & H2 & cs & m & q & H3 & H4). simpl in *. split_and!.
  - by trans gs.
  - simpl. len.
  - exists cs, m, q. by rewrite take_app_le.
Qed.

(** The fragments of the record after one more. *)
Lemma emit_chunks n p rec cs2 d i :
  let x := take (blockSize - (i + legacyHeaderSize)) p in
  let typ := chunk_type (n =? 0)%nat (is_last i p) in
  (i + legacyHeaderSize <= blockSize)%nat -> (Z.of_nat (length p) < 2 ^ 31)%Z ->
  rec = d ++ p -> part_chunks true cs2 d (n =? 0)%nat ->
  if decide (drop (length x) p = []) then rec_chunks true (cs2 ++ [(typ, x)]) rec
  else part_chunks true (cs2 ++ [(typ, x)]) (d ++ x) false.
Proof.
  intros x typ Hroom Hlen -> Hpart.
  assert (is_last i p = bool_decide (drop (length x) p = [])) as Hlast.
  { unfold is_last. rewrite i32_small by lia.
    destruct (Z.leb_spec (Z.of_nat (length p)) (Z.of_nat blockSize - Z.of_nat i - Z.of_nat legacyHeaderSize));
      case_bool_decide as E; try done; exfalso.
    - apply E. apply drop_ge. unfold x. rewrite length_take. lia.
    - apply (f_equal length) in E. unfold x in E. len. }
  unfold typ. rewrite Hlast. case_decide as E.
  - rewrite bool_decide_true by done.
    assert (x = p) as ->.
    { unfold x. apply take_ge. apply (f_equal length) in E. unfold x in E. len. }
    eapply part_rec; [exact Hpart|]. apply rc_last.
  - rewrite bool_decide_false by done. by apply part_snoc.
Qed.

Lemma ClientInv_emit k cn i buf bn n p rec sync gs gr gw :
  let x := take (blockSize - (i + legacyHeaderSize)) p in
  let e := enc_chunk key (u64 (cn + 1)) (chunk_type (n =? 0)%nat (is_last i p)) x in
  ClientInv k cn i buf bn (CEmit n p rec sync) gs gr gw ->
  exists cs1 cs2 d, recs_chunks cs1 gr /\ rec = d ++ drop (length x) p /\
    stream key 0 0 (cs1 ++ cs2) (gs ++ e) (u64 (cn + 1)) (i + legacyHeaderSize + length x) /\
    (if decide (drop (length x) p = []) then rec_chunks true cs2 rec
     else part_chunks true cs2 d false) /\
    Z.of_nat (length (gs ++ e)) =
      (bn * Z.of_nat blockSize + Z.of_nat (i + legacyHeaderSize + length x))%Z /\
    Forall (wait_ok (gs ++ e) gr) gw.
Proof.
  intros x e [Hk Hsize (cs & Hs & cs1 & cs2 & d & -> & Hrecs & Hrec & Hpart & Hlen) Hroom Hwait].
  exists cs1, (cs2 ++ [(chunk_type (n =? 0)%nat (is_last i p), x)]), (d ++ x).
  split_and!; [done| | | | |].
  - rewrite Hrec, <- app_assoc. f_equal. unfold x.
    rewrite length_take. destruct (Nat.min_spec (blockSize - (i + legacyHeaderSize)) (length p))
      as [[? E]|[? E]]; rewrite E; [by rewrite take_drop|].
    by rewrite take_ge, drop_all, app_nil_r by lia.
  - rewrite app_assoc. eapply stream_app; [exact Hs|].
    rewrite <- (app_nil_r e). apply stream_chunk; [unfold x; len|apply stream_nil].
  - by apply emit_chunks.
  - unfold e. len.
  - eapply wait_ok_mono; [by apply prefix_app_r|done|exact Hwait].
Qed.

Lemma ClientInv_next k cn i buf bn n p rec (sync : bool) gs gr gw cs1 cs2 d :
  k = key -> Z.of_nat (length gs) = (bn * Z.of_nat blockSize + Z.of_nat i)%Z ->
  stream key 0 0 (cs1 ++ cs2) gs cn i -> recs_chunks cs1 gr -> rec = d ++ p ->
  (if decide (p = []) then rec_chunks true cs2 rec else part_chunks true cs2 d (n =? 0)%nat) ->
  (Z.of_nat (length p) < 2 ^ 31)%Z -> (i + legacyHeaderSize <= blockSize)%nat ->
  Forall (wait_ok gs gr) gw ->
  ClientInv k cn i buf bn
    (if decide (p = []) then if sync then CPush else CIdle else CEmit n p rec sync)
    gs (if decide (p = []) then gr ++ [rec] else gr) gw.
Proof.
  intros Hk Hsize Hs Hrecs Hrec Hcs Hlen Hroom Hw. split; [done|done| | |].
  - exists (cs1 ++ cs2). split; [done|]. case_decide.
    + destruct sync; by apply recs_snoc.
    + exists cs1, cs2, d. done.
  - case_decide; [by destruct sync|done].
  - case_decide; [|done]. eapply wait_ok_mono; [done|by apply prefix_app_r|done].
Qed.

Lemma DataInv_extend fw f pend free b ferr gs i' buf' :
  DataInv fw f pend free b ferr gs ->
  length buf' = blockSize -> (b_written b <= i' <= blockSize)%nat ->
  take (b_written b) buf' = take (b_written b) (b_buf b) ->
  DataInv fw f pend free (mkBlock i' (b_flushed b) buf') ferr
    (gs ++ slice buf' (b_written b) i').
Proof.
  intros [[H1a H1b] H2 H3 H4 H5 H6 H7] Hl Hi Htake. split; simpl; try done.
  - split; simpl; [done|lia].
  - destruct H6 as [?|H6]; [by left|right]. rewrite <- H6, <- !app_assoc. do 3 f_equal.
    rewrite (slice_split buf' (b_flushed b) (b_written b) i') by lia. f_equal.
    by rewrite !slice_alt, Htake.
  - by apply prefix_app_r.
Qed.

Lemma QueueInv_client q f c c' sm n t l :
  QueueInv q f c sm n t l -> wants_sync c' = wants_sync c -> QueueInv q f c' sm n t l.
Proof. intros [] E. split; try done. by rewrite E. Qed.

Definition closing (c : cphase) : bool :=
  match c with CCloseWait | CClosed _ => true | _ => false end.

Lemma CloseInv_client f c c' cl pend pend' b b' :
  closing c = false -> closing c' = false ->
  CloseInv f c cl pend b -> CloseInv f c' cl pend' b'.
Proof.
  intros Hc Hc' [H1 H2 H3 H4].
  assert (cl = false) as ->.
  { destruct cl; [|done]. destruct (H1 eq_refl) as [->|[e ->]]; done. }
  split; [done| | |].
  - intros Hf. by destruct (H2 Hf).
  - intros e ->. done.
  - by intros ->.
Qed.

Lemma WakeInv_client f c c' nt ar fi pend q cl :
  c <> CSignal -> WakeInv f c nt ar fi pend q cl -> WakeInv f c' nt ar fi pend q cl.
Proof.
  intros Hc [H1 H2 H3]. split; [done| |done].
  intros Hf Hn He. destruct (H2 Hf Hn He); [done|by right].
Qed.

Lemma DoneInv_wait fw f dn gw x :
  DoneInv fw f dn gw -> DoneInv fw f dn (gw ++ [x]).
Proof.
  intros [H1 H2]. split.
  - intros wg Hwg. destruct (H1 wg Hwg) as (k & S & E & ?). exists k, S.
    by rewrite (lookup_app_l_Some _ _ _ _ E).
  - destruct f; try done. intros i Hi. destruct (H2 i Hi) as (k & S & E & ?). exists k, S.
    by rewrite (lookup_app_l_Some _ _ _ _ E).
Qed.

Lemma nextFragment_fields n p rec sync s :
  let s' := nextFragment n p rec sync s in
  s' = s <| g_recs := if decide (p = []) then g_recs s ++ [rec] else g_recs s |>
         <| cp := if decide (p = []) then if sync then CPush else CIdle
                  else CEmit n p rec sync |>.
Proof. simpl. unfold nextFragment. destruct s. by case_decide. Qed.

Lemma next_wants (sync : bool) n p rec :
  wants_sync (if decide (p = []) then if sync then CPush else CIdle else CEmit n p rec sync) = sync.
Proof. case_decide; by destruct sync. Qed.

Lemma next_closing (sync : bool) n p rec :
  closing (if decide (p = []) then if sync then CPush else CIdle else CEmit n p rec sync) = false.
Proof. case_decide; by destruct sync. Qed.

Lemma Inv_emit pool s s' n p rec sync :
  Inv s -> cp s = CEmit n p rec sync -> client_step rtk pool s = Some s' -> Inv s'.
Proof.
  destruct s as [[fw bn er [i fl buf] free cl ferr pend q k cn] f c nt ar fi sm dn gs gr gw].
  intros [Hc Hd (t & l & Hq) Hdn Hcl Hwk] Hcp Hstep. states. subst c.
  unfold client_step in Hstep. states.
  destruct (di_block _ _ _ _ _ _ _ Hd) as [Hbl Hbw].
  pose proof (ci_room _ _ _ _ _ _ _ _ _ Hc) as Hroom. simpl in Hroom.
  pose proof (ci_key _ _ _ _ _ _ _ _ _ Hc) as Hk.
  destruct (fillFragment_spec (mkLogWriter fw bn er (mkBlock i fl buf) free cl ferr pend q k cn) n p Hk
    (conj Hbl Hbw) Hroom) as (rest & Hfill & Hrest).
  states. rewrite Hfill in Hstep. clear Hfill.
  destruct (ClientInv_emit _ _ _ _ _ _ _ _ _ _ _ _ Hc)
    as (cs1 & cs2 & d & Hrecs & Hrec & Hs & Hcs & Hsize & Hw).
  assert (Z.of_nat (length (drop (length (take (blockSize -
    (i + legacyHeaderSize)) p)) p)) < 2 ^ 31)%Z as Hlen.
  { destruct Hc as [_ _ (? & _ & ? & ? & ? & _ & _ & _ & _ & ?) _ _]. len. }
  set (x := take _ p) in *. set (e := enc_chunk _ _ _ x) in *.
  states. set (i' := (i + legacyHeaderSize + length x)%nat) in *.
  assert (length e = legacyHeaderSize + length x)%nat as He by (unfold e; len).
  assert (length (take i buf) = i) as Hpre by len.
  set (buf' := take i buf ++ e ++ rest) in *.
  assert (length buf' = blockSize) as Hbuf' by (unfold buf'; len).
  assert (slice buf' i i' = e) as Hslice
    by (unfold buf', i'; apply slice_app_mid; lia).
  unfold noRoom, zeroFill in Hstep. rewrite nextFragment_fields in Hstep. states.
  destruct (Nat.ltb_spec (blockSize - i') legacyHeaderSize) as [Hnr|Hnr];
    injection Hstep as <-.
  - set (zbuf := take i' buf' ++ replicate (blockSize - i') (z2b 0)).
    assert (slice zbuf i i' = e) as Hz.
    { rewrite <- Hslice. unfold zbuf. rewrite slice_app_prefix by len.
      by rewrite !slice_alt, take_take, Nat.min_id. }
    split; states; fold zbuf; rewrite ?Hslice.
    + split; [done|done| | |done].
      * exists (cs1 ++ cs2). split; [done|]. exists cs1, cs2, d. simpl. done.
      * split; [lia|]. unfold zbuf. apply drop_app_length'. len.
    + rewrite <- Hz. apply (DataInv_extend _ _ _ _ (mkBlock i fl buf)); [done|unfold zbuf; len|simpl; lia|simpl].
      unfold zbuf. rewrite take_app_le, take_take, Nat.min_l by len.
      unfold buf'. rewrite take_app_le by lia. by rewrite take_take, Nat.min_id.
    + exists t, l. by apply (QueueInv_client _ _ _ _ _ _ _ _ Hq).
    + done.
    + by eapply (CloseInv_client _ (CEmit n p rec sync)); [| |exact Hcl].
    + by eapply WakeInv_client; [|exact Hwk].
  - split; states; rewrite ?Hslice.
    + eapply ClientInv_next; try done. lia.
    + rewrite <- Hslice. apply (DataInv_extend _ _ _ _ (mkBlock i fl buf)); [done|done|simpl; lia|simpl].
      unfold buf'. rewrite take_app_le by lia. by rewrite take_take, Nat.min_id.
    + exists t, l. apply (QueueInv_client _ _ _ _ _ _ _ _ Hq). by rewrite next_wants.
    + done.
    + eapply (CloseInv_client _ (CEmit n p rec sync)); [done|apply next_closing|exact Hcl].
    + by eapply WakeInv_client; [|exact Hwk].
Qed.

(** Signalling with the lock, and without it. *)
Lemma WakeInv_signal_locked f c c' nt ar fi pend pend' q cl cl' :
  locked f = false -> WakeInv f c nt ar fi pend q cl ->
  WakeInv f c' (nt || waiting f) ar fi pend' q cl'.
Proof.
  intros Hf [_ _ H3]. split; [| |done].
  - intros [->|[Hw Hn]]; [done|]. rewrite Hw, orb_true_r in Hn. done.
  - intros ->. by rewrite orb_true_r.
Qed.

Lemma WakeInv_signal f c c' nt ar fi fi' pend q cl :
  WakeInv f c nt ar fi pend q cl -> WakeInv f c' (nt || waiting f) ar fi' pend q cl.
Proof.
  intros [H1 _ H3]. split; [| |done].
  - intros [->|[Hw Hn]]; [by apply H1; left|]. rewrite Hw, orb_true_r in Hn. done.
  - intros ->. by rewrite orb_true_r.
Qed.

Lemma DataInv_sink fw fw' f pend free b ferr gs :
  contents fw' = contents fw ->
  DataInv fw f pend free b ferr gs -> DataInv fw' f pend free b ferr gs.
Proof. intros E []. split; rewrite ?E; done. Qed.

Lemma DoneInv_sink fw fw' f dn gw :
  contents fw' = contents fw -> durable fw `prefix_of` durable fw' ->
  DoneInv fw f dn gw -> DoneInv fw' f dn gw.
Proof.
  intros E Hd [H1 H2]. split.
  - intros wg Hwg. destruct (H1 wg Hwg) as (k & S & ? & ?). exists k, S.
    split; [done|]. by trans (durable fw).
  - by rewrite E.
Qed.

Lemma next_block pool free b0 :
  length pool = blockSize ->
  Forall (fun b => length (b_buf b) = blockSize /\ b_written b = 0%nat /\ b_flushed b = 0%nat) free ->
  let free' := refill pool free in
  exists buf, List.last free' b0 = mkBlock 0 0 buf /\ length buf = blockSize /\
    Forall (fun b => length (b_buf b) = blockSize /\ b_written b = 0%nat /\ b_flushed b = 0%nat)
      (removelast free').
Proof.
  intros Hp Hfree free'.
  assert (free' <> [] /\ Forall (fun b => length (b_buf b) = blockSize /\ b_written b = 0%nat /\
    b_flushed b = 0%nat) free') as [Hne Hall].
  { unfold free', refill. destruct free; [|done]. split; [done|]. repeat constructor. done. }
  rewrite (app_removelast_last b0 Hne) in Hall. apply Forall_app in Hall as [H1 H2].
  apply Forall_cons in H2 as [(Hl & Hw & Hf) _].
  destruct (List.last free' b0) as [w0 f0 buf]. simpl in *. subst. eauto.
Qed.

Lemma ClientInv_queue k cn i buf buf' bn n p rec (sync : bool) gs gr gw :
  ClientInv k cn i buf bn (CQueue n p rec sync) gs gr gw ->
  length buf = blockSize -> (i <= blockSize)%nat ->
  ClientInv k cn 0 buf' (bn + 1)
    (if decide (p = []) then if sync then CPush else CIdle else CEmit n p rec sync)
    (gs ++ slice buf i blockSize) (if decide (p = []) then gr ++ [rec] else gr) gw.
Proof.
  intros [Hk Hsize (cs & Hs & cs1 & cs2 & d & -> & Hrecs & Hrec & Hcs & Hlen) [Hroom Hz] Hw] Hl Hi.
  rewrite slice_to_end, Hz by lia.
  eapply ClientInv_next; try done.
  - len.
  - rewrite <- (app_nil_r (cs1 ++ cs2)). eapply stream_app; [exact Hs|].
    rewrite <- (app_nil_r (replicate _ _)). apply stream_pad; [done|done|apply stream_nil].
  - pose proof blockSize_Z. unfold legacyHeaderSize. lia.
  - eapply wait_ok_mono; [by apply prefix_app_r|done|exact Hw].
Qed.

Lemma DataInv_queue fw f pend free free' b buf' ferr gs :
  DataInv fw f pend free b ferr gs -> locked f = false -> length buf' = blockSize ->
  Forall (fun b => length (b_buf b) = blockSize /\ b_written b = 0%nat /\ b_flushed b = 0%nat) free' ->
  DataInv fw f (pend ++ [b]) free' (mkBlock 0 0 buf') ferr
    (gs ++ slice (b_buf b) (b_written b) blockSize).
Proof.
  intros [[H1a H1b] H2 H3 H4 H5 H6 H7] Hf Hl Hfree. split; simpl; try done.
  - split; simpl; [done|lia].
  - rewrite <- app_assoc. apply Forall_app in H2 as [H2a H2b].
    apply Forall_app. split; [done|]. by constructor.
  - by destruct f.
  - destruct H6 as [?|H6]; [by left|right]. rewrite slice_nil, app_nil_r, <- H6.
    rewrite fmap_app, concat_app. simpl. rewrite app_nil_r, <- !app_assoc. do 3 f_equal.
    unfold unflushed. rewrite <- (slice_to_end _ _ blockSize) by lia.
    apply slice_split. lia.
  - by apply prefix_app_r.
Qed.

Lemma Inv_queue pool s s' n p rec sync :
  Inv s -> cp s = CQueue n p rec sync -> length pool = blockSize ->
  client_step rtk pool s = Some s' -> Inv s'.
Proof.
  destruct s as [[fw bn er [i fl buf] free cl ferr pend q k cn] f c nt ar fi sm dn gs gr gw].
  intros [Hc Hd (t & l & Hq) Hdn Hcl Hwk] Hcp Hp Hstep. states. subst c.
  unfold client_step in Hstep. states.
  destruct (locked f) eqn:Hlk; [done|]. injection Hstep as <-.
  rewrite nextFragment_fields. unfold queueBlock, Signal. states.
  destruct (next_block pool free (pool_block pool) Hp (di_free _ _ _ _ _ _ _ Hd))
    as (buf' & Elast & Hl' & Hfree').
  destruct (di_block _ _ _ _ _ _ _ Hd) as [Hbl Hbw]. simpl in Hbl, Hbw.
  split; states; rewrite ?Elast.
  - eapply ClientInv_queue; [exact Hc|done|lia].
  - by apply (DataInv_queue _ _ _ _ _ (mkBlock i fl buf) _ _ _ Hd).
  - exists t, l. apply (QueueInv_client _ _ _ _ _ _ _ _ Hq). by rewrite next_wants.
  - done.
  - eapply (CloseInv_client _ (CQueue n p rec sync)); [done|apply next_closing|exact Hcl].
  - eapply WakeInv_signal_locked; [done|exact Hwk].
Qed.

Lemma QueueInv_push q f c' sm n t l :
  QueueInv q f CPush sm n t l -> wants_sync c' = false -> (Z.of_nat (S n) < 2 ^ 32)%Z ->
  exists q', push q n = Ret q' /\ QueueInv q' f c' sm (S n) t (l ++ [n]) /\
    blocked q' = blocked q.
Proof.
  intros [H1 H2 H3 H4 H5 H6] Hc' Hn. simpl in H4.
  destruct (push_ok q t l n H1) as (q' & Hpush & Hrep & Hb); [lia|lia|].
  exists q'. split_and!; [done| |done]. split.
  - done.
  - rewrite length_app, seq_app, <- H2. simpl. do 3 f_equal. destruct H1. lia.
  - len.
  - rewrite Hc'. len.
  - done.
  - destruct (picked f) as [[h t']|]; [|done]. rewrite length_app. simpl.
    destruct H6 as [?|[??]]; [by left|right]. split; [done|lia].
Qed.

Lemma Inv_push pool s s' :
  Inv s -> cp s = CPush -> client_step rtk pool s = Some s' ->
  (Z.of_nat (length (g_wait s')) < 2 ^ 32)%Z -> Inv s'.
Proof.
  destruct s as [[fw bn er b free cl ferr pend q k cn] f c nt ar fi sm dn gs gr gw].
  intros [Hc Hd (t & l & Hq) Hdn Hcl Hwk] Hcp Hstep Hgw. simpl in *. subst c.
  unfold client_step in Hstep. simpl in Hstep.
  assert (Z.of_nat (S (length gw)) < 2 ^ 32)%Z as Hn.
  { destruct Hq as [Hr _ _ Hsm Hcap _]. simpl in Hsm.
    rewrite (push_ret _ _ _ _ Hr) in Hstep by lia. injection Hstep as <-. simpl in Hgw. len. }
  destruct (QueueInv_push q f CSignal sm (length gw) t l Hq) as (q' & Hpush & Hq' & Hbl);
    [done|done|].
  rewrite Hpush in Hstep. injection Hstep as <-. split; simpl.
  - destruct Hc as [H1 H2 (cs & H3 & H4) H5 H6]. split; [done|done|by exists cs|done|].
    apply Forall_app. split; [done|]. repeat constructor; simpl; [done|].
    exists cs, cn, (b_written b). rewrite firstn_all. done.
  - done.
  - exists t, (l ++ [length gw]). by rewrite length_app, Nat.add_1_r.
  - by apply DoneInv_wait.
  - by eapply (CloseInv_client _ CPush).
  - destruct Hwk as [H1 H2 H3]. split; [done|by left|by rewrite Hbl].
Qed.

Lemma ClientInv_phase k cn i buf bn c c' gs gr gw :
  ClientInv k cn i buf bn c gs gr gw ->
  (forall cs, client_chunks c gr cs -> client_chunks c' gr cs) ->
  match c, c' with CQueue _ _ _ _, _ | _, CQueue _ _ _ _ => False | _, _ => True end ->
  ClientInv k cn i buf bn c' gs gr gw.
Proof.
  intros [H1 H2 (cs & H3 & H4) H5 H6] Hcs Hc. split; try done.
  - exists cs. auto.
  - by destruct c, c'.
Qed.

Lemma Inv_start_sync s s' p sync :
  Inv s -> (Z.of_nat (length p) < 2 ^ 31)%Z ->
  start_sync_record p sync s = Some s' -> Inv s'.
Proof.
  destruct s as [[fw bn er b free cl ferr pend q k cn] f c nt ar fi sm dn gs gr gw].
  intros [Hc Hd (t & l & Hq) Hdn Hcl Hwk] Hp Hstep. unfold start_sync_record in Hstep.
  simpl in *. destruct c; try done. destruct er; [done|].
  assert (exists sm', s' = mkState (mkLogWriter fw bn None b free cl ferr pend q k cn) f
    (CEmit 0 p p sync) nt ar fi sm' dn gs gr gw /\ (sm' <= SyncConcurrency - 1)%Z /\
    sm' = (sm + if sync then 1 else 0)%Z) as (sm' & -> & Hsm & E).
  { destruct sync; [destruct (Z.ltb_spec sm (SyncConcurrency - 1)); [|done]|];
      injection Hstep as <-.
    - exists (sm + 1)%Z. split_and!; [reflexivity|lia|lia].
    - exists sm. split_and!; [reflexivity| |lia]. apply (qi_cap _ _ _ _ _ _ _ Hq). }
  split; simpl; [|done| |done|by eapply (CloseInv_client _ CIdle)|
    by eapply (WakeInv_client _ CIdle)].
  - eapply ClientInv_phase; [exact Hc| |done]. simpl. intros cs Hcs.
    exists cs, [], []. rewrite app_nil_r. split_and!; try done. constructor.
  - exists t, l. destruct Hq as [H1 H2 H3 H4 H5 H6]. split; try done. simpl in *. lia.
Qed.

Lemma Inv_start_close s s' : Inv s -> start_close s = Some s' -> Inv s'.
Proof.
  destruct s as [[fw bn er b free cl ferr pend q k cn] f c nt ar fi sm dn gs gr gw].
  intros [Hc Hd (t & l & Hq) Hdn Hcl Hwk] Hstep. unfold start_close in Hstep.
  simpl in *. destruct c; try done. injection Hstep as <-.
  split; simpl; [by apply (ClientInv_phase _ _ _ _ _ _ _ _ _ _ Hc)|done| |done|by eapply (CloseInv_client _ CIdle)|
    by eapply (WakeInv_client _ CIdle)].
  exists t, l. by apply (QueueInv_client _ _ _ _ _ _ _ _ Hq).
Qed.

Lemma finishClose_sink w w' e :
  finishClose w = (w', e) ->
  exists fw er, w' = mkLogWriter fw (lw_blockNum w) er (lw_block w) (lw_free w) (lw_close w)
      (lw_ferr w) (lw_pending w) (lw_syncQ w) (lw_EncryptionKey w) (lw_chunkNum w) /\
    contents fw = contents (lw_w w) /\ durable (lw_w w) `prefix_of` durable fw /\
    (e = None -> lw_ferr w = None /\ durable fw = contents fw).
Proof.
  destruct w as [fw bn er b free cl ferr pend q k cn]. unfold finishClose. simpl.
  rewrite sync_some. destruct ferr as [fe|].
  - destruct CloseFile as [close|] eqn:Ec.
    + destruct (close fw) as [fw1 [ce|]] eqn:E; intros [= <- <-];
        destruct (close_same _ _ _ _ Ec E) as [E1 E2]; eexists _, _;
        (split_and!; [reflexivity|done|simpl; by rewrite E2|done]).
    + intros [= <- <-]. eexists _, _. split_and!; done.
  - destruct (sync fw) as [fw1 e1] eqn:Es.
    pose proof (sync_contents _ _ _ Es). pose proof (sync_durable _ _ _ Es).
    destruct CloseFile as [close|] eqn:Ec.
    + destruct (close fw1) as [fw2 [ce|]] eqn:E; intros [= <- <-];
        destruct (close_same _ _ _ _ Ec E) as [E1 E2]; eexists _, _;
        (split_and!; [reflexivity|simpl; congruence|simpl; by rewrite E2|]); [done|].
      intros ->. split; [done|]. simpl. rewrite E1, E2. by eapply sync_ok.
    + intros [= <- <-]. eexists _, _. split_and!; [reflexivity|done|done|].
      intros ->. split; [done|]. by eapply sync_ok.
Qed.

Lemma Inv_client_step pool s s' :
  Inv s -> length pool = blockSize -> client_step rtk pool s = Some s' ->
  (Z.of_nat (length (g_wait s')) < 2 ^ 32)%Z -> Inv s'.
Proof.
  intros Hinv Hp Hstep Hgw. destruct (cp s) eqn:Hcp;
    try (unfold client_step in Hstep; rewrite Hcp in Hstep; done);
    [by eapply Inv_emit|by eapply Inv_queue|by eapply Inv_push|..];
    destruct s as [[fw bn er b free cl ferr pend q k cn] f c nt ar fi sm dn gs gr gw];
    destruct Hinv as [Hc Hd (t & l & Hq) Hdn Hcl Hwk]; unfold client_step in Hstep;
    simpl in *; subst c; simpl in Hstep.
  - (* signal *)
    injection Hstep as <-. split; simpl; [by apply (ClientInv_phase _ _ _ _ _ _ _ _ _ _ Hc)|done| |done|
      by eapply (CloseInv_client _ CSignal)|by eapply WakeInv_signal].
    exists t, l. by apply (QueueInv_client _ _ _ _ _ _ _ _ Hq).
  - (* close *)
    destruct (locked f) eqn:Hlk; [done|]. injection Hstep as <-.
    split; simpl; [by apply (ClientInv_phase _ _ _ _ _ _ _ _ _ _ Hc)|done| |done| |by eapply WakeInv_signal_locked].
    + exists t, l. by apply (QueueInv_client _ _ _ _ _ _ _ _ Hq).
    + destruct Hcl as [H1 H2 H3 H4]. split; [by left| |done|done].
      intros Hf. destruct (H2 Hf) as (-> & _). by destruct H1 as [?|[??]].
  - (* closed *)
    destruct f; try done. destruct (finishClose _) as [w' e] eqn:Ef. injection Hstep as <-.
    destruct (finishClose_sink _ _ _ Ef) as (fw' & er' & -> & Hcont & Hdur & _). simpl in *.
    split; simpl; [by apply (ClientInv_phase _ _ _ _ _ _ _ _ _ _ Hc)|by eapply DataInv_sink| |by eapply DoneInv_sink| |].
    + exists t, l. by apply (QueueInv_client _ _ _ _ _ _ _ _ Hq).
    + destruct Hcl as [H1 H2 H3 H4]. split; [by eauto|by apply H2|done|done].
    + by eapply (WakeInv_client _ CCloseWait).
Qed.

(** *** Steps of the timer *)
Lemma QueueInv_clear q f c sm n t l :
  QueueInv q f c sm n t l -> QueueInv (clearBlocked q) f c sm n t l.
Proof. intros [[] H2 H3 H4 H5 H6]. by repeat split. Qed.

Lemma Inv_timer_fire s s' : Inv s -> timer_fire s = Some s' -> Inv s'.
Proof.
  destruct s as [[fw bn er b free cl ferr pend q k cn] f c nt ar fi sm dn gs gr gw].
  intros [Hc Hd (t & l & Hq) Hdn Hcl Hwk] Hstep. unfold timer_fire in Hstep.
  simpl in *. destruct ar; [|done]. injection Hstep as <-.
  split; simpl; try done.
  - exists t, l. by apply QueueInv_clear.
  - destruct Hwk as [H1 H2 H3]. split; [done|by right|done].
Qed.

Lemma Inv_timer_signal s s' : Inv s -> timer_signal s = Some s' -> Inv s'.
Proof.
  destruct s as [[fw bn er b free cl ferr pend q k cn] f c nt ar fi sm dn gs gr gw].
  intros [Hc Hd (t & l & Hq) Hdn Hcl Hwk] Hstep. unfold timer_signal in Hstep.
  simpl in *. destruct fi; [|done]. injection Hstep as <-.
  split; simpl; try done; [by exists t, l|by eapply WakeInv_signal].
Qed.

(** *** Steps of the flusher *)

(** What picking up the waiters [head, tail) later releases. *)
Lemma QueueInv_pop q f f' c sm n t l head tail err :
  QueueInv q f c sm n t l -> picked f = Some (head, tail) -> picked f' = None ->
  exists q' rel t' l', pop q head tail err = (q', rel, None) /\
    QueueInv q' f' c (sm - Z.of_nat (length rel)) n t' l' /\ blocked q' = blocked q /\
    t' = (if (head =? tail)%Z then t else head) /\
    Forall (fun x => (tail <= Z.of_nat x.1 < head)%Z /\ x.2 = err) rel.
Proof.
  intros [H1 H2 H3 H4 H5 H6] Hp Hp'. rewrite Hp in H6.
  assert (head = tail \/ head <> tail /\ tail = t /\ (t <= head <= t + Z.of_nat (length l))%Z)
    as [->|(Hne & -> & Hh)] by (destruct (decide (head = tail)); intuition).
  - exists q, [], t, l. split_and!; [| |done|by rewrite Z.eqb_refl|by constructor].
    + apply pop_same.
    + split; try done; [simpl; lia|simpl; lia|by rewrite Hp'].
  - set (m := Z.to_nat (head - t)).
    assert (length (take m l) = m) as Hm by (unfold m; len).
    destruct (pop_ok q t (take m l) (drop m l) err) as (q' & Hpop & Hrep & Hb).
    { by rewrite take_drop. }
    rewrite Hm in Hpop, Hrep. replace (t + Z.of_nat m)%Z with head in * by lia.
    exists q', ((fun wg => (wg, err)) <$> take m l), head, (drop m l).
    split_and!; [done| |done|by destruct (Z.eqb_spec head t)|].
    + assert (length (drop m l) = length l - m)%nat as Hd by len.
      split; [done| | | | |by rewrite Hp'].
      * rewrite Hd, H2 at 1. rewrite skipn_seq. f_equal. destruct H1. lia.
      * lia.
      * rewrite length_fmap, Hm. lia.
      * lia.
    + apply Forall_fmap, Forall_forall. intros x Hx. simpl. split; [|done].
      apply elem_of_take in Hx as (i & Hi & Him). rewrite H2 in Hi.
      apply lookup_seq in Hi as [-> ?]. destruct H1. lia.
Qed.

Lemma flushBlocks_spec w P w' err :
  flushBlocks w P = (w', err) ->
  Forall (fun b => length (b_buf b) = blockSize) P ->
  exists fw fl, w' = w <| lw_w := fw |> <| lw_free := lw_free w ++ fl |> /\
    durable (lw_w w) `prefix_of` durable fw /\
    Forall (fun b => length (b_buf b) = blockSize /\ b_written b = 0%nat /\ b_flushed b = 0%nat) fl /\
    match err with
    | None => contents fw = contents (lw_w w) ++ concat (unflushed <$> P)
    | Some _ => exists x, contents fw = contents (lw_w w) ++ x /\
                  x `prefix_of` concat (unflushed <$> P)
    end.
Proof.
  revert w. induction P as [|b P IH]; intros w; simpl.
  - intros [= <- <-] _. exists (lw_w w), []. destruct w. simpl. rewrite !app_nil_r. done.
  - intros Hf [Hb HP]%Forall_cons. unfold flushBlock in Hf.
    destruct (WriteApproved (lw_w w) (drop (b_flushed b) (b_buf b))) as [fw1 [e|]] eqn:Ew.
    + injection Hf as <- <-. exists fw1, []. destruct w. simpl in *. rewrite app_nil_r.
      split_and!; [done|by eapply write_durable|done|].
      destruct (write_err _ _ _ _ Ew) as (n & ->). eexists. split; [done|].
      apply prefix_app_r. apply prefix_take.
    + destruct (IH _ Hf HP) as (fw & fl & -> & Hdur & Hfl & Hcont).
      destruct w as [fw0 bn er b0 free cl ferr pend q k cn]. simpl in *.
      exists fw, (mkBlock 0 0 (b_buf b) :: fl). rewrite <- app_assoc.
      rewrite (write_ok _ _ _ Ew) in Hcont.
      split_and!; [done| |by constructor|].
      * trans (durable fw1); [by eapply write_durable|done].
      * destruct err; [|by rewrite Hcont, <- app_assoc].
        destruct Hcont as (x & -> & Hx). eexists. rewrite <- app_assoc. split; [done|].
        by apply prefix_app.
Qed.

(** The blocks and the partial block, up to the first error. *)
Lemma flushWrites_spec w data P :
  let '(w1, err1) := flushBlocks w P in
  let '(w2, err2) :=
    match err1 with
    | None => if (0 <? length data)%nat then
                let '(sink, err) := WriteApproved (lw_w w1) data in (w1 <| lw_w := sink |>, err)
              else (w1, None)
    | Some _ => (w1, err1)
    end in
  Forall (fun b => length (b_buf b) = blockSize) P ->
  exists fw fl, w2 = w <| lw_w := fw |> <| lw_free := lw_free w ++ fl |> /\
    durable (lw_w w) `prefix_of` durable fw /\
    Forall (fun b => length (b_buf b) = blockSize /\ b_written b = 0%nat /\ b_flushed b = 0%nat) fl /\
    match err2 with
    | None => contents fw = contents (lw_w w) ++ concat (unflushed <$> P) ++ data
    | Some _ => exists x, contents fw = contents (lw_w w) ++ x /\
                  x `prefix_of` concat (unflushed <$> P) ++ data
    end.
Proof.
  destruct (flushBlocks w P) as [w1 err1] eqn:Hf.
  assert (Forall (fun b => length (b_buf b) = blockSize) P -> _) as Hspec
    by exact (flushBlocks_spec _ _ _ _ Hf).
  destruct w as [fw0 bn er b0 free cl ferr pend q k cn].
  destruct err1 as [e|]; [|destruct (Nat.ltb_spec 0 (length data)) as [Hd|Hd];
    [destruct (WriteApproved (lw_w w1) data) as [fw2 err2] eqn:Ew|]];
    intros HP; destruct (Hspec HP) as (fw & fl & -> & Hdur & Hfl & Hcont); simpl in *.
  - exists fw, fl. split_and!; try done. destruct Hcont as (x & -> & Hx).
    exists x. split; [done|]. by apply prefix_app_r.
  - exists fw2, fl. split_and!; [done| |done|].
    { trans (durable fw); [done|by eapply write_durable]. }
    destruct err2 as [e|].
    + destruct (write_err _ _ _ _ Ew) as (n & ->). rewrite Hcont, <- app_assoc.
      eexists. split; [done|]. apply prefix_app, prefix_take.
    + rewrite (write_ok _ _ _ Ew), Hcont. by rewrite <- app_assoc.
  - exists fw, fl. destruct data; [|simpl in Hd; lia]. by rewrite app_nil_r.
Qed.

Lemma flushPending_spec w data P head tail w' rel synced err c sm n t l :
  let f := FFlush data P head tail in
  flushPending w data P head tail = (w', rel, synced, err) ->
  Forall (fun b => length (b_buf b) = blockSize) P ->
  QueueInv (lw_syncQ w) f c sm n t l ->
  exists fw fl q' t' l',
    w' = w <| lw_w := fw |> <| lw_free := lw_free w ++ fl |> <| lw_syncQ := q' |> /\
    QueueInv q' (FFlushed synced err) c (sm - Z.of_nat (length rel)) n t' l' /\
    t' = (if (head =? tail)%Z then t else head) /\ blocked q' = blocked (lw_syncQ w) /\
    durable (lw_w w) `prefix_of` durable fw /\
    Forall (fun b => length (b_buf b) = blockSize /\ b_written b = 0%nat /\ b_flushed b = 0%nat) fl /\
    match err with
    | None => contents fw = contents (lw_w w) ++ inflight f
    | Some _ => exists x, contents fw = contents (lw_w w) ++ x /\ x `prefix_of` inflight f
    end /\
    (forall wg, (wg, None) ∈ rel -> (tail <= Z.of_nat wg < head)%Z /\
       durable fw = contents (lw_w w) ++ inflight f).
Proof.
  intros f Hfp HP Hq. pose proof (flushWrites_spec w data P) as Hw. unfold flushPending in Hfp.
  destruct (flushBlocks w P) as [w1 err1].
  destruct (match err1 with Some _ => _ | None => _ end) as [w2 err2].
  destruct (Hw HP) as (fw & fl & -> & Hdur & Hfl & Hcont). clear Hw.
  destruct w as [fw0 bn er b0 free cl ferr pend q k cn]. simpl in *.
  change (concat (unflushed <$> P) ++ data) with (inflight f) in Hcont.
  destruct (Z.eqb_spec head tail) as [->|Hne].
  - injection Hfp as <- <- <- <-. exists fw, fl, q, t, l. split_and!; try done.
    + destruct Hq. split; try done; simpl; lia.
    + intros wg H. by apply elem_of_nil in H.
  - rewrite sync_some in Hfp.
    set (r := match err2 with None => sync fw | Some _ => (fw, err2) end).
    assert (exists fw3 err3, r = (fw3, err3) /\
      durable fw0 `prefix_of` durable fw3 /\
      match err3 with
      | None => contents fw3 = contents fw0 ++ inflight f /\ durable fw3 = contents fw3
      | Some _ => exists x, contents fw3 = contents fw0 ++ x /\ x `prefix_of` inflight f
      end) as (fw3 & err3 & Er & Hdur3 & Hcont3).
    { unfold r. destruct err2 as [e|]; [by eexists _, _|].
      destruct (sync fw) as [fw3 err3] eqn:Es. eexists _, _. split; [done|].
      pose proof (sync_contents _ _ _ Es) as E. split.
      { trans (durable fw); [done|by eapply sync_durable]. }
      destruct err3; rewrite E; [by eauto|]. split; [done|]. rewrite <- E. by eapply sync_ok. }
    destruct (QueueInv_pop q f (FFlushed true err3) c sm n t l head tail err3 Hq eq_refl eq_refl)
      as (q' & rel' & t' & l' & Hpop & Hq' & Hb & Ht & Hrel).
    assert ((w', rel, synced, err) =
      (mkLogWriter fw3 bn er b0 (free ++ fl) cl ferr pend q' k cn, rel', true, err3)) as E.
    { rewrite <- Hfp. unfold r in Er. destruct err2 as [e|].
      - injection Er as <- <-. simpl. by rewrite Hpop.
      - rewrite Er. simpl. by rewrite Hpop. }
    injection E as -> -> -> ->. exists fw3, fl, q', t', l'.
    split_and!; try done.
    + by rewrite Ht, (proj2 (Z.eqb_neq _ _) Hne).
    + destruct err3; [done|by destruct Hcont3].
    + intros wg Hwg. rewrite Forall_forall in Hrel. destruct (Hrel _ Hwg) as [? Hn].
      simpl in Hn. subst err3. destruct Hcont3 as [<- ->]. done.
Qed.

(** The flusher leaves its loop only when the client waits for it. *)
Lemma CloseInv_flusher f f' c cl pend pend' b b' :
  CloseInv f c cl pend b -> f <> FDone -> f' <> FDone -> CloseInv f' c cl pend' b'.
Proof.
  intros [H1 H2 H3 H4] Hf Hf'. split; [done|done| |done].
  intros e He. by destruct Hf; eapply H3.
Qed.

Lemma WakeInv_awake f f' c nt ar fi pend pend' q q' cl nt' :
  WakeInv f c nt ar fi pend q cl -> waiting f' = false -> f' <> FAdd ->
  (blocked q' = true -> blocked q = true) -> WakeInv f' c nt' ar fi pend' q' cl.
Proof.
  intros [H1 H2 H3] Hw Hf Hb. split; [| |auto].
  - intros [?|[? _]]; [done|congruence].
  - by intros ->.
Qed.

Lemma DoneInv_flusher fw f f' dn gw :
  DoneInv fw f dn gw -> match f' with FFlush _ _ _ _ => False | _ => True end ->
  DoneInv fw f' dn gw.
Proof. intros [H1 H2] Hf. split; [done|]. by destruct f'. Qed.

Lemma QueueInv_flusher q f f' c sm n t l :
  QueueInv q f c sm n t l -> picked f' = None -> QueueInv q f' c sm n t l.
Proof. intros [] Hf. split; try done. by rewrite Hf. Qed.

(** Phases that carry no data. *)
Definition carries (f : fphase) : bool :=
  match f with FGrabbed _ | FLoaded _ _ _ | FFlush _ _ _ _ | FFlushed _ _ => true | _ => false end.

Lemma DataInv_flusher fw f f' pend free b ferr gs :
  DataInv fw f pend free b ferr gs -> carries f = false -> carries f' = false ->
  DataInv fw f' pend free b ferr gs.
Proof.
  intros [H1 H2 H3 H4 H5 H6 H7] Hf Hf'.
  assert (grabbed f = [] /\ grabbed f' = [] /\ inflight f = [] /\ inflight f' = [])
    as (E1 & E2 & E3 & E4) by (by destruct f, f').
  split; try done.
  - by rewrite E2, <- E1.
  - by destruct f'.
  - by destruct f'.
  - rewrite E4, <- E3. destruct H6 as [[?|(sy & e & ->)]|?]; [by left; left|done|by right].
Qed.

Lemma DataInv_grab fw f pend free b ferr gs :
  DataInv fw f pend free b ferr gs -> carries f = false ->
  DataInv fw (FGrabbed pend) [] free b ferr gs.
Proof.
  intros [H1 H2 H3 H4 H5 H6 H7] Hf.
  assert (grabbed f = [] /\ inflight f = []) as [E1 E2] by (by destruct f).
  rewrite E1, app_nil_r in H2.
  split; try done. destruct H6 as [[?|(sy & e & ->)]|<-]; [by left; left|done|right].
  rewrite E2. unfold inflight. simpl. by rewrite <- !app_assoc.
Qed.

Lemma Inv_check throttle s s' :
  Inv s -> fp s = FCheck -> flusher_step throttle s = Some s' -> Inv s'.
Proof.
  destruct s as [[fw bn er [i fl buf] free cl ferr pend q k cn] f c nt ar fi sm dn gs gr gw].
  intros [Hc Hd (t & l & Hq) Hdn Hcl Hwk] Hf Hstep. states. subst f. unfold flusher_step in Hstep. states.
  assert (forall q', QueueInv q' FCheck c sm (length gw) t l ->
    (blocked q' = true -> blocked q = true) ->
    Inv (mkState (mkLogWriter fw bn er (mkBlock i fl buf) free cl ferr [] q' k cn) (FGrabbed pend) c
      nt ar fi sm dn gs gr gw)) as Hgrab.
  { intros q' Hq' Hb. split; simpl; [done|by eapply DataInv_grab| |by eapply DoneInv_flusher| |].
    - exists t, l. by eapply QueueInv_flusher.
    - by eapply CloseInv_flusher.
    - by eapply WakeInv_awake. }
  destruct (bool_decide (pend <> [])) eqn:Hp; cbn [orb negb] in Hstep.
  { injection Hstep as <-. apply Hgrab; [exact Hq|done]. }
  apply bool_decide_eq_false, dec_stable in Hp. subst pend.
  destruct (Nat.ltb_spec fl i) as [Hw|Hw]; cbn [orb negb] in Hstep.
  { injection Hstep as <-. apply Hgrab; [exact Hq|done]. }
  destruct (empty q) eqn:Hemp; cbn [orb negb] in Hstep; [|injection Hstep as <-; apply Hgrab; [exact Hq|done]].
  destruct cl.
  - destruct (empty (clearBlocked q)) eqn:Hemp2; cbn [orb negb] in Hstep; injection Hstep as <-.
    + split; simpl; [done|by eapply DataInv_flusher| |by eapply DoneInv_flusher| |].
      * exists t, l. by eapply QueueInv_flusher; [apply QueueInv_clear|].
      * destruct Hcl as [H1 H2 H3 H4]. split; [done| |done|done]. intros _. split_and!; [done|done|].
        destruct (di_block _ _ _ _ _ _ _ Hd) as [_ Hb]. simpl in *. lia.
      * split; [|done|done]. by intros [?|[??]].
    + apply Hgrab; [by apply QueueInv_clear|done].
  - injection Hstep as <-.
    split; simpl; [done|by eapply DataInv_flusher| |by eapply DoneInv_flusher| |].
    + exists t, l. by eapply QueueInv_flusher.
    + by eapply CloseInv_flusher.
    + destruct Hwk as [H1 H2 H3]. split; done.
Qed.

(** Going to sleep and waking up. *)
Lemma Inv_sleep throttle s s' :
  Inv s -> match fp s with FAdd | FUnlock | FUnlocked | FBlocked => True | _ => False end ->
  flusher_step throttle s = Some s' -> Inv s'.
Proof.
  destruct s as [[fw bn er [i fl buf] free cl ferr pend q k cn] f c nt ar fi sm dn gs gr gw].
  intros [Hc Hd (t & l & Hq) Hdn Hcl Hwk] Hf Hstep. states.
  assert (forall f' nt', carries f' = false -> f' <> FDone ->
    WakeInv f' c nt' ar fi pend q cl ->
    Inv (mkState (mkLogWriter fw bn er (mkBlock i fl buf) free cl ferr pend q k cn) f' c
      nt' ar fi sm dn gs gr gw)) as Hgo.
  { intros f' nt' Hf' Hne Hw. split; simpl; [done| | | | |done].
    - eapply DataInv_flusher; [exact Hd|by destruct f|done].
    - exists t, l. eapply QueueInv_flusher; [exact Hq|by destruct f'].
    - eapply DoneInv_flusher; [exact Hdn|by destruct f'].
    - eapply CloseInv_flusher; [exact Hcl|by destruct f|done]. }
  destruct Hwk as [H1 H2 H3]. destruct f; try done; unfold flusher_step in Hstep; states.
  - injection Hstep as <-. apply Hgo; [done|done|]. split; [|done|done]. intros _. auto.
  - injection Hstep as <-. apply Hgo; [done|done|]. split; [|done|done].
    intros [?|[_ ?]]; [done|auto].
  - destruct (empty q) eqn:He; cbn [orb negb] in Hstep; injection Hstep as <-; apply Hgo; try done.
    + split; [|by rewrite He|done]. intros [?|[_ ?]]; [done|auto].
    + simpl. rewrite orb_true_r. split; [|done|done]. by intros [?|[_ ?]].
  - destruct nt; [|done]. injection Hstep as <-. apply Hgo; [done|done|].
    split; [|done|done]. by intros [?|[??]].
Qed.

Lemma QueueInv_load q c sm n t l P :
  QueueInv q (FGrabbed P) c sm n t l ->
  exists head tail len, load q = (head, tail, len) /\
    QueueInv q (FLoaded P head tail) c sm n t l.
Proof.
  intros [H1 H2 H3 H4 H5 H6]. unfold load. rewrite (Rep_unpack _ _ _ H1).
  destruct (blocked q); eexists _, _, _; (split; [reflexivity|]); split; try done; simpl.
  - by left.
  - right. split; [done|lia].
Qed.

Lemma Inv_load throttle s s' P :
  Inv s -> fp s = FGrabbed P -> flusher_step throttle s = Some s' -> Inv s'.
Proof.
  destruct s as [[fw bn er [i fl buf] free cl ferr pend q k cn] f c nt ar fi sm dn gs gr gw].
  intros [Hc Hd (t & l & Hq) Hdn Hcl Hwk] Hf Hstep. states. subst f.
  unfold flusher_step in Hstep. states.
  destruct (QueueInv_load _ _ _ _ _ _ _ Hq) as (head & tail & len & Hload & Hq').
  rewrite Hload in Hstep. injection Hstep as <-.
  split; states; [done| |by exists t, l|by eapply DoneInv_flusher|by eapply CloseInv_flusher|
    by eapply WakeInv_awake].
  destruct Hd as [H1 H2 H3 H4 H5 H6 H7]. split; try done.
  destruct H6 as [[?|(? & ? & ?)]|?]; [by left; left|done|by right].
Qed.

Lemma DoneInv_errors fw f f' dn rel gw e :
  DoneInv fw f dn gw -> match f' with FFlush _ _ _ _ => False | _ => True end ->
  Forall (fun x : waiter * option error => x.2 = Some e) rel ->
  DoneInv fw f' (dn ++ rel) gw.
Proof.
  intros [H1 H2] Hf Hrel. split; [|by destruct f'].
  intros wg [?|Hin]%elem_of_app; [by apply H1|].
  rewrite Forall_forall in Hrel. by specialize (Hrel _ Hin).
Qed.

(** Everything written before the waiters were read is in the data taken. *)
Lemma DoneInv_take fw P head tail pend free b ferr gs gr gw dn q c sm t l :
  let f := FFlush (slice (b_buf b) (b_flushed b) (b_written b)) P head tail in
  DataInv fw (FLoaded P head tail) pend free b ferr gs -> ferr = None ->
  QueueInv q (FLoaded P head tail) c sm (length gw) t l ->
  Forall (wait_ok gs gr) gw ->
  DoneInv fw (FLoaded P head tail) dn gw -> DoneInv fw f dn gw.
Proof.
  intros f Hd -> Hq Hw [H1 _]. split; [done|]. intros j Hj.
  destruct (lookup_lt_is_Some_2 gw j) as [[k S] E].
  { destruct Hq as [_ _ H3 _ _ H6]. simpl in H6. lia. }
  exists k, S. split; [done|].
  rewrite Forall_forall in Hw. apply list_elem_of_lookup_2 in E as Hin.
  destruct (Hw _ Hin) as [Hpre _]. simpl in Hpre.
  destruct Hd as [_ _ _ Hpend _ [[?|(? & ? & ?)]|Hb] _]; [done|done|].
  subst pend. rewrite <- Hb in Hpre. unfold f, inflight in *. simpl in *.
  by rewrite app_nil_r in Hpre.
Qed.

Lemma Inv_take throttle s s' P head tail :
  Inv s -> fp s = FLoaded P head tail -> flusher_step throttle s = Some s' -> Inv s'.
Proof.
  destruct s as [[fw bn er [i fl buf] free cl ferr pend q k cn] f c nt ar fi sm dn gs gr gw].
  intros [Hc Hd (t & l & Hq) Hdn Hcl Hwk] Hf Hstep. states. subst f.
  unfold flusher_step in Hstep. states.
  destruct ferr as [e|].
  - destruct (QueueInv_pop q _ FCheck c sm _ t l head tail (Some e) Hq eq_refl eq_refl)
      as (q' & rel & t' & l' & Hpop & Hq' & Hb & _ & Hrel).
    rewrite Hpop in Hstep. injection Hstep as <-.
    split; states; [done| |by exists t', l'| |by eapply CloseInv_flusher|].
    + destruct Hd as [[H1a H1b] H2 H3 H4 H5 H6 H7]. simpl in *. split; try done.
      * split; simpl; [done|lia].
      * simpl. apply Forall_app in H2 as [H2 _]. by rewrite app_nil_r.
      * by left; left.
    + eapply DoneInv_errors; [done|done|]. eapply Forall_impl; [exact Hrel|]. by intros x [_ ?].
    + eapply WakeInv_awake; [exact Hwk|done|done|by rewrite Hb].
  - injection Hstep as <-. set (data := slice buf fl i).
    split; states; [done| | |by eapply (DoneInv_take fw P head tail pend free (mkBlock i fl buf) None gs gr);
        [..|apply Hc|]|
      by eapply CloseInv_flusher|by eapply WakeInv_awake].
    + destruct Hd as [[H1a H1b] H2 H3 H4 H5 H6 H7]. simpl in *. subst pend. split; try done.
      * split; simpl; [done|lia].
      * destruct H6 as [[?|(? & ? & ?)]|<-]; [done|done|right].
        unfold inflight. simpl. by rewrite slice_nil, !app_nil_r.
    + exists t, l. destruct Hq. by split.
Qed.

Lemma Inv_flush throttle s s' data P head tail :
  Inv s -> fp s = FFlush data P head tail -> flusher_step throttle s = Some s' -> Inv s'.
Proof.
  destruct s as [[fw bn er [i fl buf] free cl ferr pend q k cn] f c nt ar fi sm dn gs gr gw].
  intros [Hc Hd (t & l & Hq) Hdn Hcl Hwk] Hf Hstep. states. subst f.
  unfold flusher_step in Hstep. states.
  destruct (flushPending _ _ _ _ _) as [[[w' rel] synced] err] eqn:Hfp.
  injection Hstep as <-. destruct Hd as [H1 H2 H3 H4 H5 H6 H7]. states.
  apply Forall_app in H2 as [H2a H2b].
  destruct (flushPending_spec _ _ _ _ _ _ _ _ _ _ _ _ _ _ Hfp H2b Hq) as
    (fw' & fl' & q' & t' & l' & -> & Hq' & _ & Hb & Hdur & Hfl & Hcont & Hrel). states.
  assert (failed (FFlush data P head tail) None -> False) as Hnf
    by (intros [?|(? & ? & ?)]; done).
  subst ferr. destruct H6 as [[]%Hnf|H6].
  assert (contents fw' `prefix_of` gs) as Hpre.
  { rewrite <- H6. destruct err.
    - destruct Hcont as (x & -> & Hx). apply prefix_app. by apply prefix_app_r.
    - rewrite Hcont, app_assoc. by apply prefix_app_r. }
  split; states; [done| |by exists t', l'| |by eapply CloseInv_flusher|].
  - split; try done.
    + by rewrite app_nil_r.
    + by apply Forall_app.
    + destruct err; [left; right; by eauto|right].
      rewrite Hcont, <- H6. unfold inflight. simpl. by rewrite <- !app_assoc.
  - destruct Hdn as [D1 D2]. split; [|done]. intros wg [Hin|Hin]%elem_of_app.
    + destruct (D1 wg Hin) as (k0 & S & ? & ?). exists k0, S. split; [done|].
      by trans (durable fw).
    + destruct (Hrel wg Hin) as [Hr ->]. by apply D2.
  - eapply WakeInv_awake; [exact Hwk|done|done|by rewrite Hb].
Qed.

Lemma Inv_flushed throttle s s' synced err :
  Inv s -> fp s = FFlushed synced err -> flusher_step throttle s = Some s' -> Inv s'.
Proof.
  destruct s as [[fw bn er [i fl buf] free cl ferr pend q k cn] f c nt ar fi sm dn gs gr gw].
  intros [Hc Hd (t & l & Hq) Hdn Hcl Hwk] Hf Hstep. states. subst f.
  unfold flusher_step in Hstep. states.
  assert (DataInv fw FCheck pend free (mkBlock i fl buf) err gs) as Hd'.
  { destruct Hd as [H1 H2 H3 H4 H5 H6 H7]. split; try done.
    subst ferr. destruct H6 as [[?|(? & ? & [= -> ->])]|?]; [done|by left; left|by right]. }
  assert (forall b, QueueInv (q <| blocked := b |>) FCheck c sm (length gw) t l) as Hq'.
  { intros b. destruct Hq as [[] H2 H3 H4 H5 H6]. by repeat split. }
  assert (s' = mkState (mkLogWriter fw bn er (mkBlock i fl buf) free cl err pend
      (clearBlocked q) k cn) FCheck c nt ar fi sm dn gs gr gw \/
    s' = mkState (mkLogWriter fw bn er (mkBlock i fl buf) free cl err pend
      (setBlocked q) k cn) FCheck c nt true fi sm dn gs gr gw \/
    s' = mkState (mkLogWriter fw bn er (mkBlock i fl buf) free cl err pend
      q k cn) FCheck c nt ar fi sm dn gs gr gw) as Hs'.
  { destruct err; [by left; simplify_eq|]. destruct (synced && throttle); simplify_eq; auto. }
  clear Hstep.
  destruct Hs' as [->|[->| ->]]; (split; states; [done|done| |by eapply DoneInv_flusher|
    by eapply CloseInv_flusher|]).
  - exists t, l. apply Hq'.
  - by eapply WakeInv_awake.
  - exists t, l. apply Hq'.
  - split; [by intros [?|[??]]|done|done].
  - exists t, l. by eapply QueueInv_flusher.
  - by eapply WakeInv_awake.
Qed.

(** ** Executions *)
Definition event_ok (e : event) : Prop :=
  match e with
  | ESyncRecord p _ => (Z.of_nat (length p) < 2 ^ 31)%Z
  | EClient pool => length pool = blockSize
  | _ => True
  end.

Lemma Inv_event e s s' :
  Inv s -> event_ok e -> do_event rtk e s = Some s' ->
  (Z.of_nat (length (g_wait s')) < 2 ^ 32)%Z -> Inv s'.
Proof.
  intros Hinv He Hstep Hgw. destruct e; simpl in *.
  - by eapply Inv_start_sync.
  - by eapply Inv_start_close.
  - by eapply Inv_client_step.
  - destruct (fp s) eqn:Hf.
    + by eapply Inv_check.
    + eapply Inv_sleep; [done|by rewrite Hf|done].
    + eapply Inv_sleep; [done|by rewrite Hf|done].
    + eapply Inv_sleep; [done|by rewrite Hf|done].
    + eapply Inv_sleep; [done|by rewrite Hf|done].
    + by eapply Inv_load.
    + by eapply Inv_take.
    + by eapply Inv_flush.
    + by eapply Inv_flushed.
    + unfold flusher_step in Hstep. by rewrite Hf in Hstep.
  - by eapply Inv_timer_fire.
  - by eapply Inv_timer_signal.
Qed.
End facts.
