(* ===== verification/LogWriterSpec.v ===== *)
(** What the log writer guarantees ([LogWriter]). *)
From S2P Require Import Prelude.
From S2P Require Import Crypto.
From S2P Require Import Record.
From S2P Require Import RecordFormat.
From S2P Require Import RecordWriter.
From S2P Require Import RecordReader.
From S2P Require Import RecordTotal.
From S2P Require Import SyncQueue.
From S2P Require Import LogWriter.
From S2P Require Import LogWriterFacts.

Section spec.
Context `{C : AEAD} `{CL : !AEADLaws C} `{EW : EdgWriter W} `{LS : !LogSink W}.
Context `{SL : !LogSinkLaws W} (rtk key : bytes) (Hkey : aes_key_ok key = true).
Implicit Types s : state W.

(** The flusher does not change what belongs to the client. *)
Lemma flusher_client throttle s s' :
  flusher_step throttle s = Some s' -> cp s' = cp s /\ g_wait s' = g_wait s.
Proof.
  destruct s as [[fw bn er [i fl buf] free cl ferr pend q k cn] f c nt ar fi sm dn gs gr gw].
  unfold flusher_step. states. destruct f; try done.
  - destruct (_ || _); [by intros [= <-]|]. destruct cl; [|by intros [= <-]].
    destruct (negb _); by intros [= <-].
  - by intros [= <-].
  - by intros [= <-].
  - destruct (negb _); by intros [= <-].
  - destruct nt; [|done]. by intros [= <-].
  - destruct (load q) as [[h t] n]. by intros [= <-].
  - destruct ferr; [destruct (pop _ _ _ _) as [[q' rel] e']|]; by intros [= <-].
  - destruct (flushPending _ _ _ _ _) as [[[w rel] sy] e']. by intros [= <-].
  - destruct err; [by intros [= <-]|]. destruct (_ && _); by intros [= <-].
Qed.

Lemma g_wait_mono e s s' :
  do_event rtk e s = Some s' -> (length (g_wait s) <= length (g_wait s'))%nat.
Proof.
  destruct s as [[fw bn er [i fl buf] free cl ferr pend q k cn] f c nt ar fi sm dn gs gr gw].
  destruct e; cbn [do_event].
  - unfold start_sync_record. states. destruct c; try done. destruct er; [done|].
    destruct sync; [destruct (_ <? _)%Z|]; intros; simplify_eq/=; done.
  - unfold start_close. states. destruct c; try done. by intros [= <-].
  - unfold client_step. states. destruct c; try done.
    + destruct (fillFragment rtk _ n p) as [[w rest]|m].
      * rewrite nextFragment_fields. destruct (noRoom w); intros [= <-]; done.
      * by intros [= <-].
    + destruct (locked f); [done|]. intros [= <-]. rewrite nextFragment_fields. done.
    + destruct (push q (length gw)); intros [= <-]; simpl; [len|done].
    + by intros [= <-].
    + destruct (locked f); [done|]. by intros [= <-].
    + destruct f; try done. destruct (finishClose _). by intros [= <-].
  - intros H. apply flusher_client in H as [_ ->]. done.
  - unfold timer_fire. states. destruct ar; [|done]. by intros [= <-].
  - unfold timer_signal. states. destruct fi; [|done]. by intros [= <-].
Qed.

Lemma run_app es1 es2 s :
  run rtk (es1 ++ es2) s = match run rtk es1 s with Some s' => run rtk es2 s' | None => None end.
Proof.
  revert s. induction es1 as [|e es1 IH]; intros s; simpl; [done|].
  destruct (do_event rtk e s); [apply IH|done].
Qed.

Lemma run_flusher_client throttle n s s' :
  run rtk (replicate n (EFlusher throttle)) s = Some s' -> cp s' = cp s.
Proof.
  revert s. induction n as [|n IH]; intros s; simpl; [by intros [= ->]|].
  destruct (flusher_step throttle s) as [s1|] eqn:E; [|done]. intros H.
  apply flusher_client in E as [<- _]. by apply IH.
Qed.

Lemma run_wait_mono es s s' :
  run rtk es s = Some s' -> (length (g_wait s) <= length (g_wait s'))%nat.
Proof.
  revert s. induction es as [|e es IH]; intros s; simpl; [by intros [= ->]|].
  destruct (do_event rtk e s) as [s1|] eqn:E; [|done]. intros Hr.
  trans (length (g_wait s1)); [by eapply g_wait_mono|by apply IH].
Qed.

Lemma Inv_run es s s' :
  Inv key s -> Forall event_ok es -> run rtk es s = Some s' ->
  (Z.of_nat (length (g_wait s')) < 2 ^ 32)%Z -> Inv key s'.
Proof.
  revert s. induction es as [|e es IH]; intros s Hi; simpl; [by intros _ [= ->]|].
  intros [He Hes]%Forall_cons Hr Hw.
  destruct (do_event rtk e s) as [s1|] eqn:E; [|done].
  apply (IH s1); [|done|done|done]. eapply Inv_event; [done|done|exact He|exact E|].
  pose proof (run_wait_mono _ _ _ Hr). lia.
Qed.

(** The states of an execution: the log starts empty, records are shorter than
    2GiB and fewer than 2^32 of them ask for a sync. *)
Definition reaches (sink : W) (pool : bytes) (es : list event) s : Prop :=
  contents sink = [] /\ length pool = blockSize /\ Forall event_ok es /\
  run rtk es (init sink key pool) = Some s /\ (Z.of_nat (length (g_wait s)) < 2 ^ 32)%Z.

Lemma reaches_Inv sink pool es s : reaches sink pool es s -> Inv key s.
Proof.
  intros (H1 & H2 & H3 & H4 & H5). eapply Inv_run; [|done|done|done]. by apply Inv_init.
Qed.

(** After a close that returned no error, all is durable. *)
Definition ClosedInv s : Prop :=
  cp s = CClosed None -> lw_ferr (lw s) = None /\ durable (lw_w (lw s)) = contents (lw_w (lw s)).

Lemma ClosedInv_event e s s' :
  Inv key s -> ClosedInv s -> do_event rtk e s = Some s' -> ClosedInv s'.
Proof.
  destruct s as [[fw bn er [i fl buf] free cl ferr pend q k cn] f c nt ar fi sm dn gs gr gw].
  intros [_ _ _ _ [_ _ Hcl _] _] Hold. unfold ClosedInv in *. states.
  destruct e; cbn [do_event].
  - unfold start_sync_record. states. destruct c; try done. destruct er; [done|].
    destruct sync; [destruct (_ <? _)%Z|]; intros; simplify_eq/=; done.
  - unfold start_close. states. destruct c; try done. by intros [= <-].
  - unfold client_step. states. destruct c; try done.
    + destruct (fillFragment rtk _ n p) as [[w rest]|m]; [|by intros [= <-]].
      rewrite nextFragment_fields. destruct (noRoom w); intros [= <-]; [done|].
      states. case_decide; by destruct sync.
    + destruct (locked f); [done|]. intros [= <-]. rewrite nextFragment_fields. states.
      case_decide; by destruct sync.
    + destruct (push q (length gw)); by intros [= <-].
    + by intros [= <-].
    + destruct (locked f); [done|]. by intros [= <-].
    + destruct f; try done. destruct (finishClose _) as [w e] eqn:Ef. intros [= <-].
      destruct (finishClose_sink _ _ _ Ef) as (fw' & er' & -> & _ & _ & H). states.
      intros [= ->]. by apply H.
  - intros Hs Hc'. pose proof (flusher_client _ _ _ Hs) as [Ec _].
    change (cp s' = CClosed None) in Hc'. rewrite Ec in Hc'. states.
    specialize (Hcl None Hc'). subst f. done.
  - unfold timer_fire. states. destruct ar; [|done]. by intros [= <-].
  - unfold timer_signal. states. destruct fi; [|done]. by intros [= <-].
Qed.

Lemma ClosedInv_run es s s' :
  Inv key s -> ClosedInv s -> Forall event_ok es -> run rtk es s = Some s' ->
  (Z.of_nat (length (g_wait s')) < 2 ^ 32)%Z -> ClosedInv s'.
Proof.
  revert s. induction es as [|e es IH]; intros s Hi Hc; simpl; [by intros _ [= ->]|].
  intros [He Hes]%Forall_cons Hr Hw.
  destruct (do_event rtk e s) as [s1|] eqn:E; [|done].
  apply (IH s1); [|by eapply ClosedInv_event|done|done|done].
  eapply Inv_event; [done|done|exact He|exact E|].
  pose proof (run_wait_mono _ _ _ Hr). lia.
Qed.

Lemma stream_read tl S cs ds m q F logNum k fuel :
  stream key 0 0 cs S m q -> recs_chunks cs ds -> F = S ++ tl -> (0 < k)%nat ->
  (2 * length F + 5 <= fuel)%nat ->
  exists l e, ReadRecords rtk fuel (NewReader F logNum key) k = Some (l, e) /\ ds `prefix_of` l.
Proof.
  intros Hs Hrecs -> Hk Hfuel.
  destruct (ReadRecords_file rtk key (S ++ tl) logNum k fuel Hk) as (l & e & E); [lia|].
  exists l, e. split; [done|].
  eapply (ReadRecords_prefix rtk key Hkey tl); [exact Hrecs| |exact Hk| |exact E].
  - split; [done|]. exists S, m, q. split; [done|]. apply NewReader_unread.
  - pose proof (stream_length _ _ _ _ _ _ _ Hs) as Hl.
    destruct (recs_chunks_data _ _ Hrecs) as [E1 E2]. rewrite E1 in Hl.
    unfold legacyHeaderSize in Hl. rewrite length_app in Hfuel. lia.
Qed.

Lemma waiter_durable s wg :
  Inv key s -> (wg, None) ∈ done s ->
  exists k S cs m q, g_wait s !! wg = Some (k, S) /\ S `prefix_of` durable (lw_w (lw s)) /\
    stream key 0 0 cs S m q /\ recs_chunks cs (take k (g_recs s)).
Proof.
  intros [Hc _ _ Hd _ _] Hin. destruct (do_done _ _ _ _ Hd _ Hin) as (k & S & E & Hp).
  pose proof (ci_wait _ _ _ _ _ _ _ _ _ _ Hc) as Hw. rewrite Forall_forall in Hw.
  apply list_elem_of_lookup_2 in E as Hin'.
  destruct (Hw _ Hin') as (_ & _ & cs & m & q & Hs & Hr). by exists k, S, cs, m, q.
Qed.

Lemma closed_contents s :
  Inv key s -> ClosedInv s -> cp s = CClosed None ->
  exists cs m q, stream key 0 0 cs (durable (lw_w (lw s))) m q /\ recs_chunks cs (g_recs s).
Proof.
  intros [Hc Hd _ _ Hcl _] Hclosed Hcp. destruct (Hclosed Hcp) as [Hferr Hdur].
  rewrite Hcp in *. pose proof (cl_closed _ _ _ _ _ Hcl _ eq_refl) as Hf.
  destruct (cl_done _ _ _ _ _ Hcl Hf) as (_ & Hp & Hfl).
  destruct (ci_chunks _ _ _ _ _ _ _ _ _ _ Hc) as (cs & Hs & Hcs).
  exists cs, (lw_chunkNum (lw s)), (b_written (lw_block (lw s))). split; [|done].
  rewrite Hdur. destruct Hd as [_ _ _ _ _ [[?|(? & ? & E)]|Hb] _]; [done|by rewrite Hf in E|].
  rewrite Hf, Hp, Hfl, slice_nil in Hb. unfold inflight in Hb. simpl in Hb.
  rewrite app_nil_r in Hb. by rewrite Hb.
Qed.
End spec.

(** C6. Durability: if a client that asked for a sync was released without an
    error, its record and all before it survive a crash.  Whatever the file [F]
    holds then after the bytes that were durable, reading it returns them first. *)
Theorem logwriter_durable `{C : AEAD} `{CL : !AEADLaws C} `{EW : EdgWriter W}
    `{LS : !LogSink W} `{SL : !LogSinkLaws W} rtk key sink pool es (s : state W) wg F logNum k fuel :
  aes_key_ok key = true -> reaches rtk key sink pool es s -> (wg, None) ∈ done s ->
  durable (lw_w (lw s)) `prefix_of` F -> (0 < k)%nat -> (2 * length F + 5 <= fuel)%nat ->
  exists n S l e, g_wait s !! wg = Some (n, S) /\
    ReadRecords rtk fuel (NewReader F logNum key) k = Some (l, e) /\
    take n (g_recs s) `prefix_of` l.
Proof.
  intros Hkey Hr Hin HF Hk Hfuel.
  destruct (waiter_durable key s wg (reaches_Inv rtk key Hkey _ _ _ _ Hr) Hin)
    as (n & S & cs & m & q & E & Hp & Hs & Hcs).
  assert (S `prefix_of` F) as [tl ->] by (by trans (durable (lw_w (lw s)))).
  destruct (stream_read rtk key Hkey tl S cs _ m q _ logNum k fuel Hs Hcs eq_refl Hk Hfuel)
    as (l & e & ? & ?).
  by exists n, S, l, e.
Qed.

(** Closing: when [Close] returns no error, the whole log is durable and
    reading it gives exactly the records that were written. *)
Theorem logwriter_close `{C : AEAD} `{CL : !AEADLaws C} `{EW : EdgWriter W}
    `{LS : !LogSink W} `{SL : !LogSinkLaws W} rtk key sink pool es (s : state W) logNum k fuel :
  aes_key_ok key = true -> reaches rtk key sink pool es s -> cp s = CClosed None ->
  (0 < k)%nat -> (length (durable (lw_w (lw s))) + 5 <= fuel)%nat ->
  ReadRecords rtk fuel (NewReader (durable (lw_w (lw s))) logNum key) k =
    Some (g_recs s, EOF).
Proof.
  intros Hkey Hr Hcp Hk Hfuel.
  pose proof (reaches_Inv rtk key Hkey _ _ _ _ Hr) as Hi.
  destruct Hr as (H1 & H2 & H3 & H4 & H5).
  assert (ClosedInv s) as Hc.
  { eapply (ClosedInv_run rtk key Hkey); [by apply Inv_init|by intros ?|exact H3|exact H4|done]. }
  destruct (closed_contents key s Hi Hc Hcp) as (cs & m & q & Hs & Hcs).
  by eapply ReadRecords_stream.
Qed.

(** C7. The client never panics: neither does the queue of waiters overflow nor
    does a fragment run over the end of its block. *)
Theorem logwriter_no_panic `{C : AEAD} `{CL : !AEADLaws C} `{EW : EdgWriter W}
    `{LS : !LogSink W} `{SL : !LogSinkLaws W} rtk key sink pool es (s : state W) m :
  aes_key_ok key = true -> reaches rtk key sink pool es s -> cp s <> CPanic m.
Proof.
  intros Hkey Hr Hcp. destruct (reaches_Inv rtk key Hkey _ _ _ _ Hr) as [Hc _ _ _ _ _].
  rewrite Hcp in Hc. by destruct Hc as [_ _ (? & _ & []) _ _].
Qed.

(** C8. No lost wakeup: while the flush loop sleeps and nobody has signalled it,
    no block is pending, the log is not being closed, and if a client waits for a
    sync then a signal is on its way: the client's own, or the one of the
    min-sync-interval timer, which is then running. *)
Theorem logwriter_no_lost_wakeup `{C : AEAD} `{CL : !AEADLaws C} `{EW : EdgWriter W}
    `{LS : !LogSink W} `{SL : !LogSinkLaws W} rtk key sink pool es (s : state W) :
  aes_key_ok key = true -> reaches rtk key sink pool es s ->
  fp s = FBlocked -> notified s = false ->
  lw_pending (lw s) = [] /\ lw_close (lw s) = false /\
  (empty (clearBlocked (lw_syncQ (lw s))) = true \/
   cp s = CSignal \/ firing s = true \/ armed s = true).
Proof.
  intros Hkey Hr Hf Hn.
  destruct (reaches_Inv rtk key Hkey _ _ _ _ Hr) as [_ _ _ _ _ [H1 H2 H3]].
  destruct (H1 (or_intror (conj (f_equal waiting Hf) Hn))) as [? ?].
  split_and!; [done|done|].
  destruct (blocked (lw_syncQ (lw s))) eqn:Hb; [by right; right; right; apply H3|].
  rewrite clearBlocked_id by done.
  destruct (empty (lw_syncQ (lw s))) eqn:He; [by left|right].
  destruct (H2 Hf Hn eq_refl); [by left|by right; left].
Qed.

(** Offsets: between two calls, the offset [SyncRecord] returned ([Size]) is
    the number of bytes that hold the records written so far. *)
Theorem logwriter_offset `{C : AEAD} `{CL : !AEADLaws C} `{EW : EdgWriter W}
    `{LS : !LogSink W} `{SL : !LogSinkLaws W} rtk key sink pool es (s : state W) :
  aes_key_ok key = true -> reaches rtk key sink pool es s -> cp s = CIdle ->
  exists cs m q, LogSize (lw s) = Z.of_nat (length (g_stream s)) /\
    stream key 0 0 cs (g_stream s) m q /\ recs_chunks cs (g_recs s) /\
    contents (lw_w (lw s)) `prefix_of` g_stream s.
Proof.
  intros Hkey Hr Hcp. destruct (reaches_Inv rtk key Hkey _ _ _ _ Hr) as [Hc Hd _ _ _ _].
  rewrite Hcp in Hc. destruct Hc as [_ Hsize (cs & Hs & Hcs) _ _].
  exists cs, (lw_chunkNum (lw s)), (b_written (lw_block (lw s))).
  split_and!; [by rewrite Hsize|done|done|apply Hd].
Qed.

(** The bound on the length of records is needed: [emitFragment] compares the
    room in the block with the record's length as a 32-bit signed number.  A
    record of 2GiB or more (a batch may have almost 4GiB) is taken for one that
    fits: its first fragment is sealed as if it were the whole record, and that is
    what a reader of the log returns. *)
Theorem logwriter_long_record `{C : AEAD} `{CL : !AEADLaws C} `{EW : EdgWriter W}
    `{LS : !LogSink W} rtk key (sink : W) pool p :
  aes_key_ok key = true -> length pool = blockSize ->
  (2 ^ 31 <= Z.of_nat (length p) < 2 ^ 32)%Z ->
  exists w rest, fillFragment rtk (NewLogWriter sink key pool) 0 p = Ret (w, rest) /\
    rest <> [] /\
    let log := slice (b_buf (lw_block w)) 0 (b_written (lw_block w)) in
    forall tl logNum k fuel, (0 < k)%nat -> (2 * length (log ++ tl) + 5 <= fuel)%nat ->
      exists l e, ReadRecords rtk fuel (NewReader (log ++ tl) logNum key) k = Some (l, e) /\
        [take (blockSize - legacyHeaderSize) p] `prefix_of` l.
Proof.
  intros Hkey Hpool Hp. pose proof blockSize_Z as HB.
  destruct (fillFragment_spec rtk key Hkey (NewLogWriter sink key pool) 0 p) as (rest & Hfill & Hrest).
  { done. } { split; [done|simpl; lia]. } { unfold legacyHeaderSize. simpl. lia. }
  unfold NewLogWriter, pool_block in *. states. rewrite Nat.add_0_l in Hfill, Hrest.
  assert (is_last 0 p = true) as Hlast.
  { apply Z.leb_le. unfold i32, legacyHeaderSize.
    replace (Z.of_nat (length p) + 2 ^ 31)%Z with ((Z.of_nat (length p) - 2 ^ 31) + 1 * 2 ^ 32)%Z by lia.
    rewrite Z.mod_add, Z.mod_small by lia. lia. }
  rewrite Hlast in Hfill. change (chunk_type (0 =? 0)%nat true) with fullChunkType in Hfill.
  set (d := take _ p) in *.
  assert (length d = blockSize - legacyHeaderSize)%nat as Hd.
  { unfold d, legacyHeaderSize. rewrite length_take. lia. }
  eexists _, _. split; [exact Hfill|]. split.
  { intros E. apply (f_equal length) in E. rewrite length_drop in E. unfold legacyHeaderSize in *.
    simpl in E. lia. }
  states. intros tl logNum k fuel Hk Hfuel. set (log := slice _ 0 _) in *.
  assert (log = enc_chunk key (u64 (0 + 1)) fullChunkType d) as Elog.
  { unfold log. rewrite take_0, app_nil_l, slice_app_l, drop_0; [reflexivity|].
    rewrite length_enc_chunk. reflexivity. }
  assert (stream key 0 0 [(fullChunkType, d)] log (u64 (0 + 1)) (0 + legacyHeaderSize + length d)) as Hs.
  { rewrite Elog, <- (app_nil_r (enc_chunk _ _ _ _)). apply stream_chunk; [|apply stream_nil].
    rewrite Hd. unfold legacyHeaderSize. lia. }
  eapply (stream_read rtk key Hkey tl log); [exact Hs| |done|done|done].
  apply (rcs_cons [_] d [] []); [apply (rc_last true)|constructor].
Qed.
