(* ===== verification/LogWriterLive.v ===== *)
(** [Close] returns: once the log is being closed, the flush loop ends after a
    bounded number of its steps. *)
From S2P Require Import Prelude.
From S2P Require Import Crypto.
From S2P Require Import Record.
From S2P Require Import SyncQueue.
From S2P Require Import LogWriter.
From S2P Require Import LogWriterFacts.
From S2P Require Import LogWriterSpec.

#[local] Arguments flushPending : simpl never.
#[local] Arguments load : simpl never.
#[local] Arguments empty : simpl never.

Section live.
Context `{C : AEAD} `{CL : !AEADLaws C} `{EW : EdgWriter W} `{LS : !LogSink W}.
Context `{SL : !LogSinkLaws W} (rtk key : bytes) (Hkey : aes_key_ok key = true).
Context (throttle : bool).
Implicit Types s : state W.

(** [n] steps of the flusher alone. *)
Definition goes (n : nat) s s' : Prop := run rtk (replicate n (EFlusher throttle)) s = Some s'.

Lemma goes_step s s' : flusher_step throttle s = Some s' -> goes 1 s s'.
Proof. intros H. unfold goes. simpl. by rewrite H. Qed.

Lemma goes_trans n m s s1 s2 : goes n s s1 -> goes m s1 s2 -> goes (n + m) s s2.
Proof.
  unfold goes. revert s. induction n as [|n IH]; intros s; simpl; [by intros [= ->]|].
  destruct (flusher_step throttle s); [apply IH|done].
Qed.

Lemma goes_Inv n s s' : Inv key s -> goes n s s' -> g_wait s' = g_wait s ->
  (Z.of_nat (length (g_wait s)) < 2 ^ 32)%Z -> Inv key s'.
Proof.
  intros Hi Hg Hw Hb. eapply (Inv_run rtk key Hkey); [exact Hi| |exact Hg|by rewrite Hw].
  apply Forall_forall. intros e He. apply elem_of_replicate in He as [-> _]. done.
Qed.

(** Nothing to write; nobody to release. *)
Definition quiet s : Prop :=
  lw_pending (lw s) = [] /\ b_flushed (lw_block (lw s)) = b_written (lw_block (lw s)).
Definition drained s : Prop := empty (clearBlocked (lw_syncQ (lw s))) = true.

Lemma empty_clear q f c sm n t l :
  QueueInv q f c sm n t l -> empty (clearBlocked q) = bool_decide (l = []).
Proof.
  intros [H1 _ _ _ _ _]. unfold empty, load. change (headTail (clearBlocked q)) with (headTail q).
  rewrite (Rep_unpack _ _ _ H1). change (blocked (clearBlocked q)) with false. cbv iota.
  destruct l as [|x l].
  - simpl. by rewrite Z.add_0_r, Z.eqb_refl.
  - rewrite bool_decide_eq_false_2 by done. apply Z.eqb_neq. simpl. lia.
Qed.

(** Everyone queued when the waiters were read has been released. *)
Lemma all_released q f c sm n t l head tail len q' f' sm' t' l' :
  QueueInv q f c sm n t l -> blocked q = false -> load q = (head, tail, len) ->
  QueueInv q' f' c sm' n t' l' -> t' = (if (head =? tail)%Z then t else head) ->
  empty (clearBlocked q') = true.
Proof.
  intros Hq Hb Hload Hq' Ht. rewrite (empty_clear _ _ _ _ _ _ _ Hq'). apply bool_decide_eq_true.
  unfold load in Hload. rewrite (Rep_unpack _ _ _ (qi_rep _ _ _ _ _ _ _ Hq)), Hb in Hload.
  injection Hload as <- <- _.
  destruct Hq as [_ _ Hc _ _ _], Hq' as [_ _ Hc' _ _ _].
  apply length_zero_iff_nil. destruct (Z.eqb_spec (t + Z.of_nat (length l)) t); lia.
Qed.

(** The rest of a round of the flush loop: from the point where it has taken the
    pending blocks back to the top. *)
Lemma round_end s P :
  Inv key s -> fp s = FGrabbed P ->
  exists n s', (n <= 4)%nat /\ goes n s s' /\ fp s' = FCheck /\ quiet s' /\
    lw_close (lw s') = lw_close (lw s) /\ g_wait s' = g_wait s /\
    (blocked (lw_syncQ (lw s)) = false -> drained s').
Proof.
  destruct s as [[fw bn er [i fl buf] free cl ferr pend q k cn] f c nt ar fi sm dn gs gr gw].
  intros [_ Hd (t & l & Hq) _ _ _] Hf. unfold drained, quiet in *. states. subst f.
  destruct (QueueInv_load _ _ _ _ _ _ _ Hq) as (head & tail & len & Hload & Hq').
  pose proof (di_grab _ _ _ _ _ _ _ Hd) as Hp. simpl in Hp. subst pend.
  set (w1 := mkLogWriter fw bn er (mkBlock i i buf) free cl ferr [] q k cn).
  assert (goes 1 (mkState (mkLogWriter fw bn er (mkBlock i fl buf) free cl ferr [] q k cn)
      (FGrabbed P) c nt ar fi sm dn gs gr gw)
    (mkState (mkLogWriter fw bn er (mkBlock i fl buf) free cl ferr [] q k cn)
      (FLoaded P head tail) c nt ar fi sm dn gs gr gw)) as G1.
  { apply goes_step. unfold flusher_step. states. by rewrite Hload. }
  destruct ferr as [e|].
  - destruct (QueueInv_pop q _ FCheck c sm _ t l head tail (Some e) Hq' eq_refl eq_refl)
      as (q' & rel & t' & l' & Hpop & Hq2 & Hb & Ht & _).
    eexists 2%nat, _. split; [lia|]. split.
    { eapply (goes_trans 1 1); [exact G1|]. apply goes_step. unfold flusher_step. states.
      rewrite Hpop. reflexivity. }
    states. split_and!; try done. intros Hbl. eapply all_released; [exact Hq|done|exact Hload|exact Hq2|exact Ht].
  - set (data := slice buf fl i).
    destruct (flushPending w1 data P head tail) as [[[w' rel] synced] err] eqn:Hfp.
    assert (Forall (fun b => length (b_buf b) = blockSize) P) as HP.
    { apply (di_pend _ _ _ _ _ _ _ Hd). }
    destruct (flushPending_spec w1 data P head tail _ _ _ _ c sm (length gw) t l Hfp HP)
      as (fw' & fl' & q' & t' & l' & -> & Hq2 & Ht & Hb & _).
    { destruct Hq'. by split. }
    assert (goes 3 (mkState (mkLogWriter fw bn er (mkBlock i fl buf) free cl None [] q k cn)
        (FGrabbed P) c nt ar fi sm dn gs gr gw)
      (mkState (mkLogWriter fw' bn er (mkBlock i i buf) (free ++ fl') cl None [] q' k cn)
        (FFlushed synced err) c nt ar fi (sm - Z.of_nat (length rel))%Z (dn ++ rel) gs gr gw)) as G3.
    { eapply (goes_trans 1 2); [exact G1|]. eapply (goes_trans 1 1).
      - apply goes_step. unfold flusher_step. states. reflexivity.
      - apply goes_step. unfold flusher_step. states. fold data. fold w1. rewrite Hfp. reflexivity. }
    assert (exists b' ar', goes 4
      (mkState (mkLogWriter fw bn er (mkBlock i fl buf) free cl None [] q k cn)
        (FGrabbed P) c nt ar fi sm dn gs gr gw)
      (mkState (mkLogWriter fw' bn er (mkBlock i i buf) (free ++ fl') cl err []
          (q' <| blocked := b' |>) k cn)
        FCheck c nt ar' fi (sm - Z.of_nat (length rel))%Z (dn ++ rel) gs gr gw))
      as (b' & ar' & G4).
    { destruct err as [e|]; [|destruct (synced && throttle) eqn:Est].
      - exists false, ar. eapply (goes_trans 3 1); [exact G3|]. apply goes_step.
        unfold flusher_step. states. reflexivity.
      - exists true, true. eapply (goes_trans 3 1); [exact G3|]. apply goes_step.
        unfold flusher_step. states. rewrite Est. reflexivity.
      - exists (blocked q'), ar. eapply (goes_trans 3 1); [exact G3|]. apply goes_step.
        unfold flusher_step. states. rewrite Est. by destruct q'. }
    eexists 4%nat, _. split; [lia|]. split; [exact G4|]. states. split_and!; try done.
    intros Hbl. change (empty (clearBlocked q') = true).
    eapply all_released; [exact Hq|done|exact Hload|exact Hq2|exact Ht].
Qed.

(** One round: it ends the loop, or leaves nothing to write; and a round that
    began with nothing to write leaves nobody to release. *)
Lemma round s :
  Inv key s -> fp s = FCheck -> lw_close (lw s) = true ->
  (Z.of_nat (length (g_wait s)) < 2 ^ 32)%Z ->
  exists n s', (n <= 5)%nat /\ goes n s s' /\
    (fp s' = FDone \/
     fp s' = FCheck /\ Inv key s' /\ quiet s' /\ lw_close (lw s') = true /\
       g_wait s' = g_wait s /\ ~ (quiet s /\ drained s) /\ (quiet s -> drained s')).
Proof.
  intros Hi Hf Hcl Hgw.
  assert (forall s1 P, flusher_step throttle s = Some s1 -> fp s1 = FGrabbed P ->
    lw_close (lw s1) = true -> g_wait s1 = g_wait s -> ~ (quiet s /\ drained s) ->
    (quiet s -> blocked (lw_syncQ (lw s1)) = false) ->
    exists n s', (n <= 5)%nat /\ goes n s s' /\
    (fp s' = FDone \/
     fp s' = FCheck /\ Inv key s' /\ quiet s' /\ lw_close (lw s') = true /\
       g_wait s' = g_wait s /\ ~ (quiet s /\ drained s) /\ (quiet s -> drained s'))) as Hgo.
  { intros s1 P Hs1 Hf1 Hcl1 Hgw1 Hnq Hbl.
    assert (Inv key s1) as Hi1.
    { eapply goes_Inv; [exact Hi|by apply goes_step|done|done]. }
    destruct (round_end s1 P Hi1 Hf1) as (n & s' & Hn & Hg & Hf' & Hq' & Hcl' & Hgw' & Hdr).
    exists (1 + n)%nat, s'. split; [lia|].
    assert (goes (1 + n) s s') as Hg' by (eapply goes_trans; [by apply goes_step|done]).
    split; [done|]. right. split_and!; [done| |done|congruence|congruence|done|by auto].
    eapply goes_Inv; [exact Hi|exact Hg'|congruence|done]. }
  destruct (flusher_step throttle s) as [s1|] eqn:Hs; cycle 1.
  { exfalso. unfold flusher_step in Hs. rewrite Hf in Hs.
    destruct (_ || _); [done|]. rewrite Hcl in Hs. by destruct (negb _). }
  pose proof Hs as Hstep. destruct (inv_queue _ _ Hi) as (t & l & Hq).
  destruct s as [[fw bn er [i fl buf] free cl ferr pend q k cn] f c nt ar fi sm dn gs gr gw].
  unfold quiet, drained in *. states. subst. unfold flusher_step in Hs. states.
  destruct (bool_decide (pend <> [])) eqn:Hp; cbn [orb] in Hs.
  { apply bool_decide_eq_true in Hp. injection Hs as <-.
    eapply Hgo; [reflexivity|reflexivity|done|done|by intros [[? _] _]|by intros [? _]]. }
  destruct (Nat.ltb_spec fl i) as [Hw|Hw]; cbn [orb] in Hs.
  { injection Hs as <-.
    eapply Hgo; [reflexivity|reflexivity|done|done|intros [[_ ?] _]; lia|intros [_ ?]; lia]. }
  destruct (empty q) eqn:Hemp; cbn [negb] in Hs; cycle 1.
  { injection Hs as <-. assert (blocked q = false) as Hb.
    { destruct (blocked q) eqn:Hb; [|done]. by rewrite (blocked_empty _ Hb) in Hemp. }
    eapply Hgo; [reflexivity|reflexivity|done|done| |done].
    intros [_ Hd]. rewrite clearBlocked_id in Hd by done. congruence. }
  destruct (empty (clearBlocked q)) eqn:Hd; cbn [negb] in Hs; injection Hs as <-.
  - eexists 1%nat, _. split; [lia|]. split; [by apply goes_step|]. by left.
  - eapply Hgo; [reflexivity|reflexivity|done|done|by intros [_ ?]|done].
Qed.

(** Three rounds are enough. *)
Lemma rounds s :
  Inv key s -> fp s = FCheck -> lw_close (lw s) = true ->
  (Z.of_nat (length (g_wait s)) < 2 ^ 32)%Z ->
  exists n s', (n <= 15)%nat /\ goes n s s' /\ fp s' = FDone.
Proof.
  intros Hi Hf Hcl Hgw.
  destruct (round s Hi Hf Hcl Hgw) as (n1 & s1 & Hn1 & G1 & [?|(Hf1 & Hi1 & Hq1 & Hcl1 & Hgw1 & _)]);
    [exists n1, s1; split_and!; [lia|done|done]|].
  destruct (round s1 Hi1 Hf1 Hcl1) as (n2 & s2 & Hn2 & G2 & H2); [congruence|].
  pose proof (goes_trans _ _ _ _ _ G1 G2) as G12.
  destruct H2 as [?|(Hf2 & Hi2 & Hq2 & Hcl2 & Hgw2 & _ & Hd2)];
    [exists (n1 + n2)%nat, s2; split_and!; [lia|done|done]|].
  destruct (round s2 Hi2 Hf2 Hcl2) as (n3 & s3 & Hn3 & G3 & H3); [congruence|].
  pose proof (goes_trans _ _ _ _ _ G12 G3) as G123.
  destruct H3 as [?|(_ & _ & _ & _ & _ & Hno & _)];
    [exists (n1 + n2 + n3)%nat, s3; split_and!; [lia|done|done]|].
  destruct Hno. split; [done|by apply Hd2].
Qed.

(** How far the flusher is from the top of its loop. *)
Definition rank (f : fphase) : nat :=
  match f with
  | FCheck | FDone => 0
  | FBlocked | FFlushed _ _ => 1
  | FUnlocked | FFlush _ _ _ _ => 2
  | FUnlock | FLoaded _ _ _ => 3
  | FAdd | FGrabbed _ => 4
  end.

Lemma step_down s :
  Inv key s -> lw_close (lw s) = true -> fp s <> FCheck -> fp s <> FDone ->
  exists s', flusher_step throttle s = Some s' /\ (rank (fp s') < rank (fp s))%nat /\
    fp s' <> FDone /\ lw_close (lw s') = true /\ g_wait s' = g_wait s.
Proof.
  destruct s as [[fw bn er [i fl buf] free cl ferr pend q k cn] f c nt ar fi sm dn gs gr gw].
  intros [_ Hd (t & l & Hq) _ _ [Hlk _ _]] Hcl Hc Hdn. unfold flusher_step. states. subst cl.
  destruct f; try done; states.
  - destruct (Hlk (or_introl eq_refl)). done.
  - eexists. split_and!; [reflexivity|simpl; lia|done|done|done].
  - destruct (empty q); cbn [negb]; (eexists; split_and!; [reflexivity|simpl; lia|done|done|done]).
  - destruct nt; [eexists; split_and!; [reflexivity|simpl; lia|done|done|done]|].
    destruct Hlk; [by right|done].
  - destruct (load q) as [[head tail] len].
    eexists; split_and!; [reflexivity|simpl; lia|done|done|done].
  - destruct ferr; [destruct (pop _ _ _ _) as [[q' rel] e']|];
      (eexists; split_and!; [reflexivity|simpl; lia|done|done|done]).
  - destruct (flushPending _ _ _ _ _) as [[[w' rel] synced] err] eqn:Hfp.
    pose proof (di_pend _ _ _ _ _ _ _ Hd) as HP. apply Forall_app in HP as [_ HP].
    destruct (flushPending_spec _ _ _ _ _ _ _ _ _ _ _ _ _ _ Hfp HP Hq)
      as (fw' & fl' & q' & t' & l' & -> & _).
    states. eexists; split_and!; [reflexivity|simpl; lia|done|done|done].
  - destruct err; [|destruct (_ && _)];
      (eexists; split_and!; [reflexivity|simpl; lia|done|done|done]).
Qed.

(** From anywhere in the loop back to its top. *)
Lemma to_top r s :
  (rank (fp s) <= r)%nat -> Inv key s -> lw_close (lw s) = true -> fp s <> FDone ->
  (Z.of_nat (length (g_wait s)) < 2 ^ 32)%Z ->
  exists n s', (n <= r)%nat /\ goes n s s' /\ fp s' = FCheck /\ Inv key s' /\
    lw_close (lw s') = true /\ g_wait s' = g_wait s.
Proof.
  revert s. induction r as [|r IH]; intros s Hr Hi Hcl Hd Hgw.
  { exists 0%nat, s. split_and!; try done. by destruct (fp s); simpl in *; try lia. }
  destruct (decide (rank (fp s) = 0)%nat) as [Hz|Hz].
  { exists 0%nat, s. split_and!; try done; [lia|]. by destruct (fp s). }
  destruct (step_down s) as (s1 & Hs & Hlt & Hd1 & Hcl1 & Hgw1);
    [done|done|by intros E; rewrite E in Hz|done|].
  assert (Inv key s1) as Hi1.
  { eapply goes_Inv; [exact Hi|by apply goes_step|done|done]. }
  destruct (IH s1) as (n & s' & Hn & G & ? & ? & ? & ?);
    [lia|done|done|done|by rewrite Hgw1|].
  exists (1 + n)%nat, s'. split_and!; [lia| |done|done|done|congruence].
  eapply goes_trans; [by apply goes_step|done].
Qed.

Lemma flush_loop_ends s :
  Inv key s -> lw_close (lw s) = true -> (Z.of_nat (length (g_wait s)) < 2 ^ 32)%Z ->
  exists n s', (n <= 19)%nat /\ goes n s s' /\ fp s' = FDone.
Proof.
  intros Hi Hcl Hgw. destruct (decide (rank (fp s) = 0 /\ locked (fp s) = false)%nat) as [[Hr Hl]|Hne].
  { exists 0%nat, s. split_and!; [lia|done|]. by destruct (fp s). }
  destruct (to_top 4 s) as (n & s1 & Hn & G & Hf1 & Hi1 & Hcl1 & Hgw1);
    [by destruct (fp s); simpl; lia|done|done|by intros E; rewrite E in Hne; apply Hne|done|].
  destruct (rounds s1 Hi1 Hf1 Hcl1) as (m & s2 & Hm & G2 & Hf2); [by rewrite Hgw1|].
  exists (n + m)%nat, s2. split_and!; [lia|by eapply goes_trans|done].
Qed.
End live.

(** C9. Closing ends: once a client has called [Close] and waits for the flush
    loop, the loop ends after at most 19 of its steps (three rounds), however
    much is pending and whether or not writes fail, and [Close] then returns. *)
Theorem logwriter_close_returns `{C : AEAD} `{CL : !AEADLaws C} `{EW : EdgWriter W}
    `{LS : !LogSink W} `{SL : !LogSinkLaws W} rtk key sink pool es (s : state W) throttle :
  aes_key_ok key = true -> reaches rtk key sink pool es s -> cp s = CCloseWait ->
  exists n s' err, (n <= 19)%nat /\
    run rtk (replicate n (EFlusher throttle) ++ [EClient pool]) s = Some s' /\
    cp s' = CClosed err.
Proof.
  intros Hkey Hr Hcp. pose proof (reaches_Inv rtk key Hkey _ _ _ _ Hr) as Hi.
  pose proof (cl_wait _ _ _ _ _ (inv_close _ _ Hi) Hcp) as Hcl.
  destruct Hr as (_ & _ & _ & _ & Hgw).
  destruct (flush_loop_ends rtk key Hkey throttle s Hi Hcl Hgw) as (n & s1 & Hn & G & Hf).
  destruct (finishClose (lw s1)) as [w err] eqn:E.
  exists n, (s1 <| lw := w |> <| cp := CClosed err |>), err. split_and!; [done| |done].
  rewrite run_app. unfold goes in G. rewrite G. simpl. unfold client_step.
  rewrite (run_flusher_client rtk _ _ _ _ G), Hcp, Hf, E. done.
Qed.
