(* ===== verification/LogWriterExamples.v ===== *)
(** Executions of the log writer on a concrete disk, at which the theorems on it
    apply. *)
From S2P Require Import Prelude.
From S2P Require Import Crypto.
From S2P Require Import Record.
From S2P Require Import RecordFormat.
From S2P Require Import SyncQueue.
From S2P Require Import LogWriter.
From S2P Require Import LogWriterFacts.
From S2P Require Import LogWriterSpec.
From S2P Require Import LogWriterLive.
Import Toy.

(** A disk of [d_cap] bytes that remembers how much of the file is synced. *)
Record disk := mkDisk { d_data : bytes; d_synced : nat; d_cap : nat }.
#[export] Instance disk_settable : Settable disk := fun d =>
  mkDisk (d_data d) (d_synced d) (d_cap d).

#[export] Instance disk_writer : EdgWriter disk := {
  WriteApproved d p :=
    if (length (d_data d) + length p <=? d_cap d)%nat then (d <| d_data := d_data d ++ p |>, None)
    else (d <| d_data := d_data d ++ take (d_cap d - length (d_data d)) p |>,
          Some (New "no space left on device"));
  Flusher := None;
  SeekCurrent := None;
}.
#[export] Instance disk_sink : LogSink disk := {
  Sync := Some (fun d => (d <| d_synced := length (d_data d) |>, None));
  CloseFile := Some (fun d => (d, None));
}.

Lemma take_prefix_app (n : nat) (l k : bytes) : take n l `prefix_of` take n (l ++ k).
Proof. rewrite take_app. by apply prefix_app_r. Qed.

#[export] Instance disk_laws : LogSinkLaws disk.
Proof.
  refine {|
    contents := d_data;
    durable d := take (d_synced d) (d_data d);
    sync d := (d <| d_synced := length (d_data d) |>, None);
  |}.
  - intros d. apply prefix_take.
  - intros d p d'. simpl. destruct (_ <=? _)%nat; by intros [= <-].
  - intros d p d' e. simpl. destruct (_ <=? _)%nat; intros [= <- <-]. simpl. eauto.
  - intros d p d' e. simpl. destruct (_ <=? _)%nat; intros [= <- <-]; apply take_prefix_app.
  - done.
  - intros d d' [= <-]. simpl. apply firstn_all.
  - by intros d d' e [= <- <-].
  - intros d d' e [= <- <-]. simpl. rewrite firstn_all. apply prefix_take.
  - by intros close d d' e [= <-] [= <- <-].
Defined.

Definition ex_key : bytes := replicate 16 (z2b 7).
Definition ex_pool : bytes := replicate blockSize (z2b 0).
Definition ex_disk : disk := mkDisk [] 0 64.

Definition ex_run (es : list event) : option (state disk) :=
  run [] es (init ex_disk ex_key ex_pool).

(** The flusher goes to sleep; a client writes a record and asks for a sync; the
    flusher wakes up, writes and syncs it; the client closes the log. *)
Definition ex_sleep : list event := replicate 4 (EFlusher false).
Definition ex_write : list event :=
  ESyncRecord [z2b 1; z2b 2; z2b 3] true :: replicate 3 (EClient ex_pool).
Definition ex_flush : list event := replicate 6 (EFlusher false).
Definition ex_closing : list event := ex_sleep ++ EClose :: replicate 1 (EClient ex_pool).
Definition ex_closed : list event := replicate 2 (EFlusher false) ++ [EClient ex_pool].

Lemma ex_client_ok n : Forall event_ok (replicate n (EClient ex_pool)).
Proof. apply Forall_replicate. apply length_replicate. Qed.
Lemma ex_flusher_ok n : Forall event_ok (replicate n (EFlusher false)).
Proof. by apply Forall_replicate. Qed.
Lemma ex_write_ok : Forall event_ok ex_write.
Proof. apply Forall_cons. split; [by simpl; lia|]. apply ex_client_ok. Qed.
Lemma ex_closing_ok : Forall event_ok ex_closing.
Proof.
  apply Forall_app. split; [apply ex_flusher_ok|].
  apply Forall_cons. split; [done|]. apply ex_client_ok.
Qed.
Lemma ex_closed_ok : Forall event_ok ex_closed.
Proof. apply Forall_app. split; [apply ex_flusher_ok|apply (ex_client_ok 1)]. Qed.

Definition ex_check (es : list event) (chk : state disk -> bool) : bool :=
  match run [] es (init ex_disk ex_key ex_pool) with
  | Some s => (length (g_wait s) <=? 1)%nat && chk s
  | None => false
  end.

Lemma ex_reaches es chk :
  Forall event_ok es -> ex_check es chk = true ->
  exists s, reaches [] ex_key ex_disk ex_pool es s /\ chk s = true.
Proof.
  unfold ex_check. intros Hes Hchk.
  destruct (run [] es (init ex_disk ex_key ex_pool)) as [s|] eqn:E; [|done].
  apply andb_true_iff in Hchk as [Hw Hc]. apply Nat.leb_le in Hw.
  exists s. split; [|done]. split_and!; [done|apply length_replicate|done|done|lia].
Qed.

Definition chk_released (s : state disk) : bool :=
  match done s with [(0%nat, None)] => true | _ => false end.
Definition chk_blocked (s : state disk) : bool :=
  match fp s with FBlocked => negb (notified s) | _ => false end.
Definition chk_idle (s : state disk) : bool :=
  match cp s with CIdle => true | _ => false end.
Definition chk_waiting (s : state disk) : bool :=
  match cp s with CCloseWait => true | _ => false end.
Definition chk_closed (s : state disk) : bool :=
  match cp s with CClosed None => true | _ => false end.

Lemma ex_released : ex_check (ex_sleep ++ ex_write ++ ex_flush) chk_released = true.
Proof. vm_compute. reflexivity. Qed.
Lemma ex_blocked : ex_check ex_sleep chk_blocked = true.
Proof. vm_compute. reflexivity. Qed.
Lemma ex_idle : ex_check (ex_sleep ++ ex_write) chk_idle = true.
Proof. vm_compute. reflexivity. Qed.
Lemma ex_waiting : ex_check (ex_sleep ++ ex_write ++ ex_flush ++ ex_closing) chk_waiting = true.
Proof. vm_compute. reflexivity. Qed.
Lemma ex_all_closed :
  ex_check (ex_sleep ++ ex_write ++ ex_flush ++ ex_closing ++ ex_closed) chk_closed = true.
Proof. vm_compute. reflexivity. Qed.

Lemma ex_ok_write : Forall event_ok (ex_sleep ++ ex_write).
Proof. apply Forall_app. split; [apply ex_flusher_ok|apply ex_write_ok]. Qed.
Lemma ex_ok_flush : Forall event_ok (ex_sleep ++ ex_write ++ ex_flush).
Proof. rewrite app_assoc. apply Forall_app. split; [apply ex_ok_write|apply ex_flusher_ok]. Qed.
Lemma ex_ok_closing : Forall event_ok (ex_sleep ++ ex_write ++ ex_flush ++ ex_closing).
Proof.
  do 2 rewrite app_assoc. apply Forall_app. split; [|apply ex_closing_ok].
  rewrite <- app_assoc. apply ex_ok_flush.
Qed.
Lemma ex_ok_closed : Forall event_ok (ex_sleep ++ ex_write ++ ex_flush ++ ex_closing ++ ex_closed).
Proof.
  do 3 rewrite app_assoc. apply Forall_app. split; [|apply ex_closed_ok].
  rewrite <- !app_assoc. apply ex_ok_closing.
Qed.

Lemma logwriter_durable_witness :
  exists (s : state disk) n S l e, (0%nat, None) ∈ done s /\ g_wait s !! 0%nat = Some (n, S) /\
    ReadRecords [] (2 * length (durable (lw_w (lw s))) + 5)
      (NewReader (durable (lw_w (lw s))) 0 ex_key) 7 = Some (l, e) /\
    take n (g_recs s) `prefix_of` l.
Proof.
  destruct (ex_reaches _ _ ex_ok_flush ex_released) as (s & Hr & Hc).
  assert ((0%nat, None) ∈ done s) as Hin.
  { unfold chk_released in Hc.
    destruct (done s) as [|[[|?] [?|]] [|? ?]]; try done. apply list_elem_of_here. }
  destruct (logwriter_durable [] ex_key ex_disk ex_pool _ s 0 (durable (lw_w (lw s))) 0 7
    (2 * length (durable (lw_w (lw s))) + 5) eq_refl Hr Hin) as (n & S & l & e & H);
    [reflexivity|lia|lia|].
  exists s, n, S, l, e. done.
Defined.

Lemma logwriter_close_witness :
  exists s : state disk, cp s = CClosed None /\
    ReadRecords [] (length (durable (lw_w (lw s))) + 5)
      (NewReader (durable (lw_w (lw s))) 0 ex_key) 7 = Some (g_recs s, EOF).
Proof.
  destruct (ex_reaches _ _ ex_ok_closed ex_all_closed) as (s & Hr & Hc).
  assert (cp s = CClosed None) as Hcp.
  { unfold chk_closed in Hc. by destruct (cp s) as [| | | | | | |[?|]|]. }
  exists s. split; [done|].
  apply (logwriter_close [] ex_key ex_disk ex_pool _ s 0 7 _ eq_refl Hr Hcp); lia.
Defined.

Lemma logwriter_no_panic_witness :
  exists s : state disk, cp s = CIdle /\ cp s <> CPanic "pebble: queue is full".
Proof.
  destruct (ex_reaches _ _ ex_ok_write ex_idle) as (s & Hr & Hc).
  exists s. split; [unfold chk_idle in Hc; by destruct (cp s)|].
  apply (logwriter_no_panic [] ex_key ex_disk ex_pool _ s _ eq_refl Hr).
Defined.

Lemma logwriter_no_lost_wakeup_witness :
  exists s : state disk, fp s = FBlocked /\ lw_pending (lw s) = [].
Proof.
  destruct (ex_reaches _ _ (ex_flusher_ok 4) ex_blocked) as (s & Hr & Hc).
  assert (fp s = FBlocked /\ notified s = false) as [Hf Hn].
  { unfold chk_blocked in Hc. destruct (fp s); try done. by destruct (notified s). }
  exists s. split; [done|].
  apply (logwriter_no_lost_wakeup [] ex_key ex_disk ex_pool _ s eq_refl Hr Hf Hn).
Defined.

Lemma logwriter_offset_witness :
  exists s : state disk, cp s = CIdle /\ LogSize (lw s) = Z.of_nat (length (g_stream s)).
Proof.
  destruct (ex_reaches _ _ ex_ok_write ex_idle) as (s & Hr & Hc).
  assert (cp s = CIdle) as Hcp by (unfold chk_idle in Hc; by destruct (cp s)).
  exists s. split; [done|].
  destruct (logwriter_offset [] ex_key ex_disk ex_pool _ s eq_refl Hr Hcp) as (cs & m & q & H & _).
  exact H.
Defined.

Lemma logwriter_close_returns_witness :
  exists s s' : state disk, cp s = CCloseWait /\ exists err, cp s' = CClosed err.
Proof.
  destruct (ex_reaches _ _ ex_ok_closing ex_waiting) as (s & Hr & Hc).
  assert (cp s = CCloseWait) as Hcp by (unfold chk_waiting in Hc; by destruct (cp s)).
  destruct (logwriter_close_returns [] ex_key ex_disk ex_pool _ s true eq_refl Hr Hcp)
    as (n & s' & err & _ & _ & H).
  exists s, s'. eauto.
Defined.

Lemma logwriter_long_record_witness :
  exists p w rest,
    fillFragment [] (NewLogWriter ex_disk ex_key ex_pool) 0 p = Ret (w, rest) /\ rest <> [].
Proof.
  destruct (logwriter_long_record [] ex_key ex_disk ex_pool (replicate (Z.to_nat (2 ^ 31)) (z2b 0)))
    as (w & rest & H1 & H2 & _).
  - reflexivity.
  - apply length_replicate.
  - rewrite length_replicate, Z2Nat.id; lia.
  - eauto.
Defined.
