(* ===== verification/KeyManager.v ===== *)
(** The key manager (src/internal/edg/key.go) and the encryption of the OPTIONS
    file (src/internal/edg/edg.go).  File keys are derived from the master key and
    a salt per file; the salts are kept in the SALTCHAIN file, whose blocks are
    linked by HMACs. *)
From S2P Require Import Prelude.
From S2P Require Import Crypto.
From S2P Require Import Record.

Definition minKeySize : nat := 16.
Definition fileNumSize : nat := 8.
Definition saltSize : nat := 16.
Definition macSize : nat := sha256_Size.
Definition saltBlockSize : nat := fileNumSize + saltSize + macSize.

(** What the key manager needs of a [vfs.File]. *)
Class VfsFile (F : Type) := {
  file_reader :: IoReader F;
  file_writer :: EdgWriter F;
  FileSync : F -> F * option error;
}.

(** ** Salt blocks *)
Record saltBlock := mkSaltBlock {
  sb_fileNum : Z;
  sb_salt : bytes;
  sb_mac : bytes;
}.

Definition MarshalBinary (b : saltBlock) : bytes :=
  PutUint64 (sb_fileNum b) ++ sb_salt b ++ sb_mac b.

Definition UnmarshalBinary (data : bytes) : result saltBlock :=
  if negb (length data =? saltBlockSize)%nat then Err (New "invalid salt block size")
  else Ok (mkSaltBlock (Uint64 data) (slice data fileNumSize (fileNumSize + saltSize))
             (drop (fileNumSize + saltSize) data)).

(** [masterKey] may be nil, which tests use; [len(nil)] is 0. *)
Record KeyManager (F : Type) := mkKeyManager {
  km_masterKey : option bytes;
  km_saltFile : F;
  km_salts : gmap Z bytes;
  km_lastMAC : bytes;
}.
Arguments mkKeyManager {F}. Arguments km_masterKey {F}. Arguments km_saltFile {F}.
Arguments km_salts {F}. Arguments km_lastMAC {F}.
#[export] Instance keymanager_settable F : Settable (KeyManager F) := fun m =>
  mkKeyManager (km_masterKey m) (km_saltFile m) (km_salts m) (km_lastMAC m).

Section keys.
Context `{M : MAC} `{C : AEAD} `{VF : VfsFile F} (randomTestKey : bytes).
Implicit Types m : KeyManager F.

Definition key_bytes m : bytes := default [] (km_masterKey m).

(** [hmac(fileNum, salt, previousMAC)]. *)
Definition km_hmac m (fileNum : Z) (salt previousMAC : bytes) : bytes :=
  hmac_sha256 (key_bytes m) (PutUint64 fileNum ++ salt ++ previousMAC).

Definition derive m (salt : bytes) : result bytes :=
  hkdf (key_bytes m) salt (length (key_bytes m)).

Definition is_nil (masterKey : option bytes) : bool :=
  match masterKey with None => true | Some _ => false end.

(** The loop of [NewKeyManager]; [None] if [fuel] blocks were not enough. *)
Fixpoint readChain (fuel : nat) m : option (result (KeyManager F)) :=
  match fuel with
  | O => None
  | S fuel =>
      match ReadFull (km_saltFile m) saltBlockSize with
      | (f, _, Some EOF) => Some (Ok (m <| km_saltFile := f |>))
      | (f, _, Some e) => Some (Err e)
      | (f, rawBlock, None) =>
          match UnmarshalBinary rawBlock with
          | Err e => Some (Err e)
          | Ok block =>
              let mac := km_hmac m (sb_fileNum block) (sb_salt block) (km_lastMAC m) in
              if bool_decide (mac = sb_mac block) then
                readChain fuel
                  (m <| km_saltFile := f |> <| km_lastMAC := mac |>
                     <| km_salts := <[sb_fileNum block := sb_salt block]> (km_salts m) |>)
              else Some (Err (New "invalid mac"))
          end
      end
  end.

(** [open] is the result of [fs.OpenReadWrite]. *)
Definition NewKeyManager (fuel : nat) (open : result F) (masterKey : option bytes) :
    option (result (KeyManager F)) :=
  if (length (default [] masterKey) <? minKeySize)%nat
     && negb (is_nil masterKey && (length randomTestKey =? 16)%nat)
  then Some (Err (New "invalid key size"))
  else
    match open with
    | Err e => Some (Err e)
    | Ok f => readChain fuel (mkKeyManager masterKey f ∅ [])
    end.

(** [rand] is what [rand.Read] fills the salt with. *)
Definition Create m (rand : result bytes) (fileNum : Z) : KeyManager F * result bytes :=
  match rand with
  | Err e => (m, Err e)
  | Ok salt =>
      match derive m salt with
      | Err e => (m, Err e)
      | Ok key =>
          let mac := km_hmac m fileNum salt (km_lastMAC m) in
          match WriteApproved (km_saltFile m) (MarshalBinary (mkSaltBlock fileNum salt mac)) with
          | (f, Some e) => (m <| km_saltFile := f |>, Err e)
          | (f, None) =>
              match FileSync f with
              | (f, Some e) => (m <| km_saltFile := f |>, Err e)
              | (f, None) =>
                  (m <| km_saltFile := f |> <| km_lastMAC := mac |>
                     <| km_salts := <[fileNum := salt]> (km_salts m) |>, Ok key)
              end
          end
      end
  end.

Definition Get m (fileNum : Z) : result bytes :=
  match km_salts m !! fileNum with
  | Some salt => derive m salt
  | None =>
      if is_nil (km_masterKey m) && (length randomTestKey =? 16)%nat then Ok randomTestKey
      else Err (New "fileNum not found")
  end.

(** ** The OPTIONS file *)
Definition EncryptOptions m (rand : result bytes) (serializedOpts : bytes) (fileNum : Z) :
    KeyManager F * result bytes :=
  match Create m rand fileNum with
  | (m, Err e) => (m, Err e)
  | (m, Ok key) =>
      match GetCipher randomTestKey key with
      | Err e => (m, Err e)
      | Ok aead => (m, Ok (Seal aead (replicate NonceSize (z2b 0)) serializedOpts))
      end
  end.

Definition DecryptOptions m (ciphertext : bytes) (fileNum : Z) : result bytes :=
  key ← Get m fileNum;
  aead ← GetCipher randomTestKey key;
  match Open aead (replicate NonceSize (z2b 0)) ciphertext with
  | Some p => Ok p
  | None => Err (New "cipher: message authentication failed")
  end.
End keys.

(** A file in memory, with its offset. *)
Record mem_file := mkMemFile { mf_data : bytes; mf_pos : nat }.

#[export] Instance mem_file_reader : IoReader mem_file := {
  ReadFull f n :=
    let rest := drop (mf_pos f) (mf_data f) in
    (mkMemFile (mf_data f) (mf_pos f + length (take n rest)), take n rest,
     if (n <=? length rest)%nat then None
     else if (length rest =? 0)%nat then Some EOF else Some UnexpectedEOF);
}.
#[export] Instance mem_file_writer : EdgWriter mem_file := {
  WriteApproved f p :=
    (mkMemFile (take (mf_pos f) (mf_data f) ++ p ++ drop (mf_pos f + length p) (mf_data f))
       (mf_pos f + length p), None);
  Flusher := None;
  SeekCurrent := None;
}.
#[export] Instance mem_file_vfs : VfsFile mem_file := {
  FileSync f := (f, None);
}.
Definition mem_open (data : bytes) : mem_file := mkMemFile data 0.
