(* ===== verification/KeyManagerSpec.v ===== *)
(** What the key manager guarantees ([KeyManager]). *)
From S2P Require Import Prelude.
From S2P Require Import Crypto.
From S2P Require Import Record.
From S2P Require Import KeyManager.

(** ** The salt chain as a format *)

(** An entry of the chain: a file number and its salt. *)
Abbreviation entry := (Z * bytes)%type.

Definition entry_ok (e : entry) : Prop := (0 <= e.1 < 2 ^ 64)%Z /\ length e.2 = saltSize.

Section chain.
Context `{M : MAC} `{ML : !MACLaws M} (k : bytes).

Definition link (prev : bytes) (e : entry) : bytes :=
  hmac_sha256 k (PutUint64 e.1 ++ e.2 ++ prev).

Fixpoint chain_mac (prev : bytes) (es : list entry) : bytes :=
  match es with [] => prev | e :: es => chain_mac (link prev e) es end.

Fixpoint chain_bytes (prev : bytes) (es : list entry) : bytes :=
  match es with
  | [] => []
  | e :: es => PutUint64 e.1 ++ e.2 ++ link prev e ++ chain_bytes (link prev e) es
  end.

Definition chain_salts (es : list entry) (m : gmap Z bytes) : gmap Z bytes :=
  foldl (fun m e => <[e.1 := e.2]> m) m es.

Lemma chain_mac_app prev es es' : chain_mac prev (es ++ es') = chain_mac (chain_mac prev es) es'.
Proof. revert prev. induction es as [|e es IH]; intros prev; simpl; [done|apply IH]. Qed.

Lemma chain_bytes_app prev es es' :
  chain_bytes prev (es ++ es') = chain_bytes prev es ++ chain_bytes (chain_mac prev es) es'.
Proof.
  revert prev. induction es as [|e es IH]; intros prev; simpl; [done|].
  rewrite IH. by rewrite <- !app_assoc.
Qed.

Lemma length_link prev e : length (link prev e) = macSize.
Proof. apply hmac_length. Qed.

Lemma length_chain_bytes prev es :
  Forall entry_ok es -> length (chain_bytes prev es) = (saltBlockSize * length es)%nat.
Proof.
  intros Hes. revert prev. induction Hes as [|e es [_ He] _ IH]; intros prev; cbn [chain_bytes]; [done|].
  rewrite !length_app, length_PutUint64, He, length_link, IH, length_cons.
  unfold saltBlockSize, fileNumSize, saltSize, macSize, sha256_Size. lia.
Qed.

Lemma chain_salts_snoc es e m : chain_salts (es ++ [e]) m = <[e.1 := e.2]> (chain_salts es m).
Proof. unfold chain_salts. by rewrite foldl_app. Qed.

(** ** Reading the chain *)
Implicit Types m : KeyManager mem_file.

Definition at_end (m : KeyManager mem_file) : Prop :=
  mf_pos (km_saltFile m) = length (mf_data (km_saltFile m)).

Definition after (m : KeyManager mem_file) (es : list entry) : KeyManager mem_file :=
  mkKeyManager (km_masterKey m)
    (mkMemFile (mf_data (km_saltFile m)) (length (mf_data (km_saltFile m))))
    (chain_salts es (km_salts m)) (chain_mac (km_lastMAC m) es).

Lemma Unmarshal_Marshal e mac :
  entry_ok e -> length mac = macSize ->
  UnmarshalBinary (MarshalBinary (mkSaltBlock e.1 e.2 mac)) = Ok (mkSaltBlock e.1 e.2 mac).
Proof.
  intros [Hn Hs] Hm. unfold UnmarshalBinary, MarshalBinary. cbn [sb_fileNum sb_salt sb_mac].
  assert (length (PutUint64 e.1 ++ e.2 ++ mac) = saltBlockSize) as ->.
  { rewrite !length_app, length_PutUint64, Hs, Hm. done. }
  rewrite Nat.eqb_refl. cbn [negb]. f_equal. f_equal.
  - by rewrite Uint64_Put.
  - apply slice_app_mid; rewrite length_PutUint64, ?Hs; done.
  - rewrite app_assoc. apply drop_app_length'. rewrite length_app, length_PutUint64, Hs. done.
Qed.

Lemma Marshal_Unmarshal data b :
  UnmarshalBinary data = Ok b ->
  MarshalBinary b = data /\ entry_ok (sb_fileNum b, sb_salt b) /\ length (sb_mac b) = macSize.
Proof.
  unfold UnmarshalBinary. destruct (Nat.eqb_spec (length data) saltBlockSize) as [Hl|]; [|done].
  cbn [negb]. intros [= <-]. unfold MarshalBinary, entry_ok. cbn [sb_fileNum sb_salt sb_mac fst snd].
  unfold saltBlockSize, fileNumSize, saltSize, macSize, sha256_Size in *.
  split_and!; [|apply Uint64_range..|len|len].
  rewrite (slice_decompose data 8 24) at 4 by lia. f_equal.
  rewrite <- (PutUint64_Uint64 (take 8 data)) by len. unfold Uint64. by rewrite take_take.
Qed.

(** One block of the file. *)
Lemma readChain_block fuel m e rest :
  key_bytes m = k -> entry_ok e ->
  drop (mf_pos (km_saltFile m)) (mf_data (km_saltFile m)) =
    PutUint64 e.1 ++ e.2 ++ link (km_lastMAC m) e ++ rest ->
  readChain (S fuel) m = readChain fuel
    (mkKeyManager (km_masterKey m)
       (mkMemFile (mf_data (km_saltFile m)) (mf_pos (km_saltFile m) + saltBlockSize))
       (<[e.1 := e.2]> (km_salts m)) (link (km_lastMAC m) e)).
Proof.
  intros Hk He Hd. cbn [readChain ReadFull mem_file_reader file_reader mem_file_vfs].
  set (raw := MarshalBinary (mkSaltBlock e.1 e.2 (link (km_lastMAC m) e))).
  assert (length raw = saltBlockSize) as Hraw.
  { unfold raw, MarshalBinary. cbn [sb_fileNum sb_salt sb_mac].
    rewrite !length_app, length_PutUint64, length_link. destruct He as [_ ->]. done. }
  assert (drop (mf_pos (km_saltFile m)) (mf_data (km_saltFile m)) = raw ++ rest) as ->.
  { rewrite Hd. unfold raw, MarshalBinary. cbn [sb_fileNum sb_salt sb_mac].
    by rewrite <- !app_assoc. }
  rewrite (proj2 (Nat.leb_le _ _)) by (rewrite length_app; lia).
  rewrite take_app_length' by done.
  assert (UnmarshalBinary raw = Ok (mkSaltBlock e.1 e.2 (link (km_lastMAC m) e))) as ->
    by (apply Unmarshal_Marshal; [done|apply length_link]).
  cbn [sb_fileNum sb_salt sb_mac].
  assert (km_hmac m e.1 e.2 (km_lastMAC m) = link (km_lastMAC m) e) as ->.
  { unfold km_hmac, link. by rewrite Hk. }
  rewrite bool_decide_eq_true_2 by done. by rewrite Hraw.
Qed.

(** A well-formed chain is accepted. *)
Lemma readChain_complete fuel m es :
  key_bytes m = k -> Forall entry_ok es ->
  drop (mf_pos (km_saltFile m)) (mf_data (km_saltFile m)) = chain_bytes (km_lastMAC m) es ->
  (mf_pos (km_saltFile m) <= length (mf_data (km_saltFile m)))%nat -> (length es < fuel)%nat ->
  readChain fuel m = Some (Ok (after m es)).
Proof.
  revert m es. induction fuel as [|fuel IH]; intros m es Hk Hes Hd Hpos Hfuel; [lia|].
  destruct Hes as [|e es He Hes].
  - cbn [readChain ReadFull mem_file_reader file_reader mem_file_vfs chain_bytes] in *.
    rewrite Hd. simpl. do 3 f_equal. unfold after. simpl. destruct m as [mk f sa la]. simpl in *.
    rewrite Nat.add_0_r. apply (f_equal length) in Hd. rewrite length_drop in Hd. simpl in Hd.
    by replace (mf_pos f) with (length (mf_data f)) by lia.
  - cbn [chain_bytes] in Hd. rewrite (readChain_block _ _ e _ Hk He Hd).
    rewrite (IH _ es); [done|done|done| | |simpl in Hfuel; lia].
    + cbn [km_saltFile mf_pos mf_data km_lastMAC]. rewrite <- drop_drop, Hd.
      rewrite app_assoc, app_assoc, drop_app_length'; [done|].
      rewrite !length_app, length_PutUint64, length_link. by destruct He as [_ ->].
    + cbn [km_saltFile mf_pos mf_data]. apply (f_equal length) in Hd.
      rewrite length_drop, !length_app, length_PutUint64, length_link in Hd.
      destruct He as [_ He]. unfold saltBlockSize, fileNumSize, macSize in *. lia.
Qed.

(** What is accepted is a well-formed chain; and reading it always ends. *)
Lemma readChain_sound fuel m :
  key_bytes m = k -> (mf_pos (km_saltFile m) <= length (mf_data (km_saltFile m)))%nat ->
  (length (mf_data (km_saltFile m)) - mf_pos (km_saltFile m) < fuel)%nat ->
  (exists e, readChain fuel m = Some (Err e)) \/
  exists es, readChain fuel m = Some (Ok (after m es)) /\ Forall entry_ok es /\
    drop (mf_pos (km_saltFile m)) (mf_data (km_saltFile m)) = chain_bytes (km_lastMAC m) es.
Proof.
  revert m. induction fuel as [|fuel IH]; intros m Hk Hpos Hfuel; [lia|].
  set (rest := drop (mf_pos (km_saltFile m)) (mf_data (km_saltFile m))).
  assert (length rest = length (mf_data (km_saltFile m)) - mf_pos (km_saltFile m))%nat as Hrest
    by apply length_drop.
  destruct (decide (saltBlockSize <= length rest)%nat) as [Hge|Hlt].
  - destruct (UnmarshalBinary (take saltBlockSize rest)) as [b|e] eqn:Hun; cycle 1.
    { exfalso. unfold UnmarshalBinary in Hun. rewrite length_take, Nat.min_l in Hun by lia.
      by rewrite Nat.eqb_refl in Hun. }
    destruct (Marshal_Unmarshal _ _ Hun) as (Hraw & Hok & Hmac).
    set (e := (sb_fileNum b, sb_salt b)).
    destruct (decide (link (km_lastMAC m) e = sb_mac b)) as [Hm|Hm].
    + assert (rest = PutUint64 e.1 ++ e.2 ++ link (km_lastMAC m) e ++ drop saltBlockSize rest) as Hd.
      { rewrite Hm. rewrite <- (take_drop saltBlockSize rest) at 1. rewrite <- Hraw.
        unfold MarshalBinary. by rewrite <- !app_assoc. }
      rewrite (readChain_block _ _ e _ Hk Hok Hd).
      set (m1 := mkKeyManager _ _ _ _).
      destruct (IH m1) as [[er Her]|(es & Hr & Hes & Hb)].
      * done.
      * unfold m1. cbn [km_saltFile mf_pos mf_data]. lia.
      * unfold m1. cbn [km_saltFile mf_pos mf_data].
        unfold saltBlockSize, fileNumSize in *. lia.
      * left. by exists er.
      * right. exists (e :: es). split_and!; [done|by constructor|].
        cbn [chain_bytes]. rewrite Hd at 1. do 3 f_equal.
        unfold m1 in Hb. cbn [km_saltFile mf_pos mf_data km_lastMAC] in Hb.
        by rewrite <- drop_drop in Hb.
    + left. exists (New "invalid mac").
      cbn [readChain ReadFull mem_file_reader file_reader mem_file_vfs]. fold rest.
      rewrite (proj2 (Nat.leb_le _ _) Hge), Hun.
      assert (km_hmac m (sb_fileNum b) (sb_salt b) (km_lastMAC m) = link (km_lastMAC m) e) as ->.
      { unfold km_hmac, link. by rewrite Hk. }
      by rewrite bool_decide_eq_false_2.
  - cbn [readChain ReadFull mem_file_reader file_reader mem_file_vfs]. fold rest.
    rewrite (proj2 (Nat.leb_gt _ _)) by lia.
    destruct (Nat.eqb_spec (length rest) 0) as [H0|H0]; [|by left; eexists].
    right. exists []. apply length_zero_iff_nil in H0. split_and!; [|done|done].
    rewrite H0. simpl. unfold after. simpl. destruct m as [mk f sa la]. simpl in *.
    rewrite Nat.add_0_r. rewrite H0 in Hrest. simpl in Hrest.
    by replace (mf_pos f) with (length (mf_data f)) by lia.
Qed.

(** ** Integrity of the chain *)

(** The blocks of a file, and the message the [i]-th block carries the HMAC of: its file
    number, its salt and the MAC that ends the block before it. *)
Definition blocks (file : bytes) : nat := length file / saltBlockSize.
Definition block_message (file : bytes) (i : nat) : bytes :=
  take (fileNumSize + saltSize) (drop (saltBlockSize * i) file) ++
  match i with
  | O => []
  | S j => take macSize (drop (saltBlockSize * j + (fileNumSize + saltSize)) file)
  end.

(** Counted from the end of two files, there is a block at which their messages differ and
    have the same HMAC. *)
Definition chain_collision (file1 file2 : bytes) : Prop :=
  exists n, (n < blocks file1)%nat /\ (n < blocks file2)%nat /\
    let d1 := block_message file1 (blocks file1 - S n) in
    let d2 := block_message file2 (blocks file2 - S n) in
    d1 <> d2 /\ hmac_sha256 k d1 = hmac_sha256 k d2.

Lemma chain_collision_irrefl file : ~ chain_collision file file.
Proof. by intros (n & _ & _ & Hne & _). Qed.

Definition message (prev : bytes) (e : entry) : bytes := PutUint64 e.1 ++ e.2 ++ prev.

Lemma message_inj prev prev' e e' :
  entry_ok e -> entry_ok e' -> message prev e = message prev' e' -> e = e' /\ prev = prev'.
Proof.
  intros [Hn Hs] [Hn' Hs'] Ed. unfold message in Ed.
  apply app_inj_1 in Ed as [E1 Ed]; [|by rewrite !length_PutUint64].
  apply app_inj_1 in Ed as [E2 ->]; [|congruence].
  split; [|done]. destruct e as [n s], e' as [n' s']. simpl in *. subst s'. f_equal.
  apply (f_equal Uint64) in E1.
  rewrite <- (app_nil_r (PutUint64 n)), <- (app_nil_r (PutUint64 n')) in E1.
  by rewrite !Uint64_Put in E1.
Qed.

Lemma blocks_chain es : Forall entry_ok es -> blocks (chain_bytes [] es) = length es.
Proof.
  intros Hes. unfold blocks. rewrite length_chain_bytes by done.
  rewrite Nat.mul_comm. by apply Nat.div_mul.
Qed.

(** A block of a chain starts with the number and the salt, and ends with the MAC. *)
Lemma chain_block es e es' :
  Forall entry_ok es -> entry_ok e ->
  let file := chain_bytes [] (es ++ e :: es') in
  take (fileNumSize + saltSize) (drop (saltBlockSize * length es) file) = PutUint64 e.1 ++ e.2 /\
  take macSize (drop (saltBlockSize * length es + (fileNumSize + saltSize)) file)
    = chain_mac [] (es ++ [e]).
Proof.
  intros Hes [_ He] file. unfold file. rewrite chain_bytes_app, chain_mac_app. cbn [chain_bytes chain_mac].
  assert (length (PutUint64 e.1 ++ e.2) = fileNumSize + saltSize)%nat as Hl
    by (rewrite length_app, length_PutUint64, He; done).
  rewrite (app_assoc (PutUint64 e.1)). split.
  - rewrite drop_app_length' by (by rewrite length_chain_bytes). by apply take_app_length'.
  - rewrite <- drop_drop, drop_app_length' by (by rewrite length_chain_bytes).
    rewrite drop_app_length' by done. apply take_app_length'. symmetry. apply length_link.
Qed.

Lemma block_message_chain es e es' :
  Forall entry_ok (es ++ e :: es') ->
  block_message (chain_bytes [] (es ++ e :: es')) (length es) = message (chain_mac [] es) e.
Proof.
  intros Hok. pose proof Hok as [Hes He]%Forall_app. apply Forall_cons in He as [He _].
  unfold block_message, message. rewrite (proj1 (chain_block es e es' Hes He)), <- app_assoc.
  do 2 f_equal. destruct es as [|e0 es _] using rev_ind; [done|].
  rewrite length_app, Nat.add_comm. cbn [length Nat.add].
  apply Forall_app in Hes as [Hes He0]. apply Forall_cons in He0 as [He0 _].
  rewrite <- app_assoc. apply (chain_block es e0 (e :: es')); done.
Qed.

(** Two chains with the same MAC at the end differ at a block whose message has the HMAC of
    another message. *)
Lemma chain_inj es es' :
  Forall entry_ok es -> Forall entry_ok es' -> chain_mac [] es = chain_mac [] es' ->
  es = es' \/
  exists xs x xs' x' tl, es = xs ++ x :: tl /\ es' = xs' ++ x' :: tl /\
    message (chain_mac [] xs) x <> message (chain_mac [] xs') x' /\
    link (chain_mac [] xs) x = link (chain_mac [] xs') x'.
Proof.
  intros Hes. revert es'. induction es as [|e es IH] using rev_ind; intros es' Hes' E.
  - destruct es' as [|e' es' _] using rev_ind; [by left|].
    rewrite chain_mac_app in E. simpl in E. apply (f_equal length) in E.
    rewrite length_link in E. done.
  - rewrite chain_mac_app in E. simpl in E. apply Forall_app in Hes as [Hes He].
    apply Forall_cons in He as [He _].
    destruct es' as [|e' es' _] using rev_ind.
    { apply (f_equal length) in E. rewrite length_link in E. done. }
    rewrite chain_mac_app in E. simpl in E. apply Forall_app in Hes' as [Hes' He'].
    apply Forall_cons in He' as [He' _].
    destruct (decide (message (chain_mac [] es) e = message (chain_mac [] es') e')) as [Em|Hne].
    2: { right. by exists es, e, es', e', []. }
    apply message_inj in Em as [-> Em]; [|done..].
    destruct (IH Hes es' Hes' Em) as [->|(xs & x & xs' & x' & tl & -> & -> & Hne & Hl)]; [by left|right].
    exists xs, x, xs', x', (tl ++ [e']). by rewrite <- !app_assoc.
Qed.

Lemma chain_files es es' :
  Forall entry_ok es -> Forall entry_ok es' -> chain_mac [] es = chain_mac [] es' ->
  chain_bytes [] es = chain_bytes [] es' \/ chain_collision (chain_bytes [] es) (chain_bytes [] es').
Proof.
  intros Hes Hes' E.
  destruct (chain_inj es es' Hes Hes' E) as [->|(xs & x & xs' & x' & tl & -> & -> & Hne & Hl)]; [by left|right].
  exists (length tl). rewrite !blocks_chain, !length_app by done. cbn [length].
  replace (length xs + S (length tl) - S (length tl))%nat with (length xs) by lia.
  replace (length xs' + S (length tl) - S (length tl))%nat with (length xs') by lia.
  rewrite !block_message_chain by done. split_and!; [lia|lia|done|done].
Qed.

(** ** Creating keys *)
Lemma derive_ok m salt :
  key_bytes m = k -> (Z.of_nat (length k) <= 255 * 32)%Z ->
  exists key, derive m salt = Ok key /\ length key = length k.
Proof.
  intros Hk Hl. unfold derive. rewrite Hk. destruct (hkdf_ok k salt (length k) Hl) as [key E].
  exists key. split; [done|]. by eapply hkdf_length.
Qed.

Lemma Create_ok m e :
  key_bytes m = k -> at_end m -> (Z.of_nat (length k) <= 255 * 32)%Z ->
  exists key, derive m e.2 = Ok key /\ length key = length k /\
    Create m (Ok e.2) e.1 =
      (mkKeyManager (km_masterKey m)
         (mkMemFile (mf_data (km_saltFile m) ++ chain_bytes (km_lastMAC m) [e])
            (length (mf_data (km_saltFile m) ++ chain_bytes (km_lastMAC m) [e])))
         (<[e.1 := e.2]> (km_salts m)) (link (km_lastMAC m) e), Ok key).
Proof.
  intros Hk Hend Hl. destruct (derive_ok m e.2 Hk Hl) as (key & Hkey & Hlen).
  exists key. split_and!; [done|done|]. unfold Create. rewrite Hkey.
  assert (km_hmac m e.1 e.2 (km_lastMAC m) = link (km_lastMAC m) e) as ->.
  { unfold km_hmac, link. by rewrite Hk. }
  unfold MarshalBinary. cbn [sb_fileNum sb_salt sb_mac chain_bytes]. rewrite app_nil_r.
  unfold at_end in Hend.
  cbn [WriteApproved mem_file_writer file_writer mem_file_vfs FileSync]. rewrite Hend.
  rewrite firstn_all, drop_ge, app_nil_r by lia. by rewrite (length_app (mf_data _)).
Qed.

Fixpoint create_all m (es : list entry) : KeyManager mem_file * list (result bytes) :=
  match es with
  | [] => (m, [])
  | e :: es =>
      let '(m, r) := Create m (Ok e.2) e.1 in
      let '(m, rs) := create_all m es in (m, r :: rs)
  end.

(** The manager that has read the chain [es]. *)
Definition loaded (es : list entry) : KeyManager mem_file :=
  mkKeyManager (Some k) (mkMemFile (chain_bytes [] es) (length (chain_bytes [] es)))
    (chain_salts es ∅) (chain_mac [] es).

Lemma Create_loaded es e :
  (Z.of_nat (length k) <= 255 * 32)%Z ->
  exists key, derive (loaded es) e.2 = Ok key /\ length key = length k /\
    Create (loaded es) (Ok e.2) e.1 = (loaded (es ++ [e]), Ok key).
Proof.
  intros Hl. destruct (Create_ok (loaded es) e) as (key & Hkey & Hlen & Hc); [done|done|done|].
  exists key. split_and!; [done|done|]. rewrite Hc. unfold loaded.
  cbn [km_masterKey km_saltFile km_salts km_lastMAC mf_data].
  by rewrite chain_bytes_app, chain_mac_app, chain_salts_snoc.
Qed.

Lemma create_all_ok es0 es :
  (Z.of_nat (length k) <= 255 * 32)%Z ->
  exists keys, create_all (loaded es0) es = (loaded (es0 ++ es), Ok <$> keys) /\
    Forall2 (fun e key => derive (loaded []) e.2 = Ok key) es keys.
Proof.
  intros Hl. revert es0. induction es as [|e es IH]; intros es0; cbn [create_all].
  - exists []. rewrite app_nil_r. by split.
  - destruct (Create_loaded es0 e Hl) as (key & Hkey & _ & ->).
    destruct (IH (es0 ++ [e])) as (keys & -> & Hk). exists (key :: keys).
    rewrite <- app_assoc. split; [done|]. by constructor.
Qed.

Lemma NewKeyManager_loaded rtk fuel es :
  (16 <= length k)%nat -> Forall entry_ok es -> (length es < fuel)%nat ->
  NewKeyManager rtk fuel (Ok (mem_open (chain_bytes [] es))) (Some k) = Some (Ok (loaded es)).
Proof.
  intros Hk Hes Hf. unfold NewKeyManager, minKeySize. cbn [default from_option is_nil andb negb id].
  rewrite (proj2 (Nat.ltb_ge _ _) Hk). cbn [andb].
  rewrite (readChain_complete _ _ es); [done|done|done|done|simpl; lia|done].
Qed.

Lemma chain_salts_lookup es sm n s :
  NoDup es.*1 -> (n, s) ∈ es -> chain_salts es sm !! n = Some s.
Proof.
  revert sm. induction es as [|e es IH] using rev_ind; intros sm Hnd Hin.
  { by apply elem_of_nil in Hin. }
  rewrite chain_salts_snoc. rewrite fmap_app in Hnd. apply NoDup_app in Hnd as (Hnd & Hdis & _).
  apply elem_of_app in Hin as [Hin|Hin%list_elem_of_singleton].
  - rewrite lookup_insert_ne; [by apply IH|]. intros E. apply (Hdis n).
    + apply list_elem_of_fmap. by exists (n, s).
    + rewrite <- E. apply list_elem_of_here.
  - subst e. apply lookup_insert_eq.
Qed.

Lemma NewKeyManager_cases rtk file fuel :
  (16 <= length k)%nat -> (length file < fuel)%nat ->
  let r := NewKeyManager rtk fuel (Ok (mem_open file)) (Some k) in
  (exists es, Forall entry_ok es /\ file = chain_bytes [] es /\ r = Some (Ok (loaded es))) \/
  ((forall es, Forall entry_ok es -> file <> chain_bytes [] es) /\ exists e, r = Some (Err e)).
Proof.
  intros Hk Hfuel r. unfold r, NewKeyManager, minKeySize. cbn [default from_option is_nil andb negb id].
  rewrite (proj2 (Nat.ltb_ge _ _) Hk). cbn [andb].
  set (m := mkKeyManager (Some k) (mem_open file) ∅ []).
  destruct (readChain_sound fuel m) as [[e He]|(es & Hr & Hes & Hd)];
    [done|simpl; lia|simpl; lia| |].
  - right. split; [|by exists e]. intros es Hes ->.
    rewrite (readChain_complete fuel m es) in He; [done|done|done|done|simpl; lia|].
    rewrite length_chain_bytes in Hfuel by done. unfold saltBlockSize, fileNumSize in Hfuel. lia.
  - left. exists es. cbn [m km_saltFile mf_pos mf_data mem_open km_lastMAC] in Hd.
    rewrite drop_0 in Hd. split_and!; [done|done|]. rewrite Hr. unfold after, loaded. simpl.
    by rewrite Hd.
Qed.
End chain.

Import Toy.
Definition ex_master : bytes := replicate 16 (z2b 5).
Definition ex_salt : bytes := replicate 16 (z2b 9).
Lemma ex_entries_ok : Forall entry_ok [(3%Z, ex_salt)].
Proof. repeat constructor; simpl; lia. Qed.

(** C11. The key manager accepts exactly the well-formed salt chains: reading the
    file ends, and it succeeds, with the salts and the last MAC of the chain, if
    and only if the file is a sequence of blocks each of which carries the HMAC of
    its contents and of the block before it. *)
Theorem keymanager_accepts `{M : MAC} `{ML : !MACLaws M} rtk k file fuel :
  (16 <= length k)%nat -> (length file < fuel)%nat ->
  let r := NewKeyManager rtk fuel (Ok (mem_open file)) (Some k) in
  (exists es, Forall entry_ok es /\ file = chain_bytes k [] es /\ r = Some (Ok (loaded k es))) \/
  ((forall es, Forall entry_ok es -> file <> chain_bytes k [] es) /\ exists e, r = Some (Err e)).
Proof. apply NewKeyManager_cases. Qed.

Lemma keymanager_accepts_witness :
  let file := chain_bytes ex_master [] [(3%Z, ex_salt)] in
  let r := NewKeyManager [] 100 (Ok (mem_open file)) (Some ex_master) in
  (exists es, Forall entry_ok es /\ file = chain_bytes ex_master [] es /\
     r = Some (Ok (loaded ex_master es))) \/
  ((forall es, Forall entry_ok es -> file <> chain_bytes ex_master [] es) /\
   exists e, r = Some (Err e)).
Proof.
  apply (keymanager_accepts [] ex_master); [simpl; lia|].
  rewrite length_chain_bytes by apply ex_entries_ok. unfold saltBlockSize. simpl. lia.
Defined.

(** C12. Snapshot integrity: two accepted files that end with the same MAC are equal,
    unless, counted from their ends, they have a block at the same place whose messages
    (file number, salt and the MAC before) differ and yet have the same HMAC.  So the MAC at
    the end of a salt chain stands for the whole file, as long as nobody finds a collision
    between the messages of two chains. *)
Theorem keymanager_integrity `{M : MAC} `{ML : !MACLaws M} rtk k file1 file2 m1 m2 fuel :
  (16 <= length k)%nat -> (length file1 < fuel)%nat -> (length file2 < fuel)%nat ->
  NewKeyManager rtk fuel (Ok (mem_open file1)) (Some k) = Some (Ok m1) ->
  NewKeyManager rtk fuel (Ok (mem_open file2)) (Some k) = Some (Ok m2) ->
  km_lastMAC m1 = km_lastMAC m2 ->
  file1 = file2 \/ chain_collision k file1 file2.
Proof.
  intros Hk Hf1 Hf2 H1 H2 Hmac.
  destruct (NewKeyManager_cases k rtk file1 fuel Hk Hf1) as [(es1 & Hok1 & E1 & R1)|[_ [e R1]]];
    rewrite H1 in R1; [|done].
  destruct (NewKeyManager_cases k rtk file2 fuel Hk Hf2) as [(es2 & Hok2 & E2 & R2)|[_ [e R2]]];
    rewrite H2 in R2; [|done].
  injection R1 as ->. injection R2 as ->. simpl in Hmac. subst file1 file2.
  by apply chain_files.
Qed.

(** The digest that stands for HMAC in the examples has easy collisions. *)
Definition ex_salt1 : bytes := z2b 40 :: z2b 40 :: replicate 14 (z2b 9).
Definition ex_salt2 : bytes := z2b 41 :: z2b 9 :: replicate 14 (z2b 9).

Lemma keymanager_integrity_witness :
  let file1 := chain_bytes ex_master [] [(3%Z, ex_salt1)] in
  let file2 := chain_bytes ex_master [] [(3%Z, ex_salt2)] in
  file1 <> file2 /\ (file1 = file2 \/ chain_collision ex_master file1 file2).
Proof.
  intros file1 file2.
  assert (Forall entry_ok [(3%Z, ex_salt1)] /\ Forall entry_ok [(3%Z, ex_salt2)]) as [Hok1 Hok2]
    by (split; repeat constructor; simpl; lia).
  split; [vm_compute; discriminate|].
  apply (keymanager_integrity [] ex_master file1 file2 (loaded ex_master [(3%Z, ex_salt1)])
           (loaded ex_master [(3%Z, ex_salt2)]) 100).
  - simpl. lia.
  - unfold file1. rewrite length_chain_bytes by exact Hok1. unfold saltBlockSize. simpl. lia.
  - unfold file2. rewrite length_chain_bytes by exact Hok2. unfold saltBlockSize. simpl. lia.
  - apply NewKeyManager_loaded; [simpl; lia|exact Hok1|simpl; lia].
  - apply NewKeyManager_loaded; [simpl; lia|exact Hok2|simpl; lia].
  - vm_compute. reflexivity.
Defined.

(** C13. Reopening: whatever keys are created for new file numbers on top of a chain, all
    succeed (with a master key of 16 to 8160 bytes and a file that does not fail), the file
    reopens to the same manager, and for every file created [Get] then returns the key that
    [Create] had returned. *)
Theorem keymanager_reopen `{M : MAC} `{ML : !MACLaws M} rtk k es0 es fuel :
  (16 <= length k)%nat -> (Z.of_nat (length k) <= 255 * 32)%Z ->
  Forall entry_ok es0 -> Forall entry_ok es -> NoDup (es0 ++ es).*1 ->
  (length es0 + length es < fuel)%nat ->
  exists m0 m keys,
    NewKeyManager rtk fuel (Ok (mem_open (chain_bytes k [] es0))) (Some k) = Some (Ok m0) /\
    create_all m0 es = (m, Ok <$> keys) /\
    NewKeyManager rtk fuel (Ok (mem_open (mf_data (km_saltFile m)))) (Some k) = Some (Ok m) /\
    Forall2 (fun e key => Get rtk m e.1 = Ok key) es keys.
Proof.
  intros Hk Hl Hok0 Hok Hnd Hf.
  destruct (create_all_ok k es0 es Hl) as (keys & Hc & Hkeys).
  exists (loaded k es0), (loaded k (es0 ++ es)), keys. split_and!.
  - apply NewKeyManager_loaded; [done|done|lia].
  - done.
  - apply NewKeyManager_loaded; [done|by apply Forall_app|rewrite length_app; lia].
  - assert (Forall (fun e => e ∈ es0 ++ es) es) as Hin.
    { apply Forall_forall. intros e He. apply elem_of_app. by right. }
    set (all := es0 ++ es) in *. clearbody all. clear Hc Hok Hf.
    induction Hkeys as [|[n salt] key es keys Hkey _ IH]; [constructor|].
    apply Forall_cons in Hin as [Hel Hin]. constructor; [|by apply IH].
    unfold Get. cbn [loaded km_salts fst]. by rewrite (chain_salts_lookup _ _ _ salt Hnd Hel).
Qed.

Lemma keymanager_reopen_witness :
  exists m0 m keys,
    NewKeyManager [] 9 (Ok (mem_open (chain_bytes ex_master [] []))) (Some ex_master) = Some (Ok m0) /\
    create_all m0 [(3%Z, ex_salt)] = (m, Ok <$> keys) /\
    Forall2 (fun e key => Get [] m e.1 = Ok key) [(3%Z, ex_salt)] keys.
Proof.
  destruct (keymanager_reopen [] ex_master [] [(3%Z, ex_salt)] 9) as (m0 & m & keys & H1 & H2 & _ & H3).
  - simpl. lia.
  - simpl. lia.
  - constructor.
  - apply ex_entries_ok.
  - apply NoDup_singleton.
  - simpl. lia.
  - exists m0, m, keys. done.
Defined.

(** The OPTIONS file: with a master key of a legal size, encrypting succeeds
    and the result decrypts, also after the database was reopened, to the options
    that were encrypted, and no other ciphertext decrypts to the same options. *)
Theorem options_roundtrip `{M : MAC} `{ML : !MACLaws M} `{C : AEAD} `{CL : !AEADLaws C}
    rtk k es salt n opts fuel :
  aes_key_ok k = true -> Forall entry_ok es -> entry_ok (n, salt) -> (length es + 1 < fuel)%nat ->
  exists m c,
    EncryptOptions rtk (loaded k es) (Ok salt) opts n = (m, Ok c) /\
    NewKeyManager rtk fuel (Ok (mem_open (mf_data (km_saltFile m)))) (Some k) = Some (Ok m) /\
    forall c', DecryptOptions rtk m c' n = Ok opts <-> c' = c.
Proof.
  intros Hkey Hes Hn Hf.
  assert (16 <= length k <= 32)%nat as Hlen.
  { unfold aes_key_ok in Hkey. rewrite !orb_true_iff, !Nat.eqb_eq in Hkey. lia. }
  destruct (Create_loaded k es (n, salt)) as (key & Hder & Hkl & Hc); [lia|].
  assert (aes_key_ok key = true) as Hok by (unfold aes_key_ok in *; by rewrite Hkl).
  unfold EncryptOptions. cbn [fst snd] in Hc. rewrite Hc, GetCipher_ok by done.
  eexists _, _. split_and!; [reflexivity| |].
  { apply NewKeyManager_loaded; [lia| |rewrite length_app; simpl; lia].
    apply Forall_app. split; [done|]. by apply Forall_cons. }
  intros c'. unfold DecryptOptions, Get. cbn [loaded km_salts].
  rewrite chain_salts_snoc. cbn [fst snd]. rewrite lookup_insert_eq.
  change (derive (loaded k (es ++ [(n, salt)])) salt) with (derive (loaded k es) salt).
  cbn [snd] in Hder. rewrite Hder. cbn [mbind result_bind]. rewrite GetCipher_ok by done.
  cbn [mbind result_bind]. split.
  - destruct (Open _ _ c') as [p|] eqn:E; [|done]. intros [= ->]. by apply Open_Some in E.
  - intros ->. by rewrite Open_Seal.
Qed.

Lemma options_roundtrip_witness :
  exists m c, EncryptOptions [] (loaded ex_master []) (Ok ex_salt) [z2b 1] 3 = (m, Ok c) /\
    DecryptOptions [] m c 3 = Ok [z2b 1].
Proof.
  destruct (options_roundtrip [] ex_master [] ex_salt 3 [z2b 1] 5) as (m & c & H1 & _ & H3).
  - reflexivity.
  - constructor.
  - split; [simpl; lia|reflexivity].
  - simpl. lia.
  - exists m, c. split; [done|by apply H3].
Defined.

(** Key sizes: the key manager accepts a master key of any size from 16 bytes
    on.  With one that AES does not have, such as 20 bytes, creating keys works,
    but encrypting the OPTIONS file fails and a record writer given the key
    panics when it seals its first chunk. *)
Theorem keymanager_key_size `{M : MAC} `{ML : !MACLaws M} `{C : AEAD} rtk k salt n opts :
  (16 <= length k)%nat -> (Z.of_nat (length k) <= 255 * 32)%Z -> aes_key_ok k = false ->
  exists m m' key e,
    NewKeyManager rtk 1 (Ok (mem_open [])) (Some k) = Some (Ok m) /\
    Create m (Ok salt) n = (m', Ok key) /\
    EncryptOptions rtk m (Ok salt) opts n = (m', Err e) /\
    forall (w : Writer bytes) last, w_EncryptionKey w = key ->
      (w_i w + legacyHeaderSize <= w_j w <= blockSize)%nat ->
      fillHeader rtk w last = Panic (error_msg e).
Proof.
  intros Hk Hl Hbad.
  destruct (Create_loaded k [] (n, salt) Hl) as (key & Hder & Hkl & Hc). cbn [fst snd] in Hc.
  assert (aes_key_ok key = false) as Hkey by (unfold aes_key_ok in *; by rewrite Hkl).
  assert (GetCipher rtk key = Err (New "crypto/aes: invalid key size")) as Hg.
  { unfold GetCipher. rewrite (proj2 (Nat.eqb_neq _ 0)) by lia. cbn [andb]. by rewrite Hkey. }
  eexists (loaded k []), _, key, _. split_and!.
  - apply (NewKeyManager_loaded k rtk 1 []); [done|constructor|simpl; lia].
  - exact Hc.
  - unfold EncryptOptions. rewrite Hc, Hg. reflexivity.
  - intros w last Hw Hpos. unfold fillHeader.
    rewrite (proj2 (Nat.ltb_ge _ _)), (proj2 (Nat.ltb_ge _ _)) by lia. cbn [orb].
    by rewrite Hw, Hg.
Qed.

Lemma keymanager_key_size_witness :
  exists m m' key e,
    NewKeyManager [] 1 (Ok (mem_open [])) (Some (replicate 20 (z2b 1))) = Some (Ok m) /\
    Create m (Ok ex_salt) 3 = (m', Ok key) /\ EncryptOptions [] m (Ok ex_salt) [] 3 = (m', Err e).
Proof.
  destruct (keymanager_key_size [] (replicate 20 (z2b 1)) ex_salt 3 []) as (m & m' & key & e & H1 & H2 & H3 & _).
  - simpl. lia.
  - simpl. lia.
  - reflexivity.
  - exists m, m', key, e. done.
Defined.
