(* ===== verification/Freshness.v ===== *)
(** Rollback protection (src/edg.go and [Transaction.Commit] of
    src/transaction.go): a counter kept in the store is compared, when the store
    is opened, with a counter of a trusted source.

    The rest of the database is seen through what it promises: its contents are
    the effect of a sequence of batches, each applied as a whole, and what is left
    of the files after tampering is a prefix of that sequence. *)
From stdpp Require Import sorting.
From S2P Require Import Prelude.

Local Open Scope Z_scope.

(** A batch sets and deletes keys; a store is the batches committed so far. *)
Abbreviation batch := (list (bytes * option bytes)).
Abbreviation store := (list batch).

Fixpoint lookup_ops (ops : batch) (k : bytes) (acc : option bytes) : option bytes :=
  match ops with
  | [] => acc
  | (k', v) :: ops => lookup_ops ops k (if decide (k' = k) then v else acc)
  end.

Definition store_get (h : store) (k : bytes) : option bytes :=
  lookup_ops (concat h) k None.

Definition edgMonotonicCounterKey : bytes := bytes_of_string "!EDGELESS_MONOTONIC_COUNTER".

(** What a write to the store, and a call of the trusted source, can do: succeed,
    or fail with or without having had its effect. *)
Inductive outcome := Done | Failed (applied : bool).

Record DB := mkDB {
  db_store : store;
  db_counter : Z;             (* DB.monotonicCounter *)
}.
#[export] Instance db_settable : Settable DB := fun d => mkDB (db_store d) (db_counter d).

(** A write to the store with an outcome. *)
Definition db_write (o : outcome) (b : batch) (d : DB) : DB * option error :=
  match o with
  | Done => (d <| db_store := db_store d ++ [b] |>, None)
  | Failed true => (d <| db_store := db_store d ++ [b] |>, Some (New "write failed"))
  | Failed false => (d, Some (New "write failed"))
  end.

(** [DB.Get] may fail too. *)
Definition edgGetMonotonicCounterFromStore (o : outcome) (d : DB) : go (result Z) :=
  match o with
  | Failed _ => Ret (Err (New "read failed"))
  | Done =>
      match store_get (db_store d) edgMonotonicCounterKey with
      | None => Ret (Ok 0)
      | Some value => if (length value <? 8)%nat then Panic "index out of range"
                      else Ret (Ok (Uint64 value))
      end
  end.

Definition edgSetMonotonicCounterOnStore (o : outcome) (value : Z) (d : DB) : DB * option error :=
  db_write o [(edgMonotonicCounterKey, Some (PutUint64 value))] d.

(** The trusted source, as the documentation of [Options.SetMonotonicCounter] asks
    for: it never decreases and returns its previous value. *)
Definition SetMonotonicCounter (o : outcome) (value source : Z) : Z * result Z :=
  match o with
  | Done => (Z.max value source, Ok source)
  | Failed applied => (if applied then Z.max value source else source, Err (New "source failed"))
  end.

(** [edgVerifyFreshness]; [SetMonotonicCounter(0)] reads the source, which is
    [None] where the option is not set. *)
Definition edgVerifyFreshness (o og : outcome) (source : option Z) (d : DB) :
    go (DB * option error) :=
  match source with
  | None => Ret (d, None)
  | Some source =>
      match (SetMonotonicCounter o 0 source).2 with
      | Err e => Ret (d, Some e)
      | Ok sourceCount =>
          got ← edgGetMonotonicCounterFromStore og d;
          match got with
          | Err e => Ret (d, Some e)
          | Ok storeCount =>
              if storeCount <? sourceCount then Ret (d, Some (New "rollback detected"))
              else Ret (d <| db_counter := storeCount |>, None)
          end
      end
  end.

(** [Transaction.Commit]; a read-only transaction has no batch, [Logger.Fatalf] ends
    the program. *)
Definition Commit (o1 o2 o3 : outcome) (b : option batch) (source : option Z) (d : DB) :
    go (DB * option Z * option error) :=
  match b, source with
  | None, _ => Ret (d, source, None)
  | Some b, None => let '(d, err) := db_write o3 b d in Ret (d, None, err)
  | Some b, Some sourceCount =>
      match edgSetMonotonicCounterOnStore o1 (u64 (db_counter d + 1)) d with
      | (d, Some e) => Ret (d, source, Some e)
      | (d, None) =>
          let prevStoreCount := db_counter d in
          let d := d <| db_counter := u64 (db_counter d + 1) |> in
          match SetMonotonicCounter o2 (db_counter d) sourceCount with
          | (sourceCount, Err e) => Ret (d, Some sourceCount, Some e)
          | (sourceCount, Ok prevSourceCount) =>
              if prevStoreCount <? prevSourceCount
              then Panic "Previous value of the trusted source counter is greater than expected"
              else let '(d, err) := db_write o3 b d in Ret (d, Some sourceCount, err)
          end
      end
  end.

(** ** Histories *)

(** The world: what is on disk, the trusted source, and the counter of the open
    database, if there is one.  [w_acked] is history: for each acknowledged
    transaction, one whose [Commit] returned no error, the store right after it, in
    order.  A transaction leaves the list when a store that does not have it is
    opened: then it is lost, and the rollback was not detected. *)
Record world := mkWorld {
  w_disk : store;
  w_source : Z;
  w_open : option Z;
  w_acked : list store;
}.

(** The transactions that a store still has. *)
Definition still_there (disk : store) (acked : list store) : list store :=
  filter (fun h => h `prefix_of` disk) acked.

Inductive action :=
| ATx (o1 o2 o3 : outcome) (b : batch)       (* a write transaction *)
| AWrite (o : outcome) (b : batch)           (* a write outside of transactions *)
| ACrash                                     (* or close *)
| ARollback (n : nat)                        (* only the first n batches are left *)
| AOpen (o og : outcome).

(** [None]: the program was ended by [Fatalf] or a panic. *)
Definition act (a : action) (w : world) : option world :=
  match a, w_open w with
  | ATx o1 o2 o3 b, Some c =>
      match Commit o1 o2 o3 (Some b) (Some (w_source w)) (mkDB (w_disk w) c) with
      | Panic _ | Ret (_, None, _) => None
      | Ret (d, Some source, err) =>
          Some (mkWorld (db_store d) source (Some (db_counter d))
                  (match err with None => w_acked w ++ [db_store d] | Some _ => w_acked w end))
      end
  | AWrite o b, Some c =>
      Some (mkWorld (db_store (db_write o b (mkDB (w_disk w) c)).1) (w_source w) (Some c)
              (w_acked w))
  | ACrash, _ => Some (mkWorld (w_disk w) (w_source w) None (w_acked w))
  | ARollback n, None =>
      Some (mkWorld (take n (w_disk w)) (w_source w) None (w_acked w))
  | AOpen o og, None =>
      match edgVerifyFreshness o og (Some (w_source w)) (mkDB (w_disk w) 0) with
      | Panic _ => None
      | Ret (d, None) =>
          Some (mkWorld (w_disk w) (w_source w) (Some (db_counter d)) (still_there (w_disk w) (w_acked w)))
      | Ret (_, Some _) => Some w
      end
  | _, _ => Some w
  end.

Fixpoint acts (l : list action) (w : world) : option world :=
  match l with
  | [] => Some w
  | a :: l => match act a w with Some w => acts l w | None => None end
  end.

(** A store that has just been created. *)
Definition new_world : world := mkWorld [] 0 (Some 0) [].

(** Clients do not write to the key of the counter, and the counter does not
    overflow in a world with fewer than 2^64 actions. *)
Definition batch_ok (b : batch) : Prop := Forall (fun kv => kv.1 <> edgMonotonicCounterKey) b.
Definition action_ok (a : action) : Prop :=
  match a with ATx _ _ _ b | AWrite _ b => batch_ok b | _ => True end.

(** ** Counting *)
Definition count (h : store) : Z :=
  match store_get h edgMonotonicCounterKey with None => 0 | Some v => Uint64 v end.

(** The counter entries of the store are whole numbers that never decrease. *)
Record Good (h : store) : Prop := {
  good_value n v : store_get (take n h) edgMonotonicCounterKey = Some v -> length v = 8%nat;
  good_mono n m : (n <= m)%nat -> count (take n h) <= count (take m h);
}.

Lemma lookup_ops_app ops1 ops2 k acc :
  lookup_ops (ops1 ++ ops2) k acc = lookup_ops ops2 k (lookup_ops ops1 k acc).
Proof.
  revert acc. induction ops1 as [|[k' v] ops1 IH]; intros acc; simpl; [done|apply IH].
Qed.

Lemma store_get_snoc h b k : store_get (h ++ [b]) k = lookup_ops b k (store_get h k).
Proof.
  unfold store_get. rewrite concat_app, lookup_ops_app. simpl. by rewrite app_nil_r.
Qed.

Lemma lookup_ops_other b acc : batch_ok b -> lookup_ops b edgMonotonicCounterKey acc = acc.
Proof.
  intros Hb. revert acc. induction Hb as [|[k v] b Hk _ IH]; intros acc; simpl; [done|].
  rewrite decide_False by done. apply IH.
Qed.

Lemma store_get_counter h v :
  store_get (h ++ [[(edgMonotonicCounterKey, Some v)]]) edgMonotonicCounterKey = Some v.
Proof. rewrite store_get_snoc. cbn [lookup_ops]. by rewrite decide_True. Qed.

Lemma count_counter h v :
  0 <= v < 2 ^ 64 -> count (h ++ [[(edgMonotonicCounterKey, Some (PutUint64 v))]]) = v.
Proof.
  intros Hv. unfold count. rewrite store_get_counter.
  rewrite <- (app_nil_r (PutUint64 v)). by apply Uint64_Put.
Qed.

Lemma count_other h b : batch_ok b -> count (h ++ [b]) = count h.
Proof. intros Hb. unfold count. by rewrite store_get_snoc, lookup_ops_other. Qed.

Lemma count_nonneg h : 0 <= count h.
Proof. unfold count. destruct (store_get _ _); [apply Uint64_range|done]. Qed.

Lemma Good_nil : Good [].
Proof. split; [intros n v; by rewrite take_nil|]. intros n m _. by rewrite !take_nil. Qed.

Lemma Good_snoc h b :
  Good h -> (forall v, store_get (h ++ [b]) edgMonotonicCounterKey = Some v -> length v = 8%nat) ->
  count h <= count (h ++ [b]) -> Good (h ++ [b]).
Proof.
  intros [Hg Hm] Hv Hc.
  assert (forall n, (n <= length h)%nat /\ take n (h ++ [b]) = take n h \/
    (length h < n)%nat /\ take n (h ++ [b]) = h ++ [b]) as Htake.
  { intros n. destruct (decide (n <= length h)%nat).
    - left. by rewrite take_app_le.
    - right. split; [lia|]. apply take_ge. rewrite length_app. simpl. lia. }
  split.
  - intros n v. destruct (Htake n) as [[_ ->]|[_ ->]]; [apply Hg|apply Hv].
  - intros n m Hnm. destruct (Htake n) as [[? ->]|[? ->]], (Htake m) as [[? ->]|[? ->]];
      [by apply Hm| |lia|done].
    trans (count h); [|done]. rewrite <- (firstn_all h) at 2. by apply Hm.
Qed.

Lemma Good_prefix h h' : Good h' -> h `prefix_of` h' -> Good h /\ count h <= count h'.
Proof.
  intros [Hg Hm] [t ->].
  assert (forall n, take n h = take (Nat.min n (length h)) (h ++ t)) as E.
  { intros n. rewrite take_app_le by lia. destruct (Nat.min_spec n (length h)) as [[? ->]|[? ->]];
      [done|]. rewrite !take_ge; done. }
  split; [split|].
  - intros n v. rewrite E. apply Hg.
  - intros n m Hnm. rewrite !E. apply Hm. lia.
  - rewrite <- (firstn_all (h ++ t)) at 1. rewrite <- (take_app_length h t) at 1.
    apply Hm. rewrite length_app. lia.
Qed.

(** Two prefixes of a store: the one with more counts is the longer one. *)
Lemma prefix_by_count p d D :
  Good D -> p `prefix_of` D -> d `prefix_of` D -> count p < count d -> p `prefix_of` d.
Proof.
  intros HD Hp Hd Hlt. destruct (prefix_weak_total _ _ _ Hp Hd) as [?|Hdp]; [done|].
  pose proof (proj2 (Good_prefix d p (proj1 (Good_prefix _ _ HD Hp)) Hdp)). lia.
Qed.

(** ** The invariant *)

(** [D] is the store as it was before any rollback since it was last open, [n]
    bounds the counter. *)
Record Inv (n : Z) (w : world) (D : store) : Prop := {
  inv_disk : w_disk w `prefix_of` D;
  inv_good : Good D;
  inv_acked : Forall (fun h => h `prefix_of` D /\ count h <= w_source w) (w_acked w);
  inv_sorted : StronglySorted (fun h h' => count h < count h') (w_acked w);
  inv_source : 0 <= w_source w <= count D;
  inv_count : count D <= n;
  inv_open c : w_open w = Some c ->
    D = w_disk w /\ w_source w <= c <= count D /\ count D <= c + 1;
}.

Lemma Inv_new : Inv 0 new_world [].
Proof.
  split; simpl; try done; [apply Good_nil|constructor..|]. intros c [= <-]. done.
Qed.

(** Writing a batch that leaves the counter alone. *)
Lemma Good_write h b : Good h -> batch_ok b -> Good (h ++ [b]).
Proof.
  intros Hg Hb. apply Good_snoc; [done| |by rewrite count_other].
  intros v. rewrite store_get_snoc, lookup_ops_other by done.
  intros E. apply (good_value _ Hg (length h)). by rewrite firstn_all.
Qed.

Lemma Good_counter h v :
  Good h -> count h <= v < 2 ^ 64 ->
  Good (h ++ [[(edgMonotonicCounterKey, Some (PutUint64 v))]]).
Proof.
  intros Hg Hv. pose proof (count_nonneg h). apply Good_snoc; [done| |rewrite count_counter; lia].
  intros v'. rewrite store_get_counter. intros [= <-]. apply length_PutUint64.
Qed.

Lemma get_counter h c :
  Good h -> edgGetMonotonicCounterFromStore Done (mkDB h c) = Ret (Ok (count h)).
Proof.
  intros Hg. unfold edgGetMonotonicCounterFromStore, count. simpl.
  destruct (store_get h edgMonotonicCounterKey) as [v|] eqn:E; [|done].
  rewrite (good_value _ Hg (length h) v) by (by rewrite firstn_all). done.
Qed.

Lemma Inv_weaken n n' w D : Inv n w D -> n <= n' -> Inv n' w D.
Proof. intros [] ?. split; try done. lia. Qed.

(** The store and the counters move on; nothing acknowledged changes. *)
Lemma Inv_extend n w D D' source c :
  Inv n w D -> w_disk w = D -> D `prefix_of` D' -> Good D' ->
  w_source w <= source <= c -> c <= count D' <= c + 1 -> count D' <= n + 1 ->
  Inv (n + 1) (mkWorld D' source (Some c) (w_acked w)) D'.
Proof.
  intros [H1 H2 H3 H4 H5 H6 H7] Hd Hp Hg Hs Hc Hn. split; simpl; try done.
  - eapply Forall_impl; [exact H3|]. intros h [? ?]. split; [by trans D|lia].
  - lia.
  - intros c' [= <-]. split; [done|lia].
Qed.

Lemma Inv_tx n w D o1 o2 o3 b :
  Inv n w D -> batch_ok b -> n + 1 < 2 ^ 64 ->
  exists w' D', act (ATx o1 o2 o3 b) w = Some w' /\ Inv (n + 1) w' D'.
Proof.
  intros Hi Hb Hn. unfold act. destruct (w_open w) as [c|] eqn:Ho.
  2: { exists w, D. split; [done|]. eapply Inv_weaken; [exact Hi|lia]. }
  destruct (inv_open _ _ _ Hi c Ho) as (HD & Hs & Hc).
  pose proof (inv_count _ _ _ Hi). pose proof (count_nonneg D).
  pose proof (inv_source _ _ _ Hi) as Hsrc.
  assert (u64 (c + 1) = c + 1) as Hu by (apply u64_small; lia).
  set (ctr := [(edgMonotonicCounterKey, Some (PutUint64 (c + 1)))] : batch).
  assert (Good (D ++ [ctr]) /\ count (D ++ [ctr]) = c + 1) as [Hg1 Hc1].
  { split; [apply Good_counter; [apply Hi|lia]|apply count_counter; lia]. }
  assert (Good (D ++ [ctr; b]) /\ count (D ++ [ctr; b]) = c + 1) as [Hg2 Hc2].
  { change (D ++ [ctr; b]) with (D ++ [ctr] ++ [b]). rewrite app_assoc.
    split; [by apply Good_write|by rewrite count_other]. }
  assert (D `prefix_of` D ++ [ctr] /\ D `prefix_of` D ++ [ctr; b]) as [Hp1 Hp2]
    by (split; by apply prefix_app_r).
  unfold Commit, edgSetMonotonicCounterOnStore. simpl. rewrite Hu, <- HD. fold ctr.
  destruct o1 as [|[]]; simpl.
  - destruct o2 as [|applied]; simpl.
    + destruct (Z.ltb_spec c (w_source w)); [lia|].
      rewrite Z.max_l by lia.
      destruct o3 as [|[]]; simpl.
      * rewrite <- app_assoc. simpl. eexists _, (D ++ [ctr; b]). split; [done|].
        destruct Hi as [I1 I2 I3 I4 I5 I6 I7].
        split; simpl; rewrite ?Hu, ?Hc2; try done; try lia.
        -- apply Forall_app. split; [|apply Forall_singleton; rewrite Hc2; split; [done|lia]].
           eapply Forall_impl; [exact I3|]. intros h [? ?]. split; [by trans D|lia].
        -- apply StronglySorted_app_2; [|done|repeat constructor].
           intros h h' Hh ->%list_elem_of_singleton. rewrite Hc2.
           rewrite Forall_forall in I3. destruct (I3 _ Hh). lia.
        -- intros c' [= <-]. split; [done|lia].
      * rewrite <- app_assoc. simpl. eexists _, (D ++ [ctr; b]). split; [done|].
        eapply Inv_extend; [exact Hi|done|done|done|lia|rewrite Hc2; lia|rewrite Hc2; lia].
      * eexists _, (D ++ [ctr]). split; [done|].
        eapply Inv_extend; [exact Hi|done|done|done|lia|rewrite Hc1; lia|rewrite Hc1; lia].
    + eexists _, (D ++ [ctr]). split; [done|].
      eapply Inv_extend; [exact Hi|done|done|done| |rewrite Hc1; lia|rewrite Hc1; lia].
      destruct applied; lia.
  - eexists _, (D ++ [ctr]). split; [done|].
    eapply Inv_extend; [exact Hi|done|done|done|lia|rewrite Hc1; lia|rewrite Hc1; lia].
  - eexists _, D. split; [done|].
    eapply Inv_extend; [exact Hi|done|done|apply Hi|lia|lia|lia].
Qed.

Lemma still_there_sorted R disk acked :
  StronglySorted R acked -> StronglySorted R (still_there disk acked).
Proof.
  unfold still_there. induction 1 as [|h l _ IH Hh]; [constructor|].
  rewrite filter_cons. case_decide; [|done]. constructor; [done|].
  apply Forall_forall. intros h' [_ Hh']%list_elem_of_filter.
  rewrite Forall_forall in Hh. by apply Hh.
Qed.

Lemma Inv_open_ok n w D :
  Inv n w D -> w_open w = None -> w_source w <= count (w_disk w) ->
  Inv n (mkWorld (w_disk w) (w_source w) (Some (count (w_disk w))) (still_there (w_disk w) (w_acked w)))
    (w_disk w).
Proof.
  intros [H1 H2 H3 H4 H5 H6 H7] Ho Hs.
  destruct (Good_prefix _ _ H2 H1) as [Hg Hle].
  split; simpl; try done; try lia.
  - apply Forall_forall. intros h [Hp Hh]%list_elem_of_filter. split; [done|].
    rewrite Forall_forall in H3. by apply H3.
  - by apply still_there_sorted.
  - intros c [= <-]. split; [done|lia].
Qed.

Lemma act_open n w D :
  Inv n w D -> w_open w = None ->
  act (AOpen Done Done) w =
    if w_source w <=? count (w_disk w) then
      Some (mkWorld (w_disk w) (w_source w) (Some (count (w_disk w))) (still_there (w_disk w) (w_acked w)))
    else Some w.
Proof.
  intros Hi Ho. unfold act. rewrite Ho. unfold edgVerifyFreshness. cbn [SetMonotonicCounter snd].
  rewrite get_counter by (eapply Good_prefix; apply Hi).
  cbn [mbind go_bind]. rewrite Z.leb_antisym.
  destruct (count (w_disk w) <? w_source w); done.
Qed.

Lemma Inv_act n w D a :
  Inv n w D -> action_ok a -> n + 1 < 2 ^ 64 ->
  exists w' D', act a w = Some w' /\ Inv (n + 1) w' D'.
Proof.
  intros Hi Ha Hn. assert (Inv (n + 1) w D) as Hi' by (eapply Inv_weaken; [exact Hi|lia]).
  destruct a as [o1 o2 o3 b|o b| |m|o og]; [by apply Inv_tx with D| | | |].
  - unfold act. destruct (w_open w) as [c|] eqn:Ho; [|by exists w, D].
    destruct (inv_open _ _ _ Hi c Ho) as (HD & Hs & Hc).
    pose proof (inv_count _ _ _ Hi).
    assert (Good (D ++ [b])) by (apply Good_write; [apply Hi|done]).
    assert (D `prefix_of` D ++ [b]) by (by apply prefix_app_r).
    destruct o as [|[]]; simpl; rewrite <- HD.
    1,2: eexists _, (D ++ [b]); split; [done|];
      eapply Inv_extend; [exact Hi|done|done|done|lia|rewrite count_other by done; lia..].
    eexists _, D. split; [done|].
    eapply Inv_extend; [exact Hi|done|done|apply Hi|lia..].
  - eexists _, D. split; [done|]. by destruct Hi'.
  - unfold act. destruct (w_open w) as [c|] eqn:Ho; [by exists w, D|].
    eexists _, D. split; [done|]. destruct Hi'. split; simpl; try done.
    trans (w_disk w); [apply prefix_take|done].
  - destruct (w_open w) as [c|] eqn:Ho.
    { exists w, D. unfold act. by rewrite Ho. }
    destruct o as [|]; [destruct og as [|]|].
    2,3: exists w, D; unfold act; by rewrite Ho.
    rewrite (act_open _ _ _ Hi Ho).
    destruct (Z.leb_spec (w_source w) (count (w_disk w))); [|by exists w, D].
    eexists _, _. split; [done|]. by apply Inv_open_ok with D.
Qed.

Lemma Inv_acts l : forall n w D,
  Inv n w D -> Forall action_ok l -> n + Z.of_nat (length l) < 2 ^ 64 ->
  exists w' D', acts l w = Some w' /\ Inv (n + Z.of_nat (length l)) w' D'.
Proof.
  induction l as [|a l IH]; intros n w D Hi Hl Hn.
  - exists w, D. rewrite Z.add_0_r. done.
  - apply Forall_cons in Hl as [Ha Hl]. cbn [length] in *.
    destruct (Inv_act n w D a Hi Ha) as (w1 & D1 & E1 & Hi1); [lia|].
    cbn [acts]. rewrite E1.
    destruct (IH _ _ _ Hi1 Hl) as (w' & D' & E & Hi'); [lia|].
    exists w', D'. split; [done|]. by replace (n + _) with (n + 1 + Z.of_nat (length l)) by lia.
Qed.

(** Without rollbacks, the disk is all there ever was. *)
Definition Whole (w : world) : Prop := w_source w <= count (w_disk w).
Definition no_rollback (a : action) : Prop :=
  match a with ARollback _ => False | _ => True end.

Lemma Whole_act n w D a w' :
  Inv n w D -> action_ok a -> n + 1 < 2 ^ 64 -> no_rollback a ->
  Whole w -> act a w = Some w' -> Whole w'.
Proof.
  intros Hi Ha Hn Hr Hw E.
  destruct (Inv_act n w D a Hi Ha Hn) as (w1 & D1 & E1 & Hi1).
  rewrite E in E1. injection E1 as <-.
  destruct (w_open w') as [c|] eqn:Ho.
  - destruct (inv_open _ _ _ Hi1 c Ho) as (-> & ? & ?). unfold Whole. lia.
  - unfold act in E. destruct a as [o1 o2 o3 b|o b| |m|o og]; simpl in Hr; try done.
    + destruct (w_open w); [|by injection E as <-].
      destruct (Commit _ _ _ _ _ _) as [[[?[]]?]|]; [|done..]. by injection E as <-.
    + destruct (w_open w); by injection E as <-.
    + by injection E as <-.
    + destruct (w_open w); [by injection E as <-|].
      destruct (edgVerifyFreshness _ _ _) as [[?[]]|]; [by injection E as <-..|done].
Qed.

Lemma Whole_acts l : forall n w D w',
  Inv n w D -> Forall action_ok l -> n + Z.of_nat (length l) < 2 ^ 64 ->
  Forall no_rollback l -> Whole w -> acts l w = Some w' -> Whole w'.
Proof.
  induction l as [|a l IH]; intros n w D w' Hi Hl Hn Hr Hw E.
  - by injection E as <-.
  - apply Forall_cons in Hl as [Ha Hl], Hr as [Hra Hr]. cbn [length] in *.
    destruct (Inv_act n w D a Hi Ha) as (w1 & D1 & E1 & Hi1); [lia|].
    cbn [acts] in E. rewrite E1 in E.
    eapply (IH (n + 1) w1 D1 w'); try done; [lia|].
    by eapply (Whole_act n w D a w1); try done; lia.
Qed.

(** ** What cannot be lost *)

(** Transactions whose counter the trusted source has passed. *)
Record Kept (kept : list store) (w : world) : Prop := {
  kept_acked : kept `prefix_of` w_acked w;
  kept_count : Forall (fun h => count h < w_source w) kept;
}.

Lemma Inv_kept n w D kept last : Inv n w D -> w_acked w = kept ++ [last] -> Kept kept w.
Proof.
  intros Hi E. pose proof (inv_acked _ _ _ Hi) as Ha. pose proof (inv_sorted _ _ _ Hi) as Hs.
  rewrite E in Ha, Hs. split; [rewrite E; by apply prefix_app_r|].
  apply Forall_app in Ha as [_ Ha]. apply Forall_cons in Ha as [[_ Ha] _].
  apply Forall_forall. intros h Hh. eapply Z.lt_le_trans; [|exact Ha].
  pose proof (StronglySorted_app_1_elem_of _ kept [last] h last Hs Hh) as Hlt. apply Hlt. left.
Qed.

Lemma filter_prefix {A} (P : A -> Prop) `{forall x, Decision (P x)} (l l' : list A) :
  l `prefix_of` l' -> Forall P l -> l `prefix_of` filter P l'.
Proof.
  intros [t ->] Hl. rewrite filter_app. exists (filter P t). f_equal.
  induction Hl as [|x l Hx _ IH]; [done|]. by rewrite filter_cons_True, IH.
Qed.

Lemma source_act a w w' : act a w = Some w' -> w_source w <= w_source w'.
Proof.
  unfold act. destruct a as [o1 o2 o3 b|o b| |m|o og], (w_open w) as [c|];
    try (intros [= <-]; simpl; lia).
  - unfold Commit. destruct (edgSetMonotonicCounterOnStore _ _ _) as [d [e|]]; [intros [= <-]; simpl; lia|].
    destruct o2 as [|[]]; simpl; [|intros [= <-]; simpl; lia..].
    destruct (_ <? _); [done|]. destruct (db_write o3 b _) as [d' err]. intros [= <-]. simpl. lia.
  - destruct (edgVerifyFreshness _ _ _) as [[d [e|]]|]; [intros [= <-]; simpl; lia..|done].
Qed.

Lemma kept_act n w D a w' kept :
  Inv n w D -> act a w = Some w' -> Kept kept w -> Kept kept w'.
Proof.
  intros Hi E [Hk Hc]. pose proof (source_act _ _ _ E) as Hs. split.
  2: { eapply Forall_impl; [exact Hc|]. intros h ?. simpl in *. lia. }
  unfold act in E. destruct a as [o1 o2 o3 b|o b| |m|o og].
  - destruct (w_open w); [|by injection E as <-].
    destruct (Commit _ _ _ _ _ _) as [[[d [source|]] [e|]]|]; try done; injection E as <-; [done|].
    simpl. by apply prefix_app_r.
  - destruct (w_open w); by injection E as <-.
  - by injection E as <-.
  - destruct (w_open w); by injection E as <-.
  - destruct (w_open w) eqn:Ho; [by injection E as <-|].
    destruct o as [|]; [destruct og as [|]|]; try (by injection E as <-).
    pose proof (act_open _ _ _ Hi Ho) as Eo. unfold act in Eo. rewrite Ho, E in Eo.
    destruct (Z.leb_spec (w_source w) (count (w_disk w))); injection Eo as ->; [|done].
    simpl. apply filter_prefix; [done|]. rewrite Forall_forall in *. intros h Hh.
    pose proof (inv_acked _ _ _ Hi) as Ha. rewrite Forall_forall in Ha.
    eapply prefix_by_count; [apply Hi|apply Ha|apply Hi|specialize (Hc _ Hh); lia].
    destruct Hk as [t ->]. apply elem_of_app. by left.
Qed.

Lemma kept_acts l : forall n w D w' kept,
  Inv n w D -> Forall action_ok l -> n + Z.of_nat (length l) < 2 ^ 64 ->
  acts l w = Some w' -> Kept kept w -> kept `prefix_of` w_acked w'.
Proof.
  induction l as [|a l IH]; intros n w D w' kept Hi Hl Hn E Hk.
  - injection E as <-. apply Hk.
  - apply Forall_cons in Hl as [Ha Hl]. cbn [length] in *.
    destruct (Inv_act n w D a Hi Ha) as (w1 & D1 & E1 & Hi1); [lia|].
    cbn [acts] in E. rewrite E1 in E.
    eapply (IH (n + 1) w1 D1); [exact Hi1|done|lia|done|]. exact (kept_act _ _ _ _ _ _ Hi E1 Hk).
Qed.

(** ** The properties *)

(** C14. The freshness check never locks an honest user out.  Whatever transactions and
    plain writes run, whichever of their steps fail or take effect in spite of an
    error, and wherever the program crashes: as long as nobody rolls the files back
    and clients do not write to the key of the counter (and there are fewer than 2^64
    actions) no [Commit] ends the program, no check
    panics, and a closed store can be opened when the trusted source answers. *)
Theorem freshness_accessible (l : list action) :
  Forall action_ok l -> Forall no_rollback l -> Z.of_nat (length l) < 2 ^ 64 ->
  exists w, acts l new_world = Some w /\
    (w_open w = None -> exists w', act (AOpen Done Done) w = Some w' /\ w_open w' <> None).
Proof.
  intros Hl Hr Hn.
  destruct (Inv_acts l 0 new_world [] Inv_new Hl) as (w & D & E & Hi); [lia|].
  exists w. split; [done|]. intros Ho. rewrite (act_open _ _ _ Hi Ho).
  assert (Whole w) as Hw.
  { eapply (Whole_acts l 0 new_world [] w Inv_new); try done; lia. }
  destruct (Z.leb_spec (w_source w) (count (w_disk w))) as [|Hlt]; [|unfold Whole in Hw; lia].
  eexists. split; [done|]. done.
Qed.

(** C15. Rollback protection.  The files may be rolled back to any earlier state while
    the store is closed, as often as one likes, and steps may fail; clients do not write to
    the key of the counter.  No execution panics.
    Of the acknowledged transactions that are there at some point of an execution, all
    but the last stay for good, whatever follows: no rollback that undoes one of them
    passes the check.  And whenever the database is open it has all the acknowledged
    transactions that were not lost.  (The last one at the time of a rollback can be
    lost, see [freshness_gap].) *)
Theorem freshness_rollback (l l' : list action) :
  Forall action_ok (l ++ l') -> Z.of_nat (length (l ++ l')) < 2 ^ 64 ->
  exists w w', acts l new_world = Some w /\ acts l' w = Some w' /\
    (forall kept last, w_acked w = kept ++ [last] -> kept `prefix_of` w_acked w') /\
    (w_open w' <> None -> Forall (fun h => h `prefix_of` w_disk w') (w_acked w')).
Proof.
  intros [Hl Hl']%Forall_app Hn. rewrite length_app in Hn.
  destruct (Inv_acts l 0 new_world [] Inv_new Hl) as (w & D & E & Hi); [lia|].
  destruct (Inv_acts l' _ w D Hi Hl') as (w' & D' & E' & Hi'); [lia|].
  exists w, w'. split_and!; [done|done| |].
  - intros kept last Ha. eapply (kept_acts l' _ w D); [exact Hi|done|lia|done|].
    by eapply Inv_kept.
  - destruct (w_open w') as [c|] eqn:Ho; [intros _|done].
    destruct (inv_open _ _ _ Hi' c Ho) as (HD & _). rewrite <- HD.
    eapply Forall_impl; [apply Hi'|]. by intros h [? _].
Qed.

(** The limit of the protection: the counter is written to the store in a batch
    of its own before the transaction's batch.  A store that is rolled back to the
    state between the two, after the transaction has been acknowledged, passes the
    check although the transaction is lost. *)
Theorem freshness_gap (h : store) (source c : Z) (b : batch) d source' :
  0 <= source <= c -> c + 1 < 2 ^ 64 ->
  Commit Done Done Done (Some b) (Some source) (mkDB h c) = Ret (d, Some source', None) ->
  exists h', db_store d = h' ++ [b] /\
    edgVerifyFreshness Done Done (Some source') (mkDB h' 0) = Ret (mkDB h' (c + 1), None).
Proof.
  intros Hs Hc. unfold Commit, edgSetMonotonicCounterOnStore. simpl.
  rewrite u64_small by lia. destruct (Z.ltb_spec c source); [lia|]. simpl.
  rewrite Z.max_l by lia. intros [= <- <-]. simpl. eexists. split; [done|].
  unfold edgVerifyFreshness. cbn [SetMonotonicCounter snd].
  unfold edgGetMonotonicCounterFromStore. simpl. rewrite store_get_counter.
  rewrite length_PutUint64. simpl.
  rewrite <- (app_nil_r (PutUint64 (c + 1))), Uint64_Put by lia.
  by rewrite Z.ltb_irrefl.
Qed.

(** ** Witnesses *)

Definition ex_put (k v : string) : batch := [(bytes_of_string k, Some (bytes_of_string v))].

(** A commit, one whose source fails after it has counted, a crash. *)
Definition ex_crash : list action :=
  [ATx Done Done Done (ex_put "a" "1"); ATx Done (Failed true) Done (ex_put "a" "2"); ACrash].

(** Two commits; then the files are rolled back to before the second, and another
    transaction is committed. *)
Definition ex_commits : list action :=
  [ATx Done Done Done (ex_put "a" "1"); ATx Done Done Done (ex_put "a" "2")].
Definition ex_rollback : list action :=
  [ACrash; ARollback 3; AOpen Done Done; ATx Done Done Done (ex_put "a" "3")].

Lemma ex_put_ok k v : bytes_of_string k <> edgMonotonicCounterKey -> batch_ok (ex_put k v).
Proof. intros Hk. apply Forall_cons. split; [done|apply Forall_nil_2]. Qed.

Lemma freshness_accessible_witness :
  exists w, acts ex_crash new_world = Some w /\
    (w_open w = None -> exists w', act (AOpen Done Done) w = Some w' /\ w_open w' <> None).
Proof.
  apply (freshness_accessible ex_crash).
  - repeat (apply Forall_cons; split; [first [exact I|by apply ex_put_ok]|]). apply Forall_nil_2.
  - repeat (apply Forall_cons; split; [exact I|]). apply Forall_nil_2.
  - vm_compute. reflexivity.
Defined.

Lemma freshness_rollback_witness :
  exists w w', acts ex_commits new_world = Some w /\ acts ex_rollback w = Some w' /\
    (forall kept last, w_acked w = kept ++ [last] -> kept `prefix_of` w_acked w') /\
    (w_open w' <> None -> Forall (fun h => h `prefix_of` w_disk w') (w_acked w')).
Proof.
  apply (freshness_rollback ex_commits ex_rollback).
  - repeat (apply Forall_cons; split; [first [exact I|by apply ex_put_ok]|]). apply Forall_nil_2.
  - vm_compute. reflexivity.
Defined.

(** The rollback of [ex_rollback] goes unnoticed and loses the second transaction; one
    batch more is detected. *)
Lemma ex_rollback_open :
  ((fun w => (w_open w, length (w_acked w))) <$> acts (ex_commits ++ take 3 ex_rollback) new_world)
    = Some (Some 2, 1%nat) /\
  (w_open <$> acts (ex_commits ++ [ACrash; ARollback 2; AOpen Done Done]) new_world) = Some None.
Proof. split; vm_compute; reflexivity. Qed.

Lemma freshness_gap_witness :
  exists h', db_store (mkDB [[(edgMonotonicCounterKey, Some (PutUint64 1))]; ex_put "a" "1"] 1) =
      h' ++ [ex_put "a" "1"] /\
    edgVerifyFreshness Done Done (Some 1) (mkDB h' 0) = Ret (mkDB h' (0 + 1), None).
Proof.
  apply (freshness_gap [] 0 0 (ex_put "a" "1")).
  - lia.
  - lia.
  - vm_compute. reflexivity.
Defined.
