(* ===== verification/GoStd.v ===== *)
(** What the code uses of the packages sort, strconv, strings and fmt of Go's library. *)
From S2P Require Import Prelude.
From Stdlib Require Import Sorting.Sorted.

(** * Sorting (package sort).  [sort.Sort] is not stable and which of the sorted
    permutations it returns is not documented: it is an interface with laws.
    [sort.Stable] is determined by the order. *)
Section orders.
Context {A : Type}.

(** What the package asks of [Less]. *)
Record weak_order (less : A -> A -> bool) : Prop := {
  less_irrefl x : less x x = false;
  less_trans x y z : less x y = true -> less y z = true -> less x z = true;
  geq_trans x y z : less y x = false -> less z y = false -> less z x = false;
}.

Definition sorted_by (less : A -> A -> bool) (l : list A) : Prop :=
  StronglySorted (fun x y => less y x = false) l.
End orders.

Class Sort := sort_Sort : forall {A : Type}, (A -> A -> bool) -> list A -> list A.
Class SortLaws (S : Sort) := {
  sort_perm {A} (less : A -> A -> bool) l : sort_Sort less l ≡ₚ l;
  sort_sorted {A} (less : A -> A -> bool) l : weak_order less -> sorted_by less (sort_Sort less l);
}.

(** [sort.Stable], as insertion from the right: an element goes in front of the
    later ones that are not less. *)
Fixpoint stable_insert {A} (less : A -> A -> bool) (x : A) (l : list A) : list A :=
  match l with
  | [] => [x]
  | y :: l => if less y x then y :: stable_insert less x l else x :: y :: l
  end.
Fixpoint sort_Stable {A} (less : A -> A -> bool) (l : list A) : list A :=
  match l with
  | [] => []
  | x :: l => stable_insert less x (sort_Stable less l)
  end.

Section stable.
Context {A : Type} (less : A -> A -> bool).

Lemma stable_insert_perm x l : stable_insert less x l ≡ₚ x :: l.
Proof.
  induction l as [|y l IH]; simpl; [done|]. destruct (less y x); [|done].
  rewrite IH. apply Permutation_swap.
Qed.

Lemma sort_Stable_perm l : sort_Stable less l ≡ₚ l.
Proof. induction l as [|x l IH]; simpl; [done|]. by rewrite stable_insert_perm, IH. Qed.

Context (Hless : weak_order less).

Lemma less_asym x y : less x y = true -> less y x = false.
Proof.
  intros Hxy. destruct (less y x) eqn:E; [|done].
  pose proof (less_trans _ Hless x y x Hxy E) as Hx. by rewrite (less_irrefl _ Hless) in Hx.
Qed.

Lemma stable_insert_sorted x l : sorted_by less l -> sorted_by less (stable_insert less x l).
Proof.
  induction 1 as [|y l Hl IH Hy]; simpl.
  - constructor; [constructor|done].
  - destruct (less y x) eqn:E.
    + constructor; [done|]. rewrite Forall_forall in Hy. apply Forall_forall.
      intros z. rewrite stable_insert_perm, elem_of_cons. intros [->|Hz]; [by apply less_asym|auto].
    + constructor; [by constructor|]. constructor; [done|].
      eapply Forall_impl; [exact Hy|]. intros z Hz. by eapply (geq_trans _ Hless x y z).
Qed.

Lemma sort_Stable_sorted l : sorted_by less (sort_Stable less l).
Proof. induction l; simpl; [constructor|by apply stable_insert_sorted]. Qed.
End stable.

(** The interface has an instance. *)
Definition insertion_sort : Sort := @sort_Stable.
Lemma insertion_sort_laws : SortLaws insertion_sort.
Proof.
  split; [intros A; apply sort_Stable_perm|intros A less l Hl; by apply sort_Stable_sorted].
Qed.

(** ** Search *)

(** [sort.Search(n, f)], a binary search: the interval shrinks in every round. *)
Fixpoint search_loop (fuel i j : nat) (f : nat -> bool) : nat :=
  match fuel with
  | O => i
  | S fuel =>
      if i <? j then
        let h := (i + j) / 2 in
        if f h then search_loop fuel i h f else search_loop fuel (h + 1) j f
      else i
  end.
Definition sort_Search (n : nat) (f : nat -> bool) : nat := search_loop n 0 n f.

Lemma search_loop_spec fuel : forall i j n f,
  i <= j <= n -> j - i <= fuel ->
  (forall x y, x <= y < n -> f x = true -> f y = true) ->
  let r := search_loop fuel i j f in
  i <= r <= j /\ (forall x, i <= x < r -> f x = false) /\ (forall x, r <= x < j -> f x = true).
Proof.
  induction fuel as [|fuel IH]; intros i j n f Hij Hf Hm; cbn [search_loop].
  { assert (i = j) as -> by lia. split; [lia|]. split; intros; lia. }
  destruct (Nat.ltb_spec i j); [|split; [lia|split; intros; lia]].
  assert (i <= (i + j) / 2 < j) as Hh.
  { split; [apply Nat.div_le_lower_bound|apply Nat.Div0.div_lt_upper_bound]; lia. }
  set (h := (i + j) / 2) in *. clearbody h. cbn zeta. destruct (f h) eqn:E.
  - destruct (IH i h n f) as (H1 & H2 & H3); [lia|lia|done|]. split; [lia|]. split; [done|].
    intros x Hx. destruct (decide (x < h)); [apply H3; lia|]. apply (Hm h); [lia|done].
  - destruct (IH (h + 1) j n f) as (H1 & H2 & H3); [lia|lia|done|]. split; [lia|]. split; [|done].
    intros x Hx. destruct (decide (x < h + 1)); [|apply H2; lia].
    destruct (f x) eqn:Ex; [|done]. rewrite (Hm x h) in E; [done|lia|done].
Qed.

(** For a predicate that stays true, the first index where it is true, or [n]. *)
Lemma sort_Search_spec n f :
  (forall x y, x <= y < n -> f x = true -> f y = true) ->
  let r := sort_Search n f in
  r <= n /\ (forall x, x < r -> f x = false) /\ (forall x, r <= x < n -> f x = true).
Proof.
  intros Hm. destruct (search_loop_spec n 0 n n f) as (H1 & H2 & H3); [lia|lia|done|].
  split; [unfold sort_Search; lia|]. split; [|done].
  intros x Hx. apply H2. unfold sort_Search in Hx. lia.
Qed.

(** * What the code uses of the packages strconv, strings and fmt: decimal numbers and
    searching in strings.  A Go string is a list of bytes. *)
(** ** Decimal numbers *)
Section decimal.
Local Open Scope Z_scope.

Definition digit (d : Z) : byte := z2b (48 + d).
Definition is_digit (c : byte) : bool := (48 <=? b2z c) && (b2z c <=? 57).

(** [strconv.FormatUint(n, 10)]; a uint64 has at most 20 digits. *)
Fixpoint format_aux (fuel : nat) (n : Z) (acc : bytes) : bytes :=
  match fuel with
  | O => acc
  | S fuel =>
      let acc := digit (n mod 10) :: acc in
      if n <? 10 then acc else format_aux fuel (n / 10) acc
  end.
Definition FormatUint (n : Z) : bytes := format_aux 20 n [].

(** The verb %06d *)
Definition pad_zero (w : nat) (s : bytes) : bytes := replicate (w - length s) (digit 0) ++ s.
Definition Sprintf_06d (n : Z) : bytes := pad_zero 6 (FormatUint n).

(** [strconv.ParseUint(s, 10, 64)]: the value and whether there was no error. *)
Definition maxUint64 : Z := 2 ^ 64 - 1.
Fixpoint parse_loop (s : bytes) (n : Z) : Z * bool :=
  match s with
  | [] => (n, true)
  | c :: s =>
      if negb (is_digit c) then (0, false)
      else if maxUint64 / 10 + 1 <=? n then (maxUint64, false)
      else
        let n := n * 10 in
        let n1 := u64 (n + (b2z c - 48)) in
        if (n1 <? n) || (maxUint64 <? n1) then (maxUint64, false)
        else parse_loop s n1
  end.
Definition ParseUint (s : bytes) : Z * bool :=
  match s with [] => (0, false) | _ => parse_loop s 0 end.

Lemma b2z_digit d : 0 <= d < 10 -> b2z (digit d) = 48 + d.
Proof. intros. unfold digit. rewrite b2z_z2b. apply Z.mod_small. lia. Qed.

Lemma is_digit_digit d : 0 <= d < 10 -> is_digit (digit d) = true.
Proof. intros. unfold is_digit. rewrite b2z_digit by done. lia. Qed.

Lemma parse_digit d n s :
  0 <= d < 10 -> 0 <= n -> n * 10 + d < 2 ^ 64 ->
  parse_loop (digit d :: s) n = parse_loop s (n * 10 + d).
Proof.
  intros Hd Hn Hlt. cbn [parse_loop]. rewrite is_digit_digit, b2z_digit by done. cbn [negb].
  replace (n * 10 + (48 + d - 48)) with (n * 10 + d) by lia.
  rewrite u64_small by lia.
  assert ((maxUint64 / 10 + 1 <=? n) = false) as ->
    by (apply Z.leb_gt; change (maxUint64 / 10) with 1844674407370955161; lia).
  assert ((n * 10 + d <? n * 10) || (maxUint64 <? n * 10 + d) = false) as ->
    by (unfold maxUint64; lia).
  done.
Qed.

Lemma parse_format fuel : forall n acc,
  0 <= n < 10 ^ Z.of_nat fuel -> n < 2 ^ 64 ->
  parse_loop (format_aux fuel n acc) 0 = parse_loop acc n.
Proof.
  induction fuel as [|fuel IH]; intros n acc Hn Hlt.
  - cbn [format_aux]. f_equal. change (10 ^ Z.of_nat 0) with 1 in Hn. lia.
  - cbn [format_aux]. rewrite Nat2Z.inj_succ, Z.pow_succ_r in Hn by lia.
    pose proof (Z.mod_pos_bound n 10). pose proof (Z.div_mod n 10).
    destruct (Z.ltb_spec n 10).
    + rewrite Z.mod_small by lia. rewrite parse_digit by lia. done.
    + assert (0 <= n / 10) by (apply Z.div_pos; lia).
      assert (n / 10 < 10 ^ Z.of_nat fuel) by (apply Z.div_lt_upper_bound; lia).
      rewrite IH by lia. rewrite parse_digit by lia. f_equal. lia.
Qed.

Lemma parse_zeros k s : parse_loop (replicate k (digit 0) ++ s) 0 = parse_loop s 0.
Proof.
  induction k as [|k IH]; [done|]. cbn [replicate app]. rewrite parse_digit by lia. done.
Qed.

Lemma format_aux_cons fuel : forall n acc, exists c s,
  format_aux (S fuel) n acc = c :: s.
Proof.
  induction fuel as [|fuel IH]; intros n acc; cbn [format_aux].
  - destruct (n <? 10); eexists _, _; done.
  - destruct (n <? 10); [eexists _, _; done|]. apply IH.
Qed.

Lemma ParseUint_FormatUint n :
  0 <= n < 2 ^ 64 -> ParseUint (FormatUint n) = (n, true).
Proof.
  intros Hn. unfold ParseUint, FormatUint.
  destruct (format_aux_cons 19 n []) as (c & s & E). rewrite E, <- E.
  rewrite parse_format; [done|split; [lia|]|lia]. change (10 ^ Z.of_nat 20) with (10 ^ 20). lia.
Qed.

Lemma ParseUint_06d n : 0 <= n < 2 ^ 64 -> ParseUint (Sprintf_06d n) = (n, true).
Proof.
  intros Hn. rewrite <- (ParseUint_FormatUint n Hn). unfold Sprintf_06d, pad_zero, ParseUint.
  destruct (format_aux_cons 19 n []) as (c & s & E). fold (FormatUint n) in E.
  destruct (replicate (6 - length (FormatUint n)) (digit 0) ++ FormatUint n) eqn:E2.
  - apply (f_equal length) in E2. revert E2. rewrite E. len.
  - rewrite <- E2, parse_zeros. by rewrite E.
Qed.

Lemma format_digits fuel : forall n acc,
  0 <= n -> Forall is_digit acc -> Forall is_digit (format_aux fuel n acc).
Proof.
  induction fuel as [|fuel IH]; intros n acc Hn Ha; cbn [format_aux]; [done|].
  assert (Forall is_digit (digit (n mod 10) :: acc)).
  { apply Forall_cons. split; [|done]. rewrite is_digit_digit; [done|].
    apply Z.mod_pos_bound. lia. }
  destruct (n <? 10); [done|]. apply IH; [|done]. apply Z.div_pos; lia.
Qed.

Lemma FormatUint_digits n : 0 <= n -> Forall is_digit (FormatUint n).
Proof. intros. by apply format_digits. Qed.

Lemma Sprintf_06d_digits n : 0 <= n -> Forall is_digit (Sprintf_06d n).
Proof.
  intros. apply Forall_app. split; [|by apply FormatUint_digits].
  apply Forall_replicate. by rewrite is_digit_digit.
Qed.

Lemma Sprintf_06d_cons n : 0 <= n -> exists c s, Sprintf_06d n = c :: s /\ is_digit c = true.
Proof.
  intros Hn. pose proof (Sprintf_06d_digits n Hn) as Hd.
  destruct (Sprintf_06d n) as [|c s] eqn:E.
  - unfold Sprintf_06d, pad_zero in E. apply (f_equal length) in E. revert E.
    destruct (format_aux_cons 19 n []) as (c & s & E). fold (FormatUint n) in E. rewrite E. len.
  - exists c, s. split; [done|]. apply Forall_cons in Hd as [Hd _].
    by destruct (is_digit c).
Qed.
End decimal.

(** ** Searching *)
Definition HasPrefix (s prefix : bytes) : bool := bool_decide (take (length prefix) s = prefix).
Definition HasSuffix (s suffix : bytes) : bool :=
  (length suffix <=? length s) && bool_decide (drop (length s - length suffix) s = suffix).
Definition TrimSuffix (s suffix : bytes) : bytes :=
  if HasSuffix s suffix then take (length s - length suffix) s else s.

Fixpoint IndexByte (s : bytes) (c : byte) : option nat :=
  match s with
  | [] => None
  | x :: s => if decide (x = c) then Some 0%nat else S <$> IndexByte s c
  end.

Lemma HasPrefix_app p s : HasPrefix (p ++ s) p = true.
Proof. unfold HasPrefix. apply bool_decide_eq_true_2. apply take_app_length. Qed.

Lemma HasPrefix_head x s y p : x <> y -> HasPrefix (x :: s) (y :: p) = false.
Proof. intros Hxy. apply bool_decide_eq_false_2. cbn [length take]. congruence. Qed.

Lemma HasSuffix_app s t : HasSuffix (s ++ t) t = true.
Proof.
  unfold HasSuffix. rewrite length_app. apply andb_true_intro. split; [apply Nat.leb_le; lia|].
  apply bool_decide_eq_true_2. rewrite drop_app_ge by lia. by replace (_ - _ - _)%nat with 0%nat by lia.
Qed.

Lemma TrimSuffix_app s t : TrimSuffix (s ++ t) t = s.
Proof.
  unfold TrimSuffix. rewrite HasSuffix_app, length_app.
  replace (length s + length t - length t)%nat with (length s) by lia. apply take_app_length.
Qed.

Lemma IndexByte_app s t c : c ∉ s -> IndexByte (s ++ c :: t) c = Some (length s).
Proof.
  induction s as [|x s IH]; intros Hc; simpl; [by rewrite decide_True|].
  apply not_elem_of_cons in Hc as [Hx Hs]. rewrite decide_False by done. by rewrite IH.
Qed.

(** [strings.FieldsFunc], for a function that only looks at ASCII characters: the
    non-empty runs of the others. *)
Fixpoint fields_aux (f : byte -> bool) (s cur : bytes) : list bytes :=
  match s with
  | [] => match cur with [] => [] | _ => [cur] end
  | c :: s =>
      if f c then match cur with [] => fields_aux f s [] | _ => cur :: fields_aux f s [] end
      else fields_aux f s (cur ++ [c])
  end.
Definition FieldsFunc (s : bytes) (f : byte -> bool) : list bytes := fields_aux f s [].

(** [strings.Split] at a separator of one byte. *)
Fixpoint split_aux (sep : byte) (s cur : bytes) : list bytes :=
  match s with
  | [] => [cur]
  | c :: s => if decide (c = sep) then cur :: split_aux sep s [] else split_aux sep s (cur ++ [c])
  end.
Definition Split_byte (s : bytes) (sep : byte) : list bytes := split_aux sep s [].

Lemma fields_word f w s cur :
  Forall (fun c => f c = false) w -> fields_aux f (w ++ s) cur = fields_aux f s (cur ++ w).
Proof.
  intros Hw. revert cur. induction Hw as [|c w Hc _ IH]; intros cur; simpl.
  - by rewrite app_nil_r.
  - rewrite Hc, IH. by rewrite <- app_assoc.
Qed.

Lemma fields_cons f w c s :
  Forall (fun c => f c = false) w -> w <> [] -> f c = true ->
  fields_aux f (w ++ c :: s) [] = w :: fields_aux f s [].
Proof. intros Hw Hne Hc. rewrite fields_word by done. simpl. rewrite Hc. by destruct w. Qed.

Lemma fields_last f w :
  Forall (fun c => f c = false) w -> w <> [] -> fields_aux f w [] = [w].
Proof.
  intros Hw Hne. rewrite <- (app_nil_r w) at 1. rewrite fields_word by done. by destruct w.
Qed.
