(* ===== verification/Filenames.v ===== *)
(** Names of the files of a database (src/internal/base/filenames.go). *)
From S2P Require Import Prelude.
From S2P Require Import GoStd.

Inductive FileType :=
| FileTypeLog | FileTypeLock | FileTypeTable | FileTypeManifest
| FileTypeCurrent | FileTypeOptions | FileTypeOldTemp | FileTypeTemp.

Definition MakeFilename (fileType : FileType) (dfn : Z) : bytes :=
  match fileType with
  | FileTypeLog => Sprintf_06d dfn ++ bytes_of_string ".log"
  | FileTypeLock => bytes_of_string "LOCK"
  | FileTypeTable => Sprintf_06d dfn ++ bytes_of_string ".sst"
  | FileTypeManifest => bytes_of_string "MANIFEST-" ++ Sprintf_06d dfn
  | FileTypeCurrent => bytes_of_string "CURRENT"
  | FileTypeOptions => bytes_of_string "OPTIONS-" ++ Sprintf_06d dfn
  | FileTypeOldTemp => bytes_of_string "CURRENT." ++ Sprintf_06d dfn ++ bytes_of_string ".dbtmp"
  | FileTypeTemp => bytes_of_string "temporary." ++ Sprintf_06d dfn ++ bytes_of_string ".dbtmp"
  end.

(** The paths of a [vfs.FS]: the base of a joined path is the name that was joined, unless
    it is one that cleaning a path removes, such as a dot. *)
Class Paths := {
  PathJoin : bytes -> bytes -> bytes;
  PathBase : bytes -> bytes;
}.
Definition path_separator : byte := Byte.x2f.
Class PathsLaws (P : Paths) := {
  base_join dir name : name <> [] -> path_separator ∉ name -> head name <> Some Byte.x2e ->
    PathBase (PathJoin dir name) = name;
}.

Section filenames.
Context {P : Paths}.

Definition MakeFilepath (dirname : bytes) (fileType : FileType) (dfn : Z) : bytes :=
  PathJoin dirname (MakeFilename fileType dfn).

Definition parseDiskFileNum (s : bytes) : option Z :=
  let '(u, ok) := ParseUint s in if ok then Some u else None.

(** [None] where the source returns [false]; the file number it returns with it is
    not used. *)
Definition ParseFilename (filename : bytes) : option (FileType * Z) :=
  let filename := PathBase filename in
  let with_num t s := (fun dfn => (t, dfn)) <$> parseDiskFileNum s in
  if bool_decide (filename = bytes_of_string "CURRENT") then Some (FileTypeCurrent, 0%Z)
  else if bool_decide (filename = bytes_of_string "LOCK") then Some (FileTypeLock, 0%Z)
  else if HasPrefix filename (bytes_of_string "MANIFEST-") then
    with_num FileTypeManifest (drop (length (bytes_of_string "MANIFEST-")) filename)
  else if HasPrefix filename (bytes_of_string "OPTIONS-") then
    with_num FileTypeOptions (drop (length (bytes_of_string "OPTIONS-")) filename)
  else if HasPrefix filename (bytes_of_string "CURRENT.") &&
          HasSuffix filename (bytes_of_string ".dbtmp") then
    with_num FileTypeOldTemp
      (TrimSuffix (drop (length (bytes_of_string "CURRENT.")) filename) (bytes_of_string ".dbtmp"))
  else if HasPrefix filename (bytes_of_string "temporary.") &&
          HasSuffix filename (bytes_of_string ".dbtmp") then
    with_num FileTypeTemp
      (TrimSuffix (drop (length (bytes_of_string "temporary.")) filename) (bytes_of_string ".dbtmp"))
  else
    match IndexByte filename Byte.x2e with
    | None => None
    | Some i =>
        match parseDiskFileNum (take i filename) with
        | None => None
        | Some dfn =>
            if bool_decide (drop (i + 1) filename = bytes_of_string "sst")
            then Some (FileTypeTable, dfn)
            else if bool_decide (drop (i + 1) filename = bytes_of_string "log")
            then Some (FileTypeLog, dfn)
            else None
        end
    end.

(** The counts of the message of [MustExist]: total, unknown, tables, logs,
    manifests. *)
Definition MustExist_counts (ls : list bytes) : nat * nat * nat * nat * nat :=
  fold_left (fun '(total, unknown, tables, logs, manifests) f =>
    match ParseFilename f with
    | None => (total, S unknown, tables, logs, manifests)
    | Some (FileTypeTable, _) => (total, unknown, S tables, logs, manifests)
    | Some (FileTypeLog, _) => (total, unknown, tables, S logs, manifests)
    | Some (FileTypeManifest, _) => (total, unknown, tables, logs, S manifests)
    | Some _ => (total, unknown, tables, logs, manifests)
    end) ls (length ls, 0, 0, 0, 0)%nat.

(** The number that is part of the name. *)
Definition named_num (t : FileType) (n : Z) : Z :=
  match t with FileTypeLock | FileTypeCurrent => 0%Z | _ => n end.

Lemma parseDiskFileNum_06d n : (0 <= n < 2 ^ 64)%Z -> parseDiskFileNum (Sprintf_06d n) = Some n.
Proof. intros Hn. unfold parseDiskFileNum. by rewrite ParseUint_06d. Qed.

Lemma digit_not c d : is_digit c = true -> is_digit d = false -> c <> d.
Proof. intros Hc Hd ->. congruence. Qed.

Lemma not_in_digits l c : Forall is_digit l -> is_digit c = false -> c ∉ l.
Proof.
  intros Hl Hc Hin. rewrite Forall_forall in Hl. specialize (Hl c Hin).
  by destruct (is_digit c).
Qed.

Context {L : PathsLaws P}.

Lemma no_separator t n : (0 <= n)%Z -> MakeFilename t n <> [] /\ (path_separator ∉ MakeFilename t n) /\
  head (MakeFilename t n) <> Some Byte.x2e.
Proof.
  intros Hn. pose proof (Sprintf_06d_digits n Hn) as Hd.
  pose proof (not_in_digits _ path_separator Hd eq_refl) as Hsep.
  assert (forall s, path_separator ∉ bytes_of_string s <->
    bool_decide (path_separator ∈ bytes_of_string s) = false) as Hs
    by (intros s; by rewrite bool_decide_eq_false).
  destruct (Sprintf_06d_cons n Hn) as (c & s & E & Hc).
  split; [destruct t; unfold MakeFilename; rewrite ?E; done|].
  split; [destruct t; unfold MakeFilename; rewrite ?not_elem_of_app, ?Hs; done|].
  destruct t; unfold MakeFilename; rewrite ?E; try done; intros [= ->]; by revert Hc.
Qed.

Lemma parse_number_name n t :
  (0 <= n < 2 ^ 64)%Z -> t = FileTypeLog \/ t = FileTypeTable ->
  forall dir, ParseFilename (MakeFilepath dir t n) = Some (t, n).
Proof.
  intros Hn Ht dir. unfold ParseFilename, MakeFilepath.
  rewrite base_join by (apply no_separator; lia).
  destruct (Sprintf_06d_cons n) as (c & s & E & Hc); [lia|].
  assert (exists r, MakeFilename t n = Sprintf_06d n ++ Byte.x2e :: r /\
    r = bytes_of_string (match t with FileTypeLog => "log" | _ => "sst" end)) as (r & -> & Hr)
    by (destruct Ht as [->| ->]; eexists; done).
  rewrite !(bool_decide_eq_false_2 (_ ++ _ = _))
    by (rewrite E; intros [= Ec _]; revert Ec; by apply digit_not).
  assert (forall p, (is_digit <$> head p) = Some false ->
    HasPrefix (Sprintf_06d n ++ Byte.x2e :: r) p = false) as Hp.
  { intros [|d p] [= Hd]. rewrite E. apply HasPrefix_head. by apply digit_not. }
  rewrite !Hp by done. cbn [andb].
  rewrite IndexByte_app by (apply not_in_digits; [apply Sprintf_06d_digits; lia|done]).
  rewrite take_app_length, parseDiskFileNum_06d by done.
  rewrite Nat.add_1_r, drop_app_ge by lia.
  replace (S (length (Sprintf_06d n)) - length (Sprintf_06d n))%nat with 1%nat by lia.
  cbn [drop]. rewrite Hr. by destruct Ht as [->| ->].
Qed.

Lemma HasPrefix_heads p q s :
  is_Some (head p) -> is_Some (head q) -> head p <> head q -> HasPrefix (p ++ s) q = false.
Proof.
  intros [x' Hx] [y' Hy] Hne. destruct p as [|x p], q as [|y q]; try done.
  apply HasPrefix_head. intros ->. by apply Hne.
Qed.

Lemma parse_temp_name p n :
  (0 <= n < 2 ^ 64)%Z ->
  let name := p ++ Sprintf_06d n ++ bytes_of_string ".dbtmp" in
  HasSuffix name (bytes_of_string ".dbtmp") = true /\
  parseDiskFileNum (TrimSuffix (drop (length p) name) (bytes_of_string ".dbtmp")) = Some n.
Proof.
  intros Hn name. unfold name. split.
  - rewrite app_assoc. apply HasSuffix_app.
  - rewrite drop_app_length, TrimSuffix_app. by apply parseDiskFileNum_06d.
Qed.

(** C16. Every name the database gives to a file is parsed as what it stands for: the
    type and, where the name has one, the number of the file. *)
Theorem filename_roundtrip (dir : bytes) (t : FileType) (n : Z) :
  (0 <= n < 2 ^ 64)%Z ->
  ParseFilename (MakeFilepath dir t n) = Some (t, named_num t n).
Proof.
  intros Hn. destruct t; try (by apply parse_number_name; auto);
    unfold ParseFilename, MakeFilepath; rewrite base_join by (apply no_separator; lia);
    unfold MakeFilename; try done.
  - rewrite HasPrefix_app, drop_app_length.
    rewrite !(bool_decide_eq_false_2 (_ ++ _ = _)) by done. by rewrite parseDiskFileNum_06d.
  - rewrite HasPrefix_app, drop_app_length.
    rewrite !(bool_decide_eq_false_2 (_ ++ _ = _)) by done.
    rewrite HasPrefix_heads by done. by rewrite parseDiskFileNum_06d.
  - destruct (parse_temp_name (bytes_of_string "CURRENT.") n Hn) as [-> ->].
    rewrite !(bool_decide_eq_false_2 (_ ++ _ = _)) by done.
    by rewrite HasPrefix_app, !HasPrefix_heads by done.
  - destruct (parse_temp_name (bytes_of_string "temporary.") n Hn) as [-> ->].
    rewrite !(bool_decide_eq_false_2 (_ ++ _ = _)) by done.
    by rewrite HasPrefix_app, !HasPrefix_heads by done.
Qed.
End filenames.

(** ** Witness: paths with slashes *)
Fixpoint last_segment (s cur : bytes) : bytes :=
  match s with
  | [] => cur
  | x :: s => if decide (x = path_separator) then last_segment s [] else last_segment s (cur ++ [x])
  end.

Definition slash_paths : Paths := {|
  PathJoin dir name := dir ++ path_separator :: name;
  PathBase s := last_segment s [];
|}.

Lemma last_segment_name s cur : path_separator ∉ s -> last_segment s cur = cur ++ s.
Proof.
  revert cur. induction s as [|x s IH]; intros cur Hs; simpl; [by rewrite app_nil_r|].
  apply not_elem_of_cons in Hs as [Hx Hs]. rewrite decide_False by done.
  rewrite IH by done. by rewrite <- app_assoc.
Qed.

Lemma slash_paths_laws : PathsLaws slash_paths.
Proof.
  split. intros dir name _ Hn _. simpl. generalize (@nil byte).
  induction dir as [|x dir IH]; intros cur; simpl.
  - rewrite ?decide_True by done. by apply last_segment_name.
  - destruct (decide (x = path_separator)); apply IH.
Qed.

Lemma filename_roundtrip_witness :
  ParseFilename (P := slash_paths)
    (MakeFilepath (P := slash_paths) (bytes_of_string "/data/db") FileTypeTable 42) =
    Some (FileTypeTable, 42%Z).
Proof.
  apply (filename_roundtrip (P := slash_paths) (L := slash_paths_laws)
    (bytes_of_string "/data/db") FileTypeTable 42).
  lia.
Defined.
