(* ===== verification/Comparer.v ===== *)
(** Comparers (src/internal/base/comparer.go): the contract of the functions that
    order user keys, as an interface with its laws, and the default comparer, which
    is proved to keep the contract. *)
From S2P Require Import Prelude.

(** ** The contract *)

(** [Compare] returns -1, 0 or +1; the results are the constructors of [comparison].
    The functions that take [dst] append to it. *)
Class Comparer := {
  Compare : bytes -> bytes -> comparison;
  Equal : bytes -> bytes -> bool;
  AbbreviatedKey : bytes -> Z;
  Separator : bytes -> bytes -> bytes -> bytes;
  Split : option (bytes -> nat);
  Successor : bytes -> bytes -> bytes;
  ImmediateSuccessor : bytes -> bytes -> bytes;
}.

(** Without a [Split] every key is a prefix. *)
Definition split_len `{Comparer} (a : bytes) : nat :=
  match Split with Some f => f a | None => length a end.
Definition prefix_key `{Comparer} (a : bytes) : Prop := split_len a = length a.

Class ComparerLaws (C : Comparer) := {
  compare_eq a b : Compare a b = Eq <-> a = b;
  compare_antisym a b : Compare b a = CompOpp (Compare a b);
  compare_trans a b c : Compare a b = Lt -> Compare b c = Lt -> Compare a c = Lt;
  compare_nil a : a <> [] -> Compare [] a = Lt;
  equal_spec a b : Equal a b = true <-> Compare a b = Eq;
  abbreviated_lt a b : (AbbreviatedKey a < AbbreviatedKey b)%Z -> Compare a b = Lt;
  separator_spec dst a b : Compare a b = Lt \/ b = [] ->
    exists k, Separator dst a b = dst ++ k /\ Compare a k <> Gt /\
      (b <> [] -> Compare k b = Lt);
  successor_spec dst a : exists k, Successor dst a = dst ++ k /\ Compare a k <> Gt;
  immediate_successor_spec dst a : prefix_key a ->
    exists k, ImmediateSuccessor dst a = dst ++ k /\ prefix_key k /\ Compare k a = Gt /\
      forall k2, prefix_key k2 -> Compare k2 a = Gt -> Compare k2 k <> Lt;
  split_prefix a : (split_len a <= length a)%nat;
  split_order a b : Compare a b <> Gt ->
    Compare (take (split_len a) a) (take (split_len b) b) <> Gt;
  split_first a : (split_len a < length a)%nat -> Compare (take (split_len a) a) a = Lt;
  split_suffix a b : Compare (take (split_len a) a) (take (split_len b) b) = Eq ->
    Compare (drop (split_len a) a) (drop (split_len b) b) = Compare a b;
}.

Section order.
Context {C : Comparer} {L : ComparerLaws C}.

Lemma compare_refl a : Compare a a = Eq.
Proof. by apply compare_eq. Qed.

Lemma compare_gt_lt a b : Compare a b = Gt <-> Compare b a = Lt.
Proof. rewrite (compare_antisym a b). by destruct (Compare a b). Qed.

Lemma compare_le_trans a b c : Compare a b <> Gt -> Compare b c <> Gt -> Compare a c <> Gt.
Proof.
  intros Hab Hbc. destruct (Compare a b) eqn:E1; [|destruct (Compare b c) eqn:E2|]; try done.
  - apply compare_eq in E1 as ->. done.
  - apply compare_eq in E2 as ->. by rewrite E1.
  - by rewrite (compare_trans _ _ _ E1 E2).
Qed.

Lemma compare_le_lt_trans a b c : Compare a b <> Gt -> Compare b c = Lt -> Compare a c = Lt.
Proof.
  intros Hab Hbc. destruct (Compare a b) eqn:E; [|by eapply compare_trans|done].
  by apply compare_eq in E as ->.
Qed.

Lemma compare_lt_le_trans a b c : Compare a b = Lt -> Compare b c <> Gt -> Compare a c = Lt.
Proof.
  intros Hab Hbc. destruct (Compare b c) eqn:E; [|by eapply compare_trans|done].
  by apply compare_eq in E as <-.
Qed.

End order.

(** ** The default comparer *)

(** The first loop of [SharedPrefixLen] compares words of eight bytes. *)
Fixpoint sharedWords (fuel n : nat) (a b : bytes) (i : nat) : nat :=
  match fuel with
  | O => i
  | S fuel =>
      if (i + 7 <? n) && (Uint64 (drop i a) =? Uint64 (drop i b))%Z
      then sharedWords fuel n a b (i + 8) else i
  end.

Fixpoint sharedBytes (fuel n : nat) (a b : bytes) (i : nat) : nat :=
  match fuel with
  | O => i
  | S fuel =>
      if (i <? n) && bool_decide (a !! i = b !! i) then sharedBytes fuel n a b (S i) else i
  end.

Definition SharedPrefixLen (a b : bytes) : nat :=
  let n := if length b <? length a then length b else length a in
  sharedBytes n n a b (sharedWords n n a b 0).

Definition incr_at (l : bytes) (i : nat) : bytes := alter (fun x => z2b (b2z x + 1)) i l.

(** The last loop of [Separator]. *)
Fixpoint separatorLoop (fuel : nat) (dst : bytes) (i : nat) : bytes :=
  match fuel with
  | O => dst
  | S fuel =>
      match dst !! i with
      | None => dst
      | Some x => if negb (b2z x =? 255)%Z then take (i + 1) (incr_at dst i)
                  else separatorLoop fuel dst (S i)
      end
  end.

Definition default_Separator (dst a b : bytes) : bytes :=
  let i := SharedPrefixLen a b in
  let n := length dst in
  let dst := dst ++ a in
  let min := if length b <? length a then length b else length a in
  if min <=? i then dst else
  match a !! i, b !! i with
  | Some ai, Some bi =>
      if (b2z bi <=? b2z ai)%Z then dst else
      if (i + 1 <? length b) || (u8 (b2z ai + 1) <? b2z bi)%Z
      then take (i + n + 1) (incr_at dst (i + n))
      else separatorLoop (length dst) dst (i + n + 1)
  | _, _ => dst
  end.

Fixpoint successorLoop (fuel : nat) (dst a : bytes) (i : nat) : bytes :=
  match fuel with
  | O => dst ++ a
  | S fuel =>
      match a !! i with
      | None => dst ++ a
      | Some x =>
          if negb (b2z x =? 255)%Z
          then let dst := dst ++ take (i + 1) a in incr_at dst (length dst - 1)
          else successorLoop fuel dst a (S i)
      end
  end.

Definition default_Successor (dst a : bytes) : bytes := successorLoop (length a) dst a 0.

Definition default_ImmediateSuccessor (dst a : bytes) : bytes := (dst ++ a) ++ [Byte.x00].

(** binary.BigEndian.Uint64 *)
Definition be_get (l : bytes) : Z := fold_left (fun v b => v * 256 + b2z b)%Z l 0%Z.
Definition BigEndian_Uint64 (l : bytes) : Z := be_get (take 8 l).

Definition default_AbbreviatedKey (key : bytes) : Z :=
  if 8 <=? length key then BigEndian_Uint64 key
  else
    let v := fold_left (fun v b => Z.lor (u64 (Z.shiftl v 8)) (b2z b)) key 0%Z in
    u64 (Z.shiftl v (8 * (8 - Z.of_nat (length key)))).

Definition DefaultComparer : Comparer := {|
  Compare := bytes_Compare;
  Equal a b := bool_decide (a = b);
  AbbreviatedKey := default_AbbreviatedKey;
  Separator := default_Separator;
  Split := None;
  Successor := default_Successor;
  ImmediateSuccessor := default_ImmediateSuccessor;
|}.

(** ** The default comparer keeps the contract *)

Lemma bytes_Compare_app_r a b : b <> [] -> bytes_Compare a (a ++ b) = Lt.
Proof.
  intros Hb. rewrite <- (app_nil_r a) at 1. rewrite bytes_Compare_app_l. by destruct b.
Qed.

Lemma bytes_Compare_app_ge a b : bytes_Compare a (a ++ b) <> Gt.
Proof.
  destruct b; [rewrite app_nil_r, bytes_Compare_refl; done|by rewrite bytes_Compare_app_r].
Qed.

Lemma bytes_Compare_diff p x y a b :
  (b2z x < b2z y)%Z -> bytes_Compare (p ++ x :: a) (p ++ y :: b) = Lt.
Proof.
  intros Hxy. rewrite bytes_Compare_app_l. simpl. by rewrite (proj2 (Z.compare_lt_iff _ _) Hxy).
Qed.

Lemma take_S_eq (a b : bytes) i :
  take i a = take i b -> a !! i = b !! i -> take (S i) a = take (S i) b.
Proof.
  intros Ht Hi. destruct (a !! i) as [x|] eqn:Ea.
  - by rewrite (take_S_r a i x), (take_S_r b i x), Ht.
  - apply lookup_ge_None in Ea. symmetry in Hi. apply lookup_ge_None in Hi.
    rewrite !take_ge in Ht |- * by lia. done.
Qed.

Lemma sharedBytes_spec fuel n a b : forall i,
  (n <= fuel + i)%nat -> (i <= n)%nat -> take i a = take i b ->
  let j := sharedBytes fuel n a b i in
  (j <= n)%nat /\ take j a = take j b /\ ((j < n)%nat -> a !! j <> b !! j).
Proof.
  induction fuel as [|fuel IH]; intros i Hf Hi Ht; simpl.
  - split; [lia|]. split; [done|]. lia.
  - destruct (Nat.ltb_spec i n); simpl.
    + case_bool_decide as E; [|done]. apply IH; [lia|lia|by apply take_S_eq].
    + split; [lia|]. split; [done|]. lia.
Qed.

Lemma take_8_eq (a b : bytes) i :
  (i + 8 <= length a)%nat -> (i + 8 <= length b)%nat ->
  take i a = take i b -> Uint64 (drop i a) = Uint64 (drop i b) ->
  take (i + 8) a = take (i + 8) b.
Proof.
  intros Ha Hb Ht Hu. rewrite <- (take_drop i a), <- (take_drop i b), Ht.
  rewrite !take_app_ge by (rewrite length_take; lia). f_equal.
  rewrite length_take_le by lia. replace (i + 8 - i)%nat with 8%nat by lia.
  unfold Uint64 in Hu.
  rewrite <- (le_put_get (take 8 (drop i a))), <- (le_put_get (take 8 (drop i b))), Hu.
  f_equal. len.
Qed.

Lemma sharedWords_spec fuel n a b : forall i,
  (n <= length a)%nat -> (n <= length b)%nat -> (i <= n)%nat -> take i a = take i b ->
  let j := sharedWords fuel n a b i in (j <= n)%nat /\ take j a = take j b.
Proof.
  induction fuel as [|fuel IH]; intros i Ha Hb Hi Ht; simpl; [done|].
  destruct (Nat.ltb_spec (i + 7) n); simpl; [|done].
  destruct (Z.eqb_spec (Uint64 (drop i a)) (Uint64 (drop i b))); [|done].
  apply IH; [done|done|lia|]. by apply take_8_eq; [lia|lia|..].
Qed.

Lemma SharedPrefixLen_spec a b :
  let j := SharedPrefixLen a b in
  let n := Nat.min (length a) (length b) in
  (j <= n)%nat /\ take j a = take j b /\ ((j < n)%nat -> a !! j <> b !! j).
Proof.
  intros j n.
  assert ((if length b <? length a then length b else length a) = n) as En.
  { unfold n. destruct (Nat.ltb_spec (length b) (length a)); lia. }
  unfold j, SharedPrefixLen. rewrite En.
  destruct (sharedWords_spec n n a b 0) as [Hw1 Hw2]; [lia..|done|].
  apply sharedBytes_spec; [lia|done|done].
Qed.

Lemma take_incr_at (l : bytes) i x :
  l !! i = Some x -> take (i + 1) (incr_at l i) = take i l ++ [z2b (b2z x + 1)].
Proof.
  intros Hx. unfold incr_at. rewrite Nat.add_1_r.
  rewrite (take_S_r _ i (z2b (b2z x + 1))).
  - f_equal. by apply take_alter_ge.
  - rewrite list_lookup_alter_eq. by rewrite Hx.
Qed.

Lemma b2z_incr x : b2z x <> 255%Z -> b2z (z2b (b2z x + 1)) = (b2z x + 1)%Z.
Proof. intros. pose proof (b2z_range x). rewrite b2z_z2b. apply Z.mod_small. lia. Qed.

(** The keys the loops return: [a] cut after some byte that has been incremented. *)
Lemma bytes_Compare_incr a i x :
  a !! i = Some x -> b2z x <> 255%Z ->
  bytes_Compare a (take i a ++ [z2b (b2z x + 1)]) = Lt.
Proof.
  intros Hx H255. rewrite <- (take_drop_middle a i x Hx) at 1.
  apply bytes_Compare_diff. rewrite b2z_incr; [lia|done].
Qed.

Lemma separatorLoop_spec fuel dst a : forall i,
  exists k, separatorLoop fuel (dst ++ a) (length dst + i) = dst ++ k /\
    (k = a \/ exists j x, (i <= j)%nat /\ a !! j = Some x /\ b2z x <> 255%Z /\
      k = take j a ++ [z2b (b2z x + 1)]).
Proof.
  induction fuel as [|fuel IH]; intros i; cbn [separatorLoop].
  { exists a. split; [done|by left]. }
  rewrite lookup_app_r by lia. replace (length dst + i - length dst)%nat with i by lia.
  destruct (a !! i) as [x|] eqn:Hx; [|exists a; split; [done|by left]].
  destruct (Z.eqb_spec (b2z x) 255); simpl.
  - rewrite <- Nat.add_succ_r. destruct (IH (S i)) as (k & -> & [->|(j & y & Hj & Hy)]).
    + exists a. split; [done|by left].
    + exists k. split; [done|]. right. exists j, y. split; [lia|done].
  - exists (take i a ++ [z2b (b2z x + 1)]). split.
    + rewrite (take_incr_at _ _ x).
      * rewrite take_app_add', <- app_assoc by done. done.
      * rewrite lookup_app_r by lia. by replace (length dst + i - length dst)%nat with i by lia.
    + right. exists i, x. done.
Qed.

Lemma default_Separator_spec dst a b : bytes_Compare a b = Lt \/ b = [] ->
  exists k, default_Separator dst a b = dst ++ k /\ bytes_Compare a k <> Gt /\
    (b <> [] -> bytes_Compare k b = Lt).
Proof.
  intros Hab.
  assert (exists k, dst ++ a = dst ++ k /\ bytes_Compare a k <> Gt /\
    (b <> [] -> bytes_Compare k b = Lt)) as Hsame.
  { exists a. rewrite bytes_Compare_refl. by destruct Hab. }
  unfold default_Separator.
  destruct (SharedPrefixLen_spec a b) as (Hj & Ht & Hne). set (i := SharedPrefixLen a b) in *.
  set (n := if length b <? length a then length b else length a).
  assert (n = Nat.min (length a) (length b)) as En.
  { unfold n. destruct (Nat.ltb_spec (length b) (length a)); lia. }
  destruct (Nat.leb_spec n i); [done|].
  destruct (lookup_lt_is_Some_2 a i) as [x Hx]; [lia|].
  destruct (lookup_lt_is_Some_2 b i) as [y Hy]; [lia|].
  rewrite Hx, Hy. destruct (Z.leb_spec (b2z y) (b2z x)) as [|Hxy]; [done|].
  pose proof (b2z_range x). pose proof (b2z_range y).
  assert (b = take i a ++ y :: drop (S i) b) as Eb by (rewrite Ht; symmetry; by apply take_drop_middle).
  assert (u8 (b2z x + 1) = b2z x + 1)%Z as -> by (apply Z.mod_small; lia).
  destruct ((i + 1 <? length b) || (b2z x + 1 <? b2z y)%Z) eqn:Hc.
  - exists (take i a ++ [z2b (b2z x + 1)]). rewrite (Nat.add_comm i (length dst)). split; [|split].
    + rewrite (take_incr_at _ _ x).
      * rewrite take_app_add', <- app_assoc by done. done.
      * rewrite lookup_app_r by lia. by replace (length dst + i - length dst)%nat with i by lia.
    + rewrite bytes_Compare_incr; [done|done|lia].
    + intros _. apply orb_true_iff in Hc as [Hc|Hc].
      * apply Nat.ltb_lt in Hc. destruct (decide (b2z x + 1 = b2z y)%Z) as [Exy|].
        -- rewrite Exy, z2b_b2z, Eb.
           change (y :: drop (S i) b) with ([y] ++ drop (S i) b). rewrite app_assoc.
           apply bytes_Compare_app_r. intros E%(f_equal length). revert E. len.
        -- rewrite Eb. apply bytes_Compare_diff. rewrite b2z_incr; lia.
      * apply Z.ltb_lt in Hc. rewrite Eb. apply bytes_Compare_diff. rewrite b2z_incr; lia.
  - apply orb_false_iff in Hc as [Hc1 Hc2]. apply Nat.ltb_ge in Hc1. apply Z.ltb_ge in Hc2.
    replace (i + length dst + 1)%nat with (length dst + (i + 1))%nat by lia.
    destruct (separatorLoop_spec (length (dst ++ a)) dst a (i + 1))
      as (k & -> & [->|(j & z & Hij & Hz & H255 & ->)]); [done|].
    eexists. split; [done|]. split; [by rewrite bytes_Compare_incr|].
    intros _. rewrite Eb.
    assert (exists r, take j a ++ [z2b (b2z z + 1)] = take i a ++ x :: r) as [r ->].
    { exists (drop (S i) (take j a) ++ [z2b (b2z z + 1)]).
      rewrite <- (take_drop_middle (take j a) i x) at 1 by (by rewrite lookup_take_lt by lia).
      rewrite take_take, Nat.min_l by lia. rewrite <- app_assoc. done. }
    by apply bytes_Compare_diff.
Qed.

Lemma default_Successor_spec dst a :
  exists k, default_Successor dst a = dst ++ k /\ bytes_Compare a k <> Gt.
Proof.
  unfold default_Successor. generalize 0%nat. generalize (length a). intros fuel.
  induction fuel as [|fuel IH]; intros i; cbn [successorLoop].
  { exists a. by rewrite bytes_Compare_refl. }
  destruct (a !! i) as [x|] eqn:Hx; [|exists a; by rewrite bytes_Compare_refl].
  destruct (Z.eqb_spec (b2z x) 255); simpl; [apply IH|].
  exists (take i a ++ [z2b (b2z x + 1)]). split; [|by rewrite bytes_Compare_incr].
  pose proof (lookup_lt_Some _ _ _ Hx).
  rewrite Nat.add_1_r, (take_S_r a i x) by done.
  unfold incr_at. rewrite app_assoc, length_app. simpl.
  replace (length (dst ++ take i a) + 1 - 1)%nat with (length (dst ++ take i a) + 0)%nat by lia.
  rewrite alter_app_r. simpl. by rewrite <- app_assoc.
Qed.

(** [AbbreviatedKey]: the first [n] bytes of a key as a big-endian number, padded
    with zeros. *)
Section abbreviated.
Local Open Scope Z_scope.

Fixpoint abbr (n : nat) (a : bytes) : Z :=
  match n, a with
  | S n, x :: a => b2z x * 256 ^ Z.of_nat n + abbr n a
  | _, _ => 0
  end.

Lemma pow256_S n : 256 ^ Z.of_nat (S n) = 256 * 256 ^ Z.of_nat n.
Proof. rewrite Nat2Z.inj_succ, Z.pow_succ_r; lia. Qed.

Lemma abbr_range n : forall a, 0 <= abbr n a < 256 ^ Z.of_nat n.
Proof.
  induction n as [|n IH]; intros [|x a]; cbn [abbr]; rewrite ?pow256_S; try lia.
  pose proof (b2z_range x). pose proof (IH a). nia.
Qed.

Lemma abbr_mono n : forall a b, bytes_Compare a b <> Gt -> abbr n a <= abbr n b.
Proof.
  induction n as [|n IH]; intros [|x a] [|y b]; simpl; try done.
  - intros _. pose proof (b2z_range y). pose proof (abbr_range n b). nia.
  - pose proof (abbr_range n a). pose proof (abbr_range n b).
    destruct (Z.compare_spec (b2z x) (b2z y)) as [->|E|E]; try done.
    + intros Hab. pose proof (IH a b Hab). lia.
    + intros _. nia.
Qed.

Lemma fold_be l : forall v,
  fold_left (fun v b => v * 256 + b2z b) l v = v * 256 ^ Z.of_nat (length l) + be_get l.
Proof.
  induction l as [|x l IH]; intros v; [unfold be_get; simpl; lia|].
  unfold be_get. cbn [fold_left length]. rewrite (IH (v * 256 + b2z x)), (IH (0 * 256 + b2z x)).
  rewrite pow256_S. lia.
Qed.

Lemma be_get_cons x l : be_get (x :: l) = b2z x * 256 ^ Z.of_nat (length l) + be_get l.
Proof. unfold be_get at 1. cbn [fold_left]. rewrite fold_be. lia. Qed.

Lemma abbr_be n : forall a, abbr n a = be_get (take n a) * 256 ^ Z.of_nat (n - length (take n a)).
Proof.
  induction n as [|n IH]; intros [|x a]; cbn [abbr take].
  1-3: by unfold be_get; rewrite Z.mul_0_l.
  rewrite be_get_cons, (IH a). cbn [length]. rewrite Nat.sub_succ.
  assert (length (take n a) <= n)%nat as Hl by (rewrite length_take; lia).
  replace (Z.of_nat n) with (Z.of_nat (length (take n a)) + Z.of_nat (n - length (take n a))) at 1
    by lia.
  rewrite Z.pow_add_r by lia. ring.
Qed.

Lemma be_get_range l : 0 <= be_get l < 256 ^ Z.of_nat (length l).
Proof.
  induction l as [|x l IH]; [done|]. rewrite be_get_cons. cbn [length]. rewrite pow256_S.
  pose proof (b2z_range x). nia.
Qed.

Lemma fold_shift l : (length l <= 8)%nat ->
  fold_left (fun v b => Z.lor (u64 (Z.shiftl v 8)) (b2z b)) l 0 = be_get l.
Proof.
  induction l as [|x l IH] using rev_ind; intros Hl; [done|].
  rewrite length_app in Hl. cbn [length] in Hl.
  unfold be_get. rewrite !fold_left_app. cbn [fold_left]. fold (be_get l).
  rewrite IH by lia. pose proof (be_get_range l) as Hr. pose proof (b2z_range x).
  assert (256 ^ Z.of_nat (length l) <= 256 ^ 7) by (apply Z.pow_le_mono_r; lia).
  rewrite u64_small.
  - rewrite Z.lor_comm, lor_shiftl_add by lia. lia.
  - rewrite Z.shiftl_mul_pow2 by lia. lia.
Qed.

Lemma default_AbbreviatedKey_spec a : default_AbbreviatedKey a = abbr 8 a.
Proof.
  unfold default_AbbreviatedKey, BigEndian_Uint64. rewrite abbr_be.
  destruct (Nat.leb_spec 8 (length a)).
  - rewrite length_take_le by lia. rewrite Nat.sub_diag. change (256 ^ Z.of_nat 0) with 1. lia.
  - rewrite take_ge by lia. rewrite fold_shift by lia.
    rewrite Z.shiftl_mul_pow2 by lia.
    rewrite Z.pow_mul_r by lia. change (2 ^ 8) with 256.
    replace (8 - Z.of_nat (length a)) with (Z.of_nat (8 - length a)) by lia.
    apply u64_small. pose proof (abbr_range 8 a) as Hr. rewrite abbr_be, take_ge in Hr by lia.
    exact Hr.
Qed.

Lemma default_AbbreviatedKey_lt a b :
  default_AbbreviatedKey a < default_AbbreviatedKey b -> bytes_Compare a b = Lt.
Proof.
  rewrite !default_AbbreviatedKey_spec. intros Hlt.
  destruct (bytes_Compare a b) eqn:E; [|done|].
  - apply bytes_Compare_eq in E as ->. lia.
  - assert (bytes_Compare b a <> Gt) as Hle by (by rewrite bytes_Compare_antisym, E).
    apply (abbr_mono 8) in Hle. lia.
Qed.
End abbreviated.

Lemma default_ImmediateSuccessor_spec a k2 :
  bytes_Compare k2 a = Gt -> bytes_Compare k2 (a ++ [Byte.x00]) <> Lt.
Proof.
  revert k2. induction a as [|x a IH]; intros [|y k2]; simpl; try done.
  - intros _. pose proof (b2z_range y). change (b2z Byte.x00) with 0%Z.
    destruct (Z.compare_spec (b2z y) 0); try done; [|lia]. by destruct k2.
  - destruct (b2z y ?= b2z x)%Z; try done. apply IH.
Qed.

Lemma default_laws : ComparerLaws DefaultComparer.
Proof.
  split; simpl.
  - apply bytes_Compare_eq.
  - apply bytes_Compare_antisym.
  - apply bytes_Compare_lt_trans.
  - by intros [].
  - intros a b. rewrite bool_decide_eq_true. symmetry. apply bytes_Compare_eq.
  - apply default_AbbreviatedKey_lt.
  - apply default_Separator_spec.
  - apply default_Successor_spec.
  - intros dst a _. exists (a ++ [Byte.x00]). unfold default_ImmediateSuccessor.
    rewrite app_assoc. split; [done|]. split; [done|]. split.
    + by rewrite bytes_Compare_antisym, bytes_Compare_app_r.
    + intros k2 _. apply default_ImmediateSuccessor_spec.
  - done.
  - intros a b. unfold split_len. simpl. by rewrite !firstn_all.
  - intros a. unfold split_len. simpl. lia.
  - intros a b. unfold split_len. simpl. rewrite !firstn_all, !drop_all.
    intros Hab. by rewrite Hab.
Qed.

(** The default comparer keeps the contract of [Comparer]: a total order in which
    the empty key comes first, abbreviated keys that are ordered like the keys,
    separators, successors and immediate successors where they have to be.  And
    [SharedPrefixLen], which looks at eight bytes at a time, returns the largest [i]
    with [a[:i]] equal to [b[:i]]. *)
Theorem default_comparer :
  ComparerLaws DefaultComparer /\
  forall a b, let i := SharedPrefixLen a b in
    (i <= Nat.min (length a) (length b))%nat /\ take i a = take i b /\
    forall j, (j <= Nat.min (length a) (length b))%nat -> take j a = take j b -> (j <= i)%nat.
Proof.
  split; [exact default_laws|]. intros a b i.
  destruct (SharedPrefixLen_spec a b) as (Hj & Ht & Hne). fold i in Hj, Ht, Hne.
  split; [done|]. split; [done|]. intros j Hjn Hj2.
  destruct (Nat.le_gt_cases j i) as [|Hlt]; [done|]. exfalso. apply Hne; [lia|].
  rewrite <- (lookup_take_lt a j i), <- (lookup_take_lt b j i) by lia. by rewrite Hj2.
Qed.
