(* ===== verification/InternalKey.v ===== *)
(** Internal keys (src/internal/base/internal.go): a user key with a trailer that
    packs a sequence number of 56 bits and a kind of 8 bits. *)
From S2P Require Import Prelude.
From S2P Require Import GoStd.
From S2P Require Import Comparer.

Local Open Scope Z_scope.

Definition SeqNumZero : Z := 0.
Definition SeqNumStart : Z := 10.

(** [InternalKeyKind] is a uint8. *)
Abbreviation InternalKeyKind := Z (only parsing).
Definition InternalKeyKindDelete : Z := 0.
Definition InternalKeyKindSet : Z := 1.
Definition InternalKeyKindMerge : Z := 2.
Definition InternalKeyKindLogData : Z := 3.
Definition InternalKeyKindSingleDelete : Z := 7.
Definition InternalKeyKindRangeDelete : Z := 15.
Definition InternalKeyKindSeparator : Z := 17.
Definition InternalKeyKindSetWithDelete : Z := 18.
Definition InternalKeyKindRangeKeyDelete : Z := 19.
Definition InternalKeyKindRangeKeyUnset : Z := 20.
Definition InternalKeyKindRangeKeySet : Z := 21.
Definition InternalKeyKindIngestSST : Z := 22.
Definition InternalKeyKindDeleteSized : Z := 23.
Definition InternalKeyKindMax : Z := 23.
Definition InternalKeyKindSSTableInternalObsoleteBit : Z := 64.
Definition InternalKeyKindSSTableInternalObsoleteMask : Z := 191.
Definition InternalKeyZeroSeqnumMaxTrailer : Z := 255.
Definition InternalKeyKindInvalid : Z := InternalKeyKindSSTableInternalObsoleteMask.
Definition InternalKeySeqNumBatch : Z := Z.shiftl 1 55.
Definition InternalKeySeqNumMax : Z := Z.shiftl 1 56 - 1.
Definition InternalKeyRangeDeleteSentinel : Z :=
  Z.lor (Z.shiftl InternalKeySeqNumMax 8) InternalKeyKindRangeDelete.
Definition InternalKeyBoundaryRangeKey : Z :=
  Z.lor (Z.shiftl InternalKeySeqNumMax 8) InternalKeyKindRangeKeySet.

(** The names of the kinds; the map from names to kinds has the same entries as the
    table from kinds to names. *)
Definition kindsMap : list (string * InternalKeyKind) := [
  ("DEL", InternalKeyKindDelete);
  ("SINGLEDEL", InternalKeyKindSingleDelete);
  ("RANGEDEL", InternalKeyKindRangeDelete);
  ("LOGDATA", InternalKeyKindLogData);
  ("SET", InternalKeyKindSet);
  ("MERGE", InternalKeyKindMerge);
  ("INVALID", InternalKeyKindInvalid);
  ("SEPARATOR", InternalKeyKindSeparator);
  ("SETWITHDEL", InternalKeyKindSetWithDelete);
  ("RANGEKEYSET", InternalKeyKindRangeKeySet);
  ("RANGEKEYUNSET", InternalKeyKindRangeKeyUnset);
  ("RANGEKEYDEL", InternalKeyKindRangeKeyDelete);
  ("INGESTSST", InternalKeyKindIngestSST);
  ("DELSIZED", InternalKeyKindDeleteSized)]%string.

Definition internalKeyKindNames : list (InternalKeyKind * string) := [
  (InternalKeyKindDelete, "DEL");
  (InternalKeyKindSet, "SET");
  (InternalKeyKindMerge, "MERGE");
  (InternalKeyKindLogData, "LOGDATA");
  (InternalKeyKindSingleDelete, "SINGLEDEL");
  (InternalKeyKindRangeDelete, "RANGEDEL");
  (InternalKeyKindSeparator, "SEPARATOR");
  (InternalKeyKindSetWithDelete, "SETWITHDEL");
  (InternalKeyKindRangeKeySet, "RANGEKEYSET");
  (InternalKeyKindRangeKeyUnset, "RANGEKEYUNSET");
  (InternalKeyKindRangeKeyDelete, "RANGEKEYDEL");
  (InternalKeyKindIngestSST, "INGESTSST");
  (InternalKeyKindDeleteSized, "DELSIZED");
  (InternalKeyKindInvalid, "INVALID")]%string.

(** The table is an array up to [InternalKeyKindInvalid] with empty names in its
    gaps. *)
Definition kind_String (k : InternalKeyKind) : bytes :=
  if k <=? InternalKeyKindInvalid then
    match find (fun e => k =? e.1) internalKeyKindNames with
    | Some e => bytes_of_string e.2
    | None => []
    end
  else bytes_of_string "UNKNOWN:" ++ FormatUint k.

Definition lookup_kind (s : bytes) : option InternalKeyKind :=
  snd <$> find (fun e => bool_decide (bytes_of_string e.1 = s)) kindsMap.
Definition ParseKind (s : bytes) : go InternalKeyKind :=
  match lookup_kind s with None => Panic "unknown kind" | Some k => Ret k end.

Record InternalKey := mkInternalKey { UserKey : bytes; Trailer : Z }.
#[export] Instance InternalKey_eq_dec : EqDecision InternalKey.
Proof. solve_decision. Defined.

Definition MakeInternalKey (userKey : bytes) (seqNum : Z) (kind : InternalKeyKind) : InternalKey :=
  mkInternalKey userKey (Z.lor (u64 (Z.shiftl seqNum 8)) kind).
Definition InvalidInternalKey : InternalKey := MakeInternalKey [] 0 InternalKeyKindInvalid.
Definition MakeTrailer (seqNum : Z) (kind : InternalKeyKind) : Z :=
  Z.lor (u64 (Z.shiftl seqNum 8)) kind.
Definition MakeSearchKey (userKey : bytes) : InternalKey :=
  mkInternalKey userKey (Z.lor (Z.shiftl InternalKeySeqNumMax 8) InternalKeyKindMax).
Definition MakeRangeDeleteSentinelKey (userKey : bytes) : InternalKey :=
  mkInternalKey userKey InternalKeyRangeDeleteSentinel.
Definition MakeExclusiveSentinelKey (kind : InternalKeyKind) (userKey : bytes) : InternalKey :=
  mkInternalKey userKey (Z.lor (Z.shiftl InternalKeySeqNumMax 8) kind).

Definition InternalTrailerLen : nat := 8.

Definition DecodeInternalKey (encodedKey : bytes) : InternalKey :=
  if (InternalTrailerLen <=? length encodedKey)%nat then
    let n := (length encodedKey - InternalTrailerLen)%nat in
    mkInternalKey (take n encodedKey) (Uint64 (drop n encodedKey))
  else mkInternalKey [] InternalKeyKindInvalid.

(** [Encode] into a buffer; [PutUint64] panics when fewer than 8 bytes are left. *)
Definition Encode (k : InternalKey) (buf : bytes) : go bytes :=
  let i := Nat.min (length buf) (length (UserKey k)) in
  if (length buf <? i + 8)%nat then Panic "index out of range"
  else Ret (copy_at (copy_at buf 0 (take i (UserKey k))) i (PutUint64 (Trailer k))).
Definition EncodeTrailer (k : InternalKey) : bytes := PutUint64 (Trailer k).

Definition Size (k : InternalKey) : nat := length (UserKey k) + 8.
Definition SetSeqNum (k : InternalKey) (seqNum : Z) : InternalKey :=
  mkInternalKey (UserKey k) (Z.lor (u64 (Z.shiftl seqNum 8)) (Z.land (Trailer k) 255)).
Definition SeqNum (k : InternalKey) : Z := Z.shiftr (Trailer k) 8.
Definition SeqNumFromTrailer (t : Z) : Z := Z.shiftr t 8.

Definition seqnum_Visible (seqNum snapshot batchSnapshot : Z) : bool :=
  (seqNum <? snapshot) ||
  (negb (Z.land seqNum InternalKeySeqNumBatch =? 0) && (seqNum <? batchSnapshot)) ||
  (seqNum =? InternalKeySeqNumMax).
Definition Visible (k : InternalKey) (snapshot batchSnapshot : Z) : bool :=
  seqnum_Visible (SeqNum k) snapshot batchSnapshot.

Definition TrailerKind (trailer : Z) : InternalKeyKind := u8 (Z.land trailer 255).
Definition SetKind (k : InternalKey) (kind : InternalKeyKind) : InternalKey :=
  mkInternalKey (UserKey k) (Z.lor (Z.ldiff (Trailer k) 255) kind).
Definition Kind (k : InternalKey) : InternalKeyKind := TrailerKind (Trailer k).
Definition Valid (k : InternalKey) : bool := Kind k <=? InternalKeyKindMax.

Definition IsExclusiveSentinel (k : InternalKey) : bool :=
  let kind := Kind k in
  if kind =? InternalKeyKindRangeDelete then Trailer k =? InternalKeyRangeDeleteSentinel
  else if (kind =? InternalKeyKindRangeKeyDelete) || (kind =? InternalKeyKindRangeKeyUnset)
       || (kind =? InternalKeyKindRangeKeySet)
  then Z.shiftr (Trailer k) 8 =? InternalKeySeqNumMax
  else false.

Section comparer.
Context {C : Comparer}.

Definition InternalCompare (a b : InternalKey) : comparison :=
  match Compare (UserKey a) (UserKey b) with
  | Eq => if Trailer b <? Trailer a then Lt else if Trailer a <? Trailer b then Gt else Eq
  | x => x
  end.

Definition InternalKey_Separator (k : InternalKey) (buf : bytes) (other : InternalKey) : InternalKey :=
  let buf := Separator buf (UserKey k) (UserKey other) in
  if (length buf <=? length (UserKey k))%nat &&
     bool_decide (Compare (UserKey k) buf = Lt)
  then MakeInternalKey buf InternalKeySeqNumMax InternalKeyKindSeparator
  else k.

Definition InternalKey_Successor (k : InternalKey) (buf : bytes) : InternalKey :=
  let buf := Successor buf (UserKey k) in
  if (length buf <=? length (UserKey k))%nat &&
     bool_decide (Compare (UserKey k) buf = Lt)
  then MakeInternalKey buf InternalKeySeqNumMax InternalKeyKindSeparator
  else k.
End comparer.

(** [InternalKey.Pretty] and its inverse, for a [FormatKey] that yields a string. *)
Definition Pretty (formatKey : bytes -> bytes) (k : InternalKey) : bytes :=
  let num := if SeqNum k =? InternalKeySeqNumMax then bytes_of_string "inf"
             else FormatUint (SeqNum k) in
  formatKey (UserKey k) ++ bytes_of_string "#" ++ num ++ bytes_of_string "," ++
  kind_String (Kind k).

Definition pretty_sep (c : byte) : bool :=
  bool_decide (c = Byte.x23) || bool_decide (c = Byte.x2c).

Definition ParsePrettyInternalKey (s : bytes) : go InternalKey :=
  match FieldsFunc s pretty_sep with
  | ukey :: x1 :: x2 :: _ =>
      match lookup_kind x2 with
      | None => Panic "unknown kind"
      | Some kind =>
          let seqNum :=
            if bool_decide (x1 = bytes_of_string "max") || bool_decide (x1 = bytes_of_string "inf")
            then InternalKeySeqNumMax else (ParseUint x1).1 in
          Ret (MakeInternalKey ukey seqNum kind)
      end
  | _ => Panic "index out of range"
  end.

(** The older format <user-key>.<kind>.<seq-num>. *)
Definition ParseInternalKey (s : bytes) : go InternalKey :=
  match Split_byte s Byte.x2e with
  | ukey :: x1 :: x =>
      match lookup_kind x1 with
      | None => Panic "unknown kind"
      | Some kind =>
          match x with
          | (c :: num) :: _ =>
              if bool_decide (c = Byte.x62)
              then Ret (MakeInternalKey ukey (Z.lor (ParseUint num).1 InternalKeySeqNumBatch) kind)
              else Ret (MakeInternalKey ukey (ParseUint (c :: num)).1 kind)
          | _ => Panic "index out of range"
          end
      end
  | _ => Panic "index out of range"
  end.

(** ** Trailers *)

Lemma trailer_eq seqNum kind :
  0 <= seqNum < 2 ^ 56 -> 0 <= kind < 256 ->
  Z.lor (u64 (Z.shiftl seqNum 8)) kind = seqNum * 256 + kind.
Proof.
  intros Hs Hk. rewrite u64_small by (rewrite Z.shiftl_mul_pow2 by lia; lia).
  rewrite Z.lor_comm, lor_shiftl_add by lia. lia.
Qed.

Lemma land_255 t : Z.land t 255 = t mod 256.
Proof. apply (land_ones_mod t 8). lia. Qed.

Lemma SeqNum_eq k : SeqNum k = Trailer k / 256.
Proof. unfold SeqNum. by rewrite Z.shiftr_div_pow2. Qed.

Lemma Kind_eq k : Kind k = Trailer k mod 256.
Proof.
  unfold Kind, TrailerKind. rewrite land_255. apply Z.mod_small. apply Z.mod_pos_bound. lia.
Qed.

Lemma SeqNum_Make uk s kind :
  0 <= s < 2 ^ 56 -> 0 <= kind < 256 -> SeqNum (MakeInternalKey uk s kind) = s.
Proof.
  intros Hs Hk. rewrite SeqNum_eq. simpl. rewrite trailer_eq by done.
  rewrite Z.div_add_l, Z.div_small; lia.
Qed.

Lemma Kind_Make uk s kind :
  0 <= s < 2 ^ 56 -> 0 <= kind < 256 -> Kind (MakeInternalKey uk s kind) = kind.
Proof.
  intros Hs Hk. rewrite Kind_eq. simpl. rewrite trailer_eq by done.
  rewrite Z.add_comm, Z.mod_add, Z.mod_small; lia.
Qed.

(** A key whose trailer is a uint64 is determined by its parts. *)
Lemma Make_parts k : 0 <= Trailer k < 2 ^ 64 -> MakeInternalKey (UserKey k) (SeqNum k) (Kind k) = k.
Proof.
  intros Ht. destruct k as [uk t]. unfold MakeInternalKey. rewrite SeqNum_eq, Kind_eq. simpl in *.
  rewrite trailer_eq.
  - f_equal. pose proof (Z.div_mod t 256). lia.
  - split; [apply Z.div_pos; lia|apply Z.div_lt_upper_bound; lia].
  - apply Z.mod_pos_bound. lia.
Qed.

(** ** The order of internal keys *)
Section order.
Context {C : Comparer} {L : ComparerLaws C}.

Lemma InternalCompare_eq a b : InternalCompare a b = Eq <-> a = b.
Proof.
  unfold InternalCompare. destruct a as [ua ta], b as [ub tb]; simpl. split.
  - destruct (Compare ua ub) eqn:E; try done. apply compare_eq in E as ->.
    destruct (Z.ltb_spec tb ta); [done|]. destruct (Z.ltb_spec ta tb); [done|].
    intros _. f_equal. lia.
  - intros [= -> ->]. rewrite compare_refl, Z.ltb_irrefl. done.
Qed.

Lemma InternalCompare_antisym a b : InternalCompare b a = CompOpp (InternalCompare a b).
Proof.
  unfold InternalCompare. rewrite (compare_antisym (UserKey a) (UserKey b)).
  destruct (Compare (UserKey a) (UserKey b)); simpl; try done.
  destruct (Z.ltb_spec (Trailer a) (Trailer b)), (Z.ltb_spec (Trailer b) (Trailer a)); try done; lia.
Qed.

Lemma InternalCompare_lt a b :
  InternalCompare a b = Lt <->
  Compare (UserKey a) (UserKey b) = Lt \/ UserKey a = UserKey b /\ Trailer b < Trailer a.
Proof.
  unfold InternalCompare. destruct (Compare (UserKey a) (UserKey b)) eqn:E.
  - apply compare_eq in E. rewrite E.
    destruct (Z.ltb_spec (Trailer b) (Trailer a)); [split; [by right|done]|].
    split; [|intros [|[_ ?]]; [done|lia]].
    by destruct (Z.ltb_spec (Trailer a) (Trailer b)).
  - split; [by left|done].
  - split; [done|]. intros [|[E2 _]]; [done|]. apply compare_eq in E2. congruence.
Qed.

Lemma InternalCompare_trans a b c :
  InternalCompare a b = Lt -> InternalCompare b c = Lt -> InternalCompare a c = Lt.
Proof.
  rewrite !InternalCompare_lt. intros [H1|[E1 H1]] [H2|[E2 H2]].
  - left. by eapply compare_trans.
  - left. by rewrite <- E2.
  - left. by rewrite E1.
  - right. split; [congruence|lia].
Qed.
End order.

(** ** The properties *)

(** A sequence number and a kind that fit into a trailer. *)
Definition trailer_parts (s kind : Z) : Prop := 0 <= s < 2 ^ 56 /\ 0 <= kind < 256.

Lemma search_trailer : Trailer (MakeSearchKey []) = (2 ^ 56 - 1) * 256 + 23.
Proof. reflexivity. Qed.

(** C17. Internal keys are totally ordered, for every comparer that keeps its contract:
    by user key, then from new to old sequence numbers, then by decreasing kind.  The
    search key of a user key comes before all its valid keys and after the keys of
    smaller user keys. *)
Theorem internal_key_order {C : Comparer} {L : ComparerLaws C} :
  (forall a b, InternalCompare a b = Eq <-> a = b) /\
  (forall a b, InternalCompare b a = CompOpp (InternalCompare a b)) /\
  (forall a b c, InternalCompare a b = Lt -> InternalCompare b c = Lt -> InternalCompare a c = Lt) /\
  (forall uk s1 k1 s2 k2, trailer_parts s1 k1 -> trailer_parts s2 k2 ->
    InternalCompare (MakeInternalKey uk s1 k1) (MakeInternalKey uk s2 k2) = Lt <->
    s2 < s1 \/ s1 = s2 /\ k2 < k1) /\
  (forall k, 0 <= Trailer k < 2 ^ 64 -> Valid k = true ->
    InternalCompare (MakeSearchKey (UserKey k)) k <> Gt) /\
  (forall uk k, Compare (UserKey k) uk = Lt -> InternalCompare k (MakeSearchKey uk) = Lt).
Proof.
  split; [apply InternalCompare_eq|]. split; [apply InternalCompare_antisym|].
  split; [apply InternalCompare_trans|]. split; [|split].
  - intros uk s1 k1 s2 k2 [Hs1 Hk1] [Hs2 Hk2]. rewrite InternalCompare_lt. simpl.
    rewrite !trailer_eq, compare_refl by done. split; [intros [|[_ ?]]; [done|lia]|].
    intros Hlt. right. split; [done|]. nia.
  - intros k Ht Hv. unfold InternalCompare. cbn [UserKey MakeSearchKey]. rewrite compare_refl.
    unfold Valid in Hv. rewrite Kind_eq in Hv. apply Z.leb_le in Hv.
    change (Trailer (MakeSearchKey (UserKey k))) with ((2 ^ 56 - 1) * 256 + 23).
    change InternalKeyKindMax with 23 in Hv.
    pose proof (Z.div_mod (Trailer k) 256 ltac:(lia)) as Hdm.
    assert (Trailer k / 256 <= 2 ^ 56 - 1)
      by (apply Z.lt_succ_r, Z.div_lt_upper_bound; lia).
    destruct (Z.ltb_spec (Trailer k) ((2 ^ 56 - 1) * 256 + 23)); [done|].
    destruct (Z.ltb_spec ((2 ^ 56 - 1) * 256 + 23) (Trailer k)); [lia|done].
  - intros uk k Hlt. apply InternalCompare_lt. by left.
Qed.

Lemma internal_key_order_witness :
  InternalCompare (C := DefaultComparer)
    (MakeInternalKey (bytes_of_string "a") 7 InternalKeyKindSet)
    (MakeInternalKey (bytes_of_string "a") 5 InternalKeyKindDelete) = Lt.
Proof.
  destruct (internal_key_order (C := DefaultComparer) (L := default_laws))
    as (_ & _ & _ & Horder & _).
  apply Horder; [unfold trailer_parts, InternalKeyKindSet; lia
    |unfold trailer_parts, InternalKeyKindDelete; lia|]. left. lia.
Defined.

(** The key [Separator] and [Successor] build from a shortened user key. *)
Lemma shortened_le {C : Comparer} {L : ComparerLaws C} k buf :
  InternalCompare k
    (if (length buf <=? length (UserKey k))%nat && bool_decide (Compare (UserKey k) buf = Lt)
     then MakeInternalKey buf InternalKeySeqNumMax InternalKeyKindSeparator else k) <> Gt.
Proof.
  destruct (_ && _) eqn:E.
  - apply andb_prop in E as [_ E]. apply bool_decide_eq_true in E.
    rewrite (proj2 (InternalCompare_lt _ _)); [done|]. by left.
  - by rewrite (proj2 (InternalCompare_eq k k)).
Qed.

(** C18. The index of a table: the separator of two internal keys is not before the
    first and before the second, a successor is not before its key, and neither is
    longer than the key.  With the default comparer this also holds for two entries
    with the same user key. *)
Theorem internal_key_separator {C : Comparer} {L : ComparerLaws C} (k other : InternalKey) :
  (Compare (UserKey k) (UserKey other) = Lt ->
    InternalCompare k (InternalKey_Separator k [] other) <> Gt /\
    InternalCompare (InternalKey_Separator k [] other) other = Lt /\
    (Size (InternalKey_Separator k [] other) <= Size k)%nat) /\
  (InternalCompare k (InternalKey_Successor k []) <> Gt /\
    (Size (InternalKey_Successor k []) <= Size k)%nat) /\
  (InternalCompare (C := DefaultComparer) k other = Lt ->
    InternalCompare (C := DefaultComparer) k
      (InternalKey_Separator (C := DefaultComparer) k [] other) <> Gt /\
    InternalCompare (C := DefaultComparer)
      (InternalKey_Separator (C := DefaultComparer) k [] other) other = Lt).
Proof.
  assert (forall buf, (Size (if (length buf <=? length (UserKey k))%nat &&
      bool_decide (Compare (UserKey k) buf = Lt)
     then MakeInternalKey buf InternalKeySeqNumMax InternalKeyKindSeparator else k) <= Size k)%nat)
    as Hsize.
  { intros buf. destruct (Nat.leb_spec (length buf) (length (UserKey k))); simpl; [|done].
    case_bool_decide; [|done]. unfold Size. simpl. lia. }
  split; [|split].
  - intros Hlt. split; [apply shortened_le|]. split; [|apply Hsize].
    unfold InternalKey_Separator.
    destruct (separator_spec [] (UserKey k) (UserKey other)) as (sep & -> & _ & Hsep); [by left|].
    destruct (_ && _); apply InternalCompare_lt; left; [|done]. apply Hsep. intros E.
    rewrite E in Hlt. destruct (UserKey k) as [|x l] eqn:Ek; [by rewrite compare_refl in Hlt|].
    rewrite compare_antisym, compare_nil in Hlt by done. done.
  - split; [apply shortened_le|apply Hsize].
  - intros Hlt. pose proof default_laws as Ld. split; [by apply (shortened_le (L := Ld))|].
    unfold InternalKey_Separator. destruct (_ && _) eqn:E; [|done].
    apply andb_prop in E as [_ E]. apply bool_decide_eq_true in E.
    apply (InternalCompare_lt (L := Ld)). apply (InternalCompare_lt (L := Ld)) in Hlt as [Hlt|[Eu _]].
    + left. destruct (separator_spec (ComparerLaws := Ld) [] (UserKey k) (UserKey other))
        as (sep & E2 & _ & Hsep); [by left|]. cbn [UserKey MakeInternalKey]. rewrite E2.
      apply Hsep. intros E3. rewrite E3 in Hlt. by destruct (UserKey k).
    + exfalso. rewrite <- Eu in E. simpl in E. unfold default_Separator in E.
      destruct (SharedPrefixLen_spec (UserKey k) (UserKey k)) as (Hj & _ & Hne).
      rewrite Nat.ltb_irrefl in E. rewrite Nat.min_id in *.
      destruct (Nat.leb_spec (length (UserKey k)) (SharedPrefixLen (UserKey k) (UserKey k)));
        [|by apply Hne].
      by rewrite bytes_Compare_refl in E.
Qed.

Lemma internal_key_separator_witness :
  let k := MakeInternalKey (bytes_of_string "black") 7 InternalKeyKindSet in
  let other := MakeInternalKey (bytes_of_string "blue") 5 InternalKeyKindDelete in
  InternalKey_Separator (C := DefaultComparer) k [] other =
    MakeInternalKey (bytes_of_string "blb") InternalKeySeqNumMax InternalKeyKindSeparator /\
  InternalCompare (C := DefaultComparer)
    (InternalKey_Separator (C := DefaultComparer) k [] other) other = Lt.
Proof.
  intros k other. split; [vm_compute; reflexivity|].
  apply (internal_key_separator (C := DefaultComparer) (L := default_laws) k other).
  vm_compute. reflexivity.
Defined.

Lemma kind_names kind :
  kind ∈ (snd <$> kindsMap) ->
  0 <= kind < 256 /\ lookup_kind (kind_String kind) = Some kind /\
  Forall (fun c => pretty_sep c = false) (kind_String kind) /\ kind_String kind <> [].
Proof.
  intros Hin.
  assert (Forall (fun kind => 0 <= kind < 256 /\ lookup_kind (kind_String kind) = Some kind /\
    forallb (fun c => negb (pretty_sep c)) (kind_String kind) = true /\ kind_String kind <> [])
    (snd <$> kindsMap)) as Hall.
  { unfold kindsMap. cbn [fmap list_fmap snd].
    repeat (apply Forall_cons; split; [vm_compute; repeat split; discriminate|]).
    apply Forall_nil_2. }
  rewrite Forall_forall in Hall. destruct (Hall kind Hin) as (Hr & Hl & Hs & Hne).
  split; [done|]. split; [done|]. split; [|done].
  apply Forall_forall. intros c Hc. rewrite forallb_forall in Hs.
  apply list_elem_of_In in Hc. specialize (Hs c Hc). by destruct (pretty_sep c).
Qed.

Lemma digits_no_sep l : Forall is_digit l -> Forall (fun c => pretty_sep c = false) l.
Proof.
  intros Hl. eapply Forall_impl; [exact Hl|]. intros c Hc.
  unfold pretty_sep. apply orb_false_iff. split; apply bool_decide_eq_false_2; intros ->; done.
Qed.

Lemma Encode_ok k rest :
  Encode k (replicate (Size k) Byte.x00 ++ rest) = Ret (UserKey k ++ PutUint64 (Trailer k) ++ rest).
Proof.
  unfold Encode, Size. rewrite length_app, length_replicate.
  rewrite Nat.min_r by lia. rewrite (proj2 (Nat.ltb_ge _ _)) by lia. f_equal.
  rewrite firstn_all, replicate_add, <- app_assoc.
  rewrite (copy_at_app [] (replicate (length (UserKey k)) Byte.x00) (UserKey k)
    (replicate 8 Byte.x00 ++ rest)) by (rewrite ?length_replicate; done). cbn [app].
  rewrite (copy_at_app (UserKey k) (replicate 8 Byte.x00) (PutUint64 (Trailer k)));
    [done|done|]. by rewrite length_replicate, length_PutUint64.
Qed.

(** Internal keys and their parts.  A key built from a sequence number and a kind
    has them; the setters change one and keep the other; encoding it into a buffer
    of its size and decoding gives it back; and the pretty form of a key whose
    formatted user key has no separators is parsed as the key, whatever the sequence
    number, for all kinds that have a name. *)
Theorem internal_key_roundtrip (uk : bytes) (s kind s' kind' : Z) (formatKey : bytes -> bytes) :
  trailer_parts s kind -> trailer_parts s' kind' ->
  let k := MakeInternalKey uk s kind in
  (SeqNum k = s /\ Kind k = kind) /\
  (SetSeqNum k s' = MakeInternalKey uk s' kind /\ SetKind k kind' = MakeInternalKey uk s kind') /\
  (exists e, Encode k (replicate (Size k) Byte.x00) = Ret e /\ DecodeInternalKey e = k) /\
  (formatKey uk <> [] -> Forall (fun c => pretty_sep c = false) (formatKey uk) ->
    kind ∈ (snd <$> kindsMap) ->
    ParsePrettyInternalKey (Pretty formatKey k) = Ret (MakeInternalKey (formatKey uk) s kind)).
Proof.
  intros [Hs Hk] [Hs' Hk'] k.
  assert (SeqNum k = s) as Es by (by apply SeqNum_Make).
  assert (Kind k = kind) as Ek by (by apply Kind_Make).
  split; [done|]. split; [|split].
  - split; unfold SetSeqNum, SetKind, k, MakeInternalKey; simpl; f_equal.
    + rewrite land_255. fold (Kind k) in Ek. rewrite Kind_eq in Ek. simpl in Ek. by rewrite Ek.
    + rewrite !trailer_eq by done. rewrite (Z.lor_comm _ kind').
      change 255 with (Z.ones 8). rewrite Z.ldiff_ones_r by lia.
      rewrite Z.shiftr_div_pow2 by lia. change (2 ^ 8) with 256.
      rewrite Z.div_add_l, Z.div_small by lia. rewrite lor_shiftl_add by lia. lia.
  - exists (uk ++ PutUint64 (Trailer k)). pose proof (Encode_ok k []) as HE.
    rewrite !app_nil_r in HE. split; [done|].
    unfold DecodeInternalKey, InternalTrailerLen. rewrite length_app, length_PutUint64.
    rewrite (proj2 (Nat.leb_le _ _)) by lia. rewrite Nat.add_sub.
    rewrite take_app_length, drop_app_length, <- (app_nil_r (PutUint64 (Trailer k))).
    rewrite Uint64_Put; [done|]. simpl. rewrite trailer_eq by done. lia.
  - intros Hne Hf Hin. destruct (kind_names kind Hin) as (_ & Hlk & Hsep & Hkne).
    unfold ParsePrettyInternalKey, FieldsFunc, Pretty. rewrite Es, Ek. cbn [UserKey k MakeInternalKey].
    set (num := if s =? InternalKeySeqNumMax then bytes_of_string "inf" else FormatUint s).
    assert (num <> [] /\ Forall (fun c => pretty_sep c = false) num) as [Hn1 Hn2].
    { unfold num. destruct (s =? InternalKeySeqNumMax).
      - split; [done|]. repeat (apply Forall_cons; split; [reflexivity|]). apply Forall_nil_2.
      - split; [|apply digits_no_sep, FormatUint_digits; lia].
        destruct (format_aux_cons 19 s []) as (c & t & E). unfold FormatUint. by rewrite E. }
    rewrite (fields_cons _ (formatKey uk) Byte.x23 (num ++ Byte.x2c :: kind_String kind)) by done.
    rewrite (fields_cons _ num Byte.x2c (kind_String kind)) by done.
    rewrite fields_last by done. rewrite Hlk. f_equal. f_equal.
    unfold num. destruct (Z.eqb_spec s InternalKeySeqNumMax) as [->|]; [reflexivity|].
    assert (Forall is_digit (FormatUint s)) as Hd by (apply FormatUint_digits; lia).
    rewrite !bool_decide_eq_false_2; [by rewrite ParseUint_FormatUint by lia| |];
      intros E; rewrite E in Hd; apply Forall_cons in Hd as [Hd _]; done.
Qed.

Lemma internal_key_roundtrip_witness :
  ParsePrettyInternalKey (Pretty id (MakeInternalKey (bytes_of_string "foo") 13 InternalKeyKindMerge)) =
  Ret (MakeInternalKey (bytes_of_string "foo") 13 InternalKeyKindMerge).
Proof.
  apply (internal_key_roundtrip (bytes_of_string "foo") 13 InternalKeyKindMerge 0 0 id).
  - unfold trailer_parts, InternalKeyKindMerge. lia.
  - unfold trailer_parts. lia.
  - discriminate.
  - repeat (apply Forall_cons; split; [reflexivity|]). apply Forall_nil_2.
  - apply (bool_decide_eq_true_1 _). vm_compute. reflexivity.
Defined.
