(* ===== verification/Keyspan.v ===== *)
(** Spans and the fragmenter (src/internal/keyspan/span.go and fragmenter.go): sets
    of keys that apply to an interval of user keys, and how overlapping spans are
    split into disjoint ones. *)
From S2P Require Import Prelude.
From S2P Require Import Comparer.
From S2P Require Import InternalKey.
From S2P Require Import GoStd.

Local Open Scope Z_scope.

(** ** Spans *)
Inductive KeysOrder := ByTrailerDesc | BySuffixAsc.
#[export] Instance KeysOrder_eq_dec : EqDecision KeysOrder.
Proof. solve_decision. Defined.

Record Key := mkKey {
  key_Trailer : Z;
  key_Suffix : bytes;
  key_Value : bytes;
}.
#[export] Instance Key_eq_dec : EqDecision Key.
Proof. solve_decision. Defined.

Record Span := mkSpan {
  sp_Start : bytes;
  sp_End : bytes;
  sp_Keys : list Key;
  sp_KeysOrder : KeysOrder;
}.

Definition key_SeqNum (k : Key) : Z := Z.shiftr (key_Trailer k) 8.
Definition key_Kind (k : Key) : Z := u8 (Z.land (key_Trailer k) 255).
Definition batch_bit (seqNum : Z) : bool := negb (Z.land seqNum InternalKeySeqNumBatch =? 0).
Definition key_VisibleAt (k : Key) (snapshot : Z) : bool :=
  (key_SeqNum k <? snapshot) || batch_bit (key_SeqNum k).

Definition key_Equal {C : Comparer} (k b : Key) : bool :=
  (key_Trailer k =? key_Trailer b) && Equal (key_Suffix k) (key_Suffix b) &&
  bool_decide (key_Value k = key_Value b).

Definition span_Empty (s : Span) : bool := match sp_Keys s with [] => true | _ => false end.

(** The accessors panic on spans without keys and on keys in another order. *)
Definition trailer_order {A} (s : Span) (m : go A) : go A :=
  if decide (sp_KeysOrder s = ByTrailerDesc) then m
  else Panic "span's keys unexpectedly not in trailer order".
Definition with_keys {A} (s : Span) (m : Key -> Key -> go A) : go A :=
  match sp_Keys s with
  | [] => Panic "Span contains no keys"
  | k :: l => trailer_order s (m k (List.last l k))
  end.
Definition SmallestKey (s : Span) : go InternalKey :=
  with_keys s (fun first _ => Ret (mkInternalKey (sp_Start s) (key_Trailer first))).
Definition LargestKey (s : Span) : go InternalKey :=
  with_keys s (fun _ last => Ret (MakeExclusiveSentinelKey (key_Kind last) (sp_End s))).
Definition SmallestSeqNum (s : Span) : go Z :=
  with_keys s (fun _ last => Ret (key_SeqNum last)).
Definition LargestSeqNum (s : Span) : go Z :=
  with_keys s (fun first _ => Ret (key_SeqNum first)).

(** The loop of [Visible]: the last index of a batch key and of a key that is not
    visible; -1 if there is none. *)
Fixpoint visible_scan (snapshot : Z) (keys : list Key) (i lastBatchIdx lastNonVisibleIdx : Z) : Z * Z :=
  match keys with
  | [] => (lastBatchIdx, lastNonVisibleIdx)
  | k :: keys =>
      if batch_bit (key_SeqNum k) then visible_scan snapshot keys (i + 1) i lastNonVisibleIdx
      else if snapshot <=? key_SeqNum k then visible_scan snapshot keys (i + 1) lastBatchIdx i
      else visible_scan snapshot keys (i + 1) lastBatchIdx lastNonVisibleIdx
  end.

Definition span_Visible (s : Span) (snapshot : Z) : go Span :=
  trailer_order s (
    let n := Z.of_nat (length (sp_Keys s)) in
    let ret keys := Ret (mkSpan (sp_Start s) (sp_End s) keys ByTrailerDesc) in
    if n =? 0 then ret [] else
    let '(lastBatchIdx, lastNonVisibleIdx) := visible_scan snapshot (sp_Keys s) 0 (-1) (-1) in
    if lastNonVisibleIdx =? -1 then ret (sp_Keys s)
    else if lastBatchIdx =? -1 then ret (drop (Z.to_nat (lastNonVisibleIdx + 1)) (sp_Keys s))
    else if lastNonVisibleIdx =? n - 1 then ret (take (Z.to_nat (lastBatchIdx + 1)) (sp_Keys s))
    else ret (take (Z.to_nat (lastBatchIdx + 1)) (sp_Keys s) ++
              drop (Z.to_nat (lastNonVisibleIdx + 1)) (sp_Keys s))).

Definition span_VisibleAt (s : Span) (snapshot : Z) : go bool :=
  trailer_order s (
    match sp_Keys s with
    | [] => Ret false
    | k :: l =>
        if batch_bit (key_SeqNum k) then Ret true
        else Ret (key_SeqNum (List.last l k) <? snapshot)
    end).

Definition Contains {C : Comparer} (s : Span) (key : bytes) : bool :=
  bool_decide (Compare (sp_Start s) key <> Gt) && bool_decide (Compare key (sp_End s) = Lt).

Definition span_Covers (s : Span) (seqNum : Z) : go bool :=
  trailer_order s (
    Ret (match sp_Keys s with [] => false | k :: _ => seqNum <? key_SeqNum k end)).

Fixpoint covers_scan (keys : list Key) (snapshot seqNum : Z) : bool :=
  match keys with
  | [] => false
  | k :: keys =>
      let kseq := key_SeqNum k in
      if batch_bit kseq then seqNum <? kseq
      else if kseq <? snapshot then seqNum <? kseq
      else covers_scan keys snapshot seqNum
  end.
Definition CoversAt (s : Span) (snapshot seqNum : Z) : go bool :=
  trailer_order s (Ret (covers_scan (sp_Keys s) snapshot seqNum)).

(** ** The fragmenter *)

(** [Emit] is a callback; the spans it has been called with are [f_emitted].
    [flushedKey] is [None] for a nil slice. *)
Record Fragmenter := mkFragmenter {
  f_pending : list Span;
  f_flushedKey : option bytes;
  f_finished : bool;
  f_emitted : list Span;
}.
#[export] Instance fragmenter_settable : Settable Fragmenter :=
  fun f => mkFragmenter (f_pending f) (f_flushedKey f) (f_finished f) (f_emitted f).

Definition new_fragmenter : Fragmenter := mkFragmenter [] None false [].

Inductive Cover := NoCover | CoversInvisibly | CoversVisibly.

Section fragmenter.
Context {C : Comparer} {S : Sort}.

Definition less_end (a b : Span) : bool := bool_decide (Compare (sp_End a) (sp_End b) = Lt).
Definition less_start (a b : Span) : bool := bool_decide (Compare (sp_Start a) (sp_Start b) = Lt).
Definition less_trailer (a b : Key) : bool := key_Trailer b <? key_Trailer a.

(** [keyspan.Sort] and [SortKeysByTrailer]. *)
Definition Sort_spans (spans : list Span) : list Span := sort_Sort less_start spans.
Definition SortKeysByTrailer (keys : list Key) : list Key := sort_Sort less_trailer keys.

Definition set_start (k : bytes) (s : Span) : Span :=
  mkSpan k (sp_End s) (sp_Keys s) (sp_KeysOrder s).

(** The loop of [flush] emits the keys of all spans up to the first end key, and goes
    on with the spans that end after it. *)
Fixpoint flush_loop (fuel : nat) (buf : list Span) (lastKey : option bytes) : list Span :=
  match fuel, buf with
  | O, _ | _, [] => []
  | Datatypes.S fuel, b0 :: rest =>
      let split := sp_End b0 in
      let remove := (1 + length (filter (fun b => Compare split (sp_End b) = Eq) rest))%nat in
      let flushBuf := sp_Keys b0 ++ concat (sp_Keys <$> rest) in
      let out := mkSpan (sp_Start b0) split (SortKeysByTrailer flushBuf) ByTrailerDesc in
      let stop := match lastKey with
                  | Some k => bool_decide (Compare split k = Gt)
                  | None => false
                  end in
      if stop then [out]
      else out :: flush_loop fuel (set_start split <$> drop remove buf) lastKey
  end.
Definition flush (f : Fragmenter) (buf : list Span) (lastKey : option bytes) : Fragmenter :=
  f <| f_emitted := f_emitted f ++ flush_loop (length buf) (sort_Sort less_end buf) lastKey |>.

(** The spans that are done and the ones that are left, when truncating at [key]. *)
Fixpoint truncate (key : bytes) (pending : list Span) : list Span * list Span :=
  match pending with
  | [] => ([], [])
  | s :: pending =>
      let '(done, keep) := truncate key pending in
      if bool_decide (Compare key (sp_End s) = Lt) then
        let keep := mkSpan key (sp_End s) (sp_Keys s) ByTrailerDesc :: keep in
        if bool_decide (Compare (sp_Start s) key = Lt)
        then (mkSpan (sp_Start s) key (sp_Keys s) ByTrailerDesc :: done, keep)
        else (done, keep)
      else (s :: done, keep)
  end.

(** [append(f.flushedKey[:0], key...)] stays nil for an empty key. *)
Definition set_flushed (old : option bytes) (key : bytes) : option bytes :=
  match old, key with None, [] => None | _, _ => Some key end.

Definition truncateAndFlush (f : Fragmenter) (key : bytes) : Fragmenter :=
  let f := f <| f_flushedKey := set_flushed (f_flushedKey f) key |> in
  let '(done, keep) := truncate key (f_pending f) in
  flush (f <| f_pending := keep |>) done None.

Definition before_flushed (f : Fragmenter) (key : bytes) : bool :=
  match f_flushedKey f with
  | Some k => bool_decide (Compare key k = Lt)
  | None => false
  end.

Definition Add (f : Fragmenter) (s : Span) : go Fragmenter :=
  if f_finished f then Panic "span fragmenter already finished"
  else if decide (sp_KeysOrder s <> ByTrailerDesc)
  then Panic "span keys unexpectedly not in trailer descending order"
  else if before_flushed f (sp_Start s) then Panic "start key < flushed key"
  else if bool_decide (Compare (sp_Start s) (sp_End s) <> Lt) then Ret f
  else
    match f_pending f with
    | [] => Ret (f <| f_pending := f_pending f ++ [s] |>)
    | p :: _ =>
        match Compare (sp_Start p) (sp_Start s) with
        | Gt => Panic "keys must be added in order"
        | Eq => Ret (f <| f_pending := f_pending f ++ [s] |>)
        | Lt => let f := truncateAndFlush f (sp_Start s) in
                Ret (f <| f_pending := f_pending f ++ [s] |>)
        end
    end.

Fixpoint covers_keys (keys : list Key) (seqNum snapshot : Z) (cover : Cover) : Cover :=
  match keys with
  | [] => cover
  | k :: keys =>
      let kseq := key_SeqNum k in
      if seqNum <? kseq then
        if (kseq <? snapshot) || batch_bit kseq then CoversVisibly
        else covers_keys keys seqNum snapshot CoversInvisibly
      else covers_keys keys seqNum snapshot cover
  end.
Fixpoint covers_spans (pending : list Span) (key : InternalKey) (snapshot : Z) (cover : Cover) : Cover :=
  match pending with
  | [] => cover
  | s :: pending =>
      if bool_decide (Compare (UserKey key) (sp_End s) = Lt) then
        match covers_keys (sp_Keys s) (SeqNum key) snapshot cover with
        | CoversVisibly => CoversVisibly
        | cover => covers_spans pending key snapshot cover
        end
      else covers_spans pending key snapshot cover
  end.
Definition Fragmenter_Covers (f : Fragmenter) (key : InternalKey) (snapshot : Z) : go Cover :=
  if f_finished f then Panic "span fragmenter already finished"
  else
    match f_pending f with
    | [] => Ret NoCover
    | p :: _ =>
        if bool_decide (Compare (sp_Start p) (UserKey key) = Gt) then Panic "keys must be in order"
        else Ret (covers_spans (f_pending f) key snapshot NoCover)
    end.

Definition Fragmenter_Empty (f : Fragmenter) : bool :=
  f_finished f || match f_pending f with [] => true | _ => false end.
Definition Fragmenter_Start (f : Fragmenter) : option bytes := sp_Start <$> head (f_pending f).

Definition TruncateAndFlushTo (f : Fragmenter) (key : bytes) : go Fragmenter :=
  if f_finished f then Panic "span fragmenter already finished"
  else if before_flushed f key then Panic "start key < flushed key"
  else
    match f_pending f with
    | [] => Ret (truncateAndFlush f key)
    | p :: _ =>
        match Compare (sp_Start p) key with
        | Gt => Panic "keys must be added in order"
        | Eq => Ret f
        | Lt => Ret (truncateAndFlush f key)
        end
    end.

(** The spans that are pending are flushed and not looked at any more. *)
Definition Finish (f : Fragmenter) : go Fragmenter :=
  if f_finished f then Panic "span fragmenter already finished"
  else Ret ((flush f (f_pending f) None) <| f_finished := true |>).
End fragmenter.
