(* ===== verification/KeyspanSpec.v ===== *)
(** The fragmenter of Keyspan.v splits spans without changing which keys apply to
    which user key; the tests for visibility of spans. *)
From S2P Require Import Prelude.
From S2P Require Import Comparer.
From S2P Require Import InternalKey.
From S2P Require Import GoStd.
From S2P Require Import Keyspan.
From Stdlib Require Import Sorting.Sorted.

Local Open Scope Z_scope.

(** ** What applies to a user key *)
Section at_key.
Context {C : Comparer} {L : ComparerLaws C}.

(** The keys of the spans that contain a user key. *)
Definition at_key (x : bytes) (spans : list Span) : list Key :=
  concat (sp_Keys <$> filter (fun s => Contains s x = true) spans).

Lemma Contains_spec s x :
  Contains s x = true <-> Compare (sp_Start s) x <> Gt /\ Compare x (sp_End s) = Lt.
Proof. unfold Contains. by rewrite andb_true_iff, !bool_decide_eq_true. Qed.

Lemma at_key_cons x s l :
  at_key x (s :: l) = (if Contains s x then sp_Keys s else []) ++ at_key x l.
Proof.
  unfold at_key. rewrite filter_cons. destruct (Contains s x) eqn:E.
  - by rewrite decide_True.
  - by rewrite decide_False by done.
Qed.

Lemma at_key_app x l1 l2 : at_key x (l1 ++ l2) = at_key x l1 ++ at_key x l2.
Proof. unfold at_key. by rewrite filter_app, fmap_app, concat_app. Qed.

#[export] Instance at_key_perm x : Proper ((≡ₚ) ==> (≡ₚ)) (at_key x).
Proof.
  intros l1 l2 Hl. unfold at_key.
  induction Hl as [|s l1 l2 _ IH|s1 s2 l|l1 l2 l3 _ IH1 _ IH2]; [done| | |by rewrite IH1].
  - rewrite !filter_cons. case_decide; simpl; [by rewrite IH|done].
  - rewrite !filter_cons. repeat case_decide; simpl; try done.
    rewrite !(assoc_L (++)). by rewrite (Permutation_app_comm (sp_Keys s1)).
Qed.

Lemma at_key_none x l :
  Forall (fun s => Contains s x = false) l -> at_key x l = [].
Proof. induction 1 as [|s l Hs _ IH]; [done|]. rewrite at_key_cons, Hs. done. Qed.

Lemma at_key_all x l :
  Forall (fun s => Contains s x = true) l -> at_key x l = concat (sp_Keys <$> l).
Proof. induction 1 as [|s l Hs _ IH]; [done|]. rewrite at_key_cons, Hs, IH. done. Qed.

(** ** Groups of spans with the same start *)

(** All spans start at [p] and are not empty. *)
Definition group (p : bytes) (l : list Span) : Prop :=
  Forall (fun s => sp_Start s = p /\ Compare p (sp_End s) = Lt) l.

(** Spans in order from [lo]: not empty, disjoint, with sorted keys. *)
Fixpoint chain (lo : bytes) (l : list Span) : Prop :=
  match l with
  | [] => True
  | s :: l =>
      Compare lo (sp_Start s) <> Gt /\ Compare (sp_Start s) (sp_End s) = Lt /\
      StronglySorted (fun a b => key_Trailer b <= key_Trailer a) (sp_Keys s) /\
      chain (sp_End s) l
  end.

(** The end of a chain. *)
Fixpoint chain_end (lo : bytes) (l : list Span) : bytes :=
  match l with [] => lo | s :: l => chain_end (sp_End s) l end.

Lemma chain_app lo l1 l2 : chain lo (l1 ++ l2) <-> chain lo l1 /\ chain (chain_end lo l1) l2.
Proof.
  revert lo. induction l1 as [|s l1 IH]; intros lo; simpl; [tauto|]. rewrite IH. tauto.
Qed.

Lemma chain_weaken lo lo' l : Compare lo' lo <> Gt -> chain lo l -> chain lo' l.
Proof.
  destruct l as [|s l]; [done|]. intros Hle (H1 & H2). split; [|done].
  by eapply compare_le_trans.
Qed.

Lemma chain_end_le lo l : chain lo l -> Compare lo (chain_end lo l) <> Gt.
Proof.
  revert lo. induction l as [|s l IH]; intros lo; simpl; [by rewrite compare_refl|].
  intros (H1 & H2 & _ & H3). eapply compare_le_trans; [exact H1|].
  eapply compare_le_trans; [|by apply IH]. by rewrite H2.
Qed.

(** Nothing of a chain is left beyond its end. *)
Lemma chain_beyond lo l x :
  chain lo l -> Compare (chain_end lo l) x <> Gt -> at_key x l = [].
Proof.
  revert lo. induction l as [|s l IH]; intros lo; simpl; [done|].
  intros (H1 & H2 & _ & H3) Hx. rewrite at_key_cons, (IH _ H3 Hx), app_nil_r.
  destruct (Contains s x) eqn:E; [|done]. apply Contains_spec in E as [_ E].
  pose proof (chain_end_le _ _ H3) as Hle.
  pose proof (compare_le_trans _ _ _ Hle Hx) as Hle2.
  apply compare_gt_lt in E. done.
Qed.
End at_key.

(** ** Flushing *)
Section flush.
Context {C : Comparer} {L : ComparerLaws C} {S : Sort} {SL : SortLaws S}.

Lemma compare_not_lt a b : Compare a b <> Lt <-> Compare b a <> Gt.
Proof. rewrite (compare_antisym a b). by destruct (Compare a b). Qed.

Lemma weak_order_compare {A} (f : A -> bytes) :
  weak_order (fun a b => bool_decide (Compare (f a) (f b) = Lt)).
Proof.
  split.
  - intros x. apply bool_decide_eq_false_2. by rewrite compare_refl.
  - intros x y z. rewrite !bool_decide_eq_true. apply compare_trans.
  - intros x y z. rewrite !bool_decide_eq_false, !compare_not_lt. apply compare_le_trans.
Qed.

Lemma weak_order_trailer : weak_order less_trailer.
Proof.
  unfold less_trailer. split.
  - intros x. apply Z.ltb_irrefl.
  - intros x y z. rewrite !Z.ltb_lt. lia.
  - intros x y z. rewrite !Z.ltb_ge. lia.
Qed.

Lemma SortKeysByTrailer_sorted keys :
  StronglySorted (fun a b => key_Trailer b <= key_Trailer a) (SortKeysByTrailer keys).
Proof.
  pose proof (sort_sorted less_trailer keys weak_order_trailer) as Hs.
  unfold SortKeysByTrailer, sorted_by in *.
  induction Hs as [|k l Hl IH Hk]; constructor; [done|].
  eapply Forall_impl; [exact Hk|]. intros b. unfold less_trailer. rewrite Z.ltb_ge. done.
Qed.

(** The spans that end at the first end key are a prefix. *)
Lemma remove_prefix split rest :
  sorted_by less_end rest -> Forall (fun b => Compare split (sp_End b) <> Gt) rest ->
  let r := length (filter (fun b => Compare split (sp_End b) = Eq) rest) in
  Forall (fun b => sp_End b = split) (take r rest) /\
  Forall (fun b => Compare split (sp_End b) = Lt) (drop r rest).
Proof.
  intros Hs Hle. induction Hs as [|y l Hl IH Hy]; [done|].
  apply Forall_cons in Hle as [Hle1 Hle]. rewrite filter_cons. case_decide as E.
  - destruct (IH Hle) as [IH1 IH2]. cbn [length take drop].
    split; [|done]. apply Forall_cons. split; [|done]. symmetry. by apply compare_eq.
  - assert (Compare split (sp_End y) = Lt) as Hlt by (by destruct (Compare split (sp_End y))).
    assert (Forall (fun b => Compare split (sp_End b) = Lt) l) as Hl2.
    { eapply Forall_impl; [exact Hy|]. intros b Hb. unfold less_end in Hb.
      apply bool_decide_eq_false in Hb. apply compare_not_lt in Hb.
      by eapply compare_lt_le_trans. }
    replace (filter _ l) with (@nil Span).
    + cbn [length take drop]. split; [done|]. by apply Forall_cons.
    + clear -Hl2. induction Hl2 as [|b l Hb _ IH]; [done|].
      rewrite filter_cons, decide_False; [done|by rewrite Hb].
Qed.

Lemma sorted_set_start k l : sorted_by less_end l -> sorted_by less_end (set_start k <$> l).
Proof.
  induction 1 as [|y l Hl IH Hy]; simpl; constructor; [done|].
  apply Forall_fmap. eapply Forall_impl; [exact Hy|]. done.
Qed.

Lemma sorted_drop {A} (less : A -> A -> bool) n l : sorted_by less l -> sorted_by less (drop n l).
Proof.
  intros Hl. revert n. induction Hl as [|y l Hl IH Hy]; intros [|n]; simpl; try constructor; auto.
Qed.

(** Splitting a group at a key: what is contained before and after it. *)
Lemma at_key_group_after p split l x :
  group p l -> Compare p split <> Gt -> Compare split x <> Gt ->
  at_key x (set_start split <$> l) = at_key x l.
Proof.
  intros Hg Hp Hx. induction Hg as [|s l [Hs _] _ IH]; [done|].
  rewrite fmap_cons, !at_key_cons, IH. f_equal.
  replace (Contains (set_start split s) x) with (Contains s x); [done|].
  apply eq_true_iff_eq. rewrite !Contains_spec. simpl. rewrite Hs. split; intros [_ ?]; split; try done.
  by eapply compare_le_trans.
Qed.

Lemma at_key_before p l x : group p l -> Compare x p = Lt -> at_key x l = [].
Proof.
  intros Hg Hx. apply at_key_none. eapply Forall_impl; [exact Hg|].
  intros s [Hs _]. apply not_true_iff_false. rewrite Contains_spec, Hs. intros [Hle _].
  by apply compare_gt_lt in Hx.
Qed.

Lemma at_key_past l k x :
  Forall (fun s => sp_End s = k) l -> Compare k x <> Gt -> at_key x l = [].
Proof.
  intros Hl Hx. apply at_key_none. eapply Forall_impl; [exact Hl|].
  intros s Hs. apply not_true_iff_false. rewrite Contains_spec, Hs. intros [_ Hlt].
  by apply compare_gt_lt in Hlt.
Qed.

Lemma at_key_inside p k l x :
  group p l -> Forall (fun s => Compare k (sp_End s) <> Gt) l ->
  Compare p x <> Gt -> Compare x k = Lt -> at_key x l = concat (sp_Keys <$> l).
Proof.
  intros Hg Hk Hp Hx. apply at_key_all. apply Forall_forall. intros s Hin.
  rewrite Forall_forall in Hk. unfold group in Hg. rewrite Forall_forall in Hg.
  apply Contains_spec. destruct (Hg s Hin) as [-> _].
  split; [done|]. eapply compare_lt_le_trans; [exact Hx|auto].
Qed.

Lemma flush_loop_spec fuel : forall p buf,
  group p buf -> sorted_by less_end buf -> (length buf <= fuel)%nat ->
  let out := flush_loop fuel buf None in
  chain p out /\ (forall x, at_key x out ≡ₚ at_key x buf) /\
  (forall k, Compare p k <> Gt -> Forall (fun s => Compare (sp_End s) k <> Gt) buf ->
    Compare (chain_end p out) k <> Gt).
Proof.
  induction fuel as [|fuel IH]; intros p [|b0 rest] Hg Hs Hf; try done; [simpl in Hf; lia|].
  cbn [flush_loop]. set (split := sp_End b0).
  set (r := length (filter (fun b => Compare split (sp_End b) = Eq) rest)).
  set (out0 := mkSpan (sp_Start b0) split _ _).
  cbn [Nat.add drop].
  apply Forall_cons in Hg as Hg'. destruct Hg' as [[Hb0 Hlt0] Hgr].
  inversion Hs as [|? ? Hsr Hmin]; subst.
  assert (Forall (fun b => Compare split (sp_End b) <> Gt) rest) as Hle.
  { eapply Forall_impl; [exact Hmin|]. intros b Hb. unfold less_end in Hb.
    apply bool_decide_eq_false in Hb. by apply compare_not_lt. }
  destruct (remove_prefix split rest Hsr Hle) as [Hpre Hpost]. fold r in Hpre, Hpost.
  assert (group split (set_start split <$> drop r rest)) as Hg2.
  { apply Forall_fmap. eapply Forall_impl; [exact Hpost|]. intros b Hb. done. }
  destruct (IH split (set_start split <$> drop r rest)) as (IH1 & IH2 & IH3); [done| | |].
  { by apply sorted_set_start, sorted_drop. }
  { rewrite length_fmap, length_drop. simpl in Hf. lia. }
  split; [|split].
  - split; [by rewrite compare_refl|]. split; [done|]. split; [|done].
    apply SortKeysByTrailer_sorted.
  - intros x. rewrite at_key_cons, (IH2 x). destruct (Compare x split) eqn:Hx.
    2: { rewrite (at_key_before split _ x Hg2 Hx), app_nil_r.
      destruct (Contains out0 x) eqn:Hc.
      - apply Contains_spec in Hc as [Hp _]. cbn [sp_Start out0] in Hp.
        rewrite (at_key_inside (sp_Start b0) split (b0 :: rest) x) by
          (first [done | apply Forall_cons; split; [by rewrite compare_refl|done]]).
        unfold out0. cbn [sp_Keys]. unfold SortKeysByTrailer. by rewrite sort_perm.
      - destruct (Compare x (sp_Start b0)) eqn:Hxp.
        + apply compare_eq in Hxp as ->. exfalso. apply not_true_iff_false in Hc. apply Hc.
          apply Contains_spec. cbn [sp_Start out0]. by rewrite compare_refl.
        + by rewrite (at_key_before (sp_Start b0) (b0 :: rest) x).
        + exfalso. apply not_true_iff_false in Hc. apply Hc. apply Contains_spec.
          split; [|done]. apply compare_gt_lt in Hxp. cbn [sp_Start out0]. by rewrite Hxp. }
    all: assert (Compare split x <> Gt) as Hsx by (rewrite compare_antisym, Hx; done).
    all: replace (Contains out0 x) with false by
      (symmetry; apply not_true_iff_false; rewrite Contains_spec; intros [_ Hc];
       cbn [sp_End out0] in Hc; congruence).
    all: rewrite (at_key_group_after (sp_Start b0) split (drop r rest) x);
      [|by apply Forall_drop|unfold split; by rewrite Hlt0|done].
    all: rewrite at_key_cons; replace (Contains b0 x) with false by
      (symmetry; apply not_true_iff_false; rewrite Contains_spec; intros [_ Hc];
       fold split in Hc; congruence).
    all: rewrite <- (take_drop r rest) at 2; rewrite at_key_app.
    all: by rewrite (at_key_past (take r rest) split x).
  - intros k Hpk Hk. apply Forall_cons in Hk as [Hk0 Hk]. cbn [chain_end]. apply IH3; [done|].
    apply Forall_fmap. by apply Forall_drop.
Qed.

Lemma group_perm p l l' : l ≡ₚ l' -> group p l -> group p l'.
Proof. intros Hl. unfold group. by rewrite Hl. Qed.

Lemma flush_spec f p buf : group p buf ->
  exists out, flush f buf None = f <| f_emitted := f_emitted f ++ out |> /\
    chain p out /\ (forall x, at_key x out ≡ₚ at_key x buf) /\
    (forall k, Compare p k <> Gt -> Forall (fun s => Compare (sp_End s) k <> Gt) buf ->
      Compare (chain_end p out) k <> Gt).
Proof.
  intros Hg. pose proof (sort_perm less_end buf) as Hperm.
  destruct (flush_loop_spec (length buf) p (sort_Sort less_end buf)) as (H1 & H2 & H3).
  - by eapply group_perm; [symmetry; exact Hperm|].
  - apply sort_sorted. apply weak_order_compare.
  - by rewrite Hperm.
  - eexists. split; [done|]. split; [done|]. split.
    + intros x. by rewrite H2, Hperm.
    + intros k Hk Hends. apply H3; [done|]. by rewrite Hperm.
Qed.

Lemma truncate_spec p key l :
  group p l -> Compare p key = Lt ->
  let '(done, keep) := truncate key l in
  group p done /\ group key keep /\ Forall (fun s => Compare (sp_End s) key <> Gt) done /\
  forall x, at_key x done ++ at_key x keep ≡ₚ at_key x l.
Proof.
  intros Hg Hlt. induction Hg as [|s l [Hs He] _ IH].
  { cbn [truncate]. split; [apply Forall_nil_2|]. split; [apply Forall_nil_2|].
    split; [apply Forall_nil_2|done]. }
  cbn [truncate].
  destruct (truncate key l) as [done keep]. destruct IH as (I1 & I2 & I3 & I4).
  rewrite Hs, (bool_decide_eq_true_2 (Compare p key = Lt)) by done.
  case_bool_decide as Hk.
  - split; [by apply Forall_cons|]. split; [by apply Forall_cons|].
    split; [apply Forall_cons; split; [cbn [sp_End]; by rewrite compare_refl|done]|].
    intros x. rewrite !at_key_cons. rewrite <- (I4 x).
    set (d := mkSpan p key _ _). set (k := mkSpan key _ _ _).
    assert ((if Contains d x then sp_Keys s else []) ++ (if Contains k x then sp_Keys s else []) =
      (if Contains s x then sp_Keys s else [])) as E.
    { destruct (Compare x key) eqn:Hx.
      2: { replace (Contains k x) with false
          by (symmetry; apply not_true_iff_false; rewrite Contains_spec; intros [Hc _];
              apply compare_gt_lt in Hx; cbn [sp_Start k] in Hc; congruence).
        rewrite app_nil_r. replace (Contains d x) with (Contains s x); [done|].
        apply eq_true_iff_eq. rewrite !Contains_spec, Hs. cbn [sp_Start sp_End d].
        split; intros [? ?]; split; try done. by eapply compare_trans. }
      all: replace (Contains d x) with false
        by (symmetry; apply not_true_iff_false; rewrite Contains_spec; intros [_ Hc];
            cbn [sp_End d] in Hc; congruence).
      all: cbn [app]; replace (Contains k x) with (Contains s x); [done|].
      all: apply eq_true_iff_eq; rewrite !Contains_spec, Hs; cbn [sp_Start sp_End k].
      all: assert (Compare key x <> Gt) as Hle by (rewrite compare_antisym, Hx; done).
      all: split; intros [? ?]; split; try done.
      all: by rewrite (compare_lt_le_trans _ _ _ Hlt Hle). }
    rewrite <- E. cbn [sp_Keys]. unfold d, k. cbn [sp_Keys]. fold d k.
    rewrite <- !(assoc_L (++)). apply Permutation_app_head.
    rewrite !(assoc_L (++)). apply Permutation_app_tail. apply Permutation_app_comm.
  - split; [by apply Forall_cons|]. split; [done|].
    split; [apply Forall_cons; split; [by apply compare_not_lt in Hk|done]|].
    intros x. rewrite !at_key_cons, <- (I4 x). by rewrite (assoc_L (++)).
Qed.

(** ** The invariant of the fragmenter *)

(** After adding the spans [ins] and truncating at the keys [cuts], up to the key
    [pos]; the pending spans start at [p]. *)
Record FInv (ins : list Span) (cuts : list bytes) (p pos : bytes) (f : Fragmenter) : Prop := {
  fi_finished : f_finished f = false;
  fi_group : group p (f_pending f);
  fi_pos : Compare p pos <> Gt;
  fi_chain : chain [] (f_emitted f);
  fi_end : Compare (chain_end [] (f_emitted f)) p <> Gt;
  fi_flushed k : f_flushedKey f = Some k -> Compare k pos <> Gt;
  fi_at x : at_key x (f_emitted f) ++ at_key x (f_pending f) ≡ₚ at_key x ins;
  fi_cuts : Forall (fun k => Compare k p <> Gt) cuts;
  fi_cut : Forall (fun k =>
    Forall (fun s => Compare (sp_End s) k <> Gt \/ Compare k (sp_Start s) <> Gt) (f_emitted f)) cuts;
}.

Lemma compare_nil_le x : Compare [] x <> Gt.
Proof. destruct x; [by rewrite compare_refl|by rewrite compare_nil]. Qed.

Lemma FInv_new : FInv [] [] [] [] new_fragmenter.
Proof.
  split; simpl; first [done | apply Forall_nil_2 | by rewrite compare_refl].
Qed.

(** Moving on, where nothing is pending the start may move too. *)
Lemma FInv_move ins cuts p pos f q pos' :
  FInv ins cuts p pos f -> Compare pos pos' <> Gt -> Compare p q <> Gt -> Compare q pos' <> Gt ->
  q = p \/ f_pending f = [] -> FInv ins cuts q pos' f.
Proof.
  intros [] Hpos Hpq Hq Hpend. split; try done.
  - destruct Hpend as [->|Hp]; [done|]. rewrite Hp. apply Forall_nil_2.
  - exact (compare_le_trans _ _ _ fi_end0 Hpq).
  - intros k Hk. exact (compare_le_trans _ _ _ (fi_flushed0 k Hk) Hpos).
  - eapply Forall_impl; [exact fi_cuts0|]. intros k Hk. exact (compare_le_trans _ _ _ Hk Hpq).
Qed.

Lemma chain_starts lo l : chain lo l -> Forall (fun s => Compare lo (sp_Start s) <> Gt) l.
Proof.
  revert lo. induction l as [|s l IH]; intros lo; [done|]. intros (H1 & H2 & _ & H3).
  apply Forall_cons. split; [done|]. eapply Forall_impl; [by apply IH|].
  intros t Ht. eapply compare_le_trans; [exact H1|]. eapply compare_le_trans; [|exact Ht].
  by rewrite H2.
Qed.

Lemma chain_end_app lo l1 l2 : chain_end lo (l1 ++ l2) = chain_end (chain_end lo l1) l2.
Proof. revert lo. induction l1; intros lo; simpl; auto. Qed.

Lemma chain_end_mono lo lo' l k :
  Compare lo lo' <> Gt -> Compare (chain_end lo' l) k <> Gt -> Compare lo k <> Gt ->
  Compare (chain_end lo l) k <> Gt.
Proof. destruct l; simpl; [done|]. done. Qed.

(** Emitting more: a chain that starts at [p]. *)
Lemma emit_more cuts p f out q :
  chain [] (f_emitted f) -> Compare (chain_end [] (f_emitted f)) p <> Gt ->
  Forall (fun k => Compare k p <> Gt) cuts ->
  Forall (fun k => Forall (fun s =>
    Compare (sp_End s) k <> Gt \/ Compare k (sp_Start s) <> Gt) (f_emitted f)) cuts ->
  chain p out -> Compare p q <> Gt -> Compare (chain_end p out) q <> Gt ->
  chain [] (f_emitted f ++ out) /\
  Compare (chain_end [] (f_emitted f ++ out)) q <> Gt /\
  Forall (fun k => Forall (fun s =>
    Compare (sp_End s) k <> Gt \/ Compare k (sp_Start s) <> Gt) (f_emitted f ++ out)) cuts.
Proof.
  intros Hc He Hcuts Hcut Ho Hpq Hoq. split; [|split].
  - apply chain_app. split; [done|]. by eapply chain_weaken.
  - rewrite chain_end_app. apply chain_end_mono with p; [done|done|].
    exact (compare_le_trans _ _ _ He Hpq).
  - apply Forall_forall. intros k Hk. rewrite Forall_forall in Hcuts, Hcut.
    apply Forall_app. split; [auto|]. eapply Forall_impl; [by apply chain_starts|].
    intros s Hs. right. exact (compare_le_trans _ _ _ (Hcuts k Hk) Hs).
Qed.

Lemma chain_ends lo l : chain lo l -> Forall (fun s => Compare (sp_End s) (chain_end lo l) <> Gt) l.
Proof.
  revert lo. induction l as [|s l IH]; intros lo; [done|]. intros (H1 & H2 & _ & H3).
  apply Forall_cons. split; [exact (chain_end_le _ _ H3)|exact (IH _ H3)].
Qed.

(** Where the start is the cut, nothing goes over it. *)
Lemma FInv_cut ins cuts key f :
  FInv ins cuts key key f -> FInv ins (cuts ++ [key]) key key f.
Proof.
  intros []. split; try done.
  - apply Forall_app. split; [done|]. apply Forall_cons. split; [done|apply Forall_nil_2].
  - apply Forall_app. split; [done|]. apply Forall_cons. split; [|apply Forall_nil_2].
    eapply Forall_impl; [by apply chain_ends|]. intros s Hs. left.
    exact (compare_le_trans _ _ _ Hs fi_end0).
Qed.

Lemma set_flushed_key old key k : set_flushed old key = Some k -> k = key.
Proof. destruct old, key; simpl; congruence. Qed.

Lemma FInv_truncate ins cuts p pos f key :
  FInv ins cuts p pos f -> Compare p key = Lt -> Compare pos key <> Gt ->
  FInv ins cuts key key (truncateAndFlush f key).
Proof.
  intros Hi Hlt Hpos. unfold truncateAndFlush.
  pose proof (truncate_spec p key (f_pending f) (fi_group _ _ _ _ _ Hi) Hlt) as Ht.
  cbn [f_pending set]. change (f_pending (f <| f_flushedKey := _ |>)) with (f_pending f).
  destruct (truncate key (f_pending f)) as [done keep]. destruct Ht as (T1 & T2 & T3 & T4).
  set (f1 := f <| f_flushedKey := _ |> <| f_pending := keep |>).
  destruct (flush_spec f1 p done T1) as (out & -> & O1 & O2 & O3).
  destruct (emit_more cuts p f1 out key) as (E1 & E2 & E3);
    [apply Hi|apply Hi|apply Hi|apply Hi|done|by rewrite Hlt|apply O3; [by rewrite Hlt|done]|].
  split; try done.
  - apply Hi.
  - by rewrite compare_refl.
  - intros k Hk. apply set_flushed_key in Hk as ->. by rewrite compare_refl.
  - intros x. simpl. rewrite at_key_app.
    rewrite <- (fi_at _ _ _ _ _ Hi x), <- (T4 x), <- (O2 x). by rewrite (assoc_L (++)).
  - eapply Forall_impl; [apply Hi|]. intros k Hk.
    apply (compare_le_trans _ _ _ Hk). by rewrite Hlt.
Qed.

Lemma FInv_truncate_empty ins cuts key f :
  FInv ins cuts key key f -> f_pending f = [] ->
  FInv ins cuts key key (truncateAndFlush f key).
Proof.
  intros [] Hp. unfold truncateAndFlush. simpl. rewrite Hp. simpl. unfold flush.
  assert (sort_Sort less_end [] = []) as -> by (apply Permutation_nil_r, sort_perm).
  split; simpl; rewrite ?app_nil_r; try done.
  - apply Forall_nil_2.
  - intros k Hk. apply set_flushed_key in Hk as ->. by rewrite compare_refl.
  - intros x. rewrite <- fi_at0, Hp. done.
Qed.

(** ** Sequences of operations *)
Inductive frag_op := FAdd (s : Span) | FTruncate (key : bytes).

Definition frag_step (f : Fragmenter) (op : frag_op) : go Fragmenter :=
  match op with FAdd s => Add f s | FTruncate key => TruncateAndFlushTo f key end.
Fixpoint frag_run (f : Fragmenter) (ops : list frag_op) : go Fragmenter :=
  match ops with [] => Ret f | op :: ops => f ← frag_step f op; frag_run f ops end.

Definition op_pos (op : frag_op) : bytes :=
  match op with FAdd s => sp_Start s | FTruncate key => key end.
Definition op_span (op : frag_op) : list Span := match op with FAdd s => [s] | _ => [] end.
Definition op_cut (op : frag_op) : list bytes := match op with FTruncate key => [key] | _ => [] end.
Definition op_ok (op : frag_op) : Prop :=
  match op with FAdd s => sp_KeysOrder s = ByTrailerDesc | _ => True end.

(** The operations come in the order of their keys. *)
Fixpoint in_order (lo : bytes) (ops : list frag_op) : Prop :=
  match ops with
  | [] => True
  | op :: ops => Compare lo (op_pos op) <> Gt /\ in_order (op_pos op) ops
  end.
Fixpoint last_pos (lo : bytes) (ops : list frag_op) : bytes :=
  match ops with [] => lo | op :: ops => last_pos (op_pos op) ops end.

Lemma not_before_flushed ins cuts p pos f key :
  FInv ins cuts p pos f -> Compare pos key <> Gt -> before_flushed f key = false.
Proof.
  intros Hi Hk. unfold before_flushed. destruct (f_flushedKey f) as [k|] eqn:E; [|done].
  apply bool_decide_eq_false_2. apply compare_not_lt.
  exact (compare_le_trans _ _ _ (fi_flushed _ _ _ _ _ Hi k E) Hk).
Qed.

Lemma head_start p f s l : group p (f_pending f) -> f_pending f = s :: l -> sp_Start s = p.
Proof. intros Hg E. unfold group in Hg. rewrite E in Hg. by apply Forall_cons in Hg as [[? _] _]. Qed.

(** One more pending span. *)
Lemma FInv_push ins cuts f s :
  FInv ins cuts (sp_Start s) (sp_Start s) f -> Compare (sp_Start s) (sp_End s) = Lt ->
  FInv (ins ++ [s]) cuts (sp_Start s) (sp_Start s) (f <| f_pending := f_pending f ++ [s] |>).
Proof.
  intros [] Hlt. split; try done.
  - apply Forall_app. split; [done|]. apply Forall_cons. split; [done|apply Forall_nil_2].
  - intros x. simpl. rewrite !at_key_app, <- fi_at0. by rewrite (assoc_L (++)).
Qed.

(** What an operation emits starts at the pending spans, and ends before those that are
    pending then. *)
Definition emits_between (f f' : Fragmenter) (p q : bytes) : Prop :=
  exists out, f_emitted f' = f_emitted f ++ out /\ chain p out /\ Compare p q <> Gt /\
    Compare (chain_end p out) q <> Gt.
Lemma emits_nothing f f' p q : f_emitted f' = f_emitted f -> Compare p q <> Gt -> emits_between f f' p q.
Proof. intros E Hpq. exists []. by rewrite app_nil_r. Qed.

Lemma truncateAndFlush_emits ins cuts p pos f key :
  FInv ins cuts p pos f -> Compare p key = Lt -> emits_between f (truncateAndFlush f key) p key.
Proof.
  intros Hi Hlt. unfold truncateAndFlush.
  pose proof (truncate_spec p key (f_pending f) (fi_group _ _ _ _ _ Hi) Hlt) as Ht.
  cbn [f_pending set]. change (f_pending (f <| f_flushedKey := _ |>)) with (f_pending f).
  destruct (truncate key (f_pending f)) as [done keep]. destruct Ht as (T1 & T2 & T3 & T4).
  set (f1 := f <| f_flushedKey := _ |> <| f_pending := keep |>).
  destruct (flush_spec f1 p done T1) as (out & -> & O1 & O2 & O3).
  exists out. split; [done|]. split; [done|]. split; [by rewrite Hlt|]. apply O3; [by rewrite Hlt|done].
Qed.
Lemma truncateAndFlush_empty f key : f_pending f = [] -> f_emitted (truncateAndFlush f key) = f_emitted f.
Proof.
  intros Hp. unfold truncateAndFlush. simpl. rewrite Hp. simpl. by rewrite app_nil_r.
Qed.

Lemma FInv_Add ins cuts p pos f s :
  FInv ins cuts p pos f -> Compare pos (sp_Start s) <> Gt -> sp_KeysOrder s = ByTrailerDesc ->
  exists f' p', Add f s = Ret f' /\ FInv (ins ++ [s]) cuts p' (sp_Start s) f' /\ emits_between f f' p p' /\
    (Compare (sp_Start s) (sp_End s) = Lt -> p' = sp_Start s).
Proof.
  intros Hi Hpos Hok. pose proof (compare_le_trans _ _ _ (fi_pos _ _ _ _ _ Hi) Hpos) as Hp.
  assert (Compare (sp_Start s) (sp_Start s) <> Gt) as Hrefl by (by rewrite compare_refl).
  pose proof (not_before_flushed _ _ _ _ _ _ Hi Hpos) as Hb.
  unfold Add. rewrite (fi_finished _ _ _ _ _ Hi), Hb. rewrite decide_False by (by intros []).
  case_bool_decide as Hse.
  { exists f, p. split; [done|]. split; [|split; [apply emits_nothing; [done|by rewrite compare_refl]|done]].
    pose proof (FInv_move _ _ _ _ _ p (sp_Start s) Hi Hpos) as Hm.
    destruct Hm; [by rewrite compare_refl|done|by left|]. split; try done.
    intros x. rewrite fi_at0, at_key_app. replace (at_key x [s]) with (@nil Key);
      [by rewrite app_nil_r|]. symmetry. apply at_key_none. apply Forall_cons.
    split; [|apply Forall_nil_2]. apply not_true_iff_false. rewrite Contains_spec.
    intros [H1 H2]. apply Hse. exact (compare_le_lt_trans _ _ _ H1 H2). }
  rename Hse into Hlt.
  destruct (f_pending f) as [|p0 l] eqn:E.
  - eexists _, (sp_Start s). split; [done|]. split; [|split; [by apply emits_nothing|done]].
    pose proof (FInv_move _ _ _ _ _ _ _ Hi Hpos Hp Hrefl (or_intror E)) as Hm.
    apply FInv_push in Hm; [|done]. by rewrite E in Hm.
  - rewrite (head_start p f p0 l (fi_group _ _ _ _ _ Hi) E).
    destruct (Compare p (sp_Start s)) eqn:Ec; [| |done].
    + apply compare_eq in Ec as ->. eexists _, (sp_Start s). split; [done|]. split; [|split; [by apply emits_nothing|done]].
      pose proof (FInv_move _ _ _ _ _ _ _ Hi Hpos Hrefl Hrefl (or_introl eq_refl)) as Hm.
      apply FInv_push in Hm; [|done]. by rewrite E in Hm.
    + eexists _, (sp_Start s). split; [done|]. split; [|split; [|done]].
      * apply FInv_push; [|done]. exact (FInv_truncate _ _ _ _ _ _ Hi Ec Hpos).
      * destruct (truncateAndFlush_emits _ _ _ _ _ _ Hi Ec) as (out & E1 & E2). exists out. done.
Qed.

Lemma FInv_TruncateAndFlushTo ins cuts p pos f key :
  FInv ins cuts p pos f -> Compare pos key <> Gt ->
  exists f', TruncateAndFlushTo f key = Ret f' /\ FInv ins (cuts ++ [key]) key key f' /\ emits_between f f' p key.
Proof.
  intros Hi Hpos. pose proof (compare_le_trans _ _ _ (fi_pos _ _ _ _ _ Hi) Hpos) as Hp.
  assert (Compare key key <> Gt) as Hrefl by (by rewrite compare_refl).
  pose proof (not_before_flushed _ _ _ _ _ _ Hi Hpos) as Hb.
  unfold TruncateAndFlushTo. rewrite (fi_finished _ _ _ _ _ Hi), Hb.
  destruct (f_pending f) as [|p0 l] eqn:E.
  - eexists. split; [done|]. split; [|apply emits_nothing; [by apply truncateAndFlush_empty|done]].
    apply FInv_cut, FInv_truncate_empty; [|done].
    exact (FInv_move _ _ _ _ _ _ _ Hi Hpos Hp Hrefl (or_intror E)).
  - rewrite (head_start p f p0 l (fi_group _ _ _ _ _ Hi) E).
    destruct (Compare p key) eqn:Ec; [| |done].
    + apply compare_eq in Ec as ->. exists f. split; [done|]. split; [|by apply emits_nothing].
      apply FInv_cut. exact (FInv_move _ _ _ _ _ _ _ Hi Hpos Hrefl Hrefl (or_introl eq_refl)).
    + eexists. split; [done|]. split; [|by eapply truncateAndFlush_emits].
      apply FInv_cut. exact (FInv_truncate _ _ _ _ _ _ Hi Ec Hpos).
Qed.

Lemma FInv_Finish ins cuts p pos f :
  FInv ins cuts p pos f ->
  exists f' out, Finish f = Ret f' /\ f_finished f' = true /\ f_emitted f' = f_emitted f ++ out /\
    chain p out /\ chain [] (f_emitted f') /\ (forall x, at_key x (f_emitted f') ≡ₚ at_key x ins) /\
    Forall (fun k => Forall (fun s => Compare (sp_End s) k <> Gt \/ Compare k (sp_Start s) <> Gt)
      (f_emitted f')) cuts.
Proof.
  intros Hi. destruct (flush_spec f p (f_pending f) (fi_group _ _ _ _ _ Hi)) as (out & E2 & O1 & O2 & O3).
  exists ((flush f (f_pending f) None) <| f_finished := true |>), out.
  split; [unfold Finish; by rewrite (fi_finished _ _ _ _ _ Hi)|]. rewrite E2. simpl.
  destruct (emit_more cuts p f out (chain_end p out)) as (E3 & _ & E4);
    [apply Hi|apply Hi|apply Hi|apply Hi|done|by apply chain_end_le|by rewrite compare_refl|].
  split_and!; try done. intros x. rewrite at_key_app, O2. apply Hi.
Qed.

(** ** Bounds *)

(** All spans end before an upper bound, if there is one. *)
Definition below_hi (hi : option bytes) (s : Span) : Prop :=
  forall h, hi = Some h -> Compare (sp_End s) h <> Gt.
Record fits (hi : option bytes) (f : Fragmenter) : Prop := {
  fit_pending : Forall (below_hi hi) (f_pending f);
  fit_emitted : Forall (below_hi hi) (f_emitted f);
}.

Lemma fits_new hi : fits hi new_fragmenter.
Proof. split; constructor. Qed.

Lemma flush_loop_below hi fuel lastKey : forall buf,
  Forall (below_hi hi) buf -> Forall (below_hi hi) (flush_loop fuel buf lastKey).
Proof.
  induction fuel as [|fuel IH]; intros buf Hb; [constructor|].
  destruct buf as [|b0 rest]; [constructor|]. cbn [flush_loop].
  pose proof (proj1 (Forall_cons_1 _ _ _ Hb)) as H0.
  match goal with |- context [if ?c then _ else _] => destruct c end; (constructor; [exact H0|]); [constructor|].
  apply IH, Forall_fmap. eapply Forall_impl; [apply (Forall_drop _ _ _ Hb)|]. done.
Qed.
Lemma flush_below hi f buf lastKey :
  Forall (below_hi hi) buf -> Forall (below_hi hi) (f_emitted f) -> Forall (below_hi hi) (f_emitted (flush f buf lastKey)).
Proof.
  intros Hb He. cbn. apply Forall_app. split; [done|]. apply flush_loop_below.
  by rewrite (sort_perm less_end buf).
Qed.

Lemma truncate_below hi key l :
  Forall (below_hi hi) l ->
  Forall (below_hi hi) (fst (truncate key l)) /\ Forall (below_hi hi) (snd (truncate key l)).
Proof.
  induction 1 as [|s l Hs _ [I1 I2]]; [split; constructor|]. cbn [truncate].
  destruct (truncate key l) as [done keep]. cbn [fst snd] in *.
  case_bool_decide as Hk; [|by split; [constructor|]].
  case_bool_decide; cbn [fst snd]; (split; [|by constructor]); [|done].
  constructor; [|done]. intros h Hh. cbn [sp_End]. rewrite (compare_lt_le_trans _ _ _ Hk (Hs h Hh)). done.
Qed.
Lemma fits_truncate hi f key : fits hi f -> fits hi (truncateAndFlush f key).
Proof.
  intros [H1 H2]. unfold truncateAndFlush. cbn [f_pending set].
  change (f_pending (f <| f_flushedKey := _ |>)) with (f_pending f).
  destruct (truncate_below hi key (f_pending f) H1) as [T1 T2].
  destruct (truncate key (f_pending f)) as [done keep]. cbn [fst snd] in *.
  split; [done|]. by apply flush_below.
Qed.

Lemma fits_Add hi f s f' : fits hi f -> below_hi hi s -> Add f s = Ret f' -> fits hi f'.
Proof.
  intros Hf Hs. unfold Add. destruct (f_finished f); [done|]. case_decide; [done|].
  destruct (before_flushed f (sp_Start s)); [done|]. case_bool_decide; [by intros [= <-]|].
  assert (forall f, fits hi f -> fits hi (f <| f_pending := f_pending f ++ [s] |>)) as Hpush.
  { intros f0 [H1 H2]. split; [|done]. apply Forall_app. split; [done|]. by constructor. }
  pose proof (Hpush f Hf) as Hpf.
  destruct (f_pending f) as [|p0 l] eqn:Ep; [|destruct (Compare (sp_Start p0) (sp_Start s))]; intros [= <-]; try done.
  by apply Hpush, fits_truncate.
Qed.
Lemma Add_pending f s f' : Compare (sp_Start s) (sp_End s) = Lt -> Add f s = Ret f' -> f_pending f' <> [].
Proof.
  intros Hlt. unfold Add. destruct (f_finished f); [done|]. case_decide; [done|].
  destruct (before_flushed f (sp_Start s)); [done|]. rewrite bool_decide_eq_false_2 by (intros H'; by apply H').
  destruct (f_pending f) as [|p0 l]; [|destruct (Compare (sp_Start p0) (sp_Start s))]; intros [= <-]; [done|done|].
  cbn. intros E. by apply app_eq_nil in E as [_ ?].
Qed.
Lemma fits_TruncateAndFlushTo hi f key f' : fits hi f -> TruncateAndFlushTo f key = Ret f' -> fits hi f'.
Proof.
  intros Hf. unfold TruncateAndFlushTo. destruct (f_finished f); [done|]. destruct (before_flushed f key); [done|].
  destruct (f_pending f) as [|p0 l]; [|destruct (Compare (sp_Start p0) key)]; intros [= <-]; try done;
    by apply fits_truncate.
Qed.
Lemma fits_Finish hi f f' : fits hi f -> Finish f = Ret f' -> fits hi f'.
Proof.
  intros [H1 H2]. unfold Finish. destruct (f_finished f); [done|]. intros [= <-]. split; [done|].
  exact (flush_below hi f (f_pending f) None H1 H2).
Qed.

Lemma FInv_step ins cuts p pos f op :
  FInv ins cuts p pos f -> Compare pos (op_pos op) <> Gt -> op_ok op ->
  exists f' p', frag_step f op = Ret f' /\
    FInv (ins ++ op_span op) (cuts ++ op_cut op) p' (op_pos op) f'.
Proof.
  intros Hi Hpos Hok. destruct op as [s|key]; cbn [op_pos op_span op_cut op_ok frag_step] in *; rewrite ?app_nil_r.
  - destruct (FInv_Add _ _ _ _ _ _ Hi Hpos Hok) as (f' & p' & ? & ? & _). eauto.
  - destruct (FInv_TruncateAndFlushTo _ _ _ _ _ _ Hi Hpos) as (f' & ? & ? & _). eauto.
Qed.

Lemma FInv_run ops : forall ins cuts p pos f,
  FInv ins cuts p pos f -> in_order pos ops -> Forall op_ok ops ->
  exists f' p', frag_run f ops = Ret f' /\
    FInv (ins ++ concat (op_span <$> ops)) (cuts ++ concat (op_cut <$> ops)) p' (last_pos pos ops) f'.
Proof.
  induction ops as [|op ops IH]; intros ins cuts p pos f Hi Ho Hok.
  - exists f, p. split; [done|]. simpl. by rewrite !app_nil_r.
  - destruct Ho as [Hpos Ho]. apply Forall_cons in Hok as [Hok1 Hok].
    destruct (FInv_step _ _ _ _ _ _ Hi Hpos Hok1) as (f1 & p1 & E1 & Hi1).
    destruct (IH _ _ _ _ _ Hi1 Ho Hok) as (f2 & p2 & E2 & Hi2).
    exists f2, p2. split; [|by rewrite <- !(assoc_L (++)) in Hi2].
    cbn [frag_run]. rewrite E1. cbn [mbind go_bind]. done.
Qed.

(** A run to the end. *)
Lemma frag_run_spec (ops : list frag_op) :
  in_order [] ops -> Forall op_ok ops ->
  exists f f', frag_run new_fragmenter ops = Ret f /\ Finish f = Ret f' /\
    chain [] (f_emitted f') /\
    (forall x, at_key x (f_emitted f') ≡ₚ at_key x (concat (op_span <$> ops))) /\
    Forall (fun k => Forall (fun s => Compare (sp_End s) k <> Gt \/ Compare k (sp_Start s) <> Gt)
      (f_emitted f')) (concat (op_cut <$> ops)).
Proof.
  intros Ho Hok.
  destruct (FInv_run ops _ _ _ _ _ FInv_new Ho Hok) as (f & p & E & Hi). cbn [app] in Hi.
  destruct (FInv_Finish _ _ _ _ _ Hi) as (f' & out & E1 & _ & _ & _ & E2 & E3 & E4). by exists f, f'.
Qed.

(** ** The properties *)

(** C19. The fragmenter.  Spans added in the order of their start keys, and
    truncations in between, never panic; the spans that are emitted are not empty,
    are in order and do not overlap, their keys are sorted by trailer, none goes over
    a key at which the fragmenter was truncated; and to every user key exactly the
    keys apply, with their multiplicity, that the added spans apply to it. *)
Theorem fragmenter_spec (ops : list frag_op) :
  in_order [] ops -> Forall op_ok ops ->
  exists f f', frag_run new_fragmenter ops = Ret f /\ Finish f = Ret f' /\
    chain [] (f_emitted f') /\
    (forall x, at_key x (f_emitted f') ≡ₚ at_key x (concat (op_span <$> ops))) /\
    Forall (fun k => Forall (fun s => Compare (sp_End s) k <> Gt \/ Compare k (sp_Start s) <> Gt)
      (f_emitted f')) (concat (op_cut <$> ops)).
Proof. apply frag_run_spec. Qed.

(** What it means for keys to cover an entry with sequence number [seqNum]. *)
Definition cover_spec (keys : list Key) (seqNum snapshot : Z) : Cover :=
  if decide (Exists (fun k => seqNum < key_SeqNum k /\ key_VisibleAt k snapshot = true) keys)
  then CoversVisibly
  else if decide (Exists (fun k => seqNum < key_SeqNum k) keys) then CoversInvisibly
  else NoCover.

Lemma cover_spec_perm keys keys' seqNum snapshot :
  keys ≡ₚ keys' -> cover_spec keys seqNum snapshot = cover_spec keys' seqNum snapshot.
Proof.
  intros Hk. assert (forall P, Exists P keys <-> Exists P keys') as E by (intros P; by rewrite Hk).
  unfold cover_spec.
  pose proof (E (fun k => seqNum < key_SeqNum k /\ key_VisibleAt k snapshot = true)).
  pose proof (E (fun k => seqNum < key_SeqNum k)). repeat case_decide; tauto.
Qed.

Definition worse (c d : Cover) : Cover :=
  match c, d with
  | CoversVisibly, _ | _, CoversVisibly => CoversVisibly
  | CoversInvisibly, _ | _, CoversInvisibly => CoversInvisibly
  | NoCover, NoCover => NoCover
  end.

Lemma cover_spec_app k1 k2 n s : cover_spec (k1 ++ k2) n s = worse (cover_spec k1 n s) (cover_spec k2 n s).
Proof.
  unfold cover_spec. repeat case_decide; rewrite ?Exists_app in *; simpl; tauto.
Qed.

Lemma cover_spec_nil n s : cover_spec [] n s = NoCover.
Proof. reflexivity. Qed.

Lemma covers_keys_spec keys n s cover :
  cover <> CoversVisibly -> covers_keys keys n s cover = worse cover (cover_spec keys n s).
Proof.
  revert cover. induction keys as [|k keys IH]; intros cover Hc; cbn [covers_keys].
  - rewrite cover_spec_nil. by destruct cover.
  - change (k :: keys) with ([k] ++ keys). rewrite cover_spec_app.
    assert (cover_spec [k] n s = if n <? key_SeqNum k then
      if (key_SeqNum k <? s) || batch_bit (key_SeqNum k) then CoversVisibly else CoversInvisibly
      else NoCover) as ->.
    { unfold cover_spec. destruct (Z.ltb_spec n (key_SeqNum k)) as [Hlt|Hge].
      - fold (key_VisibleAt k s). destruct (key_VisibleAt k s) eqn:E.
        + rewrite decide_True; [done|]. by apply Exists_cons_hd.
        + rewrite decide_False, decide_True; [done|by apply Exists_cons_hd|].
          rewrite Exists_cons, Exists_nil, E. intros [[_ ?]|[]]. done.
      - rewrite !decide_False; [done|rewrite Exists_cons, Exists_nil; intros [?|[]]; lia
          |rewrite Exists_cons, Exists_nil; intros [[? _]|[]]; lia]. }
    destruct (n <? key_SeqNum k).
    + destruct (_ || _); [by destruct cover|]. rewrite IH by done.
      by destruct cover, (cover_spec keys n s).
    + rewrite IH by done. by destruct cover, (cover_spec keys n s).
Qed.

Lemma covers_spans_spec p l key s cover :
  group p l -> Compare p (UserKey key) <> Gt -> cover <> CoversVisibly ->
  covers_spans l key s cover = worse cover (cover_spec (at_key (UserKey key) l) (SeqNum key) s).
Proof.
  intros Hg Hp. revert cover. induction Hg as [|b l [Hb _] _ IH]; intros cover Hc; cbn [covers_spans].
  - change (at_key (UserKey key) []) with (@nil Key). rewrite cover_spec_nil. by destruct cover.
  - rewrite at_key_cons, cover_spec_app.
    assert (Contains b (UserKey key) = bool_decide (Compare (UserKey key) (sp_End b) = Lt)) as ->.
    { unfold Contains. rewrite Hb. by rewrite bool_decide_eq_true_2. }
    case_bool_decide.
    + rewrite covers_keys_spec by done.
      destruct (worse cover (cover_spec (sp_Keys b) (SeqNum key) s)) eqn:E; rewrite ?IH by done;
        rewrite <- ?E; by destruct cover, (cover_spec (sp_Keys b) _ _), (cover_spec (at_key _ _) _ _).
    + rewrite IH, cover_spec_nil by done. by destruct cover, (cover_spec (at_key _ _) _ _).
Qed.

Lemma FInv_covers ins cuts p pos f key snapshot :
  FInv ins cuts p pos f -> Compare pos (UserKey key) <> Gt ->
  Fragmenter_Covers f key snapshot = Ret (cover_spec (at_key (UserKey key) ins) (SeqNum key) snapshot).
Proof.
  intros Hi Hkey. unfold Fragmenter_Covers. rewrite (fi_finished _ _ _ _ _ Hi).
  pose proof (compare_le_trans _ _ _ (fi_pos _ _ _ _ _ Hi) Hkey) as Hp.
  rewrite <- (cover_spec_perm _ _ _ _ (fi_at _ _ _ _ _ Hi (UserKey key))).
  rewrite (chain_beyond [] (f_emitted f)); [|apply Hi|
    exact (compare_le_trans _ _ _ (fi_end _ _ _ _ _ Hi) Hp)]. cbn [app].
  pose proof (covers_spans_spec p (f_pending f) key snapshot NoCover (fi_group _ _ _ _ _ Hi) Hp) as Hc.
  destruct (f_pending f) as [|p0 l] eqn:Ep.
  - change (at_key (UserKey key) []) with (@nil Key). by rewrite cover_spec_nil.
  - rewrite (head_start p f p0 l (fi_group _ _ _ _ _ Hi) Ep).
    rewrite bool_decide_eq_false_2 by done. rewrite Hc by done.
    by destruct (cover_spec _ _ _).
Qed.

(** A compaction asks the fragmenter whether range deletions cover a point key.
    The answer, for a key that is not before the last span added, is the one all spans
    added so far give: some key of a span that contains it is newer and visible at the
    snapshot, is newer but not visible, or there is none. *)
Theorem fragmenter_covers (ops : list frag_op) (key : InternalKey) (snapshot : Z) :
  in_order [] ops -> Forall op_ok ops -> Compare (last_pos [] ops) (UserKey key) <> Gt ->
  exists f, frag_run new_fragmenter ops = Ret f /\
    Fragmenter_Covers f key snapshot =
      Ret (cover_spec (at_key (UserKey key) (concat (op_span <$> ops))) (SeqNum key) snapshot).
Proof.
  intros Ho Hok Hkey.
  destruct (FInv_run ops _ _ _ _ _ FInv_new Ho Hok) as (f & p & E & Hi). cbn [app] in Hi.
  exists f. split; [done|]. by apply (FInv_covers _ _ _ _ _ _ _ Hi).
Qed.

End flush.

(** ** Visibility of the keys of a span *)

Definition trailers_ok (keys : list Key) : Prop :=
  Forall (fun k => 0 <= key_Trailer k < 2 ^ 64) keys /\
  StronglySorted (fun a b => key_Trailer b <= key_Trailer a) keys.

Lemma key_SeqNum_eq k : key_SeqNum k = key_Trailer k / 256.
Proof. unfold key_SeqNum. by rewrite Z.shiftr_div_pow2. Qed.

Lemma key_SeqNum_mono a b : key_Trailer b <= key_Trailer a -> key_SeqNum b <= key_SeqNum a.
Proof. rewrite !key_SeqNum_eq. intros. apply Z.div_le_mono; lia. Qed.

(** The batch bit is the highest bit of a sequence number. *)
Lemma batch_bit_spec n : 0 <= n < 2 ^ 56 -> batch_bit n = (2 ^ 55 <=? n).
Proof.
  intros Hn. unfold batch_bit. change InternalKeySeqNumBatch with (2 ^ 55).
  assert (Z.land n (2 ^ 55) = if Z.testbit n 55 then 2 ^ 55 else 0) as ->.
  { apply Z.bits_inj'. intros i Hi. rewrite Z.land_spec, Z.pow2_bits_eqb by lia.
    destruct (Z.eqb_spec 55 i) as [<-|Hne].
    - destruct (Z.testbit n 55); [by rewrite Z.pow2_bits_eqb by lia|by rewrite Z.bits_0].
    - rewrite andb_false_r. destruct (Z.testbit n 55); [|by rewrite Z.bits_0].
      rewrite Z.pow2_bits_eqb by lia. symmetry. by apply Z.eqb_neq. }
  rewrite Z.testbit_eqb by lia.
  destruct (Z.leb_spec (2 ^ 55) n).
  - replace (n / 2 ^ 55) with 1 by (apply (Z.div_unique n (2 ^ 55) 1 (n - 2 ^ 55)); lia). done.
  - rewrite Z.div_small by lia. done.
Qed.

(** Sorted keys: the batch keys, then the hidden, then the visible ones. *)
Lemma split_keys snapshot keys : trailers_ok keys ->
  exists B H V, keys = B ++ H ++ V /\
    Forall (fun k => batch_bit (key_SeqNum k) = true) B /\
    Forall (fun k => batch_bit (key_SeqNum k) = false /\ snapshot <= key_SeqNum k) H /\
    Forall (fun k => batch_bit (key_SeqNum k) = false /\ key_SeqNum k < snapshot) V.
Proof.
  intros [Hr Hs]. induction Hs as [|k keys Hs IH Hk].
  { exists [], [], []. repeat (split; [done|]). done. }
  apply Forall_cons in Hr as [Hrk Hr]. destruct (IH Hr) as (B & H & V & -> & HB & HH & HV).
  assert (forall k, 0 <= key_Trailer k < 2 ^ 64 -> 0 <= key_SeqNum k < 2 ^ 56) as Hseq.
  { intros k' Hk'. rewrite key_SeqNum_eq.
    split; [apply Z.div_pos; lia|apply Z.div_lt_upper_bound; lia]. }
  assert (forall k', k' ∈ B ++ H ++ V -> key_SeqNum k' <= key_SeqNum k /\ 0 <= key_SeqNum k' < 2 ^ 56)
    as Hle.
  { intros k' Hin. rewrite Forall_forall in Hk, Hr.
    split; [apply key_SeqNum_mono; auto|auto]. }
  destruct (batch_bit (key_SeqNum k)) eqn:Eb.
  { exists (k :: B), H, V. split; [done|]. split; [by apply Forall_cons|done]. }
  rewrite batch_bit_spec in Eb by auto. apply Z.leb_gt in Eb.
  assert (B = []) as ->.
  { destruct B as [|b B]; [done|]. apply Forall_cons in HB as [Hb _].
    destruct (Hle b) as [Hb1 Hb2]; [apply list_elem_of_here|]. rewrite batch_bit_spec in Hb by done. lia. }
  assert (batch_bit (key_SeqNum k) = false) as Eb' by (rewrite batch_bit_spec by auto; lia).
  destruct (Z.le_gt_cases snapshot (key_SeqNum k)).
  - exists [], (k :: H), V. split; [done|]. split; [done|]. split; [by apply Forall_cons|done].
  - assert (H = []) as ->.
    { destruct H as [|h H]; [done|]. apply Forall_cons in HH as [[_ Hh] _].
      destruct (Hle h) as [Hh1 _]; [apply list_elem_of_here|]. lia. }
    exists [], [], (k :: V). split; [done|]. split; [done|]. split; [done|]. by apply Forall_cons.
Qed.

Lemma last_cons {A} (k : A) l : List.last l k = List.last (k :: l) k.
Proof. by destruct l. Qed.

Lemma last_in {A} (l : list A) d : l <> [] -> List.last l d ∈ l.
Proof.
  intros Hl. destruct (exists_last Hl) as (l' & x & ->). rewrite List.last_last. set_solver.
Qed.

(** [CoversAt] looks at the first visible key. *)
Lemma covers_split snapshot seqNum B H V :
  Forall (fun k => batch_bit (key_SeqNum k) = true) B ->
  Forall (fun k => batch_bit (key_SeqNum k) = false /\ snapshot <= key_SeqNum k) H ->
  Forall (fun k => batch_bit (key_SeqNum k) = false /\ key_SeqNum k < snapshot) V ->
  covers_scan (B ++ H ++ V) snapshot seqNum =
    match B ++ V with [] => false | k :: _ => seqNum <? key_SeqNum k end.
Proof.
  intros HB HH HV. destruct HB as [|b B Hb _]; [|cbn [app covers_scan]; by rewrite Hb].
  induction HH as [|h H [Hb Hh] _ IH]; cbn [app covers_scan].
  - destruct HV as [|v V [Hb Hv] _]; [done|]. cbn [covers_scan]. rewrite Hb.
    by rewrite (proj2 (Z.ltb_lt _ _) Hv).
  - rewrite Hb, (proj2 (Z.ltb_ge _ _) Hh). apply IH.
Qed.

Lemma sorted_exists seqNum (R : Key -> Prop) `{forall k, Decision (R k)} keys :
  StronglySorted (fun a b => key_Trailer b <= key_Trailer a) keys ->
  match filter R keys with [] => false | k :: _ => seqNum <? key_SeqNum k end =
  bool_decide (Exists (fun k => seqNum < key_SeqNum k) (filter R keys)).
Proof.
  intros Hs. induction Hs as [|k keys Hs IH Hk]; [done|]. rewrite filter_cons.
  case_decide; [|exact IH]. destruct (Z.ltb_spec seqNum (key_SeqNum k)) as [Hlt|Hge].
  - symmetry. apply bool_decide_eq_true_2. by apply Exists_cons_hd.
  - symmetry. apply bool_decide_eq_false_2. rewrite Exists_cons, Exists_exists.
    intros [Hx|(x & Hin & Hx)]; [lia|]. apply list_elem_of_filter in Hin as [_ Hin].
    rewrite Forall_forall in Hk. pose proof (key_SeqNum_mono _ _ (Hk x Hin)). lia.
Qed.

Definition last_index (i : Z) (l : list Key) (d : Z) : Z :=
  match l with [] => d | _ => i + Z.of_nat (length l) - 1 end.

Lemma scan_split snapshot B H V :
  Forall (fun k => batch_bit (key_SeqNum k) = true) B ->
  Forall (fun k => batch_bit (key_SeqNum k) = false /\ snapshot <= key_SeqNum k) H ->
  Forall (fun k => batch_bit (key_SeqNum k) = false /\ key_SeqNum k < snapshot) V ->
  visible_scan snapshot (B ++ H ++ V) 0 (-1) (-1) =
    (last_index 0 B (-1), last_index (Z.of_nat (length B)) H (-1)).
Proof.
  intros HB HH HV.
  assert (forall i lb ln, visible_scan snapshot V i lb ln = (lb, ln)) as EV.
  { induction HV as [|k V [Hb Hk] _ IH]; intros i lb ln; simpl; [done|].
    rewrite Hb. destruct (Z.leb_spec snapshot (key_SeqNum k)); [lia|apply IH]. }
  assert (forall i lb ln, visible_scan snapshot (H ++ V) i lb ln = (lb, last_index i H ln)) as EH.
  { induction HH as [|k H [Hb Hk] _ IH]; intros i lb ln; cbn [app]; [apply EV|].
    cbn [visible_scan]. rewrite Hb. destruct (Z.leb_spec snapshot (key_SeqNum k)); [|lia].
    rewrite IH. f_equal. destruct H; cbn [last_index length]; lia. }
  assert (forall i lb ln, visible_scan snapshot (B ++ H ++ V) i lb ln =
    (last_index i B lb, last_index (i + Z.of_nat (length B)) H ln)) as EB.
  { induction HB as [|k B Hb _ IH]; intros i lb ln; cbn [app].
    - rewrite EH. do 2 f_equal. simpl. lia.
    - cbn [visible_scan]. rewrite Hb, IH. f_equal.
      + destruct B; cbn [last_index length]; lia.
      + f_equal. cbn [length]. lia. }
  apply EB.
Qed.

Lemma filter_split snapshot B H V :
  Forall (fun k => batch_bit (key_SeqNum k) = true) B ->
  Forall (fun k => batch_bit (key_SeqNum k) = false /\ snapshot <= key_SeqNum k) H ->
  Forall (fun k => batch_bit (key_SeqNum k) = false /\ key_SeqNum k < snapshot) V ->
  filter (fun k => key_VisibleAt k snapshot = true) (B ++ H ++ V) = B ++ V.
Proof.
  intros HB HH HV. unfold key_VisibleAt. rewrite !filter_app. f_equal; [|rewrite <- (app_nil_l V) at 2; f_equal].
  - induction HB as [|k B Hb _ IH]; [done|]. rewrite filter_cons, decide_True; [by rewrite IH|].
    by rewrite Hb, orb_true_r.
  - induction HH as [|k H [Hb Hk] _ IH]; [done|]. rewrite filter_cons, decide_False; [done|].
    rewrite Hb, orb_false_r. lia.
  - induction HV as [|k V [Hb Hk] _ IH]; [done|]. rewrite filter_cons, decide_True; [by rewrite IH|].
    rewrite Hb, orb_false_r. lia.
Qed.

(** The visibility tests on a span whose keys are sorted by trailer.  [Visible],
    which returns subslices of the keys where it can, keeps exactly the keys visible at
    the snapshot; [VisibleAt], which looks at the first and the last key only, tells
    whether there is one; [CoversAt], which stops at the first visible key, whether
    there is one newer than a sequence number. *)
Theorem span_visibility (s : Span) (snapshot seqNum : Z) :
  sp_KeysOrder s = ByTrailerDesc -> trailers_ok (sp_Keys s) ->
  let visible := filter (fun k => key_VisibleAt k snapshot = true) (sp_Keys s) in
  span_Visible s snapshot = Ret (mkSpan (sp_Start s) (sp_End s) visible ByTrailerDesc) /\
  span_VisibleAt s snapshot = Ret (negb (bool_decide (visible = []))) /\
  CoversAt s snapshot seqNum = Ret (bool_decide (Exists (fun k => seqNum < key_SeqNum k) visible)).
Proof.
  intros Ho Hk. unfold span_Visible, span_VisibleAt, CoversAt, trailer_order.
  rewrite !decide_True by done.
  destruct (split_keys snapshot (sp_Keys s) Hk) as (B & H & V & E & HB & HH & HV).
  rewrite E in *. rewrite filter_split, scan_split by done. split; [|split].
  - rewrite !length_app.
    destruct (Z.eqb_spec (Z.of_nat (length B + (length H + length V))) 0) as [E0|E0].
    { destruct B, H, V; simpl in E0; try lia. done. }
    destruct H as [|h H]; [done|]. cbn [last_index].
    destruct (Z.eqb_spec (Z.of_nat (length B) + Z.of_nat (length (h :: H)) - 1) (-1));
      [cbn [length] in *; lia|].
    replace (Z.to_nat (Z.of_nat (length B) + Z.of_nat (length (h :: H)) - 1 + 1))
      with (length (B ++ h :: H)) by (rewrite length_app; lia).
    rewrite (app_assoc B), drop_app_length. destruct B as [|b B]; [done|]. cbn [last_index].
    destruct (Z.eqb_spec (0 + Z.of_nat (length (b :: B)) - 1) (-1)); [cbn [length] in *; lia|].
    replace (Z.to_nat (0 + Z.of_nat (length (b :: B)) - 1 + 1)) with (length (b :: B)) by lia.
    rewrite <- (app_assoc (b :: B)), take_app_length.
    destruct (Z.eqb_spec (Z.of_nat (length (b :: B)) + Z.of_nat (length (h :: H)) - 1)
      (Z.of_nat (length (b :: B) + (length (h :: H) + length V)) - 1)); [|done].
    destruct V; [by rewrite app_nil_r|cbn [length] in *; lia].
  - destruct B as [|b B]; cbn [app].
    2: { apply Forall_cons in HB as [-> _]. done. }
    destruct (decide (H ++ V = [])) as [E0|E0]; [apply app_eq_nil in E0 as [-> ->]; done|].
    destruct (H ++ V) as [|k l] eqn:Ekl; [done|].
    assert (batch_bit (key_SeqNum k) = false) as ->.
    { destruct H as [|h H]; [destruct V as [|v V]; [done|]|]; injection Ekl as <- _;
        [apply Forall_cons in HV as [[? _] _]|apply Forall_cons in HH as [[? _] _]]; done. }
    rewrite last_cons, <- Ekl. f_equal. destruct V as [|v V].
    + rewrite app_nil_r in *. rewrite bool_decide_eq_true_2 by done. apply Z.ltb_ge.
      rewrite Forall_forall in HH. apply HH. apply last_in. by rewrite Ekl.
    + rewrite bool_decide_eq_false_2 by done. apply Z.ltb_lt.
      destruct (exists_last (l := v :: V)) as (V' & x & EV); [done|]. rewrite EV in *.
      rewrite app_assoc, List.last_last. apply Forall_app in HV as [_ HV].
      by apply Forall_cons in HV as [[_ ?] _].
  - rewrite covers_split by done. rewrite <- (filter_split snapshot B H V) by done.
    f_equal. apply sorted_exists. apply Hk.
Qed.

(** ** Witnesses *)
Definition ex_del (a b : string) (seqNum : Z) : Span :=
  mkSpan (bytes_of_string a) (bytes_of_string b)
    [mkKey (MakeTrailer seqNum InternalKeyKindRangeDelete) [] []] ByTrailerDesc.

(** The example of the comment of [Add], truncated at d. *)
Definition ex_ops : list frag_op :=
  [FAdd (ex_del "a" "e" 1); FAdd (ex_del "c" "g" 2); FAdd (ex_del "c" "i" 3);
   FTruncate (bytes_of_string "d"); FAdd (ex_del "j" "n" 4); FAdd (ex_del "j" "l" 5)].

Lemma ex_ops_ok : in_order (C := DefaultComparer) [] ex_ops /\ Forall op_ok ex_ops.
Proof.
  split; [repeat (split; [vm_compute; discriminate|]); exact I|].
  repeat (apply Forall_cons; split; [first [exact I|reflexivity]|]). apply Forall_nil_2.
Qed.

Lemma fragmenter_spec_witness :
  exists f f', frag_run (C := DefaultComparer) (S := insertion_sort) new_fragmenter ex_ops = Ret f /\
    Finish (C := DefaultComparer) (S := insertion_sort) f = Ret f' /\
    chain (C := DefaultComparer) [] (f_emitted f').
Proof.
  destruct (fragmenter_spec (C := DefaultComparer) (L := default_laws) (S := insertion_sort)
    (SL := insertion_sort_laws) ex_ops) as (f & f' & H1 & H2 & H3 & _).
  - apply ex_ops_ok.
  - apply ex_ops_ok.
  - exists f, f'. split; [exact H1|]. split; [exact H2|exact H3].
Defined.

Lemma fragmenter_covers_witness :
  exists f, frag_run (C := DefaultComparer) (S := insertion_sort) new_fragmenter (take 3 ex_ops) = Ret f /\
    Fragmenter_Covers (C := DefaultComparer) f
      (MakeInternalKey (bytes_of_string "d") 1 InternalKeyKindSet) 3 = Ret CoversVisibly.
Proof.
  destruct (fragmenter_covers (C := DefaultComparer) (L := default_laws) (S := insertion_sort)
    (SL := insertion_sort_laws) (take 3 ex_ops)
    (MakeInternalKey (bytes_of_string "d") 1 InternalKeyKindSet) 3) as (f & H1 & H2).
  - repeat (split; [vm_compute; discriminate|]). exact I.
  - apply Forall_take. apply ex_ops_ok.
  - vm_compute. discriminate.
  - exists f. split; [exact H1|]. rewrite H2. vm_compute. reflexivity.
Defined.

Lemma span_visibility_witness :
  span_Visible (mkSpan (bytes_of_string "a") (bytes_of_string "b")
    [mkKey (MakeTrailer 9 InternalKeyKindRangeDelete) [] [];
     mkKey (MakeTrailer 4 InternalKeyKindRangeDelete) [] []] ByTrailerDesc) 7 =
  Ret (mkSpan (bytes_of_string "a") (bytes_of_string "b")
    [mkKey (MakeTrailer 4 InternalKeyKindRangeDelete) [] []] ByTrailerDesc).
Proof.
  refine (proj1 (span_visibility (mkSpan (bytes_of_string "a") (bytes_of_string "b")
    [mkKey (MakeTrailer 9 InternalKeyKindRangeDelete) [] [];
     mkKey (MakeTrailer 4 InternalKeyKindRangeDelete) [] []] ByTrailerDesc) 7 0 eq_refl _)).
  split.
  - repeat (apply Forall_cons; split; [vm_compute; split; [discriminate|reflexivity]|]).
    apply Forall_nil_2.
  - repeat constructor. vm_compute. discriminate.
Defined.
