(* ===== verification/RangeKey.v ===== *)
(** Range keys and range deletions (src/internal/rangekey and src/internal/rangedel):
    how spans are encoded into the entries of a table, decoded, and coalesced into what
    a user sees. *)
From S2P Require Import Prelude.
From S2P Require Import Comparer.
From S2P Require Import InternalKey.
From S2P Require Import GoStd.
From S2P Require Import Keyspan.

(** ** Writing into a buffer *)

(** [binary.PutUvarint(dst[n:], x)] and [copy(dst[n:], src)], with the position after
    what is written; [PutUvarint] panics where the buffer is too small. *)
Definition putUvarint_at (dst : bytes) (n : nat) (x : Z) : go (bytes * nat) :=
  let e := PutUvarint x in
  if length dst <? n + length e then Panic "index out of range"
  else Ret (copy_at dst n e, n + length e).
Definition copy_to (dst : bytes) (n : nat) (src : bytes) : bytes * nat :=
  (copy_at dst n src, n + Nat.min (length dst - n) (length src)).

(** ** Encoding of values *)

Record SuffixValue := mkSV { sv_Suffix : bytes; sv_Value : bytes }.

(** The loop shifts a uint32, five digits are enough. *)
Fixpoint lenVarint_loop (fuel : nat) (x : Z) (n : nat) : nat :=
  match fuel with
  | O => n
  | S fuel => if (128 <=? x)%Z then lenVarint_loop fuel (Z.shiftr x 7) (n + 1) else n
  end.
Definition lenVarint (v : nat) : nat := lenVarint_loop 5 (u32 (Z.of_nat v)) 1.

Definition encodedSetSuffixValuesLen (suffixValues : list SuffixValue) : nat :=
  fold_left (fun n sv => n + lenVarint (length (sv_Suffix sv)) + length (sv_Suffix sv) +
    lenVarint (length (sv_Value sv)) + length (sv_Value sv)) suffixValues 0.

Fixpoint encodeSetSuffixValues (dst : bytes) (n : nat) (suffixValues : list SuffixValue) :
    go (bytes * nat) :=
  match suffixValues with
  | [] => Ret (dst, n)
  | sv :: svs =>
      '(dst, n) ← putUvarint_at dst n (Z.of_nat (length (sv_Suffix sv)));
      let '(dst, n) := copy_to dst n (sv_Suffix sv) in
      '(dst, n) ← putUvarint_at dst n (Z.of_nat (length (sv_Value sv)));
      let '(dst, n) := copy_to dst n (sv_Value sv) in
      encodeSetSuffixValues dst n svs
  end.

Definition EncodedSetValueLen (endKey : bytes) (suffixValues : list SuffixValue) : nat :=
  lenVarint (length endKey) + length endKey + encodedSetSuffixValuesLen suffixValues.

Definition EncodeSetValue (dst endKey : bytes) (suffixValues : list SuffixValue) : go (bytes * nat) :=
  '(dst, n) ← putUvarint_at dst 0 (Z.of_nat (length endKey));
  let '(dst, n) := copy_to dst n endKey in
  encodeSetSuffixValues dst n suffixValues.

Definition encodedUnsetSuffixesLen (suffixes : list bytes) : nat :=
  fold_left (fun n s => n + lenVarint (length s) + length s) suffixes 0.

Fixpoint encodeUnsetSuffixes (dst : bytes) (n : nat) (suffixes : list bytes) : go (bytes * nat) :=
  match suffixes with
  | [] => Ret (dst, n)
  | s :: suffixes =>
      '(dst, n) ← putUvarint_at dst n (Z.of_nat (length s));
      let '(dst, n) := copy_to dst n s in
      encodeUnsetSuffixes dst n suffixes
  end.

Definition EncodedUnsetValueLen (endKey : bytes) (suffixes : list bytes) : nat :=
  lenVarint (length endKey) + length endKey + encodedUnsetSuffixesLen suffixes.

Definition EncodeUnsetValue (dst endKey : bytes) (suffixes : list bytes) : go (bytes * nat) :=
  '(dst, n) ← putUvarint_at dst 0 (Z.of_nat (length endKey));
  let '(dst, n) := copy_to dst n endKey in
  encodeUnsetSuffixes dst n suffixes.

(** ** Decoding of values *)

(** [data[n : n+int(l)], data[n+int(l):]]: both slices are in range exactly when the
    second one is. *)
Definition slice_at (data : bytes) (n l : Z) : go (bytes * bytes) :=
  let m := (n + i64 l)%Z in
  if ((n <=? m) && (m <=? Z.of_nat (length data)))%Z
  then Ret (slice data (Z.to_nat n) (Z.to_nat m), drop (Z.to_nat m) data)
  else Panic "slice bounds out of range".

Definition decodeVarstring (data : bytes) : go (option (bytes * bytes)) :=
  let '(l, n) := Uvarint data in
  if (n <=? 0)%Z then Ret None
  else r ← slice_at data n l; Ret (Some r).

Definition decodeSuffix := decodeVarstring.

Definition decodeSuffixValue (data : bytes) : go (option (SuffixValue * bytes)) :=
  s ← decodeVarstring data;
  match s with
  | None => Ret None
  | Some (suffix, data) =>
      v ← decodeVarstring data;
      match v with
      | None => Ret None
      | Some (value, data) => Ret (Some (mkSV suffix value, data))
      end
  end.

(** The sum of the size and the length wraps around at 64 bits. *)
Definition DecodeEndKey (kind : Z) (data : bytes) : go (option (bytes * bytes)) :=
  if (kind =? InternalKeyKindRangeKeyDelete)%Z then Ret (Some (data, []))
  else if ((kind =? InternalKeyKindRangeKeySet) || (kind =? InternalKeyKindRangeKeyUnset))%Z then
    let '(v, n) := Uvarint data in
    if ((n <=? 0) || (Z.of_nat (length data) <=? u64 (n + v)))%Z then Ret None
    else r ← slice_at data n v; Ret (Some r)
  else Panic "key kind is not a range key kind".

(** The loops of [Decode]; every round takes at least one byte. *)
Fixpoint decodeSets (fuel : nat) (trailer : Z) (v : bytes) (keys : list Key) : go (result (list Key)) :=
  match v, fuel with
  | [], _ => Ret (Ok keys)
  | _, O => Panic "unreachable"
  | _, S fuel =>
      r ← decodeSuffixValue v;
      match r with
      | None => Ret (Err (New "unable to decode range key suffix-value tuple"))
      | Some (sv, v) =>
          decodeSets fuel trailer v (keys ++ [mkKey trailer (sv_Suffix sv) (sv_Value sv)])
      end
  end.
Fixpoint decodeUnsets (fuel : nat) (trailer : Z) (v : bytes) (keys : list Key) : go (result (list Key)) :=
  match v, fuel with
  | [], _ => Ret (Ok keys)
  | _, O => Panic "unreachable"
  | _, S fuel =>
      r ← decodeSuffix v;
      match r with
      | None => Ret (Err (New "unable to decode range key unset suffix"))
      | Some (suffix, v) => decodeUnsets fuel trailer v (keys ++ [mkKey trailer suffix []])
      end
  end.

Definition Decode (ik : InternalKey) (v : bytes) (keysDst : list Key) : go (result Span) :=
  r ← DecodeEndKey (Kind ik) v;
  match r with
  | None => Ret (Err (New "unable to decode range key end"))
  | Some (endKey, v) =>
      let span keys := mkSpan (UserKey ik) endKey keys ByTrailerDesc in
      if (Kind ik =? InternalKeyKindRangeKeySet)%Z then
        ks ← decodeSets (length v) (Trailer ik) v keysDst;
        Ret (ks ← ks; Ok (span ks))
      else if (Kind ik =? InternalKeyKindRangeKeyUnset)%Z then
        ks ← decodeUnsets (length v) (Trailer ik) v keysDst;
        Ret (ks ← ks; Ok (span ks))
      else if (Kind ik =? InternalKeyKindRangeKeyDelete)%Z then
        match v with
        | [] => Ret (Ok (span (keysDst ++ [mkKey (Trailer ik) [] []])))
        | _ => Ret (Err (New "RANGEKEYDELs must not contain additional data"))
        end
      else Ret (Err (New "not a range key"))
  end.

Definition IsRangeKey (kind : Z) : bool :=
  ((kind =? InternalKeyKindRangeKeyDelete) || (kind =? InternalKeyKindRangeKeyUnset) ||
   (kind =? InternalKeyKindRangeKeySet))%Z.

(** ** Encoding of spans *)

(** [Emit] may fail; the calls it got are returned with the error, if there is one. *)
Record Encoder := mkEncoder {
  e_buf : bytes;             (* as long as its capacity *)
  e_unsets : list bytes;
  e_sets : list SuffixValue;
}.
Definition emitted := (list (InternalKey * bytes))%type.

Section encoder.
Context (emit : InternalKey -> bytes -> option error).

Definition Emit (out : emitted) (ik : InternalKey) (v : bytes) : emitted * option error :=
  (out ++ [(ik, v)], emit ik v).

(** [e.buf[:l]], in a new buffer if it is too small. *)
Definition buffer (buf : bytes) (l : nat) : bytes :=
  if length buf <? l then replicate l Byte.x00 else buf.

(** The three parts of [flush], each for one kind. *)
Definition flush_sets (e : Encoder) (s : Span) (seqNum : Z) (out : emitted) :
    go (Encoder * emitted * option error) :=
  match e_sets e with
  | [] => Ret (e, out, None)
  | sets =>
      let ik := MakeInternalKey (sp_Start s) seqNum InternalKeyKindRangeKeySet in
      let l := EncodedSetValueLen (sp_End s) sets in
      let buf := buffer (e_buf e) l in
      '(dst, _) ← EncodeSetValue (take l buf) (sp_End s) sets;
      let '(out, err) := Emit out ik dst in
      Ret (mkEncoder (dst ++ drop l buf) (e_unsets e) (e_sets e), out, err)
  end.
Definition flush_unsets (e : Encoder) (s : Span) (seqNum : Z) (out : emitted) :
    go (Encoder * emitted * option error) :=
  match e_unsets e with
  | [] => Ret (e, out, None)
  | unsets =>
      let ik := MakeInternalKey (sp_Start s) seqNum InternalKeyKindRangeKeyUnset in
      let l := EncodedUnsetValueLen (sp_End s) unsets in
      let buf := buffer (e_buf e) l in
      '(dst, _) ← EncodeUnsetValue (take l buf) (sp_End s) unsets;
      let '(out, err) := Emit out ik dst in
      Ret (mkEncoder (dst ++ drop l buf) (e_unsets e) (e_sets e), out, err)
  end.
Definition Encoder_flush (e : Encoder) (s : Span) (seqNum : Z) (del : bool) (out : emitted) :
    go (Encoder * emitted * option error) :=
  '(e, out, err) ← flush_sets e s seqNum out;
  match err with
  | Some _ => Ret (e, out, err)
  | None =>
      '(e, out, err) ← flush_unsets e s seqNum out;
      match err with
      | Some _ => Ret (e, out, err)
      | None =>
          if del then
            let '(out, err) :=
              Emit out (MakeInternalKey (sp_Start s) seqNum InternalKeyKindRangeKeyDelete) (sp_End s) in
            Ret (e, out, err)
          else Ret (e, out, None)
      end
  end.

(** One key of the span joins the keys with its sequence number. *)
Definition encode_key (e : Encoder) (del : bool) (k : Key) : result (Encoder * bool) :=
  if (key_Kind k =? InternalKeyKindRangeKeySet)%Z then
    Ok (mkEncoder (e_buf e) (e_unsets e) (e_sets e ++ [mkSV (key_Suffix k) (key_Value k)]), del)
  else if (key_Kind k =? InternalKeyKindRangeKeyUnset)%Z then
    Ok (mkEncoder (e_buf e) (e_unsets e ++ [key_Suffix k]) (e_sets e), del)
  else if (key_Kind k =? InternalKeyKindRangeKeyDelete)%Z then Ok (e, true)
  else Err (New "key kind is not a range key").

Fixpoint encode_loop (e : Encoder) (s : Span) (keys : list Key) (first : bool) (seqNum : Z)
    (del : bool) (out : emitted) : go (Encoder * emitted * option error) :=
  match keys with
  | [] => Encoder_flush e s seqNum del out
  | k :: keys =>
      if first || negb (key_SeqNum k =? seqNum)%Z then
        '(e, out, err) ← (if first then Ret (e, out, None) else Encoder_flush e s seqNum del out);
        match err with
        | Some _ => Ret (e, out, err)
        | None =>
            match encode_key (mkEncoder (e_buf e) [] []) false k with
            | Err x => Ret (mkEncoder (e_buf e) [] [], out, Some x)
            | Ok (e, del) => encode_loop e s keys false (key_SeqNum k) del out
            end
        end
      else
        match encode_key e del k with
        | Err x => Ret (e, out, Some x)
        | Ok (e, del) => encode_loop e s keys false seqNum del out
        end
  end.

Definition Encoder_Encode (e : Encoder) (s : Span) : go (Encoder * emitted * option error) :=
  if span_Empty s then Ret (e, [], None) else encode_loop e s (sp_Keys s) true 0 false [].

(** Range deletions have one entry for every key. *)
Fixpoint rangedel_Encode (s : Span) (keys : list Key) (out : emitted) : emitted * option error :=
  match keys with
  | [] => (out, None)
  | k :: keys =>
      if negb (key_Kind k =? InternalKeyKindRangeDelete)%Z
      then (out, Some (New "rangedel.Encode cannot encode key"))
      else
        match Emit out (mkInternalKey (sp_Start s) (key_Trailer k)) (sp_End s) with
        | (out, Some err) => (out, Some err)
        | (out, None) => rangedel_Encode s keys out
        end
  end.
End encoder.

Definition rangedel_Decode (ik : InternalKey) (v : bytes) (keysDst : list Key) : Span :=
  mkSpan (UserKey ik) v (keysDst ++ [mkKey (Trailer ik) [] []]) ByTrailerDesc.

(** ** Coalescing *)
Section coalesce.
Context {C : Comparer} {S : Sort}.

Definition less_suffix (a b : Key) : bool := bool_decide (Compare (key_Suffix a) (key_Suffix b) = Lt).

(** The visible keys before the first visible RANGEKEYDEL, and that key. *)
Fixpoint coalesce_prefix (snapshot : Z) (keys acc : list Key) : list Key * option Key :=
  match keys with
  | [] => (acc, None)
  | k :: keys =>
      if negb (key_VisibleAt k snapshot) then coalesce_prefix snapshot keys acc
      else if (key_Kind k =? InternalKeyKindRangeKeyDelete)%Z then (acc, Some k)
      else coalesce_prefix snapshot keys (acc ++ [k])
  end.

(** The loop over the sorted keys: [rest] is what is left of [sorted] from [i], [keys]
    the keys kept since there was shadowing. *)
Fixpoint coalesce_loop (sorted rest : list Key) (i : nat) (prevSuffix : bytes) (shadowing : bool)
    (keys : list Key) : list Key * bool :=
  match rest with
  | [] => (keys, shadowing)
  | k :: rest =>
      if (0 <? i) && Equal prevSuffix (key_Suffix k) then
        let keys := if shadowing then keys else take i sorted in
        coalesce_loop sorted rest (i + 1) prevSuffix true keys
      else
        let keys := if shadowing then keys ++ [k] else keys in
        coalesce_loop sorted rest (i + 1) (key_Suffix k) shadowing keys
  end.

Definition coalesce (snapshot : Z) (keys : list Key) : list Key :=
  let '(acc, del) := coalesce_prefix snapshot keys [] in
  let sorted := sort_Stable less_suffix acc in
  let '(keys, shadowing) := coalesce_loop sorted sorted 0 [] false [] in
  let keys := if shadowing then keys else sorted in
  match del with Some k => keys ++ [k] | None => keys end.

(** [math.MaxUint64] as the snapshot. *)
Definition Coalesce (keys : list Key) : list Key :=
  SortKeysByTrailer (coalesce (2 ^ 64 - 1) keys).

(** The transformation of spans for user iteration. *)
Fixpoint transform_loop (keys dst : list Key) : result (list Key) :=
  match keys with
  | [] => Ok dst
  | k :: keys =>
      if (key_Kind k =? InternalKeyKindRangeKeySet)%Z then transform_loop keys (dst ++ [k])
      else if ((key_Kind k =? InternalKeyKindRangeKeyUnset) ||
               (key_Kind k =? InternalKeyKindRangeKeyDelete))%Z then transform_loop keys dst
      else Err (New "unrecognized range key kind")
  end.

Definition Transform (internalKeys : bool) (snapshot : Z) (s : Span) : go (result Span) :=
  let keys := coalesce snapshot (sp_Keys s) in
  if internalKeys then
    if decide (sp_KeysOrder s = ByTrailerDesc)
    then Ret (Ok (mkSpan (sp_Start s) (sp_End s) (SortKeysByTrailer keys) ByTrailerDesc))
    else Panic "unexpected key ordering"
  else Ret (dst ← transform_loop keys []; Ok (mkSpan (sp_Start s) (sp_End s) dst BySuffixAsc)).

Fixpoint same_keys (a b : list Key) : bool :=
  match a, b with
  | k :: a, k' :: b =>
      Equal (key_Suffix k) (key_Suffix k') && bool_decide (key_Value k = key_Value k') && same_keys a b
  | _, _ => true
  end.
Definition ShouldDefragment (internalKeys : bool) (a b : Span) : go bool :=
  if internalKeys then Panic "unexpected call to ShouldDefragment with internalKeys = true"
  else if negb (length (sp_Keys a) =? length (sp_Keys b)) || (length (sp_Keys a) =? 0) then Ret false
  else if decide (sp_KeysOrder a = BySuffixAsc /\ sp_KeysOrder b = BySuffixAsc)
  then Ret (same_keys (sp_Keys a) (sp_Keys b))
  else Panic "keys unexpectedly not in ascending suffix order".
End coalesce.
