(* ===== verification/RangeKeySpec.v ===== *)
(** Round trips and coalescing of the range keys of RangeKey.v. *)
From S2P Require Import Prelude.
From S2P Require Import Comparer.
From S2P Require Import InternalKey.
From S2P Require Import GoStd.
From S2P Require Import Keyspan.
From S2P Require Import KeyspanSpec.
From S2P Require Import RangeKey.
From stdpp Require Import sorting.

(** ** Lengths of varints *)
Lemma lenVarint_loop_spec f : forall g x n,
  (0 <= x < 128 ^ Z.of_nat f)%Z -> f <= g + 1 ->
  lenVarint_loop f x n = n + length (put_uvarint_aux g x) - 1.
Proof.
  induction f as [|f IH]; intros g x n Hx Hg.
  - change (128 ^ Z.of_nat 0)%Z with 1%Z in Hx. assert (x = 0)%Z as -> by lia.
    destruct g; simpl; lia.
  - rewrite Nat2Z.inj_succ, Z.pow_succ_r in Hx by lia. cbn [lenVarint_loop].
    destruct (Z.leb_spec 128 x).
    + destruct f as [|f]; [change (128 ^ Z.of_nat 0)%Z with 1%Z in Hx; lia|].
      destruct g as [|g]; [lia|]. cbn [put_uvarint_aux].
      destruct (Z.ltb_spec x 128); [lia|].
      rewrite (IH g) by (rewrite ?Z.shiftr_div_pow2 by lia; change (2 ^ 7)%Z with 128%Z;
        first [lia | split; [apply Z.div_pos; lia|apply Z.div_lt_upper_bound; lia]]).
      cbn [length].
      destruct (put_uvarint_aux g (Z.shiftr x 7)) eqn:E; [|simpl; lia].
      exfalso. destruct g; simpl in E; [done|]. destruct (_ <? 128)%Z; done.
    + destruct g; cbn [put_uvarint_aux]; [simpl; lia|].
      destruct (Z.ltb_spec x 128); [simpl; lia|lia].
Qed.

Lemma lenVarint_spec v :
  (Z.of_nat v < 2 ^ 32)%Z -> lenVarint v = length (PutUvarint (Z.of_nat v)).
Proof.
  intros Hv. unfold lenVarint. rewrite u32_small by lia.
  rewrite (lenVarint_loop_spec 5 9); [unfold PutUvarint|change (128 ^ Z.of_nat 5)%Z with (2 ^ 35)%Z; lia|lia].
  pose proof (length_PutUvarint (Z.of_nat v)) as Hl. unfold PutUvarint in Hl. lia.
Qed.

(** ** Writing *)
Definition varstr (s : bytes) : bytes := PutUvarint (Z.of_nat (length s)) ++ s.

Definition enc_sv (sv : SuffixValue) : bytes := varstr (sv_Suffix sv) ++ varstr (sv_Value sv).

Lemma putUvarint_at_ok pre rest x :
  length (PutUvarint x) <= length rest ->
  putUvarint_at (pre ++ rest) (length pre) x =
    Ret ((pre ++ PutUvarint x) ++ drop (length (PutUvarint x)) rest, length (pre ++ PutUvarint x)).
Proof.
  intros Hl. unfold putUvarint_at. rewrite length_app.
  rewrite (proj2 (Nat.ltb_ge _ _)) by lia. f_equal. f_equal; [|by rewrite length_app].
  rewrite <- (take_drop (length (PutUvarint x)) rest) at 1.
  rewrite copy_at_app, <- app_assoc; [done|done|]. rewrite length_take. lia.
Qed.

Lemma copy_to_ok pre rest s :
  length s <= length rest ->
  copy_to (pre ++ rest) (length pre) s = ((pre ++ s) ++ drop (length s) rest, length (pre ++ s)).
Proof.
  intros Hl. unfold copy_to. rewrite !length_app. f_equal; [|lia].
  rewrite <- (take_drop (length s) rest) at 1.
  rewrite copy_at_app, <- app_assoc; [done|done|]. rewrite length_take. lia.
Qed.

(** A varstring is a length and the bytes. *)
Lemma put_varstr {B} pre rest s (k : bytes -> nat -> go B) :
  length (varstr s) <= length rest ->
  ('(dst, n) ← putUvarint_at (pre ++ rest) (length pre) (Z.of_nat (length s));
   let '(dst, n) := copy_to dst n s in k dst n) =
  k ((pre ++ varstr s) ++ drop (length (varstr s)) rest) (length (pre ++ varstr s)).
Proof.
  unfold varstr. rewrite length_app. intros Hl.
  rewrite putUvarint_at_ok by lia. cbn [mbind go_bind].
  rewrite copy_to_ok by (rewrite length_drop; lia).
  rewrite drop_drop, <- !app_assoc. done.
Qed.

Lemma encodeSetSuffixValues_ok svs : forall pre rest,
  length (concat (enc_sv <$> svs)) <= length rest ->
  encodeSetSuffixValues (pre ++ rest) (length pre) svs =
    Ret ((pre ++ concat (enc_sv <$> svs)) ++ drop (length (concat (enc_sv <$> svs))) rest,
         length (pre ++ concat (enc_sv <$> svs))).
Proof.
  induction svs as [|sv svs IH]; intros pre rest Hl.
  - cbn [encodeSetSuffixValues fmap list_fmap concat]. by rewrite app_nil_r.
  - cbn [encodeSetSuffixValues]. rewrite fmap_cons in *. cbn [concat] in *. 
    change (enc_sv sv) with (varstr (sv_Suffix sv) ++ varstr (sv_Value sv)) in *.
    rewrite !length_app in Hl.
    rewrite put_varstr by lia. rewrite put_varstr by (rewrite length_drop; lia).
    rewrite IH by (rewrite !length_drop; lia). 
    by rewrite !drop_drop, <- !app_assoc, !length_app, <- ?Nat.add_assoc.
Qed.

Lemma encodeUnsetSuffixes_ok sfx : forall pre rest,
  length (concat (varstr <$> sfx)) <= length rest ->
  encodeUnsetSuffixes (pre ++ rest) (length pre) sfx =
    Ret ((pre ++ concat (varstr <$> sfx)) ++ drop (length (concat (varstr <$> sfx))) rest,
         length (pre ++ concat (varstr <$> sfx))).
Proof.
  induction sfx as [|s sfx IH]; intros pre rest Hl.
  - cbn [encodeUnsetSuffixes fmap list_fmap concat]. by rewrite app_nil_r.
  - cbn [encodeUnsetSuffixes]. rewrite fmap_cons in *. cbn [concat] in *.
    rewrite !length_app in Hl.
    rewrite put_varstr by lia. rewrite IH by (rewrite !length_drop; lia).
    by rewrite !drop_drop, <- !app_assoc, !length_app, <- ?Nat.add_assoc.
Qed.

Lemma EncodeSetValue_ok dst endKey svs :
  let enc := varstr endKey ++ concat (enc_sv <$> svs) in
  length dst = length enc -> EncodeSetValue dst endKey svs = Ret (enc, length enc).
Proof.
  intros enc Hl. unfold enc in *. rewrite length_app in Hl. unfold EncodeSetValue.
  rewrite (put_varstr [] dst endKey) by lia. cbn [app].
  rewrite encodeSetSuffixValues_ok by (rewrite length_drop; lia).
  rewrite drop_drop, drop_ge, app_nil_r by lia. done.
Qed.

Lemma EncodeUnsetValue_ok dst endKey sfx :
  let enc := varstr endKey ++ concat (varstr <$> sfx) in
  length dst = length enc -> EncodeUnsetValue dst endKey sfx = Ret (enc, length enc).
Proof.
  intros enc Hl. unfold enc in *. rewrite length_app in Hl. unfold EncodeUnsetValue.
  rewrite (put_varstr [] dst endKey) by lia. cbn [app].
  rewrite encodeUnsetSuffixes_ok by (rewrite length_drop; lia).
  rewrite drop_drop, drop_ge, app_nil_r by lia. done.
Qed.

(** The lengths that are computed first, for strings shorter than 4 GiB. *)
Definition short (s : bytes) : Prop := (Z.of_nat (length s) < 2 ^ 32)%Z.

Lemma lenVarint_varstr s : short s -> lenVarint (length s) + length s = length (varstr s).
Proof. intros Hs. unfold varstr. rewrite length_app, lenVarint_spec; done. Qed.

Lemma EncodedSetValueLen_ok endKey svs :
  short endKey -> Forall (fun sv => short (sv_Suffix sv) /\ short (sv_Value sv)) svs ->
  EncodedSetValueLen endKey svs = length (varstr endKey ++ concat (enc_sv <$> svs)).
Proof.
  intros He Hs. unfold EncodedSetValueLen, encodedSetSuffixValuesLen.
  rewrite length_app, lenVarint_varstr by done. f_equal.
  rewrite <- (Nat.add_0_l (length (concat _))). generalize 0.
  induction Hs as [|sv svs [H1 H2] _ IH]; intros n; [simpl; lia|]. cbn [fold_left].
  rewrite IH, fmap_cons. cbn [concat]. unfold enc_sv at 2.
  rewrite !length_app, <- (lenVarint_varstr (sv_Suffix sv)), <- (lenVarint_varstr (sv_Value sv)) by done.
  lia.
Qed.

Lemma EncodedUnsetValueLen_ok endKey sfx :
  short endKey -> Forall short sfx ->
  EncodedUnsetValueLen endKey sfx = length (varstr endKey ++ concat (varstr <$> sfx)).
Proof.
  intros He Hs. unfold EncodedUnsetValueLen, encodedUnsetSuffixesLen.
  rewrite length_app, lenVarint_varstr by done. f_equal.
  rewrite <- (Nat.add_0_l (length (concat _))). generalize 0.
  induction Hs as [|s sfx H1 _ IH]; intros n; [simpl; lia|]. cbn [fold_left].
  rewrite IH, fmap_cons. cbn [concat].
  rewrite !length_app, <- (lenVarint_varstr s) by done. lia.
Qed.

(** ** Reading *)
Lemma length_varstr s : length s < length (varstr s).
Proof. unfold varstr. rewrite length_app. pose proof (length_PutUvarint (Z.of_nat (length s))). lia. Qed.

Lemma slice_at_varstr s rest :
  short s ->
  slice_at (varstr s ++ rest) (Z.of_nat (length (PutUvarint (Z.of_nat (length s)))))
    (Z.of_nat (length s)) = Ret (s, rest).
Proof.
  intros Hs. unfold slice_at, short in *. rewrite i64_small by lia.
  set (p := PutUvarint (Z.of_nat (length s))).
  assert (length (varstr s ++ rest) = length p + length s + length rest) as Hl
    by (unfold varstr; rewrite !length_app; done).
  rewrite Hl.
  rewrite (proj2 (Z.leb_le _ _)) by lia. rewrite (proj2 (Z.leb_le _ _)) by lia. cbn [andb].
  rewrite <- Nat2Z.inj_add, !Nat2Z.id. unfold varstr. fold p.
  f_equal. f_equal.
  - rewrite <- app_assoc. apply slice_app_mid; [done|lia].
  - apply drop_app_length'. rewrite length_app. lia.
Qed.

Lemma decodeVarstring_varstr s rest :
  short s -> decodeVarstring (varstr s ++ rest) = Ret (Some (s, rest)).
Proof.
  intros Hs. unfold decodeVarstring.
  assert (Uvarint (varstr s ++ rest) = (Z.of_nat (length s), Z.of_nat (length (PutUvarint (Z.of_nat (length s)))))) as ->.
  { unfold varstr. rewrite <- app_assoc. apply Uvarint_Put. unfold short in Hs. lia. }
  pose proof (length_PutUvarint (Z.of_nat (length s))).
  destruct (Z.leb_spec (Z.of_nat (length (PutUvarint (Z.of_nat (length s))))) 0); [lia|].
  by rewrite slice_at_varstr.
Qed.

Lemma DecodeEndKey_varstr kind endKey rest :
  kind = InternalKeyKindRangeKeySet \/ kind = InternalKeyKindRangeKeyUnset ->
  short endKey -> rest <> [] ->
  DecodeEndKey kind (varstr endKey ++ rest) = Ret (Some (endKey, rest)).
Proof.
  intros Hk Hs Hr. unfold DecodeEndKey.
  replace (kind =? InternalKeyKindRangeKeyDelete)%Z with false by (by destruct Hk as [->| ->]).
  replace ((kind =? InternalKeyKindRangeKeySet) || (kind =? InternalKeyKindRangeKeyUnset))%Z
    with true by (by destruct Hk as [->| ->]).
  assert (Uvarint (varstr endKey ++ rest) = (Z.of_nat (length endKey),
    Z.of_nat (length (PutUvarint (Z.of_nat (length endKey)))))) as ->.
  { unfold varstr. rewrite <- app_assoc. apply Uvarint_Put. unfold short in Hs. lia. }
  pose proof (length_PutUvarint (Z.of_nat (length endKey))).
  destruct rest as [|x rest]; [done|].
  rewrite slice_at_varstr by done.
  set (n := length (PutUvarint (Z.of_nat (length endKey)))) in *.
  assert (length (varstr endKey ++ x :: rest) = n + length endKey + S (length rest)) as ->
    by (unfold varstr; rewrite !length_app; done).
  rewrite u64_small by (unfold short in Hs; lia).
  rewrite (proj2 (Z.leb_gt _ _)) by lia. by rewrite (proj2 (Z.leb_gt _ _)) by lia.
Qed.

Lemma decodeSets_ok trailer svs : forall fuel keys,
  Forall (fun sv => short (sv_Suffix sv) /\ short (sv_Value sv)) svs ->
  length (concat (enc_sv <$> svs)) <= fuel ->
  decodeSets fuel trailer (concat (enc_sv <$> svs)) keys =
    Ret (Ok (keys ++ ((fun sv => mkKey trailer (sv_Suffix sv) (sv_Value sv)) <$> svs))).
Proof.
  induction svs as [|sv svs IH]; intros fuel keys Hs Hf.
  - destruct fuel; simpl; by rewrite app_nil_r.
  - apply Forall_cons in Hs as [[H1 H2] Hs]. rewrite fmap_cons in *. cbn [concat] in *.
    pose proof (length_varstr (sv_Suffix sv)).
    unfold enc_sv at 1. unfold enc_sv at 1 in Hf. rewrite !length_app in Hf.
    destruct fuel as [|fuel]; [lia|]. cbn [decodeSets].
    destruct ((varstr (sv_Suffix sv) ++ varstr (sv_Value sv)) ++ concat (enc_sv <$> svs)) as [|x l] eqn:E.
    { apply (f_equal length) in E. rewrite !length_app in E. simpl in E. lia. }
    rewrite <- E, <- app_assoc. unfold decodeSuffixValue.
    rewrite decodeVarstring_varstr by done. cbn [mbind go_bind].
    rewrite decodeVarstring_varstr by done. cbn [mbind go_bind sv_Suffix sv_Value].
    rewrite IH by (first [done | lia]). rewrite fmap_cons, <- app_assoc. done.
Qed.

Lemma decodeUnsets_ok trailer sfx : forall fuel keys,
  Forall short sfx -> length (concat (varstr <$> sfx)) <= fuel ->
  decodeUnsets fuel trailer (concat (varstr <$> sfx)) keys =
    Ret (Ok (keys ++ ((fun s => mkKey trailer s []) <$> sfx))).
Proof.
  induction sfx as [|s sfx IH]; intros fuel keys Hs Hf.
  - destruct fuel; simpl; by rewrite app_nil_r.
  - apply Forall_cons in Hs as [H1 Hs]. rewrite fmap_cons in *. cbn [concat] in *.
    pose proof (length_varstr s). rewrite !length_app in Hf.
    destruct fuel as [|fuel]; [lia|]. cbn [decodeUnsets].
    destruct (varstr s ++ concat (varstr <$> sfx)) as [|x l] eqn:E.
    { apply (f_equal length) in E. rewrite !length_app in E. simpl in E. lia. }
    rewrite <- E. unfold decodeSuffix.
    rewrite decodeVarstring_varstr by done. cbn [mbind go_bind].
    rewrite IH by (first [done | lia]). rewrite fmap_cons, <- app_assoc. done.
Qed.

(** ** Spans *)

(** The keys of a range key span as they are written: short, with no more fields than
    their kind has. *)
Record rk_ok (k : Key) : Prop := {
  rk_trailer : (0 <= key_Trailer k < 2 ^ 64)%Z;
  rk_short : short (key_Suffix k) /\ short (key_Value k);
  rk_kind : key_Kind k = InternalKeyKindRangeKeySet \/
    key_Kind k = InternalKeyKindRangeKeyUnset /\ key_Value k = [] \/
    key_Kind k = InternalKeyKindRangeKeyDelete /\ key_Suffix k = [] /\ key_Value k = [];
}.

Definition set_key (seqNum : Z) (sv : SuffixValue) : Key :=
  mkKey (MakeTrailer seqNum InternalKeyKindRangeKeySet) (sv_Suffix sv) (sv_Value sv).
Definition unset_key (seqNum : Z) (s : bytes) : Key :=
  mkKey (MakeTrailer seqNum InternalKeyKindRangeKeyUnset) s [].
Definition del_key (seqNum : Z) : Key :=
  mkKey (MakeTrailer seqNum InternalKeyKindRangeKeyDelete) [] [].

(** The keys an encoder has collected for a sequence number. *)
Definition collected (seqNum : Z) (e : Encoder) (del : bool) : list Key :=
  (set_key seqNum <$> e_sets e) ++ (unset_key seqNum <$> e_unsets e) ++
  (if del then [del_key seqNum] else []).

(** An entry that decodes to keys of the span. *)
Definition decodes_to (s : Span) (entry : InternalKey * bytes) (ks : list Key) : Prop :=
  forall dst, Decode entry.1 entry.2 dst =
    Ret (Ok (mkSpan (sp_Start s) (sp_End s) (dst ++ ks) ByTrailerDesc)).

Lemma key_Trailer_parts k :
  (0 <= key_Trailer k < 2 ^ 64)%Z -> key_Trailer k = MakeTrailer (key_SeqNum k) (key_Kind k).
Proof.
  intros Hk. pose proof (Make_parts (mkInternalKey [] (key_Trailer k)) Hk) as H.
  by injection H.
Qed.

Lemma MakeTrailer_eq seqNum kind :
  (0 <= seqNum < 2 ^ 56)%Z -> (0 <= kind < 256)%Z -> MakeTrailer seqNum kind = (seqNum * 256 + kind)%Z.
Proof. apply trailer_eq. Qed.

Section roundtrip.
Context (s : Span) (seqNum : Z).
Hypothesis Hend : short (sp_End s).
Hypothesis Hseq : (0 <= seqNum < 2 ^ 56)%Z.

Definition sv_short (sv : SuffixValue) : Prop := short (sv_Suffix sv) /\ short (sv_Value sv).

Lemma length_buffer buf l : l <= length (buffer buf l).
Proof.
  unfold buffer. destruct (Nat.ltb_spec (length buf) l); [by rewrite length_replicate|done].
Qed.

Lemma flush_sets_ok e out : Forall sv_short (e_sets e) ->
  exists buf more, flush_sets (fun _ _ => None) e s seqNum out =
      Ret (mkEncoder buf (e_unsets e) (e_sets e), out ++ more, None) /\
    exists kss, Forall2 (decodes_to s) more kss /\ concat kss = set_key seqNum <$> e_sets e.
Proof.
  intros Hs. unfold flush_sets. destruct e as [buf unsets sets]. cbn [e_sets e_unsets e_buf] in *.
  destruct sets as [|sv sets].
  { exists buf, []. rewrite app_nil_r. split; [done|]. by exists []. }
  set (svs := sv :: sets) in *.
  rewrite EncodeSetValue_ok; [|rewrite length_take, Nat.min_l;
    [by apply EncodedSetValueLen_ok|apply length_buffer]].
  cbn [mbind go_bind]. eexists _, [_]. split; [done|].
  exists [set_key seqNum <$> svs]. split; [|by rewrite concat_cons, app_nil_r].
  apply Forall2_cons. split; [|apply Forall2_nil_2]. intros dst. unfold Decode. cbn [fst snd].
  rewrite Kind_Make by (unfold InternalKeyKindRangeKeySet; lia).
  rewrite DecodeEndKey_varstr; [|by left|done|].
  - cbn [mbind go_bind]. rewrite decodeSets_ok by done. done.
  - intros E. apply (f_equal length) in E. unfold svs in E. rewrite fmap_cons in E. cbn [concat] in E.
    unfold enc_sv in E. rewrite !length_app in E. pose proof (length_varstr (sv_Suffix sv)).
    simpl in E. lia.
Qed.

Lemma flush_unsets_ok e out : Forall short (e_unsets e) ->
  exists buf more, flush_unsets (fun _ _ => None) e s seqNum out =
      Ret (mkEncoder buf (e_unsets e) (e_sets e), out ++ more, None) /\
    exists kss, Forall2 (decodes_to s) more kss /\ concat kss = unset_key seqNum <$> e_unsets e.
Proof.
  intros Hs. unfold flush_unsets. destruct e as [buf unsets sets]. cbn [e_sets e_unsets e_buf] in *.
  destruct unsets as [|u unsets].
  { exists buf, []. rewrite app_nil_r. split; [done|]. by exists []. }
  set (us := u :: unsets) in *.
  rewrite EncodeUnsetValue_ok; [|rewrite length_take, Nat.min_l;
    [by apply EncodedUnsetValueLen_ok|apply length_buffer]].
  cbn [mbind go_bind]. eexists _, [_]. split; [done|].
  exists [unset_key seqNum <$> us]. split; [|by rewrite concat_cons, app_nil_r].
  apply Forall2_cons. split; [|apply Forall2_nil_2]. intros dst. unfold Decode. cbn [fst snd].
  rewrite Kind_Make by (unfold InternalKeyKindRangeKeyUnset; lia).
  rewrite DecodeEndKey_varstr; [|by right|done|].
  - cbn [mbind go_bind]. rewrite decodeUnsets_ok by done. done.
  - intros E. apply (f_equal length) in E. unfold us in E. rewrite fmap_cons in E. cbn [concat] in E.
    rewrite !length_app in E. pose proof (length_varstr u). simpl in E. lia.
Qed.

Lemma Encoder_flush_ok e del out : Forall sv_short (e_sets e) -> Forall short (e_unsets e) ->
  exists e' more, Encoder_flush (fun _ _ => None) e s seqNum del out = Ret (e', out ++ more, None) /\
    exists kss, Forall2 (decodes_to s) more kss /\ concat kss = collected seqNum e del.
Proof.
  intros Hs Hu. unfold Encoder_flush, collected.
  destruct (flush_sets_ok e out Hs) as (buf & m1 & -> & k1 & F1 & C1). cbn [mbind go_bind].
  destruct (flush_unsets_ok (mkEncoder buf (e_unsets e) (e_sets e)) (out ++ m1) Hu)
    as (buf2 & m2 & -> & k2 & F2 & C2). cbn [mbind go_bind e_unsets e_sets] in *.
  destruct del.
  - eexists _, (m1 ++ m2 ++ [_]). split; [unfold Emit; by rewrite <- !app_assoc|].
    exists (k1 ++ k2 ++ [[del_key seqNum]]). split.
    + apply Forall2_app; [done|]. apply Forall2_app; [done|]. apply Forall2_cons.
      split; [|apply Forall2_nil_2]. intros dst. unfold Decode. cbn [fst snd].
      rewrite Kind_Make by (unfold InternalKeyKindRangeKeyDelete; lia). done.
    + by rewrite !concat_app, C1, C2.
  - eexists _, (m1 ++ m2). split; [by rewrite <- app_assoc|]. exists (k1 ++ k2).
    split; [by apply Forall2_app|]. by rewrite concat_app, C1, C2, app_nil_r.
Qed.

(** A key with the sequence number joins what is collected. *)
Lemma encode_key_ok e del k :
  Forall sv_short (e_sets e) -> Forall short (e_unsets e) ->
  rk_ok k -> key_SeqNum k = seqNum ->
  StronglySorted (fun a b => (key_Trailer b <= key_Trailer a)%Z) (collected seqNum e del ++ [k]) ->
  NoDup (filter (fun k => key_Kind k = InternalKeyKindRangeKeyDelete) (collected seqNum e del ++ [k])) ->
  exists e' del', encode_key e del k = Ok (e', del') /\
    Forall sv_short (e_sets e') /\ Forall short (e_unsets e') /\
    collected seqNum e' del' = collected seqNum e del ++ [k].
Proof.
  intros Hs Hu [Ht [Hsh1 Hsh2] Hk] Hseqk Hsort Hnd.
  pose proof (key_Trailer_parts k Ht) as Hparts. rewrite Hseqk in Hparts.
  assert (forall k', k' ∈ collected seqNum e del -> (key_Trailer k <= key_Trailer k')%Z) as Hle.
  { intros k' Hin.
    by apply (StronglySorted_app_1_elem_of _ _ _ k' k Hsort Hin), list_elem_of_singleton. }
  destruct k as [t sfx v]. cbn [key_Trailer key_Suffix key_Value] in *.
  assert (forall kind, (0 <= kind < 256)%Z -> MakeTrailer seqNum kind = (seqNum * 256 + kind)%Z) as Hmk
    by (intros kind Hkind; by apply MakeTrailer_eq).
  assert (del = true -> (t <= seqNum * 256 + 19)%Z) as Hdel.
  { intros ->. rewrite <- (Hmk 19%Z) by lia. apply (Hle (del_key seqNum)).
    unfold collected. rewrite !elem_of_app. right. right. by apply list_elem_of_singleton. }
  assert (e_unsets e <> [] -> (t <= seqNum * 256 + 20)%Z) as Hunset.
  { intros Hne. destruct (e_unsets e) as [|u us] eqn:Eu; [done|].
    rewrite <- (Hmk 20%Z) by lia. apply (Hle (unset_key seqNum u)).
    unfold collected. rewrite !elem_of_app, Eu. right. left. apply list_elem_of_here. }
  unfold encode_key. destruct Hk as [Hk|[[Hk Hv]|(Hk & Hsf & Hv)]].
  - rewrite Hk, Hmk in Hparts by (unfold InternalKeyKindRangeKeySet; lia).
    change InternalKeyKindRangeKeySet with 21%Z in *. rewrite Hk. cbn [Z.eqb Pos.eqb].
    assert (e_unsets e = []) as Eu by (destruct (e_unsets e); [done|]; specialize (Hunset ltac:(done)); lia).
    assert (del = false) as -> by (destruct del; [specialize (Hdel eq_refl); lia|done]).
    eexists _, _. split; [done|]. cbn [e_sets e_unsets].
    split; [apply Forall_app; split; [done|apply Forall_cons; split; [done|apply Forall_nil_2]]|].
    split; [done|]. unfold collected. cbn [e_sets e_unsets].
    rewrite Eu, fmap_app. cbn [fmap list_fmap]. rewrite !app_nil_r. f_equal. f_equal.
    unfold set_key. cbn [sv_Suffix sv_Value]. f_equal. rewrite Hmk by (unfold InternalKeyKindRangeKeySet; lia).
    unfold InternalKeyKindRangeKeySet. lia.
  - cbn [key_Suffix key_Value] in *. subst v.
    rewrite Hk, Hmk in Hparts by (unfold InternalKeyKindRangeKeyUnset; lia).
    change InternalKeyKindRangeKeyUnset with 20%Z in *. rewrite Hk. cbn [Z.eqb Pos.eqb].
    assert (del = false) as -> by (destruct del; [specialize (Hdel eq_refl); lia|done]).
    eexists _, _. split; [done|]. cbn [e_sets e_unsets]. split; [done|].
    split; [apply Forall_app; split; [done|apply Forall_cons; split; [done|apply Forall_nil_2]]|].
    unfold collected. cbn [e_sets e_unsets]. rewrite fmap_app. cbn [fmap list_fmap].
    rewrite !app_nil_r, app_assoc. f_equal. f_equal. unfold unset_key. f_equal.
    rewrite Hmk by (unfold InternalKeyKindRangeKeyUnset; lia). unfold InternalKeyKindRangeKeyUnset. lia.
  - cbn [key_Suffix key_Value] in *. subst sfx v.
    pose proof Hparts as Hparts'. rewrite Hk in Hparts'.
    assert (del = false) as ->.
    { destruct del; [|done]. exfalso. unfold collected in Hnd.
      rewrite !filter_app in Hnd. rewrite <- !app_assoc in Hnd.
      apply NoDup_app in Hnd as (_ & _ & Hnd). apply NoDup_app in Hnd as (_ & _ & Hnd).
      apply NoDup_app in Hnd as (_ & Hnd & _). apply (Hnd (del_key seqNum)).
      - apply list_elem_of_filter. split; [|by apply list_elem_of_singleton].
        unfold del_key. by rewrite <- Hparts'.
      - apply list_elem_of_filter. unfold del_key. rewrite <- Hparts'.
        split; [done|by apply list_elem_of_singleton]. }
    change InternalKeyKindRangeKeyDelete with 19%Z in *. rewrite Hk. cbn [Z.eqb Pos.eqb].
    eexists _, _. split; [done|]. split; [done|]. split; [done|].
    unfold collected. rewrite app_nil_r, <- app_assoc. f_equal. f_equal. f_equal.
    unfold del_key. by rewrite Hparts'.
Qed.
End roundtrip.

Lemma collected_empty seqNum buf : collected seqNum (mkEncoder buf [] []) false = [].
Proof. done. Qed.

Lemma rk_seq k : rk_ok k -> (0 <= key_SeqNum k < 2 ^ 56)%Z.
Proof.
  intros [Hk _ _]. rewrite key_SeqNum_eq.
  split; [apply Z.div_pos; lia|apply Z.div_lt_upper_bound; lia].
Qed.

Definition trailer_sorted := StronglySorted (fun a b => (key_Trailer b <= key_Trailer a)%Z).
Definition dels_distinct (keys : list Key) : Prop :=
  NoDup (filter (fun k => key_Kind k = InternalKeyKindRangeKeyDelete) keys).

Lemma dels_distinct_app l1 l2 : dels_distinct (l1 ++ l2) -> dels_distinct l1 /\ dels_distinct l2.
Proof. unfold dels_distinct. rewrite filter_app. intros H. by apply NoDup_app in H as (? & _ & ?). Qed.

Lemma encode_loop_ok s keys : short (sp_End s) -> forall e seqNum del out,
  (0 <= seqNum < 2 ^ 56)%Z ->
  Forall sv_short (e_sets e) -> Forall short (e_unsets e) -> Forall rk_ok keys ->
  trailer_sorted (collected seqNum e del ++ keys) -> dels_distinct (collected seqNum e del ++ keys) ->
  exists e' more, encode_loop (fun _ _ => None) e s keys false seqNum del out =
      Ret (e', out ++ more, None) /\
    exists kss, Forall2 (decodes_to s) more kss /\ concat kss = collected seqNum e del ++ keys.
Proof.
  intros Hend. induction keys as [|k keys IH]; intros e seqNum del out Hseq Hs Hu Hk Hsort Hnd.
  - rewrite app_nil_r. by apply Encoder_flush_ok.
  - apply Forall_cons in Hk as [Hk Hks]. cbn [encode_loop orb].
    change (k :: keys) with ([k] ++ keys) in Hsort, Hnd.
    rewrite app_assoc in Hsort. rewrite app_assoc in Hnd.
    destruct (Z.eqb_spec (key_SeqNum k) seqNum) as [Eseq|Nseq]; cbn [negb].
    + destruct (encode_key_ok seqNum Hseq e del k) as (e' & del' & -> & Hs' & Hu' & Ecol); try done.
      { by apply StronglySorted_app_1_l in Hsort. }
      { exact (proj1 (dels_distinct_app _ _ Hnd)). }
      rewrite <- Ecol in Hsort, Hnd.
      destruct (IH e' seqNum del' out Hseq Hs' Hu' Hks Hsort Hnd) as (e2 & more & E & kss & F & Cc).
      exists e2, more. split; [done|]. exists kss. split; [done|].
      rewrite Cc, Ecol, <- app_assoc. done.
    + destruct (Encoder_flush_ok s seqNum Hend Hseq e del out Hs Hu) as (e1 & m1 & -> & k1 & F1 & C1).
      cbn [mbind go_bind]. rewrite <- app_assoc in Hsort, Hnd.
      apply StronglySorted_app_1_r in Hsort. apply dels_distinct_app in Hnd as [_ Hnd].
      destruct (encode_key_ok (key_SeqNum k) (rk_seq k Hk) (mkEncoder (e_buf e1) [] []) false k)
        as (e' & del' & -> & Hs' & Hu' & Ecol); try done.
      { rewrite collected_empty. cbn [app]. constructor; constructor. }
      { rewrite collected_empty. cbn [app]. rewrite filter_cons. case_decide; [apply NoDup_singleton|apply NoDup_nil_2]. }
      rewrite collected_empty in Ecol. cbn [app] in Ecol, Hsort, Hnd.
      change (k :: keys) with ([k] ++ keys) in Hsort, Hnd. rewrite <- Ecol in Hsort, Hnd.
      destruct (IH e' (key_SeqNum k) del' (out ++ m1) (rk_seq k Hk) Hs' Hu' Hks Hsort Hnd)
        as (e2 & more & E & kss & F & Cc).
      exists e2, (m1 ++ more). rewrite app_assoc. split; [done|].
      exists (k1 ++ kss). split; [by apply Forall2_app|]. by rewrite concat_app, C1, Cc, Ecol.
Qed.

(** C20. Encoding range keys.  The keys of a span, sorted by trailer, are written as
    entries grouped by sequence number and kind; decoding the entries gives back all
    the keys, in their order, over the same interval.  No entry is too long for its
    buffer, and nothing panics. *)
Theorem rangekey_roundtrip (e : Encoder) (s : Span) :
  short (sp_End s) -> Forall rk_ok (sp_Keys s) ->
  trailer_sorted (sp_Keys s) -> dels_distinct (sp_Keys s) ->
  exists e' out, Encoder_Encode (fun _ _ => None) e s = Ret (e', out, None) /\
    exists kss, Forall2 (decodes_to s) out kss /\ concat kss = sp_Keys s.
Proof.
  intros Hend Hk Hsort Hnd. unfold Encoder_Encode, span_Empty.
  destruct (sp_Keys s) as [|k keys] eqn:E.
  { eexists e, []. split; [done|]. by exists []. }
  apply Forall_cons in Hk as [Hk Hks]. cbn [encode_loop orb mbind go_bind].
  destruct (encode_key_ok (key_SeqNum k) (rk_seq k Hk) (mkEncoder (e_buf e) [] []) false k)
    as (e' & del' & -> & Hs' & Hu' & Ecol); try done.
  { rewrite collected_empty. cbn [app]. constructor; constructor. }
  { rewrite collected_empty. cbn [app]. rewrite filter_cons. case_decide; [apply NoDup_singleton|apply NoDup_nil_2]. }
  rewrite collected_empty in Ecol. cbn [app] in Ecol.
  change (k :: keys) with ([k] ++ keys) in *. rewrite <- Ecol in Hsort, Hnd.
  destruct (encode_loop_ok s keys Hend e' (key_SeqNum k) del' [] (rk_seq k Hk) Hs' Hu' Hks Hsort Hnd)
    as (e2 & more & E2 & kss & F & Cc).
  exists e2, more. split; [done|]. exists kss. split; [done|]. by rewrite Cc, Ecol.
Qed.

(** Corrupted range keys.  A value whose suffix claims to be longer than what is
    left passes the check of the end key and makes [Decode] panic, where other
    corruptions are reported as errors; so does an end key whose length overflows. *)
Theorem rangekey_decode_panics (ik : InternalKey) (endKey rest : bytes) (l : Z) (dst : list Key) :
  Kind ik = InternalKeyKindRangeKeyUnset -> short endKey ->
  (Z.of_nat (length rest) < l < 2 ^ 64)%Z ->
  Decode ik (varstr endKey ++ PutUvarint l ++ rest) dst = Panic "slice bounds out of range" /\
  Decode ik (PutUvarint (2 ^ 64 - 1) ++ varstr endKey) dst = Panic "slice bounds out of range".
Proof.
  intros Hk Hs Hl. pose proof (length_PutUvarint l) as Hpl. split; unfold Decode; rewrite Hk.
  - rewrite DecodeEndKey_varstr; [|by right|done|destruct (PutUvarint l); simpl in *; [lia|done]].
    cbn [mbind go_bind]. rewrite length_app.
    destruct (PutUvarint l ++ rest) as [|x r] eqn:E.
    { apply (f_equal length) in E. rewrite length_app in E. simpl in E. lia. }
    change InternalKeyKindRangeKeyUnset with 20%Z. change InternalKeyKindRangeKeySet with 21%Z.
    cbn [Z.eqb Pos.eqb].
    destruct (length (PutUvarint l) + length rest) as [|fuel] eqn:Ef; [lia|]. cbn [decodeUnsets].
    unfold decodeSuffix, decodeVarstring. rewrite <- E, Uvarint_Put by lia.
    rewrite (proj2 (Z.leb_gt _ _)) by lia. unfold slice_at. rewrite length_app, Nat2Z.inj_add.
    destruct (Z.leb_spec (Z.of_nat (length (PutUvarint l))) (Z.of_nat (length (PutUvarint l)) + i64 l));
      [|done].
    rewrite (proj2 (Z.leb_gt _ _)); [done|].
    assert (i64 l = l \/ i64 l = l - 2 ^ 64)%Z as [Ei|Ei]; [|lia|lia].
    destruct (Z.lt_ge_cases l (2 ^ 63)) as [Hlt|Hge]; [left; apply i64_small; lia|right].
    unfold i64. replace (l + 2 ^ 63)%Z with (l - 2 ^ 63 + 1 * 2 ^ 64)%Z by lia.
    rewrite Z.mod_add, Z.mod_small by lia. lia.
  - unfold DecodeEndKey. change (InternalKeyKindRangeKeyUnset) with 20%Z.
    change InternalKeyKindRangeKeyDelete with 19%Z. change InternalKeyKindRangeKeySet with 21%Z.
    cbn [Z.eqb Pos.eqb orb]. rewrite Uvarint_Put by lia.
    change (length (PutUvarint (2 ^ 64 - 1))) with 10.
    rewrite length_app. change (length (PutUvarint (2 ^ 64 - 1))) with 10.
    change (u64 (Z.of_nat 10 + (2 ^ 64 - 1))) with 9%Z.
    destruct (Z.leb_spec (Z.of_nat (10 + length (varstr endKey))) 9); [lia|]. done.
Qed.
