(* ===== verification/RangeKeyCoalesce.v ===== *)
(** What coalescing range keys means: for every suffix, the newest visible key that is
    not behind a RANGEKEYDEL. *)
From S2P Require Import Prelude.
From S2P Require Import Comparer.
From S2P Require Import InternalKey.
From S2P Require Import GoStd.
From S2P Require Import Keyspan.
From S2P Require Import KeyspanSpec.
From S2P Require Import RangeKey.
From S2P Require Import RangeKeySpec.
From stdpp Require Import sorting.

Definition is_del (k : Key) : Prop := key_Kind k = InternalKeyKindRangeKeyDelete.

(** ** The semantics of range keys *)

(** The key that decides about a suffix, in a list of keys from new to old. *)
Fixpoint resolve (snapshot : Z) (sfx : bytes) (keys : list Key) : option Key :=
  match keys with
  | [] => None
  | k :: keys =>
      if negb (key_VisibleAt k snapshot) then resolve snapshot sfx keys
      else if decide (is_del k) then None
      else if decide (key_Suffix k = sfx) then Some k
      else resolve snapshot sfx keys
  end.

(** The newest visible RANGEKEYDEL. *)
Fixpoint first_del (snapshot : Z) (keys : list Key) : option Key :=
  match keys with
  | [] => None
  | k :: keys =>
      if negb (key_VisibleAt k snapshot) then first_del snapshot keys
      else if decide (is_del k) then Some k
      else first_del snapshot keys
  end.

Definition opt_list {A} (o : option A) : list A := match o with Some x => [x] | None => [] end.

(** ** The first loop *)
Fixpoint before (snapshot : Z) (keys : list Key) : list Key :=
  match keys with
  | [] => []
  | k :: keys =>
      if negb (key_VisibleAt k snapshot) then before snapshot keys
      else if decide (is_del k) then []
      else k :: before snapshot keys
  end.

Lemma coalesce_prefix_spec snapshot keys : forall acc,
  coalesce_prefix snapshot keys acc = (acc ++ before snapshot keys, first_del snapshot keys).
Proof.
  induction keys as [|k keys IH]; intros acc; simpl; [by rewrite app_nil_r|].
  destruct (key_VisibleAt k snapshot); simpl; [|apply IH].
  destruct (decide (is_del k)) as [Hd|Hd]; unfold is_del in Hd.
  - rewrite (proj2 (Z.eqb_eq _ _) Hd). by rewrite app_nil_r.
  - rewrite (proj2 (Z.eqb_neq _ _) Hd), IH, <- app_assoc. done.
Qed.

Lemma resolve_before snapshot sfx keys :
  resolve snapshot sfx keys = head (filter (fun k => key_Suffix k = sfx) (before snapshot keys)).
Proof.
  induction keys as [|k keys IH]; simpl; [done|].
  destruct (key_VisibleAt k snapshot); simpl; [|done].
  destruct (decide (is_del k)); [done|]. rewrite filter_cons.
  destruct (decide (key_Suffix k = sfx)); [done|apply IH].
Qed.

Lemma before_in snapshot keys k :
  k ∈ before snapshot keys -> k ∈ keys /\ ~ is_del k /\ key_VisibleAt k snapshot = true.
Proof.
  induction keys as [|k' keys IH]; simpl; [by intros ?%elem_of_nil|].
  rewrite elem_of_cons. destruct (key_VisibleAt k' snapshot) eqn:E; simpl; [|tauto].
  destruct (decide (is_del k')); [by intros ?%elem_of_nil|].
  rewrite elem_of_cons. intros [->|Hin]; [by auto|tauto].
Qed.

Lemma first_del_in snapshot keys d :
  first_del snapshot keys = Some d -> d ∈ keys /\ is_del d /\ key_VisibleAt d snapshot = true.
Proof.
  induction keys as [|k keys IH]; simpl; [done|]. rewrite elem_of_cons.
  destruct (key_VisibleAt k snapshot) eqn:E; simpl; [|tauto].
  destruct (decide (is_del k)); [|tauto]. intros [= ->]. auto.
Qed.

(** The keys that are kept are newer than the RANGEKEYDEL. *)
Lemma before_first_del snapshot keys k d :
  trailer_sorted keys -> k ∈ before snapshot keys -> first_del snapshot keys = Some d ->
  (key_Trailer d <= key_Trailer k)%Z.
Proof.
  intros Hs. induction Hs as [|k' keys Hs IH Hk']; simpl; [done|].
  destruct (key_VisibleAt k' snapshot); simpl; [|done].
  destruct (decide (is_del k')); [by intros ?%elem_of_nil|].
  intros [->|Hin]%elem_of_cons Hd; [|auto].
  rewrite Forall_forall in Hk'. apply Hk'. exact (proj1 (first_del_in _ _ _ Hd)).
Qed.

Section coalesce.
Context {C : Comparer} {L : ComparerLaws C} {S : Sort} {SL : SortLaws S}.

Lemma Equal_eq a b : Equal a b = true <-> a = b.
Proof. rewrite equal_spec. apply compare_eq. Qed.

(** ** The loop over the sorted keys *)
Fixpoint dedup (prev : bytes) (first : bool) (l : list Key) : list Key :=
  match l with
  | [] => []
  | k :: l => if negb first && Equal prev (key_Suffix k) then dedup prev false l
              else k :: dedup (key_Suffix k) false l
  end.

Lemma coalesce_loop_spec sorted rest : forall pre prev (shadowing : bool) keys kept,
  sorted = pre ++ rest ->
  (if shadowing then keys = kept else kept = pre) ->
  let '(keys', shadowing') := coalesce_loop sorted rest (length pre) prev shadowing keys in
  (if shadowing' then keys' else sorted) = kept ++ dedup prev (length pre =? 0)%nat rest.
Proof.
  induction rest as [|k rest IH]; intros pre prev shadowing keys kept Hsorted Hk; cbn [coalesce_loop].
  - destruct shadowing; subst; by rewrite ?app_nil_r.
  - assert ((0 <? length pre) = negb (length pre =? 0)) as -> by (destruct (length pre); done).
    cbn [dedup]. destruct (negb (length pre =? 0) && Equal prev (key_Suffix k)) eqn:E.
    + apply andb_prop in E as [E _].
      specialize (IH (pre ++ [k]) prev true (if shadowing then keys else take (length pre) sorted) kept).
      rewrite length_app in IH. cbn [length] in IH.
      replace (length pre + 1 =? 0) with false in IH by (symmetry; apply Nat.eqb_neq; lia).
      apply IH; [by rewrite <- app_assoc|]. destruct shadowing; [done|].
      subst. by rewrite take_app_length.
    + specialize (IH (pre ++ [k]) (key_Suffix k) shadowing
        (if shadowing then keys ++ [k] else keys) (kept ++ [k])).
      rewrite length_app in IH. cbn [length] in IH.
      replace (length pre + 1 =? 0) with false in IH by (symmetry; apply Nat.eqb_neq; lia).
      replace (kept ++ k :: dedup (key_Suffix k) false rest)
        with ((kept ++ [k]) ++ dedup (key_Suffix k) false rest) by (by rewrite <- app_assoc).
      apply IH; [by rewrite <- app_assoc|].
      destruct shadowing; by subst.
Qed.

Definition suffix_sorted := StronglySorted (fun a b => Compare (key_Suffix a) (key_Suffix b) <> Gt).

Lemma stable_suffix_sorted l : suffix_sorted (sort_Stable less_suffix l).
Proof.
  pose proof (sort_Stable_sorted less_suffix (weak_order_compare key_Suffix) l) as Hs.
  unfold sorted_by in Hs. unfold suffix_sorted.
  induction Hs as [|k l' Hl IH Hk]; constructor; [done|].
  eapply Forall_impl; [exact Hk|]. intros b Hb. unfold less_suffix in Hb.
  apply bool_decide_eq_false in Hb. by apply compare_not_lt.
Qed.

(** A stable sort keeps the order of the keys with a suffix. *)
Lemma stable_filter sfx l :
  filter (fun k => key_Suffix k = sfx) (sort_Stable less_suffix l) =
  filter (fun k => key_Suffix k = sfx) l.
Proof.
  induction l as [|x l IH]; [done|]. cbn [sort_Stable]. rewrite filter_cons, <- IH.
  generalize (sort_Stable less_suffix l). clear IH. intros r.
  induction r as [|y r IH]; cbn [stable_insert]; [rewrite filter_cons; by case_decide|].
  unfold less_suffix at 1. case_bool_decide as Hlt; [|rewrite !filter_cons; done].
  rewrite filter_cons, IH, (filter_cons _ y r).
  destruct (decide (key_Suffix y = sfx)) as [E1|], (decide (key_Suffix x = sfx)) as [E2|]; try done.
  rewrite E1, E2, compare_refl in Hlt. done.
Qed.

Lemma dedup_sub prev first l k : k ∈ dedup prev first l -> k ∈ l.
Proof.
  revert prev first. induction l as [|x l IH]; intros prev first; [done|]. cbn [dedup].
  rewrite elem_of_cons. destruct (_ && _); [intros ?; right; by eapply IH|].
  rewrite elem_of_cons. intros [->|Hin]; [by left|right; by eapply IH].
Qed.

Lemma dedup_rest prev l : suffix_sorted l ->
  Forall (fun k => Compare prev (key_Suffix k) <> Gt) l ->
  Forall (fun k => Compare prev (key_Suffix k) = Lt) (dedup prev false l) /\
  StronglySorted (fun a b => Compare (key_Suffix a) (key_Suffix b) = Lt) (dedup prev false l) /\
  forall sfx, filter (fun k => key_Suffix k = sfx) (dedup prev false l) =
    if decide (sfx = prev) then [] else take 1 (filter (fun k => key_Suffix k = sfx) l).
Proof.
  intros Hs. revert prev. induction Hs as [|k l Hs IH Hk]; intros prev Hp; cbn [dedup negb andb].
  { split; [apply Forall_nil_2|]. split; [constructor|]. intros sfx. by case_decide. }
  apply Forall_cons in Hp as [Hpk Hp]. destruct (Equal prev (key_Suffix k)) eqn:E.
  - apply Equal_eq in E as ->. destruct (IH _ Hp) as (I1 & I2 & I3).
    split; [done|]. split; [done|]. intros sfx. rewrite I3, filter_cons.
    destruct (decide (sfx = key_Suffix k)); [done|]. by rewrite decide_False by done.
  - assert (Compare prev (key_Suffix k) = Lt) as Hlt.
    { destruct (Compare prev (key_Suffix k)) eqn:Ec; [|done|done].
      apply compare_eq in Ec. apply Equal_eq in Ec. congruence. }
    destruct (IH _ Hk) as (I1 & I2 & I3). split; [|split].
    + apply Forall_cons. split; [done|]. eapply Forall_impl; [exact I1|].
      intros x Hx. exact (compare_trans _ _ _ Hlt Hx).
    + by constructor.
    + intros sfx. rewrite !filter_cons, I3. destruct (decide (key_Suffix k = sfx)) as [Ek|Nk].
      * rewrite (decide_True _ _ (eq_sym Ek)). rewrite decide_False; [done|].
        intros ->. rewrite Ek, compare_refl in Hlt. done.
      * rewrite (decide_False (P := sfx = key_Suffix k)) by congruence.
        destruct (decide (sfx = prev)) as [->|]; [|done].
        replace (filter _ l) with (@nil Key); [done|].
        assert (Forall (fun k => Compare prev (key_Suffix k) = Lt) l) as Hgt.
        { eapply Forall_impl; [exact Hk|]. intros x Hx. exact (compare_lt_le_trans _ _ _ Hlt Hx). }
        clear -Hgt L. induction Hgt as [|x l Hx _ IH]; [done|].
        rewrite filter_cons, decide_False; [done|]. intros E. rewrite E, compare_refl in Hx. done.
Qed.

Lemma dedup_spec l : suffix_sorted l ->
  StronglySorted (fun a b => Compare (key_Suffix a) (key_Suffix b) = Lt) (dedup [] true l) /\
  forall sfx, filter (fun k => key_Suffix k = sfx) (dedup [] true l) =
    take 1 (filter (fun k => key_Suffix k = sfx) l).
Proof.
  intros Hs. destruct Hs as [|k l Hs Hk]; cbn [dedup negb andb]; [split; [constructor|done]|].
  destruct (dedup_rest (key_Suffix k) l Hs Hk) as (I1 & I2 & I3). split; [by constructor|].
  intros sfx. rewrite !filter_cons, I3. destruct (decide (key_Suffix k = sfx)) as [Ek|Nk].
  - by rewrite (decide_True _ _ (eq_sym Ek)).
  - by rewrite decide_False by congruence.
Qed.

(** ** Coalescing *)
Lemma coalesce_eq snapshot keys :
  exists kept, coalesce snapshot keys = kept ++ opt_list (first_del snapshot keys) /\
    StronglySorted (fun a b => Compare (key_Suffix a) (key_Suffix b) = Lt) kept /\
    (forall k, k ∈ kept -> k ∈ before snapshot keys) /\
    forall sfx, filter (fun k => key_Suffix k = sfx) kept = opt_list (resolve snapshot sfx keys).
Proof.
  unfold coalesce. rewrite coalesce_prefix_spec. cbn [app].
  set (sorted := sort_Stable less_suffix (before snapshot keys)).
  pose proof (coalesce_loop_spec sorted sorted [] [] false [] [] eq_refl eq_refl) as Hloop.
  destruct (coalesce_loop sorted sorted (length []) [] false []) as [keys' sh] eqn:E.
  cbn [length] in E. rewrite E. cbn [app length Nat.eqb] in Hloop. rewrite Hloop.
  destruct (dedup_spec sorted (stable_suffix_sorted _)) as [D1 D2].
  exists (dedup [] true sorted). split; [|split; [done|split]].
  - destruct (first_del snapshot keys); [done|]. by rewrite app_nil_r.
  - intros k Hk. apply dedup_sub in Hk. unfold sorted in Hk. by rewrite sort_Stable_perm in Hk.
  - intros sfx. rewrite D2. unfold sorted. rewrite stable_filter, resolve_before.
    by destruct (filter _ (before snapshot keys)) as [|k l].
Qed.

Lemma opt_list_perm {A} (l : list A) o : l ≡ₚ opt_list o -> l = opt_list o.
Proof.
  destruct o as [x|]; cbn [opt_list]; [apply Permutation_singleton_r|apply Permutation_nil_r].
Qed.

Lemma before_nondel snapshot l d :
  Forall (fun k => ~ is_del k /\ key_VisibleAt k snapshot = true) l ->
  (forall x, d = Some x -> is_del x /\ key_VisibleAt x snapshot = true) ->
  before snapshot (l ++ opt_list d) = l.
Proof.
  intros Hl Hd. induction Hl as [|k l [Hk1 Hk2] _ IH]; cbn [app before].
  - destruct d as [x|]; [|done]. destruct (Hd x eq_refl) as [H1 H2]. cbn [opt_list before].
    rewrite H2. cbn [negb]. by rewrite decide_True.
  - rewrite Hk2. cbn [negb]. rewrite decide_False by done. by rewrite IH.
Qed.

Lemma del_trailer k d :
  rk_ok k -> rk_ok d -> ~ is_del k -> is_del d -> key_Trailer k <> key_Trailer d.
Proof. intros _ _ Hk Hd E. apply Hk. unfold is_del, key_Kind in *. by rewrite E. Qed.

(** A sorted list with one smallest element ends with it. *)
Lemma sorted_last r l d :
  trailer_sorted r -> r ≡ₚ l ++ opt_list d ->
  (forall x k, d = Some x -> k ∈ l -> (key_Trailer x < key_Trailer k)%Z) ->
  exists r', r = r' ++ opt_list d /\ r' ≡ₚ l.
Proof.
  intros Hs Hp Hlt. destruct d as [x|]; cbn [opt_list] in *; [|exists r; by rewrite app_nil_r in *].
  assert (x ∈ r) as Hin by (rewrite Hp; set_solver).
  apply list_elem_of_split in Hin as (r1 & r2 & ->).
  assert (r1 ++ r2 ≡ₚ l) as Hp'.
  { apply (Permutation_cons_inv (a := x)). rewrite Permutation_middle, Hp.
    symmetry. apply Permutation_cons_append. }
  exists r1. destruct r2 as [|y r2].
  { rewrite app_nil_r in Hp'. done. }
  exfalso. assert (y ∈ l) as Hy by (rewrite <- Hp'; set_solver).
  apply StronglySorted_app_1_r in Hs. inversion Hs as [|? ? _ Hx]; subst.
  apply Forall_cons in Hx as [Hx _]. specialize (Hlt x y eq_refl Hy). lia.
Qed.

(** C21. Coalescing keeps what the range keys of a span mean.  For every suffix the
    same key decides before and after, at most one key is left for each suffix besides
    a RANGEKEYDEL, and the result is sorted by trailer.  (All sequence numbers are
    visible at the snapshot a compaction uses.) *)
Theorem rangekey_coalesce (keys : list Key) :
  Forall rk_ok keys -> trailer_sorted keys ->
  let r := Coalesce keys in
  (forall sfx, resolve (2 ^ 64 - 1) sfx r = resolve (2 ^ 64 - 1) sfx keys) /\
  first_del (2 ^ 64 - 1) r = first_del (2 ^ 64 - 1) keys /\
  (forall sfx, length (filter (fun k => key_Suffix k = sfx /\ ~ is_del k) r) <= 1) /\
  trailer_sorted r.
Proof.
  intros Hok Hs r. set (snap := (2 ^ 64 - 1)%Z).
  destruct (coalesce_eq snap keys) as (kept & Ec & _ & Hin & Hres).
  assert (trailer_sorted r) as Hsr by apply SortKeysByTrailer_sorted.
  assert (r ≡ₚ kept ++ opt_list (first_del snap keys)) as Hp
    by (unfold r, Coalesce, SortKeysByTrailer; rewrite sort_perm; fold snap; by rewrite Ec).
  destruct (sorted_last r kept (first_del snap keys) Hsr Hp) as (r' & Er & Hp').
  { intros d k Hd Hk. pose proof (Hin k Hk) as Hb.
    pose proof (before_first_del _ _ _ _ Hs Hb Hd) as Hle.
    destruct (before_in _ _ _ Hb) as (K1 & K2 & _). destruct (first_del_in _ _ _ Hd) as (D1 & D2 & _).
    rewrite Forall_forall in Hok.
    pose proof (del_trailer k d (Hok k K1) (Hok d D1) K2 D2). lia. }
  assert (Forall (fun k => ~ is_del k /\ key_VisibleAt k snap = true) r') as Hnd.
  { apply Forall_forall. intros k Hk. rewrite Hp' in Hk. apply Hin, before_in in Hk. tauto. }
  assert (before snap r = r') as Eb.
  { rewrite Er. apply before_nondel; [done|]. intros x Hx. apply first_del_in in Hx. tauto. }
  split; [|split; [|split; [|done]]].
  - intros sfx. rewrite (resolve_before snap sfx r), Eb.
    assert (filter (fun k => key_Suffix k = sfx) r' = opt_list (resolve snap sfx keys)) as ->.
    { apply opt_list_perm. rewrite <- Hres. by rewrite Hp'. }
    by destruct (resolve snap sfx keys).
  - rewrite Er. clear -Hnd. induction Hnd as [|k l [Hk1 Hk2] _ IH].
    + destruct (first_del snap keys) as [d|] eqn:Ed; [|done]. apply first_del_in in Ed as (_ & D1 & D2).
      cbn [opt_list app first_del]. rewrite D2. cbn [negb]. by rewrite decide_True.
    + cbn [app first_del]. rewrite Hk2. cbn [negb]. by rewrite decide_False.
  - intros sfx. trans (length (filter (fun k => key_Suffix k = sfx) kept)).
    + rewrite Er, filter_app, length_app.
      replace (filter _ (opt_list (first_del snap keys))) with (@nil Key).
      * cbn [length]. rewrite Nat.add_0_r, <- Hp'. apply submseteq_length, sublist_submseteq.
        clear. induction r' as [|k r' IH]; [done|]. rewrite !filter_cons.
        destruct (decide (key_Suffix k = sfx)) as [E|E].
        -- case_decide; [by apply sublist_skip|by apply sublist_cons].
        -- by rewrite decide_False by tauto.
      * destruct (first_del snap keys) as [d|] eqn:Ed; [|done]. apply first_del_in in Ed as (_ & D1 & _).
        cbn [opt_list]. rewrite filter_cons, decide_False by tauto. done.
    + rewrite Hres. by destruct (resolve snap sfx keys); simpl; lia.
Qed.

Lemma transform_loop_spec keys : forall dst, Forall rk_ok keys ->
  transform_loop keys dst =
    Ok (dst ++ filter (fun k => key_Kind k = InternalKeyKindRangeKeySet) keys).
Proof.
  induction keys as [|k keys IH]; intros dst Hok; cbn [transform_loop]; [by rewrite app_nil_r|].
  apply Forall_cons in Hok as [[_ _ Hk] Hok]. rewrite filter_cons.
  destruct (Z.eqb_spec (key_Kind k) InternalKeyKindRangeKeySet) as [E|E].
  - rewrite IH, decide_True, <- app_assoc by done. done.
  - rewrite decide_False by done.
    replace (_ || _)%Z with true; [by apply IH|]. symmetry. apply orb_true_iff.
    rewrite !Z.eqb_eq. tauto.
Qed.

(** What a user sees of the range keys over a span: exactly the RANGEKEYSETs that
    decide about their suffix at the snapshot, in strictly increasing order of their
    suffixes. *)
Theorem rangekey_transform (snapshot : Z) (s : Span) :
  Forall rk_ok (sp_Keys s) ->
  exists keys, Transform false snapshot s =
      Ret (Ok (mkSpan (sp_Start s) (sp_End s) keys BySuffixAsc)) /\
    StronglySorted (fun a b => Compare (key_Suffix a) (key_Suffix b) = Lt) keys /\
    forall k, k ∈ keys <->
      resolve snapshot (key_Suffix k) (sp_Keys s) = Some k /\ key_Kind k = InternalKeyKindRangeKeySet.
Proof.
  intros Hok. destruct (coalesce_eq snapshot (sp_Keys s)) as (kept & Ec & Hsort & Hin & Hres).
  assert (Forall rk_ok (coalesce snapshot (sp_Keys s))) as Hok2.
  { rewrite Forall_forall in Hok. apply Forall_forall. intros k. rewrite Ec, elem_of_app.
    intros [Hk|Hk]; apply Hok; [exact (proj1 (before_in _ _ _ (Hin k Hk)))|].
    destruct (first_del snapshot (sp_Keys s)) as [d|] eqn:Ed; cbn [opt_list] in Hk; [|by apply elem_of_nil in Hk].
    apply list_elem_of_singleton in Hk as ->. exact (proj1 (first_del_in _ _ _ Ed)). }
  unfold Transform. rewrite transform_loop_spec by done. cbn [mbind result_bind app].
  eexists. split; [done|]. rewrite Ec, filter_app.
  replace (filter _ (opt_list (first_del snapshot (sp_Keys s)))) with (@nil Key).
  2: { destruct (first_del snapshot (sp_Keys s)) as [d|] eqn:Ed; [|done].
    apply first_del_in in Ed as (_ & D1 & _). cbn [opt_list]. unfold is_del in D1.
    by rewrite filter_cons, decide_False by (rewrite D1; done). }
  rewrite app_nil_r. split.
  - clear -Hsort. induction Hsort as [|k l Hl IH Hk]; [constructor|]. rewrite filter_cons.
    case_decide; [|done]. constructor; [done|]. rewrite Forall_forall in *.
    intros x Hx. apply list_elem_of_filter in Hx as [_ Hx]. auto.
  - intros k. rewrite list_elem_of_filter. split.
    + intros [Hkind Hk]. split; [|done].
      assert (k ∈ filter (fun k' => key_Suffix k' = key_Suffix k) kept) as Hf
        by (by apply list_elem_of_filter).
      rewrite Hres in Hf. destruct (resolve _ _ _) as [k'|]; cbn [opt_list] in Hf;
        [by apply list_elem_of_singleton in Hf as ->|by apply elem_of_nil in Hf].
    + intros [Hr Hkind]. split; [done|].
      assert (k ∈ filter (fun k' => key_Suffix k' = key_Suffix k) kept) as Hf
        by (rewrite Hres, Hr; by apply list_elem_of_singleton).
      by apply list_elem_of_filter in Hf as [_ Hf].
Qed.
End coalesce.

(** ** Witnesses *)
Definition ex_rk (seqNum kind : Z) (sfx value : string) : Key :=
  mkKey (MakeTrailer seqNum kind) (bytes_of_string sfx) (bytes_of_string value).

(** A newer value, an unset, a delete and an older value. *)
Definition ex_rks : list Key :=
  [ex_rk 9 InternalKeyKindRangeKeySet "@1" "new"; ex_rk 8 InternalKeyKindRangeKeyUnset "@2" "";
   ex_rk 7 InternalKeyKindRangeKeySet "@1" "old"; ex_rk 6 InternalKeyKindRangeKeyDelete "" "";
   ex_rk 5 InternalKeyKindRangeKeySet "@3" "gone"].

Definition ex_rk_span : Span :=
  mkSpan (bytes_of_string "a") (bytes_of_string "c") ex_rks ByTrailerDesc.

Lemma ex_rks_ok : Forall rk_ok ex_rks /\ trailer_sorted ex_rks /\ dels_distinct ex_rks.
Proof.
  split; [|split].
  - repeat (apply Forall_cons; split; [split;
      [vm_compute; split; [discriminate|reflexivity]
      |split; vm_compute; reflexivity
      |vm_compute; tauto]|]). apply Forall_nil_2.
  - repeat (constructor; [|repeat (apply Forall_cons; split; [vm_compute; discriminate|]);
      apply Forall_nil_2]). constructor.
  - unfold dels_distinct. vm_compute. apply NoDup_singleton.
Qed.

Lemma rangekey_roundtrip_witness :
  exists e' out, Encoder_Encode (fun _ _ => None) (mkEncoder [] [] []) ex_rk_span = Ret (e', out, None) /\
    exists kss, Forall2 (decodes_to ex_rk_span) out kss /\ concat kss = ex_rks.
Proof.
  apply (rangekey_roundtrip (mkEncoder [] [] []) ex_rk_span).
  - vm_compute. reflexivity.
  - apply ex_rks_ok.
  - apply ex_rks_ok.
  - apply ex_rks_ok.
Defined.

Lemma rangekey_decode_panics_witness :
  Decode (MakeInternalKey (bytes_of_string "a") 3 InternalKeyKindRangeKeyUnset)
    (varstr (bytes_of_string "c") ++ PutUvarint 9 ++ bytes_of_string "@1") [] =
  Panic "slice bounds out of range".
Proof.
  refine (proj1 (rangekey_decode_panics
    (MakeInternalKey (bytes_of_string "a") 3 InternalKeyKindRangeKeyUnset)
    (bytes_of_string "c") (bytes_of_string "@1") 9 [] eq_refl _ _)).
  - vm_compute. reflexivity.
  - vm_compute. split; reflexivity.
Defined.

Lemma rangekey_coalesce_witness :
  resolve (2 ^ 64 - 1) (bytes_of_string "@1")
    (Coalesce (C := DefaultComparer) (S := insertion_sort) ex_rks) =
  Some (ex_rk 9 InternalKeyKindRangeKeySet "@1" "new").
Proof.
  rewrite (proj1 (rangekey_coalesce (C := DefaultComparer) (L := default_laws) (S := insertion_sort)
    (SL := insertion_sort_laws) ex_rks (proj1 ex_rks_ok) (proj1 (proj2 ex_rks_ok)))).
  vm_compute. reflexivity.
Defined.

Lemma rangekey_transform_witness :
  exists keys, Transform (C := DefaultComparer) (S := insertion_sort) false 9 ex_rk_span =
      Ret (Ok (mkSpan (bytes_of_string "a") (bytes_of_string "c") keys BySuffixAsc)) /\
    ex_rk 7 InternalKeyKindRangeKeySet "@1" "old" ∈ keys.
Proof.
  destruct (rangekey_transform (C := DefaultComparer) (L := default_laws) (S := insertion_sort)
    9 ex_rk_span (proj1 ex_rks_ok)) as (keys & E & _ & Hk).
  exists keys. split; [exact E|]. apply Hk. vm_compute. split; reflexivity.
Defined.
