(* ===== verification/Iterators.v ===== *)
(** Iterators over internal keys (src/internal/base/iterator.go): the interface with what
    its documentation promises, as an iterator over a sorted list. *)
From S2P Require Import Prelude.
From S2P Require Import Comparer.
From S2P Require Import InternalKey.
From stdpp Require Import sorting.

Local Open Scope Z_scope.

(** ** Sorted lists *)

(** Strictly sorted by internal key. *)
Definition ikey_sorted {C : Comparer} {B} (f : B -> InternalKey) (l : list B) : Prop :=
  StronglySorted (fun x y => InternalCompare (f x) (f y) = Lt) l.

Lemma StronglySorted_lookup_lt {B} (R : B -> B -> Prop) l j k x y :
  StronglySorted R l -> l !! j = Some x -> l !! k = Some y -> (j < k)%nat -> R x y.
Proof.
  intros Hs. revert j k. induction Hs as [|z l Hs IH Hz]; intros j k Hx Hy Hjk; [done|].
  destruct k as [|k]; [lia|]. destruct j as [|j].
  - injection Hx as ->. rewrite Forall_forall in Hz. apply Hz. exact (list_elem_of_lookup_2 l k y Hy).
  - apply (IH j k); [done|done|lia].
Qed.

Lemma ikey_sorted_unique {C : Comparer} {L : ComparerLaws C} {B} (f : B -> InternalKey) (l l' : list B) :
  ikey_sorted f l -> ikey_sorted f l' -> l ≡ₚ l' -> l = l'.
Proof.
  intros Hs Hs' Hp. assert (AntiSymm (=) (fun x y => InternalCompare (f x) (f y) = Lt)) as Hanti.
  { intros x y H1 H2. exfalso. pose proof (InternalCompare_trans _ _ _ H1 H2) as H.
    by rewrite (proj2 (InternalCompare_eq _ _)) in H. }
  exact (StronglySorted_unique _ _ _ Hs Hs' Hp).
Qed.
Lemma ikey_sorted_fmap {C : Comparer} {B} (g : B -> InternalKey * bytes) xs :
  ikey_sorted (fun x => (g x).1) xs -> ikey_sorted fst (g <$> xs).
Proof.
  unfold ikey_sorted. induction 1 as [|x xs Hs IH Hx]; [constructor|]. rewrite fmap_cons.
  constructor; [done|]. by apply Forall_fmap.
Qed.

Lemma last_take {B} (l : list B) n : (n <= length l)%nat -> last (take n l) = match n with O => None | S n => l !! n end.
Proof.
  intros Hn. rewrite last_lookup, length_take, Nat.min_l by lia. destruct n as [|n]; [done|].
  rewrite lookup_take_lt; [done|simpl; lia].
Qed.

(** The number of elements at the beginning that satisfy a predicate. *)
Lemma length_filter_prefix {B} (P : B -> Prop) `{!forall x, Decision (P x)} l n :
  (n <= length l)%nat ->
  (forall i x, l !! i = Some x -> (i < n)%nat -> P x) ->
  (forall i x, l !! i = Some x -> (n <= i)%nat -> ~ P x) ->
  length (filter P l) = n.
Proof.
  revert n. induction l as [|y l IH]; intros n Hn H1 H2; [cbn in *; lia|].
  rewrite filter_cons. destruct n as [|n].
  - rewrite decide_False by (apply (H2 O y); [done|lia]).
    apply (IH O); [lia|lia|]. intros i x Hi _. apply (H2 (S i) x Hi). lia.
  - rewrite decide_True by (apply (H1 O y); [done|lia]). cbn [length] in *. f_equal. apply IH; [lia| |].
    + intros i x Hi Hlt. apply (H1 (S i) x Hi). lia.
    + intros i x Hi Hle. apply (H2 (S i) x Hi). lia.
Qed.

(** A property that only the first elements have. *)
Lemma split_point {B} (P : B -> bool) l :
  (forall j k x y, l !! j = Some x -> l !! k = Some y -> (j <= k)%nat -> P y = true -> P x = true) ->
  exists m, (m <= length l)%nat /\ forall j x, l !! j = Some x -> P x = bool_decide (j < m)%nat.
Proof.
  induction l as [|r l IH] using rev_ind; intros Hmono; [by exists O|]. destruct IH as (m & Hm & Hsplit).
  { intros j k x y Hx Hy. apply (Hmono j k); by apply lookup_app_l_Some. }
  rewrite length_app. cbn [length]. destruct (P r) eqn:EP.
  - exists (length l + 1)%nat. split; [lia|]. intros j x Hx. pose proof (lookup_lt_Some _ _ _ Hx) as Hlt.
    rewrite length_app in Hlt. cbn in Hlt. rewrite bool_decide_eq_true_2 by lia.
    apply (Hmono j (length l) x r Hx); [by rewrite lookup_app_r, Nat.sub_diag by lia|lia|done].
  - exists m. split; [lia|]. intros j x Hx. apply lookup_app_Some in Hx as [Hx|[Hh Hx]]; [by apply Hsplit|].
    apply list_lookup_singleton_Some in Hx as [_ <-]. rewrite EP. symmetry. apply bool_decide_eq_false_2. lia.
Qed.

(** ** The interface *)
Definition entry : Type := InternalKey * bytes.

(** The flag of [SeekGE] is [TrySeekUsingNext]. *)
Class InternalIterator (I : Type) := {
  op_SeekGE : I -> bytes -> bool -> go (I * option entry);
  op_SeekPrefixGE : I -> bytes -> bytes -> bool -> go (I * option entry);
  op_SeekLT : I -> bytes -> go (I * option entry);
  op_First : I -> go (I * option entry);
  op_Last : I -> go (I * option entry);
  op_Next : I -> go (I * option entry);
  op_NextPrefix : I -> bytes -> go (I * option entry);
  op_Prev : I -> go (I * option entry);
  op_SetBounds : I -> option bytes -> option bytes -> go I;
}.

Inductive iter_call :=
| CallSeekGE (key : bytes) (trySeekUsingNext : bool)
| CallSeekPrefixGE (prefix key : bytes) (trySeekUsingNext : bool)
| CallSeekLT (key : bytes)
| CallFirst | CallLast | CallNext
| CallNextPrefix (succKey : bytes)
| CallPrev
| CallSetBounds (lower upper : option bytes).

Definition call {I} `{InternalIterator I} (i : I) (c : iter_call) : go (I * option entry) :=
  match c with
  | CallSeekGE key try_ => op_SeekGE i key try_
  | CallSeekPrefixGE prefix key try_ => op_SeekPrefixGE i prefix key try_
  | CallSeekLT key => op_SeekLT i key
  | CallFirst => op_First i
  | CallLast => op_Last i
  | CallNext => op_Next i
  | CallNextPrefix succKey => op_NextPrefix i succKey
  | CallPrev => op_Prev i
  | CallSetBounds lower upper => i ← op_SetBounds i lower upper; Ret (i, None)
  end.
(** What a sequence of calls returns. *)
Fixpoint calls {I} `{InternalIterator I} (i : I) (l : list iter_call) : go (list (option entry)) :=
  match l with
  | [] => Ret []
  | c :: l => '(i, r) ← call i c; rs ← calls i l; Ret (r :: rs)
  end.

(** ** What it promises *)
Section spec.
Context {C : Comparer}.

(** The position: at an entry, before the first or after the last one, or not defined;
    and whether the last call went backward. *)
Inductive position := PosAt (j : nat) | PosBefore | PosAfter | PosNone.
Record iter_state := mkState {
  st_lower : option bytes;
  st_upper : option bytes;
  st_pos : position;
  st_reverse : bool;
}.

Definition key_before (key : bytes) (e : entry) : Prop := Compare (UserKey e.1) key = Lt.
#[export] Instance key_before_dec key e : Decision (key_before key e).
Proof. unfold key_before. apply _. Defined.
Definition above (upper : option bytes) (k : InternalKey) : bool :=
  match upper with Some u => bool_decide (Compare (UserKey k) u <> Lt) | None => false end.
Definition below (lower : option bytes) (k : InternalKey) : bool :=
  match lower with Some u => bool_decide (Compare (UserKey k) u = Lt) | None => false end.

(** The entry, unless it is out of bounds. *)
Definition in_upper (upper : option bytes) (r : option entry) : option entry :=
  e ← r; if above upper e.1 then None else Some e.
Definition in_lower (lower : option bytes) (r : option entry) : option entry :=
  e ← r; if below lower e.1 then None else Some e.

(** The number of entries before a key: where a search ends. *)
Definition rank (kvs : list entry) (key : bytes) : nat := length (filter (key_before key) kvs).

(** Moving forward to the entry with a number, and backward to the one before it. *)
Definition forward (kvs : list entry) (s : iter_state) (n : nat) : iter_state * option entry :=
  let r := in_upper (st_upper s) (kvs !! n) in
  (mkState (st_lower s) (st_upper s) (match r with Some _ => PosAt n | None => PosAfter end) false, r).
Definition backward (kvs : list entry) (s : iter_state) (n : nat) : iter_state * option entry :=
  let r := in_lower (st_lower s) (match n with O => None | S n => kvs !! n end) in
  (mkState (st_lower s) (st_upper s) (match r with Some _ => PosAt (pred n) | None => PosBefore end) true, r).

(** With the hint [TrySeekUsingNext] the iterator must not be beyond the entry that is
    sought, and within its upper bound. *)
Definition may_try (kvs : list entry) (s : iter_state) (key : bytes) : bool :=
  match st_pos s with
  | PosAt j => (j <=? rank kvs key)%nat &&
      match kvs !! j with Some e => negb (above (st_upper s) e.1) | None => false end
  | PosAfter => match in_upper (st_upper s) (kvs !! rank kvs key) with Some _ => false | None => true end
  | _ => false
  end.

(** The effect of a call, if the documentation allows it in the state. *)
Definition abs_call (kvs : list entry) (s : iter_state) (c : iter_call) : option (iter_state * option entry) :=
  match c with
  | CallSeekGE key try_ | CallSeekPrefixGE _ key try_ =>
      if try_ && negb (may_try kvs s key) then None else Some (forward kvs s (rank kvs key))
  | CallSeekLT key => Some (backward kvs s (rank kvs key))
  | CallFirst => Some (forward kvs s 0)
  | CallLast => Some (backward kvs s (length kvs))
  | CallNext =>
      match st_pos s with
      | PosAt j => Some (forward kvs s (S j))
      | PosBefore => Some (forward kvs s 0)
      | _ => None
      end
  | CallNextPrefix key =>
      match st_pos s with
      | PosAt _ => if may_try kvs s key && negb (st_reverse s) then Some (forward kvs s (rank kvs key)) else None
      | _ => None
      end
  | CallPrev =>
      match st_pos s with
      | PosAt j => Some (backward kvs s j)
      | PosAfter => Some (backward kvs s (length kvs))
      | _ => None
      end
  | CallSetBounds lower upper => Some (mkState lower upper PosNone false, None)
  end.
Fixpoint abs_calls (kvs : list entry) (s : iter_state) (l : list iter_call) : option (list (option entry)) :=
  match l with
  | [] => Some []
  | c :: l =>
      match abs_call kvs s c with
      | Some (s, r) => cons r <$> abs_calls kvs s l
      | None => None
      end
  end.
(** The same for iterators that support only some of the calls. *)
Fixpoint abs_calls_on (ok : iter_state -> iter_call -> bool) (kvs : list entry) (s : iter_state)
    (l : list iter_call) : option (list (option entry)) :=
  match l with
  | [] => Some []
  | c :: l =>
      if ok s c then
        match abs_call kvs s c with
        | Some (s, r) => cons r <$> abs_calls_on ok kvs s l
        | None => None
        end
      else None
  end.

(** A relation between states and iterators that the calls keep. *)
Definition simulates_on {I} `{InternalIterator I} (ok : iter_state -> iter_call -> bool) (kvs : list entry)
    (R : iter_state -> I -> Prop) : Prop :=
  forall s i c s' r, ok s c = true -> R s i -> abs_call kvs s c = Some (s', r) ->
    exists i', call i c = Ret (i', r) /\ R s' i'.
Definition simulates {I} `{InternalIterator I} (kvs : list entry) (R : iter_state -> I -> Prop) : Prop :=
  forall s i c s' r, R s i -> abs_call kvs s c = Some (s', r) -> exists i', call i c = Ret (i', r) /\ R s' i'.

(** Then the allowed sequences of calls return what they should. *)
Lemma simulates_on_calls {I} `{InternalIterator I} ok kvs R :
  simulates_on ok kvs R ->
  forall l s i rs, R s i -> abs_calls_on ok kvs s l = Some rs -> calls i l = Ret rs.
Proof.
  intros Hsim. induction l as [|c l IH]; intros s i rs HR; cbn [abs_calls_on calls].
  - by intros [= <-].
  - destruct (ok s c) eqn:Eok; [|done]. destruct (abs_call kvs s c) as [[s' r]|] eqn:Ec; [|done].
    destruct (Hsim s i c s' r Eok HR Ec) as (i' & -> & HR').
    destruct (abs_calls_on ok kvs s' l) as [rs'|] eqn:El; [|done]. intros [= <-].
    by rewrite bind_Ret, (IH s' i' rs' HR' El), bind_Ret.
Qed.
Lemma abs_calls_all kvs l : forall s, abs_calls_on (fun _ _ => true) kvs s l = abs_calls kvs s l.
Proof.
  induction l as [|c l IH]; intros s; cbn; [done|]. destruct (abs_call kvs s c) as [[s' r]|]; [|done]. by rewrite IH.
Qed.
Lemma simulates_calls {I} `{InternalIterator I} kvs R :
  simulates kvs R -> forall l s i rs, R s i -> abs_calls kvs s l = Some rs -> calls i l = Ret rs.
Proof.
  intros Hsim l s i rs HR. rewrite <- abs_calls_all. apply (simulates_on_calls (fun _ _ => true) kvs R); [|done].
  intros s0 i0 c s' r _. apply Hsim.
Qed.
End spec.

(** ** Searching by internal keys *)
Section search.
Context {C : Comparer} {L : ComparerLaws C}.

(** Search keys are before all internal keys with the same user key, as the trailers of
    these are not larger. *)
Definition no_more : Z := Z.lor (Z.shiftl InternalKeySeqNumMax 8) InternalKeyKindMax.

Lemma search_key key (e : entry) :
  0 <= Trailer e.1 <= no_more -> InternalCompare e.1 (MakeSearchKey key) = Lt <-> key_before key e.
Proof.
  intros Ht. unfold InternalCompare, key_before, MakeSearchKey. cbn [UserKey Trailer]. fold no_more.
  destruct (Compare (UserKey e.1) key); [|done|done].
  destruct (Z.ltb_spec no_more (Trailer e.1)); [lia|]. by destruct (Z.ltb_spec (Trailer e.1) no_more).
Qed.

Context (kvs : list entry) (Hsorted : ikey_sorted fst kvs).

Lemma before_mono key j k x y :
  kvs !! j = Some x -> kvs !! k = Some y -> (j <= k)%nat -> key_before key y -> key_before key x.
Proof.
  intros Hx Hy Hjk Hb. destruct (decide (j = k)) as [->|Hne]; [congruence|].
  pose proof (StronglySorted_lookup_lt _ _ _ _ _ _ Hsorted Hx Hy ltac:(lia)) as Hlt.
  unfold key_before in *. apply InternalCompare_lt in Hlt as [Hlt|[-> _]]; [|done].
  exact (compare_trans _ _ _ Hlt Hb).
Qed.
Lemma above_mono upper j k x y :
  kvs !! j = Some x -> kvs !! k = Some y -> (j <= k)%nat -> above upper x.1 = true -> above upper y.1 = true.
Proof.
  destruct upper as [u|]; [|done]. cbn. rewrite !bool_decide_eq_true. intros Hx Hy Hjk Ha Hb.
  exact (Ha (before_mono u j k x y Hx Hy Hjk Hb)).
Qed.

(** The rank of a key splits the list. *)
Lemma rank_spec key :
  (rank kvs key <= length kvs)%nat /\
  forall j e, kvs !! j = Some e -> (j < rank kvs key)%nat <-> key_before key e.
Proof.
  split; [unfold rank; apply length_filter|]. intros j e He.
  assert (exists n, (n <= length kvs)%nat /\ forall i x, kvs !! i = Some x -> (i < n)%nat <-> key_before key x)
    as (n & Hn & Hsplit).
  { clear j e He. revert Hsorted. generalize kvs as l. induction l as [|x l IH]; intros Hs; [by exists O|].
    apply StronglySorted_cons in Hs as [Hx Hs]. destruct (decide (key_before key x)) as [Hb|Hb].
    - destruct (IH Hs) as (n & Hn & Hi). exists (S n). cbn. split; [lia|]. intros [|i] y Hy.
      + injection Hy as <-. split; [done|lia].
      + rewrite <- (Hi i y Hy). lia.
    - exists O. split; [lia|]. intros i y Hy. split; [lia|]. intros Hby. destruct Hb.
      destruct i as [|i]; [by injection Hy as <-|]. rewrite Forall_forall in Hx.
      pose proof (Hx y ltac:(by apply (list_elem_of_lookup_2 l i))) as Hlt. unfold key_before in *.
      apply InternalCompare_lt in Hlt as [Hlt|[-> _]]; [|done]. exact (compare_trans _ _ _ Hlt Hby). }
  assert (rank kvs key = n) as ->; [|by apply Hsplit].
  unfold rank. apply length_filter_prefix; [done| |].
  - intros i x Hx Hi. by apply (Hsplit i x Hx).
  - intros i x Hx Hi Hb. apply (Hsplit i x Hx) in Hb. lia.
Qed.
End search.
