(* ===== verification/Arenaskl.v ===== *)
(** The skiplist of memtables (src/internal/arenaskl): nodes are allocated in an arena and
    linked in both directions at every level of their tower.  Operations run one after
    another here; the compare-and-swap instructions and their retries are kept. *)
From S2P Require Import Prelude.
From S2P Require Import Comparer.
From S2P Require Import InternalKey.

Local Open Scope Z_scope.

Definition maxHeight : nat := 20.
Definition nodeAlignment : Z := 4.
Definition linksSize : Z := 8.
(** A node without its tower takes 24 bytes. *)
Definition arenaskl_maxNodeSize : Z := 24 + Z.of_nat maxHeight * linksSize.
Definition MaxNodeSize (keySize valueSize : Z) : Z :=
  arenaskl_maxNodeSize + keySize + valueSize + (nodeAlignment - 1).
Definition MaxUint32OrInt : Z := 2 ^ 32 - 1.

(** The table the code computes when it is initialised: powers of 1/e of the largest
    uint32. *)
Definition probabilities : list Z :=
  [4294967295; 1580030168; 581260615; 213833830; 78665070; 28939261; 10646159; 3916503;
   1440801; 530041; 194991; 71733; 26389; 9708; 3571; 1313; 483; 177; 65; 24].

Definition ErrArenaFull : error := New "allocation failed because arena is full".
Definition ErrRecordExists : error := New "record with this key already exists".

(** ** Nodes *)

(** Pointers to nodes are their offsets in the buffer, 0 for nil. *)
Record links := mkLinks { nextOffset : Z; prevOffset : Z }.
Record node := mkNode {
  keyOffset : Z;
  keySize : Z;
  keyTrailer : Z;
  valueSize : Z;
  allocSize : Z;
  tower : list links;          (* as many as were allocated *)
}.
#[export] Instance node_settable : Settable node := fun n =>
  mkNode (keyOffset n) (keySize n) (keyTrailer n) (valueSize n) (allocSize n) (tower n).

(** The numbers [fastrand.Uint32] returns, one after the other, and what the links of a
    node hold before they are written: buffers are used again without clearing them. *)
Class ArenaEnv := {
  fastrand_Uint32 : nat -> Z;
  stale : Z -> nat -> links;
}.

(** The nodes are kept apart from the buffer, which holds the keys and values. *)
Record Arena := mkArena {
  a_n : Z;
  a_buf : bytes;
  a_nodes : gmap Z node;
  a_rand : nat;                (* random numbers drawn so far *)
}.
#[export] Instance Arena_settable : Settable Arena := fun a =>
  mkArena (a_n a) (a_buf a) (a_nodes a) (a_rand a).

Definition a_len (a : Arena) : Z := Z.of_nat (length (a_buf a)).

Definition NewArena (buf : bytes) : Arena :=
  mkArena 1 (if MaxUint32OrInt <? Z.of_nat (length buf) then take (Z.to_nat MaxUint32OrInt) buf else buf) ∅ 0.
Definition arena_Size (a : Arena) : Z := if MaxUint32OrInt <? a_n a then MaxUint32OrInt else u32 (a_n a).
Definition arena_Capacity (a : Arena) : Z := u32 (a_len a).

(** The offset and the number of bytes that are used up. *)
Definition alloc (a : Arena) (size alignment overflow : Z) : Arena * option (Z * Z) :=
  if a_len a <? a_n a then (a, None)
  else
    let padded := size + alignment - 1 in
    let newSize := u64 (a_n a + padded) in
    let a := a <| a_n := newSize |> in
    if a_len a <? u64 (newSize + overflow) then (a, None)
    else (a, Some (Z.land (u32 (u32 newSize - size)) (u32 (Z.lnot (alignment - 1))), u32 padded)).

(** [a.buf[offset : offset+size]] *)
Definition buf_slice (a : Arena) (offset size : Z) : go bytes :=
  let end_ := u32 (offset + size) in
  if (end_ <? offset) || (a_len a <? end_) then Panic "slice bounds out of range"
  else Ret (slice (a_buf a) (Z.to_nat offset) (Z.to_nat end_)).
Definition getBytes (a : Arena) (offset size : Z) : go bytes :=
  if offset =? 0 then Ret [] else buf_slice a offset size.
(** [copy(a.getBytes(offset, size), src)] *)
Definition copyBytes (a : Arena) (offset size : Z) (src : bytes) : go Arena :=
  dst ← getBytes a offset size;
  Ret (a <| a_buf := copy_at (a_buf a) (Z.to_nat offset) (take (length dst) src) |>).

Definition node_at (a : Arena) (nd : Z) : go node :=
  match a_nodes a !! nd with Some n => Ret n | None => Panic "invalid memory address" end.
Definition put_node (a : Arena) (nd : Z) (n : node) : Arena := a <| a_nodes := <[nd := n]> (a_nodes a) |>.

Definition getKeyBytes (a : Arena) (n : node) : go bytes := getBytes a (keyOffset n) (keySize n).
Definition getValue (a : Arena) (n : node) : go bytes :=
  getBytes a (u32 (keyOffset n + keySize n)) (valueSize n).

(** Links that are not allocated belong to the key: using them is an error here. *)
Definition get_links (a : Arena) (nd : Z) (h : nat) : go links :=
  n ← node_at a nd;
  match tower n !! h with Some l => Ret l | None => Panic "outside of the tower" end.
Definition set_links (a : Arena) (nd : Z) (h : nat) (f : links -> links) : go Arena :=
  n ← node_at a nd;
  match tower n !! h with
  | Some l => Ret (put_node a nd (n <| tower := <[h := f l]> (tower n) |>))
  | None => Panic "outside of the tower"
  end.
Definition getNext (a : Arena) (nd : Z) (h : nat) : go Z := l ← get_links a nd h; Ret (nextOffset l).
Definition getPrev (a : Arena) (nd : Z) (h : nat) : go Z := l ← get_links a nd h; Ret (prevOffset l).
Definition casNextOffset (a : Arena) (nd : Z) (h : nat) (old val : Z) : go (Arena * bool) :=
  l ← get_links a nd h;
  if nextOffset l =? old
  then a ← set_links a nd h (fun l => mkLinks val (prevOffset l)); Ret (a, true)
  else Ret (a, false).
Definition casPrevOffset (a : Arena) (nd : Z) (h : nat) (old val : Z) : go (Arena * bool) :=
  l ← get_links a nd h;
  if prevOffset l =? old
  then a ← set_links a nd h (fun l => mkLinks (nextOffset l) val); Ret (a, true)
  else Ret (a, false).

Section arenaskl.
Context {C : Comparer} {E : ArenaEnv}.

Definition newRawNode (a : Arena) (height : nat) (kSize vSize : Z) : Arena * option Z :=
  let unusedSize := u32 (Z.of_nat (maxHeight - height) * linksSize) in
  let nodeSize := u32 (arenaskl_maxNodeSize - unusedSize) in
  match alloc a (u32 (u32 (nodeSize + kSize) + vSize)) nodeAlignment unusedSize with
  | (a, None) => (a, None)
  | (a, Some (nodeOffset, allocated)) =>
      (put_node a nodeOffset
         (mkNode (u32 (nodeOffset + nodeSize)) kSize 0 vSize allocated (stale nodeOffset <$> seq 0 height)),
       Some nodeOffset)
  end.

Definition newNode (a : Arena) (height : nat) (key : InternalKey) (value : bytes) : go (Arena * option Z) :=
  let kSize := Z.of_nat (length (UserKey key)) in
  let vSize := Z.of_nat (length value) in
  if (height <? 1)%nat || (maxHeight <? height)%nat
  then Panic "height cannot be less than one or greater than the max height"
  else if 2 ^ 32 - 1 <? kSize then Panic "key is too large"
  else if 2 ^ 32 - 1 <? vSize then Panic "value is too large"
  else if 2 ^ 32 - 1 <? vSize + kSize + arenaskl_maxNodeSize
  then Panic "combined key and value size is too large"
  else
    match newRawNode a height (u32 kSize) (u32 vSize) with
    | (a, None) => Ret (a, None)
    | (a, Some nd) =>
        n ← node_at a nd;
        let n := n <| keyTrailer := Trailer key |> in
        let a := put_node a nd n in
        a ← copyBytes a (keyOffset n) (keySize n) (UserKey key);
        a ← copyBytes a (u32 (keyOffset n + keySize n)) (valueSize n) value;
        Ret (a, Some nd)
    end.

(** ** Skiplists *)

(** The arena is shared between skiplists and passed along. *)
Record skiplist := mkSkl { s_head : Z; s_tail : Z; s_height : nat }.
Definition splice : Type := Z * Z.
Record Inserter := mkIns { i_spl : list splice; i_height : nat }.
(** [spl.prev = nd] *)
Definition set_prev (nd : Z) (x : splice) : splice := (nd, x.2).
Definition newInserter : Inserter := mkIns (replicate maxHeight (0, 0)) 0.

(** [head.tower[i].nextOffset.Store(tailOffset)] and the link back, for all levels. *)
Fixpoint link_ends (n : nat) (a : Arena) (head tail : Z) : go Arena :=
  match n with
  | O => Ret a
  | S n =>
      a ← set_links a head n (fun l => mkLinks tail (prevOffset l));
      a ← set_links a tail n (fun l => mkLinks (nextOffset l) head);
      link_ends n a head tail
  end.
Definition skl_Reset (a : Arena) : go (Arena * skiplist) :=
  match newRawNode a maxHeight 0 0 with
  | (_, None) => Panic "arenaSize is not large enough to hold the head node"
  | (a, Some head) =>
      n ← node_at a head;
      match newRawNode (put_node a head (n <| keyOffset := 0 |>)) maxHeight 0 0 with
      | (_, None) => Panic "arenaSize is not large enough to hold the tail node"
      | (a, Some tail) =>
          n ← node_at a tail;
          a ← link_ends maxHeight (put_node a tail (n <| keyOffset := 0 |>)) head tail;
          Ret (a, mkSkl head tail 1)
      end
  end.

Fixpoint height_loop (fuel : nat) (rnd : Z) (h : nat) : nat :=
  match fuel with
  | O => h
  | S fuel =>
      if (h <? maxHeight)%nat && (rnd <=? nth h probabilities 0) then height_loop fuel rnd (S h) else h
  end.
Definition randomHeight (a : Arena) : Arena * nat :=
  (a <| a_rand := S (a_rand a) |>, height_loop maxHeight (fastrand_Uint32 (a_rand a)) 1).

Definition skl_newNode (a : Arena) (s : skiplist) (key : InternalKey) (value : bytes) :
    go (Arena * skiplist * option (Z * nat)) :=
  let '(a, height) := randomHeight a in
  '(a, nd) ← newNode a height key value;
  match nd with
  | None => Ret (a, s, None)
  | Some nd => Ret (a, mkSkl (s_head s) (s_tail s) (Nat.max (s_height s) height), Some (nd, height))
  end.

(** A walk along a level visits no node twice. *)
Definition node_fuel (a : Arena) : nat := S (size (a_nodes a)).
Fixpoint findSpliceForLevel (fuel : nat) (a : Arena) (s : skiplist) (key : InternalKey) (level : nat) (prev : Z) :
    go (Z * Z * bool) :=
  match fuel with
  | O => Panic "unreachable"
  | S fuel =>
      next ← getNext a prev level;
      if next =? s_tail s then Ret (prev, next, false)
      else
        n ← node_at a next;
        nextKey ← buf_slice a (keyOffset n) (keySize n);
        match Compare (UserKey key) nextKey with
        | Lt => Ret (prev, next, false)
        | Eq =>
            if Trailer key =? keyTrailer n then Ret (prev, next, true)
            else if keyTrailer n <? Trailer key then Ret (prev, next, false)
            else findSpliceForLevel fuel a s key level next
        | Gt => findSpliceForLevel fuel a s key level next
        end
  end.

Definition keyIsAfterNode (a : Arena) (nd : Z) (key : InternalKey) : go bool :=
  n ← node_at a nd;
  ndKey ← buf_slice a (keyOffset n) (keySize n);
  match Compare ndKey (UserKey key) with
  | Lt => Ret true
  | Gt => Ret false
  | Eq => if Trailer key =? keyTrailer n then Ret false else Ret (Trailer key <? keyTrailer n)
  end.

(** Where the search starts: the first level, from [level] on, at which the cached splice
    is good, with its node, or the height of the list with the head. *)
Fixpoint check_splice (n level : nat) (a : Arena) (s : skiplist) (key : InternalKey) (spl : list splice) :
    go (nat * Z) :=
  match n with
  | O => Ret (s_height s, s_head s)
  | S n =>
      let '(prev, next) := nth level spl (0, 0) in
      nx ← getNext a prev level;
      if negb (nx =? next) then check_splice n (S level) a s key spl
      else
        after_prev ← (if prev =? s_head s then Ret true else keyIsAfterNode a prev key);
        if negb after_prev then Ret (s_height s, s_head s)
        else
          after_next ← (if next =? s_tail s then Ret false else keyIsAfterNode a next key);
          if (after_next : bool) then Ret (s_height s, s_head s) else Ret (level, prev)
  end.
(** The levels below [level], from the top. *)
Fixpoint descend (level : nat) (a : Arena) (s : skiplist) (key : InternalKey) (prev : Z) (spl : list splice)
    (found : bool) : go (list splice * bool) :=
  match level with
  | O => Ret (spl, found)
  | S level =>
      '(prev, next, found) ← findSpliceForLevel (node_fuel a) a s key level prev;
      let next := if next =? 0 then s_tail s else next in
      descend level a s key prev (<[level := (prev, next)]> spl) found
  end.
Definition findSplice (a : Arena) (s : skiplist) (key : InternalKey) (ins : Inserter) : go (Inserter * bool) :=
  '(height, level, prev) ←
    (if (i_height ins <? s_height s)%nat then Ret (s_height s, s_height s, s_head s)
     else '(level, prev) ← check_splice (s_height s) 0 a s key (i_spl ins); Ret (i_height ins, level, prev));
  '(spl, found) ← descend level a s key prev (i_spl ins) false;
  Ret (mkIns spl height, found).

(** Links the node at a level.  The results are whether the key was found after all, and
    whether the splice had to be computed again. *)
Fixpoint link_level (fuel : nat) (a : Arena) (s : skiplist) (key : InternalKey) (nd : Z) (i : nat) (prev next : Z)
    (invalid : bool) : go (Arena * bool * bool) :=
  match fuel with
  | O => Panic "unreachable"
  | S fuel =>
      a ← set_links a nd i (fun _ => mkLinks next prev);
      nextPrev ← getPrev a next i;
      a ← (if nextPrev =? prev then Ret a
           else
             prevNext ← getNext a prev i;
             if prevNext =? next then '(a, _) ← casPrevOffset a next i nextPrev prev; Ret a else Ret a);
      '(a, ok) ← casNextOffset a prev i next nd;
      if (ok : bool) then '(a, _) ← casPrevOffset a next i prev nd; Ret (a, false, invalid)
      else
        '(prev, next, found) ← findSpliceForLevel (node_fuel a) a s key i prev;
        if (found : bool) then
          if negb (i =? 0)%nat
          then Panic "how can another thread have inserted a node at a non-base level?"
          else Ret (a, true, invalid)
        else link_level fuel a s key nd i prev next true
  end.
(** [n] levels from [i] on. *)
Fixpoint link_levels (n i : nat) (a : Arena) (s : skiplist) (key : InternalKey) (nd : Z) (spl : list splice)
    (invalid : bool) : go (Arena * bool * bool) :=
  match n with
  | O => Ret (a, false, invalid)
  | S n =>
      let '(prev, next) := nth i spl (0, 0) in
      '(prev, next) ←
        (if prev =? 0 then
           if negb (next =? 0) then Panic "next is expected to be nil, since prev is nil"
           else Ret (s_head s, s_tail s)
         else Ret (prev, next));
      '(a, found, invalid) ← link_level (node_fuel a) a s key nd i prev next invalid;
      if (found : bool) then Ret (a, true, invalid) else link_levels n (S i) a s key nd spl invalid
  end.

Definition addInternal (a : Arena) (s : skiplist) (key : InternalKey) (value : bytes) (ins : Inserter) :
    go (Arena * skiplist * Inserter * option error) :=
  '(ins, found) ← findSplice a s key ins;
  if (found : bool) then Ret (a, s, ins, Some ErrRecordExists)
  else
    '(a, s, r) ← skl_newNode a s key value;
    match r with
    | None => Ret (a, s, ins, Some ErrArenaFull)
    | Some (nd, height) =>
        '(a, found, invalid) ← link_levels height 0 a s key nd (i_spl ins) false;
        if (found : bool) then Ret (a, s, ins, Some ErrRecordExists)
        else
          let ins :=
            if (invalid : bool) then mkIns (i_spl ins) 0
            else mkIns ((set_prev nd <$> take height (i_spl ins)) ++ drop height (i_spl ins)) (i_height ins) in
          Ret (a, s, ins, None)
    end.
Definition Inserter_Add (ins : Inserter) (a : Arena) (s : skiplist) (key : InternalKey) (value : bytes) :
    go (Arena * skiplist * Inserter * option error) := addInternal a s key value ins.
Definition Skiplist_Add (a : Arena) (s : skiplist) (key : InternalKey) (value : bytes) :
    go (Arena * skiplist * option error) :=
  '(a, s, _, err) ← addInternal a s key value newInserter; Ret (a, s, err).

(** ** Iterators *)
Record sklIter := mkSklIter {
  ai_nd : Z;
  ai_key : InternalKey;
  ai_lower : option bytes;
  ai_upper : option bytes;
}.
#[export] Instance sklIter_settable : Settable sklIter := fun i =>
  mkSklIter (ai_nd i) (ai_key i) (ai_lower i) (ai_upper i).

Definition skl_NewIter (s : skiplist) (lower upper : option bytes) : sklIter :=
  mkSklIter (s_head s) (mkInternalKey [] 0) lower upper.
Definition ai_result : Type := sklIter * option (InternalKey * bytes).

Definition ai_value (a : Arena) (it : sklIter) : go bytes := n ← node_at a (ai_nd it); getValue a n.
Definition decodeKey (a : Arena) (it : sklIter) : go sklIter :=
  n ← node_at a (ai_nd it);
  key ← getKeyBytes a n;
  Ret (it <| ai_key := mkInternalKey key (keyTrailer n) |>).

(** The ends of the operations that move forward and backward: the entry at the node,
    unless it is the tail or the head, or out of bounds. *)
Definition ai_forward (a : Arena) (s : skiplist) (it : sklIter) : go ai_result :=
  if ai_nd it =? s_tail s then Ret (it, None)
  else
    it ← decodeKey a it;
    let out := match ai_upper it with
      | Some upper => bool_decide (Compare upper (UserKey (ai_key it)) <> Gt)
      | None => false end in
    if out then Ret (it <| ai_nd := s_tail s |>, None)
    else v ← ai_value a it; Ret (it, Some (ai_key it, v)).
Definition ai_backward (a : Arena) (s : skiplist) (it : sklIter) : go ai_result :=
  if ai_nd it =? s_head s then Ret (it, None)
  else
    it ← decodeKey a it;
    let out := match ai_lower it with
      | Some lower => bool_decide (Compare lower (UserKey (ai_key it)) = Gt)
      | None => false end in
    if out then Ret (it <| ai_nd := s_head s |>, None)
    else v ← ai_value a it; Ret (it, Some (ai_key it, v)).

Definition ai_First (a : Arena) (s : skiplist) (it : sklIter) : go ai_result :=
  nd ← getNext a (s_head s) 0; ai_forward a s (it <| ai_nd := nd |>).
Definition ai_Last (a : Arena) (s : skiplist) (it : sklIter) : go ai_result :=
  nd ← getPrev a (s_tail s) 0; ai_backward a s (it <| ai_nd := nd |>).
Definition ai_Next (a : Arena) (s : skiplist) (it : sklIter) : go ai_result :=
  nd ← getNext a (ai_nd it) 0; ai_forward a s (it <| ai_nd := nd |>).
Definition ai_Prev (a : Arena) (s : skiplist) (it : sklIter) : go ai_result :=
  nd ← getPrev a (ai_nd it) 0; ai_backward a s (it <| ai_nd := nd |>).

(** From the top [level] down to the base. *)
Fixpoint seek_levels (level : nat) (a : Arena) (s : skiplist) (ikey : InternalKey) (prev : Z) : go (Z * Z * bool) :=
  '(prev, next, found) ← findSpliceForLevel (node_fuel a) a s ikey level prev;
  if (found : bool) then
    prev ← (if negb (level =? 0)%nat then getPrev a next 0 else Ret prev);
    Ret (prev, next, found)
  else
    match level with
    | O => Ret (prev, next, found)
    | S level => seek_levels level a s ikey prev
    end.
Definition seekForBaseSplice (a : Arena) (s : skiplist) (key : bytes) : go (Z * Z * bool) :=
  seek_levels (s_height s - 1) a s (MakeSearchKey key) (s_head s).

(** At most [n] calls of [Next] while the key is less: the iterator is done, at the entry,
    or still before it. *)
Inductive ai_tried := TryDone | TryAt (r : option (InternalKey * bytes)) | TryLess.
Fixpoint try_next (n : nat) (a : Arena) (s : skiplist) (it : sklIter) (key : bytes) : go (sklIter * ai_tried) :=
  if bool_decide (Compare (UserKey (ai_key it)) key = Lt) then
    match n with
    | O => Ret (it, TryLess)
    | S n =>
        '(it, k) ← ai_Next a s it;
        match k with
        | None => Ret (it, TryDone)
        | Some _ => try_next n a s it key
        end
    end
  else v ← ai_value a it; Ret (it, TryAt (Some (ai_key it, v))).
Definition ai_seek (a : Arena) (s : skiplist) (it : sklIter) (key : bytes) : go ai_result :=
  '(_, nd, _) ← seekForBaseSplice a s key; ai_forward a s (it <| ai_nd := nd |>).
Definition ai_SeekGE (a : Arena) (s : skiplist) (it : sklIter) (key : bytes) (trySeekUsingNext : bool) : go ai_result :=
  if trySeekUsingNext then
    if ai_nd it =? s_tail s then Ret (it, None)
    else
      '(it, t) ← try_next 5 a s it key;
      match t with
      | TryDone => Ret (it, None)
      | TryAt r => Ret (it, r)
      | TryLess => ai_seek a s it key
      end
  else ai_seek a s it key.
Definition ai_SeekPrefixGE (a : Arena) (s : skiplist) (it : sklIter) (prefix key : bytes) (trySeekUsingNext : bool) :
    go ai_result := ai_SeekGE a s it key trySeekUsingNext.
Definition ai_NextPrefix (a : Arena) (s : skiplist) (it : sklIter) (succKey : bytes) : go ai_result :=
  ai_SeekGE a s it succKey true.
Definition ai_SeekLT (a : Arena) (s : skiplist) (it : sklIter) (key : bytes) : go ai_result :=
  '(nd, _, _) ← seekForBaseSplice a s key; ai_backward a s (it <| ai_nd := nd |>).
Definition ai_SetBounds (it : sklIter) (lower upper : option bytes) : sklIter :=
  it <| ai_lower := lower |> <| ai_upper := upper |>.

(** All entries: what a loop over an iterator without bounds sees. *)
Fixpoint ai_loop (fuel : nat) (a : Arena) (s : skiplist) (r : ai_result) : go (list (InternalKey * bytes)) :=
  match r, fuel with
  | (_, None), _ => Ret []
  | _, O => Panic "unreachable"
  | (it, Some e), S fuel => r ← ai_Next a s it; l ← ai_loop fuel a s r; Ret (e :: l)
  end.
Definition skl_entries (a : Arena) (s : skiplist) : go (list (InternalKey * bytes)) :=
  r ← ai_First a s (skl_NewIter s None None); ai_loop (node_fuel a) a s r.

(** ** Flush iterators *)

(** They have no bounds and count the bytes of the nodes they visit. *)
Definition flushIter_First (a : Arena) (s : skiplist) (it : sklIter) (bytesIterated : Z) : go (ai_result * Z) :=
  '(it, e) ← ai_First a s it;
  match e with
  | None => Ret ((it, None), bytesIterated)
  | Some e =>
      n ← node_at a (ai_nd it);
      Ret ((it, Some e), u64 (bytesIterated + allocSize n))
  end.
Definition flushIter_Next (a : Arena) (s : skiplist) (it : sklIter) (bytesIterated : Z) : go (ai_result * Z) :=
  nd ← getNext a (ai_nd it) 0;
  let it := it <| ai_nd := nd |> in
  if nd =? s_tail s then Ret ((it, None), bytesIterated)
  else
    it ← decodeKey a it;
    n ← node_at a nd;
    v ← ai_value a it;
    Ret ((it, Some (ai_key it, v)), u64 (bytesIterated + allocSize n)).
End arenaskl.
