(* ===== verification/ArenasklAlloc.v ===== *)
(** Allocation of nodes in an arena (Arenaskl.v): nodes do not overlap and stay in the
    buffer, and setting links changes nothing else. *)
From S2P Require Import Prelude.
From S2P Require Import Comparer.
From S2P Require Import InternalKey.
From S2P Require Import Arenaskl.

Local Open Scope Z_scope.

(** ** Contents *)
Definition ht (a : Arena) (o : Z) : nat :=
  match a_nodes a !! o with Some n => length (tower n) | None => O end.
Definition link (a : Arena) (o : Z) (i : nat) : option links :=
  match a_nodes a !! o with Some n => tower n !! i | None => None end.
Definition nx (a : Arena) (i : nat) (o : Z) : option Z := nextOffset <$> link a o i.
Definition pv (a : Arena) (i : nat) (o : Z) : option Z := prevOffset <$> link a o i.

Definition node_key (a : Arena) (n : node) : InternalKey :=
  mkInternalKey (slice (a_buf a) (Z.to_nat (keyOffset n)) (Z.to_nat (keyOffset n + keySize n))) (keyTrailer n).
Definition node_value (a : Arena) (n : node) : bytes :=
  slice (a_buf a) (Z.to_nat (keyOffset n + keySize n)) (Z.to_nat (keyOffset n + keySize n + valueSize n)).
Definition okey (a : Arena) (o : Z) : InternalKey :=
  match a_nodes a !! o with Some n => node_key a n | None => mkInternalKey [] 0 end.
Definition ovalue (a : Arena) (o : Z) : bytes :=
  match a_nodes a !! o with Some n => node_value a n | None => [] end.

(** The key and the value of a node are in the part of the buffer that is in use. *)
Definition node_ok (a : Arena) (n : node) : Prop :=
  0 < keyOffset n /\ 0 <= keySize n /\ 0 <= valueSize n /\
  keyOffset n + keySize n + valueSize n <= a_n a /\ keyOffset n + keySize n + valueSize n <= a_len a.
Definition entry_ok (a : Arena) (o : Z) : Prop := exists n, a_nodes a !! o = Some n /\ node_ok a n.

(** After a failed allocation the size may be beyond the end of the buffer, once. *)
Record arena_ok (a : Arena) : Prop := {
  aok_n : 1 <= a_n a < 2 ^ 34;
  aok_len : a_len a < 2 ^ 32;
  aok_nodes o n : a_nodes a !! o = Some n -> 0 < o < a_n a;
}.

(** Two arenas that differ in links only. *)
Definition no_tower (n : node) : node := n <| tower := [] |>.
Record same (a a' : Arena) : Prop := {
  same_n : a_n a' = a_n a;
  same_buf : a_buf a' = a_buf a;
  same_nodes o : no_tower <$> a_nodes a' !! o = no_tower <$> a_nodes a !! o;
  same_ht o : ht a' o = ht a o;
}.

Lemma same_refl a : same a a.
Proof. done. Qed.
Lemma same_trans a b c : same a b -> same b c -> same a c.
Proof. intros [] []. split; congruence. Qed.

Lemma same_lookup a a' o n :
  same a a' -> a_nodes a !! o = Some n -> exists n', a_nodes a' !! o = Some n' /\ no_tower n' = no_tower n.
Proof.
  intros H Hn. pose proof (same_nodes _ _ H o) as E. rewrite Hn in E.
  destruct (a_nodes a' !! o) as [n'|]; [|done]. exists n'. split; [done|].
  by apply (inj Some) in E.
Qed.
Lemma no_tower_key a n n' : no_tower n' = no_tower n -> node_key a n' = node_key a n.
Proof. destruct n, n'. unfold no_tower. cbn. intros [= -> -> -> -> ->]. done. Qed.
Lemma no_tower_value a n n' : no_tower n' = no_tower n -> node_value a n' = node_value a n.
Proof. destruct n, n'. unfold no_tower. cbn. intros [= -> -> -> -> ->]. done. Qed.
Lemma no_tower_ok a n n' : no_tower n' = no_tower n -> node_ok a n -> node_ok a n'.
Proof. destruct n, n'. unfold no_tower. cbn. intros [= -> -> -> -> ->]. done. Qed.

Lemma same_contents a a' o : same a a' -> okey a' o = okey a o /\ ovalue a' o = ovalue a o.
Proof.
  intros H. pose proof (same_nodes _ _ H o) as E. unfold okey, ovalue, node_key, node_value.
  rewrite (same_buf _ _ H).
  destruct (a_nodes a' !! o) as [n'|], (a_nodes a !! o) as [n|]; try done. apply (inj Some) in E.
  destruct n, n'. unfold no_tower in E. cbn in *. by simplify_eq.
Qed.
Lemma same_entry_ok a a' o : same a a' -> entry_ok a o -> entry_ok a' o.
Proof.
  intros H (n & Hn & Hok). destruct (same_lookup _ _ _ _ H Hn) as (n' & Hn' & E).
  exists n'. split; [done|]. apply (no_tower_ok _ n); [done|]. unfold node_ok, a_len in *.
  by rewrite (same_n _ _ H), (same_buf _ _ H).
Qed.
Lemma same_arena_ok a a' : same a a' -> arena_ok a -> arena_ok a'.
Proof.
  intros H [H1 H2 H3]. split.
  - by rewrite (same_n _ _ H).
  - unfold a_len. by rewrite (same_buf _ _ H).
  - intros o n Hn. rewrite (same_n _ _ H). pose proof (same_nodes _ _ H o) as E. rewrite Hn in E.
    destruct (a_nodes a !! o) as [n0|] eqn:E0; [|done]. by apply (H3 o n0).
Qed.
Lemma same_dom a a' : same a a' -> dom (a_nodes a') = dom (a_nodes a).
Proof.
  intros H. apply set_eq. intros o. rewrite !elem_of_dom. pose proof (same_nodes _ _ H o) as E.
  destruct (a_nodes a' !! o), (a_nodes a !! o); try done.
Qed.
Lemma same_fuel a a' : same a a' -> node_fuel a' = node_fuel a.
Proof. intros H. unfold node_fuel. by rewrite <- !size_dom, (same_dom a a' H). Qed.

(** ** Links *)
Lemma get_links_ok a o i l : link a o i = Some l -> get_links a o i = Ret l.
Proof.
  unfold link, get_links, node_at. destruct (a_nodes a !! o); [|done]. rewrite bind_Ret. by intros ->.
Qed.
Lemma getNext_ok a o i y : nx a i o = Some y -> getNext a o i = Ret y.
Proof.
  unfold nx, getNext. destruct (link a o i) as [l|] eqn:El; [|done]. intros [= <-].
  by rewrite (get_links_ok _ _ _ _ El), bind_Ret.
Qed.
Lemma getPrev_ok a o i y : pv a i o = Some y -> getPrev a o i = Ret y.
Proof.
  unfold pv, getPrev. destruct (link a o i) as [l|] eqn:El; [|done]. intros [= <-].
  by rewrite (get_links_ok _ _ _ _ El), bind_Ret.
Qed.
Lemma link_lt a o i : (i < ht a o)%nat <-> is_Some (link a o i).
Proof. unfold ht, link. destruct (a_nodes a !! o); [by rewrite lookup_lt_is_Some|]. split; [lia|by intros []]. Qed.

(** The arena with other links at a place. *)
Definition upd (a : Arena) (o : Z) (i : nat) (l : links) : Arena :=
  match a_nodes a !! o with
  | Some n => put_node a o (n <| tower := <[i := l]> (tower n) |>)
  | None => a
  end.

Lemma set_links_ok a o i f l : link a o i = Some l -> set_links a o i f = Ret (upd a o i (f l)).
Proof.
  unfold link, set_links, node_at, upd. destruct (a_nodes a !! o); [|done]. rewrite bind_Ret. by intros ->.
Qed.
Lemma upd_same a o i l : same a (upd a o i l).
Proof.
  unfold upd. destruct (a_nodes a !! o) as [n|] eqn:E; [|done]. split; [done|done| |].
  - intros o'. cbn. destruct (decide (o' = o)) as [->|].
    + rewrite lookup_insert, E. by rewrite decide_True by done.
    + by rewrite lookup_insert_ne by done.
  - intros o'. unfold ht. cbn. destruct (decide (o' = o)) as [->|].
    + rewrite lookup_insert, E, decide_True by done. cbn. by rewrite length_insert.
    + by rewrite lookup_insert_ne by done.
Qed.
Lemma link_upd a o i l o' j :
  is_Some (link a o i) ->
  link (upd a o i l) o' j = if decide (o' = o /\ j = i) then Some l else link a o' j.
Proof.
  intros Hs. unfold link, upd in *. destruct (a_nodes a !! o) as [n|] eqn:E; [|by destruct Hs].
  apply lookup_lt_is_Some in Hs. cbn. destruct (decide (o' = o)) as [->|Ho].
  - rewrite lookup_insert, decide_True, E by done. cbn. destruct (decide (j = i)) as [->|].
    + rewrite decide_True by done. by apply list_lookup_insert_eq.
    + rewrite decide_False by (intros []; done). by apply list_lookup_insert_ne.
  - rewrite lookup_insert_ne by done. rewrite decide_False by (intros []; done). done.
Qed.

(** ** Allocation *)

(** An arena with more nodes and more of its buffer in use. *)
Record extends (a a' : Arena) : Prop := {
  ext_n : a_n a <= a_n a';
  ext_len : a_len a' = a_len a;
  ext_nodes o n : a_nodes a !! o = Some n -> a_nodes a' !! o = Some n;
  ext_buf j k : (k <= Z.to_nat (a_n a))%nat -> slice (a_buf a') j k = slice (a_buf a) j k;
}.
Lemma extends_refl a : extends a a.
Proof. done. Qed.
Lemma extends_trans a b c : extends a b -> extends b c -> extends a c.
Proof.
  intros [] []. split; [lia|congruence|auto|].
  intros j k Hk. rewrite ext_buf1 by lia. auto.
Qed.
Lemma extends_entry a a' o :
  extends a a' -> entry_ok a o ->
  entry_ok a' o /\ okey a' o = okey a o /\ ovalue a' o = ovalue a o /\ a_nodes a' !! o = a_nodes a !! o.
Proof.
  intros H (n & Hn & Hok). pose proof (ext_nodes _ _ H o n Hn) as Hn'.
  pose proof (ext_n _ _ H). pose proof (ext_len _ _ H). pose proof Hok as (? & ? & ? & ? & ?).
  unfold entry_ok, okey, ovalue, node_key, node_value. rewrite Hn, Hn'.
  rewrite !(ext_buf _ _ H) by lia. split; [|done]. exists n. split; [done|]. unfold node_ok. lia.
Qed.

(** Rounding down to a multiple of four, as the code does it for a uint32. *)
Lemma align_down x : 0 <= x < 2 ^ 32 -> Z.land x (u32 (Z.lnot (nodeAlignment - 1))) = x - x mod 4.
Proof.
  intros Hx. change (u32 (Z.lnot (nodeAlignment - 1))) with (2 ^ 32 - 4).
  replace (2 ^ 32 - 4) with (Z.ldiff (2 ^ 32 - 1) 3) by reflexivity.
  apply Z.bits_inj'. intros n Hn. rewrite Z.land_spec, Z.ldiff_spec.
  replace (x - x mod 4) with (Z.ldiff x (Z.ones 2)).
  - rewrite Z.ldiff_spec. change (Z.ones 2) with 3. change (2 ^ 32 - 1) with (Z.ones 32).
    destruct (decide (n < 32)).
    + rewrite Z.ones_spec_low by lia. by rewrite andb_true_l.
    + assert (Z.testbit x n = false) as ->; [|done].
      destruct (decide (x = 0)) as [->|]; [apply Z.bits_0|].
      apply Z.bits_above_log2; [lia|]. apply Z.lt_le_trans with 32; [apply Z.log2_lt_pow2; lia|lia].
  - rewrite Z.ldiff_ones_r, Z.shiftl_mul_pow2, Z.shiftr_div_pow2 by lia. change (2 ^ 2) with 4.
    pose proof (Z.div_mod x 4 ltac:(lia)). lia.
Qed.

Lemma alloc_spec a size overflow :
  arena_ok a -> 0 <= size < 2 ^ 32 -> 0 <= overflow < 2 ^ 32 ->
  match alloc a size nodeAlignment overflow with
  | (a', None) => (exists n, a' = a <| a_n := n |> /\ a_n a <= n < 2 ^ 34) /\
      a_len a < a_n a + size + 3 + overflow
  | (a', Some (offset, allocated)) =>
      a' = a <| a_n := a_n a + size + 3 |> /\ allocated = u32 (size + 3) /\
      a_n a <= offset /\ offset + size <= a_n a + size + 3 /\ offset mod 4 = 0 /\
      a_n a + size + 3 + overflow <= a_len a
  end.
Proof.
  intros [H1 H2 _] Hs Ho. unfold alloc. destruct (Z.ltb_spec (a_len a) (a_n a)) as [Hf|Hf].
  - split; [exists (a_n a); split; [by destruct a|lia]|lia].
  - assert (a_len (a <| a_n := u64 (a_n a + (size + nodeAlignment - 1)) |>) = a_len a) as -> by done.
    change nodeAlignment with 4. rewrite (u64_small (a_n a + _)) by lia. rewrite u64_small by lia.
    destruct (Z.ltb_spec (a_len a) (a_n a + (size + 4 - 1) + overflow)).
    + split; [|lia]. eexists. split; [done|]. lia.
    + replace (a_n a + (size + 4 - 1)) with (a_n a + size + 3) by lia.
      rewrite (u32_small (a_n a + size + 3)), (u32_small (_ - size)) by lia.
      change (u32 (Z.lnot (4 - 1))) with (u32 (Z.lnot (nodeAlignment - 1))). rewrite align_down by lia.
      set (x := a_n a + size + 3 - size). pose proof (Z.mod_pos_bound x 4 ltac:(lia)).
      split; [done|]. split; [f_equal; lia|]. unfold x in *. split; [lia|]. split; [lia|]. split; [|lia].
      by rewrite Zminus_mod, Z.mod_mod, Z.sub_diag by lia.
Qed.

Section nodes.
Context {E : ArenaEnv}.

(** The space a node takes, with the part of the tower it does not have. *)
Definition room (a : Arena) (kSize vSize : Z) : Prop := a_n a + arenaskl_maxNodeSize + 3 + kSize + vSize <= a_len a.

Lemma newRawNode_spec a height kSize vSize :
  arena_ok a -> (1 <= height <= maxHeight)%nat -> 0 <= kSize -> 0 <= vSize ->
  kSize + vSize + arenaskl_maxNodeSize < 2 ^ 32 ->
  match newRawNode a height kSize vSize with
  | (a', None) => (exists n, a' = a <| a_n := n |> /\ a_n a <= n < 2 ^ 34) /\ ~ room a kSize vSize
  | (a', Some nd) => exists n al,
      let nodeSize := 24 + Z.of_nat height * linksSize in
      a' = put_node (a <| a_n := n |>) nd
        (mkNode (nd + nodeSize) kSize 0 vSize al (stale nd <$> seq 0 height)) /\
      a_n a <= nd /\ nd + nodeSize + kSize + vSize <= n /\
      n = a_n a + nodeSize + 3 + kSize + vSize /\ room a kSize vSize
  end.
Proof.
  intros Ha Hh Hk Hv Hkv. unfold newRawNode. change arenaskl_maxNodeSize with 184 in *.
  change linksSize with 8. unfold maxHeight in *.
  assert (Z.of_nat (20 - height) = 20 - Z.of_nat height) as -> by lia.
  rewrite (u32_small ((20 - Z.of_nat height) * 8)) by lia. rewrite (u32_small (184 - _)) by lia.
  rewrite (u32_small (184 - _ + kSize)) by lia. rewrite (u32_small (184 - _ + kSize + vSize)) by lia.
  set (size := 184 - (20 - Z.of_nat height) * 8 + kSize + vSize).
  pose proof (alloc_spec a size ((20 - Z.of_nat height) * 8) Ha ltac:(lia) ltac:(lia)) as Hspec.
  destruct (alloc _ _ _ _) as [a' [[nd al]|]].
  - destruct Hspec as (-> & _ & H1 & H2 & _ & H3). pose proof (aok_len _ Ha).
    pose proof (aok_n _ Ha). exists (a_n a + size + 3), al. unfold size, room in *.
    rewrite u32_small by lia. split; [|change arenaskl_maxNodeSize with 184; lia].
    do 2 f_equal. lia.
  - destruct Hspec as [Hn Hfull]. split; [done|]. unfold room, size in *.
    change arenaskl_maxNodeSize with 184. lia.
Qed.

Lemma copy_at_buf a offset size src :
  0 < offset -> 0 <= size -> offset + size <= a_len a -> a_len a < 2 ^ 32 -> Z.of_nat (length src) = size ->
  copyBytes a offset size src = Ret (a <| a_buf := copy_at (a_buf a) (Z.to_nat offset) src |>).
Proof.
  intros Ho Hs Hl Hlen Hsrc. unfold copyBytes, getBytes, buf_slice.
  rewrite (proj2 (Z.eqb_neq _ _)), u32_small by lia.
  rewrite (proj2 (Z.ltb_ge (offset + size) offset)), (proj2 (Z.ltb_ge (a_len a) _)) by lia.
  cbn [orb]. rewrite bind_Ret. rewrite take_ge; [done|]. unfold a_len in *. rewrite length_slice. lia.
Qed.

Lemma slice_copy_at_same (l src : bytes) i k :
  (k = i + length src)%nat -> (k <= length l)%nat -> slice (copy_at l i src) i k = src.
Proof.
  intros -> Hl. rewrite slice_copy_at_extend by lia. rewrite slice_nil, app_nil_l. apply take_ge. lia.
Qed.

(** A new node has its key and value and does not touch what is there. *)
Lemma newNode_ok a height key value :
  arena_ok a -> (1 <= height <= maxHeight)%nat ->
  let k := Z.of_nat (length (UserKey key)) in
  let v := Z.of_nat (length value) in
  k + v + arenaskl_maxNodeSize < 2 ^ 32 ->
  exists a' r, newNode a height key value = Ret (a', r) /\ arena_ok a' /\ extends a a' /\ a_rand a' = a_rand a /\
    match r with
    | None => ~ room a k v /\ a_nodes a' = a_nodes a
    | Some nd => room a k v /\ a_n a < a_n a' <= a_n a + arenaskl_maxNodeSize + 3 + k + v /\
        a_nodes a !! nd = None /\ nd <> 0 /\ entry_ok a' nd /\ okey a' nd = key /\ ovalue a' nd = value /\
        ht a' nd = height /\ forall o, o <> nd -> a_nodes a' !! o = a_nodes a !! o
    end.
Proof.
  intros Ha Hh k v Hkv. pose proof (aok_n _ Ha) as Hn. pose proof (aok_len _ Ha) as Hlen.
  unfold newNode. fold k v. change arenaskl_maxNodeSize with 184 in *. unfold maxHeight in *.
  rewrite (proj2 (Nat.ltb_ge height 1)), (proj2 (Nat.ltb_ge 20 height)) by lia. cbn [orb].
  rewrite !(proj2 (Z.ltb_ge (2 ^ 32 - 1) _)) by lia. rewrite !u32_small by lia.
  pose proof (newRawNode_spec a height k v Ha Hh ltac:(lia) ltac:(lia) Hkv) as Hspec.
  destruct (newRawNode a height k v) as [a' [nd|]].
  - destruct Hspec as (n & al & -> & H1 & H2 & H3 & H4). unfold room in H4.
    change arenaskl_maxNodeSize with 184 in *. change linksSize with 8 in *.
    set (n0 := mkNode _ _ _ _ _ _). set (a1 := put_node _ nd n0).
    assert (a_nodes a1 !! nd = Some n0) as E1 by (cbn; by rewrite lookup_insert, decide_True by done).
    unfold node_at. rewrite E1, bind_Ret. set (n1 := n0 <| keyTrailer := Trailer key |>).
    assert (keyOffset n1 = nd + (24 + Z.of_nat height * 8) /\ keySize n1 = k /\ valueSize n1 = v)
      as (K1 & K2 & K3) by done.
    assert (a_len (put_node a1 nd n1) = a_len a) as El by done.
    rewrite K1, K2, K3, u32_small, copy_at_buf, bind_Ret by (rewrite ?El; lia).
    rewrite copy_at_buf by (unfold a_len in *; cbn; rewrite ?length_copy_at; lia). rewrite bind_Ret.
    set (a2 := _ <| a_buf := _ |>). exists a2, (Some nd).
    assert (a_nodes a2 = <[nd := n1]> (<[nd := n0]> (a_nodes a))) as En by done.
    assert (a_nodes a2 !! nd = Some n1) as E2 by (rewrite En; by rewrite lookup_insert, decide_True by done).
    assert (forall o, o <> nd -> a_nodes a2 !! o = a_nodes a !! o) as E3.
    { intros o Ho. rewrite En. by rewrite !lookup_insert_ne by done. }
    assert (a_n a2 = n) as En2 by done.
    assert (a_len a2 = a_len a) as El2 by (unfold a_len; cbn; by rewrite !length_copy_at).
    assert (a_nodes a !! nd = None) as Hfresh.
    { destruct (a_nodes a !! nd) as [n'|] eqn:E'; [|done]. pose proof (aok_nodes _ Ha nd n' E'). lia. }
    split; [done|]. split; [|split; [|split; [done|]]].
    + split; [lia|by rewrite El2|]. intros o n' Hn'. rewrite En2. destruct (decide (o = nd)) as [->|]; [lia|].
      rewrite E3 in Hn' by done. pose proof (aok_nodes _ Ha o n' Hn'). lia.
    + split; [lia|done| |].
      * intros o n' Hn'. rewrite E3; [done|]. intros ->. congruence.
      * intros j k' Hk'. unfold a2. cbn. by rewrite !slice_copy_at_before by lia.
    + split; [done|]. split; [lia|]. split; [done|]. split; [lia|].
      assert (node_ok a2 n1) as Hok by (unfold node_ok; rewrite K1, K2, K3, En2, El2; lia).
      split; [by exists n1|]. unfold okey, ovalue, ht, node_key, node_value. rewrite E2, K1, K2, K3.
      unfold a_len in *. unfold a2. cbn [a_buf set]. cbn. split; [|split; [|split; [|done]]].
      * rewrite slice_copy_at_before by lia. rewrite slice_copy_at_same by lia. by destruct key.
      * apply slice_copy_at_same; [lia|]. rewrite length_copy_at. lia.
      * by rewrite length_fmap, length_seq.
  - destruct Hspec as ((n & -> & H1) & H2). eexists _, None. split; [done|].
    split; [|split; [|split; [done|split; done]]].
    + split; cbn; [lia|done|]. intros o n' Hn'. pose proof (aok_nodes _ Ha o n' Hn'). lia.
    + split; cbn; [lia|done|done|done].
Qed.
End nodes.
