(* ===== verification/ArenasklSpec.v ===== *)
(** The skiplist of Arenaskl.v holds a sorted list: its levels are sublists of the base
    level, linked in both directions.  Searching and the splices that inserters keep. *)
From S2P Require Import Prelude.
From S2P Require Import Comparer.
From S2P Require Import InternalKey.
From S2P Require Import GoStd.
From S2P Require Import Arenaskl.
From S2P Require Import ArenasklAlloc.
From stdpp Require Import sorting.

Local Open Scope Z_scope.

(** ** Levels *)

(** The nodes of a chain point to each other. *)
Fixpoint linked (a : Arena) (i : nat) (c : list Z) : Prop :=
  match c with
  | x :: (y :: _) as c' => nx a i x = Some y /\ pv a i y = Some x /\ linked a i c'
  | _ => True
  end.
(** The nodes that reach a level. *)
Definition lvl (a : Arena) (i : nat) (os : list Z) : list Z := filter (fun o => (i < ht a o)%nat) os.

Lemma linked_cons a i x y c : linked a i (x :: y :: c) <-> nx a i x = Some y /\ pv a i y = Some x /\ linked a i (y :: c).
Proof. done. Qed.
Lemma linked_app a i c x c' : linked a i (c ++ x :: c') <-> linked a i (c ++ [x]) /\ linked a i (x :: c').
Proof.
  induction c as [|y c IH]; [cbn [app]; destruct c'; cbn; tauto|].
  destruct c as [|z c]; cbn [app] in *.
  - destruct c'; cbn; tauto.
  - rewrite !linked_cons, IH. tauto.
Qed.

(** Chains only depend on the links of their nodes. *)
Lemma linked_frame a a' i c :
  (forall o, o ∈ c -> link a' o i = link a o i) -> linked a i c -> linked a' i c.
Proof.
  induction c as [|x [|y c] IH]; [done|done|]. intros Hf. rewrite !linked_cons. unfold nx, pv.
  rewrite (Hf x), (Hf y) by (rewrite !elem_of_cons; auto).
  intros (? & ? & ?). split; [done|]. split; [done|]. apply IH; [|done].
  intros o Ho. apply Hf. by apply list_elem_of_further.
Qed.

Lemma lvl_app a i l l' : lvl a i (l ++ l') = lvl a i l ++ lvl a i l'.
Proof. apply filter_app. Qed.
Lemma elem_of_lvl a i o os : o ∈ lvl a i os <-> (i < ht a o)%nat /\ o ∈ os.
Proof. unfold lvl. by rewrite list_elem_of_filter. Qed.
Lemma lvl_lvl a i j o os : (i <= j)%nat -> o ∈ lvl a j os -> o ∈ lvl a i os.
Proof. rewrite !elem_of_lvl. intros ? [? ?]. split; [lia|done]. Qed.
Lemma lvl_Forall (P : Z -> Prop) a i os : Forall P os -> Forall P (lvl a i os).
Proof. rewrite !Forall_forall. intros HP o Ho. apply HP. by apply elem_of_lvl in Ho as [_ ?]. Qed.
Lemma lvl_frame a a' i os : (forall o, o ∈ os -> ht a' o = ht a o) -> lvl a' i os = lvl a i os.
Proof.
  intros Hf. induction os as [|o os IH]; [done|]. unfold lvl in *. rewrite !filter_cons.
  rewrite (Hf o) by apply list_elem_of_here. rewrite IH; [done|].
  intros o' Ho. apply Hf. by apply list_elem_of_further.
Qed.

Lemma lvl_sorted (R : relation Z) a i l : StronglySorted R l -> StronglySorted R (lvl a i l).
Proof.
  induction 1 as [|x l Hs IH Hx]; [constructor|]. unfold lvl in *. rewrite filter_cons. case_decide; [|done].
  constructor; [done|]. by apply (lvl_Forall _ a i l).
Qed.

Section spec.
Context {C : Comparer} {L : ComparerLaws C} {E : ArenaEnv}.

Definition okey_lt (a : Arena) (k : InternalKey) (o : Z) : Prop := InternalCompare (okey a o) k = Lt.

(** The skiplist holds the nodes, in this order. *)
Record Skl (a : Arena) (s : skiplist) (os : list Z) : Prop := {
  skl_head : ht a (s_head s) = maxHeight;
  skl_tail : ht a (s_tail s) = maxHeight;
  skl_nodup : NoDup (s_head s :: s_tail s :: os);
  skl_height : (1 <= s_height s <= maxHeight)%nat;
  skl_entries_ok : Forall (entry_ok a) os;
  skl_heights : Forall (fun o => (1 <= ht a o <= s_height s)%nat) os;
  skl_linked i : (i < maxHeight)%nat -> linked a i (s_head s :: lvl a i os ++ [s_tail s]);
  skl_sorted : StronglySorted (fun x y => okey_lt a (okey a y) x) os;
}.

(** Before and after a position; the head is before and the tail after all keys. *)
Definition before (a : Arena) (s : skiplist) (k : InternalKey) (o : Z) : Prop := o = s_head s \/ okey_lt a k o.
Definition after (a : Arena) (s : skiplist) (k : InternalKey) (o : Z) : Prop := o = s_tail s \/ ~ okey_lt a k o.

#[export] Instance okey_lt_dec a k o : Decision (okey_lt a k o).
Proof. unfold okey_lt. apply _. Defined.
#[export] Instance before_dec a s k o : Decision (before a s k o).
Proof. unfold before. apply _. Defined.
#[export] Instance after_dec a s k o : Decision (after a s k o).
Proof. unfold after. apply _. Defined.

(** ** The position of a key *)

(** The nodes before the key and the others. *)
Record split_at (a : Arena) (k : InternalKey) (os p q : list Z) : Prop := {
  split_eq : os = p ++ q;
  split_before : Forall (okey_lt a k) p;
  split_after : Forall (fun o => ~ okey_lt a k o) q;
}.

Lemma okey_lt_trans a k x y : okey_lt a (okey a y) x -> okey_lt a k y -> okey_lt a k x.
Proof. unfold okey_lt. apply InternalCompare_trans. Qed.

Lemma split_exists a k os :
  StronglySorted (fun x y => okey_lt a (okey a y) x) os -> exists p q, split_at a k os p q.
Proof.
  induction 1 as [|x os Hs (p & q & [-> Hp Hq]) Hx]; [by exists [], []|].
  destruct (okey_lt_dec a k x) as [Hlt|Hge].
  - exists (x :: p), q. split; [done|by constructor|done].
  - exists [], (x :: p ++ q). split; [done|constructor|]. constructor; [done|].
    apply Forall_forall. intros y Hy Hlt. rewrite Forall_forall in Hx.
    apply Hge. by apply (okey_lt_trans a k x y); [apply Hx|].
Qed.

(** The neighbours of the key at a level. *)
Definition pred_at (a : Arena) (s : skiplist) (i : nat) (p : list Z) : Z := default (s_head s) (last (lvl a i p)).
Definition succ_at (a : Arena) (s : skiplist) (i : nat) (q : list Z) : Z := default (s_tail s) (head (lvl a i q)).

(** ** Walking along a level *)
Lemma buf_slice_ok a n : arena_ok a -> node_ok a n -> buf_slice a (keyOffset n) (keySize n) = Ret (UserKey (node_key a n)).
Proof.
  intros Ha (H1 & H2 & H3 & H4 & H5). pose proof (aok_len _ Ha). unfold buf_slice.
  rewrite u32_small by lia. rewrite (proj2 (Z.ltb_ge (_ + _) _)), (proj2 (Z.ltb_ge (a_len a) _)) by lia. done.
Qed.

(** The comparison the walk makes is the one of internal keys. *)
Lemma walk_compare {A} k k' (x y z : A) :
  match Compare (UserKey k) (UserKey k') with
  | Lt => x
  | Eq => if Trailer k =? Trailer k' then y else if Trailer k' <? Trailer k then x else z
  | Gt => z
  end = match InternalCompare k k' with Lt => x | Eq => y | Gt => z end.
Proof.
  unfold InternalCompare. destruct (Compare (UserKey k) (UserKey k')); [|done|done].
  destruct (Z.eqb_spec (Trailer k) (Trailer k')) as [->|]; [by rewrite Z.ltb_irrefl|].
  destruct (Z.ltb_spec (Trailer k') (Trailer k)); [done|]. by rewrite (proj2 (Z.ltb_lt _ _)) by lia.
Qed.
Lemma not_lt_compare a k o : ~ okey_lt a k o -> InternalCompare k (okey a o) <> Gt.
Proof. unfold okey_lt. rewrite InternalCompare_antisym. by destruct (InternalCompare k (okey a o)). Qed.

Lemma findSpliceForLevel_ok a s k i : forall p fuel prev q,
  arena_ok a -> linked a i (prev :: p ++ q ++ [s_tail s]) -> Forall (entry_ok a) (p ++ q) ->
  s_tail s ∉ p ++ q -> Forall (okey_lt a k) p -> Forall (fun o => ~ okey_lt a k o) q -> (length p < fuel)%nat ->
  findSpliceForLevel fuel a s k i prev =
    Ret (default prev (last p), default (s_tail s) (head q),
         match q with o :: _ => bool_decide (okey a o = k) | [] => false end).
Proof.
  induction p as [|x p IH]; intros fuel prev q Ha Hl He Ht Hp Hq Hf; (destruct fuel as [|fuel]; [cbn in Hf; lia|]);
    cbn [findSpliceForLevel app] in *.
  - destruct q as [|y q]; cbn [app] in Hl; apply linked_cons in Hl as (Hn & _ & _);
      rewrite (getNext_ok _ _ _ _ Hn), bind_Ret; [by rewrite Z.eqb_refl|].
    apply Forall_cons in He as [(n & En & Hok) _]. apply Forall_cons in Hq as [Hy _].
    rewrite (proj2 (Z.eqb_neq _ _)) by (intros ->; apply Ht, list_elem_of_here).
    unfold node_at. rewrite En, bind_Ret, buf_slice_ok, bind_Ret by done.
    assert (okey a y = node_key a n) as Ey by (unfold okey; by rewrite En).
    change (keyTrailer n) with (Trailer (node_key a n)). rewrite walk_compare. rewrite <- Ey.
    apply not_lt_compare in Hy. cbn. destruct (InternalCompare k (okey a y)) eqn:Ec; [| |done].
    + apply InternalCompare_eq in Ec as <-. by rewrite bool_decide_eq_true_2 by done.
    + rewrite bool_decide_eq_false_2; [done|]. intros Eq. rewrite Eq in Ec.
      by rewrite (proj2 (InternalCompare_eq k k)) in Ec.
  - apply linked_cons in Hl as (Hn & _ & Hl). rewrite (getNext_ok _ _ _ _ Hn), bind_Ret.
    apply Forall_cons in He as [(n & En & Hok) He]. apply Forall_cons in Hp as [Hx Hp].
    rewrite (proj2 (Z.eqb_neq _ _)) by (intros ->; apply Ht, list_elem_of_here).
    unfold node_at. rewrite En, bind_Ret, buf_slice_ok, bind_Ret by done.
    assert (okey a x = node_key a n) as Ey by (unfold okey; by rewrite En).
    change (keyTrailer n) with (Trailer (node_key a n)). rewrite walk_compare. rewrite <- Ey.
    unfold okey_lt in Hx. rewrite InternalCompare_antisym, Hx. cbn [CompOpp].
    rewrite (IH fuel x q); [|done|done|done| |done|done|cbn in Hf; lia].
    + rewrite last_cons. by destruct (last p).
    + intros Hin. by apply Ht, list_elem_of_further.
Qed.

Lemma fuel_ok a l : NoDup l -> Forall (entry_ok a) l -> (length l < node_fuel a)%nat.
Proof.
  intros Hn He. unfold node_fuel. rewrite <- size_dom.
  assert (length l <= size (dom (a_nodes a)))%nat; [|lia].
  rewrite <- (size_list_to_set (C := gset Z) l) by done. apply subseteq_size.
  intros o Ho. apply elem_of_list_to_set in Ho. rewrite Forall_forall in He.
  destruct (He o Ho) as (n & Hn' & _). apply elem_of_dom. by exists n.
Qed.

(** From a node before the key the walk finds the neighbours of the key. *)
Lemma find_level a s k i P Q x :
  arena_ok a -> linked a i (s_head s :: P ++ Q ++ [s_tail s]) -> Forall (entry_ok a) (P ++ Q) ->
  s_tail s ∉ P ++ Q -> Forall (okey_lt a k) P -> Forall (fun o => ~ okey_lt a k o) Q -> NoDup P ->
  x ∈ s_head s :: P ->
  findSpliceForLevel (node_fuel a) a s k i x =
    Ret (default (s_head s) (last P), default (s_tail s) (head Q),
         match Q with o :: _ => bool_decide (okey a o = k) | [] => false end).
Proof.
  intros Ha Hl He Ht HP HQ Hnd Hx. pose proof (proj1 (Forall_app _ _ _) He) as [HeP _].
  pose proof (fuel_ok a P Hnd HeP) as Hf. apply elem_of_cons in Hx as [->|Hx].
  - by rewrite (findSpliceForLevel_ok a s k i P _ _ Q).
  - apply list_elem_of_split in Hx as (P1 & P2 & ->). rewrite length_app in Hf. cbn [length] in Hf.
    rewrite <- app_assoc in Hl. cbn [app] in Hl. rewrite app_comm_cons in Hl. apply linked_app in Hl as [_ Hl].
    apply Forall_app in HP as [_ HP]. apply Forall_cons in HP as [_ HP].
    rewrite <- app_assoc in He, Ht. apply Forall_app in He as [_ He]. apply Forall_cons in He as [_ He].
    rewrite (findSpliceForLevel_ok a s k i P2 _ _ Q); [|done|done|done| |done|done|lia].
    + rewrite last_app, last_cons. by destruct (last P2).
    + intros Hin. apply Ht. apply elem_of_app. right. by apply list_elem_of_further.
Qed.

Section level.
Context (a : Arena) (s : skiplist) (os p q : list Z) (k : InternalKey).
Context (Ha : arena_ok a) (HS : Skl a s os) (Hsp : split_at a k os p q).

Lemma level_facts i :
  lvl a i os = lvl a i p ++ lvl a i q /\ Forall (entry_ok a) (lvl a i p ++ lvl a i q) /\
  (s_tail s ∉ lvl a i p ++ lvl a i q) /\ Forall (okey_lt a k) (lvl a i p) /\
  Forall (fun o => ~ okey_lt a k o) (lvl a i q) /\ NoDup (lvl a i p).
Proof.
  destruct Hsp as [-> Hp Hq]. rewrite <- lvl_app. split; [done|].
  pose proof (skl_entries_ok _ _ _ HS) as He. pose proof (skl_nodup _ _ _ HS) as Hn.
  apply NoDup_cons in Hn as [_ Hn]. apply NoDup_cons in Hn as [Ht Hn].
  split; [by apply lvl_Forall|]. split.
  { intros Hin. apply elem_of_lvl in Hin as [_ Hin]. done. }
  split; [by apply lvl_Forall|]. split; [by apply lvl_Forall|].
  apply NoDup_filter. by apply NoDup_app in Hn as (? & _ & _).
Qed.

Lemma find_at i x :
  (i < maxHeight)%nat -> x ∈ s_head s :: lvl a i p ->
  findSpliceForLevel (node_fuel a) a s k i x =
    Ret (pred_at a s i p, succ_at a s i q,
         match lvl a i q with o :: _ => bool_decide (okey a o = k) | [] => false end).
Proof.
  intros Hi Hx. destruct (level_facts i) as (E1 & E2 & E3 & E4 & E5 & E6).
  apply find_level; try done. rewrite app_assoc, <- E1. by apply (skl_linked _ _ _ HS).
Qed.

(** The nodes of a level before the key are those of the first part. *)
Lemma before_part i x : x ∈ s_head s :: lvl a i os -> before a s k x -> x ∈ s_head s :: lvl a i p.
Proof.
  destruct (level_facts i) as (E1 & _ & _ & _ & E5 & _). rewrite E1.
  intros Hx Hb. apply elem_of_cons in Hx as [->|Hx]; [apply list_elem_of_here|].
  apply elem_of_app in Hx as [Hx|Hx]; [by apply list_elem_of_further|].
  rewrite Forall_forall in E5. destruct Hb as [->|Hb]; [apply list_elem_of_here|]. by destruct (E5 x Hx).
Qed.
Lemma after_part i y : y ∈ lvl a i os ++ [s_tail s] -> after a s k y -> y ∈ lvl a i q ++ [s_tail s].
Proof.
  destruct (level_facts i) as (E1 & _ & E3 & E4 & _ & _). rewrite E1, <- app_assoc, elem_of_app.
  intros [Hy|Hy] Hb; [|done]. rewrite Forall_forall in E4. destruct Hb as [->|Hb].
  - apply elem_of_app. right. apply list_elem_of_here.
  - by destruct Hb; apply E4.
Qed.

Lemma pred_in i : pred_at a s i p ∈ s_head s :: lvl a i p.
Proof.
  unfold pred_at. destruct (last (lvl a i p)) as [x|] eqn:El; cbn; [|apply list_elem_of_here].
  apply list_elem_of_further. by apply last_Some_elem_of in El.
Qed.
Lemma succ_in i : succ_at a s i q ∈ lvl a i q ++ [s_tail s].
Proof. unfold succ_at. destruct (lvl a i q); cbn; apply list_elem_of_here. Qed.
Lemma pred_before i : before a s k (pred_at a s i p).
Proof.
  destruct (level_facts i) as (_ & _ & _ & E4 & _ & _). rewrite Forall_forall in E4.
  pose proof (pred_in i) as Hp. apply elem_of_cons in Hp as [->|Hp]; [by left|]. right. by apply E4.
Qed.
Lemma succ_after i : after a s k (succ_at a s i q).
Proof.
  destruct (level_facts i) as (_ & _ & _ & _ & E5 & _). rewrite Forall_forall in E5.
  pose proof (succ_in i) as Hq. apply elem_of_app in Hq as [Hq|Hq]; [right; by apply E5|].
  apply list_elem_of_singleton in Hq as ->. by left.
Qed.

Lemma pred_nested i j k' x :
  (i <= j)%nat -> x ∈ s_head s :: lvl a j os -> before a s k x ->
  before a s k' (pred_at a s i p) -> before a s k' x.
Proof.
  intros Hij Hx Hb. apply (before_part j) in Hx; [|done]. apply elem_of_cons in Hx as [->|Hx]; [by left|].
  apply (lvl_lvl _ i) in Hx; [|done]. unfold pred_at.
  destruct (last (lvl a i p)) as [z|] eqn:El; [|apply last_None in El; rewrite El in Hx; inversion Hx].
  apply last_Some in El as (l & El). rewrite El in Hx. cbn. intros Hz.
  assert (okey_lt a k' z) as Hlt.
  { destruct Hz as [->|]; [|done]. pose proof (skl_nodup _ _ _ HS) as Hn.
    apply NoDup_cons in Hn as [Hn _]. destruct Hn. apply list_elem_of_further. destruct Hsp as [-> _ _].
    assert (s_head s ∈ lvl a i p) as Hin by (rewrite El; apply elem_of_app; right; apply list_elem_of_here).
    apply elem_of_lvl in Hin as [_ ?]. apply elem_of_app. by left. }
  right. apply elem_of_app in Hx as [Hx|Hx]; [|by apply list_elem_of_singleton in Hx as ->].
  pose proof (skl_sorted _ _ _ HS) as Hs. rewrite (split_eq _ _ _ _ _ Hsp) in Hs.
  apply StronglySorted_app_1_l in Hs. apply (lvl_sorted _ a i) in Hs. rewrite El in Hs.
  eapply okey_lt_trans; [|exact Hlt].
  exact (StronglySorted_app_1_elem_of _ _ _ x z Hs Hx ltac:(apply list_elem_of_here)).
Qed.
Lemma succ_nested i j k' y :
  (i <= j)%nat -> y ∈ lvl a j os ++ [s_tail s] -> after a s k y ->
  after a s k' (succ_at a s i q) -> after a s k' y.
Proof.
  intros Hij Hy Hb. apply (after_part j) in Hy; [|done].
  apply elem_of_app in Hy as [Hy|Hy]; [|apply list_elem_of_singleton in Hy as ->; by left].
  apply (lvl_lvl _ i) in Hy; [|done]. unfold succ_at.
  destruct (level_facts i) as (_ & _ & Ht & _ & _ & _).
  pose proof (skl_sorted _ _ _ HS) as Hs. rewrite (split_eq _ _ _ _ _ Hsp) in Hs.
  apply StronglySorted_app_1_r in Hs. apply (lvl_sorted _ a i) in Hs.
  destruct (lvl a i q) as [|z l]; [inversion Hy|]. cbn. intros Hz.
  assert (~ okey_lt a k' z) as Hge.
  { destruct Hz as [->|]; [|done]. destruct Ht. apply elem_of_app. right. apply list_elem_of_here. }
  right. apply elem_of_cons in Hy as [->|Hy]; [done|]. intros Hlt. apply Hge.
  apply StronglySorted_cons in Hs as [Hs _]. rewrite Forall_forall in Hs.
  exact (okey_lt_trans _ _ _ _ (Hs y Hy) Hlt).
Qed.
End level.

(** ** Inserters *)

(** What an inserter keeps: at the levels below its height, nodes of the level; and the
    nodes of a higher level are not closer together. *)
Definition nested (a : Arena) (s : skiplist) (x x' : splice) : Prop :=
  forall k, (before a s k x.1 -> before a s k x'.1) /\ (after a s k x.2 -> after a s k x'.2).
Definition on_level (a : Arena) (s : skiplist) (os : list Z) (i : nat) (x : splice) : Prop :=
  x.1 ∈ s_head s :: lvl a i os /\ x.2 ∈ lvl a i os ++ [s_tail s].
Definition around (a : Arena) (s : skiplist) (k : InternalKey) (x : splice) : Prop :=
  before a s k x.1 /\ after a s k x.2.

(** The splices from a level up to a height. *)
Record SplOK (a : Arena) (s : skiplist) (os : list Z) (lo hi : nat) (spl : list splice) : Prop := {
  spl_len : length spl = maxHeight;
  spl_top i : (s_height s <= i < maxHeight)%nat -> spl !! i = Some (0, 0);
  spl_on i x : (lo <= i < hi)%nat -> spl !! i = Some x -> on_level a s os i x;
  spl_nest i x x' : (lo <= i)%nat -> (S i < hi)%nat -> spl !! i = Some x -> spl !! S i = Some x' -> nested a s x x';
}.
Definition InsOK (a : Arena) (s : skiplist) (os : list Z) (ins : Inserter) : Prop :=
  (i_height ins <= s_height s)%nat /\ SplOK a s os 0 (i_height ins) (i_spl ins).

Lemma newInserter_ok a s os : InsOK a s os newInserter.
Proof.
  split; [apply Nat.le_0_l|]. split; [done| |cbn [i_height newInserter]; lia|cbn [i_height newInserter]; lia].
  intros i Hi. apply (lookup_replicate_2 maxHeight). lia.
Qed.

(** If a splice is around the key, so are those of the levels above. *)
Lemma around_up a s os k lo hi spl i j x y :
  SplOK a s os lo hi spl -> (lo <= i <= j)%nat -> (j < hi)%nat -> (hi <= maxHeight)%nat ->
  spl !! i = Some x -> around a s k x -> spl !! j = Some y -> around a s k y.
Proof.
  intros Hspl [Hlo Hij] Hj Hhi Hx Har. revert y. induction Hij as [|j Hij IH]; intros y Hy; [by simplify_eq|].
  destruct (lookup_lt_is_Some_2 spl j) as [z Hz]; [rewrite (spl_len _ _ _ _ _ _ Hspl); lia|].
  destruct (IH ltac:(lia) z Hz) as [H1 H2].
  destruct (spl_nest _ _ _ _ _ _ Hspl j z y ltac:(lia) Hj Hz Hy k) as [H3 H4]. split; auto.
Qed.

Lemma keyIsAfterNode_ok a o k : arena_ok a -> entry_ok a o -> keyIsAfterNode a o k = Ret (bool_decide (okey_lt a k o)).
Proof.
  intros Ha (n & Hn & Hok). unfold keyIsAfterNode, node_at. rewrite Hn, bind_Ret, buf_slice_ok, bind_Ret by done.
  assert (okey_lt a k o <-> InternalCompare (node_key a n) k = Lt) as Hlt by (unfold okey_lt, okey; by rewrite Hn).
  rewrite (bool_decide_ext _ _ Hlt). unfold InternalCompare. change (keyTrailer n) with (Trailer (node_key a n)).
  destruct (Compare (UserKey (node_key a n)) (UserKey k)); [|done|done].
  destruct (Z.eqb_spec (Trailer k) (Trailer (node_key a n))) as [->|]; [by rewrite Z.ltb_irrefl|].
  destruct (Z.ltb_spec (Trailer k) (Trailer (node_key a n))); [done|]. by rewrite (proj2 (Z.ltb_lt _ _)) by lia.
Qed.

Lemma on_level_entry a s os i x :
  Skl a s os -> on_level a s os i x -> (i < maxHeight)%nat ->
  (i < ht a x.1)%nat /\ (x.1 <> s_head s -> entry_ok a x.1) /\ (x.2 <> s_tail s -> entry_ok a x.2).
Proof.
  intros HS [H1 H2] Hi. pose proof (skl_entries_ok _ _ _ HS) as He. rewrite Forall_forall in He. split; [|split].
  - apply elem_of_cons in H1 as [->|H1]; [by rewrite (skl_head _ _ _ HS)|]. by apply elem_of_lvl in H1 as [? _].
  - intros Hne. apply elem_of_cons in H1 as [H1|H1]; [done|]. apply elem_of_lvl in H1 as [_ ?]. by apply He.
  - intros Hne. apply elem_of_app in H2 as [H2|H2]; [|by apply list_elem_of_singleton in H2].
    apply elem_of_lvl in H2 as [_ ?]. by apply He.
Qed.

Section find.
Context (a : Arena) (s : skiplist) (os : list Z) (k : InternalKey).
Context (Ha : arena_ok a) (HS : Skl a s os).

(** The check of the cached splices finds one that is around the key, or none. *)
Lemma check_splice_ok spl : forall n level,
  (level + n)%nat = s_height s -> SplOK a s os 0 (s_height s) spl ->
  exists l prev, check_splice n level a s k spl = Ret (l, prev) /\
    (l = s_height s /\ prev = s_head s \/
     (l < s_height s)%nat /\ exists next, spl !! l = Some (prev, next) /\ around a s k (prev, next)).
Proof.
  pose proof (skl_height _ _ _ HS) as Hh.
  induction n as [|n IH]; intros level Hn Hspl; cbn [check_splice]; [by eexists _, _; split; [|left]|].
  destruct (lookup_lt_is_Some_2 spl level) as [[prev next] Hx]; [rewrite (spl_len _ _ _ _ _ _ Hspl); lia|].
  rewrite (nth_lookup_Some _ _ _ _ Hx).
  pose proof (spl_on _ _ _ _ _ _ Hspl level _ ltac:(lia) Hx) as Hon.
  destruct (on_level_entry _ _ _ _ _ HS Hon ltac:(lia)) as (Hht & He1 & He2). cbn [fst snd] in *.
  apply link_lt in Hht as [l Hl]. assert (nx a level prev = Some (nextOffset l)) as Hnx by (unfold nx; by rewrite Hl).
  rewrite (getNext_ok _ _ _ _ Hnx), bind_Ret.
  destruct (Z.eqb_spec (nextOffset l) next) as [_|_]; cbn [negb]; [|apply IH; [lia|done]].
  assert ((if prev =? s_head s then Ret true else keyIsAfterNode a prev k) =
    Ret (bool_decide (before a s k prev))) as ->.
  { destruct (Z.eqb_spec prev (s_head s)) as [->|Hne].
    - rewrite bool_decide_eq_true_2; [done|by left].
    - rewrite keyIsAfterNode_ok by auto. f_equal. apply bool_decide_ext. unfold before. tauto. }
  rewrite bind_Ret. case_bool_decide as Hb; cbn [negb]; [|by eexists _, _; split; [|left]].
  assert ((if next =? s_tail s then Ret false else keyIsAfterNode a next k) =
    Ret (negb (bool_decide (after a s k next)))) as ->.
  { destruct (Z.eqb_spec next (s_tail s)) as [->|Hne].
    - rewrite bool_decide_eq_true_2; [done|by left].
    - rewrite keyIsAfterNode_ok by auto. f_equal. rewrite <- bool_decide_not. apply bool_decide_ext.
      unfold after. destruct (okey_lt_dec a k next); tauto. }
  rewrite bind_Ret. case_bool_decide as Hb2; cbn [negb]; [|by eexists _, _; split; [|left]].
  exists level, prev. split; [done|]. right. split; [lia|]. by exists next.
Qed.

(** Nodes are not nil. *)
Lemma ht_not_nil o : (0 < ht a o)%nat -> o <> 0.
Proof.
  unfold ht. destruct (a_nodes a !! o) as [n|] eqn:Hn; [|lia]. intros _ ->. pose proof (aok_nodes _ Ha 0 n Hn). lia.
Qed.

Context (p q : list Z) (Hsp : split_at a k os p q).

Lemma part_in i x : x ∈ s_head s :: lvl a i p -> x ∈ s_head s :: lvl a i os.
Proof.
  destruct (level_facts a s os p q k HS Hsp i) as (-> & _). rewrite !elem_of_cons, elem_of_app. tauto.
Qed.
Lemma part_in_r i x : x ∈ lvl a i q ++ [s_tail s] -> x ∈ lvl a i os ++ [s_tail s].
Proof.
  destruct (level_facts a s os p q k HS Hsp i) as (-> & _). rewrite <- app_assoc, (elem_of_app (lvl a i p)). tauto.
Qed.

Lemma succ_not_nil i : (i < maxHeight)%nat -> succ_at a s i q <> 0.
Proof.
  intros Hi. apply ht_not_nil. pose proof (succ_in a s q i) as Hs.
  apply elem_of_app in Hs as [Hs|Hs]; [apply elem_of_lvl in Hs as [? _]; lia|].
  apply list_elem_of_singleton in Hs as ->. rewrite (skl_tail _ _ _ HS). lia.
Qed.

(** The search at the base says whether there is a node with the key. *)
Lemma found_iff :
  match lvl a 0 q with o :: _ => bool_decide (okey a o = k) | [] => false end = bool_decide (k ∈ okey a <$> os).
Proof.
  pose proof (skl_sorted _ _ _ HS) as Hs. pose proof (skl_heights _ _ _ HS) as Hh. rewrite Forall_forall in Hh.
  destruct Hsp as [-> Hp Hq]. apply StronglySorted_app_1_r in Hs. apply (lvl_sorted _ a 0) in Hs.
  assert (forall o, o ∈ q -> o ∈ lvl a 0 q) as Hall.
  { intros o Ho. apply elem_of_lvl. split; [|done].
    assert (1 <= ht a o <= s_height s)%nat; [|lia]. apply Hh, elem_of_app. by right. }
  assert (forall o, o ∈ lvl a 0 q -> okey a o = k -> k ∈ okey a <$> p ++ q) as Hin.
  { intros o Ho <-. apply elem_of_lvl in Ho as [_ Ho]. apply list_elem_of_fmap_2. apply elem_of_app. by right. }
  assert (forall o, o ∈ p ++ q -> okey a o = k -> o ∈ lvl a 0 q) as Hback.
  { intros o Ho Ek. apply elem_of_app in Ho as [Ho|Ho]; [|by apply Hall]. rewrite Forall_forall in Hp.
    pose proof (Hp o Ho) as Hlt. unfold okey_lt in Hlt. by rewrite Ek, (proj2 (InternalCompare_eq k k)) in Hlt. }
  destruct (lvl a 0 q) as [|o l] eqn:El.
  - symmetry. apply bool_decide_eq_false_2. intros Hk. apply list_elem_of_fmap in Hk as (o & -> & Ho).
    specialize (Hback o Ho eq_refl). inversion Hback.
  - apply bool_decide_ext. split; [apply Hin, list_elem_of_here|].
    intros Hk. apply list_elem_of_fmap in Hk as (o' & Ek & Ho).
    specialize (Hback o' Ho (eq_sym Ek)). apply elem_of_cons in Hback as [<-|Hl]; [done|].
    apply StronglySorted_cons in Hs as [Hs _]. rewrite Forall_forall in Hs.
    rewrite Forall_forall in Hq. destruct (Hq o); [|rewrite Ek; by apply Hs].
    assert (o ∈ lvl a 0 q) as Hoq by (rewrite El; apply list_elem_of_here). by apply elem_of_lvl in Hoq as [_ ?].
Qed.

Lemma descend_ok : forall level prev spl found,
  (level <= s_height s)%nat -> SplOK a s os level (s_height s) spl ->
  (forall i x, (level <= i < s_height s)%nat -> spl !! i = Some x -> around a s k x) ->
  (forall i, (i < level)%nat -> prev ∈ s_head s :: lvl a i os) -> before a s k prev ->
  exists spl', descend level a s k prev spl found =
      Ret (spl', if (level =? 0)%nat then found else bool_decide (k ∈ okey a <$> os)) /\
    SplOK a s os 0 (s_height s) spl' /\ (forall i x, (i < s_height s)%nat -> spl' !! i = Some x -> around a s k x).
Proof.
  pose proof (skl_height _ _ _ HS) as Hh.
  induction level as [|l IH]; intros prev spl found Hl Hspl Har Hprev Hb; cbn [descend].
  { exists spl. split; [done|]. split; [done|]. intros i x Hi. apply Har. lia. }
  pose proof (find_at a s os p q k Ha HS Hsp l prev ltac:(lia)
    (before_part a s os p q k HS Hsp l prev (Hprev l ltac:(lia)) Hb)) as Ef.
  rewrite Ef, bind_Ret. rewrite (proj2 (Z.eqb_neq _ _)) by (apply succ_not_nil; lia).
  pose proof (pred_before a s os p q k HS Hsp l) as Hpb. pose proof (succ_after a s os p q k HS Hsp l) as Hsa.
  set (x0 := (pred_at a s l p, succ_at a s l q) : splice).
  assert (length spl = maxHeight) as Hlen by apply (spl_len _ _ _ _ _ _ Hspl).
  assert (<[l:=x0]> spl !! l = Some x0) as Hx0 by (apply list_lookup_insert_eq; lia).
  assert (forall i, i <> l -> <[l:=x0]> spl !! i = spl !! i) as Hne.
  { intros i Hi. by rewrite list_lookup_insert_ne by done. }
  destruct (IH (pred_at a s l p) (<[l:=x0]> spl)
    (match lvl a l q with o :: _ => bool_decide (okey a o = k) | [] => false end)) as (spl' & E1 & E2 & E3);
    [lia| | | |done|].
  - split; [by rewrite length_insert| | |].
    + intros i Hi. rewrite Hne by lia. by apply (spl_top _ _ _ _ _ _ Hspl).
    + intros i x Hi Hx. destruct (decide (i = l)) as [->|].
      * rewrite Hx0 in Hx. injection Hx as <-. split; [apply part_in, pred_in|apply part_in_r, succ_in].
      * rewrite Hne in Hx by done. apply (spl_on _ _ _ _ _ _ Hspl); [lia|done].
    + intros i x x' Hi Hi' Hx Hx'. rewrite (Hne (S i)) in Hx' by lia. destruct (decide (i = l)) as [->|].
      * rewrite Hx0 in Hx. injection Hx as <-. destruct (Har (S l) x' ltac:(lia) Hx') as [A1 A2].
        destruct (spl_on _ _ _ _ _ _ Hspl (S l) x' ltac:(lia) Hx') as [B1 B2].
        intros k'. split; [apply (pred_nested a s os p q k HS Hsp l (S l)); done || lia|].
        apply (succ_nested a s os p q k HS Hsp l (S l)); done || lia.
      * rewrite Hne in Hx by done. apply (spl_nest _ _ _ _ _ _ Hspl i); done || lia.
  - intros i x Hi Hx. destruct (decide (i = l)) as [->|].
    + rewrite Hx0 in Hx. by injection Hx as <-.
    + rewrite Hne in Hx by done. apply (Har i); [lia|done].
  - intros i Hi. pose proof (pred_in a s p l) as Hin. apply part_in in Hin.
    apply elem_of_cons in Hin as [->|Hin]; [apply list_elem_of_here|]. apply list_elem_of_further.
    apply (lvl_lvl _ _ l); [lia|done].
  - exists spl'. split; [|done]. etransitivity; [exact E1|]. destruct l; cbn [Nat.eqb]; [|done]. by rewrite found_iff.
Qed.

(** After the search every splice is around the key.  The key is found if it is there,
    unless a cached splice of the base level was good. *)
Lemma findSplice_ok ins :
  InsOK a s os ins ->
  exists ins' found, findSplice a s k ins = Ret (ins', found) /\ InsOK a s os ins' /\ i_height ins' = s_height s /\
    (forall i x, (i < s_height s)%nat -> i_spl ins' !! i = Some x -> around a s k x) /\
    (found = true -> k ∈ okey a <$> os) /\
    ((i_height ins < s_height s)%nat -> found = bool_decide (k ∈ okey a <$> os)).
Proof.
  intros [Hle Hspl]. pose proof (skl_height _ _ _ HS) as Hh. unfold findSplice.
  assert (exists level prev,
    (if (i_height ins <? s_height s)%nat then Ret (s_height s, s_height s, s_head s)
     else '(level, prev) ← check_splice (s_height s) 0 a s k (i_spl ins); Ret (i_height ins, level, prev)) =
      Ret (s_height s, level, prev) /\ (level <= s_height s)%nat /\
    SplOK a s os level (s_height s) (i_spl ins) /\
    (forall i x, (level <= i < s_height s)%nat -> i_spl ins !! i = Some x -> around a s k x) /\
    (forall i, (i < level)%nat -> prev ∈ s_head s :: lvl a i os) /\ before a s k prev /\
    ((i_height ins < s_height s)%nat -> level = s_height s)) as (level & prev & Ec & Hl & H1 & H2 & H3 & H4 & H5).
  { assert (SplOK a s os (s_height s) (s_height s) (i_spl ins)) as Hnone.
    { split; [apply (spl_len _ _ _ _ _ _ Hspl)|apply (spl_top _ _ _ _ _ _ Hspl)|lia|lia]. }
    destruct (Nat.ltb_spec (i_height ins) (s_height s)) as [Hlt|Hge].
    - eexists _, _. split; [done|]. split; [lia|]. split; [done|]. split; [lia|].
      split; [intros; apply list_elem_of_here|]. split; [by left|done].
    - assert (i_height ins = s_height s) as Eh by lia. rewrite Eh in *.
      destruct (check_splice_ok (i_spl ins) (s_height s) 0 eq_refl Hspl)
        as (level & prev & -> & [[-> ->]|(Hlt & next & Hx & Har)]).
      + eexists _, _. rewrite bind_Ret. split; [done|]. split; [lia|]. split; [done|]. split; [lia|].
        split; [intros; apply list_elem_of_here|]. split; [by left|lia].
      + exists level, prev. rewrite bind_Ret. split; [done|]. split; [lia|]. split; [|split; [|split; [|split]]].
        * destruct Hspl as [S1 S2 S3 S4]. split; [done|done|intros; apply S3; done || lia|].
          intros i x x' Hi Hi'. apply S4; lia.
        * intros i x Hi Hxi. apply (around_up a s os k 0 (s_height s) (i_spl ins) level i (prev, next) x); done || lia.
        * intros i Hi. destruct (spl_on _ _ _ _ _ _ Hspl level _ ltac:(lia) Hx) as [Hin _]. cbn in Hin.
          apply elem_of_cons in Hin as [->|Hin]; [apply list_elem_of_here|]. apply list_elem_of_further.
          apply (lvl_lvl _ _ level); [lia|done].
        * by destruct Har.
        * lia. }
  rewrite Ec, bind_Ret.
  destruct (descend_ok level prev (i_spl ins) false Hl H1 H2 H3 H4) as (spl' & -> & E2 & E3).
  rewrite bind_Ret. eexists _, _. split; [done|]. cbn [i_height i_spl]. split; [by split|]. split; [done|].
  split; [done|]. split.
  - destruct (level =? 0)%nat; [done|]. by rewrite bool_decide_eq_true.
  - intros Hlt. rewrite (H5 Hlt). by rewrite (proj2 (Nat.eqb_neq _ _)) by lia.
Qed.
End find.
End spec.
