(* ===== verification/ArenasklAdd.v ===== *)
(** Adding to a skiplist (Arenaskl.v): the new node is linked at its place at every level
    of its tower, whatever splices the inserter had cached. *)
From S2P Require Import Prelude.
From S2P Require Import Comparer.
From S2P Require Import InternalKey.
From S2P Require Import GoStd.
From S2P Require Import Iterators.
From S2P Require Import Arenaskl.
From S2P Require Import ArenasklAlloc.
From S2P Require Import ArenasklSpec.
From stdpp Require Import sorting.

Local Open Scope Z_scope.

(** ** Chains *)
Lemma linked_frame_l a a' i c x :
  (forall o, o ∈ c -> nx a' i o = nx a i o) -> (forall o, o ∈ c ++ [x] -> pv a' i o = pv a i o) ->
  linked a i (c ++ [x]) -> linked a' i (c ++ [x]).
Proof.
  induction c as [|y c IH]; [done|]. intros Hn Hp.
  assert (exists z c', c ++ [x] = z :: c') as (z & c' & Ec) by (destruct c; by eexists _, _).
  cbn [app] in *. rewrite Ec in *. rewrite !linked_cons.
  rewrite (Hn y), (Hp z) by (rewrite ?elem_of_cons; auto). intros (? & ? & ?). split; [done|]. split; [done|].
  apply IH; [| |done]; intros o Ho; [apply Hn|apply Hp]; by apply list_elem_of_further.
Qed.
Lemma linked_frame_r a a' i y c :
  (forall o, o ∈ y :: c -> nx a' i o = nx a i o) -> (forall o, o ∈ c -> pv a' i o = pv a i o) ->
  linked a i (y :: c) -> linked a' i (y :: c).
Proof.
  revert y. induction c as [|z c IH]; [done|]. intros y Hn Hp. rewrite !linked_cons.
  rewrite (Hn y), (Hp z) by (rewrite ?elem_of_cons; auto). intros (? & ? & ?). split; [done|]. split; [done|].
  apply IH; [| |done]; intros o Ho; [apply Hn|apply Hp]; by apply list_elem_of_further.
Qed.

Lemma linked_last a i h c x : linked a i ((h :: c) ++ [x]) -> is_Some (pv a i x).
Proof.
  revert h. induction c as [|y c IH]; intros h; cbn [app].
  - intros (_ & -> & _). by eexists.
  - rewrite linked_cons. intros (_ & _ & Hl). by apply (IH y).
Qed.

(** Links at other places stay. *)
Definition only (i : nat) (F : list Z) (a a' : Arena) : Prop :=
  forall o j, j <> i \/ o ∉ F -> link a' o j = link a o j.

(** What [link_level] does when its splice is right: it links the node between two nodes
    that follow each other. *)
Definition insert_links (a : Arena) (nd x y : Z) (i : nat) : Arena :=
  let a := upd a nd i (mkLinks y x) in
  let a := upd a x i (mkLinks nd (default 0 (pv a i x))) in
  upd a y i (mkLinks (default 0 (nx a i y)) nd).

Section insert.
Context (a : Arena) (nd x y : Z) (i : nat).
Context (Hnd : is_Some (link a nd i)) (Hx : nx a i x = Some y) (Hy : pv a i y = Some x).
Context (Hne : NoDup [nd; x; y]).

Lemma three : nd <> x /\ nd <> y /\ x <> y.
Proof.
  clear -Hne. rewrite !NoDup_cons, !elem_of_cons in Hne. destruct Hne as (H1 & H2 & _). naive_solver.
Qed.
Lemma some_links : exists lx ly, link a x i = Some lx /\ nextOffset lx = y /\ link a y i = Some ly /\ prevOffset ly = x.
Proof.
  unfold nx, pv in *. destruct (link a x i) as [lx|]; [|done]. destruct (link a y i) as [ly|]; [|done].
  exists lx, ly. cbn in *. split; [done|]. split; [congruence|]. split; [done|congruence].
Qed.

Lemma insert_same : same a (insert_links a nd x y i).
Proof.
  unfold insert_links. eapply same_trans; [apply upd_same|]. eapply same_trans; [apply upd_same|apply upd_same].
Qed.

Lemma insert_link o j :
  link (insert_links a nd x y i) o j =
    if decide (j = i) then
      if decide (o = nd) then Some (mkLinks y x)
      else if decide (o = x) then (fun l => mkLinks nd (prevOffset l)) <$> link a x i
      else if decide (o = y) then (fun l => mkLinks (nextOffset l) nd) <$> link a y i
      else link a o j
    else link a o j.
Proof.
  destruct some_links as (lx & ly & E1 & _ & E2 & _). destruct three as (N1 & N2 & N3). unfold insert_links.
  set (a1 := upd a nd i (mkLinks y x)).
  assert (forall o j, link a1 o j = if decide (o = nd /\ j = i) then Some (mkLinks y x) else link a o j) as L1
    by (intros; by apply link_upd).
  assert (link a1 x i = Some lx) as X1 by (rewrite L1, decide_False; [done|by intros []]).
  assert (link a1 y i = Some ly) as Y1 by (rewrite L1, decide_False; [done|by intros []]).
  assert (pv a1 i x = Some (prevOffset lx)) as -> by (unfold pv; by rewrite X1). cbn [default].
  set (a2 := upd a1 x i _).
  assert (forall o j, link a2 o j = if decide (o = x /\ j = i) then Some (mkLinks nd (prevOffset lx)) else link a1 o j)
    as L2 by (intros; apply link_upd; by rewrite X1).
  assert (link a2 y i = Some ly) as Y2 by (rewrite L2, decide_False; [done|by intros []]).
  assert (nx a2 i y = Some (nextOffset ly)) as -> by (unfold nx; by rewrite Y2). cbn [default].
  rewrite link_upd by (by rewrite Y2). rewrite L2, L1, E1, E2. cbn [fmap option_fmap option_map].
  destruct (decide (j = i)) as [->|Hj].
  - destruct (decide (o = nd)) as [->|]; [rewrite !(decide_False (P := _ /\ i = i)) by (intros []; done)|].
    { by rewrite decide_True by done. }
    destruct (decide (o = x)) as [->|].
    { rewrite (decide_False (P := x = y /\ _)) by (intros []; done). by rewrite decide_True by done. }
    destruct (decide (o = y)) as [->|]; [by rewrite decide_True by done|].
    by rewrite !decide_False by (intros []; done).
  - by rewrite !decide_False by (intros []; done).
Qed.

Lemma insert_only F : nd ∈ F -> x ∈ F -> y ∈ F -> only i F a (insert_links a nd x y i).
Proof.
  intros H1 H2 H3 o j Hoj. rewrite insert_link. destruct (decide (j = i)); [|done].
  destruct Hoj as [|Ho]; [done|]. by rewrite !decide_False by (intros ->; done).
Qed.
Lemma insert_nx o : o <> nd -> o <> x -> nx (insert_links a nd x y i) i o = nx a i o.
Proof.
  intros. unfold nx. rewrite insert_link, decide_True by done. rewrite !(decide_False (P := o = _)) by done.
  destruct (decide (o = y)) as [->|]; [|done]. by destruct (link a y i).
Qed.
Lemma insert_pv o : o <> nd -> o <> y -> pv (insert_links a nd x y i) i o = pv a i o.
Proof.
  intros. unfold pv. rewrite insert_link, decide_True by done. rewrite (decide_False (P := o = nd)) by done.
  destruct (decide (o = x)) as [->|]; [by destruct (link a x i)|]. by rewrite decide_False by done.
Qed.

Lemma insert_linked l1 l2 :
  NoDup (nd :: l1 ++ x :: y :: l2) -> linked a i (l1 ++ x :: y :: l2) ->
  linked (insert_links a nd x y i) i (l1 ++ x :: nd :: y :: l2).
Proof.
  intros Hn Hl. destruct three as (N1 & N2 & N3). destruct some_links as (lx & ly & E1 & _ & E2 & _).
  apply NoDup_cons in Hn as [Hnd' Hn]. apply NoDup_app in Hn as (_ & Hd & Hn).
  apply NoDup_cons in Hn as [Hx' Hn]. apply NoDup_cons in Hn as [Hy' _].
  rewrite !elem_of_app, !elem_of_cons in Hnd'. rewrite elem_of_cons in Hx'.
  apply linked_app in Hl as [Hl Hr]. apply linked_cons in Hr as (_ & _ & Hr).
  assert (forall o, o ∈ l1 -> o <> nd /\ o <> x /\ o <> y) as H1.
  { intros o Ho. specialize (Hd o Ho). rewrite !elem_of_cons in Hd.
    split; [intros ->; tauto|]. split; intros ->; tauto. }
  assert (forall o, o ∈ l2 -> o <> nd /\ o <> x /\ o <> y) as H2.
  { intros o Ho. split; [intros ->; tauto|]. split; intros ->; tauto. }
  apply linked_app. split.
  - apply (linked_frame_l a); [| |done].
    + intros o Ho. destruct (H1 o Ho) as (? & ? & ?). by apply insert_nx.
    + intros o Ho. apply elem_of_app in Ho as [Ho|Ho].
      * destruct (H1 o Ho) as (? & ? & ?). by apply insert_pv.
      * apply list_elem_of_singleton in Ho as ->. apply insert_pv; [by intros ->|done].
  - rewrite !linked_cons. unfold nx, pv. rewrite !insert_link, E1, E2.
    rewrite !(decide_True (P := i = i)), !(decide_True (P := nd = nd)) by done.
    rewrite (decide_False (P := x = nd)), (decide_True (P := x = x)) by (done || (intros ->; done)).
    rewrite (decide_False (P := y = nd)), (decide_False (P := y = x)), (decide_True (P := y = y)) by (done || (intros ->; done)).
    repeat (split; [done|]). apply (linked_frame_r a); [| |done].
    + intros o Ho. apply elem_of_cons in Ho as [->|Ho]; [apply insert_nx; intros ->; done|].
      destruct (H2 o Ho) as (? & ? & ?). by apply insert_nx.
    + intros o Ho. destruct (H2 o Ho) as (? & ? & ?). by apply insert_pv.
Qed.

Lemma link_level_exact {C : Comparer} fuel s k invalid :
  link_level (S fuel) a s k nd i x y invalid = Ret (insert_links a nd x y i, false, invalid).
Proof.
  destruct three as (N1 & N2 & N3). destruct some_links as (lx & ly & E1 & El & E2 & Er).
  destruct Hnd as [ln En]. cbn [link_level]. rewrite (set_links_ok a nd i _ ln En), bind_Ret.
  unfold insert_links. set (a1 := upd a nd i (mkLinks y x)).
  assert (link a1 x i = Some lx) as X1.
  { unfold a1. rewrite link_upd, decide_False; [done|by intros []|done]. }
  assert (link a1 y i = Some ly) as Y1.
  { unfold a1. rewrite link_upd, decide_False; [done|by intros []|done]. }
  rewrite (getPrev_ok a1 y i x) by (unfold pv; rewrite Y1; cbn; by rewrite Er).
  rewrite bind_Ret, Z.eqb_refl, bind_Ret. unfold casNextOffset. rewrite (get_links_ok _ _ _ _ X1), bind_Ret.
  rewrite El, Z.eqb_refl, (set_links_ok _ _ _ _ _ X1), !bind_Ret.
  assert (pv a1 i x = Some (prevOffset lx)) as -> by (unfold pv; by rewrite X1). cbn [default].
  set (a2 := upd a1 x i _).
  assert (link a2 y i = Some ly) as Y2.
  { unfold a2. rewrite link_upd, decide_False; [done|by intros []|by rewrite X1]. }
  unfold casPrevOffset. rewrite (get_links_ok _ _ _ _ Y2), bind_Ret, Er, Z.eqb_refl, (set_links_ok _ _ _ _ _ Y2).
  rewrite !bind_Ret. assert (nx a2 i y = Some (nextOffset ly)) as -> by (unfold nx; by rewrite Y2). done.
Qed.
End insert.

Section add.
Context {C : Comparer} {L : ComparerLaws C} {E : ArenaEnv}.

(** ** Linking at a level *)
Section level.
Context (s : skiplist) (k : InternalKey) (nd : Z) (i : nat) (P Q : list Z).

(** The nodes before and after the place at the level, in an arena. *)
Record place (a : Arena) : Prop := {
  pl_arena : arena_ok a;
  pl_linked : linked a i (s_head s :: P ++ Q ++ [s_tail s]);
  pl_entries : Forall (entry_ok a) (P ++ Q);
  pl_nodup : NoDup (nd :: s_head s :: P ++ Q ++ [s_tail s]);
  pl_node : is_Some (link a nd i);
  pl_before : Forall (okey_lt a k) P;
  pl_after : Forall (fun o => ~ okey_lt a k o) Q;
  pl_new : Forall (fun o => okey a o <> k) Q;
}.
Definition linked_in (a a' : Arena) : Prop :=
  same a a' /\ linked a' i (s_head s :: P ++ nd :: Q ++ [s_tail s]) /\
  only i (nd :: s_head s :: P ++ Q ++ [s_tail s]) a a'.

Lemma link_pred a fuel invalid :
  place a ->
  let x := default (s_head s) (last P) in
  let y := default (s_tail s) (head Q) in
  exists a', link_level (S fuel) a s k nd i x y invalid = Ret (a', false, invalid) /\ linked_in a a'.
Proof.
  intros [Ha Hl He Hn Hnode _ _ _] x y.
  assert (exists l1, s_head s :: P = l1 ++ [x]) as (l1 & E1).
  { unfold x. destruct (last P) as [z|] eqn:Elast; cbn [default].
    - apply last_Some in Elast as (l & ->). by exists (s_head s :: l).
    - apply last_None in Elast as ->. by exists []. }
  assert (exists l2, Q ++ [s_tail s] = y :: l2) as (l2 & E2).
  { unfold y. destruct Q as [|z Q']; cbn; by eexists. }
  assert (s_head s :: P ++ Q ++ [s_tail s] = l1 ++ x :: y :: l2) as Ec.
  { by rewrite app_comm_cons, E1, E2, <- app_assoc. }
  rewrite Ec in Hl, Hn. pose proof Hl as Hl'. apply linked_app in Hl' as [_ Hl'].
  apply linked_cons in Hl' as (Hx & Hy & _).
  assert (NoDup [nd; x; y]) as Hthree.
  { apply NoDup_cons in Hn as [Hn1 Hn2]. rewrite elem_of_app, !elem_of_cons in Hn1.
    apply NoDup_app in Hn2 as (_ & _ & Hn2). apply NoDup_cons in Hn2 as [Hn2 _].
    rewrite elem_of_cons in Hn2. rewrite !NoDup_cons, !elem_of_cons, !elem_of_nil.
    split; [tauto|]. split; [tauto|]. split; [tauto|]. apply NoDup_nil_2. }
  exists (insert_links a nd x y i). split; [by apply link_level_exact|].
  split; [apply insert_same|]. split.
  - replace (s_head s :: P ++ nd :: Q ++ [s_tail s]) with (l1 ++ x :: nd :: y :: l2).
    + by apply insert_linked.
    + by rewrite app_comm_cons, E1, E2, <- app_assoc.
  - rewrite Ec. apply insert_only; try done; rewrite ?elem_of_cons, ?elem_of_app, ?elem_of_cons; tauto.
Qed.

(** The nodes of a splice have links, and if they follow each other they are the
    neighbours of the place. *)
Lemma adjacent a x y :
  place a -> x ∈ s_head s :: P -> y ∈ Q ++ [s_tail s] ->
  is_Some (pv a i y) /\ exists z, nx a i x = Some z /\
    (z = y -> x = default (s_head s) (last P) /\ y = default (s_tail s) (head Q)).
Proof.
  intros [_ Hl _ Hn _ _ _ _] Hx Hy. apply NoDup_cons in Hn as [_ Hn]. split.
  - apply list_elem_of_split in Hy as (l3 & l4 & E2). rewrite E2, app_assoc, app_comm_cons in Hl.
    apply linked_app in Hl as [Hl _]. by apply (linked_last a i (s_head s) (P ++ l3)).
  - apply list_elem_of_split in Hx as (l1 & l2 & E1). rewrite app_comm_cons, E1 in Hl, Hn.
    rewrite <- app_assoc in Hl. cbn [app] in Hl. apply linked_app in Hl as [_ Hl].
    destruct l2 as [|z l2]; cbn [app] in Hl.
    + assert (Q ++ [s_tail s] = default (s_tail s) (head Q) :: tail (Q ++ [s_tail s])) as E2 by (by destruct Q).
      rewrite E2 in Hl. apply linked_cons in Hl as (Hx & _). eexists. split; [exact Hx|]. intros <-. split; [|done].
      destruct l1 as [|h l1]; injection E1 as -> ->; [done|]. by rewrite last_snoc.
    + apply linked_cons in Hl as (Hx & _). exists z. split; [done|]. intros ->.
      apply NoDup_app in Hn as (_ & Hd & _). destruct (Hd y); [|done].
      apply elem_of_app. right. by apply list_elem_of_further, list_elem_of_here.
Qed.

Lemma place_upd a l : place a -> place (upd a nd i l).
Proof.
  intros [Ha Hl He Hn Hnode Hb Haf Hnew]. pose proof (upd_same a nd i l) as Hs.
  assert (forall o, o ∈ s_head s :: P ++ Q ++ [s_tail s] -> link (upd a nd i l) o i = link a o i) as Hf.
  { intros o Ho. rewrite link_upd by done. rewrite decide_False; [done|]. intros [-> _].
    by apply NoDup_cons in Hn as [? _]. }
  split; [by apply (same_arena_ok a)|by apply (linked_frame a)| |done| | | |].
  - eapply Forall_impl; [exact He|]. intros o. by apply same_entry_ok.
  - rewrite link_upd by done. by rewrite decide_True by done.
  - eapply Forall_impl; [exact Hb|]. intros o. unfold okey_lt. by rewrite (proj1 (same_contents _ _ o Hs)).
  - eapply Forall_impl; [exact Haf|]. intros o. unfold okey_lt. by rewrite (proj1 (same_contents _ _ o Hs)).
  - eapply Forall_impl; [exact Hnew|]. intros o. by rewrite (proj1 (same_contents _ _ o Hs)).
Qed.

Lemma find_place a x :
  place a -> x ∈ s_head s :: P ->
  findSpliceForLevel (node_fuel a) a s k i x = Ret (default (s_head s) (last P), default (s_tail s) (head Q), false).
Proof.
  intros [Ha Hl He Hn _ Hb Haf Hnew] Hx. apply NoDup_cons in Hn as [_ Hn]. apply NoDup_cons in Hn as [_ Hn].
  rewrite app_assoc in Hn. apply NoDup_app in Hn as (Hn & Hd & _). apply NoDup_app in Hn as (Hn & _ & _).
  rewrite (find_level a s k i P Q x); try done.
  - destruct Q as [|o Q']; [done|]. apply Forall_cons in Hnew as [Ho _]. by rewrite bool_decide_eq_false_2 by done.
  - intros Ht. apply (Hd _ Ht). apply list_elem_of_here.
Qed.

Lemma link_level_ok a x y invalid fuel :
  place a -> x ∈ s_head s :: P -> y ∈ Q ++ [s_tail s] ->
  exists a' invalid', link_level (S (S fuel)) a s k nd i x y invalid = Ret (a', false, invalid') /\ linked_in a a'.
Proof.
  intros Hp Hx Hy. destruct (adjacent a x y Hp Hx Hy) as ([w Hw] & z & Hz & Hadj).
  destruct (decide (z = y)) as [->|Hne].
  { destruct (Hadj eq_refl) as [-> ->]. destruct (link_pred a (S fuel) invalid Hp) as (a' & H1 & H2). by exists a', invalid. }
  destruct (pl_node _ Hp) as [ln En]. remember (S fuel) as fuel' eqn:Ef. cbn [link_level].
  rewrite (set_links_ok _ _ _ _ _ En), bind_Ret. set (a1 := upd a nd i (mkLinks y x)).
  assert (place a1) as Hp1 by (by apply place_upd).
  assert (forall o, o ∈ s_head s :: P ++ Q ++ [s_tail s] -> link a1 o i = link a o i) as Hf.
  { intros o Ho. unfold a1. rewrite link_upd by done. rewrite decide_False; [done|]. intros [-> _].
    by pose proof (pl_nodup _ Hp) as Hn; apply NoDup_cons in Hn as [? _]. }
  assert (link a1 x i = link a x i) as Fx.
  { apply Hf. rewrite elem_of_cons, elem_of_app in *. rewrite !elem_of_cons, !elem_of_app in *. tauto. }
  assert (link a1 y i = link a y i) as Fy by (apply Hf; rewrite elem_of_cons, elem_of_app; tauto).
  rewrite (getPrev_ok a1 y i w) by (unfold pv; by rewrite Fy). rewrite bind_Ret.
  assert (nx a1 i x = Some z) as Hz1 by (unfold nx; by rewrite Fx).
  assert ((if w =? x then Ret a1 else
    prevNext ← getNext a1 x i;
    if prevNext =? y then '(a, _) ← casPrevOffset a1 y i w x; Ret a else Ret a1) = Ret a1) as ->.
  { destruct (w =? x); [done|]. by rewrite (getNext_ok _ _ _ _ Hz1), bind_Ret, (proj2 (Z.eqb_neq _ _)) by done. }
  rewrite bind_Ret. unfold casNextOffset.
  unfold nx in Hz1. destruct (link a1 x i) as [lx|] eqn:El; [|done]. injection Hz1 as Hz1.
  rewrite (get_links_ok _ _ _ _ El), bind_Ret, Hz1, (proj2 (Z.eqb_neq _ _)), bind_Ret by done.
  rewrite (find_place a1 x) by done. rewrite bind_Ret.
  subst fuel'. destruct (link_pred a1 fuel true Hp1) as (a' & H1 & H2 & H3 & H4). exists a', true.
  split; [exact H1|]. split; [eapply same_trans; [apply upd_same|exact H2]|]. split; [done|].
  intros o j Hoj. rewrite H4 by done. unfold a1. rewrite link_upd by done. rewrite decide_False; [done|].
  intros [-> ->]. destruct Hoj as [|Ho]; [done|]. apply Ho, list_elem_of_here.
Qed.
End level.

(** ** All levels *)
Section levels.
Context (a0 : Arena) (s : skiplist) (os p q : list Z) (k : InternalKey) (nd : Z) (h h0 : nat) (spl : list splice).
Context (Ha : arena_ok a0) (HS : Skl a0 s os) (Hsp : split_at a0 k os p q) (Hnew : k ∉ okey a0 <$> os).
Context (Hnd : nd ∉ s_head s :: s_tail s :: os) (Hht : ht a0 nd = h) (Hh : (h <= maxHeight)%nat).
Context (Hlen : length spl = maxHeight).
Context (Hon : forall i x, (i < h0)%nat -> spl !! i = Some x -> on_level a0 s os i x /\ around a0 s k x).
Context (Htop : forall i, (h0 <= i < maxHeight)%nat -> spl !! i = Some (0, 0)).

(** The nodes of a level, with the new one at the levels that are done. *)
Definition tower_chain (i j : nat) : list Z :=
  s_head s :: lvl a0 j p ++ (if (j <? i)%nat then [nd] else []) ++ lvl a0 j q ++ [s_tail s].
Record Linking (i : nat) (a : Arena) : Prop := {
  lk_same : same a0 a;
  lk_linked j : (j < maxHeight)%nat -> linked a j (tower_chain i j);
  lk_frame o j : o ∉ nd :: s_head s :: s_tail s :: os -> link a o j = link a0 o j;
}.

Lemma level_in j o : o ∈ s_head s :: lvl a0 j p ++ lvl a0 j q ++ [s_tail s] -> o ∈ s_head s :: s_tail s :: os.
Proof.
  rewrite elem_of_cons, !elem_of_app, list_elem_of_singleton, !elem_of_lvl, !elem_of_cons.
  destruct Hsp as [-> _ _]. rewrite elem_of_app. tauto.
Qed.

Lemma level_nodup j : NoDup (nd :: s_head s :: lvl a0 j p ++ lvl a0 j q ++ [s_tail s]).
Proof.
  pose proof (skl_nodup _ _ _ HS) as Hn. apply NoDup_cons in Hn as [H1 Hn]. apply NoDup_cons in Hn as [H2 Hn].
  destruct (level_facts a0 s os p q k HS Hsp j) as (E1 & _ & Ht & _).
  apply NoDup_cons. split; [intros Hin; by apply level_in in Hin|]. apply NoDup_cons. split.
  - rewrite app_assoc, <- E1, elem_of_app, elem_of_lvl, list_elem_of_singleton.
    rewrite elem_of_cons in H1. tauto.
  - rewrite app_assoc. apply NoDup_app. rewrite <- E1. split; [by apply NoDup_filter|]. split.
    + intros o Ho Ho2. apply list_elem_of_singleton in Ho2 as ->. rewrite E1 in Ho. done.
    + apply NoDup_singleton.
Qed.

Lemma Linking_place i a : Linking i a -> (i < h)%nat -> place s k nd i (lvl a0 i p) (lvl a0 i q) a.
Proof.
  intros [Hs Hl _] Hi. destruct (level_facts a0 s os p q k HS Hsp i) as (E1 & E2 & _ & E4 & E5 & _).
  assert (forall o, okey a o = okey a0 o) as Ek by (intros o; apply (same_contents _ _ o Hs)).
  split.
  - by apply (same_arena_ok a0).
  - specialize (Hl i ltac:(lia)). unfold tower_chain in Hl. by rewrite Nat.ltb_irrefl in Hl.
  - eapply Forall_impl; [exact E2|]. intros o. by apply same_entry_ok.
  - apply level_nodup.
  - apply link_lt. rewrite (same_ht _ _ Hs), Hht. done.
  - eapply Forall_impl; [exact E4|]. intros o. unfold okey_lt. by rewrite Ek.
  - eapply Forall_impl; [exact E5|]. intros o. unfold okey_lt. by rewrite Ek.
  - apply Forall_forall. intros o Ho Eo. apply Hnew. rewrite <- Eo, Ek. apply list_elem_of_fmap_2.
    apply elem_of_lvl in Ho as [_ Ho]. destruct Hsp as [-> _ _]. apply elem_of_app. by right.
Qed.

(** The nodes the splice has for a level, or the ends for a new level. *)
Lemma splice_at i :
  (i < h)%nat -> exists x y, (let '(prev, next) := nth i spl (0, 0) in
    if prev =? 0 then
      if negb (next =? 0) then Panic "next is expected to be nil, since prev is nil" else Ret (s_head s, s_tail s)
    else Ret (prev, next)) = Ret (x, y) /\ x ∈ s_head s :: lvl a0 i p /\ y ∈ lvl a0 i q ++ [s_tail s].
Proof.
  intros Hi. destruct (lookup_lt_is_Some_2 spl i) as [[x y] Hx]; [rewrite Hlen; lia|].
  rewrite (nth_lookup_Some _ _ _ _ Hx). destruct (decide (i < h0)%nat) as [Hlt|Hge].
  - destruct (Hon i _ Hlt Hx) as [[H1 H2] [H3 H4]]. cbn [fst snd] in *.
    rewrite (proj2 (Z.eqb_neq x 0)).
    + exists x, y. split; [done|]. split; [by apply (before_part a0 s os p q k)|by apply (after_part a0 s os p q k)].
    + apply (ht_not_nil a0 Ha). apply elem_of_cons in H1 as [->|H1]; [rewrite (skl_head _ _ _ HS); unfold maxHeight; lia|].
      apply elem_of_lvl in H1 as [? _]. lia.
  - rewrite Htop in Hx by lia. injection Hx as <- <-. cbn. eexists _, _. split; [done|].
    split; [apply list_elem_of_here|]. apply elem_of_app. right. apply list_elem_of_here.
Qed.

Lemma node_fuel_two a : same a0 a -> exists f, node_fuel a = S (S f).
Proof.
  intros Hs. rewrite (same_fuel _ _ Hs). unfold node_fuel.
  destruct (size (a_nodes a0)) as [|f] eqn:Es; [|by exists f].
  apply map_size_empty_iff in Es. pose proof (skl_head _ _ _ HS) as Hh'. unfold ht in Hh'.
  by rewrite Es, lookup_empty in Hh'.
Qed.

Lemma link_levels_ok : forall n i a invalid,
  (i + n = h)%nat -> Linking i a ->
  exists a' invalid', link_levels n i a s k nd spl invalid = Ret (a', false, invalid') /\ Linking h a'.
Proof.
  induction n as [|n IH]; intros i a invalid Hin Hlk; cbn [link_levels].
  { exists a, invalid. rewrite Nat.add_0_r in Hin. by subst i. }
  destruct (splice_at i ltac:(lia)) as (x & y & Es & Hx & Hy).
  destruct (nth i spl (0, 0)) as [prev next]. cbn beta iota in Es. rewrite Es, bind_Ret. clear Es.
  destruct (node_fuel_two a (lk_same _ _ Hlk)) as (f & ->).
  destruct (link_level_ok s k nd i _ _ a x y invalid f (Linking_place i a Hlk ltac:(lia)) Hx Hy)
    as (a1 & inv1 & -> & H1 & H2 & H3). rewrite bind_Ret.
  apply IH; [lia|]. destruct Hlk as [L1 L2 L3]. split.
  - by eapply same_trans.
  - intros j Hj. unfold tower_chain in *. destruct (decide (j = i)) as [->|Hne].
    + rewrite (proj2 (Nat.ltb_lt _ _)) by lia. exact H2.
    + assert ((j <? S i)%nat = (j <? i)%nat) as -> by (apply Bool.eq_iff_eq_true; rewrite !Nat.ltb_lt; lia).
      apply (linked_frame a); [|by apply L2]. intros o _. apply H3. by left.
  - intros o j Ho. rewrite H3; [by apply L3|]. right. intros Hin'. apply Ho.
    apply elem_of_cons in Hin' as [->|Hin']; [apply list_elem_of_here|].
    apply list_elem_of_further. by apply (level_in i).
Qed.
End levels.

(** ** Inserters and frames *)

(** The skiplist got more nodes. *)
Record grows (a : Arena) (s : skiplist) (os : list Z) (a' : Arena) (s' : skiplist) (os' : list Z) : Prop := {
  gr_head : s_head s' = s_head s;
  gr_tail : s_tail s' = s_tail s;
  gr_height : (s_height s <= s_height s')%nat;
  gr_in o : o ∈ os -> o ∈ os' /\ ht a' o = ht a o /\ okey a' o = okey a o;
}.

Section grows.
Context (a : Arena) (s : skiplist) (os : list Z) (a' : Arena) (s' : skiplist) (os' : list Z).
Context (HG : grows a s os a' s' os').

Lemma grows_level i o : o ∈ lvl a i os -> o ∈ lvl a' i os'.
Proof. rewrite !elem_of_lvl. intros [Hi Ho]. destruct (gr_in _ _ _ _ _ _ HG o Ho) as (? & -> & _). done. Qed.
Lemma grows_before k i o : o ∈ s_head s :: lvl a i os -> before a' s' k o <-> before a s k o.
Proof.
  intros Ho. unfold before, okey_lt. rewrite (gr_head _ _ _ _ _ _ HG).
  apply elem_of_cons in Ho as [->|Ho]; [tauto|]. apply elem_of_lvl in Ho as [_ Ho].
  by destruct (gr_in _ _ _ _ _ _ HG o Ho) as (_ & _ & ->).
Qed.
Lemma grows_after k i o : o ∈ lvl a i os ++ [s_tail s] -> after a' s' k o <-> after a s k o.
Proof.
  intros Ho. unfold after, okey_lt. rewrite (gr_tail _ _ _ _ _ _ HG).
  apply elem_of_app in Ho as [Ho|Ho]; [|apply list_elem_of_singleton in Ho as ->; tauto].
  apply elem_of_lvl in Ho as [_ Ho]. by destruct (gr_in _ _ _ _ _ _ HG o Ho) as (_ & _ & ->).
Qed.
Lemma grows_on i x : on_level a s os i x -> on_level a' s' os' i x.
Proof.
  unfold on_level. rewrite (gr_head _ _ _ _ _ _ HG), (gr_tail _ _ _ _ _ _ HG), !elem_of_cons, !elem_of_app.
  pose proof (grows_level i). intros [[|] [|]]; auto.
Qed.
Lemma grows_around k i x : on_level a s os i x -> around a s k x -> around a' s' k x.
Proof.
  intros [H1 H2] [H3 H4]. split; [by apply (grows_before k i)|by apply (grows_after k i)].
Qed.

(** Inserters stay good. *)
Lemma InsOK_stable ins : InsOK a s os ins -> InsOK a' s' os' ins.
Proof.
  pose proof (gr_height _ _ _ _ _ _ HG). intros [Hle [S1 S2 S3 S4]]. split; [lia|]. split.
  - done.
  - intros i Hi. apply S2. lia.
  - intros i x Hi Hx. by apply grows_on, S3.
  - intros i x x' Hi Hi' Hx Hx' k. destruct (S4 i x x' Hi Hi' Hx Hx' k) as [H1 H2].
    destruct (S3 i x ltac:(lia) Hx) as [O1 O2]. destruct (S3 (S i) x' ltac:(lia) Hx') as [O3 O4].
    rewrite (grows_before k i), (grows_before k (S i)), (grows_after k i), (grows_after k (S i)) by done. done.
Qed.
End grows.

Lemma lookup_map_take {A} (f : A -> A) h (l : list A) i x :
  ((f <$> take h l) ++ drop h l) !! i = Some x ->
  exists y, l !! i = Some y /\ x = if decide (i < h)%nat then f y else y.
Proof.
  rewrite lookup_app, list_lookup_fmap. case_decide as Hi.
  - rewrite lookup_take_lt by done. destruct (l !! i) as [y|] eqn:Ey; cbn.
    + intros Hx. injection Hx as <-. by exists y.
    + rewrite lookup_drop. intros Hx. apply lookup_lt_Some in Hx. apply lookup_ge_None in Ey. lia.
  - rewrite lookup_take_ge by lia. cbn. rewrite length_fmap, length_take, lookup_drop.
    intros Hx. exists x. split; [|done]. rewrite <- Hx. f_equal. apply lookup_lt_Some in Hx. lia.
Qed.

(** The splice of the inserter that has added a node starts at the node. *)
Lemma InsOK_added a s os k nd h ins :
  InsOK a s os ins -> nd ∈ os -> nd <> s_head s -> ht a nd = h -> okey a nd = k -> (h <= s_height s)%nat ->
  (forall i x, (i < i_height ins)%nat -> i_spl ins !! i = Some x -> around a s k x) ->
  InsOK a s os
    (mkIns ((set_prev nd <$> take h (i_spl ins)) ++ drop h (i_spl ins)) (i_height ins)).
Proof.
  intros [Hle [S1 S2 S3 S4]] Hnd Hne Hh Hk Hhs Har.
  set (spl' := (set_prev nd <$> take h (i_spl ins)) ++ drop h (i_spl ins)).
  assert (forall i x, spl' !! i = Some x -> exists y, i_spl ins !! i = Some y /\
    x = if decide (i < h)%nat then set_prev nd y else y) as Hl.
  { intros i x. apply lookup_map_take. }
  assert (length spl' = maxHeight) as Hlen by (unfold spl'; len).
  split; [done|]. cbn [i_height i_spl]. split.
  - done.
  - intros i Hi. destruct (lookup_lt_is_Some_2 spl' i) as [x Hx]; [lia|]. etransitivity; [exact Hx|].
    destruct (Hl i x Hx) as (y & Hy & ->). rewrite decide_False by lia. etransitivity; [exact (eq_sym Hy)|by apply S2].
  - intros i x Hi Hx. destruct (Hl i x Hx) as (y & Hy & ->). destruct (S3 i y Hi Hy) as [O1 O2].
    case_decide; [|done]. split; [|done]. cbn [set_prev fst]. apply list_elem_of_further, elem_of_lvl. by rewrite Hh.
  - intros i x x' Hi Hi' Hx Hx' k'. destruct (Hl i x Hx) as (y & Hy & ->), (Hl (S i) x' Hx') as (y' & Hy' & ->).
    destruct (S4 i y y' Hi Hi' Hy Hy' k') as [H1 H2]. do 2 case_decide; try lia; cbn [set_prev fst snd]; try done.
    split; [|done]. intros [->|Hb]; [done|]. destruct (Har (S i) y' Hi' Hy') as [[->|Hb'] _]; [by left|]. right.
    apply (okey_lt_trans _ _ _ nd); [by rewrite Hk|done].
Qed.

(** Arenas that agree on everything but some nodes. *)
Record keeps (F : list Z) (a a' : Arena) : Prop := {
  kp_n : a_n a <= a_n a';
  kp_len : a_len a' = a_len a;
  kp_nodes o n : o ∉ F -> a_nodes a !! o = Some n -> a_nodes a' !! o = Some n;
  kp_buf j m : (m <= Z.to_nat (a_n a))%nat -> slice (a_buf a') j m = slice (a_buf a) j m;
}.
Lemma extends_keeps F a a' : extends a a' -> keeps F a a'.
Proof. intros []. split; auto. Qed.
Lemma keeps_extends a a' : keeps [] a a' -> extends a a'.
Proof. intros []. split; auto. intros o n. apply kp_nodes0. by apply not_elem_of_nil. Qed.
Lemma keeps_trans F a b c : keeps F a b -> keeps F b c -> keeps F a c.
Proof.
  intros [] []. split; [lia|congruence|auto|]. intros j m Hm. rewrite kp_buf1 by lia. auto.
Qed.

Lemma keeps_entry F a a' o :
  keeps F a a' -> o ∉ F -> entry_ok a o -> entry_ok a' o /\ okey a' o = okey a o /\ ovalue a' o = ovalue a o.
Proof.
  intros H Ho (n & Hn & Hok). pose proof (kp_nodes _ _ _ H o n Ho Hn) as Hn'.
  pose proof (kp_n _ _ _ H). pose proof (kp_len _ _ _ H). pose proof Hok as (? & ? & ? & ? & ?).
  unfold entry_ok, okey, ovalue, node_key, node_value. rewrite Hn, Hn', !(kp_buf _ _ _ H) by lia.
  split; [|done]. exists n. split; [done|]. unfold node_ok. lia.
Qed.

Definition node_entry (a : Arena) (o : Z) : entry := (okey a o, ovalue a o).
Definition contents (a : Arena) (os : list Z) : list entry := node_entry a <$> os.

(** A skiplist with other nodes stays as it is. *)
Lemma Skl_keeps F a a' s os :
  Skl a s os -> keeps F a a' -> (forall o, o ∈ s_head s :: s_tail s :: os -> o ∉ F) ->
  Skl a' s os /\ contents a' os = contents a os.
Proof.
  intros [H1 H2 H3 H4 H5 H6 H7 H8] Hk HF.
  assert (forall o, o ∈ s_head s :: s_tail s :: os -> (0 < ht a o)%nat -> a_nodes a' !! o = a_nodes a !! o) as Hn.
  { intros o Ho Hh. unfold ht in Hh. destruct (a_nodes a !! o) as [n|] eqn:En; [|lia].
    by rewrite (kp_nodes _ _ _ Hk o n (HF o Ho) En). }
  rewrite Forall_forall in H5, H6.
  assert (forall o, o ∈ s_head s :: s_tail s :: os -> (0 < ht a o)%nat) as Hp.
  { intros o Ho. rewrite !elem_of_cons in Ho. destruct Ho as [->|[->|Ho]]; [rewrite H1|rewrite H2|];
      [unfold maxHeight; lia..|]. destruct (H6 o Ho). lia. }
  assert (forall o, o ∈ s_head s :: s_tail s :: os -> ht a' o = ht a o /\ forall i, link a' o i = link a o i) as Hl.
  { intros o Ho. unfold ht, link. rewrite Hn by auto. done. }
  assert (forall o, o ∈ os -> o ∈ s_head s :: s_tail s :: os) as Hin by (intros; by do 2 apply list_elem_of_further).
  assert (forall o, o ∈ os -> entry_ok a' o /\ okey a' o = okey a o /\ ovalue a' o = ovalue a o) as He.
  { intros o Ho. apply (keeps_entry F); auto. }
  split.
  - split; [| |done|done| | | |].
    + rewrite (proj1 (Hl _ ltac:(apply list_elem_of_here))). done.
    + rewrite (proj1 (Hl _ ltac:(apply list_elem_of_further, list_elem_of_here))). done.
    + apply Forall_forall. intros o Ho. by apply He.
    + apply Forall_forall. intros o Ho. rewrite (proj1 (Hl o (Hin o Ho))). auto.
    + intros i Hi. rewrite (lvl_frame a a') by (intros o Ho; apply Hl; auto).
      apply (linked_frame a); [|by apply H7]. intros o Ho. apply Hl.
      rewrite elem_of_cons, elem_of_app, elem_of_lvl, list_elem_of_singleton in Ho. rewrite !elem_of_cons. tauto.
    + clear -H8 He. induction H8 as [|x l Hs IH Hx]; constructor; [apply IH; intros; apply He; by apply list_elem_of_further|].
      apply Forall_forall. intros y Hy. rewrite Forall_forall in Hx. specialize (Hx y Hy). unfold okey_lt in *.
      destruct (He x ltac:(apply list_elem_of_here)) as (_ & -> & _).
      destruct (He y ltac:(by apply list_elem_of_further)) as (_ & -> & _). done.
  - apply list_fmap_ext. intros j o Ho. apply list_elem_of_lookup_2 in Ho. unfold node_entry. destruct (He o Ho) as (_ & -> & ->). done.
Qed.

(** ** Adding *)
Lemma height_loop_bounds fuel rnd h : (1 <= h <= maxHeight)%nat -> (1 <= height_loop fuel rnd h <= maxHeight)%nat.
Proof.
  revert h. induction fuel as [|fuel IH]; intros h Hh; cbn [height_loop]; [done|].
  destruct (Nat.ltb_spec h maxHeight); cbn [andb]; [|done]. destruct (rnd <=? _); [apply IH; lia|done].
Qed.

(** The linked node makes the skiplist one longer. *)
Lemma Linking_Skl a0 a s os p q k nd h s' :
  Skl a0 s os -> split_at a0 k os p q -> k ∉ okey a0 <$> os -> nd ∉ s_head s :: s_tail s :: os ->
  ht a0 nd = h -> (1 <= h <= maxHeight)%nat -> entry_ok a0 nd -> okey a0 nd = k ->
  s' = mkSkl (s_head s) (s_tail s) (Nat.max (s_height s) h) ->
  Linking a0 s os p q nd h a -> Skl a s' (p ++ nd :: q).
Proof.
  intros [H1 H2 H3 H4 H5 H6 H7 H8] [-> Hp Hq] Hnew Hnd Hht Hh He Hk -> [L1 L2 L3].
  assert (forall o, okey a o = okey a0 o) as Ek by (intros o; apply (same_contents _ _ o L1)).
  pose proof (same_ht _ _ L1) as Eh. rewrite Forall_app in H5, H6. destruct H5 as [H5 H5'], H6 as [H6 H6'].
  split; cbn [s_head s_tail s_height].
  - by rewrite Eh.
  - by rewrite Eh.
  - assert (s_head s :: s_tail s :: p ++ nd :: q ≡ₚ nd :: s_head s :: s_tail s :: p ++ q) as ->.
    { by rewrite <- Permutation_middle, (Permutation_swap nd (s_tail s)), (Permutation_swap nd (s_head s)). }
    by apply NoDup_cons.
  - lia.
  - assert (forall o, entry_ok a0 o -> entry_ok a o) as Hse by (intros o; by apply same_entry_ok).
    apply Forall_app. split; [exact (Forall_impl _ _ _ H5 Hse)|].
    constructor; [by apply Hse|exact (Forall_impl _ _ _ H5' Hse)].
  - assert (forall o, (1 <= ht a0 o <= s_height s)%nat -> (1 <= ht a o <= Nat.max (s_height s) h)%nat) as Hse
      by (intros o; rewrite Eh; lia).
    apply Forall_app. split; [exact (Forall_impl _ _ _ H6 Hse)|].
    constructor; [rewrite Eh; lia|exact (Forall_impl _ _ _ H6' Hse)].
  - intros i Hi. specialize (L2 i Hi). unfold tower_chain in L2. rewrite (lvl_frame a0 a) by auto.
    rewrite lvl_app. unfold lvl at 2. rewrite filter_cons. rewrite <- app_assoc.
    destruct (Nat.ltb_spec i h); [rewrite decide_True by lia|rewrite decide_False by lia]; exact L2.
  - apply StronglySorted_app. apply StronglySorted_app in H8 as (S1 & S2 & S3).
    rewrite Forall_forall in Hp, Hq.
    assert (forall o, o ∈ q -> okey_lt a0 (okey a0 o) nd) as Hlt.
    { intros o Ho. specialize (Hq o Ho). unfold okey_lt in *. rewrite Hk.
      rewrite InternalCompare_antisym in Hq. destruct (InternalCompare k (okey a0 o)) eqn:Ec; [|done|done].
      apply InternalCompare_eq in Ec. destruct Hnew. rewrite Ec. apply list_elem_of_fmap_2, elem_of_app. by right. }
    assert (forall l, StronglySorted (fun x y => okey_lt a0 (okey a0 y) x) l ->
      StronglySorted (fun x y => okey_lt a (okey a y) x) l) as Hsame.
    { intros l. induction 1 as [|x l Hs IH Hx]; constructor; [done|]. eapply Forall_impl; [exact Hx|].
      intros y. unfold okey_lt. by rewrite !Ek. }
    split; [|split; [by apply Hsame|]].
    + intros x y Hx Hy. unfold okey_lt. rewrite !Ek. apply elem_of_cons in Hy as [->|Hy]; [|by apply S1].
      rewrite Hk. by apply Hp.
    + constructor; [by apply Hsame|]. apply Forall_forall. intros o Ho. unfold okey_lt. rewrite !Ek. by apply Hlt.
Qed.

Lemma Skl_height a s os h :
  Skl a s os -> (s_height s <= h <= maxHeight)%nat -> Skl a (mkSkl (s_head s) (s_tail s) h) os.
Proof.
  intros [H1 H2 H3 H4 H5 H6 H7 H8] Hh. split; cbn [s_head s_tail s_height]; try done; [lia|].
  eapply Forall_impl; [exact H6|]. cbn. lia.
Qed.

Lemma same_node a a' o :
  same a a' -> (forall j, link a' o j = link a o j) -> a_nodes a' !! o = a_nodes a !! o.
Proof.
  intros H Hl. pose proof (same_nodes _ _ H o) as En. unfold link in Hl.
  destruct (a_nodes a' !! o) as [n'|], (a_nodes a !! o) as [n|]; try done. apply (inj Some) in En. f_equal.
  assert (tower n' = tower n) as Et by (by apply list_eq). destruct n, n'. unfold no_tower in En. cbn in *. by simplify_eq.
Qed.

Lemma split_same a a' k os p q :
  (forall o, o ∈ os -> okey a' o = okey a o) -> split_at a k os p q -> split_at a' k os p q.
Proof.
  intros He [-> Hp Hq]. split; [done| |]; apply Forall_forall; intros o Ho; unfold okey_lt;
    (rewrite He by (apply elem_of_app; auto)).
  - rewrite Forall_forall in Hp. by apply Hp.
  - rewrite Forall_forall in Hq. by apply Hq.
Qed.

(** An entry that can be added to a skiplist at all. *)
Definition fits (key : InternalKey) (value : bytes) : Prop :=
  Z.of_nat (length (UserKey key)) + Z.of_nat (length value) + arenaskl_maxNodeSize < 2 ^ 32.
Definition has_room (a : Arena) (key : InternalKey) (value : bytes) : Prop :=
  room a (Z.of_nat (length (UserKey key))) (Z.of_nat (length value)).

(** Linking a node that has been allocated. *)
Section link.
Context (a a0 : Arena) (s : skiplist) (os p q : list Z) (key : InternalKey) (value : bytes) (nd : Z) (h : nat).
Context (ins : Inserter).
Context (HS : Skl a s os) (Hsp : split_at a key os p q) (Hnew : key ∉ okey a <$> os).
Context (Ha0 : arena_ok a0) (Hext : extends a a0) (Hfresh : a_nodes a !! nd = None).
Context (He : entry_ok a0 nd) (Hk : okey a0 nd = key) (Hv : ovalue a0 nd = value) (Hht : ht a0 nd = h).
Context (Hh : (1 <= h <= maxHeight)%nat).
Context (HI : InsOK a s os ins) (Hih : i_height ins = s_height s).
Context (Har : forall i x, (i < s_height s)%nat -> i_spl ins !! i = Some x -> around a s key x).

Let s' : skiplist := mkSkl (s_head s) (s_tail s) (Nat.max (s_height s) h).
Let os' : list Z := p ++ nd :: q.

Lemma fresh_not_in : nd ∉ s_head s :: s_tail s :: os.
Proof.
  assert (ht a nd = 0%nat) as H0 by (unfold ht; by rewrite Hfresh). rewrite !elem_of_cons. intros [->|[->|Ho]].
  - by rewrite (skl_head _ _ _ HS) in H0.
  - by rewrite (skl_tail _ _ _ HS) in H0.
  - pose proof (skl_heights _ _ _ HS) as H6. rewrite Forall_forall in H6. destruct (H6 nd Ho). lia.
Qed.
Lemma os_in o : o ∈ os -> o ∈ os' /\ a_nodes a0 !! o = a_nodes a !! o /\ okey a0 o = okey a o /\ ovalue a0 o = ovalue a o.
Proof.
  intros Ho. pose proof (skl_entries_ok _ _ _ HS) as H5. rewrite Forall_forall in H5.
  destruct (extends_entry a a0 o Hext (H5 o Ho)) as (_ & -> & -> & ->). split; [|done].
  unfold os'. destruct Hsp as [-> _ _]. rewrite elem_of_app, elem_of_cons. apply elem_of_app in Ho. tauto.
Qed.

Lemma linking_done : exists a' invalid, link_levels h 0 a0 s' key nd (i_spl ins) false = Ret (a', false, invalid) /\
  same a0 a' /\ Skl a' s' os' /\ forall o j, o ∉ nd :: s_head s :: s_tail s :: os -> link a' o j = link a0 o j.
Proof.
  destruct HI as [Hle [S1 S2 S3 S4]].
  destruct (Skl_keeps [] a a0 s os HS (extends_keeps _ _ _ Hext)) as [HS0 _]; [intros; apply not_elem_of_nil|].
  pose proof (skl_height _ _ _ HS) as Hhs.
  assert (Skl a0 s' os) as HS1 by (apply Skl_height; [done|lia]).
  assert (grows a s os a0 s' os) as HG.
  { split; [done|done|cbn; lia|]. intros o Ho. destruct (os_in o Ho) as (_ & En & Eo & _).
    split; [done|]. split; [unfold ht; by rewrite En|done]. }
  assert (split_at a0 key os p q) as Hsp0 by (apply (split_same a); [intros o Ho; by apply os_in|done]).
  assert (key ∉ okey a0 <$> os) as Hnew0.
  { intros Hin. apply Hnew. apply list_elem_of_fmap in Hin as (o & Ek & Ho). apply list_elem_of_fmap.
    exists o. split; [|done]. rewrite Ek. by apply os_in. }
  destruct (link_levels_ok a0 s' os p q key nd h (s_height s) (i_spl ins) Ha0 HS1 Hsp0 Hnew0 fresh_not_in Hht
    ltac:(lia) S1) with (n := h) (i := 0%nat) (a := a0) (invalid := false) as (a' & invalid & El & Hlk); [| |done| |].
  - intros i x Hi Hx. rewrite Hih in S3. specialize (S3 i x ltac:(lia) Hx).
    split; [by apply (grows_on a s os)|]. apply (grows_around a s os a0 s' os HG key i); [done|by apply (Har i)].
  - intros i Hi. by apply S2.
  - split; [done| |done]. intros j Hj. unfold tower_chain. cbn [Nat.ltb Nat.leb app].
    pose proof (skl_linked _ _ _ HS1 j Hj) as Hl.
    rewrite (proj1 (level_facts a0 s' os p q key HS1 Hsp0 j)), <- app_assoc in Hl. exact Hl.
  - exists a', invalid. split; [done|]. split; [apply (lk_same _ _ _ _ _ _ _ _ Hlk)|].
    split; [|apply (lk_frame _ _ _ _ _ _ _ _ Hlk)].
    apply (Linking_Skl a0 a' s' os p q key nd h s'); try done; [apply fresh_not_in|].
    unfold s'. cbn. f_equal. lia.
Qed.

Lemma linked_contents a' : same a0 a' -> contents a' os' ≡ₚ (key, value) :: contents a os.
Proof.
  intros Hsame. unfold contents, os'.
  assert (forall l : list Z, (forall o, o ∈ l -> o ∈ os) ->
    node_entry a' <$> l = node_entry a <$> l) as Hl.
  { intros l Hin. apply list_fmap_ext. intros j o Ho. apply list_elem_of_lookup_2, Hin in Ho. unfold node_entry.
    destruct (same_contents _ _ o Hsame) as [-> ->]. destruct (os_in o Ho) as (_ & _ & -> & ->). done. }
  pose proof (split_eq _ _ _ _ _ Hsp) as Eos.
  rewrite fmap_app, fmap_cons, !Hl by (intros o; rewrite Eos, elem_of_app; auto).
  unfold node_entry at 2. destruct (same_contents _ _ nd Hsame) as [-> ->]. rewrite Hk, Hv, <- Permutation_middle, <- fmap_app.
  by rewrite <- Eos.
Qed.

Lemma linked_grows a' : same a0 a' -> grows a s os a' s' os'.
Proof.
  intros Hsame. split; [done|done|cbn; lia|]. intros o Ho. destruct (os_in o Ho) as (? & En & Eo & _).
  split; [done|]. rewrite (same_ht _ _ Hsame), (proj1 (same_contents _ _ o Hsame)), Eo. unfold ht. by rewrite En.
Qed.

Lemma linked_keeps a' :
  same a0 a' -> (forall o j, o ∉ nd :: s_head s :: s_tail s :: os -> link a' o j = link a0 o j) ->
  keeps (s_head s :: s_tail s :: os) a a'.
Proof.
  intros Hsame Hf. destruct Hext as [X1 X2 X3 X4]. split.
  - by rewrite (same_n _ _ Hsame).
  - unfold a_len in *. by rewrite (same_buf _ _ Hsame).
  - intros o n Ho Hn. rewrite (same_node a0 a' o); [by apply X3|done|]. intros j. apply Hf.
    rewrite elem_of_cons. intros [->|?]; [|done]. congruence.
  - intros j m Hm. rewrite (same_buf _ _ Hsame). by apply X4.
Qed.

Lemma linked_inserter a' invalid :
  same a0 a' -> Skl a' s' os' ->
  InsOK a' s' os' (if invalid : bool then mkIns (i_spl ins) 0
    else mkIns ((set_prev nd <$> take h (i_spl ins)) ++ drop h (i_spl ins)) (i_height ins)).
Proof.
  intros Hsame HS'. pose proof (linked_grows a' Hsame) as HG.
  pose proof (InsOK_stable a s os a' s' os' HG ins HI) as HI'. destruct invalid.
  - destruct HI' as [_ [S1 S2 S3 S4]]. split; [cbn; lia|]. split; [done|done|cbn; lia|cbn; lia].
  - apply (InsOK_added a' s' os' key); [done| | | | | |].
    + unfold os'. apply elem_of_app. right. apply list_elem_of_here.
    + pose proof fresh_not_in as Hf. intros ->. apply Hf, list_elem_of_here.
    + by rewrite (same_ht _ _ Hsame).
    + by rewrite (proj1 (same_contents _ _ nd Hsame)).
    + cbn. lia.
    + intros i x Hi Hx. destruct HI as [_ [S1 S2 S3 S4]].
      apply (grows_around a s os a' s' os' HG key i); [apply S3; [lia|done]|apply (Har i); [lia|done]].
Qed.
End link.

(** A new key is added, unless the arena is full. *)
Lemma addInternal_new a s os ins key value :
  arena_ok a -> Skl a s os -> InsOK a s os ins -> key ∉ okey a <$> os -> fits key value ->
  exists a' s' ins' r os', addInternal a s key value ins = Ret (a', s', ins', r) /\ arena_ok a' /\
    keeps (s_head s :: s_tail s :: os) a a' /\ grows a s os a' s' os' /\ Skl a' s' os' /\ InsOK a' s' os' ins' /\
    (forall o, o ∈ os' -> o ∈ os \/ a_nodes a !! o = None) /\
    match r with
    | None => has_room a key value /\ contents a' os' ≡ₚ (key, value) :: contents a os /\
        a_n a < a_n a' <= a_n a + MaxNodeSize (Z.of_nat (length (UserKey key))) (Z.of_nat (length value))
    | Some e => e = ErrArenaFull /\ ~ has_room a key value /\ contents a' os' = contents a os
    end.
Proof.
  intros Ha HS HI Hnew Hfit. destruct (split_exists a key os (skl_sorted _ _ _ HS)) as (p & q & Hsp).
  destruct (findSplice_ok a s os key Ha HS p q Hsp ins HI) as (ins1 & found & Ef & HI1 & Hih & Har & Hfound & _).
  unfold addInternal. rewrite Ef, bind_Ret. destruct found; [by destruct Hnew; apply Hfound|]. clear Ef Hfound HI ins.
  unfold skl_newNode, randomHeight. set (a1 := a <| a_rand := S (a_rand a) |>).
  set (h := height_loop maxHeight (fastrand_Uint32 (a_rand a)) 1).
  assert (1 <= h <= maxHeight)%nat as Hh by (apply height_loop_bounds; unfold maxHeight; lia).
  assert (extends a a1 /\ arena_ok a1) as [X1 Ha1] by (by destruct Ha).
  destruct (newNode_ok a1 h key value Ha1 Hh Hfit) as (a0 & r & En & Ha0 & X0 & _ & Hr).
  pose proof (extends_trans _ _ _ X1 X0) as Hext. rewrite En, bind_Ret. destruct r as [nd|].
  - destruct Hr as (Hroom & Hn & Hfresh & _ & He & Hk & Hv & Hht & _). rewrite bind_Ret.
    destruct (linking_done a a0 s os p q key value nd h ins1 HS Hsp Hnew Ha0 Hext Hfresh He Hk Hv Hht Hh HI1 Hih Har)
      as (a' & invalid & -> & Hsame & HS' & Hframe).
    rewrite bind_Ret. eexists a', _, _, None, (p ++ nd :: q). split; [done|].
    split; [by apply (same_arena_ok a0)|]. split; [by apply (linked_keeps a a0 s os nd)|].
    split; [by apply (linked_grows a a0 s os p q key nd h ins1)|]. split; [done|].
    split; [by apply (linked_inserter a a0 s os p q key value nd h ins1)|]. split.
    + intros o. rewrite elem_of_app, elem_of_cons, (split_eq _ _ _ _ _ Hsp), elem_of_app.
      intros [?|[->|?]]; auto.
    + split; [done|]. split; [by apply (linked_contents a a0 s os p q key value nd h ins1)|].
      rewrite (same_n _ _ Hsame). change (a_n a1) with (a_n a) in Hn. unfold MaxNodeSize, nodeAlignment. lia.
  - destruct Hr as [Hroom _]. rewrite bind_Ret.
    destruct (Skl_keeps [] a a0 s os HS (extends_keeps _ _ _ Hext)) as [HS0 Hc]; [intros; apply not_elem_of_nil|].
    assert (grows a s os a0 s os) as HG.
    { split; [done..|]. intros o Ho. pose proof (skl_entries_ok _ _ _ HS) as H5. rewrite Forall_forall in H5.
      destruct (extends_entry a a0 o Hext (H5 o Ho)) as (_ & -> & _ & En'). unfold ht. by rewrite En'. }
    eexists a0, s, ins1, (Some ErrArenaFull), os. split; [done|]. split; [done|]. split; [by apply extends_keeps|].
    split; [done|]. split; [done|]. split; [by apply (InsOK_stable a s os)|]. split; [auto|done].
Qed.

(** A key that is there already is refused, unless a cached splice hides it. *)
Lemma addInternal_exists a s os ins key value :
  arena_ok a -> Skl a s os -> InsOK a s os ins -> key ∈ okey a <$> os -> (i_height ins < s_height s)%nat ->
  exists ins', addInternal a s key value ins = Ret (a, s, ins', Some ErrRecordExists) /\ InsOK a s os ins'.
Proof.
  intros Ha HS HI Hin Hlt. destruct (split_exists a key os (skl_sorted _ _ _ HS)) as (p & q & Hsp).
  destruct (findSplice_ok a s os key Ha HS p q Hsp ins HI) as (ins1 & found & Ef & HI1 & _ & _ & _ & Hf).
  unfold addInternal. rewrite Ef, bind_Ret, Hf, bool_decide_eq_true_2 by done. by exists ins1.
Qed.
End add.
