(* ===== verification/ArenasklIter.v ===== *)
(** Skiplists of memtables (Arenaskl.v): making one, and iterating over it. *)
From S2P Require Import Prelude.
From S2P Require Import Comparer.
From S2P Require Import InternalKey.
From S2P Require Import GoStd.
From S2P Require Import Iterators.
From S2P Require Import Arenaskl.
From S2P Require Import ArenasklAlloc.
From S2P Require Import ArenasklSpec.
From S2P Require Import ArenasklAdd.
From stdpp Require Import sorting.

Local Open Scope Z_scope.

Lemma linked_lookup a i c j x y :
  linked a i c -> c !! j = Some x -> c !! S j = Some y -> nx a i x = Some y /\ pv a i y = Some x.
Proof.
  revert j. induction c as [|z [|w c] IH]; intros j Hl Hx Hy; [done|by destruct j|].
  apply linked_cons in Hl as (H1 & H2 & Hl). destruct j as [|j].
  - injection Hx as <-. injection Hy as <-. done.
  - by apply (IH j).
Qed.

(** The iterators over a skiplist. *)
#[local] Instance skl_iterator {C : Comparer} (a : Arena) (s : skiplist) : InternalIterator sklIter := {|
  op_SeekGE := ai_SeekGE a s;
  op_SeekPrefixGE := ai_SeekPrefixGE a s;
  op_SeekLT := ai_SeekLT a s;
  op_First := ai_First a s;
  op_Last := ai_Last a s;
  op_Next := ai_Next a s;
  op_NextPrefix := ai_NextPrefix a s;
  op_Prev := ai_Prev a s;
  op_SetBounds it lower upper := Ret (ai_SetBounds it lower upper);
|}.

Section iter.
Context {C : Comparer} {L : ComparerLaws C} {E : ArenaEnv}.
Context (a : Arena) (s : skiplist) (os : list Z) (Ha : arena_ok a) (HS : Skl a s os).
Let kvs := contents a os.

(** ** The base level *)
Definition prev_at (n : nat) : Z := match n with O => s_head s | S m => default (s_head s) (os !! m) end.
Definition next_at (n : nat) : Z := default (s_tail s) (os !! n).

Lemma lvl_base l : (forall o, o ∈ l -> o ∈ os) -> lvl a 0 l = l.
Proof.
  pose proof (skl_heights _ _ _ HS) as H6. rewrite Forall_forall in H6.
  induction l as [|o l IH]; [done|]. intros Hl. unfold lvl in *. rewrite filter_cons, decide_True, IH; [done| |].
  - intros o' Ho'. apply Hl. by apply list_elem_of_further.
  - destruct (H6 o); [apply Hl, list_elem_of_here|lia].
Qed.
Lemma base_links n : (n <= length os)%nat -> nx a 0 (prev_at n) = Some (next_at n) /\ pv a 0 (next_at n) = Some (prev_at n).
Proof.
  intros Hn. pose proof (skl_linked _ _ _ HS 0 ltac:(unfold maxHeight; lia)) as Hl.
  rewrite lvl_base in Hl by done. apply (linked_lookup _ _ _ n _ _ Hl).
  - unfold prev_at. destruct n as [|n]; [done|].
    change ((s_head s :: os ++ [s_tail s]) !! S n) with ((os ++ [s_tail s]) !! n). rewrite lookup_app_l by lia.
    destruct (lookup_lt_is_Some_2 os n ltac:(lia)) as [o ->]. done.
  - unfold next_at. change ((s_head s :: os ++ [s_tail s]) !! S n) with ((os ++ [s_tail s]) !! n). destruct (decide (n < length os)%nat) as [Hlt|Hge].
    + rewrite lookup_app_l by lia. destruct (lookup_lt_is_Some_2 os n Hlt) as [o ->]. done.
    + rewrite lookup_app_r, (lookup_ge_None_2 os n) by lia. by replace (n - length os)%nat with O by lia.
Qed.
Lemma base_in o : o ∈ os -> entry_ok a o /\ o <> s_head s /\ o <> s_tail s.
Proof.
  intros Ho. pose proof (skl_entries_ok _ _ _ HS) as H5. rewrite Forall_forall in H5. split; [auto|].
  pose proof (skl_nodup _ _ _ HS) as Hn. rewrite !NoDup_cons, elem_of_cons in Hn. destruct Hn as (H1 & H2 & _).
  split; intros ->; tauto.
Qed.
Lemma ends_differ : s_head s <> s_tail s.
Proof. pose proof (skl_nodup _ _ _ HS) as Hn. rewrite NoDup_cons, elem_of_cons in Hn. tauto. Qed.

(** ** Reading *)
Lemma read_ok o : o ∈ os -> exists n, a_nodes a !! o = Some n /\ getKeyBytes a n = Ret (UserKey (okey a o)) /\
  keyTrailer n = Trailer (okey a o) /\ getValue a n = Ret (ovalue a o).
Proof.
  intros Ho. destruct (base_in o Ho) as ((n & Hn & Hok) & _). exists n. split; [done|].
  unfold okey, ovalue. rewrite Hn. destruct Hok as (H1 & H2 & H3 & H4 & H5). pose proof (aok_len _ Ha).
  unfold getKeyBytes, getValue, getBytes. rewrite (proj2 (Z.eqb_neq (keyOffset n) 0)) by lia.
  rewrite buf_slice_ok by done. rewrite u32_small by lia.
  rewrite (proj2 (Z.eqb_neq (keyOffset n + keySize n) 0)) by lia. split; [done|]. split; [done|].
  unfold buf_slice. rewrite u32_small by lia.
  rewrite (proj2 (Z.ltb_ge (_ + valueSize n) _)), (proj2 (Z.ltb_ge (a_len a) _)) by lia. done.
Qed.

(** The iterator has the bounds and is at the position. *)
Definition at_pos (st : iter_state) (it : sklIter) : Prop :=
  ai_lower it = st_lower st /\ ai_upper it = st_upper st /\
  match st_pos st with
  | PosAt j => exists o, os !! j = Some o /\ ai_nd it = o /\ ai_key it = okey a o
  | PosBefore => ai_nd it = s_head s
  | PosAfter => ai_nd it = s_tail s
  | PosNone => True
  end.

Lemma kvs_lookup n : kvs !! n = node_entry a <$> os !! n.
Proof. apply list_lookup_fmap. Qed.

(** The upper bound is compared the other way round. *)
Lemma upper_above upper k :
  match upper with Some u => bool_decide (Compare u (UserKey k) <> Gt) | None => false end = above upper k.
Proof.
  destruct upper as [u|]; [|done]. cbn. apply bool_decide_ext. rewrite (compare_antisym (UserKey k) u).
  by destruct (Compare (UserKey k) u).
Qed.
Lemma lower_below lower k :
  match lower with Some u => bool_decide (Compare u (UserKey k) = Gt) | None => false end = below lower k.
Proof.
  destruct lower as [u|]; [|done]. cbn. apply bool_decide_ext. rewrite (compare_antisym (UserKey k) u).
  by destruct (Compare (UserKey k) u).
Qed.

Lemma forward_ok st it n :
  ai_lower it = st_lower st -> ai_upper it = st_upper st -> ai_nd it = next_at n ->
  exists it', ai_forward a s it = Ret (it', (forward kvs st n).2) /\ at_pos (forward kvs st n).1 it'.
Proof.
  intros Hl Hu Hnd. unfold ai_forward, forward. rewrite kvs_lookup. unfold next_at in Hnd.
  destruct (os !! n) as [o|] eqn:Ho; cbn [default from_option id fmap option_fmap option_map] in *.
  - apply list_elem_of_lookup_2 in Ho as Hin. destruct (base_in o Hin) as (_ & _ & Hne).
    rewrite Hnd, (proj2 (Z.eqb_neq _ _)) by done. destruct (read_ok o Hin) as (nd & En & Ek & Et & Ev).
    unfold decodeKey, node_at. rewrite Hnd, En, bind_Ret, Ek, !bind_Ret, Et.
    replace (mkInternalKey (UserKey (okey a o)) (Trailer (okey a o))) with (okey a o) by (by destruct (okey a o)).
    set (it1 := it <| ai_key := okey a o |>).
    change (ai_upper it1) with (ai_upper it). change (ai_key it1) with (okey a o).
    rewrite upper_above, Hu. cbn [in_upper mbind option_bind fst node_entry]. destruct (above (st_upper st) (okey a o)).
    + eexists. split; [done|]. by split; [|split].
    + unfold ai_value, node_at. change (ai_nd it1) with (ai_nd it). rewrite Hnd, En, bind_Ret, Ev, bind_Ret.
      eexists. split; [done|]. split; [done|]. split; [done|]. by exists o.
  - rewrite Hnd, Z.eqb_refl. exists it. by repeat split.
Qed.

Lemma backward_ok st it n :
  (n <= length os)%nat -> ai_lower it = st_lower st -> ai_upper it = st_upper st -> ai_nd it = prev_at n ->
  exists it', ai_backward a s it = Ret (it', (backward kvs st n).2) /\ at_pos (backward kvs st n).1 it'.
Proof.
  intros Hn Hl Hu Hnd. unfold ai_backward, backward. destruct n as [|n]; cbn [prev_at pred] in *.
  { rewrite Hnd, Z.eqb_refl. exists it. by repeat split. }
  rewrite kvs_lookup. destruct (lookup_lt_is_Some_2 os n ltac:(lia)) as [o Ho]. rewrite Ho in *.
  cbn [default from_option id fmap option_fmap option_map] in *.
  apply list_elem_of_lookup_2 in Ho as Hin. destruct (base_in o Hin) as (_ & Hne & _).
  rewrite Hnd, (proj2 (Z.eqb_neq _ _)) by done. destruct (read_ok o Hin) as (nd & En & Ek & Et & Ev).
  unfold decodeKey, node_at. rewrite Hnd, En, bind_Ret, Ek, !bind_Ret, Et.
  replace (mkInternalKey (UserKey (okey a o)) (Trailer (okey a o))) with (okey a o) by (by destruct (okey a o)).
  set (it1 := it <| ai_key := okey a o |>).
  change (ai_lower it1) with (ai_lower it). change (ai_key it1) with (okey a o).
  rewrite lower_below, Hl. cbn [in_lower mbind option_bind fst node_entry]. destruct (below (st_lower st) (okey a o)).
  - eexists. split; [done|]. by split; [|split].
  - unfold ai_value, node_at. change (ai_nd it1) with (ai_nd it). rewrite Hnd, En, bind_Ret, Ev, bind_Ret.
    eexists. split; [done|]. split; [done|]. split; [done|]. by exists o.
Qed.

(** ** Seeking *)
Context (Htr : Forall (fun e => 0 <= Trailer e.1 <= no_more) kvs).

Lemma kvs_sorted : ikey_sorted fst kvs.
Proof.
  unfold kvs, contents, ikey_sorted. apply (StronglySorted_fmap _ (fun x y => okey_lt a (okey a y) x)); [done|].
  apply (skl_sorted _ _ _ HS).
Qed.

(** The nodes before the search key are the first ones, as many as its rank. *)
Lemma search_split key p q : split_at a (MakeSearchKey key) os p q -> length p = rank kvs key.
Proof.
  intros [Eos Hp Hq]. destruct (rank_spec kvs kvs_sorted key) as [Hr Hsplit]. rewrite Forall_forall in Hp, Hq.
  pose proof (proj1 (Forall_forall _ _) Htr) as Htr'.
  assert (length kvs = length os) as Hlen by apply length_fmap. rewrite Eos, length_app in Hlen.
  assert (forall j o, os !! j = Some o -> (j < rank kvs key)%nat <-> okey_lt a (MakeSearchKey key) o) as Hb.
  { intros j o Ho. assert (kvs !! j = Some (node_entry a o)) as Hk by (by rewrite kvs_lookup, Ho).
    rewrite (Hsplit j _ Hk). unfold okey_lt. symmetry. apply (search_key key (node_entry a o)).
    apply Htr'. exact (list_elem_of_lookup_2 _ _ _ Hk). }
  destruct (lt_eq_lt_dec (length p) (rank kvs key)) as [[Hlt|]|Hgt]; [|done|]; exfalso.
  - destruct (lookup_lt_is_Some_2 q 0 ltac:(lia)) as [o Ho]. apply (Hq o); [by apply (list_elem_of_lookup_2 _ 0)|].
    apply (Hb (length p)); [|done]. by rewrite Eos, lookup_app_r, Nat.sub_diag by lia.
  - destruct (lookup_lt_is_Some_2 p (rank kvs key) Hgt) as [o Ho].
    assert (okey_lt a (MakeSearchKey key) o) as Ho' by (by apply Hp, (list_elem_of_lookup_2 _ (rank kvs key))).
    apply (Hb (rank kvs key)) in Ho'; [lia|]. by rewrite Eos, lookup_app_l.
Qed.

Lemma pred_base p q : os = p ++ q -> pred_at a s 0 p = prev_at (length p).
Proof.
  intros Eos. unfold pred_at, prev_at. rewrite lvl_base by (intros o Ho; rewrite Eos; apply elem_of_app; by left).
  rewrite last_lookup. destruct (length p) as [|n] eqn:En; [by destruct p|]. cbn [pred].
  by rewrite Eos, lookup_app_l by lia.
Qed.
Lemma succ_base p q : os = p ++ q -> succ_at a s 0 q = next_at (length p).
Proof.
  intros Eos. unfold succ_at, next_at. rewrite lvl_base by (intros o Ho; rewrite Eos; apply elem_of_app; by right).
  by rewrite Eos, lookup_app_r, Nat.sub_diag, head_lookup by lia.
Qed.

(** A node with the search key that is found at a higher level is the one at the base. *)
Lemma found_base k p q i o l :
  split_at a k os p q -> lvl a i q = o :: l -> okey a o = k -> succ_at a s 0 q = o.
Proof.
  intros [Eos _ Hq] Hl Hk. unfold succ_at.
  rewrite lvl_base by (intros o' Ho'; rewrite Eos; apply elem_of_app; by right).
  assert (o ∈ q) as Ho.
  { assert (o ∈ lvl a i q) as Hin by (rewrite Hl; apply list_elem_of_here). by apply elem_of_lvl in Hin as [_ ?]. }
  destruct q as [|z q']; [inversion Ho|]. cbn. apply elem_of_cons in Ho as [->|Ho]; [done|].
  pose proof (skl_sorted _ _ _ HS) as Hs. rewrite Eos in Hs. apply StronglySorted_app_1_r in Hs.
  apply StronglySorted_cons in Hs as [Hs _]. rewrite Forall_forall in Hs. specialize (Hs o Ho). rewrite Hk in Hs.
  by apply Forall_cons in Hq as [Hq _].
Qed.

Lemma seek_levels_ok k p q : split_at a k os p q -> forall level prev,
  (level < maxHeight)%nat -> prev ∈ s_head s :: lvl a level p ->
  exists found, seek_levels level a s k prev = Ret (prev_at (length p), next_at (length p), found).
Proof.
  intros Hsp. pose proof (split_eq _ _ _ _ _ Hsp) as Eos.
  assert (length p <= length os)%nat as Hlen by (rewrite Eos, length_app; lia).
  induction level as [|level IH]; intros prev Hl Hp; cbn [seek_levels];
    rewrite (find_at a s os p q k Ha HS Hsp _ prev Hl Hp), bind_Ret.
  - rewrite (pred_base p q Eos), (succ_base p q Eos).
    destruct (lvl a 0 q); [by eexists|]. destruct (bool_decide _); [cbn [Nat.eqb negb]; rewrite bind_Ret|]; by eexists.
  - destruct (lvl a (S level) q) as [|o l] eqn:El.
    + apply IH; [lia|]. pose proof (pred_in a s p (S level)) as Hin.
      apply elem_of_cons in Hin as [->|Hin]; [apply list_elem_of_here|].
      apply list_elem_of_further. by apply (lvl_lvl _ _ (S level)); [lia|].
    + case_bool_decide as Hk.
      * pose proof (found_base k p q (S level) o l Hsp El Hk) as Hb. rewrite (succ_base p q Eos) in Hb.
        assert (succ_at a s (S level) q = o) as -> by (unfold succ_at; by rewrite El). rewrite <- Hb.
        cbn [Nat.eqb negb]. rewrite (getPrev_ok _ _ _ _ (proj2 (base_links (length p) Hlen))), bind_Ret. by eexists.
      * apply IH; [lia|]. pose proof (pred_in a s p (S level)) as Hin.
        apply elem_of_cons in Hin as [->|Hin]; [apply list_elem_of_here|].
        apply list_elem_of_further. by apply (lvl_lvl _ _ (S level)); [lia|].
Qed.

Lemma seekForBaseSplice_ok key :
  exists found, seekForBaseSplice a s key = Ret (prev_at (rank kvs key), next_at (rank kvs key), found).
Proof.
  destruct (split_exists a (MakeSearchKey key) os (skl_sorted _ _ _ HS)) as (p & q & Hsp).
  rewrite <- (search_split key p q Hsp). pose proof (skl_height _ _ _ HS).
  apply (seek_levels_ok _ p q Hsp); [lia|apply list_elem_of_here].
Qed.

(** ** All calls *)
Lemma next_ok st it n :
  (n <= length os)%nat -> ai_lower it = st_lower st -> ai_upper it = st_upper st -> ai_nd it = prev_at n ->
  exists it', ai_Next a s it = Ret (it', (forward kvs st n).2) /\ at_pos (forward kvs st n).1 it'.
Proof.
  intros Hn Hl Hu Hnd. unfold ai_Next. rewrite Hnd, (getNext_ok _ _ _ _ (proj1 (base_links n Hn))), bind_Ret.
  by apply forward_ok.
Qed.
Lemma prev_ok st it n :
  (n <= length os)%nat -> ai_lower it = st_lower st -> ai_upper it = st_upper st -> ai_nd it = next_at n ->
  exists it', ai_Prev a s it = Ret (it', (backward kvs st n).2) /\ at_pos (backward kvs st n).1 it'.
Proof.
  intros Hn Hl Hu Hnd. unfold ai_Prev. rewrite Hnd, (getPrev_ok _ _ _ _ (proj2 (base_links n Hn))), bind_Ret.
  by apply backward_ok.
Qed.
Lemma seek_ok st it key :
  ai_lower it = st_lower st -> ai_upper it = st_upper st ->
  exists it', ai_seek a s it key = Ret (it', (forward kvs st (rank kvs key)).2) /\
    at_pos (forward kvs st (rank kvs key)).1 it'.
Proof.
  intros Hl Hu. unfold ai_seek. destruct (seekForBaseSplice_ok key) as (found & ->). rewrite bind_Ret.
  by apply forward_ok.
Qed.

Lemma length_kvs : length kvs = length os.
Proof. apply length_fmap. Qed.

(** After an entry out of bounds there is none in bounds. *)
Lemma forward_none st j n :
  (j <= n <= length kvs)%nat -> (forward kvs st j).2 = None -> (forward kvs st n).2 = None.
Proof.
  intros Hjn. unfold forward, in_upper. cbn [snd]. destruct (kvs !! n) as [y|] eqn:Hy; [|done].
  destruct (lookup_lt_is_Some_2 kvs j) as [x Hx]; [apply lookup_lt_Some in Hy; lia|]. rewrite Hx. cbn [mbind option_bind].
  destruct (above (st_upper st) x.1) eqn:Ea; [|done]. intros _.
  by rewrite (above_mono kvs kvs_sorted _ j n x y Hx Hy ltac:(lia) Ea).
Qed.

Lemma at_rank j o it key :
  os !! j = Some o -> ai_key it = okey a o ->
  bool_decide (Compare (UserKey (ai_key it)) key = Lt) = bool_decide (j < rank kvs key)%nat.
Proof.
  intros Ho ->. apply bool_decide_ext. destruct (rank_spec kvs kvs_sorted key) as [_ Hsplit].
  rewrite (Hsplit j (node_entry a o)); [done|]. by rewrite kvs_lookup, Ho.
Qed.
Lemma value_ok j it :
  at_pos (mkState (ai_lower it) (ai_upper it) (PosAt j) false) it ->
  exists v, ai_value a it = Ret v /\ kvs !! j = Some (ai_key it, v).
Proof.
  intros (_ & _ & o & Ho & Hnd & Hk). destruct (read_ok o (list_elem_of_lookup_2 _ _ _ Ho)) as (n & En & _ & _ & Ev).
  exists (ovalue a o). unfold ai_value, node_at. rewrite Hnd, En, bind_Ret. split; [done|].
  by rewrite kvs_lookup, Ho, Hk.
Qed.

Lemma forward_at st j e :
  kvs !! j = Some e -> (forward kvs st j).2 <> None ->
  forward kvs st j = (mkState (st_lower st) (st_upper st) (PosAt j) false, Some e).
Proof.
  unfold forward. intros ->. unfold in_upper. cbn [mbind option_bind snd]. by destruct (above _ _).
Qed.

Lemma try_next_ok key st : forall n j it,
  at_pos (mkState (st_lower st) (st_upper st) (PosAt j) false) it -> (j <= rank kvs key)%nat ->
  (forward kvs st j).2 <> None ->
  exists it' t, try_next n a s it key = Ret (it', t) /\ ai_lower it' = st_lower st /\ ai_upper it' = st_upper st /\
    match t with
    | TryDone => (forward kvs st (rank kvs key)).2 = None /\ at_pos (forward kvs st (rank kvs key)).1 it'
    | TryAt r => (forward kvs st (rank kvs key)).2 = r /\ at_pos (forward kvs st (rank kvs key)).1 it'
    | TryLess => True
    end.
Proof.
  pose proof (proj1 (rank_spec kvs kvs_sorted key)) as Hr.
  induction n as [|n IH]; intros j it Hat Hj Hin; pose proof Hat as (Hl & Hu & o & Ho & Hnd & Hk);
    cbn [st_lower st_upper] in Hl, Hu; cbn [try_next]; rewrite (at_rank j o it key Ho Hk);
    destruct (bool_decide_reflect (j < rank kvs key)%nat) as [Hlt|Hge].
  1: by eexists _, TryLess.
  1,3: (assert (rank kvs key = j) as -> by lia); rewrite <- Hl, <- Hu in Hat; destruct (value_ok j it Hat) as (v & -> & Hv);
    rewrite bind_Ret, (forward_at st j _ Hv Hin); eexists it, _; (split; [done|]);
    rewrite Hl, Hu in Hat; done.
  destruct (next_ok st it (S j)) as (it1 & E1 & Hp1); [apply lookup_lt_Some in Ho; lia|done|done| |].
  { rewrite Hnd. cbn. by rewrite Ho. }
  rewrite E1, bind_Ret. destruct (forward kvs st (S j)).2 as [e|] eqn:Ef.
  - apply (IH (S j)); [|lia|by rewrite Ef]. unfold forward in Ef, Hp1. cbn [fst snd] in *. by rewrite Ef in Hp1.
  - destruct Hp1 as (Hl1 & Hu1 & Hp1). eexists it1, TryDone. split; [done|]. split; [done|]. split; [done|].
    pose proof (forward_none st (S j) (rank kvs key) ltac:(lia) Ef) as Hn. split; [done|].
    split; [done|]. split; [done|]. unfold forward in Hn, Hp1, Ef |- *. cbn [fst snd st_pos] in *. by rewrite Hn; rewrite Ef in Hp1.
Qed.

Lemma SeekGE_ok st it key try_ :
  at_pos st it -> try_ && negb (may_try kvs st key) = false ->
  exists it', ai_SeekGE a s it key try_ = Ret (it', (forward kvs st (rank kvs key)).2) /\
    at_pos (forward kvs st (rank kvs key)).1 it'.
Proof.
  intros Hat Htry. pose proof Hat as (Hl & Hu & Hp). unfold ai_SeekGE. destruct try_; [|by apply seek_ok].
  apply negb_false_iff in Htry. unfold may_try in Htry. destruct (st_pos st) as [j| | |] eqn:Ep; try done.
  - destruct Hp as (o & Ho & Hnd & Hk). destruct (base_in o (list_elem_of_lookup_2 _ _ _ Ho)) as (_ & _ & Hne).
    rewrite (proj2 (Z.eqb_neq (ai_nd it) (s_tail s))) by congruence. apply andb_prop in Htry as [Hj Ha'].
    apply Nat.leb_le in Hj. destruct (try_next_ok key st 5 j it) as (it' & t & -> & Hl' & Hu' & Ht); [split; [done|]; split; [done|]; by exists o|done| |].
    + unfold forward, in_upper. destruct (kvs !! j); [|done]. cbn. by destruct (above _ _).
    + rewrite bind_Ret. destruct t as [|r|].
      * destruct Ht as [-> Ht]. by exists it'.
      * destruct Ht as [-> Ht]. by exists it'.
      * by apply seek_ok.
  - rewrite Hp, Z.eqb_refl. exists it. unfold forward. cbn [fst snd].
    destruct (in_upper _ _); [done|]. split; [done|]. by split_and!.
Qed.

Lemma skl_simulates : simulates (H := skl_iterator a s) kvs at_pos.
Proof.
  intros st it c st' r Hat Hc. pose proof Hat as (Hl & Hu & Hp).
  assert (forall p : iter_state * option entry, Some p = Some (st', r) ->
    forall g : go ai_result, (exists it', g = Ret (it', p.2) /\ at_pos p.1 it') -> exists it', g = Ret (it', r) /\ at_pos st' it')
    as Hfin by (intros p [= ->] g Hg; exact Hg).
  destruct c as [key t|p key t|key| | | |key| |lo up]; cbn [abs_call call op_SeekGE op_SeekPrefixGE op_SeekLT op_First op_Last op_Next op_NextPrefix op_Prev op_SetBounds skl_iterator] in *.
  - destruct (t && _) eqn:Et; [done|]. apply (Hfin _ Hc). by apply SeekGE_ok.
  - destruct (t && _) eqn:Et; [done|]. apply (Hfin _ Hc). by apply SeekGE_ok.
  - apply (Hfin _ Hc). unfold ai_SeekLT. destruct (seekForBaseSplice_ok key) as (found & ->). rewrite bind_Ret.
    apply backward_ok; [|done|done|done]. rewrite <- length_kvs. apply (rank_spec kvs kvs_sorted).
  - apply (Hfin _ Hc). unfold ai_First. rewrite (getNext_ok a (s_head s) 0 (next_at 0) (proj1 (base_links 0 ltac:(lia)))), bind_Ret.
    by apply forward_ok.
  - apply (Hfin _ Hc). unfold ai_Last. rewrite length_kvs.
    destruct (base_links (length os) ltac:(lia)) as [_ Hb]. unfold next_at in Hb. rewrite lookup_ge_None_2 in Hb by lia.
    rewrite (getPrev_ok a (s_tail s) 0 _ Hb), bind_Ret. by apply backward_ok.
  - destruct (st_pos st) as [j| | |]; try done; apply (Hfin _ Hc); apply next_ok; try done; try lia.
    + destruct Hp as (o & Ho & _). apply lookup_lt_Some in Ho. lia.
    + destruct Hp as (o & Ho & -> & _). cbn. by rewrite Ho.
  - destruct (st_pos st) as [j| | |] eqn:Ep; try done. destruct (may_try _ _ _) eqn:Em; [|done].
    destruct (st_reverse st); [done|]. apply (Hfin _ Hc). apply SeekGE_ok; [done|]. by rewrite Em.
  - destruct (st_pos st) as [j| | |]; try done; apply (Hfin _ Hc).
    + destruct Hp as (o & Ho & Hnd & _). apply prev_ok; try done; [apply lookup_lt_Some in Ho; lia|].
      unfold next_at. by rewrite Ho, Hnd.
    + rewrite length_kvs. apply prev_ok; try done. unfold next_at. by rewrite lookup_ge_None_2 by lia.
  - injection Hc as <- <-. eexists. split; [done|]. by split_and!.
Qed.

(** A new iterator is before the first entry. *)
Lemma at_pos_new lower upper : at_pos (mkState lower upper PosBefore false) (skl_NewIter s lower upper).
Proof. done. Qed.

(** A loop over all entries. *)
Lemma ai_loop_ok : forall fuel j it,
  let st := mkState None None PosNone false in
  (length os - j < fuel)%nat -> at_pos (forward kvs st j).1 it ->
  ai_loop fuel a s (it, (forward kvs st j).2) = Ret (drop j kvs).
Proof.
  induction fuel as [|fuel IH]; intros j it st Hf Hat; [lia|]. unfold forward, in_upper in Hat |- *. cbn [fst snd st_upper st] in *.
  destruct (kvs !! j) as [e|] eqn:Ej; cbn [mbind option_bind above] in *.
  - assert (j < length os)%nat as Hj by (rewrite <- length_kvs; by apply lookup_lt_Some in Ej).
    destruct Hat as (Hl & Hu & o & Ho & Hnd & _). cbn [ai_loop].
    destruct (next_ok st it (S j)) as (it' & -> & Hat'); [lia|done|done|cbn; by rewrite Ho|].
    rewrite bind_Ret. fold st in IH. rewrite (IH (S j) it' ltac:(lia) Hat'), bind_Ret. by rewrite (drop_S _ _ _ Ej).
  - rewrite drop_ge; [by destruct fuel|]. by apply lookup_ge_None.
Qed.
Lemma skl_entries_spec : skl_entries a s = Ret kvs.
Proof.
  unfold skl_entries, ai_First.
  rewrite (getNext_ok a (s_head s) 0 (next_at 0) (proj1 (base_links 0 ltac:(lia)))), bind_Ret.
  destruct (forward_ok (mkState None None PosNone false) ((skl_NewIter s None None) <| ai_nd := next_at 0 |>) 0) as (it & -> & Hat);
    [done..|]. rewrite bind_Ret. apply (ai_loop_ok (node_fuel a) 0 it); [|done].
  pose proof (skl_nodup _ _ _ HS) as Hn. rewrite !NoDup_cons in Hn. rewrite Nat.sub_0_r.
  apply fuel_ok; [tauto|apply (skl_entries_ok _ _ _ HS)].
Qed.
End iter.
