(* ===== verification/ArenasklRun.v ===== *)
(** Skiplists of memtables (Arenaskl.v) in use: making them, several of them in one arena,
    and any sequence of additions to a new skiplist, with the iterators over the result. *)
From stdpp Require Import sorting.
From S2P Require Import Prelude.
From S2P Require Import Comparer.
From S2P Require Import InternalKey.
From S2P Require Import GoStd.
From S2P Require Import Iterators.
From S2P Require Import Arenaskl.
From S2P Require Import ArenasklAlloc.
From S2P Require Import ArenasklSpec.
From S2P Require Import ArenasklAdd.
From S2P Require Import ArenasklIter.

Local Open Scope Z_scope.

(** ** Making a skiplist *)
Lemma upd_nodes a o i l o' : o' <> o -> a_nodes (upd a o i l) !! o' = a_nodes a !! o'.
Proof. intros Ho. unfold upd. destruct (a_nodes a !! o); [|done]. cbn. by rewrite lookup_insert_ne. Qed.

Lemma link_ends_ok head tail : head <> tail -> forall n a, (n <= ht a head)%nat -> (n <= ht a tail)%nat ->
  exists a', link_ends n a head tail = Ret a' /\ same a a' /\
    (forall o, o <> head -> o <> tail -> a_nodes a' !! o = a_nodes a !! o) /\
    (forall o i, (n <= i)%nat -> link a' o i = link a o i) /\
    (forall i, (i < n)%nat -> nx a' i head = Some tail /\ pv a' i tail = Some head).
Proof.
  intros Hne. induction n as [|n IH]; intros a Hh Ht.
  { exists a. split_and!; [done|apply same_refl|done|done|lia]. }
  destruct (proj1 (link_lt a head n) ltac:(lia)) as [lh Elh]. destruct (proj1 (link_lt a tail n) ltac:(lia)) as [lt Elt].
  cbn [link_ends]. rewrite (set_links_ok _ _ _ _ _ Elh), bind_Ret. set (a1 := upd a head n _).
  pose proof (upd_same a head n (mkLinks tail (prevOffset lh)) : same a a1) as S1.
  assert (forall o j, link a1 o j = if decide (o = head /\ j = n) then Some (mkLinks tail (prevOffset lh)) else link a o j) as L1
    by (intros; apply link_upd; by eexists).
  assert (link a1 tail n = Some lt) as Elt1 by (rewrite L1, decide_False by (intros []; congruence); done).
  rewrite (set_links_ok _ _ _ _ _ Elt1), bind_Ret. set (a2 := upd a1 tail n _).
  pose proof (upd_same a1 tail n (mkLinks (nextOffset lt) head) : same a1 a2) as S2.
  assert (forall o j, link a2 o j = if decide (o = tail /\ j = n) then Some (mkLinks (nextOffset lt) head) else link a1 o j) as L2
    by (intros; apply link_upd; by eexists).
  pose proof (same_trans _ _ _ S1 S2) as S12.
  destruct (IH a2) as (a' & -> & S' & N' & F' & I'); [rewrite (same_ht _ _ S12); lia..|].
  exists a'. split; [done|]. split; [by apply (same_trans _ a2)|]. split_and!.
  - intros o Ho Ho'. rewrite N' by done. unfold a2, a1. by rewrite !upd_nodes by done.
  - intros o i Hi. rewrite F', L2, L1 by lia. rewrite !decide_False by (intros []; lia). done.
  - intros i Hi. destruct (decide (i = n)) as [->|]; [|apply I'; lia].
    unfold nx, pv. rewrite !F', !L2, !L1 by lia. rewrite decide_False by (intros []; congruence).
    rewrite !decide_True by done. done.
Qed.

Section reset.
Context {C : Comparer} {E : ArenaEnv}.

(** The head and the tail of a skiplist are nodes without a key. *)
Lemma end_node a :
  arena_ok a ->
  match newRawNode a maxHeight 0 0 with
  | (_, None) => ~ room a 0 0
  | (a1, Some nd) => room a 0 0 /\ exists n, node_at a1 nd = Ret n /\
      let a2 := put_node a1 nd (n <| keyOffset := 0 |>) in
      arena_ok a2 /\ extends a a2 /\ a_nodes a !! nd = None /\ ht a2 nd = maxHeight /\
      a_n a2 = a_n a + arenaskl_maxNodeSize + 3
  end.
Proof.
  intros Ha. pose proof (aok_n _ Ha). pose proof (aok_len _ Ha).
  pose proof (newRawNode_spec a maxHeight 0 0 Ha ltac:(unfold maxHeight; lia) ltac:(lia) ltac:(lia) ltac:(done)) as Hspec.
  destruct (newRawNode a maxHeight 0 0) as [a1 [nd|]]; [|tauto].
  destruct Hspec as (n & al & -> & H1 & H2 & H3 & H4). split; [done|]. unfold room in H4. rewrite !Z.add_0_r in *.
  change arenaskl_maxNodeSize with 184 in *. change (Z.of_nat maxHeight * linksSize) with 160 in *.
  set (n0 := mkNode _ _ _ _ _ _). set (a1 := put_node _ nd n0).
  assert (a_nodes a1 !! nd = Some n0) as E1 by (cbn; by rewrite lookup_insert, decide_True by done).
  exists n0. unfold node_at. rewrite E1. split; [done|]. set (a2 := put_node a1 nd _).
  assert (a_nodes a2 = <[nd := n0 <| keyOffset := 0 |>]> (<[nd := n0]> (a_nodes a))) as E2 by done.
  assert (a_nodes a !! nd = None) as Hfresh.
  { destruct (a_nodes a !! nd) as [x|] eqn:Ex; [|done]. pose proof (aok_nodes _ Ha nd x Ex). lia. }
  split_and!; [| |done| |done].
  - split; [change (a_n a2) with n; lia|done|]. intros o x. rewrite E2. change (a_n a2) with n.
    destruct (decide (o = nd)) as [->|Ho]; [lia|]. rewrite !lookup_insert_ne by done. intros Hx.
    pose proof (aok_nodes _ Ha o x Hx). lia.
  - split; [change (a_n a2) with n; lia|done| |done]. intros o x Hx. rewrite E2, !lookup_insert_ne by congruence. done.
  - unfold ht. rewrite E2, lookup_insert, decide_True by done. change (length (stale nd <$> seq 0 maxHeight) = maxHeight).
    by rewrite length_fmap, length_seq.
Qed.

(** Two times the space of a node is enough for an empty skiplist. *)
Definition ends_size : Z := 2 * (arenaskl_maxNodeSize + 3).
Lemma skl_Reset_ok a :
  arena_ok a -> a_n a + ends_size <= a_len a ->
  exists a' s, skl_Reset a = Ret (a', s) /\ arena_ok a' /\ extends a a' /\ Skl a' s [] /\
    a_nodes a !! s_head s = None /\ a_nodes a !! s_tail s = None /\ a_n a' = a_n a + ends_size.
Proof.
  intros Ha Hroom. unfold ends_size in *. change arenaskl_maxNodeSize with 184 in Hroom. unfold skl_Reset.
  pose proof (end_node a Ha) as H1. destruct (newRawNode a maxHeight 0 0) as [a1 [head|]];
    [|destruct H1; unfold room; change arenaskl_maxNodeSize with 184; lia].
  destruct H1 as (_ & n1 & -> & Ha2 & X2 & F2 & T2 & N2). rewrite bind_Ret.
  set (a2 := put_node a1 head _) in *. pose proof (ext_len _ _ X2) as L2. change arenaskl_maxNodeSize with 184 in N2.
  pose proof (end_node a2 Ha2) as H3. destruct (newRawNode a2 maxHeight 0 0) as [a3 [tail|]];
    [|destruct H3; unfold room; change arenaskl_maxNodeSize with 184; lia].
  destruct H3 as (_ & n3 & -> & Ha4 & X4 & F4 & T4 & N4). rewrite bind_Ret. set (a4 := put_node a3 tail _) in *.
  assert (exists x, a_nodes a2 !! head = Some x) as [x Hx]
    by (unfold ht in T2; destruct (a_nodes a2 !! head) as [x|]; [by exists x|done]).
  assert (head <> tail) as Hne by congruence.
  assert (ht a4 head = maxHeight) as T4'.
  { unfold ht in *. by rewrite (ext_nodes _ _ X4 head x Hx), Hx in *. }
  destruct (link_ends_ok head tail Hne maxHeight a4 ltac:(lia) ltac:(lia)) as (a5 & -> & S5 & N5 & _ & I5).
  rewrite bind_Ret. eexists a5, _. split; [done|]. split; [by apply (same_arena_ok a4)|].
  assert (a_nodes a !! tail = None) as Ft.
  { destruct (a_nodes a !! tail) as [y|] eqn:Ey; [|done]. by rewrite (ext_nodes _ _ X2 tail y Ey) in F4. }
  split; [|split; [|split; [done|split; [done|]]]].
  - pose proof (extends_trans _ _ _ X2 X4) as X. split.
    + rewrite (same_n _ _ S5). apply (ext_n _ _ X).
    + unfold a_len. rewrite (same_buf _ _ S5). apply (ext_len _ _ X).
    + intros o n Hn. rewrite N5 by congruence. by apply (ext_nodes _ _ X).
    + intros j k Hk. rewrite (same_buf _ _ S5). by apply (ext_buf _ _ X).
  - split; cbn [s_head s_tail s_height]; [by rewrite (same_ht _ _ S5)|by rewrite (same_ht _ _ S5)| |unfold maxHeight; lia|done|done| |constructor].
    + rewrite NoDup_cons, elem_of_cons, elem_of_nil. split; [tauto|]. apply NoDup_singleton.
    + intros i Hi. destruct (I5 i Hi) as [I1 I2]. done.
  - rewrite (same_n _ _ S5). change arenaskl_maxNodeSize with 184 in *. lia.
Qed.
End reset.

(** ** Several skiplists *)
Section many.
Context {C : Comparer} {L : ComparerLaws C} {E : ArenaEnv}.

Definition owned (x : skiplist * list Z) : list Z := s_head x.1 :: s_tail x.1 :: x.2.
(** Skiplists, with their nodes, that have no node in common. *)
Record Skls (a : Arena) (l : list (skiplist * list Z)) : Prop := {
  skls_arena : arena_ok a;
  skls_each i x : l !! i = Some x -> Skl a x.1 x.2;
  skls_apart i j x y : l !! i = Some x -> l !! j = Some y -> i <> j -> forall o, o ∈ owned x -> o ∉ owned y;
}.

Lemma owned_nodes a x o : Skl a x.1 x.2 -> o ∈ owned x -> a_nodes a !! o <> None.
Proof.
  intros HS. unfold owned. rewrite !elem_of_cons. intros Ho Hn.
  assert (ht a o = O) as Hz by (unfold ht; by rewrite Hn). pose proof (skl_heights _ _ _ HS) as H6.
  rewrite Forall_forall in H6. destruct Ho as [->|[->|Ho]].
  - by rewrite (skl_head _ _ _ HS) in Hz.
  - by rewrite (skl_tail _ _ _ HS) in Hz.
  - destruct (H6 o Ho). lia.
Qed.

Lemma grows_keeps F a a' s os :
  Skl a s os -> keeps F a a' -> (forall o, o ∈ owned (s, os) -> o ∉ F) -> grows a s os a' s os.
Proof.
  intros HS Hk HF. split; [done..|]. intros o Ho. split; [done|]. pose proof (skl_entries_ok _ _ _ HS) as H5.
  rewrite Forall_forall in H5. assert (o ∉ F) as Hn by (apply HF; by do 2 apply list_elem_of_further).
  destruct (keeps_entry F a a' o Hk Hn (H5 o Ho)) as (_ & -> & _). destruct (H5 o Ho) as (n & En & _).
  unfold ht. by rewrite (kp_nodes _ _ _ Hk o n Hn En), En.
Qed.

Lemma Skls_new a : arena_ok a -> Skls a [].
Proof. intros Ha. by split. Qed.

Lemma Skls_Reset a l :
  Skls a l -> a_n a + ends_size <= a_len a ->
  exists a' s, skl_Reset a = Ret (a', s) /\ Skls a' (l ++ [(s, [])]) /\ a_len a' = a_len a /\
    a_n a' = a_n a + ends_size /\ forall i x, l !! i = Some x -> contents a' x.2 = contents a x.2.
Proof.
  intros [Ha He Hd] Hroom. destruct (skl_Reset_ok a Ha Hroom) as (a' & s & Er & Ha' & X & HS & Fh & Ft & Hn).
  assert (forall i x, l !! i = Some x -> Skl a' x.1 x.2 /\ contents a' x.2 = contents a x.2) as Hk.
  { intros i x Hx. apply (Skl_keeps []); [by apply (He i)|by apply extends_keeps|]. intros. apply not_elem_of_nil. }
  exists a', s. split; [done|]. split; [|split; [apply (ext_len _ _ X)|split; [done|intros i x Hx; by apply (Hk i)]]].
  assert (forall o, o ∈ owned (s, []) -> a_nodes a !! o = None) as Hf.
  { intros o. unfold owned. rewrite !elem_of_cons, elem_of_nil. intros [->|[->|[]]]; done. }
  split; [done| |].
  - intros i x [Hx|[_ Hx]]%lookup_app_Some; [by apply (Hk i)|]. apply list_lookup_singleton_Some in Hx as [_ <-]. done.
  - intros i j x y [Hx|[Hi Hx]]%lookup_app_Some [Hy|[Hj Hy]]%lookup_app_Some Hij o Ho Ho'.
    + exact (Hd i j x y Hx Hy Hij o Ho Ho').
    + apply list_lookup_singleton_Some in Hy as [_ <-]. exact (owned_nodes a x o (He i x Hx) Ho (Hf o Ho')).
    + apply list_lookup_singleton_Some in Hx as [_ <-]. exact (owned_nodes a y o (He j y Hy) Ho' (Hf o Ho)).
    + apply list_lookup_singleton_Some in Hx as [? _]. apply list_lookup_singleton_Some in Hy as [? _]. lia.
Qed.

(** Adding to one of them leaves the others as they are. *)
Lemma Skls_add a l i s os ins key value :
  Skls a l -> l !! i = Some (s, os) -> InsOK a s os ins -> key ∉ okey a <$> os -> fits key value ->
  exists a' s' ins' r os', addInternal a s key value ins = Ret (a', s', ins', r) /\
    Skls a' (<[i := (s', os')]> l) /\ InsOK a' s' os' ins' /\ a_len a' = a_len a /\
    (forall j x, l !! j = Some x -> j <> i ->
       contents a' x.2 = contents a x.2 /\ forall ins, InsOK a x.1 x.2 ins -> InsOK a' x.1 x.2 ins) /\
    match r with
    | None => has_room a key value /\ contents a' os' ≡ₚ (key, value) :: contents a os /\
        a_n a < a_n a' <= a_n a + MaxNodeSize (Z.of_nat (length (UserKey key))) (Z.of_nat (length value))
    | Some e => e = ErrArenaFull /\ ~ has_room a key value /\ contents a' os' = contents a os
    end.
Proof.
  intros [Ha He Hd] Hi HI Hnew Hfit.
  destruct (addInternal_new a s os ins key value Ha (He i _ Hi) HI Hnew Hfit)
    as (a' & s' & ins' & r & os' & Ea & Ha' & Hk & HG & HS' & HI' & Hin & Hr).
  assert (forall j x, l !! j = Some x -> j <> i -> Skl a' x.1 x.2 /\ contents a' x.2 = contents a x.2) as Ho.
  { intros j x Hx Hj. apply (Skl_keeps (owned (s, os))); [by apply (He j)|done|]. exact (Hd j i x (s, os) Hx Hi Hj). }
  exists a', s', ins', r, os'. split; [done|]. split; [|split; [done|split; [apply (kp_len _ _ _ Hk)|split; [|done]]]].
  - assert (forall o, o ∈ owned (s', os') -> o ∈ owned (s, os) \/ a_nodes a !! o = None) as Hown.
    { intros o. unfold owned. cbn [fst snd]. rewrite !elem_of_cons, (gr_head _ _ _ _ _ _ HG), (gr_tail _ _ _ _ _ _ HG).
      intros [->|[->|Hx]]; [by left; left|by left; right; left|]. destruct (Hin o Hx); [by left; right; right|by right]. }
    assert (forall j y, l !! j = Some y -> i <> j -> forall o, o ∈ owned (s', os') -> o ∉ owned y) as Hapart.
    { intros j y Hy Hj o Hx Hx'. destruct (Hown o Hx) as [Hx1|Hn].
      - exact (Hd i j (s, os) y Hi Hy Hj o Hx1 Hx').
      - exact (owned_nodes a y o (He j y Hy) Hx' Hn). }
    split; [done| |].
    + intros j x. rewrite list_lookup_insert_Some. intros [(-> & <- & _)|[Hj Hx]]; [done|]. by apply (Ho j).
    + intros j k x y. rewrite !list_lookup_insert_Some. intros [(-> & <- & _)|[Hj Hx]] [(-> & <- & _)|[Hj' Hy]] Hjk; [done|..].
      * by apply (Hapart k).
      * intros o Ho1 Ho2. by apply (Hapart j x Hx ltac:(done) o).
      * by apply (Hd j k).
  - intros j x Hx Hj. split; [by apply (Ho j)|]. intros ins0 HI0.
    apply (InsOK_stable a x.1 x.2); [|done]. apply (grows_keeps (owned (s, os))); [by apply (He j)|done|].
    exact (Hd j i x (s, os) Hx Hi Hj).
Qed.
End many.

(** * Skiplists of memtables (Arenaskl.v) in use: any sequence of additions, directly or with
    inserters, to a new skiplist, and the iterators over the result. *)
(** Additions: with [Skiplist.Add], or with one of the inserters. *)
Record addition := mkAdd { add_with : option nat; add_entry : entry }.

Section run.
Context {C : Comparer} {L : ComparerLaws C} {E : ArenaEnv}.

Definition add_one (a : Arena) (s : skiplist) (inss : list Inserter) (op : addition) :
    go (Arena * skiplist * list Inserter * option error) :=
  let '(key, value) := add_entry op in
  match add_with op with
  | None => '(a, s, r) ← Skiplist_Add a s key value; Ret (a, s, inss, r)
  | Some i =>
      '(a, s, ins, r) ← Inserter_Add (nth i inss newInserter) a s key value;
      Ret (a, s, <[i := ins]> inss, r)
  end.
Fixpoint run_adds (a : Arena) (s : skiplist) (inss : list Inserter) (ops : list addition) :
    go (Arena * skiplist * list (option error)) :=
  match ops with
  | [] => Ret (a, s, [])
  | op :: ops =>
      '(a, s, inss, r) ← add_one a s inss op;
      '(a, s, rs) ← run_adds a s inss ops;
      Ret (a, s, r :: rs)
  end.

(** What the results say about the entries: a key that is there is refused, another one is
    added unless the arena is full. *)
Fixpoint accounts (present : list entry) (ops : list addition) (rs : list (option error)) (final : list entry) : Prop :=
  match ops, rs with
  | [], [] => final ≡ₚ present
  | op :: ops, r :: rs =>
      let e := add_entry op in
      match r with
      | None => (e.1 ∉ fst <$> present) /\ accounts (e :: present) ops rs final
      | Some err =>
          ((err = ErrRecordExists /\ (e.1 ∈ fst <$> present)) \/ (err = ErrArenaFull /\ (e.1 ∉ fst <$> present))) /\
          accounts present ops rs final
      end
  | _, _ => False
  end.

(** Inserters are used for new keys only. *)
Fixpoint fresh_inserts (seen : list InternalKey) (ops : list addition) : Prop :=
  match ops with
  | [] => True
  | op :: ops =>
      (if add_with op is Some _ then (add_entry op).1 ∉ seen else True) /\ fresh_inserts ((add_entry op).1 :: seen) ops
  end.

Definition entry_size (e : entry) : Z := MaxNodeSize (Z.of_nat (length (UserKey e.1))) (Z.of_nat (length e.2)).
Definition adds_size (ops : list addition) : Z := foldr Z.add 0 (entry_size ∘ add_entry <$> ops).

Lemma contents_keys a os : fst <$> contents a os = okey a <$> os.
Proof. unfold contents. rewrite <- list_fmap_compose. done. Qed.
Lemma accounts_perm ops : forall present present' rs final,
  present ≡ₚ present' -> accounts present ops rs final -> accounts present' ops rs final.
Proof.
  induction ops as [|op ops IH]; intros present present' [|r rs] final Hp; cbn [accounts]; try done.
  - intros ->. done.
  - assert (forall k, k ∈ fst <$> present <-> k ∈ fst <$> present') as Hk.
    { intros k. rewrite !list_elem_of_fmap. by setoid_rewrite Hp. }
    specialize (Hk (add_entry op).1). destruct r as [err|]; (intros [Hr Hacc]; split; [tauto|]).
    + by apply (IH present).
    + apply (IH (add_entry op :: present)); [by apply Permutation_skip|done].
Qed.

Lemma nth_InsOK a s os inss i : Forall (InsOK a s os) inss -> InsOK a s os (nth i inss newInserter).
Proof.
  intros HI. rewrite nth_lookup. destruct (inss !! i) as [ins|] eqn:Ei; [|apply newInserter_ok].
  rewrite Forall_forall in HI. apply HI. by apply list_elem_of_lookup_2 in Ei.
Qed.

(** One addition. *)
Lemma add_one_ok a s os inss op :
  arena_ok a -> Skl a s os -> Forall (InsOK a s os) inss -> fits (add_entry op).1 (add_entry op).2 ->
  (add_with op <> None -> (add_entry op).1 ∉ okey a <$> os) ->
  exists a' s' inss' r os', add_one a s inss op = Ret (a', s', inss', r) /\ arena_ok a' /\ Skl a' s' os' /\
    Forall (InsOK a' s' os') inss' /\ a_len a' = a_len a /\
    match r with
    | None => ((add_entry op).1 ∉ okey a <$> os) /\ contents a' os' ≡ₚ add_entry op :: contents a os /\
        a_n a' <= a_n a + entry_size (add_entry op)
    | Some e => contents a' os' = contents a os /\
        ((e = ErrRecordExists /\ ((add_entry op).1 ∈ okey a <$> os) /\ a' = a) \/
         (e = ErrArenaFull /\ ((add_entry op).1 ∉ okey a <$> os) /\ ~ has_room a (add_entry op).1 (add_entry op).2))
    end.
Proof.
  destruct op as [w [key value]]. cbn [add_entry add_with fst snd]. intros Ha HS HI Hf Hw. unfold add_one. cbn [add_entry add_with].
  destruct (decide (key ∈ okey a <$> os)) as [Hin|Hnew].
  - destruct w as [i|]; [by destruct (Hw ltac:(done))|]. unfold Skiplist_Add.
    destruct (addInternal_exists a s os newInserter key value Ha HS (newInserter_ok _ _ _) Hin) as (ins' & -> & _).
    { cbn. pose proof (skl_height _ _ _ HS). lia. }
    rewrite !bind_Ret. eexists a, s, inss, _, os. split; [done|]. split_and!; try done. by left.
  - pose (ins := match w with Some i => nth i inss newInserter | None => newInserter end).
    assert (InsOK a s os ins) as HIns by (destruct w; [by apply nth_InsOK|apply newInserter_ok]).
    destruct (addInternal_new a s os ins key value Ha HS HIns Hnew Hf)
      as (a' & s' & ins' & r & os' & Ea & Ha' & Hk & HG & HS' & HI' & _ & Hr).
    exists a', s', (match w with Some i => <[i := ins']> inss | None => inss end), r, os'.
    assert (Forall (InsOK a' s' os') inss) as HI2.
    { eapply Forall_impl; [exact HI|]. intros x Hx. by apply (InsOK_stable a s os). }
    split; [|split; [done|split; [done|split; [|split; [apply (kp_len _ _ _ Hk)|]]]]].
    + destruct w as [i|]; unfold ins in Ea; [unfold Inserter_Add|unfold Skiplist_Add]; by rewrite Ea, !bind_Ret.
    + destruct w as [i|]; [|done]. by apply Forall_insert.
    + destruct r as [e|]; [|tauto]. destruct Hr as (-> & Hr & ->). split; [done|]. by right.
Qed.

Lemma run_adds_ok : forall ops a s os inss seen,
  arena_ok a -> Skl a s os -> Forall (InsOK a s os) inss -> (forall k, k ∈ okey a <$> os -> k ∈ seen) ->
  fresh_inserts seen ops -> Forall (fun op => fits (add_entry op).1 (add_entry op).2) ops ->
  exists a' s' rs os', run_adds a s inss ops = Ret (a', s', rs) /\ arena_ok a' /\ Skl a' s' os' /\
    accounts (contents a os) ops rs (contents a' os') /\
    (a_n a + adds_size ops <= a_len a -> Some ErrArenaFull ∉ rs).
Proof.
  induction ops as [|op ops IH]; intros a s os inss seen Ha HS HI Hseen Hfr Hfit.
  { exists a, s, [], os. split; [done|]. split; [done|]. split; [done|]. split; [by cbn|]. intros _. apply not_elem_of_nil. }
  apply Forall_cons in Hfit as [Hf Hfit]. destruct Hfr as [Hw Hfr].
  destruct (add_one_ok a s os inss op Ha HS HI Hf) as (a1 & s1 & inss1 & r & os1 & E1 & Ha1 & HS1 & HI1 & Hl1 & Hr).
  { intros Hne Hin. destruct (add_with op); [|done]. apply Hw, Hseen, Hin. }
  destruct (IH a1 s1 os1 inss1 ((add_entry op).1 :: seen)) as (a' & s' & rs & os' & E2 & Ha' & HS' & Hacc & Hroom);
    [done..| |done|done|].
  { intros k. rewrite <- contents_keys, elem_of_cons. destruct r as [e|].
    - destruct Hr as [-> _]. rewrite contents_keys. auto.
    - destruct Hr as (_ & Hc & _). rewrite Hc. rewrite fmap_cons, elem_of_cons, contents_keys. intros [->|]; auto. }
  cbn [run_adds]. rewrite E1, bind_Ret, E2, bind_Ret. exists a', s', (r :: rs), os'. split; [done|].
  split; [done|]. split; [done|]. cbn [accounts]. rewrite contents_keys.
  assert (entry_size (add_entry op) + adds_size ops = adds_size (op :: ops)) as Hsz by done.
  assert (0 <= adds_size ops) as Hpos.
  { clear. induction ops as [|op ops IH]; [done|]. change (adds_size (op :: ops)) with (entry_size (add_entry op) + adds_size ops).
    unfold entry_size, MaxNodeSize. change arenaskl_maxNodeSize with 184. unfold nodeAlignment. lia. }
  assert (0 <= entry_size (add_entry op)) as Hpos1.
  { unfold entry_size, MaxNodeSize. change arenaskl_maxNodeSize with 184. unfold nodeAlignment. lia. }
  split.
  - destruct r as [e|].
    + destruct Hr as [Hc Hr]. rewrite Hc in Hacc. split; [tauto|done].
    + destruct Hr as (Hn & Hc & _). split; [done|]. by apply (accounts_perm _ (contents a1 os1)).
  - intros Hfits. rewrite elem_of_cons. intros [Hx|Hx].
    + destruct r as [e|]; [|done]. destruct Hr as [_ [(-> & _)|(_ & _ & Hno)]]; [done|]. apply Hno.
      unfold has_room, room. unfold entry_size, MaxNodeSize in Hsz. unfold nodeAlignment in Hsz. lia.
    + apply Hroom in Hx; [done|]. rewrite Hl1. destruct r as [e|].
      * destruct Hr as [_ [(_ & _ & ->)|(_ & _ & Hno)]]; [lia|]. destruct Hno.
        unfold has_room, room. unfold entry_size, MaxNodeSize in Hsz. unfold nodeAlignment in Hsz. lia.
      * destruct Hr as (_ & _ & Hn). lia.
Qed.

(** The arena over a buffer. *)
Lemma NewArena_ok buf : arena_ok (NewArena buf) /\ a_n (NewArena buf) = 1 /\
  a_len (NewArena buf) = arena_Capacity (NewArena buf) /\ a_len (NewArena buf) = Z.min (Z.of_nat (length buf)) MaxUint32OrInt.
Proof.
  assert (a_len (NewArena buf) = Z.min (Z.of_nat (length buf)) MaxUint32OrInt) as Hl.
  { unfold a_len, NewArena. cbn [a_buf]. destruct (Z.ltb_spec MaxUint32OrInt (Z.of_nat (length buf))); [|lia].
    rewrite length_take, Nat.min_l, Z2Nat.id; unfold MaxUint32OrInt in *; lia. }
  unfold MaxUint32OrInt in *. split; [split; [done|lia|done]|]. split; [done|]. split; [|done].
  unfold arena_Capacity. rewrite u32_small; lia.
Qed.

Lemma accounts_in ops : forall present rs final e,
  accounts present ops rs final -> e ∈ final -> e ∈ present \/ e ∈ add_entry <$> ops.
Proof.
  induction ops as [|op ops IH]; intros present [|r rs] final e; cbn [accounts]; try done.
  - intros ->. auto.
  - rewrite fmap_cons, elem_of_cons. intros Hacc He. destruct r as [err|]; destruct Hacc as [_ Hacc].
    + destruct (IH _ _ _ _ Hacc He); auto.
    + destruct (IH _ _ _ _ Hacc He) as [Hin|]; [|auto]. apply elem_of_cons in Hin as [->|]; auto.
Qed.

(** The state after a sequence of additions to a new skiplist. *)
Definition skl_run (buf : bytes) (n : nat) (ops : list addition) : go (Arena * skiplist * list (option error)) :=
  '(a, s) ← skl_Reset (NewArena buf); run_adds a s (replicate n newInserter) ops.

Lemma skl_run_ok buf n ops :
  1 + ends_size <= arena_Capacity (NewArena buf) -> fresh_inserts [] ops ->
  Forall (fun op => fits (add_entry op).1 (add_entry op).2) ops ->
  exists a s rs os, skl_run buf n ops = Ret (a, s, rs) /\ arena_ok a /\ Skl a s os /\ accounts [] ops rs (contents a os) /\
    (1 + ends_size + adds_size ops <= arena_Capacity (NewArena buf) -> Some ErrArenaFull ∉ rs).
Proof.
  intros Hcap Hfr Hfit. destruct (NewArena_ok buf) as (Ha & Hn & Hl & _). rewrite <- Hl in *.
  destruct (skl_Reset_ok (NewArena buf) Ha ltac:(lia)) as (a1 & s1 & E1 & Ha1 & X1 & HS1 & _ & _ & Hn1).
  destruct (run_adds_ok ops a1 s1 [] (replicate n newInserter) []) as (a & s & rs & os & E2 & Ha2 & HS2 & Hacc & Hroom);
    [done|done| |by intros k|done|done|].
  { apply Forall_replicate, newInserter_ok. }
  exists a, s, rs, os. unfold skl_run. rewrite E1, bind_Ret, E2. split_and!; [done..|].
  intros Hsz. apply Hroom. rewrite (ext_len _ _ X1). lia.
Qed.

(** C22. A skiplist keeps its entries sorted by internal key.  Take any sequence of
    additions to a new skiplist, with [Add] or with any number of inserters, which remember
    where they added before, in which no inserter is given a key that has been tried before
    ([fresh_inserts]; an inserter may add such a key a second time, see
    [inserter_duplicate]).  Nothing panics; [Add] refuses exactly the keys that are there
    already, with ErrRecordExists; the other entries are added unless the arena is full,
    and it is not full as long as the sizes computed by [MaxNodeSize] fit; and a loop with
    an iterator sees exactly the entries that were added, in order.  This holds for all
    heights of the towers and all leftovers in the buffer. *)
Theorem skiplist_add buf n ops :
  1 + ends_size <= arena_Capacity (NewArena buf) -> fresh_inserts [] ops ->
  Forall (fun op => fits (add_entry op).1 (add_entry op).2) ops ->
  exists a s rs kvs, skl_run buf n ops = Ret (a, s, rs) /\ skl_entries a s = Ret kvs /\ ikey_sorted fst kvs /\
    accounts [] ops rs kvs /\
    (1 + ends_size + adds_size ops <= arena_Capacity (NewArena buf) -> Some ErrArenaFull ∉ rs).
Proof.
  intros Hcap Hfr Hfit. destruct (skl_run_ok buf n ops Hcap Hfr Hfit) as (a & s & rs & os & E1 & Ha & HS & Hacc & Hroom).
  exists a, s, rs, (contents a os). split; [done|]. split; [by apply skl_entries_spec|]. split; [|done].
  exact (kvs_sorted a s os HS).
Qed.

(** C23. Iterators over a skiplist are iterators over its sorted entries, as the interface
    of iterators documents them: after any sequence of additions as above, for all bounds, every
    sequence of calls of [SeekGE], [SeekPrefixGE], [SeekLT], [First], [Last], [Next],
    [NextPrefix], [Prev] and [SetBounds] that the documentation allows returns what it
    returns for the list, and [TrySeekUsingNext] makes no difference. *)
Theorem skiplist_iter buf n ops a s rs lower upper cs results :
  1 + ends_size <= arena_Capacity (NewArena buf) -> fresh_inserts [] ops ->
  Forall (fun op => fits (add_entry op).1 (add_entry op).2) ops ->
  Forall (fun op => 0 <= Trailer (add_entry op).1 <= no_more) ops ->
  skl_run buf n ops = Ret (a, s, rs) ->
  exists kvs, skl_entries a s = Ret kvs /\ ikey_sorted fst kvs /\
    (abs_calls kvs (mkState lower upper PosBefore false) cs = Some results ->
     calls (H := skl_iterator a s) (skl_NewIter s lower upper) cs = Ret results).
Proof.
  intros Hcap Hfr Hfit Htr Erun. destruct (skl_run_ok buf n ops Hcap Hfr Hfit) as (a' & s' & rs' & os & E1 & Ha & HS & Hacc & _).
  rewrite E1 in Erun. injection Erun as -> -> ->. exists (contents a os). split; [by apply skl_entries_spec|].
  split; [exact (kvs_sorted a s os HS)|]. apply (simulates_calls (contents a os) (at_pos a s os)); [|apply at_pos_new].
  apply skl_simulates; [done|done|]. apply Forall_forall. intros e He.
  destruct (accounts_in _ _ _ _ _ Hacc He) as [Hin|Hin]; [by apply elem_of_nil in Hin|].
  apply list_elem_of_fmap in Hin as (op & -> & Hin). rewrite Forall_forall in Htr. by apply Htr.
Qed.
End run.
