(* ===== verification/ArenasklExamples.v ===== *)
(** Concrete skiplists of memtables: the theorems of ArenasklRun.v applied to one, and a
    key an inserter adds a second time. *)
From S2P Require Import Prelude.
From S2P Require Import Comparer.
From S2P Require Import InternalKey.
From S2P Require Import GoStd.
From S2P Require Import Iterators.
From S2P Require Import Arenaskl.
From S2P Require Import ArenasklAdd.
From S2P Require Import ArenasklIter.
From S2P Require Import ArenasklRun.

Local Open Scope Z_scope.

#[local] Existing Instance DefaultComparer.
#[local] Existing Instance default_laws.

(** Some numbers, and nonsense in the buffer. *)
Definition example_env : ArenaEnv := {|
  fastrand_Uint32 n := u32 (Z.of_nat n * 2654435761);
  stale nd h := mkLinks (nd + 1) (Z.of_nat h);
|}.
#[local] Existing Instance example_env.

Definition example_buf : bytes := replicate 2500 Byte.xff.
Definition example_entry (key : Byte.byte) (seqNum : Z) : entry :=
  (MakeInternalKey [key] seqNum InternalKeyKindSet, [Byte.x31; key]).

(** A key twice with [Add], and keys between each other with two inserters. *)
Definition example_adds : list addition :=
  [mkAdd (Some 0%nat) (example_entry Byte.x62 1); mkAdd (Some 0%nat) (example_entry Byte.x61 2);
   mkAdd (Some 1%nat) (example_entry Byte.x63 3); mkAdd None (example_entry Byte.x61 2);
   mkAdd (Some 0%nat) (example_entry Byte.x61 4); mkAdd (Some 1%nat) (example_entry Byte.x64 5)].
Definition example_contents : list entry :=
  [example_entry Byte.x61 4; example_entry Byte.x61 2; example_entry Byte.x62 1; example_entry Byte.x63 3;
   example_entry Byte.x64 5].

Ltac not_among H := repeat (apply elem_of_cons in H as [H|H]; [vm_compute in H; discriminate H|]); by apply elem_of_nil in H.
Ltac decide_fresh := repeat split; intros H; not_among H.
Ltac decide_each := repeat constructor; vm_compute; congruence.

Lemma example_run : ('(a, s, _) ← skl_run example_buf 2 example_adds; skl_entries a s) = Ret example_contents.
Proof. vm_compute. reflexivity. Qed.
Lemma example_run_entries a s rs :
  skl_run example_buf 2 example_adds = Ret (a, s, rs) -> skl_entries a s = Ret example_contents.
Proof. intros E. pose proof example_run as H. by rewrite E, bind_Ret in H. Qed.

Lemma skiplist_add_witness :
  exists a s rs, skl_run example_buf 2 example_adds = Ret (a, s, rs) /\ (Some ErrArenaFull ∉ rs) /\
    skl_entries a s = Ret example_contents.
Proof.
  destruct (skiplist_add example_buf 2 example_adds) as (a & s & rs & kvs & H1 & H2 & H3 & H4 & H5).
  - vm_compute. congruence.
  - decide_fresh.
  - decide_each.
  - exists a, s, rs. split; [done|]. split; [apply H5; vm_compute; congruence|].
    exact (example_run_entries a s rs H1).
Defined.

(** With bounds, back and forth. *)
Definition example_calls : list iter_call :=
  [CallFirst; CallNext; CallSeekGE [Byte.x62] true; CallNextPrefix [Byte.x63]; CallNext; CallPrev; CallSeekLT [Byte.x62];
   CallPrev; CallPrev; CallNext; CallSetBounds None None; CallLast].
Lemma skiplist_iter_witness :
  exists a s rs, skl_run example_buf 2 example_adds = Ret (a, s, rs) /\
    calls (H := skl_iterator a s) (skl_NewIter s (Some [Byte.x61]) (Some [Byte.x64])) example_calls =
      Ret [Some (example_entry Byte.x61 4); Some (example_entry Byte.x61 2); Some (example_entry Byte.x62 1);
           Some (example_entry Byte.x63 3); None; Some (example_entry Byte.x64 5); Some (example_entry Byte.x61 2);
           Some (example_entry Byte.x61 4); None; Some (example_entry Byte.x61 4); None; Some (example_entry Byte.x64 5)].
Proof.
  destruct (skl_run_ok example_buf 2 example_adds) as (a & s & rs & os & E & _);
    [vm_compute; congruence|decide_fresh|decide_each|].
  exists a, s, rs. split; [done|].
  destruct (skiplist_iter example_buf 2 example_adds a s rs (Some [Byte.x61]) (Some [Byte.x64]) example_calls
    [Some (example_entry Byte.x61 4); Some (example_entry Byte.x61 2); Some (example_entry Byte.x62 1);
     Some (example_entry Byte.x63 3); None; Some (example_entry Byte.x64 5); Some (example_entry Byte.x61 2);
     Some (example_entry Byte.x61 4); None; Some (example_entry Byte.x61 4); None; Some (example_entry Byte.x64 5)])
    as (kvs & H1 & _ & H2); [vm_compute; congruence|decide_fresh|decide_each|decide_each|done|].
  apply H2. rewrite (example_run_entries a s rs E) in H1. injection H1 as <-. vm_compute. reflexivity.
Defined.

(** An inserter whose splice ends at a key adds this key again: [findSplice] sets [found]
    only on the levels it searches, and a splice that is still good is not searched. *)
Lemma inserter_duplicate :
  ('(a, s, rs) ← skl_run example_buf 1
      [mkAdd (Some 0%nat) (example_entry Byte.x62 1); mkAdd (Some 0%nat) (example_entry Byte.x61 2);
       mkAdd (Some 0%nat) (example_entry Byte.x62 1)];
   kvs ← skl_entries a s; Ret (rs, kvs)) =
  Ret ([None; None; None], [example_entry Byte.x61 2; example_entry Byte.x62 1; example_entry Byte.x62 1]).
Proof. vm_compute. reflexivity. Qed.
