(* ===== verification/Batch.v ===== *)
(** Batches (src/batch.go): the write operations append records to a buffer, readers
    parse them.  A batch may have indexes (src/internal/batchskl), which are behind an
    interface here. *)
From S2P Require Import Prelude.
From S2P Require Import InternalKey.
From S2P Require Import RangeKey.
From S2P Require Import Arenaskl.

Local Open Scope Z_scope.

Definition batchCountOffset : nat := 8.
Definition batchHeaderLen : nat := 12.
Definition batchInitialSize : nat := Nat.pow 2 10.
Definition batchMaxRetainedSize : nat := Nat.pow 2 20.
Definition maxVarintLen32 : nat := 5.
Definition maxBatchSize : Z := 2 ^ 32 - 1.

Definition FormatRangeKeys : Z := 8.
Definition FormatFlushableIngest : Z := 13.
Definition FormatDeleteSizedAndObsolete : Z := 15.

(** What a record takes in a memtable at most. *)
Definition memTableEntrySize (keyBytes valueBytes : nat) : Z :=
  MaxNodeSize (u32 (u32 (Z.of_nat keyBytes) + 8)) (u32 (Z.of_nat valueBytes)).

(** ** Reading *)

Definition ErrInvalidBatch : error := New "pebble: invalid batch".

(** The rest of the data, the string and where it starts in [data].  Where the varint
    leaves the slice, so does [data[n:]], which panics. *)
Definition batchDecodeStr (data : bytes) : go (option (bytes * bytes * nat)) :=
  match decodeVarint32 data with
  | None => Panic "slice bounds out of range"
  | Some (v, n) =>
      let data := drop n data in
      if u32 (Z.of_nat (length data)) <? v then Ret None
      else Ret (Some (drop (Z.to_nat v) data, take (Z.to_nat v) data, n))
  end.

(** The kinds whose records have a value. *)
Definition has_value (kind : Z) : bool :=
  (kind =? InternalKeyKindSet) || (kind =? InternalKeyKindMerge) ||
  (kind =? InternalKeyKindRangeDelete) || (kind =? InternalKeyKindRangeKeySet) ||
  (kind =? InternalKeyKindRangeKeyUnset) || (kind =? InternalKeyKindRangeKeyDelete) ||
  (kind =? InternalKeyKindDeleteSized).

(** What [Next] returns: an entry with the position of its key in the reader and the
    reader after it, the end, or an error. *)
Inductive next_result :=
| Entry (kind : Z) (ukey value : bytes) (keyPos : nat) (r : bytes)
| Done
| Corrupt (err : error).

Definition BatchReader := bytes.
Definition BatchReader_Next (r : BatchReader) : go next_result :=
  match r with
  | [] => Ret Done
  | k :: data =>
      let kind := b2z k in
      if InternalKeyKindMax <? kind then Ret (Corrupt (New "pebble: invalid batch: invalid key kind"))
      else
        s ← batchDecodeStr data;
        match s with
        | None => Ret (Corrupt (New "pebble: invalid batch: decoding user key"))
        | Some (r, ukey, n) =>
            if has_value kind then
              s ← batchDecodeStr r;
              match s with
              | None => Ret (Corrupt (New "pebble: invalid batch: decoding value"))
              | Some (r, value, _) => Ret (Entry kind ukey value (S n) r)
              end
            else Ret (Entry kind ukey [] (S n) r)
        end
  end.

Definition ReadBatch (repr : bytes) : BatchReader * Z :=
  if (length repr <=? batchHeaderLen)%nat then ([], 0)
  else (drop batchHeaderLen repr, Uint32 (slice repr batchCountOffset batchHeaderLen)).

(** ** Batches *)

(** The skiplists that index a batch.  They hold offsets of records in the buffer of the
    batch, which [Add] reads. *)
Class BatchSkl := {
  Skiplist : Type;
  skl_Init : Skiplist;
  skl_Add (storage : bytes) (s : Skiplist) (keyOffset : Z) : go (Skiplist * option error);
}.

(** The contents of the memory behind a slice up to its capacity ([rawalloc.New] does not
    clear it, and a buffer that is used again has old contents), and the capacity [append]
    chooses for a slice of a capacity that is to have a length. *)
Class Memory := {
  rawalloc : bytes -> nat -> byte;
  append_cap : nat -> nat -> nat;
}.

(** Which of the indexes of the batch an operation is going to be added to. *)
Inductive which := index_point | index_rangeDel | index_rangeKey.

Record DeferredBatchOp := mkDeferredBatchOp {
  d_index : option which;
  d_Key : nat * nat;           (* slices of the buffer *)
  d_Value : nat * nat;
  d_offset : Z;
}.
#[export] Instance DeferredBatchOp_settable : Settable DeferredBatchOp := fun d =>
  mkDeferredBatchOp (d_index d) (d_Key d) (d_Value d) (d_offset d).

Section batch.
Context {K : BatchSkl} {M : Memory}.

(** [b_db] is whether the batch has a database.  The caches of fragmented spans are
    absent or have the sequence number they were made at. *)
Record Batch := mkBatch {
  b_data : bytes;
  b_cap : nat;                 (* its capacity; 0 for a nil slice *)
  b_memTableSize : Z;
  b_db : bool;
  b_count : Z;
  b_countRangeDels : Z;
  b_countRangeKeys : Z;
  b_deferredOp : DeferredBatchOp;
  b_index : option Skiplist;
  b_rangeDelIndex : option Skiplist;
  b_rangeKeyIndex : option Skiplist;
  b_tombstones : option Z;
  b_rangeKeys : option Z;
  b_minimumFormatMajorVersion : Z;
  b_ingestedSSTBatch : bool;
  b_committing : bool;
  b_applied : bool;
}.

#[export] Instance Batch_settable : Settable Batch := fun b =>
  mkBatch (b_data b) (b_cap b) (b_memTableSize b) (b_db b) (b_count b) (b_countRangeDels b)
    (b_countRangeKeys b) (b_deferredOp b) (b_index b) (b_rangeDelIndex b) (b_rangeKeyIndex b)
    (b_tombstones b) (b_rangeKeys b) (b_minimumFormatMajorVersion b) (b_ingestedSSTBatch b)
    (b_committing b) (b_applied b).

Definition no_op : DeferredBatchOp := mkDeferredBatchOp None (O, O) (O, O) 0.
Definition newBatch (db : bool) : Batch :=
  mkBatch [] 0 0 db 0 0 0 no_op None None None None None 0 false false false.
Definition newIndexedBatch (db : bool) : Batch :=
  mkBatch [] 0 0 db 0 0 0 no_op (Some skl_Init) None None None None 0 false false false.

(** ** The buffer *)

(** [for n < size { n *= 2 }] *)
Fixpoint double_to (fuel n size : nat) : nat :=
  match fuel with
  | O => n
  | S fuel => if (n <? size)%nat then double_to fuel (n * 2) size else n
  end.

Global Arguments double_to : simpl never.

Definition batch_init (b : Batch) (size : nat) : Batch :=
  let n := double_to 64 batchInitialSize size in
  b <| b_data := replicate batchHeaderLen Byte.x00 |> <| b_cap := Nat.max (b_cap b) n |>.
Definition ensure_init (b : Batch) (size : nat) : Batch :=
  match b_data b with [] => batch_init b size | _ => b end.

Definition grow (b : Batch) (n : nat) : go Batch :=
  let newSize := (length (b_data b) + n)%nat in
  if maxBatchSize <=? Z.of_nat newSize then Panic "pebble: batch too large"
  else
    Ret (b <| b_data := b_data b ++ (rawalloc (b_data b) <$> seq (length (b_data b)) n) |>
           <| b_cap := if (b_cap b <? newSize)%nat then double_to 64 (2 * b_cap b) newSize
                       else b_cap b |>).

Definition Count (b : Batch) : go Z :=
  if 2 ^ 32 - 1 <? b_count b then Panic "pebble: invalid batch" else Ret (u32 (b_count b)).
Definition setCount (b : Batch) (v : Z) : Batch := b <| b_count := v |>.
Definition seqNumData (b : Batch) : bytes := take 8 (b_data b).
Definition setSeqNum (b : Batch) (seqNum : Z) : go Batch :=
  if (b_cap b <? 8)%nat then Panic "slice bounds out of range"
  else Ret (b <| b_data := copy_at (b_data b) 0 (PutUint64 seqNum) |>).
Definition batch_SeqNum (b : Batch) : Batch * Z :=
  let b := ensure_init b batchHeaderLen in (b, Uint64 (seqNumData b)).
Definition countData (b : Batch) : bytes := slice (b_data b) 8 12.
Definition nextSeqNum (b : Batch) : Z := Z.lor (Z.of_nat (length (b_data b))) InternalKeySeqNumBatch.
Definition Empty (b : Batch) : bool := (length (b_data b) <=? batchHeaderLen)%nat.
Definition Len (b : Batch) : nat :=
  if (length (b_data b) <=? batchHeaderLen)%nat then batchHeaderLen else length (b_data b).
Definition Indexed (b : Batch) : bool := match b_index b with Some _ => true | None => false end.
Definition Reader (b : Batch) : Batch * BatchReader :=
  let b := ensure_init b batchHeaderLen in (b, drop batchHeaderLen (b_data b)).

Definition Repr (b : Batch) : go (Batch * bytes) :=
  let b := ensure_init b batchHeaderLen in
  count ← Count b;
  let b := b <| b_data := copy_at (b_data b) 8 (PutUint32 count) |> in
  Ret (b, b_data b).

(** Slicing to [batchHeaderLen] panics beyond the capacity. *)
Definition Reset (b : Batch) : go Batch :=
  let reset data cap :=
    mkBatch data cap 0 (b_db b) 0 0 0 no_op (if Indexed b then Some skl_Init else None)
      None None None None 0 false false false in
  if (b_cap b =? 0)%nat then Ret (reset [] O)
  else if (batchMaxRetainedSize <? b_cap b)%nat then Ret (reset [] O)
  else if (b_cap b <? batchHeaderLen)%nat then Panic "slice bounds out of range"
  else Ret (reset (replicate batchHeaderLen Byte.x00) (b_cap b)).

(** ** Records *)

(** The inlined [binary.PutUvarint] of a uint32: five digits are enough.  The position
    after the digits is returned. *)
Fixpoint putVarint32 (fuel : nat) (data : bytes) (pos : nat) (x : Z) : bytes * nat :=
  match fuel with
  | O => (data, pos)
  | S fuel =>
      if 128 <=? x
      then putVarint32 fuel (<[pos := z2b (Z.lor x 128)]> data) (pos + 1) (Z.shiftr x 7)
      else (<[pos := z2b x]> data, (pos + 1)%nat)
  end.

Global Arguments memTableEntrySize : simpl never.

Definition prepareDeferredKeyValueRecord (b : Batch) (keyLen valueLen : nat) (kind : Z) : go Batch :=
  if b_committing b then Panic "pebble: batch already committing" else
  let b := ensure_init b (keyLen + valueLen + 2 * MaxVarintLen64 + batchHeaderLen) in
  let b := b <| b_count := u64 (b_count b + 1) |>
             <| b_memTableSize := u64 (b_memTableSize b + memTableEntrySize keyLen valueLen) |> in
  let pos := length (b_data b) in
  let offset := u32 (Z.of_nat pos) in
  b ← grow b (1 + 2 * maxVarintLen32 + keyLen + valueLen);
  let data := <[pos := z2b kind]> (b_data b) in
  let '(data, pos) := putVarint32 maxVarintLen32 data (pos + 1) (u32 (Z.of_nat keyLen)) in
  let key := (pos, pos + keyLen)%nat in
  let '(data, pos) := putVarint32 maxVarintLen32 data (pos + keyLen) (u32 (Z.of_nat valueLen)) in
  let value := (pos, pos + valueLen)%nat in
  Ret (b <| b_data := take (pos + valueLen) data |>
         <| b_deferredOp := mkDeferredBatchOp (d_index (b_deferredOp b)) key value offset |>).

Definition prepareDeferredKeyRecord (b : Batch) (keyLen : nat) (kind : Z) : go Batch :=
  if b_committing b then Panic "pebble: batch already committing" else
  let b := ensure_init b (keyLen + MaxVarintLen64 + batchHeaderLen) in
  let b := b <| b_count := u64 (b_count b + 1) |>
             <| b_memTableSize := u64 (b_memTableSize b + memTableEntrySize keyLen 0) |> in
  let pos := length (b_data b) in
  let offset := u32 (Z.of_nat pos) in
  b ← grow b (1 + maxVarintLen32 + keyLen);
  let data := <[pos := z2b kind]> (b_data b) in
  let '(data, pos) := putVarint32 maxVarintLen32 data (pos + 1) (u32 (Z.of_nat keyLen)) in
  let key := (pos, pos + keyLen)%nat in
  Ret (b <| b_data := take (pos + keyLen) data |>
         <| b_deferredOp := mkDeferredBatchOp (d_index (b_deferredOp b)) key (O, O) offset |>).

(** [copy] into a slice of the buffer. *)
Definition copy_into (b : Batch) (s : nat * nat) (src : bytes) : Batch :=
  b <| b_data := copy_at (b_data b) s.1 (take (s.2 - s.1) src) |>.
Definition copy_Key (b : Batch) (key : bytes) : Batch := copy_into b (d_Key (b_deferredOp b)) key.
Definition copy_Value (b : Batch) (value : bytes) : Batch := copy_into b (d_Value (b_deferredOp b)) value.

(** ** Indexes *)
Definition get_index (b : Batch) (w : which) : option Skiplist :=
  match w with
  | index_point => b_index b
  | index_rangeDel => b_rangeDelIndex b
  | index_rangeKey => b_rangeKeyIndex b
  end.
Definition put_index (b : Batch) (w : which) (s : Skiplist) : Batch :=
  match w with
  | index_point => b <| b_index := Some s |>
  | index_rangeDel => b <| b_rangeDelIndex := Some s |>
  | index_rangeKey => b <| b_rangeKeyIndex := Some s |>
  end.

(** [index.Add(offset)] unless the index is nil. *)
Definition index_Add (b : Batch) (w : which) (offset : Z) : go (Batch * option error) :=
  match get_index b w with
  | None => Ret (b, None)
  | Some s =>
      '(s, err) ← skl_Add (b_data b) s offset;
      Ret (put_index b w s, err)
  end.

Definition Finish (b : Batch) : go (Batch * option error) :=
  match d_index (b_deferredOp b) with
  | None => Ret (b, None)
  | Some w => index_Add b w (d_offset (b_deferredOp b))
  end.

Definition set_deferred_index (b : Batch) (w : option which) : Batch :=
  b <| b_deferredOp := (b_deferredOp b) <| d_index := w |> |>.
(** [b.deferredOp.index = b.index] *)
Definition defer_point (b : Batch) : Batch :=
  set_deferred_index b (if Indexed b then Some index_point else None).
(** [if b.index != nil { b.index.Add(offset) }] *)
Definition finish_point (b : Batch) : go (Batch * option error) :=
  match b_index b with
  | None => Ret (b, None)
  | Some _ => index_Add b index_point (d_offset (b_deferredOp b))
  end.

(** A range index is made when it is first needed. *)
Definition need_rangeDelIndex (b : Batch) : Batch :=
  b <| b_tombstones := None |>
    <| b_rangeDelIndex := match b_rangeDelIndex b with None => Some skl_Init | s => s end |>.
Definition need_rangeKeyIndex (b : Batch) : Batch :=
  b <| b_rangeKeys := None |>
    <| b_rangeKeyIndex := match b_rangeKeyIndex b with None => Some skl_Init | s => s end |>.

Definition ratchet (b : Batch) (v : Z) : Batch :=
  if b_minimumFormatMajorVersion b <? v then b <| b_minimumFormatMajorVersion := v |> else b.

Definition incrementRangeKeysCount (b : Batch) : Batch :=
  let b := b <| b_countRangeKeys := u64 (b_countRangeKeys b + 1) |> in
  let b := ratchet b FormatRangeKeys in
  match b_index b with
  | None => b
  | Some _ => set_deferred_index (need_rangeKeyIndex b) (Some index_rangeKey)
  end.

(** ** Write operations *)
Definition SetDeferred (b : Batch) (keyLen valueLen : nat) : go Batch :=
  b ← prepareDeferredKeyValueRecord b keyLen valueLen InternalKeyKindSet;
  Ret (defer_point b).
Definition batch_Set (b : Batch) (key value : bytes) : go (Batch * option error) :=
  b ← SetDeferred b (length key) (length value);
  finish_point (copy_Value (copy_Key b key) value).

Definition MergeDeferred (b : Batch) (keyLen valueLen : nat) : go Batch :=
  b ← prepareDeferredKeyValueRecord b keyLen valueLen InternalKeyKindMerge;
  Ret (defer_point b).
Definition batch_Merge (b : Batch) (key value : bytes) : go (Batch * option error) :=
  b ← MergeDeferred b (length key) (length value);
  finish_point (copy_Value (copy_Key b key) value).

Definition DeleteDeferred (b : Batch) (keyLen : nat) : go Batch :=
  b ← prepareDeferredKeyRecord b keyLen InternalKeyKindDelete;
  Ret (defer_point b).
Definition batch_Delete (b : Batch) (key : bytes) : go (Batch * option error) :=
  b ← DeleteDeferred b (length key);
  finish_point (copy_Key b key).

Definition SingleDeleteDeferred (b : Batch) (keyLen : nat) : go Batch :=
  b ← prepareDeferredKeyRecord b keyLen InternalKeyKindSingleDelete;
  Ret (defer_point b).
Definition batch_SingleDelete (b : Batch) (key : bytes) : go (Batch * option error) :=
  b ← SingleDeleteDeferred b (length key);
  finish_point (copy_Key b key).

(** The value is a varint of the size of the deleted key and value; the loop that writes
    it into [buf] is [binary.PutUvarint]. *)
Definition DeleteSizedDeferred (b : Batch) (keyLen : nat) (deletedValueSize : Z) : go Batch :=
  let b := ratchet b FormatDeleteSizedAndObsolete in
  let buf := PutUvarint (u64 (deletedValueSize + Z.of_nat keyLen)) in
  b ← prepareDeferredKeyValueRecord b keyLen (length buf) InternalKeyKindDeleteSized;
  Ret (copy_Value (defer_point b) buf).
Definition batch_DeleteSized (b : Batch) (key : bytes) (deletedValueSize : Z) : go (Batch * option error) :=
  b ← DeleteSizedDeferred b (length key) deletedValueSize;
  finish_point (copy_Key b key).

Definition DeleteRangeDeferred (b : Batch) (startLen endLen : nat) : go Batch :=
  b ← prepareDeferredKeyValueRecord b startLen endLen InternalKeyKindRangeDelete;
  let b := b <| b_countRangeDels := u64 (b_countRangeDels b + 1) |> in
  match b_index b with
  | None => Ret b
  | Some _ => Ret (set_deferred_index (need_rangeDelIndex b) (Some index_rangeDel))
  end.
Definition DeleteRange (b : Batch) (start end_ : bytes) : go (Batch * option error) :=
  b ← DeleteRangeDeferred b (length start) (length end_);
  Finish (copy_Value (copy_Key b start) end_).

(** The value is encoded into its slice of the buffer. *)
Definition encode_Value (b : Batch) (internalValueLen : nat) (encode : bytes -> go (bytes * nat)) : go Batch :=
  let '(s, e) := d_Value (b_deferredOp b) in
  '(dst, n) ← encode (slice (b_data b) s e);
  if negb (n =? internalValueLen)%nat then Panic "unexpected internal value length mismatch"
  else Ret (copy_Value b dst).

Definition rangeKeySetDeferred (b : Batch) (startLen internalValueLen : nat) : go Batch :=
  b ← prepareDeferredKeyValueRecord b startLen internalValueLen InternalKeyKindRangeKeySet;
  Ret (incrementRangeKeysCount b).
Definition RangeKeySet (b : Batch) (start end_ suffix value : bytes) : go (Batch * option error) :=
  let suffixValues := [mkSV suffix value] in
  let internalValueLen := EncodedSetValueLen end_ suffixValues in
  b ← rangeKeySetDeferred b (length start) internalValueLen;
  b ← encode_Value (copy_Key b start) internalValueLen (fun dst => EncodeSetValue dst end_ suffixValues);
  Finish b.

Definition rangeKeyUnsetDeferred (b : Batch) (startLen internalValueLen : nat) : go Batch :=
  b ← prepareDeferredKeyValueRecord b startLen internalValueLen InternalKeyKindRangeKeyUnset;
  Ret (incrementRangeKeysCount b).
Definition RangeKeyUnset (b : Batch) (start end_ suffix : bytes) : go (Batch * option error) :=
  let internalValueLen := EncodedUnsetValueLen end_ [suffix] in
  b ← rangeKeyUnsetDeferred b (length start) internalValueLen;
  b ← encode_Value (copy_Key b start) internalValueLen (fun dst => EncodeUnsetValue dst end_ [suffix]);
  Finish b.

Definition RangeKeyDeleteDeferred (b : Batch) (startLen endLen : nat) : go Batch :=
  b ← prepareDeferredKeyValueRecord b startLen endLen InternalKeyKindRangeKeyDelete;
  Ret (incrementRangeKeysCount b).
Definition RangeKeyDelete (b : Batch) (start end_ : bytes) : go (Batch * option error) :=
  b ← RangeKeyDeleteDeferred b (length start) (length end_);
  Finish (copy_Value (copy_Key b start) end_).

Definition LogData (b : Batch) (data : bytes) : go (Batch * option error) :=
  let '(origCount, origMemTableSize) := (b_count b, b_memTableSize b) in
  b ← prepareDeferredKeyRecord b (length data) InternalKeyKindLogData;
  Ret ((copy_Key b data) <| b_count := origCount |> <| b_memTableSize := origMemTableSize |>, None).

Definition ingestSST (b : Batch) (fileNum : Z) : go Batch :=
  if negb (Empty b) && negb (b_ingestedSSTBatch b) then Panic "pebble: invalid call to ingestSST"
  else
    let b := if Empty b then b <| b_ingestedSSTBatch := true |> else b in
    let origMemTableSize := b_memTableSize b in
    let buf := PutUvarint fileNum in
    b ← prepareDeferredKeyRecord b (length buf) InternalKeyKindIngestSST;
    Ret ((copy_Key b buf) <| b_memTableSize := origMemTableSize |>
           <| b_minimumFormatMajorVersion := FormatFlushableIngest |>).

Definition is_rangeKey (kind : Z) : bool :=
  (kind =? InternalKeyKindRangeKeySet) || (kind =? InternalKeyKindRangeKeyUnset) ||
  (kind =? InternalKeyKindRangeKeyDelete).

Definition AddInternalKey (b : Batch) (key : InternalKey) (value : bytes) : go (Batch * option error) :=
  let kind := Kind key in
  let keyLen := length (UserKey key) in
  if (kind =? InternalKeyKindRangeDelete) || is_rangeKey kind
  then Panic "unexpected range delete or range key kind in AddInternalKey"
  else if (kind =? InternalKeyKindSingleDelete) || (kind =? InternalKeyKindDelete) then
    b ← prepareDeferredKeyRecord b keyLen kind;
    finish_point (copy_Key (defer_point b) (UserKey key))
  else
    b ← prepareDeferredKeyValueRecord b keyLen (length value) kind;
    finish_point (copy_Value (copy_Key (defer_point b) (UserKey key)) value).

(** ** Whole batches *)

(** The loops over the records take at least two bytes in every round: the length of the
    reader is enough fuel. *)
Fixpoint refresh_loop (fuel : nat) (r : BatchReader) (b : Batch) : go (Batch * option error) :=
  match fuel with
  | O => Panic "unreachable"
  | S fuel =>
      e ← BatchReader_Next r;
      match e with
      | Done => Ret (b, None)
      | Corrupt err => Ret (b, Some err)
      | Entry kind key value _ r =>
          if kind =? InternalKeyKindIngestSST then refresh_loop fuel r (ratchet b FormatFlushableIngest)
          else
            let b :=
              if kind =? InternalKeyKindRangeDelete
              then b <| b_countRangeDels := u64 (b_countRangeDels b + 1) |>
              else if is_rangeKey kind then b <| b_countRangeKeys := u64 (b_countRangeKeys b + 1) |>
              else if kind =? InternalKeyKindDeleteSized then ratchet b FormatDeleteSizedAndObsolete
              else b in
            refresh_loop fuel r
              (b <| b_memTableSize := u64 (b_memTableSize b + memTableEntrySize (length key) (length value)) |>)
      end
  end.
Definition refreshMemTableSize (b : Batch) : go (Batch * option error) :=
  let b := b <| b_memTableSize := 0 |> in
  if (length (b_data b) <? batchHeaderLen)%nat then Ret (b, None)
  else
    let b := b <| b_countRangeDels := 0 |> <| b_countRangeKeys := 0 |>
               <| b_minimumFormatMajorVersion := 0 |> in
    let '(b, r) := Reader b in
    '(b, err) ← refresh_loop (S (length r)) r b;
    match err with
    | Some _ => Ret (b, err)
    | None => Ret (if 0 <? b_countRangeKeys b then ratchet b FormatRangeKeys else b, None)
    end.

(** The batch takes over the slice, whose capacity is at least its length. *)
Definition SetRepr (b : Batch) (data : bytes) (cap : nat) : go (Batch * option error) :=
  if (length data <? batchHeaderLen)%nat then Ret (b, Some (New "invalid batch"))
  else
    let b := b <| b_data := data |> <| b_cap := cap |> in
    let b := b <| b_count := Uint32 (countData b) |> in
    if b_db b then refreshMemTableSize b else Ret (b, None).

(** The loop of [Apply]; the offset of a record is its distance from the end. *)
Fixpoint apply_loop (fuel : nat) (iter : BatchReader) (b : Batch) : go (Batch * option error) :=
  match iter, fuel with
  | [], _ => Ret (b, None)
  | _, O => Panic "unreachable"
  | _, S fuel =>
      let offset := u32 (Z.of_nat (length (b_data b) - length iter)) in
      e ← BatchReader_Next iter;
      match e with
      | Done => Ret (b, None)
      | Corrupt err => Ret (b, Some err)
      | Entry kind key value _ iter =>
          if kind =? InternalKeyKindIngestSST then Panic "pebble: invalid key kind for batch"
          else
            let b :=
              if kind =? InternalKeyKindRangeDelete
              then b <| b_countRangeDels := u64 (b_countRangeDels b + 1) |>
              else if is_rangeKey kind then b <| b_countRangeKeys := u64 (b_countRangeKeys b + 1) |>
              else b in
            '(b, err) ←
              match b_index b with
              | None => Ret (b, None)
              | Some _ =>
                  if kind =? InternalKeyKindRangeDelete
                  then index_Add (need_rangeDelIndex b) index_rangeDel offset
                  else if is_rangeKey kind
                  then index_Add (need_rangeKeyIndex b) index_rangeKey offset
                  else index_Add b index_point offset
              end;
            match err with
            | Some _ => Ret (b, err)
            | None =>
                apply_loop fuel iter
                  (b <| b_memTableSize := u64 (b_memTableSize b + memTableEntrySize (length key) (length value)) |>)
            end
      end
  end.
Definition Apply (b batch : Batch) : go (Batch * option error) :=
  if b_ingestedSSTBatch b then Panic "pebble: invalid batch application"
  else if (length (b_data batch) =? 0)%nat then Ret (b, None)
  else if (length (b_data batch) <? batchHeaderLen)%nat then Ret (b, Some ErrInvalidBatch)
  else
    let b := ensure_init b 0 in
    let offset := length (b_data b) in
    let data := b_data b ++ drop batchHeaderLen (b_data batch) in
    let b := b <| b_data := data |>
               <| b_cap := if (b_cap b <? length data)%nat then append_cap (b_cap b) (length data)
                           else b_cap b |> in
    n ← Count b; m ← Count batch;
    let b := setCount b (u32 (n + m)) in
    if b_db b || Indexed b then
      let iter := drop offset (b_data b) in apply_loop (length iter) iter b
    else Ret (b, None).
End batch.
