(* ===== verification/BatchSpec.v ===== *)
(** The records of a batch (Batch.v): what the write operations append is what a reader
    gets back. *)
From S2P Require Import Prelude.
From S2P Require Import InternalKey.
From S2P Require Import RangeKey.
From S2P Require Import RangeKeySpec.
From S2P Require Import Arenaskl.
From S2P Require Import Batch.

Local Open Scope Z_scope.

(** ** Varints of 32 bits *)
Lemma batchDecodeStr_varstr s rest :
  Z.of_nat (length s + length rest) < 2 ^ 32 ->
  batchDecodeStr (varstr s ++ rest) =
    Ret (Some (rest, s, length (PutUvarint (Z.of_nat (length s))))).
Proof.
  intros Hl. unfold batchDecodeStr, varstr. rewrite <- app_assoc.
  rewrite decodeVarint32_Put by lia. rewrite drop_app_length, length_app, u32_small by lia.
  rewrite (proj2 (Z.ltb_ge _ _)) by lia. rewrite Nat2Z.id.
  by rewrite drop_app_length, take_app_length.
Qed.

(** The inlined encoder writes the same bytes. *)
Lemma putVarint32_spec f : forall g x pre mid post,
  0 <= x < 128 ^ Z.of_nat f -> (f <= g + 1)%nat -> (0 < f)%nat ->
  length mid = length (put_uvarint_aux g x) ->
  putVarint32 f (pre ++ mid ++ post) (length pre) x =
    (pre ++ put_uvarint_aux g x ++ post, (length pre + length (put_uvarint_aux g x))%nat).
Proof.
  induction f as [|f IH]; intros g x pre mid post Hx Hg Hf Hmid; [lia|].
  rewrite Nat2Z.inj_succ, Z.pow_succ_r in Hx by lia. cbn [putVarint32].
  destruct (Z.leb_spec 128 x).
  - destruct f as [|f]; [change (128 ^ Z.of_nat 0) with 1 in Hx; lia|].
    destruct g as [|g]; [lia|]. cbn [put_uvarint_aux] in *.
    destruct (Z.ltb_spec x 128); [lia|].
    destruct mid as [|m mid]; [simpl in Hmid; lia|]. cbn [app].
    rewrite insert_app_mid by done. rewrite cons_middle, app_assoc.
    replace (length pre + 1)%nat with (length (pre ++ [z2b (Z.lor x 128)])) by len.
    cbn [length] in Hmid. rewrite shiftr_7 in *.
    rewrite (IH g) by first [lia | split; [apply Z.div_pos; lia|apply Z.div_lt_upper_bound; lia]].
    rewrite <- app_assoc. f_equal. len.
  - assert (put_uvarint_aux g x = [z2b x]) as E.
    { destruct g; cbn [put_uvarint_aux]; [done|]. by destruct (Z.ltb_spec x 128); [|lia]. }
    rewrite E in *. destruct mid as [|m [|m' mid]]; [done| |done].
    cbn [app]. by rewrite insert_app_mid.
Qed.

Global Arguments putVarint32 : simpl never.

Lemma putVarint32_Put x pre mid post :
  0 <= x < 2 ^ 32 -> length mid = length (PutUvarint x) ->
  putVarint32 maxVarintLen32 (pre ++ mid ++ post) (length pre) x =
    (pre ++ PutUvarint x ++ post, (length pre + length (PutUvarint x))%nat).
Proof.
  intros Hx Hm. unfold maxVarintLen32, PutUvarint. apply putVarint32_spec; try lia; done.
Qed.

(** ** Records *)
Definition rec : Type := Z * bytes * bytes.
Definition enc_rec (r : rec) : bytes :=
  let '(kind, key, value) := r in
  z2b kind :: varstr key ++ (if has_value kind then varstr value else []).
Definition enc_recs (l : list rec) : bytes := concat (enc_rec <$> l).
Definition rec_ok (r : rec) : Prop :=
  let '(kind, key, value) := r in
  0 <= kind <= InternalKeyKindMax /\ (has_value kind = false -> value = []).

(** The space that [grow] reserves for a record. *)
Definition reserve (r : rec) : nat := (11 + length r.1.2 + length r.2)%nat.
Definition reserves (l : list rec) : nat := list_sum (reserve <$> l).

Lemma length_varstr_eq s : length (varstr s) = (length (PutUvarint (Z.of_nat (length s))) + length s)%nat.
Proof. unfold varstr. len. Qed.

Lemma length_enc_rec r :
  Z.of_nat (reserve r) < 2 ^ 32 -> (2 <= length (enc_rec r) <= reserve r)%nat.
Proof.
  destruct r as [[kind key] value]. unfold reserve. cbn [fst snd enc_rec]. intros Hr.
  cbn [length]. rewrite length_app, length_varstr_eq.
  pose proof (length_PutUvarint (Z.of_nat (length key))).
  pose proof (length_PutUvarint32 (Z.of_nat (length key))).
  pose proof (length_PutUvarint32 (Z.of_nat (length value))).
  destruct (has_value kind); [rewrite length_varstr_eq|cbn [length]]; lia.
Qed.

Lemma enc_recs_cons r l : enc_recs (r :: l) = enc_rec r ++ enc_recs l.
Proof. done. Qed.
Lemma enc_recs_snoc l r : enc_recs (l ++ [r]) = enc_recs l ++ enc_rec r.
Proof. unfold enc_recs. rewrite fmap_app, concat_app. simpl. by rewrite app_nil_r. Qed.
Lemma reserves_cons r l : reserves (r :: l) = (reserve r + reserves l)%nat.
Proof. done. Qed.
Lemma reserves_app l1 l2 : reserves (l1 ++ l2) = (reserves l1 + reserves l2)%nat.
Proof. unfold reserves. by rewrite fmap_app, list_sum_app. Qed.

Lemma length_enc_recs l :
  Z.of_nat (reserves l) < 2 ^ 32 -> (length (enc_recs l) <= reserves l)%nat.
Proof.
  induction l as [|r l IH]; [done|]. rewrite reserves_cons, enc_recs_cons, length_app. intros Hl.
  pose proof (length_enc_rec r). lia.
Qed.

(** A reader gets the first record. *)
Definition key_pos (r : rec) : nat := S (length (PutUvarint (Z.of_nat (length r.1.2)))).
Lemma Next_enc_rec r rest :
  rec_ok r -> Z.of_nat (length (enc_rec r ++ rest)) < 2 ^ 32 ->
  BatchReader_Next (enc_rec r ++ rest) = Ret (Entry r.1.1 r.1.2 r.2 (key_pos r) rest).
Proof.
  destruct r as [[kind key] value]. intros [Hk Hv]. unfold key_pos.
  cbn [fst snd enc_rec app length BatchReader_Next].
  rewrite b2z_z2b, Z.mod_small by (unfold InternalKeyKindMax in *; lia).
  rewrite (proj2 (Z.ltb_ge _ _)) by lia. rewrite <- app_assoc, length_app, length_varstr_eq.
  intros Hl. rewrite batchDecodeStr_varstr by lia. cbn [mbind go_bind].
  destruct (has_value kind).
  - rewrite length_app, length_varstr_eq in Hl. rewrite batchDecodeStr_varstr by lia. done.
  - by rewrite Hv.
Qed.

(** Everything a reader returns up to the end. *)
Fixpoint read_all (fuel : nat) (r : BatchReader) : go (result (list rec)) :=
  match fuel with
  | O => Panic "unreachable"
  | S fuel =>
      e ← BatchReader_Next r;
      match e with
      | Done => Ret (Ok [])
      | Corrupt err => Ret (Err err)
      | Entry kind key value _ r =>
          l ← read_all fuel r; Ret (l ← l; Ok ((kind, key, value) :: l))
      end
  end.

Lemma read_all_enc l fuel :
  Forall rec_ok l -> Z.of_nat (length (enc_recs l)) < 2 ^ 32 -> (length l < fuel)%nat ->
  read_all fuel (enc_recs l) = Ret (Ok l).
Proof.
  revert fuel. induction l as [|r l IH]; intros fuel Hok Hl Hf; (destruct fuel as [|fuel]; [lia|]).
  - done.
  - inversion Hok; subst. rewrite enc_recs_cons in *. cbn [read_all].
    rewrite Next_enc_rec by done. cbn [mbind go_bind].
    rewrite IH by (rewrite ?length_app in Hl; simpl in Hf; auto; lia). destruct r as [[??]?]. done.
Qed.

Lemma length_recs l : Z.of_nat (reserves l) < 2 ^ 32 -> (2 * length l <= length (enc_recs l))%nat.
Proof.
  induction l as [|r l IH]; [done|]. rewrite reserves_cons, enc_recs_cons, length_app. intros Hl.
  pose proof (length_enc_rec r). cbn [length]. lia.
Qed.

(** ** Write operations *)
Section ops.
Context {K : BatchSkl} {M : Memory}.

(** The buffer once it has a header. *)
Definition base (b : Batch) : bytes :=
  match b_data b with [] => replicate batchHeaderLen Byte.x00 | d => d end.

Lemma length_base b : (0 < length (base b))%nat.
Proof. unfold base. destruct (b_data b); simpl; lia. Qed.

Lemma ensure_init_ok b size :
  exists cap, ensure_init b size = b <| b_data := base b |> <| b_cap := cap |>.
Proof. unfold ensure_init, base. destruct b as [[|x data]]; simpl; eexists; done. Qed.

Lemma split_list (l : bytes) n : (n <= length l)%nat -> exists l1 l2, l = l1 ++ l2 /\ length l1 = n.
Proof. intros. exists (take n l), (drop n l). rewrite take_drop, length_take. split; [done|lia]. Qed.

Lemma grow_ok b n :
  Z.of_nat (length (b_data b) + n) < maxBatchSize ->
  exists junk cap, length junk = n /\
    grow b n = Ret (b <| b_data := b_data b ++ junk |> <| b_cap := cap |>).
Proof.
  intros Hn. unfold grow. rewrite (proj2 (Z.leb_gt _ _)) by lia.
  eexists _, _. split; [|done]. by rewrite length_fmap, length_seq.
Qed.

(** The state after a record has been prepared. *)
Definition prepared (b : Batch) (cap : nat) (record : bytes) (size : Z) (key value : nat * nat) : Batch :=
  b <| b_data := base b ++ record |> <| b_cap := cap |>
    <| b_count := u64 (b_count b + 1) |> <| b_memTableSize := u64 (b_memTableSize b + size) |>
    <| b_deferredOp := mkDeferredBatchOp (d_index (b_deferredOp b)) key value
         (u32 (Z.of_nat (length (base b)))) |>.

Lemma prepareDeferredKeyValueRecord_ok b keyLen valueLen kind :
  b_committing b = false ->
  Z.of_nat (length (base b) + (11 + keyLen + valueLen)) < maxBatchSize ->
  let vk := PutUvarint (Z.of_nat keyLen) in
  let vv := PutUvarint (Z.of_nat valueLen) in
  let pk := (length (base b) + 1 + length vk)%nat in
  let pv := (pk + keyLen + length vv)%nat in
  exists j1 j2 cap, length j1 = keyLen /\ length j2 = valueLen /\
    prepareDeferredKeyValueRecord b keyLen valueLen kind =
      Ret (prepared b cap (z2b kind :: vk ++ j1 ++ vv ++ j2) (memTableEntrySize keyLen valueLen)
        (pk, pk + keyLen)%nat (pv, pv + valueLen)%nat).
Proof.
  intros Hc Hl vk vv pk pv. unfold prepareDeferredKeyValueRecord. rewrite Hc.
  destruct (ensure_init_ok b (keyLen + valueLen + 2 * MaxVarintLen64 + batchHeaderLen)) as [cap ->].
  assert (length vk <= 5 /\ length vv <= 5)%nat as [Hk Hv].
  { unfold vk, vv, maxBatchSize in *. split; apply length_PutUvarint32; lia. }
  match goal with |- context [grow ?x ?n] => destruct (grow_ok x n) as (junk & cap' & Hj & ->) end.
  { unfold maxVarintLen32. destruct b; simpl in *. lia. }
  cbn [mbind go_bind]. unfold maxVarintLen32 in Hj.
  destruct junk as [|m junk]; [simpl in Hj; lia|]. cbn [length] in Hj.
  destruct (split_list junk (length vk)) as (mk & ? & -> & Hmk); [lia|]. rewrite length_app in Hj.
  destruct (split_list x keyLen) as (j1 & ? & -> & Hj1); [lia|]. rewrite length_app in Hj.
  destruct (split_list x0 (length vv)) as (mv & ? & -> & Hmv); [lia|]. rewrite length_app in Hj.
  destruct (split_list x valueLen) as (j2 & rest & -> & Hj2); [lia|].
  exists j1, j2, cap'. split; [done|]. split; [done|].
  destruct b as [data c ms db n crd crk dop ix rdi rki ts rks mv' ing com app]. simpl in *.
  set (bs := base _) in *. subst pk pv.
  rewrite insert_app_mid by done. rewrite !u32_small by (unfold maxBatchSize in Hl; lia).
  rewrite cons_middle, app_assoc. replace (length bs + 1)%nat with (length (bs ++ [z2b kind])) by len.
  rewrite putVarint32_Put; [|unfold maxBatchSize in Hl; lia|done]. fold vk.
  rewrite (app_assoc vk), (app_assoc (bs ++ [z2b kind])).
  replace (length (bs ++ [z2b kind]) + length vk + keyLen)%nat
    with (length ((bs ++ [z2b kind]) ++ vk ++ j1)) by (rewrite !length_app; simpl; lia).
  rewrite putVarint32_Put; [|unfold maxBatchSize in Hl; lia|done]. fold vv.
  replace (length ((bs ++ [z2b kind]) ++ vk ++ j1) + length vv)%nat
    with (length bs + 1 + length vk + keyLen + length vv)%nat by (rewrite !length_app; simpl; lia).
  replace (length (bs ++ [z2b kind]) + length vk)%nat with (length bs + 1 + length vk)%nat by len.
  replace (((bs ++ [z2b kind]) ++ vk ++ j1) ++ vv ++ j2 ++ rest)
    with ((bs ++ z2b kind :: vk ++ j1 ++ vv ++ j2) ++ rest) by (rewrite <- ?app_assoc; simpl; by rewrite <- ?app_assoc).
  rewrite take_app_length' by (rewrite length_app; simpl; rewrite !length_app; lia).
  unfold prepared. fold bs. by rewrite u32_small by (unfold maxBatchSize in Hl; lia).
Qed.

Lemma prepareDeferredKeyRecord_ok b keyLen kind :
  b_committing b = false ->
  Z.of_nat (length (base b) + (11 + keyLen)) < maxBatchSize ->
  let vk := PutUvarint (Z.of_nat keyLen) in
  let pk := (length (base b) + 1 + length vk)%nat in
  exists j1 cap, length j1 = keyLen /\
    prepareDeferredKeyRecord b keyLen kind =
      Ret (prepared b cap (z2b kind :: vk ++ j1) (memTableEntrySize keyLen 0)
        (pk, pk + keyLen)%nat (O, O)).
Proof.
  intros Hc Hl vk pk. unfold prepareDeferredKeyRecord. rewrite Hc.
  destruct (ensure_init_ok b (keyLen + MaxVarintLen64 + batchHeaderLen)) as [cap ->].
  assert (length vk <= 5)%nat as Hk.
  { unfold vk, maxBatchSize in *. apply length_PutUvarint32. lia. }
  match goal with |- context [grow ?x ?n] => destruct (grow_ok x n) as (junk & cap' & Hj & ->) end.
  { unfold maxVarintLen32. destruct b; simpl in *. lia. }
  cbn [mbind go_bind]. unfold maxVarintLen32 in Hj.
  destruct junk as [|m junk]; [simpl in Hj; lia|]. cbn [length] in Hj.
  destruct (split_list junk (length vk)) as (mk & ? & -> & Hmk); [lia|]. rewrite length_app in Hj.
  destruct (split_list x keyLen) as (j1 & rest & -> & Hj1); [lia|].
  exists j1, cap'. split; [done|].
  destruct b as [data c ms db n crd crk dop ix rdi rki ts rks mv' ing com app]. simpl in *.
  set (bs := base _) in *. subst pk.
  rewrite insert_app_mid by done. rewrite !u32_small by (unfold maxBatchSize in Hl; lia).
  rewrite cons_middle, app_assoc. replace (length bs + 1)%nat with (length (bs ++ [z2b kind])) by len.
  rewrite putVarint32_Put; [|unfold maxBatchSize in Hl; lia|done]. fold vk.
  replace (length (bs ++ [z2b kind]) + length vk)%nat with (length bs + 1 + length vk)%nat by len.
  replace ((bs ++ [z2b kind]) ++ vk ++ j1 ++ rest)
    with ((bs ++ z2b kind :: vk ++ j1) ++ rest) by (rewrite <- ?app_assoc; simpl; by rewrite <- ?app_assoc).
  rewrite take_app_length' by (rewrite length_app; simpl; rewrite !length_app; lia).
  unfold prepared. fold bs. by rewrite u32_small by (unfold maxBatchSize in Hl; lia).
Qed.

(** The contents of the prepared record are filled in. *)
Lemma copy_into_ok b pre mid post s src :
  b_data b = pre ++ mid ++ post -> s = (length pre, length pre + length mid)%nat ->
  length src = length mid ->
  copy_into b s src = b <| b_data := pre ++ src ++ post |>.
Proof.
  intros Hd -> Hs. unfold copy_into. cbn [fst snd]. rewrite Hd.
  rewrite take_ge by lia. by rewrite copy_at_app.
Qed.

Lemma copy_Key_ok b pre mid post key :
  b_data b = pre ++ mid ++ post -> d_Key (b_deferredOp b) = (length pre, length pre + length mid)%nat ->
  length key = length mid -> copy_Key b key = b <| b_data := pre ++ key ++ post |>.
Proof. intros Hd Hk Hl. unfold copy_Key. rewrite Hk. by apply copy_into_ok with mid. Qed.
Lemma copy_Value_ok b pre mid post value :
  b_data b = pre ++ mid ++ post -> d_Value (b_deferredOp b) = (length pre, length pre + length mid)%nat ->
  length value = length mid -> copy_Value b value = b <| b_data := pre ++ value ++ post |>.
Proof. intros Hd Hk Hl. unfold copy_Value. rewrite Hk. by apply copy_into_ok with mid. Qed.

(** ** What a batch holds *)
Definition in_memtable (r : rec) : bool := negb (r.1.1 =? InternalKeyKindLogData).
Definition rec_size (r : rec) : Z :=
  if in_memtable r then memTableEntrySize (length r.1.2) (length r.2) else 0.
Definition rec_version (r : rec) : Z :=
  if r.1.1 =? InternalKeyKindDeleteSized then FormatDeleteSizedAndObsolete
  else if r.1.1 =? InternalKeyKindIngestSST then FormatFlushableIngest
  else if is_rangeKey r.1.1 then FormatRangeKeys else 0.
Definition sum (f : rec -> Z) (l : list rec) : Z := foldr (fun r n => f r + n) 0 l.
Definition one_if (p : rec -> bool) (r : rec) : Z := if p r then 1 else 0.
Definition is_rangeDel_rec (r : rec) : bool := r.1.1 =? InternalKeyKindRangeDelete.
Definition is_rangeKey_rec (r : rec) : bool := is_rangeKey r.1.1.
Definition version (l : list rec) : Z := foldr (fun r v => Z.max (rec_version r) v) 0 l.

Lemma sum_snoc f l r : sum f (l ++ [r]) = sum f l + f r.
Proof. induction l as [|x l IH]; simpl; [lia|]. rewrite IH. lia. Qed.
Lemma version_snoc l r : version (l ++ [r]) = Z.max (version l) (rec_version r).
Proof.
  induction l as [|x l IH]; cbn [app version foldr]; [lia|]. fold (version (l ++ [r])) (version l). lia.
Qed.

Record Inv (b : Batch) (l : list rec) : Prop := {
  inv_index : b_index b = None;
  inv_deferred : d_index (b_deferredOp b) = None;
  inv_committing : b_committing b = false;
  inv_ingested : b_ingestedSSTBatch b = false;
  inv_data : exists hdr, length hdr = batchHeaderLen /\ base b = hdr ++ enc_recs l;
  inv_seqNum : take 8 (base b) = replicate 8 Byte.x00;
  inv_count : b_count b = sum (one_if in_memtable) l;
  inv_size : b_memTableSize b = sum rec_size l;
  inv_rangeDels : b_countRangeDels b = sum (one_if is_rangeDel_rec) l;
  inv_rangeKeys : b_countRangeKeys b = sum (one_if is_rangeKey_rec) l;
  inv_version : b_minimumFormatMajorVersion b = version l;
  inv_ok : Forall rec_ok l;
  inv_fits : Z.of_nat (batchHeaderLen + reserves l) < maxBatchSize;
}.

Lemma sum_bounds f l :
  (forall r, 0 <= f r <= 18 * Z.of_nat (reserve r)) -> 0 <= sum f l <= 18 * Z.of_nat (reserves l).
Proof.
  intros Hf. induction l as [|r l IH]; [done|]. cbn [sum foldr]. fold (sum f l).
  rewrite reserves_cons. pose proof (Hf r). lia.
Qed.
Lemma one_if_bounds p r : 0 <= one_if p r <= 18 * Z.of_nat (reserve r).
Proof. unfold one_if, reserve. destruct (p r); lia. Qed.
Lemma rec_size_bounds r : 0 <= rec_size r <= 18 * Z.of_nat (reserve r).
Proof.
  unfold rec_size, reserve, memTableEntrySize, MaxNodeSize, nodeAlignment, u32. change arenaskl_maxNodeSize with 184.
  destruct (in_memtable r); [|lia].
  pose proof (Z.mod_pos_bound (Z.of_nat (length r.2)) (2 ^ 32) ltac:(lia)).
  pose proof (Z.mod_pos_bound (Z.of_nat (length r.1.2)) (2 ^ 32) ltac:(lia)).
  pose proof (Z.mod_pos_bound (Z.of_nat (length r.1.2) mod 2 ^ 32 + 8) (2 ^ 32) ltac:(lia)).
  pose proof (Z.mod_le (Z.of_nat (length r.2)) (2 ^ 32) ltac:(lia) ltac:(lia)).
  pose proof (Z.mod_le (Z.of_nat (length r.1.2)) (2 ^ 32) ltac:(lia) ltac:(lia)).
  pose proof (Z.mod_le (Z.of_nat (length r.1.2) mod 2 ^ 32 + 8) (2 ^ 32) ltac:(lia) ltac:(lia)).
  lia.
Qed.
Lemma sum_u64 f l :
  (forall r, 0 <= f r <= 18 * Z.of_nat (reserve r)) ->
  Z.of_nat (batchHeaderLen + reserves l) < maxBatchSize -> u64 (sum f l) = sum f l.
Proof.
  intros Hf Hl. apply u64_small. pose proof (sum_bounds f l Hf). unfold maxBatchSize in Hl. lia.
Qed.

Definition incr_if (p : bool) (n m : Z) : Z := if p then u64 (n + m) else n.
Lemma incr_if_sum (p : rec -> bool) (f : rec -> Z) l r :
  (forall r, 0 <= (if p r then f r else 0 : Z) <= 18 * Z.of_nat (reserve r)) ->
  Z.of_nat (batchHeaderLen + reserves (l ++ [r])) < maxBatchSize ->
  incr_if (p r) (sum (fun r => if p r then f r else 0) l) (f r) =
    sum (fun r => if p r then f r else 0) (l ++ [r]).
Proof.
  intros Hf Hl. rewrite <- (sum_u64 _ (l ++ [r])), sum_snoc by done. unfold incr_if.
  destruct (p r); [done|]. rewrite Z.add_0_r, sum_u64; [done..|].
  rewrite reserves_app in Hl. lia.
Qed.

(** Writing a record keeps the invariant. *)
Lemma Inv_step b l r b' :
  Inv b l -> rec_ok r -> Z.of_nat (batchHeaderLen + reserves (l ++ [r])) < maxBatchSize ->
  b_index b' = None -> d_index (b_deferredOp b') = None ->
  b_committing b' = b_committing b -> b_ingestedSSTBatch b' = b_ingestedSSTBatch b ->
  b_data b' = base b ++ enc_rec r ->
  b_count b' = incr_if (in_memtable r) (b_count b) 1 ->
  b_memTableSize b' =
    incr_if (in_memtable r) (b_memTableSize b) (memTableEntrySize (length r.1.2) (length r.2)) ->
  b_countRangeDels b' = incr_if (is_rangeDel_rec r) (b_countRangeDels b) 1 ->
  b_countRangeKeys b' = incr_if (is_rangeKey_rec r) (b_countRangeKeys b) 1 ->
  b_minimumFormatMajorVersion b' = Z.max (b_minimumFormatMajorVersion b) (rec_version r) ->
  Inv b' (l ++ [r]).
Proof.
  intros [] Hr Hl Hi Hd Hc Hg Hdata Hn Hs Hrd Hrk Hv.
  rewrite inv_count0, (incr_if_sum in_memtable (fun _ : rec => 1)) in Hn by first [done | exact (one_if_bounds _)].
  rewrite inv_size0, (incr_if_sum in_memtable (fun r : rec => memTableEntrySize (length r.1.2) (length r.2)))
    in Hs by first [done | exact rec_size_bounds].
  rewrite inv_rangeDels0, (incr_if_sum is_rangeDel_rec (fun _ : rec => 1)) in Hrd
    by first [done | exact (one_if_bounds _)].
  rewrite inv_rangeKeys0, (incr_if_sum is_rangeKey_rec (fun _ : rec => 1)) in Hrk
    by first [done | exact (one_if_bounds _)].
  rewrite inv_version0, <- version_snoc in Hv.
  destruct inv_data0 as (hdr & Hhdr & Hb).
  assert (base b' = base b ++ enc_rec r) as Hb'.
  { unfold base at 1. rewrite Hdata. destruct (base b ++ enc_rec r) eqn:E; [|done].
    pose proof (length_base b). apply (f_equal length) in E. rewrite length_app in E. simpl in E. lia. }
  split; try done; try congruence; [| |by apply Forall_app_2; [|constructor]].
  - exists hdr. split; [done|]. rewrite Hb', Hb, enc_recs_snoc. by rewrite app_assoc.
  - rewrite Hb', take_app_le; [done|]. rewrite Hb, length_app, Hhdr. unfold batchHeaderLen. lia.
Qed.

(** A prepared record whose key and value have been copied. *)
Definition filled (b b1 : Batch) (r : rec) : Batch := b1 <| b_data := base b ++ enc_rec r |>.

Section fill.
Context (b b1 : Batch) (kind : Z) (key value j1 j2 : bytes).
Let vk := PutUvarint (Z.of_nat (length key)).
Let vv := PutUvarint (Z.of_nat (length value)).
Let pk := (length (base b) + 1 + length vk)%nat.
Let pv := (pk + length key + length vv)%nat.
Hypothesis Hj1 : length j1 = length key.
Hypothesis Hk : d_Key (b_deferredOp b1) = (pk, pk + length key)%nat.

Lemma fill_key :
  b_data b1 = base b ++ z2b kind :: vk ++ j1 -> has_value kind = false ->
  copy_Key b1 key = filled b b1 (kind, key, value).
Proof.
  intros Hd Hv. rewrite (copy_Key_ok b1 (base b ++ z2b kind :: vk) j1 [] key).
  - unfold filled, enc_rec, varstr. rewrite Hv, !app_nil_r, <- app_assoc. done.
  - by rewrite Hd, app_nil_r, <- app_assoc.
  - rewrite Hk. unfold pk. rewrite length_app. simpl. f_equal; lia.
  - done.
Qed.

Context (Hd : b_data b1 = base b ++ z2b kind :: vk ++ j1 ++ vv ++ j2).
Context (Hj2 : length j2 = length value).
Context (Hval : d_Value (b_deferredOp b1) = (pv, pv + length value)%nat).
Context (Hv : has_value kind = true).

Lemma fill_key_value : copy_Value (copy_Key b1 key) value = filled b b1 (kind, key, value).
Proof.
  rewrite (copy_Key_ok b1 (base b ++ z2b kind :: vk) j1 (vv ++ j2) key).
  - rewrite (copy_Value_ok _ (base b ++ z2b kind :: vk ++ key ++ vv) j2 [] value).
    + unfold filled, enc_rec, varstr. rewrite Hv, app_nil_r, <- !app_assoc. simpl.
      by rewrite <- !app_assoc.
    + cbn. rewrite app_nil_r, <- !app_assoc. simpl. by rewrite <- !app_assoc.
    + transitivity (d_Value (b_deferredOp b1)); [by destruct b1|].
      rewrite Hval. unfold pv, pk. rewrite length_app. simpl. rewrite !length_app. f_equal; lia.
    + done.
  - by rewrite Hd, <- app_assoc.
  - rewrite Hk. unfold pk. rewrite length_app. simpl. f_equal; lia.
  - done.
Qed.

Lemma fill_value_key : copy_Key (copy_Value b1 value) key = filled b b1 (kind, key, value).
Proof.
  rewrite (copy_Value_ok _ (base b ++ z2b kind :: vk ++ j1 ++ vv) j2 [] value).
  - rewrite (copy_Key_ok _ (base b ++ z2b kind :: vk) j1 (vv ++ value) key).
    + unfold filled, enc_rec, varstr. rewrite Hv, <- !app_assoc. simpl. by rewrite <- !app_assoc.
    + cbn. rewrite app_nil_r, <- !app_assoc. simpl. by rewrite <- !app_assoc.
    + transitivity (d_Key (b_deferredOp b1)); [by destruct b1|].
      rewrite Hk. unfold pk. rewrite length_app. simpl. f_equal; lia.
    + done.
  - rewrite Hd, app_nil_r, <- !app_assoc. simpl. by rewrite <- !app_assoc.
  - rewrite Hval. unfold pv, pk. rewrite length_app. simpl. rewrite !length_app. f_equal; lia.
  - done.
Qed.

(** The value may also be encoded in place. *)
Lemma fill_encoded enc :
  (forall dst, length dst = length value -> enc dst = Ret (value, length value)) ->
  encode_Value (copy_Key b1 key) (length value) enc = Ret (filled b b1 (kind, key, value)).
Proof.
  intros He. rewrite <- fill_key_value. unfold encode_Value.
  change (d_Value (b_deferredOp (copy_Key b1 key))) with (d_Value (b_deferredOp b1)). rewrite Hval.
  assert (length (b_data (copy_Key b1 key)) = length (b_data b1)) as Hl by exact (length_copy_at _ _ _).
  rewrite He.
  - cbn [mbind go_bind]. by rewrite Nat.eqb_refl.
  - rewrite length_slice, Hl, Hd, length_app. cbn [length]. rewrite !length_app. unfold pv, pk. lia.
Qed.
End fill.

(** ** The operations of a user *)
Inductive op :=
| OpSet (key value : bytes)
| OpMerge (key value : bytes)
| OpDelete (key : bytes)
| OpDeleteSized (key : bytes) (deletedValueSize : Z)
| OpSingleDelete (key : bytes)
| OpDeleteRange (start end_ : bytes)
| OpRangeKeySet (start end_ sfx value : bytes)
| OpRangeKeyUnset (start end_ sfx : bytes)
| OpRangeKeyDelete (start end_ : bytes)
| OpLogData (data : bytes).

Definition do_op (b : Batch) (o : op) : go (Batch * option error) :=
  match o with
  | OpSet key value => batch_Set b key value
  | OpMerge key value => batch_Merge b key value
  | OpDelete key => batch_Delete b key
  | OpDeleteSized key n => batch_DeleteSized b key n
  | OpSingleDelete key => batch_SingleDelete b key
  | OpDeleteRange start end_ => DeleteRange b start end_
  | OpRangeKeySet start end_ sfx value => RangeKeySet b start end_ sfx value
  | OpRangeKeyUnset start end_ sfx => RangeKeyUnset b start end_ sfx
  | OpRangeKeyDelete start end_ => RangeKeyDelete b start end_
  | OpLogData data => LogData b data
  end.

(** The record an operation leaves in the batch. *)
Definition op_record (o : op) : rec :=
  match o with
  | OpSet key value => (InternalKeyKindSet, key, value)
  | OpMerge key value => (InternalKeyKindMerge, key, value)
  | OpDelete key => (InternalKeyKindDelete, key, [])
  | OpDeleteSized key n =>
      (InternalKeyKindDeleteSized, key, PutUvarint (u64 (n + Z.of_nat (length key))))
  | OpSingleDelete key => (InternalKeyKindSingleDelete, key, [])
  | OpDeleteRange start end_ => (InternalKeyKindRangeDelete, start, end_)
  | OpRangeKeySet start end_ sfx value =>
      (InternalKeyKindRangeKeySet, start, varstr end_ ++ varstr sfx ++ varstr value)
  | OpRangeKeyUnset start end_ sfx =>
      (InternalKeyKindRangeKeyUnset, start, varstr end_ ++ varstr sfx)
  | OpRangeKeyDelete start end_ => (InternalKeyKindRangeKeyDelete, start, end_)
  | OpLogData data => (InternalKeyKindLogData, data, [])
  end.

Lemma op_record_ok o : rec_ok (op_record o).
Proof. by destruct o. Qed.

Lemma Inv_room b l r :
  Inv b l -> Z.of_nat (batchHeaderLen + reserves (l ++ [r])) < maxBatchSize ->
  Z.of_nat (length (base b) + (11 + length r.1.2 + length r.2)) < maxBatchSize.
Proof.
  intros HI. destruct (inv_data _ _ HI) as (hdr & Hh & ->). pose proof (inv_fits _ _ HI) as Hf.
  rewrite reserves_app, reserves_cons, length_app. unfold reserve, maxBatchSize in *.
  pose proof (length_enc_recs l). lia.
Qed.

Lemma version_nonneg l : 0 <= version l.
Proof. induction l; simpl; [done|]. lia. Qed.

(** What an operation returns keeps the invariant: the fields of the new state are
    compared with the ones [Inv_step] asks for. *)
Ltac finish_op HI :=
  match type of HI with
  | Inv ?b ?l =>
      match goal with
      | |- context [finish_point ?b1] =>
          exists b1; split; [unfold finish_point; destruct b; simpl in *; by subst|]
      | |- context [Finish ?b1] =>
          exists b1; split;
          [unfold Finish; destruct b as [???????[]]; simpl in *; by subst|]
      end;
      split; [|by destruct b];
      pose proof (inv_version _ _ HI); pose proof (version_nonneg l);
      apply (Inv_step b); auto using op_record_ok; destruct b; simpl in *; subst; try done;
      try (unfold rec_version, ratchet; cbn; lia)
  end.

Lemma ratchet_max b v :
  ratchet b v = b <| b_minimumFormatMajorVersion := Z.max (b_minimumFormatMajorVersion b) v |>.
Proof.
  unfold ratchet. destruct (Z.ltb_spec (b_minimumFormatMajorVersion b) v).
  - by rewrite Z.max_r by lia.
  - rewrite Z.max_l by lia. by destruct b.
Qed.

Definition count_rangeKey (b : Batch) : Batch :=
  b <| b_countRangeKeys := u64 (b_countRangeKeys b + 1) |>
    <| b_minimumFormatMajorVersion := Z.max (b_minimumFormatMajorVersion b) FormatRangeKeys |>.
Lemma incrementRangeKeysCount_none b :
  b_index b = None ->
  incrementRangeKeysCount b = count_rangeKey b.
Proof.
  intros Hi. unfold incrementRangeKeysCount, count_rangeKey. rewrite ratchet_max. destruct b; simpl in *. by rewrite Hi.
Qed.

Ltac prepare_key_value :=
  match goal with
  | Hc : b_committing ?b = false, Hroom : Z.of_nat (length (base ?b) + _) < _
    |- context [prepareDeferredKeyValueRecord ?b ?k ?v ?kind] =>
      destruct (prepareDeferredKeyValueRecord_ok b k v kind Hc Hroom)
        as (j1 & j2 & cap & Hj1 & Hj2 & ->); rewrite ?bind_Ret
  end.
Ltac prepare_key :=
  match goal with
  | Hc : b_committing ?b = false, Hroom : Z.of_nat (length (base ?b) + _) < _
    |- context [prepareDeferredKeyRecord ?b ?k ?kind] =>
      destruct (prepareDeferredKeyRecord_ok b k kind Hc) as (j1 & cap & Hj1 & ->);
      [cbn [length] in Hroom; lia|]; rewrite ?bind_Ret
  end.

Lemma write_encoded b l kind start v n enc :
  Inv b l -> kind = InternalKeyKindRangeKeySet \/ kind = InternalKeyKindRangeKeyUnset ->
  Z.of_nat (batchHeaderLen + reserves (l ++ [(kind, start, v)])) < maxBatchSize ->
  n = length v -> (forall dst, length dst = length v -> enc dst = Ret (v, length v)) ->
  exists b',
    (b ← (b ← prepareDeferredKeyValueRecord b (length start) n kind; Ret (incrementRangeKeysCount b));
     b ← encode_Value (copy_Key b start) n enc; Finish b) = Ret (b', None) /\
    Inv b' (l ++ [(kind, start, v)]) /\ b_db b' = b_db b.
Proof.
  intros HI Hk Hl -> He. pose proof (Inv_room _ _ _ HI Hl) as Hroom. cbn [fst snd] in Hroom.
  assert (has_value kind = true) as Hval by (by destruct Hk as [-> | ->]).
  pose proof (inv_committing _ _ HI) as Hc. pose proof (inv_index _ _ HI) as Hi.
  prepare_key_value. rewrite incrementRangeKeysCount_none by done.
  erewrite fill_encoded by done. rewrite ?bind_Ret.
  match goal with |- context [Finish ?b1] => exists b1 end.
  pose proof (inv_deferred _ _ HI) as Hdf. split; [|split; [|reflexivity]].
  - unfold Finish. match goal with |- context [d_index (b_deferredOp ?x)] =>
      change (d_index (b_deferredOp x)) with (d_index (b_deferredOp b)) end. by rewrite Hdf.
  - destruct Hk as [-> | ->]; apply (Inv_step b); done.
Qed.

Lemma do_op_ok b l o :
  Inv b l -> Z.of_nat (batchHeaderLen + reserves (l ++ [op_record o])) < maxBatchSize ->
  exists b', do_op b o = Ret (b', None) /\ Inv b' (l ++ [op_record o]) /\ b_db b' = b_db b.
Proof.
  intros HI Hl. pose proof (Inv_room _ _ _ HI Hl) as Hroom.
  pose proof (inv_committing _ _ HI) as Hc. pose proof (inv_index _ _ HI) as Hi.
  pose proof (inv_deferred _ _ HI) as Hdf.
  destruct o; cbn [do_op]; cbn [op_record fst snd] in Hroom.
  - unfold batch_Set, SetDeferred. prepare_key_value.
    erewrite fill_key_value by done. finish_op HI.
  - unfold batch_Merge, MergeDeferred. prepare_key_value.
    erewrite fill_key_value by done. finish_op HI.
  - unfold batch_Delete, DeleteDeferred. prepare_key.
    erewrite (fill_key _ _ _ _ []) by done. finish_op HI.
  - unfold batch_DeleteSized, DeleteSizedDeferred. rewrite ratchet_max.
    set (b0 := b <| b_minimumFormatMajorVersion := _ |>).
    assert (b_committing b0 = false) as Hc0 by (by destruct b).
    change (base b) with (base b0) in Hroom. prepare_key_value.
    erewrite fill_value_key by done. subst b0. finish_op HI.
  - unfold batch_SingleDelete, SingleDeleteDeferred. prepare_key.
    erewrite (fill_key _ _ _ _ []) by done. finish_op HI.
  - unfold DeleteRange, DeleteRangeDeferred. prepare_key_value.
    match goal with |- context [match b_index ?x with _ => _ end] =>
      change (b_index x) with (b_index b) end.
    rewrite Hi. rewrite ?bind_Ret. erewrite fill_key_value by done. finish_op HI.
  - assert (short end_ /\ short sfx /\ short value) as (He & Hs & Hv).
    { unfold short, maxBatchSize in *. rewrite !length_app, !length_varstr_eq in Hroom. lia. }
    assert (varstr end_ ++ concat (enc_sv <$> [mkSV sfx value]) =
      varstr end_ ++ varstr sfx ++ varstr value) as Ev by (cbn; by rewrite app_nil_r).
    apply write_encoded; [done|by left|done| |]; rewrite <- Ev.
    + apply EncodedSetValueLen_ok; [done|by repeat constructor].
    + intros dst. apply EncodeSetValue_ok.
  - assert (short end_ /\ short sfx) as (He & Hs).
    { unfold short, maxBatchSize in *. rewrite !length_app, !length_varstr_eq in Hroom. lia. }
    assert (varstr end_ ++ concat (varstr <$> [sfx]) = varstr end_ ++ varstr sfx) as Ev
      by (cbn; by rewrite app_nil_r).
    apply write_encoded; [done|by right|done| |]; rewrite <- Ev.
    + apply EncodedUnsetValueLen_ok; [done|by repeat constructor].
    + intros dst. apply EncodeUnsetValue_ok.
  - unfold RangeKeyDelete, RangeKeyDeleteDeferred. prepare_key_value.
    rewrite incrementRangeKeysCount_none by done.
    erewrite fill_key_value by done. finish_op HI.
  - unfold LogData. prepare_key. erewrite (fill_key _ _ _ _ []) by done.
    match goal with |- context [Ret (?b1, None)] => exists b1; split; [reflexivity|] end.
    split; [|reflexivity]. apply (Inv_step b); auto using op_record_ok.
    symmetry. apply Z.max_l. change (0 <= b_minimumFormatMajorVersion b).
    rewrite (inv_version _ _ HI). apply version_nonneg.
Qed.

(** ** Sequences of operations *)
Fixpoint do_ops (b : Batch) (l : list op) : go (Batch * option error) :=
  match l with
  | [] => Ret (b, None)
  | o :: l =>
      '(b, err) ← do_op b o;
      match err with Some _ => Ret (b, err) | None => do_ops b l end
  end.

Definition ops_fit (ops : list op) : Prop :=
  Z.of_nat (batchHeaderLen + reserves (op_record <$> ops)) < maxBatchSize.

Lemma Inv_newBatch db : Inv (newBatch db) [].
Proof. split; try done. by exists (replicate batchHeaderLen Byte.x00). Qed.

Lemma do_ops_ok ops : forall b l,
  Inv b l -> Z.of_nat (batchHeaderLen + reserves (l ++ (op_record <$> ops))) < maxBatchSize ->
  exists b', do_ops b ops = Ret (b', None) /\ Inv b' (l ++ (op_record <$> ops)) /\ b_db b' = b_db b.
Proof.
  induction ops as [|o ops IH]; intros b l HI Hl.
  - exists b. cbn [fmap list_fmap]. by rewrite app_nil_r.
  - cbn [do_ops]. rewrite fmap_cons, cons_middle, app_assoc in *.
    destruct (do_op_ok b l o HI) as (b1 & -> & HI1 & Hdb); [rewrite reserves_app in Hl; lia|].
    cbn [mbind go_bind]. destruct (IH b1 _ HI1 Hl) as (b2 & -> & HI2 & Hdb2).
    exists b2. by rewrite Hdb2.
Qed.

(** ** The representation *)
Lemma sum_one_if p l : 0 <= sum (one_if p) l <= Z.of_nat (length l).
Proof.
  induction l as [|r l IH]; [done|]. cbn [sum foldr length]. fold (sum (one_if p) l).
  unfold one_if at 1 3. destruct (p r); lia.
Qed.
Lemma length_reserves l : (length l <= reserves l)%nat.
Proof. induction l as [|r l IH]; [done|]. rewrite reserves_cons. unfold reserve. simpl. lia. Qed.

Lemma Inv_Count b l : Inv b l -> Count b = Ret (sum (one_if in_memtable) l).
Proof.
  intros []. unfold Count. rewrite inv_count0.
  pose proof (sum_one_if in_memtable l). pose proof (length_reserves l).
  unfold maxBatchSize in *. rewrite (proj2 (Z.ltb_ge _ _)), u32_small by lia. done.
Qed.

Lemma base_idem b cap : base (b <| b_data := base b |> <| b_cap := cap |>) = base b.
Proof. unfold base at 1. cbn. pose proof (length_base b). by destruct (base b); [simpl in *; lia|]. Qed.

Lemma Inv_ensure_init b l size : Inv b l -> Inv (ensure_init b size) l.
Proof.
  intros []. destruct (ensure_init_ok b size) as [cap ->]. split; try done; by rewrite base_idem.
Qed.

(** A header that says how many records there are, and the records. *)
Definition repr_of (l : list rec) (repr : bytes) : Prop :=
  exists seq, length seq = 8%nat /\
    repr = seq ++ PutUint32 (sum (one_if in_memtable) l) ++ enc_recs l.

Lemma Inv_Repr b l :
  Inv b l -> exists b' repr, Repr b = Ret (b', repr) /\ repr_of l repr /\ Inv b' l /\ b_data b' = repr.
Proof.
  intros HI. unfold Repr. pose proof (Inv_ensure_init b l batchHeaderLen HI) as HI'.
  rewrite (Inv_Count _ l HI'). rewrite bind_Ret. destruct (ensure_init_ok b batchHeaderLen) as [cap E].
  rewrite E in *. clear E. destruct (inv_data _ _ HI') as (hdr & Hh & Hb).
  rewrite base_idem in Hb. unfold batchHeaderLen in Hh.
  assert (copy_at (base b) 8 (PutUint32 (sum (one_if in_memtable) l)) =
    take 8 hdr ++ PutUint32 (sum (one_if in_memtable) l) ++ enc_recs l) as Hc.
  { rewrite Hb. rewrite <- (take_drop 8 hdr) at 1. rewrite <- app_assoc.
    apply copy_at_app; [rewrite length_take|rewrite length_PutUint32, length_drop]; lia. }
  eexists _, _. split; [reflexivity|].
  change (b_data (b <| b_data := base b |> <| b_cap := cap |>)) with (base b). rewrite Hc.
  split; [exists (take 8 hdr); rewrite length_take; split; [lia|done]|]. split; [|done].
  destruct HI'.
  match goal with |- Inv ?x _ => assert (base x = take 8 hdr ++ PutUint32 (sum (one_if in_memtable) l) ++ enc_recs l) as Hb' end.
  { unfold base. cbn. by destruct hdr. }
  split; try done.
  - exists (take 8 hdr ++ PutUint32 (sum (one_if in_memtable) l)). rewrite Hb', app_assoc.
    split; [|done]. rewrite length_app, length_PutUint32, length_take. unfold batchHeaderLen. lia.
  - rewrite Hb'. rewrite base_idem, Hb, take_app_le in inv_seqNum0 by lia.
    rewrite inv_seqNum0. apply take_app_length'. done.
Qed.

Lemma ReadBatch_repr l repr :
  repr_of l repr -> Z.of_nat (batchHeaderLen + reserves l) < maxBatchSize ->
  ReadBatch repr = (enc_recs l, sum (one_if in_memtable) l).
Proof.
  intros (seq & Hs & ->) Hl. unfold ReadBatch, batchHeaderLen, batchCountOffset, maxBatchSize in *.
  pose proof (sum_one_if in_memtable l). pose proof (length_reserves l).
  rewrite !length_app, Hs, length_PutUint32.
  destruct l as [|r l]; [done|].
  pose proof (length_recs (r :: l)) as Hr. cbn [length] in Hr.
  rewrite (proj2 (Nat.leb_gt _ _)) by lia. f_equal.
  - rewrite app_assoc. apply drop_app_length'. len.
  - rewrite slice_app_mid by len. rewrite <- (app_nil_r (PutUint32 _)). apply Uint32_Put. lia.
Qed.
End ops.
