(* ===== verification/BatchRoundtrip.v ===== *)
(** The representation of a batch (Batch.v) can be read back, and a batch made from it has
    the same contents. *)
From S2P Require Import Prelude.
From S2P Require Import InternalKey.
From S2P Require Import RangeKey.
From S2P Require Import Batch.
From S2P Require Import BatchSpec.

Local Open Scope Z_scope.

Section refresh.
Context {K : BatchSkl} {M : Memory}.

(** What [refreshMemTableSize] counts: it takes log data to be in the memtable. *)
Definition full_size (r : rec) : Z := memTableEntrySize (length r.1.2) (length r.2).
Definition point_version (r : rec) : Z :=
  if r.1.1 =? InternalKeyKindDeleteSized then FormatDeleteSizedAndObsolete else 0.
Definition point_versions (l : list rec) : Z := foldr (fun r v => Z.max (point_version r) v) 0 l.

Lemma full_size_bounds r : 0 <= full_size r <= 18 * Z.of_nat (reserve r).
Proof.
  destruct r as [[k key] value]. exact (rec_size_bounds (InternalKeyKindSet, key, value)).
Qed.
Lemma rec_size_full l : sum rec_size l <= sum full_size l.
Proof.
  induction l as [|r l IH]; [done|]. cbn [sum foldr]. fold (sum rec_size l) (sum full_size l).
  assert (rec_size r <= full_size r); [|lia]. pose proof (full_size_bounds r).
  unfold rec_size. fold (full_size r). destruct (in_memtable r); lia.
Qed.
Lemma point_versions_nonneg l : 0 <= point_versions l.
Proof.
  induction l as [|r l IH]; [done|]. cbn [point_versions foldr]. fold (point_versions l). lia.
Qed.

(** No record that makes sstables part of the batch. *)
Definition not_ingest (r : rec) : Prop := r.1.1 <> InternalKeyKindIngestSST.

Lemma version_split l :
  Forall not_ingest l ->
  version l = Z.max (point_versions l) (if 0 <? sum (one_if is_rangeKey_rec) l then FormatRangeKeys else 0).
Proof.
  induction 1 as [|r l Hr Hl IH]; [done|]. cbn [version point_versions sum foldr].
  fold (version l) (point_versions l) (sum (one_if is_rangeKey_rec) l). rewrite IH.
  pose proof (sum_one_if is_rangeKey_rec l). pose proof (point_versions_nonneg l).
  unfold rec_version, point_version, one_if, is_rangeKey_rec, not_ingest in *.
  rewrite (proj2 (Z.eqb_neq _ _) Hr).
  destruct (Z.eqb_spec r.1.1 InternalKeyKindDeleteSized) as [E|_].
  - rewrite E. change (is_rangeKey InternalKeyKindDeleteSized) with false. cbn [Z.add].
    rewrite Z.add_0_l. destruct (0 <? _); lia.
  - destruct (is_rangeKey r.1.1); [|rewrite Z.add_0_l; destruct (0 <? _); unfold FormatRangeKeys; lia].
    rewrite (proj2 (Z.ltb_lt 0 (1 + _))) by lia. unfold FormatRangeKeys. destruct (0 <? _); lia.
Qed.

(** One round of the loop. *)
Definition refresh_step (b : Batch) (r : rec) : Batch :=
  let b :=
    if is_rangeDel_rec r then b <| b_countRangeDels := u64 (b_countRangeDels b + 1) |>
    else if is_rangeKey_rec r then b <| b_countRangeKeys := u64 (b_countRangeKeys b + 1) |>
    else if r.1.1 =? InternalKeyKindDeleteSized then ratchet b FormatDeleteSizedAndObsolete else b in
  b <| b_memTableSize := u64 (b_memTableSize b + full_size r) |>.

Lemma refresh_loop_ok l : forall fuel b,
  Forall rec_ok l -> Forall not_ingest l -> Z.of_nat (reserves l) < 2 ^ 32 -> (length l < fuel)%nat ->
  refresh_loop fuel (enc_recs l) b = Ret (foldl refresh_step b l, None).
Proof.
  induction l as [|r l IH]; intros fuel b Hok Hn Hl Hf; (destruct fuel as [|fuel]; [lia|]); [done|].
  inversion Hok; inversion Hn; subst. cbn [refresh_loop]. rewrite enc_recs_cons.
  rewrite Next_enc_rec; [|done|].
  - rewrite bind_Ret. unfold not_ingest in *. rewrite (proj2 (Z.eqb_neq _ _)) by done.
    rewrite IH; [done|done|done| |simpl in Hf; lia]. rewrite reserves_cons in Hl. lia.
  - pose proof (length_enc_recs (r :: l) Hl). rewrite enc_recs_cons in *. lia.
Qed.

(** The fields that the loop does not change. *)
Lemma refresh_step_same b r :
  b_data (refresh_step b r) = b_data b /\ b_cap (refresh_step b r) = b_cap b /\
  b_count (refresh_step b r) = b_count b /\ b_db (refresh_step b r) = b_db b.
Proof.
  unfold refresh_step. rewrite ratchet_max.
  destruct (is_rangeDel_rec r), (is_rangeKey_rec r), (r.1.1 =? InternalKeyKindDeleteSized); done.
Qed.
Lemma refresh_same l : forall b,
  b_data (foldl refresh_step b l) = b_data b /\ b_count (foldl refresh_step b l) = b_count b.
Proof.
  induction l as [|r l IH]; intros b; [done|]. cbn [foldl].
  destruct (IH (refresh_step b r)) as [-> ->]. destruct (refresh_step_same b r) as (-> & _ & -> & _).
  done.
Qed.

(** The fields that it counts in. *)
Lemma refresh_step_counts b r :
  0 <= b_minimumFormatMajorVersion b ->
  b_countRangeDels (refresh_step b r) = incr_if (is_rangeDel_rec r) (b_countRangeDels b) 1 /\
  b_countRangeKeys (refresh_step b r) = incr_if (is_rangeKey_rec r) (b_countRangeKeys b) 1 /\
  b_memTableSize (refresh_step b r) = u64 (b_memTableSize b + full_size r) /\
  b_minimumFormatMajorVersion (refresh_step b r) =
    Z.max (b_minimumFormatMajorVersion b) (point_version r).
Proof.
  intros Hv. unfold refresh_step, is_rangeDel_rec, is_rangeKey_rec, point_version. rewrite ratchet_max.
  destruct (Z.eqb_spec r.1.1 InternalKeyKindRangeDelete) as [E|_].
  - rewrite E. repeat split. cbn. lia.
  - destruct (is_rangeKey r.1.1) eqn:Ek.
    + assert ((r.1.1 =? InternalKeyKindDeleteSized) = false) as ->.
      { destruct (Z.eqb_spec r.1.1 InternalKeyKindDeleteSized) as [E|]; [by rewrite E in Ek|done]. }
      repeat split. cbn. lia.
    + destruct (r.1.1 =? InternalKeyKindDeleteSized); repeat split. cbn. lia.
Qed.

Lemma refresh_counts l : forall b,
  0 <= b_minimumFormatMajorVersion b -> 0 <= b_countRangeDels b -> 0 <= b_countRangeKeys b ->
  0 <= b_memTableSize b ->
  b_countRangeDels b + 18 * Z.of_nat (reserves l) < 2 ^ 64 ->
  b_countRangeKeys b + 18 * Z.of_nat (reserves l) < 2 ^ 64 ->
  b_memTableSize b + 18 * Z.of_nat (reserves l) < 2 ^ 64 ->
  let b' := foldl refresh_step b l in
  b_countRangeDels b' = b_countRangeDels b + sum (one_if is_rangeDel_rec) l /\
  b_countRangeKeys b' = b_countRangeKeys b + sum (one_if is_rangeKey_rec) l /\
  b_memTableSize b' = b_memTableSize b + sum full_size l /\
  b_minimumFormatMajorVersion b' = Z.max (b_minimumFormatMajorVersion b) (point_versions l).
Proof.
  induction l as [|r l IH]; intros b Hv Hd Hk Hs Hld Hlk Hls; cbn [foldl].
  - cbn. lia.
  - destruct (refresh_step_counts b r Hv) as (Ed & Ek & Es & Ev). cbn zeta.
    rewrite reserves_cons in *. pose proof (full_size_bounds r).
    assert (forall p n, 0 <= n -> n + 18 * Z.of_nat (reserve r) < 2 ^ 64 ->
      incr_if (p r) n 1 = n + one_if p r) as Hincr.
    { intros p n Hn Hlt. unfold incr_if, one_if, reserve in *. destruct (p r); [|lia].
      apply u64_small. lia. }
    rewrite Hincr in Ed, Ek by lia. rewrite u64_small in Es by lia.
    pose proof (one_if_bounds is_rangeDel_rec r). pose proof (one_if_bounds is_rangeKey_rec r).
    destruct (IH (refresh_step b r)) as (-> & -> & -> & ->); try lia.
    rewrite Ed, Ek, Es, Ev. cbn [sum foldr point_versions].
    fold (sum (one_if is_rangeDel_rec) l) (sum (one_if is_rangeKey_rec) l) (sum full_size l)
      (point_versions l). lia.
Qed.

(** The state the loop starts from. *)
Definition refresh_start (b : Batch) : Batch :=
  b <| b_memTableSize := 0 |> <| b_countRangeDels := 0 |> <| b_countRangeKeys := 0 |>
    <| b_minimumFormatMajorVersion := 0 |>.
Definition refresh_end (b : Batch) : Batch :=
  if 0 <? b_countRangeKeys b then ratchet b FormatRangeKeys else b.

Lemma refreshMemTableSize_eq b :
  (batchHeaderLen <= length (b_data b))%nat ->
  refreshMemTableSize b =
    ('(b, err) ← refresh_loop (S (length (drop batchHeaderLen (b_data b))))
       (drop batchHeaderLen (b_data b)) (refresh_start b);
     match err with Some _ => Ret (b, err) | None => Ret (refresh_end b, None) end).
Proof.
  intros Hl. unfold refreshMemTableSize.
  change (b_data (b <| b_memTableSize := 0 |>)) with (b_data b).
  rewrite (proj2 (Nat.ltb_ge _ _)) by done. fold (refresh_start b).
  assert (ensure_init (refresh_start b) batchHeaderLen = refresh_start b) as E.
  { unfold ensure_init. change (b_data (refresh_start b)) with (b_data b).
    by destruct (b_data b); [simpl in Hl; unfold batchHeaderLen in Hl; lia|]. }
  unfold Reader. rewrite E. done.
Qed.

Lemma refreshMemTableSize_ok l b hdr :
  b_data b = hdr ++ enc_recs l -> length hdr = batchHeaderLen ->
  Forall rec_ok l -> Forall not_ingest l -> Z.of_nat (batchHeaderLen + reserves l) < maxBatchSize ->
  exists b', refreshMemTableSize b = Ret (b', None) /\ b_data b' = b_data b /\ b_count b' = b_count b /\
    b_countRangeDels b' = sum (one_if is_rangeDel_rec) l /\
    b_countRangeKeys b' = sum (one_if is_rangeKey_rec) l /\
    b_minimumFormatMajorVersion b' = version l /\ b_memTableSize b' = sum full_size l.
Proof.
  intros Hb Hh Hok Hn Hl. unfold maxBatchSize, batchHeaderLen in *.
  rewrite refreshMemTableSize_eq by (rewrite Hb, length_app; unfold batchHeaderLen; lia).
  assert (b_data (refresh_start b) = b_data b /\ b_count (refresh_start b) = b_count b /\
    b_countRangeDels (refresh_start b) = 0 /\ b_countRangeKeys (refresh_start b) = 0 /\
    b_memTableSize (refresh_start b) = 0 /\ b_minimumFormatMajorVersion (refresh_start b) = 0)
    as (E1 & E2 & E3 & E4 & E5 & E6) by done.
  generalize dependent (refresh_start b). intros b3 E1 E2 E3 E4 E5 E6.
  rewrite Hb, drop_app_length' by done.
  rewrite refresh_loop_ok; [|done|done|lia|pose proof (length_recs l); lia]. rewrite bind_Ret.
  destruct (refresh_counts l b3) as (Ed & Ek & Es & Ev); try lia.
  destruct (refresh_same l b3) as [Edata Ecount].
  generalize dependent (foldl refresh_step b3 l). intros b4 Ed Ek Es Ev Edata Ecount.
  pose proof (point_versions_nonneg l). rewrite E6, Z.max_r in Ev by done.
  exists (refresh_end b4). split; [done|]. unfold refresh_end. rewrite Ek, E4, version_split by done.
  rewrite Z.add_0_l. destruct (0 <? sum (one_if is_rangeKey_rec) l).
  - rewrite ratchet_max, Ev.
    split; [rewrite <- Hb; exact (eq_trans Edata E1)|]. split; [exact (eq_trans Ecount E2)|].
    split; [etransitivity; [exact Ed|lia]|]. split; [etransitivity; [exact Ek|lia]|].
    split; [reflexivity|etransitivity; [exact Es|lia]].
  - repeat split; congruence || lia.
Qed.

Lemma SetRepr_ok l repr b cap :
  repr_of l repr -> Forall rec_ok l -> Forall not_ingest l ->
  Z.of_nat (batchHeaderLen + reserves l) < maxBatchSize -> b_db b = true ->
  exists b', SetRepr b repr cap = Ret (b', None) /\ b_data b' = repr /\
    b_count b' = sum (one_if in_memtable) l /\
    b_countRangeDels b' = sum (one_if is_rangeDel_rec) l /\
    b_countRangeKeys b' = sum (one_if is_rangeKey_rec) l /\
    b_minimumFormatMajorVersion b' = version l /\ b_memTableSize b' = sum full_size l.
Proof.
  intros (seq & Hseq & Hrepr) Hok Hn Hl Hdb. unfold SetRepr.
  pose proof (sum_one_if in_memtable l). pose proof (length_reserves l).
  rewrite (proj2 (Nat.ltb_ge _ _)) by (rewrite Hrepr; unfold batchHeaderLen; len).
  set (b1 := b <| b_data := repr |> <| b_cap := cap |>).
  assert (Uint32 (countData b1) = sum (one_if in_memtable) l) as Hcount.
  { unfold countData. change (b_data b1) with repr. rewrite Hrepr, slice_app_mid by len.
    rewrite <- (app_nil_r (PutUint32 _)). apply Uint32_Put. unfold maxBatchSize in Hl. lia. }
  rewrite Hcount. set (b2 := b1 <| b_count := _ |>). change (b_db b2) with (b_db b). rewrite Hdb.
  destruct (refreshMemTableSize_ok l b2 (seq ++ PutUint32 (sum (one_if in_memtable) l)))
    as (b' & E & E1 & E2 & E3); try done.
  - change (b_data b2) with repr. by rewrite Hrepr, app_assoc.
  - unfold batchHeaderLen. len.
  - exists b'. split; [done|]. split; [done|]. split; [done|]. done.
Qed.

(** ** Applying a batch to another one *)
Definition apply_step (b : Batch) (r : rec) : Batch :=
  let b :=
    if is_rangeDel_rec r then b <| b_countRangeDels := u64 (b_countRangeDels b + 1) |>
    else if is_rangeKey_rec r then b <| b_countRangeKeys := u64 (b_countRangeKeys b + 1) |>
    else b in
  b <| b_memTableSize := u64 (b_memTableSize b + full_size r) |>.

Lemma apply_step_same b r :
  b_data (apply_step b r) = b_data b /\ b_index (apply_step b r) = b_index b /\
  b_count (apply_step b r) = b_count b /\
  b_minimumFormatMajorVersion (apply_step b r) = b_minimumFormatMajorVersion b.
Proof. unfold apply_step. by destruct (is_rangeDel_rec r), (is_rangeKey_rec r). Qed.

Lemma apply_loop_ok l : forall fuel b,
  Forall rec_ok l -> Forall not_ingest l -> Z.of_nat (reserves l) < 2 ^ 32 -> (length l <= fuel)%nat ->
  b_index b = None ->
  apply_loop fuel (enc_recs l) b = Ret (foldl apply_step b l, None).
Proof.
  induction l as [|r l IH]; intros fuel b Hok Hn Hl Hf Hi; [by destruct fuel|].
  destruct fuel as [|fuel]; [simpl in Hf; lia|].
  inversion Hok; inversion Hn; subst.
  pose proof (length_enc_recs (r :: l) Hl) as Hlen. rewrite enc_recs_cons in *.
  rewrite reserves_cons in *. pose proof (Next_enc_rec r (enc_recs l)) as Hnext.
  pose proof (length_enc_rec r) as Hr.
  destruct (enc_rec r ++ enc_recs l) as [|x rest] eqn:E.
  { apply (f_equal length) in E. rewrite length_app in E. simpl in E. lia. }
  rewrite ?E in *. cbn [apply_loop]. rewrite Hnext by (try done; lia). rewrite bind_Ret.
  unfold not_ingest in *. rewrite (proj2 (Z.eqb_neq r.1.1 _)) by done. cbn [foldl].
  rewrite <- (IH fuel (apply_step b r)); [|done|done|lia|simpl in Hf; lia|].
  - unfold apply_step, is_rangeDel_rec, is_rangeKey_rec.
    destruct (r.1.1 =? InternalKeyKindRangeDelete), (is_rangeKey r.1.1);
      match goal with |- context [match b_index ?y with _ => _ end] =>
        change (b_index y) with (b_index b) end; by rewrite Hi.
  - by destruct (apply_step_same b r) as (_ & -> & _).
Qed.

Lemma apply_same l : forall b,
  b_data (foldl apply_step b l) = b_data b /\ b_count (foldl apply_step b l) = b_count b /\
  b_minimumFormatMajorVersion (foldl apply_step b l) = b_minimumFormatMajorVersion b.
Proof.
  induction l as [|r l IH]; intros b; [done|]. cbn [foldl].
  destruct (IH (apply_step b r)) as (-> & -> & ->).
  by destruct (apply_step_same b r) as (-> & _ & -> & ->).
Qed.

Lemma Reader_base b : (Reader b).2 = drop batchHeaderLen (base b).
Proof. unfold Reader. destruct (ensure_init_ok b batchHeaderLen) as [cap ->]. done. Qed.

Lemma Inv_Reader b l : Inv b l -> (Reader b).2 = enc_recs l.
Proof.
  intros HI. destruct (inv_data _ _ HI) as (hdr & Hh & Hb). rewrite Reader_base, Hb.
  by apply drop_app_length'.
Qed.

Lemma Inv_nil b l : Inv b l -> b_data b = [] -> l = [].
Proof.
  intros HI Hd. destruct (inv_data _ _ HI) as (hdr & Hh & Hb). unfold base in Hb. rewrite Hd in Hb.
  pose proof (inv_fits _ _ HI). pose proof (length_recs l). unfold maxBatchSize in *.
  apply (f_equal length) in Hb. rewrite length_app, length_replicate in Hb.
  destruct l; [done|]. simpl in *. lia.
Qed.

Lemma sum_app f l1 l2 : sum f (l1 ++ l2) = sum f l1 + sum f l2.
Proof.
  induction l1 as [|x l1 IH]; [done|]. cbn [app sum foldr].
  fold (sum f (l1 ++ l2)) (sum f l1). lia.
Qed.
Lemma enc_recs_app l1 l2 : enc_recs (l1 ++ l2) = enc_recs l1 ++ enc_recs l2.
Proof. unfold enc_recs. by rewrite fmap_app, concat_app. Qed.

(** [Apply] before its loop. *)
Definition appended (b batch : Batch) (cap : nat) (n : Z) : Batch :=
  b <| b_data := base b ++ drop batchHeaderLen (b_data batch) |> <| b_cap := cap |> <| b_count := n |>.

Lemma Apply_eq b l1 batch l2 :
  Inv b l1 -> Inv batch l2 -> b_data batch <> [] ->
  Z.of_nat (batchHeaderLen + reserves (l1 ++ l2)) < maxBatchSize ->
  exists cap, let b' := appended b batch cap (sum (one_if in_memtable) (l1 ++ l2)) in
    Apply b batch = if b_db b then apply_loop (length (enc_recs l2)) (enc_recs l2) b' else Ret (b', None).
Proof.
  intros HI1 HI2 Hne Hl. destruct (inv_data _ _ HI2) as (hdr & Hh & Hb).
  unfold base in Hb. assert (b_data batch = hdr ++ enc_recs l2) as Hd by (by destruct (b_data batch)).
  unfold Apply. rewrite (inv_ingested _ _ HI1), Hd, length_app, Hh.
  rewrite (proj2 (Nat.eqb_neq _ _)), (proj2 (Nat.ltb_ge _ _)) by (unfold batchHeaderLen; lia).
  pose proof (Inv_Count _ _ HI2) as Hc2. pose proof (Inv_Count _ _ HI1) as Hc1.
  destruct (ensure_init_ok b 0) as [cap ->].
  set (b1 := b <| b_data := base b |> <| b_cap := cap |>).
  change (b_data b1) with (base b). rewrite drop_app_length' by done.
  match goal with |- context [Count ?x] => change (Count x) with (Count b) end.
  rewrite Hc1, Hc2, !bind_Ret, <- sum_app.
  pose proof (sum_one_if in_memtable (l1 ++ l2)). pose proof (length_reserves (l1 ++ l2)).
  unfold maxBatchSize in Hl. rewrite u32_small by lia.
  eexists. unfold appended. rewrite Hd, drop_app_length' by done.
  match goal with |- context [b_db ?x || Indexed ?x] =>
    change (b_db x) with (b_db b); change (Indexed x) with (Indexed b) end.
  unfold Indexed. rewrite (inv_index _ _ HI1), orb_false_r.
  match goal with |- context [drop _ (b_data ?x)] => change (b_data x) with (base b ++ enc_recs l2) end.
  rewrite drop_app_length. reflexivity.
Qed.

(** Records that an application can take over. *)
Lemma Apply_ok b l1 batch l2 :
  Inv b l1 -> Inv batch l2 -> Forall not_ingest l2 ->
  Z.of_nat (batchHeaderLen + reserves (l1 ++ l2)) < maxBatchSize ->
  exists b', Apply b batch = Ret (b', None) /\ (Reader b').2 = enc_recs (l1 ++ l2) /\
    Count b' = Ret (sum (one_if in_memtable) (l1 ++ l2)) /\
    b_minimumFormatMajorVersion b' = b_minimumFormatMajorVersion b.
Proof.
  intros HI1 HI2 Hn Hl. destruct (decide (b_data batch = [])) as [Hd|Hd].
  { exists b. unfold Apply. rewrite (inv_ingested _ _ HI1), Hd. rewrite (Inv_nil _ _ HI2 Hd), (app_nil_r l1).
    split; [done|]. split; [by apply Inv_Reader|]. split; [by apply Inv_Count|done]. }
  destruct (Apply_eq b l1 batch l2 HI1 HI2 Hd Hl) as [cap ->].
  set (b1 := appended _ _ _ _).
  assert (b_data b1 = base b ++ enc_recs l2 /\ b_count b1 = sum (one_if in_memtable) (l1 ++ l2) /\
    b_minimumFormatMajorVersion b1 = b_minimumFormatMajorVersion b /\ b_index b1 = None) as (E1 & E2 & E3 & E4).
  { destruct (inv_data _ _ HI2) as (hdr & Hh & Hb). unfold base in Hb.
    assert (b_data batch = hdr ++ enc_recs l2) as E by (by destruct (b_data batch)).
    split; [|repeat split; apply (inv_index _ _ HI1)].
    change (base b ++ drop batchHeaderLen (b_data batch) = base b ++ enc_recs l2).
    by rewrite E, drop_app_length'. }
  clearbody b1.
  assert (forall b2, b_data b2 = b_data b1 -> b_count b2 = b_count b1 ->
    (Reader b2).2 = enc_recs (l1 ++ l2) /\ Count b2 = Ret (sum (one_if in_memtable) (l1 ++ l2))) as Hb2.
  { intros b2 Ed Ec. split.
    - rewrite Reader_base. unfold base at 1. rewrite Ed, E1.
      destruct (inv_data _ _ HI1) as (hdr & Hh & Hb). rewrite Hb, enc_recs_app.
      destruct hdr; [done|]. cbn [app]. rewrite <- app_assoc, app_comm_cons. by apply drop_app_length'.
    - unfold Count. rewrite Ec, E2. pose proof (sum_one_if in_memtable (l1 ++ l2)).
      pose proof (length_reserves (l1 ++ l2)). unfold maxBatchSize in *.
      rewrite (proj2 (Z.ltb_ge _ _)), u32_small by lia. done. }
  destruct (b_db b).
  - rewrite reserves_app in Hl. unfold maxBatchSize in Hl.
    rewrite apply_loop_ok; [|apply (inv_ok _ _ HI2)|done|lia|pose proof (length_recs l2); lia|done].
    destruct (apply_same l2 b1) as (Ed & Ec & Ev). eexists. split; [done|].
    rewrite Ev. destruct (Hb2 _ Ed Ec). done.
  - exists b1. split; [done|]. destruct (Hb2 b1); done.
Qed.
End refresh.

Lemma sum_filter p l : sum (one_if p) l = Z.of_nat (length (filter (fun r => p r = true) l)).
Proof.
  induction l as [|r l IH]; [done|]. cbn [sum foldr]. fold (sum (one_if p) l).
  rewrite filter_cons, IH. unfold one_if. destruct (p r) eqn:E.
  - rewrite decide_True by done. cbn [length]. lia.
  - rewrite decide_False by congruence. lia.
Qed.

Lemma op_not_ingest ops : Forall not_ingest (op_record <$> ops).
Proof. apply Forall_fmap, Forall_true. by intros []. Qed.

(** ** Results *)
Section results.
Context {K : BatchSkl} {M : Memory}.

(** C24. The operations a user writes to a batch do not fail while the batch fits in its
    maximal size.  The representation of the batch says how many of them are for the
    memtable (all but log data), a reader of it returns exactly the records of the
    operations in their order and then the end, and a batch that is set to the
    representation counts the same operations, range deletions and range keys and needs
    the same format version, and at least as much memory in a memtable. *)
Theorem batch_roundtrip db ops :
  ops_fit ops ->
  let l := op_record <$> ops in
  exists b b' repr, do_ops (newBatch db) ops = Ret (b, None) /\ Repr b = Ret (b', repr) /\
    (ReadBatch repr).2 = Z.of_nat (length (filter (fun r => in_memtable r = true) l)) /\
    read_all (S (length repr)) (ReadBatch repr).1 = Ret (Ok l) /\
    forall b1 cap, b_db b1 = true ->
      exists b2, SetRepr b1 repr cap = Ret (b2, None) /\ b_data b2 = repr /\
        b_count b2 = b_count b /\ b_countRangeDels b2 = b_countRangeDels b /\
        b_countRangeKeys b2 = b_countRangeKeys b /\
        b_minimumFormatMajorVersion b2 = b_minimumFormatMajorVersion b /\
        b_memTableSize b <= b_memTableSize b2.
Proof.
  intros Hfit l. destruct (do_ops_ok ops (newBatch db) [] (Inv_newBatch db) Hfit) as (b & E & HI & _).
  cbn [app] in HI. fold l in HI. destruct (Inv_Repr b l HI) as (b' & repr & Er & Hr & _ & _).
  pose proof (inv_fits _ _ HI) as Hl. exists b, b', repr. split; [done|]. split; [done|].
  rewrite (ReadBatch_repr l) by done. cbn [fst snd].
  split; [apply sum_filter|]. split.
  - unfold maxBatchSize in Hl. pose proof (length_enc_recs l). pose proof (length_recs l).
    apply read_all_enc; [apply (inv_ok _ _ HI)|lia|].
    destruct Hr as (seq & _ & ->). rewrite !length_app. lia.
  - intros b1 cap Hdb.
    destruct (SetRepr_ok l repr b1 cap Hr (inv_ok _ _ HI) (op_not_ingest ops) Hl Hdb)
      as (b2 & -> & ? & Ec & Ed & Ek & Ev & Es).
    exists b2. split; [done|]. rewrite Ec, Ed, Ek, Ev, Es. split; [done|].
    rewrite (inv_count _ _ HI), (inv_rangeDels _ _ HI), (inv_rangeKeys _ _ HI), (inv_version _ _ HI),
      (inv_size _ _ HI).
    pose proof (rec_size_full l). done.
Qed.

(** Applying a batch to another one, neither of them indexed, gives the operations of
    the receiver followed by those of the argument, with a count that is the sum; but the
    format version the receiver requires is not raised to what the operations of the
    argument need. *)
Theorem batch_apply db db' ops ops' :
  ops_fit (ops ++ ops') ->
  let l := op_record <$> ops ++ ops' in
  exists b b' b2, do_ops (newBatch db) ops = Ret (b, None) /\ do_ops (newBatch db') ops' = Ret (b', None) /\
    Apply b b' = Ret (b2, None) /\
    read_all (S (length (Reader b2).2)) (Reader b2).2 = Ret (Ok l) /\
    Count b2 = Ret (Z.of_nat (length (filter (fun r => in_memtable r = true) l))) /\
    b_minimumFormatMajorVersion b2 = version (op_record <$> ops).
Proof.
  intros Hfit l. unfold ops_fit in Hfit. rewrite fmap_app in Hfit. pose proof Hfit as Hfit'.
  rewrite reserves_app in Hfit'.
  destruct (do_ops_ok ops (newBatch db) [] (Inv_newBatch db)) as (b & E & HI & _); [cbn [app]; lia|].
  destruct (do_ops_ok ops' (newBatch db') [] (Inv_newBatch db')) as (b' & E' & HI' & _); [cbn [app]; lia|].
  cbn [app] in HI, HI'. destruct (Apply_ok b _ b' _ HI HI' (op_not_ingest ops') Hfit)
    as (b2 & Ea & Er & Ec & Ev).
  exists b, b', b2. split; [done|]. split; [done|]. split; [done|].
  rewrite Er, Ec, Ev, <- fmap_app. fold l. rewrite (inv_version _ _ HI), sum_filter.
  split; [|done]. rewrite <- fmap_app in Hfit. fold l in Hfit. unfold maxBatchSize in Hfit.
  pose proof (length_enc_recs l). pose proof (length_recs l).
  apply read_all_enc; [|lia|lia]. unfold l. apply Forall_fmap, Forall_true. apply op_record_ok.
Qed.
End results.

(** *** Examples *)
Definition example_skl : BatchSkl :=
  {| Skiplist := list Z; skl_Init := []; skl_Add _ s o := Ret (o :: s, None) |}.
Definition example_memory : Memory := {| rawalloc _ _ := Byte.xff; append_cap _ n := n |}.

Definition example_ops : list op :=
  [OpSet [Byte.x61] [Byte.x31]; OpLogData [Byte.x6c]; OpDeleteSized [Byte.x62] 300;
   OpRangeKeySet [Byte.x61] [Byte.x63] [] [Byte.x32]; OpDeleteRange [Byte.x62] [Byte.x64]].

Lemma batch_roundtrip_witness :
  exists b b' repr,
    @do_ops example_skl example_memory (@newBatch example_skl true) example_ops = Ret (b, None) /\
    Repr b = Ret (b', repr) /\ (ReadBatch repr).2 = 4.
Proof.
  destruct (@batch_roundtrip example_skl example_memory true example_ops) as (b & b' & repr & H1 & H2 & H3 & _).
  { vm_compute. reflexivity. }
  exists b, b', repr. split; [exact H1|]. split; [exact H2|]. exact H3.
Defined.

Lemma batch_apply_witness :
  exists b b' b2,
    @do_ops example_skl example_memory (@newBatch example_skl true) [OpSet [Byte.x61] []] = Ret (b, None) /\
    @do_ops example_skl example_memory (@newBatch example_skl false) example_ops = Ret (b', None) /\
    @Apply example_skl example_memory b b' = Ret (b2, None) /\ Count b2 = Ret 5 /\ b_minimumFormatMajorVersion b2 = 0.
Proof.
  destruct (@batch_apply example_skl example_memory true false [OpSet [Byte.x61] []] example_ops)
    as (b & b' & b2 & H1 & H2 & H3 & _ & H4 & H5).
  { vm_compute. reflexivity. }
  exists b, b', b2. split; [exact H1|]. split; [exact H2|]. split; [exact H3|]. split; [exact H4|exact H5].
Defined.
