(* ===== verification/MemTable.v ===== *)
(** Memtables (src/mem_table.go): they give sequence numbers to the records of a batch and
    keep them sorted, range deletions and range keys apart and fragmented. *)
From S2P Require Import Prelude.
From S2P Require Import Comparer.
From S2P Require Import InternalKey.
From S2P Require Import GoStd.
From S2P Require Import Keyspan.
From S2P Require Import RangeKey.
From S2P Require Import Iterators.
From S2P Require Import Arenaskl.
From S2P Require Import Batch.

Local Open Scope Z_scope.

(** ** Fragmenting *)
Section fragment.
Context {C : Comparer} {S : Sort}.

(** A fragmenter that gets all the spans and is finished: what it emits. *)
Fixpoint add_spans (f : Fragmenter) (l : list Span) : go Fragmenter :=
  match l with [] => Ret f | s :: l => f ← Add f s; add_spans f l end.
Definition fragment (l : list Span) : go (list Span) :=
  f ← add_spans new_fragmenter l; f ← Keyspan.Finish f; Ret (f_emitted f).

(** The loops over an iterator that decodes spans, adds them to a fragmenter and finishes
    it; range keys that cannot be decoded end it. *)
Definition fragmentRangeDels (it : list (InternalKey * bytes)) : go (list Span) :=
  fragment ((fun e => rangedel_Decode e.1 e.2 []) <$> it).

Fixpoint add_rangeKeys (f : Fragmenter) (it : list (InternalKey * bytes)) : go (Fragmenter * option error) :=
  match it with
  | [] => f ← Keyspan.Finish f; Ret (f, None)
  | (ik, v) :: it =>
      s ← RangeKey.Decode ik v [];
      match s with
      | Err err => Ret (f, Some err)
      | Ok s => f ← Add f s; add_rangeKeys f it
      end
  end.
Definition fragmentRangeKeys (it : list (InternalKey * bytes)) : go (list Span * option error) :=
  '(f, err) ← add_rangeKeys new_fragmenter it; Ret (f_emitted f, err).
End fragment.

(** ** Memtables *)

(** The fragmented spans of a kind, once they have been asked for, for a count of spans. *)
Record keySpanFrags := mkFrags { fr_count : Z; fr_spans : option (list Span) }.
Record keySpanCache := mkCache { c_count : Z; c_frags : option keySpanFrags }.

(** The loop ends in its first round when nobody else invalidates the cache. *)
Definition invalidate (c : keySpanCache) (count : Z) : keySpanCache :=
  let newCount := u32 (c_count c + count) in
  match c_frags c with
  | Some old => if newCount <=? fr_count old then mkCache newCount (Some old)
                else mkCache newCount (Some (mkFrags newCount None))
  | None => mkCache newCount (Some (mkFrags newCount None))
  end.

Section memtable.
Context {C : Comparer} {S : Sort} {K : BatchSkl} {M : Memory} {E : ArenaEnv}.

(** The skiplists share the arena. *)
Record memTable := mkMemTable {
  m_arena : Arena;
  m_skl : skiplist;
  m_rangeDelSkl : skiplist;
  m_rangeKeySkl : skiplist;
  m_reserved : Z;
  m_writerRefs : Z;
  m_tombstones : keySpanCache;
  m_rangeKeys : keySpanCache;
  m_logSeqNum : Z;
}.
#[export] Instance memTable_settable : Settable memTable := fun m =>
  mkMemTable (m_arena m) (m_skl m) (m_rangeDelSkl m) (m_rangeKeySkl m) (m_reserved m) (m_writerRefs m)
    (m_tombstones m) (m_rangeKeys m) (m_logSeqNum m).

(** The options are [size], [MemTableSize] and [arenaBuf]. *)
Definition mem_arenaBuf (size memTableSize : Z) (arenaBuf : option bytes) : bytes :=
  let size := if size =? 0 then memTableSize else size in
  match arenaBuf with Some buf => buf | None => replicate (Z.to_nat size) Byte.x00 end.
Definition memTable_init (size memTableSize : Z) (arenaBuf : option bytes) (logSeqNum : Z) : go memTable :=
  '(a, skl) ← skl_Reset (NewArena (mem_arenaBuf size memTableSize arenaBuf));
  '(a, rangeDelSkl) ← skl_Reset a;
  '(a, rangeKeySkl) ← skl_Reset a;
  Ret (mkMemTable a skl rangeDelSkl rangeKeySkl (arena_Size a) 1 (mkCache 0 None) (mkCache 0 None) logSeqNum).

Definition memTableEmptySize : go Z :=
  '(a, _) ← skl_Reset (NewArena (replicate (Nat.pow 2 14) Byte.x00));
  '(a, _) ← skl_Reset a;
  '(a, _) ← skl_Reset a;
  Ret (arena_Size a).

Definition writerRef (m : memTable) : go memTable :=
  let v := i32 (m_writerRefs m + 1) in
  if v <=? 1 then Panic "pebble: inconsistent reference count" else Ret (m <| m_writerRefs := v |>).
Definition writerUnref (m : memTable) : go (memTable * bool) :=
  let v := i32 (m_writerRefs m - 1) in
  if v <? 0 then Panic "pebble: inconsistent reference count"
  else Ret (m <| m_writerRefs := v |>, v =? 0).
Definition readyForFlush (m : memTable) : bool := m_writerRefs m =? 0.

Definition availBytes (m : memTable) : memTable * Z :=
  let m := if m_writerRefs m =? 1 then m <| m_reserved := arena_Size (m_arena m) |> else m in
  (m, u32 (arena_Capacity (m_arena m) - m_reserved m)).

Definition prepare (m : memTable) (batch : Batch) : go (memTable * option error) :=
  let '(m, avail) := availBytes m in
  if avail <? b_memTableSize batch then Ret (m, Some ErrArenaFull)
  else
    m ← writerRef (m <| m_reserved := u32 (m_reserved m + u32 (b_memTableSize batch)) |>);
    Ret (m, None).

(** The switch of [apply]: the results are also what is added to the two counts. *)
Definition mem_add (m : memTable) (ins : Inserter) (kind : Z) (ikey : InternalKey) (value : bytes) :
    go (memTable * Inserter * Z * Z * option error) :=
  if kind =? InternalKeyKindRangeDelete then
    '(a, s, err) ← Skiplist_Add (m_arena m) (m_rangeDelSkl m) ikey value;
    Ret (m <| m_arena := a |> <| m_rangeDelSkl := s |>, ins, 1, 0, err)
  else if is_rangeKey kind then
    '(a, s, err) ← Skiplist_Add (m_arena m) (m_rangeKeySkl m) ikey value;
    Ret (m <| m_arena := a |> <| m_rangeKeySkl := s |>, ins, 0, 1, err)
  else
    '(a, s, ins, err) ← Inserter_Add ins (m_arena m) (m_skl m) ikey value;
    Ret (m <| m_arena := a |> <| m_skl := s |>, ins, 0, 0, err).

(** The loop of [apply]; [seqNum] is the one of the next record. *)
Fixpoint mem_apply_loop (fuel : nat) (r : BatchReader) (m : memTable) (ins : Inserter)
    (seqNum tombstoneCount rangeKeyCount : Z) : go (memTable * Z * Z * Z * option error) :=
  match fuel with
  | O => Panic "unreachable"
  | Datatypes.S fuel =>
      e ← BatchReader_Next r;
      match e with
      | Done => Ret (m, seqNum, tombstoneCount, rangeKeyCount, None)
      | Corrupt err => Ret (m, seqNum, tombstoneCount, rangeKeyCount, Some err)
      | Entry kind ukey value _ r =>
          let ikey := MakeInternalKey ukey seqNum kind in
          if kind =? InternalKeyKindLogData then
            mem_apply_loop fuel r m ins (u64 (u64 (seqNum - 1) + 1)) tombstoneCount rangeKeyCount
          else if kind =? InternalKeyKindIngestSST
          then Panic "pebble: cannot apply ingested sstable key kind to memtable"
          else
            '(m, ins, t, k, err) ← mem_add m ins kind ikey value;
            match err with
            | Some _ => Ret (m, seqNum, tombstoneCount, rangeKeyCount, err)
            | None =>
                mem_apply_loop fuel r m ins (u64 (seqNum + 1)) (u32 (tombstoneCount + t)) (u32 (rangeKeyCount + k))
            end
      end
  end.

Definition memTable_apply (m : memTable) (batch : Batch) (seqNum : Z) : go (memTable * option error) :=
  if seqNum <? m_logSeqNum m
  then Ret (m, Some (New "pebble: batch seqnum is less than memtable creation seqnum"))
  else
    let '(batch, r) := Reader batch in
    '(m, seqNum', tombstoneCount, rangeKeyCount, err) ←
      mem_apply_loop (Datatypes.S (length r)) r m newInserter seqNum 0 0;
    match err with
    | Some _ => Ret (m, err)
    | None =>
        count ← Count batch;
        if negb (seqNum' =? u64 (seqNum + count))
        then Ret (m, Some (New "pebble: inconsistent batch count"))
        else
          let m := if negb (tombstoneCount =? 0)
            then m <| m_tombstones := invalidate (m_tombstones m) tombstoneCount |> else m in
          let m := if negb (rangeKeyCount =? 0)
            then m <| m_rangeKeys := invalidate (m_rangeKeys m) rangeKeyCount |> else m in
          Ret (m, None)
    end.

(** [keySpanFrags.get] with the spans of the entries of a skiplist; an entry that cannot
    be decoded panics. *)
Fixpoint construct_spans (decode : InternalKey -> bytes -> go (result Span)) (it : list (InternalKey * bytes)) :
    go (list Span) :=
  match it with
  | [] => Ret []
  | (ik, v) :: it =>
      s ← decode ik v;
      match s with
      | Err err => Panic "constructSpan"
      | Ok s => l ← construct_spans decode it; Ret (s :: l)
      end
  end.
Definition frags_get (f : keySpanFrags) (a : Arena) (skl : skiplist)
    (decode : InternalKey -> bytes -> go (result Span)) : go (keySpanFrags * list Span) :=
  match fr_spans f with
  | Some spans => Ret (f, spans)
  | None =>
      it ← skl_entries a skl;
      l ← construct_spans decode it;
      spans ← fragment l;
      Ret (mkFrags (fr_count f) (Some spans), spans)
  end.
Definition cache_get (c : keySpanCache) (a : Arena) (skl : skiplist)
    (decode : InternalKey -> bytes -> go (result Span)) : go (keySpanCache * list Span) :=
  match c_frags c with
  | None => Ret (c, [])
  | Some f => '(f, spans) ← frags_get f a skl decode; Ret (mkCache (c_count c) (Some f), spans)
  end.

Definition rangeDelConstructSpan (ik : InternalKey) (v : bytes) : go (result Span) :=
  Ret (Ok (rangedel_Decode ik v [])).

Definition memTable_newIter (m : memTable) (lower upper : option bytes) : sklIter :=
  skl_NewIter (m_skl m) lower upper.

(** The spans [newRangeDelIter] and [newRangeKeyIter] iterate over. *)
Definition memTable_rangeDels (m : memTable) : go (memTable * list Span) :=
  '(c, spans) ← cache_get (m_tombstones m) (m_arena m) (m_rangeDelSkl m) rangeDelConstructSpan;
  Ret (m <| m_tombstones := c |>, spans).
Definition memTable_rangeKeys (m : memTable) : go (memTable * list Span) :=
  '(c, spans) ← cache_get (m_rangeKeys m) (m_arena m) (m_rangeKeySkl m) (fun ik v => RangeKey.Decode ik v []);
  Ret (m <| m_rangeKeys := c |>, spans).
Definition containsRangeKeys (m : memTable) : bool := 0 <? c_count (m_rangeKeys m).

Definition inuseBytes (m : memTable) : go Z :=
  empty ← memTableEmptySize; Ret (u32 (arena_Size (m_arena m) - empty)).
Definition totalBytes (m : memTable) : Z := arena_Capacity (m_arena m).
Definition memTable_empty (m : memTable) : go bool :=
  empty ← memTableEmptySize; Ret (arena_Size (m_arena m) =? empty).
End memtable.
