(* ===== verification/MemTableSpec.v ===== *)
(** Applying a batch to a memtable (MemTable.v): every record but log data is added to its
    skiplist with the next sequence number. *)
From S2P Require Import Prelude.
From S2P Require Import Comparer.
From S2P Require Import InternalKey.
From S2P Require Import GoStd.
From S2P Require Import Keyspan.
From S2P Require Import RangeKey.
From S2P Require Import Iterators.
From S2P Require Import Arenaskl.
From S2P Require Import ArenasklAlloc.
From S2P Require Import ArenasklSpec.
From S2P Require Import ArenasklAdd.
From S2P Require Import ArenasklIter.
From S2P Require Import ArenasklRun.
From S2P Require Import Batch.
From S2P Require Import BatchSpec.
From S2P Require Import BatchRoundtrip.
From S2P Require Import MemTable.

Local Open Scope Z_scope.

#[export] Instance which_eq_dec : EqDecision which.
Proof. solve_decision. Defined.

(** The skiplist of a record. *)
Definition rec_which (r : rec) : which :=
  if is_rangeDel_rec r then index_rangeDel
  else if is_rangeKey_rec r then index_rangeKey else index_point.

(** The records with the sequence numbers they get. *)
Fixpoint numbered (seqNum : Z) (l : list rec) : list (which * InternalKey * bytes) :=
  match l with
  | [] => []
  | r :: l =>
      if in_memtable r
      then (rec_which r, MakeInternalKey r.1.2 seqNum r.1.1, r.2) :: numbered (seqNum + 1) l
      else numbered seqNum l
  end.

(** The ones for a skiplist. *)
Definition entries_for (w : which) (l : list (which * InternalKey * bytes)) : list entry :=
  (fun e => (e.1.2, e.2) : entry) <$> filter (fun e => e.1.1 = w) l.

(** ** The skiplists of a memtable *)
Section spec.
Context {C : Comparer} {L : ComparerLaws C} {S : Sort} {K : BatchSkl} {M : Memory} {E : ArenaEnv}.

Definition skl_of (m : memTable) (w : which) : skiplist :=
  match w with index_point => m_skl m | index_rangeDel => m_rangeDelSkl m | index_rangeKey => m_rangeKeySkl m end.
Definition skls_of (m : memTable) (os : which -> list Z) : list (skiplist * list Z) :=
  (fun w => (skl_of m w, os w)) <$> [index_point; index_rangeDel; index_rangeKey].

(** The nodes of the skiplists, and their entries. *)
Record MemOK (m : memTable) (os : which -> list Z) (En : which -> list entry) : Prop := {
  mok_skls : Skls (m_arena m) (skls_of m os);
  mok_entries w : contents (m_arena m) (os w) ≡ₚ En w;
}.

(** Only the arena and the skiplists have changed. *)
Definition mem_frame (m m' : memTable) : Prop :=
  a_len (m_arena m') = a_len (m_arena m) /\ m_reserved m' = m_reserved m /\ m_writerRefs m' = m_writerRefs m /\
  m_tombstones m' = m_tombstones m /\ m_rangeKeys m' = m_rangeKeys m /\ m_logSeqNum m' = m_logSeqNum m.
Lemma mem_frame_trans m1 m2 m3 : mem_frame m1 m2 -> mem_frame m2 m3 -> mem_frame m1 m3.
Proof. unfold mem_frame. intros (? & ? & ? & ? & ? & ?) (? & ? & ? & ? & ? & ?). split_and!; congruence. Qed.

Lemma MemOK_skl m os En w : MemOK m os En -> Skl (m_arena m) (skl_of m w) (os w).
Proof.
  intros [Hs _]. destruct w; [apply (skls_each _ _ Hs 0 (m_skl m, os index_point))|
    apply (skls_each _ _ Hs 1 (m_rangeDelSkl m, os index_rangeDel))|
    apply (skls_each _ _ Hs 2 (m_rangeKeySkl m, os index_rangeKey))]; done.
Qed.
Lemma MemOK_keys m os En w key : MemOK m os En -> key ∉ fst <$> En w -> key ∉ okey (m_arena m) <$> os w.
Proof. intros HM. rewrite <- (mok_entries _ _ _ HM w). by rewrite contents_keys. Qed.

Definition add_to (En : which -> list entry) (w : which) (e : entry) : which -> list entry :=
  fun w' => if decide (w' = w) then e :: En w' else En w'.

(** Adding to one of the skiplists. *)
Definition set_skl (m : memTable) (w : which) (a : Arena) (s : skiplist) : memTable :=
  match w with
  | index_point => m <| m_arena := a |> <| m_skl := s |>
  | index_rangeDel => m <| m_arena := a |> <| m_rangeDelSkl := s |>
  | index_rangeKey => m <| m_arena := a |> <| m_rangeKeySkl := s |>
  end.
Definition which_index (w : which) : nat :=
  match w with index_point => 0 | index_rangeDel => 1 | index_rangeKey => 2 end.

Lemma skls_of_lookup m os w : skls_of m os !! which_index w = Some (skl_of m w, os w).
Proof. by destruct w. Qed.
Lemma skls_of_insert m os w a s' os' :
  <[which_index w := (s', os')]> (skls_of m os) = skls_of (set_skl m w a s') (fun w' => if decide (w' = w) then os' else os w').
Proof. by destruct w. Qed.

Lemma MemOK_add m os En w ins ikey value :
  MemOK m os En -> InsOK (m_arena m) (skl_of m w) (os w) ins ->
  ikey ∉ fst <$> En w -> has_room (m_arena m) ikey value ->
  exists a' s' ins' os',
    addInternal (m_arena m) (skl_of m w) ikey value ins = Ret (a', s', ins', None) /\
    MemOK (set_skl m w a' s') os' (add_to En w (ikey, value)) /\ InsOK a' s' (os' w) ins' /\
    (forall w' ins, w' <> w -> InsOK (m_arena m) (skl_of m w') (os w') ins -> InsOK a' (skl_of m w') (os' w') ins) /\
    a_len a' = a_len (m_arena m) /\ a_n (m_arena m) < a_n a' <= a_n (m_arena m) + entry_size (ikey, value).
Proof.
  intros HM HI Hnew Hroom. apply (MemOK_keys _ _ _ _ _ HM) in Hnew. pose proof (mok_skls _ _ _ HM) as Hs.
  assert (fits ikey value) as Hfit.
  { pose proof (aok_len _ (skls_arena _ _ Hs)). pose proof (aok_n _ (skls_arena _ _ Hs)). unfold has_room, room in Hroom.
    unfold fits. lia. }
  destruct (Skls_add _ _ _ _ _ ins ikey value Hs (skls_of_lookup m os w) HI Hnew Hfit)
    as (a' & s' & ins' & r & os0 & Ea & Hs' & HI' & Hl & Ho & Hr).
  destruct r as [e|]; [by destruct Hr as (_ & Hno & _)|]. destruct Hr as (_ & Hc & Hn).
  assert (forall w', w' <> w -> contents a' (os w') = contents (m_arena m) (os w') /\
    forall ins, InsOK (m_arena m) (skl_of m w') (os w') ins -> InsOK a' (skl_of m w') (os w') ins) as Ho'.
  { intros w' Hw. apply (Ho (which_index w') _ (skls_of_lookup m os w')). by destruct w, w'. }
  rewrite (skls_of_insert m os w a') in Hs'. exists a', s', ins', (fun w' => if decide (w' = w) then os0 else os w').
  split; [done|]. split; [split|].
  - by destruct w.
  - intros w'. assert (m_arena (set_skl m w a' s') = a') as -> by (by destruct w). unfold add_to. case_decide as Hw.
    + subst w'. by rewrite Hc, (mok_entries _ _ _ HM w).
    + rewrite (proj1 (Ho' w' Hw)). apply (mok_entries _ _ _ HM w').
  - rewrite decide_True by done. split; [done|]. split; [|by split].
    intros w' ins0 Hw Hi. rewrite decide_False by done. by apply Ho'.
Qed.

(** Adding a record. *)
Lemma mem_add_ok m os En ins r ikey :
  MemOK m os En -> InsOK (m_arena m) (m_skl m) (os index_point) ins ->
  ikey ∉ fst <$> En (rec_which r) -> has_room (m_arena m) ikey r.2 ->
  exists m' os' ins',
    mem_add m ins r.1.1 ikey r.2 = Ret (m', ins', one_if is_rangeDel_rec r, one_if is_rangeKey_rec r, None) /\
    MemOK m' os' (add_to En (rec_which r) (ikey, r.2)) /\ InsOK (m_arena m') (m_skl m') (os' index_point) ins' /\
    mem_frame m m' /\ a_n (m_arena m) < a_n (m_arena m') <= a_n (m_arena m) + entry_size (ikey, r.2).
Proof.
  intros HM HI Hnew Hroom. unfold mem_add, rec_which, one_if, is_rangeDel_rec, is_rangeKey_rec in *.
  destruct (Z.eqb_spec r.1.1 InternalKeyKindRangeDelete) as [E1|E1]; [rewrite E1; cbn [is_rangeKey]|
    destruct (is_rangeKey r.1.1)].
  - destruct (MemOK_add m os En index_rangeDel newInserter ikey r.2 HM (newInserter_ok _ _ _) Hnew Hroom)
      as (a' & s' & ins' & os' & Ea & HM' & _ & Ho & Hl & Hn).
    unfold Skiplist_Add. cbn [skl_of] in Ea. rewrite Ea, !bind_Ret. eexists _, os', ins. split; [done|].
    split; [done|]. split; [by apply (Ho index_point)|]. done.
  - destruct (MemOK_add m os En index_rangeKey newInserter ikey r.2 HM (newInserter_ok _ _ _) Hnew Hroom)
      as (a' & s' & ins' & os' & Ea & HM' & _ & Ho & Hl & Hn).
    unfold Skiplist_Add. cbn [skl_of] in Ea. rewrite Ea, !bind_Ret. eexists _, os', ins. split; [done|].
    split; [done|]. split; [by apply (Ho index_point)|]. done.
  - destruct (MemOK_add m os En index_point ins ikey r.2 HM HI Hnew Hroom)
      as (a' & s' & ins' & os' & Ea & HM' & HI' & Ho & Hl & Hn).
    unfold Inserter_Add. cbn [skl_of] in Ea. rewrite Ea, !bind_Ret. eexists _, os', ins'. split; [done|]. done.
Qed.

(** ** Applying a batch *)

(** A batch reserves enough for its records. *)
Lemma rec_size_enough r seqNum :
  in_memtable r = true -> Z.of_nat (reserve r) < 2 ^ 32 ->
  rec_size r = entry_size (MakeInternalKey r.1.2 seqNum r.1.1, r.2) + 8.
Proof.
  intros Hr Hl. unfold rec_size, entry_size, memTableEntrySize, reserve in *. rewrite Hr. cbn [fst snd UserKey MakeInternalKey].
  rewrite (u32_small (Z.of_nat (length r.1.2))), !u32_small by lia. unfold MaxNodeSize. lia.
Qed.

Lemma sum_cons f r l : sum f (r :: l) = f r + sum f l.
Proof. done. Qed.
Lemma sum_rec_size_nonneg l : 0 <= sum rec_size l.
Proof. apply (sum_bounds rec_size l rec_size_bounds). Qed.

(** The entries with the records of a batch. *)
Definition with_batch (En : which -> list entry) (seqNum : Z) (l : list rec) : which -> list entry :=
  fun w => entries_for w (numbered seqNum l) ++ En w.
Definition batch_count (l : list rec) : Z := sum (one_if in_memtable) l.

Lemma MemOK_perm m os En En' : (forall w, En w ≡ₚ En' w) -> MemOK m os En -> MemOK m os En'.
Proof. intros Hp [H1 H2]. split; [done|]. intros w. by rewrite H2. Qed.

Lemma mem_apply_loop_ok l : forall fuel m os En ins seqNum t k,
  Forall rec_ok l -> Forall not_ingest l -> Z.of_nat (reserves l) < 2 ^ 32 -> (length l < fuel)%nat ->
  MemOK m os En -> InsOK (m_arena m) (m_skl m) (os index_point) ins ->
  a_n (m_arena m) + sum rec_size l <= a_len (m_arena m) ->
  0 <= seqNum -> seqNum + batch_count l < 2 ^ 56 ->
  (forall w e, e ∈ En w -> ~ seqNum <= SeqNum e.1 < seqNum + batch_count l) ->
  0 <= t -> t + sum (one_if is_rangeDel_rec) l < 2 ^ 32 ->
  0 <= k -> k + sum (one_if is_rangeKey_rec) l < 2 ^ 32 ->
  exists m' os',
    mem_apply_loop fuel (enc_recs l) m ins seqNum t k =
      Ret (m', seqNum + batch_count l, t + sum (one_if is_rangeDel_rec) l, k + sum (one_if is_rangeKey_rec) l, None) /\
    MemOK m' os' (with_batch En seqNum l) /\ mem_frame m m' /\
    a_n (m_arena m) + batch_count l <= a_n (m_arena m') <= a_n (m_arena m) + sum rec_size l.
Proof.
  induction l as [|r l IH]; intros fuel m os En ins seqNum t k Hok Hn Hl Hf HM HI Hsz Hs Hsb Hfresh Ht Htb Hk Hkb;
    (destruct fuel as [|fuel]; [lia|]).
  - exists m, os. cbn [mem_apply_loop]. unfold batch_count in *. cbn [sum foldr] in *. rewrite !Z.add_0_r. split; [done|].
    split; [done|]. split; [by repeat split|]. lia.
  - inversion Hok as [|? ? Hok1 Hok2]; inversion Hn as [|? ? Hn1 Hn2]; subst. cbn [mem_apply_loop].
    pose proof (length_enc_recs (r :: l) Hl). rewrite enc_recs_cons in *.
    rewrite Next_enc_rec by (done || lia). rewrite bind_Ret. rewrite reserves_cons in Hl.
    unfold batch_count in *. rewrite sum_cons in Hsb, Htb, Hkb, Hsz. rewrite !sum_cons. setoid_rewrite sum_cons in Hfresh.
    unfold not_ingest in Hn1. pose proof (sum_one_if in_memtable l). pose proof (sum_one_if is_rangeDel_rec l).
    pose proof (sum_one_if is_rangeKey_rec l). pose proof (sum_rec_size_nonneg l).
    assert (in_memtable r = negb (r.1.1 =? InternalKeyKindLogData)) as Em by done.
    destruct (Z.eqb_spec r.1.1 InternalKeyKindLogData) as [E1|E1]; cbn [negb] in *.
    + assert (one_if is_rangeDel_rec r = 0 /\ one_if is_rangeKey_rec r = 0 /\ one_if in_memtable r = 0 /\ rec_size r = 0)
        as (R1 & R2 & R3 & R4).
      { unfold one_if, rec_size, is_rangeDel_rec, is_rangeKey_rec. rewrite Em. by rewrite E1. }
      rewrite R1, R2, R3, R4, !Z.add_0_l in *.
      assert (u64 (u64 (seqNum - 1) + 1) = seqNum) as ->.
      { unfold u64. rewrite Zplus_mod_idemp_l, Z.sub_add. apply Z.mod_small. lia. }
      assert (with_batch En seqNum (r :: l) = with_batch En seqNum l) as -> by (unfold with_batch; cbn [numbered]; by rewrite Em).
      apply (IH fuel m os En ins seqNum t k); done || lia || (simpl in Hf; lia).
    + rewrite (proj2 (Z.eqb_neq _ _)) by done. set (ikey := MakeInternalKey r.1.2 seqNum r.1.1).
      assert (one_if in_memtable r = 1) as R3 by (unfold one_if; by rewrite Em).
      pose proof (one_if_bounds is_rangeDel_rec r). pose proof (one_if_bounds is_rangeKey_rec r).
      pose proof (rec_size_enough r seqNum Em ltac:(lia)) as R4. fold ikey in R4. rewrite R3 in *.
      assert (SeqNum ikey = seqNum) as Eseq.
      { apply SeqNum_Make; [lia|]. destruct r as [[k0 uk] v]. destruct Hok1. unfold InternalKeyKindMax in *. cbn in *. lia. }
      destruct (mem_add_ok m os En ins r ikey HM HI) as (m1 & os1 & ins1 & -> & HM1 & HI1 & F1 & N1).
      { intros (e & Ee & He)%list_elem_of_fmap. apply (Hfresh _ _ He). rewrite <- Ee, Eseq. lia. }
      { unfold has_room, room. unfold entry_size, MaxNodeSize in R4. cbn [fst snd] in R4. unfold nodeAlignment in R4. lia. }
      rewrite bind_Ret, u64_small, !u32_small by lia.
      destruct (IH fuel m1 os1 (add_to En (rec_which r) (ikey, r.2)) ins1 (seqNum + 1) (t + one_if is_rangeDel_rec r)
        (k + one_if is_rangeKey_rec r)) as (m' & os' & El & HM' & F' & N');
        try (done || lia || (simpl in Hf; lia)).
      * destruct F1 as (-> & _). lia.
      * intros w e He. unfold add_to in He. case_decide; [apply elem_of_cons in He as [->|He]|].
        -- cbn [fst]. rewrite Eseq. lia.
        -- specialize (Hfresh w e He). lia.
        -- specialize (Hfresh w e He). lia.
      * exists m', os'. split; [|split; [|split]].
        -- rewrite El, <- !Z.add_assoc. done.
        -- eapply MemOK_perm; [|exact HM']. intros w. unfold with_batch. cbn [numbered]. rewrite Em. fold ikey.
           unfold entries_for, add_to. rewrite filter_cons. cbn [fst snd]. destruct (decide (rec_which r = w)) as [<-|Hw].
           ++ rewrite decide_True by done. rewrite fmap_cons. cbn [fst snd app]. by rewrite Permutation_middle.
           ++ by rewrite decide_False by done.
        -- by apply (mem_frame_trans _ m1).
        -- lia.
Qed.

(** The caches are invalidated if spans of their kind were added. *)
Definition invalidated (c : keySpanCache) (n : Z) : keySpanCache :=
  if n =? 0 then c else invalidate c n.

Lemma memTable_apply_ok m os En b l seqNum :
  Inv b l -> Forall not_ingest l -> MemOK m os En ->
  a_n (m_arena m) + b_memTableSize b <= a_len (m_arena m) ->
  0 <= seqNum -> m_logSeqNum m <= seqNum -> seqNum + batch_count l < 2 ^ 56 ->
  (forall w e, e ∈ En w -> ~ seqNum <= SeqNum e.1 < seqNum + batch_count l) ->
  exists m' os', memTable_apply m b seqNum = Ret (m', None) /\ MemOK m' os' (with_batch En seqNum l) /\
    a_len (m_arena m') = a_len (m_arena m) /\ m_reserved m' = m_reserved m /\ m_writerRefs m' = m_writerRefs m /\
    m_logSeqNum m' = m_logSeqNum m /\
    m_tombstones m' = invalidated (m_tombstones m) (sum (one_if is_rangeDel_rec) l) /\
    m_rangeKeys m' = invalidated (m_rangeKeys m) (sum (one_if is_rangeKey_rec) l) /\
    a_n (m_arena m) + batch_count l <= a_n (m_arena m') <= a_n (m_arena m) + b_memTableSize b.
Proof.
  intros HI Hn HM Hsz Hs Hlog Hsb Hfresh. pose proof (inv_fits _ _ HI) as Hl. unfold maxBatchSize in Hl.
  pose proof (sum_one_if in_memtable l). pose proof (sum_one_if is_rangeDel_rec l).
  pose proof (sum_one_if is_rangeKey_rec l). pose proof (length_reserves l).
  pose proof (Inv_Reader b l HI) as Hr. pose proof (Inv_ensure_init b l batchHeaderLen HI) as HI'.
  rewrite (inv_size _ _ HI) in *.
  destruct (mem_apply_loop_ok l (Datatypes.S (length (enc_recs l))) m os En newInserter seqNum 0 0)
    as (m' & os' & Eloop & HM' & (F1 & F2 & F3 & F4 & F5 & F6) & N');
    [apply (inv_ok _ _ HI)|done|lia|pose proof (length_recs l); lia|done|apply newInserter_ok|done|lia|lia|done|lia..|].
  unfold memTable_apply. rewrite (proj2 (Z.ltb_ge _ _)) by lia.
  unfold Reader in *. cbn [snd] in Hr. rewrite Hr, Eloop, bind_Ret, (Inv_Count _ l HI'), bind_Ret.
  fold (batch_count l). rewrite u64_small, Z.eqb_refl by (unfold batch_count in *; lia). rewrite !Z.add_0_l.
  unfold invalidated. rewrite <- F4, <- F5, <- F2, <- F3, <- F6, <- F1. destruct HM' as [HM1 HM2]. cbn [negb].
  eexists _, os'. split; [done|].
  destruct (sum (one_if is_rangeDel_rec) l =? 0), (sum (one_if is_rangeKey_rec) l =? 0);
    (split; [by split|]); split_and!; done || (rewrite ?F1; cbn; lia).
Qed.

(** ** A new memtable *)
Definition mem_empty_size : Z := 1 + 3 * ends_size.

Lemma memTable_init_ok size memTableSize arenaBuf logSeqNum :
  let cap := arena_Capacity (NewArena (mem_arenaBuf size memTableSize arenaBuf)) in
  mem_empty_size <= cap ->
  exists m, memTable_init size memTableSize arenaBuf logSeqNum = Ret m /\
    MemOK m (fun _ => []) (fun _ => []) /\ a_len (m_arena m) = cap /\ a_n (m_arena m) = mem_empty_size /\
    m_reserved m = mem_empty_size /\ m_writerRefs m = 1 /\ m_tombstones m = mkCache 0 None /\
    m_rangeKeys m = mkCache 0 None /\ m_logSeqNum m = logSeqNum.
Proof.
  intros cap. unfold mem_empty_size. intros Hcap. unfold memTable_init. destruct (NewArena_ok (mem_arenaBuf size memTableSize arenaBuf)) as (Ha & Hn & Hl & _).
  fold cap in Hl. set (a0 := NewArena _) in *. assert (0 < ends_size) as He by done.
  destruct (Skls_Reset a0 [] (Skls_new a0 Ha) ltac:(lia)) as (a1 & s1 & -> & K1 & L1 & N1 & _).
  destruct (Skls_Reset a1 _ K1 ltac:(lia)) as (a2 & s2 & E2 & K2 & L2 & N2 & _).
  destruct (Skls_Reset a2 _ K2 ltac:(lia)) as (a3 & s3 & E3 & K3 & L3 & N3 & _).
  rewrite bind_Ret, E2, bind_Ret, E3, bind_Ret. cbn [app] in K3.
  assert (arena_Size a3 = 1 + 3 * ends_size) as Es.
  { unfold arena_Size. rewrite N3, N2, N1, Hn. done. }
  eexists. split; [done|]. split; [split; [done|by intros w]|]. cbn. rewrite Es. split_and!; done || lia.
Qed.

(** An empty memtable is one whose size is that of a new one. *)
Lemma memTableEmptySize_ok : memTableEmptySize = Ret mem_empty_size.
Proof.
  unfold memTableEmptySize, mem_empty_size. assert (0 < ends_size) as He by done.
  destruct (NewArena_ok (replicate (Nat.pow 2 14) Byte.x00)) as (Ha & Hn & _ & Hl). set (a0 := NewArena _) in *.
  rewrite length_replicate in Hl. change (a_len a0 = 16384) in Hl. change ends_size with 374 in *.
  destruct (Skls_Reset a0 [] (Skls_new a0 Ha) ltac:(change ends_size with 374; lia)) as (a1 & s1 & -> & K1 & L1 & N1 & _).
  change ends_size with 374 in *.
  destruct (Skls_Reset a1 _ K1 ltac:(change ends_size with 374; lia)) as (a2 & s2 & E2 & K2 & L2 & N2 & _).
  change ends_size with 374 in *.
  destruct (Skls_Reset a2 _ K2 ltac:(change ends_size with 374; lia)) as (a3 & s3 & E3 & K3 & L3 & N3 & _).
  rewrite bind_Ret, E2, bind_Ret, E3, bind_Ret. unfold arena_Size. by rewrite N3, N2, N1, Hn.
Qed.
Lemma memTable_empty_ok m : memTable_empty m = Ret (arena_Size (m_arena m) =? mem_empty_size).
Proof.
  exact (f_equal (fun r : go Z => r ≫= fun empty => Ret (arena_Size (m_arena m) =? empty)) memTableEmptySize_ok).
Qed.
End spec.
