(* ===== verification/RecordSpans.v ===== *)
(** The spans of the range deletions and range keys of a batch, and their fragments. *)
From S2P Require Import Prelude.
From S2P Require Import Comparer.
From S2P Require Import InternalKey.
From S2P Require Import GoStd.
From S2P Require Import Keyspan.
From S2P Require Import KeyspanSpec.
From S2P Require Import RangeKey.
From S2P Require Import RangeKeySpec.
From S2P Require Import Iterators.
From S2P Require Import Batch.
From S2P Require Import BatchSpec.
From S2P Require Import BatchRoundtrip.
From S2P Require Import MemTable.
From S2P Require Import MemTableSpec.
From stdpp Require Import sorting.

Local Open Scope Z_scope.

(** ** The spans of records *)

(** The end, the suffix and the value of a range deletion or range key. *)
Definition parts : Type := bytes * bytes * bytes.
Definition op_parts (o : op) : parts :=
  match o with
  | OpDeleteRange _ end_ | OpRangeKeyDelete _ end_ => (end_, [], [])
  | OpRangeKeySet _ end_ sfx value => (end_, sfx, value)
  | OpRangeKeyUnset _ end_ sfx => (end_, sfx, [])
  | _ => ([], [], [])
  end.

(** The span of an operation with a sequence number. *)
Definition span_of (r : rec) (p : parts) (seqNum : Z) : Span :=
  mkSpan r.1.2 p.1.1 [mkKey (MakeTrailer seqNum r.1.1) p.1.2 p.2] ByTrailerDesc.

Lemma decode_op o seqNum :
  is_rangeKey_rec (op_record o) = true -> Z.of_nat (reserve (op_record o)) < 2 ^ 32 ->
  0 <= seqNum < 2 ^ 56 ->
  RangeKey.Decode (MakeInternalKey (op_record o).1.2 seqNum (op_record o).1.1) (op_record o).2 [] =
    Ret (Ok (span_of (op_record o) (op_parts o) seqNum)).
Proof.
  intros Hk Hl Hs. unfold RangeKey.Decode.
  destruct o; try done; cbn [op_record op_parts fst snd] in *; rewrite Kind_Make by done.
  - unfold reserve in Hl. cbn [fst snd] in Hl. rewrite !length_app, !length_varstr_eq in Hl.
    rewrite DecodeEndKey_varstr; [|by left|unfold short; lia|].
    + rewrite bind_Ret, Z.eqb_refl.
      replace (varstr sfx ++ varstr value) with (concat (enc_sv <$> [mkSV sfx value]))
        by (cbn; by rewrite app_nil_r).
      rewrite decodeSets_ok; [done| |done]. constructor; [|constructor]. unfold short. cbn. lia.
    + intros E. apply (f_equal length) in E. rewrite length_app, !length_varstr_eq in E.
      pose proof (length_PutUvarint (Z.of_nat (length sfx))). simpl in E. lia.
  - unfold reserve in Hl. cbn [fst snd] in Hl. rewrite !length_app, !length_varstr_eq in Hl.
    rewrite DecodeEndKey_varstr; [|by right|unfold short; lia|].
    + rewrite bind_Ret.
      replace (varstr sfx) with (concat (varstr <$> [sfx])) by (cbn; by rewrite app_nil_r).
      cbn [Z.eqb InternalKeyKindRangeKeyUnset InternalKeyKindRangeKeySet Pos.eqb].
      rewrite decodeUnsets_ok; [done| |done]. constructor; [|constructor]. unfold short. lia.
    + intros E. apply (f_equal length) in E. rewrite length_varstr_eq in E.
      pose proof (length_PutUvarint (Z.of_nat (length sfx))). simpl in E. lia.
  - done.
Qed.

(** The parts of a record. *)
Definition parts_of (r : rec) : parts :=
  if is_rangeDel_rec r then (r.2, [], [])
  else
    match RangeKey.Decode (MakeInternalKey r.1.2 0 r.1.1) r.2 [] with
    | Ret (Ok (mkSpan _ end_ [mkKey _ sfx v] _)) => (end_, sfx, v)
    | _ => ([], [], [])
    end.

(** The range keys of a batch can be decoded. *)
Definition decodes (r : rec) : Prop :=
  is_rangeKey_rec r = true -> forall seqNum, 0 <= seqNum < 2 ^ 56 ->
  RangeKey.Decode (MakeInternalKey r.1.2 seqNum r.1.1) r.2 [] = Ret (Ok (span_of r (parts_of r) seqNum)).

Lemma op_decodes o : Z.of_nat (reserve (op_record o)) < 2 ^ 32 -> decodes (op_record o).
Proof.
  intros Hl Hk seqNum Hs. rewrite decode_op by done. do 3 f_equal.
  unfold parts_of. destruct (is_rangeDel_rec (op_record o)) eqn:E; [by destruct o|].
  rewrite decode_op by (done || lia). cbn. by destruct (op_parts o) as [[??]?].
Qed.

Lemma reserve_le o ops : o ∈ ops -> (reserve (op_record o) <= reserves (op_record <$> ops))%nat.
Proof.
  intros Ho. apply list_elem_of_split in Ho as (l1 & l2 & ->).
  rewrite fmap_app, reserves_app, fmap_cons, reserves_cons. lia.
Qed.

(** ** Fragmenting sorted spans *)
Section fragmenting.
Context {C : Comparer} {L : ComparerLaws C} {S : Sort} {SL : SortLaws S}.

Lemma add_spans_run f l : add_spans f l = frag_run f (FAdd <$> l).
Proof.
  revert f. induction l as [|s l IH]; intros f; [done|].
  cbn [add_spans fmap list_fmap frag_run frag_step]. destruct (Keyspan.Add f s); [|done].
  rewrite !bind_Ret. apply IH.
Qed.

Definition by_start (l : list Span) : Prop :=
  StronglySorted (fun x y => Compare (sp_Start x) (sp_Start y) <> Gt) l.

Lemma by_start_in_order lo l :
  by_start l -> Forall (fun s => Compare lo (sp_Start s) <> Gt) l -> in_order lo (FAdd <$> l).
Proof.
  intros Hs. revert lo. induction Hs as [|s l Hs IH Hx]; intros lo Hlo; [done|].
  rewrite fmap_cons. cbn [in_order op_pos]. apply Forall_cons in Hlo as [H1 H2]. split; [done|].
  by apply IH.
Qed.

Lemma fragment_ok l :
  by_start l -> Forall (fun s => sp_KeysOrder s = ByTrailerDesc) l ->
  exists out, fragment l = Ret out /\ chain [] out /\ forall x, at_key x out ≡ₚ at_key x l.
Proof.
  intros Hs Ho. destruct (frag_run_spec (FAdd <$> l)) as (f & f' & E1 & E2 & Hc & Ha & _).
  - apply by_start_in_order; [done|]. apply Forall_forall. intros s _. apply compare_nil_le.
  - by apply Forall_fmap.
  - exists (f_emitted f'). unfold fragment. rewrite add_spans_run, E1, bind_Ret, E2, bind_Ret.
    split; [done|]. split; [done|]. intros x. rewrite Ha.
    replace (concat (op_span <$> (FAdd <$> l))) with l; [done|].
    clear. induction l as [|s l IH]; [done|]. cbn. by f_equal.
Qed.

(** Entries that can be decoded. *)
Context {B : Type} (f : B -> InternalKey * bytes) (g : B -> Span).

Lemma add_rangeKeys_ok (fr : Fragmenter) xs :
  Forall (fun x => RangeKey.Decode (f x).1 (f x).2 [] = Ret (Ok (g x))) xs ->
  add_rangeKeys fr (f <$> xs) = (fr ← add_spans fr (g <$> xs); fr ← Keyspan.Finish fr; Ret (fr, None)).
Proof.
  intros Hd. revert fr. induction Hd as [|x xs Hx _ IH]; intros fr; [done|].
  rewrite !fmap_cons. cbn [add_rangeKeys add_spans]. destruct (f x) as [ik v]. cbn [fst snd] in Hx.
  rewrite Hx, bind_Ret. destruct (Keyspan.Add fr (g x)); [|done]. rewrite !bind_Ret. apply IH.
Qed.

Lemma fragmentRangeKeys_ok xs out :
  Forall (fun x => RangeKey.Decode (f x).1 (f x).2 [] = Ret (Ok (g x))) xs ->
  fragment (g <$> xs) = Ret out -> fragmentRangeKeys (f <$> xs) = Ret (out, None).
Proof.
  intros Hd. unfold fragmentRangeKeys, fragment. rewrite add_rangeKeys_ok by done.
  destruct (add_spans new_fragmenter (g <$> xs)) as [fr|]; [|done].
  rewrite !bind_Ret. destruct (Keyspan.Finish fr); [|done]. rewrite !bind_Ret. congruence.
Qed.

Lemma construct_spans_ok decode xs :
  Forall (fun x => decode (f x).1 (f x).2 = Ret (Ok (g x))) xs ->
  construct_spans decode (f <$> xs) = Ret (g <$> xs).
Proof.
  induction 1 as [|x xs Hx _ IH]; [done|]. rewrite !fmap_cons. cbn [construct_spans].
  destruct (f x) as [ik v]. cbn [fst snd] in Hx. by rewrite Hx, bind_Ret, IH, bind_Ret.
Qed.
End fragmenting.

(** ** The spans of entries *)
Definition entry_rec (e : entry) : rec := (Kind e.1, UserKey e.1, e.2).
Definition entry_span (e : entry) : Span := span_of (entry_rec e) (parts_of (entry_rec e)) (SeqNum e.1).
(** How the entries of a skiplist are decoded. *)
Definition decoder (w : which) : InternalKey -> bytes -> go (result Span) :=
  match w with index_rangeKey => fun ik v => RangeKey.Decode ik v [] | _ => rangeDelConstructSpan end.
Definition entry_decodes (w : which) (e : entry) : Prop := decoder w e.1 e.2 = Ret (Ok (entry_span e)).

Lemma rec_which_rangeDel r : rec_which r = index_rangeDel -> is_rangeDel_rec r = true.
Proof. unfold rec_which. by destruct (is_rangeDel_rec r), (is_rangeKey_rec r). Qed.
Lemma rec_which_rangeKey r : rec_which r = index_rangeKey -> is_rangeKey_rec r = true.
Proof. unfold rec_which. by destruct (is_rangeDel_rec r), (is_rangeKey_rec r). Qed.

(** The entry of a record. *)
Definition rec_entry (r : rec) (seqNum : Z) : entry := (MakeInternalKey r.1.2 seqNum r.1.1, r.2).

Lemma entry_rec_entry r seqNum : rec_ok r -> 0 <= seqNum < 2 ^ 56 ->
  entry_rec (rec_entry r seqNum) = r /\ SeqNum (rec_entry r seqNum).1 = seqNum.
Proof.
  destruct r as [[k uk] v]. intros [Hk _] Hs. unfold InternalKeyKindMax in Hk. unfold entry_rec, rec_entry. cbn [fst snd].
  rewrite Kind_Make, SeqNum_Make by lia. done.
Qed.
Lemma entry_span_of r seqNum : rec_ok r -> 0 <= seqNum < 2 ^ 56 ->
  entry_span (rec_entry r seqNum) = span_of r (parts_of r) seqNum.
Proof. intros Hr Hs. unfold entry_span. by destruct (entry_rec_entry r seqNum Hr Hs) as [-> ->]. Qed.

Lemma rec_decodes w r seqNum :
  w <> index_point -> rec_which r = w -> rec_ok r -> decodes r -> 0 <= seqNum < 2 ^ 56 ->
  entry_decodes w (rec_entry r seqNum).
Proof.
  intros Hw <- Hr Hd Hs. unfold entry_decodes. rewrite entry_span_of by done.
  destruct (rec_which r) eqn:Ew; [done| |].
  - apply rec_which_rangeDel in Ew. cbn [decoder]. unfold rangeDelConstructSpan, span_of, parts_of. by rewrite Ew.
  - apply rec_which_rangeKey in Ew. by apply Hd.
Qed.

(** The numbered records of a kind. *)
Lemma numbered_elem w e l : forall seqNum,
  e ∈ entries_for w (numbered seqNum l) ->
  exists r s, r ∈ l /\ e = rec_entry r s /\ rec_which r = w /\ seqNum <= s < seqNum + batch_count l.
Proof.
  induction l as [|r l IH]; intros seqNum; [by intros ?%elem_of_nil|]. cbn [numbered].
  pose proof (sum_one_if in_memtable l). unfold batch_count in *. rewrite sum_cons. unfold one_if at 1.
  destruct (in_memtable r).
  - unfold entries_for. rewrite filter_cons. cbn [fst]. case_decide as Hw; [rewrite fmap_cons, elem_of_cons|].
    + intros [->|Hin].
      * exists r, seqNum. split; [apply list_elem_of_here|]. split; [done|]. split; [done|]. lia.
      * destruct (IH _ Hin) as (r' & s & ? & ? & ? & ?). exists r', s. split; [by apply list_elem_of_further|]. split_and!; done || lia.
    + intros Hin. destruct (IH _ Hin) as (r' & s & ? & ? & ? & ?). exists r', s. split; [by apply list_elem_of_further|]. split_and!; done || lia.
  - intros Hin. destruct (IH _ Hin) as (r' & s & ? & ? & ? & ?). exists r', s. split; [by apply list_elem_of_further|]. split_and!; done || lia.
Qed.

(** Their number. *)
Lemma numbered_length p w l : forall seqNum,
  (forall r, in_memtable r = true -> p r = true <-> rec_which r = w) -> (forall r, in_memtable r = false -> p r = false) ->
  Z.of_nat (length (entries_for w (numbered seqNum l))) = sum (one_if p) l.
Proof.
  intros seqNum Hp Hq. revert seqNum. induction l as [|r l IH]; intros seqNum; [done|]. cbn [numbered].
  rewrite sum_cons. unfold one_if at 1. destruct (in_memtable r) eqn:Em.
  - unfold entries_for in *. rewrite filter_cons. cbn [fst]. case_decide as Hw.
    + rewrite (proj2 (Hp r Em) Hw), fmap_cons. cbn [length]. rewrite <- (IH (seqNum + 1)). lia.
    + destruct (p r) eqn:Ep; [by apply (Hp r Em) in Ep|]. rewrite (IH (seqNum + 1)). lia.
  - rewrite (Hq r Em), (IH seqNum). lia.
Qed.

Section entry_spans.
Context {C : Comparer} {L : ComparerLaws C} {S : Sort} {SL : SortLaws S}.

Lemma numbered_decodes w seqNum l :
  w <> index_point -> Forall rec_ok l -> Forall decodes l -> 0 <= seqNum -> seqNum + batch_count l < 2 ^ 56 ->
  Forall (entry_decodes w) (entries_for w (numbered seqNum l)).
Proof.
  intros Hw Hok Hd Hs Hb. apply Forall_forall. intros e He. rewrite Forall_forall in Hok, Hd.
  destruct (numbered_elem _ _ _ _ He) as (r & s & Hr & -> & Ew & Hsb). apply rec_decodes; auto. lia.
Qed.

Lemma fragment_entries kvs :
  ikey_sorted fst kvs ->
  exists out, fragment (entry_span <$> kvs) = Ret out /\ forall x, at_key x out ≡ₚ at_key x (entry_span <$> kvs).
Proof.
  intros Hs. destruct (fragment_ok (entry_span <$> kvs)) as (out & E & _ & Ha); [|by apply Forall_fmap, Forall_true|by exists out].
  unfold by_start. unfold ikey_sorted in Hs. induction Hs as [|x xs Hs IH Hx]; [constructor|].
  rewrite fmap_cons. constructor; [done|]. apply Forall_fmap. eapply Forall_impl; [exact Hx|].
  intros y Hy. apply InternalCompare_lt in Hy. cbn in Hy |- *. destruct Hy as [->|[-> _]]; [done|]. by rewrite compare_refl.
Qed.
End entry_spans.
