(* ===== verification/MemTableSteps.v ===== *)
(** Memtables (MemTable.v) in use: batches reserve room and are applied later, in any
    order, while the spans are read. *)
From S2P Require Import Prelude.
From S2P Require Import Comparer.
From S2P Require Import InternalKey.
From S2P Require Import GoStd.
From S2P Require Import Keyspan.
From S2P Require Import KeyspanSpec.
From S2P Require Import RangeKey.
From S2P Require Import Iterators.
From S2P Require Import Arenaskl.
From S2P Require Import ArenasklAlloc.
From S2P Require Import ArenasklSpec.
From S2P Require Import ArenasklAdd.
From S2P Require Import ArenasklRun.
From S2P Require Import ArenasklIter.
From S2P Require Import Batch.
From S2P Require Import BatchSpec.
From S2P Require Import BatchRoundtrip.
From S2P Require Import MemTable.
From S2P Require Import MemTableSpec.
From S2P Require Import RecordSpans.
From stdpp Require Import sorting.

Local Open Scope Z_scope.

(** ** Caches of fragments *)
Section cache.
Context {C : Comparer} {L : ComparerLaws C} {S : Sort} {SL : SortLaws S} {E : ArenaEnv}.

(** The cache counts the entries, and cached fragments are those of all entries. *)
Record CacheOK (c : keySpanCache) (kvs : list entry) : Prop := {
  ca_count : c_count c = Z.of_nat (length kvs);
  ca_frags : match c_frags c with
    | None => kvs = []
    | Some f => fr_count f = Z.of_nat (length kvs) /\
        forall sp, fr_spans f = Some sp -> forall x, at_key x sp ≡ₚ at_key x (entry_span <$> kvs)
    end;
}.

Lemma cache_get_ok c a s os w :
  arena_ok a -> Skl a s os -> CacheOK c (contents a os) -> Forall (entry_decodes w) (contents a os) ->
  exists c' sp, cache_get c a s (decoder w) = Ret (c', sp) /\ CacheOK c' (contents a os) /\
    forall x, at_key x sp ≡ₚ at_key x (entry_span <$> contents a os).
Proof.
  intros Ha HS [Hn Hf] Hd. unfold cache_get. destruct (c_frags c) as [f|] eqn:Ec.
  2: { exists c, []. split; [done|]. split; [split; [done|by rewrite Ec]|]. by rewrite Hf. }
  destruct Hf as [Hc Hsp]. unfold frags_get. destruct (fr_spans f) as [sp|] eqn:Ef.
  - rewrite bind_Ret. exists (mkCache (c_count c) (Some f)), sp. split; [done|]. split; [|by apply Hsp].
    split; [done|]. cbn [c_frags]. split; [done|]. rewrite Ef. intros sp' [= <-]. by apply Hsp.
  - rewrite (skl_entries_spec a s os Ha HS), bind_Ret.
    pose proof (construct_spans_ok id entry_span (decoder w) (contents a os) Hd) as Ek.
    rewrite list_fmap_id in Ek. rewrite Ek. clear Ek.
    destruct (fragment_entries (contents a os) (kvs_sorted a s os HS)) as (out & Eo & Ho).
    rewrite bind_Ret. change (fragment _) with (fragment (entry_span <$> contents a os)). rewrite Eo, !bind_Ret.
    eexists _, out. split; [done|]. split; [|done]. split; [done|]. cbn [c_frags fr_count fr_spans]. split; [done|].
    by intros sp [= <-].
Qed.

(** Added entries invalidate it. *)
Lemma invalidated_ok c kvs kvs' n :
  CacheOK c kvs -> Z.of_nat (length kvs') = Z.of_nat (length kvs) + n -> Z.of_nat (length kvs') < 2 ^ 32 -> 0 <= n ->
  (n = 0 -> kvs' = kvs) -> CacheOK (invalidated c n) kvs'.
Proof.
  intros [Hn Hf] Hlen Hb Hp H0. unfold invalidated. destruct (Z.eqb_spec n 0) as [->|Hne].
  - rewrite H0 by done. by split.
  - unfold invalidate. rewrite u32_small by lia. destruct (c_frags c) as [f|] eqn:Ec.
    + destruct Hf as [Hc _]. rewrite (proj2 (Z.leb_gt _ _)) by lia. split; [cbn; lia|]. cbn. split; [lia|done].
    + split; [cbn; lia|]. cbn. split; [lia|done].
Qed.
End cache.

(** ** Steps *)
Section steps.
Context {C : Comparer} {L : ComparerLaws C} {S : Sort} {SL : SortLaws S} {K : BatchSkl} {M : Memory} {E : ArenaEnv}.

(** A batch that has reserved room, with its operations and its sequence number. *)
Record pending := mkPending { p_batch : Batch; p_ops : list op; p_seqNum : Z }.
Definition p_recs (x : pending) : list rec := op_record <$> p_ops x.
Definition p_count (x : pending) : Z := batch_count (p_recs x).

(** A memtable, whether it is the mutable one of the store, the batches that have reserved
    room, the next sequence number, and the batches that have been applied. *)
Record mstate := mkM {
  ms_mem : memTable;
  ms_mutable : bool;
  ms_pending : list pending;
  ms_next : Z;
  ms_applied : list pending;
}.

Inductive mstep : mstate -> mstate -> Prop :=
| step_prepare m p n d db ops b m' :
    do_ops (newBatch db) ops = Ret (b, None) -> ops_fit ops ->
    Z.of_nat (length p) < 2 ^ 31 - 2 -> n + batch_count (op_record <$> ops) < 2 ^ 56 ->
    prepare m b = Ret (m', None) ->
    mstep (mkM m true p n d) (mkM m' true (p ++ [mkPending b ops n]) (n + batch_count (op_record <$> ops)) d)
| step_full m p n d b m' e :
    prepare m b = Ret (m', Some e) -> mstep (mkM m true p n d) (mkM m' true p n d)
| step_other m mu p n d n' : n <= n' < 2 ^ 56 -> mstep (mkM m mu p n d) (mkM m mu p n' d)
| step_apply m mu p n d i x m1 m2 last :
    p !! i = Some x -> memTable_apply m (p_batch x) (p_seqNum x) = Ret (m1, None) ->
    writerUnref m1 = Ret (m2, last) -> mstep (mkM m mu p n d) (mkM m2 mu (delete i p) n (x :: d))
| step_rotate m p n d m' last :
    writerUnref m = Ret (m', last) -> mstep (mkM m true p n d) (mkM m' false p n d)
| step_rangeDels m mu p n d m' sp :
    memTable_rangeDels m = Ret (m', sp) -> mstep (mkM m mu p n d) (mkM m' mu p n d)
| step_rangeKeys m mu p n d m' sp :
    memTable_rangeKeys m = Ret (m', sp) -> mstep (mkM m mu p n d) (mkM m' mu p n d).

(** The states of a memtable that was made with enough space for its skiplists. *)
Inductive mreach : mstate -> Prop :=
| mreach_init size memTableSize arenaBuf logSeqNum m :
    mem_empty_size <= arena_Capacity (NewArena (mem_arenaBuf size memTableSize arenaBuf)) ->
    0 <= logSeqNum < 2 ^ 56 -> memTable_init size memTableSize arenaBuf logSeqNum = Ret m ->
    mreach (mkM m true [] logSeqNum [])
| mreach_step s s' : mreach s -> mstep s s' -> mreach s'.

(** The entries of the batches that have been applied. *)
Definition applied (d : list pending) (w : which) : list entry :=
  concat ((fun x => entries_for w (numbered (p_seqNum x) (p_recs x))) <$> d).
Definition p_seqs (x : pending) : list Z := seqZ (p_seqNum x) (p_count x).
Definition p_size (x : pending) : Z := b_memTableSize (p_batch x).
Definition total (f : pending -> Z) (l : list pending) : Z := foldr Z.add 0 (f <$> l).

Record p_ok (m : memTable) (n : Z) (x : pending) : Prop := {
  po_inv : Inv (p_batch x) (p_recs x);
  po_fit : ops_fit (p_ops x);
  po_from : m_logSeqNum m <= p_seqNum x;
  po_to : p_seqNum x + p_count x <= n;
}.

Record minv (s : mstate) (os : which -> list Z) : Prop := {
  mi_mem : MemOK (ms_mem s) os (applied (ms_applied s));
  mi_dels : CacheOK (m_tombstones (ms_mem s)) (contents (m_arena (ms_mem s)) (os index_rangeDel));
  mi_keys : CacheOK (m_rangeKeys (ms_mem s)) (contents (m_arena (ms_mem s)) (os index_rangeKey));
  mi_room : a_n (m_arena (ms_mem s)) + total p_size (ms_pending s) <= m_reserved (ms_mem s) <= a_len (m_arena (ms_mem s));
  mi_refs : m_writerRefs (ms_mem s) = Z.of_nat (length (ms_pending s)) + (if ms_mutable s then 1 else 0);
  mi_few : Z.of_nat (length (ms_pending s)) < 2 ^ 31 - 1;
  mi_seq : 0 <= m_logSeqNum (ms_mem s) <= ms_next s /\ ms_next s < 2 ^ 56;
  mi_pending : Forall (p_ok (ms_mem s) (ms_next s)) (ms_pending s);
  mi_applied : Forall (p_ok (ms_mem s) (ms_next s)) (ms_applied s);
  mi_apart : NoDup ((ms_pending s ++ ms_applied s) ≫= p_seqs);
  mi_size : mem_empty_size + total p_count (ms_applied s) <= a_n (m_arena (ms_mem s));
  mi_empty : total p_count (ms_applied s) = 0 -> a_n (m_arena (ms_mem s)) = mem_empty_size;
}.

(** ** Sums and sequence numbers *)
#[export] Instance total_perm f : Proper ((≡ₚ) ==> (=)) (total f).
Proof.
  intros l l' Hp. unfold total. induction Hp as [|x l l' _ IH|x y l|l1 l2 l3 _ IH1 _ IH2]; cbn [fmap list_fmap foldr] in *; lia.
Qed.
Lemma total_cons f x l : total f (x :: l) = f x + total f l.
Proof. done. Qed.
Lemma total_snoc f x l : total f (l ++ [x]) = total f l + f x.
Proof. rewrite <- Permutation_cons_append, total_cons. lia. Qed.
Lemma total_nonneg f (P : pending -> Prop) l : (forall x, P x -> 0 <= f x) -> Forall P l -> 0 <= total f l.
Proof. intros Hf. induction 1 as [|x l Hx _ IH]; [done|]. rewrite total_cons. pose proof (Hf x Hx). lia. Qed.

Lemma p_count_nonneg x : 0 <= p_count x.
Proof. unfold p_count, batch_count. pose proof (sum_one_if in_memtable (p_recs x)). lia. Qed.
Lemma p_size_nonneg m n x : p_ok m n x -> 0 <= p_size x.
Proof. intros H. unfold p_size. rewrite (inv_size _ _ (po_inv _ _ _ H)). apply sum_rec_size_nonneg. Qed.
Lemma total_count_nonneg d : 0 <= total p_count d.
Proof. apply (total_nonneg _ (fun _ => True)); [intros; apply p_count_nonneg|by apply Forall_true]. Qed.

(** A batch without entries reserves nothing. *)
Lemma size_without_count l : batch_count l = 0 -> sum rec_size l = 0.
Proof.
  unfold batch_count. induction l as [|r l IH]; [done|]. rewrite !sum_cons. pose proof (sum_one_if in_memtable l).
  unfold one_if at 1. unfold rec_size at 1. destruct (in_memtable r); [lia|]. intros Hc. rewrite IH by lia. done.
Qed.

Lemma applied_cons x d w : applied (x :: d) w = with_batch (applied d) (p_seqNum x) (p_recs x) w.
Proof. done. Qed.
Lemma applied_seq m n d w e :
  0 <= m_logSeqNum m -> n < 2 ^ 56 -> Forall (p_ok m n) d -> e ∈ applied d w ->
  SeqNum e.1 ∈ d ≫= p_seqs /\ exists x r s, x ∈ d /\ r ∈ p_recs x /\ e = rec_entry r s /\ rec_which r = w /\ rec_ok r /\ 0 <= s < n.
Proof.
  intros Hlog Hn Hd He. unfold applied in He. apply list_elem_of_In, in_concat in He as (l & Hl & He).
  apply list_elem_of_In in Hl, He. apply list_elem_of_fmap in Hl as (x & -> & Hx). rewrite Forall_forall in Hd. destruct (Hd x Hx) as [H1 H2 H3 H4].
  destruct (numbered_elem _ _ _ _ He) as (r & s & Hr & -> & Hw & Hs).
  assert (rec_ok r) as Hok by (pose proof (inv_ok _ _ H1) as Ho; rewrite Forall_forall in Ho; by apply Ho).
  unfold p_count in H4. destruct (entry_rec_entry r s Hok ltac:(lia)) as [_ Es]. rewrite Es. split.
  - apply list_elem_of_bind. exists x. split; [|done]. unfold p_seqs, p_count. apply elem_of_seqZ. lia.
  - exists x, r, s. split_and!; done || lia.
Qed.
Lemma applied_decodes m n d w :
  0 <= m_logSeqNum m -> n < 2 ^ 56 -> Forall (p_ok m n) d -> w <> index_point -> Forall (entry_decodes w) (applied d w).
Proof.
  intros Hlog Hn Hd Hw. apply Forall_forall. intros e He.
  destruct (applied_seq m n d w e Hlog Hn Hd He) as (_ & x & r & s & Hx & Hr & -> & Ew & Hok & Hs).
  rewrite Forall_forall in Hd. destruct (Hd x Hx) as [H1 H2 _ _]. apply rec_decodes; try done; [|lia].
  unfold p_recs in Hr. apply list_elem_of_fmap in Hr as (o & -> & Ho). apply op_decodes.
  pose proof (reserve_le o (p_ops x) Ho). unfold ops_fit, maxBatchSize in H2. lia.
Qed.

Lemma length_numbered l : forall s, Z.of_nat (length (numbered s l)) = batch_count l.
Proof.
  unfold batch_count. induction l as [|r l IH]; intros s; [done|]. rewrite sum_cons. unfold one_if at 1. cbn [numbered].
  destruct (in_memtable r); [cbn [length]; rewrite <- (IH (s + 1)); lia|]. rewrite <- (IH s). lia.
Qed.
Lemma applied_length d w : Z.of_nat (length (applied d w)) <= total p_count d.
Proof.
  induction d as [|x d IH]; [done|]. rewrite applied_cons, total_cons. unfold with_batch. rewrite length_app.
  assert (length (entries_for w (numbered (p_seqNum x) (p_recs x))) <= length (numbered (p_seqNum x) (p_recs x)))%nat.
  { unfold entries_for. rewrite length_fmap. apply length_filter. }
  pose proof (length_numbered (p_recs x) (p_seqNum x)). unfold p_count at 1. lia.
Qed.
Lemma length_dels l s : Z.of_nat (length (entries_for index_rangeDel (numbered s l))) = sum (one_if is_rangeDel_rec) l.
Proof.
  apply numbered_length.
  - intros r _. split; [|apply rec_which_rangeDel]. unfold rec_which. by intros ->.
  - intros r. unfold in_memtable, is_rangeDel_rec. destruct (Z.eqb_spec r.1.1 InternalKeyKindLogData) as [->|]; done.
Qed.
Lemma length_keys l s : Z.of_nat (length (entries_for index_rangeKey (numbered s l))) = sum (one_if is_rangeKey_rec) l.
Proof.
  apply numbered_length.
  - intros r _. split; [|apply rec_which_rangeKey]. unfold rec_which, is_rangeDel_rec, is_rangeKey_rec.
    destruct (Z.eqb_spec r.1.1 InternalKeyKindRangeDelete) as [->|]; [done|]. by intros ->.
  - intros r. unfold in_memtable, is_rangeKey_rec. destruct (Z.eqb_spec r.1.1 InternalKeyKindLogData) as [->|]; done.
Qed.

(** A cache after a batch has been applied. *)
Lemma cache_step c m os m1 os1 d x w n :
  CacheOK c (contents (m_arena m) (os w)) -> MemOK m os (applied d) -> MemOK m1 os1 (applied (x :: d)) ->
  Z.of_nat (length (entries_for w (numbered (p_seqNum x) (p_recs x)))) = n -> total p_count (x :: d) < 2 ^ 32 ->
  CacheOK (invalidated c n) (contents (m_arena m1) (os1 w)).
Proof.
  intros Hc HM HM1 Hn Hb. pose proof (mok_entries _ _ _ HM w) as P. pose proof (mok_entries _ _ _ HM1 w) as P1.
  pose proof (Permutation_length P) as Hl. pose proof (Permutation_length P1) as Hl1.
  pose proof (applied_length (x :: d) w). rewrite applied_cons in P1, Hl1, H. unfold with_batch in *. rewrite length_app in *.
  apply (invalidated_ok c (contents (m_arena m) (os w))); [done|lia|lia|lia|]. intros H0.
  destruct (entries_for w (numbered (p_seqNum x) (p_recs x))); [|cbn in Hn; lia]. cbn [app] in P1.
  apply (ikey_sorted_unique fst).
  - exact (kvs_sorted _ _ _ (MemOK_skl m1 os1 _ w HM1)).
  - exact (kvs_sorted _ _ _ (MemOK_skl m os _ w HM)).
  - by rewrite P1, P.
Qed.

(** A batch with reserved room can be applied. *)
Lemma minv_apply s os i x :
  minv s os -> ms_pending s !! i = Some x ->
  exists m1 m2 os1, memTable_apply (ms_mem s) (p_batch x) (p_seqNum x) = Ret (m1, None) /\
    writerUnref m1 = Ret (m2, negb (ms_mutable s) && (length (ms_pending s) =? 1)%nat) /\
    minv (mkM m2 (ms_mutable s) (delete i (ms_pending s)) (ms_next s) (x :: ms_applied s)) os1.
Proof.
  destruct s as [m mu p n d]. cbn [ms_mem ms_mutable ms_pending ms_next ms_applied]. intros [] Hi.
  cbn [ms_mem ms_mutable ms_pending ms_next ms_applied] in *. pose proof (delete_Permutation _ _ _ Hi) as Hp.
  assert (p_ok m n x) as Hx by (rewrite Forall_forall in mi_pending0; exact (mi_pending0 x (list_elem_of_lookup_2 _ _ _ Hi))).
  assert (Forall (p_ok m n) (delete i p)) as Hdel by (rewrite Hp in mi_pending0; by inversion mi_pending0).
  pose proof (p_size_nonneg _ _ _ Hx). pose proof (total_nonneg p_size _ _ (p_size_nonneg m n) Hdel).
  pose proof (total_perm p_size _ _ Hp) as Ht. rewrite total_cons in Ht.
  assert (p_size x = b_memTableSize (p_batch x)) as Esz by done.
  pose proof Hx as [X1 X2 X3 X4]. pose proof (p_count_nonneg x). assert (0 < mem_empty_size) by done.
  pose proof (aok_len _ (skls_arena _ _ (mok_skls _ _ _ mi_mem0))).
  destruct (memTable_apply_ok m os (applied d) (p_batch x) (p_recs x) (p_seqNum x)) as
    (m1 & os1 & Ea & HM1 & F1 & F2 & F3 & F4 & F5 & F6 & N1); try done.
  { unfold p_recs. apply op_not_ingest. }
  { lia. }
  { lia. }
  { unfold p_count in *. lia. }
  { intros w e He Hs. destruct (applied_seq m n d w e ltac:(lia) ltac:(lia) mi_applied0 He) as [Hin _].
    rewrite Hp in mi_apart0. cbn [app] in mi_apart0. rewrite bind_cons in mi_apart0. apply NoDup_app in mi_apart0 as (_ & Hd & _).
    apply (Hd (SeqNum e.1)); [apply elem_of_seqZ; unfold p_count; lia|]. rewrite bind_app. apply elem_of_app. by right. }
  fold (p_count x) in N1. pose proof (Permutation_length Hp) as Hlen. cbn [length] in Hlen.
  exists m1, (m1 <| m_writerRefs := m_writerRefs m - 1 |>), os1. split; [done|].
  assert (total p_count (x :: d) = p_count x + total p_count d) as Htc by done.
  assert (m_writerRefs m - 1 = Z.of_nat (length (delete i p)) + (if mu then 1 else 0)) as Href by (rewrite mi_refs0; lia).
  split.
  - unfold writerUnref. rewrite F3, mi_refs0. rewrite i32_small by (destruct mu; lia).
    rewrite (proj2 (Z.ltb_ge _ _)) by (destruct mu; lia). do 2 f_equal.
    destruct mu; cbn [negb andb]; [apply Z.eqb_neq; lia|]. destruct (Nat.eqb_spec (length p) 1); [apply Z.eqb_eq|apply Z.eqb_neq]; lia.
  - change (MemOK m1 os1 (applied (x :: d))) in HM1. split; cbn [ms_mem ms_mutable ms_pending ms_next ms_applied]; try done.
    + destruct HM1. by split.
    + change (CacheOK (m_tombstones m1) (contents (m_arena m1) (os1 index_rangeDel))).
      rewrite F5. apply (cache_step _ m os m1 os1 d x); [done..|apply length_dels|lia].
    + change (CacheOK (m_rangeKeys m1) (contents (m_arena m1) (os1 index_rangeKey))).
      rewrite F6. apply (cache_step _ m os m1 os1 d x); [done..|apply length_keys|lia].
    + cbn. rewrite F1, F2. lia.
    + lia.
    + cbn. rewrite F4. lia.
    + eapply Forall_impl; [exact Hdel|]. intros y []. split; try done. cbn. by rewrite F4.
    + eapply Forall_impl; [constructor; [exact Hx|exact mi_applied0]|]. intros y []. split; try done. cbn. by rewrite F4.
    + rewrite Hp in mi_apart0. cbn [app] in mi_apart0. by rewrite <- Permutation_middle.
    + change (mem_empty_size + total p_count (x :: d) <= a_n (m_arena m1)). lia.
    + change (total p_count (x :: d) = 0 -> a_n (m_arena m1) = mem_empty_size). rewrite Htc. intros Hz. pose proof (total_count_nonneg d).
      rewrite (inv_size _ _ X1), size_without_count in N1 by (unfold p_count in *; lia). lia.
Qed.

(** Reserving room. *)
Lemma arena_Size_ok a : 0 <= a_n a < 2 ^ 32 -> arena_Size a = a_n a.
Proof. intros Ha. unfold arena_Size, MaxUint32OrInt. rewrite (proj2 (Z.ltb_ge _ _)) by lia. apply u32_small. lia. Qed.

Lemma prepare_ok m p n d os b m' r :
  minv (mkM m true p n d) os -> prepare m b = Ret (m', r) ->
  exists reserved, a_n (m_arena m) + total p_size p <= reserved <= a_len (m_arena m) /\
    match r with
    | Some _ => m' = m <| m_reserved := reserved |>
    | None => reserved + b_memTableSize b <= a_len (m_arena m) /\
        (0 <= b_memTableSize b -> Z.of_nat (length p) < 2 ^ 31 - 2 ->
         m' = m <| m_reserved := reserved + b_memTableSize b |> <| m_writerRefs := m_writerRefs m + 1 |>)
    end.
Proof.
  intros []. cbn [ms_mem ms_mutable ms_pending ms_next ms_applied] in *. unfold prepare, availBytes.
  pose proof (skls_arena _ _ (mok_skls _ _ _ mi_mem0)) as Ha. pose proof (aok_len _ Ha). pose proof (aok_n _ Ha).
  pose proof (total_nonneg p_size _ _ (p_size_nonneg m n) mi_pending0).
  set (reserved := if m_writerRefs m =? 1 then arena_Size (m_arena m) else m_reserved m).
  assert (a_n (m_arena m) + total p_size p <= reserved <= a_len (m_arena m)) as Hres.
  { unfold reserved. destruct (Z.eqb_spec (m_writerRefs m) 1) as [E1|]; [|done]. rewrite arena_Size_ok by lia.
    assert (p = []) as -> by (destruct p; [done|cbn [length] in mi_refs0; lia]). change (total p_size []) with 0. lia. }
  assert ((if m_writerRefs m =? 1 then m <| m_reserved := arena_Size (m_arena m) |> else m) = m <| m_reserved := reserved |>) as ->
    by (unfold reserved; destruct (m_writerRefs m =? 1); by destruct m).
  change (m_reserved (m <| m_reserved := reserved |>)) with reserved.
  change (m_arena (m <| m_reserved := reserved |>)) with (m_arena m).
  clearbody reserved. unfold arena_Capacity. rewrite (u32_small (a_len _)), u32_small by lia.
  destruct (Z.ltb_spec (a_len (m_arena m) - reserved) (b_memTableSize b)) as [Hlt|Hge].
  - intros [= <- <-]. by exists reserved.
  - destruct (writerRef _) as [m1|] eqn:Ew; [|done]. rewrite bind_Ret. intros [= <- <-]. exists reserved. split; [done|].
    split; [lia|]. intros Hsz Hp. rewrite (u32_small (b_memTableSize b)), u32_small in Ew by lia. revert Ew. unfold writerRef.
    change (m_writerRefs (_ <| m_reserved := _ |>)) with (m_writerRefs m).
    rewrite i32_small by lia. rewrite (proj2 (Z.leb_gt _ _)) by lia. intros [= <-]. done.
Qed.

(** ** The invariant *)
Lemma p_ok_later m m' n n' x : m_logSeqNum m' = m_logSeqNum m -> n <= n' -> p_ok m n x -> p_ok m' n' x.
Proof. intros E1 Hn []. split; try done; [by rewrite E1|lia]. Qed.

(** A step that leaves the skiplists as they are. *)
Lemma minv_change (m m' : memTable) (mu mu' : bool) (p p' : list pending) (n n' : Z) (d : list pending) os :
  m_arena m' = m_arena m -> skl_of m' = skl_of m -> m_logSeqNum m' = m_logSeqNum m -> n <= n' < 2 ^ 56 ->
  CacheOK (m_tombstones m') (contents (m_arena m) (os index_rangeDel)) ->
  CacheOK (m_rangeKeys m') (contents (m_arena m) (os index_rangeKey)) ->
  a_n (m_arena m) + total p_size p' <= m_reserved m' <= a_len (m_arena m) ->
  m_writerRefs m' = Z.of_nat (length p') + (if mu' then 1 else 0) -> Z.of_nat (length p') < 2 ^ 31 - 1 ->
  Forall (p_ok m n') p' -> NoDup ((p' ++ d) ≫= p_seqs) ->
  minv (mkM m mu p n d) os -> minv (mkM m' mu' p' n' d) os.
Proof.
  intros E1 E2 E3 Hn Hc1 Hc2 Hroom Hrefs Hfew Hp Hd []. cbn [ms_mem ms_mutable ms_pending ms_next ms_applied] in *.
  split; cbn [ms_mem ms_mutable ms_pending ms_next ms_applied]; rewrite ?E1, ?E3; try done; try lia.
  - destruct mi_mem0 as [M1 M2]. split; rewrite E1; [|done]. unfold skls_of. by rewrite E2.
  - eapply Forall_impl; [exact Hp|]. intros x. apply p_ok_later; [done|lia].
  - eapply Forall_impl; [exact mi_applied0|]. intros x. apply p_ok_later; [done|lia].
Qed.

(** Reading the spans. *)
Lemma minv_rangeDels m mu p n d os :
  minv (mkM m mu p n d) os ->
  exists c sp, memTable_rangeDels m = Ret (m <| m_tombstones := c |>, sp) /\
    CacheOK c (contents (m_arena m) (os index_rangeDel)) /\
    forall x, at_key x sp ≡ₚ at_key x (entry_span <$> applied d index_rangeDel).
Proof.
  intros []. cbn [ms_mem ms_mutable ms_pending ms_next ms_applied] in *.
  pose proof (mok_entries _ _ _ mi_mem0 index_rangeDel) as Hp.
  destruct (cache_get_ok (m_tombstones m) (m_arena m) (m_rangeDelSkl m) (os index_rangeDel) index_rangeDel) as (c & sp & Ec & Hc & Ha).
  - apply (skls_arena _ _ (mok_skls _ _ _ mi_mem0)).
  - exact (MemOK_skl m os _ index_rangeDel mi_mem0).
  - done.
  - rewrite Hp. apply (applied_decodes m n); done || lia.
  - exists c, sp. unfold memTable_rangeDels. cbn [decoder] in Ec. rewrite Ec, bind_Ret. split; [done|]. split; [done|].
    intros x. by rewrite Ha, Hp.
Qed.
Lemma minv_rangeKeys m mu p n d os :
  minv (mkM m mu p n d) os ->
  exists c sp, memTable_rangeKeys m = Ret (m <| m_rangeKeys := c |>, sp) /\
    CacheOK c (contents (m_arena m) (os index_rangeKey)) /\
    forall x, at_key x sp ≡ₚ at_key x (entry_span <$> applied d index_rangeKey).
Proof.
  intros []. cbn [ms_mem ms_mutable ms_pending ms_next ms_applied] in *.
  pose proof (mok_entries _ _ _ mi_mem0 index_rangeKey) as Hp.
  destruct (cache_get_ok (m_rangeKeys m) (m_arena m) (m_rangeKeySkl m) (os index_rangeKey) index_rangeKey) as (c & sp & Ec & Hc & Ha).
  - apply (skls_arena _ _ (mok_skls _ _ _ mi_mem0)).
  - exact (MemOK_skl m os _ index_rangeKey mi_mem0).
  - done.
  - rewrite Hp. apply (applied_decodes m n); done || lia.
  - exists c, sp. unfold memTable_rangeKeys. cbn [decoder] in Ec. rewrite Ec, bind_Ret. split; [done|]. split; [done|].
    intros x. by rewrite Ha, Hp.
Qed.

Lemma minv_step s s' os : minv s os -> mstep s s' -> exists os', minv s' os'.
Proof.
  intros Hm Hstep. destruct Hstep as [m p n d db ops b m' Hb Hfit Hfew Hn Hprep|m p n d b m' e Hprep|m mu p n d n' Hn|
    m mu p n d i x m1 m2 last Hi Ha Hu|m p n d m' last Hu|m mu p n d m' sp Hr|m mu p n d m' sp Hr].
  - exists os. destruct (do_ops_ok ops (newBatch db) [] (Inv_newBatch db) Hfit) as (b' & Eb & HI & _).
    rewrite Eb in Hb. injection Hb as ->. cbn [app] in HI.
    set (x := mkPending b ops n). assert (p_count x = batch_count (op_record <$> ops)) as Ec by done.
    pose proof (p_count_nonneg x). rewrite Ec in *.
    destruct (prepare_ok _ _ _ _ _ _ _ _ Hm Hprep) as (reserved & Hres & Hle & Em').
    assert (0 <= b_memTableSize b) as Hsz by (rewrite (inv_size _ _ HI); apply sum_rec_size_nonneg).
    rewrite (Em' Hsz Hfew). clear Em' Hprep.
    pose proof Hm as []. cbn [ms_mem ms_mutable ms_pending ms_next ms_applied] in *.
    apply (minv_change m _ true _ p _ n); [done|done|done|lia|done|done| | | | | |exact Hm].
    + change (a_n (m_arena m) + total p_size (p ++ [x]) <= reserved + b_memTableSize b <= a_len (m_arena m)).
      rewrite total_snoc. change (p_size x) with (b_memTableSize b). lia.
    + change (m_writerRefs m + 1 = Z.of_nat (length (p ++ [x])) + 1). rewrite length_app. cbn [length]. lia.
    + rewrite length_app. cbn [length]. lia.
    + apply Forall_app. split; [eapply Forall_impl; [exact mi_pending0|]; intros y; apply p_ok_later; [done|lia]|].
      constructor; [|constructor]. split; [done|done|cbn; lia|rewrite Ec; cbn; lia].
    + rewrite <- app_assoc. cbn [app]. rewrite <- Permutation_middle, bind_cons. apply NoDup_app. split; [apply NoDup_seqZ|].
      split; [|done]. intros z Hz1 Hz2. apply elem_of_seqZ in Hz1. apply list_elem_of_bind in Hz2 as (y & Hz2 & Hy).
      apply elem_of_seqZ in Hz2. assert (p_ok m n y) as Hok.
      { apply elem_of_app in Hy. rewrite Forall_forall in mi_pending0, mi_applied0. destruct Hy; auto. }
      pose proof (po_to _ _ _ Hok). cbn [p_seqNum x] in Hz1. lia.
  - exists os. destruct (prepare_ok _ _ _ _ _ _ _ _ Hm Hprep) as (reserved & Hres & ->).
    pose proof Hm as []. cbn [ms_mem ms_mutable ms_pending ms_next ms_applied] in *.
    apply (minv_change m _ true _ p _ n); [done|done|done|lia|done|done|done|done|done|done|done|exact Hm].
  - exists os. pose proof Hm as []. cbn [ms_mem ms_mutable ms_pending ms_next ms_applied] in *.
    apply (minv_change m _ mu _ p _ n); [done|done|done|lia|done|done|done|done|done| |done|exact Hm].
    eapply Forall_impl; [exact mi_pending0|]. intros y. apply p_ok_later; [done|lia].
  - destruct (minv_apply _ _ i x Hm Hi) as (m1' & m2' & os1 & Ea & Eu & Hm'). cbn [ms_mem] in Ea. rewrite Ea in Ha.
    injection Ha as ->. rewrite Eu in Hu. injection Hu as -> _. by exists os1.
  - exists os. pose proof Hm as []. cbn [ms_mem ms_mutable ms_pending ms_next ms_applied] in *. revert Hu. unfold writerUnref.
    rewrite i32_small by lia. rewrite (proj2 (Z.ltb_ge _ _)) by lia. intros [= <- _].
    apply (minv_change m _ true _ p _ n); [done|done|done|lia|done|done|done| |done|done|done|exact Hm].
    change (m_writerRefs m - 1 = Z.of_nat (length p) + 0). lia.
  - exists os. destruct (minv_rangeDels _ _ _ _ _ _ Hm) as (c & sp' & Ed & Hc & _). rewrite Ed in Hr. injection Hr as <- _.
    pose proof Hm as []. cbn [ms_mem ms_mutable ms_pending ms_next ms_applied] in *.
    apply (minv_change m _ mu _ p _ n); [done|done|done|lia|done|done|done|done|done|done|done|exact Hm].
  - exists os. destruct (minv_rangeKeys _ _ _ _ _ _ Hm) as (c & sp' & Ed & Hc & _). rewrite Ed in Hr. injection Hr as <- _.
    pose proof Hm as []. cbn [ms_mem ms_mutable ms_pending ms_next ms_applied] in *.
    apply (minv_change m _ mu _ p _ n); [done|done|done|lia|done|done|done|done|done|done|done|exact Hm].
Qed.

Lemma minv_reach s : mreach s -> exists os, minv s os.
Proof.
  induction 1 as [size mts buf logSeqNum m Hcap Hlog Hm|s s' _ [os IH] Hstep]; [|by apply (minv_step s s' os)].
  destruct (memTable_init_ok size mts buf logSeqNum Hcap) as (m' & E' & HM & N1 & N2 & N3 & N4 & N5 & N6 & N7).
  rewrite E' in Hm. injection Hm as ->. exists (fun _ => []).
  assert (0 < mem_empty_size) by done.
  split; cbn [ms_mem ms_mutable ms_pending ms_next ms_applied]; rewrite ?N1, ?N2, ?N3, ?N4, ?N5, ?N6, ?N7; try done; try lia.
  constructor.
Qed.

(** ** Results *)

(** C25. A batch that has reserved room in a memtable can be applied.  In all states of a
    memtable that is in use, in which any number of batches have reserved room, batches are
    applied in any order, other sequence numbers are used in between, and spans are read:
    every batch that has reserved room is applied without an error and without a panic, the
    reference it holds on the memtable is dropped, and this is reported as the last
    reference, and the memtable as ready to be flushed, exactly if the memtable is no longer
    the mutable one and no batch has room reserved in it. *)
Theorem memtable_prepared s :
  mreach s ->
  readyForFlush (ms_mem s) = negb (ms_mutable s) && bool_decide (ms_pending s = []) /\
  forall i x, ms_pending s !! i = Some x ->
    exists m1 m2, memTable_apply (ms_mem s) (p_batch x) (p_seqNum x) = Ret (m1, None) /\
      writerUnref m1 = Ret (m2, negb (ms_mutable s) && (length (ms_pending s) =? 1)%nat).
Proof.
  intros Hr. destruct (minv_reach s Hr) as [os Hm]. split.
  - unfold readyForFlush. rewrite (mi_refs _ _ Hm). destruct (ms_mutable s); cbn [negb andb].
    + apply Z.eqb_neq. lia.
    + destruct (ms_pending s); [done|]. rewrite bool_decide_eq_false_2 by done. apply Z.eqb_neq. cbn [length]. lia.
  - intros i x Hi. destruct (minv_apply s os i x Hm Hi) as (m1 & m2 & _ & Ea & Eu & _). by exists m1, m2.
Qed.

(** C26. What a memtable shows are the batches that have been applied to it, in all states
    of a memtable that is in use.  Its points are sorted by internal key, they are exactly the points of
    these batches, with consecutive sequence numbers from the one of the batch on and
    without the log data, and its iterators are iterators over them.  To every user key
    exactly the range deletions and the range keys of these batches apply: the fragments
    that are cached are never out of date.  And the memtable counts as empty exactly if the
    batches had no entries. *)
Theorem memtable_contents s :
  mreach s ->
  let m := ms_mem s in
  (exists points, skl_entries (m_arena m) (m_skl m) = Ret points /\ ikey_sorted fst points /\
    points ≡ₚ applied (ms_applied s) index_point /\
    forall lower upper cs rs, abs_calls points (mkState lower upper PosBefore false) cs = Some rs ->
      calls (H := skl_iterator (m_arena m) (m_skl m)) (memTable_newIter m lower upper) cs = Ret rs) /\
  (exists m' spans, memTable_rangeDels m = Ret (m', spans) /\
    forall x, at_key x spans ≡ₚ at_key x (entry_span <$> applied (ms_applied s) index_rangeDel)) /\
  (exists m' spans, memTable_rangeKeys m = Ret (m', spans) /\
    forall x, at_key x spans ≡ₚ at_key x (entry_span <$> applied (ms_applied s) index_rangeKey)) /\
  memTable_empty m = Ret (bool_decide (total p_count (ms_applied s) = 0)).
Proof.
  intros Hr m. destruct (minv_reach s Hr) as [os Hm]. destruct s as [m0 mu p n d]. cbn [ms_mem ms_applied] in *. subst m.
  rename m0 into m. split; [|split; [|split]].
  - pose proof (mi_mem _ _ Hm) as HM. cbn [ms_mem ms_applied] in HM. pose proof (MemOK_skl m os _ index_point HM) as HS.
    pose proof (skls_arena _ _ (mok_skls _ _ _ HM)) as Ha. pose proof (mok_entries _ _ _ HM index_point) as Hp.
    cbn [skl_of] in HS. exists (contents (m_arena m) (os index_point)). split; [by apply skl_entries_spec|].
    split; [exact (kvs_sorted _ _ _ HS)|]. split; [done|]. intros lower upper cs rs.
    apply (simulates_calls _ (at_pos (m_arena m) (m_skl m) (os index_point))); [|apply at_pos_new].
    apply skl_simulates; [done|done|]. rewrite Hp. apply Forall_forall. intros e He.
    destruct (applied_seq m n d index_point e (proj1 (proj1 (mi_seq _ _ Hm))) (proj2 (mi_seq _ _ Hm)) (mi_applied _ _ Hm) He)
      as (_ & x & r & sq & _ & _ & -> & _ & Hok & Hs). destruct r as [[k uk] v]. destruct Hok as [Hk _].
    pose proof (proj2 (mi_seq _ _ Hm)). cbn [ms_next] in *. unfold rec_entry, MakeInternalKey, InternalKeyKindMax in *.
    cbn [fst snd Trailer]. rewrite trailer_eq by lia. change no_more with ((2 ^ 56 - 1) * 256 + 23). lia.
  - destruct (minv_rangeDels _ _ _ _ _ _ Hm) as (c & sp & E1 & _ & Ha). eexists _, sp. split; [exact E1|exact Ha].
  - destruct (minv_rangeKeys _ _ _ _ _ _ Hm) as (c & sp & E1 & _ & Ha). eexists _, sp. split; [exact E1|exact Ha].
  - rewrite memTable_empty_ok. destruct Hm. cbn [ms_mem ms_pending ms_next ms_applied] in *.
    pose proof (skls_arena _ _ (mok_skls _ _ _ mi_mem0)) as Ha. pose proof (aok_len _ Ha). pose proof (aok_n _ Ha).
    pose proof (total_nonneg p_size _ _ (p_size_nonneg m n) mi_pending0). rewrite arena_Size_ok by lia. f_equal.
    pose proof (total_count_nonneg d). case_bool_decide as Hz.
    + rewrite mi_empty0 by done. apply Z.eqb_refl.
    + apply Z.eqb_neq. lia.
Qed.
End steps.
