(* ===== verification/Flushable.v ===== *)
(** Flushable batches (flushableBatch in src/batch.go): a batch that is too large for a
    memtable takes its place, with an index of its records, and iterators over it. *)
From S2P Require Import Prelude.
From S2P Require Import Comparer.
From S2P Require Import InternalKey.
From S2P Require Import GoStd.
From S2P Require Import Keyspan.
From S2P Require Import RangeKey.
From S2P Require Import Batch.
From S2P Require Import MemTable.

Local Open Scope Z_scope.

(** All fields are uint32. *)
Record flushableBatchEntry := mkEntry {
  fe_offset : Z;
  fe_index : Z;
  fe_keyStart : Z;
  fe_keyEnd : Z;
}.

Record flushableBatch := mkFlushable {
  fb_data : bytes;
  fb_seqNum : Z;
  fb_offsets : list flushableBatchEntry;
  fb_tombstones : list Span;
  fb_rangeKeys : list Span;
}.
#[export] Instance flushableBatch_settable : Settable flushableBatch := fun b =>
  mkFlushable (fb_data b) (fb_seqNum b) (fb_offsets b) (fb_tombstones b) (fb_rangeKeys b).

(** ** Building the index *)

(** The point entries, the range deletions and the range keys. *)
Definition entries : Type :=
  list flushableBatchEntry * list flushableBatchEntry * list flushableBatchEntry.

(** The entry of a record at an offset, whose key starts at [pos] in the record.  An empty
    key is taken to be after the kind and the zero length. *)
Definition make_entry (offset index : Z) (key : bytes) (pos : nat) : flushableBatchEntry :=
  let keySize := u32 (Z.of_nat (length key)) in
  if keySize =? 0 then
    let keyStart := u32 (u32 offset + 2) in mkEntry (u32 offset) index keyStart keyStart
  else
    let keyStart := u32 (offset + Z.of_nat pos) in
    mkEntry (u32 offset) index keyStart (u32 (keyStart + keySize)).
Definition add_entry (kind : Z) (entry : flushableBatchEntry) (acc : entries) : entries :=
  let '(offsets, rangeDelOffsets, rangeKeyOffsets) := acc in
  if kind =? InternalKeyKindRangeDelete then (offsets, rangeDelOffsets ++ [entry], rangeKeyOffsets)
  else if is_rangeKey kind then (offsets, rangeDelOffsets, rangeKeyOffsets ++ [entry])
  else (offsets ++ [entry], rangeDelOffsets, rangeKeyOffsets).

(** The loop over the records; the offset of a record is its distance from the end. *)
Fixpoint index_loop (fuel : nat) (data : bytes) (iter : BatchReader) (index : Z) (acc : entries) :
    go (entries * option error) :=
  match iter, fuel with
  | [], _ => Ret (acc, None)
  | _, O => Panic "unreachable"
  | _, S fuel =>
      let offset := Z.of_nat (length data - length iter) in
      e ← BatchReader_Next iter;
      match e with
      | Done => Ret (acc, None)
      | Corrupt err => Ret (acc, Some err)
      | Entry kind key _ pos iter =>
          let acc := add_entry kind (make_entry offset index key pos) acc in
          index_loop fuel data iter (u32 (index + 1)) acc
      end
  end.

(** ** Reading through the index *)

(** [data[i:j]] *)
Definition key_at (data : bytes) (e : flushableBatchEntry) : bytes :=
  slice data (Z.to_nat (fe_keyStart e)) (Z.to_nat (fe_keyEnd e)).
Definition kind_at (data : bytes) (e : flushableBatchEntry) : Z :=
  b2z (default Byte.x00 (data !! Z.to_nat (fe_offset e))).

Definition getKey (data : bytes) (seqNum : Z) (e : flushableBatchEntry) : InternalKey :=
  MakeInternalKey (key_at data e) (u64 (seqNum + fe_index e)) (kind_at data e).

(** The value of the record, or an error that is kept in the iterator. *)
Definition value_at (data : bytes) (e : flushableBatchEntry) : go (result bytes) :=
  let p := drop (Z.to_nat (fe_offset e)) data in
  match p with
  | [] => Ret (Err (New "corrupted batch"))
  | k :: _ =>
      let kind := b2z k in
      if InternalKeyKindMax <? kind then Ret (Err (New "corrupted batch"))
      else if has_value kind then
        s ← batchDecodeStr (drop (Z.to_nat (fe_keyEnd e)) data);
        match s with
        | None => Ret (Err (New "corrupted batch"))
        | Some (_, value, _) => Ret (Ok value)
        end
      else Ret (Ok [])
  end.

Section flushable.
Context {C : Comparer} {S : Sort} {K : BatchSkl} {M : Memory}.

Definition flushable_Less (data : bytes) (ei ej : flushableBatchEntry) : bool :=
  match Compare (key_at data ei) (key_at data ej) with
  | Lt => true
  | Gt => false
  | Eq => fe_offset ej <? fe_offset ei
  end.

(** ** Iterators *)
Record flushableBatchIter := mkIter {
  it_data : bytes;
  it_seqNum : Z;                       (* of the batch *)
  it_offsets : list flushableBatchEntry;
  it_index : Z;
  it_err : option error;
  it_lower : option bytes;
  it_upper : option bytes;
}.
#[export] Instance flushableBatchIter_settable : Settable flushableBatchIter := fun i =>
  mkIter (it_data i) (it_seqNum i) (it_offsets i) (it_index i) (it_err i) (it_lower i) (it_upper i).

Definition it_len (i : flushableBatchIter) : Z := Z.of_nat (length (it_offsets i)).
Definition no_entry : flushableBatchEntry := mkEntry 0 0 0 0.
Definition entry_at (i : flushableBatchIter) (index : Z) : flushableBatchEntry :=
  nth (Z.to_nat index) (it_offsets i) no_entry.
Definition it_getKey (i : flushableBatchIter) (index : Z) : InternalKey :=
  getKey (it_data i) (it_seqNum i) (entry_at i index).

(** [value] returns nothing and sets the error of the iterator if the batch is corrupted. *)
Definition it_value (i : flushableBatchIter) : go (flushableBatchIter * bytes) :=
  v ← value_at (it_data i) (entry_at i (it_index i));
  match v with
  | Ok v => Ret (i, v)
  | Err err => Ret (i <| it_err := Some err |>, [])
  end.

Definition iter_result : Type := flushableBatchIter * option (InternalKey * bytes).

(** The end of [SeekGE], [First] and [Next], and the one of [SeekLT], [Last] and [Prev]:
    the key at the index, unless it is out of bounds. *)
Definition land_upper (i : flushableBatchIter) : go iter_result :=
  let key := it_getKey i (it_index i) in
  let out := match it_upper i with
    | Some upper => bool_decide (Compare (UserKey key) upper <> Lt)
    | None => false end in
  if out then Ret (i <| it_index := it_len i |>, None)
  else '(i, v) ← it_value i; Ret (i, Some (key, v)).
Definition land_lower (i : flushableBatchIter) : go iter_result :=
  let key := it_getKey i (it_index i) in
  let out := match it_lower i with
    | Some lower => bool_decide (Compare (UserKey key) lower = Lt)
    | None => false end in
  if out then Ret (i <| it_index := -1 |>, None)
  else '(i, v) ← it_value i; Ret (i, Some (key, v)).

Definition search (i : flushableBatchIter) (key : bytes) : Z :=
  let ikey := MakeSearchKey key in
  Z.of_nat (sort_Search (length (it_offsets i)) (fun j =>
    bool_decide (InternalCompare ikey (it_getKey i (Z.of_nat j)) <> Gt))).

Definition SeekGE (i : flushableBatchIter) (key : bytes) : go iter_result :=
  let i := i <| it_err := None |> in
  let i := i <| it_index := search i key |> in
  if it_len i <=? it_index i then Ret (i, None) else land_upper i.
Definition SeekPrefixGE (i : flushableBatchIter) (prefix key : bytes) : go iter_result := SeekGE i key.
Definition SeekLT (i : flushableBatchIter) (key : bytes) : go iter_result :=
  let i := i <| it_err := None |> in
  let i := i <| it_index := search i key - 1 |> in
  if it_index i <? 0 then Ret (i, None) else land_lower i.
Definition First (i : flushableBatchIter) : go iter_result :=
  let i := i <| it_err := None |> in
  if it_len i =? 0 then Ret (i, None) else land_upper (i <| it_index := 0 |>).
Definition Last (i : flushableBatchIter) : go iter_result :=
  let i := i <| it_err := None |> in
  if it_len i =? 0 then Ret (i, None) else land_lower (i <| it_index := it_len i - 1 |>).
Definition Next (i : flushableBatchIter) : go iter_result :=
  if it_index i =? it_len i then Ret (i, None)
  else
    let i := i <| it_index := it_index i + 1 |> in
    if it_index i =? it_len i then Ret (i, None) else land_upper i.
Definition Prev (i : flushableBatchIter) : go iter_result :=
  if it_index i <? 0 then Ret (i, None)
  else
    let i := i <| it_index := it_index i - 1 |> in
    if it_index i <? 0 then Ret (i, None) else land_lower i.
Definition NextPrefix (i : flushableBatchIter) (succKey : bytes) : go iter_result := SeekGE i succKey.
Definition iter_Valid (i : flushableBatchIter) : bool := (0 <=? it_index i) && (it_index i <? it_len i).
Definition SetBounds (i : flushableBatchIter) (lower upper : option bytes) : flushableBatchIter :=
  i <| it_lower := lower |> <| it_upper := upper |>.

(** All entries from the first one on: what a loop over the iterator sees. *)
Fixpoint iterate (fuel : nat) (r : iter_result) : go (list (InternalKey * bytes)) :=
  match r, fuel with
  | (_, None), _ => Ret []
  | _, O => Panic "unreachable"
  | (i, Some e), Datatypes.S fuel => r ← Next i; l ← iterate fuel r; Ret (e :: l)
  end.
Definition iterate_all (i : flushableBatchIter) : go (list (InternalKey * bytes)) :=
  r ← First i; iterate (Datatypes.S (length (it_offsets i))) r.

(** ** Flushable batches *)
Definition unbounded (b : flushableBatch) (offsets : list flushableBatchEntry) : flushableBatchIter :=
  mkIter (fb_data b) (fb_seqNum b) offsets (-1) None None None.

Definition newFlushableBatch (batch : Batch) : go (result flushableBatch) :=
  let data := b_data batch in
  _ ← Count batch;
  let seqNum := if (b_cap batch =? 0)%nat then 0 else (batch_SeqNum batch).2 in
  '((offsets, rangeDelOffsets, rangeKeyOffsets), err) ←
    (if (batchHeaderLen <? length data)%nat then
       let iter := drop batchHeaderLen data in
       index_loop (length iter) data iter 0 ([], [], [])
     else Ret (([], [], []), None));
  match err with
  | Some err => Ret (Err err)
  | None =>
      let sort := sort_Sort (flushable_Less data) in
      let b := mkFlushable data seqNum (sort offsets) [] [] in
      tombstones ←
        (match sort rangeDelOffsets with
         | [] => Ret []
         | l => es ← iterate_all (unbounded b l); fragmentRangeDels es
         end);
      '(rangeKeys, _) ←
        (match sort rangeKeyOffsets with
         | [] => Ret ([], None)
         | l => es ← iterate_all (unbounded b l); fragmentRangeKeys es
         end);
      Ret (Ok (b <| fb_tombstones := tombstones |> <| fb_rangeKeys := rangeKeys |>))
  end.

(** The sequence number is set later unless the batch is replayed; the fragments got
    sequence numbers from zero on. *)
Definition shift_key (seqNum : Z) (k : Key) : Key :=
  mkKey (MakeTrailer (u64 (key_SeqNum k + seqNum)) (key_Kind k)) (key_Suffix k) (key_Value k).
Definition shift_span (seqNum : Z) (s : Span) : Span :=
  mkSpan (sp_Start s) (sp_End s) (shift_key seqNum <$> sp_Keys s) (sp_KeysOrder s).
Definition flushable_setSeqNum (b : flushableBatch) (seqNum : Z) : go flushableBatch :=
  if negb (fb_seqNum b =? 0) then Panic "pebble: flushableBatch.seqNum already set"
  else Ret (b <| fb_seqNum := seqNum |>
    <| fb_tombstones := shift_span seqNum <$> fb_tombstones b |>
    <| fb_rangeKeys := shift_span seqNum <$> fb_rangeKeys b |>).

Definition flushable_newIter (b : flushableBatch) (lower upper : option bytes) : flushableBatchIter :=
  mkIter (fb_data b) (fb_seqNum b) (fb_offsets b) (-1) None lower upper.
End flushable.
