(* ===== verification/FlushableSpec.v ===== *)
(** A flushable batch (Flushable.v) shows the records of a batch the way a memtable does. *)
From S2P Require Import Prelude.
From S2P Require Import Comparer.
From S2P Require Import InternalKey.
From S2P Require Import GoStd.
From S2P Require Import Keyspan.
From S2P Require Import KeyspanSpec.
From S2P Require Import RangeKey.
From S2P Require Import RangeKeySpec.
From S2P Require Import Iterators.
From S2P Require Import Batch.
From S2P Require Import BatchSpec.
From S2P Require Import BatchRoundtrip.
From S2P Require Import MemTable.
From S2P Require Import MemTableSpec.
From S2P Require Import RecordSpans.
From S2P Require Import Flushable.
From stdpp Require Import sorting.

Local Open Scope Z_scope.

(** ** The entries of the index *)
Definition entry_of (offset : nat) (index : Z) (r : rec) : flushableBatchEntry :=
  let keyStart := Z.of_nat (offset + key_pos r) in
  mkEntry (Z.of_nat offset) index keyStart (keyStart + Z.of_nat (length r.1.2)).

(** The records with their entries. *)
Fixpoint indexed (offset : nat) (index : Z) (l : list rec) : list (rec * flushableBatchEntry) :=
  match l with
  | [] => []
  | r :: l => (r, entry_of offset index r) :: indexed (offset + length (enc_rec r)) (index + 1) l
  end.

Definition entries_of (w : which) (l : list (rec * flushableBatchEntry)) : list flushableBatchEntry :=
  snd <$> filter (fun e => rec_which e.1 = w) l.

Definition split_entries (l : list (rec * flushableBatchEntry)) : entries :=
  (entries_of index_point l, entries_of index_rangeDel l, entries_of index_rangeKey l).

Definition app_entries (a b : entries) : entries :=
  (a.1.1 ++ b.1.1, a.1.2 ++ b.1.2, a.2 ++ b.2).

Lemma entries_of_cons w r e l :
  entries_of w ((r, e) :: l) = (if decide (rec_which r = w) then [e] else []) ++ entries_of w l.
Proof. unfold entries_of. rewrite filter_cons. cbn [fst]. by case_decide. Qed.

Lemma PutUvarint_0 : PutUvarint 0 = [Byte.x00].
Proof. reflexivity. Qed.

Lemma make_entry_ok offset index r :
  Z.of_nat (offset + reserve r) < 2 ^ 32 ->
  make_entry (Z.of_nat offset) index r.1.2 (key_pos r) = entry_of offset index r.
Proof.
  intros Hl. unfold make_entry, entry_of. unfold reserve in Hl.
  rewrite (u32_small (Z.of_nat (length r.1.2))) by lia. unfold key_pos.
  destruct (Z.eqb_spec (Z.of_nat (length r.1.2)) 0) as [E|E].
  - rewrite E, PutUvarint_0. cbn [length]. rewrite (u32_small (Z.of_nat offset)), u32_small by lia.
    f_equal; lia.
  - pose proof (length_PutUvarint32 (Z.of_nat (length r.1.2))).
    rewrite !u32_small; rewrite ?u32_small; try lia. f_equal; lia.
Qed.

Lemma add_entry_ok r e acc l :
  app_entries (add_entry r.1.1 e acc) (split_entries l) = app_entries acc (split_entries ((r, e) :: l)).
Proof.
  destruct acc as [[a b] c]. unfold add_entry, app_entries, split_entries. cbn [fst snd].
  rewrite !entries_of_cons. unfold rec_which, is_rangeDel_rec, is_rangeKey_rec.
  destruct (r.1.1 =? InternalKeyKindRangeDelete), (is_rangeKey r.1.1); cbn [fst snd app];
    by rewrite <- app_assoc.
Qed.

Lemma index_loop_ok l : forall fuel pre index acc,
  Forall rec_ok l -> Z.of_nat (length pre + reserves l) < 2 ^ 32 -> (length l <= fuel)%nat ->
  0 <= index -> index + Z.of_nat (length l) < 2 ^ 32 ->
  index_loop fuel (pre ++ enc_recs l) (enc_recs l) index acc =
    Ret (app_entries acc (split_entries (indexed (length pre) index l)), None).
Proof.
  induction l as [|r l IH]; intros fuel pre index acc Hok Hl Hf Hi Hib.
  - destruct acc as [[??]?]. unfold app_entries. cbn. rewrite !app_nil_r. by destruct fuel.
  - destruct fuel as [|fuel]; [simpl in Hf; lia|]. inversion Hok; subst.
    pose proof (length_enc_recs (r :: l)) as Hlen. cbn [length indexed] in *.
    rewrite reserves_cons, enc_recs_cons in *. pose proof (length_enc_rec r) as Hr.
    pose proof (Next_enc_rec r (enc_recs l)) as Hnext. rewrite length_app in *.
    assert (length (pre ++ enc_rec r ++ enc_recs l) - length (enc_rec r ++ enc_recs l) = length pre)%nat
      as Hoff by (rewrite !length_app; lia).
    specialize (IH fuel (pre ++ enc_rec r) (index + 1)). rewrite <- app_assoc in IH.
    destruct (enc_rec r ++ enc_recs l) as [|x rest] eqn:E.
    { apply (f_equal length) in E. rewrite length_app in E. simpl in E. lia. }
    cbn [index_loop]. rewrite Hoff. rewrite Hnext by (done || lia). rewrite bind_Ret.
    rewrite make_entry_ok, u32_small, IH by (rewrite ?length_app; done || lia).
    rewrite add_entry_ok, length_app. done.
Qed.

Lemma indexed_elem l : forall offset index r e,
  (r, e) ∈ indexed offset index l ->
  exists l1 l2, l = l1 ++ r :: l2 /\
    e = entry_of (offset + length (enc_recs l1)) (index + Z.of_nat (length l1)) r.
Proof.
  induction l as [|r0 l IH]; intros offset index r e He; cbn [indexed] in He.
  - by apply not_elem_of_nil in He.
  - apply elem_of_cons in He as [[= -> ->]|He].
    + exists [], l. split; [done|]. cbn [length enc_recs fmap list_fmap concat]. f_equal; lia.
    + destruct (IH _ _ _ _ He) as (l1 & l2 & -> & ->). exists (r0 :: l1), l2. split; [done|].
      rewrite enc_recs_cons, length_app. cbn [length]. f_equal; lia.
Qed.

(** What is read through an entry is the record. *)
Lemma entry_reads pre r post e i :
  let data := pre ++ enc_rec r ++ post in
  rec_ok r -> Z.of_nat (length data) < 2 ^ 32 -> e = entry_of (length pre) i r ->
  key_at data e = r.1.2 /\ kind_at data e = r.1.1 /\ value_at data e = Ret (Ok r.2).
Proof.
  intros data Hr Hl ->. destruct r as [[kind key] value]. destruct Hr as [Hk Hv].
  unfold key_at, kind_at, value_at, entry_of, data in *. cbn [fe_offset fe_keyStart fe_keyEnd fst snd].
  rewrite <- Nat2Z.inj_add, !Nat2Z.id. unfold key_pos. cbn [fst snd].
  set (vk := PutUvarint (Z.of_nat (length key))).
  set (tl := (if has_value kind then varstr value else []) ++ post).
  assert (pre ++ enc_rec (kind, key, value) ++ post = (pre ++ z2b kind :: vk) ++ key ++ tl) as Hdata.
  { unfold enc_rec, varstr, tl. fold vk. cbn [app]. rewrite <- ?app_assoc. cbn [app].
    by rewrite <- ?app_assoc. }
  assert (length (pre ++ z2b kind :: vk) = length pre + Datatypes.S (length vk))%nat as Hpre by len.
  assert (b2z (z2b kind) = kind) as Hb.
  { rewrite b2z_z2b. apply Z.mod_small. unfold InternalKeyKindMax in Hk. lia. }
  rewrite Hdata in *. split; [|split].
  - apply slice_app_mid; [done|]. by rewrite Hpre.
  - rewrite <- app_assoc. cbn [app]. rewrite list_lookup_middle by done. done.
  - rewrite <- (app_assoc pre), drop_app_length. cbn [app]. rewrite Hb.
    rewrite (proj2 (Z.ltb_ge _ _)) by lia. destruct (has_value kind) eqn:Eh.
    + rewrite <- Hpre, <- length_app, (app_comm_cons _ _ (z2b kind)), !app_assoc, drop_app_length.
      unfold tl. rewrite batchDecodeStr_varstr; [done|]. unfold tl in Hl.
      rewrite !length_app, length_varstr_eq in Hl. lia.
    + by rewrite (Hv eq_refl).
Qed.

(** ** Iterators over entries that can be read *)
Section iter.
Context {C : Comparer} {S : Sort} {K : BatchSkl} {M : Memory}.
Context (data : bytes) (seqNum : Z) (es : list flushableBatchEntry) (val : flushableBatchEntry -> bytes).
Context (Hval : Forall (fun e => value_at data e = Ret (Ok (val e))) es).

Definition kv (e : flushableBatchEntry) : InternalKey * bytes := (getKey data seqNum e, val e).

(** An iterator over the entries. *)
Definition over (i : flushableBatchIter) : Prop :=
  it_data i = data /\ it_seqNum i = seqNum /\ it_offsets i = es.

Lemma over_len i : over i -> it_len i = Z.of_nat (length es).
Proof. intros (_ & _ & H). unfold it_len. by rewrite H. Qed.

Lemma entry_at_ok i j e : over i -> es !! j = Some e -> entry_at i (Z.of_nat j) = e.
Proof.
  intros (_ & _ & Ho) Hj. unfold entry_at. rewrite Nat2Z.id, Ho. by apply nth_lookup_Some.
Qed.
Lemma it_getKey_ok i j e : over i -> es !! j = Some e -> it_getKey i (Z.of_nat j) = (kv e).1.
Proof.
  intros Ho Hj. unfold it_getKey. rewrite (entry_at_ok i j e Ho Hj).
  destruct Ho as (-> & -> & _). done.
Qed.
Lemma it_value_ok i j e :
  over i -> es !! j = Some e -> it_index i = Z.of_nat j -> it_value i = Ret (i, (kv e).2).
Proof.
  intros Ho Hj Hi. unfold it_value. rewrite Hi, (entry_at_ok i j e Ho Hj).
  destruct Ho as (-> & _ & _). rewrite Forall_forall in Hval.
  rewrite Hval; [done|]. by apply list_elem_of_lookup_2 in Hj.
Qed.

Lemma land_upper_ok i j e :
  over i -> es !! j = Some e -> it_index i = Z.of_nat j ->
  land_upper i = Ret (if above (it_upper i) (kv e).1 then (i <| it_index := it_len i |>, None)
                      else (i, Some (kv e))).
Proof.
  intros Ho Hj Hi. unfold land_upper. rewrite Hi, (it_getKey_ok i j e Ho Hj).
  fold (above (it_upper i) (kv e).1). destruct (above (it_upper i) (kv e).1); [done|].
  rewrite (it_value_ok i j e) by done. by rewrite bind_Ret.
Qed.
Lemma land_lower_ok i j e :
  over i -> es !! j = Some e -> it_index i = Z.of_nat j ->
  land_lower i = Ret (if below (it_lower i) (kv e).1 then (i <| it_index := -1 |>, None)
                      else (i, Some (kv e))).
Proof.
  intros Ho Hj Hi. unfold land_lower. rewrite Hi, (it_getKey_ok i j e Ho Hj).
  fold (below (it_lower i) (kv e).1). destruct (below (it_lower i) (kv e).1); [done|].
  rewrite (it_value_ok i j e) by done. by rewrite bind_Ret.
Qed.

(** A loop with [Next] sees the rest of the entries. *)
Lemma iterate_ok fuel : forall i j e,
  over i -> it_upper i = None -> es !! j = Some e -> it_index i = Z.of_nat j ->
  (length es - j <= fuel)%nat ->
  iterate fuel (i, Some (kv e)) = Ret (kv <$> drop j es).
Proof.
  induction fuel as [|fuel IH]; intros i j e Ho Hu Hj Hi Hf; pose proof (lookup_lt_Some _ _ _ Hj) as Hlt; [lia|].
  cbn [iterate]. unfold Next. rewrite Hi, (over_len i Ho).
  rewrite (proj2 (Z.eqb_neq _ _)) by lia.
  set (i' := i <| it_index := Z.of_nat j + 1 |>). change (it_index i') with (Z.of_nat j + 1).
  assert (over i') as Ho' by done. change (it_len i') with (it_len i). rewrite (over_len i Ho).
  rewrite (drop_S es e j) by done. rewrite fmap_cons.
  destruct (Z.eqb_spec (Z.of_nat j + 1) (Z.of_nat (length es))) as [E|E].
  - rewrite bind_Ret. rewrite (drop_ge es (Datatypes.S j)) by lia. by destruct fuel.
  - destruct (lookup_lt_is_Some_2 es (Datatypes.S j)) as [e' He']; [lia|].
    rewrite (land_upper_ok i' (Datatypes.S j) e') by (done || (cbn; lia)).
    change (it_upper i') with (it_upper i). rewrite Hu. cbn [above]. rewrite bind_Ret.
    rewrite (IH i' (Datatypes.S j) e') by (done || lia || (cbn; lia)). by rewrite bind_Ret.
Qed.

Lemma iterate_all_ok i :
  over i -> it_upper i = None -> iterate_all i = Ret (kv <$> es).
Proof.
  intros Ho Hu. unfold iterate_all, First.
  set (i' := i <| it_err := None |>). assert (over i') as Ho' by done.
  change (it_len i') with (it_len i). rewrite (over_len i Ho).
  destruct (es !! 0%nat) as [e|] eqn:E.
  - pose proof (lookup_lt_Some _ _ _ E). rewrite (proj2 (Z.eqb_neq _ _)) by lia.
    set (i'' := i' <| it_index := 0 |>).
    rewrite (land_upper_ok i'' 0 e) by done.
    change (it_upper i'') with (it_upper i). rewrite Hu. cbn [above]. rewrite bind_Ret.
    rewrite (iterate_ok _ i'' 0 e); try done. destruct Ho as (_ & _ & ->). lia.
  - apply lookup_ge_None in E. assert (es = []) as -> by (apply length_zero_iff_nil; lia). done.
Qed.
End iter.

(** ** The order of the entries *)

Lemma StronglySorted_strict {B} (R R' : B -> B -> Prop) l :
  (forall x y, x ∈ l -> y ∈ l -> R x y -> x <> y -> R' x y) ->
  NoDup l -> StronglySorted R l -> StronglySorted R' l.
Proof.
  intros HR Hn Hs. induction Hs as [|x l Hs IH Hx]; [constructor|].
  apply NoDup_cons in Hn as [Hn1 Hn2]. constructor.
  - apply IH; [|done]. intros y z Hy Hz. apply HR; by apply list_elem_of_further.
  - rewrite Forall_forall in *. intros y Hy. apply HR.
    + apply list_elem_of_here.
    + by apply list_elem_of_further.
    + by apply Hx.
    + by intros ->.
Qed.

Lemma indexed_rec_ok l offset index :
  Forall rec_ok l -> Forall (fun e => rec_ok e.1) (indexed offset index l).
Proof.
  intros Hok. revert offset index. induction Hok as [|r l Hr _ IH]; intros offset index; cbn [indexed]; constructor; auto.
Qed.

(** Offsets and indexes grow together. *)
Lemma indexed_mono l : forall offset index,
  Z.of_nat (reserves l) < 2 ^ 32 ->
  StronglySorted (fun x y => fe_offset x.2 < fe_offset y.2 /\ fe_index x.2 < fe_index y.2)
    (indexed offset index l) /\
  Forall (fun e => Z.of_nat offset <= fe_offset e.2 /\
    index <= fe_index e.2 < index + Z.of_nat (length l)) (indexed offset index l).
Proof.
  induction l as [|r l IH]; intros offset index Hl; cbn [indexed].
  { split; constructor. }
  rewrite reserves_cons in Hl. pose proof (length_enc_rec r).
  destruct (IH (offset + length (enc_rec r))%nat (index + 1)) as [H1 H2]; [lia|].
  split; constructor; try done.
  - eapply Forall_impl; [exact H2|]. intros [r' e']. cbn [fst snd entry_of fe_offset fe_index]. lia.
  - cbn [fst snd entry_of fe_offset fe_index length]. lia.
  - eapply Forall_impl; [exact H2|]. intros [r' e']. cbn [fst snd length]. lia.
Qed.

Lemma StronglySorted_pair {B} (R : B -> B -> Prop) l x y :
  StronglySorted R l -> x ∈ l -> y ∈ l -> x = y \/ R x y \/ R y x.
Proof.
  induction 1 as [|z l Hs IH Hz]; intros Hx Hy; [by apply not_elem_of_nil in Hx|].
  rewrite Forall_forall in Hz. apply elem_of_cons in Hx as [->|Hx]; apply elem_of_cons in Hy as [->|Hy]; auto.
Qed.

Lemma StronglySorted_fmap_inv {B D} (f : B -> D) (R : D -> D -> Prop) l :
  StronglySorted R (f <$> l) -> StronglySorted (fun x y => R (f x) (f y)) l.
Proof.
  induction l as [|x l IH]; intros Hs; [constructor|]. inversion Hs; subst.
  constructor; [auto|]. by apply Forall_fmap.
Qed.

Lemma weak_order_Less {C : Comparer} {L : ComparerLaws C} data : weak_order (flushable_Less data).
Proof.
  unfold flushable_Less. split.
  - intros x. by rewrite compare_refl, Z.ltb_irrefl.
  - intros x y z. destruct (Compare (key_at data x) (key_at data y)) eqn:E1; [| |done].
    + apply compare_eq in E1 as ->. destruct (Compare (key_at data y) (key_at data z)); [|done..].
      rewrite !Z.ltb_lt. lia.
    + destruct (Compare (key_at data y) (key_at data z)) eqn:E2; [| |done].
      * apply compare_eq in E2 as <-. by rewrite E1.
      * by rewrite (compare_trans _ _ _ E1 E2).
  - intros x y z. rewrite (compare_antisym (key_at data x) (key_at data y)),
      (compare_antisym (key_at data y) (key_at data z)), (compare_antisym (key_at data x) (key_at data z)).
    destruct (Compare (key_at data x) (key_at data y)) eqn:E1; cbn [CompOpp]; [| |done].
    + apply compare_eq in E1 as ->.
      destruct (Compare (key_at data y) (key_at data z)); cbn [CompOpp]; [|done..].
      rewrite !Z.ltb_ge. lia.
    + intros _. destruct (Compare (key_at data y) (key_at data z)) eqn:E2; cbn [CompOpp]; [| |done].
      * apply compare_eq in E2 as <-. by rewrite E1.
      * by rewrite (compare_trans _ _ _ E1 E2).
Qed.

Section index.
Context {C : Comparer} {L : ComparerLaws C} {S : Sort} {SL : SortLaws S}.
Context (hdr : bytes) (l : list rec) (seqNum : Z).
Context (Hok : Forall rec_ok l) (Hfit : Z.of_nat (length hdr + reserves l) < 2 ^ 32).
Context (Hseq : 0 <= seqNum) (Hseqb : seqNum + Z.of_nat (length l) < 2 ^ 56).
Let data := hdr ++ enc_recs l.
Let ix := indexed (length hdr) 0 l.

(** What is read through the entry of a record. *)
Definition item (x : rec * flushableBatchEntry) : InternalKey * bytes :=
  (MakeInternalKey x.1.1.2 (seqNum + fe_index x.2) x.1.1.1, x.1.2).

Lemma index_reads r e :
  (r, e) ∈ ix ->
  key_at data e = r.1.2 /\ getKey data seqNum e = (item (r, e)).1 /\ value_at data e = Ret (Ok r.2).
Proof.
  intros He. pose proof (indexed_rec_ok l (length hdr) 0 Hok) as Hro. rewrite Forall_forall in Hro.
  destruct (indexed_mono l (length hdr) 0) as [_ Hm]; [lia|]. rewrite Forall_forall in Hm.
  specialize (Hro _ He). specialize (Hm _ He). cbn [fst snd] in *.
  destruct (indexed_elem _ _ _ _ _ He) as (l1 & l2 & El & Ee).
  pose proof (length_enc_recs l) as Hlen.
  assert (data = (hdr ++ enc_recs l1) ++ enc_rec r ++ enc_recs l2) as Hd.
  { unfold data. rewrite El, enc_recs_app, enc_recs_cons. by rewrite app_assoc. }
  assert (length data = length hdr + length (enc_recs l))%nat as Hdl by apply length_app.
  rewrite Hd in *. rewrite <- length_app in Ee.
  destruct (entry_reads (hdr ++ enc_recs l1) r (enc_recs l2) e _ Hro ltac:(lia) Ee) as (H1 & H2 & H3).
  split; [done|]. split; [|done]. unfold getKey, item. rewrite H1, H2, u64_small by lia. done.
Qed.

Lemma item_trailer r e : (r, e) ∈ ix ->
  Trailer (item (r, e)).1 = (seqNum + fe_index e) * 256 + r.1.1.
Proof.
  intros He. pose proof (indexed_rec_ok l (length hdr) 0 Hok) as Hro. rewrite Forall_forall in Hro.
  destruct (indexed_mono l (length hdr) 0) as [_ Hm]; [lia|]. rewrite Forall_forall in Hm.
  specialize (Hro _ He). specialize (Hm _ He). destruct r as [[k uk] v]. cbn [fst snd] in *.
  destruct Hro as [Hk _]. unfold InternalKeyKindMax in Hk.
  unfold item, MakeInternalKey. cbn [fst snd Trailer]. apply trailer_eq; lia.
Qed.

Lemma index_pair x y :
  x ∈ ix -> y ∈ ix ->
  x = y \/ fe_offset x.2 < fe_offset y.2 /\ Trailer (item x).1 < Trailer (item y).1 \/
  fe_offset y.2 < fe_offset x.2 /\ Trailer (item y).1 < Trailer (item x).1.
Proof.
  intros Hx Hy. destruct (indexed_mono l (length hdr) 0) as [Hs _]; [lia|].
  pose proof (indexed_rec_ok l (length hdr) 0 Hok) as Hro. rewrite Forall_forall in Hro.
  pose proof (Hro _ Hx) as Hkx. pose proof (Hro _ Hy) as Hky.
  destruct x as [[[kx ux] vx] ex], y as [[[ky uy] vy] ey].
  rewrite (item_trailer _ _ Hx), (item_trailer _ _ Hy). cbn [fst snd rec_ok] in *.
  unfold InternalKeyKindMax in *.
  destruct (StronglySorted_pair _ _ _ _ Hs Hx Hy) as [E|[E|E]]; [by left|..]; cbn [fst snd] in E; lia.
Qed.

(** The order of the index is the order of the internal keys. *)
Lemma Less_items x y :
  x ∈ ix -> y ∈ ix -> x <> y -> flushable_Less data y.2 x.2 = false ->
  InternalCompare (item x).1 (item y).1 = Lt.
Proof.
  intros Hx Hy Hne. destruct x as [rx ex], y as [ry ey]. unfold flushable_Less. cbn [snd].
  destruct (index_reads rx ex Hx) as (-> & _), (index_reads ry ey Hy) as (-> & _).
  rewrite InternalCompare_lt. cbn [item fst snd MakeInternalKey UserKey].
  rewrite (compare_antisym rx.1.2 ry.1.2). destruct (Compare rx.1.2 ry.1.2) eqn:E; cbn [CompOpp]; [|auto|done].
  apply compare_eq in E. rewrite Z.ltb_ge. intros Ho. right. split; [done|].
  destruct (index_pair _ _ Hx Hy) as [?|[?|?]]; cbn [snd] in *; [done|lia|].
  unfold item, MakeInternalKey in *. cbn [fst snd Trailer] in *. lia.
Qed.

Lemma NoDup_ix : NoDup ix.
Proof.
  destruct (indexed_mono l (length hdr) 0) as [Hs _]; [lia|]. unfold ix.
  induction Hs as [|x xs Hs IH Hx]; [constructor|]. constructor; [|done].
  intros Hin. rewrite Forall_forall in Hx. specialize (Hx _ Hin). lia.
Qed.

(** Sorting the entries of a skiplist. *)
Lemma sorted_entries w :
  exists xs, sort_Sort (flushable_Less data) (entries_of w ix) = snd <$> xs /\
    xs ≡ₚ filter (fun x => rec_which x.1 = w) ix /\ ikey_sorted (fun x => (item x).1) xs.
Proof.
  pose proof (sort_perm (flushable_Less data) (entries_of w ix)) as Hp.
  pose proof (sort_sorted (flushable_Less data) (entries_of w ix) (weak_order_Less data)) as Hs.
  unfold entries_of in *. destruct (Permutation_map_inv _ _ Hp) as (xs & E & Hxs).
  exists xs. split; [done|]. split; [done|]. rewrite E in Hs. unfold sorted_by in Hs.
  apply (StronglySorted_fmap_inv snd) in Hs.
  assert (forall x, x ∈ xs -> x ∈ ix) as Hin.
  { intros x Hx. rewrite <- Hxs in Hx. by apply list_elem_of_filter in Hx as [_ Hx]. }
  eapply StronglySorted_strict; [| |exact Hs].
  - intros x y Hx Hy Hless Hne. apply Less_items; auto.
  - rewrite <- Hxs. apply NoDup_filter, NoDup_ix.
Qed.

(** A loop over the sorted entries of a skiplist. *)
Lemma iterate_entries w i xs :
  sort_Sort (flushable_Less data) (entries_of w ix) = snd <$> xs ->
  xs ≡ₚ filter (fun x => rec_which x.1 = w) ix ->
  it_data i = data -> it_seqNum i = seqNum -> it_upper i = None ->
  it_offsets i = sort_Sort (flushable_Less data) (entries_of w ix) ->
  iterate_all i = Ret (item <$> xs).
Proof.
  intros E Hxs Hd Hs Hu Ho.
  assert (forall x, x ∈ xs -> x ∈ ix) as Hin.
  { intros x Hx. rewrite Hxs in Hx. by apply list_elem_of_filter in Hx as [_ Hx]. }
  set (val := fun e => match value_at data e with Ret (Ok v) => v | _ => [] end).
  rewrite (iterate_all_ok data seqNum (snd <$> xs) val); [|..].
  - f_equal. rewrite <- list_fmap_compose. apply list_fmap_ext. intros n [r e] Hn.
    apply list_elem_of_lookup_2 in Hn. destruct (index_reads r e (Hin _ Hn)) as (_ & H2 & H3).
    cbn [compose snd]. unfold kv, val. rewrite H2, H3. done.
  - apply Forall_fmap, Forall_forall. intros [r e] Hx. cbn [compose snd].
    destruct (index_reads r e (Hin _ Hx)) as (_ & _ & H3). unfold val. by rewrite H3.
  - unfold over. by rewrite Hd, Hs, Ho, E.
  - done.
Qed.
End index.
