(* ===== verification/FlushableEquiv.v ===== *)
(** A batch shown by a flushable batch (Flushable.v) and by a memtable it has been applied
    to (MemTable.v): the same entries and the same spans, unless it has log data. *)
From S2P Require Import Prelude.
From S2P Require Import Comparer.
From S2P Require Import InternalKey.
From S2P Require Import GoStd.
From S2P Require Import Keyspan.
From S2P Require Import KeyspanSpec.
From S2P Require Import RangeKey.
From S2P Require Import RangeKeySpec.
From S2P Require Import Iterators.
From S2P Require Import Arenaskl.
From S2P Require Import ArenasklAdd.
From S2P Require Import ArenasklRun.
From S2P Require Import ArenasklIter.
From S2P Require Import Batch.
From S2P Require Import BatchSpec.
From S2P Require Import BatchRoundtrip.
From S2P Require Import MemTable.
From S2P Require Import MemTableSpec.
From S2P Require Import RecordSpans.
From S2P Require Import MemTableSteps.
From S2P Require Import Flushable.
From S2P Require Import FlushableSpec.
From stdpp Require Import sorting.

Local Open Scope Z_scope.

(** ** The spans of records *)

(** Raising the sequence number of a span. *)
Lemma shift_span_of r p i seqNum :
  rec_ok r -> 0 <= i -> 0 <= seqNum -> seqNum + i < 2 ^ 56 ->
  shift_span seqNum (span_of r p i) = span_of r p (seqNum + i).
Proof.
  intros Hr Hi Hs Hb. destruct r as [[k uk] v]. destruct Hr as [Hk _]. unfold InternalKeyKindMax in Hk.
  set (key := mkKey (MakeTrailer i k) p.1.2 p.2).
  assert (key_SeqNum key = i /\ key_Kind key = k) as [E1 E2].
  { split; [exact (SeqNum_Make uk i k ltac:(lia) ltac:(lia))|exact (Kind_Make uk i k ltac:(lia) ltac:(lia))]. }
  unfold shift_span, span_of. cbn [sp_Start sp_End sp_Keys sp_KeysOrder fst snd]. fold key.
  cbn [fmap list_fmap]. unfold shift_key. rewrite E1, E2, u64_small by lia.
  by rewrite (Z.add_comm i).
Qed.

Lemma Contains_shift {C : Comparer} seqNum s x : Contains (shift_span seqNum s) x = Contains s x.
Proof. done. Qed.

Lemma at_key_shift {C : Comparer} seqNum l x :
  at_key x (shift_span seqNum <$> l) = shift_key seqNum <$> at_key x l.
Proof.
  induction l as [|s l IH]; [done|]. rewrite fmap_cons, !at_key_cons, fmap_app, IH, Contains_shift.
  by destruct (Contains s x).
Qed.

Section spans.
Context {C : Comparer} {L : ComparerLaws C} {S : Sort} {SL : SortLaws S}.
Context (hdr : bytes) (l : list rec).
Context (Hok : Forall rec_ok l) (Hfit : Z.of_nat (length hdr + reserves l) < 2 ^ 32).
Let ix := indexed (length hdr) 0 l.

Definition span_at (seqNum : Z) (x : rec * flushableBatchEntry) : Span :=
  span_of x.1 (parts_of x.1) (seqNum + fe_index x.2).

(** The spans of a kind. *)
Definition spans_for (w : which) (seqNum : Z) : list Span :=
  span_at seqNum <$> filter (fun x => rec_which x.1 = w) ix.

Lemma by_start_items seqNum xs :
  ikey_sorted (fun x => (item seqNum x).1) xs -> by_start (span_at seqNum <$> xs).
Proof.
  unfold by_start, ikey_sorted. induction 1 as [|x xs Hs IH Hx]; [constructor|].
  rewrite fmap_cons. constructor; [done|]. apply Forall_fmap. eapply Forall_impl; [exact Hx|].
  intros y Hy. cbn. apply InternalCompare_lt in Hy. cbn in Hy.
  destruct Hy as [->|[-> _]]; [done|]. by rewrite compare_refl.
Qed.

(** Fragments of the spans of a kind, in the order of the index. *)
Lemma fragment_for w seqNum xs :
  xs ≡ₚ filter (fun x => rec_which x.1 = w) ix -> ikey_sorted (fun x => (item seqNum x).1) xs ->
  exists out, fragment (span_at seqNum <$> xs) = Ret out /\ chain [] out /\
    forall x, at_key x out ≡ₚ at_key x (spans_for w seqNum).
Proof.
  intros Hp Hs. destruct (fragment_ok (span_at seqNum <$> xs)) as (out & E & Hc & Ha).
  - by apply by_start_items.
  - apply Forall_fmap, Forall_true. done.
  - exists out. split; [done|]. split; [done|]. intros x. rewrite Ha. unfold spans_for. by rewrite Hp.
Qed.

(** Giving the batch its sequence number afterwards. *)
Lemma shift_spans w seqNum out :
  0 <= seqNum -> seqNum + Z.of_nat (length l) < 2 ^ 56 ->
  (forall x, at_key x out ≡ₚ at_key x (spans_for w 0)) ->
  forall x, at_key x (shift_span seqNum <$> out) ≡ₚ at_key x (spans_for w seqNum).
Proof.
  intros Hs Hb Ha x. rewrite at_key_shift, Ha, <- at_key_shift.
  replace (shift_span seqNum <$> spans_for w 0) with (spans_for w seqNum); [done|].
  unfold spans_for. rewrite <- list_fmap_compose. apply list_fmap_ext. intros n y Hy.
  apply list_elem_of_lookup_2, list_elem_of_filter in Hy as [_ Hy].
  pose proof (indexed_rec_ok l (length hdr) 0 Hok) as Hro. rewrite Forall_forall in Hro.
  destruct (indexed_mono l (length hdr) 0) as [_ Hm]; [lia|]. rewrite Forall_forall in Hm.
  specialize (Hm _ Hy). cbn [compose]. unfold span_at. rewrite Z.add_0_l.
  rewrite shift_span_of; [done|by apply Hro|lia..].
Qed.

(** The items of the range deletions and of the range keys decode to the spans. *)
Lemma decode_rangeDels xs seqNum :
  (forall x, x ∈ xs -> x ∈ ix) -> Forall (fun x => rec_which x.1 = index_rangeDel) xs ->
  (fun e => rangedel_Decode e.1 e.2 []) <$> (item seqNum <$> xs) = span_at seqNum <$> xs.
Proof.
  intros _ Hw. rewrite <- list_fmap_compose. apply list_fmap_ext. intros n x Hx.
  apply list_elem_of_lookup_2 in Hx. rewrite Forall_forall in Hw. specialize (Hw x Hx).
  unfold rec_which in Hw. destruct (is_rangeDel_rec x.1) eqn:E; [|by destruct (is_rangeKey_rec x.1)].
  cbn [compose]. unfold span_at, span_of, parts_of. rewrite E. done.
Qed.

Lemma decode_rangeKeys xs seqNum :
  Forall decodes l -> 0 <= seqNum -> seqNum + Z.of_nat (length l) < 2 ^ 56 ->
  xs ≡ₚ filter (fun x => rec_which x.1 = index_rangeKey) ix ->
  Forall (fun x => RangeKey.Decode (item seqNum x).1 (item seqNum x).2 [] = Ret (Ok (span_at seqNum x))) xs.
Proof.
  intros Hd Hs Hb Hp. apply Forall_forall. intros [r e] Hx. rewrite Hp in Hx.
  apply list_elem_of_filter in Hx as [Hw Hx]. cbn [fst] in Hw.
  destruct (indexed_mono l (length hdr) 0) as [_ Hm]; [lia|]. rewrite Forall_forall in Hm.
  specialize (Hm _ Hx). destruct (indexed_elem _ _ _ _ _ Hx) as (l1 & l2 & El & _).
  rewrite Forall_forall in Hd. cbn [fst snd] in Hm. apply (Hd r).
  - rewrite El. apply elem_of_app. right. apply list_elem_of_here.
  - unfold rec_which in Hw. destruct (is_rangeDel_rec r); [done|]. by destruct (is_rangeKey_rec r).
  - cbn [fst snd]. lia.
Qed.
End spans.

(** ** Making a flushable batch *)
Section make.
Context {C : Comparer} {L : ComparerLaws C} {S : Sort} {SL : SortLaws S} {K : BatchSkl} {M : Memory}.
Context (b : Batch) (l : list rec) (hdr : bytes).
Context (HI : Inv b l) (Hh : length hdr = batchHeaderLen) (Hd : b_data b = hdr ++ enc_recs l).
Context (Hdec : Forall decodes l) (Hlen : Z.of_nat (length l) < 2 ^ 56).

Lemma make_fit : Z.of_nat (length hdr + reserves l) < 2 ^ 32.
Proof. pose proof (inv_fits _ _ HI) as Hf. rewrite Hh. unfold maxBatchSize in Hf. lia. Qed.

Lemma make_index :
  (if (batchHeaderLen <? length (b_data b))%nat then
     index_loop (length (drop batchHeaderLen (b_data b))) (b_data b) (drop batchHeaderLen (b_data b))
       0 ([], [], [])
   else Ret (([], [], []), None)) = Ret (split_entries (indexed (length hdr) 0 l), None).
Proof.
  pose proof make_fit as Hfit. pose proof (length_recs l). pose proof (length_reserves l).
  rewrite Hd, length_app, Hh. destruct (Nat.ltb_spec batchHeaderLen (batchHeaderLen + length (enc_recs l))).
  - rewrite drop_app_length' by done. rewrite <- Hh.
    rewrite index_loop_ok; [done|apply (inv_ok _ _ HI)|lia..].
  - assert (l = []) as -> by (apply length_zero_iff_nil; lia). done.
Qed.

Lemma make_seqNum : (if (b_cap b =? 0)%nat then 0 else (batch_SeqNum b).2) = 0.
Proof.
  destruct (b_cap b =? 0)%nat; [done|]. unfold batch_SeqNum, seqNumData. cbn [snd].
  destruct (ensure_init_ok b batchHeaderLen) as [cap ->]. change (b_data _) with (base b).
  rewrite (inv_seqNum _ _ HI). reflexivity.
Qed.

(** One kind of spans: an iterator over its entries, and the fragments of what it returns. *)
Lemma make_spans w (fb : flushableBatch) :
  fb_data fb = b_data b -> fb_seqNum fb = 0 ->
  exists xs, sort_Sort (flushable_Less (b_data b)) (entries_of w (indexed (length hdr) 0 l)) = snd <$> xs /\
    xs ≡ₚ filter (fun x => rec_which x.1 = w) (indexed (length hdr) 0 l) /\
    ikey_sorted (fun x => (item 0 x).1) xs /\
    iterate_all (unbounded fb (snd <$> xs)) = Ret (item 0 <$> xs).
Proof.
  intros Hfd Hfs. pose proof make_fit as Hfit.
  destruct (sorted_entries hdr l 0 (inv_ok _ _ HI) Hfit ltac:(lia) ltac:(lia) w) as (xs & E & Hp & Hs).
  rewrite <- Hd in E. exists xs. split; [done|]. split; [done|]. split; [done|].
  rewrite Hd in *. apply (iterate_entries hdr l 0 (inv_ok _ _ HI) Hfit ltac:(lia) ltac:(lia) w); done.
Qed.

Lemma newFlushableBatch_ok :
  exists fb, newFlushableBatch b = Ret (Ok fb) /\ fb_data fb = b_data b /\ fb_seqNum fb = 0 /\
    fb_offsets fb = sort_Sort (flushable_Less (b_data b)) (entries_of index_point (indexed (length hdr) 0 l)) /\
    (forall x, at_key x (fb_tombstones fb) ≡ₚ at_key x (spans_for hdr l index_rangeDel 0)) /\
    (forall x, at_key x (fb_rangeKeys fb) ≡ₚ at_key x (spans_for hdr l index_rangeKey 0)).
Proof.
  pose proof make_fit as Hfit. unfold newFlushableBatch.
  rewrite (Inv_Count b l HI), bind_Ret, make_seqNum.
  pose proof make_index as Hix. unfold entries in Hix. rewrite Hix, bind_Ret. clear Hix. unfold split_entries.
  set (sort := sort_Sort _). set (fb0 := mkFlushable _ _ _ _ _).
  destruct (make_spans index_rangeDel fb0 eq_refl eq_refl) as (xs & E1 & E2 & E3 & E4).
  destruct (make_spans index_rangeKey fb0 eq_refl eq_refl) as (ys & F1 & F2 & F3 & F4).
  fold sort in E1, F1. rewrite E1, F1.
  destruct (fragment_for hdr l index_rangeDel 0 xs E2 E3) as (out & G1 & _ & G2).
  destruct (fragment_for hdr l index_rangeKey 0 ys F2 F3) as (outk & G3 & _ & G4).
  assert (exists t, (match snd <$> xs with
      | [] => Ret []
      | l => es ← iterate_all (unbounded fb0 l); fragmentRangeDels es end) = Ret t /\
    forall x, at_key x t ≡ₚ at_key x (spans_for hdr l index_rangeDel 0)) as (t & -> & Ht).
  { destruct xs as [|y xs'].
    - exists []. split; [done|]. intros x. unfold spans_for. by rewrite <- E2.
    - exists out. split; [|done].
      transitivity (es ← iterate_all (unbounded fb0 (snd <$> y :: xs')); fragmentRangeDels es); [done|].
      rewrite E4, bind_Ret. unfold fragmentRangeDels. rewrite (decode_rangeDels hdr l (y :: xs') 0); [done| |].
      + intros z Hz. rewrite E2 in Hz. by apply list_elem_of_filter in Hz as [_ ?].
      + apply Forall_forall. intros z Hz. rewrite E2 in Hz. by apply list_elem_of_filter in Hz as [? _]. }
  assert (exists t, (match snd <$> ys with
      | [] => Ret ([], None)
      | l => es ← iterate_all (unbounded fb0 l); fragmentRangeKeys es end) = Ret (t, None) /\
    forall x, at_key x t ≡ₚ at_key x (spans_for hdr l index_rangeKey 0)) as (tk & -> & Htk).
  { destruct ys as [|y ys'].
    - exists []. split; [done|]. intros x. unfold spans_for. by rewrite <- F2.
    - exists outk. split; [|done].
      transitivity (es ← iterate_all (unbounded fb0 (snd <$> y :: ys')); fragmentRangeKeys es); [done|].
      rewrite F4, bind_Ret. apply (fragmentRangeKeys_ok _ (span_at 0)); [|done].
      by apply (decode_rangeKeys hdr l Hfit (y :: ys') 0). }
  rewrite !bind_Ret. eexists. split; [done|]. repeat split; done.
Qed.
End make.

(** ** The memtable *)
Section memtable.
Context {C : Comparer} {L : ComparerLaws C} {S : Sort} {SL : SortLaws S} {K : BatchSkl} {M : Memory} {AE : ArenaEnv}.

(** Without log data both number the records the same way. *)
Lemma numbered_indexed l seqNum w : forall offset index,
  Forall (fun r => in_memtable r = true) l ->
  entries_for w (numbered (seqNum + index) l) =
    item seqNum <$> filter (fun x => rec_which x.1 = w) (indexed offset index l).
Proof.
  induction l as [|r l IH]; intros offset index Hl; [done|].
  apply Forall_cons in Hl as [Hr Hl]. cbn [numbered indexed]. rewrite Hr.
  unfold entries_for in *. rewrite !filter_cons. cbn [fst snd].
  rewrite <- Z.add_assoc. specialize (IH (offset + length (enc_rec r))%nat (index + 1) Hl).
  case_decide; [|done]. rewrite !fmap_cons, IH. done.
Qed.

(** The entries of a flushable batch with a sequence number. *)
Lemma flushable_points hdr l seqNum (fb : flushableBatch) :
  Forall rec_ok l -> Z.of_nat (length hdr + reserves l) < 2 ^ 32 ->
  0 <= seqNum -> seqNum + Z.of_nat (length l) < 2 ^ 56 ->
  fb_data fb = hdr ++ enc_recs l -> fb_seqNum fb = seqNum ->
  fb_offsets fb = sort_Sort (flushable_Less (hdr ++ enc_recs l)) (entries_of index_point (indexed (length hdr) 0 l)) ->
  exists es, iterate_all (flushable_newIter fb None None) = Ret es /\ ikey_sorted fst es /\
    es ≡ₚ item seqNum <$> filter (fun x => rec_which x.1 = index_point) (indexed (length hdr) 0 l).
Proof.
  intros Hok Hfit Hs Hsb Hd Hsn Ho.
  destruct (sorted_entries hdr l seqNum Hok Hfit Hs Hsb index_point) as (xs & E & Hxs & Hsort).
  exists (item seqNum <$> xs). split; [|split; [by apply ikey_sorted_fmap|by rewrite Hxs]].
  by apply (iterate_entries hdr l seqNum Hok Hfit Hs Hsb index_point).
Qed.

(** The flushable batch of a sequence of operations. *)
Lemma flushable_of_ops ops seqNum :
  ops_fit ops -> ops <> [] -> 0 <= seqNum -> seqNum + Z.of_nat (length ops) < 2 ^ 56 ->
  let l := op_record <$> ops in
  exists b fb0 fb hdr, do_ops (newBatch true) ops = Ret (b, None) /\ Inv b l /\
    newFlushableBatch b = Ret (Ok fb0) /\ flushable_setSeqNum fb0 seqNum = Ret fb /\
    Forall decodes l /\ Z.of_nat (length hdr + reserves l) < 2 ^ 32 /\
    fb_data fb = hdr ++ enc_recs l /\ fb_seqNum fb = seqNum /\
    fb_offsets fb =
      sort_Sort (flushable_Less (hdr ++ enc_recs l)) (entries_of index_point (indexed (length hdr) 0 l)) /\
    (forall x, at_key x (fb_tombstones fb) ≡ₚ at_key x (spans_for hdr l index_rangeDel seqNum)) /\
    (forall x, at_key x (fb_rangeKeys fb) ≡ₚ at_key x (spans_for hdr l index_rangeKey seqNum)).
Proof.
  intros Hfit Hne Hs Hsb l.
  destruct (do_ops_ok ops (newBatch true) [] (Inv_newBatch true) Hfit) as (b & Eb & HI & _).
  cbn [app] in HI. fold l in HI. assert (length l = length ops) as Hlen by apply length_fmap.
  assert (exists hdr, length hdr = batchHeaderLen /\ b_data b = hdr ++ enc_recs l) as (hdr & Hh & Hd).
  { destruct (inv_data _ _ HI) as (hdr & Hh & Hb). exists hdr. split; [done|]. unfold base in Hb.
    destruct (b_data b) eqn:E; [|done]. apply (Inv_nil b l HI) in E. by destruct ops. }
  assert (Forall decodes l) as Hdec.
  { unfold l. apply Forall_fmap, Forall_forall. intros o Ho. apply op_decodes.
    pose proof (reserve_le o ops Ho). unfold ops_fit, maxBatchSize in Hfit. lia. }
  pose proof (make_fit b l hdr HI Hh) as Hfit'. pose proof (inv_ok _ _ HI) as Hok.
  destruct (newFlushableBatch_ok b l hdr HI Hh Hd Hdec ltac:(lia)) as (fb0 & Efb & F1 & F2 & F3 & F4 & F5).
  set (fb := fb0 <| fb_seqNum := seqNum |> <| fb_tombstones := shift_span seqNum <$> fb_tombstones fb0 |>
    <| fb_rangeKeys := shift_span seqNum <$> fb_rangeKeys fb0 |>).
  exists b, fb0, fb, hdr. split; [done|]. split; [done|]. split; [done|].
  split; [unfold flushable_setSeqNum; by rewrite F2|]. split; [done|]. split; [done|].
  rewrite <- Hd. split; [done|]. split; [done|]. split; [done|].
  split; apply (shift_spans hdr l Hok Hfit'); done || lia.
Qed.

(** The spans of the entries are those of the index. *)
Lemma spans_for_entries hdr l w seqNum :
  Forall rec_ok l -> Z.of_nat (length hdr + reserves l) < 2 ^ 32 ->
  0 <= seqNum -> seqNum + Z.of_nat (length l) < 2 ^ 56 -> Forall (fun r => in_memtable r = true) l ->
  entry_span <$> entries_for w (numbered seqNum l) = spans_for hdr l w seqNum.
Proof.
  intros Hok Hfit Hs Hsb Hmem. rewrite <- (Z.add_0_r seqNum) at 1.
  rewrite (numbered_indexed l seqNum w (length hdr) 0 Hmem). unfold spans_for. rewrite <- list_fmap_compose.
  apply list_fmap_ext. intros n [r e] Hx. apply list_elem_of_lookup_2, list_elem_of_filter in Hx as [_ Hx].
  pose proof (indexed_rec_ok l (length hdr) 0 Hok) as Hro. rewrite Forall_forall in Hro.
  destruct (indexed_mono l (length hdr) 0) as [_ Hm]; [lia|]. rewrite Forall_forall in Hm. specialize (Hm _ Hx).
  cbn [compose fst snd] in *. apply (entry_span_of r (seqNum + fe_index e)); [exact (Hro _ Hx)|lia].
Qed.

(** C27. A batch without log data that is too large for a memtable looks like a memtable it
    has been applied to.  Made into a flushable batch, which gets its sequence number
    afterwards, it iterates over the same point entries, with the same sequence numbers and
    in the same order, as a new memtable that had room for it and to which it has been
    applied; and to every user key the same range deletions and the same range keys
    apply. *)
Theorem flushable_memtable ops b size memTableSize arenaBuf logSeqNum seqNum m0 m1 :
  ops_fit ops -> ops <> [] -> Forall (fun o => in_memtable (op_record o) = true) ops ->
  0 <= logSeqNum <= seqNum -> seqNum + Z.of_nat (length ops) < 2 ^ 56 ->
  do_ops (newBatch true) ops = Ret (b, None) ->
  mem_empty_size <= arena_Capacity (NewArena (mem_arenaBuf size memTableSize arenaBuf)) ->
  memTable_init size memTableSize arenaBuf logSeqNum = Ret m0 -> prepare m0 b = Ret (m1, None) ->
  exists m2 m last fb0 fb, memTable_apply m1 b seqNum = Ret (m2, None) /\ writerUnref m2 = Ret (m, last) /\
    newFlushableBatch b = Ret (Ok fb0) /\ flushable_setSeqNum fb0 seqNum = Ret fb /\
    (exists points, iterate_all (flushable_newIter fb None None) = Ret points /\
      skl_entries (m_arena m) (m_skl m) = Ret points) /\
    exists md mk dels keys, memTable_rangeDels m = Ret (md, dels) /\ memTable_rangeKeys m = Ret (mk, keys) /\
      forall x, at_key x (fb_tombstones fb) ≡ₚ at_key x dels /\ at_key x (fb_rangeKeys fb) ≡ₚ at_key x keys.
Proof.
  intros Hfit Hne Hmem Hs Hsb Eb Hcap Einit Eprep.
  destruct (flushable_of_ops ops seqNum) as
    (b' & fb0 & fb & hdr & Eb' & HI & Efb & Eset & Hdec & Hfit' & F1 & F2 & F3 & F4 & F5); [done|done|lia|lia|].
  rewrite Eb in Eb'. injection Eb' as <-.
  set (l := op_record <$> ops) in *. pose proof (inv_ok _ _ HI) as Hok.
  assert (length l = length ops) as Hlen by apply length_fmap.
  assert (Forall (fun r => in_memtable r = true) l) as Hmem' by (by apply Forall_fmap).
  pose proof (sum_one_if in_memtable l). set (x := mkPending b ops seqNum).
  assert (mreach (mkM m1 true [x] (seqNum + batch_count l) [])) as Hr.
  { apply (mreach_step (mkM m0 true [] seqNum [])); [|by apply (step_prepare m0 [] seqNum [] true ops b); try done; unfold batch_count; fold l; lia].
    apply (mreach_step (mkM m0 true [] logSeqNum [])); [|apply step_other; lia].
    apply (mreach_init size memTableSize arenaBuf); done || lia. }
  destruct (minv_reach _ Hr) as [os Hm]. destruct (minv_apply _ _ 0 x Hm eq_refl) as (m2 & m & os1 & Ea & Eu & Hm').
  cbn [ms_mem ms_mutable ms_pending ms_next ms_applied] in *. eexists m2, m, _, fb0, fb.
  split; [exact Ea|]. split; [exact Eu|]. split; [done|]. split; [done|].
  assert (forall w, applied [x] w = entries_for w (numbered seqNum l)) as Happ by (intros w; apply app_nil_r).
  split.
  - destruct (flushable_points hdr l seqNum fb Hok Hfit') as (es & Ees & Hsort & Hes); [lia|lia|done..|].
    exists es. split; [done|]. pose proof (mi_mem _ _ Hm') as HM. cbn [ms_mem ms_applied] in HM.
    pose proof (MemOK_skl m os1 _ index_point HM) as HS. cbn [skl_of] in HS.
    rewrite (skl_entries_spec _ _ _ (skls_arena _ _ (mok_skls _ _ _ HM)) HS). f_equal.
    apply (ikey_sorted_unique fst); [exact (kvs_sorted _ _ _ HS)|done|].
    rewrite (mok_entries _ _ _ HM index_point), Happ, Hes. rewrite <- (Z.add_0_r seqNum) at 1.
    by rewrite (numbered_indexed l seqNum index_point (length hdr) 0 Hmem').
  - destruct (minv_rangeDels _ _ _ _ _ _ Hm') as (c1 & dels & Ed & _ & Hd).
    destruct (minv_rangeKeys _ _ _ _ _ _ Hm') as (c2 & keys & Ek & _ & Hk).
    eexists _, _, dels, keys. split; [exact Ed|]. split; [exact Ek|]. intros y.
    rewrite Hd, Hk, F4, F5, !Happ, !(spans_for_entries hdr) by (done || lia). done.
Qed.
End memtable.
