(* ===== verification/FlushableIter.v ===== *)
(** Seeking in a flushable batch (Flushable.v), and what happens to log data in it. *)
From S2P Require Import Prelude.
From S2P Require Import Comparer.
From S2P Require Import InternalKey.
From S2P Require Import GoStd.
From S2P Require Import Keyspan.
From S2P Require Import Iterators.
From S2P Require Import Batch.
From S2P Require Import BatchSpec.
From S2P Require Import BatchRoundtrip.
From S2P Require Import MemTable.
From S2P Require Import MemTableSpec.
From S2P Require Import Flushable.
From S2P Require Import FlushableSpec.
From S2P Require Import FlushableEquiv.
From stdpp Require Import sorting.

Local Open Scope Z_scope.

(** ** Iterators *)
#[local] Instance flushable_iterator {C : Comparer} : InternalIterator flushableBatchIter := {|
  op_SeekGE i key _ := SeekGE i key;
  op_SeekPrefixGE i prefix key _ := SeekPrefixGE i prefix key;
  op_SeekLT := SeekLT;
  op_First := First;
  op_Last := Last;
  op_Next := Next;
  op_NextPrefix := NextPrefix;
  op_Prev := Prev;
  op_SetBounds i lower upper := Ret (SetBounds i lower upper);
|}.

Section seek.
Context {C : Comparer} {L : ComparerLaws C} {S : Sort} {K : BatchSkl} {M : Memory}.
Context (data : bytes) (seqNum : Z) (es : list flushableBatchEntry) (val : flushableBatchEntry -> bytes).
Context (Hval : Forall (fun e => value_at data e = Ret (Ok (val e))) es).
Let kvs : list entry := kv data seqNum val <$> es.
Context (Hsorted : ikey_sorted fst kvs) (Htr : Forall (fun e => 0 <= Trailer e.1 <= no_more) kvs).
Let len : Z := Z.of_nat (length es).

(** An iterator over the entries with the bounds and at the position.  Without entries
    there are two indexes for both ends. *)
Definition fl_pos (st : iter_state) (i : flushableBatchIter) : Prop :=
  over data seqNum es i /\ it_lower i = st_lower st /\ it_upper i = st_upper st /\ -1 <= it_index i <= len /\
  match st_pos st with
  | PosAt j => it_index i = Z.of_nat j /\ (j < length es)%nat
  | PosBefore => len = 0 \/ it_index i = -1
  | PosAfter => len = 0 \/ it_index i = len
  | PosNone => True
  end.

Lemma fl_kvs_lookup j : kvs !! j = kv data seqNum val <$> es !! j.
Proof. apply list_lookup_fmap. Qed.
Lemma fl_length_kvs : length kvs = length es.
Proof. apply length_fmap. Qed.

(** The ends of the calls that move forward and backward. *)
Lemma fl_forward st i n :
  over data seqNum es i -> it_lower i = st_lower st -> it_upper i = st_upper st -> it_index i = Z.of_nat n ->
  (n <= length es)%nat ->
  exists i', (if it_len i <=? it_index i then Ret (i, None) else land_upper i) = Ret (i', (forward kvs st n).2) /\
    fl_pos (forward kvs st n).1 i'.
Proof.
  intros Ho Hl Hu Hi Hn. pose proof (over_len data seqNum es i Ho) as El. rewrite El. unfold forward. cbn [fst snd]. rewrite fl_kvs_lookup.
  destruct (es !! n) as [e|] eqn:He.
  - pose proof (lookup_lt_Some _ _ _ He). rewrite (proj2 (Z.leb_gt _ _)) by lia.
    rewrite (land_upper_ok data seqNum es val Hval i n e) by done. rewrite Hu. unfold in_upper. cbn [fmap option_fmap option_map mbind option_bind].
    destruct (above (st_upper st) (kv data seqNum val e).1); eexists; (split; [done|]);
      (split; [exact Ho|]); (split; [done|]); (split; [done|]).
    + change (-1 <= it_len i <= len /\ (len = 0 \/ it_len i = len)). unfold len. lia.
    + change (-1 <= it_index i <= len /\ it_index i = Z.of_nat n /\ (n < length es)%nat). unfold len. lia.
  - apply lookup_ge_None in He. rewrite (proj2 (Z.leb_le _ _)) by lia. exists i. split; [done|].
    split; [exact Ho|]. split; [done|]. split; [done|].
    change (-1 <= it_index i <= len /\ (len = 0 \/ it_index i = len)). unfold len. lia.
Qed.
Lemma fl_backward st i n :
  over data seqNum es i -> it_lower i = st_lower st -> it_upper i = st_upper st -> it_index i = Z.of_nat n - 1 ->
  (n <= length es)%nat ->
  exists i', (if it_index i <? 0 then Ret (i, None) else land_lower i) = Ret (i', (backward kvs st n).2) /\
    fl_pos (backward kvs st n).1 i'.
Proof.
  intros Ho Hl Hu Hi Hn. unfold backward. cbn [fst snd]. destruct n as [|n].
  - rewrite (proj2 (Z.ltb_lt _ _)) by lia. exists i. split; [done|]. split; [exact Ho|]. split; [done|]. split; [done|].
    change (-1 <= it_index i <= len /\ (len = 0 \/ it_index i = -1)). unfold len. lia.
  - rewrite (proj2 (Z.ltb_ge _ _)) by lia. rewrite fl_kvs_lookup. destruct (lookup_lt_is_Some_2 es n ltac:(lia)) as [e He].
    rewrite He, (land_lower_ok data seqNum es val Hval i n e) by (done || lia). rewrite Hl. unfold in_lower.
    cbn [fmap option_fmap option_map mbind option_bind].
    destruct (below (st_lower st) (kv data seqNum val e).1); eexists; (split; [done|]);
      (split; [exact Ho|]); (split; [done|]); (split; [done|]).
    + change (-1 <= -1 <= len /\ (len = 0 \/ -1 = -1)). unfold len. lia.
    + change (-1 <= it_index i <= len /\ it_index i = Z.of_nat n /\ (n < length es)%nat). unfold len. lia.
Qed.

(** The search finds the rank of the key. *)
Lemma search_ok i key : over data seqNum es i -> search i key = Z.of_nat (rank kvs key).
Proof.
  intros Ho. unfold search. destruct (rank_spec kvs Hsorted key) as [Hr Hsplit]. rewrite fl_length_kvs in Hr.
  assert (length (it_offsets i) = length es) as -> by (destruct Ho as (_ & _ & ->); done). f_equal.
  match goal with |- sort_Search _ ?g = _ => set (f := g) end.
  assert (forall j, (j < length es)%nat -> f j = bool_decide (rank kvs key <= j)%nat) as Hf.
  { intros j Hj. destruct (lookup_lt_is_Some_2 es j Hj) as [e He]. unfold f.
    rewrite (it_getKey_ok data seqNum es val i j e Ho He).
    assert (kvs !! j = Some (kv data seqNum val e)) as Hk by (by rewrite fl_kvs_lookup, He).
    specialize (Hsplit j _ Hk). rewrite Forall_forall in Htr.
    pose proof (search_key key (kv data seqNum val e) (Htr _ (list_elem_of_lookup_2 _ _ _ Hk))) as Hs.
    rewrite <- Hsplit in Hs. apply bool_decide_ext. rewrite InternalCompare_antisym.
    destruct (InternalCompare (kv data seqNum val e).1 (MakeSearchKey key)); cbn [CompOpp].
    - assert (~ (j < rank kvs key)%nat) by (by intros ?%Hs). split; [lia|done].
    - assert (j < rank kvs key)%nat by (by apply Hs). split; [done|lia].
    - assert (~ (j < rank kvs key)%nat) by (by intros ?%Hs). split; [lia|done]. }
  destruct (sort_Search_spec (length es) f) as (H1 & H2 & H3).
  { intros j k Hjk Hj. rewrite Hf in Hj |- * by lia. apply bool_decide_eq_true in Hj. apply bool_decide_eq_true. lia. }
  set (n := sort_Search (length es) f) in *.
  destruct (lt_eq_lt_dec n (rank kvs key)) as [[Hlt|Heq]|Hgt]; [|done|].
  - specialize (H3 n ltac:(lia)). rewrite Hf in H3 by lia. apply bool_decide_eq_true in H3. lia.
  - specialize (H2 (rank kvs key) Hgt). rewrite Hf in H2 by lia. apply bool_decide_eq_false in H2. lia.
Qed.

Lemma fl_rank key : (rank kvs key <= length es)%nat.
Proof. rewrite <- fl_length_kvs. apply (rank_spec kvs Hsorted key). Qed.
Lemma fl_seekGE st i key :
  over data seqNum es i -> it_lower i = st_lower st -> it_upper i = st_upper st ->
  exists i', SeekGE i key = Ret (i', (forward kvs st (rank kvs key)).2) /\ fl_pos (forward kvs st (rank kvs key)).1 i'.
Proof.
  intros Ho Hl Hu. unfold SeekGE. set (i1 := i <| it_err := None |>).
  rewrite (search_ok i1 key) by exact Ho. set (i2 := i1 <| it_index := _ |>).
  apply (fl_forward st i2 (rank kvs key)); [exact Ho|done..|apply fl_rank].
Qed.
Lemma fl_first st i :
  fl_pos st i -> exists i', First i = Ret (i', (forward kvs st 0).2) /\ fl_pos (forward kvs st 0).1 i'.
Proof.
  intros (Ho & Hl & Hu & Hi & _). unfold First. set (i1 := i <| it_err := None |>).
  assert (it_len i1 = len) as El by exact (over_len data seqNum es i1 Ho). rewrite El. destruct (Z.eqb_spec len 0) as [E0|E0].
  - exists i1. unfold forward. rewrite lookup_ge_None_2 by (rewrite fl_length_kvs; unfold len in E0; lia).
    split; [done|]. split; [exact Ho|]. split; [done|]. split; [done|]. split; [done|by left].
  - destruct (fl_forward st (i1 <| it_index := 0 |>) 0) as (i' & E & Hp); [exact Ho|done..|lia|].
    change (it_len (i1 <| it_index := 0 |>)) with (it_len i1) in E. rewrite El in E.
    change (it_index (i1 <| it_index := 0 |>)) with 0 in E. rewrite (proj2 (Z.leb_gt _ _)) in E by (unfold len in *; lia).
    by exists i'.
Qed.
Lemma fl_last st i :
  fl_pos st i -> exists i', Last i = Ret (i', (backward kvs st (length kvs)).2) /\ fl_pos (backward kvs st (length kvs)).1 i'.
Proof.
  intros (Ho & Hl & Hu & Hi & _). unfold Last. set (i1 := i <| it_err := None |>). rewrite fl_length_kvs.
  assert (it_len i1 = len) as El by exact (over_len data seqNum es i1 Ho). rewrite El. destruct (Z.eqb_spec len 0) as [E0|E0].
  - exists i1. unfold backward. assert (length es = 0)%nat as -> by (unfold len in E0; lia).
    split; [done|]. split; [exact Ho|]. split; [done|]. split; [done|]. split; [done|by left].
  - destruct (fl_backward st (i1 <| it_index := len - 1 |>) (length es)) as (i' & E & Hp); [exact Ho|done..|].
    change (it_index (i1 <| it_index := len - 1 |>)) with (len - 1) in E. rewrite (proj2 (Z.ltb_ge _ _)) in E by (unfold len in *; lia).
    by exists i'.
Qed.
Lemma fl_next st i n :
  over data seqNum es i -> it_lower i = st_lower st -> it_upper i = st_upper st -> it_index i = Z.of_nat n - 1 ->
  (n <= length es)%nat ->
  exists i', Next i = Ret (i', (forward kvs st n).2) /\ fl_pos (forward kvs st n).1 i'.
Proof.
  intros Ho Hl Hu Hi Hn. unfold Next. pose proof (over_len data seqNum es i Ho) as El. fold len in El. rewrite El.
  rewrite (proj2 (Z.eqb_neq _ _)) by (unfold len; lia). set (i1 := i <| it_index := it_index i + 1 |>).
  assert (it_index i1 = Z.of_nat n) as Hi1 by (change (it_index i + 1 = Z.of_nat n); lia). change (it_len i1) with (it_len i).
  destruct (fl_forward st i1 n) as (i' & E & Hp); [exact Ho|done..|]. exists i'. split; [|done]. rewrite <- E.
  change (it_len i1) with (it_len i). rewrite El, Hi1.
  destruct (Z.eqb_spec (Z.of_nat n) len), (Z.leb_spec len (Z.of_nat n)); done || (unfold len in *; lia).
Qed.
Lemma fl_prev st i n :
  over data seqNum es i -> it_lower i = st_lower st -> it_upper i = st_upper st -> it_index i = Z.of_nat n ->
  (n <= length es)%nat ->
  exists i', Prev i = Ret (i', (backward kvs st n).2) /\ fl_pos (backward kvs st n).1 i'.
Proof.
  intros Ho Hl Hu Hi Hn. unfold Prev. rewrite (proj2 (Z.ltb_ge _ _)) by lia.
  apply (fl_backward st (i <| it_index := it_index i - 1 |>) n); [exact Ho|done|done|cbn; lia|done].
Qed.

(** Without entries the iterator stays where it is at an end. *)
Lemma fl_none st i :
  fl_pos st i -> len = 0 -> (exists i', Next i = Ret (i', (forward kvs st 0).2) /\ fl_pos (forward kvs st 0).1 i') /\
    exists i', Prev i = Ret (i', (backward kvs st 0).2) /\ fl_pos (backward kvs st 0).1 i'.
Proof.
  intros (Ho & Hl & Hu & Hi & _) E0. pose proof (over_len data seqNum es i Ho) as El. fold len in El.
  assert (forward kvs st 0 = (mkState (st_lower st) (st_upper st) PosAfter false, None)) as ->.
  { unfold forward. rewrite lookup_ge_None_2; [done|]. rewrite fl_length_kvs. unfold len in E0. lia. }
  assert (forall i1, over data seqNum es i1 -> it_lower i1 = it_lower i -> it_upper i1 = it_upper i -> -1 <= it_index i1 <= len ->
    fl_pos (mkState (st_lower st) (st_upper st) PosAfter false) i1 /\ fl_pos (backward kvs st 0).1 i1) as Hp.
  { intros i1 H1 H2 H3 H4. split; (split; [done|]); (split; [by rewrite H2|]); (split; [by rewrite H3|]); (split; [done|by left]). }
  split.
  - unfold Next. rewrite El. destruct (Z.eqb_spec (it_index i) len) as [E1|E1].
    + exists i. split; [done|]. by apply Hp.
    + set (i1 := i <| it_index := it_index i + 1 |>). change (it_index i1) with (it_index i + 1). change (it_len i1) with (it_len i).
      rewrite El, (proj2 (Z.eqb_eq _ _)) by lia. exists i1. split; [done|]. apply Hp; [exact Ho|done|done|]. change (-1 <= it_index i + 1 <= len). lia.
  - unfold Prev. destruct (Z.ltb_spec (it_index i) 0) as [E1|E1].
    + exists i. split; [done|]. by apply Hp.
    + set (i1 := i <| it_index := it_index i - 1 |>). change (it_index i1) with (it_index i - 1).
      rewrite (proj2 (Z.ltb_lt _ _)) by lia. exists i1. split; [done|]. apply Hp; [exact Ho|done|done|]. change (-1 <= it_index i - 1 <= len). lia.
Qed.

Lemma fl_simulates : simulates kvs fl_pos.
Proof.
  intros st i c st' r Hat Hc. pose proof Hat as (Ho & Hl & Hu & Hi & Hp).
  assert (forall p : iter_state * option entry, Some p = Some (st', r) -> forall g : go iter_result,
    (exists i', g = Ret (i', p.2) /\ fl_pos p.1 i') -> exists i', g = Ret (i', r) /\ fl_pos st' i') as Hfin
    by (intros p [= ->] g Hg; exact Hg).
  destruct c as [key t|pre key t|key| | | |key| |lo up]; cbn [abs_call call op_SeekGE op_SeekPrefixGE op_SeekLT op_First
    op_Last op_Next op_NextPrefix op_Prev op_SetBounds flushable_iterator] in *.
  - destruct (t && _); [done|]. apply (Hfin _ Hc). by apply fl_seekGE.
  - destruct (t && _); [done|]. apply (Hfin _ Hc). by apply fl_seekGE.
  - apply (Hfin _ Hc). unfold SeekLT. set (i1 := i <| it_err := None |>). rewrite (search_ok i1 key) by exact Ho.
    apply fl_backward; [exact Ho|done..|apply fl_rank].
  - apply (Hfin _ Hc). by apply fl_first.
  - apply (Hfin _ Hc). by apply fl_last.
  - destruct (st_pos st) as [j| | |]; try done; apply (Hfin _ Hc).
    + apply fl_next; done || lia.
    + destruct Hp as [E0|E1]; [by apply fl_none|apply fl_next; done || lia].
  - destruct (st_pos st) as [j| | |]; try done. destruct (may_try _ _ _ && _); [|done]. apply (Hfin _ Hc). by apply fl_seekGE.
  - destruct (st_pos st) as [j| | |]; try done; apply (Hfin _ Hc).
    + apply fl_prev; done || lia.
    + rewrite fl_length_kvs. destruct (decide (len = 0)) as [E0|E0].
      * assert (length es = 0)%nat as -> by (unfold len in E0; lia). by apply fl_none.
      * destruct Hp as [|E1]; [done|]. by apply fl_prev.
  - injection Hc as <- <-. eexists. split; [done|]. split; [exact Ho|]. split; [done|]. split; [done|]. by split.
Qed.
End seek.

(** ** Results *)
Section results.
Context {C : Comparer} {L : ComparerLaws C} {S : Sort} {SL : SortLaws S} {K : BatchSkl} {M : Memory}.

Lemma indexed_lookup l n r : forall offset index,
  l !! n = Some r -> exists e, (r, e) ∈ indexed offset index l /\ fe_index e = index + Z.of_nat n.
Proof.
  revert n. induction l as [|r0 l IH]; intros n offset index Hn; [done|]. cbn [indexed].
  destruct n as [|n].
  - injection Hn as ->. eexists. split; [apply list_elem_of_here|]. cbn. lia.
  - destruct (IH n (offset + length (enc_rec r0))%nat (index + 1) Hn) as (e & He & Ei).
    exists e. split; [by apply list_elem_of_further|lia].
Qed.

(** Log data in a batch that becomes a flushable batch.  The log data is an entry of
    the flushable batch, with a sequence number of its own, although it is not to be added
    to memtables; and the entries after it get sequence numbers that do not belong to the
    batch: the last one gets a number that is not less than the sequence number of the
    batch plus its count, from which the next batch is numbered. *)
Theorem flushable_logdata ops data ops' key value seqNum :
  let all := ops ++ OpLogData data :: ops' ++ [OpSet key value] in
  ops_fit all -> 0 <= seqNum -> seqNum + Z.of_nat (length all) < 2 ^ 56 ->
  exists b fb0 fb es n, do_ops (newBatch true) all = Ret (b, None) /\ Count b = Ret n /\
    newFlushableBatch b = Ret (Ok fb0) /\ flushable_setSeqNum fb0 seqNum = Ret fb /\
    iterate_all (flushable_newIter fb None None) = Ret es /\
    (MakeInternalKey data (seqNum + Z.of_nat (length ops)) InternalKeyKindLogData, []) ∈ es /\
    (MakeInternalKey key (seqNum + Z.of_nat (length all) - 1) InternalKeyKindSet, value) ∈ es /\
    seqNum + n <= seqNum + Z.of_nat (length all) - 1.
Proof.
  intros all Hfit Hs Hsb.
  destruct (flushable_of_ops all seqNum) as
    (b & fb0 & fb & hdr & Eb & HI & Efb & Eset & _ & Hfit' & F1 & F2 & F3 & _ & _); [done| |done|done|].
  { unfold all. by destruct ops. }
  set (l := op_record <$> all) in *. assert (length l = length all) as Hlen by apply length_fmap.
  destruct (flushable_points hdr l seqNum fb (inv_ok _ _ HI) Hfit') as (es & Ees & _ & Hes); [lia|lia|done..|].
  exists b, fb0, fb, es, (sum (one_if in_memtable) l).
  split; [done|]. split; [by apply Inv_Count|]. split; [done|]. split; [done|]. split; [done|].
  assert (forall n r k, l !! n = Some r -> rec_which r = index_point ->
    k = seqNum + Z.of_nat n -> (MakeInternalKey r.1.2 k r.1.1, r.2) ∈ es) as Hin.
  { intros n r k Hn Hw ->. rewrite Hes. destruct (indexed_lookup l n r (length hdr) 0 Hn) as (e & He & Ei).
    apply list_elem_of_fmap. exists (r, e). split; [unfold item; cbn [fst snd]; do 3 f_equal; lia|].
    by apply list_elem_of_filter. }
  assert (length all = length ops + 2 + length ops')%nat as Hall.
  { unfold all. rewrite length_app. cbn [length]. rewrite length_app. simpl. lia. }
  assert (l = (op_record <$> ops) ++ op_record (OpLogData data) :: (op_record <$> ops') ++
    [op_record (OpSet key value)]) as El.
  { unfold l, all. rewrite fmap_app, fmap_cons, fmap_app. done. }
  split; [|split].
  - apply (Hin (length ops) (op_record (OpLogData data))); [|done|done].
    rewrite El, lookup_app_r, length_fmap, Nat.sub_diag by (rewrite length_fmap; lia). done.
  - apply (Hin (length ops + 1 + length ops')%nat (op_record (OpSet key value))); [|done|lia].
    rewrite El, lookup_app_r, length_fmap by (rewrite length_fmap; lia).
    replace (length ops + 1 + length ops' - length ops)%nat with (Datatypes.S (length ops')) by lia.
    change (((op_record <$> ops') ++ [op_record (OpSet key value)]) !! length ops' =
      Some (op_record (OpSet key value))).
    rewrite lookup_app_r, length_fmap, Nat.sub_diag by (rewrite length_fmap; lia). done.
  - rewrite El, sum_app, sum_cons. pose proof (sum_one_if in_memtable (op_record <$> ops)).
    pose proof (sum_one_if in_memtable ((op_record <$> ops') ++ [op_record (OpSet key value)])) as H2.
    rewrite length_app, length_fmap in H2. rewrite length_fmap in *. cbn [length] in H2.
    change (one_if in_memtable (op_record (OpLogData data))) with 0. lia.
Qed.

(** The iterators of a flushable batch are over entries that can be read. *)
Lemma flushable_over hdr l seqNum (fb : flushableBatch) lower upper :
  Forall rec_ok l -> Z.of_nat (length hdr + reserves l) < 2 ^ 32 ->
  0 <= seqNum -> seqNum + Z.of_nat (length l) < 2 ^ 56 ->
  fb_data fb = hdr ++ enc_recs l -> fb_seqNum fb = seqNum ->
  fb_offsets fb =
    sort_Sort (flushable_Less (hdr ++ enc_recs l)) (entries_of index_point (indexed (length hdr) 0 l)) ->
  exists es val, let kvs := kv (hdr ++ enc_recs l) seqNum val <$> es in
    Forall (fun e => value_at (hdr ++ enc_recs l) e = Ret (Ok (val e))) es /\ ikey_sorted fst kvs /\
    Forall (fun e => 0 <= Trailer e.1 <= no_more) kvs /\
    iterate_all (flushable_newIter fb None None) = Ret kvs /\
    over (hdr ++ enc_recs l) seqNum es (flushable_newIter fb lower upper).
Proof.
  intros Hok Hfit Hs Hsb Hd Hsn Ho.
  destruct (sorted_entries hdr l seqNum Hok Hfit Hs Hsb index_point) as (xs & E & Hxs & Hsort).
  assert (forall x, x ∈ xs -> x ∈ indexed (length hdr) 0 l) as Hin.
  { intros x Hx. rewrite Hxs in Hx. by apply list_elem_of_filter in Hx as [_ Hx]. }
  set (val := fun e => match value_at (hdr ++ enc_recs l) e with Ret (Ok v) => v | _ => [] end).
  exists (snd <$> xs), val. cbn zeta.
  assert (kv (hdr ++ enc_recs l) seqNum val <$> (snd <$> xs) = item seqNum <$> xs) as Ekv.
  { rewrite <- list_fmap_compose. apply list_fmap_ext. intros n [r e] Hn. apply list_elem_of_lookup_2 in Hn.
    destruct (index_reads hdr l seqNum Hok Hfit Hs Hsb r e (Hin _ Hn)) as (_ & H2 & H3).
    cbn [compose snd]. unfold kv, val. by rewrite H2, H3. }
  rewrite Ekv. split; [|split; [by apply ikey_sorted_fmap|split; [|split]]].
  - apply Forall_fmap, Forall_forall. intros [r e] Hx. cbn [compose snd]. unfold val.
    by destruct (index_reads hdr l seqNum Hok Hfit Hs Hsb r e (Hin _ Hx)) as (_ & _ & ->).
  - apply Forall_fmap, Forall_forall. intros [r e] Hx. cbn [compose].
    rewrite (item_trailer hdr l seqNum Hok Hfit Hs Hsb r e (Hin _ Hx)).
    pose proof (indexed_rec_ok l (length hdr) 0 Hok) as Hro. rewrite Forall_forall in Hro.
    destruct (indexed_mono l (length hdr) 0) as [_ Hm]; [lia|]. rewrite Forall_forall in Hm.
    specialize (Hro _ (Hin _ Hx)). specialize (Hm _ (Hin _ Hx)). destruct r as [[k uk] v].
    destruct Hro as [Hk _]. unfold InternalKeyKindMax in Hk. cbn [fst snd] in *.
    change no_more with ((2 ^ 56 - 1) * 256 + 23). lia.
  - by apply (iterate_entries hdr l seqNum Hok Hfit Hs Hsb index_point).
  - unfold over. by rewrite <- E.
Qed.

(** C28. Iterators over a flushable batch are iterators over its sorted point entries, as the
    interface of iterators documents them: for all bounds, every sequence of calls that the
    documentation allows returns what it returns for the list a loop without bounds sees. *)
Theorem flushable_iter ops seqNum :
  ops_fit ops -> ops <> [] -> 0 <= seqNum -> seqNum + Z.of_nat (length ops) < 2 ^ 56 ->
  exists b fb0 fb kvs, do_ops (newBatch true) ops = Ret (b, None) /\
    newFlushableBatch b = Ret (Ok fb0) /\ flushable_setSeqNum fb0 seqNum = Ret fb /\
    iterate_all (flushable_newIter fb None None) = Ret kvs /\ ikey_sorted fst kvs /\
    forall lower upper cs rs, abs_calls kvs (mkState lower upper PosBefore false) cs = Some rs ->
      calls (flushable_newIter fb lower upper) cs = Ret rs.
Proof.
  intros Hfit Hne Hs Hsb.
  destruct (flushable_of_ops ops seqNum) as
    (b & fb0 & fb & hdr & Eb & HI & Efb & Eset & _ & Hfit' & F1 & F2 & F3 & _ & _); [done..|].
  set (l := op_record <$> ops) in *. assert (length l = length ops) as Hlen by apply length_fmap.
  destruct (flushable_over hdr l seqNum fb None None (inv_ok _ _ HI) Hfit') as
    (es & val & Hval & Hsort & Htr & Hit & Hov); [lia|lia|done..|].
  set (data := hdr ++ enc_recs l) in *. exists b, fb0, fb, (kv data seqNum val <$> es). do 5 (split; [done|]).
  intros lower upper cs rs. apply (simulates_calls _ (fl_pos data seqNum es)); [by apply fl_simulates|].
  split; [exact Hov|]. split; [done|]. split; [done|]. cbn. split; [lia|by right].
Qed.
End results.
