(* ===== verification/FlushableExamples.v ===== *)
(** Concrete batches: the theorems on memtables and flushable batches applied to them. *)
From S2P Require Import Prelude.
From S2P Require Import Comparer.
From S2P Require Import InternalKey.
From S2P Require Import GoStd.
From S2P Require Import Keyspan.
From S2P Require Import Iterators.
From S2P Require Import Arenaskl.
From S2P Require Import ArenasklExamples.
From S2P Require Import Batch.
From S2P Require Import BatchSpec.
From S2P Require Import BatchRoundtrip.
From S2P Require Import MemTable.
From S2P Require Import MemTableSpec.
From S2P Require Import MemTableSteps.
From S2P Require Import Flushable.
From S2P Require Import FlushableSpec.
From S2P Require Import FlushableEquiv.
From S2P Require Import FlushableIter.

Local Open Scope Z_scope.

#[local] Existing Instance DefaultComparer.
#[local] Existing Instance default_laws.
#[local] Existing Instance insertion_sort.
#[local] Existing Instance insertion_sort_laws.
#[local] Existing Instance example_skl.
#[local] Existing Instance example_memory.
#[local] Existing Instance example_env.

Definition example_points : list op :=
  [OpSet [Byte.x62] [Byte.x31]; OpDelete [Byte.x61]; OpSet [Byte.x61] [Byte.x32];
   OpDeleteRange [Byte.x61] [Byte.x63]; OpRangeKeySet [Byte.x61] [Byte.x63] [] [Byte.x33]].

(** A memtable with room for two batches. *)
Definition example_mem : go (memTable * Batch * memTable) :=
  m ← memTable_init 0 5000 None 7;
  '(b, _) ← do_ops (newBatch true) example_points;
  '(m', err) ← prepare m b;
  match err with None => Ret (m, b, m') | Some _ => Panic "full" end.

Lemma example_mem_ok : exists m b m',
  memTable_init 0 5000 None 7 = Ret m /\ do_ops (newBatch true) example_points = Ret (b, None) /\ prepare m b = Ret (m', None).
Proof.
  assert (match example_mem with Ret _ => true | Panic _ => false end = true) as Hok by (vm_compute; reflexivity).
  unfold example_mem in Hok. destruct (memTable_init 0 5000 None 7) as [m|] eqn:Em; [|discriminate Hok]. rewrite bind_Ret in Hok.
  destruct (do_ops_ok example_points (newBatch true) [] (Inv_newBatch true)) as (b & Eb & _); [vm_compute; reflexivity|].
  rewrite Eb, bind_Ret in Hok. destruct (prepare m b) as [[m' [e|]]|] eqn:Ep; [discriminate Hok| |discriminate Hok].
  exists m, b, m'. split; [exact eq_refl|]. split; [exact Eb|exact Ep].
Qed.

Lemma example_reach : exists m1 b, mreach (mkM m1 true [mkPending b example_points 9] 14 []).
Proof.
  destruct example_mem_ok as (m & b & m' & Em & Eb & Ep). exists m', b.
  apply (mreach_step (mkM m true [] 9 [])).
  - apply (mreach_step (mkM m true [] 7 [])); [|apply step_other; lia].
    apply (mreach_init 0 5000 None 7 m); [vm_compute; discriminate|lia|exact Em].
  - apply (step_prepare m [] 9 [] true example_points b m'); [exact Eb|vm_compute; reflexivity|vm_compute; reflexivity|
      vm_compute; reflexivity|exact Ep].
Qed.

Lemma memtable_prepared_witness :
  exists m b m1 m2, memTable_apply m b 9 = Ret (m1, None) /\ writerUnref m1 = Ret (m2, false).
Proof.
  destruct example_reach as (m & b & Hr). destruct (memtable_prepared _ Hr) as [_ H].
  destruct (H O (mkPending b example_points 9) eq_refl) as (m1 & m2 & H1 & H2).
  exists m, b, m1, m2. split; [exact H1|exact H2].
Defined.

(** The same memtable with the batch. *)
Lemma example_applied : exists m b, mreach (mkM m true [] 14 [mkPending b example_points 9]).
Proof.
  destruct example_reach as (m & b & Hr). destruct (minv_reach _ Hr) as [os Hm].
  destruct (minv_apply _ _ O (mkPending b example_points 9) Hm eq_refl) as (m1 & m2 & os1 & Ea & Eu & _).
  exists m2, b. apply (mreach_step _ _ Hr).
  exact (step_apply m true [mkPending b example_points 9] 14 [] O (mkPending b example_points 9) m1 m2 _ eq_refl Ea Eu).
Qed.

Lemma memtable_contents_witness :
  exists m points, skl_entries (m_arena m) (m_skl m) = Ret points /\ length points = 3%nat /\ memTable_empty m = Ret false.
Proof.
  destruct example_applied as (m & b & Hr).
  destruct (memtable_contents _ Hr) as ((points & H1 & _ & H2 & _) & _ & _ & H3).
  exists m, points. split; [exact H1|]. split; [|exact H3]. rewrite H2. vm_compute. reflexivity.
Defined.

Lemma flushable_memtable_witness :
  exists b m fb0 fb points, newFlushableBatch b = Ret (Ok fb0) /\ flushable_setSeqNum fb0 9 = Ret fb /\
    iterate_all (flushable_newIter fb None None) = Ret points /\ skl_entries (m_arena m) (m_skl m) = Ret points.
Proof.
  destruct example_mem_ok as (m & b & m' & Em & Eb & Ep).
  destruct (flushable_memtable example_points b 0 5000 None 7 9 m m')
    as (m2 & m3 & last & fb0 & fb & _ & _ & H3 & H4 & (points & H5 & H6) & _).
  { vm_compute. reflexivity. }
  { discriminate. }
  { repeat constructor. }
  { lia. }
  { vm_compute. reflexivity. }
  { exact Eb. }
  { vm_compute. discriminate. }
  { exact Em. }
  { exact Ep. }
  exists b, m3, fb0, fb, points. split; [exact H3|]. split; [exact H4|]. split; [exact H5|exact H6].
Defined.

Lemma flushable_logdata_witness :
  exists b fb0 fb es n,
    do_ops (newBatch true) [OpLogData [Byte.x6c]; OpSet [Byte.x61] [Byte.x31]] = Ret (b, None) /\
    Count b = Ret n /\ newFlushableBatch b = Ret (Ok fb0) /\ flushable_setSeqNum fb0 9 = Ret fb /\
    iterate_all (flushable_newIter fb None None) = Ret es /\
    (MakeInternalKey [Byte.x61] 10 InternalKeyKindSet, [Byte.x31]) ∈ es /\ 9 + n <= 10.
Proof.
  destruct (flushable_logdata [] [Byte.x6c] [] [Byte.x61] [Byte.x31] 9)
    as (b & fb0 & fb & es & n & H1 & H2 & H3 & H4 & H5 & _ & H6 & H7).
  { vm_compute. reflexivity. }
  { lia. }
  { vm_compute. reflexivity. }
  exists b, fb0, fb, es, n. split; [exact H1|]. split; [exact H2|]. split; [exact H3|].
  split; [exact H4|]. split; [exact H5|]. split; [exact H6|exact H7].
Defined.

Definition example_kvs : list entry :=
  [(MakeInternalKey [Byte.x61] 11 InternalKeyKindSet, [Byte.x32]); (MakeInternalKey [Byte.x61] 10 InternalKeyKindDelete, []);
   (MakeInternalKey [Byte.x62] 9 InternalKeyKindSet, [Byte.x31])].
Lemma example_flush :
  ('(b, _) ← do_ops (newBatch true) example_points;
   r ← newFlushableBatch b;
   match r with
   | Ok fb0 => fb ← flushable_setSeqNum fb0 9; iterate_all (flushable_newIter fb None None)
   | Err _ => Panic "corrupt"
   end) = Ret example_kvs.
Proof. vm_compute. reflexivity. Qed.

Lemma flushable_iter_witness :
  exists b fb0 fb, do_ops (newBatch true) example_points = Ret (b, None) /\
    newFlushableBatch b = Ret (Ok fb0) /\ flushable_setSeqNum fb0 9 = Ret fb /\
    calls (H := flushable_iterator) (flushable_newIter fb None (Some [Byte.x62])) [CallFirst; CallNext; CallNext] =
      Ret [example_kvs !! 0%nat; example_kvs !! 1%nat; None].
Proof.
  destruct (flushable_iter example_points 9) as (b & fb0 & fb & kvs & H1 & H2 & H3 & H4 & H5 & H6).
  { vm_compute. reflexivity. }
  { discriminate. }
  { lia. }
  { vm_compute. reflexivity. }
  exists b, fb0, fb. split; [exact H1|]. split; [exact H2|]. split; [exact H3|]. apply H6.
  pose proof example_flush as Hf. rewrite H1, bind_Ret, H2, bind_Ret, H3, bind_Ret, H4 in Hf. injection Hf as ->.
  vm_compute. reflexivity.
Defined.
