(* ===== verification/Commit.v ===== *)
(** The commit pipeline (src/commit.go): the queue of pending batches, and the calls
    of [Commit] and [AllocateSeqNum] as goroutines.  Each goroutine is a program counter
    that advances by one access to shared memory at a time; an execution is any
    interleaving of the goroutines, the log that completes syncs and the rest of the
    database. *)
From S2P Require Import Prelude.
From S2P Require Import SyncQueue.
From S2P Require Import Batch.

Local Open Scope Z_scope.

Definition invalidBatchCount : Z := Z.shiftl 1 32 - 1.

(** ** commitQueue *)
Definition commitQueue_unpack (ptrs : Z) : Z * Z :=
  let mask := Z.shiftl 1 dequeueBits - 1 in
  (u32 (Z.land (Z.shiftr ptrs dequeueBits) mask), u32 (Z.land ptrs mask)).
Definition commitQueue_pack (head tail : Z) : Z :=
  let mask := Z.shiftl 1 dequeueBits - 1 in
  Z.lor (u64 (Z.shiftl head dequeueBits)) (Z.land tail mask).

(** ** The environment *)

(** What the pipeline calls: [apply] and [write] with the state of the database they
    change.  [other] is what the database does on its own, such as a flush. *)
Class commitEnv {K : BatchSkl} := {
  Env : Type;
  MemRef : Type;
  env_apply : Env -> Batch -> MemRef -> Env * option error;
  env_write : Env -> Batch -> Env * result MemRef;
  env_other : nat -> Env -> Env;
}.

Section pipeline.
Context {K : BatchSkl} {CE : commitEnv}.

(** The calls.  The callback [prepare] of [AllocateSeqNum] may call [directWrite] with a
    batch; [resume] is the rest of it, given the result. *)
Inductive call :=
| Commit (syncWAL noSyncWait : bool)
| AllocateSeqNum (count : Z) (prepare : Z -> Env -> Env * option Batch)
    (resume : Z -> option error -> Env -> Env) (apply : Z -> Env -> Env).

(** Program counter of a goroutine: what it is about to do. *)
Inductive pc :=
| PStart                                  (* commitQueueSem <- struct{}{} *)
| PSync                                   (* logSyncQSem <- struct{}{} *)
| PPrepare                                (* commit.Add *)
| PLock                                   (* mu.Lock() *)
| PEnq                                    (* headTail.Load() in enqueue *)
| PSlot (head : Z)                        (* slot.Load() in enqueue *)
| PStore (head : Z)                       (* slot.Store(b) *)
| PInc                                    (* headTail.Add *)
| PSeq                                    (* logSeqNum.Add *)
| PWrite                                  (* env.write *)
| PUnlock (r : result MemRef)             (* mu.Unlock() in prepare *)
| PApply (m : MemRef)                     (* env.apply *)
| PSpin (logSeqNum : Z)                   (* visibleSeqNum.Load() in AllocateSeqNum *)
| PCallback                               (* prepare(b.SeqNum()) *)
| PDirectSem (b : Batch)                  (* logSyncQSem <- struct{}{} in directWrite *)
| PDirect (b : Batch)                     (* env.write in directWrite *)
| PDirectWait (err : option error)        (* syncWG.Wait() *)
| PUnlockA                                (* mu.Unlock() in AllocateSeqNum *)
| PApplyA                                 (* apply(b.SeqNum()) *)
| PPublish                                (* applied.Store(true) *)
| PLoad                                   (* headTail.Load() in dequeueApplied *)
| PSlotLoad (ptrs : Z)                    (* slot.Load() *)
| PApplied (ptrs : Z) (b : nat)           (* b.applied.Load() *)
| PCas (ptrs : Z) (b : nat)               (* headTail.CompareAndSwap *)
| PNil (ptrs : Z) (b : nat)               (* slot.Store(nil) *)
| PCheck (t : nat)                        (* t.applied.Load() in publish *)
| PVis (t : nat)                          (* visibleSeqNum.Load() *)
| PVisCas (t : nat) (cur new : Z)         (* visibleSeqNum.CompareAndSwap *)
| PDone (t : nat)                         (* t.commit.Done() *)
| PWait                                   (* b.commit.Wait() *)
| PRelease                                (* <-commitQueueSem *)
| PReturn                                 (* b.commitErr *)
| Returned (err : option error)
| Skipped                                 (* the batch is empty *)
| Rejected                                (* ErrInvalidBatch *)
| Failed (err : error)                    (* write or apply failed *)
| Panicked (msg : string).

(** The waiter of a batch in the queue of the log: not there yet, queued, released. *)
Inductive waiting := NotQueued | Queued | Signalled.
#[export] Instance waiting_eq_dec : EqDecision waiting.
Proof. solve_decision. Defined.

(** A batch and the fields of it that only the pipeline uses.  [cb_published] is
    history: [publish] is done with the batch. *)
Record cbatch := mkCbatch {
  cb_batch : Batch;
  cb_commit : Z;
  cb_fsyncWait : Z;
  cb_commitErr : option error;
  cb_published : bool;
}.
#[export] Instance cbatch_settable : Settable cbatch := fun b =>
  mkCbatch (cb_batch b) (cb_commit b) (cb_fsyncWait b) (cb_commitErr b) (cb_published b).

(** A goroutine.  [p_sync] is its waiter in the queue of the log, [p_syncWG] and
    [p_syncErr] are the variables of [directWrite], [p_snap] is history: how many batches
    had been dequeued when it last read [headTail]. *)
Record proc := mkProc {
  p_call : call;
  p_pc : pc;
  p_sync : waiting;
  p_syncWG : Z;
  p_syncErr : option error;
  p_snap : nat;
}.
#[export] Instance proc_settable : Settable proc := fun p =>
  mkProc (p_call p) (p_pc p) (p_sync p) (p_syncWG p) (p_syncErr p) (p_snap p).

(** The pipeline.  The batch of the [i]-th goroutine is the [i]-th of [heap]; pointers to
    batches are indexes.  The semaphores are the numbers of elements in the channels.
    History: the batches in the order they were enqueued, how many of them were dequeued,
    the batches written to the log, and those that were applied. *)
Record commitPipeline := mkPipeline {
  q_headTail : Z;
  q_slots : list (option nat);
  mu : option nat;
  commitQueueSem : Z;
  logSyncQSem : Z;
  logSeqNum : Z;
  visibleSeqNum : Z;
  env : Env;
  heap : list cbatch;
  procs : list proc;
  g_order : list nat;
  g_tail : nat;
  g_wal : list nat;
  g_applied : list nat;
}.
#[export] Instance commitPipeline_settable : Settable commitPipeline := fun s =>
  mkPipeline (q_headTail s) (q_slots s) (mu s) (commitQueueSem s) (logSyncQSem s) (logSeqNum s)
    (visibleSeqNum s) (env s) (heap s) (procs s) (g_order s) (g_tail s) (g_wal s)
    (g_applied s).

Implicit Types s : commitPipeline.
Implicit Types p : proc.

Definition sem_cap : Z := SyncConcurrency - 1.

Definition new_proc (c : call) : proc := mkProc c PStart NotQueued 0 None 0.
Definition new_cbatch (b : Batch) : cbatch := mkCbatch b 0 0 None false.

(** A new pipeline whose log and visible sequence numbers are [base], and the calls that
    are going to be made.  ([AllocateSeqNum] makes its own batch.) *)
Definition newCommitPipeline (base : Z) (e : Env) (calls : list (call * Batch)) : commitPipeline :=
  mkPipeline 0 (replicate (Z.to_nat SyncConcurrency) None) None 0 0 base base e
    ((fun c => new_cbatch c.2) <$> calls) ((fun c => new_proc c.1) <$> calls) [] 0 [] [].

Definition goto (i : nat) (k : pc) s : commitPipeline :=
  s <| procs := alter (fun p => p <| p_pc := k |>) i (procs s) |>.
Definition set_proc (i : nat) (f : proc -> proc) s : commitPipeline :=
  s <| procs := alter f i (procs s) |>.
Definition set_batch (i : nat) (f : cbatch -> cbatch) s : commitPipeline :=
  s <| heap := alter f i (heap s) |>.

(** [b.db = nil]: the batch is not used again after an error. *)
Definition no_reuse (i : nat) s : commitPipeline :=
  set_batch i (fun c => c <| cb_batch := ((cb_batch c) <| b_db := false |>) |>) s.

(** A panic ends the goroutine. *)
Definition or_panic {A} (i : nat) s (r : go A) (k : A -> commitPipeline) : commitPipeline :=
  match r with Ret a => k a | Panic msg => goto i (Panicked msg) s end.

(** [WaitGroup.Done] of the counter of [t.commit]. *)
Definition commit_Done (t : nat) s : go commitPipeline :=
  match heap s !! t with
  | Some b =>
      if cb_commit b <=? 0 then Panic "sync: negative WaitGroup counter"
      else Ret (set_batch t (fun b => b <| cb_commit := cb_commit b - 1 |>) s)
  | None => Panic "nil pointer"
  end.

(** [c <- struct{}{}] blocks while the channel is full. *)
Definition acquire_commitQueueSem s : option commitPipeline :=
  if commitQueueSem s <? sem_cap then Some (s <| commitQueueSem := commitQueueSem s + 1 |>) else None.
Definition acquire_logSyncQSem s : option commitPipeline :=
  if logSyncQSem s <? sem_cap then Some (s <| logSyncQSem := logSyncQSem s + 1 |>) else None.

(** ** enqueue *)
Definition enqueue_load (i : nat) s : commitPipeline :=
  let '(head, tail) := commitQueue_unpack (q_headTail s) in
  if Z.land (u32 (tail + SyncConcurrency)) (Z.shiftl 1 dequeueBits - 1) =? head
  then goto i (Panicked "pebble: not reached") s
  else goto i (PSlot head) s.
(** The goroutine spins until the slot is free. *)
Definition enqueue_slot (i : nat) (head : Z) s : option commitPipeline :=
  match q_slots s !! slot_index head with
  | Some None => Some (goto i (PStore head) s)
  | _ => None
  end.
Definition enqueue_store (i : nat) (head : Z) s : commitPipeline :=
  goto i PInc (s <| q_slots := <[slot_index head := Some i]> (q_slots s) |>).
Definition enqueue_inc (i : nat) s : commitPipeline :=
  goto i PSeq (s <| q_headTail := u64 (q_headTail s + Z.shiftl 1 dequeueBits) |>
                 <| g_order := g_order s ++ [i] |>).

(** ** dequeueApplied *)
Definition dequeue_load (i : nat) s : commitPipeline :=
  let '(head, tail) := commitQueue_unpack (q_headTail s) in
  if tail =? head then goto i PWait s
  else set_proc i (fun p => p <| p_pc := PSlotLoad (q_headTail s) |> <| p_snap := g_tail s |>) s.
Definition dequeue_slot (i : nat) (ptrs : Z) s : commitPipeline :=
  let '(head, tail) := commitQueue_unpack ptrs in
  match default None (q_slots s !! slot_index tail) with
  | None => goto i PWait s
  | Some b => goto i (PApplied ptrs b) s
  end.
Definition is_applied (b : nat) s : bool :=
  match heap s !! b with Some c => b_applied (cb_batch c) | None => false end.
Definition dequeue_applied (i : nat) (ptrs : Z) (b : nat) s : commitPipeline :=
  if is_applied b s then goto i (PCas ptrs b) s else goto i PWait s.
Definition dequeue_cas (i : nat) (ptrs : Z) (b : nat) s : commitPipeline :=
  let '(head, tail) := commitQueue_unpack ptrs in
  let ptrs2 := commitQueue_pack head (u32 (tail + 1)) in
  if q_headTail s =? ptrs
  then goto i (PNil ptrs b) (s <| q_headTail := ptrs2 |> <| g_tail := S (g_tail s) |>)
  else goto i PLoad s.
Definition dequeue_nil (i : nat) (ptrs : Z) (b : nat) s : commitPipeline :=
  let '(head, tail) := commitQueue_unpack ptrs in
  goto i (PCheck b) (s <| q_slots := <[slot_index tail := None]> (q_slots s) |>).

(** ** publish *)
Definition publish_start (i : nat) s : commitPipeline :=
  goto i PLoad (set_batch i (fun b => b <| cb_batch := ((cb_batch b) <| b_applied := true |>) |>) s).
Definition publish_check (i t : nat) s : commitPipeline :=
  if is_applied t s then goto i (PVis t) s else goto i (Panicked "not reached") s.
Definition publish_load (i t : nat) s : commitPipeline :=
  match heap s !! t with
  | None => goto i (Panicked "nil pointer") s
  | Some c =>
      let curSeqNum := visibleSeqNum s in
      let '(b, seqNum) := batch_SeqNum (cb_batch c) in
      let s := set_batch t (fun c => c <| cb_batch := b |>) s in
      or_panic i s (Count b) (fun n =>
        let newSeqNum := u64 (seqNum + n) in
        if newSeqNum <=? curSeqNum then goto i (PDone t) s
        else goto i (PVisCas t curSeqNum newSeqNum) s)
  end.
Definition publish_cas (i t : nat) (cur new : Z) s : commitPipeline :=
  if visibleSeqNum s =? cur then goto i (PDone t) (s <| visibleSeqNum := new |>)
  else goto i (PVis t) s.
Definition publish_done (i t : nat) s : commitPipeline :=
  or_panic i s (commit_Done t s) (fun s =>
    goto i PLoad (set_batch t (fun b => b <| cb_published := true |>) s)).
Definition publish_wait (i : nat) s : option commitPipeline :=
  match heap s !! i with
  | Some b => if cb_commit b =? 0 then Some (goto i PRelease s) else None
  | None => None
  end.

(** ** prepare *)
Definition prepare_add (i : nat) (syncWAL noSyncWait : bool) s : commitPipeline :=
  match heap s !! i with
  | None => goto i (Panicked "nil pointer") s
  | Some c =>
      or_panic i s (Count (cb_batch c)) (fun n =>
        if n =? invalidBatchCount then goto i Rejected (no_reuse i s)
        else
          let add_commit k := set_batch i (fun c => c <| cb_commit := cb_commit c + k |>) in
          let s :=
            if negb syncWAL then add_commit 1 s
            else if noSyncWait
            then set_batch i (fun c => c <| cb_fsyncWait := cb_fsyncWait c + 1 |>) (add_commit 1 s)
            else add_commit 2 s in
          goto i PLock s)
  end.
Definition prepare_lock (i : nat) s : option commitPipeline :=
  match mu s with
  | None => Some (goto i PEnq (s <| mu := Some i |>))
  | Some _ => None
  end.
Definition prepare_seq (i : nat) s : commitPipeline :=
  match heap s !! i with
  | None => goto i (Panicked "nil pointer") s
  | Some c =>
      or_panic i s (Count (cb_batch c)) (fun n =>
        let new := u64 (logSeqNum s + n) in
        or_panic i s (setSeqNum (cb_batch c) (u64 (new - n))) (fun b =>
          goto i PWrite (set_batch i (fun c => c <| cb_batch := b |>) (s <| logSeqNum := new |>))))
  end.
(** A successful write with a wait group queues the waiter in the log. *)
Definition prepare_write (i : nat) (syncWAL : bool) s : commitPipeline :=
  match heap s !! i with
  | None => goto i (Panicked "nil pointer") s
  | Some c =>
      let '(e, r) := env_write (env s) (cb_batch c) in
      let s := s <| env := e |> in
      match r with
      | Err _ => goto i (PUnlock r) s
      | Ok _ =>
          let s := s <| g_wal := g_wal s ++ [i] |> in
          goto i (PUnlock r) (if syncWAL then set_proc i (fun p => p <| p_sync := Queued |>) s else s)
      end
  end.
Definition prepare_unlock (i : nat) (r : result MemRef) s : commitPipeline :=
  let s := s <| mu := None |> in
  match r with
  | Ok m => goto i (PApply m) s
  | Err e => goto i (Failed e) (no_reuse i s)    (* Commit returns the error *)
  end.

(** ** Commit *)
Definition Commit_start (i : nat) s : option commitPipeline :=
  match heap s !! i with
  | None => None
  | Some c =>
      if Empty (cb_batch c) then Some (goto i Skipped s)
      else s ← acquire_commitQueueSem s; Some (goto i PSync s)
  end.
Definition Commit_sync (i : nat) (syncWAL : bool) s : option commitPipeline :=
  if syncWAL then s ← acquire_logSyncQSem s; Some (goto i PPrepare s)
  else Some (goto i PPrepare s).
Definition Commit_apply (i : nat) (m : MemRef) s : commitPipeline :=
  match heap s !! i with
  | None => goto i (Panicked "nil pointer") s
  | Some c =>
      let '(e, err) := env_apply (env s) (cb_batch c) m in
      let s := s <| env := e |> in
      match err with
      | Some err =>
          goto i (Failed err) (no_reuse i s)
      | None => goto i PPublish (s <| g_applied := g_applied s ++ [i] |>)
      end
  end.
Definition release_commitQueueSem (i : nat) s : commitPipeline :=
  goto i PReturn (s <| commitQueueSem := commitQueueSem s - 1 |>).
Definition Commit_return (i : nat) (noSyncWait : bool) s : commitPipeline :=
  match heap s !! i with
  | None => goto i (Panicked "nil pointer") s
  | Some c =>
      match (if noSyncWait then None else cb_commitErr c) with
      | Some err =>
          goto i (Returned (Some err)) (no_reuse i s)
      | None => goto i (Returned None) s
      end
  end.

(** ** AllocateSeqNum *)
Definition Allocate_start (i : nat) (count : Z) s : option commitPipeline :=
  let b := (newBatch false) <| b_data := replicate batchHeaderLen Byte.x00 |>
             <| b_cap := batchHeaderLen |> in
  let b := setCount b (u32 count) in
  let s := set_batch i (fun c => c <| cb_batch := b |> <| cb_commit := cb_commit c + 1 |>) s in
  s ← acquire_commitQueueSem s; Some (goto i PLock s).
Definition Allocate_seq (i : nat) (count : Z) s : commitPipeline :=
  match heap s !! i with
  | None => goto i (Panicked "nil pointer") s
  | Some c =>
      let new := u64 (logSeqNum s + u64 count) in
      let l := u64 (new - u64 count) in
      let '(new, seqNum) := if l =? 0 then (u64 (new + 1), u64 (l + 1)) else (new, l) in
      or_panic i s (setSeqNum (cb_batch c) seqNum) (fun b =>
        goto i (PSpin l) (set_batch i (fun c => c <| cb_batch := b |>) (s <| logSeqNum := new |>)))
  end.
(** The goroutine spins until the earlier writes are visible. *)
Definition Allocate_spin (i : nat) (l : Z) s : option commitPipeline :=
  if visibleSeqNum s =? l then Some (goto i PCallback s) else None.
(** [b.SeqNum()] *)
Definition with_SeqNum (i : nat) s (k : Z -> commitPipeline -> commitPipeline) : commitPipeline :=
  match heap s !! i with
  | None => goto i (Panicked "nil pointer") s
  | Some c =>
      let '(b, seqNum) := batch_SeqNum (cb_batch c) in
      k seqNum (set_batch i (fun c => c <| cb_batch := b |>) s)
  end.
Definition Allocate_prepare (i : nat) (prepare : Z -> Env -> Env * option Batch) s : commitPipeline :=
  with_SeqNum i s (fun seqNum s =>
    let '(e, ob) := prepare seqNum (env s) in
    let s := s <| env := e |> in
    match ob with
    | None => goto i PUnlockA s
    | Some b => goto i (PDirectSem b) (set_proc i (fun p => p <| p_syncWG := p_syncWG p + 1 |>) s)
    end).
Definition directWrite_sem (i : nat) (b : Batch) s : option commitPipeline :=
  s ← acquire_logSyncQSem s; Some (goto i (PDirect b) s).
Definition directWrite_write (i : nat) (b : Batch) s : commitPipeline :=
  let '(e, r) := env_write (env s) b in
  let s := s <| env := e |> in
  match r with
  | Err err => goto i (PDirectWait (Some err)) s
  | Ok _ =>
      goto i (PDirectWait None)
        (set_proc i (fun p => p <| p_sync := Queued |>) (s <| g_wal := g_wal s ++ [i] |>))
  end.
Definition firstError (err0 err1 : option error) : option error :=
  match err0 with Some _ => err0 | None => err1 end.
Definition directWrite_wait (i : nat) (err : option error) (resume : Z -> option error -> Env -> Env)
    s : option commitPipeline :=
  match procs s !! i with
  | None => None
  | Some p =>
      if p_syncWG p =? 0
      then Some (with_SeqNum i s (fun seqNum s =>
             goto i PUnlockA (s <| env := resume seqNum (firstError err (p_syncErr p)) (env s) |>)))
      else None
  end.
Definition Allocate_unlock (i : nat) s : commitPipeline := goto i PApplyA (s <| mu := None |>).
Definition Allocate_apply (i : nat) (apply : Z -> Env -> Env) s : commitPipeline :=
  with_SeqNum i s (fun seqNum s =>
    goto i PPublish (s <| env := apply seqNum (env s) |> <| g_applied := g_applied s ++ [i] |>)).

(** ** Steps *)

(** One step of the [i]-th goroutine; [None] when it has returned or is blocked. *)
Definition go_step (i : nat) s : option commitPipeline :=
  p ← procs s !! i;
  match p_pc p, p_call p with
  | PStart, Commit _ _ => Commit_start i s
  | PStart, AllocateSeqNum count _ _ _ => Allocate_start i count s
  | PSync, Commit syncWAL _ => Commit_sync i syncWAL s
  | PPrepare, Commit syncWAL noSyncWait => Some (prepare_add i syncWAL noSyncWait s)
  | PLock, _ => prepare_lock i s
  | PEnq, _ => Some (enqueue_load i s)
  | PSlot head, _ => enqueue_slot i head s
  | PStore head, _ => Some (enqueue_store i head s)
  | PInc, _ => Some (enqueue_inc i s)
  | PSeq, Commit _ _ => Some (prepare_seq i s)
  | PSeq, AllocateSeqNum count _ _ _ => Some (Allocate_seq i count s)
  | PWrite, Commit syncWAL _ => Some (prepare_write i syncWAL s)
  | PUnlock r, _ => Some (prepare_unlock i r s)
  | PApply m, _ => Some (Commit_apply i m s)
  | PSpin l, _ => Allocate_spin i l s
  | PCallback, AllocateSeqNum _ prepare _ _ => Some (Allocate_prepare i prepare s)
  | PDirectSem b, _ => directWrite_sem i b s
  | PDirect b, _ => Some (directWrite_write i b s)
  | PDirectWait err, AllocateSeqNum _ _ resume _ => directWrite_wait i err resume s
  | PUnlockA, _ => Some (Allocate_unlock i s)
  | PApplyA, AllocateSeqNum _ _ _ apply => Some (Allocate_apply i apply s)
  | PPublish, _ => Some (publish_start i s)
  | PLoad, _ => Some (dequeue_load i s)
  | PSlotLoad ptrs, _ => Some (dequeue_slot i ptrs s)
  | PApplied ptrs b, _ => Some (dequeue_applied i ptrs b s)
  | PCas ptrs b, _ => Some (dequeue_cas i ptrs b s)
  | PNil ptrs b, _ => Some (dequeue_nil i ptrs b s)
  | PCheck t, _ => Some (publish_check i t s)
  | PVis t, _ => Some (publish_load i t s)
  | PVisCas t cur new, _ => Some (publish_cas i t cur new s)
  | PDone t, _ => Some (publish_done i t s)
  | PWait, _ => publish_wait i s
  | PRelease, _ => Some (release_commitQueueSem i s)
  | PReturn, Commit _ noSyncWait => Some (Commit_return i noSyncWait s)
  | PReturn, AllocateSeqNum _ _ _ _ => Some (goto i (Returned None) s)
  | _, _ => None
  end.

(** The log has synced the record of the [i]-th goroutine, or failed to: it stores the
    error, releases the wait group it was given and takes an element from the channel of
    the semaphore. *)
Definition sync_step (i : nat) (err : option error) s : option commitPipeline :=
  p ← procs s !! i;
  if decide (p_sync p = Queued) then
    let s := set_proc i (fun p => p <| p_sync := Signalled |>)
               (s <| logSyncQSem := logSyncQSem s - 1 |>) in
    match p_call p with
    | Commit _ true =>
        Some (set_batch i (fun c => c <| cb_commitErr := err |> <| cb_fsyncWait := cb_fsyncWait c - 1 |>) s)
    | Commit _ false =>
        match commit_Done i (set_batch i (fun c => c <| cb_commitErr := err |>) s) with
        | Ret s => Some s
        | Panic msg => Some (goto i (Panicked msg) s)
        end
    | AllocateSeqNum _ _ _ _ =>
        Some (set_proc i (fun p => p <| p_syncErr := err |> <| p_syncWG := p_syncWG p - 1 |>) s)
    end
  else None.

Inductive event :=
| EGo (i : nat)
| ESync (i : nat) (err : option error)
| EOther (n : nat).

Definition pipeline_step (e : event) s : option commitPipeline :=
  match e with
  | EGo i => go_step i s
  | ESync i err => sync_step i err s
  | EOther n => Some (s <| env := env_other n (env s) |>)
  end.

Fixpoint pipeline_run (es : list event) s : option commitPipeline :=
  match es with
  | [] => Some s
  | e :: es => s' ← pipeline_step e s; pipeline_run es s'
  end.
End pipeline.
