(* ===== verification/CommitFacts.v ===== *)
(** The commit pipeline (Commit.v): what its state satisfies in every execution, and the
    transitions of a goroutine that are possible in such a state. *)
From S2P Require Import Prelude.
From S2P Require Import SyncQueue.
From S2P Require Import Batch.
From S2P Require Import Commit.

Local Open Scope Z_scope.

(** ** Words *)
Lemma commitQueue_unpack_eq : commitQueue_unpack = unpack.
Proof. done. Qed.

(** The word that packs the numbers of batches enqueued and dequeued so far. *)
Definition word (h t : nat) : Z := u32 (Z.of_nat h) * 2 ^ 32 + u32 (Z.of_nat t).

Lemma unpack_word_u32 h t : commitQueue_unpack (word h t) = (u32 (Z.of_nat h), u32 (Z.of_nat t)).
Proof. rewrite commitQueue_unpack_eq. apply unpack_word; apply u32_range. Qed.

Lemma word_range h t : 0 <= word h t < 2 ^ 64.
Proof.
  unfold word. pose proof (u32_range (Z.of_nat h)). pose proof (u32_range (Z.of_nat t)). lia.
Qed.

Lemma word_inj h t h' t' : word h t = word h' t' ->
  u32 (Z.of_nat h) = u32 (Z.of_nat h') /\ u32 (Z.of_nat t) = u32 (Z.of_nat t').
Proof.
  intros E. apply (f_equal commitQueue_unpack) in E. rewrite !unpack_word_u32 in E. by injection E.
Qed.

Lemma u32_succ x : u32 (u32 x + 1) = u32 (x + 1).
Proof. unfold u32. by rewrite Z.add_mod_idemp_l. Qed.

(** Adding to the head overflows harmlessly. *)
Lemma word_inc h t : u64 (word h t + Z.shiftl 1 dequeueBits) = word (S h) t.
Proof.
  unfold word, dequeueBits. change (Z.shiftl 1 32) with (2 ^ 32).
  rewrite Nat2Z.inj_succ, <- Z.add_1_r, <- u32_succ.
  pose proof (u32_range (Z.of_nat h)) as Hh. pose proof (u32_range (Z.of_nat t)) as Ht.
  set (x := u32 (Z.of_nat h)) in *. set (y := u32 (Z.of_nat t)) in *.
  unfold u64. change (u32 (x + 1)) with ((x + 1) mod 2 ^ 32).
  destruct (decide (x + 1 = 2 ^ 32)) as [E|E].
  - rewrite E, Z.mod_same by lia. replace (x * 2 ^ 32 + y + 2 ^ 32) with (y + 1 * 2 ^ 64) by lia.
    rewrite Z.mod_add, Z.mod_small; lia.
  - rewrite (Z.mod_small (x + 1)), Z.mod_small by lia. lia.
Qed.

Lemma pack_word h t : commitQueue_pack (u32 (Z.of_nat h)) (u32 (u32 (Z.of_nat t) + 1)) = word h (S t).
Proof.
  unfold commitQueue_pack, dequeueBits, word. change (Z.shiftl 1 32 - 1) with (2 ^ 32 - 1).
  rewrite u32_succ, Nat2Z.inj_succ, <- Z.add_1_r.
  pose proof (u32_range (Z.of_nat h)) as Hh. pose proof (u32_range (Z.of_nat t + 1)) as Ht.
  rewrite land_ones_mod, Z.mod_small by lia.
  rewrite u64_small by (rewrite Z.shiftl_mul_pow2 by lia; lia).
  rewrite Z.lor_comm, lor_shiftl_add by lia. lia.
Qed.

(** The size of the ring as a natural number. *)
Definition ring_size : nat := Z.to_nat SyncConcurrency.
Lemma ring_size_eq : Z.of_nat ring_size = 4096.
Proof. done. Qed.
#[global] Opaque ring_size.

Definition slot_of (k : nat) : nat := slot_index (Z.of_nat k).
Lemma slot_of_u32 k : slot_index (u32 (Z.of_nat k)) = slot_of k.
Proof.
  unfold slot_of. rewrite !slot_index_mod. unfold u32, SyncConcurrency. f_equal.
  change (2 ^ 32) with (4096 * 2 ^ 20). rewrite Z.rem_mul_r by lia.
  rewrite (Z.mul_comm 4096 (_ mod _)), Z.mod_add by lia. by rewrite Z.mod_mod.
Qed.
Lemma slot_of_lt k : (slot_of k < ring_size)%nat.
Proof. pose proof (slot_index_lt (Z.of_nat k)). pose proof ring_size_eq. unfold slot_of, SyncConcurrency in *. lia. Qed.
Lemma slot_of_ne j k : (j < k < j + ring_size)%nat -> slot_of j <> slot_of k.
Proof. intros H. pose proof ring_size_eq. apply slot_index_ne; unfold SyncConcurrency; lia. Qed.
Lemma slot_of_wrap k : slot_of (k + ring_size) = slot_of k.
Proof.
  unfold slot_of. rewrite !slot_index_mod. f_equal. rewrite Nat2Z.inj_add.
  rewrite ring_size_eq. change 4096 with (1 * SyncConcurrency). by rewrite Z.mod_add.
Qed.

(** The check for a full queue is exact although the indexes wrap around. *)
Lemma full_check h t : (t <= h <= t + ring_size)%nat ->
  (Z.land (u32 (u32 (Z.of_nat t) + SyncConcurrency)) (Z.shiftl 1 dequeueBits - 1) =? u32 (Z.of_nat h))
    = bool_decide (h = t + ring_size)%nat.
Proof.
  intros Hb. pose proof ring_size_eq. unfold dequeueBits. change (Z.shiftl 1 32 - 1) with (2 ^ 32 - 1).
  rewrite land_ones_mod by lia. unfold u32. rewrite Z.mod_mod, Z.add_mod_idemp_l by lia.
  unfold SyncConcurrency. case_bool_decide as E.
  - apply Z.eqb_eq. subst. f_equal. lia.
  - apply Z.eqb_neq. intros Em. apply E.
    assert ((Z.of_nat t + 4096 - Z.of_nat h) mod 2 ^ 32 = 0) as Ed.
    { rewrite Zminus_mod, Em, Z.sub_diag. done. }
    rewrite Z.mod_small in Ed by lia. lia.
Qed.

Lemma empty_check h t : (t <= h <= t + ring_size)%nat ->
  (u32 (Z.of_nat t) =? u32 (Z.of_nat h)) = bool_decide (h = t).
Proof.
  intros Hb. pose proof ring_size_eq. case_bool_decide as E; [subst; apply Z.eqb_refl|].
  apply Z.eqb_neq. intros Em. apply E. unfold u32 in Em.
  assert ((Z.of_nat h - Z.of_nat t) mod 2 ^ 32 = 0) as Ed.
  { rewrite Zminus_mod, Em, Z.sub_diag. done. }
  rewrite Z.mod_small in Ed by lia. lia.
Qed.

(** A snapshot that is less than [2 ^ 32] dequeues old is current when its word is. *)
Lemma word_current h t h' t' :
  word h t = word h' t' -> (t' <= t)%nat -> Z.of_nat t < Z.of_nat t' + 2 ^ 32 ->
  (t <= h <= t + ring_size)%nat -> (t' <= h' <= t' + ring_size)%nat -> t = t' /\ h = h'.
Proof.
  intros E Hle Hlt Hh Hh'. pose proof ring_size_eq. apply word_inj in E as [Eh Et]. unfold u32 in *.
  assert ((Z.of_nat t - Z.of_nat t') mod 2 ^ 32 = 0) as Ed.
  { rewrite Zminus_mod, Et, Z.sub_diag. done. }
  rewrite Z.mod_small in Ed by lia. assert (t = t') as -> by lia. split; [done|].
  destruct (decide (h <= h')%nat).
  - assert ((Z.of_nat h' - Z.of_nat h) mod 2 ^ 32 = 0) as Ed'.
    { rewrite Zminus_mod, Eh, Z.sub_diag. done. }
    rewrite Z.mod_small in Ed' by lia. lia.
  - assert ((Z.of_nat h - Z.of_nat h') mod 2 ^ 32 = 0) as Ed'.
    { rewrite Zminus_mod, Eh, Z.sub_diag. done. }
    rewrite Z.mod_small in Ed' by lia. lia.
Qed.

Section facts.
Context {K : BatchSkl} {CE : commitEnv}.
Implicit Types s : commitPipeline.
Implicit Types p q : proc.
Implicit Types c : cbatch.

(** ** Program counters *)

(** The goroutine has the mutex. *)
Definition holds_mu k : bool :=
  match k with
  | PEnq | PSlot _ | PStore _ | PInc | PSeq | PWrite | PUnlock _ | PSpin _ | PCallback
  | PDirectSem _ | PDirect _ | PDirectWait _ | PUnlockA => true
  | _ => false
  end.
(** It has an element in [commitQueueSem]; those that fail leave it there. *)
Definition sem_held k : bool :=
  match k with PStart | PReturn | Returned _ | Skipped => false | _ => true end.
(** It has taken part in the semaphore and is not rejected. *)
Definition passed k : bool :=
  match k with PStart | Skipped => false | _ => true end.
(** It has incremented [b.commit]. *)
Definition added k : bool :=
  match k with PStart | PSync | PPrepare | Skipped | Rejected => false | _ => true end.
(** Its batch has been put in the queue. *)
Definition enqueued k : bool :=
  match k with
  | PStart | PSync | PPrepare | Skipped | Rejected | PLock | PEnq | PSlot _ | PStore _ | PInc => false
  | _ => true
  end.
(** Its batch has a sequence number. *)
Definition numbered k : bool :=
  match k with PSeq => false | _ => enqueued k end.
(** Its batch may be in the log. *)
Definition written k : bool :=
  match k with
  | PWrite | PSpin _ | PCallback | PDirectSem _ | PDirect _ => false
  | _ => numbered k
  end.
(** Its batch is applied. *)
Definition has_applied k : bool :=
  match k with
  | PLoad | PSlotLoad _ | PApplied _ _ | PCas _ _ | PNil _ _ | PCheck _ | PVis _ | PVisCas _ _ _
  | PDone _ | PWait | PRelease | PReturn | Returned _ => true
  | _ => false
  end.
(** The changes of its batch have been made. *)
Definition done_apply k : bool := match k with PPublish => true | _ => has_applied k end.
(** It runs the callback [prepare] of [AllocateSeqNum]. *)
Definition in_callback k : bool :=
  match k with PCallback | PDirectSem _ | PDirect _ | PDirectWait _ | PUnlockA => true | _ => false end.
(** It has waited for its batch to be published. *)
Definition finished k : bool :=
  match k with PRelease | PReturn | Returned _ => true | _ => false end.
(** It has taken a batch from the queue and has to publish it. *)
Definition carries k : option nat :=
  match k with PNil _ t | PCheck t | PVis t | PVisCas t _ _ | PDone t => Some t | _ => None end.
Definition in_directWrite k : bool :=
  match k with PDirectSem _ | PDirect _ | PDirectWait _ => true | _ => false end.

(** The call waits for the sync of the log. *)
Definition waits (c : call) : bool := match c with Commit true false => true | _ => false end.
Definition syncs (c : call) : bool := match c with Commit true _ => true | _ => false end.

Definition fits k (c : call) : bool :=
  match c with
  | Commit _ _ =>
      match k with
      | PSpin _ | PCallback | PDirectSem _ | PDirect _ | PDirectWait _ | PUnlockA | PApplyA
      | Panicked _ => false
      | _ => true
      end
  | AllocateSeqNum _ _ _ _ =>
      match k with
      | PSync | PPrepare | PWrite | PUnlock _ | PApply _ | Skipped | Rejected | Failed _
      | Panicked _ => false
      | _ => true
      end
  end.

(** ** Batches *)
Definition seqn c : Z := Uint64 (b_data (cb_batch c)).
Definition endn c : Z := seqn c + b_count (cb_batch c).
Definition with_seq (z : Z) c : cbatch :=
  c <| cb_batch := ((cb_batch c) <| b_data := copy_at (b_data (cb_batch c)) 0 (PutUint64 z) |>) |>.
Definition cnt p c : Z :=
  match p_call p with Commit _ _ => b_count (cb_batch c) | AllocateSeqNum count _ _ _ => count end.
Definition one (b : bool) : Z := if b then 1 else 0.

(** The batch of a call that has returned without publishing it, or with an error:
    [b.db] is nil after an error, so that the batch is not used again. *)
Definition returned_batch k c : Prop :=
  match k with
  | Skipped => Empty (cb_batch c) = true
  | Rejected => b_count (cb_batch c) = invalidBatchCount /\ b_db (cb_batch c) = false
  | Failed _ | Returned (Some _) => b_db (cb_batch c) = false
  | _ => True
  end.

(** What holds of a goroutine and its batch. *)
Record LocalOK p c : Prop := {
  lo_fits : fits (p_pc p) (p_call p) = true;
  lo_cap : (length (b_data (cb_batch c)) <= b_cap (cb_batch c))%nat;
  lo_len : passed (p_pc p) = true -> (12 <= length (b_data (cb_batch c)))%nat;
  lo_cnt : 0 <= cnt p c < 2 ^ 32;
  lo_count : passed (p_pc p) = true -> b_count (cb_batch c) = cnt p c;
  lo_applied : b_applied (cb_batch c) = has_applied (p_pc p);
  lo_commit : cb_commit c = one (added (p_pc p) && negb (cb_published c)) +
                one (added (p_pc p) && waits (p_call p) && bool_decide (p_sync p <> Signalled));
  lo_published : cb_published c = true -> has_applied (p_pc p) = true;
  lo_sync : p_sync p <> NotQueued -> written (p_pc p) = true /\
              (syncs (p_call p) = true \/ exists n f g h, p_call p = AllocateSeqNum n f g h);
  lo_queued : syncs (p_call p) = true -> written (p_pc p) = true ->
                match p_pc p with
                | PUnlock (Err _) | Failed _ => True
                | _ => p_sync p <> NotQueued
                end;
  lo_syncWG : p_syncWG p = one (in_directWrite (p_pc p) && bool_decide (p_sync p <> Signalled));
  lo_finished : finished (p_pc p) = true ->
                cb_published c = true /\ (waits (p_call p) = true -> p_sync p = Signalled);
  lo_error err : p_pc p = Returned err ->
                err = if waits (p_call p) then cb_commitErr c else None;
  lo_returned : returned_batch (p_pc p) c;
  lo_commitErr : cb_commitErr c <> None -> p_sync p = Signalled;
  lo_direct : p_pc p = PDirectWait None -> p_sync p <> NotQueued;
  lo_alloc n f g h : p_call p = AllocateSeqNum n f g h -> p_sync p = Queued -> in_directWrite (p_pc p) = true;
}.

(** ** The transitions *)
Definition jump (i : nat) p k s : commitPipeline := s <| procs := <[i := p <| p_pc := k |>]> (procs s) |>.
Definition put (i : nat) c s : commitPipeline := s <| heap := <[i := c]> (heap s) |>.

Definition alloc_batch (count : Z) c : cbatch :=
  c <| cb_batch := (setCount ((newBatch false) <| b_data := replicate batchHeaderLen Byte.x00 |>
                     <| b_cap := batchHeaderLen |>) (u32 count)) |>
    <| cb_commit := cb_commit c + 1 |>.
Definition nil_db c : cbatch := c <| cb_batch := ((cb_batch c) <| b_db := false |>) |>.

(** A goroutine [p] with batch [c] gets from state [s] to the last argument.  The numbers
    of batches enqueued and dequeued stand for the packed word. *)
Inductive gstep s (i : nat) p c : commitPipeline -> Prop :=
| g_skip sy ns : p_pc p = PStart -> p_call p = Commit sy ns -> Empty (cb_batch c) = true ->
    gstep s i p c (jump i p Skipped s)
| g_start sy ns : p_pc p = PStart -> p_call p = Commit sy ns -> Empty (cb_batch c) = false ->
    commitQueueSem s < sem_cap ->
    gstep s i p c (jump i p PSync (s <| commitQueueSem := commitQueueSem s + 1 |>))
| g_startA n f g h : p_pc p = PStart -> p_call p = AllocateSeqNum n f g h ->
    commitQueueSem s < sem_cap ->
    gstep s i p c (jump i p PLock (put i (alloc_batch n c)
      (s <| commitQueueSem := commitQueueSem s + 1 |>)))
| g_sync ns : p_pc p = PSync -> p_call p = Commit true ns -> logSyncQSem s < sem_cap ->
    gstep s i p c (jump i p PPrepare (s <| logSyncQSem := logSyncQSem s + 1 |>))
| g_nosync ns : p_pc p = PSync -> p_call p = Commit false ns -> gstep s i p c (jump i p PPrepare s)
| g_reject : p_pc p = PPrepare -> b_count (cb_batch c) = invalidBatchCount ->
    gstep s i p c (jump i p Rejected (put i (nil_db c) s))
| g_prepare fw : p_pc p = PPrepare ->
    gstep s i p c (jump i p PLock (put i (c <| cb_commit := cb_commit c + 1 + one (waits (p_call p)) |>
      <| cb_fsyncWait := fw |>) s))
| g_lock : p_pc p = PLock -> mu s = None ->
    gstep s i p c (jump i p PEnq (s <| mu := Some i |>))
| g_enq : p_pc p = PEnq -> (length (g_order s) < g_tail s + ring_size)%nat ->
    gstep s i p c (jump i p (PSlot (u32 (Z.of_nat (length (g_order s))))) s)
| g_slot z : p_pc p = PSlot z -> q_slots s !! slot_index z = Some None ->
    gstep s i p c (jump i p (PStore z) s)
| g_store z : p_pc p = PStore z ->
    gstep s i p c (jump i p PInc (s <| q_slots := <[slot_index z := Some i]> (q_slots s) |>))
| g_inc : p_pc p = PInc ->
    gstep s i p c (jump i p PSeq (s <| q_headTail := word (S (length (g_order s))) (g_tail s) |>
                     <| g_order := g_order s ++ [i] |>))
| g_seq sy ns : p_pc p = PSeq -> p_call p = Commit sy ns ->
    gstep s i p c (jump i p PWrite (put i (with_seq (logSeqNum s) c)
      (s <| logSeqNum := logSeqNum s + b_count (cb_batch c) |>)))
| g_seqA n f g h x : p_pc p = PSeq -> p_call p = AllocateSeqNum n f g h ->
    x = one (logSeqNum s =? 0) ->
    gstep s i p c (jump i p (PSpin (logSeqNum s)) (put i (with_seq (logSeqNum s + x) c)
      (s <| logSeqNum := logSeqNum s + x + b_count (cb_batch c) |>)))
| g_write sy ns e m : p_pc p = PWrite -> p_call p = Commit sy ns ->
    env_write (env s) (cb_batch c) = (e, Ok m) ->
    gstep s i p c (jump i (p <| p_sync := if sy then Queued else p_sync p |>) (PUnlock (Ok m))
      (s <| env := e |> <| g_wal := g_wal s ++ [i] |>))
| g_write_err e err : p_pc p = PWrite -> env_write (env s) (cb_batch c) = (e, Err err) ->
    gstep s i p c (jump i p (PUnlock (Err err)) (s <| env := e |>))
| g_unlock m : p_pc p = PUnlock (Ok m) -> gstep s i p c (jump i p (PApply m) (s <| mu := None |>))
| g_unlock_err err : p_pc p = PUnlock (Err err) ->
    gstep s i p c (jump i p (Failed err) (put i (nil_db c) (s <| mu := None |>)))
| g_apply m e : p_pc p = PApply m -> env_apply (env s) (cb_batch c) m = (e, None) ->
    gstep s i p c (jump i p PPublish (s <| env := e |> <| g_applied := g_applied s ++ [i] |>))
| g_apply_err m e err : p_pc p = PApply m -> env_apply (env s) (cb_batch c) m = (e, Some err) ->
    gstep s i p c (jump i p (Failed err) (put i (nil_db c) (s <| env := e |>)))
| g_spin : p_pc p = PSpin (visibleSeqNum s) -> gstep s i p c (jump i p PCallback s)
| g_callback e : p_pc p = PCallback -> gstep s i p c (jump i p PUnlockA (s <| env := e |>))
| g_callback_direct e b : p_pc p = PCallback ->
    gstep s i p c (jump i (p <| p_syncWG := p_syncWG p + 1 |>) (PDirectSem b) (s <| env := e |>))
| g_directSem b : p_pc p = PDirectSem b -> logSyncQSem s < sem_cap ->
    gstep s i p c (jump i p (PDirect b) (s <| logSyncQSem := logSyncQSem s + 1 |>))
| g_direct b e m : p_pc p = PDirect b -> env_write (env s) b = (e, Ok m) ->
    gstep s i p c (jump i (p <| p_sync := Queued |>) (PDirectWait None)
      (s <| env := e |> <| g_wal := g_wal s ++ [i] |>))
| g_direct_err b e err : p_pc p = PDirect b -> env_write (env s) b = (e, Err err) ->
    gstep s i p c (jump i p (PDirectWait (Some err)) (s <| env := e |>))
| g_directWait err e : p_pc p = PDirectWait err -> p_syncWG p = 0 ->
    gstep s i p c (jump i p PUnlockA (s <| env := e |>))
| g_unlockA : p_pc p = PUnlockA -> gstep s i p c (jump i p PApplyA (s <| mu := None |>))
| g_applyA e : p_pc p = PApplyA ->
    gstep s i p c (jump i p PPublish (s <| env := e |> <| g_applied := g_applied s ++ [i] |>))
| g_publish : p_pc p = PPublish ->
    gstep s i p c (jump i p PLoad (put i (c <| cb_batch := ((cb_batch c) <| b_applied := true |>) |>) s))
| g_load_empty : p_pc p = PLoad -> length (g_order s) = g_tail s -> gstep s i p c (jump i p PWait s)
| g_load : p_pc p = PLoad -> (g_tail s < length (g_order s))%nat ->
    gstep s i p c (jump i (p <| p_snap := g_tail s |>) (PSlotLoad (q_headTail s)) s)
| g_slot_nil ptrs h : p_pc p = PSlotLoad ptrs -> ptrs = word h (p_snap p) ->
    q_slots s !! slot_of (p_snap p) = Some None -> gstep s i p c (jump i p PWait s)
| g_slot_some ptrs h b : p_pc p = PSlotLoad ptrs -> ptrs = word h (p_snap p) ->
    q_slots s !! slot_of (p_snap p) = Some (Some b) -> gstep s i p c (jump i p (PApplied ptrs b) s)
| g_applied_no ptrs b : p_pc p = PApplied ptrs b -> is_applied b s = false ->
    gstep s i p c (jump i p PWait s)
| g_applied_yes ptrs b : p_pc p = PApplied ptrs b -> is_applied b s = true ->
    gstep s i p c (jump i p (PCas ptrs b) s)
| g_cas ptrs b : p_pc p = PCas ptrs b -> q_headTail s = ptrs -> p_snap p = g_tail s ->
    (g_tail s < length (g_order s))%nat -> g_order s !! g_tail s = Some b ->
    gstep s i p c (jump i p (PNil ptrs b) (s <| q_headTail := word (length (g_order s)) (S (g_tail s)) |>
                     <| g_tail := S (g_tail s) |>))
| g_cas_fail ptrs b : p_pc p = PCas ptrs b -> q_headTail s <> ptrs -> gstep s i p c (jump i p PLoad s)
| g_nil ptrs b : p_pc p = PNil ptrs b ->
    gstep s i p c (jump i p (PCheck b) (s <| q_slots := <[slot_of (p_snap p) := None]> (q_slots s) |>))
| g_check t : p_pc p = PCheck t -> gstep s i p c (jump i p (PVis t) s)
| g_vis_old t ct : p_pc p = PVis t -> heap s !! t = Some ct -> endn ct <= visibleSeqNum s ->
    gstep s i p c (jump i p (PDone t) s)
| g_vis_new t ct : p_pc p = PVis t -> heap s !! t = Some ct -> visibleSeqNum s < endn ct ->
    gstep s i p c (jump i p (PVisCas t (visibleSeqNum s) (endn ct)) s)
| g_viscas t new : p_pc p = PVisCas t (visibleSeqNum s) new ->
    gstep s i p c (jump i p (PDone t) (s <| visibleSeqNum := new |>))
| g_viscas_fail t cur new : p_pc p = PVisCas t cur new -> visibleSeqNum s <> cur ->
    gstep s i p c (jump i p (PVis t) s)
| g_done t ct : p_pc p = PDone t -> heap s !! t = Some ct ->
    gstep s i p c (jump i p PLoad (put t (ct <| cb_commit := cb_commit ct - 1 |> <| cb_published := true |>) s))
| g_wait : p_pc p = PWait -> cb_commit c = 0 -> gstep s i p c (jump i p PRelease s)
| g_release : p_pc p = PRelease ->
    gstep s i p c (jump i p PReturn (s <| commitQueueSem := commitQueueSem s - 1 |>))
| g_return sy ns err c' : p_pc p = PReturn -> p_call p = Commit sy ns ->
    err = (if ns then None else cb_commitErr c) -> c' = match err with Some _ => nil_db c | None => c end ->
    gstep s i p c (jump i p (Returned err) (put i c' s))
| g_returnA n f g h : p_pc p = PReturn -> p_call p = AllocateSeqNum n f g h ->
    gstep s i p c (jump i p (Returned None) s).

(** ** The invariant *)

(** [count f l]: how many elements satisfy [f]. *)
Definition total {A} (f : A -> Z) (l : list A) : Z := foldr (fun x z => f x + z) 0 l.
Definition count {A} (f : A -> bool) (l : list A) : Z := total (fun x => one (f x)) l.

#[global] Arguments count : simpl never.

(** The goroutine has an element in [logSyncQSem]. *)
Definition log_held p : bool :=
  match p_call p with
  | Commit sy _ =>
      sy && bool_decide (p_sync p <> Signalled) &&
      match p_pc p with PStart | PSync | Skipped => false | _ => true end
  | AllocateSeqNum _ _ _ _ =>
      match p_pc p with
      | PDirect _ => true
      | PDirectWait _ => bool_decide (p_sync p <> Signalled)
      | _ => bool_decide (p_sync p = Queued)
      end
  end.

(** The sequence number of a batch and the one after it, once they are set. *)
Definition nums s (j : nat) : option (Z * Z) :=
  q ← procs s !! j; c ← heap s !! j;
  if numbered (p_pc q) then Some (seqn c, endn c) else None.

(** The sequence numbers that are still going to be taken. *)
Definition pending_count (x : proc * cbatch) : Z := if numbered (p_pc x.1) then 0 else cnt x.1 x.2.

(** [ptrs] was the word when [n] batches had been dequeued. *)
Definition snapshot s (ptrs : Z) (n : nat) : Prop :=
  exists h, ptrs = word h n /\ (n <= g_tail s)%nat /\ (n < h <= n + ring_size)%nat /\
    (h <= length (g_order s))%nat.

Record MuInv s : Prop := {
  mi_holds j q : procs s !! j = Some q -> holds_mu (p_pc q) = true <-> mu s = Some j;
  mi_dom j : mu s = Some j -> is_Some (procs s !! j);
}.

Record SemInv s : Prop := {
  si_commit : commitQueueSem s = count (fun q => sem_held (p_pc q)) (procs s);
  si_log : logSyncQSem s = count log_held (procs s);
  si_commit_cap : commitQueueSem s <= sem_cap;
  si_log_cap : logSyncQSem s <= sem_cap;
}.

Record OrderInv s : Prop := {
  oi_nodup : NoDup (g_order s);
  oi_in j q : procs s !! j = Some q -> enqueued (p_pc q) = true <-> j ∈ g_order s;
  oi_dom j : j ∈ g_order s -> is_Some (procs s !! j);
  oi_tail : (g_tail s <= length (g_order s))%nat;
  oi_last j q : procs s !! j = Some q -> holds_mu (p_pc q) = true -> enqueued (p_pc q) = true ->
    last (g_order s) = Some j;
}.

Record RingInv s : Prop := {
  ri_word : q_headTail s = word (length (g_order s)) (g_tail s);
  ri_size : length (q_slots s) = ring_size;
  ri_len : (length (g_order s) <= g_tail s + ring_size)%nat;
  ri_full k b : (g_tail s <= k)%nat -> g_order s !! k = Some b ->
    q_slots s !! slot_of k = Some (Some b);
  ri_nil j q ptrs b : procs s !! j = Some q -> p_pc q = PNil ptrs b ->
    (exists h, ptrs = word h (p_snap q)) /\
    g_order s !! p_snap q = Some b /\ (p_snap q < g_tail s)%nat /\
    (length (g_order s) <= p_snap q + ring_size)%nat /\
    q_slots s !! slot_of (p_snap q) = Some (Some b);
  ri_nil_unique j q ptrs b j' q' ptrs' b' :
    procs s !! j = Some q -> p_pc q = PNil ptrs b -> procs s !! j' = Some q' -> p_pc q' = PNil ptrs' b' ->
    p_snap q = p_snap q' -> j = j';
  ri_head j q : procs s !! j = Some q ->
    match p_pc q with
    | PSlot z => z = u32 (Z.of_nat (length (g_order s))) /\ (length (g_order s) < g_tail s + ring_size)%nat
    | PStore z => z = u32 (Z.of_nat (length (g_order s))) /\ (length (g_order s) < g_tail s + ring_size)%nat /\
        q_slots s !! slot_of (length (g_order s)) = Some None
    | PInc => (length (g_order s) < g_tail s + ring_size)%nat /\
        q_slots s !! slot_of (length (g_order s)) = Some (Some j)
    | _ => True
    end;
  ri_free k : (length (g_order s) <= k < g_tail s + ring_size)%nat ->
    q_slots s !! slot_of k = Some None \/
    (exists j q ptrs b, procs s !! j = Some q /\ p_pc q = PNil ptrs b /\ k = (p_snap q + ring_size)%nat) \/
    (exists j q, procs s !! j = Some q /\ p_pc q = PInc /\ k = length (g_order s));
}.

Definition SnapOK s q : Prop :=
  match p_pc q with
  | PSlotLoad ptrs => snapshot s ptrs (p_snap q)
  | PApplied ptrs b => snapshot s ptrs (p_snap q) /\
      (p_snap q = g_tail s -> g_order s !! g_tail s = Some b)
  | PCas ptrs b => snapshot s ptrs (p_snap q) /\
      (p_snap q = g_tail s -> g_order s !! g_tail s = Some b /\ is_applied b s = true)
  | _ => True
  end.
Record SnapInv s : Prop := {
  sn_ok j q : procs s !! j = Some q -> SnapOK s q;
}.

Record CarryInv s : Prop := {
  ci_order j q t : procs s !! j = Some q -> carries (p_pc q) = Some t ->
    exists k ct, (k < g_tail s)%nat /\ g_order s !! k = Some t /\
      heap s !! t = Some ct /\ cb_published ct = false;
  ci_unique j q j' q' t : procs s !! j = Some q -> carries (p_pc q) = Some t ->
    procs s !! j' = Some q' -> carries (p_pc q') = Some t -> j = j';
  ci_done k t : (k < g_tail s)%nat -> g_order s !! k = Some t ->
    is_applied t s = true /\ exists ct, heap s !! t = Some ct /\
      (cb_published ct = true \/ exists j q, procs s !! j = Some q /\ carries (p_pc q) = Some t);
  ci_published t ct : heap s !! t = Some ct -> cb_published ct = true ->
    exists k, (k < g_tail s)%nat /\ g_order s !! k = Some t;
}.

Record SeqInv (base bound : Z) s : Prop := {
  qi_sorted j k a b sa ea sb eb : (j < k)%nat -> g_order s !! j = Some a -> g_order s !! k = Some b ->
    nums s a = Some (sa, ea) -> nums s b = Some (sb, eb) -> ea <= sb;
  qi_range a sa ea : nums s a = Some (sa, ea) -> base <= sa /\ sa <= ea <= logSeqNum s;
  qi_bound : logSeqNum s + total pending_count (zip (procs s) (heap s)) + one (logSeqNum s =? 0) <= bound;
  qi_base : 0 <= base <= logSeqNum s;
  qi_log : logSeqNum s = base \/ exists a sa, nums s a = Some (sa, logSeqNum s);
  qi_spin j q l : procs s !! j = Some q -> p_pc q = PSpin l ->
    (forall a sa ea, nums s a = Some (sa, ea) -> a <> j -> ea <= l) /\
    (l = base \/ exists a sa, a <> j /\ nums s a = Some (sa, l));
}.

Record VisInv (base : Z) s : Prop := {
  vi_base : base <= visibleSeqNum s;
  vi_from : visibleSeqNum s = base \/
    exists k a sa, (k < g_tail s)%nat /\ g_order s !! k = Some a /\ nums s a = Some (sa, visibleSeqNum s);
  vi_cas j q t cur new : procs s !! j = Some q -> p_pc q = PVisCas t cur new ->
    (exists st, nums s t = Some (st, new)) /\ cur < new;
  vi_done j q t st et : procs s !! j = Some q -> p_pc q = PDone t -> nums s t = Some (st, et) ->
    et <= visibleSeqNum s;
  vi_published t ct st et : heap s !! t = Some ct -> cb_published ct = true -> nums s t = Some (st, et) ->
    et <= visibleSeqNum s;
  vi_callback j q a sa ea : procs s !! j = Some q -> in_callback (p_pc q) = true -> a <> j ->
    nums s a = Some (sa, ea) -> ea <= visibleSeqNum s;
}.

Record AppliedInv s : Prop := {
  ai_in j q : procs s !! j = Some q -> done_apply (p_pc q) = true <-> j ∈ g_applied s;
}.

Record WalInv s : Prop := {
  wi_in j q sy ns : procs s !! j = Some q -> p_call q = Commit sy ns -> written (p_pc q) = true ->
    match p_pc q with PUnlock (Err _) | Failed _ => True | _ => j ∈ g_wal s end;
  wi_written j : j ∈ g_wal s -> exists q, procs s !! j = Some q /\ written (p_pc q) = true;
  wi_sorted j k a b sa ea sb eb : (j < k)%nat -> g_wal s !! j = Some a -> g_wal s !! k = Some b ->
    nums s a = Some (sa, ea) -> nums s b = Some (sb, eb) -> ea <= sb;
}.

Record Inv (base bound : Z) s : Prop := {
  in_dom : length (heap s) = length (procs s);
  in_local j q c : procs s !! j = Some q -> heap s !! j = Some c -> LocalOK q c;
  in_mu : MuInv s;
  in_sem : SemInv s;
  in_order : OrderInv s;
  in_ring : RingInv s;
  in_snap : SnapInv s;
  in_carry : CarryInv s;
  in_seq : SeqInv base bound s;
  in_vis : VisInv base s;
  in_wal : WalInv s;
  in_applied : AppliedInv s;
}.

(** No goroutine is interrupted between reading [headTail] and the compare-and-swap for
    as long as it takes to dequeue [2 ^ 32] batches. *)
Definition unlapped s : Prop := forall j q, procs s !! j = Some q ->
  match p_pc q with
  | PCas _ _ => Z.of_nat (g_tail s) < Z.of_nat (p_snap q) + 2 ^ 32
  | _ => True
  end.
End facts.
