(* ===== verification/CommitInv.v ===== *)
(** The commit pipeline (Commit.v): the invariant of CommitFacts.v is kept by every step. *)
From S2P Require Import Prelude.
From S2P Require Import SyncQueue.
From S2P Require Import Batch.
From S2P Require Import Commit.
From S2P Require Import CommitFacts.

Local Open Scope Z_scope.

Section inv.
Context {K : BatchSkl} {CE : commitEnv}.
Implicit Types s : commitPipeline.
Implicit Types p q : proc.
Implicit Types c : cbatch.

(** ** Updates *)
Lemma alter_insert {A} (f : A -> A) i (l : list A) x : l !! i = Some x -> alter f i l = <[i := f x]> l.
Proof. revert i. induction l as [|y l IH]; intros [|i]; simpl; intros E; try done; [by injection E as ->|]. f_equal. by apply IH. Qed.

Lemma insert_insert_eq {A} (l : list A) i x y : <[i := x]> (<[i := y]> l) = <[i := x]> l.
Proof. revert i. induction l as [|z l IH]; intros [|i]; simpl; f_equal; auto. Qed.

Lemma goto_jump i p k s : procs s !! i = Some p -> goto i k s = jump i p k s.
Proof. intros H. unfold goto, jump. by rewrite (alter_insert _ _ _ _ H). Qed.

Lemma goto_set_proc i p k f s :
  procs s !! i = Some p -> goto i k (set_proc i f s) = jump i (f p) k s.
Proof.
  intros H. assert (i < length (procs s))%nat by (eapply lookup_lt_Some; exact H).
  unfold goto, set_proc, jump. cbn. rewrite (alter_insert _ _ _ _ H).
  rewrite (alter_insert _ _ _ (f p)), insert_insert_eq by (apply list_lookup_insert_eq; done). done.
Qed.

Lemma set_batch_put i c f s : heap s !! i = Some c -> set_batch i f s = put i (f c) s.
Proof. intros H. unfold set_batch, put. by rewrite (alter_insert _ _ _ _ H). Qed.

Lemma put_id i c s : heap s !! i = Some c -> put i c s = s.
Proof. intros H. unfold put. rewrite list_insert_id by done. by destruct s. Qed.

(** ** Batches *)
Lemma seqn_with_seq z c :
  (8 <= length (b_data (cb_batch c)))%nat -> 0 <= z < 2 ^ 64 -> seqn (with_seq z c) = z.
Proof.
  intros Hl Hz. change (Uint64 (copy_at (b_data (cb_batch c)) 0 (PutUint64 z)) = z).
  unfold copy_at. rewrite take_0, app_nil_l, Nat.sub_0_r.
  rewrite take_ge by (unfold PutUint64; rewrite length_le_put; lia).
  by apply Uint64_Put.
Qed.

Lemma endn_with_seq z c :
  (8 <= length (b_data (cb_batch c)))%nat -> 0 <= z < 2 ^ 64 ->
  endn (with_seq z c) = z + b_count (cb_batch c).
Proof. intros. unfold endn. by rewrite seqn_with_seq. Qed.

Lemma batch_SeqNum_eq c :
  (12 <= length (b_data (cb_batch c)))%nat -> batch_SeqNum (cb_batch c) = (cb_batch c, seqn c).
Proof.
  intros H. unfold batch_SeqNum, ensure_init. destruct (b_data (cb_batch c)) eqn:E; [simpl in H; lia|].
  unfold seqn, seqNumData. rewrite E. f_equal. unfold Uint64. by rewrite take_take.
Qed.

Lemma Count_eq (b : Batch) : 0 <= b_count b < 2 ^ 32 -> Count b = Ret (b_count b).
Proof.
  intros H. unfold Count. rewrite (proj2 (Z.ltb_ge _ _)) by lia. by rewrite u32_small.
Qed.

Lemma setSeqNum_eq z c :
  (12 <= length (b_data (cb_batch c)) <= b_cap (cb_batch c))%nat ->
  setSeqNum (cb_batch c) z = Ret (cb_batch (with_seq z c)).
Proof. intros H. unfold setSeqNum. by rewrite (proj2 (Nat.ltb_ge _ _)) by lia. Qed.

Lemma cb_batch_id c : c <| cb_batch := cb_batch c |> = c.
Proof. by destruct c. Qed.

(** ** Sums *)
Lemma total_insert {A} (f : A -> Z) (l : list A) i x y :
  l !! i = Some x -> total f (<[i := y]> l) = total f l - f x + f y.
Proof.
  revert i. induction l as [|z l IH]; intros [|i]; simpl; intros E; try done.
  - injection E as ->. lia.
  - rewrite (IH _ E). lia.
Qed.
Lemma total_ge_0 {A} (f : A -> Z) l : (forall x, x ∈ l -> 0 <= f x) -> 0 <= total f l.
Proof.
  induction l as [|x l IH]; intros H; simpl; [lia|].
  pose proof (H x ltac:(left)). specialize (IH (fun y Hy => H y ltac:(by right))). lia.
Qed.
Lemma total_elem {A} (f : A -> Z) (l : list A) i x :
  (forall x, x ∈ l -> 0 <= f x) -> l !! i = Some x -> f x <= total f l.
Proof.
  revert i. induction l as [|z l IH]; intros [|i] H E; simpl; try done.
  - injection E as ->. pose proof (total_ge_0 f l (fun y Hy => H y ltac:(by right))). lia.
  - pose proof (H z ltac:(left)). specialize (IH i (fun y Hy => H y ltac:(by right)) E). lia.
Qed.
Lemma zip_insert {A B} (l : list A) (m : list B) i x y :
  zip (<[i := x]> l) (<[i := y]> m) = <[i := (x, y)]> (zip l m).
Proof. revert i m. induction l as [|a l IH]; intros [|i] [|b m]; simpl; f_equal; auto. Qed.
Lemma lookup_zip {A B} (l : list A) (m : list B) i x y :
  l !! i = Some x -> m !! i = Some y -> zip l m !! i = Some (x, y).
Proof. intros Hx Hy. apply lookup_zip_with_Some. eauto. Qed.

Lemma filter_keep {A} (P : A -> Prop) `{forall x, Decision (P x)} (l : list A) :
  (forall x, x ∈ l -> P x) -> filter P l = l.
Proof.
  induction l as [|x l IH]; intros Hl; [done|]. rewrite filter_cons_True by (apply Hl; left).
  f_equal. apply IH. intros y Hy. apply Hl. by right.
Qed.

(** Finding a set of elements among those that satisfy [f]. *)
Lemma count_ge {A} (f : A -> bool) (l : list A) (js : list nat) :
  NoDup js -> (forall j, j ∈ js -> exists x, l !! j = Some x /\ f x = true) ->
  Z.of_nat (length js) <= count f l.
Proof.
  revert js. induction l as [|x l IH]; intros js Hn Hj.
  - destruct js as [|j js]; [unfold count; simpl; lia|]. destruct (Hj j ltac:(left)) as (y & Hy & _). done.
  - set (js' := filter (fun j => j <> 0%nat) js).
    assert (Z.of_nat (length js) <= one (f x) + Z.of_nat (length js')) as Hle.
    { destruct (decide (0%nat ∈ js)) as [Hin|Hin].
      - destruct (Hj _ Hin) as (y & Hy & Hf). injection Hy as ->. rewrite Hf. cbn [one].
        apply elem_of_Permutation in Hin as [js0 Hp].
        assert (js' ≡ₚ js0) as Hp'.
        { unfold js'. rewrite Hp, filter_cons_False by (intros E; by apply E).
          rewrite Hp in Hn. apply NoDup_cons in Hn as [Hz _].
          apply reflexive_eq, filter_keep. intros j Hj' ->. done. }
        rewrite Hp', Hp. simpl. lia.
      - replace js' with js; [destruct (f x); cbn [one]; lia|].
        symmetry. apply filter_keep. intros j Hj' ->. done. }
    specialize (IH (Nat.pred <$> js')). unfold count in *. simpl. rewrite length_fmap in IH.
    transitivity (one (f x) + Z.of_nat (length js')); [done|]. apply Z.add_le_mono_l, IH.
    + apply NoDup_fmap_2_strong; [|by apply NoDup_filter].
      intros a b Ha Hb. apply list_elem_of_filter in Ha as [Ha _], Hb as [Hb _]. lia.
    + intros j (k & -> & Hk)%list_elem_of_fmap. apply list_elem_of_filter in Hk as [Hk Hin].
      destruct k as [|k]; [done|]. apply (Hj _ Hin).
Qed.

(** ** Consequences of the invariant *)
Section consequences.
Context (base bound : Z) s (I : Inv base bound s).

Lemma heap_proc j q : procs s !! j = Some q -> exists c, heap s !! j = Some c.
Proof.
  intros H. apply lookup_lt_Some in H. rewrite <- (in_dom _ _ _ I) in H.
  by apply lookup_lt_is_Some_2.
Qed.
Lemma proc_heap j c : heap s !! j = Some c -> exists q, procs s !! j = Some q.
Proof.
  intros H. apply lookup_lt_Some in H. rewrite (in_dom _ _ _ I) in H.
  by apply lookup_lt_is_Some_2.
Qed.

(** A batch of the queue belongs to a goroutine that has not finished. *)
Lemma queued_proc k j : (g_tail s <= k)%nat -> g_order s !! k = Some j ->
  exists q c, procs s !! j = Some q /\ heap s !! j = Some c /\ enqueued (p_pc q) = true /\
    cb_published c = false /\ finished (p_pc q) = false.
Proof.
  intros Hk Hj. assert (j ∈ g_order s) as Hin by (eapply list_elem_of_lookup_2; exact Hj).
  destruct (oi_dom _ (in_order _ _ _ I) _ Hin) as [q Hq]. destruct (heap_proc _ _ Hq) as [c Hc].
  assert (cb_published c = false) as Hp.
  { destruct (cb_published c) eqn:E; [|done].
    destruct (ci_published _ (in_carry _ _ _ I) _ _ Hc E) as (k' & Hk' & Hj').
    pose proof (NoDup_lookup _ _ _ _ (oi_nodup _ (in_order _ _ _ I)) Hj Hj'). lia. }
  exists q, c. split_and!; try done.
  - by apply (oi_in _ (in_order _ _ _ I) _ _ Hq).
  - destruct (finished (p_pc q)) eqn:E; [|done].
    pose proof (lo_finished _ _ (in_local _ _ _ I _ _ _ Hq Hc) E) as [Hx _]. congruence.
Qed.

Lemma enqueued_held k : enqueued k = true -> finished k = false -> sem_held k = true.
Proof. by destruct k. Qed.

(** The semaphore keeps the queue from being full. *)
Lemma queue_room i p : procs s !! i = Some p -> p_pc p = PEnq ->
  (length (g_order s) < g_tail s + ring_size)%nat.
Proof.
  intros Hi Hk. destruct (in_sem _ _ _ I) as [Hs _ Hcap _]. rewrite Hs in Hcap.
  pose proof (count_ge (fun q => sem_held (p_pc q)) (procs s) (i :: drop (g_tail s) (g_order s))) as Hc.
  rewrite length_cons, length_drop in Hc. unfold sem_cap, SyncConcurrency in Hcap.
  pose proof ring_size_eq. assert (Z.of_nat (S (length (g_order s) - g_tail s)) <= 4095); [|lia].
  etransitivity; [apply Hc|exact Hcap]; clear Hc.
  - apply NoDup_cons. split.
    + intros Hin. apply list_elem_of_lookup in Hin as [k Hin]. rewrite lookup_drop in Hin.
      apply list_elem_of_lookup_2, (oi_in _ (in_order _ _ _ I) _ _ Hi) in Hin. by rewrite Hk in Hin.
    + eapply sublist_NoDup; [apply (oi_nodup _ (in_order _ _ _ I))|apply sublist_drop].
  - intros j [->|Hin]%elem_of_cons; [exists p; by rewrite Hk|].
    apply list_elem_of_lookup in Hin as [k Hin]. rewrite lookup_drop in Hin.
    destruct (queued_proc (g_tail s + k) j ltac:(lia) Hin) as (q & c & Hq & _ & He & _ & Hf).
    exists q. split; [done|]. by apply enqueued_held.
Qed.

Lemma seq_room i p c : procs s !! i = Some p -> heap s !! i = Some c -> numbered (p_pc p) = false ->
  logSeqNum s + cnt p c + one (logSeqNum s =? 0) <= bound.
Proof.
  intros Hp Hc Hn. pose proof (qi_bound _ _ _ (in_seq _ _ _ I)) as Hb.
  pose proof (total_elem pending_count (zip (procs s) (heap s)) i (p, c)) as Ht.
  unfold pending_count in Ht at 2. simpl in Ht. rewrite Hn in Ht.
  assert (cnt p c <= total pending_count (zip (procs s) (heap s))); [|lia].
  apply Ht; [|by apply lookup_zip].
  intros [q d] Hin. apply list_elem_of_lookup in Hin as [j Hj].
  apply lookup_zip_with_Some in Hj as (? & ? & [= <- <-] & Hq & Hd).
  unfold pending_count. simpl. destruct (numbered (p_pc q)); [lia|].
  pose proof (lo_cnt _ _ (in_local _ _ _ I _ _ _ Hq Hd)). lia.
Qed.

Lemma slots_lookup k : exists o, q_slots s !! slot_of k = Some o.
Proof.
  apply lookup_lt_is_Some_2. rewrite (ri_size _ (in_ring _ _ _ I)). apply slot_of_lt.
Qed.

(** The batch a goroutine carries. *)
Lemma carried i p t : procs s !! i = Some p -> carries (p_pc p) = Some t ->
  exists q ct k, procs s !! t = Some q /\ heap s !! t = Some ct /\ has_applied (p_pc q) = true /\
    (k < g_tail s)%nat /\ g_order s !! k = Some t /\ is_applied t s = true /\ cb_published ct = false.
Proof.
  intros Hp Ht. destruct (ci_order _ (in_carry _ _ _ I) _ _ _ Hp Ht) as (k & ct & Hk & Ho & Hc & Hn).
  destruct (ci_done _ (in_carry _ _ _ I) _ _ Hk Ho) as [Ha _].
  destruct (proc_heap _ _ Hc) as [q Hq]. exists q, ct, k. split_and!; try done.
  rewrite <- (lo_applied _ _ (in_local _ _ _ I _ _ _ Hq Hc)). unfold is_applied in Ha. by rewrite Hc in Ha.
Qed.
End consequences.

Lemma applied_numbered k : has_applied k = true -> numbered k = true.
Proof. by destruct k. Qed.
Lemma applied_passed k : has_applied k = true -> passed k = true.
Proof. by destruct k. Qed.

(** What holds of the batch of a goroutine after the start. *)
Lemma batch_facts p c : LocalOK p c -> passed (p_pc p) = true ->
  (12 <= length (b_data (cb_batch c)) <= b_cap (cb_batch c))%nat /\ 0 <= b_count (cb_batch c) < 2 ^ 32 /\
  b_count (cb_batch c) = cnt p c.
Proof.
  intros L H. pose proof (lo_len _ _ L H). pose proof (lo_cap _ _ L). pose proof (lo_count _ _ L H) as E.
  pose proof (lo_cnt _ _ L). rewrite E. lia.
Qed.

Lemma u64_add_sub x n : 0 <= x -> 0 <= n -> x + n < 2 ^ 64 -> u64 (u64 (x + n) - n) = x.
Proof. intros. rewrite (u64_small (x + n)) by lia. rewrite Z.add_simpl_r. apply u64_small. lia. Qed.

(** ** Steps of the program are transitions *)
Section steps.
Context (base bound : Z) s (I : Inv base bound s) (Hbound : bound < 2 ^ 64) (Hun : unlapped s).
Context (i : nat) p c (Hp : procs s !! i = Some p) (Hc : heap s !! i = Some c).

Let L : LocalOK p c := in_local _ _ _ I _ _ _ Hp Hc.
Let Hw := ri_word _ (in_ring _ _ _ I).

Lemma queue_len : (g_tail s <= length (g_order s) <= g_tail s + ring_size)%nat.
Proof. split; [apply (oi_tail _ (in_order _ _ _ I))|apply (ri_len _ (in_ring _ _ _ I))]. Qed.

Lemma Commit_start_gstep sy ns s' :
  p_pc p = PStart -> p_call p = Commit sy ns -> Commit_start i s = Some s' -> gstep s i p c s'.
Proof.
  intros Ek Ec. unfold Commit_start. rewrite Hc. destruct (Empty (cb_batch c)) eqn:Ee.
  - intros [= <-]. rewrite (goto_jump _ _ _ _ Hp). by eapply g_skip.
  - unfold acquire_commitQueueSem. destruct (Z.ltb_spec (commitQueueSem s) sem_cap); [|done].
    cbn [mbind option_bind]. intros [= <-]. rewrite (goto_jump _ p) by done. by eapply g_start.
Qed.

Lemma Allocate_start_gstep n f g h s' :
  p_pc p = PStart -> p_call p = AllocateSeqNum n f g h -> Allocate_start i n s = Some s' ->
  gstep s i p c s'.
Proof.
  intros Ek Ec. unfold Allocate_start. rewrite (set_batch_put _ _ _ _ Hc).
  unfold acquire_commitQueueSem. cbn [commitQueueSem put set].
  destruct (Z.ltb_spec (commitQueueSem s) sem_cap); [|done].
  cbn [mbind option_bind]. intros [= <-]. rewrite (goto_jump _ p) by done. by eapply g_startA.
Qed.

Lemma Commit_sync_gstep sy ns s' :
  p_pc p = PSync -> p_call p = Commit sy ns -> Commit_sync i sy s = Some s' -> gstep s i p c s'.
Proof.
  intros Ek Ec. unfold Commit_sync. destruct sy.
  - unfold acquire_logSyncQSem. destruct (Z.ltb_spec (logSyncQSem s) sem_cap); [|done].
    cbn [mbind option_bind]. intros [= <-]. rewrite (goto_jump _ p) by done. by eapply g_sync.
  - intros [= <-]. rewrite (goto_jump _ p) by done. by eapply g_nosync.
Qed.

Lemma prepare_add_gstep sy ns :
  p_pc p = PPrepare -> p_call p = Commit sy ns -> gstep s i p c (prepare_add i sy ns s).
Proof.
  intros Ek Ec. destruct (batch_facts _ _ L ltac:(by rewrite Ek)) as (_ & Hcnt & _).
  unfold prepare_add. rewrite Hc, (Count_eq _ Hcnt). cbn [or_panic].
  destruct (Z.eqb_spec (b_count (cb_batch c)) invalidBatchCount).
  { unfold no_reuse. rewrite (set_batch_put _ _ _ _ Hc), (goto_jump _ p) by done. by eapply g_reject. }
  destruct sy; cbn [negb]; [destruct ns|].
  - rewrite (set_batch_put _ _ _ _ Hc).
    rewrite (set_batch_put i (c <| cb_commit := cb_commit c + 1 |>))
      by (apply list_lookup_insert_eq; by eapply lookup_lt_Some).
    rewrite (goto_jump _ p) by done. unfold put. cbn [heap set]. rewrite insert_insert_eq.
    pose proof (g_prepare s i p c (cb_fsyncWait c + 1) Ek) as G. rewrite Ec in G. cbn [waits one] in G.
    rewrite Z.add_0_r in G. exact G.
  - rewrite (set_batch_put _ _ _ _ Hc), (goto_jump _ p) by done.
    pose proof (g_prepare s i p c (cb_fsyncWait c) Ek) as G. rewrite Ec in G. cbn [waits one] in G.
    rewrite <- Z.add_assoc in G. clear L Hc. destruct c. exact G.
  - rewrite (set_batch_put _ _ _ _ Hc), (goto_jump _ p) by done.
    pose proof (g_prepare s i p c (cb_fsyncWait c) Ek) as G. rewrite Ec in G. cbn [waits one] in G.
    rewrite Z.add_0_r in G. clear L Hc. destruct c, ns; exact G.
Qed.

Lemma prepare_lock_gstep s' : p_pc p = PLock -> prepare_lock i s = Some s' -> gstep s i p c s'.
Proof.
  intros Ek. unfold prepare_lock. destruct (mu s) eqn:Em; [done|]. intros [= <-].
  rewrite (goto_jump _ p) by done. by apply g_lock.
Qed.

Lemma enqueue_load_gstep : p_pc p = PEnq -> gstep s i p c (enqueue_load i s).
Proof.
  intros Ek. unfold enqueue_load. rewrite Hw, unpack_word_u32, full_check by apply queue_len.
  pose proof (queue_room _ _ _ I _ _ Hp Ek). rewrite bool_decide_eq_false_2 by lia.
  rewrite (goto_jump _ p) by done. by apply g_enq.
Qed.

Lemma enqueue_slot_gstep z s' : p_pc p = PSlot z -> enqueue_slot i z s = Some s' -> gstep s i p c s'.
Proof.
  intros Ek. unfold enqueue_slot. destruct (q_slots s !! slot_index z) as [[|]|] eqn:Es; try done.
  intros [= <-]. rewrite (goto_jump _ p) by done. by eapply g_slot.
Qed.

Lemma enqueue_inc_gstep : p_pc p = PInc -> gstep s i p c (enqueue_inc i s).
Proof.
  intros Ek. unfold enqueue_inc. rewrite (goto_jump _ p) by done. rewrite Hw, word_inc. by apply g_inc.
Qed.

Lemma prepare_seq_gstep sy ns :
  p_pc p = PSeq -> p_call p = Commit sy ns -> gstep s i p c (prepare_seq i s).
Proof.
  intros Ek Ec. destruct (batch_facts _ _ L ltac:(by rewrite Ek)) as (Hd & Hcnt & Hcn).
  pose proof (seq_room _ _ _ I _ _ _ Hp Hc ltac:(by rewrite Ek)) as Hr.
  pose proof (qi_base _ _ _ (in_seq _ _ _ I)) as Hb.
  unfold prepare_seq. rewrite Hc, (Count_eq _ Hcnt). cbn [or_panic].
  assert (logSeqNum s + b_count (cb_batch c) < 2 ^ 64).
  { rewrite Hcn. unfold one in Hr. destruct (_ =? 0); lia. }
  rewrite u64_add_sub by lia. rewrite (setSeqNum_eq _ _ Hd). cbn [or_panic].
  rewrite (set_batch_put _ c) by done. rewrite (goto_jump _ p) by done.
  rewrite (u64_small (logSeqNum s + _)) by lia. by eapply g_seq.
Qed.

Lemma Allocate_seq_gstep n f g h :
  p_pc p = PSeq -> p_call p = AllocateSeqNum n f g h -> gstep s i p c (Allocate_seq i n s).
Proof.
  intros Ek Ec. destruct (batch_facts _ _ L ltac:(by rewrite Ek)) as (Hd & Hcnt & Hcn).
  pose proof (seq_room _ _ _ I _ _ _ Hp Hc ltac:(by rewrite Ek)) as Hr.
  pose proof (qi_base _ _ _ (in_seq _ _ _ I)) as Hb.
  unfold Allocate_seq. rewrite Hc. unfold cnt in Hcn, Hr. rewrite Ec in Hcn, Hr.
  rewrite (u64_small n) by lia. rewrite <- Hcn in *.
  set (x := one (logSeqNum s =? 0)) in *.
  assert (0 <= x <= 1) by (unfold x, one; destruct (_ =? 0); lia).
  rewrite u64_add_sub by lia. rewrite (u64_small (logSeqNum s + b_count _)) by lia.
  assert ((if logSeqNum s =? 0 then (u64 (logSeqNum s + b_count (cb_batch c) + 1), u64 (logSeqNum s + 1))
           else (logSeqNum s + b_count (cb_batch c), logSeqNum s))
          = (logSeqNum s + x + b_count (cb_batch c), logSeqNum s + x)) as ->.
  { unfold x, one in *. destruct (logSeqNum s =? 0); [rewrite !u64_small by lia|]; f_equal; lia. }
  rewrite (setSeqNum_eq _ _ Hd). cbn [or_panic].
  rewrite (set_batch_put _ c) by done. rewrite (goto_jump _ p) by done. by eapply g_seqA.
Qed.

Lemma prepare_write_gstep sy ns :
  p_pc p = PWrite -> p_call p = Commit sy ns -> gstep s i p c (prepare_write i sy s).
Proof.
  intros Ek Ec. unfold prepare_write. rewrite Hc.
  destruct (env_write (env s) (cb_batch c)) as [e [m|err]] eqn:Ew.
  - pose proof (g_write s i p c sy ns e m Ek Ec Ew) as G. destruct sy.
    + by rewrite (goto_set_proc _ p) by done.
    + rewrite (goto_jump _ p) by done. clear L Hp. destruct p. exact G.
  - rewrite (goto_jump _ p) by done. by eapply g_write_err.
Qed.

Lemma prepare_unlock_gstep r : p_pc p = PUnlock r -> gstep s i p c (prepare_unlock i r s).
Proof.
  intros Ek. unfold prepare_unlock. destruct r.
  - rewrite (goto_jump _ p) by done. by eapply g_unlock.
  - unfold no_reuse. rewrite (set_batch_put _ c), (goto_jump _ p) by done. by eapply g_unlock_err.
Qed.

Lemma Commit_apply_gstep m : p_pc p = PApply m -> gstep s i p c (Commit_apply i m s).
Proof.
  intros Ek. unfold Commit_apply. rewrite Hc.
  destruct (env_apply (env s) (cb_batch c) m) as [e [err|]] eqn:Ew.
  - unfold no_reuse. rewrite (set_batch_put _ c), (goto_jump _ p) by done. by eapply g_apply_err.
  - rewrite (goto_jump _ p) by done. exact (g_apply s i p c m e Ek Ew).
Qed.

(** [SeqNum] does not change a batch that is initialised. *)
Lemma with_SeqNum_eq k : passed (p_pc p) = true -> with_SeqNum i s k = k (seqn c) s.
Proof.
  intros H. destruct (batch_facts _ _ L H) as (Hd & _ & _). unfold with_SeqNum.
  rewrite Hc, batch_SeqNum_eq by lia. by rewrite (set_batch_put _ c), cb_batch_id, put_id by done.
Qed.

Lemma Allocate_spin_gstep l s' : p_pc p = PSpin l -> Allocate_spin i l s = Some s' -> gstep s i p c s'.
Proof.
  intros Ek. unfold Allocate_spin. destruct (Z.eqb_spec (visibleSeqNum s) l) as [<-|]; [|done].
  intros [= <-]. rewrite (goto_jump _ p) by done. by apply g_spin.
Qed.

Lemma Allocate_prepare_gstep f : p_pc p = PCallback -> gstep s i p c (Allocate_prepare i f s).
Proof.
  intros Ek. unfold Allocate_prepare. rewrite with_SeqNum_eq by by rewrite Ek.
  destruct (f (seqn c) (env s)) as [e [b|]].
  - rewrite (goto_set_proc _ p) by done. by apply g_callback_direct.
  - rewrite (goto_jump _ p) by done. by apply g_callback.
Qed.

Lemma directWrite_sem_gstep b s' :
  p_pc p = PDirectSem b -> directWrite_sem i b s = Some s' -> gstep s i p c s'.
Proof.
  intros Ek. unfold directWrite_sem, acquire_logSyncQSem.
  destruct (Z.ltb_spec (logSyncQSem s) sem_cap); [|done].
  cbn [mbind option_bind]. intros [= <-]. rewrite (goto_jump _ p) by done. by apply g_directSem.
Qed.

Lemma directWrite_write_gstep b : p_pc p = PDirect b -> gstep s i p c (directWrite_write i b s).
Proof.
  intros Ek. unfold directWrite_write. destruct (env_write (env s) b) as [e [m|err]] eqn:Ew.
  - rewrite (goto_set_proc _ p) by done. exact (g_direct s i p c b e m Ek Ew).
  - rewrite (goto_jump _ p) by done. by eapply g_direct_err.
Qed.

Lemma directWrite_wait_gstep err f s' :
  p_pc p = PDirectWait err -> directWrite_wait i err f s = Some s' -> gstep s i p c s'.
Proof.
  intros Ek. unfold directWrite_wait. rewrite Hp. destruct (Z.eqb_spec (p_syncWG p) 0); [|done].
  rewrite with_SeqNum_eq by by rewrite Ek. intros [= <-].
  rewrite (goto_jump _ p) by done. by eapply g_directWait.
Qed.

Lemma Allocate_apply_gstep f : p_pc p = PApplyA -> gstep s i p c (Allocate_apply i f s).
Proof.
  intros Ek. unfold Allocate_apply. rewrite with_SeqNum_eq by by rewrite Ek.
  rewrite (goto_jump _ p) by done. exact (g_applyA s i p c _ Ek).
Qed.

Lemma dequeue_load_gstep : p_pc p = PLoad -> gstep s i p c (dequeue_load i s).
Proof.
  intros Ek. unfold dequeue_load. rewrite Hw, unpack_word_u32, empty_check by apply queue_len.
  pose proof queue_len. case_bool_decide.
  - rewrite (goto_jump _ p) by done. by apply g_load_empty.
  - unfold set_proc. rewrite (alter_insert _ _ _ _ Hp). rewrite <- Hw. apply g_load; [done|lia].
Qed.

Lemma dequeue_slot_gstep ptrs : p_pc p = PSlotLoad ptrs -> gstep s i p c (dequeue_slot i ptrs s).
Proof.
  intros Ek. pose proof (sn_ok _ (in_snap _ _ _ I) _ _ Hp) as Hs. unfold SnapOK in Hs. rewrite Ek in Hs.
  destruct Hs as (h & -> & _). unfold dequeue_slot. rewrite unpack_word_u32, slot_of_u32.
  destruct (slots_lookup _ _ _ I (p_snap p)) as [o Ho]. rewrite Ho.
  destruct o as [b|]; cbn; rewrite (goto_jump _ p) by done; [by eapply g_slot_some|by eapply g_slot_nil].
Qed.

Lemma dequeue_applied_gstep ptrs b :
  p_pc p = PApplied ptrs b -> gstep s i p c (dequeue_applied i ptrs b s).
Proof.
  intros Ek. unfold dequeue_applied. destruct (is_applied b s) eqn:E; rewrite (goto_jump _ p) by done.
  - by eapply g_applied_yes.
  - by eapply g_applied_no.
Qed.

Lemma dequeue_cas_gstep ptrs b : p_pc p = PCas ptrs b -> gstep s i p c (dequeue_cas i ptrs b s).
Proof.
  intros Ek. pose proof (sn_ok _ (in_snap _ _ _ I) _ _ Hp) as Hs. pose proof (Hun _ _ Hp) as Hl.
  unfold SnapOK in Hs. rewrite Ek in Hs, Hl. destruct Hs as [(h & Eh & Hle & Hh & _) Hb].
  unfold dequeue_cas. rewrite Eh, unpack_word_u32, pack_word.
  destruct (Z.eqb_spec (q_headTail s) (word h (p_snap p))) as [E|E].
  - destruct (word_current (length (g_order s)) (g_tail s) h (p_snap p)) as [Et Eh'];
      [congruence|done|done|apply queue_len|lia|].
    destruct (Hb (eq_sym Et)) as [Ho _]. rewrite (goto_jump _ p) by done.
    rewrite <- Et, <- Eh'. rewrite <- Hw. rewrite <- Et, <- Eh', <- Hw in Eh. subst ptrs.
    apply g_cas; try done. apply lookup_lt_Some in Ho. lia.
  - rewrite (goto_jump _ p) by done. eapply g_cas_fail; [exact Ek|congruence].
Qed.

Lemma dequeue_nil_gstep ptrs b : p_pc p = PNil ptrs b -> gstep s i p c (dequeue_nil i ptrs b s).
Proof.
  intros Ek. destruct (ri_nil _ (in_ring _ _ _ I) _ _ _ _ Hp Ek) as [(h & Eh) _].
  unfold dequeue_nil. rewrite Eh, unpack_word_u32, slot_of_u32.
  rewrite (goto_jump _ p) by done. by eapply g_nil.
Qed.

Lemma publish_check_gstep t : p_pc p = PCheck t -> gstep s i p c (publish_check i t s).
Proof.
  intros Ek. destruct (carried _ _ _ I _ _ t Hp ltac:(by rewrite Ek)) as (q & ct & k & _ & _ & _ & _ & _ & Ha & _).
  unfold publish_check. rewrite Ha, (goto_jump _ p) by done. by eapply g_check.
Qed.

Lemma publish_load_gstep t : p_pc p = PVis t -> gstep s i p c (publish_load i t s).
Proof.
  intros Ek. destruct (carried _ _ _ I _ _ t Hp ltac:(by rewrite Ek)) as (q & ct & k & Hq & Ht & Ha & _).
  pose proof (in_local _ _ _ I _ _ _ Hq Ht) as Lt.
  destruct (batch_facts _ _ Lt (applied_passed _ Ha)) as (Hd & Hcnt & _).
  unfold publish_load. rewrite Ht, batch_SeqNum_eq by lia.
  rewrite (set_batch_put _ ct), cb_batch_id, put_id, (Count_eq _ Hcnt) by done. cbn [or_panic].
  destruct (qi_range _ _ _ (in_seq _ _ _ I) t (seqn ct) (endn ct)) as [Hlo Hhi].
  { unfold nums. rewrite Hq, Ht. cbn [mbind option_bind]. by rewrite applied_numbered. }
  pose proof (qi_bound _ _ _ (in_seq _ _ _ I)) as Hbd. pose proof (qi_base _ _ _ (in_seq _ _ _ I)).
  assert (endn ct < 2 ^ 64) as Hend.
  { assert (0 <= total pending_count (zip (procs s) (heap s))).
    { apply total_ge_0. intros [x y] Hin. apply list_elem_of_lookup in Hin as [j Hj].
      apply lookup_zip_with_Some in Hj as (? & ? & [= <- <-] & Hx & Hy). unfold pending_count. simpl.
      pose proof (lo_cnt _ _ (in_local _ _ _ I _ _ _ Hx Hy)). destruct (numbered _); lia. }
    unfold one in Hbd. destruct (_ =? 0); lia. }
  change (seqn ct + b_count (cb_batch ct)) with (endn ct). rewrite u64_small by lia.
  destruct (Z.leb_spec (endn ct) (visibleSeqNum s)); rewrite (goto_jump _ p) by done.
  - by eapply g_vis_old.
  - by eapply g_vis_new.
Qed.

Lemma publish_cas_gstep t cur new :
  p_pc p = PVisCas t cur new -> gstep s i p c (publish_cas i t cur new s).
Proof.
  intros Ek. unfold publish_cas. destruct (Z.eqb_spec (visibleSeqNum s) cur) as [<-|];
    rewrite (goto_jump _ p) by done; [by eapply g_viscas|by eapply g_viscas_fail].
Qed.

Lemma applied_added k : has_applied k = true -> added k = true.
Proof. by destruct k. Qed.

Lemma publish_done_gstep t : p_pc p = PDone t -> gstep s i p c (publish_done i t s).
Proof.
  intros Ek. destruct (carried _ _ _ I _ _ t Hp ltac:(by rewrite Ek)) as (q & ct & k & Hq & Ht & Ha & _ & _ & _ & Hn).
  pose proof (lo_commit _ _ (in_local _ _ _ I _ _ _ Hq Ht)) as Hcm.
  rewrite Hn, (applied_added _ Ha) in Hcm. cbn [andb negb one] in Hcm.
  unfold publish_done, commit_Done. rewrite Ht. rewrite (proj2 (Z.leb_gt _ _)).
  2: { unfold one in Hcm. destruct (_ && _); lia. }
  cbn [or_panic]. rewrite (set_batch_put t ct _ s Ht).
  rewrite (set_batch_put t (ct <| cb_commit := cb_commit ct - 1 |>))
    by (apply list_lookup_insert_eq; by eapply lookup_lt_Some).
  rewrite (goto_jump _ p) by done. unfold put. cbn [heap set]. rewrite insert_insert_eq. exact (g_done s i p c t ct Ek Ht).
Qed.

Lemma publish_wait_gstep s' : p_pc p = PWait -> publish_wait i s = Some s' -> gstep s i p c s'.
Proof.
  intros Ek. unfold publish_wait. rewrite Hc. destruct (Z.eqb_spec (cb_commit c) 0); [|done].
  intros [= <-]. rewrite (goto_jump _ p) by done. by eapply g_wait.
Qed.

Lemma Commit_return_gstep sy ns :
  p_pc p = PReturn -> p_call p = Commit sy ns -> gstep s i p c (Commit_return i ns s).
Proof.
  intros Ek Ec. unfold Commit_return. rewrite Hc.
  destruct (if ns then None else cb_commitErr c) as [err|] eqn:Ee.
  - unfold no_reuse. rewrite (set_batch_put _ c), (goto_jump _ p) by done. eapply g_return; eauto.
  - rewrite (goto_jump _ p) by done.
    pose proof (g_return s i p c sy ns None c Ek Ec (eq_sym Ee) eq_refl) as G.
    by rewrite put_id in G.
Qed.

Lemma go_step_gstep s' : go_step i s = Some s' -> gstep s i p c s'.
Proof.
  unfold go_step. rewrite Hp. cbn [mbind option_bind].
  destruct (p_pc p) eqn:Ek, (p_call p) eqn:Ec; try done.
  all: try (intros [= <-]).
  all: eauto using Commit_start_gstep, Allocate_start_gstep, Commit_sync_gstep, prepare_add_gstep,
    prepare_lock_gstep, enqueue_load_gstep, enqueue_slot_gstep, enqueue_inc_gstep, prepare_seq_gstep,
    Allocate_seq_gstep, prepare_write_gstep, prepare_unlock_gstep, Commit_apply_gstep,
    Allocate_spin_gstep, Allocate_prepare_gstep, directWrite_sem_gstep.
  all: eauto using directWrite_write_gstep, directWrite_wait_gstep, Allocate_apply_gstep,
    dequeue_load_gstep, dequeue_slot_gstep, dequeue_applied_gstep, dequeue_cas_gstep,
    dequeue_nil_gstep, publish_check_gstep, publish_load_gstep, publish_cas_gstep,
    publish_done_gstep, publish_wait_gstep, Commit_return_gstep.
  all: unfold enqueue_store, Allocate_unlock, publish_start, release_commitQueueSem.
  all: rewrite ?(set_batch_put _ c), (goto_jump _ p) by done.
  all: first [by eapply g_store|by eapply g_unlockA|by eapply g_publish|by eapply g_release
             |by eapply g_returnA].
Qed.
End steps.
End inv.
