(* ===== verification/CommitSteps.v ===== *)
(** The commit pipeline (Commit.v): each part of the invariant of CommitFacts.v is kept by
    the transitions of a goroutine. *)
From S2P Require Import Prelude.
From S2P Require Import SyncQueue.
From S2P Require Import Batch.
From S2P Require Import Commit.
From S2P Require Import CommitFacts.
From S2P Require Import CommitInv.

Local Open Scope Z_scope.

Section steps.
Context {K : BatchSkl} {CE : commitEnv}.
Implicit Types s : commitPipeline.
Implicit Types p q : proc.
Implicit Types c : cbatch.

(** ** Frames *)
Lemma gstep_procs s i p c s' : gstep s i p c s' ->
  exists p', procs s' = <[i := p']> (procs s) /\ p_call p' = p_call p.
Proof. intros G. destruct G; eexists; (split; [reflexivity|]); by destruct p. Qed.

(** A step changes the batch of the goroutine, or the one it is done with. *)
Lemma gstep_heap s i p c s' : heap s !! i = Some c -> gstep s i p c s' ->
  exists t d d', heap s !! t = Some d /\ heap s' = <[t := d']> (heap s) /\
    (t = i \/ p_pc p = PDone t) /\
    (numbered (p_pc p) = true -> seqn d' = seqn d /\ endn d' = endn d) /\
    (forall q, (t = i -> p_call q = p_call p) -> cnt q d' = cnt q d).
Proof.
  intros Hc G.
  assert (exists t d d', heap s !! t = Some d /\ heap s = <[t := d']> (heap s) /\
    (t = i \/ p_pc p = PDone t) /\
    (numbered (p_pc p) = true -> seqn d' = seqn d /\ endn d' = endn d) /\
    (forall q, (t = i -> p_call q = p_call p) -> cnt q d' = cnt q d)) as Hsame.
  { exists i, c, c. split_and!; try done; [|by left]. by rewrite list_insert_id. }
  destruct G; try exact Hsame; clear Hsame.
  all: eexists _, _, _; (split; [eassumption|]); (split; [reflexivity|]); (split; [by auto|]).
  all: split; [intros Hn; try done; try (rewrite H in Hn; done)|try done].
  - intros q Hq. unfold cnt. by rewrite Hq, H0.
  - subst c'; by destruct err.
  - subst c'; by destruct err.
Qed.

(** ** Local facts *)
Ltac local :=
  split; cbn in *; intros;
  repeat match goal with H : _ && _ = true |- _ => apply andb_true_iff in H as [? ?] end;
  try solve [done | lia | congruence | auto | tauto | eauto | by rewrite ?length_copy_at; auto].

Ltac by_cases := repeat case_bool_decide; cbn in *; try congruence; lia.

Lemma local_early p c : LocalOK p c ->
  (written (p_pc p) = false -> p_sync p = NotQueued) /\
  (has_applied (p_pc p) = false -> cb_published c = false) /\
  (p_sync p <> Signalled -> cb_commitErr c = None) /\
  (forall ns, p_call p = Commit false ns -> cb_commitErr c = None).
Proof.
  intros L. split_and!.
  - intros H. destruct (p_sync p) eqn:E; [done|..];
      destruct (lo_sync _ _ L) as [H1 _]; try congruence.
  - intros H. destruct (cb_published c) eqn:E; [|done]. rewrite (lo_published _ _ L E) in H. done.
  - intros H. destruct (cb_commitErr c) eqn:E; [|done]. destruct H. apply (lo_commitErr _ _ L). by rewrite E.
  - intros ns H. destruct (cb_commitErr c) eqn:E; [|done].
    pose proof (lo_commitErr _ _ L ltac:(by rewrite E)) as Es.
    destruct (lo_sync _ _ L ltac:(by rewrite Es)) as [_ [Hs|(? & ? & ? & ? & Hs)]]; rewrite H in Hs; done.
Qed.

Lemma gstep_local s i p c s' :
  (forall j q d, procs s !! j = Some q -> heap s !! j = Some d -> LocalOK q d) ->
  procs s !! i = Some p -> heap s !! i = Some c -> gstep s i p c s' -> (forall t, p_pc p <> PDone t) ->
  exists p' c', procs s' = <[i := p']> (procs s) /\ heap s' = <[i := c']> (heap s) /\ LocalOK p' c'.
Proof.
  intros HL Hp Hc G Hnd. pose proof (HL _ _ _ Hp Hc) as L. clear HL.
  pose proof (local_early _ _ L) as (Hsy & Hpb & Hce & Hns).
  assert (heap s = <[i := c]> (heap s)) as Hsame by by rewrite list_insert_id.
  destruct p as [cl k sy wg er sn].
  destruct G; cbn in *; subst.
  all: try (by destruct (Hnd t)).
  all: first [eexists _, c; split; [reflexivity|]; split; [exact Hsame|]
             |eexists _, _; split; [reflexivity|]; split; [reflexivity|]].
  all: clear Hnd Hp Hc Hsame.
  all: destruct L; try (destruct cl; [|discriminate lo_fits]); try (destruct cl; [discriminate lo_fits|]).
  all: try specialize (Hsy eq_refl); try specialize (Hpb eq_refl); subst; cbn in *.
  all: try match goal with |- LocalOK _ (match ?o with Some _ => _ | None => _ end) => destruct o eqn:? end.
  all: local.
  all: try match type of Hpb with cb_published _ = _ => rewrite ?Hpb in *; cbn in * end.
  - apply Nat.leb_gt in H1. unfold batchHeaderLen in H1. lia.
  - by apply u32_small.
  - lia.
  - destruct syncWAL, noSyncWait; cbn in *; by_cases.
  - destruct sy0, ns; cbn in *; by_cases.
  - split; [done|]. destruct sy0; [by left|done].
  - by destruct sy0.
  - destruct (Hce ltac:(done)). done.
  - subst wg. done.
  - split; [done|]. right. by eexists _, _, _, _.
  - destruct (Hce ltac:(done)). done.
  - subst. by rewrite bool_decide_eq_true_2 in * by done.
  - destruct (cb_published c); cbn in *.
    2: { unfold one in *. destruct (waits cl && bool_decide (sy <> Signalled)); lia. }
    split; [done|]. intros Hw. rewrite Hw in *. cbn in *. case_bool_decide as E; cbn in *; [lia|].
    destruct sy; try done; by destruct E.
  - injection H as <-. destruct sy0, ns; cbn in *; try congruence; rewrite (Hns _ eq_refl) in *; congruence.
  - injection H as <-. destruct sy0, ns; cbn in *; try congruence; rewrite (Hns _ eq_refl) in *; congruence.
Qed.

Lemma done_local q c : LocalOK q c -> has_applied (p_pc q) = true -> cb_published c = false ->
  finished (p_pc q) = false ->
  LocalOK q (c <| cb_commit := cb_commit c - 1 |> <| cb_published := true |>).
Proof.
  intros L Ha Hn Hf. destruct L. split; try assumption; cbn in *.
  - rewrite Hn, (applied_added _ Ha) in *. cbn in *. lia.
  - done.
  - by rewrite Hf.
Qed.

(** The goroutine of a batch that is not published has not finished. *)
Lemma not_finished q c : LocalOK q c -> cb_published c = false -> finished (p_pc q) = false.
Proof. intros L H. destruct (finished (p_pc q)) eqn:E; [|done]. destruct (lo_finished _ _ L E). congruence. Qed.

Lemma done_or_not (k : pc) : (exists t, k = PDone t) \/ forall t, k <> PDone t.
Proof. destruct k; eauto; by right. Qed.

Lemma local_step base bound s i p c s' :
  Inv base bound s -> procs s !! i = Some p -> heap s !! i = Some c -> gstep s i p c s' ->
  forall j q d, procs s' !! j = Some q -> heap s' !! j = Some d -> LocalOK q d.
Proof.
  intros I Hp Hc G. pose proof (in_local _ _ _ I) as HL.
  destruct (done_or_not (p_pc p)) as [[t Ht]|Hnd].
  - destruct (carried _ _ _ I _ _ t Hp ltac:(by rewrite Ht)) as (qt & ct & k & Hq & Hct & Ha & _ & _ & _ & Hn).
    assert (s' = jump i p PLoad (put t (ct <| cb_commit := cb_commit ct - 1 |> <| cb_published := true |>) s)) as ->.
    { destruct G; try congruence. rewrite Ht in H. injection H as <-. rewrite Hct in H0. by injection H0 as <-. }
    intros j q d Hj Hd. cbn in Hj, Hd. apply list_lookup_insert_Some in Hd as [(<- & <- & _)|[Hne Hd]].
    + pose proof (HL _ _ _ Hq Hct) as Lt. pose proof (not_finished _ _ Lt Hn) as Hf.
      apply list_lookup_insert_Some in Hj as [(<- & <- & _)|[Hne Hj]].
      * rewrite Hp in Hq. injection Hq as <-. rewrite Hc in Hct. injection Hct as <-.
        apply done_local; [|done..]. destruct Lt, p. cbn in *. subst. by split.
      * rewrite Hj in Hq. injection Hq as ->. by apply done_local.
    + apply list_lookup_insert_Some in Hj as [(<- & <- & _)|[Hne' Hj]]; [|by eapply HL].
      rewrite Hc in Hd. injection Hd as <-. pose proof (HL _ _ _ Hp Hc) as Lp.
      destruct Lp, p. cbn in *. subst. by split.
  - destruct (gstep_local _ _ _ _ _ HL Hp Hc G Hnd) as (p' & c' & Ep & Ec & L').
    intros j q d Hj Hd. rewrite Ep in Hj. rewrite Ec in Hd.
    apply list_lookup_insert_Some in Hj as [(<- & <- & _)|[Hne Hj]];
      apply list_lookup_insert_Some in Hd as [(? & <- & _)|[Hne' Hd]]; try done. by eapply HL.
Qed.


(** ** The mutex and the semaphores *)
Ltac at_proc H := apply list_lookup_insert_Some in H as [(<- & <- & _)|[? H]].

(** No goroutine has the mutex after it is unlocked. *)
Lemma released s i x j q :
  (forall j q, procs s !! j = Some q -> holds_mu (p_pc q) = true <-> mu s = Some j) ->
  <[i := x]> (procs s) !! j = Some q -> mu s = Some i -> holds_mu (p_pc x) = false ->
  holds_mu (p_pc q) = true <-> None = Some j.
Proof.
  intros Hh Hj Hi Hx. at_proc Hj; [by rewrite Hx|]. rewrite (Hh _ _ Hj), Hi. split; [by intros [= ->]|done].
Qed.

Lemma mu_step s i p c s' : MuInv s -> procs s !! i = Some p -> gstep s i p c s' -> MuInv s'.
Proof.
  intros [Hh Hd] Hp G. pose proof (Hh _ _ Hp) as M.
  assert (forall j, mu s = Some j -> forall x, is_Some (<[i:=x]> (procs s) !! j)) as Hd'.
  { intros j Hj x. apply lookup_lt_is_Some. rewrite length_insert. by apply lookup_lt_is_Some, Hd. }
  destruct G; split; cbn; try done; try (intros j Hj; by apply Hd').
  all: try match goal with H : p_pc _ = _ |- _ => rewrite H in M; cbn in M end.
  all: intros j; try intros q Hj.
  all: try (at_proc Hj; [by rewrite <- M|by eapply Hh]).
  - at_proc Hj; [done|]. rewrite (Hh _ _ Hj), H0. split; [done|]. by intros [= ->].
  - intros [= <-]. eexists. apply list_lookup_insert_eq. by eapply lookup_lt_Some.
  - apply (released _ _ _ _ _ Hh Hj); [by apply M|done].
  - apply (released _ _ _ _ _ Hh Hj); [by apply M|done].
  - apply (released _ _ _ _ _ Hh Hj); [by apply M|done].
Qed.

Lemma one_range b : 0 <= one b <= 1.
Proof. destruct b; cbn; lia. Qed.

Lemma sem_delta s i p c s' : LocalOK p c -> gstep s i p c s' ->
  commitQueueSem s <= sem_cap -> logSyncQSem s <= sem_cap ->
  exists p', procs s' = <[i := p']> (procs s) /\
    commitQueueSem s' = commitQueueSem s - one (sem_held (p_pc p)) + one (sem_held (p_pc p')) /\
    logSyncQSem s' = logSyncQSem s - one (log_held p) + one (log_held p') /\
    commitQueueSem s' <= sem_cap /\ logSyncQSem s' <= sem_cap.
Proof.
  intros L G C1 C2. pose proof (local_early _ _ L) as (Hsy & _ & _ & _).
  pose proof (lo_syncWG _ _ L) as Hwg. pose proof (lo_fits _ _ L) as Hf. clear L.
  destruct p as [cl k sy wg er sn].
  destruct G; cbn in *; subst; eexists; (split; [reflexivity|]); unfold log_held; cbn.
  all: try (destruct cl; [|discriminate Hf]); try (destruct cl; [discriminate Hf|]); cbn.
  all: try specialize (Hsy eq_refl); subst; cbn.
  all: split_and!; try lia; try by_cases.
  - destruct sy0; by_cases.
Qed.

Lemma count_insert {A} (f : A -> bool) (l : list A) i x y :
  l !! i = Some x -> count f (<[i := y]> l) = count f l - one (f x) + one (f y).
Proof. apply (total_insert (fun x => one (f x))). Qed.

Lemma sem_step s i p c s' :
  SemInv s -> procs s !! i = Some p -> LocalOK p c -> gstep s i p c s' -> SemInv s'.
Proof.
  intros [H1 H2 H3 H4] Hp L G. destruct (sem_delta _ _ _ _ _ L G H3 H4) as (p' & Ep & E1 & E2 & C1 & C2).
  split; try done; rewrite Ep, (count_insert _ _ _ _ _ Hp); [by rewrite E1, H1|by rewrite E2, H2].
Qed.

(** ** The order of the batches *)
Lemma order_step s i p c s' :
  OrderInv s -> MuInv s -> procs s !! i = Some p -> gstep s i p c s' -> OrderInv s'.
Proof.
  intros O M Hp G. pose proof (oi_in _ O _ _ Hp) as Hi. pose proof (oi_last _ O _ _ Hp) as Hl.
  assert (forall j, j ∈ g_order s -> forall x, is_Some (<[i:=x]> (procs s) !! j)) as Hd'.
  { intros j Hj x. apply lookup_lt_is_Some. rewrite length_insert. by apply lookup_lt_is_Some, (oi_dom _ O). }
  pose proof (oi_nodup _ O) as Hnd. pose proof (oi_tail _ O) as Ht.
  destruct G; split; cbn; try done; try (intros j Hj; by apply Hd'); try lia.
  all: try match goal with H : p_pc _ = _ |- _ => rewrite H in Hi, Hl; cbn in Hi, Hl end.
  all: try (intros j q Hj; at_proc Hj; [by rewrite <- Hi|by eapply (oi_in _ O)]).
  all: try (intros j q Hj; at_proc Hj; [first [done|intros _ _; by apply Hl]|by eapply (oi_last _ O)]).
  - apply NoDup_app. split_and!; [done| |apply NoDup_singleton].
    intros j Hj ->%list_elem_of_singleton. by apply Hi in Hj.
  - intros j q Hj. rewrite elem_of_app, list_elem_of_singleton.
    at_proc Hj; [split; [by right|done]|]. rewrite (oi_in _ O _ _ Hj). split; [by left|by intros [|]].
  - intros j [Hj| ->%list_elem_of_singleton]%elem_of_app; [by apply Hd'|].
    eexists. apply list_lookup_insert_eq. by eapply lookup_lt_Some.
  - rewrite length_app. lia.
  - intros j q Hj Hm He. rewrite last_snoc. at_proc Hj; [done|].
    apply (mi_holds _ M _ _ Hj) in Hm.
    pose proof (proj1 (mi_holds _ M _ _ Hp) ltac:(by rewrite H)). congruence.
Qed.

End steps.
