(* ===== verification/CommitRing.v ===== *)
(** The commit pipeline (Commit.v): the ring of pending batches keeps its invariant. *)
From S2P Require Import Prelude.
From S2P Require Import SyncQueue.
From S2P Require Import Batch.
From S2P Require Import Commit.
From S2P Require Import CommitFacts.
From S2P Require Import CommitInv.
From S2P Require Import CommitSteps.

Local Open Scope Z_scope.

Section ring.
Context {K : BatchSkl} {CE : commitEnv}.
Implicit Types s : commitPipeline.
Implicit Types p q : proc.
Implicit Types c : cbatch.

Ltac at_proc H := apply list_lookup_insert_Some in H as [(<- & <- & _)|[? H]].

(** ** The ring *)
Definition ring_pc (k : pc) : bool :=
  match k with PSlot _ | PStore _ | PInc | PNil _ _ => true | _ => false end.

Lemma ring_frame s i p p' s' :
  RingInv s -> procs s !! i = Some p -> ring_pc (p_pc p) = false -> ring_pc (p_pc p') = false ->
  procs s' = <[i := p']> (procs s) -> q_headTail s' = q_headTail s -> q_slots s' = q_slots s ->
  g_order s' = g_order s -> g_tail s' = g_tail s -> RingInv s'.
Proof.
  intros R Hp Hk Hk' E1 E2 E3 E4 E5. split; rewrite ?E1, ?E2, ?E3, ?E4, ?E5; try apply R.
  - intros j q ptrs b Hj Eq. at_proc Hj; [by rewrite Eq in Hk'|by eapply (ri_nil _ R)].
  - intros j q ptrs b j' q' ptrs' b' Hj Eq Hj' Eq' Es.
    at_proc Hj; [by rewrite Eq in Hk'|]. at_proc Hj'; [by rewrite Eq' in Hk'|].
    by eapply (ri_nil_unique _ R).
  - intros j q Hj. at_proc Hj; [by destruct (p_pc p')|by apply (ri_head _ R)].
  - intros k Hkk. destruct (ri_free _ R k Hkk) as [H|[(j & q & ptrs & b & Hj & Eq & Hk2)|(j & q & Hj & Eq & Hk2)]].
    + by left.
    + right; left. exists j, q, ptrs, b. split_and!; try done. rewrite list_lookup_insert_ne; [done|].
      intros <-. rewrite Hp in Hj. injection Hj as <-. by rewrite Eq in Hk.
    + right; right. exists j, q. split_and!; try done. rewrite list_lookup_insert_ne; [done|].
      intros <-. rewrite Hp in Hj. injection Hj as <-. by rewrite Eq in Hk.
Qed.

(** The only goroutine that enqueues is the one that has the mutex. *)
Lemma one_producer s i p j q : MuInv s -> procs s !! i = Some p -> procs s !! j = Some q ->
  holds_mu (p_pc p) = true -> holds_mu (p_pc q) = true -> i = j /\ p = q.
Proof.
  intros M Hp Hq H1 H2. apply (mi_holds _ M _ _ Hp) in H1. apply (mi_holds _ M _ _ Hq) in H2.
  rewrite H1 in H2. injection H2 as <-. rewrite Hp in Hq. by injection Hq as <-.
Qed.

(** Changing the program counter of the producer. *)
Lemma ring_producer s i p k :
  RingInv s -> MuInv s -> procs s !! i = Some p -> holds_mu (p_pc p) = true -> p_pc p <> PInc ->
  match k with
  | PSlot z => z = u32 (Z.of_nat (length (g_order s))) /\ (length (g_order s) < g_tail s + ring_size)%nat
  | PStore z => z = u32 (Z.of_nat (length (g_order s))) /\ (length (g_order s) < g_tail s + ring_size)%nat /\
      q_slots s !! slot_of (length (g_order s)) = Some None
  | _ => False
  end -> RingInv (jump i p k s).
Proof.
  intros R M Hp Hm Hni Hk. split; cbn; try apply R.
  - intros j q ptrs b Hj Eq. at_proc Hj; [cbn in Eq; by rewrite Eq in Hk|by eapply (ri_nil _ R)].
  - intros j q ptrs b j' q' ptrs' b' Hj Eq Hj' Eq' Es.
    at_proc Hj; [cbn in Eq; by rewrite Eq in Hk|]. at_proc Hj'; [cbn in Eq'; by rewrite Eq' in Hk|].
    by eapply (ri_nil_unique _ R).
  - intros j q Hj. at_proc Hj; [cbn; by destruct k|by apply (ri_head _ R)].
  - intros k0 Hkk. destruct (ri_free _ R k0 Hkk) as [H|[(j & q & ptrs & b & Hj & Eq & Hk2)|(j & q & Hj & Eq & Hk2)]].
    + by left.
    + right; left. exists j, q, ptrs, b. split_and!; try done. rewrite list_lookup_insert_ne; [done|].
      intros <-. rewrite Hp in Hj. injection Hj as <-. by rewrite Eq in Hm.
    + destruct (one_producer _ _ _ _ _ M Hp Hj Hm ltac:(by rewrite Eq)) as [<- <-]. done.
Qed.

Lemma slots_insert_ne (l : list (option nat)) j k x o :
  l !! slot_of k = Some o -> slot_of j <> slot_of k -> <[slot_of j := x]> l !! slot_of k = Some o.
Proof. intros H Hne. by rewrite list_lookup_insert_ne. Qed.

Lemma slots_insert_eq s k x :
  RingInv s -> <[slot_of k := x]> (q_slots s) !! slot_of k = Some x.
Proof. intros R. apply list_lookup_insert_eq. rewrite (ri_size _ R). apply slot_of_lt. Qed.

(** A slot that is still to be cleared is not the one the producer has filled. *)
Lemma nil_not_head s i p j q ptrs b :
  RingInv s -> OrderInv s -> procs s !! i = Some p -> p_pc p = PInc ->
  procs s !! j = Some q -> p_pc q = PNil ptrs b -> (length (g_order s) < p_snap q + ring_size)%nat.
Proof.
  intros R O Hp Hk Hq Hj. destruct (ri_nil _ R _ _ _ _ Hq Hj) as (_ & Hb & _ & Hl & Hs).
  destruct (decide (length (g_order s) = p_snap q + ring_size)%nat) as [E|]; [|lia].
  pose proof (ri_head _ R _ _ Hp) as Hh. rewrite Hk, E, slot_of_wrap, Hs in Hh.
  destruct Hh as [_ [= ->]]. apply list_elem_of_lookup_2, (oi_in _ O _ _ Hp) in Hb. by rewrite Hk in Hb.
Qed.

Lemma ring_store s i p z :
  RingInv s -> OrderInv s -> MuInv s -> procs s !! i = Some p -> p_pc p = PStore z ->
  RingInv (jump i p PInc (s <| q_slots := <[slot_index z := Some i]> (q_slots s) |>)).
Proof.
  intros R O M Hp Hk. pose proof (ri_head _ R _ _ Hp) as Hh. rewrite Hk in Hh. destruct Hh as (-> & Hlt & Hs).
  rewrite slot_of_u32. split; cbn; try apply R.
  - rewrite length_insert. apply R.
  - intros k b Hle Hb. apply slots_insert_ne; [by eapply (ri_full _ R)|].
    apply lookup_lt_Some in Hb. apply not_eq_sym, slot_of_ne. lia.
  - intros j q ptrs b Hj Eq. at_proc Hj; [done|].
    destruct (ri_nil _ R _ _ _ _ Hj Eq) as (Hw & Hb & Hlt' & Hl & Hsl). split_and!; try done.
    apply slots_insert_ne; [done|]. destruct (decide (length (g_order s) = p_snap q + ring_size)%nat) as [E|].
    + rewrite E, slot_of_wrap, Hsl in Hs. done.
    + apply not_eq_sym, slot_of_ne. pose proof (lookup_lt_Some _ _ _ Hb). lia.
  - intros j q ptrs b j' q' ptrs' b' Hj Eq Hj' Eq' Es. at_proc Hj; [done|]. at_proc Hj'; [done|].
    by eapply (ri_nil_unique _ R).
  - intros j q Hj. at_proc Hj; [cbn; split; [done|by apply slots_insert_eq]|].
    destruct (holds_mu (p_pc q)) eqn:Em.
    + destruct (one_producer _ _ _ _ _ M Hp Hj ltac:(by rewrite Hk) Em) as [<- _]. done.
    + by destruct (p_pc q).
  - intros k Hkk. destruct (decide (k = length (g_order s))) as [->|Hne].
    { right; right. eexists i, _. split_and!; [apply list_lookup_insert_eq; by eapply lookup_lt_Some|done..]. }
    destruct (ri_free _ R k Hkk) as [H|[(j & q & ptrs & b & Hj & Eq & Hk2)|(j & q & Hj & Eq & Hk2)]]; [| |done].
    + left. apply slots_insert_ne; [done|]. apply slot_of_ne. pose proof (oi_tail _ O). lia.
    + right; left. exists j, q, ptrs, b. split_and!; try done. rewrite list_lookup_insert_ne; [done|].
      intros <-. rewrite Hp in Hj. injection Hj as <-. congruence.
Qed.

Lemma ring_inc s i p :
  RingInv s -> OrderInv s -> MuInv s -> procs s !! i = Some p -> p_pc p = PInc ->
  RingInv (jump i p PSeq (s <| q_headTail := word (S (length (g_order s))) (g_tail s) |>
             <| g_order := g_order s ++ [i] |>)).
Proof.
  intros R O M Hp Hk. pose proof (ri_head _ R _ _ Hp) as Hh. rewrite Hk in Hh. destruct Hh as (Hlt & Hs).
  assert (length (g_order s ++ [i]) = S (length (g_order s))) as El by (rewrite length_app; simpl; lia).
  split; cbn; rewrite ?El; try apply R; try done; try lia.
  - intros k b Hle Hb. apply lookup_snoc_Some in Hb as [[Hl Hb]|[-> ->]]; [|done]. by eapply (ri_full _ R).
  - intros j q ptrs b Hj Eq. at_proc Hj; [done|].
    destruct (ri_nil _ R _ _ _ _ Hj Eq) as (Hw & Hb & Hlt' & Hl & Hsl). split_and!; try done.
    + by apply lookup_app_l_Some.
    + pose proof (nil_not_head _ _ _ _ _ _ _ R O Hp Hk Hj Eq). lia.
  - intros j q ptrs b j' q' ptrs' b' Hj Eq Hj' Eq' Es. at_proc Hj; [done|]. at_proc Hj'; [done|].
    by eapply (ri_nil_unique _ R).
  - intros j q Hj. at_proc Hj; [done|]. destruct (holds_mu (p_pc q)) eqn:Em; [|by destruct (p_pc q)].
    destruct (one_producer _ _ _ _ _ M Hp Hj ltac:(by rewrite Hk) Em) as [<- _]. done.
  - intros k Hkk.
    destruct (ri_free _ R k ltac:(lia)) as [H|[(j & q & ptrs & b & Hj & Eq & Hk2)|(j & q & Hj & Eq & Hk2)]].
    + by left.
    + right; left. exists j, q, ptrs, b. split_and!; try done. rewrite list_lookup_insert_ne; [done|].
      intros <-. rewrite Hp in Hj. injection Hj as <-. congruence.
    + lia.
Qed.

Lemma ring_cas s i p ptrs b :
  RingInv s -> procs s !! i = Some p -> p_pc p = PCas ptrs b -> q_headTail s = ptrs ->
  p_snap p = g_tail s -> (g_tail s < length (g_order s))%nat -> g_order s !! g_tail s = Some b ->
  RingInv (jump i p (PNil ptrs b) (s <| q_headTail := word (length (g_order s)) (S (g_tail s)) |>
             <| g_tail := S (g_tail s) |>)).
Proof.
  intros R Hp Hk Hw Hsn Hlt Hb. pose proof (ri_len _ R) as Hlen.
  split; cbn; try apply R; try done; try lia.
  - intros k x Hle Hx. apply (ri_full _ R); [lia|done].
  - intros j q ptrs' b' Hj Eq. at_proc Hj.
    + cbn in *. injection Eq as <- <-. rewrite Hsn. split_and!; try done; try lia.
      * exists (length (g_order s)). by rewrite <- Hw, (ri_word _ R).
      * by apply (ri_full _ R).
    + destruct (ri_nil _ R _ _ _ _ Hj Eq) as (Hw' & Hb' & Hlt' & Hl & Hsl). split_and!; try done. lia.
  - intros j q ptrs1 b1 j' q' ptrs2 b2 Hj Eq Hj' Eq' Es.
    at_proc Hj; at_proc Hj'; try done; cbn in Es.
    + destruct (ri_nil _ R _ _ _ _ Hj' Eq') as (_ & _ & Hlt' & _). lia.
    + destruct (ri_nil _ R _ _ _ _ Hj Eq) as (_ & _ & Hlt' & _). lia.
    + by eapply (ri_nil_unique _ R).
  - intros j q Hj. at_proc Hj; [done|]. pose proof (ri_head _ R _ _ Hj) as Hh.
    destruct (p_pc q); try done; intuition lia.
  - intros k Hkk. destruct (decide (k = g_tail s + ring_size)%nat) as [->|].
    { right; left. eexists i, _, _, _. split_and!; [apply list_lookup_insert_eq; by eapply lookup_lt_Some|done|].
      cbn. lia. }
    destruct (ri_free _ R k ltac:(lia)) as [H|[(j & q & ptrs' & b' & Hj & Eq & Hk2)|(j & q & Hj & Eq & Hk2)]].
    + by left.
    + right; left. exists j, q, ptrs', b'. split_and!; try done. rewrite list_lookup_insert_ne; [done|].
      intros <-. rewrite Hp in Hj. injection Hj as <-. congruence.
    + right; right. exists j, q. split_and!; try done. rewrite list_lookup_insert_ne; [done|].
      intros <-. rewrite Hp in Hj. injection Hj as <-. congruence.
Qed.

Lemma ring_clear s i p ptrs b :
  RingInv s -> OrderInv s -> procs s !! i = Some p -> p_pc p = PNil ptrs b ->
  RingInv (jump i p (PCheck b) (s <| q_slots := <[slot_of (p_snap p) := None]> (q_slots s) |>)).
Proof.
  intros R O Hp Hk. destruct (ri_nil _ R _ _ _ _ Hp Hk) as (_ & Hb & Hlt & Hl & Hs).
  pose proof (oi_tail _ O) as Ht. split; cbn; try apply R.
  - rewrite length_insert. apply R.
  - intros k x Hle Hx. apply slots_insert_ne; [by eapply (ri_full _ R)|].
    apply lookup_lt_Some in Hx. apply slot_of_ne. lia.
  - intros j q ptrs' b' Hj Eq. at_proc Hj; [done|].
    destruct (ri_nil _ R _ _ _ _ Hj Eq) as (Hw' & Hb' & Hlt' & Hl' & Hsl). split_and!; try done.
    apply slots_insert_ne; [done|].
    destruct (decide (p_snap p = p_snap q)) as [E|Hne].
    + by pose proof (ri_nil_unique _ R _ _ _ _ _ _ _ _ Hp Hk Hj Eq E).
    + destruct (decide (p_snap p < p_snap q)%nat); [apply slot_of_ne; lia|].
      apply not_eq_sym, slot_of_ne. lia.
  - intros j q ptrs1 b1 j' q' ptrs2 b2 Hj Eq Hj' Eq' Es. at_proc Hj; [done|]. at_proc Hj'; [done|].
    by eapply (ri_nil_unique _ R).
  - intros j q Hj. at_proc Hj; [done|]. pose proof (ri_head _ R _ _ Hj) as Hh.
    destruct (p_pc q) eqn:Eq; try done.
    + destruct Hh as (-> & Hlt' & Hn). split_and!; try done.
      destruct (decide (slot_of (p_snap p) = slot_of (length (g_order s)))) as [E|E].
      * rewrite E. by apply slots_insert_eq.
      * by apply slots_insert_ne.
    + destruct Hh as (Hlt' & Hn). split; [done|]. apply slots_insert_ne; [done|]. apply slot_of_ne.
      pose proof (nil_not_head _ _ _ _ _ _ _ R O Hj Eq Hp Hk). lia.
  - intros k Hkk. destruct (decide (k = p_snap p + ring_size)%nat) as [->|Hne].
    { left. rewrite slot_of_wrap. by apply slots_insert_eq. }
    destruct (ri_free _ R k Hkk) as [H|[(j & q & ptrs' & b' & Hj & Eq & Hk2)|(j & q & Hj & Eq & Hk2)]].
    + left. destruct (decide (slot_of (p_snap p) = slot_of k)) as [E|E].
      * rewrite E. by apply slots_insert_eq.
      * by apply slots_insert_ne.
    + right; left. exists j, q, ptrs', b'. split_and!; try done. rewrite list_lookup_insert_ne; [done|].
      intros <-. rewrite Hp in Hj. injection Hj as <-. done.
    + right; right. exists j, q. split_and!; try done. rewrite list_lookup_insert_ne; [done|].
      intros <-. rewrite Hp in Hj. injection Hj as <-. congruence.
Qed.

Lemma ring_step s i p c s' :
  RingInv s -> OrderInv s -> MuInv s -> procs s !! i = Some p -> gstep s i p c s' -> RingInv s'.
Proof.
  intros R O M Hp G. pose proof (ri_head _ R _ _ Hp) as Hh.
  destruct G; try (eapply (ring_frame s i p); [done|done|by rewrite H| |reflexivity..]; done).
  - apply ring_producer; try done; by rewrite H.
  - rewrite H in Hh. destruct Hh as [-> Hlt]. rewrite slot_of_u32 in H0.
    apply ring_producer; try done; by rewrite H.
  - by apply ring_store.
  - by apply ring_inc.
  - by apply ring_cas.
  - by eapply ring_clear.
Qed.

(** ** Snapshots of the word *)
Lemma is_applied_put b i c c' s : heap s !! i = Some c ->
  (b_applied (cb_batch c) = true -> b_applied (cb_batch c') = true) ->
  is_applied b s = true -> is_applied b (put i c' s) = true.
Proof.
  intros Hc Hm. unfold is_applied, put. cbn. destruct (decide (i = b)) as [->|].
  - rewrite Hc, list_lookup_insert_eq by (by eapply lookup_lt_Some). exact Hm.
  - by rewrite list_lookup_insert_ne.
Qed.

Lemma gstep_applied s i p c s' b : LocalOK p c -> heap s !! i = Some c -> gstep s i p c s' ->
  is_applied b s = true -> is_applied b s' = true.
Proof.
  intros L Hc G. assert (b_applied (cb_batch c) = true -> has_applied (p_pc p) = true) as Ha.
  { by rewrite (lo_applied _ _ L). }
  destruct G; try done.
  all: eapply (is_applied_put _ _ _ _ s); [eassumption|]; try done.
  all: try (intros Hb; apply Ha in Hb; rewrite H in Hb; done).
  subst c'; by destruct err.
Qed.

Lemma snap_mono s s' q :
  (g_tail s <= g_tail s')%nat -> (exists l, g_order s' = g_order s ++ l) ->
  (forall b, is_applied b s = true -> is_applied b s' = true) -> SnapOK s q -> SnapOK s' q.
Proof.
  intros Ht [l Hl] Ha.
  assert (forall ptrs n, snapshot s ptrs n -> snapshot s' ptrs n) as Hs.
  { intros ptrs n (h & E & H1 & H2 & H3). exists h. split_and!; try lia. rewrite Hl, length_app. lia. }
  assert (forall n ptrs, snapshot s ptrs n -> n = g_tail s' -> g_tail s' = g_tail s) as Hn.
  { intros n ptrs (h & _ & H1 & _) E. lia. }
  assert (forall b, g_order s !! g_tail s = Some b -> g_order s' !! g_tail s = Some b) as Ho.
  { intros b Hb. rewrite Hl. by apply lookup_app_l_Some. }
  unfold SnapOK. destruct (p_pc q); try done.
  - apply Hs.
  - intros [H1 H2]. split; [by apply Hs|]. intros E. rewrite (Hn _ _ H1 E) in E |- *. auto.
  - intros [H1 H2]. split; [by apply Hs|]. intros E. rewrite (Hn _ _ H1 E) in E |- *.
    destruct (H2 E). auto.
Qed.

Lemma gstep_mono s i p c s' : gstep s i p c s' ->
  (g_tail s <= g_tail s')%nat /\ exists l, g_order s' = g_order s ++ l.
Proof.
  assert (exists l, g_order s = g_order s ++ l) by (exists []; by rewrite app_nil_r).
  intros G. destruct G; split; cbn; try lia; eauto.
Qed.

Lemma snap_step s i p c s' :
  SnapInv s -> RingInv s -> OrderInv s -> LocalOK p c -> procs s !! i = Some p -> heap s !! i = Some c ->
  gstep s i p c s' -> SnapInv s'.
Proof.
  intros S R O L Hp Hc G. destruct (gstep_mono _ _ _ _ _ G) as [Ht Hl].
  pose proof (fun b => gstep_applied _ _ _ _ _ b L Hc G) as Ha.
  destruct (gstep_procs _ _ _ _ _ G) as (p' & Ep & _).
  assert (SnapOK s' p') as Hi.
  2: { split. intros j q Hj. rewrite Ep in Hj. at_proc Hj; [done|]. by apply (snap_mono s s' q Ht Hl Ha), (sn_ok _ S j). }
  assert (procs s' !! i = Some p') as Hp'.
  { rewrite Ep. apply list_lookup_insert_eq. by eapply lookup_lt_Some. }
  pose proof (sn_ok _ S _ _ Hp) as Hs. unfold SnapOK in Hs.
  assert (i < length (procs s))%nat as Hi by by eapply lookup_lt_Some.
  destruct G; cbn in Hp'; rewrite list_lookup_insert_eq in Hp' by done; injection Hp' as <-; try done;
    rewrite H in Hs; unfold SnapOK; cbn.
  - pose proof (ri_len _ R). exists (length (g_order s)). split_and!; cbn; try lia. apply R.
  - split; [done|]. intros E. cbn in E. destruct Hs as (h' & _ & _ & H3 & H4).
    destruct (lookup_lt_is_Some_2 (g_order s) (g_tail s)) as [x Hx]; [lia|].
    pose proof (ri_full _ R (g_tail s) x ltac:(done) Hx) as Hf. rewrite <- E, H1 in Hf. injection Hf as ->. done.
  - destruct Hs as [Hs1 Hs2]. split; [done|]. intros E. auto.
Qed.
End ring.
