(* ===== verification/CommitPublish.v ===== *)
(** The commit pipeline (Commit.v): batches are published once, in the order of their
    sequence numbers. *)
From S2P Require Import Prelude.
From S2P Require Import SyncQueue.
From S2P Require Import Batch.
From S2P Require Import Commit.
From S2P Require Import CommitFacts.
From S2P Require Import CommitInv.
From S2P Require Import CommitSteps.
From S2P Require Import CommitRing.

Local Open Scope Z_scope.

Section publish.
Context {K : BatchSkl} {CE : commitEnv}.
Implicit Types s : commitPipeline.
Implicit Types p q : proc.
Implicit Types c : cbatch.

Ltac at_proc H := apply list_lookup_insert_Some in H as [(<- & <- & _)|[? H]].

Definition pubs s (t : nat) : option bool := cb_published <$> heap s !! t.

Lemma pubs_put s t c c' u : heap s !! t = Some c -> cb_published c' = cb_published c ->
  pubs (put t c' s) u = pubs s u.
Proof.
  intros Hc E. unfold pubs, put. cbn. destruct (decide (t = u)) as [->|].
  - rewrite Hc, list_lookup_insert_eq by (by eapply lookup_lt_Some). simpl. by rewrite E.
  - by rewrite list_lookup_insert_ne.
Qed.

Lemma gstep_pubs s i p c s' u : heap s !! i = Some c -> gstep s i p c s' -> (forall t, p_pc p <> PDone t) ->
  pubs s' u = pubs s u.
Proof.
  intros Hc G Hn. destruct G; try done; try (by destruct (Hn t)).
  all: eapply (pubs_put s); [done|]; try done.
  subst c'; by destruct err.
Qed.

Lemma pubs_Some s t b : pubs s t = Some b <-> exists c, heap s !! t = Some c /\ cb_published c = b.
Proof. unfold pubs. rewrite fmap_Some. firstorder. Qed.

(** ** The batches that are being published *)
Lemma carry_frame s i p p' s' :
  CarryInv s -> procs s !! i = Some p -> procs s' = <[i := p']> (procs s) ->
  carries (p_pc p') = carries (p_pc p) -> g_tail s' = g_tail s ->
  (g_tail s <= length (g_order s))%nat -> (exists l, g_order s' = g_order s ++ l) ->
  (forall t, pubs s' t = pubs s t) -> (forall b, is_applied b s = true -> is_applied b s' = true) ->
  CarryInv s'.
Proof.
  intros C Hp Ep Ec Et Hle [l El] Hpub Happ.
  assert (forall j q t, procs s' !! j = Some q -> carries (p_pc q) = Some t ->
    exists q', procs s !! j = Some q' /\ carries (p_pc q') = Some t) as Hback.
  { intros j q t Hj Hq. rewrite Ep in Hj. at_proc Hj; [exists p; by rewrite <- Ec|eauto]. }
  assert (forall k t, (k < g_tail s)%nat -> g_order s' !! k = Some t <-> g_order s !! k = Some t) as Hord.
  { intros k t Hk. rewrite El, lookup_app_l; [done|lia]. }
  split; rewrite ?Et.
  - intros j q t Hj Hq. destruct (Hback _ _ _ Hj Hq) as (q' & Hj' & Hq').
    destruct (ci_order _ C _ _ _ Hj' Hq') as (k & ct & Hk & Ho & Hc & Hn).
    destruct (proj1 (pubs_Some s' t false)) as (ct' & Hc' & Hn').
    { rewrite Hpub. apply pubs_Some. eauto. }
    exists k, ct'. split_and!; try done. by apply Hord.
  - intros j q j' q' t Hj Hq Hj' Hq'. destruct (Hback _ _ _ Hj Hq) as (r & Hr & Hr').
    destruct (Hback _ _ _ Hj' Hq') as (r2 & Hr2 & Hr2'). by eapply (ci_unique _ C).
  - intros k t Hk Ho. apply Hord in Ho; [|done]. destruct (ci_done _ C _ _ Hk Ho) as (Ha & ct & Hct & Hx).
    split; [by apply Happ|]. destruct (proj1 (pubs_Some s' t (cb_published ct))) as (ct' & Hc' & Hn').
    { rewrite Hpub. apply pubs_Some. eauto. }
    exists ct'. split; [done|]. destruct Hx as [Hx|(j & q & Hj & Hq)]; [left; congruence|right].
    destruct (decide (i = j)) as [<-|].
    + rewrite Hp in Hj. injection Hj as <-. exists i, p'. rewrite Ep, Ec. split; [|done].
      apply list_lookup_insert_eq. by eapply lookup_lt_Some.
    + exists j, q. by rewrite Ep, list_lookup_insert_ne.
  - intros t ct Hct Hn. destruct (proj1 (pubs_Some s t true)) as (ct' & Hc' & Hn').
    { rewrite <- Hpub. apply pubs_Some. eauto. }
    destruct (ci_published _ C _ _ Hc' Hn') as (k & Hk & Ho). exists k. split; [done|]. by apply Hord.
Qed.

Lemma carry_cas s i p ptrs b :
  CarryInv s -> OrderInv s -> SnapInv s -> procs s !! i = Some p -> p_pc p = PCas ptrs b ->
  p_snap p = g_tail s -> (exists cb, heap s !! b = Some cb) -> g_order s !! g_tail s = Some b ->
  CarryInv (jump i p (PNil ptrs b) (s <| q_headTail := word (length (g_order s)) (S (g_tail s)) |>
             <| g_tail := S (g_tail s) |>)).
Proof.
  intros C O S Hp Hk Hsn [cb Hcb] Hb.
  pose proof (sn_ok _ S _ _ Hp) as Hs. unfold SnapOK in Hs. rewrite Hk in Hs.
  destruct (proj2 Hs Hsn) as [_ Happ].
  assert (cb_published cb = false) as Hnp.
  { destruct (cb_published cb) eqn:E; [|done]. destruct (ci_published _ C _ _ Hcb E) as (k & Hlt & Ho).
    pose proof (NoDup_lookup _ _ _ _ (oi_nodup _ O) Hb Ho). lia. }
  assert (forall j q, procs s !! j = Some q -> carries (p_pc q) <> Some b) as Hnc.
  { intros j q Hj Hq. destruct (ci_order _ C _ _ _ Hj Hq) as (k & ct & Hlt & Ho & _).
    pose proof (NoDup_lookup _ _ _ _ (oi_nodup _ O) Hb Ho). lia. }
  split; cbn.
  - intros j q t Hj Hq. at_proc Hj.
    + cbn in Hq. injection Hq as <-. exists (g_tail s), cb. split_and!; try done. lia.
    + destruct (ci_order _ C _ _ _ Hj Hq) as (k & ct & Hlt & Ho & Hc & Hn).
      exists k, ct. split_and!; try done. lia.
  - intros j q j' q' t Hj Hq Hj' Hq'. at_proc Hj; at_proc Hj'; try done.
    + cbn in Hq. injection Hq as <-. by destruct (Hnc _ _ Hj').
    + cbn in Hq'. injection Hq' as <-. by destruct (Hnc _ _ Hj).
    + by eapply (ci_unique _ C).
  - intros k t Hlt Ho. destruct (decide (k = g_tail s)) as [->|].
    + rewrite Hb in Ho. injection Ho as <-. split; [done|]. exists cb. split; [done|]. right.
      eexists i, _. split; [apply list_lookup_insert_eq; by eapply lookup_lt_Some|done].
    + destruct (ci_done _ C k t ltac:(lia) Ho) as (Ha & ct & Hct & Hx). split; [done|].
      exists ct. split; [done|]. destruct Hx as [Hx|(j & q & Hj & Hq)]; [by left|right].
      exists j, q. split; [|done]. rewrite list_lookup_insert_ne; [done|].
      intros <-. rewrite Hp in Hj. injection Hj as <-. by rewrite Hk in Hq.
  - intros t ct Hct Hn. destruct (ci_published _ C _ _ Hct Hn) as (k & Hlt & Ho). exists k. split; [lia|done].
Qed.

Lemma carry_done s i p t ct :
  CarryInv s -> procs s !! i = Some p -> p_pc p = PDone t -> heap s !! t = Some ct ->
  CarryInv (jump i p PLoad (put t (ct <| cb_commit := cb_commit ct - 1 |> <| cb_published := true |>) s)).
Proof.
  intros C Hp Hk Ht. assert (carries (p_pc p) = Some t) as Hct by by rewrite Hk.
  assert (t < length (heap s))%nat as Hlt by by eapply lookup_lt_Some.
  split; cbn.
  - intros j q u Hj Hq. at_proc Hj; [done|].
    destruct (ci_order _ C _ _ _ Hj Hq) as (k & cu & Hlk & Ho & Hc & Hn). exists k, cu. split_and!; try done.
    rewrite list_lookup_insert_ne; [done|]. intros <-. by pose proof (ci_unique _ C _ _ _ _ _ Hp Hct Hj Hq).
  - intros j q j' q' u Hj Hq Hj' Hq'. at_proc Hj; [done|]. at_proc Hj'; [done|]. by eapply (ci_unique _ C).
  - intros k u Hlk Ho. destruct (ci_done _ C _ _ Hlk Ho) as (Ha & cu & Hcu & Hx).
    split.
    { apply (is_applied_put u t ct _ s Ht); done. }
    destruct (decide (t = u)) as [<-|Hne].
    + eexists. split; [by apply list_lookup_insert_eq|by left].
    + exists cu. rewrite list_lookup_insert_ne by done. split; [done|].
      destruct Hx as [Hx|(j & q & Hj & Hq)]; [by left|right]. exists j, q. split; [|done].
      rewrite list_lookup_insert_ne; [done|]. intros <-. rewrite Hp in Hj. injection Hj as <-. congruence.
  - intros u cu Hcu Hn. apply list_lookup_insert_Some in Hcu as [(<- & _ & _)|[_ Hcu]].
    + destruct (ci_order _ C _ _ _ Hp Hct) as (k & ? & Hlk & Ho & _). eauto.
    + by eapply (ci_published _ C).
Qed.

Lemma carry_step base bound s i p c s' :
  Inv base bound s -> procs s !! i = Some p -> heap s !! i = Some c -> gstep s i p c s' -> CarryInv s'.
Proof.
  intros I Hp Hc G. pose proof (in_carry _ _ _ I) as C. pose proof (in_local _ _ _ I _ _ _ Hp Hc) as L.
  destruct (gstep_mono _ _ _ _ _ G) as [_ Hl]. pose proof (oi_tail _ (in_order _ _ _ I)) as Ht.
  pose proof (fun b => gstep_applied _ _ _ _ _ b L Hc G) as Ha.
  pose proof (fun u => gstep_pubs _ _ _ _ _ u Hc G) as Hpub.
  destruct G; try (by apply carry_done).
  all: try (eapply (carry_frame s i p); [done|done|reflexivity|by rewrite H|done|done|done| |done];
    intros u; apply Hpub; by rewrite H).
  destruct (queued_proc _ _ _ I (g_tail s) b ltac:(done) H3) as (qb & cb & _ & Hcb & _).
  apply carry_cas; try done; try apply I. eauto.
Qed.

(** ** Sequence numbers *)
Definition pend s (j : nat) : option Z :=
  q ← procs s !! j; c ← heap s !! j; Some (pending_count (q, c)).

Lemma gstep_numbered s i p c s' : gstep s i p c s' -> p_pc p <> PSeq ->
  exists p', procs s' = <[i := p']> (procs s) /\ p_call p' = p_call p /\
    numbered (p_pc p') = numbered (p_pc p) /\ forall l, p_pc p' <> PSpin l.
Proof. intros G Hn. destruct G; try done; eexists; (split; [reflexivity|]); cbn; by rewrite ?H. Qed.

(** Only assigning a sequence number changes the numbers. *)
Lemma gstep_nums s i p c s' :
  procs s !! i = Some p -> heap s !! i = Some c -> gstep s i p c s' -> p_pc p <> PSeq ->
  (forall j, nums s' j = nums s j) /\ (forall j, pend s' j = pend s j).
Proof.
  intros Hp Hc G Hn. destruct (gstep_numbered _ _ _ _ _ G Hn) as (p' & Ep & Ecl & En & _).
  destruct (gstep_heap _ _ _ _ _ Hc G) as (t & d & d' & Hd & Eh & Ht & Hs & Hcn).
  assert (i < length (procs s))%nat by by eapply lookup_lt_Some.
  assert (t < length (heap s))%nat by by eapply lookup_lt_Some.
  assert (forall j q q', procs s !! j = Some q -> procs s' !! j = Some q' ->
    numbered (p_pc q') = numbered (p_pc q) /\ p_call q' = p_call q) as Hq.
  { intros j q q' Hj Hj'. rewrite Ep in Hj'. at_proc Hj'; [|by simplify_eq].
    rewrite Hp in Hj. by injection Hj as <-. }
  assert (forall j q, procs s !! j = Some q -> exists q', procs s' !! j = Some q') as Hex.
  { intros j q Hj. rewrite Ep. apply lookup_lt_is_Some. rewrite length_insert. by eapply lookup_lt_Some. }
  assert (forall j, procs s !! j = None -> procs s' !! j = None) as Hnone.
  { intros j Hj. rewrite Ep. apply lookup_ge_None. rewrite length_insert. by apply lookup_ge_None. }
  assert (forall j q q' e, procs s !! j = Some q -> procs s' !! j = Some q' -> heap s !! j = Some e ->
    exists e', heap s' !! j = Some e' /\ cnt q' e' = cnt q e /\
      (numbered (p_pc q) = true -> seqn e' = seqn e /\ endn e' = endn e)) as He.
  { intros j q q' e Hj Hj' Hje. rewrite Eh. destruct (Hq _ _ _ Hj Hj') as [E1 E2].
    assert (cnt q' e = cnt q e) as E3 by (unfold cnt; by rewrite E2).
    destruct (decide (t = j)) as [<-|]; [|rewrite list_lookup_insert_ne; eauto].
    rewrite Hd in Hje. injection Hje as ->. exists d'. rewrite list_lookup_insert_eq by done. split; [done|].
    split.
    - rewrite <- E3. apply Hcn. intros ->. rewrite Hp in Hj. injection Hj as <-. done.
    - intros Hnum. apply Hs. destruct Ht as [->|Ht]; [|by rewrite Ht].
      rewrite Hp in Hj. by injection Hj as <-. }
  assert (length (heap s') = length (heap s)) as Elen by (by rewrite Eh, length_insert).
  split; intros j; unfold nums, pend; destruct (procs s !! j) as [q|] eqn:Ej;
    try (by rewrite (Hnone _ Ej)); destruct (Hex _ _ Ej) as [q' Ej']; rewrite Ej'; cbn [mbind option_bind];
    destruct (Hq _ _ _ Ej Ej') as [E1 E2]; destruct (heap s !! j) as [e|] eqn:Eje.
  2, 4: apply lookup_ge_None in Eje; rewrite <- Elen in Eje; apply lookup_ge_None in Eje; by rewrite Eje.
  - destruct (He _ _ _ _ Ej Ej' Eje) as (e' & -> & E3 & E4). cbn [mbind option_bind]. rewrite E1.
    destruct (numbered (p_pc q)); [|done]. by destruct (E4 eq_refl) as [-> ->].
  - destruct (He _ _ _ _ Ej Ej' Eje) as (e' & -> & E3 & E4). cbn [mbind option_bind].
    unfold pending_count. cbn [fst snd]. by rewrite E1, E3.
Qed.

Lemma total_ext {A} (f : A -> Z) (l l' : list A) :
  (forall j, f <$> l !! j = f <$> l' !! j) -> total f l = total f l'.
Proof.
  revert l'. induction l as [|x l IH]; intros [|y l'] H; try done; try (by specialize (H O)).
  simpl. pose proof (H O) as H0. injection H0 as ->. f_equal. apply IH. intros j. apply (H (S j)).
Qed.

Lemma pend_total s s' : (forall j, pend s' j = pend s j) ->
  total pending_count (zip (procs s') (heap s')) = total pending_count (zip (procs s) (heap s)).
Proof.
  assert (forall s j, pending_count <$> zip (procs s) (heap s) !! j = pend s j) as E.
  { intros s0 j. unfold pend. rewrite lookup_zip_with.
    destruct (procs s0 !! j); [|done]. by destruct (heap s0 !! j). }
  intros H. apply total_ext. intros j. by rewrite !E.
Qed.

Lemma nums_unnumbered s j q : procs s !! j = Some q -> numbered (p_pc q) = false -> nums s j = None.
Proof. intros Hj Hn. unfold nums. rewrite Hj. cbn [mbind option_bind]. destruct (heap s !! j); [|done]. simpl. by rewrite Hn. Qed.

Lemma nums_Some s j q c : procs s !! j = Some q -> heap s !! j = Some c -> numbered (p_pc q) = true ->
  nums s j = Some (seqn c, endn c).
Proof. intros Hj Hc Hn. unfold nums. rewrite Hj, Hc. cbn [mbind option_bind]. by rewrite Hn. Qed.

Lemma nums_inv s j x : nums s j = Some x -> exists q c, procs s !! j = Some q /\ heap s !! j = Some c /\
  numbered (p_pc q) = true /\ x = (seqn c, endn c).
Proof.
  unfold nums. destruct (procs s !! j) as [q|] eqn:Ej; [|done]. destruct (heap s !! j) as [c|] eqn:Ec; [|done].
  cbn [mbind option_bind]. destruct (numbered (p_pc q)) eqn:En; [|done]. intros [= <-]. by exists q, c.
Qed.

Lemma gstep_seq s i p c s' : gstep s i p c s' -> p_pc p <> PSeq ->
  logSeqNum s' = logSeqNum s /\ (g_order s' = g_order s \/ p_pc p = PInc /\ g_order s' = g_order s ++ [i]).
Proof. intros G Hn. destruct G; try done; split; cbn; auto. Qed.

Lemma seq_frame base bound s i p c s' :
  SeqInv base bound s -> procs s !! i = Some p -> heap s !! i = Some c -> gstep s i p c s' -> p_pc p <> PSeq ->
  SeqInv base bound s'.
Proof.
  intros Q Hp Hc G Hn. destruct (gstep_nums _ _ _ _ _ Hp Hc G Hn) as [En Epd].
  destruct (gstep_seq _ _ _ _ _ G Hn) as [El Eo].
  destruct (gstep_numbered _ _ _ _ _ G Hn) as (p' & Ep & _ & _ & Hnsp).
  split; rewrite ?El, ?(pend_total _ _ Epd).
  - intros j k a b sa ea sb eb Hlt Ha Hb. rewrite !En. intros Hna Hnb.
    destruct Eo as [Eo|[Ek Eo]]; rewrite Eo in Ha, Hb; [by eapply (qi_sorted _ _ _ Q j k)|].
    apply lookup_snoc_Some in Hb as [[Hl Hb]|[-> <-]].
    + apply lookup_snoc_Some in Ha as [[_ Ha]|[-> <-]]; [by eapply (qi_sorted _ _ _ Q j k)|lia].
    + by rewrite (nums_unnumbered s i p) in Hnb by (rewrite ?Ek; done).
  - intros a sa ea. rewrite En. apply (qi_range _ _ _ Q).
  - apply (qi_bound _ _ _ Q).
  - apply (qi_base _ _ _ Q).
  - destruct (qi_log _ _ _ Q) as [?|(a & sa & ?)]; [by left|right]. exists a, sa. by rewrite En.
  - intros j q l Hj Eq. rewrite Ep in Hj. at_proc Hj; [by destruct (Hnsp l)|].
    destruct (qi_spin _ _ _ Q _ _ _ Hj Eq) as [H1 H2]. split.
    + intros a sa ea. rewrite En. apply H1.
    + destruct H2 as [?|(a & sa & ? & ?)]; [by left|right]. exists a, sa. by rewrite En.
Qed.

(** A goroutine takes the next sequence numbers, possibly leaving out [x]. *)
Section number.
Context (base bound : Z) s (I : Inv base bound s) (Hbound : bound < 2 ^ 64).
Context (i : nat) p c (Hp : procs s !! i = Some p) (Hc : heap s !! i = Some c) (Hk : p_pc p = PSeq).
Context (x : Z) (k' : pc) (Hx : x = 0 /\ k' = PWrite \/ x = one (logSeqNum s =? 0) /\ k' = PSpin (logSeqNum s)).

Definition numbered_state : commitPipeline :=
  jump i p k' (put i (with_seq (logSeqNum s + x) c)
    (s <| logSeqNum := logSeqNum s + x + b_count (cb_batch c) |>)).

Lemma number_facts :
  0 <= x <= one (logSeqNum s =? 0) /\ 0 <= logSeqNum s /\ 0 <= b_count (cb_batch c) /\
  logSeqNum s + x + b_count (cb_batch c) < 2 ^ 64 /\ (8 <= length (b_data (cb_batch c)))%nat /\
  b_count (cb_batch c) = cnt p c.
Proof.
  pose proof (in_local _ _ _ I _ _ _ Hp Hc) as L.
  destruct (batch_facts _ _ L ltac:(by rewrite Hk)) as (Hd & Hcnt & Hcn).
  pose proof (seq_room _ _ _ I _ _ _ Hp Hc ltac:(by rewrite Hk)) as Hr.
  pose proof (qi_base _ _ _ (in_seq _ _ _ I)) as Hb. pose proof (one_range (logSeqNum s =? 0)).
  assert (0 <= x <= one (logSeqNum s =? 0)) by (destruct Hx as [[-> _]|[-> _]]; lia).
  split_and!; try lia.
Qed.

Lemma number_nums j : nums numbered_state j =
  if decide (j = i) then Some (logSeqNum s + x, logSeqNum s + x + b_count (cb_batch c)) else nums s j.
Proof.
  destruct number_facts as (H1 & H2 & H3 & H4 & H5 & H6).
  assert (numbered k' = true) as Hn by (destruct Hx as [[_ ->]|[_ ->]]; done).
  unfold nums, numbered_state. cbn. case_decide as E.
  - subst j. rewrite !list_lookup_insert_eq by (by eapply lookup_lt_Some). cbn [mbind option_bind].
    cbn [p_pc set]. rewrite Hn, seqn_with_seq, endn_with_seq by lia. done.
  - by rewrite !list_lookup_insert_ne by done.
Qed.

Lemma number_last k : g_order s !! k = Some i -> k = (length (g_order s) - 1)%nat.
Proof.
  intros Hi. pose proof (oi_last _ (in_order _ _ _ I) _ _ Hp ltac:(by rewrite Hk) ltac:(by rewrite Hk)) as Hl.
  rewrite last_lookup in Hl. pose proof (NoDup_lookup _ _ _ _ (oi_nodup _ (in_order _ _ _ I)) Hi Hl). lia.
Qed.

Lemma number_none : nums s i = None.
Proof. eapply nums_unnumbered; [done|by rewrite Hk]. Qed.

Lemma number_step : SeqInv base bound numbered_state.
Proof.
  pose proof (in_seq _ _ _ I) as Q. destruct number_facts as (H1 & H2 & H3 & H4 & H5 & H6).
  assert (g_order numbered_state = g_order s) as Eo by done.
  assert (logSeqNum numbered_state = logSeqNum s + x + b_count (cb_batch c)) as El by done.
  assert (procs numbered_state = <[i := p <| p_pc := k' |>]> (procs s)) as Ep by done.
  assert (heap numbered_state = <[i := with_seq (logSeqNum s + x) c]> (heap s)) as Eh by done.
  split; rewrite ?Eo, ?El, ?Ep, ?Eh.
  - intros j k a b sa ea sb eb Hlt Ha Hb Hna Hnb. rewrite number_nums in Hna, Hnb.
    destruct (decide (a = i)) as [->|Ea]; [apply number_last in Ha; apply lookup_lt_Some in Hb; lia|].
    destruct (decide (b = i)) as [->|Eb]; [|by eapply (qi_sorted _ _ _ Q j k)]. injection Hnb as <- <-.
    destruct (qi_range _ _ _ Q _ _ _ Hna). lia.
  - intros a sa ea Hna. rewrite number_nums in Hna. pose proof (qi_base _ _ _ Q).
    case_decide; [injection Hna as <- <-; lia|]. destruct (qi_range _ _ _ Q _ _ _ Hna). lia.
  - rewrite zip_insert, (total_insert _ _ _ (p, c)) by (by apply lookup_zip).
    unfold pending_count at 2 3. cbn [fst snd p_pc set].
    rewrite Hk. cbn [numbered]. assert (numbered k' = true) as -> by (destruct Hx as [[_ ->]|[_ ->]]; done).
    pose proof (qi_bound _ _ _ Q) as Hb. rewrite H6.
    assert (one (logSeqNum s + x + cnt p c =? 0) <= one (logSeqNum s =? 0) - x); [|lia].
    rewrite <- H6. destruct (Z.eqb_spec (logSeqNum s + x + b_count (cb_batch c)) 0) as [E|E]; cbn [one]; [|lia].
    destruct Hx as [[-> _]|[E' _]].
    + rewrite (proj2 (Z.eqb_eq (logSeqNum s) 0)) by lia. cbn [one]. lia.
    + assert (logSeqNum s = 0) as E0 by lia. rewrite E0 in E'. cbn in E'. lia.
  - pose proof (qi_base _ _ _ Q). lia.
  - right. exists i, (logSeqNum s + x). rewrite number_nums. by rewrite decide_True.
  - intros j q l Hj Eq. pose proof number_none as Hnone. at_proc Hj.
    + cbn in Eq. destruct Hx as [[_ E]|[_ E]]; rewrite E in Eq; [done|]. injection Eq as <-. split.
      * intros a sa ea Hna Hne. rewrite number_nums, decide_False in Hna by done.
        by apply (qi_range _ _ _ Q _ _ _ Hna).
      * destruct (qi_log _ _ _ Q) as [?|(a & sa & Ha)]; [by left|right]. exists a, sa.
        assert (a <> i) by congruence. by rewrite number_nums, decide_False.
    + destruct (one_producer _ _ _ _ _ (in_mu _ _ _ I) Hp Hj ltac:(by rewrite Hk) ltac:(by rewrite Eq)) as [<- _].
      done.
Qed.
End number.

Lemma pc_seq_or_not (k : pc) : k = PSeq \/ k <> PSeq.
Proof. destruct k; (by left) || by right. Qed.

(** A step that assigns a sequence number ends in [numbered_state]. *)
Lemma gstep_number s i p c s' : gstep s i p c s' -> p_pc p = PSeq ->
  exists x k', (x = 0 /\ k' = PWrite \/ x = one (logSeqNum s =? 0) /\ k' = PSpin (logSeqNum s)) /\
    s' = numbered_state s i p c x k'.
Proof.
  intros G Hk. destruct G; try congruence.
  - exists 0, PWrite. split; [by left|]. unfold numbered_state. by rewrite !Z.add_0_r.
  - exists x, (PSpin (logSeqNum s)). split; [by right|done].
Qed.

Lemma seq_step base bound s i p c s' :
  Inv base bound s -> bound < 2 ^ 64 -> procs s !! i = Some p -> heap s !! i = Some c ->
  gstep s i p c s' -> SeqInv base bound s'.
Proof.
  intros I Hb Hp Hc G. destruct (pc_seq_or_not (p_pc p)) as [Hk|Hk].
  - destruct (gstep_number _ _ _ _ _ G Hk) as (x & k' & Hx & ->). by apply number_step.
  - eapply seq_frame; try done. apply I.
Qed.

(** Numbers do not change once they are set. *)
Lemma nums_mono base bound s i p c s' j x :
  Inv base bound s -> bound < 2 ^ 64 -> procs s !! i = Some p -> heap s !! i = Some c ->
  gstep s i p c s' -> nums s j = Some x -> nums s' j = Some x.
Proof.
  intros I Hb Hp Hc G Hj. destruct (pc_seq_or_not (p_pc p)) as [Hk|Hk].
  - destruct (gstep_number _ _ _ _ _ G Hk) as (y & k' & Hx & ->).
    erewrite number_nums by done. rewrite decide_False; [done|]. intros ->.
    by rewrite (nums_unnumbered s i p) in Hj by (rewrite ?Hk; done).
  - destruct (gstep_nums _ _ _ _ _ Hp Hc G Hk) as [En _]. by rewrite En.
Qed.

(** ** The visible sequence number *)
Lemma carried_nums base bound s i p t : Inv base bound s -> procs s !! i = Some p -> carries (p_pc p) = Some t ->
  exists ct k, heap s !! t = Some ct /\ nums s t = Some (seqn ct, endn ct) /\ (k < g_tail s)%nat /\
    g_order s !! k = Some t.
Proof.
  intros I Hp Ht. destruct (carried _ _ _ I _ _ t Hp Ht) as (q & ct & k & Hq & Hct & Ha & Hk & Ho & _).
  exists ct, k. split_and!; try done. by apply (nums_Some s t q), applied_numbered.
Qed.

Lemma published_nums base bound s t ct : Inv base bound s -> heap s !! t = Some ct -> cb_published ct = true ->
  nums s t = Some (seqn ct, endn ct).
Proof.
  intros I Ht Hp. destruct (proc_heap _ _ _ I _ _ Ht) as [q Hq].
  apply (nums_Some s t q); [done|done|]. by apply applied_numbered, (lo_published _ _ (in_local _ _ _ I _ _ _ Hq Ht)).
Qed.

Lemma gstep_visible s i p c s' : gstep s i p c s' ->
  visibleSeqNum s' = visibleSeqNum s \/
  exists t new, p_pc p = PVisCas t (visibleSeqNum s) new /\ s' = jump i p (PDone t) (s <| visibleSeqNum := new |>).
Proof. intros G. destruct G; try (by left). right. eauto. Qed.

Lemma gstep_vis_pc s i p c s' : gstep s i p c s' ->
  exists p', procs s' = <[i := p']> (procs s) /\
    (forall t cur new, p_pc p' = PVisCas t cur new -> p_pc p = PVis t /\
       exists ct, heap s !! t = Some ct /\ new = endn ct /\ cur < new) /\
    (forall t, p_pc p' = PDone t -> carries (p_pc p) = Some t /\
       ((exists ct, heap s !! t = Some ct /\ endn ct <= visibleSeqNum s') \/
        exists cur, p_pc p = PVisCas t cur (visibleSeqNum s'))).
Proof.
  intros G. destruct G; eexists; (split; [reflexivity|]); cbn; split; try done.
  - intros u [= <-]. rewrite H. eauto.
  - intros u cur new [= <- <- <-]. rewrite H. eauto.
  - intros u [= <-]. rewrite H. eauto.
Qed.

Lemma gstep_published s i p c s' t ct' : heap s !! i = Some c -> gstep s i p c s' ->
  heap s' !! t = Some ct' -> cb_published ct' = true ->
  (exists ct, heap s !! t = Some ct /\ cb_published ct = true) \/ p_pc p = PDone t.
Proof.
  intros Hc G Ht Hpub. destruct (done_or_not (p_pc p)) as [[u Hu]|Hu].
  - destruct (decide (u = t)) as [->|Hne]; [by right|left]. exists ct'. split; [|done].
    destruct G; try congruence. rewrite H in Hu. injection Hu as ->. cbn in Ht.
    by rewrite list_lookup_insert_ne in Ht.
  - left. apply pubs_Some. rewrite <- (gstep_pubs _ _ _ _ _ t Hc G Hu). apply pubs_Some. eauto.
Qed.

Lemma gstep_callback s i p c s' : gstep s i p c s' -> exists p', procs s' = <[i := p']> (procs s) /\
  (in_callback (p_pc p') = true -> in_callback (p_pc p) = true \/ p_pc p = PSpin (visibleSeqNum s)).
Proof. intros G. destruct G; eexists; (split; [reflexivity|]); cbn; rewrite ?H; auto. Qed.

(** While a callback runs no batch gets a number. *)
Lemma callback_step base bound s i p c s' j q a sa ea :
  Inv base bound s -> bound < 2 ^ 64 -> procs s !! i = Some p -> heap s !! i = Some c -> gstep s i p c s' ->
  procs s' !! j = Some q -> in_callback (p_pc q) = true -> a <> j -> nums s' a = Some (sa, ea) ->
  ea <= visibleSeqNum s.
Proof.
  intros I Hb Hp Hc G Hj Hcb Hne Hn'.
  destruct (gstep_callback _ _ _ _ _ G) as (p' & Ep & Hcb').
  assert (forall k, in_callback k = true -> holds_mu k = true) as Hmu by by intros [].
  destruct (decide (i = j)) as [<-|Hij].
  - rewrite Ep, list_lookup_insert_eq in Hj by (by eapply lookup_lt_Some). injection Hj as <-.
    assert (nums s a = Some (sa, ea)) as Hn.
    { destruct (gstep_nums _ _ _ _ _ Hp Hc G) as [En _]; [|by rewrite <- En].
      intros Ek. by destruct (Hcb' Hcb) as [Hx|Hx]; rewrite Ek in Hx. }
    destruct (Hcb' Hcb) as [Hx|Hx]; [exact (vi_callback _ _ (in_vis _ _ _ I) _ _ _ _ _ Hp Hx Hne Hn)|].
    by eapply (proj1 (qi_spin _ _ _ (in_seq _ _ _ I) _ _ _ Hp Hx)).
  - rewrite Ep, list_lookup_insert_ne in Hj by done.
    assert (nums s a = Some (sa, ea)) as Hn; [|exact (vi_callback _ _ (in_vis _ _ _ I) _ _ _ _ _ Hj Hcb Hne Hn)].
    destruct (gstep_nums _ _ _ _ _ Hp Hc G) as [En _]; [|by rewrite <- En]. intros Ek.
    by destruct (one_producer _ _ _ _ _ (in_mu _ _ _ I) Hp Hj ltac:(by rewrite Ek) (Hmu _ Hcb)).
Qed.

Lemma vis_step base bound s i p c s' :
  Inv base bound s -> bound < 2 ^ 64 -> procs s !! i = Some p -> heap s !! i = Some c ->
  gstep s i p c s' -> VisInv base s'.
Proof.
  intros I Hb Hp Hc G. pose proof (in_vis _ _ _ I) as V.
  pose proof (fun j x => nums_mono _ _ _ _ _ _ _ j x I Hb Hp Hc G) as Hm.
  destruct (gstep_mono _ _ _ _ _ G) as [Ht [l Hl]].
  assert (visibleSeqNum s <= visibleSeqNum s') as Hvis.
  { destruct (gstep_visible _ _ _ _ _ G) as [->|(t & new & Ek & ->)]; [done|]. cbn.
    destruct (vi_cas _ _ V _ _ _ _ _ Hp Ek). lia. }
  split.
  - pose proof (vi_base _ _ V). lia.
  - destruct (gstep_visible _ _ _ _ _ G) as [E|(t & new & Ek & E)].
    + rewrite E. destruct (vi_from _ _ V) as [?|(k & a & sa & Hlt & Ha & Hn)]; [by left|right].
      exists k, a, sa. split_and!; [lia| |by apply Hm]. rewrite Hl. by apply lookup_app_l_Some.
    + right. destruct (carried_nums _ _ _ _ _ t I Hp ltac:(by rewrite Ek)) as (ct & k & _ & _ & Hlt & Ho).
      destruct (vi_cas _ _ V _ _ _ _ _ Hp Ek) as [[st Hn] _]. exists k, t, st.
      split_and!; [lia|by rewrite E|]. apply Hm in Hn. by rewrite E in *.
  - intros j q t cur new Hj Eq. destruct (gstep_vis_pc _ _ _ _ _ G) as (p' & Ep & Hcas & _).
    rewrite Ep in Hj. at_proc Hj.
    + destruct (Hcas _ _ _ Eq) as (Ek & ct & Hct & -> & Hlt). split; [|done].
      destruct (carried_nums _ _ _ _ _ t I Hp ltac:(by rewrite Ek)) as (ct' & k & Hct' & Hn & _).
      rewrite Hct in Hct'. injection Hct' as <-. exists (seqn ct). by apply Hm.
    + destruct (vi_cas _ _ V _ _ _ _ _ Hj Eq) as [[st Hn] Hlt]. split; [|done]. exists st. by apply Hm.
  - intros j q t st et Hj Eq Hn'. destruct (gstep_vis_pc _ _ _ _ _ G) as (p' & Ep & _ & Hdone).
    rewrite Ep in Hj. at_proc Hj.
    + destruct (Hdone _ Eq) as [Hcar Hx].
      destruct (carried_nums _ _ _ _ _ t I Hp Hcar) as (ct' & k & Hct' & Hn & _).
      rewrite (Hm _ _ Hn) in Hn'. injection Hn' as <- <-.
      destruct Hx as [(ct & Hct & Hle)|(cur & Ek)]; [rewrite Hct in Hct'; by injection Hct' as ->|].
      destruct (vi_cas _ _ V _ _ _ _ _ Hp Ek) as [[st Hn2] _]. rewrite Hn in Hn2. injection Hn2. lia.
    + destruct (carried_nums _ _ _ _ _ t I Hj ltac:(by rewrite Eq)) as (ct' & k & Hct' & Hn & _).
      pose proof (vi_done _ _ V _ _ _ _ _ Hj Eq Hn). rewrite (Hm _ _ Hn) in Hn'. injection Hn' as <- <-. lia.
  - intros t ct' st et Ht' Hpub Hn'.
    destruct (gstep_published _ _ _ _ _ _ _ Hc G Ht' Hpub) as [(ct & Hct & Hpt)|Ek].
    + pose proof (published_nums _ _ _ _ _ I Hct Hpt) as Hn.
      pose proof (vi_published _ _ V _ _ _ _ Hct Hpt Hn). rewrite (Hm _ _ Hn) in Hn'. injection Hn' as <- <-. lia.
    + destruct (carried_nums _ _ _ _ _ t I Hp ltac:(by rewrite Ek)) as (ct & k & Hct & Hn & _).
      pose proof (vi_done _ _ V _ _ _ _ _ Hp Ek Hn). rewrite (Hm _ _ Hn) in Hn'. injection Hn' as <- <-. lia.
  - intros j q a sa ea Hj Hcb Hne Hn'. transitivity (visibleSeqNum s); [|done].
    by eapply (callback_step base bound s i p c s').
Qed.

(** ** The log *)
Lemma gstep_written s i p c s' : gstep s i p c s' ->
  exists p', procs s' = <[i := p']> (procs s) /\ (written (p_pc p) = true -> written (p_pc p') = true) /\
    (g_wal s' = g_wal s \/
     g_wal s' = g_wal s ++ [i] /\ written (p_pc p) = false /\ written (p_pc p') = true /\
     holds_mu (p_pc p) = true /\ numbered (p_pc p) = true).
Proof.
  intros G. destruct G; eexists; (split; [reflexivity|]); cbn; (split; [by rewrite ?H|]); try (by left);
    right; rewrite H; split_and!; done.
Qed.

Lemma written_numbered k : written k = true -> numbered k = true.
Proof. by destruct k. Qed.

Lemma wal_in_step s i p c s' :
  WalInv s -> LocalOK p c -> procs s !! i = Some p -> gstep s i p c s' ->
  forall j q sy ns, procs s' !! j = Some q -> p_call q = Commit sy ns -> written (p_pc q) = true ->
    match p_pc q with PUnlock (Err _) | Failed _ => True | _ => j ∈ g_wal s' end.
Proof.
  intros W L Hp G j q sy ns Hj Hcl Hw.
  assert (forall x, x ∈ g_wal s -> x ∈ g_wal s') as Hmono.
  { intros x Hx. destruct (gstep_written _ _ _ _ _ G) as (p' & _ & _ & [->|(-> & _)]); [done|].
    apply elem_of_app. by left. }
  destruct (gstep_procs _ _ _ _ _ G) as (p' & Ep & _).
  destruct (decide (i = j)) as [<-|Hij].
  2: { rewrite Ep, list_lookup_insert_ne in Hj by done. pose proof (wi_in _ W _ _ _ _ Hj Hcl Hw) as Hi.
       destruct (p_pc q) as [| | | | | | | | | |[]|  | | | | | | | | | | | | | | | | | | | | | | | | |]; auto. }
  pose proof (wi_in _ W _ _ sy ns Hp) as Hi. pose proof (lo_fits _ _ L) as Hf.
  assert (i < length (procs s))%nat as Hlen by by eapply lookup_lt_Some.
  destruct G; cbn in Hj; rewrite list_lookup_insert_eq in Hj by done; injection Hj as <-; cbn in *; try done;
    rewrite H in Hi, Hf; try (by apply Hi); try (by rewrite Hcl in Hf).
  all: try (apply elem_of_app; right; left).
Qed.

Lemma wal_step base bound s i p c s' :
  Inv base bound s -> bound < 2 ^ 64 -> procs s !! i = Some p -> heap s !! i = Some c ->
  gstep s i p c s' -> WalInv s'.
Proof.
  intros I Hb Hp Hc G. pose proof (in_wal _ _ _ I) as W.
  pose proof (fun j x => nums_mono _ _ _ _ _ _ _ j x I Hb Hp Hc G) as Hm.
  assert (i < length (procs s))%nat as Hi by by eapply lookup_lt_Some.
  destruct (gstep_written _ _ _ _ _ G) as (p' & Ep & Hwr & Hw).
  assert (forall j, j ∈ g_wal s -> exists x, nums s j = Some x) as Hex.
  { intros j Hj. destruct (wi_written _ W _ Hj) as (q & Hq & Hwq). destruct (heap_proc _ _ _ I _ _ Hq) as [d Hd].
    eexists. by apply (nums_Some s j q d), written_numbered. }
  split.
  - eapply wal_in_step; try done. by eapply (in_local _ _ _ I).
  - intros j Hj. rewrite Ep. destruct (decide (i = j)) as [<-|Hne].
    + rewrite list_lookup_insert_eq by done. eexists. split; [done|].
      destruct Hw as [Ew|(_ & _ & Hw & _)]; [|done]. rewrite Ew in Hj.
      destruct (wi_written _ W _ Hj) as (q & Hq & Hwq). rewrite Hp in Hq. injection Hq as <-. auto.
    + rewrite list_lookup_insert_ne by done. apply (wi_written _ W).
      destruct Hw as [Ew|(Ew & _)]; rewrite Ew in Hj; [done|].
      apply elem_of_app in Hj as [Hj|Hj]; [done|]. by apply list_elem_of_singleton in Hj.
  - intros j k a b sa ea sb eb Hlt Ha Hbk Hna Hnb.
    assert (forall n x, g_wal s !! n = Some x -> nums s' x = nums s x) as En.
    { intros n x Hx. apply list_elem_of_lookup_2, Hex in Hx as [y Hy]. by rewrite (Hm _ _ Hy), Hy. }
    destruct Hw as [Ew|(Ew & Hwp & _ & Hmu & Hnum)]; rewrite Ew in Ha, Hbk.
    { rewrite (En _ _ Ha) in Hna. rewrite (En _ _ Hbk) in Hnb. by eapply (wi_sorted _ W j k). }
    apply lookup_snoc_Some in Ha as [[Hl Ha]|[-> <-]].
    2: { apply lookup_lt_Some in Hbk. rewrite length_app in Hbk. simpl in Hbk. lia. }
    rewrite (En _ _ Ha) in Hna. apply lookup_snoc_Some in Hbk as [[_ Hbk]|[-> <-]].
    { rewrite (En _ _ Hbk) in Hnb. by eapply (wi_sorted _ W j k). }
    (* the batch that is written now is the last of the order *)
    pose proof (nums_Some _ _ _ _ Hp Hc Hnum) as Hni. rewrite (Hm _ _ Hni) in Hnb. injection Hnb as <- <-.
    destruct (wi_written _ W a) as (q & Hq & Hwq); [by eapply list_elem_of_lookup_2|].
    pose proof (in_order _ _ _ I) as O.
    assert (forall k, numbered k = true -> enqueued k = true) as Hne by by intros [].
    pose proof (oi_last _ O _ _ Hp Hmu (Hne _ Hnum)) as Hlast. rewrite last_lookup in Hlast.
    assert (a ∈ g_order s) as Hin by (apply (oi_in _ O _ _ Hq); auto using written_numbered).
    apply list_elem_of_lookup in Hin as [n Hn].
    eapply (qi_sorted _ _ _ (in_seq _ _ _ I) n); [|exact Hn|exact Hlast|exact Hna|exact Hni].
    assert (n <> pred (length (g_order s))); [|apply lookup_lt_Some in Hn; lia].
    intros ->. rewrite Hlast in Hn. injection Hn as <-. rewrite Hp in Hq. injection Hq as <-. congruence.
Qed.

Lemma applied_step s i p c s' :
  AppliedInv s -> procs s !! i = Some p -> gstep s i p c s' -> AppliedInv s'.
Proof.
  intros [A] Hp G.
  assert (exists p', procs s' = <[i := p']> (procs s) /\
    (g_applied s' = g_applied s /\ done_apply (p_pc p') = done_apply (p_pc p) \/
     g_applied s' = g_applied s ++ [i] /\ done_apply (p_pc p') = true)) as (p' & Ep & Hd).
  { destruct G; cbn; eexists; (split; [reflexivity|]); cbn; rewrite ?H; auto. }
  split. intros j q Hj. rewrite Ep in Hj. at_proc Hj.
  - destruct Hd as [[-> ->]|[-> ->]]; [by apply A|]. split; [|done]. intros _.
    apply elem_of_app. right. left.
  - rewrite (A _ _ Hj). destruct Hd as [[-> _]|[-> _]]; [done|].
    rewrite elem_of_app, list_elem_of_singleton. split; [by left|]. by intros [?| ->].
Qed.
End publish.
