(* ===== verification/CommitSpec.v ===== *)
(** The commit pipeline (Commit.v): what it guarantees in every execution. *)
From S2P Require Import Prelude.
From S2P Require Import SyncQueue.
From S2P Require Import Batch.
From S2P Require Import Commit.
From S2P Require Import CommitFacts.
From S2P Require Import CommitInv.
From S2P Require Import CommitSteps.
From S2P Require Import CommitRing.
From S2P Require Import CommitPublish.

Local Open Scope Z_scope.

Section spec.
Context {K : BatchSkl} {CE : commitEnv}.
Implicit Types s : commitPipeline.
Implicit Types p q : proc.
Implicit Types c : cbatch.

(** ** Steps of the environment *)

(** What the global parts of the invariant read of goroutines and batches. *)
Definition pview p := (p_pc p, p_snap p, p_call p).
Definition hview c := (cb_published c, b_applied (cb_batch c), (seqn c, endn c), b_count (cb_batch c)).

Record same s s' : Prop := {
  sm_procs j : pview <$> procs s' !! j = pview <$> procs s !! j;
  sm_heap j : hview <$> heap s' !! j = hview <$> heap s !! j;
  sm_queue : (q_headTail s', q_slots s', g_order s', g_tail s') = (q_headTail s, q_slots s, g_order s, g_tail s);
  sm_rest : (mu s', logSeqNum s', visibleSeqNum s', g_wal s') = (mu s, logSeqNum s, visibleSeqNum s, g_wal s);
  sm_applied : g_applied s' = g_applied s;
}.

Lemma same_sym s s' : same s s' -> same s' s.
Proof. by intros []. Qed.

Section frame.
Context s s' (S : same s s').

Lemma same_proc j q : procs s' !! j = Some q ->
  exists q', procs s !! j = Some q' /\ p_pc q' = p_pc q /\ p_snap q' = p_snap q.
Proof.
  intros H. pose proof (sm_procs _ _ S j) as E. rewrite H in E.
  destruct (procs s !! j) as [q'|]; [|done]. injection E as E1 E2 E3. by exists q'.
Qed.
Lemma same_nums j : nums s' j = nums s j.
Proof.
  unfold nums. pose proof (sm_procs _ _ S j) as E. pose proof (sm_heap _ _ S j) as E'.
  destruct (procs s' !! j), (procs s !! j); try done. injection E as E1 E2 E3.
  destruct (heap s' !! j), (heap s !! j); try done. injection E' as F1 F2 F3 F4 F5.
  cbn [mbind option_bind]. by rewrite E1, F3, F4.
Qed.
Lemma same_pend j : pend s' j = pend s j.
Proof.
  unfold pend. pose proof (sm_procs _ _ S j) as E. pose proof (sm_heap _ _ S j) as E'.
  destruct (procs s' !! j), (procs s !! j); try done. injection E as E1 E2 E3.
  destruct (heap s' !! j), (heap s !! j); try done. injection E' as F1 F2 F3 F4 F5.
  cbn [mbind option_bind]. unfold pending_count, cnt. cbn [fst snd]. by rewrite E1, E3, F5.
Qed.
Lemma same_applied j : is_applied j s' = is_applied j s.
Proof.
  unfold is_applied. pose proof (sm_heap _ _ S j) as E'.
  destruct (heap s' !! j), (heap s !! j); try done. by injection E' as ? ? ? ? ?.
Qed.
Lemma same_heap t ct : heap s' !! t = Some ct ->
  exists ct', heap s !! t = Some ct' /\ cb_published ct' = cb_published ct.
Proof.
  intros H. pose proof (sm_heap _ _ S t) as E. rewrite H in E.
  destruct (heap s !! t) as [ct'|]; [|done]. injection E as E1 E2 E3. by exists ct'.
Qed.
End frame.

Ltac pull S H := apply (same_proc _ _ S) in H as (? & H & ? & ?).

Lemma same_mu s s' : same s s' -> MuInv s -> MuInv s'.
Proof.
  intros S M. pose proof (sm_rest _ _ S) as [= E5 E6 E7 E8]. split; rewrite E5.
  - intros j q Hj. pull S Hj. rewrite <- (mi_holds _ M _ _ Hj). by rewrite H.
  - intros j Hj. destruct (mi_dom _ M _ Hj) as [q Hq]. pull (same_sym _ _ S) Hq. eauto.
Qed.

Lemma same_order s s' : same s s' -> OrderInv s -> OrderInv s'.
Proof.
  intros S O. pose proof (sm_queue _ _ S) as [= E1 E2 E3 E4]. split; rewrite ?E3, ?E4; try apply O.
  - intros j q Hj. pull S Hj. rewrite <- (oi_in _ O _ _ Hj). by rewrite H.
  - intros j Hj. destruct (oi_dom _ O _ Hj) as [q Hq]. pull (same_sym _ _ S) Hq. eauto.
  - intros j q Hj. pull S Hj. intros Hm He. apply (oi_last _ O _ _ Hj); congruence.
Qed.

Lemma same_ring s s' : same s s' -> RingInv s -> RingInv s'.
Proof.
  intros S R. pose proof (sm_queue _ _ S) as [= E1 E2 E3 E4]. split; rewrite ?E1, ?E2, ?E3, ?E4; try apply R.
  - intros j q ptrs b Hj Eq. pull S Hj. rewrite <- H0. eapply (ri_nil _ R); [done|congruence].
  - intros j q ptrs b j' q' ptrs' b' Hj Eq Hj' Eq' Es. pull S Hj. pull S Hj'.
    rewrite <- H in Eq. rewrite <- H1 in Eq'. rewrite <- H0, <- H2 in Es. by eapply (ri_nil_unique _ R).
  - intros j q Hj. pull S Hj. pose proof (ri_head _ R _ _ Hj) as Hh. by rewrite H in Hh.
  - intros k Hk. destruct (ri_free _ R _ Hk) as [?|[(j & q & ptrs & b & Hj & Eq & ?)|(j & q & Hj & Eq & ?)]].
    + by left.
    + right; left. pull (same_sym _ _ S) Hj. eexists j, _, ptrs, b. split_and!; [done|congruence|congruence].
    + right; right. pull (same_sym _ _ S) Hj. eexists j, _. split_and!; [done|congruence|done].
Qed.

Lemma same_snap s s' : same s s' -> SnapInv s -> SnapInv s'.
Proof.
  intros S N. pose proof (sm_queue _ _ S) as [= E1 E2 E3 E4]. split. intros j q Hj. pull S Hj.
  apply (snap_mono s).
  - by rewrite E4.
  - exists []. by rewrite app_nil_r.
  - intros b. by rewrite (same_applied _ _ S).
  - pose proof (sn_ok _ N _ _ Hj) as Hs. unfold SnapOK in *. by rewrite <- H, <- H0.
Qed.

Lemma same_carry s s' : same s s' -> CarryInv s -> CarryInv s'.
Proof.
  intros S C. pose proof (sm_queue _ _ S) as [= E1 E2 E3 E4]. split; rewrite ?E3, ?E4.
  - intros j q t Hj Hq. pull S Hj. destruct (ci_order _ C _ _ t Hj) as (k & ct & ? & ? & Hct & ?); [congruence|].
    destruct (same_heap _ _ (same_sym _ _ S) _ _ Hct) as (ct' & Hct' & ?). exists k, ct'. split_and!; try done. congruence.
  - intros j q j' q' t Hj Hq Hj' Hq'. pull S Hj. pull S Hj'.
    rewrite <- H in Hq. rewrite <- H1 in Hq'. by eapply (ci_unique _ C).
  - intros k t Hk Ho. rewrite (same_applied _ _ S). destruct (ci_done _ C _ _ Hk Ho) as (Ha & ct & Hct & Hx).
    split; [done|]. destruct (same_heap _ _ (same_sym _ _ S) _ _ Hct) as (ct' & Hct' & ?).
    exists ct'. split; [done|]. destruct Hx as [?|(j & q & Hj & ?)]; [left; congruence|right].
    pull (same_sym _ _ S) Hj. eexists j, _. split; [done|congruence].
  - intros t ct Hct Hp. destruct (same_heap _ _ S _ _ Hct) as (ct' & Hct' & ?).
    apply (ci_published _ C _ _ Hct'). congruence.
Qed.

Lemma same_seq base bound s s' : same s s' -> SeqInv base bound s -> SeqInv base bound s'.
Proof.
  intros S Q. pose proof (sm_queue _ _ S) as [= E1 E2 E3 E4]. pose proof (sm_rest _ _ S) as [= E5 E6 E7 E8].
  split; rewrite ?E3, ?E6, ?(pend_total _ _ (same_pend _ _ S)).
  - intros j k a b sa ea sb eb. rewrite !(same_nums _ _ S). apply (qi_sorted _ _ _ Q).
  - intros a sa ea. rewrite (same_nums _ _ S). apply (qi_range _ _ _ Q).
  - apply (qi_bound _ _ _ Q).
  - apply (qi_base _ _ _ Q).
  - destruct (qi_log _ _ _ Q) as [?|(a & sa & ?)]; [by left|right]. exists a, sa. by rewrite (same_nums _ _ S).
  - intros j q l Hj Eq. pull S Hj. rewrite <- H in Eq. destruct (qi_spin _ _ _ Q _ _ _ Hj Eq) as [H1 H2]. split.
    + intros a sa ea. rewrite (same_nums _ _ S). apply H1.
    + destruct H2 as [?|(a & sa & ? & ?)]; [by left|right]. exists a, sa. by rewrite (same_nums _ _ S).
Qed.

Lemma same_vis base s s' : same s s' -> VisInv base s -> VisInv base s'.
Proof.
  intros S V. pose proof (sm_queue _ _ S) as [= E1 E2 E3 E4]. pose proof (sm_rest _ _ S) as [= E5 E6 E7 E8].
  split; rewrite ?E3, ?E4, ?E7; try apply V.
  - destruct (vi_from _ _ V) as [?|(k & a & sa & ? & ? & ?)]; [by left|right].
    exists k, a, sa. by rewrite (same_nums _ _ S).
  - intros j q t cur new Hj Eq. pull S Hj. rewrite <- H in Eq. rewrite (same_nums _ _ S). by eapply (vi_cas _ _ V).
  - intros j q t st et Hj Eq. pull S Hj. rewrite <- H in Eq. rewrite (same_nums _ _ S). by eapply (vi_done _ _ V).
  - intros t ct st et Hct Hp. rewrite (same_nums _ _ S). destruct (same_heap _ _ S _ _ Hct) as (ct' & Hct' & E).
    apply (vi_published _ _ V _ _ _ _ Hct'). congruence.
  - intros j q a sa ea Hj Hq Hne. pull S Hj. rewrite <- H in Hq. rewrite (same_nums _ _ S).
    by eapply (vi_callback _ _ V).
Qed.

Lemma same_applied_inv s s' : same s s' -> AppliedInv s -> AppliedInv s'.
Proof.
  intros S A. split. intros j q Hj. pull S Hj. rewrite <- H, (sm_applied _ _ S).
  by apply (ai_in _ A).
Qed.

Lemma same_wal s s' : same s s' -> WalInv s -> WalInv s'.
Proof.
  intros S W. pose proof (sm_rest _ _ S) as [= E5 E6 E7 E8]. split; rewrite ?E8.
  - intros j q sy ns Hj Hcl Hw. pose proof (sm_procs _ _ S j) as E. rewrite Hj in E.
    destruct (procs s !! j) as [q'|] eqn:Eq; [|done]. injection E as F1 F2 F3. rewrite F1, F3 in *.
    by eapply (wi_in _ W).
  - intros j Hj. destruct (wi_written _ W _ Hj) as (q & Hq & ?). pull (same_sym _ _ S) Hq.
    eexists. split; [done|congruence].
  - intros j k a b sa ea sb eb. rewrite !(same_nums _ _ S). apply (wi_sorted _ W).
Qed.

Lemma Inv_same base bound s s' : Inv base bound s -> same s s' ->
  length (heap s') = length (procs s') ->
  (forall j q c, procs s' !! j = Some q -> heap s' !! j = Some c -> LocalOK q c) -> SemInv s' ->
  Inv base bound s'.
Proof.
  intros I S. split; try done.
  - eapply same_mu; [done|apply I].
  - eapply same_order; [done|apply I].
  - eapply same_ring; [done|apply I].
  - eapply same_snap; [done|apply I].
  - eapply same_carry; [done|apply I].
  - eapply same_seq; [done|apply I].
  - eapply same_vis; [done|apply I].
  - eapply same_wal; [done|apply I].
  - eapply same_applied_inv; [done|apply I].
Qed.

Lemma Inv_other base bound s n : Inv base bound s -> Inv base bound (s <| env := env_other n (env s) |>).
Proof. intros I. apply (Inv_same _ _ s); try done; try apply I. destruct (in_sem _ _ _ I). by split. Qed.

Lemma alter_alter {A} (f g : A -> A) i (l : list A) : alter g i (alter f i l) = alter (g ∘ f) i l.
Proof. revert i. induction l as [|x l IH]; intros [|i]; simpl; try done. f_equal. apply IH. Qed.

Lemma view_alter {A B} (v : A -> B) (f : A -> A) (l : list A) i j :
  (forall x, l !! i = Some x -> v (f x) = v x) -> v <$> alter f i l !! j = v <$> l !! j.
Proof.
  intros H. destruct (decide (i = j)) as [->|]; [|by rewrite list_lookup_alter_ne].
  rewrite list_lookup_alter_eq. destruct (l !! j) eqn:E; [|done]. simpl. f_equal. auto.
Qed.

Lemma log_held_queued p c : LocalOK p c -> p_sync p = Queued -> log_held p = true.
Proof.
  intros L Hq. destruct (lo_sync _ _ L ltac:(by rewrite Hq)) as [Hw Hs]. unfold log_held.
  destruct (p_call p) as [sy ns|n f g h] eqn:Ec.
  - destruct Hs as [Hs|(? & ? & ? & ? & ?)]; [|done]. destruct sy; [|done].
    rewrite Hq, bool_decide_eq_true_2 by done. by destruct (p_pc p).
  - rewrite Hq. by destruct (p_pc p).
Qed.

Lemma log_held_signalled p c wg er : LocalOK p c -> p_sync p = Queued ->
  log_held (p <| p_sync := Signalled |> <| p_syncErr := er |> <| p_syncWG := wg |>) = false.
Proof.
  intros L Hq. destruct (lo_sync _ _ L ltac:(by rewrite Hq)) as [Hw Hs].
  unfold log_held. cbn. destruct (p_call p) eqn:Ec.
  - rewrite bool_decide_eq_false_2 by (intros H; by apply H). by rewrite andb_false_r.
  - pose proof (lo_alloc _ _ L _ _ _ _ Ec Hq) as Hd. destruct (p_pc p); try done.
Qed.

(** What a sync does: it changes the wait groups and the error. *)
Definition synced (i : nat) (cm fw : Z) (ce : option error) (wg : Z) (er : option error) s : commitPipeline :=
  s <| logSyncQSem := logSyncQSem s - 1 |>
    <| procs := alter (fun p => p <| p_sync := Signalled |> <| p_syncErr := er |> <| p_syncWG := wg |>) i (procs s) |>
    <| heap := alter (fun c => c <| cb_commit := cm |> <| cb_fsyncWait := fw |> <| cb_commitErr := ce |>) i (heap s) |>.

Lemma sync_step_synced s i p c err s' :
  procs s !! i = Some p -> heap s !! i = Some c -> LocalOK p c -> sync_step i err s = Some s' ->
  p_sync p = Queued /\ exists cm fw ce wg er, s' = synced i cm fw ce wg er s /\
    cm = cb_commit c - one (waits (p_call p)) /\
    (ce = if syncs (p_call p) then err else cb_commitErr c) /\
    (wg = p_syncWG p - one (negb (syncs (p_call p)))).
Proof.
  intros Hp Hc L. unfold sync_step. rewrite Hp. cbn [mbind option_bind].
  destruct (decide (p_sync p = Queued)) as [Hq|]; [|done].
  destruct (lo_sync _ _ L ltac:(by rewrite Hq)) as [Hw Hs].
  destruct (p_call p) as [sy [] |n f g h] eqn:Ec.
  - destruct Hs as [Hs|(? & ? & ? & ? & ?)]; [|done]. destruct sy; [|done]. intros [= <-]. split; [done|].
    exists (cb_commit c), (cb_fsyncWait c - 1), err, (p_syncWG p), (p_syncErr p). split_and!; try (cbn; lia); [|done].
    unfold set_batch, set_proc, synced. cbn. rewrite !(alter_insert _ _ _ _ Hp), !(alter_insert _ _ _ _ Hc).
    by destruct p, c.
  - destruct Hs as [Hs|(? & ? & ? & ? & ?)]; [|done]. destruct sy; [|done].
    unfold commit_Done. cbn [heap set_batch set_proc set].
    rewrite (alter_insert _ _ _ _ Hc), list_lookup_insert_eq by (by eapply lookup_lt_Some). cbn [cb_commit set].
    rewrite (proj2 (Z.leb_gt _ _)).
    2: { rewrite (lo_commit _ _ L), Ec, Hq. pose proof (one_range (negb (cb_published c))).
         assert (added (p_pc p) = true) as -> by by destruct (p_pc p). cbn in *.
         rewrite bool_decide_eq_true_2 by done. cbn. lia. }
    intros [= <-]. split; [done|].
    exists (cb_commit c - 1), (cb_fsyncWait c), err, (p_syncWG p), (p_syncErr p). split_and!; try (cbn; lia); [|done].
    unfold set_batch, set_proc, synced. cbn. rewrite !(alter_insert _ _ _ _ Hp), !(alter_insert _ _ _ _ Hc).
    rewrite (alter_insert _ _ _ (c <| cb_commitErr := err |>)), insert_insert_eq
      by (apply list_lookup_insert_eq; by eapply lookup_lt_Some).
    by destruct p, c.
  - intros [= <-]. split; [done|].
    exists (cb_commit c), (cb_fsyncWait c), (cb_commitErr c), (p_syncWG p - 1), err.
    split_and!; try (cbn; lia); [|done].
    unfold set_proc, synced. cbn. rewrite alter_alter, !(alter_insert _ _ _ _ Hp), !(alter_insert _ _ _ _ Hc).
    rewrite (list_insert_id (heap s)) by (destruct c; exact Hc). by destruct p, s.
Qed.

Lemma synced_local p c fw ce wg er err :
  LocalOK p c -> p_sync p = Queued -> ce = (if syncs (p_call p) then err else cb_commitErr c) ->
  wg = p_syncWG p - one (negb (syncs (p_call p))) ->
  LocalOK (p <| p_sync := Signalled |> <| p_syncErr := er |> <| p_syncWG := wg |>)
    (c <| cb_commit := cb_commit c - one (waits (p_call p)) |> <| cb_fsyncWait := fw |> <| cb_commitErr := ce |>).
Proof.
  intros L Hq -> ->. destruct (lo_sync _ _ L ltac:(by rewrite Hq)) as [Hw Hs].
  assert (added (p_pc p) = true) as Ha by by destruct (p_pc p).
  destruct L. destruct p as [cl k sy wg0 er0 sn]. cbn in *. subst sy.
  rewrite !bool_decide_eq_true_2 in * by done.
  split; cbn; try done.
  - rewrite lo_commit, Ha. cbn. rewrite bool_decide_eq_false_2 by (intros H; by apply H).
    rewrite andb_true_r, andb_false_r. cbn. lia.
  - intros _ _. destruct k; try done. by destruct r.
  - rewrite bool_decide_eq_false_2 by (intros H; by apply H). rewrite andb_false_r. cbn.
    rewrite lo_syncWG, andb_true_r. destruct cl as [[] []|n f g h]; cbn in *; try done.
    + destruct (in_directWrite k) eqn:E; [by destruct k|done].
    + destruct (in_directWrite k) eqn:E; [by destruct k|done].
    + destruct Hs as [?|(? & ? & ? & ? & ?)]; done.
    + destruct Hs as [?|(? & ? & ? & ? & ?)]; done.
    + by rewrite (lo_alloc _ _ _ _ eq_refl eq_refl).
  - intros Hf. destruct (lo_finished Hf). by split.
  - intros err0 ->. cbn in *.
    destruct cl as [[] []|n f g h]; cbn in *; try (by rewrite (lo_error _ eq_refl)).
    destruct (lo_finished eq_refl) as [_ Hx]. by specialize (Hx eq_refl).
Qed.

Lemma Inv_sync base bound s i err s' : Inv base bound s -> sync_step i err s = Some s' -> Inv base bound s'.
Proof.
  intros I Hs. destruct (procs s !! i) as [p|] eqn:Hp; [|unfold sync_step in Hs; by rewrite Hp in Hs].
  destruct (heap_proc _ _ _ I _ _ Hp) as [c Hc]. pose proof (in_local _ _ _ I _ _ _ Hp Hc) as L.
  destruct (sync_step_synced _ _ _ _ _ _ Hp Hc L Hs) as (Hq & cm & fw & ce & wg & er & -> & -> & Hce & Hwg).
  apply (Inv_same _ _ s); try done.
  - split; cbn; try done; intros j; by apply view_alter.
  - cbn. rewrite !length_alter. apply I.
  - intros j q d Hj Hd. cbn in Hj, Hd. rewrite (alter_insert _ _ _ _ Hp) in Hj. rewrite (alter_insert _ _ _ _ Hc) in Hd.
    apply list_lookup_insert_Some in Hj as [(<- & <- & _)|[Hne Hj]];
      apply list_lookup_insert_Some in Hd as [(? & <- & _)|[Hne' Hd]]; try done; [|by eapply (in_local _ _ _ I)].
    by eapply synced_local.
  - destruct (in_sem _ _ _ I) as [H1 H2 H3 H4]. split; cbn; rewrite ?(alter_insert _ _ _ _ Hp); try lia.
    + rewrite (count_insert _ _ _ _ _ Hp). cbn. lia.
    + rewrite (count_insert _ _ _ _ _ Hp), (log_held_signalled _ _ _ _ L Hq), (log_held_queued _ _ L Hq).
      cbn [one]. lia.
Qed.

Lemma Inv_go base bound s i s' :
  Inv base bound s -> bound < 2 ^ 64 -> unlapped s -> go_step i s = Some s' -> Inv base bound s'.
Proof.
  intros I Hb Hu Hs. destruct (procs s !! i) as [p|] eqn:Hp; [|unfold go_step in Hs; by rewrite Hp in Hs].
  destruct (heap_proc _ _ _ I _ _ Hp) as [c Hc]. pose proof (in_local _ _ _ I _ _ _ Hp Hc) as L.
  pose proof (go_step_gstep _ _ _ I Hb Hu _ _ _ Hp Hc _ Hs) as G. clear Hs.
  split.
  - destruct (gstep_procs _ _ _ _ _ G) as (p' & -> & _).
    destruct (gstep_heap _ _ _ _ _ Hc G) as (t & d & d' & _ & -> & _). rewrite !length_insert. apply I.
  - by eapply local_step.
  - by eapply mu_step; [apply I|..].
  - by eapply sem_step; [apply I|..].
  - by eapply order_step; [apply I|apply I|..].
  - by eapply ring_step; [apply I|apply I|apply I|..].
  - by eapply snap_step; [apply I|apply I|apply I|..].
  - by eapply carry_step.
  - by eapply seq_step.
  - by eapply vis_step.
  - by eapply wal_step.
  - by eapply applied_step; [apply I|..].
Qed.

(** ** Executions *)

(** The calls that may be made: the batch of a [Commit] is a slice of its capacity with a
    32-bit count that is not applied yet; the count of [AllocateSeqNum] has 32 bits. *)
Definition call_count (x : call * Batch) : Z :=
  match x.1 with Commit _ _ => b_count x.2 | AllocateSeqNum n _ _ _ => n end.
Definition call_ok (x : call * Batch) : Prop :=
  0 <= call_count x < 2 ^ 32 /\ b_applied x.2 = false /\ (length (b_data x.2) <= b_cap x.2)%nat.

(** The sequence numbers do not overflow. *)
Definition seq_ok (base : Z) (calls : list (call * Batch)) : Prop :=
  0 <= base /\ base + total call_count calls + 1 < 2 ^ 64.

Inductive reachable (base : Z) (e : Env) (calls : list (call * Batch)) : commitPipeline -> Prop :=
| r_new : reachable base e calls (newCommitPipeline base e calls)
| r_step ev s s' : reachable base e calls s -> unlapped s -> pipeline_step ev s = Some s' ->
    reachable base e calls s'.

Lemma new_local x : call_ok x -> LocalOK (new_proc x.1) (new_cbatch x.2).
Proof.
  intros (Hn & Ha & Hl). split; cbn; try done. by destruct x as [[] b].
Qed.

Lemma new_pending (calls : list (call * Batch)) : total pending_count
    (zip ((fun x => new_proc x.1) <$> calls) ((fun x => new_cbatch x.2) <$> calls))
  = total call_count calls.
Proof.
  induction calls as [|x calls IH]; [done|]. rewrite !fmap_cons. cbn [zip_with total foldr].
  f_equal. exact IH.
Qed.

Lemma count_none {A} (f : A -> bool) (l : list A) : (forall x, x ∈ l -> f x = false) -> count f l = 0.
Proof.
  unfold count. induction l as [|x l IH]; intros H; [done|]. simpl.
  rewrite (H x ltac:(left)), IH; [done|]. intros y Hy. apply H. by right.
Qed.

Lemma Inv_newPipeline base e calls : Forall call_ok calls -> seq_ok base calls ->
  Inv base (base + total call_count calls + 1) (newCommitPipeline base e calls).
Proof.
  intros Hok [Hb0 Hb]. set (s := newCommitPipeline base e calls).
  assert (forall j q, procs s !! j = Some q -> exists x, calls !! j = Some x /\ q = new_proc x.1) as Hp.
  { intros j q. cbn. rewrite list_lookup_fmap. destruct (calls !! j); [|done]. intros [= <-]. eauto. }
  assert (forall j, nums s j = None) as Hn.
  { intros j. unfold nums. cbn. rewrite !list_lookup_fmap. by destruct (calls !! j). }
  assert (forall j c, heap s !! j = Some c -> exists x, calls !! j = Some x /\ c = new_cbatch x.2) as Hh.
  { intros j c. cbn. rewrite list_lookup_fmap. destruct (calls !! j); [|done]. intros [= <-]. eauto. }
  assert (g_order s = [] /\ g_wal s = [] /\ g_applied s = [] /\ g_tail s = O /\ mu s = None) as (E1 & E2 & E3 & E4 & E5) by done.
  split.
  - cbn. by rewrite !length_fmap.
  - intros j q c Hj Hc. destruct (Hp _ _ Hj) as (x & Hx & ->). destruct (Hh _ _ Hc) as (y & Hy & ->).
    rewrite Hx in Hy. injection Hy as <-. apply new_local. by eapply Forall_lookup_1.
  - split; rewrite E5; [|done]. intros j q Hj. by destruct (Hp _ _ Hj) as (x & _ & ->).
  - split; try done; symmetry; apply count_none; intros q Hq; apply list_elem_of_lookup in Hq as [j Hj];
      destruct (Hp _ _ Hj) as ([[] ?] & _ & ->); try done. cbn. by rewrite andb_false_r.
  - split; rewrite ?E1, ?E4; try done.
    + apply NoDup_nil_2.
    + intros j q Hj. destruct (Hp _ _ Hj) as (x & _ & ->). split; [done|by intros ?%elem_of_nil].
    + by intros j ?%elem_of_nil.
    + intros j q Hj. by destruct (Hp _ _ Hj) as (x & _ & ->).
  - split; rewrite ?E1, ?E4; try done; try (intros j q Hj; by destruct (Hp _ _ Hj) as (x & _ & ->)).
    + simpl. lia.
    + intros j q ptrs b Hj. by destruct (Hp _ _ Hj) as (x & _ & ->).
    + intros j q ptrs b j' q' ptrs' b' Hj. by destruct (Hp _ _ Hj) as (x & _ & ->).
    + intros k Hk. left. cbn. rewrite lookup_replicate. split; [done|].
      pose proof (slot_of_lt k). pose proof ring_size_eq. unfold SyncConcurrency. lia.
  - split. intros j q Hj. by destruct (Hp _ _ Hj) as (x & _ & ->).
  - split; rewrite ?E1, ?E4; try lia; try (intros j q ? Hj; by destruct (Hp _ _ Hj) as (x & _ & ->)).
    + intros j q j' q' t Hj. by destruct (Hp _ _ Hj) as (x & _ & ->).
    + intros t ct Hct. by destruct (Hh _ _ Hct) as (x & _ & ->).
  - split; rewrite ?E1.
    + done.
    + intros a sa ea. by rewrite Hn.
    + cbn [procs heap logSeqNum s newCommitPipeline]. rewrite new_pending. pose proof (one_range (base =? 0)). lia.
    + done.
    + by left.
    + intros j q l Hj. by destruct (Hp _ _ Hj) as (x & _ & ->).
  - split; try done; try (by left); try (intros j q *; intros Hj; by destruct (Hp _ _ Hj) as (x & _ & ->)).
    intros t ct st et Hct. by destruct (Hh _ _ Hct) as (x & _ & ->).
  - split; rewrite ?E2; [|by intros j ?%elem_of_nil|done].
    intros j q sy ns Hj. by destruct (Hp _ _ Hj) as (x & _ & ->).
  - split. rewrite E3. intros j q Hj. destruct (Hp _ _ Hj) as (x & _ & ->). split; [done|by intros ?%elem_of_nil].
Qed.

Lemma reachable_Inv base e calls s : Forall call_ok calls -> seq_ok base calls -> reachable base e calls s ->
  Inv base (base + total call_count calls + 1) s.
Proof.
  intros Hok Hb H. induction H as [|ev s s' Hr IH Hu Hs]; [by apply Inv_newPipeline|].
  destruct ev as [i|i err|n]; cbn in Hs.
  - eapply Inv_go; [done|apply Hb|done|done].
  - by eapply Inv_sync.
  - injection Hs as <-. by apply Inv_other.
Qed.

(** ** What the pipeline guarantees *)
Lemma applied_below base bound s i first next :
  Inv base bound s -> nums s i = Some (first, next) -> first < visibleSeqNum s ->
  i ∈ g_applied s /\ next <= visibleSeqNum s.
Proof.
  intros I Hn Hlt.
  destruct (nums_inv _ _ _ Hn) as (q & c & Hq & Hc & Hnum & _).
  pose proof (in_order _ _ _ I) as O. pose proof (in_seq _ _ _ I) as Q.
  destruct (qi_range _ _ _ Q _ _ _ Hn) as [Hbase Hle].
  assert (i ∈ g_order s) as Hin by (apply (oi_in _ O _ _ Hq); by destruct (p_pc q)).
  apply list_elem_of_lookup in Hin as [k Hk].
  destruct (vi_from _ _ (in_vis _ _ _ I)) as [E|(k0 & a & sa & Hk0 & Ha & Hna)]; [lia|].
  assert (k <= k0)%nat as Hkk.
  { destruct (decide (k <= k0)%nat); [done|].
    pose proof (qi_sorted _ _ _ Q k0 k _ _ _ _ _ _ ltac:(lia) Ha Hk Hna Hn). lia. }
  split.
  - destruct (ci_done _ (in_carry _ _ _ I) k i ltac:(lia) Hk) as [Happ _].
    apply (ai_in _ (in_applied _ _ _ I) _ _ Hq). unfold is_applied in Happ. rewrite Hc in Happ.
    rewrite (lo_applied _ _ (in_local _ _ _ I _ _ _ Hq Hc)) in Happ. by destruct (p_pc q).
  - destruct (decide (k = k0)) as [->|].
    + rewrite Ha in Hk. injection Hk as ->. rewrite Hna in Hn. injection Hn. lia.
    + pose proof (qi_sorted _ _ _ Q k k0 _ _ _ _ _ _ ltac:(lia) Hk Ha Hn Hna).
      destruct (qi_range _ _ _ Q _ _ _ Hna). lia.
Qed.

(** ** Returns *)

(** What a call returned, once it has. *)
Definition return_value (k : pc) : option (option error) :=
  match k with
  | Returned err => Some err
  | Skipped => Some None
  | Rejected => Some (Some ErrInvalidBatch)
  | Failed err => Some (Some err)
  | _ => None
  end.

(** The pipeline has done nothing with a batch. *)
Definition untouched s (i : nat) : Prop := (i ∉ g_wal s) /\ (i ∉ g_applied s) /\ nums s i = None.

Section returns.
Context (base bound : Z) s (I : Inv base bound s) (i : nat) p c.
Context (Hp : procs s !! i = Some p) (Hc : heap s !! i = Some c).

Lemma returned_untouched : enqueued (p_pc p) = false -> untouched s i.
Proof using I Hp Hc.
  intros Hk. split_and!.
  - intros Hin. destruct (wi_written _ (in_wal _ _ _ I) _ Hin) as (q & Hq & Hw).
    rewrite Hp in Hq. injection Hq as <-. by destruct (p_pc p).
  - rewrite <- (ai_in _ (in_applied _ _ _ I) _ _ Hp). by destruct (p_pc p).
  - unfold nums. rewrite Hp, Hc. cbn [mbind option_bind]. by destruct (p_pc p).
Qed.

Lemma returned_failed : numbered (p_pc p) = true -> done_apply (p_pc p) = false ->
  (i ∉ g_applied s) /\
  exists first next, nums s i = Some (first, next) /\ (first < next -> visibleSeqNum s <= first).
Proof using I Hp Hc.
  intros Hn Hd. assert (i ∉ g_applied s) as Ha.
  { rewrite <- (ai_in _ (in_applied _ _ _ I) _ _ Hp). congruence. }
  split; [done|]. exists (seqn c), (endn c). pose proof (nums_Some _ _ _ _ Hp Hc Hn) as Hx.
  split; [done|]. intros _. apply Z.nlt_ge. intros Hlt. by destruct (applied_below _ _ _ _ _ _ I Hx Hlt).
Qed.

Lemma returned_published err : p_pc p = Returned err ->
  i ∈ g_applied s /\
  (exists first next, nums s i = Some (first, next) /\ next <= visibleSeqNum s) /\
  match p_call p with
  | Commit syncWAL noSyncWait =>
      i ∈ g_wal s /\
      if syncWAL && negb noSyncWait then p_sync p = Signalled /\ err = cb_commitErr c else err = None
  | AllocateSeqNum _ _ _ _ => err = None
  end.
Proof using I Hp Hc.
  intros Hk. pose proof (in_local _ _ _ I _ _ _ Hp Hc) as L.
  destruct (lo_finished _ _ L ltac:(by rewrite Hk)) as [Hpub Hsig].
  pose proof (lo_error _ _ L _ Hk) as Herr.
  split_and!.
  - apply (ai_in _ (in_applied _ _ _ I) _ _ Hp). by rewrite Hk.
  - pose proof (published_nums _ _ _ _ _ I Hc Hpub) as Hn. exists (seqn c), (endn c). split; [done|].
    by eapply (vi_published _ _ (in_vis _ _ _ I)).
  - destruct (p_call p) as [sy ns|] eqn:Ec; [|done]. split.
    + pose proof (wi_in _ (in_wal _ _ _ I) _ _ _ _ Hp Ec ltac:(by rewrite Hk)) as Hw. by rewrite Hk in Hw.
    + destruct sy, ns; cbn in *; try done. split; [by apply Hsig|done].
Qed.
End returns.

Section guarantees.
Context (base : Z) (e : Env) (calls : list (call * Batch)).
Context (Hok : Forall call_ok calls) (Hseq : seq_ok base calls).

(** C29. Batches become visible as a whole and only when they are applied: in every
    execution, if the first sequence number of a batch is below the visible sequence
    number then [env.apply] has returned for it and all its sequence numbers are visible.
    Since this holds of every batch, a batch that is visible is preceded by applied
    batches only. *)
Theorem commit_visible s i first next :
  reachable base e calls s -> nums s i = Some (first, next) -> first < visibleSeqNum s ->
  i ∈ g_applied s /\ next <= visibleSeqNum s.
Proof using Hok Hseq.
  intros Hr. apply (applied_below base (base + total call_count calls + 1)). by apply reachable_Inv with e.
Qed.

(** C30. Batches are written to the log in the order of their sequence numbers: in every
    execution, the sequence numbers of a record of the log are below those of the records
    after it. *)
Theorem commit_log_order s j k a b :
  reachable base e calls s -> (j < k)%nat -> g_wal s !! j = Some a -> g_wal s !! k = Some b ->
  exists sa ea sb eb, nums s a = Some (sa, ea) /\ nums s b = Some (sb, eb) /\ sa <= ea <= sb.
Proof using Hok Hseq.
  intros Hr Hlt Ha Hb. pose proof (reachable_Inv _ _ _ _ Hok Hseq Hr) as I.
  assert (forall x, x ∈ g_wal s -> exists y, nums s x = Some y) as Hex.
  { intros x Hx. destruct (wi_written _ (in_wal _ _ _ I) _ Hx) as (q & Hq & Hw).
    destruct (heap_proc _ _ _ I _ _ Hq) as [d Hd]. eexists. by apply (nums_Some s x q d), written_numbered. }
  destruct (Hex a) as [[sa ea] Hna]; [by eapply list_elem_of_lookup_2|].
  destruct (Hex b) as [[sb eb] Hnb]; [by eapply list_elem_of_lookup_2|].
  exists sa, ea, sb, eb. split_and!; try done.
  - by destruct (qi_range _ _ _ (in_seq _ _ _ I) _ _ _ Hna) as [_ [? _]].
  - by eapply (wi_sorted _ (in_wal _ _ _ I) j k).
Qed.

(** C31. What has happened when a call returns, for every way it returns.  After an error
    the batch is not used again.  A [Commit] of an empty batch, and one that returns
    [ErrInvalidBatch], have left the batch out of the log and the memtable and taken no
    sequence numbers.  A return with an error of [env.write] or [env.apply] is of a
    batch that is not applied and none of whose sequence numbers is visible.  Every other
    return is of a batch that is in the log, applied and visible; the error is then nil, unless
    [Commit] has waited for the sync of the log, which is done, and then it is the error
    the log reported. *)
Theorem commit_returns s i p c r :
  reachable base e calls s -> procs s !! i = Some p -> heap s !! i = Some c ->
  return_value (p_pc p) = Some r ->
  (r <> None -> b_db (cb_batch c) = false) /\
  match p_pc p with
  | Skipped => Empty (cb_batch c) = true /\ untouched s i
  | Rejected => b_count (cb_batch c) = invalidBatchCount /\ untouched s i
  | Failed _ => (i ∉ g_applied s) /\
      exists first next, nums s i = Some (first, next) /\ (first < next -> visibleSeqNum s <= first)
  | _ => i ∈ g_applied s /\
      (exists first next, nums s i = Some (first, next) /\ next <= visibleSeqNum s) /\
      match p_call p with
      | Commit syncWAL noSyncWait =>
          i ∈ g_wal s /\
          if syncWAL && negb noSyncWait then p_sync p = Signalled /\ r = cb_commitErr c else r = None
      | AllocateSeqNum _ _ _ _ => r = None
      end
  end.
Proof using Hok Hseq.
  intros Hr Hp Hc Hret. pose proof (reachable_Inv _ _ _ _ Hok Hseq Hr) as I.
  pose proof (in_local _ _ _ I _ _ _ Hp Hc) as L. pose proof (lo_returned _ _ L) as Hb.
  destruct (p_pc p) as [| | | | | | | | | | | | | | | | | | | | | | | | | | | | | | | |err| | |err|] eqn:Hk;
    try done; injection Hret as <-.
  - split; [|by apply (returned_published _ _ _ I _ _ _ Hp Hc)]. by destruct err.
  - split; [done|]. split; [done|]. apply (returned_untouched _ _ _ I _ _ _ Hp Hc). by rewrite Hk.
  - destruct Hb as [Hcnt Hdb]. split; [done|]. split; [done|]. apply (returned_untouched _ _ _ I _ _ _ Hp Hc). by rewrite Hk.
  - split; [done|]. by apply (returned_failed _ _ _ I _ _ _ Hp Hc); rewrite Hk.
Qed.

(** C32. Before [AllocateSeqNum] calls [prepare], every write that was sequenced before is
    applied and visible, and none is sequenced until it unlocks the mutex. *)
Theorem allocate_prepare s i p a first next :
  reachable base e calls s -> procs s !! i = Some p -> in_callback (p_pc p) = true ->
  a <> i -> nums s a = Some (first, next) ->
  next <= visibleSeqNum s /\ (first < next -> a ∈ g_applied s).
Proof using Hok Hseq.
  intros Hr Hp Hcb Hne Hn. pose proof (reachable_Inv _ _ _ _ Hok Hseq Hr) as I.
  pose proof (vi_callback _ _ (in_vis _ _ _ I) _ _ _ _ _ Hp Hcb Hne Hn) as Hle. split; [done|].
  intros Hlt. eapply applied_below; [done|exact Hn|lia].
Qed.

(** C33. The pipeline never panics: the queue of pending batches is never full, a batch
    that is dequeued is applied, and no wait group becomes negative. *)
Theorem commit_no_panic s i p msg :
  reachable base e calls s -> procs s !! i = Some p -> p_pc p <> Panicked msg.
Proof using Hok Hseq.
  intros Hr Hp Hk. pose proof (reachable_Inv _ _ _ _ Hok Hseq Hr) as I.
  destruct (heap_proc _ _ _ I _ _ Hp) as [c Hc]. pose proof (lo_fits _ _ (in_local _ _ _ I _ _ _ Hp Hc)) as Hf.
  rewrite Hk in Hf. by destruct (p_call p).
Qed.
End guarantees.
End spec.
