(* ===== verification/CommitLive.v ===== *)
(** The commit pipeline (Commit.v): calls return.  An execution of finitely many calls is
    finite, and it does not stop before every call has returned unless a write failed. *)
From S2P Require Import Prelude.
From S2P Require Import SyncQueue.
From S2P Require Import Batch.
From S2P Require Import Commit.
From S2P Require Import CommitFacts.
From S2P Require Import CommitInv.
From S2P Require Import CommitSteps.
From S2P Require Import CommitRing.
From S2P Require Import CommitPublish.
From S2P Require Import CommitSpec.

Local Open Scope Z_scope.

Section live.
Context {K : BatchSkl} {CE : commitEnv}.
Implicit Types s : commitPipeline.
Implicit Types p q : proc.
Implicit Types c : cbatch.

Ltac at_proc H := apply list_lookup_insert_Some in H as [(<- & <- & _)|[? H]].

(** ** No batch is forgotten *)

(** The goroutine is going to look at the batch at the tail of the queue. *)
Definition attentive s q : Prop :=
  match p_pc q with
  | PLoad | PNil _ _ | PCheck _ | PVis _ | PVisCas _ _ _ | PDone _ => True
  | PSlotLoad _ | PApplied _ _ | PCas _ _ => p_snap q = g_tail s
  | _ => False
  end.

(** If the batch at the tail is applied then some goroutine is going to publish it. *)
Definition Responsible s : Prop := forall b, g_order s !! g_tail s = Some b -> is_applied b s = true ->
  exists j q, procs s !! j = Some q /\ attentive s q.

Lemma gstep_applied_only s i p c s' b : heap s !! i = Some c -> gstep s i p c s' -> p_pc p <> PPublish ->
  is_applied b s' = true -> is_applied b s = true.
Proof.
  intros Hc G Hn.
  assert (forall t d d' s0, heap s0 = heap s -> heap s !! t = Some d ->
    (b_applied (cb_batch d') = true -> b_applied (cb_batch d) = true) ->
    is_applied b (put t d' s0) = true -> is_applied b s = true) as Hput.
  { intros t d d' s0 E Hd Hi. unfold is_applied, put. cbn. rewrite E. destruct (decide (t = b)) as [->|].
    - rewrite list_lookup_insert_eq, Hd by (by eapply lookup_lt_Some). exact Hi.
    - by rewrite list_lookup_insert_ne. }
  destruct G; try done.
  all: try (eapply Hput; [|eassumption|]; done).
  eapply (Hput i c); [|eassumption|]; [done|]. subst c'; by destruct err.
Qed.

Lemma responsible_step base bound s i p c s' :
  Inv base bound s -> Responsible s -> procs s !! i = Some p -> heap s !! i = Some c ->
  gstep s i p c s' -> Responsible s'.
Proof.
  intros I R Hp Hc G b Hb Happ. assert (i < length (procs s))%nat as Hi by by eapply lookup_lt_Some.
  destruct (gstep_procs _ _ _ _ _ G) as (p' & Ep & _).
  assert (procs s' !! i = Some p') as Hp' by (rewrite Ep; by apply list_lookup_insert_eq).
  assert (attentive s' p' \/ g_tail s' = g_tail s) as [Ha|Et]; [|by eauto|].
  { destruct G; cbn in Hp'; rewrite list_lookup_insert_eq in Hp' by done; injection Hp' as <-; cbn; auto. }
  assert (attentive s' p' \/ p_pc p <> PPublish) as [Ha|Hnp]; [|by eauto|].
  { destruct G; cbn in Hp'; rewrite list_lookup_insert_eq in Hp' by done; injection Hp' as <-; rewrite H;
      first [by right|by left]. }
  pose proof (gstep_applied_only _ _ _ _ _ _ Hc G Hnp Happ) as Happ0.
  assert (g_order s !! g_tail s = Some b) as Hb0.
  { rewrite Et in Hb. destruct (pc_seq_or_not (p_pc p)) as [Hk|Hk].
    - destruct (gstep_number _ _ _ _ _ G Hk) as (x & k' & _ & ->). exact Hb.
    - destruct (gstep_seq _ _ _ _ _ G Hk) as [_ [Eo|[Ek Eo]]]; rewrite Eo in Hb; [done|].
      apply lookup_snoc_Some in Hb as [[_ Hb]|[_ <-]]; [done|]. unfold is_applied in Happ0.
      rewrite Hc, (lo_applied _ _ (in_local _ _ _ I _ _ _ Hp Hc)), Ek in Happ0. done. }
  destruct (R _ Hb0 Happ0) as (j & q & Hj & Hq). destruct (decide (i = j)) as [<-|Hne].
  2: { exists j, q. rewrite Ep, list_lookup_insert_ne by done. split; [done|]. unfold attentive in *. by rewrite Et. }
  rewrite Hp in Hj. injection Hj as <-. exists i, p'. split; [done|].
  pose proof (sn_ok _ (in_snap _ _ _ I) _ _ Hp) as Hs. pose proof (in_ring _ _ _ I) as Ri.
  unfold attentive in Hq. unfold SnapOK in Hs.
  destruct G; cbn in Hp'; rewrite list_lookup_insert_eq in Hp' by done; injection Hp' as <-;
    rewrite H in Hq, Hs; cbn; try done.
  - apply lookup_lt_Some in Hb0. lia.
  - pose proof (ri_full _ Ri _ _ ltac:(done) Hb0) as Hf. rewrite <- Hq in Hf. congruence.
  - destruct Hs as [_ Hs]. specialize (Hs Hq). rewrite Hb0 in Hs. injection Hs as ->. congruence.
Qed.

Lemma reachable_Responsible base e calls s : Forall call_ok calls -> seq_ok base calls ->
  reachable base e calls s -> Responsible s.
Proof.
  intros Hok Hb H. induction H as [|ev s s' Hr IH Hu Hs]; [done|].
  pose proof (reachable_Inv _ _ _ _ Hok Hb Hr) as I.
  destruct ev as [i|i err|n]; cbn in Hs.
  - destruct (procs s !! i) as [p|] eqn:Hp; [|unfold go_step in Hs; by rewrite Hp in Hs].
    destruct (heap_proc _ _ _ I _ _ Hp) as [c Hc].
    eapply responsible_step; [done|done|exact Hp|exact Hc|].
    eapply go_step_gstep; [done|apply Hb|done|done|done|done].
  - destruct (procs s !! i) as [p|] eqn:Hp; [|unfold sync_step in Hs; by rewrite Hp in Hs].
    destruct (heap_proc _ _ _ I _ _ Hp) as [c Hc].
    destruct (sync_step_synced _ _ _ _ _ _ Hp Hc (in_local _ _ _ I _ _ _ Hp Hc) Hs)
      as (Hq & cm & fw & ce & wg & er & -> & _).
    intros b Hbo Ha. destruct (IH b Hbo) as (j & q & Hj & Hatt).
    { unfold is_applied in *. cbn in Ha. rewrite (alter_insert _ _ _ _ Hc) in Ha.
      destruct (decide (i = b)) as [<-|]; [|by rewrite list_lookup_insert_ne in Ha].
      rewrite list_lookup_insert_eq in Ha by (by eapply lookup_lt_Some). by rewrite Hc. }
    cbn. rewrite (alter_insert _ _ _ _ Hp). destruct (decide (i = j)) as [<-|].
    + eexists i, _. rewrite list_lookup_insert_eq by (by eapply lookup_lt_Some). split; [done|].
      rewrite Hp in Hj. injection Hj as <-. exact Hatt.
    + exists j, q. by rewrite list_lookup_insert_ne.
  - injection Hs as <-. exact IH.
Qed.

(** ** Progress *)
Definition returned (k : pc) : bool := match k with Returned _ | Skipped => true | _ => false end.
(** The call has failed or is going to. *)
Definition failed (k : pc) : bool :=
  match k with Rejected | Failed _ | PDirectWait (Some _) => true | _ => false end.
(** The goroutine may have to wait. *)
Definition may_wait (k : pc) : bool :=
  match k with
  | PStart | PSync | PLock | PSlot _ | PSpin _ | PDirectSem _ | PDirectWait _ | PWait => true
  | _ => false
  end.

Lemma can_go s i p c : procs s !! i = Some p -> LocalOK p c ->
  returned (p_pc p) = false -> failed (p_pc p) = false -> may_wait (p_pc p) = false ->
  is_Some (go_step i s).
Proof.
  intros Hp L Hr Hf Hw. pose proof (lo_fits _ _ L) as Hfit. unfold go_step. rewrite Hp. cbn [mbind option_bind].
  destruct (p_pc p), (p_call p); cbn in *; try discriminate; eexists; reflexivity.
Qed.

Section stuck.
Context (base bound : Z) s (I : Inv base bound s) (R : Responsible s).
Context (Hgo : forall i, go_step i s = None).
Context (Hq : forall i p, procs s !! i = Some p -> p_sync p <> Queued).
Context (Hf : forall i p, procs s !! i = Some p -> failed (p_pc p) = false).

Lemma stuck_pc i p : procs s !! i = Some p -> returned (p_pc p) = true \/ may_wait (p_pc p) = true.
Proof.
  intros Hp. destruct (returned (p_pc p)) eqn:Er; [by left|right].
  destruct (may_wait (p_pc p)) eqn:Ew; [done|]. destruct (heap_proc _ _ _ I _ _ Hp) as [c Hc].
  destruct (can_go s i p c Hp (in_local _ _ _ I _ _ _ Hp Hc) Er (Hf _ _ Hp) Ew) as [x Hx].
  by rewrite Hgo in Hx.
Qed.

Ltac stuck Hp := destruct (stuck_pc _ _ Hp) as [Hstuck|Hstuck].

Lemma stuck_not_carrying i p : procs s !! i = Some p -> carries (p_pc p) = None.
Proof. intros Hp. stuck Hp; by destruct (p_pc p). Qed.

(** The batch at the tail of the queue is not applied. *)
Lemma stuck_tail b : g_order s !! g_tail s = Some b -> is_applied b s = false.
Proof.
  intros Hb. destruct (is_applied b s) eqn:E; [|done].
  destruct (R b Hb E) as (j & q & Hj & Ha). stuck Hj; unfold attentive in Ha; by destruct (p_pc q).
Qed.

(** Batches that were dequeued are published. *)
Lemma stuck_published k t : (k < g_tail s)%nat -> g_order s !! k = Some t ->
  exists ct, heap s !! t = Some ct /\ cb_published ct = true.
Proof.
  intros Hk Ht. destruct (ci_done _ (in_carry _ _ _ I) _ _ Hk Ht) as (_ & ct & Hct & [?|(j & q & Hj & Hx)]); [eauto|].
  by rewrite (stuck_not_carrying _ _ Hj) in Hx.
Qed.

(** A goroutine in the queue without the mutex waits to be published. *)
Lemma stuck_enqueued i p c : procs s !! i = Some p -> heap s !! i = Some c -> enqueued (p_pc p) = true ->
  holds_mu (p_pc p) = false -> is_applied i s = true.
Proof.
  intros Hp Hc He Hm. unfold is_applied. rewrite Hc, (lo_applied _ _ (in_local _ _ _ I _ _ _ Hp Hc)).
  stuck Hp; by destruct (p_pc p).
Qed.

Lemma stuck_signalled i p c : procs s !! i = Some p -> heap s !! i = Some c ->
  syncs (p_call p) = true -> written (p_pc p) = true -> p_sync p = Signalled.
Proof.
  intros Hp Hc Hs Hw. pose proof (lo_queued _ _ (in_local _ _ _ I _ _ _ Hp Hc) Hs Hw) as Hx.
  pose proof (Hq _ _ Hp) as Hn. assert (p_sync p <> NotQueued) as Hnn; [|by destruct (p_sync p)].
  stuck Hp; by destruct (p_pc p).
Qed.

(** No goroutine spins for a slot of the ring. *)
Lemma stuck_slot i p z : procs s !! i = Some p -> p_pc p <> PSlot z.
Proof.
  intros Hp Hk. pose proof (in_ring _ _ _ I) as Ri. pose proof (ri_head _ Ri _ _ Hp) as Hh. rewrite Hk in Hh.
  destruct Hh as [-> Hlt]. pose proof (Hgo i) as Hg. unfold go_step in Hg. rewrite Hp in Hg.
  cbn [mbind option_bind] in Hg. rewrite Hk in Hg. unfold enqueue_slot in Hg. rewrite slot_of_u32 in Hg.
  destruct (ri_free _ Ri (length (g_order s)) ltac:(lia)) as [Hs|[(j & q & ptrs & b & Hj & Eq & _)|(j & q & Hj & Eq & _)]].
  - by rewrite Hs in Hg.
  - stuck Hj; by rewrite Eq in Hstuck.
  - stuck Hj; by rewrite Eq in Hstuck.
Qed.

Lemma stuck_directWait i p err : procs s !! i = Some p -> p_pc p <> PDirectWait err.
Proof.
  intros Hp Hk. destruct (heap_proc _ _ _ I _ _ Hp) as [c Hc]. pose proof (in_local _ _ _ I _ _ _ Hp Hc) as L.
  pose proof (Hf _ _ Hp) as Hfl. rewrite Hk in Hfl. destruct err; [done|].
  pose proof (lo_direct _ _ L Hk). pose proof (Hq _ _ Hp).
  assert (p_sync p = Signalled) as Es by by destruct (p_sync p).
  pose proof (lo_syncWG _ _ L) as Hwg. rewrite Hk, Es in Hwg. cbn in Hwg.
  pose proof (lo_fits _ _ L) as Hft. pose proof (Hgo i) as Hg. unfold go_step in Hg. rewrite Hp in Hg.
  cbn [mbind option_bind] in Hg. rewrite Hk in Hg, Hft. destruct (p_call p); [done|].
  unfold directWrite_wait in Hg. rewrite Hp, Hwg in Hg. done.
Qed.

(** A batch of the queue that waits for earlier ones to be visible finds them visible. *)
Lemma stuck_spin i p l : procs s !! i = Some p -> p_pc p <> PSpin l.
Proof.
  intros Hp Hk. destruct (heap_proc _ _ _ I _ _ Hp) as [c Hc]. pose proof (in_order _ _ _ I) as O.
  assert (i ∈ g_order s) as Hin by (apply (oi_in _ O _ _ Hp); by rewrite Hk).
  apply list_elem_of_lookup in Hin as [k Hik].
  pose proof (oi_last _ O _ _ Hp ltac:(by rewrite Hk) ltac:(by rewrite Hk)) as Hlast. rewrite last_lookup in Hlast.
  pose proof (NoDup_lookup _ _ _ _ (oi_nodup _ O) Hik Hlast) as Ek.
  assert (is_applied i s = false) as Hni.
  { unfold is_applied. rewrite Hc, (lo_applied _ _ (in_local _ _ _ I _ _ _ Hp Hc)). by rewrite Hk. }
  assert (g_tail s = k) as Et.
  { assert (g_tail s <= k)%nat.
    { destruct (decide (g_tail s <= k)%nat); [done|].
      destruct (ci_done _ (in_carry _ _ _ I) k i ltac:(lia) Hik) as [Ha _]. congruence. }
    destruct (decide (g_tail s = k)) as [|Hne]; [done|]. apply lookup_lt_Some in Hik as Hlt.
    destruct (lookup_lt_is_Some_2 (g_order s) (g_tail s)) as [h Hh]; [lia|].
    pose proof (stuck_tail _ Hh) as Hx.
    destruct (queued_proc _ _ _ I (g_tail s) h ltac:(done) Hh) as (q & d & Hjq & Hd & He & _).
    rewrite (stuck_enqueued _ _ _ Hjq Hd He) in Hx; [done|].
    destruct (holds_mu (p_pc q)) eqn:Em; [|done].
    destruct (one_producer _ _ _ _ _ (in_mu _ _ _ I) Hp Hjq ltac:(by rewrite Hk) Em) as [<- _].
    by pose proof (NoDup_lookup _ _ _ _ (oi_nodup _ O) Hik Hh). }
  assert (visibleSeqNum s = l) as Ev; [|by pose proof (Hgo i) as Hg; unfold go_step in Hg; rewrite Hp in Hg;
    cbn [mbind option_bind] in Hg; rewrite Hk in Hg; unfold Allocate_spin in Hg; rewrite Ev, Z.eqb_refl in Hg].
  destruct (qi_spin _ _ _ (in_seq _ _ _ I) _ _ _ Hp Hk) as [Hall Hl].
  assert (forall a sa ea, a <> i -> nums s a = Some (sa, ea) -> ea <= visibleSeqNum s) as Hvis.
  { intros a sa ea Hne Hn. destruct (nums_inv _ _ _ Hn) as (q & d & Hq' & Hd & Hnum & _).
    assert (a ∈ g_order s) as Hina by (apply (oi_in _ O _ _ Hq'); by destruct (p_pc q)).
    apply list_elem_of_lookup in Hina as [n Hna]. apply lookup_lt_Some in Hna as Hlt.
    assert (n <> k) by (intros ->; congruence).
    destruct (stuck_published n a ltac:(lia) Hna) as (ct & Hct & Hpub).
    by eapply (vi_published _ _ (in_vis _ _ _ I)). }
  pose proof (vi_base _ _ (in_vis _ _ _ I)) as Hb.
  assert (base <= l).
  { destruct Hl as [->|(a & sa & _ & Hn)]; [done|]. destruct (qi_range _ _ _ (in_seq _ _ _ I) _ _ _ Hn). lia. }
  assert (l <= visibleSeqNum s) by (destruct Hl as [->|(a & sa & Hne & Hn)]; [done|by eapply Hvis]).
  destruct (vi_from _ _ (in_vis _ _ _ I)) as [E|(n & a & sa & Hlt & Ha & Hn)]; [lia|].
  assert (a <> i) by (intros ->; pose proof (NoDup_lookup _ _ _ _ (oi_nodup _ O) Hik Ha); lia).
  pose proof (Hall _ _ _ Hn ltac:(done)). lia.
Qed.

(** Who has an element in [logSyncQSem] waits for the mutex. *)
Lemma stuck_log_held i p : procs s !! i = Some p -> log_held p = true -> p_pc p = PLock.
Proof.
  intros Hp Hl. destruct (heap_proc _ _ _ I _ _ Hp) as [c Hc]. pose proof (in_local _ _ _ I _ _ _ Hp Hc) as L.
  pose proof (stuck_signalled _ _ _ Hp Hc) as Hsig. pose proof (Hq _ _ Hp) as Hnq.
  pose proof (fun z => stuck_slot _ _ z Hp) as Hns. pose proof (fun l => stuck_spin _ _ l Hp) as Hnsp.
  pose proof (fun err => stuck_directWait _ _ err Hp) as Hnd. pose proof (lo_fits _ _ L) as Hft.
  unfold log_held in Hl. destruct (p_call p) as [sy ns|] eqn:Ec.
  - destruct sy; [|done]. cbn in Hl, Hsig. apply andb_true_iff in Hl as [Hl Hpc]. apply bool_decide_eq_true in Hl.
    destruct (written (p_pc p)) eqn:Ew; [by destruct (Hl (Hsig eq_refl eq_refl))|].
    stuck Hp; destruct (p_pc p); try done; by destruct (Hns head).
  - stuck Hp; destruct (p_pc p); try done; try (by apply bool_decide_eq_true in Hl).
    by destruct (Hnd err).
Qed.

Lemma count_lt {A} (f g : A -> bool) (l : list A) j x :
  (forall y, y ∈ l -> f y = true -> g y = true) -> l !! j = Some x -> f x = false -> g x = true ->
  count f l + 1 <= count g l.
Proof.
  unfold count. revert j. induction l as [|y l IH]; intros j Hfg Hj Hfx Hgx; [done|]. simpl.
  assert (one (f y) <= one (g y)) as Hy.
  { pose proof (Hfg y ltac:(left)). destruct (f y); [by rewrite H|]. pose proof (one_range (g y)). cbn. lia. }
  assert (total (fun x => one (f x)) l <= total (fun x => one (g x)) l) as Hl.
  { clear IH Hj. induction l as [|z l IH]; [done|]. simpl.
    pose proof (Hfg z ltac:(right; left)).
    assert (one (f z) <= one (g z)).
    { destruct (f z); [by rewrite H|]. pose proof (one_range (g z)). cbn. lia. }
    specialize (IH (fun a Ha => Hfg a ltac:(apply elem_of_cons in Ha as [->|Ha]; [left|by do 2 right]))). lia. }
  destruct j as [|j].
  - injection Hj as ->. rewrite Hfx, Hgx in *. cbn [one]. lia.
  - specialize (IH j (fun a Ha => Hfg a ltac:(by right)) Hj Hfx Hgx). lia.
Qed.

(** [directWrite] finds room: those that have room for a sync are also counted by the
    other semaphore, which counts the ingestion too. *)
Lemma stuck_directSem i p b : procs s !! i = Some p -> p_pc p <> PDirectSem b.
Proof.
  intros Hp Hk. destruct (in_sem _ _ _ I) as [H1 H2 H3 H4].
  destruct (heap_proc _ _ _ I _ _ Hp) as [c Hc]. pose proof (in_local _ _ _ I _ _ _ Hp Hc) as L.
  pose proof (lo_fits _ _ L) as Hft. pose proof (Hq _ _ Hp) as Hnq.
  assert (log_held p = false) as Hnl.
  { destruct (log_held p) eqn:E; [|done]. pose proof (stuck_log_held _ _ Hp E). congruence. }
  assert (count log_held (procs s) + 1 <= count (fun q => sem_held (p_pc q)) (procs s)) as Hlt.
  { eapply count_lt; [|exact Hp|done|by rewrite Hk]. intros q Hin Hl.
    apply list_elem_of_lookup in Hin as [j Hj]. by rewrite (stuck_log_held _ _ Hj Hl). }
  pose proof (Hgo i) as Hg. unfold go_step in Hg. rewrite Hp in Hg. cbn [mbind option_bind] in Hg. rewrite Hk in Hg.
  unfold directWrite_sem, acquire_logSyncQSem in Hg. rewrite (proj2 (Z.ltb_lt _ _)) in Hg by lia. done.
Qed.

Lemma stuck_mutex : mu s = None.
Proof.
  destruct (mu s) as [j|] eqn:E; [|done]. destruct (mi_dom _ (in_mu _ _ _ I) _ E) as [q Hj].
  apply (mi_holds _ (in_mu _ _ _ I) _ _ Hj) in E. exfalso.
  pose proof (fun z => stuck_slot _ _ z Hj). pose proof (fun l => stuck_spin _ _ l Hj).
  pose proof (fun err => stuck_directWait _ _ err Hj). pose proof (fun b => stuck_directSem _ _ b Hj).
  stuck Hj; destruct (p_pc q); naive_solver.
Qed.

Lemma stuck_lock i p : procs s !! i = Some p -> p_pc p <> PLock.
Proof.
  intros Hp Hk. pose proof (Hgo i) as Hg. unfold go_step in Hg. rewrite Hp in Hg. cbn [mbind option_bind] in Hg.
  rewrite Hk in Hg. unfold prepare_lock in Hg. by rewrite stuck_mutex in Hg.
Qed.

Lemma stuck_no_log : count log_held (procs s) = 0.
Proof.
  apply count_none. intros q Hin. apply list_elem_of_lookup in Hin as [j Hj]. destruct (log_held q) eqn:E; [|done].
  by destruct (stuck_lock _ _ Hj (stuck_log_held _ _ Hj E)).
Qed.

Lemma stuck_early i p : procs s !! i = Some p -> p_pc p = PStart \/ p_pc p = PWait \/ returned (p_pc p) = true.
Proof.
  intros Hp. pose proof (stuck_lock _ _ Hp). pose proof (mi_holds _ (in_mu _ _ _ I) _ _ Hp) as Hm.
  rewrite stuck_mutex in Hm. stuck Hp; [auto|].
  assert (p_pc p <> PSync) as Hns; [|destruct (p_pc p); cbn in *; try done; auto; naive_solver].
  intros Hk. destruct (heap_proc _ _ _ I _ _ Hp) as [c Hc].
  pose proof (lo_fits _ _ (in_local _ _ _ I _ _ _ Hp Hc)) as Hft. rewrite Hk in Hft.
  pose proof (Hgo i) as Hg. unfold go_step in Hg. rewrite Hp in Hg. cbn [mbind option_bind] in Hg.
  rewrite Hk in Hg. destruct (p_call p) as [[] ns|]; [|done|done]. unfold Commit_sync, acquire_logSyncQSem in Hg.
  rewrite (si_log _ (in_sem _ _ _ I)), stuck_no_log in Hg. done.
Qed.

Lemma stuck_wait i p : procs s !! i = Some p -> p_pc p <> PWait.
Proof.
  intros Hp Hk. destruct (heap_proc _ _ _ I _ _ Hp) as [c Hc]. pose proof (in_local _ _ _ I _ _ _ Hp Hc) as L.
  pose proof (in_order _ _ _ I) as O.
  assert (i ∈ g_order s) as Hin by (apply (oi_in _ O _ _ Hp); by rewrite Hk).
  apply list_elem_of_lookup in Hin as [k Hik]. apply lookup_lt_Some in Hik as Hlt.
  assert (k < g_tail s)%nat as Hkt.
  { destruct (decide (k < g_tail s)%nat); [done|].
    destruct (lookup_lt_is_Some_2 (g_order s) (g_tail s)) as [h Hh]; [lia|].
    pose proof (stuck_tail _ Hh) as Hx.
    destruct (queued_proc _ _ _ I (g_tail s) h ltac:(done) Hh) as (q & d & Hjq & Hd & He & _).
    rewrite (stuck_enqueued _ _ _ Hjq Hd He) in Hx; [done|].
    destruct (holds_mu (p_pc q)) eqn:Em; [|done]. apply (mi_holds _ (in_mu _ _ _ I) _ _ Hjq) in Em.
    by rewrite stuck_mutex in Em. }
  destruct (stuck_published _ _ Hkt Hik) as (ct & Hct & Hpub). rewrite Hc in Hct. injection Hct as <-.
  assert (cb_commit c = 0) as Hz.
  { rewrite (lo_commit _ _ L), Hpub, Hk. cbn. destruct (waits (p_call p)) eqn:Ew; [|done].
    rewrite (stuck_signalled _ _ _ Hp Hc); [done| |by rewrite Hk]. by destruct (p_call p) as [[] []|]. }
  pose proof (Hgo i) as Hg. unfold go_step in Hg. rewrite Hp in Hg. cbn [mbind option_bind] in Hg. rewrite Hk in Hg.
  unfold publish_wait in Hg. by rewrite Hc, Hz in Hg.
Qed.

Lemma stuck_returned i p : procs s !! i = Some p -> returned (p_pc p) = true.
Proof.
  intros Hp. destruct (stuck_early _ _ Hp) as [Hk|[Hk|?]]; [|by destruct (stuck_wait _ _ Hp)|done]. exfalso.
  destruct (heap_proc _ _ _ I _ _ Hp) as [c Hc].
  assert (commitQueueSem s = 0) as Hz.
  { rewrite (si_commit _ (in_sem _ _ _ I)). apply count_none. intros q Hin. apply list_elem_of_lookup in Hin as [j Hj].
    destruct (stuck_early _ _ Hj) as [->|[Hk'|Hr]]; [done|by destruct (stuck_wait _ _ Hj)|by destruct (p_pc q)]. }
  pose proof (Hgo i) as Hg. unfold go_step in Hg. rewrite Hp in Hg. cbn [mbind option_bind] in Hg. rewrite Hk in Hg.
  destruct (p_call p); unfold Commit_start, Allocate_start, acquire_commitQueueSem in Hg; rewrite ?Hc in Hg.
  - rewrite Hz in Hg. by destruct (Empty (cb_batch c)).
  - cbn in Hg. by rewrite Hz in Hg.
Qed.
End stuck.

(** C34. No deadlock and no lost wakeup: in every execution in which no write and no
    [apply] failed and no batch was rejected, either every call has returned or some
    goroutine can take a step or the log has a sync to complete. *)
Theorem commit_progress base e calls s :
  Forall call_ok calls -> seq_ok base calls -> reachable base e calls s ->
  (forall i p, procs s !! i = Some p -> failed (p_pc p) = false) ->
  (forall i p, procs s !! i = Some p -> returned (p_pc p) = true) \/
  exists i s', go_step i s = Some s' \/ sync_step i None s = Some s'.
Proof.
  intros Hok Hseq Hr Hf. pose proof (reachable_Inv _ _ _ _ Hok Hseq Hr) as I.
  pose proof (reachable_Responsible _ _ _ _ Hok Hseq Hr) as R.
  destruct (decide (Exists (fun i => is_Some (go_step i s) \/ is_Some (sync_step i None s)) (seq 0 (length (procs s)))))
    as [Hx|Hx].
  { right. apply Exists_exists in Hx as (i & _ & [[s' Hs]|[s' Hs]]); eauto. }
  left. assert (forall i, go_step i s = None /\ sync_step i None s = None) as Hnone.
  { intros i. destruct (decide (i < length (procs s))%nat) as [Hi|Hi].
    - apply not_Exists_Forall in Hx. 2: apply _.
      rewrite Forall_forall in Hx. specialize (Hx i ltac:(apply elem_of_seq; lia)). cbn in Hx.
      split; apply eq_None_not_Some; tauto.
    - unfold go_step, sync_step. by rewrite !lookup_ge_None_2 by lia. }
  intros i p Hp. eapply (stuck_returned base); try done; [by intros j; apply Hnone|].
  intros j q Hj Hq. destruct (heap_proc _ _ _ I _ _ Hj) as [c Hc]. destruct (Hnone j) as [_ Hn].
  unfold sync_step in Hn. rewrite Hj in Hn. cbn [mbind option_bind] in Hn. rewrite decide_True in Hn by done.
  destruct (p_call q) as [? []|]; [done| |done]. by destruct (commit_Done _ _) in Hn.
Qed.

(** ** Termination *)

(** How many steps a goroutine still takes before it has to wait for others: a bound for
    the rest of the call that counts one round of each loop.  A goroutine whose view of
    [headTail] or of the visible sequence number is out of date takes another round; the
    goroutine that changed it pays for that. *)
Definition stale_q s (ptrs : Z) : Z := if q_headTail s =? ptrs then 0 else 4.
Definition pc_work s (n : Z) (k : pc) : Z :=
  match k with
  | PStart => 37 | PSync => 36 | PPrepare => 35 | PLock => 34 | PEnq => 33 | PSlot _ => 32
  | PStore _ => 31 | PInc => 30 | PSeq => 29 | PSpin _ => 28 | PCallback => 27 | PDirectSem _ => 26
  | PDirect _ => 25 | PDirectWait _ => 24 | PWrite => 24 | PUnlock _ => 23 | PUnlockA => 23
  | PApply _ => 22 | PApplyA => 22 | PPublish => 21 | PLoad => 20
  | PSlotLoad ptrs => 19 + stale_q s ptrs
  | PApplied ptrs _ => 18 + stale_q s ptrs
  | PCas ptrs _ => 17 + stale_q s ptrs
  | PNil _ _ => 26 + 2 * n | PCheck _ => 25 + 2 * n | PVis _ => 23 + 2 * n
  | PVisCas _ cur _ => 22 + 2 * n + (if visibleSeqNum s =? cur then 0 else 2)
  | PDone _ => 21 | PWait => 3 | PRelease => 2 | PReturn => 1
  | Returned _ | Skipped | Rejected | Failed _ | Panicked _ => 0
  end.
Definition proc_work s (n : Z) q : Z := pc_work s n (p_pc q) + one (bool_decide (p_sync q <> Signalled)).

(** A bound for the steps that are left. *)
Definition work s : Z :=
  let n := Z.of_nat (length (procs s)) in
  total (proc_work s n) (procs s) + (6 * n + 10) * (n - Z.of_nat (g_tail s)) +
  4 * n * (n - Z.of_nat (length (g_order s))).

Lemma total_le {A} (f g : A -> Z) (d : Z) l :
  (forall x, f x <= g x + d) -> total f l <= total g l + d * Z.of_nat (length l).
Proof.
  intros H. induction l as [|x l IH]; [simpl; lia|]. simpl length. rewrite Nat2Z.inj_succ. simpl.
  pose proof (H x). lia.
Qed.

Lemma stale_range s ptrs : 0 <= stale_q s ptrs <= 4.
Proof. unfold stale_q. destruct (_ =? _); lia. Qed.

(** Changing [headTail] costs each goroutine at most one more round, and so does changing
    the visible sequence number. *)
Lemma proc_work_queue s s' n q : visibleSeqNum s' = visibleSeqNum s -> proc_work s' n q <= proc_work s n q + 4.
Proof.
  intros E. unfold proc_work. destruct (p_pc q); cbn; rewrite ?E; try lia;
    pose proof (stale_range s ptrs); pose proof (stale_range s' ptrs); lia.
Qed.
Lemma proc_work_vis s s' n q : q_headTail s' = q_headTail s -> proc_work s' n q <= proc_work s n q + 2.
Proof.
  intros E. unfold proc_work, stale_q. destruct (p_pc q); cbn; unfold stale_q; rewrite ?E; try lia.
  destruct (visibleSeqNum s =? cur), (visibleSeqNum s' =? cur); lia.
Qed.
Lemma proc_work_same s s' n q : q_headTail s' = q_headTail s -> visibleSeqNum s' = visibleSeqNum s ->
  proc_work s' n q = proc_work s n q.
Proof. intros E E'. unfold proc_work. destruct (p_pc q); cbn; unfold stale_q; by rewrite ?E, ?E'. Qed.

Lemma sync_cost_range q : 0 <= one (bool_decide (p_sync q <> Signalled)) <= 1.
Proof. apply one_range. Qed.

(** The change of the work when the [i]-th goroutine becomes [p']. *)
Lemma work_change s s' i p p' d :
  procs s !! i = Some p -> procs s' = <[i := p']> (procs s) ->
  (forall n q, proc_work s' n q <= proc_work s n q + d) ->
  work s' <= work s + let n := Z.of_nat (length (procs s)) in
    d * n - proc_work s' n p + proc_work s' n p' - (6 * n + 10) * (Z.of_nat (g_tail s') - Z.of_nat (g_tail s))
    - 4 * n * (Z.of_nat (length (g_order s')) - Z.of_nat (length (g_order s))).
Proof.
  intros Hp Ep Hd. unfold work. rewrite Ep, length_insert. set (n := Z.of_nat (length (procs s))).
  rewrite (total_insert _ _ _ _ _ Hp). cbv zeta.
  pose proof (total_le (proc_work s' n) (proc_work s n) d (procs s) (Hd n)) as Ht. fold n in Ht.
  rewrite !Z.mul_sub_distr_l. lia.
Qed.

(** A step that changes only the goroutine. *)
Lemma work_local s s' i p k' y :
  procs s !! i = Some p -> procs s' = <[i := (y <| p_pc := k' |>)]> (procs s) ->
  q_headTail s' = q_headTail s -> visibleSeqNum s' = visibleSeqNum s -> g_tail s' = g_tail s ->
  g_order s' = g_order s -> (p_sync p = Signalled -> p_sync y = Signalled) ->
  (forall n, 0 <= n -> pc_work s n k' < pc_work s n (p_pc p)) -> work s' < work s.
Proof.
  intros Hp Ep E1 E2 E3 E4 Hsy Hlt.
  pose proof (work_change s s' i p _ 0 Hp Ep) as Hw. cbv zeta in Hw. rewrite E3, E4 in Hw.
  set (n := Z.of_nat (length (procs s))) in *. specialize (Hlt n ltac:(lia)).
  rewrite !(proc_work_same s s' n) in Hw by done. unfold proc_work in Hw. cbn [p_pc p_sync set] in Hw.
  assert (one (bool_decide (p_sync y <> Signalled)) <= one (bool_decide (p_sync p <> Signalled))) as Hs.
  { pose proof (sync_cost_range y). case_bool_decide as Ey; cbn; [|pose proof (sync_cost_range p); lia].
    rewrite bool_decide_eq_true_2; [done|]. auto. }
  assert (forall m q, proc_work s' m q <= proc_work s m q + 0) as Hd
    by (intros m q; rewrite (proc_work_same s s' m) by done; lia).
  specialize (Hw Hd). lia.
Qed.

Lemma gstep_work s i p c s' :
  procs s !! i = Some p -> LocalOK p c -> gstep s i p c s' ->
  (forall t cur new, p_pc p = PVisCas t cur new -> cur < new) -> work s' < work s.
Proof.
  intros Hp L G Hcas. pose proof (local_early _ _ L) as (Hsy & _).
  destruct G; try (eapply (work_local s _ i p);
    [done|reflexivity|reflexivity|reflexivity|reflexivity|reflexivity|try done|
     intros ? ?; rewrite H; cbn; unfold stale_q; rewrite ?Z.eqb_refl; try lia; try (destruct (_ =? _); lia)]).
  all: try (intros E; rewrite H in Hsy; rewrite Hsy in E; done).
  - (* PInc *)
    eapply Z.le_lt_trans; [eapply (work_change s _ i p _ 4 Hp); [reflexivity|intros; by apply proc_work_queue]|].
    cbv zeta. cbn [g_tail g_order jump set]. rewrite length_app. unfold proc_work. cbn [p_pc p_sync set].
    rewrite H. cbn [pc_work length]. lia.
  - (* PCas *)
    eapply Z.le_lt_trans; [eapply (work_change s _ i p _ 4 Hp); [reflexivity|intros; by apply proc_work_queue]|].
    cbv zeta. cbn [g_tail g_order jump set]. unfold proc_work. cbn [p_pc p_sync set].
    rewrite H. cbn [pc_work]. match goal with |- context [stale_q ?x ?y] => pose proof (stale_range x y) end. lia.
  - (* PCas, out of date *)
    rewrite (proj2 (Z.eqb_neq _ _)) by done. lia.
  - (* PVisCas *)
    eapply Z.le_lt_trans; [eapply (work_change s _ i p _ 2 Hp); [reflexivity|intros; by apply proc_work_vis]|].
    cbv zeta. cbn [g_tail g_order jump set]. unfold proc_work. cbn [p_pc p_sync set].
    rewrite H. cbn [pc_work]. destruct (_ =? _); lia.
  - rewrite (proj2 (Z.eqb_neq _ _)) by done. lia.
Qed.

Lemma sync_work base bound s i err s' :
  Inv base bound s -> sync_step i err s = Some s' -> work s' < work s.
Proof.
  intros I Hs. destruct (procs s !! i) as [p|] eqn:Hp; [|unfold sync_step in Hs; by rewrite Hp in Hs].
  destruct (heap_proc _ _ _ I _ _ Hp) as [c Hc].
  destruct (sync_step_synced _ _ _ _ _ _ Hp Hc (in_local _ _ _ I _ _ _ Hp Hc) Hs)
    as (Hq & cm & fw & ce & wg & er & -> & _).
  eapply Z.le_lt_trans.
  { eapply (work_change s _ i p _ 0 Hp); [cbn; by rewrite (alter_insert _ _ _ _ Hp)|].
    intros n q. rewrite (proc_work_same s) by done. lia. }
  cbv zeta. cbn [g_tail g_order synced set].
  rewrite !(proc_work_same s (synced i cm fw ce wg er s)) by done.
  unfold proc_work. cbn [p_pc p_sync set]. rewrite Hq.
  rewrite bool_decide_eq_true_2, bool_decide_eq_false_2 by (done || by intros Hx; apply Hx). cbn [one]. lia.
Qed.

Lemma work_nonneg base bound s : Inv base bound s -> 0 <= work s.
Proof.
  intros I. pose proof (oi_tail _ (in_order _ _ _ I)) as Ht.
  assert (Z.of_nat (length (g_order s)) <= Z.of_nat (length (procs s))) as Hlen.
  { assert (forall l : list proc, count (fun _ => true) l = Z.of_nat (length l)) as <-.
    { unfold count. induction l as [|x l IH]; [done|]. simpl length. rewrite Nat2Z.inj_succ, <- IH. cbn [total foldr]. cbn [one].
      unfold total. lia. }
    apply count_ge; [apply I|]. intros j Hj. destruct (oi_dom _ (in_order _ _ _ I) _ Hj) as [q Hq]. eauto. }
  unfold work. set (n := Z.of_nat (length (procs s))) in *.
  assert (0 <= total (proc_work s n) (procs s)); [|nia]. apply total_ge_0. intros q _.
  unfold proc_work. pose proof (sync_cost_range q). assert (0 <= pc_work s n (p_pc q)); [|lia].
  assert (0 <= n) by lia. destruct (p_pc q); cbn; try lia; try (pose proof (stale_range s ptrs); lia).
  destruct (_ =? _); lia.
Qed.

(** [steps s n s']: an execution from [s] to [s'] in which the goroutines and the log take
    [n] steps. *)
Inductive steps s : nat -> commitPipeline -> Prop :=
| steps_nil : steps s 0 s
| steps_go n i s1 s2 : steps s n s1 -> unlapped s1 -> go_step i s1 = Some s2 -> steps s (S n) s2
| steps_sync n i err s1 s2 : steps s n s1 -> unlapped s1 -> sync_step i err s1 = Some s2 -> steps s (S n) s2
| steps_other n k s1 : steps s n s1 -> unlapped s1 -> steps s n (s1 <| env := env_other k (env s1) |>).

Lemma steps_work base e calls n s : Forall call_ok calls -> seq_ok base calls ->
  steps (newCommitPipeline base e calls) n s ->
  reachable base e calls s /\ work s + Z.of_nat n <= work (newCommitPipeline base e calls).
Proof.
  intros Hok Hb H. induction H as [|n i s1 s2 H [Hr IH] Hu Hs|n i err s1 s2 H [Hr IH] Hu Hs|n k s1 H [Hr IH] Hu].
  - split; [constructor|lia].
  - pose proof (reachable_Inv _ _ _ _ Hok Hb Hr) as I. split; [eapply (r_step _ _ _ (EGo i)); done|].
    destruct (procs s1 !! i) as [p|] eqn:Hp; [|unfold go_step in Hs; by rewrite Hp in Hs].
    destruct (heap_proc _ _ _ I _ _ Hp) as [c Hc].
    pose proof (go_step_gstep _ _ _ I (proj2 Hb) Hu _ _ _ Hp Hc _ Hs) as G.
    pose proof (gstep_work _ _ _ _ _ Hp (in_local _ _ _ I _ _ _ Hp Hc) G
      (fun t cur new E => proj2 (vi_cas _ _ (in_vis _ _ _ I) _ _ _ _ _ Hp E))). lia.
  - pose proof (reachable_Inv _ _ _ _ Hok Hb Hr) as I. split; [eapply (r_step _ _ _ (ESync i err)); done|].
    pose proof (sync_work _ _ _ _ _ _ I Hs). lia.
  - split; [by eapply (r_step _ _ _ (EOther k))|].
    by assert (work (s1 <| env := env_other k (env s1) |>) = work s1) as -> by done.
Qed.

Lemma work_new base e calls : let n := Z.of_nat (length calls) in
  work (newCommitPipeline base e calls) = (10 * n + 48) * n.
Proof.
  cbv zeta. unfold work. set (s := newCommitPipeline base e calls).
  assert (length (procs s) = length calls) as -> by (cbn; apply length_fmap).
  change (g_tail s) with 0%nat. change (g_order s) with (@nil nat). simpl length.
  set (n := Z.of_nat (length calls)).
  assert (total (proc_work s n) (procs s) = 38 * n) as ->; [|lia].
  assert (forall l : list (call * Batch), total (proc_work s n) ((fun x => new_proc x.1) <$> l) = 38 * Z.of_nat (length l)) as E.
  { induction l as [|x l IH]; [done|]. rewrite fmap_cons. cbn [total foldr]. unfold total in IH. rewrite IH.
    simpl length. rewrite Nat2Z.inj_succ.
    assert (proc_work s n (new_proc x.1) = 38) as -> by done. lia. }
  apply E.
Qed.

(** C35. Executions are finite: [n] calls take at most [(10 n + 48) n] steps, counting those
    of the log but not the rest of the database, however they are interleaved.  (A
    goroutine that spins takes no step.) *)
Theorem commit_terminates base e calls n s :
  Forall call_ok calls -> seq_ok base calls -> steps (newCommitPipeline base e calls) n s ->
  Z.of_nat n <= (10 * Z.of_nat (length calls) + 48) * Z.of_nat (length calls).
Proof.
  intros Hok Hb H. destruct (steps_work _ _ _ _ _ Hok Hb H) as [Hr Hw].
  pose proof (work_nonneg _ _ _ (reachable_Inv _ _ _ _ Hok Hb Hr)).
  rewrite work_new in Hw. lia.
Qed.
End live.
