(* ===== verification/CommitExamples.v ===== *)
(** Executions of the commit pipeline (Commit.v) in which the theorems about it apply. *)
From S2P Require Import Prelude.
From S2P Require Import SyncQueue.
From S2P Require Import Batch.
From S2P Require Import Commit.
From S2P Require Import CommitFacts.
From S2P Require Import CommitInv.
From S2P Require Import CommitSteps.
From S2P Require Import CommitSpec.
From S2P Require Import CommitLive.

Local Open Scope Z_scope.

(** ** Few calls *)
Section few.
Context {K : BatchSkl} {CE : commitEnv}.
Context (base : Z) (e : Env) (calls : list (call * Batch)).
Context (Hok : Forall call_ok calls) (Hseq : seq_ok base calls) (Hfew : Z.of_nat (length calls) < 2 ^ 32).

Lemma steps_procs n s : steps (newCommitPipeline base e calls) n s -> length (procs s) = length calls.
Proof using Hok Hseq.
  intros H. induction H as [|n i s1 s2 H IH Hu Hs|n i err s1 s2 H IH Hu Hs|n k s1 H IH Hu]; try done.
  - cbn. apply length_fmap.
  - destruct (steps_work _ _ _ _ _ Hok Hseq H) as [Hr _]. pose proof (reachable_Inv _ _ _ _ Hok Hseq Hr) as I.
    destruct (procs s1 !! i) as [p|] eqn:Hp; [|unfold go_step in Hs; by rewrite Hp in Hs].
    destruct (heap_proc _ _ _ I _ _ Hp) as [c Hc].
    destruct (gstep_procs _ _ _ _ _ (go_step_gstep _ _ _ I (proj2 Hseq) Hu _ _ _ Hp Hc _ Hs)) as (p' & -> & _).
    by rewrite length_insert.
  - destruct (steps_work _ _ _ _ _ Hok Hseq H) as [Hr _]. pose proof (reachable_Inv _ _ _ _ Hok Hseq Hr) as I.
    destruct (procs s1 !! i) as [p|] eqn:Hp; [|unfold sync_step in Hs; by rewrite Hp in Hs].
    destruct (heap_proc _ _ _ I _ _ Hp) as [c Hc].
    destruct (sync_step_synced _ _ _ _ _ _ Hp Hc (in_local _ _ _ I _ _ _ Hp Hc) Hs)
      as (_ & cm & fw & ce & wg & er & -> & _). cbn. by rewrite length_alter.
Qed.

(** Fewer than [2 ^ 32] batches are dequeued, so no goroutine is lapped. *)
Lemma few_unlapped n s : steps (newCommitPipeline base e calls) n s -> unlapped s.
Proof using Hok Hseq Hfew.
  intros H. destruct (steps_work _ _ _ _ _ Hok Hseq H) as [Hr _].
  pose proof (reachable_Inv _ _ _ _ Hok Hseq Hr) as I. pose proof (oi_tail _ (in_order _ _ _ I)) as Ht.
  assert (length (g_order s) <= length (procs s))%nat as Hlen.
  { rewrite <- (length_seq (length (procs s)) 0). apply submseteq_length, NoDup_submseteq; [apply I|].
    intros j Hj. destruct (oi_dom _ (in_order _ _ _ I) _ Hj) as [q Hq]. apply elem_of_seq.
    apply lookup_lt_Some in Hq. lia. }
  rewrite (steps_procs _ _ H) in Hlen. intros j q _. destruct (p_pc q); try done. lia.
Qed.

Lemma run_steps es s s' n : steps (newCommitPipeline base e calls) n s ->
  Forall (fun ev => match ev with EOther _ => False | _ => True end) es -> pipeline_run es s = Some s' ->
  steps (newCommitPipeline base e calls) (n + length es) s'.
Proof using Hok Hseq Hfew.
  revert s n. induction es as [|ev es IH]; intros s n Hs Hes Hr.
  - injection Hr as <-. by rewrite Nat.add_0_r.
  - apply Forall_cons in Hes as [Hev Hes]. cbn in Hr.
    destruct (pipeline_step ev s) as [s1|] eqn:E; [|done]. cbn in Hr.
    simpl length. rewrite Nat.add_succ_r. pose proof (few_unlapped _ _ Hs) as Hu.
    apply (IH s1 (S n)); [|done|done]. destruct ev; [by eapply steps_go|by eapply steps_sync|done].
Qed.

Lemma run_reachable es s' : Forall (fun ev => match ev with EOther _ => False | _ => True end) es ->
  pipeline_run es (newCommitPipeline base e calls) = Some s' -> reachable base e calls s'.
Proof using Hok Hseq Hfew.
  intros Hes Hr. eapply (steps_work base e calls _ s' Hok Hseq).
  by eapply run_steps; [apply steps_nil|..].
Qed.
End few.

(** ** An execution *)
#[local] Instance example_skl : BatchSkl := {
  Skiplist := unit; skl_Init := tt; skl_Add _ s _ := Ret (s, None);
}.
(** An environment that remembers the batches it was given. *)
#[local] Instance example_env : commitEnv := {
  Env := list Z;
  MemRef := unit;
  env_apply l b _ := (l ++ [(batch_SeqNum b).2], None);
  env_write l b := (l, Ok tt);
  env_other _ l := l;
}.

Definition example_batch (count : Z) : Batch :=
  (newBatch true) <| b_data := replicate 20 Byte.x00 |> <| b_cap := 1024%nat |> <| b_count := count |>.

(** Two commits, the first with a sync, and an ingestion. *)
Definition example_calls : list (call * Batch) :=
  [(Commit true false, example_batch 2); (Commit false false, example_batch 3);
   (AllocateSeqNum 1 (fun _ e => (e, None)) (fun _ _ e => e) (fun _ e => e), newBatch false)].

(** The second commit is applied first; the first one publishes both.  Then the ingestion
    gets to its callback. *)
Definition example_events : list event :=
  replicate 11 (EGo 0) ++ replicate 16 (EGo 1) ++ replicate 21 (EGo 0) ++ [ESync 0 (Some EOF)] ++
  replicate 3 (EGo 0) ++ replicate 3 (EGo 1) ++ replicate 8 (EGo 2).

Definition example_start : commitPipeline := newCommitPipeline 10 [] example_calls.
Definition example_state : commitPipeline := default example_start (pipeline_run example_events example_start).

Lemma example_ok : Forall call_ok example_calls.
Proof.
  apply Forall_forall. intros x Hx. repeat (apply elem_of_cons in Hx as [->|Hx]);
    [..|by apply elem_of_nil in Hx].
  all: split; [cbn; lia|]; split; [done|]; cbn; lia.
Qed.
Lemma example_seq : seq_ok 10 example_calls.
Proof. split; [lia|]. vm_compute. done. Qed.
Lemma example_few : Z.of_nat (length example_calls) < 2 ^ 32.
Proof. done. Qed.

Lemma example_pipeline_run : pipeline_run example_events example_start = Some example_state.
Proof.
  assert (is_Some (pipeline_run example_events example_start)) as [s Hs].
  { destruct (pipeline_run example_events example_start) eqn:E; [by eexists|].
    exfalso. assert (match pipeline_run example_events example_start with Some _ => true | None => false end = true) as Ht
      by (vm_compute; done). by rewrite E in Ht. }
  unfold example_state. by rewrite Hs.
Qed.

Lemma example_reachable : reachable 10 [] example_calls example_state.
Proof.
  apply (run_reachable _ _ _ example_ok example_seq example_few example_events); [|exact example_pipeline_run].
  apply Forall_forall. intros ev Hev. unfold example_events in Hev.
  repeat (apply elem_of_app in Hev as [Hev|Hev]); try (apply elem_of_replicate in Hev as [-> _]); try done.
  by apply list_elem_of_singleton in Hev as ->.
Qed.

(** What the execution shows: the environment got the second batch first, the first commit
    returned the error of the sync. *)
Example example_result :
  (env example_state, (fun q => match p_pc q with Returned err => Some err | _ => None end) <$> procs example_state,
   g_wal example_state, visibleSeqNum example_state)
  = ([12; 10], [Some (Some EOF); Some None; None], [0; 1]%nat, 15).
Proof. vm_compute. reflexivity. Qed.

(** ** The theorems at this execution *)
Lemma commit_visible_witness :
  nums example_state 1 = Some (12, 15) /\ 1%nat ∈ g_applied example_state /\ 15 <= visibleSeqNum example_state.
Proof.
  assert (nums example_state 1 = Some (12, 15)) as Hn by (vm_compute; reflexivity). split; [exact Hn|].
  apply (commit_visible 10 _ example_calls example_ok example_seq _ _ _ _ example_reachable Hn).
  vm_compute. reflexivity.
Defined.

Lemma commit_log_order_witness : exists sa ea sb eb,
  nums example_state 0 = Some (sa, ea) /\ nums example_state 1 = Some (sb, eb) /\ sa <= ea <= sb.
Proof.
  apply (commit_log_order 10 _ example_calls example_ok example_seq _ 0 1 _ _ example_reachable);
    [lia|vm_compute; reflexivity|vm_compute; reflexivity].
Defined.

(** The first goroutine at the end. *)
Lemma example_returned : exists p, procs example_state !! 0%nat = Some p /\ p_pc p = Returned (Some EOF) /\
  p_call p = Commit true false.
Proof.
  destruct (procs example_state !! 0%nat) as [p|] eqn:E.
  - exists p. split; [exact eq_refl|].
    assert ((fun q => (p_pc q, p_call q)) <$> procs example_state !! 0%nat = Some (Returned (Some EOF), Commit true false))
      as Ht by (vm_compute; reflexivity).
    rewrite E in Ht. injection Ht as H1 H2. exact (conj H1 H2).
  - assert (is_Some (procs example_state !! 0%nat)) as [p Hp] by (vm_compute; eexists; reflexivity). congruence.
Qed.

Lemma commit_returns_witness : exists p c, procs example_state !! 0%nat = Some p /\
  heap example_state !! 0%nat = Some c /\ b_db (cb_batch c) = false /\
  0%nat ∈ g_applied example_state /\
  (exists first next, nums example_state 0 = Some (first, next) /\ next <= visibleSeqNum example_state) /\
  0%nat ∈ g_wal example_state /\ p_sync p = Signalled /\ Some EOF = cb_commitErr c.
Proof.
  destruct example_returned as (p & Hp & Hk & Hc).
  assert (is_Some (heap example_state !! 0%nat)) as [c Hh] by (vm_compute; eexists; reflexivity).
  assert (return_value (p_pc p) = Some (Some EOF)) as Hr by (rewrite Hk; reflexivity).
  destruct (commit_returns 10 _ example_calls example_ok example_seq _ _ _ _ _ example_reachable Hp Hh Hr) as (H0 & H1).
  rewrite Hk, Hc in H1. exists p, c. split; [exact Hp|]. split; [exact Hh|].
  split; [apply H0; discriminate|exact H1].
Defined.

Lemma example_callback : exists p, procs example_state !! 2%nat = Some p /\ in_callback (p_pc p) = true.
Proof.
  destruct (procs example_state !! 2%nat) as [p|] eqn:E.
  - exists p. split; [exact eq_refl|].
    assert ((fun q => in_callback (p_pc q)) <$> procs example_state !! 2%nat = Some true) as Ht by (vm_compute; reflexivity).
    rewrite E in Ht. injection Ht as H1. exact H1.
  - assert (is_Some (procs example_state !! 2%nat)) as [p Hp] by (vm_compute; eexists; reflexivity). congruence.
Qed.

Lemma allocate_prepare_witness : 15 <= visibleSeqNum example_state /\ (12 < 15 -> 1%nat ∈ g_applied example_state).
Proof.
  destruct example_callback as (p & Hp & Hk).
  assert (nums example_state 1 = Some (12, 15)) as Hn by (vm_compute; reflexivity).
  exact (allocate_prepare 10 _ example_calls example_ok example_seq _ _ _ 1 12 15 example_reachable Hp Hk
    ltac:(lia) Hn).
Defined.

Lemma commit_no_panic_witness : exists p, procs example_state !! 0%nat = Some p /\ p_pc p <> Panicked "not reached".
Proof.
  destruct example_returned as (p & Hp & _). exists p. split; [exact Hp|].
  exact (commit_no_panic 10 _ example_calls example_ok example_seq _ _ _ _ example_reachable Hp).
Defined.

Lemma example_not_failed i p : procs example_state !! i = Some p -> failed (p_pc p) = false.
Proof.
  intros Hp. assert (forallb (fun q => negb (failed (p_pc q))) (procs example_state) = true) as Ht
    by (vm_compute; reflexivity).
  apply negb_true_iff. apply (proj1 (forallb_forall _ _) Ht p).
  apply (proj1 (list_elem_of_In _ _)). exact (list_elem_of_lookup_2 _ _ _ Hp).
Qed.

Lemma commit_progress_witness :
  (forall i p, procs example_state !! i = Some p -> returned (p_pc p) = true) \/
  exists i s', go_step i example_state = Some s' \/ sync_step i None example_state = Some s'.
Proof.
  exact (commit_progress 10 _ example_calls _ example_ok example_seq example_reachable example_not_failed).
Defined.

Lemma commit_terminates_witness :
  Z.of_nat (0 + length example_events) <= (10 * Z.of_nat (length example_calls) + 48) * Z.of_nat (length example_calls).
Proof.
  apply (commit_terminates 10 ([] : @Env example_skl example_env) example_calls _ example_state example_ok example_seq).
  apply (run_steps 10 ([] : @Env example_skl example_env) example_calls example_ok example_seq example_few example_events example_start _ 0);
    [apply steps_nil| |exact example_pipeline_run].
  apply Forall_forall. intros ev Hev. unfold example_events in Hev.
  repeat (apply elem_of_app in Hev as [Hev|Hev]); try (apply elem_of_replicate in Hev as [-> _]); try done.
  by apply list_elem_of_singleton in Hev as ->.
Defined.

(** ** A rejected batch keeps its element of the semaphore *)

(** [prepare] returns [ErrInvalidBatch] before the batch is in the queue, and [Commit]
    does not take its element from the channel: nothing ever will. *)
Definition invalid_calls : list (call * Batch) := [(Commit false false, example_batch (2 ^ 32 - 1))].
Example invalid_batch_leak :
  (fun s => ((fun q => match p_pc q with Rejected => true | _ => false end) <$> procs s, commitQueueSem s, g_order s))
    <$> pipeline_run [EGo 0; EGo 0; EGo 0] (newCommitPipeline 10 [] invalid_calls)
  = Some ([true], 1, []).
Proof. vm_compute. reflexivity. Qed.
