(* ===== verification/ValueBlock.v ===== *)
(** Values outside of data blocks (src/sstable/value_block.go, src/internal/base/lazy_value.go):
    the prefix byte of values, handles of values, and lazy values. *)
From S2P Require Import Prelude.
From S2P Require Import Comparer.
From S2P Require Import InternalKey.
From S2P Require Import RangeKey.
From S2P Require Import RangeKeySpec.

Local Open Scope Z_scope.

(** ** Lazy values *)

(** The fetcher itself, a reader of value blocks, is the argument of [LazyValue_Value]; what
    a fetcher remembers of earlier calls is not modelled. *)
Record LazyFetcher := mkLazyFetcher { lf_ValueLen : Z; lf_ShortAttribute : Z }.
Record LazyValue := mkLazyValue { ValueOrHandle : bytes; Fetcher : option LazyFetcher }.

Definition MakeInPlaceValue (val : bytes) : LazyValue := mkLazyValue val None.
Definition InPlaceValue (lv : LazyValue) : bytes := ValueOrHandle lv.
Definition LazyValue_Value (Fetch : bytes -> Z -> result bytes) (lv : LazyValue) : result bytes :=
  match Fetcher lv with
  | None => Ok (ValueOrHandle lv)
  | Some f => Fetch (ValueOrHandle lv) (lf_ValueLen f)
  end.
Definition LazyValue_Len (lv : LazyValue) : Z :=
  match Fetcher lv with
  | None => Z.of_nat (length (ValueOrHandle lv))
  | Some f => lf_ValueLen f
  end.
Definition TryGetShortAttribute (lv : LazyValue) : Z * bool :=
  match Fetcher lv with
  | None => (0, false)
  | Some f => (lf_ShortAttribute f, true)
  end.

(** ** The prefix of a value *)
Definition valueKindMask : Z := 192.
Definition valueKindIsValueHandle : Z := 128.
Definition valueKindIsInPlaceValue : Z := 0.
Definition setHasSameKeyPrefixMask : Z := 32.
Definition userDefinedShortAttributeMask : Z := 7.

Definition makePrefixForValueHandle (setHasSameKeyPrefix : bool) (attribute : Z) : Z :=
  let prefix := Z.lor valueKindIsValueHandle attribute in
  if setHasSameKeyPrefix then Z.lor prefix setHasSameKeyPrefixMask else prefix.
Definition makePrefixForInPlaceValue (setHasSameKeyPrefix : bool) : Z :=
  let prefix := valueKindIsInPlaceValue in
  if setHasSameKeyPrefix then Z.lor prefix setHasSameKeyPrefixMask else prefix.
Definition isValueHandle (b : Z) : bool := Z.land b valueKindMask =? valueKindIsValueHandle.
Definition getShortAttribute (b : Z) : Z := Z.land b userDefinedShortAttributeMask.
Definition setHasSamePrefix (b : Z) : bool := Z.land b setHasSameKeyPrefixMask =? setHasSameKeyPrefixMask.

(** ** Handles *)
Record valueHandle := mkValueHandle { valueLen : Z; blockNum : Z; offsetInBlock : Z }.
Definition valueHandleMaxLen : nat := 5 * 3 + 1.

Definition encodeValueHandle (dst : bytes) (v : valueHandle) : go (bytes * nat) :=
  '(dst, n) ← putUvarint_at dst 0 (valueLen v);
  '(dst, n) ← putUvarint_at dst n (blockNum v);
  putUvarint_at dst n (offsetInBlock v).

(** Reading through a pointer: [Panic] where it leaves the slice. *)
Definition decodeLenFromValueHandle (src : bytes) : go (Z * bytes) :=
  match decodeVarint32 src with
  | Some (v, n) => Ret (v, drop n src)
  | None => Panic "index out of range"
  end.
Definition decodeRemainingValueHandle (src : bytes) : go valueHandle :=
  match decodeVarint32 src with
  | Some (blockNum, n) =>
      match decodeVarint32 (drop n src) with
      | Some (offsetInBlock, _) => Ret (mkValueHandle 0 blockNum offsetInBlock)
      | None => Panic "index out of range"
      end
  | None => Panic "index out of range"
  end.
Definition decodeValueHandle (src : bytes) : go valueHandle :=
  '(valLen, src) ← decodeLenFromValueHandle src;
  vh ← decodeRemainingValueHandle src;
  Ret (mkValueHandle valLen (blockNum vh) (offsetInBlock vh)).

Definition getLazyValueForPrefixAndValueHandle (handle : bytes) : go LazyValue :=
  match handle with
  | [] => Panic "index out of range"
  | prefix :: handle =>
      '(valLen, h) ← decodeLenFromValueHandle handle;
      Ret (mkLazyValue h (Some (mkLazyFetcher (i32 valLen) (getShortAttribute (b2z prefix)))))
  end.

(** ** Bounds of prefixes *)
Record UserKeyPrefixBound := mkUserKeyPrefixBound { ub_Lower : bytes; ub_Upper : bytes }.
Definition UserKeyPrefixBound_IsEmpty (ukb : UserKeyPrefixBound) : bool :=
  (length (ub_Lower ukb) =? 0)%nat && (length (ub_Upper ukb) =? 0)%nat.

(** ** Facts *)
Lemma prefix_handle same attribute :
  0 <= attribute <= 7 ->
  let b := makePrefixForValueHandle same attribute in
  0 <= b < 256 /\ isValueHandle b = true /\ setHasSamePrefix b = same /\ getShortAttribute b = attribute.
Proof.
  intros Ha.
  assert (attribute = 0 \/ attribute = 1 \/ attribute = 2 \/ attribute = 3 \/ attribute = 4 \/ attribute = 5 \/
    attribute = 6 \/ attribute = 7) as Hin by lia.
  clear Ha. destruct same; destruct_or! Hin; subst attribute; vm_compute; intuition congruence.
Qed.
Lemma prefix_in_place same :
  let b := makePrefixForInPlaceValue same in
  0 <= b < 256 /\ isValueHandle b = false /\ setHasSamePrefix b = same.
Proof. destruct same; vm_compute; intuition congruence. Qed.

(** What [encodeValueHandle] writes. *)
Definition enc_handle (v : valueHandle) : bytes :=
  PutUvarint (valueLen v) ++ PutUvarint (blockNum v) ++ PutUvarint (offsetInBlock v).
Record handle_ok (v : valueHandle) : Prop := {
  ho_len : 0 <= valueLen v < 2 ^ 32;
  ho_num : 0 <= blockNum v < 2 ^ 32;
  ho_offset : 0 <= offsetInBlock v < 2 ^ 32;
}.

Lemma decodeValueHandle_enc v rest : handle_ok v -> decodeValueHandle (enc_handle v ++ rest) = Ret v.
Proof.
  intros [Hl Hn Ho]. unfold decodeValueHandle, decodeLenFromValueHandle, enc_handle. rewrite <- !app_assoc.
  rewrite decodeVarint32_Put by lia. rewrite bind_Ret, drop_app_length.
  unfold decodeRemainingValueHandle. rewrite decodeVarint32_Put, drop_app_length by lia.
  rewrite decodeVarint32_Put by lia. rewrite bind_Ret. by destruct v.
Qed.

Lemma encodeValueHandle_enc v dst :
  handle_ok v -> (valueHandleMaxLen <= length dst)%nat ->
  exists dst', encodeValueHandle dst v = Ret (dst', length (enc_handle v)) /\
    take (length (enc_handle v)) dst' = enc_handle v.
Proof.
  intros [Hl Hn Ho] Hd. unfold valueHandleMaxLen in Hd.
  pose proof (length_PutUvarint32 _ Hl) as H1. pose proof (length_PutUvarint32 _ Hn) as H2.
  pose proof (length_PutUvarint32 _ Ho) as H3.
  pose proof (putUvarint_at_ok [] dst (valueLen v) ltac:(lia)) as E1. cbn [app length] in E1.
  unfold encodeValueHandle. rewrite E1, bind_Ret.
  rewrite putUvarint_at_ok, bind_Ret by (rewrite length_drop; lia).
  rewrite putUvarint_at_ok by (rewrite !length_drop; lia). eexists.
  unfold enc_handle. rewrite <- (app_assoc (PutUvarint (valueLen v))). split; [done|].
  by rewrite take_app_length.
Qed.
