(* ===== verification/Block.v ===== *)
(** Blocks of tables (src/sstable/block.go): the writer, which compresses common prefixes of
    keys, and the iterator over a block.

    Memory outside of the block, which the code would read through unsafe pointers if a block
    were malformed, and bytes beyond the length of a buffer are not modelled: reading them is
    a [Panic]. *)
From S2P Require Import Prelude.
From S2P Require Import Comparer.
From S2P Require Import InternalKey.
From S2P Require Import ValueBlock.

Local Open Scope Z_scope.

Fixpoint uvarintLen_loop (fuel : nat) (v : Z) (i : nat) : nat :=
  match fuel with
  | O => i
  | S fuel => if 128 <=? v then uvarintLen_loop fuel (Z.shiftr v 7) (i + 1) else i
  end.
Definition uvarintLen (v : Z) : nat := uvarintLen_loop 4 v 0 + 1.

(** ** The writer *)
Record blockWriter := mkBlockWriter {
  bw_restartInterval : nat;
  bw_nEntries : nat;
  bw_nextRestart : nat;
  bw_buf : bytes;
  bw_restarts : list Z;
  bw_curKey : bytes;
  bw_curValue : bytes;
  bw_prevKey : bytes;
  bw_setHasSameKeyPrefixSinceLastRestart : bool;
}.
#[export] Instance blockWriter_settable : Settable blockWriter := fun w =>
  mkBlockWriter (bw_restartInterval w) (bw_nEntries w) (bw_nextRestart w) (bw_buf w) (bw_restarts w)
    (bw_curKey w) (bw_curValue w) (bw_prevKey w) (bw_setHasSameKeyPrefixSinceLastRestart w).

Definition newBlockWriter (restartInterval : nat) : blockWriter :=
  mkBlockWriter restartInterval 0 0 [] [] [] [] [] false.
Definition blockWriter_clear (w : blockWriter) : blockWriter := newBlockWriter 0.

Definition MaximumBlockSize : Z := Z.shiftl 1 28.
Definition setHasSameKeyPrefixRestartMask : Z := Z.shiftl 1 31.
Definition restartMaskWithoutSetHasSamePrefix : Z := 127.
Definition restartMaskOnlySetHasSamePrefix : Z := 128.

(** The bit of obsolete keys is set when a block is written and removed when it is read. *)
Definition trailerObsoleteBit : Z := InternalKeyKindSSTableInternalObsoleteBit.
Definition trailerObsoleteMask : Z :=
  Z.lor (Z.shiftl InternalKeySeqNumMax 8) InternalKeyKindSSTableInternalObsoleteMask.

Definition getCurKey (w : blockWriter) : InternalKey :=
  let k := DecodeInternalKey (bw_curKey w) in
  mkInternalKey (UserKey k) (Z.land (Trailer k) trailerObsoleteMask).
Definition getCurUserKey (w : blockWriter) : go bytes :=
  if (length (bw_curKey w) <? InternalTrailerLen)%nat then Panic "corrupt key in blockWriter buffer"
  else Ret (take (length (bw_curKey w) - InternalTrailerLen) (bw_curKey w)).

(** The loops that find how much the current key shares with the previous one, at most [n],
    which is not more than the length of the previous key. *)
Fixpoint shareWords (fuel n : nat) (cur prev : bytes) (shared : nat) : go nat :=
  match fuel with
  | O => Ret shared
  | S fuel =>
      if (shared + 7 <? n)%nat then
        if (length cur <? shared + 8)%nat then Panic "index out of range"
        else if Uint64 (drop shared cur) =? Uint64 (drop shared prev)
        then shareWords fuel n cur prev (shared + 8)
        else Ret shared
      else Ret shared
  end.
Fixpoint shareBytes (fuel n : nat) (cur prev : bytes) (shared : nat) : go nat :=
  match fuel with
  | O => Ret shared
  | S fuel =>
      if (shared <? n)%nat then
        if (length cur <=? shared)%nat then Panic "index out of range"
        else if bool_decide (cur !! shared = prev !! shared)
        then shareBytes fuel n cur prev (S shared)
        else Ret shared
      else Ret shared
  end.

Definition storeWithOptionalValuePrefix (w : blockWriter) (keySize : nat) (value : bytes)
    (maxSharedKeyLen : nat) (addValuePrefix : bool) (valuePrefix : Z) (setHasSameKeyPrefix : bool) :
    go blockWriter :=
  let w := if negb setHasSameKeyPrefix then w <| bw_setHasSameKeyPrefixSinceLastRestart := false |> else w in
  '(w, shared) ←
    (if (bw_nEntries w =? bw_nextRestart w)%nat then
       let restart := u32 (Z.of_nat (length (bw_buf w))) in
       let restart := if bw_setHasSameKeyPrefixSinceLastRestart w
                      then Z.lor restart setHasSameKeyPrefixRestartMask else restart in
       Ret (w <| bw_nextRestart := (bw_nEntries w + bw_restartInterval w)%nat |>
              <| bw_setHasSameKeyPrefixSinceLastRestart := true |>
              <| bw_restarts := bw_restarts w ++ [restart] |>, O)
     else
       let n := if (length (bw_prevKey w) <? maxSharedKeyLen)%nat then length (bw_prevKey w) else maxSharedKeyLen in
       shared ← shareWords n n (bw_curKey w) (bw_prevKey w) 0;
       shared ← shareBytes n n (bw_curKey w) (bw_prevKey w) shared;
       Ret (w, shared));
  let lenValuePlusOptionalPrefix := (if addValuePrefix then length value + 1 else length value)%nat in
  let buf := bw_buf w ++ PutUvarint (u32 (Z.of_nat shared))
    ++ PutUvarint (u32 (Z.of_nat keySize - Z.of_nat shared))
    ++ PutUvarint (u32 (Z.of_nat lenValuePlusOptionalPrefix))
    ++ drop shared (bw_curKey w)
    ++ (if addValuePrefix then [z2b valuePrefix] else [])
    ++ value in
  Ret (w <| bw_buf := buf |> <| bw_curValue := value |> <| bw_nEntries := S (bw_nEntries w) |>).

(** The buffer for the key is reused; [Encode] overwrites all of it. *)
Definition addWithOptionalValuePrefix (w : blockWriter) (key : InternalKey) (isObsolete : bool) (value : bytes)
    (maxSharedKeyLen : nat) (addValuePrefix : bool) (valuePrefix : Z) (setHasSameKeyPrefix : bool) :
    go blockWriter :=
  let size := Size key in
  let key := if isObsolete then mkInternalKey (UserKey key) (Z.lor (Trailer key) trailerObsoleteBit) else key in
  curKey ← Encode key (replicate size Byte.x00);
  storeWithOptionalValuePrefix (w <| bw_prevKey := bw_curKey w |> <| bw_curKey := curKey |>)
    size value maxSharedKeyLen addValuePrefix valuePrefix setHasSameKeyPrefix.

Definition blockWriter_add (w : blockWriter) (key : InternalKey) (value : bytes) : go blockWriter :=
  addWithOptionalValuePrefix w key false value (length (UserKey key)) false 0 false.

Definition blockWriter_finish (w : blockWriter) : blockWriter * bytes :=
  let restarts := if (bw_nEntries w =? 0)%nat then [0] else bw_restarts w in
  let result := bw_buf w ++ concat (PutUint32 <$> restarts) ++ PutUint32 (u32 (Z.of_nat (length restarts))) in
  (w <| bw_nEntries := O |> <| bw_nextRestart := O |> <| bw_buf := [] |> <| bw_restarts := [] |>, result).

Definition emptyBlockSize : nat := 4.
Definition blockWriter_estimatedSize (w : blockWriter) : nat :=
  (length (bw_buf w) + 4 * length (bw_restarts w) + emptyBlockSize)%nat.

(** ** The iterator *)
Record blockEntry := mkBlockEntry {
  be_offset : Z;
  be_keyStart : Z;
  be_keyEnd : Z;
  be_valStart : Z;
  be_valSize : Z;
}.

(** [bi_valStart] is where [val] points to in the block.  [vbr] is the reader of value
    blocks, of which the iterator only asks whether there is one. *)
Record blockIter := mkBlockIter {
  bi_offset : Z;
  bi_nextOffset : Z;
  bi_restarts : Z;
  bi_numRestarts : Z;
  bi_globalSeqNum : Z;
  bi_data : bytes;
  bi_key : bytes;
  bi_fullKey : bytes;
  bi_val : bytes;
  bi_valStart : Z;
  bi_lazyValue : LazyValue;
  bi_ikey : InternalKey;
  bi_cached : list blockEntry;
  bi_cachedBuf : bytes;
  bi_firstUserKey : bytes;
  bi_vbr : bool;
  bi_hasValuePrefix : bool;
  bi_hideObsoletePoints : bool;
}.
#[export] Instance blockIter_settable : Settable blockIter := fun i =>
  mkBlockIter (bi_offset i) (bi_nextOffset i) (bi_restarts i) (bi_numRestarts i) (bi_globalSeqNum i) (bi_data i)
    (bi_key i) (bi_fullKey i) (bi_val i) (bi_valStart i) (bi_lazyValue i) (bi_ikey i) (bi_cached i) (bi_cachedBuf i)
    (bi_firstUserKey i) (bi_vbr i) (bi_hasValuePrefix i) (bi_hideObsoletePoints i).

(** A zero [blockIter]; the table's iterators set the two fields for lazy values. *)
Definition zeroBlockIter (vbr hasValuePrefix : bool) : blockIter :=
  mkBlockIter 0 0 0 0 0 [] [] [] [] 0 (mkLazyValue [] None) (mkInternalKey [] 0) [] [] [] vbr hasValuePrefix false.

(** Reading the block. *)
Definition byte_at (data : bytes) (p : Z) : go Z :=
  if p <? 0 then Panic "read outside of the block" else
  match data !! Z.to_nat p with
  | Some b => Ret (b2z b)
  | None => Panic "read outside of the block"
  end.
Definition varint_at (data : bytes) (p : Z) : go (Z * Z) :=
  if p <? 0 then Panic "read outside of the block" else
  match decodeVarint32 (drop (Z.to_nat p) data) with
  | Some (v, n) => Ret (v, p + Z.of_nat n)
  | None => Panic "read outside of the block"
  end.
Definition getBytes (data : bytes) (p length_ : Z) : go bytes :=
  if (p <? 0) || (length_ <? 0) || (Z.of_nat (length data) <? p + length_) then Panic "read outside of the block"
  else Ret (slice data (Z.to_nat p) (Z.to_nat (p + length_))).

(** A varint that is skipped: its size. *)
Fixpoint skip_len (k : nat) (l : bytes) : option nat :=
  match k with
  | O => Some 1%nat
  | S k => match l with
           | [] => None
           | a :: l => if b2z a <? 128 then Some 1%nat else S <$> skip_len k l
           end
  end.
Definition skip_varint (data : bytes) (p : Z) : go Z :=
  if p <? 0 then Panic "read outside of the block" else
  match skip_len 4 (drop (Z.to_nat p) data) with
  | Some n => Ret (p + Z.of_nat n)
  | None => Panic "read outside of the block"
  end.

(** [data[p:]] *)
Definition data_from (data : bytes) (p : Z) : go bytes :=
  if (0 <=? p) && (p <=? Z.of_nat (length data)) then Ret (drop (Z.to_nat p) data)
  else Panic "slice bounds out of range".
Definition decodeRestart (b : bytes) : go Z :=
  match b with
  | b0 :: b1 :: b2 :: b3 :: _ =>
      Ret (i32 (Z.lor (Z.lor (Z.lor (b2z b0) (Z.shiftl (b2z b1) 8)) (Z.shiftl (b2z b2) 16))
        (Z.shiftl (Z.land (b2z b3) restartMaskWithoutSetHasSamePrefix) 24)))
  | _ => Panic "index out of range"
  end.
Definition restart_offset (i : blockIter) (h : Z) : go Z :=
  b ← data_from (bi_data i) (i32 (bi_restarts i + 4 * h)); decodeRestart b.

Definition clearCache (i : blockIter) : blockIter := i <| bi_cached := [] |> <| bi_cachedBuf := [] |>.

Definition blockIter_valid (i : blockIter) : bool := (0 <=? bi_offset i) && (bi_offset i <? bi_restarts i).

(** The first [n] bytes are the user key; what remains of a key that is too short is
    not looked at. *)
Definition userKey_of (s : bytes) : option bytes :=
  if (8 <=? length s)%nat then Some (take (length s - 8) s) else None.

Definition readFirstKey (i : blockIter) : go (blockIter * option error) :=
  shared ← byte_at (bi_data i) 0;
  if negb (shared =? 0) then Panic "first key in block must have zero shared length" else
  '(unshared, ptr) ← varint_at (bi_data i) 1;
  ptr ← skip_varint (bi_data i) ptr;
  firstKey ← getBytes (bi_data i) ptr unshared;
  match userKey_of firstKey with
  | Some k => Ret (i <| bi_firstUserKey := k |>, None)
  | None => Ret (i <| bi_firstUserKey := [] |>, Some (New "pebble/table: invalid firstKey in block"))
  end.

Definition blockIter_init (i : blockIter) (block : bytes) (globalSeqNum : Z) (hideObsoletePoints : bool) :
    go (blockIter * option error) :=
  b ← data_from block (Z.of_nat (length block) - 4);
  let numRestarts := i32 (Uint32 b) in
  if numRestarts =? 0 then Ret (i, Some (New "pebble/table: invalid table (block has no restart points)")) else
  let i := i <| bi_restarts := i32 (i32 (Z.of_nat (length block)) - 4 * (1 + numRestarts)) |>
             <| bi_numRestarts := numRestarts |> <| bi_globalSeqNum := globalSeqNum |>
             <| bi_data := block |> <| bi_fullKey := [] |> <| bi_val := [] |>
             <| bi_hideObsoletePoints := hideObsoletePoints |> in
  let i := clearCache i in
  if 0 <? bi_restarts i then readFirstKey i else Ret (i <| bi_firstUserKey := [] |>, None).

Definition blockIter_invalidate (i : blockIter) : blockIter :=
  clearCache i <| bi_offset := 0 |> <| bi_nextOffset := 0 |> <| bi_restarts := 0 |>
    <| bi_numRestarts := 0 |> <| bi_data := [] |>.
Definition isDataInvalidated (i : blockIter) : bool := match bi_data i with [] => true | _ => false end.
Definition blockIter_resetForReuse (i : blockIter) : blockIter := zeroBlockIter false false.
Definition getFirstUserKey (i : blockIter) : bytes := bi_firstUserKey i.

(** The three lengths at the start of an entry, and where its key starts. *)
Definition entry_header (data : bytes) (offset : Z) : go (Z * Z * Z * Z) :=
  '(shared, ptr) ← varint_at data offset;
  '(unshared, ptr) ← varint_at data ptr;
  '(value, ptr) ← varint_at data ptr;
  Ret (shared, unshared, value, ptr).

(** Assembles the key from the part it shares with [fullKey] and the rest. *)
Definition load_entry (i : blockIter) (shared unshared value ptr : Z) : go blockIter :=
  unsharedKey ← getBytes (bi_data i) ptr unshared;
  if Z.of_nat (length (bi_fullKey i)) <? shared then Panic "slice bounds out of range" else
  let fullKey := take (Z.to_nat shared) (bi_fullKey i) ++ unsharedKey in
  val ← getBytes (bi_data i) (ptr + unshared) value;
  Ret (i <| bi_fullKey := fullKey |> <| bi_key := (if shared =? 0 then unsharedKey else fullKey) |>
         <| bi_val := val |> <| bi_valStart := ptr + unshared |>).

Definition readEntry (i : blockIter) : go blockIter :=
  '(shared, unshared, value, ptr) ← entry_header (bi_data i) (bi_offset i);
  i ← load_entry i shared unshared value ptr;
  Ret (i <| bi_nextOffset := i32 (i32 (ptr + unshared) + i32 value) |>).

Definition decodeInternalKey (i : blockIter) (key : bytes) : blockIter * bool :=
  if (8 <=? length key)%nat then
    let n := (length key - 8)%nat in
    let trailer := Uint64 (drop n key) in
    let hiddenPoint := bi_hideObsoletePoints i && negb (Z.land trailer trailerObsoleteBit =? 0) in
    let ikey := mkInternalKey (take n key) (Z.land trailer trailerObsoleteMask) in
    let ikey := if negb (bi_globalSeqNum i =? 0) then SetSeqNum ikey (bi_globalSeqNum i) else ikey in
    (i <| bi_ikey := ikey |>, hiddenPoint)
  else (i <| bi_ikey := mkInternalKey [] InternalKeyKindInvalid |>, false).

Definition cacheEntry (i : blockIter) : blockIter :=
  let valSize := i32 (Z.of_nat (length (bi_val i))) in
  let valStart := if 0 <? valSize then i32 (bi_valStart i) else 0 in
  i <| bi_cached := bi_cached i ++
         [mkBlockEntry (bi_offset i) (i32 (Z.of_nat (length (bi_cachedBuf i))))
            (i32 (Z.of_nat (length (bi_cachedBuf i) + length (bi_key i)))) valStart valSize] |>
    <| bi_cachedBuf := bi_cachedBuf i ++ bi_key i |>.

(** What a positioning call returns. *)
Definition lazy_entry : Type := InternalKey * LazyValue.
Definition block_result : Type := blockIter * option lazy_entry.

(** The value of an entry: with value prefixes, values of SETs have one. *)
Definition lazyValue_of (hasValuePrefix vbr : bool) (trailer : Z) (val : bytes) : go LazyValue :=
  if negb hasValuePrefix || negb (TrailerKind trailer =? InternalKeyKindSet)
  then Ret (MakeInPlaceValue val)
  else
    match val with
    | [] => Panic "index out of range"
    | prefix :: rest =>
        if negb vbr || negb (isValueHandle (b2z prefix)) then Ret (MakeInPlaceValue rest)
        else getLazyValueForPrefixAndValueHandle val
    end.
(** Sets [lazyValue] for the current entry and returns it. *)
Definition returnEntry (i : blockIter) : go block_result :=
  lv ← lazyValue_of (bi_hasValuePrefix i) (bi_vbr i) (Trailer (bi_ikey i)) (bi_val i);
  let i := i <| bi_lazyValue := lv |> in
  Ret (i, Some (bi_ikey i, bi_lazyValue i)).

(** ** Positioning *)

(** Every entry has at least three bytes. *)
Definition block_fuel (i : blockIter) : nat := S (length (bi_data i)).

(** The inlined [sort.Search]: the first index at which [less] is false. *)
Fixpoint search (fuel : nat) (less : Z -> go bool) (index upper : Z) : go Z :=
  if index <? upper then
    match fuel with
    | O => Panic "unreachable"
    | S fuel =>
        let h := i32 (Z.shiftr (u64 (i32 (index + upper))) 1) in
        b ← less h;
        if b : bool then search fuel less (i32 (h + 1)) upper else search fuel less index h
    end
  else Ret index.

(** The first restart point at or after an offset. *)
Definition search_offset (i : blockIter) (targetOffset : Z) : go Z :=
  search (Z.to_nat (bi_numRestarts i))
    (fun h => offset ← restart_offset i h; Ret (offset <? targetOffset)) 0 (bi_numRestarts i).

Fixpoint next_loop (fuel : nat) (i : blockIter) : go block_result :=
  match fuel with
  | O => Panic "unreachable"
  | S fuel =>
      let i := i <| bi_offset := bi_nextOffset i |> in
      if negb (blockIter_valid i) then Ret (i, None) else
      i ← readEntry i;
      let '(i, hiddenPoint) := decodeInternalKey i (bi_key i) in
      if hiddenPoint : bool then next_loop fuel i else returnEntry i
  end.
Definition blockIter_Next (i : blockIter) : go block_result :=
  let i := if (0 <? length (bi_cachedBuf i))%nat then clearCache (i <| bi_fullKey := bi_key i |>) else i in
  next_loop (block_fuel i) i.

(** The loop of [Prev] over the cached entries, of which [n] are left. *)
Fixpoint prev_cached (n : nat) (i : blockIter) : go block_result :=
  match n with
  | O => Ret (i, None)
  | S n =>
      match bi_cached i !! n with
      | None => Panic "index out of range"
      | Some e =>
          let i := i <| bi_nextOffset := bi_offset i |> <| bi_offset := be_offset e |> in
          val ← getBytes (bi_data i) (be_valStart e) (be_valSize e);
          key ← getBytes (bi_cachedBuf i) (be_keyStart e) (be_keyEnd e - be_keyStart e);
          let i := i <| bi_val := val |> <| bi_valStart := be_valStart e |> <| bi_key := key |> in
          let '(i', hiddenPoint) := decodeInternalKey i key in
          if hiddenPoint : bool then prev_cached n i
          else returnEntry (i' <| bi_cached := take n (bi_cached i') |>)
      end
  end.
(** Reads and caches the entries up to the one before [targetOffset]. *)
Fixpoint cache_until (fuel : nat) (i : blockIter) (targetOffset : Z) : go blockIter :=
  if bi_nextOffset i <? targetOffset then
    match fuel with
    | O => Panic "unreachable"
    | S fuel =>
        let i := cacheEntry i in
        i ← readEntry (i <| bi_offset := bi_nextOffset i |>);
        cache_until fuel i targetOffset
    end
  else Ret i.
Fixpoint prev_loop (fuel : nat) (i : blockIter) : go block_result :=
  match fuel with
  | O => Panic "unreachable"
  | S fuel =>
      '(i, r) ← prev_cached (length (bi_cached i)) i;
      match r with
      | Some _ => Ret (i, r)
      | None =>
          let i := clearCache i in
          if bi_offset i <=? 0 then Ret (i <| bi_offset := -1 |> <| bi_nextOffset := 0 |>, None) else
          let targetOffset := bi_offset i in
          index ← search_offset i targetOffset;
          offset ← (if 0 <? index then restart_offset i (index - 1) else Ret 0);
          i ← readEntry (i <| bi_offset := offset |>);
          i ← cache_until (block_fuel i) i targetOffset;
          let '(i, hiddenPoint) := decodeInternalKey i (bi_key i) in
          if hiddenPoint : bool then prev_loop fuel i else returnEntry i
      end
  end.
Definition blockIter_Prev (i : blockIter) : go block_result := prev_loop (block_fuel i) i.

Definition blockIter_First (i : blockIter) : go block_result :=
  let i := i <| bi_offset := 0 |> in
  if negb (blockIter_valid i) then Ret (i, None) else
  i ← readEntry (clearCache i);
  let '(i, hiddenPoint) := decodeInternalKey i (bi_key i) in
  if hiddenPoint : bool then blockIter_Next i else returnEntry i.

Definition blockIter_Last (i : blockIter) : go block_result :=
  offset ← restart_offset i (bi_numRestarts i - 1);
  let i := i <| bi_offset := offset |> in
  if negb (blockIter_valid i) then Ret (i, None) else
  i ← readEntry i;
  i ← cache_until (block_fuel i) (clearCache i) (bi_restarts i);
  let '(i, hiddenPoint) := decodeInternalKey i (bi_key i) in
  if hiddenPoint : bool then blockIter_Prev i else returnEntry i.

Section seek.
Context {C : Comparer}.

(** The user key at a restart point, where nothing is shared. *)
Definition restart_userKey (i : blockIter) (h : Z) : go bytes :=
  offset ← restart_offset i h;
  '(v1, ptr) ← varint_at (bi_data i) (i32 (offset + 1));
  ptr ← skip_varint (bi_data i) ptr;
  s ← getBytes (bi_data i) ptr v1;
  Ret (default [] (userKey_of s)).
(** The first restart point whose user key is not before the key. *)
Definition search_userKey (i : blockIter) (key : bytes) : go Z :=
  search (Z.to_nat (bi_numRestarts i))
    (fun h => k ← restart_userKey i h; Ret (bool_decide (Compare key k = Gt))) 0 (bi_numRestarts i).

Definition not_before (i : blockIter) (key : bytes) : bool :=
  bool_decide (Compare (UserKey (bi_ikey i)) key <> Lt).

Fixpoint seekGE_loop (fuel : nat) (i : blockIter) (key : bytes) : go block_result :=
  match fuel with
  | O => Panic "unreachable"
  | S fuel =>
      '(i, _) ← blockIter_Next i;
      if negb (blockIter_valid i) then Ret (i, None)
      else if not_before i key then Ret (i, Some (bi_ikey i, bi_lazyValue i))
      else seekGE_loop fuel i key
  end.
Definition blockIter_SeekGE (i : blockIter) (key : bytes) : go block_result :=
  let i := clearCache i <| bi_offset := 0 |> in
  index ← search_userKey i key;
  offset ← (if 0 <? index then restart_offset i (index - 1) else Ret 0);
  i ← readEntry (i <| bi_offset := offset |>);
  let '(i, hiddenPoint) := decodeInternalKey i (bi_key i) in
  if negb (blockIter_valid i) then Ret (i, None)
  else if negb hiddenPoint && not_before i key then returnEntry i
  else seekGE_loop (block_fuel i) i key.

Definition blockIter_SeekPrefixGE (i : blockIter) (prefix key : bytes) : go block_result :=
  Panic "pebble: SeekPrefixGE unimplemented".

Fixpoint seekLT_loop (fuel : nat) (i : blockIter) (key : bytes) (targetOffset : Z) : go block_result :=
  match fuel with
  | O => Panic "unreachable"
  | S fuel =>
      i ← readEntry (i <| bi_offset := bi_nextOffset i |>);
      let '(i, hiddenPoint) := decodeInternalKey i (bi_key i) in
      if not_before i key then blockIter_Prev i
      else if targetOffset <=? bi_nextOffset i then
        if hiddenPoint : bool then blockIter_Prev i
        else if negb (blockIter_valid i) then Ret (i, None) else returnEntry i
      else seekLT_loop fuel (cacheEntry i) key targetOffset
  end.
Definition blockIter_SeekLT (i : blockIter) (key : bytes) : go block_result :=
  let i := clearCache i <| bi_offset := 0 |> in
  index ← search_userKey i key;
  if 0 <? index then
    offset ← restart_offset i (index - 1);
    targetOffset ← (if index <? bi_numRestarts i then restart_offset i index else Ret (bi_restarts i));
    seekLT_loop (block_fuel i) (i <| bi_offset := offset |> <| bi_nextOffset := offset |>) key targetOffset
  else Ret (i <| bi_offset := -1 |> <| bi_nextOffset := 0 |>, None).

(** ** To the next prefix *)
Definition nextsBeforeSeek : nat := 3.
(** [j] is the number of the call of [Next] that returned [r]. *)
Fixpoint nextPrefix_loop (n : nat) (i : blockIter) (r : option lazy_entry) (succKey : bytes) : go block_result :=
  match r with
  | None => Ret (i, None)
  | Some (k, v) =>
      if bool_decide (Compare (UserKey k) succKey = Lt) then
        match n with
        | O => blockIter_SeekGE i succKey
        | S n => '(i, r) ← blockIter_Next i; nextPrefix_loop n i r succKey
        end
      else Ret (i, r)
  end.

Definition nextCmpThresholdBeforeSeek : nat := 3.
Definition nextFastThresholdBeforeRestarts : nat := 16.

(** Skips the restart points whose keys all have the same prefix since the last one. *)
Fixpoint skip_restarts (fuel : nat) (i : blockIter) (index : Z) : go Z :=
  if index =? bi_numRestarts i then Ret index else
  match fuel with
  | O => Panic "unreachable"
  | S fuel =>
      b ← byte_at (bi_data i) (i32 (bi_restarts i + 4 * index + 3));
      if Z.land b restartMaskOnlySetHasSamePrefix =? 0 then Ret index
      else skip_restarts fuel i (i32 (index + 1))
  end.
(** Moves to the last restart point that has the same prefix, if it is beyond the current
    entry; the first result is the iterator. *)
Definition use_restarts (i : blockIter) : go blockIter :=
  index ← search_offset i (bi_offset i);
  if index =? bi_numRestarts i then Ret i else
  last ← skip_restarts (Z.to_nat (bi_numRestarts i)) i index;
  if last =? index then Ret i else
  offset ← restart_offset i (last - 1);
  readEntry (i <| bi_offset := offset |>).

(** The loop of [nextPrefixV3]; no result if it is left for [SeekGE]. *)
Fixpoint nextPrefixV3_loop (fuel : nat) (i : blockIter) (succKey : bytes) (nextCmpCount nextFastCount : nat)
    (usedRestarts prevKeyIsSet : bool) : go (blockIter * option (option lazy_entry)) :=
  match fuel with
  | O => Panic "unreachable"
  | S fuel =>
      let i := i <| bi_offset := bi_nextOffset i |> in
      if negb (blockIter_valid i) then Ret (i, Some None) else
      '(shared, unshared, value, ptr) ← entry_header (bi_data i) (bi_offset i);
      let valuePtr := ptr + unshared in
      let i := i <| bi_nextOffset := i32 (i32 valuePtr + i32 value) |> in
      keyKind ← byte_at (bi_data i) (ptr + u32 (unshared - 8));
      let isSet := Z.land keyKind InternalKeyKindSSTableInternalObsoleteMask =? InternalKeyKindSet in
      samePrefix ← (if isSet then valPrefix ← byte_at (bi_data i) valuePtr; Ret (setHasSamePrefix valPrefix)
                    else Ret false);
      if samePrefix : bool then
        let nextFastCount := S nextFastCount in
        if (nextFastThresholdBeforeRestarts <? nextFastCount)%nat then
          if usedRestarts then Ret (i, None)
          else i ← use_restarts i; nextPrefixV3_loop fuel i succKey nextCmpCount 0 true prevKeyIsSet
        else nextPrefixV3_loop fuel i succKey nextCmpCount nextFastCount usedRestarts prevKeyIsSet
      else
        let prefixChanged := isSet && prevKeyIsSet in
        let prevKeyIsSet := isSet && prevKeyIsSet in
        i ← load_entry i shared unshared value ptr;
        let '(i, hiddenPoint) := decodeInternalKey i (bi_key i) in
        let nextCmpCount := S nextCmpCount in
        if prefixChanged || not_before i succKey then
          if hiddenPoint : bool then '(i, r) ← blockIter_Next i; Ret (i, Some r)
          else '(i, r) ← returnEntry i; Ret (i, Some r)
        else if (nextCmpThresholdBeforeSeek <=? nextCmpCount)%nat then Ret (i, None)
        else nextPrefixV3_loop fuel i succKey nextCmpCount nextFastCount usedRestarts prevKeyIsSet
  end.
Definition nextPrefixV3 (i : blockIter) (succKey : bytes) : go block_result :=
  let prevKeyIsSet := Kind (bi_ikey i) =? InternalKeyKindSet in
  '(i, r) ← nextPrefixV3_loop (block_fuel i) i succKey 0 0 false prevKeyIsSet;
  match r with
  | Some r => Ret (i, r)
  | None => blockIter_SeekGE i succKey
  end.
Definition blockIter_NextPrefix (i : blockIter) (succKey : bytes) : go block_result :=
  if bi_hasValuePrefix i then nextPrefixV3 i succKey else
  '(i, r) ← blockIter_Next i; nextPrefix_loop (nextsBeforeSeek - 1) i r succKey.
End seek.

Definition blockIter_SetBounds (i : blockIter) (lower upper : option bytes) : go blockIter :=
  Panic "pebble: SetBounds unimplemented".
Definition blockIter_Error (i : blockIter) : option error := None.
Definition blockIter_Close (i : blockIter) : blockIter :=
  i <| bi_val := [] |> <| bi_lazyValue := mkLazyValue [] None |> <| bi_vbr := false |>.
