(* ===== verification/BlockFormat.v ===== *)
(** The format of blocks (Block.v): the entries and restart points a block consists of, and
    that the writer produces them. *)
From S2P Require Import Prelude.
From S2P Require Import Comparer.
From S2P Require Import InternalKey.
From S2P Require Import ValueBlock.
From S2P Require Import Block.

Local Open Scope Z_scope.

(** ** Entries *)

(** An entry of a block: how much of its key it shares with the key before, the encoded
    internal key, and the value with its prefix. *)
Record item := mkItem { x_shared : nat; x_key : bytes; x_val : bytes }.

Definition item_header (x : item) : bytes :=
  PutUvarint (Z.of_nat (x_shared x)) ++ PutUvarint (Z.of_nat (length (x_key x) - x_shared x))
    ++ PutUvarint (Z.of_nat (length (x_val x))).
Definition enc_item (x : item) : bytes := item_header x ++ drop (x_shared x) (x_key x) ++ x_val x.
Definition enc_items (xs : list item) : bytes := concat (enc_item <$> xs).
Definition off (xs : list item) (j : nat) : nat := length (enc_items (take j xs)).

(** A restart point: the number of its entry, and whether all entries since the one before
    are SETs with the prefix of the entry before them. *)
Abbreviation restart := (nat * bool)%type.
Definition restart_word (xs : list item) (r : restart) : Z :=
  Z.of_nat (off xs r.1) + (if r.2 then 2 ^ 31 else 0).
Definition enc_restarts (xs : list item) (rs : list restart) : bytes :=
  concat (PutUint32 <$> (restart_word xs <$> rs)).
Definition block_bytes (xs : list item) (rs : list restart) : bytes :=
  enc_items xs ++ enc_restarts xs rs ++ PutUint32 (Z.of_nat (length rs)).

(** What is true of every block the writer produces, except an empty one. *)
Record items_wf (xs : list item) : Prop := {
  bf_shared j x : xs !! j = Some x -> (x_shared x + 8 <= length (x_key x))%nat;
  bf_first x : xs !! 0%nat = Some x -> x_shared x = 0%nat;
  bf_next j x y : xs !! j = Some x -> xs !! S j = Some y ->
    (x_shared y <= length (x_key x))%nat /\ take (x_shared y) (x_key y) = take (x_shared y) (x_key x);
}.
Record restarts_wf (xs : list item) (rs : list restart) : Prop := {
  bf_restart0 : exists f, rs !! 0%nat = Some (0%nat, f);
  bf_increasing h h' r r' : rs !! h = Some r -> rs !! h' = Some r' -> (h < h')%nat -> (r.1 < r'.1)%nat;
  bf_restart h r : rs !! h = Some r -> exists x, xs !! r.1 = Some x /\ x_shared x = 0%nat;
}.
Record block_wf (xs : list item) (rs : list restart) : Prop := {
  bf_items :> items_wf xs;
  bf_restarts :> restarts_wf xs rs;
  bf_size : Z.of_nat (length (block_bytes xs rs)) < 2 ^ 31;
  bf_keys : Z.of_nat (sum_list (length <$> (x_key <$> xs))) < 2 ^ 31;
}.

(** ** Offsets *)
Lemma enc_items_app xs ys : enc_items (xs ++ ys) = enc_items xs ++ enc_items ys.
Proof. unfold enc_items. by rewrite fmap_app, concat_app. Qed.
Lemma enc_items_cons x xs : enc_items (x :: xs) = enc_item x ++ enc_items xs.
Proof. done. Qed.

Lemma length_item_header x : (3 <= length (item_header x))%nat.
Proof.
  unfold item_header. rewrite !length_app. pose proof (length_PutUvarint (Z.of_nat (x_shared x))).
  pose proof (length_PutUvarint (Z.of_nat (length (x_key x) - x_shared x))).
  pose proof (length_PutUvarint (Z.of_nat (length (x_val x)))). lia.
Qed.
Lemma length_enc_item x :
  length (enc_item x) = (length (item_header x) + (length (x_key x) - x_shared x) + length (x_val x))%nat.
Proof. unfold enc_item. rewrite !length_app, length_drop. lia. Qed.

Lemma off_0 xs : off xs 0 = 0%nat.
Proof. done. Qed.
Lemma off_end xs : off xs (length xs) = length (enc_items xs).
Proof. unfold off. by rewrite take_ge. Qed.
Lemma off_S xs j x : xs !! j = Some x -> off xs (S j) = (off xs j + length (enc_item x))%nat.
Proof.
  intros Hx. unfold off. rewrite (take_S_r xs j x Hx), enc_items_app, length_app. f_equal.
  unfold enc_items. cbn. by rewrite app_nil_r.
Qed.
Lemma enc_items_at xs j x :
  xs !! j = Some x -> exists post, enc_items xs = enc_items (take j xs) ++ enc_item x ++ post.
Proof.
  intros Hx. exists (enc_items (drop (S j) xs)). rewrite <- (take_drop_middle xs j x Hx) at 1.
  by rewrite enc_items_app, enc_items_cons.
Qed.

Lemma off_lt xs j k : (j < k)%nat -> (j < length xs)%nat -> (off xs j + 3 <= off xs k)%nat.
Proof.
  intros Hjk Hj. destruct (lookup_lt_is_Some_2 xs j Hj) as [x Hx].
  assert (off xs (S j) <= off xs k)%nat as Hle.
  { unfold off. replace (take k xs) with (take (S j) xs ++ drop (S j) (take k xs)).
    - rewrite enc_items_app, length_app. lia.
    - rewrite <- (take_drop (S j) (take k xs)) at 2. rewrite take_take, Nat.min_l by lia. done. }
  rewrite (off_S _ _ _ Hx), length_enc_item in Hle. pose proof (length_item_header x). lia.
Qed.
Lemma off_le xs j k : (j <= k)%nat -> (off xs j <= off xs k)%nat.
Proof.
  intros Hjk. destruct (decide (j = k)) as [->|Hne]; [lia|]. destruct (decide (j < length xs)%nat) as [Hj|Hj].
  - pose proof (off_lt xs j k ltac:(lia) Hj). lia.
  - unfold off. rewrite !take_ge by lia. lia.
Qed.
Lemma off_lt_iff xs j k :
  (j <= length xs)%nat -> (k <= length xs)%nat -> (off xs j < off xs k)%nat <-> (j < k)%nat.
Proof.
  intros Hj Hk. split; intros H.
  - destruct (decide (j < k)%nat) as [|Hn]; [done|]. pose proof (off_le xs k j ltac:(lia)). lia.
  - pose proof (off_lt xs j k H ltac:(lia)). lia.
Qed.
Lemma off_inj xs j k :
  (j <= length xs)%nat -> (k <= length xs)%nat -> off xs j = off xs k -> j = k.
Proof.
  intros Hj Hk E. destruct (Nat.lt_trichotomy j k) as [H|[H|H]]; [|done|].
  - pose proof (proj2 (off_lt_iff xs j k Hj Hk) H). lia.
  - pose proof (proj2 (off_lt_iff xs k j Hk Hj) H). lia.
Qed.

(** ** The size of a block *)
Lemma length_enc_restarts xs rs : length (enc_restarts xs rs) = (4 * length rs)%nat.
Proof.
  unfold enc_restarts. induction rs as [|r rs IH]; [done|].
  rewrite !fmap_cons. cbn [concat length]. rewrite length_app, IH, length_PutUint32. lia.
Qed.
Lemma length_block_bytes xs rs :
  length (block_bytes xs rs) = (length (enc_items xs) + 4 * length rs + 4)%nat.
Proof. unfold block_bytes. rewrite !length_app, length_enc_restarts, length_PutUint32. lia. Qed.

Lemma off_bound xs rs j : block_wf xs rs -> Z.of_nat (off xs j) < 2 ^ 31 - 8.
Proof.
  intros Hwf. pose proof (bf_size _ _ Hwf) as H. rewrite length_block_bytes in H.
  destruct (bf_restart0 _ _ Hwf) as [f Hf]. apply lookup_lt_Some in Hf.
  assert (off xs j <= length (enc_items xs))%nat; [|lia]. rewrite <- off_end.
  destruct (decide (j <= length xs)%nat); [by apply off_le|]. unfold off. rewrite !take_ge by lia. lia.
Qed.
Lemma restart_bound xs rs : block_wf xs rs -> 4 * Z.of_nat (length rs) < 2 ^ 31 - 4.
Proof. intros Hwf. pose proof (bf_size _ _ Hwf) as H. rewrite length_block_bytes in H. lia. Qed.

(** ** Reading a restart point *)
Lemma drop_enc_restarts xs rs h r :
  rs !! h = Some r ->
  drop (4 * h) (enc_restarts xs rs) = PutUint32 (restart_word xs r) ++ enc_restarts xs (drop (S h) rs).
Proof.
  intros Hr. rewrite <- (take_drop_middle rs h r Hr) at 1.
  unfold enc_restarts. rewrite !fmap_app, concat_app, drop_app_ge.
  - rewrite !fmap_cons. cbn [concat].
    change (concat (PutUint32 <$> (restart_word xs <$> take h rs))) with (enc_restarts xs (take h rs)).
    rewrite length_enc_restarts, length_take_le by (apply lookup_lt_Some in Hr; lia).
    by rewrite Nat.sub_diag.
  - change (concat (PutUint32 <$> (restart_word xs <$> take h rs))) with (enc_restarts xs (take h rs)).
    rewrite length_enc_restarts, length_take. lia.
Qed.

(** ** The writer *)

(** The arguments of [addWithOptionalValuePrefix]. *)
Record add := mkAdd {
  a_key : InternalKey;
  a_obsolete : bool;
  a_value : bytes;
  a_maxShared : nat;
  a_addPrefix : bool;
  a_prefix : Z;
  a_same : bool;
}.
Definition do_add (w : blockWriter) (a : add) : go blockWriter :=
  addWithOptionalValuePrefix w (a_key a) (a_obsolete a) (a_value a) (a_maxShared a) (a_addPrefix a) (a_prefix a) (a_same a).
Fixpoint do_adds (w : blockWriter) (l : list add) : go blockWriter :=
  match l with
  | [] => Ret w
  | a :: l => w ← do_add w a; do_adds w l
  end.

(** The key and the value as they are stored. *)
Definition raw_trailer (a : add) : Z :=
  if a_obsolete a then Z.lor (Trailer (a_key a)) trailerObsoleteBit else Trailer (a_key a).
Definition raw_key (a : add) : bytes := UserKey (a_key a) ++ PutUint64 (raw_trailer a).
Definition raw_value (a : add) : bytes := (if a_addPrefix a then [z2b (a_prefix a)] else []) ++ a_value a.
(** At most this many bytes are written for an entry, with a restart point. *)
Definition add_size (a : add) : nat := (length (raw_key a) + length (raw_value a) + 19)%nat.

(** What a key shares with the one before it is part of the user key, as far as it may be shared. *)
Definition share_ok (prev : bytes) (a : add) : Prop :=
  forall s, (s <= Nat.min (a_maxShared a) (length prev))%nat ->
    take s (raw_key a) = take s prev -> (s <= length (UserKey (a_key a)))%nat.
Fixpoint shares_ok (prev : bytes) (l : list add) : Prop :=
  match l with
  | [] => True
  | a :: l => share_ok prev a /\ shares_ok (raw_key a) l
  end.
Lemma share_ok_short prev a : (a_maxShared a <= length (UserKey (a_key a)))%nat -> share_ok prev a.
Proof. intros H s Hs _. lia. Qed.

Lemma length_raw_key a : length (raw_key a) = (length (UserKey (a_key a)) + 8)%nat.
Proof. unfold raw_key. by rewrite length_app, length_PutUint64. Qed.
Lemma length_raw_value a :
  length (raw_value a) = (if a_addPrefix a then length (a_value a) + 1 else length (a_value a))%nat.
Proof. unfold raw_value. rewrite length_app. destruct (a_addPrefix a); cbn; lia. Qed.

Lemma Encode_raw (a : add) n :
  n = Size (a_key a) ->
  Encode (if a_obsolete a then mkInternalKey (UserKey (a_key a)) (Z.lor (Trailer (a_key a)) trailerObsoleteBit)
          else a_key a) (replicate n Byte.x00) = Ret (raw_key a).
Proof.
  intros ->. unfold Encode, raw_key, raw_trailer, Size. set (k := UserKey (a_key a)).
  assert (UserKey (if a_obsolete a then mkInternalKey k (Z.lor (Trailer (a_key a)) trailerObsoleteBit) else a_key a) = k)
    as -> by (by destruct (a_obsolete a)).
  assert (Trailer (if a_obsolete a then mkInternalKey k (Z.lor (Trailer (a_key a)) trailerObsoleteBit) else a_key a) =
    if a_obsolete a then Z.lor (Trailer (a_key a)) trailerObsoleteBit else Trailer (a_key a)) as ->
    by (by destruct (a_obsolete a)).
  rewrite length_replicate, Nat.min_r by lia. rewrite (proj2 (Nat.ltb_ge _ _)) by lia. f_equal.
  rewrite take_ge by lia. rewrite replicate_add.
  pose proof (copy_at_app [] (replicate (length k) Byte.x00) k (replicate 8 Byte.x00) 0 eq_refl) as E1.
  cbn [app] in E1. rewrite E1 by (by rewrite length_replicate).
  rewrite <- (app_nil_r (replicate 8 Byte.x00)).
  rewrite copy_at_app, app_nil_r; [done|done|]. by rewrite length_PutUint64, length_replicate.
Qed.

(** The loops return how much is shared, and do not leave the keys. *)
Lemma shareWords_ok fuel n cur prev u : forall i,
  length cur = (u + 8)%nat -> (n <= length prev)%nat ->
  (forall s, (s <= n)%nat -> take s cur = take s prev -> (s <= u)%nat) ->
  (i <= n)%nat -> take i cur = take i prev ->
  exists j, shareWords fuel n cur prev i = Ret j /\ (j <= n)%nat /\ take j cur = take j prev.
Proof.
  induction fuel as [|fuel IH]; intros i Hc Hp Hs Hi Ht; cbn [shareWords]; [by exists i|].
  destruct (Nat.ltb_spec (i + 7) n) as [Hlt|]; [|by exists i]. pose proof (Hs i Hi Ht).
  rewrite (proj2 (Nat.ltb_ge _ _)) by lia.
  destruct (Z.eqb_spec (Uint64 (drop i cur)) (Uint64 (drop i prev))) as [E|]; [|by exists i].
  apply IH; [done|done|done|lia|]. apply take_8_eq; [lia|lia|done|done].
Qed.
Lemma shareBytes_ok fuel n cur prev u : forall i,
  length cur = (u + 8)%nat ->
  (forall s, (s <= n)%nat -> take s cur = take s prev -> (s <= u)%nat) ->
  (i <= n)%nat -> take i cur = take i prev ->
  exists j, shareBytes fuel n cur prev i = Ret j /\ (j <= n)%nat /\ take j cur = take j prev.
Proof.
  induction fuel as [|fuel IH]; intros i Hc Hs Hi Ht; cbn [shareBytes]; [by exists i|].
  destruct (Nat.ltb_spec i n) as [Hlt|]; [|by exists i]. pose proof (Hs i Hi Ht).
  rewrite (proj2 (Nat.leb_gt _ _)) by lia.
  case_bool_decide as E; [|by exists i]. apply IH; [done|done|lia|]. by apply take_S_eq.
Qed.
Lemma share_spec prev a :
  share_ok prev a ->
  let n := if (length prev <? a_maxShared a)%nat then length prev else a_maxShared a in
  exists s s', shareWords n n (raw_key a) prev 0 = Ret s' /\ shareBytes n n (raw_key a) prev s' = Ret s /\
    (s <= a_maxShared a)%nat /\ (s <= length prev)%nat /\
    take s (raw_key a) = take s prev /\ (s + 8 <= length (raw_key a))%nat.
Proof.
  intros Hok n. assert (n = Nat.min (a_maxShared a) (length prev)) as En.
  { unfold n. destruct (Nat.ltb_spec (length prev) (a_maxShared a)); lia. }
  unfold share_ok in Hok. rewrite <- En in Hok. pose proof (length_raw_key a) as Hl.
  destruct (shareWords_ok n n (raw_key a) prev _ 0 Hl ltac:(lia) Hok ltac:(lia) eq_refl) as (s' & -> & H1 & H2).
  destruct (shareBytes_ok n n (raw_key a) prev _ s' Hl Hok H1 H2) as (s & Es & H3 & H4).
  exists s, s'. pose proof (Hok s H3 H4). split; [done|]. split; [done|]. split; [lia|]. split; [lia|]. split; [done|]. lia.
Qed.

(** ** The state of a writer *)
Record writing (w : blockWriter) (l : list add) (xs : list item) (rs : list restart) : Prop := {
  wr_keys : x_key <$> xs = raw_key <$> l;
  wr_vals : x_val <$> xs = raw_value <$> l;
  wr_buf : bw_buf w = enc_items xs;
  wr_n : bw_nEntries w = length xs;
  wr_restarts : bw_restarts w = restart_word xs <$> rs;
  wr_start : xs = [] -> bw_nextRestart w = 0%nat /\ rs = [];
  wr_cur : xs <> [] -> last (x_key <$> xs) = Some (bw_curKey w);
  wr_items : items_wf xs;
  wr_rs : xs <> [] -> restarts_wf xs rs;
  wr_max j x a : xs !! j = Some x -> l !! j = Some a -> (x_shared x <= a_maxShared a)%nat;
  wr_flags h r0 r m a : rs !! h = Some r0 -> rs !! S h = Some r -> r.2 = true ->
    (r0.1 < m <= r.1)%nat -> l !! m = Some a -> a_same a = true;
  wr_since r m a : last rs = Some r -> bw_setHasSameKeyPrefixSinceLastRestart w = true ->
    (r.1 < m)%nat -> l !! m = Some a -> a_same a = true;
  wr_size : (length (enc_items xs) + 4 * length rs <= sum_list (add_size <$> l))%nat;
}.

Lemma writing_new w :
  bw_nEntries w = 0%nat -> bw_nextRestart w = 0%nat -> bw_buf w = [] -> bw_restarts w = [] -> writing w [] [] [].
Proof. intros H1 H2 H3 H4. by split. Qed.

Lemma off_app xs ys j : (j <= length xs)%nat -> off (xs ++ ys) j = off xs j.
Proof. intros Hj. unfold off. by rewrite take_app_le. Qed.
Lemma restart_word_app xs ys rs :
  restarts_wf xs rs -> restart_word (xs ++ ys) <$> rs = restart_word xs <$> rs.
Proof.
  intros Hrs. apply list_fmap_ext. intros h r Hr. destruct (bf_restart _ _ Hrs h r Hr) as (x & Hx & _).
  apply lookup_lt_Some in Hx. unfold restart_word. rewrite off_app by lia. done.
Qed.

(** One more entry. *)
Definition next_item (a : add) (shared : nat) : item := mkItem shared (raw_key a) (raw_value a).

Lemma items_wf_snoc xs a s :
  items_wf xs -> (s + 8 <= length (raw_key a))%nat -> (xs = [] -> s = 0%nat) ->
  (forall x, last xs = Some x -> (s <= length (x_key x))%nat /\ take s (raw_key a) = take s (x_key x)) ->
  items_wf (xs ++ [next_item a s]).
Proof.
  intros Hwf Hs H0 Hlast. assert (forall j y, (xs ++ [next_item a s]) !! j = Some y ->
    xs !! j = Some y \/ j = length xs /\ y = next_item a s) as Hlk.
  { intros j y Hy. apply lookup_app_Some in Hy as [Hy|[Hj Hy]]; [by left|right].
    apply list_lookup_singleton_Some in Hy as [Hz <-]. split; [lia|done]. }
  split.
  - intros j y Hy. destruct (Hlk j y Hy) as [H|[-> ->]]; [exact (bf_shared _ Hwf j y H)|exact Hs].
  - intros y Hy. destruct (Hlk 0%nat y Hy) as [H|[Hl ->]]; [exact (bf_first _ Hwf y H)|].
    apply H0. by apply nil_length_inv.
  - intros j x y Hx Hy. destruct (Hlk (S j) y Hy) as [H|[Hl ->]].
    + rewrite lookup_app_l in Hx by (apply lookup_lt_Some in H; lia). exact (bf_next _ Hwf j x y Hx H).
    + rewrite lookup_app_l in Hx by lia. apply (Hlast x). rewrite last_lookup, <- Hl. exact Hx.
Qed.

Lemma last_snoc_max (l : list add) a xs s j x b :
  length xs = length l ->
  (forall j x a, xs !! j = Some x -> l !! j = Some a -> (x_shared x <= a_maxShared a)%nat) -> (s <= a_maxShared a)%nat ->
  (xs ++ [next_item a s]) !! j = Some x -> (l ++ [a]) !! j = Some b -> (x_shared x <= a_maxShared b)%nat.
Proof.
  intros Hl Hm Hs Hx Hb. apply lookup_app_Some in Hx as [Hx|[Hj Hx]].
  - rewrite lookup_app_l in Hb by (apply lookup_lt_Some in Hx; lia). exact (Hm j x b Hx Hb).
  - apply list_lookup_singleton_Some in Hx as [Hz <-]. assert (j = length l) as -> by lia.
    rewrite lookup_app_r, Nat.sub_diag in Hb by lia. injection Hb as <-. exact Hs.
Qed.

Lemma enc_items_snoc xs x : enc_items (xs ++ [x]) = enc_items xs ++ enc_item x.
Proof. rewrite enc_items_app. unfold enc_items at 2. cbn. by rewrite app_nil_r. Qed.
Lemma length_enc_item_le a s :
  (s <= length (raw_key a))%nat -> Z.of_nat (add_size a) < 2 ^ 31 -> (length (enc_item (next_item a s)) + 4 <= add_size a)%nat.
Proof.
  intros Hs Ha. rewrite length_enc_item. unfold add_size in *. unfold next_item, item_header. cbn [x_key x_val x_shared].
  rewrite !length_app.
  pose proof (length_PutUvarint32 (Z.of_nat s) ltac:(lia)).
  pose proof (length_PutUvarint32 (Z.of_nat (length (raw_key a) - s)) ltac:(lia)).
  pose proof (length_PutUvarint32 (Z.of_nat (length (raw_value a))) ltac:(lia)). lia.
Qed.

(** What is appended to the buffer is the encoded entry. *)
Lemma append_item xs a s :
  (s <= length (raw_key a))%nat -> Z.of_nat (add_size a) < 2 ^ 31 ->
  enc_items xs ++ PutUvarint (u32 (Z.of_nat s))
    ++ PutUvarint (u32 (Z.of_nat (Size (a_key a)) - Z.of_nat s))
    ++ PutUvarint (u32 (Z.of_nat (if a_addPrefix a then length (a_value a) + 1 else length (a_value a))%nat))
    ++ drop s (raw_key a) ++ (if a_addPrefix a then [z2b (a_prefix a)] else []) ++ a_value a =
  enc_items (xs ++ [next_item a s]).
Proof.
  intros Hs Ha. unfold add_size in Ha. rewrite enc_items_snoc. f_equal. unfold enc_item, item_header, next_item.
  cbn [x_key x_val x_shared]. rewrite <- length_raw_value. change (Size (a_key a)) with (length (UserKey (a_key a)) + 8)%nat.
  rewrite <- length_raw_key, !u32_small by lia. rewrite <- !app_assoc. repeat f_equal. lia.
Qed.

Definition add_bound (l : list add) : Prop := Z.of_nat (sum_list (add_size <$> l)) + 8 < 2 ^ 31.
Lemma add_bound_snoc l a : add_bound (l ++ [a]) -> add_bound l /\ Z.of_nat (sum_list (add_size <$> l) + add_size a) + 8 < 2 ^ 31.
Proof. unfold add_bound. rewrite fmap_app, sum_list_with_app. cbn. lia. Qed.

Lemma writing_snoc_keys w l xs rs a s :
  writing w l xs rs -> x_key <$> (xs ++ [next_item a s]) = raw_key <$> (l ++ [a]) /\
    x_val <$> (xs ++ [next_item a s]) = raw_value <$> (l ++ [a]) /\ length xs = length l.
Proof.
  intros Hw. rewrite !fmap_app, (wr_keys _ _ _ _ Hw), (wr_vals _ _ _ _ Hw). split; [done|]. split; [done|].
  pose proof (f_equal length (wr_keys _ _ _ _ Hw)) as H. by rewrite !length_fmap in H.
Qed.

Lemma restarts_wf_app xs ys rs : restarts_wf xs rs -> restarts_wf (xs ++ ys) rs.
Proof.
  intros [H0 H1 H2]. split; [done|done|]. intros h r Hr. destruct (H2 h r Hr) as (x & Hx & Hs).
  exists x. split; [by apply lookup_app_l_Some|done].
Qed.
Lemma restarts_wf_snoc xs rs a f :
  (xs <> [] -> restarts_wf xs rs) -> (xs = [] -> rs = []) ->
  restarts_wf (xs ++ [next_item a 0]) (rs ++ [(length xs, f)]).
Proof.
  intros Hrs Hnil. assert (forall h r, rs !! h = Some r -> (r.1 < length xs)%nat) as Hlt.
  { intros h r Hr. destruct (decide (xs = [])) as [E|E]; [by rewrite (Hnil E) in Hr|].
    destruct (bf_restart _ _ (Hrs E) h r Hr) as (x & Hx & _). by apply lookup_lt_Some in Hx. }
  split.
  - destruct (decide (xs = [])) as [->|E]; [rewrite (Hnil eq_refl); by exists f|].
    destruct (bf_restart0 _ _ (Hrs E)) as [f0 Hf]. exists f0. by apply lookup_app_l_Some.
  - intros h h' r r' Hr Hr' Hh. apply lookup_app_Some in Hr' as [Hr'|[Hh' Hr']].
    + rewrite lookup_app_l in Hr by (apply lookup_lt_Some in Hr'; lia).
      destruct (decide (xs = [])) as [E|E]; [by rewrite (Hnil E) in Hr|].
      exact (bf_increasing _ _ (Hrs E) h h' r r' Hr Hr' Hh).
    + apply list_lookup_singleton_Some in Hr' as [Hz <-]. rewrite lookup_app_l in Hr by lia. exact (Hlt h r Hr).
  - intros h r Hr. apply lookup_app_Some in Hr as [Hr|[Hh Hr]].
    + destruct (decide (xs = [])) as [E|E]; [by rewrite (Hnil E) in Hr|].
      destruct (bf_restart _ _ (Hrs E) h r Hr) as (x & Hx & Hs). exists x. split; [by apply lookup_app_l_Some|done].
    + apply list_lookup_singleton_Some in Hr as [Hz <-]. exists (next_item a 0). cbn [fst].
      by rewrite lookup_app_r, Nat.sub_diag by lia.
Qed.

(** An entry at a restart point. *)
Lemma writing_restart w l xs rs a :
  writing w l xs rs -> add_bound (l ++ [a]) -> bw_nEntries w = bw_nextRestart w ->
  exists w' xs' rs', do_add w a = Ret w' /\ writing w' (l ++ [a]) xs' rs' /\ bw_curKey w' = raw_key a.
Proof.
  intros Hw Hb En. apply add_bound_snoc in Hb as [_ Hb]. pose proof (wr_size _ _ _ _ Hw) as Hsz.
  pose proof (length_raw_key a) as Hrk. assert (Z.of_nat (add_size a) < 2 ^ 31) as Ha by lia.
  destruct (writing_snoc_keys w l xs rs a 0 Hw) as (Hk & Hv & Hlen).
  set (f := a_same a && bw_setHasSameKeyPrefixSinceLastRestart w).
  unfold do_add, addWithOptionalValuePrefix. rewrite Encode_raw, bind_Ret by done.
  unfold storeWithOptionalValuePrefix.
  set (w1 := w <| bw_prevKey := bw_curKey w |> <| bw_curKey := raw_key a |>).
  set (w2 := if negb (a_same a) then w1 <| bw_setHasSameKeyPrefixSinceLastRestart := false |> else w1).
  assert (w2 = w1 <| bw_setHasSameKeyPrefixSinceLastRestart := f |>) as ->.
  { unfold w2, f. destruct (a_same a); by destruct w. }
  cbv zeta. change (bw_nEntries (w1 <| _ := _ |>)) with (bw_nEntries w).
  change (bw_nextRestart (w1 <| _ := _ |>)) with (bw_nextRestart w). rewrite (proj2 (Nat.eqb_eq _ _) En), bind_Ret.
  eexists _, (xs ++ [next_item a 0]), (rs ++ [(length xs, f)]). split; [reflexivity|]. split; [|done].
  assert (xs = [] -> rs = []) as Hnil by (intros E; apply (wr_start _ _ _ _ Hw E)).
  split; cbn.
  - done.
  - done.
  - rewrite (wr_buf _ _ _ _ Hw). apply append_item; [lia|done].
  - rewrite (wr_n _ _ _ _ Hw), length_app. cbn. lia.
  - rewrite (wr_restarts _ _ _ _ Hw), (wr_buf _ _ _ _ Hw), fmap_app. f_equal.
    + destruct (decide (xs = [])) as [E|E]; [by rewrite (Hnil E)|]. by rewrite restart_word_app by (by apply (wr_rs _ _ _ _ Hw)).
    + cbn. unfold restart_word. cbn [fst snd]. rewrite off_app, off_end, u32_small by lia.
      destruct f; [|do 2 f_equal; lia]. f_equal. change setHasSameKeyPrefixRestartMask with (Z.shiftl 1 31).
      rewrite lor_shiftl_add by lia. lia.
  - by destruct xs.
  - intros _. rewrite fmap_app. apply last_snoc.
  - apply items_wf_snoc; [by apply (wr_items _ _ _ _ Hw)|lia|done|]. intros x _. split; [lia|done].
  - intros _. by apply restarts_wf_snoc; [apply (wr_rs _ _ _ _ Hw)|].
  - intros j x b. apply last_snoc_max; [done|apply (wr_max _ _ _ _ Hw)|lia].
  - intros h r0 r m b Hr0 Hr Ht Hm Hb'. apply lookup_app_Some in Hr as [Hr|[Hh Hr]].
    + rewrite lookup_app_l in Hr0 by (apply lookup_lt_Some in Hr; lia).
      destruct (decide (xs = [])) as [E|E]; [by rewrite (Hnil E) in Hr|].
      destruct (bf_restart _ _ (wr_rs _ _ _ _ Hw E) _ r Hr) as (x & Hx & _). apply lookup_lt_Some in Hx.
      rewrite lookup_app_l in Hb' by lia. exact (wr_flags _ _ _ _ Hw h r0 r m b Hr0 Hr Ht Hm Hb').
    + apply list_lookup_singleton_Some in Hr as [Hz <-]. cbn [snd fst] in *. unfold f in Ht. apply andb_prop in Ht as [Hs Ht].
      rewrite lookup_app_l in Hr0 by lia.
      assert (last rs = Some r0) as Hlast by (rewrite last_lookup; replace (pred (length rs)) with h by lia; done).
      apply lookup_app_Some in Hb' as [Hb'|[Hm' Hb']]; [exact (wr_since _ _ _ _ Hw r0 m b Hlast Ht (proj1 Hm) Hb')|].
      by apply list_lookup_singleton_Some in Hb' as [_ <-].
  - intros r m b Hr _ Hm Hb'. rewrite last_snoc in Hr. injection Hr as <-. cbn [fst] in Hm.
    apply lookup_lt_Some in Hb'. rewrite length_app in Hb'. cbn in Hb'. lia.
  - rewrite enc_items_snoc, !length_app, fmap_app, sum_list_with_app. cbn.
    pose proof (length_enc_item_le a 0 ltac:(lia) Ha). lia.
Qed.

(** An entry that may share a part of its key. *)
Lemma writing_shared w l xs rs a :
  writing w l xs rs -> add_bound (l ++ [a]) -> bw_nEntries w <> bw_nextRestart w -> share_ok (bw_curKey w) a ->
  exists w' xs' rs', do_add w a = Ret w' /\ writing w' (l ++ [a]) xs' rs' /\ bw_curKey w' = raw_key a.
Proof.
  intros Hw Hb En Hok. apply add_bound_snoc in Hb as [_ Hb]. pose proof (wr_size _ _ _ _ Hw) as Hsz.
  assert (Z.of_nat (add_size a) < 2 ^ 31) as Ha by lia.
  assert (xs <> []) as Hne. { intros ->. destruct (wr_start _ _ _ _ Hw eq_refl) as [H _]. by rewrite (wr_n _ _ _ _ Hw) in En. }
  destruct (share_spec (bw_curKey w) a Hok) as (s & s' & E1 & E2 & Hmax & Hprev & Htake & Hs).
  destruct (writing_snoc_keys w l xs rs a s Hw) as (Hk & Hv & Hlen).
  set (f := a_same a && bw_setHasSameKeyPrefixSinceLastRestart w).
  unfold do_add, addWithOptionalValuePrefix. rewrite Encode_raw, bind_Ret by done.
  unfold storeWithOptionalValuePrefix.
  set (w1 := w <| bw_prevKey := bw_curKey w |> <| bw_curKey := raw_key a |>).
  set (w2 := if negb (a_same a) then w1 <| bw_setHasSameKeyPrefixSinceLastRestart := false |> else w1).
  assert (w2 = w1 <| bw_setHasSameKeyPrefixSinceLastRestart := f |>) as ->.
  { unfold w2, f. destruct (a_same a); by destruct w. }
  cbv zeta. change (bw_nEntries (w1 <| _ := _ |>)) with (bw_nEntries w).
  change (bw_nextRestart (w1 <| _ := _ |>)) with (bw_nextRestart w). rewrite (proj2 (Nat.eqb_neq _ _) En).
  change (bw_prevKey (w1 <| _ := _ |>)) with (bw_curKey w). change (bw_curKey (w1 <| _ := _ |>)) with (raw_key a).
  rewrite E1, bind_Ret, E2, !bind_Ret.
  eexists _, (xs ++ [next_item a s]), rs. split; [reflexivity|]. split; [|done].
  assert (restarts_wf xs rs) as Hrs by (by apply (wr_rs _ _ _ _ Hw)). split; cbn.
  - done.
  - done.
  - rewrite (wr_buf _ _ _ _ Hw). apply append_item; [lia|done].
  - rewrite (wr_n _ _ _ _ Hw), length_app. cbn. lia.
  - by rewrite (wr_restarts _ _ _ _ Hw), restart_word_app.
  - by destruct xs.
  - intros _. rewrite fmap_app. apply last_snoc.
  - apply items_wf_snoc; [by apply (wr_items _ _ _ _ Hw)|lia|done|]. intros x Hx.
    pose proof (wr_cur _ _ _ _ Hw Hne) as Hc. rewrite fmap_last, Hx in Hc. by injection Hc as ->.
  - intros _. by apply restarts_wf_app.
  - intros j x b. apply last_snoc_max; [done|apply (wr_max _ _ _ _ Hw)|lia].
  - intros h r0 r m b Hr0 Hr Ht Hm Hb'. destruct (bf_restart _ _ Hrs _ r Hr) as (x & Hx & _). apply lookup_lt_Some in Hx.
    rewrite lookup_app_l in Hb' by lia. exact (wr_flags _ _ _ _ Hw h r0 r m b Hr0 Hr Ht Hm Hb').
  - intros r m b Hr Ht Hm Hb'. unfold f in Ht. apply andb_prop in Ht as [Hsm Ht].
    apply lookup_app_Some in Hb' as [Hb'|[Hm' Hb']]; [exact (wr_since _ _ _ _ Hw r m b Hr Ht Hm Hb')|].
    by apply list_lookup_singleton_Some in Hb' as [_ <-].
  - rewrite enc_items_snoc, !length_app, fmap_app, sum_list_with_app. cbn.
    pose proof (length_enc_item_le a s ltac:(lia) Ha). lia.
Qed.

Lemma writing_all l2 : forall w l1 xs rs,
  writing w l1 xs rs -> xs <> [] -> add_bound (l1 ++ l2) -> shares_ok (bw_curKey w) l2 ->
  exists w' xs' rs', do_adds w l2 = Ret w' /\ writing w' (l1 ++ l2) xs' rs' /\ xs' <> [].
Proof.
  induction l2 as [|a l2 IH]; intros w l1 xs rs Hw Hne Hb Hs; cbn [do_adds].
  - exists w, xs, rs. by rewrite app_nil_r.
  - destruct Hs as [Ha Hs]. rewrite (app_assoc l1 [a] l2 : l1 ++ a :: l2 = (l1 ++ [a]) ++ l2) in *.
    assert (add_bound (l1 ++ [a])) as Hb1.
    { unfold add_bound in *. rewrite fmap_app, sum_list_with_app in Hb. lia. }
    assert (exists w' xs' rs', do_add w a = Ret w' /\ writing w' (l1 ++ [a]) xs' rs' /\ bw_curKey w' = raw_key a)
      as (w1 & xs1 & rs1 & -> & Hw1 & Hc1).
    { destruct (decide (bw_nEntries w = bw_nextRestart w)); [by apply (writing_restart w l1 xs rs)|].
      by apply (writing_shared w l1 xs rs). }
    rewrite bind_Ret. apply (IH w1 _ xs1 rs1); [done| |done|by rewrite Hc1].
    intros ->. pose proof (f_equal length (wr_keys _ _ _ _ Hw1)) as H. rewrite !length_fmap, length_app in H. cbn in H. lia.
Qed.

(** A writer that is new, or has been used for other blocks. *)
Record fresh (w : blockWriter) : Prop := {
  fr_n : bw_nEntries w = 0%nat;
  fr_next : bw_nextRestart w = 0%nat;
  fr_buf : bw_buf w = [];
  fr_restarts : bw_restarts w = [];
}.

(** What is written, for entries added one after another. *)
Record written (l : list add) (xs : list item) (rs : list restart) : Prop := {
  wt_wf : block_wf xs rs;
  wt_keys : x_key <$> xs = raw_key <$> l;
  wt_vals : x_val <$> xs = raw_value <$> l;
  wt_max j x a : xs !! j = Some x -> l !! j = Some a -> (x_shared x <= a_maxShared a)%nat;
  wt_flags h r0 r m a : rs !! h = Some r0 -> rs !! S h = Some r -> r.2 = true ->
    (r0.1 < m <= r.1)%nat -> l !! m = Some a -> a_same a = true;
}.

Lemma sum_keys_le l : (sum_list (length <$> (raw_key <$> l)) <= sum_list (add_size <$> l))%nat.
Proof. induction l as [|a l IH]; cbn in *; [lia|]. unfold add_size at 1. lia. Qed.

Lemma write_block w a l :
  fresh w -> add_bound (a :: l) -> shares_ok (raw_key a) l ->
  exists w' xs rs, do_adds w (a :: l) = Ret w' /\ written (a :: l) xs rs /\
    (blockWriter_finish w').2 = block_bytes xs rs /\ fresh (blockWriter_finish w').1.
Proof.
  intros [Hn Hx Hbuf Hr] Hb Hs. cbn [do_adds].
  assert (add_bound ([] ++ [a])) as Hb1 by (unfold add_bound in *; cbn in *; lia).
  destruct (writing_restart w [] [] [] a) as (w1 & xs1 & rs1 & -> & Hw1 & Hc1); [by apply writing_new|done|congruence|].
  rewrite bind_Ret. assert (xs1 <> []) as Hne1.
  { intros ->. by pose proof (f_equal length (wr_keys _ _ _ _ Hw1)) as H. }
  destruct (writing_all l w1 [a] xs1 rs1 Hw1 Hne1 Hb) as (w2 & xs & rs & -> & Hw & Hne); [by rewrite Hc1|].
  exists w2, xs, rs. split; [done|].
  pose proof (wr_size _ _ _ _ Hw) as Hsz. unfold add_bound in Hb. change ([a] ++ l) with (a :: l) in *.
  assert (block_wf xs rs) as Hwf.
  { split; [apply (wr_items _ _ _ _ Hw)|by apply (wr_rs _ _ _ _ Hw)|rewrite length_block_bytes; lia|].
    rewrite (wr_keys _ _ _ _ Hw). pose proof (sum_keys_le (a :: l)). lia. }
  split; [split; [done|apply (wr_keys _ _ _ _ Hw)|apply (wr_vals _ _ _ _ Hw)|apply (wr_max _ _ _ _ Hw)|apply (wr_flags _ _ _ _ Hw)]|].
  split; [|by split].
  unfold blockWriter_finish, block_bytes. cbn [snd].
  rewrite (wr_n _ _ _ _ Hw), (proj2 (Nat.eqb_neq (length xs) 0)) by (by destruct xs).
  rewrite (wr_buf _ _ _ _ Hw), (wr_restarts _ _ _ _ Hw), length_fmap.
  rewrite u32_small by (pose proof (restart_bound _ _ Hwf); lia). done.
Qed.
