(* ===== verification/BlockRead.v ===== *)
(** Reading the entries and restart points of a block (Block.v, BlockFormat.v). *)
From S2P Require Import Prelude.
From S2P Require Import Comparer.
From S2P Require Import InternalKey.
From S2P Require Import ValueBlock.
From S2P Require Import Block.
From S2P Require Import BlockFormat.
From S2P Require Import Iterators.

Local Open Scope Z_scope.

(** ** Reading bytes *)
Lemma varint_at_Put pre v post :
  0 <= v < 2 ^ 32 ->
  varint_at (pre ++ PutUvarint v ++ post) (Z.of_nat (length pre)) =
    Ret (v, Z.of_nat (length pre + length (PutUvarint v))).
Proof.
  intros Hv. unfold varint_at. rewrite (proj2 (Z.ltb_ge _ _)) by lia.
  rewrite Nat2Z.id, drop_app_length, decodeVarint32_Put by done. do 2 f_equal. lia.
Qed.
Lemma getBytes_mid pre mid post :
  getBytes (pre ++ mid ++ post) (Z.of_nat (length pre)) (Z.of_nat (length mid)) = Ret mid.
Proof.
  unfold getBytes. rewrite (proj2 (Z.ltb_ge (Z.of_nat (length pre)) 0)) by lia.
  rewrite (proj2 (Z.ltb_ge (Z.of_nat (length mid)) 0)) by lia.
  rewrite (proj2 (Z.ltb_ge (Z.of_nat (length (pre ++ mid ++ post))) _)) by (rewrite !length_app; lia).
  cbn [orb]. f_equal. apply slice_app_mid; lia.
Qed.
Lemma getBytes_app buf l p n k : getBytes buf p n = Ret k -> getBytes (buf ++ l) p n = Ret k.
Proof.
  unfold getBytes. destruct (Z.ltb_spec p 0), (Z.ltb_spec n 0), (Z.ltb_spec (Z.of_nat (length buf)) (p + n)); try done.
  intros [= <-]. rewrite (proj2 (Z.ltb_ge _ _)) by (rewrite length_app; lia). cbn [orb]. f_equal.
  apply slice_app_prefix. lia.
Qed.
Lemma getBytes_nil data : getBytes data 0 0 = Ret [].
Proof.
  unfold getBytes. rewrite (proj2 (Z.ltb_ge (Z.of_nat (length data)) (0 + 0))) by lia. cbn. by rewrite slice_nil.
Qed.

Lemma skip_len_ok l v n : decodeVarint32 l = Some (v, n) -> skip_len 4 l = Some n.
Proof.
  unfold decodeVarint32. destruct l as [|a l]; [done|]. cbn [skip_len]. destruct (b2z a <? 128); [by intros [= _ <-]|].
  destruct l as [|b l]; [done|]. destruct (b2z b <? 128); [by intros [= _ <-]|].
  destruct l as [|c l]; [done|]. destruct (b2z c <? 128); [by intros [= _ <-]|].
  destruct l as [|d l]; [done|]. destruct (b2z d <? 128); [by intros [= _ <-]|].
  destruct l as [|e l]; [done|]. by intros [= _ <-].
Qed.
Lemma skip_varint_at data p v q : varint_at data p = Ret (v, q) -> skip_varint data p = Ret q.
Proof.
  unfold varint_at, skip_varint. destruct (p <? 0); [done|].
  destruct (decodeVarint32 _) as [[v' n]|] eqn:E; [|done]. intros [= -> <-]. by rewrite (skip_len_ok _ _ _ E).
Qed.

Lemma decodeRestart_ok w (f : bool) rest :
  0 <= w < 2 ^ 31 -> decodeRestart (PutUint32 (w + if f then 2 ^ 31 else 0) ++ rest) = Ret w.
Proof.
  intros Hw. unfold PutUint32. set (z := w + if f then 2 ^ 31 else 0).
  change (le_put 4 z ++ rest) with
    (z2b z :: z2b (Z.shiftr z 8) :: z2b (Z.shiftr (Z.shiftr z 8) 8) :: z2b (Z.shiftr (Z.shiftr (Z.shiftr z 8) 8) 8) :: rest).
  unfold decodeRestart. rewrite !b2z_z2b, !Z.shiftr_shiftr by lia.
  change (8 + 8 + 8) with 24. change (8 + 8) with 16.
  rewrite !Z.shiftr_div_pow2 by lia. unfold restartMaskWithoutSetHasSamePrefix.
  change 127 with (2 ^ 7 - 1). rewrite land_ones_mod by lia. change (2 ^ 7) with 128.
  set (c0 := z mod 256). set (c1 := z / 2 ^ 8 mod 256). set (c2 := z / 2 ^ 16 mod 256).
  set (c3 := z / 2 ^ 24 mod 256 mod 128).
  assert (0 <= c0 < 256) by (apply Z.mod_pos_bound; lia). assert (0 <= c1 < 256) by (apply Z.mod_pos_bound; lia).
  assert (0 <= c2 < 256) by (apply Z.mod_pos_bound; lia). assert (0 <= c3 < 128) by (apply Z.mod_pos_bound; lia).
  assert (w = c0 + c1 * 2 ^ 8 + c2 * 2 ^ 16 + c3 * 2 ^ 24) as Ew.
  { unfold c0, c1, c2, c3. assert (z = w \/ z = w + 2147483648) as Hz by (unfold z; destruct f; lia).
    change (2 ^ 16) with (256 * 256). change (2 ^ 24) with (256 * 256 * 256). rewrite <- !Z.div_div by lia.
    change (2 ^ 8) with 256. change (2 ^ 31) with 2147483648 in Hw. clear -Hw Hz. clearbody z.
    assert (forall y, y = 256 * (y / 256) + y mod 256 /\ 0 <= y mod 256 < 256) as Hd
      by (intros y; split; [apply Z.div_mod; lia|apply Z.mod_pos_bound; lia]).
    pose proof (Hd z). pose proof (Hd (z / 256)). pose proof (Hd (z / 256 / 256)). set (q := z / 256 / 256 / 256) in *.
    rewrite (Z.mod_small q 256) by lia. pose proof (Z.div_mod q 128 ltac:(lia)).
    pose proof (Z.mod_pos_bound q 128 ltac:(lia)). lia. }
  f_equal. rewrite (lor_shiftl_add c0 c1 8) by lia. rewrite (lor_shiftl_add (c0 + c1 * 2 ^ 8) c2 16) by lia.
  rewrite (lor_shiftl_add _ c3 24) by lia.
  rewrite <- Ew. apply i32_small. lia.
Qed.

(** A bit above all bits of a number. *)
Lemma land_pow2_small x n : 0 <= n -> 0 <= x < 2 ^ n -> Z.land (2 ^ n) x = 0.
Proof.
  intros Hn Hx. apply Z.bits_inj'. intros m Hm. rewrite Z.land_spec, Z.bits_0.
  destruct (decide (m = n)) as [->|Hne].
  - rewrite <- (Z.mod_small x (2 ^ n)) by lia. rewrite Z.mod_pow2_bits_high by lia. apply andb_false_r.
  - rewrite Z.pow2_bits_false by lia. done.
Qed.
(** The highest bit of a byte. *)
Lemma land_128 q (f : bool) : 0 <= q < 128 -> (Z.land (q + if f then 128 else 0) 128 =? 0) = negb f.
Proof.
  intros Hq. assert (Z.land (q + if f then 128 else 0) 128 = if f then 128 else 0) as ->; [|by destruct f].
  destruct f; [|rewrite Z.add_0_r].
  - replace (q + 128) with (q + 1 * 2 ^ 7) by lia. rewrite <- lor_shiftl_add by lia.
    change (Z.shiftl 1 7) with 128. rewrite Z.land_lor_distr_l, (Z.land_diag 128).
    rewrite Z.land_comm. change 128 with (2 ^ 7). rewrite land_pow2_small by lia. done.
  - rewrite Z.land_comm. change 128 with (2 ^ 7). by rewrite land_pow2_small by lia.
Qed.

Section block.
Context (xs : list item) (rs : list restart) (Hwf : block_wf xs rs).
#[local] Abbreviation data := (block_bytes xs rs).

(** ** Entries *)
Lemma data_at j x :
  xs !! j = Some x -> exists post, data = enc_items (take j xs) ++ enc_item x ++ post.
Proof.
  intros Hx. destruct (enc_items_at xs j x Hx) as [post E]. unfold block_bytes. rewrite E.
  eexists. by rewrite <- !app_assoc.
Qed.
Lemma item_bounds j x :
  xs !! j = Some x -> Z.of_nat (length (x_key x)) < 2 ^ 31 /\ Z.of_nat (length (x_val x)) < 2 ^ 31.
Proof.
  intros Hx. pose proof (off_S _ _ _ Hx) as E. pose proof (off_bound xs rs (S j) Hwf). rewrite length_enc_item in E.
  split; [|lia]. apply (list_elem_of_lookup_2) in Hx. apply (list_elem_of_fmap_2 x_key) in Hx.
  apply (list_elem_of_fmap_2 length) in Hx. pose proof (bf_keys _ _ Hwf).
  pose proof (sum_list_with_in (length (x_key x)) id _ Hx). unfold id in *. lia.
Qed.

Lemma entry_header_ok j x :
  xs !! j = Some x ->
  entry_header data (Z.of_nat (off xs j)) =
    Ret (Z.of_nat (x_shared x), Z.of_nat (length (x_key x) - x_shared x), Z.of_nat (length (x_val x)),
         Z.of_nat (off xs j + length (item_header x))).
Proof.
  intros Hx. destruct (data_at j x Hx) as [post E]. destruct (item_bounds j x Hx) as [Hk Hv].
  pose proof (bf_shared _ Hwf j x Hx). unfold entry_header, off, enc_item, item_header in *.
  set (pre := enc_items (take j xs)) in *. rewrite <- !app_assoc in E. rewrite !length_app.
  rewrite E, varint_at_Put, bind_Ret by lia.
  rewrite (app_assoc pre), <- length_app, varint_at_Put, bind_Ret by lia.
  rewrite (app_assoc (pre ++ _)), <- length_app, varint_at_Put, bind_Ret by lia.
  do 2 f_equal. rewrite !length_app. lia.
Qed.

(** The parts of an entry that are not shared. *)
Lemma key_bytes j x :
  xs !! j = Some x ->
  getBytes data (Z.of_nat (off xs j + length (item_header x))) (Z.of_nat (length (x_key x) - x_shared x)) =
    Ret (drop (x_shared x) (x_key x)).
Proof.
  intros Hx. destruct (data_at j x Hx) as [post E]. unfold enc_item in E. rewrite <- !app_assoc, app_assoc in E.
  rewrite E. unfold off. rewrite <- length_app, <- length_drop. apply getBytes_mid.
Qed.
Lemma val_bytes j x :
  xs !! j = Some x ->
  getBytes data (Z.of_nat (off xs (S j) - length (x_val x))) (Z.of_nat (length (x_val x))) = Ret (x_val x).
Proof.
  intros Hx. destruct (data_at j x Hx) as [post E]. unfold enc_item in E. rewrite <- !app_assoc, !app_assoc in E.
  rewrite <- app_assoc in E. rewrite E.
  replace (off xs (S j) - length (x_val x))%nat with
    (length ((enc_items (take j xs) ++ item_header x) ++ drop (x_shared x) (x_key x))); [apply getBytes_mid|].
  rewrite (off_S _ _ _ Hx), length_enc_item, !length_app, length_drop. unfold off. lia.
Qed.

(** ** An iterator over the block *)
Context (globalSeqNum : Z) (hide vbr hasPrefix : bool).

Definition bi_params (i : blockIter) :=
  (bi_data i, bi_restarts i, bi_numRestarts i, bi_globalSeqNum i, bi_hideObsoletePoints i, bi_vbr i, bi_hasValuePrefix i).
Definition over (i : blockIter) : Prop :=
  bi_params i =
    (data, Z.of_nat (length (enc_items xs)), Z.of_nat (length rs), globalSeqNum, hide, vbr, hasPrefix).
Lemma over_fields i :
  over i -> bi_data i = data /\ bi_restarts i = Z.of_nat (length (enc_items xs)) /\ bi_numRestarts i = Z.of_nat (length rs) /\
    bi_globalSeqNum i = globalSeqNum /\ bi_hideObsoletePoints i = hide /\ bi_vbr i = vbr /\ bi_hasValuePrefix i = hasPrefix.
Proof. intros [=]. by split_and!. Qed.

(** The part of its key an entry shares is there. *)
Definition prefix_ok (fullKey : bytes) (x : item) : Prop :=
  (x_shared x <= length fullKey)%nat /\ take (x_shared x) fullKey = take (x_shared x) (x_key x).
Lemma prefix_ok_0 fullKey x : x_shared x = 0%nat -> prefix_ok fullKey x.
Proof. unfold prefix_ok. intros ->. split; [lia|done]. Qed.
Lemma prefix_ok_next j x y : xs !! j = Some x -> xs !! S j = Some y -> prefix_ok (x_key x) y.
Proof. intros Hx Hy. by destruct (bf_next _ Hwf j x y Hx Hy) as [H1 H2]. Qed.

(** The iterator after reading entry [j]. *)
Definition loaded (i : blockIter) (j : nat) (x : item) : blockIter :=
  i <| bi_fullKey := x_key x |> <| bi_key := x_key x |> <| bi_val := x_val x |>
    <| bi_valStart := Z.of_nat (off xs (S j) - length (x_val x)) |> <| bi_nextOffset := Z.of_nat (off xs (S j)) |>.

Lemma val_start j x :
  xs !! j = Some x ->
  Z.of_nat (off xs j + length (item_header x)) + Z.of_nat (length (x_key x) - x_shared x) =
    Z.of_nat (off xs (S j) - length (x_val x)).
Proof. intros Hx. rewrite (off_S _ _ _ Hx), length_enc_item. lia. Qed.

Lemma load_entry_ok i j x :
  over i -> xs !! j = Some x -> prefix_ok (bi_fullKey i) x ->
  load_entry i (Z.of_nat (x_shared x)) (Z.of_nat (length (x_key x) - x_shared x)) (Z.of_nat (length (x_val x)))
    (Z.of_nat (off xs j + length (item_header x))) =
  Ret (i <| bi_fullKey := x_key x |> <| bi_key := x_key x |> <| bi_val := x_val x |>
         <| bi_valStart := Z.of_nat (off xs (S j) - length (x_val x)) |>).
Proof.
  intros Ho Hx [Hl Ht]. destruct (over_fields i Ho) as (Hd & _). unfold load_entry.
  rewrite Hd, (key_bytes j x Hx), bind_Ret. rewrite (proj2 (Z.ltb_ge _ _)) by lia.
  rewrite (val_start j x Hx), (val_bytes j x Hx), bind_Ret. rewrite Nat2Z.id, Ht, take_drop.
  assert ((if Z.of_nat (x_shared x) =? 0 then drop (x_shared x) (x_key x) else x_key x) = x_key x) as ->; [|done].
  destruct (Z.eqb_spec (Z.of_nat (x_shared x)) 0) as [E|]; [|done]. by replace (x_shared x) with 0%nat by lia.
Qed.
Lemma readEntry_ok i j x :
  over i -> xs !! j = Some x -> bi_offset i = Z.of_nat (off xs j) -> prefix_ok (bi_fullKey i) x ->
  readEntry i = Ret (loaded i j x).
Proof.
  intros Ho Hx Hoff Hp. destruct (over_fields i Ho) as (Hd & _). unfold readEntry.
  rewrite Hd, Hoff, (entry_header_ok j x Hx), bind_Ret, (load_entry_ok i j x Ho Hx Hp), bind_Ret.
  rewrite (val_start j x Hx). pose proof (off_S _ _ _ Hx) as E. rewrite length_enc_item in E.
  pose proof (off_bound xs rs (S j) Hwf). unfold loaded. destruct (item_bounds j x Hx).
  rewrite (i32_small (Z.of_nat (length (x_val x)))), (i32_small (Z.of_nat (off xs (S j) - _))) by lia.
  rewrite i32_small by lia.
  by replace (Z.of_nat (off xs (S j) - length (x_val x)) + Z.of_nat (length (x_val x))) with (Z.of_nat (off xs (S j))) by lia.
Qed.

(** ** Decoding keys *)
Definition item_hidden (x : item) : bool :=
  hide && negb (Z.land (Uint64 (drop (length (x_key x) - 8) (x_key x))) trailerObsoleteBit =? 0).
Definition item_ikey (x : item) : InternalKey :=
  let ikey := mkInternalKey (take (length (x_key x) - 8) (x_key x))
    (Z.land (Uint64 (drop (length (x_key x) - 8) (x_key x))) trailerObsoleteMask) in
  if negb (globalSeqNum =? 0) then SetSeqNum ikey globalSeqNum else ikey.
Definition item_userKey (x : item) : bytes := take (length (x_key x) - 8) (x_key x).

Lemma item_ikey_userKey x : UserKey (item_ikey x) = item_userKey x.
Proof. unfold item_ikey. by destruct (negb _). Qed.

Lemma decodeInternalKey_ok i j x :
  over i -> xs !! j = Some x ->
  decodeInternalKey i (x_key x) = (i <| bi_ikey := item_ikey x |>, item_hidden x).
Proof.
  intros Ho Hx. destruct (over_fields i Ho) as (_ & _ & _ & Hg & Hh & _). pose proof (bf_shared _ Hwf j x Hx).
  unfold decodeInternalKey. rewrite (proj2 (Nat.leb_le _ _)) by lia. by rewrite Hg, Hh.
Qed.

(** ** Restart points *)
Lemma restart_offset_ok i h r :
  over i -> rs !! h = Some r -> restart_offset i (Z.of_nat h) = Ret (Z.of_nat (off xs r.1)).
Proof.
  intros Ho Hr. destruct (over_fields i Ho) as (Hd & Hre & _). unfold restart_offset. rewrite Hd, Hre.
  pose proof (bf_size _ _ Hwf) as Hsz. pose proof (lookup_lt_Some _ _ _ Hr) as Hlt.
  rewrite length_block_bytes in Hsz. rewrite i32_small by lia.
  unfold data_from. rewrite (proj2 (Z.leb_le 0 _)) by lia. rewrite length_block_bytes.
  rewrite (proj2 (Z.leb_le _ _)) by lia. cbn [andb]. rewrite bind_Ret.
  replace (Z.to_nat (Z.of_nat (length (enc_items xs)) + 4 * Z.of_nat h)) with (length (enc_items xs) + 4 * h)%nat by lia.
  unfold block_bytes. rewrite drop_app_add, drop_app_le by (rewrite length_enc_restarts; lia).
  rewrite (drop_enc_restarts xs rs h r Hr), <- app_assoc. unfold restart_word. apply decodeRestart_ok.
  pose proof (off_bound xs rs r.1 Hwf). lia.
Qed.
Lemma restart_flag_ok i h r :
  over i -> rs !! h = Some r ->
  exists b, byte_at (bi_data i) (i32 (bi_restarts i + 4 * Z.of_nat h + 3)) = Ret b /\
    (Z.land b restartMaskOnlySetHasSamePrefix =? 0) = negb r.2.
Proof.
  intros Ho Hr. destruct (over_fields i Ho) as (Hd & Hre & _). rewrite Hd, Hre.
  pose proof (bf_size _ _ Hwf) as Hsz. pose proof (lookup_lt_Some _ _ _ Hr) as Hlt.
  rewrite length_block_bytes in Hsz. rewrite i32_small by lia.
  unfold byte_at. rewrite (proj2 (Z.ltb_ge _ _)) by lia.
  replace (Z.to_nat (Z.of_nat (length (enc_items xs)) + 4 * Z.of_nat h + 3)) with (length (enc_items xs) + (4 * h + 3))%nat by lia.
  assert (data !! (length (enc_items xs) + (4 * h + 3))%nat =
    Some (z2b (Z.shiftr (Z.shiftr (Z.shiftr (restart_word xs r) 8) 8) 8))) as ->.
  { unfold block_bytes. rewrite lookup_app_r by lia.
    replace (length (enc_items xs) + (4 * h + 3) - length (enc_items xs))%nat with (4 * h + 3)%nat by lia.
    rewrite lookup_app_l by (rewrite length_enc_restarts; lia).
    rewrite <- lookup_drop, (drop_enc_restarts xs rs h r Hr). by rewrite lookup_app_l by (rewrite length_PutUint32; lia). }
  eexists. split; [done|]. rewrite b2z_z2b, !Z.shiftr_shiftr, Z.shiftr_div_pow2 by lia.
  change (2 ^ (8 + (8 + 8))) with 16777216. pose proof (off_bound xs rs r.1 Hwf) as Hb. unfold restart_word.
  set (q := (Z.of_nat (off xs r.1) + (if r.2 then 2 ^ 31 else 0)) / 16777216).
  assert (0 <= Z.of_nat (off xs r.1) / 16777216 < 128) as Hq.
  { split; [apply Z.div_pos; lia|apply Z.div_lt_upper_bound; lia]. }
  assert (q = Z.of_nat (off xs r.1) / 16777216 + if r.2 then 128 else 0) as Eq.
  { unfold q. destruct r.2; [|by rewrite !Z.add_0_r]. change (2 ^ 31) with (128 * 16777216). by rewrite Z.div_add by lia. }
  rewrite Eq, Z.mod_small by (destruct r.2; lia). unfold restartMaskOnlySetHasSamePrefix.
  apply land_128. lia.
Qed.

(** The first byte of an entry at a restart point is 0; its key follows the other lengths. *)
Lemma restart_key j x :
  xs !! j = Some x -> x_shared x = 0%nat ->
  byte_at data (Z.of_nat (off xs j)) = Ret 0 /\
  exists p q, varint_at data (Z.of_nat (off xs j) + 1) = Ret (Z.of_nat (length (x_key x)), p) /\
    skip_varint data p = Ret q /\ getBytes data q (Z.of_nat (length (x_key x))) = Ret (x_key x).
Proof.
  intros Hx Hs. pose proof (entry_header_ok j x Hx) as Eh. pose proof (key_bytes j x Hx) as Ek.
  rewrite Hs, Nat.sub_0_r in Eh, Ek. cbn [drop] in Ek.
  destruct (data_at j x Hx) as [post E]. unfold enc_item, item_header in E. rewrite Hs, <- !app_assoc in E.
  change (PutUvarint (Z.of_nat 0)) with [Byte.x00] in E.
  assert (varint_at data (Z.of_nat (off xs j)) = Ret (0, Z.of_nat (off xs j) + 1)) as E0.
  { rewrite E. change [Byte.x00] with (PutUvarint 0). unfold off. rewrite varint_at_Put by lia.
    do 2 f_equal. change (length (PutUvarint 0)) with 1%nat. lia. }
  unfold entry_header in Eh. rewrite E0, bind_Ret in Eh. split.
  - unfold byte_at. rewrite (proj2 (Z.ltb_ge _ _)) by lia. rewrite E, Nat2Z.id. unfold off.
    by rewrite lookup_app_r, Nat.sub_diag by lia.
  - destruct (varint_at data (Z.of_nat (off xs j) + 1)) as [[u p]|] eqn:E1; [|done]. rewrite bind_Ret in Eh.
    destruct (varint_at data p) as [[v q]|] eqn:E2; [|done]. rewrite bind_Ret in Eh. injection Eh as -> _ ->.
    exists p, (Z.of_nat (off xs j + length (item_header x))). split; [done|]. split; [|done]. by apply (skip_varint_at _ _ v).
Qed.

Lemma userKey_of_ok j x : xs !! j = Some x -> userKey_of (x_key x) = Some (item_userKey x).
Proof.
  intros Hx. pose proof (bf_shared _ Hwf j x Hx). unfold userKey_of. by rewrite (proj2 (Nat.leb_le _ _)) by lia.
Qed.

Lemma restart_userKey_ok i h r x :
  over i -> rs !! h = Some r -> xs !! r.1 = Some x ->
  restart_userKey i (Z.of_nat h) = Ret (item_userKey x).
Proof.
  intros Ho Hr Hx. destruct (over_fields i Ho) as (Hd & _). unfold restart_userKey.
  rewrite (restart_offset_ok i h r Ho Hr), bind_Ret, Hd.
  destruct (bf_restart _ _ Hwf h r Hr) as (x' & Hx' & Hs). rewrite Hx in Hx'. injection Hx' as <-.
  destruct (restart_key r.1 x Hx Hs) as (_ & p & q & E1 & E2 & E3). pose proof (off_bound xs rs r.1 Hwf).
  rewrite i32_small by lia. rewrite E1, bind_Ret, E2, bind_Ret, E3, bind_Ret. by rewrite (userKey_of_ok r.1 x Hx).
Qed.

(** ** Binary search *)
Lemma restart_search_ok (less : Z -> go bool) k n : forall fuel index upper,
  Z.of_nat n < 2 ^ 30 ->
  (forall h, (h < n)%nat -> less (Z.of_nat h) = Ret (bool_decide (h < k)%nat)) ->
  (index <= k <= upper)%nat -> (upper <= n)%nat -> (upper - index <= fuel)%nat ->
  search fuel less (Z.of_nat index) (Z.of_nat upper) = Ret (Z.of_nat k).
Proof.
  induction fuel as [|fuel IH]; intros index upper Hn Hless Hk Hu Hf; cbn [search].
  - rewrite (proj2 (Z.ltb_ge _ _)) by lia. do 2 f_equal. lia.
  - destruct (Z.ltb_spec (Z.of_nat index) (Z.of_nat upper)) as [Hlt|]; [|do 2 f_equal; lia].
    rewrite (i32_small (Z.of_nat index + Z.of_nat upper)), u64_small by lia. rewrite Z.shiftr_div_pow2 by lia. change (2 ^ 1) with 2.
    set (h := ((index + upper) / 2)%nat).
    assert ((Z.of_nat index + Z.of_nat upper) / 2 = Z.of_nat h) as ->.
    { unfold h. by rewrite Nat2Z.inj_div, Nat2Z.inj_add. }
    assert (index <= h < upper)%nat as Hh.
    { unfold h. split; [apply Nat.div_le_lower_bound; lia|apply Nat.Div0.div_lt_upper_bound; lia]. }
    clearbody h.
    rewrite (i32_small (Z.of_nat h)), Hless, bind_Ret by lia. case_bool_decide.
    + rewrite i32_small by lia. replace (Z.of_nat h + 1) with (Z.of_nat (S h)) by lia. apply IH; [done|done|lia..].
    + apply IH; [done|done|lia..].
Qed.

(** The number of restart points before a position. *)
Definition restarts_before (P : nat -> bool) : nat := length (filter (fun r : restart => P r.1) rs).

(** A search for the first restart point without a property that the first ones have. *)
Lemma search_restarts i (less : Z -> go bool) (P : nat -> bool) :
  over i ->
  (forall h r, rs !! h = Some r -> less (Z.of_nat h) = Ret (P r.1)) ->
  (forall h h' r r', rs !! h = Some r -> rs !! h' = Some r' -> (h <= h')%nat -> P r'.1 = true -> P r.1 = true) ->
  let k := restarts_before P in
  search (Z.to_nat (bi_numRestarts i)) less 0 (bi_numRestarts i) = Ret (Z.of_nat k) /\
  (k <= length rs)%nat /\ (forall h r, rs !! h = Some r -> P r.1 = bool_decide (h < k)%nat).
Proof.
  intros Ho Hless Hmono k. destruct (over_fields i Ho) as (_ & _ & Hnum & _).
  assert (exists m, (m <= length rs)%nat /\ forall h r, rs !! h = Some r -> P r.1 = bool_decide (h < m)%nat) as (m & Hm & Hsplit).
  { by apply (split_point (fun r : restart => P r.1)). }
  assert (k = m) as Ek.
  { unfold k, restarts_before. apply length_filter_prefix; [done| |].
    - intros h r Hr Hh. rewrite (Hsplit h r Hr). by apply bool_decide_pack.
    - intros h r Hr Hh. rewrite (Hsplit h r Hr). intros ?%bool_decide_unpack. lia. }
  rewrite Ek. split; [|done]. rewrite Hnum. pose proof (restart_bound _ _ Hwf). rewrite Nat2Z.id.
  apply (restart_search_ok less m (length rs) (length rs) 0%nat (length rs)); [lia| |lia|lia|lia].
  intros h Hh. destruct (lookup_lt_is_Some_2 rs h Hh) as [r Hr]. by rewrite (Hless h r Hr), (Hsplit h r Hr).
Qed.

(** ** Initialization *)
Lemma blockIter_init_ok i x :
  xs !! 0%nat = Some x -> bi_vbr i = vbr -> bi_hasValuePrefix i = hasPrefix ->
  exists i', blockIter_init i data globalSeqNum hide = Ret (i', None) /\ over i' /\
    getFirstUserKey i' = item_userKey x.
Proof.
  intros Hx Hv Hh. pose proof (bf_size _ _ Hwf) as Hsz. pose proof (length_block_bytes xs rs) as Hl.
  unfold blockIter_init, data_from. rewrite Hl in *.
  rewrite (proj2 (Z.leb_le 0 _)), (proj2 (Z.leb_le _ _)) by lia. cbn [andb]. rewrite bind_Ret.
  assert (Uint32 (drop (Z.to_nat (Z.of_nat (length (enc_items xs) + 4 * length rs + 4) - 4)) data) = Z.of_nat (length rs)) as ->.
  { replace (Z.to_nat _) with (length (enc_items xs ++ enc_restarts xs rs)).
    - unfold block_bytes. rewrite app_assoc, drop_app_length, <- (app_nil_r (PutUint32 _)). apply Uint32_Put. lia.
    - rewrite length_app, length_enc_restarts. lia. }
  destruct (bf_restart0 _ _ Hwf) as [f Hf]. apply lookup_lt_Some in Hf.
  rewrite (i32_small (Z.of_nat (length rs))) by lia. rewrite (proj2 (Z.eqb_neq _ _)) by lia.
  assert (i32 (i32 (Z.of_nat (length (enc_items xs) + 4 * length rs + 4)) - 4 * (1 + Z.of_nat (length rs))) =
    Z.of_nat (length (enc_items xs))) as ->.
  { rewrite (i32_small (Z.of_nat _)) by lia. rewrite i32_small; lia. }
  set (i1 := clearCache _). assert (over i1) as Ho.
  { unfold over, bi_params. cbn. by rewrite Hv, Hh. }
  change (bi_restarts i1) with (Z.of_nat (length (enc_items xs))).
  rewrite (proj2 (Z.ltb_lt _ _)).
  - unfold readFirstKey. change (bi_data i1) with data. destruct (restart_key 0 x Hx (bf_first _ Hwf x Hx)) as (E0 & p & q & E1 & E2 & E3).
    rewrite off_0 in E0, E1. change (Z.of_nat 0) with 0 in E0, E1. rewrite E0, bind_Ret. cbn [Z.eqb negb].
    change (0 + 1) with 1 in E1. rewrite E1, bind_Ret, E2, bind_Ret, E3, bind_Ret, (userKey_of_ok 0 x Hx).
    eexists. split; [reflexivity|]. split; [exact Ho|done].
  - rewrite <- off_end. pose proof (off_lt xs 0 (length xs)) as H. rewrite off_0 in H. apply lookup_lt_Some in Hx. lia.
Qed.
End block.
