(* ===== verification/BlockIter.v ===== *)
(** The iterator over a block (Block.v) is an iterator over its visible entries: moving
    forward and backward. *)
From S2P Require Import Prelude.
From S2P Require Import Comparer.
From S2P Require Import InternalKey.
From S2P Require Import ValueBlock.
From S2P Require Import Block.
From S2P Require Import BlockFormat.
From S2P Require Import Iterators.
From S2P Require Import BlockRead.

Local Open Scope Z_scope.

Section iter.
Context (xs : list item) (rs : list restart) (Hwf : block_wf xs rs).
Context (globalSeqNum : Z) (hide vbr hasPrefix : bool).
(** The bytes of a lazy value. *)
Context (resolve : LazyValue -> bytes).

#[local] Abbreviation data := (block_bytes xs rs).
#[local] Abbreviation off := (off xs).
#[local] Abbreviation over := (over xs rs globalSeqNum hide vbr hasPrefix).
#[local] Abbreviation item_ikey := (item_ikey globalSeqNum).

(** ** The visible entries *)
Definition visible (x : item) : bool := negb (item_hidden hide x).
Definition item_lazy (x : item) : go LazyValue :=
  lazyValue_of hasPrefix vbr (Trailer (item_ikey x)) (x_val x).
Definition item_lv (x : item) : LazyValue :=
  match item_lazy x with Ret lv => lv | Panic _ => MakeInPlaceValue [] end.
Definition kv (x : item) : entry := (item_ikey x, resolve (item_lv x)).
Definition kvs : list entry := kv <$> filter visible xs.
(** How many visible entries there are before entry [q]. *)
Definition vrank (q : nat) : nat := length (filter visible (take q xs)).

Lemma vrank_S q x : xs !! q = Some x -> vrank (S q) = (vrank q + if visible x then 1 else 0)%nat.
Proof.
  intros Hx. unfold vrank. rewrite (take_S_r _ _ _ Hx), filter_app, length_app. f_equal.
  rewrite filter_cons. destruct (visible x); [by rewrite decide_True|by rewrite decide_False by (by intros [])].
Qed.
Lemma vrank_le q q' : (q <= q')%nat -> (vrank q <= vrank q')%nat.
Proof.
  intros Hq. unfold vrank. rewrite <- (take_drop q (take q' xs)), take_take, Nat.min_l by lia.
  rewrite filter_app, length_app. lia.
Qed.
Lemma vrank_end q : (length xs <= q)%nat -> vrank q = length kvs.
Proof. intros Hq. unfold vrank, kvs. by rewrite take_ge, length_fmap by lia. Qed.
Lemma kvs_at q x : xs !! q = Some x -> visible x = true -> kvs !! vrank q = Some (kv x).
Proof.
  intros Hx Hv. unfold kvs, vrank.
  assert (filter visible xs = filter visible (take q xs) ++ x :: filter visible (drop (S q) xs)) as ->.
  { transitivity (filter visible (take q xs ++ x :: drop (S q) xs)); [by rewrite take_drop_middle|].
    by rewrite filter_app, filter_cons, decide_True by (by rewrite Hv). }
  rewrite fmap_app, lookup_app_r; rewrite length_fmap; [|lia]. by rewrite Nat.sub_diag.
Qed.
Lemma kvs_inv n e :
  kvs !! n = Some e -> exists q x, xs !! q = Some x /\ visible x = true /\ vrank q = n /\ e = kv x.
Proof.
  unfold kvs, vrank. rewrite list_lookup_fmap. destruct (filter visible xs !! n) as [x|] eqn:E; [|done]. intros [= <-].
  revert n E. clear. induction xs as [|y l IH]; intros n E; [done|]. rewrite filter_cons in E.
  destruct (visible y) eqn:Hy.
  - rewrite decide_True in E by done. destruct n as [|n].
    + injection E as ->. by exists 0%nat, x.
    + destruct (IH n E) as (q & x' & Hx' & Hv & <- & Hk). exists (S q), x'. split; [done|]. split; [done|]. split; [|done].
      cbn [take]. rewrite filter_cons, decide_True by (by rewrite Hy). done.
  - rewrite decide_False in E by (by intros []). destruct (IH n E) as (q & x' & Hx' & Hv & <- & Hk).
    exists (S q), x'. split; [done|]. split; [done|]. split; [|done].
    cbn [take]. rewrite filter_cons, decide_False by (rewrite Hy; by intros []). done.
Qed.
Lemma vrank_0 : vrank 0 = 0%nat.
Proof. done. Qed.

(** ** What is returned *)
Definition to_entry (kl : lazy_entry) : entry := (kl.1, resolve kl.2).

Lemma returnEntry_ok i x :
  over i -> bi_ikey i = item_ikey x -> bi_val i = x_val x -> item_lazy x = Ret (item_lv x) ->
  returnEntry i = Ret (i <| bi_lazyValue := item_lv x |>, Some (item_ikey x, item_lv x)).
Proof.
  intros Ho Hk Hv Hl. destruct (over_fields _ _ _ _ _ _ _ Ho) as (_ & _ & _ & _ & _ & Hvbr & Hhp).
  unfold returnEntry. rewrite Hk, Hv, Hvbr, Hhp. unfold item_lazy in Hl. rewrite Hl, bind_Ret. cbn. by rewrite Hk.
Qed.

(** ** Positions *)

(** The cached entries are those from [c] up to [q]. *)
Definition cached_ok (i : blockIter) (c q : nat) : Prop :=
  (c + length (bi_cached i) = q)%nat /\
  forall m x, (c <= m < q)%nat -> xs !! m = Some x ->
    exists e, bi_cached i !! (m - c)%nat = Some e /\ be_offset e = Z.of_nat (off m) /\
      getBytes (bi_cachedBuf i) (be_keyStart e) (be_keyEnd e - be_keyStart e) = Ret (x_key x) /\
      getBytes data (be_valStart e) (be_valSize e) = Ret (x_val x).
(** Positioned at entry [p]. *)
Definition at_item (i : blockIter) (p : nat) (x : item) : Prop :=
  over i /\ xs !! p = Some x /\ bi_offset i = Z.of_nat (off p) /\ bi_nextOffset i = Z.of_nat (off (S p)) /\
  bi_key i = x_key x /\ bi_val i = x_val x /\ bi_ikey i = item_ikey x /\
  (exists c, cached_ok i c p) /\ (bi_cachedBuf i = [] -> bi_fullKey i = x_key x /\ bi_cached i = []).
Definition at_after (i : blockIter) : Prop :=
  over i /\ bi_offset i = Z.of_nat (off (length xs)) /\ bi_cached i = [].
Definition at_before (i : blockIter) : Prop :=
  over i /\ bi_nextOffset i = 0 /\ bi_cachedBuf i = [] /\ bi_cached i = [].

(** An entry has just been read; the entries from [c] are cached. *)
Definition keys_from (c m : nat) : bytes := concat (x_key <$> slice xs c m).
Definition reading (i : blockIter) (c m : nat) (x : item) : Prop :=
  over i /\ xs !! m = Some x /\ bi_offset i = Z.of_nat (off m) /\ bi_nextOffset i = Z.of_nat (off (S m)) /\
  bi_key i = x_key x /\ bi_fullKey i = x_key x /\ bi_val i = x_val x /\
  bi_valStart i = Z.of_nat (off (S m) - length (x_val x)) /\
  (c <= m)%nat /\ cached_ok i c m /\ bi_cachedBuf i = keys_from c m.
(** The next entry to be read is [m]. *)
Definition ready (i : blockIter) (c m : nat) : Prop :=
  over i /\ bi_nextOffset i = Z.of_nat (off m) /\ (c <= m)%nat /\ cached_ok i c m /\ bi_cachedBuf i = keys_from c m /\
  forall x, xs !! m = Some x -> prefix_ok (bi_fullKey i) x.

Lemma ready_read i c m x :
  ready i c m -> xs !! m = Some x ->
  exists i', readEntry (i <| bi_offset := bi_nextOffset i |>) = Ret i' /\ reading i' c m x.
Proof.
  intros (Ho & Hn & Hc & Hcache & Hbuf & Hp) Hx.
  rewrite (readEntry_ok xs rs Hwf globalSeqNum hide vbr hasPrefix _ m x); [|exact Ho|done|exact Hn|by apply Hp].
  eexists. split; [done|]. unfold reading. split; [exact Ho|]. by split_and!.
Qed.

Lemma keys_from_S c m x : (c <= m)%nat -> xs !! m = Some x -> keys_from c (S m) = keys_from c m ++ x_key x.
Proof.
  intros Hc Hx. unfold keys_from. rewrite (slice_split xs c m (S m)) by lia. rewrite fmap_app, concat_app. f_equal.
  unfold slice. replace (S m - m)%nat with 1%nat by lia. rewrite (drop_S xs x m Hx). cbn. by rewrite app_nil_r.
Qed.
Lemma length_keys_from c m :
  (c <= m <= length xs)%nat -> (length (keys_from c m) <= sum_list (length <$> (x_key <$> xs)))%nat.
Proof.
  intros Hc. rewrite (slice_decompose xs c m Hc) at 1. rewrite !fmap_app, !sum_list_with_app. unfold keys_from.
  generalize (slice xs c m) as l. intros l. assert (length (concat (x_key <$> l)) = sum_list (length <$> (x_key <$> l))) as ->; [|lia].
  induction l as [|x l IH]; cbn in *; [done|]. by rewrite length_app, IH.
Qed.
Lemma keys_from_bound c m : (c <= m <= length xs)%nat -> Z.of_nat (length (keys_from c m)) < 2 ^ 31.
Proof. intros Hc. pose proof (bf_keys _ _ Hwf). pose proof (length_keys_from c m Hc). lia. Qed.

Lemma cache_ready i c m x : reading i c m x -> ready (cacheEntry i) c (S m).
Proof.
  intros (Ho & Hx & Hoff & Hn & Hk & Hf & Hv & Hvs & Hc & [Hlen Hcache] & Hbuf).
  pose proof (lookup_lt_Some _ _ _ Hx) as Hlt. pose proof (keys_from_bound c m ltac:(lia)) as Hb1.
  pose proof (keys_from_bound c (S m) ltac:(lia)) as Hb2. rewrite (keys_from_S c m x Hc Hx), length_app in Hb2.
  destruct (item_bounds xs rs Hwf m x Hx) as [_ Hvb]. pose proof (off_bound xs rs (S m) Hwf) as Hob.
  unfold ready. split; [exact Ho|]. split; [exact Hn|]. split; [lia|]. split; [split|split].
  - cbn. rewrite length_app. cbn. lia.
  - intros k y Hk' Hy. cbn [cacheEntry bi_cached bi_cachedBuf]. cbn. destruct (decide (k = m)) as [->|Hne].
    + rewrite Hx in Hy. injection Hy as <-. rewrite lookup_app_r by lia. replace (m - c - length (bi_cached i))%nat with 0%nat by lia.
      eexists. split; [done|]. cbn. rewrite Hk, Hbuf, Hv, Hvs. split; [done|].
      rewrite (i32_small (Z.of_nat (length (keys_from c m)))) by lia.
      rewrite (i32_small (Z.of_nat (length (keys_from c m) + length (x_key x)))) by lia. split.
      * replace (Z.of_nat (length (keys_from c m) + length (x_key x)) - Z.of_nat (length (keys_from c m)))
          with (Z.of_nat (length (x_key x))) by lia.
        rewrite <- (app_nil_r (x_key x)) at 1. apply getBytes_mid.
      * rewrite (i32_small (Z.of_nat (length (x_val x)))) by lia.
        destruct (Z.ltb_spec 0 (Z.of_nat (length (x_val x)))).
        -- rewrite i32_small by lia. by apply val_bytes.
        -- assert (x_val x = []) as -> by (apply nil_length_inv; lia). apply getBytes_nil.
    + destruct (Hcache k y ltac:(lia) Hy) as (e & He & H1 & H2 & H3). exists e.
      split; [by apply lookup_app_l_Some|]. split; [done|]. split; [by apply getBytes_app|done].
  - cbn. by rewrite Hbuf, Hk, (keys_from_S c m x Hc Hx).
  - intros y Hy. cbn. rewrite Hf. by apply (prefix_ok_next xs rs Hwf m).
Qed.

Lemma cached_ok_nil i q : bi_cached i = [] -> cached_ok i q q.
Proof. intros Hc. split; [rewrite Hc; cbn; lia|]. intros m x Hm. lia. Qed.
Lemma ready_clear i m :
  over i -> bi_nextOffset i = Z.of_nat (off m) -> bi_cached i = [] -> bi_cachedBuf i = [] ->
  (forall x, xs !! m = Some x -> prefix_ok (bi_fullKey i) x) -> ready i m m.
Proof.
  intros Ho Hn Hc Hb Hp. split; [done|]. split; [done|]. split; [lia|]. split; [by apply cached_ok_nil|].
  split; [|done]. rewrite Hb. unfold keys_from. by rewrite slice_nil.
Qed.

Lemma reading_buf i c m x : reading i c m x -> bi_cachedBuf i = [] -> bi_cached i = [].
Proof.
  intros (_ & Hx & _ & _ & _ & _ & _ & _ & Hc & [Hlen Hcache] & Hbuf) Hb.
  destruct (decide (c = m)) as [->|Hne]; [apply nil_length_inv; lia|]. exfalso.
  pose proof (lookup_lt_Some _ _ _ Hx) as Hlt. destruct (lookup_lt_is_Some_2 xs c ltac:(lia)) as [y Hy].
  destruct (Hcache c y ltac:(lia) Hy) as (e & _ & _ & Hk & _). rewrite Hb in Hk. unfold getBytes in Hk.
  pose proof (bf_shared _ Hwf c y Hy). destruct (_ || _); [done|]. injection Hk as Hk.
  unfold slice in Hk. rewrite drop_nil, take_nil in Hk. rewrite <- Hk in *. cbn in *. lia.
Qed.

(** Returning the entry that has been read. *)
Lemma reading_return i c m x :
  reading i c m x -> item_lazy x = Ret (item_lv x) ->
  let i1 := i <| bi_ikey := item_ikey x |> in
  exists i', returnEntry i1 = Ret (i', Some (bi_ikey i', bi_lazyValue i')) /\ at_item i' m x /\
    bi_ikey i' = item_ikey x /\ bi_lazyValue i' = item_lv x /\ bi_cachedBuf i' = bi_cachedBuf i.
Proof.
  intros Hr Hl i1. pose proof (reading_buf i c m x Hr) as Hb.
  destruct Hr as (Ho & Hx & Hoff & Hn & Hk & Hf & Hv & Hvs & Hc & Hcache & Hbuf).
  rewrite (returnEntry_ok i1 x); [|exact Ho|done|exact Hv|done]. exists (i1 <| bi_lazyValue := item_lv x |>). split; [reflexivity|].
  split; [|done]. split; [exact Ho|]. split; [done|]. do 4 (split; [done|]). split; [done|].
  split; [by exists c|]. intros E. split; [exact Hf|exact (Hb E)].
Qed.

(** ** Forward *)

(** All entries can be returned. *)
Context (Hlazy : Forall (fun x => item_lazy x = Ret (item_lv x)) xs).
Lemma lazy_at j x : xs !! j = Some x -> item_lazy x = Ret (item_lv x).
Proof. intros Hx. rewrite Forall_forall in Hlazy. by apply Hlazy, (list_elem_of_lookup_2 _ j). Qed.

Lemma valid_ok i m : over i -> bi_offset i = Z.of_nat (off m) -> (m <= length xs)%nat ->
  blockIter_valid i = bool_decide (m < length xs)%nat.
Proof.
  intros Ho Hoff Hm. destruct (over_fields _ _ _ _ _ _ _ Ho) as (_ & Hr & _). unfold blockIter_valid.
  rewrite Hr, Hoff, (proj2 (Z.leb_le 0 _)), <- off_end by lia. cbn [andb].
  destruct (Z.ltb_spec (Z.of_nat (off m)) (Z.of_nat (off (length xs)))) as [H|H]; symmetry.
  - apply bool_decide_eq_true_2. apply (off_lt_iff xs); lia.
  - apply bool_decide_eq_false_2. intros Hlt. apply (off_lt_iff xs) in Hlt; lia.
Qed.

(** The result of moving forward to the first visible entry from [q] on. *)
Definition moved_forward (q : nat) (i : blockIter) (r : option lazy_entry) : Prop :=
  to_entry <$> r = kvs !! vrank q /\
  match r with
  | Some kl => exists p x, (q <= p)%nat /\ vrank p = vrank q /\ visible x = true /\ at_item i p x /\
      bi_cachedBuf i = [] /\ kl = (bi_ikey i, bi_lazyValue i)
  | None => at_after i /\ vrank q = length kvs
  end.

Lemma moved_forward_end i : at_after i -> moved_forward (length xs) i None.
Proof.
  intros Hi. split; [|split; [done|by apply vrank_end]]. rewrite vrank_end by lia. symmetry. apply lookup_ge_None. lia.
Qed.

(** What an entry that is read contributes. *)
Lemma reading_decode i c m x :
  reading i c m x ->
  decodeInternalKey i (bi_key i) = (i <| bi_ikey := item_ikey x |>, item_hidden hide x).
Proof.
  intros (Ho & Hx & _ & _ & Hk & _). rewrite Hk. by apply (decodeInternalKey_ok xs rs Hwf globalSeqNum hide vbr hasPrefix _ m).
Qed.
Lemma forward_found i c m x :
  reading i c m x -> bi_cachedBuf i = [] -> item_hidden hide x = false ->
  exists i' r, returnEntry (i <| bi_ikey := item_ikey x |>) = Ret (i', r) /\ moved_forward m i' r.
Proof.
  intros Hr Hb Hh. pose proof Hr as (_ & Hx & _). assert (visible x = true) as Hv by (unfold visible; by rewrite Hh).
  destruct (reading_return i c m x Hr (lazy_at m x Hx)) as (i' & E & Hat & Hk & Hl & Hbuf).
  eexists i', _. split; [exact E|]. split.
  - cbn. unfold to_entry. cbn [fst snd]. rewrite Hk, Hl. by rewrite (kvs_at m x Hx Hv).
  - exists m, x. split; [lia|]. split; [done|]. split; [done|]. split; [done|]. split; [by rewrite Hbuf|done].
Qed.
Lemma moved_forward_hidden q x i r :
  xs !! q = Some x -> item_hidden hide x = true -> moved_forward (S q) i r -> moved_forward q i r.
Proof.
  intros Hx Hh. assert (vrank (S q) = vrank q) as E.
  { rewrite (vrank_S q x Hx). unfold visible. rewrite Hh. cbn. lia. }
  unfold moved_forward. rewrite E. intros [H1 H2]. split; [done|]. destruct r as [kl|]; [|done].
  destruct H2 as (p & y & Hp & H2). exists p, y. split; [lia|done].
Qed.

Lemma next_loop_ok : forall fuel i q,
  ready i q q -> bi_cachedBuf i = [] -> (q <= length xs)%nat -> (length xs - q < fuel)%nat ->
  exists i' r, next_loop fuel i = Ret (i', r) /\ moved_forward q i' r.
Proof.
  induction fuel as [|fuel IH]; intros i q Hr Hb Hq Hf; [lia|]. cbn [next_loop].
  pose proof Hr as (Ho & Hn & _ & [Hlen _] & _). set (i1 := i <| bi_offset := bi_nextOffset i |>).
  rewrite (valid_ok i1 q); [|exact Ho|exact Hn|done]. destruct (decide (q < length xs)%nat) as [Hlt|Hge].
  - rewrite bool_decide_eq_true_2 by done. cbn [negb]. destruct (lookup_lt_is_Some_2 xs q Hlt) as [x Hx].
    destruct (ready_read i q q x Hr Hx) as (i2 & E & Hrd). fold i1 in E. rewrite E, bind_Ret.
    assert (bi_cachedBuf i2 = []) as Hb2.
    { destruct Hrd as (_ & _ & _ & _ & _ & _ & _ & _ & _ & _ & ->). unfold keys_from. by rewrite slice_nil. }
    rewrite (reading_decode i2 q q x Hrd). destruct (item_hidden hide x) eqn:Hh; [|by apply (forward_found i2 q)].
    destruct (IH (i2 <| bi_ikey := item_ikey x |>) (S q)) as (i' & r & E' & Hm); [|done|lia|lia|].
    + pose proof (reading_buf i2 q q x Hrd Hb2) as Hc2.
      destruct Hrd as (Ho2 & _ & _ & Hn2 & _ & Hf2 & _). apply ready_clear; [exact Ho2|done|done|done|].
      intros y Hy. cbn. rewrite Hf2. by apply (prefix_ok_next xs rs Hwf q).
    + exists i', r. split; [done|]. by apply (moved_forward_hidden q x).
  - rewrite bool_decide_eq_false_2 by done. cbn [negb]. exists i1, None. split; [done|].
    assert (q = length xs) as -> by lia. apply moved_forward_end.
    split; [exact Ho|]. split; [exact Hn|]. apply nil_length_inv. change (bi_cached i1) with (bi_cached i). lia.
Qed.

Lemma block_fuel_ok i : over i -> (length xs < block_fuel i)%nat.
Proof.
  intros Ho. destruct (over_fields _ _ _ _ _ _ _ Ho) as (Hd & _). unfold block_fuel. rewrite Hd, length_block_bytes.
  enough (length xs <= length (enc_items xs))%nat by lia. clear. induction xs as [|x l IH]; [done|].
  rewrite enc_items_cons, length_app, length_enc_item. pose proof (length_item_header x). cbn. lia.
Qed.

(** [Next] from an entry, or from before the first one. *)
Lemma Next_item i p x :
  at_item i p x -> exists i' r, blockIter_Next i = Ret (i', r) /\ moved_forward (S p) i' r.
Proof.
  intros (Ho & Hx & Hoff & Hn & Hk & Hv & _ & _ & Hf). unfold blockIter_Next. cbv zeta.
  pose proof (lookup_lt_Some _ _ _ Hx) as Hlt.
  set (i1 := if (0 <? length (bi_cachedBuf i))%nat then clearCache (i <| bi_fullKey := bi_key i |>) else i).
  assert (over i1 /\ bi_nextOffset i1 = Z.of_nat (off (S p)) /\ bi_cached i1 = [] /\ bi_cachedBuf i1 = [] /\
    bi_fullKey i1 = x_key x) as (H1 & H2 & H3 & H4 & H5).
  { unfold i1. destruct (bi_cachedBuf i) as [|b l] eqn:Eb.
    - cbn. destruct (Hf eq_refl). by split_and!.
    - cbn [length Nat.ltb Nat.leb]. by split_and!. }
  apply next_loop_ok; [|done|lia|pose proof (block_fuel_ok i1 H1); lia]. apply ready_clear; [done..|].
  intros y Hy. rewrite H5. by apply (prefix_ok_next xs rs Hwf p).
Qed.
Lemma Next_before i :
  at_before i -> exists i' r, blockIter_Next i = Ret (i', r) /\ moved_forward 0 i' r.
Proof.
  intros (Ho & Hn & Hb & Hc). unfold blockIter_Next. rewrite Hb. cbn [length Nat.ltb Nat.leb].
  apply next_loop_ok; [|done|lia|pose proof (block_fuel_ok i Ho); lia]. apply ready_clear; [done..|].
  intros x Hx. apply prefix_ok_0. by apply (bf_first _ Hwf).
Qed.

(** ** Backward *)

(** The result of moving backward to the last visible entry before [q]. *)
Definition moved_backward (q : nat) (i : blockIter) (r : option lazy_entry) : Prop :=
  to_entry <$> r = match vrank q with O => None | S n => kvs !! n end /\
  match r with
  | Some kl => exists p x, (p < q)%nat /\ S (vrank p) = vrank q /\ visible x = true /\ at_item i p x /\
      kl = (bi_ikey i, bi_lazyValue i)
  | None => at_before i /\ vrank q = 0%nat
  end.

Lemma moved_backward_same q q' i r : vrank q = vrank q' -> (q <= q')%nat -> moved_backward q i r -> moved_backward q' i r.
Proof.
  unfold moved_backward. intros <- Hq [H1 H2]. split; [done|]. destruct r as [kl|]; [|done].
  destruct H2 as (p & x & Hp & H2). exists p, x. split; [lia|done].
Qed.
Lemma backward_found i p x kl :
  at_item i p x -> visible x = true -> kl = (bi_ikey i, bi_lazyValue i) -> bi_lazyValue i = item_lv x ->
  moved_backward (S p) i (Some kl).
Proof.
  intros Hat Hv -> Hl. pose proof Hat as (_ & Hx & _ & _ & _ & _ & Hk & _).
  assert (vrank (S p) = S (vrank p)) as E by (rewrite (vrank_S p x Hx), Hv; lia). split.
  - rewrite E. cbn. unfold to_entry. cbn [fst snd]. rewrite Hk, Hl. by rewrite (kvs_at p x Hx Hv).
  - exists p, x. split; [lia|]. by rewrite E.
Qed.

(** The loop over the cached entries: it finds a visible one, or there is none. *)
Lemma prev_cached_ok i c : forall n q,
  over i -> bi_offset i = Z.of_nat (off q) -> (q <= length xs)%nat -> cached_ok i c (c + length (bi_cached i)) ->
  (n <= length (bi_cached i))%nat -> (c + n = q)%nat ->
  exists i' r, prev_cached n i = Ret (i', r) /\
    match r with
    | Some _ => moved_backward q i' r
    | None => over i' /\ bi_offset i' = Z.of_nat (off c) /\ vrank c = vrank q
    end.
Proof.
  intros n. revert i. induction n as [|n IH]; intros i q Ho Hoff Hq Hcache Hn Hcn; cbn [prev_cached].
  - exists i, None. split; [done|]. split; [done|]. by replace c with q by lia.
  - destruct (lookup_lt_is_Some_2 xs (c + n)%nat ltac:(lia)) as [x Hx].
    destruct Hcache as [Hlen Hcache]. destruct (Hcache (c + n)%nat x ltac:(lia) Hx) as (e & He & He1 & He2 & He3).
    replace (c + n - c)%nat with n in He by lia. rewrite He.
    destruct (over_fields _ _ _ _ _ _ _ Ho) as (Hd & _).
    set (i1 := i <| bi_nextOffset := bi_offset i |> <| bi_offset := be_offset e |>).
    change (bi_data i1) with (bi_data i). rewrite Hd, He3, bind_Ret.
    change (bi_cachedBuf i1) with (bi_cachedBuf i). rewrite He2, bind_Ret.
    set (i2 := i1 <| bi_val := x_val x |> <| bi_valStart := be_valStart e |> <| bi_key := x_key x |>).
    rewrite (decodeInternalKey_ok xs rs Hwf globalSeqNum hide vbr hasPrefix i2 (c + n) x); [|exact Ho|done].
    assert (q = S (c + n)) as -> by lia. destruct (item_hidden hide x) eqn:Hh.
    + destruct (IH i2 (c + n)%nat) as (i' & r & E & Hr); [exact Ho|exact He1|lia|by split|cbn in *; lia|done|].
      exists i', r. split; [exact E|].
      assert (vrank (c + n) = vrank (S (c + n))) as Ev.
      { rewrite (vrank_S _ x Hx). unfold visible. rewrite Hh. cbn. lia. }
      destruct r as [kl|]; [by apply (moved_backward_same (c + n)); [|lia|]|]. by rewrite <- Ev.
    + set (i3 := i2 <| bi_ikey := item_ikey x |> <| bi_cached := take n (bi_cached (i2 <| bi_ikey := item_ikey x |>)) |>).
      rewrite (returnEntry_ok i3 x); [|exact Ho|done|done|by apply (lazy_at (c + n))].
      eexists _, _. split; [reflexivity|]. apply (backward_found _ (c + n) x); [|unfold visible; by rewrite Hh|done|done].
      split; [exact Ho|]. split; [done|]. split; [exact He1|]. split; [exact Hoff|]. do 3 (split; [done|]). split.
      * exists c. split; [cbn; rewrite length_take; lia|]. intros m y Hm Hy.
        destruct (Hcache m y ltac:(lia) Hy) as (e' & Hl & H'). exists e'. split; [|exact H'].
        cbn. by rewrite lookup_take_lt by lia.
      * intros Hb. exfalso. change (bi_cachedBuf i = []) in Hb. rewrite Hb in He2. unfold getBytes in He2.
        destruct (_ || _); [done|]. injection He2 as He2. unfold slice in He2. rewrite drop_nil, take_nil in He2.
        pose proof (bf_shared _ Hwf _ x Hx) as Hs. rewrite <- He2 in Hs. cbn in Hs. lia.
Qed.

Lemma cache_until_ok t : forall fuel i c m x,
  reading i c m x -> (m < t <= length xs)%nat -> (t - m <= fuel)%nat ->
  exists i' y, cache_until fuel i (Z.of_nat (off t)) = Ret i' /\ reading i' c (pred t) y.
Proof.
  induction fuel as [|fuel IH]; intros i c m x Hr Ht Hf; [lia|]. pose proof Hr as (_ & Hx & _ & Hn & _).
  cbn [cache_until]. rewrite Hn. destruct (Z.ltb_spec (Z.of_nat (off (S m))) (Z.of_nat (off t))) as [Hlt|Hge].
  - assert (S m < t)%nat as Hm by (apply (off_lt_iff xs); lia). destruct (lookup_lt_is_Some_2 xs (S m) ltac:(lia)) as [y Hy].
    destruct (ready_read _ c (S m) y (cache_ready i c m x Hr) Hy) as (i' & -> & Hr').
    rewrite bind_Ret. apply (IH i' c (S m) y); [done|lia|lia].
  - assert (t = S m) as ->.
    { destruct (decide (S m < t)%nat) as [Hlt|]; [|lia]. apply (off_lt_iff xs) in Hlt; lia. }
    by exists i, x.
Qed.

(** The restart point to start from in order to get to entry [q]: the last one before it. *)
Lemma search_offset_ok i q :
  over i -> (0 < q <= length xs)%nat ->
  exists h r, search_offset i (Z.of_nat (off q)) = Ret (Z.of_nat (S h)) /\ rs !! h = Some r /\ (r.1 < q)%nat /\
    (forall r', rs !! S h = Some r' -> (q <= r'.1)%nat).
Proof.
  intros Ho Hq. assert (forall h r, rs !! h = Some r -> (r.1 <= length xs)%nat) as Hin.
  { intros h r Hr. destruct (bf_restart _ _ Hwf h r Hr) as (x & Hx & _). apply lookup_lt_Some in Hx. lia. }
  destruct (search_restarts xs rs Hwf globalSeqNum hide vbr hasPrefix i
    (fun h => offset ← restart_offset i h; Ret (offset <? Z.of_nat (off q))) (fun m => bool_decide (m < q)%nat))
    as (E & Hk & Hsplit); [done| | |].
  - intros h r Hr. rewrite (restart_offset_ok xs rs Hwf globalSeqNum hide vbr hasPrefix i h r Ho Hr), bind_Ret. f_equal.
    pose proof (Hin h r Hr) as Hle. destruct (Z.ltb_spec (Z.of_nat (off r.1)) (Z.of_nat (off q))) as [H|H]; symmetry.
    + apply bool_decide_eq_true_2. apply (off_lt_iff xs); lia.
    + apply bool_decide_eq_false_2. intros Hlt. apply (off_lt_iff xs) in Hlt; lia.
  - intros h h' r r' Hr Hr' Hh. rewrite !bool_decide_eq_true. intros H.
    destruct (decide (h = h')) as [->|Hne]; [congruence|]. pose proof (bf_increasing _ _ Hwf h h' r r' Hr Hr' ltac:(lia)). lia.
  - set (k := restarts_before rs _) in *. destruct (bf_restart0 _ _ Hwf) as [f Hf].
    pose proof (Hsplit _ _ Hf) as H0. cbn [fst] in H0. rewrite bool_decide_eq_true_2 in H0 by lia. symmetry in H0.
    apply bool_decide_eq_true in H0. destruct k as [|h]; [lia|].
    destruct (lookup_lt_is_Some_2 rs h ltac:(lia)) as [r Hr]. exists h, r.
    split; [exact E|]. split; [done|]. split.
    + pose proof (Hsplit h r Hr) as H. rewrite (bool_decide_eq_true_2 (h < S h)%nat) in H by lia. by apply bool_decide_eq_true in H.
    + intros r' Hr'. pose proof (Hsplit (S h) r' Hr') as H. rewrite (bool_decide_eq_false_2 (S h < S h)%nat) in H by lia.
      apply bool_decide_eq_false in H. lia.
Qed.

(** Reading from a restart point, with an empty cache. *)
Lemma restart_read i h r :
  over i -> rs !! h = Some r -> bi_offset i = Z.of_nat (off r.1) -> bi_cached i = [] -> bi_cachedBuf i = [] ->
  exists i' x, readEntry i = Ret i' /\ reading i' r.1 r.1 x.
Proof.
  intros Ho Hr Hoff Hc Hb. destruct (bf_restart _ _ Hwf h r Hr) as (x & Hx & Hs).
  rewrite (readEntry_ok xs rs Hwf globalSeqNum hide vbr hasPrefix _ r.1 x); [|done|done|done|by apply prefix_ok_0].
  eexists _, x. split; [done|]. split; [exact Ho|]. do 7 (split; [done|]). split; [lia|]. split; [by apply cached_ok_nil|].
  change (bi_cachedBuf i = keys_from r.1 r.1). rewrite Hb. unfold keys_from. by rewrite slice_nil.
Qed.

(** The state in which backward iteration continues: before entry [q] there are cached
    entries. *)
Definition backward_from (i : blockIter) (c q : nat) : Prop :=
  over i /\ bi_offset i = Z.of_nat (off q) /\ (q <= length xs)%nat /\ cached_ok i c q.

Lemma reading_backward i c m x : reading i c m x -> backward_from i c m.
Proof.
  intros (Ho & Hx & Hoff & _ & _ & _ & _ & _ & _ & Hcache & _). split; [done|]. split; [done|]. split; [|done].
  apply lookup_lt_Some in Hx. lia.
Qed.

Lemma prev_loop_ok : forall fuel i c q,
  backward_from i c q -> (q < fuel)%nat ->
  exists i' r, prev_loop fuel i = Ret (i', r) /\ moved_backward q i' r.
Proof.
  induction fuel as [|fuel IH]; intros i c q (Ho & Hoff & Hq & Hcache) Hf; [lia|]. cbn [prev_loop].
  pose proof Hcache as [Hlen _]. destruct (prev_cached_ok i c (length (bi_cached i)) q) as (i1 & r1 & -> & Hr1);
    [done|done|done|by rewrite Hlen|lia|done|]. rewrite bind_Ret. destruct r1 as [kl|]; [by exists i1, (Some kl)|].
  destruct Hr1 as (Ho1 & Hoff1 & Hv). change (bi_offset (clearCache i1)) with (bi_offset i1). rewrite Hoff1.
  destruct (decide (c = 0%nat)) as [->|Hc].
  - rewrite off_0. cbn [Z.of_nat Z.leb Z.compare]. eexists _, None. split; [reflexivity|].
    rewrite vrank_0 in Hv. split; [by rewrite <- Hv|]. split; [|done]. split; [exact Ho1|]. by split_and!.
  - assert (c <= length xs)%nat as Hcl by lia. pose proof (off_lt xs 0 c ltac:(lia) ltac:(lia)) as H0. rewrite off_0 in H0.
    rewrite (proj2 (Z.leb_gt _ _)) by lia.
    destruct (search_offset_ok (clearCache i1) c Ho1 ltac:(lia)) as (h & r & -> & Hr & Hrc & _). rewrite bind_Ret.
    rewrite (proj2 (Z.ltb_lt 0 _)) by lia. replace (Z.of_nat (S h) - 1) with (Z.of_nat h) by lia.
    rewrite (restart_offset_ok xs rs Hwf globalSeqNum hide vbr hasPrefix (clearCache i1) h r Ho1 Hr), bind_Ret.
    destruct (restart_read ((clearCache i1) <| bi_offset := Z.of_nat (off r.1) |>) h r) as (i2 & x & -> & Hrd); [exact Ho1|done..|].
    rewrite bind_Ret. pose proof Hrd as (Ho2 & _).
    destruct (cache_until_ok c (block_fuel i2) i2 r.1 r.1 x Hrd) as (i3 & y & -> & Hrd3);
      [lia|pose proof (block_fuel_ok i2 Ho2); lia|]. rewrite bind_Ret. rewrite (reading_decode i3 _ _ _ Hrd3).
    pose proof Hrd3 as (_ & Hy & _). assert (vrank c = (vrank (pred c) + if visible y then 1 else 0)%nat) as Ev.
    { rewrite <- (vrank_S _ _ Hy). f_equal. lia. }
    unfold visible in Ev. destruct (item_hidden hide y) eqn:Hh.
    + destruct (IH (i3 <| bi_ikey := item_ikey y |>) r.1 (pred c)) as (i' & r' & E & Hm).
      * exact (reading_backward i3 _ _ _ Hrd3).
      * lia.
      * exists i', r'. split; [exact E|]. apply (moved_backward_same (pred c)); [cbn in Ev; lia|lia|done].
    + destruct (reading_return i3 _ _ y Hrd3 (lazy_at _ y Hy)) as (i' & -> & Hat & Hk & Hl & _).
      exists i', (Some (bi_ikey i', bi_lazyValue i')). split; [done|]. apply (moved_backward_same c); [done|lia|].
      replace c with (S (pred c)) by lia. apply (backward_found i' (pred c) y); [done|unfold visible; by rewrite Hh|done|done].
Qed.
Lemma Prev_ok i c q : backward_from i c q -> exists i' r, blockIter_Prev i = Ret (i', r) /\ moved_backward q i' r.
Proof.
  intros Hb. pose proof Hb as (Ho & _ & Hq & _). apply (prev_loop_ok _ i c q Hb).
  pose proof (block_fuel_ok i Ho). lia.
Qed.

(** An entry has been read that is the last one to be returned, if it is visible. *)
Lemma finish_backward i c m x :
  reading i c m x ->
  let i1 := i <| bi_ikey := item_ikey x |> in
  exists i' r, (if item_hidden hide x then blockIter_Prev i1 else returnEntry i1) = Ret (i', r) /\ moved_backward (S m) i' r.
Proof.
  intros Hr i1. pose proof Hr as (_ & Hx & _). pose proof (vrank_S _ _ Hx) as Ev. unfold visible in Ev.
  destruct (item_hidden hide x) eqn:Hh.
  - destruct (Prev_ok i1 c m) as (i' & r & E & Hm); [exact (reading_backward i c m x Hr)|].
    exists i', r. split; [done|]. apply (moved_backward_same m); [cbn in Ev; lia|lia|done].
  - destruct (reading_return i c m x Hr (lazy_at m x Hx)) as (i' & E & Hat & Hk & Hl & _).
    eexists i', _. split; [exact E|]. apply (backward_found i' m x); [done|unfold visible; by rewrite Hh|done|done].
Qed.

Lemma at_item_backward i p x : at_item i p x -> exists c, backward_from i c p.
Proof.
  intros (Ho & Hx & Hoff & _ & _ & _ & _ & [c Hc] & _). exists c. split; [done|]. split; [done|].
  split; [|done]. apply lookup_lt_Some in Hx. lia.
Qed.
Lemma at_after_backward i : at_after i -> backward_from i (length xs) (length xs).
Proof. intros (Ho & Hoff & Hc). split; [done|]. split; [done|]. split; [lia|]. by apply cached_ok_nil. Qed.

(** ** First and last *)
Context (Hne : xs <> []).
Lemma length_xs : (0 < length xs)%nat.
Proof. by destruct xs; [|cbn; lia]. Qed.

Lemma First_ok i : over i -> exists i' r, blockIter_First i = Ret (i', r) /\ moved_forward 0 i' r.
Proof.
  intros Ho. pose proof length_xs. unfold blockIter_First. set (i1 := i <| bi_offset := 0 |>).
  rewrite (valid_ok i1 0); [|exact Ho|done|lia]. rewrite bool_decide_eq_true_2 by lia. cbn [negb].
  destruct (bf_restart0 _ _ Hwf) as [f Hf].
  destruct (restart_read (clearCache i1) 0 _ Ho Hf eq_refl eq_refl eq_refl) as (i2 & x & -> & Hrd). cbn [fst] in Hrd.
  rewrite bind_Ret. rewrite (reading_decode i2 _ _ _ Hrd). assert (bi_cachedBuf i2 = []) as Hb2.
  { destruct Hrd as (_ & _ & _ & _ & _ & _ & _ & _ & _ & _ & ->). unfold keys_from. by rewrite slice_nil. }
  destruct (item_hidden hide x) eqn:Hh; [|by apply (forward_found i2 0)].
  pose proof (reading_buf i2 _ _ _ Hrd Hb2) as Hc2.
  pose proof Hrd as (Ho2 & Hx & Hoff2 & Hn2 & Hk2 & Hf2 & Hv2 & _).
  destruct (Next_item (i2 <| bi_ikey := item_ikey x |>) 0 x) as (i' & r & E & Hm).
  - split; [exact Ho2|]. do 6 (split; [done|]). split; [exists 0%nat; by apply cached_ok_nil|]. done.
  - exists i', r. split; [done|]. by apply (moved_forward_hidden 0 x).
Qed.

Lemma Last_ok i : over i -> exists i' r, blockIter_Last i = Ret (i', r) /\ moved_backward (length xs) i' r.
Proof.
  intros Ho. pose proof length_xs as Hlen. unfold blockIter_Last.
  destruct (over_fields _ _ _ _ _ _ _ Ho) as (_ & Hres & Hnum & _). rewrite Hnum.
  destruct (bf_restart0 _ _ Hwf) as [f Hf]. apply lookup_lt_Some in Hf.
  destruct (lookup_lt_is_Some_2 rs (pred (length rs)) ltac:(lia)) as [r Hr].
  replace (Z.of_nat (length rs) - 1) with (Z.of_nat (pred (length rs))) by lia.
  rewrite (restart_offset_ok xs rs Hwf globalSeqNum hide vbr hasPrefix i _ r Ho Hr), bind_Ret.
  set (i1 := i <| bi_offset := Z.of_nat (off r.1) |>). destruct (bf_restart _ _ Hwf _ r Hr) as (x0 & Hx0 & Hs0).
  pose proof (lookup_lt_Some _ _ _ Hx0) as Hlt0. rewrite (valid_ok i1 r.1); [|exact Ho|done|lia].
  rewrite bool_decide_eq_true_2 by lia. cbn [negb].
  rewrite (readEntry_ok xs rs Hwf globalSeqNum hide vbr hasPrefix i1 r.1 x0 Ho Hx0 eq_refl (prefix_ok_0 _ _ Hs0)), bind_Ret.
  assert (reading (clearCache (loaded xs i1 r.1 x0)) r.1 r.1 x0) as Hrd.
  { split; [exact Ho|]. do 7 (split; [done|]). split; [lia|]. split; [by apply cached_ok_nil|].
    change ([] = keys_from r.1 r.1). unfold keys_from. by rewrite slice_nil. }
  change (bi_restarts (loaded xs i1 r.1 x0)) with (bi_restarts i). rewrite Hres, <- off_end.
  destruct (cache_until_ok (length xs) (block_fuel (loaded xs i1 r.1 x0)) _ _ _ _ Hrd) as (i3 & y & -> & Hrd3);
    [lia|pose proof (block_fuel_ok (loaded xs i1 r.1 x0) Ho); lia|].
  rewrite bind_Ret, (reading_decode i3 _ _ _ Hrd3).
  destruct (finish_backward i3 _ _ _ Hrd3) as (i' & r' & E & Hm). exists i', r'. split; [exact E|].
  by replace (length xs) with (S (pred (length xs))) by lia.
Qed.
End iter.
