(* ===== verification/BlockSeek.v ===== *)
(** Searching in a block (Block.v): [SeekGE], [SeekLT], and [NextPrefix] for blocks without
    value prefixes. *)
From S2P Require Import Prelude.
From S2P Require Import Comparer.
From S2P Require Import InternalKey.
From S2P Require Import ValueBlock.
From S2P Require Import Block.
From S2P Require Import BlockFormat.
From S2P Require Import Iterators.
From S2P Require Import BlockRead.
From S2P Require Import BlockIter.

Local Open Scope Z_scope.

Section seek.
Context {C : Comparer} {L : ComparerLaws C}.
Context (xs : list item) (rs : list restart) (Hwf : block_wf xs rs) (Hne : xs <> []).
Context (globalSeqNum : Z) (hide vbr hasPrefix : bool) (resolve : LazyValue -> bytes).
Context (Hlazy : Forall (fun x => item_lazy globalSeqNum vbr hasPrefix x = Ret (item_lv globalSeqNum vbr hasPrefix x)) xs).
(** The user keys are in order. *)
Context (Hsorted : forall j k x y, xs !! j = Some x -> xs !! k = Some y -> (j <= k)%nat ->
  Compare (item_userKey x) (item_userKey y) <> Gt).

#[local] Abbreviation off := (off xs).
#[local] Abbreviation over := (over xs rs globalSeqNum hide vbr hasPrefix).
#[local] Abbreviation item_ikey := (item_ikey globalSeqNum).
#[local] Abbreviation kvs := (kvs xs globalSeqNum hide vbr hasPrefix resolve).
#[local] Abbreviation vrank := (vrank xs hide).
#[local] Abbreviation at_item := (at_item xs rs globalSeqNum hide vbr hasPrefix).
#[local] Abbreviation reading := (reading xs rs globalSeqNum hide vbr hasPrefix).
#[local] Abbreviation ready := (ready xs rs globalSeqNum hide vbr hasPrefix).
#[local] Abbreviation moved_forward := (moved_forward xs rs globalSeqNum hide vbr hasPrefix resolve).
#[local] Abbreviation moved_backward := (moved_backward xs rs globalSeqNum hide vbr hasPrefix resolve).

(** ** The rank of a key *)
Definition before (key : bytes) (x : item) : bool := bool_decide (Compare (item_userKey x) key = Lt).

Lemma before_split key :
  exists m, (m <= length xs)%nat /\ forall j x, xs !! j = Some x -> before key x = bool_decide (j < m)%nat.
Proof.
  apply split_point. intros j k x y Hx Hy Hjk. unfold before. rewrite !bool_decide_eq_true.
  apply compare_le_lt_trans. exact (Hsorted j k x y Hx Hy Hjk).
Qed.

Lemma rank_kvs key m :
  (forall j x, xs !! j = Some x -> before key x = bool_decide (j < m)%nat) -> rank kvs key = vrank m.
Proof.
  intros Hm. unfold rank. assert (forall n e, kvs !! n = Some e -> key_before key e <-> (n < vrank m)%nat) as Hiff.
  { intros n e He. destruct (kvs_inv xs globalSeqNum hide vbr hasPrefix resolve n e He) as (q & x & Hx & Hv & <- & ->).
    unfold key_before, kv. cbn [fst]. rewrite item_ikey_userKey. pose proof (Hm q x Hx) as Hb. unfold before in Hb.
    assert (Compare (item_userKey x) key = Lt <-> (q < m)%nat) as -> by (split; intros H; revert Hb; repeat case_bool_decide; done).
    split; intros H.
    - pose proof (vrank_le xs hide (S q) m H) as Hle. rewrite (vrank_S xs hide q x Hx), Hv in Hle. lia.
    - destruct (decide (q < m)%nat) as [|Hge]; [done|]. pose proof (vrank_le xs hide m q ltac:(lia)). lia. }
  apply length_filter_prefix.
  - rewrite <- (vrank_end xs globalSeqNum hide vbr hasPrefix resolve (Nat.max m (length xs))) by lia. apply vrank_le. lia.
  - intros n e He Hn. by apply (Hiff n e He).
  - intros n e He Hn Hb. apply (Hiff n e He) in Hb. lia.
Qed.

(** ** Searching the restart points *)
Lemma search_userKey_ok i key :
  over i ->
  exists k, search_userKey i key = Ret (Z.of_nat k) /\ (k <= length rs)%nat /\
    forall h r x, rs !! h = Some r -> xs !! r.1 = Some x -> before key x = bool_decide (h < k)%nat.
Proof.
  intros Ho. set (P := fun m : nat => match xs !! m with Some x => before key x | None => false end).
  destruct (search_restarts xs rs Hwf globalSeqNum hide vbr hasPrefix i
    (fun h => k ← restart_userKey i h; Ret (bool_decide (Compare key k = Gt))) P) as (E & Hk & Hsplit); [done| | |].
  - intros h r Hr. destruct (bf_restart _ _ Hwf h r Hr) as (x & Hx & _).
    rewrite (restart_userKey_ok xs rs Hwf globalSeqNum hide vbr hasPrefix i h r x Ho Hr Hx), bind_Ret.
    unfold P. rewrite Hx. unfold before. f_equal. apply bool_decide_ext. apply compare_gt_lt.
  - intros h h' r r' Hr Hr' Hh. unfold P. destruct (bf_restart _ _ Hwf h r Hr) as (x & Hx & _).
    destruct (bf_restart _ _ Hwf h' r' Hr') as (y & Hy & _). rewrite Hx, Hy. unfold before. rewrite !bool_decide_eq_true.
    apply compare_le_lt_trans. apply (Hsorted r.1 r'.1 x y Hx Hy).
    destruct (decide (h = h')) as [->|Hne']; [rewrite Hr in Hr'; by injection Hr' as ->|].
    pose proof (bf_increasing _ _ Hwf h h' r r' Hr Hr' ltac:(lia)). lia.
  - exists (restarts_before rs P). split; [exact E|]. split; [done|]. intros h r x Hr Hx.
    pose proof (Hsplit h r Hr) as H. unfold P in H. by rewrite Hx in H.
Qed.

(** ** SeekGE *)
Section key.
Context (key : bytes) (m : nat) (Hm : (m <= length xs)%nat).
Context (Hsplit : forall j x, xs !! j = Some x -> before key x = bool_decide (j < m)%nat).

Lemma not_before_ok i j x :
  xs !! j = Some x -> bi_ikey i = item_ikey x -> not_before i key = negb (bool_decide (j < m)%nat).
Proof.
  intros Hx Hk. unfold not_before. rewrite Hk, item_ikey_userKey, <- (Hsplit j x Hx). unfold before.
  repeat case_bool_decide; done.
Qed.

Lemma moved_forward_to q i r :
  moved_forward q i r -> vrank q = vrank m ->
  match r with Some _ => forall p x, at_item i p x -> (m <= p)%nat | None => True end -> moved_forward m i r.
Proof.
  intros [H1 H2] E Hp. split; [by rewrite <- E|]. destruct r as [kl|]; [|by rewrite <- E].
  destruct H2 as (p & x & Hq & Hv & Hvis & Hat & Hrest). exists p, x. split; [by apply (Hp p x)|]. by rewrite Hv.
Qed.
Lemma at_item_unique i p q x y : at_item i p x -> at_item i q y -> p = q.
Proof.
  intros (_ & Hx & Hp & _) (_ & Hy & Hq & _). apply lookup_lt_Some in Hx. apply lookup_lt_Some in Hy.
  apply (off_inj xs); lia.
Qed.

Lemma seekGE_loop_ok : forall fuel i p x,
  at_item i p x -> (vrank (S p) <= vrank m)%nat -> (length xs - p <= fuel)%nat ->
  exists i' r, seekGE_loop fuel i key = Ret (i', r) /\ moved_forward m i' r.
Proof.
  induction fuel as [|fuel IH]; intros i p x Hat Hv Hf.
  { destruct Hat as (_ & Hx & _). apply lookup_lt_Some in Hx. lia. }
  cbn [seekGE_loop].
  destruct (Next_item xs rs Hwf globalSeqNum hide vbr hasPrefix resolve Hlazy i p x Hat) as (i1 & r1 & -> & Hmv). rewrite bind_Ret.
  pose proof Hmv as [Hr1 Hmv']. destruct r1 as [kl|].
  - destruct Hmv' as (p1 & x1 & Hp1 & Hv1 & Hvis1 & Hat1 & Hb1 & Hkl). pose proof Hat1 as (Ho1 & Hx1 & Hoff1 & _ & _ & _ & Hk1 & _).
    pose proof (lookup_lt_Some _ _ _ Hx1) as Hlt1.
    rewrite (valid_ok xs rs globalSeqNum hide vbr hasPrefix i1 p1 Ho1 Hoff1 ltac:(lia)), bool_decide_eq_true_2 by done. cbn [negb].
    rewrite (not_before_ok i1 p1 x1 Hx1 Hk1). destruct (decide (p1 < m)%nat) as [Hlt|Hge].
    + rewrite bool_decide_eq_true_2 by done. cbn [negb]. apply (IH i1 p1 x1 Hat1); [by apply vrank_le|lia].
    + rewrite bool_decide_eq_false_2 by done. cbn [negb]. exists i1, (Some kl). rewrite <- Hkl. split; [done|].
      apply (moved_forward_to (S p)); [done| |].
      * pose proof (vrank_le xs hide m p1 ltac:(lia)). lia.
      * intros q y Hq. rewrite (at_item_unique i1 q p1 y x1 Hq Hat1). lia.
  - destruct Hmv' as [Haf Hend]. pose proof Haf as (Ho1 & Hoff1 & _).
    rewrite (valid_ok xs rs globalSeqNum hide vbr hasPrefix i1 (length xs) Ho1 Hoff1 ltac:(lia)), bool_decide_eq_false_2 by lia. cbn [negb].
    exists i1, None. split; [done|]. apply (moved_forward_to (S p)); [done| |done].
    pose proof (vrank_le xs hide m (length xs) Hm) as H. rewrite (vrank_end xs globalSeqNum hide vbr hasPrefix resolve (length xs)) in H by lia. lia.
Qed.

(** The restart point from which the search goes on: nothing before it is sought. *)
Lemma seek_restart i k :
  over i -> (k <= length rs)%nat ->
  (forall h r x, rs !! h = Some r -> xs !! r.1 = Some x -> before key x = bool_decide (h < k)%nat) ->
  exists h r, (if 0 <? Z.of_nat k then restart_offset i (Z.of_nat k - 1) else Ret 0) = Ret (Z.of_nat (off r.1)) /\
    rs !! h = Some r /\ (k = 0%nat /\ r.1 = 0%nat /\ m = 0%nat \/ k = S h /\ (r.1 < m)%nat).
Proof.
  intros Ho Hk Hs. destruct (decide (k = 0%nat)) as [->|Hne0].
  - destruct (bf_restart0 _ _ Hwf) as [f Hf]. destruct (bf_restart _ _ Hwf _ _ Hf) as (x & Hx & _).
    exists 0%nat, (0%nat, f). cbn [fst]. split; [done|]. split; [done|]. left. split; [done|]. split; [done|].
    pose proof (Hs _ _ _ Hf Hx) as H0. rewrite (Hsplit _ _ Hx) in H0. cbn [fst] in H0.
    destruct (decide (0 < m)%nat) as [Hlt|]; [|lia]. by rewrite !bool_decide_eq_true_2 in H0 by lia.
  - destruct (lookup_lt_is_Some_2 rs (pred k) ltac:(lia)) as [r Hr]. destruct (bf_restart _ _ Hwf _ _ Hr) as (x & Hx & _).
    exists (pred k), r. rewrite (proj2 (Z.ltb_lt _ _)) by lia. replace (Z.of_nat k - 1) with (Z.of_nat (pred k)) by lia.
    split; [by apply (restart_offset_ok xs rs Hwf globalSeqNum hide vbr hasPrefix)|]. split; [done|]. right. split; [lia|].
    pose proof (Hs _ _ _ Hr Hx) as H0. rewrite (Hsplit _ _ Hx), (bool_decide_eq_true_2 (pred k < k)%nat) in H0 by lia.
    by apply bool_decide_eq_true in H0.
Qed.

Lemma block_SeekGE_ok i : over i -> exists i' r, blockIter_SeekGE i key = Ret (i', r) /\ moved_forward m i' r.
Proof.
  intros Ho. unfold blockIter_SeekGE. set (i1 := clearCache _). assert (over i1) as Ho1 by exact Ho.
  destruct (search_userKey_ok i1 key Ho1) as (k & -> & Hk & Hks). rewrite bind_Ret.
  destruct (seek_restart i1 k Ho1 Hk Hks) as (h & r & -> & Hr & Hcase). rewrite bind_Ret.
  destruct (restart_read xs rs Hwf globalSeqNum hide vbr hasPrefix (i1 <| bi_offset := Z.of_nat (off r.1) |>) h r)
    as (i2 & x & -> & Hrd); [exact Ho1|done..|].
  rewrite bind_Ret, (reading_decode xs rs Hwf globalSeqNum hide vbr hasPrefix i2 _ _ _ Hrd). pose proof Hrd as (Ho2 & Hx & Hoff2 & Hn2 & Hk2 & Hf2 & Hv2 & _).
  pose proof (lookup_lt_Some _ _ _ Hx) as Hlt.
  rewrite (valid_ok xs rs globalSeqNum hide vbr hasPrefix _ r.1); [|exact Ho2|exact Hoff2|lia].
  rewrite bool_decide_eq_true_2 by done. cbn [negb].
  rewrite (not_before_ok _ r.1 x Hx); [|done].
  assert (bi_cachedBuf i2 = []) as Hb2.
  { destruct Hrd as (_ & _ & _ & _ & _ & _ & _ & _ & _ & _ & ->). unfold keys_from. by rewrite slice_nil. }
  pose proof (reading_buf xs rs Hwf globalSeqNum hide vbr hasPrefix i2 _ _ _ Hrd Hb2) as Hc2.
  assert (at_item (i2 <| bi_ikey := item_ikey x |>) r.1 x) as Hat.
  { split; [exact Ho2|]. do 6 (split; [done|]). split; [exists r.1; by apply cached_ok_nil|done]. }
  assert (block_fuel (i2 <| bi_ikey := item_ikey x |>) = block_fuel i2) as Efuel by done.
  destruct Hcase as [(-> & Hr0 & Hm0)|(-> & Hlt0)].
  - rewrite (bool_decide_eq_false_2 (r.1 < m)%nat) by lia. destruct (item_hidden hide x) eqn:Hh; cbn [negb andb].
    + apply (seekGE_loop_ok _ _ r.1 x Hat); [|rewrite Efuel; pose proof (block_fuel_ok xs rs globalSeqNum hide vbr hasPrefix i2 Ho2); lia].
      rewrite (vrank_S xs hide r.1 x Hx), Hr0, Hm0. unfold visible. rewrite Hh. done.
    + destruct (forward_found xs rs Hwf globalSeqNum hide vbr hasPrefix resolve Hlazy i2 _ _ x Hrd Hb2 Hh) as (i' & r' & E & Hmv).
      exists i', r'. split; [exact E|]. by rewrite Hm0, <- Hr0.
  - rewrite (bool_decide_eq_true_2 (r.1 < m)%nat) by lia. rewrite andb_false_r.
    apply (seekGE_loop_ok _ _ r.1 x Hat); [by apply vrank_le|rewrite Efuel].
    pose proof (block_fuel_ok xs rs globalSeqNum hide vbr hasPrefix i2 Ho2). lia.
Qed.

(** ** SeekLT *)
Lemma seekLT_loop_ok t c : forall fuel i q,
  ready i c q -> (q <= m)%nat -> (q < t)%nat -> (m <= t <= length xs)%nat -> (t - q <= fuel)%nat ->
  exists i' r, seekLT_loop fuel i key (Z.of_nat (off t)) = Ret (i', r) /\ moved_backward m i' r.
Proof.
  induction fuel as [|fuel IH]; intros i q Hrdy Hq Hqt Ht Hf; [lia|]. cbn [seekLT_loop].
  destruct (lookup_lt_is_Some_2 xs q ltac:(lia)) as [x Hx].
  destruct (ready_read xs rs Hwf globalSeqNum hide vbr hasPrefix i c q x Hrdy Hx) as (i1 & -> & Hrd).
  rewrite bind_Ret, (reading_decode xs rs Hwf globalSeqNum hide vbr hasPrefix i1 _ _ _ Hrd).
  rewrite (not_before_ok _ q x Hx) by done. pose proof Hrd as (Ho1 & _ & Hoff1 & Hn1 & _).
  set (i2 := i1 <| bi_ikey := item_ikey x |>). assert (reading i2 c q x) as Hrd2 by exact Hrd.
  destruct (decide (q < m)%nat) as [Hlt|Hge].
  - rewrite bool_decide_eq_true_2 by done. cbn [negb]. change (bi_nextOffset i2) with (bi_nextOffset i1). rewrite Hn1.
    destruct (Z.leb_spec (Z.of_nat (off t)) (Z.of_nat (off (S q)))) as [Hle|Hgt].
    + assert (t = S q) as ->.
      { destruct (decide (S q < t)%nat) as [H|]; [|lia]. apply (off_lt_iff xs) in H; lia. }
      assert (m = S q) as -> by lia.
      rewrite (valid_ok xs rs globalSeqNum hide vbr hasPrefix i2 q Ho1 Hoff1 ltac:(lia)), bool_decide_eq_true_2 by lia. cbn [negb].
      exact (finish_backward xs rs Hwf globalSeqNum hide vbr hasPrefix resolve Hlazy i1 c q x Hrd).
    + assert (S q < t)%nat as Hlt' by (apply (off_lt_iff xs); lia).
      apply (IH (cacheEntry i2) (S q)); [by apply (cache_ready xs rs Hwf _ _ _ _ i2 c q x)|lia..].
  - rewrite bool_decide_eq_false_2 by done. cbn [negb]. assert (m = q) as -> by lia.
    apply (Prev_ok xs rs Hwf globalSeqNum hide vbr hasPrefix resolve Hlazy i2 c q).
    exact (reading_backward xs rs globalSeqNum hide vbr hasPrefix i1 c q x Hrd).
Qed.

Lemma block_SeekLT_ok i : over i -> exists i' r, blockIter_SeekLT i key = Ret (i', r) /\ moved_backward m i' r.
Proof.
  intros Ho. unfold blockIter_SeekLT. set (i1 := clearCache _). assert (over i1) as Ho1 by exact Ho.
  destruct (search_userKey_ok i1 key Ho1) as (k & -> & Hk & Hks). rewrite bind_Ret.
  destruct (seek_restart i1 k Ho1 Hk Hks) as (h & r & E & Hr & Hcase).
  destruct Hcase as [(-> & _ & ->)|(-> & Hlt0)].
  - change (0 <? Z.of_nat 0) with false. cbn [negb]. eexists _, None. split; [reflexivity|]. split; [done|].
    split; [|done]. split; [exact Ho1|]. by split_and!.
  - rewrite (proj2 (Z.ltb_lt 0 _)) in E |- * by lia. rewrite E, bind_Ret.
    destruct (over_fields _ _ _ _ _ _ _ Ho1) as (_ & Hres & Hnum & _).
    assert (exists t, (if Z.of_nat (S h) <? bi_numRestarts i1 then restart_offset i1 (Z.of_nat (S h)) else Ret (bi_restarts i1)) =
      Ret (Z.of_nat (off t)) /\ (m <= t <= length xs)%nat) as (t & -> & Ht).
    { rewrite Hnum. destruct (Z.ltb_spec (Z.of_nat (S h)) (Z.of_nat (length rs))) as [Hl|Hl].
      - destruct (lookup_lt_is_Some_2 rs (S h) ltac:(lia)) as [r' Hr']. destruct (bf_restart _ _ Hwf _ _ Hr') as (y & Hy & _).
        exists r'.1. split; [by apply (restart_offset_ok xs rs Hwf globalSeqNum hide vbr hasPrefix)|].
        pose proof (Hks _ _ _ Hr' Hy) as H0. rewrite (Hsplit _ _ Hy), (bool_decide_eq_false_2 (S h < S h)%nat) in H0 by lia.
        apply bool_decide_eq_false in H0. apply lookup_lt_Some in Hy. lia.
      - exists (length xs). by rewrite Hres, off_end. }
    rewrite bind_Ret. apply (seekLT_loop_ok t r.1 _ _ r.1); [|lia|lia|done|].
    + apply ready_clear; [exact Ho1|done..|]. intros x Hx. destruct (bf_restart _ _ Hwf _ _ Hr) as (x' & Hx' & Hs).
      apply prefix_ok_0. congruence.
    + pose proof (block_fuel_ok xs rs globalSeqNum hide vbr hasPrefix i1 Ho1). lia.
Qed.

(** ** NextPrefix without value prefixes *)
Lemma nextPrefix_loop_ok : forall n i q r,
  moved_forward q i r -> (vrank q <= vrank m)%nat ->
  exists i' r', nextPrefix_loop n i r key = Ret (i', r') /\ moved_forward m i' r'.
Proof.
  assert (forall i q, moved_forward q i None -> (vrank q <= vrank m)%nat -> moved_forward m i None) as Hnone.
  { intros i q Hmv Hq. apply (moved_forward_to q); [done| |done]. destruct Hmv as [_ [_ Hend]].
    pose proof (vrank_le xs hide m (length xs) Hm) as H. rewrite (vrank_end xs globalSeqNum hide vbr hasPrefix resolve (length xs)) in H by lia. lia. }
  induction n as [|n IH]; intros i q r Hmv Hq; destruct r as [[k v]|]; cbn [nextPrefix_loop];
    try (exists i, None; split; [done|]; by apply (Hnone i q)).
  all: pose proof Hmv as [_ (p & x & Hqp & Hvp & Hvis & Hat & Hbuf & Hkl)]; pose proof Hat as (Ho & Hx & _ & _ & _ & _ & Hk & _).
  all: injection Hkl as -> ->; rewrite Hk, item_ikey_userKey; change (bool_decide (Compare (item_userKey x) key = Lt)) with (before key x);
    rewrite (Hsplit p x Hx).
  all: destruct (decide (p < m)%nat) as [Hlt|Hge]; [rewrite bool_decide_eq_true_2 by done|rewrite bool_decide_eq_false_2 by done].
  - by apply block_SeekGE_ok.
  - rewrite <- Hk. eexists i, _. split; [done|]. apply (moved_forward_to q); [done| |].
    + pose proof (vrank_le xs hide m p ltac:(lia)). lia.
    + intros p' y Hp'. rewrite (at_item_unique i p' p y x Hp' Hat). lia.
  - destruct (Next_item xs rs Hwf globalSeqNum hide vbr hasPrefix resolve Hlazy i p x Hat) as (i1 & r1 & -> & Hmv1). rewrite bind_Ret.
    apply (IH i1 (S p)); [done|]. by apply vrank_le.
  - rewrite <- Hk. eexists i, _. split; [done|]. apply (moved_forward_to q); [done| |].
    + pose proof (vrank_le xs hide m p ltac:(lia)). lia.
    + intros p' y Hp'. rewrite (at_item_unique i p' p y x Hp' Hat). lia.
Qed.
Lemma NextPrefix_plain i p x :
  hasPrefix = false -> at_item i p x -> visible hide x = true -> (vrank p < vrank m)%nat ->
  exists i' r, blockIter_NextPrefix i key = Ret (i', r) /\ moved_forward m i' r.
Proof.
  intros Hhp Hat Hvis Hp. pose proof Hat as (Ho & Hx & _).
  destruct (over_fields _ _ _ _ _ _ _ Ho) as (_ & _ & _ & _ & _ & _ & Hh). assert (bi_hasValuePrefix i = false) as Ehp by congruence.
  unfold blockIter_NextPrefix. rewrite Ehp.
  destruct (Next_item xs rs Hwf globalSeqNum hide vbr hasPrefix resolve Hlazy i p x Hat) as (i1 & r1 & -> & Hmv1). rewrite bind_Ret.
  apply (nextPrefix_loop_ok _ i1 (S p)); [done|]. rewrite (vrank_S xs hide p x Hx), Hvis. lia.
Qed.
End key.
End seek.
