(* ===== verification/BlockPrefix.v ===== *)
(** Moving to the next prefix in blocks with value prefixes ([nextPrefixV3] in Block.v): what
    the writer records about equal prefixes allows to skip entries without comparing keys. *)
From S2P Require Import Prelude.
From S2P Require Import Comparer.
From S2P Require Import InternalKey.
From S2P Require Import ValueBlock.
From S2P Require Import Block.
From S2P Require Import BlockFormat.
From S2P Require Import Iterators.
From S2P Require Import BlockRead.
From S2P Require Import BlockIter.
From S2P Require Import BlockSeek.

Local Open Scope Z_scope.

(** ** Kinds *)
Lemma byte_at_getBytes data p n l k b :
  getBytes data p n = Ret l -> l !! k = Some b -> byte_at data (p + Z.of_nat k) = Ret (b2z b).
Proof.
  unfold getBytes, byte_at. destruct (Z.ltb_spec p 0); [done|]. destruct (Z.ltb_spec n 0); [done|].
  destruct (Z.ltb_spec (Z.of_nat (length data)) (p + n)); [done|]. cbn [orb]. intros [= <-] Hb.
  rewrite (proj2 (Z.ltb_ge _ _)) by lia. unfold slice in Hb. apply lookup_take_Some in Hb as [Hb _].
  rewrite lookup_drop in Hb. replace (Z.to_nat (p + Z.of_nat k)) with (Z.to_nat p + k)%nat by lia. by rewrite Hb.
Qed.

Lemma land_mask_kind t : Z.land (Z.land t trailerObsoleteMask) 255 = Z.land (t mod 256) 191.
Proof.
  rewrite <- Z.land_assoc. change (Z.land trailerObsoleteMask 255) with 191.
  rewrite <- land_255, <- Z.land_assoc. done.
Qed.
Lemma kind_SetSeqNum k s : Kind (SetSeqNum k s) = Kind k.
Proof.
  unfold Kind, TrailerKind, SetSeqNum. cbn [Trailer]. f_equal. rewrite Z.land_lor_distr_l, <- Z.land_assoc.
  change (Z.land 255 255) with 255. assert (Z.land (u64 (Z.shiftl s 8)) 255 = 0) as ->; [|done].
  rewrite land_255. unfold u64. rewrite Z.shiftl_mul_pow2 by lia. change (2 ^ 64) with (2 ^ 56 * 256).
  change (2 ^ 8) with 256. rewrite Z.mul_mod_distr_r by lia. by rewrite Z.mod_mul by lia.
Qed.
Lemma kind_item g x : Kind (item_ikey g x) = Z.land (Uint64 (drop (length (x_key x) - 8) (x_key x)) mod 256) 191.
Proof.
  set (t := Uint64 _). assert (Kind (mkInternalKey (item_userKey x) (Z.land t trailerObsoleteMask)) = Z.land (t mod 256) 191) as E.
  { unfold Kind, TrailerKind. cbn [Trailer]. rewrite land_mask_kind. unfold u8.
    by rewrite <- land_255, <- Z.land_assoc. }
  unfold item_ikey. destruct (negb _); [rewrite kind_SetSeqNum|]; exact E.
Qed.

(** The byte of the kind. *)
Lemma Uint64_first l b : l !! 0%nat = Some b -> Uint64 l mod 256 = b2z b.
Proof.
  destruct l as [|b' l]; [done|]. intros [= ->]. unfold Uint64. cbn [take]. rewrite le_get_cons.
  rewrite (Z.mul_comm 256), Z.mod_add by lia. apply Z.mod_small, b2z_range.
Qed.

(** ** What the writer records *)
Section prefix.
Context {C : Comparer} {L : ComparerLaws C}.
Context (xs : list item) (rs : list restart) (Hwf : block_wf xs rs) (Hne : xs <> []).
Context (globalSeqNum : Z).

Definition is_set (x : item) : bool := Kind (item_ikey globalSeqNum x) =? InternalKeyKindSet.
(** The flag in the prefix of the value. *)
Definition same_flag (x : item) : bool :=
  match x_val x with [] => false | b :: _ => setHasSamePrefix (b2z b) end.
Definition item_prefix (x : item) : bytes := take (split_len (item_userKey x)) (item_userKey x).

Record prefixes_wf : Prop := {
  pf_val j x : xs !! j = Some x -> is_set x = true -> x_val x <> [];
  pf_same j x y : xs !! j = Some x -> xs !! S j = Some y -> is_set y = true -> same_flag y = true ->
    item_prefix y = item_prefix x;
  pf_changed j x y : xs !! j = Some x -> xs !! S j = Some y -> is_set x = true -> is_set y = true ->
    same_flag y = false -> item_prefix y <> item_prefix x;
  pf_shared j x y : xs !! j = Some x -> xs !! S j = Some y -> (x_shared y <= length (item_prefix x))%nat;
  pf_restart h r0 r m y : rs !! h = Some r0 -> rs !! S h = Some r -> r.2 = true -> (r0.1 < m <= r.1)%nat ->
    xs !! m = Some y -> is_set y = true /\ same_flag y = true;
  pf_split j x : xs !! j = Some x -> prefix_key (item_prefix x);
}.
Context (hide vbr : bool) (resolve : LazyValue -> bytes).
Context (Hlazy : Forall (fun x => item_lazy globalSeqNum vbr true x = Ret (item_lv globalSeqNum vbr true x)) xs).
Context (Hsorted : forall j k x y, xs !! j = Some x -> xs !! k = Some y -> (j <= k)%nat ->
  Compare (item_userKey x) (item_userKey y) <> Gt).
Context (Hpf : prefixes_wf).

#[local] Abbreviation data := (block_bytes xs rs).
#[local] Abbreviation off := (off xs).
#[local] Abbreviation over := (over xs rs globalSeqNum hide vbr true).
#[local] Abbreviation item_ikey := (item_ikey globalSeqNum).
#[local] Abbreviation kvs := (kvs xs globalSeqNum hide vbr true resolve).
#[local] Abbreviation vrank := (vrank xs hide).
#[local] Abbreviation at_item := (at_item xs rs globalSeqNum hide vbr true).
#[local] Abbreviation reading := (reading xs rs globalSeqNum hide vbr true).
#[local] Abbreviation moved_forward := (moved_forward xs rs globalSeqNum hide vbr true resolve).

(** ** The successor of a prefix *)
Lemma prefix_le a : Compare (take (split_len a) a) a <> Gt.
Proof.
  pose proof (split_prefix a). destruct (decide (split_len a < length a)%nat) as [H'|H'].
  - by rewrite (split_first a H').
  - rewrite take_ge by lia. by rewrite compare_refl.
Qed.
Lemma succ_split c x0 succKey :
  xs !! c = Some x0 -> ImmediateSuccessor [] (item_prefix x0) = succKey ->
  forall j y, (c <= j)%nat -> xs !! j = Some y -> before succKey y = bool_decide (item_prefix y = item_prefix x0).
Proof.
  intros Hx0 Hsucc j y Hj Hy. destruct (immediate_successor_spec [] _ (pf_split Hpf c x0 Hx0)) as (k & Ek & Hk & Hgt & Hmin).
  rewrite Ek in Hsucc. cbn in Hsucc. subst k. unfold before. apply bool_decide_ext. split.
  - intros Hlt. destruct (decide (item_prefix y = item_prefix x0)) as [|Hne']; [done|]. exfalso.
    assert (Compare (item_prefix y) (item_prefix x0) = Gt) as Hgt'.
    { pose proof (split_order _ _ (Hsorted c j x0 y Hx0 Hy Hj)) as Ho. apply compare_gt_lt.
      destruct (Compare (item_prefix x0) (item_prefix y)) eqn:E; [|done|done]. by apply compare_eq in E. }
    apply (Hmin _ (pf_split Hpf j y Hy) Hgt').
    exact (compare_le_lt_trans _ _ _ (prefix_le (item_userKey y)) Hlt).
  - intros E. destruct (Compare (item_userKey y) succKey) eqn:Ec; [exfalso|done|exfalso].
    all: assert (Compare succKey (item_userKey y) <> Gt) as Hle by (rewrite (compare_antisym (item_userKey y)), Ec; done).
    all: apply split_order in Hle; unfold prefix_key in Hk; rewrite Hk, take_ge in Hle by lia.
    all: change (take (split_len (item_userKey y)) (item_userKey y)) with (item_prefix y) in Hle; rewrite E in Hle; done.
Qed.

(** ** Reading only the kind and the flag *)
Lemma length_item_prefix x : length (item_prefix x) = split_len (item_userKey x).
Proof. unfold item_prefix. rewrite length_take. pose proof (split_prefix (item_userKey x)). lia. Qed.
Lemma take_item_prefix x n : (n <= length (item_prefix x))%nat -> take n (item_prefix x) = take n (x_key x).
Proof.
  intros Hn. rewrite length_item_prefix in Hn. pose proof (split_prefix (item_userKey x)) as Hs.
  unfold item_prefix, item_userKey in *. rewrite length_take in Hs. rewrite !take_take. f_equal. lia.
Qed.

Lemma kind_byte j x :
  xs !! j = Some x ->
  exists b, byte_at data (Z.of_nat (off j + length (item_header x)) + u32 (Z.of_nat (length (x_key x) - x_shared x) - 8)) = Ret b /\
    (Z.land b InternalKeyKindSSTableInternalObsoleteMask =? InternalKeyKindSet) = is_set x.
Proof.
  intros Hx. pose proof (bf_shared _ Hwf j x Hx) as Hs. destruct (item_bounds xs rs Hwf j x Hx) as [Hb _].
  pose proof (key_bytes xs rs j x Hx) as Hk. rewrite u32_small by lia.
  replace (Z.of_nat (length (x_key x) - x_shared x) - 8) with (Z.of_nat (length (x_key x) - x_shared x - 8)) by lia.
  destruct (lookup_lt_is_Some_2 (x_key x) (length (x_key x) - 8) ltac:(lia)) as [b Hb'].
  rewrite (byte_at_getBytes _ _ _ _ (length (x_key x) - x_shared x - 8) b Hk).
  - eexists. split; [done|]. unfold is_set. rewrite kind_item, (Uint64_first _ b); [done|]. by rewrite lookup_drop, Nat.add_0_r.
  - rewrite lookup_drop. by replace (x_shared x + (length (x_key x) - x_shared x - 8))%nat with (length (x_key x) - 8)%nat by lia.
Qed.
Lemma flag_byte j x :
  xs !! j = Some x -> is_set x = true ->
  exists b, byte_at data (Z.of_nat (off j + length (item_header x)) + Z.of_nat (length (x_key x) - x_shared x)) = Ret b /\
    setHasSamePrefix b = same_flag x.
Proof.
  intros Hx Hset. rewrite (val_start xs j x Hx). pose proof (val_bytes xs rs j x Hx) as Hv.
  pose proof (pf_val Hpf j x Hx Hset) as Hne'. unfold same_flag. destruct (x_val x) as [|b l] eqn:Ev; [done|].
  pose proof (byte_at_getBytes _ _ _ _ 0 b Hv eq_refl) as H. rewrite Z.add_0_r in H. eexists. split; [exact H|done].
Qed.

(** ** The loop *)
Section loop.
Context (c : nat) (x0 : item) (Hx0 : xs !! c = Some x0).
Context (succKey : bytes) (m : nat) (Hm : (m <= length xs)%nat).
Context (Hsplit : forall j x, xs !! j = Some x -> before succKey x = bool_decide (j < m)%nat).
Context (Hsucc : forall j y, (c <= j)%nat -> xs !! j = Some y ->
  before succKey y = bool_decide (item_prefix y = item_prefix x0)).
#[local] Abbreviation p0 := (item_prefix x0).

Lemma in_prefix j y : (c <= j)%nat -> xs !! j = Some y -> (j < m)%nat <-> item_prefix y = p0.
Proof.
  intros Hj Hy. pose proof (Hsplit j y Hy) as H1. rewrite (Hsucc j y Hj Hy) in H1.
  split; intros H; revert H1; repeat case_bool_decide; done.
Qed.

(** The next entry to be looked at is [q]; the ones before it have the prefix, and the key
    that was assembled last starts with it. *)
Definition at_prefix (i : blockIter) (q : nat) : Prop :=
  over i /\ bi_nextOffset i = Z.of_nat (off q) /\ (c < q <= m)%nat /\ bi_cached i = [] /\ bi_cachedBuf i = [] /\
  take (length p0) (bi_fullKey i) = p0.
Definition set_before (q : nat) : Prop := forall x, xs !! pred q = Some x -> is_set x = true.

Lemma skip_restarts_ok : forall fuel i a,
  over i -> (a <= length rs)%nat -> (length rs - a <= fuel)%nat ->
  exists b, skip_restarts fuel i (Z.of_nat a) = Ret (Z.of_nat b) /\ (a <= b <= length rs)%nat /\
    forall h r, (a <= h < b)%nat -> rs !! h = Some r -> r.2 = true.
Proof.
  induction fuel as [|fuel IH]; intros i a Ho Ha Hf; destruct (over_fields _ _ _ _ _ _ _ Ho) as (_ & _ & Hnum & _);
    cbn [skip_restarts]; rewrite Hnum; pose proof (restart_bound _ _ Hwf) as Hb.
  - rewrite (proj2 (Z.eqb_eq _ _)) by lia. exists a. split; [done|]. split; [lia|]. intros h r Hh. lia.
  - destruct (Z.eqb_spec (Z.of_nat a) (Z.of_nat (length rs))) as [E|E].
    { exists a. split; [done|]. split; [lia|]. intros h r Hh. lia. }
    destruct (lookup_lt_is_Some_2 rs a ltac:(lia)) as [r Hr].
    destruct (restart_flag_ok xs rs Hwf globalSeqNum hide vbr true i a r Ho Hr) as (b & Eb & Ef).
    rewrite Eb, bind_Ret, Ef. destruct r.2 eqn:Er; cbn [negb].
    + rewrite i32_small by lia. replace (Z.of_nat a + 1) with (Z.of_nat (S a)) by lia.
      destruct (IH i (S a) Ho ltac:(lia) ltac:(lia)) as (b' & -> & Hb' & Hall). exists b'. split; [done|]. split; [lia|].
      intros h r' Hh Hr'. destruct (decide (h = a)) as [->|Hne']; [congruence|]. apply (Hall h r'); [lia|done].
    + exists a. split; [done|]. split; [lia|]. intros h r' Hh. lia.
Qed.

(** The entries up to a restart point, since another one, if all restart points after that
    one have the flag. *)
Lemma flagged h r0 : rs !! h = Some r0 -> forall d r k y,
  (forall h' r', (h < h' <= h + d)%nat -> rs !! h' = Some r' -> r'.2 = true) ->
  rs !! (h + d)%nat = Some r -> (r0.1 < k <= r.1)%nat -> xs !! k = Some y -> is_set y = true /\ same_flag y = true.
Proof.
  intros Hr0. induction d as [|d IH]; intros r k y Hfl Hr Hk Hy.
  - rewrite Nat.add_0_r, Hr0 in Hr. injection Hr as ->. lia.
  - replace (h + S d)%nat with (S (h + d)) in Hr by lia.
    destruct (lookup_lt_is_Some_2 rs (h + d)%nat) as [r1 Hr1]; [apply lookup_lt_Some in Hr; lia|].
    destruct (decide (k <= r1.1)%nat) as [Hle|Hgt].
    + apply (IH r1 k y); [|done|lia|done]. intros h' r' Hh'. apply Hfl. lia.
    + apply (pf_restart Hpf (h + d) r1 r k y Hr1 Hr); [|lia|done]. apply (Hfl (S (h + d))); [lia|done].
Qed.
Lemma chain q : (c < q <= m)%nat -> forall d,
  (forall k y, (q <= k <= q + d)%nat -> xs !! k = Some y -> is_set y = true /\ same_flag y = true) ->
  (q + d < length xs)%nat -> (q + d < m)%nat.
Proof.
  intros Hq. assert (forall k y, (c < k)%nat -> (pred k < m)%nat -> xs !! k = Some y -> is_set y = true -> same_flag y = true ->
    (k < m)%nat) as Hstep.
  { intros k y Hk Hprev Hy Hset Hs. destruct (lookup_lt_is_Some_2 xs (pred k)) as [x Hx]; [lia|].
    apply (in_prefix k y ltac:(lia) Hy). replace k with (S (pred k)) in Hy by lia.
    rewrite (pf_same Hpf (pred k) x y Hx Hy Hset Hs). apply (in_prefix (pred k) x); [lia|done|done]. }
  induction d as [|d IH]; intros Hall Hlt.
  - rewrite Nat.add_0_r in *. destruct (lookup_lt_is_Some_2 xs q Hlt) as [y Hy].
    destruct (Hall q y ltac:(lia) Hy). apply (Hstep q y); [lia|lia|done|done|done].
  - destruct (lookup_lt_is_Some_2 xs (q + S d)%nat Hlt) as [y Hy]. destruct (Hall (q + S d)%nat y ltac:(lia) Hy).
    apply (Hstep _ y); [lia| |done|done|done].
    replace (pred (q + S d)) with (q + d)%nat by lia. apply IH; [|lia]. intros k z Hk. apply Hall. lia.
Qed.

Lemma use_restarts_ok i q y :
  at_prefix i (S q) -> bi_offset i = Z.of_nat (off q) -> xs !! q = Some y -> is_set y = true -> (c < q)%nat ->
  exists i' q', use_restarts i = Ret i' /\ at_prefix i' q' /\ (S q <= q')%nat /\ set_before q'.
Proof.
  intros Hat Hoff Hy Hset Hcq. pose proof Hat as (Ho & Hn & Hq & Hc & Hb & Hp).
  assert (set_before (S q)) as Hsb by (intros x Hx; cbn in Hx; congruence).
  assert (exists i' q', Ret i = Ret i' /\ at_prefix i' q' /\ (S q <= q')%nat /\ set_before q') as Hstay by (by exists i, (S q)).
  unfold use_restarts. rewrite Hoff. pose proof (lookup_lt_Some _ _ _ Hy) as Hlt.
  destruct (search_offset_ok xs rs Hwf globalSeqNum hide vbr true i q Ho ltac:(lia)) as (h & r & -> & Hr & Hrq & Hnext).
  rewrite bind_Ret. destruct (over_fields _ _ _ _ _ _ _ Ho) as (_ & _ & Hnum & _). rewrite Hnum.
  destruct (Z.eqb_spec (Z.of_nat (S h)) (Z.of_nat (length rs))) as [E|E]; [done|].
  pose proof (lookup_lt_Some _ _ _ Hr) as Hh. rewrite Nat2Z.id.
  destruct (skip_restarts_ok (length rs) i (S h) Ho ltac:(lia) ltac:(lia)) as (b & -> & Hb' & Hfl). rewrite bind_Ret.
  destruct (Z.eqb_spec (Z.of_nat b) (Z.of_nat (S h))) as [E'|E']; [done|].
  destruct (lookup_lt_is_Some_2 rs (pred b) ltac:(lia)) as [r2 Hr2]. destruct (bf_restart _ _ Hwf _ _ Hr2) as (z & Hz & Hs).
  replace (Z.of_nat b - 1) with (Z.of_nat (pred b)) by lia.
  rewrite (restart_offset_ok xs rs Hwf globalSeqNum hide vbr true i _ r2 Ho Hr2), bind_Ret.
  rewrite (readEntry_ok xs rs Hwf globalSeqNum hide vbr true _ r2.1 z); [|exact Ho|done|done|by apply prefix_ok_0].
  assert (q <= r2.1)%nat as Hqr.
  { destruct (lookup_lt_is_Some_2 rs (S h) ltac:(lia)) as [r1 Hr1]. pose proof (Hnext r1 Hr1).
    destruct (decide (pred b = S h)) as [Eb|Eb]; [rewrite Eb, Hr1 in Hr2; injection Hr2 as ->; lia|].
    pose proof (bf_increasing _ _ Hwf (S h) (pred b) r1 r2 Hr1 Hr2 ltac:(lia)). lia. }
  assert (forall k z', (q <= k <= r2.1)%nat -> xs !! k = Some z' -> is_set z' = true /\ same_flag z' = true) as Hall.
  { intros k z' Hk Hz'. apply (flagged h r Hr (pred b - h) r2 k z'); [| |lia|done].
    - intros h' r' Hh' Hr'. apply (Hfl h' r'); [lia|done].
    - by replace (h + (pred b - h))%nat with (pred b) by lia. }
  pose proof (lookup_lt_Some _ _ _ Hz) as Hltz.
  assert (r2.1 < m)%nat as Hzm.
  { pose proof (chain q ltac:(lia) (r2.1 - q)) as H. replace (q + (r2.1 - q))%nat with r2.1 in H by lia. by apply H. }
  eexists _, (S r2.1). split; [done|]. split; [|split; [lia|]].
  - split; [exact Ho|]. split; [done|]. split; [lia|]. split; [done|]. split; [done|].
    change (take (length p0) (x_key z) = p0). rewrite <- (proj1 (in_prefix r2.1 z ltac:(lia) Hz) Hzm).
    rewrite <- (take_item_prefix z (length (item_prefix z))) by lia. by rewrite firstn_all.
  - intros x Hx. cbn in Hx. rewrite Hz in Hx. injection Hx as <-. exact (proj1 (Hall r2.1 z ltac:(lia) Hz)).
Qed.

(** An entry without the flag: its key is assembled, and it is the one that is sought unless
    it has the prefix. *)
Lemma at_prefix_load i q y :
  at_prefix i q -> xs !! q = Some y ->
  let i1 := i <| bi_offset := bi_nextOffset i |> <| bi_nextOffset := Z.of_nat (off (S q)) |> in
  exists i', load_entry i1 (Z.of_nat (x_shared y)) (Z.of_nat (length (x_key y) - x_shared y)) (Z.of_nat (length (x_val y)))
    (Z.of_nat (off q + length (item_header y))) = Ret i' /\ reading i' q q y /\ bi_cachedBuf i' = [] /\ bi_cached i' = [].
Proof.
  intros (Ho & Hn & Hq & Hc & Hb & Hp) Hy i1. destruct (lookup_lt_is_Some_2 xs (pred q)) as [x Hx]; [lia|].
  assert (prefix_ok (bi_fullKey i1) y) as Hpre.
  { change (bi_fullKey i1) with (bi_fullKey i). replace q with (S (pred q)) in Hy by lia.
    pose proof (pf_shared Hpf _ x y Hx Hy) as Hsh. assert (item_prefix x = p0) as Ex by (apply (in_prefix (pred q) x); [lia|done|lia]).
    destruct (bf_next _ Hwf _ x y Hx Hy) as [_ Ht]. pose proof (f_equal length Hp) as Hl. rewrite length_take in Hl.
    rewrite Ex in Hsh. split; [lia|]. rewrite Ht, <- (take_item_prefix x) by (rewrite Ex; lia).
    rewrite Ex, <- Hp, take_take. f_equal. lia. }
  rewrite (load_entry_ok xs rs globalSeqNum hide vbr true i1 q y); [|exact Ho|done|done].
  eexists. split; [done|]. split; [|done]. split; [exact Ho|]. split; [done|]. split; [exact Hn|]. do 5 (split; [done|]).
  split; [lia|]. split; [by apply cached_ok_nil|]. change (bi_cachedBuf i = keys_from xs q q). rewrite Hb.
  unfold keys_from. by rewrite slice_nil.
Qed.

(** The entry is the one that is sought. *)
Lemma prefix_found i y :
  reading i m m y -> bi_cachedBuf i = [] -> bi_cached i = [] ->
  let i1 := i <| bi_ikey := item_ikey y |> in
  exists i' r, (if item_hidden hide y then '(i, r) ← blockIter_Next i1; Ret (i, Some r)
                else '(i, r) ← returnEntry i1; Ret (i, Some r)) = Ret (i', Some r) /\ moved_forward m i' r.
Proof.
  intros Hrd Hb Hc i1. destruct (item_hidden hide y) eqn:Hh.
  - pose proof Hrd as (Ho & Hy & Hoff & Hn & Hk & Hf & Hv & _).
    destruct (Next_item xs rs Hwf globalSeqNum hide vbr true resolve Hlazy i1 m y) as (i' & r & E & Hmv).
    { split; [exact Ho|]. do 6 (split; [done|]). split; [exists m; by apply cached_ok_nil|done]. }
    exists i', r. rewrite E, bind_Ret. split; [done|]. by apply (moved_forward_hidden xs rs _ _ _ _ _ m y).
  - destruct (forward_found xs rs Hwf globalSeqNum hide vbr true resolve Hlazy i _ _ y Hrd Hb Hh) as (i' & r & E & Hmv).
    exists i', r. fold i1 in E. rewrite E, bind_Ret. done.
Qed.

Lemma nextPrefixV3_loop_ok : forall fuel i q nextCmpCount nextFastCount usedRestarts prevKeyIsSet,
  at_prefix i q -> (prevKeyIsSet = true -> set_before q) -> (length xs - q < fuel)%nat ->
  exists i' r, nextPrefixV3_loop fuel i succKey nextCmpCount nextFastCount usedRestarts prevKeyIsSet = Ret (i', r) /\
    match r with Some r => moved_forward m i' r | None => over i' end.
Proof.
  induction fuel as [|fuel IH]; intros i q nc nf used prev Hat Hprev Hf; [lia|]. cbn [nextPrefixV3_loop].
  pose proof Hat as (Ho & Hn & Hq & Hc & Hb & Hp). set (i1 := i <| bi_offset := bi_nextOffset i |>).
  rewrite (valid_ok xs rs globalSeqNum hide vbr true i1 q Ho Hn ltac:(lia)).
  destruct (decide (q < length xs)%nat) as [Hlt|Hge].
  2: { rewrite bool_decide_eq_false_2 by done. cbn [negb]. exists i1, (Some None). split; [done|]. assert (m = length xs) as -> by lia.
       apply moved_forward_end. split; [exact Ho|]. split; [|exact Hc]. change (bi_offset i1) with (bi_nextOffset i).
       rewrite Hn. do 2 f_equal. lia. }
  rewrite bool_decide_eq_true_2 by done. cbn [negb]. destruct (lookup_lt_is_Some_2 xs q Hlt) as [y Hy].
  destruct (over_fields _ _ _ _ _ _ _ Ho) as (Hd & _). change (bi_data i1) with (bi_data i). change (bi_offset i1) with (bi_nextOffset i).
  rewrite Hd, Hn, (entry_header_ok xs rs Hwf q y Hy), bind_Ret.
  assert (i32 (i32 (Z.of_nat (off q + length (item_header y)) + Z.of_nat (length (x_key y) - x_shared y)) +
    i32 (Z.of_nat (length (x_val y)))) = Z.of_nat (off (S q))) as ->.
  { rewrite (val_start xs q y Hy). pose proof (off_S _ _ _ Hy) as E. rewrite length_enc_item in E.
    pose proof (off_bound xs rs (S q) Hwf). destruct (item_bounds xs rs Hwf q y Hy).
    rewrite (i32_small (Z.of_nat (length (x_val y)))), (i32_small (Z.of_nat (_ - _))), i32_small by lia. lia. }
  set (i2 := i1 <| bi_nextOffset := Z.of_nat (off (S q)) |>). change (bi_data i2) with (bi_data i). rewrite Hd.
  destruct (kind_byte q y Hy) as (kb & -> & Ekind). rewrite bind_Ret, Ekind.
  assert (bi_offset i2 = Z.of_nat (off q)) as Hoff2 by exact Hn.
  assert ((if is_set y then
      valPrefix ← byte_at data (Z.of_nat (off q + length (item_header y)) + Z.of_nat (length (x_key y) - x_shared y));
      Ret (setHasSamePrefix valPrefix) else Ret false) = Ret (is_set y && same_flag y)) as ->.
  { destruct (is_set y) eqn:Es; [|done]. destruct (flag_byte q y Hy Es) as (vb & -> & Ev). by rewrite bind_Ret, Ev. }
  rewrite bind_Ret. destruct (is_set y && same_flag y) eqn:Esame.
  - apply andb_prop in Esame as [Eset Esame].
    assert (q < m)%nat as Hqm.
    { pose proof (chain q Hq 0) as H. rewrite Nat.add_0_r in H. apply H; [|done]. intros k z Hk Hz.
      replace k with q in Hz by lia. rewrite Hy in Hz. by injection Hz as <-. }
    assert (at_prefix i2 (S q)) as Hat2.
    { split; [exact Ho|]. split; [done|]. split; [lia|]. split; [exact Hc|]. split; [exact Hb|exact Hp]. }
    assert (set_before (S q)) as Hsb by (intros x Hx; cbn in Hx; congruence).
    destruct (nextFastThresholdBeforeRestarts <? S nf)%nat.
    + destruct used; [by exists i2, None|].
      destruct (use_restarts_ok i2 q y Hat2 Hoff2 Hy Eset ltac:(lia)) as (i3 & q' & -> & Hat3 & Hq' & Hsb').
      rewrite bind_Ret. apply (IH i3 q'); [done|done|lia].
    + apply (IH i2 (S q)); [done|done|lia].
  - destruct (at_prefix_load i q y Hat Hy) as (i3 & E3 & Hrd & Hb3 & Hc3). rewrite Hn in E3. fold i1 in E3.
    assert (i2 = i <| bi_offset := Z.of_nat (off q) |> <| bi_nextOffset := Z.of_nat (off (S q)) |>) as E2.
    { unfold i2, i1. by rewrite Hn. }
    rewrite E2, E3, bind_Ret, (reading_decode xs rs Hwf globalSeqNum hide vbr true i3 _ _ _ Hrd).
    rewrite (not_before_ok xs globalSeqNum succKey m Hsplit _ q y Hy) by done.
    assert (is_set y && prev = true -> m = q) as Hchg.
    { intros [Eset Ep]%andb_prop. rewrite Eset in Esame. cbn in Esame.
      destruct (lookup_lt_is_Some_2 xs (pred q)) as [x Hx]; [lia|]. pose proof (Hprev Ep x Hx) as Hxs.
      destruct (decide (q < m)%nat) as [Hqm|]; [|lia]. exfalso.
      pose proof (proj1 (in_prefix q y ltac:(lia) Hy) Hqm) as E1.
      pose proof (proj1 (in_prefix (pred q) x ltac:(lia) Hx) ltac:(lia)) as E4.
      replace q with (S (pred q)) in Hy by lia. apply (pf_changed Hpf (pred q) x y Hx Hy Hxs Eset Esame). congruence. }
    destruct (decide (m = q)) as [Hmq|Hmq].
    + rewrite (bool_decide_eq_false_2 (q < m)%nat) by lia. rewrite orb_true_r. rewrite <- Hmq in Hrd.
      destruct (prefix_found i3 y Hrd Hb3 Hc3) as (i' & r & E & Hmv). by exists i', (Some r).
    + destruct (is_set y && prev) eqn:Ep; [by destruct Hmq; apply Hchg|].
      rewrite (bool_decide_eq_true_2 (q < m)%nat) by lia. cbn [orb negb].
      pose proof Hrd as (Ho3 & _ & _ & Hn3 & _ & Hf3 & _).
      destruct (nextCmpThresholdBeforeSeek <=? S nc)%nat; [by eexists _, None|].
      apply (IH _ (S q)); [|done|lia]. split; [exact Ho3|]. split; [exact Hn3|]. split; [lia|]. split; [exact Hc3|]. split; [exact Hb3|].
      change (take (length p0) (bi_fullKey i3) = p0). rewrite Hf3, <- (proj1 (in_prefix q y ltac:(lia) Hy) ltac:(lia)).
      rewrite <- (take_item_prefix y (length (item_prefix y))) by lia. by rewrite firstn_all.
Qed.

Lemma NextPrefix_V3 i :
  at_item i c x0 -> bi_cachedBuf i = [] -> (c < m)%nat ->
  exists i' r, blockIter_NextPrefix i succKey = Ret (i', r) /\ moved_forward m i' r.
Proof.
  intros (Ho & _ & _ & Hn & _ & _ & Hik & _ & Hfull) Hb Hcm. destruct (Hfull Hb) as [Hf Hc].
  destruct (over_fields _ _ _ _ _ _ _ Ho) as (_ & _ & _ & _ & _ & _ & Hh).
  unfold blockIter_NextPrefix. rewrite Hh. unfold nextPrefixV3.
  destruct (nextPrefixV3_loop_ok (block_fuel i) i (S c) 0 0 false (Kind (bi_ikey i) =? InternalKeyKindSet))
    as (i' & r & -> & Hmv).
  - split; [done|]. split; [done|]. split; [lia|]. split; [done|]. split; [done|].
    rewrite Hf, <- (take_item_prefix x0) by lia. by rewrite firstn_all.
  - intros E x Hx. cbn in Hx. rewrite Hx0 in Hx. injection Hx as <-. unfold is_set. by rewrite <- Hik.
  - pose proof (block_fuel_ok xs rs globalSeqNum hide vbr true i Ho). lia.
  - rewrite bind_Ret. destruct r as [r|]; [by exists i', r|].
    by apply (block_SeekGE_ok xs rs Hwf globalSeqNum hide vbr true resolve Hlazy Hsorted succKey m Hm Hsplit).
Qed.
End loop.
End prefix.
