(* ===== verification/Sstable.v ===== *)
(** Tables on disk (src/sstable/table.go, format.go, compression.go, edg.go and the parts of
    writer.go and reader.go that write and read single blocks): block handles, the footer,
    block trailers with compression and checksums, and the encryption of blocks and footer.

    A file is the list of its bytes.  The block cache of a reader is the map from the offsets
    of the blocks that are in it.  [snappy] and [xxhash] are external packages. *)
From S2P Require Import Prelude.
From S2P Require Import Crypto.
From stdpp Require Import gmap.

Local Open Scope Z_scope.

(** The external packages: github.com/golang/snappy and github.com/cespare/xxhash. *)
Class BlockEnv := {
  snappy_Encode : bytes -> bytes;
  snappy_DecodedLen : bytes -> result nat;
  snappy_Decode : bytes -> result bytes;
  xxhash_Sum64 : bytes -> Z;
}.
Class BlockEnvLaws (E : BlockEnv) := {
  snappy_len b : snappy_DecodedLen (snappy_Encode b) = Ok (length b);
  snappy_roundtrip b : snappy_Decode (snappy_Encode b) = Ok b;
}.

(** ** Block handles *)
Record BlockHandle := mkBlockHandle { bh_Offset : Z; bh_Length : Z }.
Record BlockHandleWithProperties := mkBHP { bhp_Handle : BlockHandle; bhp_Props : bytes }.
#[export] Instance BlockHandle_eq_dec : EqDecision BlockHandle.
Proof. solve_decision. Defined.

(** [PutUvarint] into a slice, from an index. *)
Definition put_uvarint_at (dst : bytes) (n : nat) (v : Z) : go (bytes * nat) :=
  if (length dst <? n + length (PutUvarint v))%nat then Panic "index out of range"
  else Ret (copy_at dst n (PutUvarint v), (n + length (PutUvarint v))%nat).
Definition encodeBlockHandle (dst : bytes) (n : nat) (b : BlockHandle) : go (bytes * nat) :=
  '(dst, n) ← put_uvarint_at dst n (bh_Offset b);
  put_uvarint_at dst n (bh_Length b).
Definition encodeBlockHandleWithProperties (dst : bytes) (b : BlockHandleWithProperties) : go bytes :=
  '(dst, n) ← encodeBlockHandle dst 0 (bhp_Handle b);
  Ret (take n dst ++ bhp_Props b).

(** The number of bytes is [Z], as in Go it may be negative. *)
Definition decodeBlockHandle (src : bytes) : go (BlockHandle * Z) :=
  let '(offset, n) := Uvarint src in
  if n <? 0 then Panic "slice bounds out of range" else
  let '(length_, m) := Uvarint (drop (Z.to_nat n) src) in
  if (n =? 0) || (m =? 0) then Ret (mkBlockHandle 0 0, 0)
  else Ret (mkBlockHandle offset length_, n + m).
Definition decodeBlockHandleWithProperties (src : bytes) : go (result BlockHandleWithProperties) :=
  '(bh, n) ← decodeBlockHandle src;
  if n =? 0 then Ret (Err (New "invalid BlockHandle"))
  else if n <? 0 then Panic "slice bounds out of range"
  else Ret (Ok (mkBHP bh (drop (Z.to_nat n) src))).

(** ** Constants *)
Definition blockTrailerLen : nat := 5 + GCMTagSize.
Definition blockHandleMaxLenWithoutProperties : nat := 10 + 10.
Definition blockHandleLikelyMaxLen : nat := blockHandleMaxLenWithoutProperties + 100.

Definition levelDBFooterLen : nat := 48.
Definition levelDBMagic : bytes := z2b <$> [0x57; 0xfb; 0x80; 0x8b; 0x24; 0x75; 0x47; 0xdb].
Definition rocksDBFooterLen : nat := 1 + 2 * blockHandleMaxLenWithoutProperties + 4 + 8.
Definition rocksDBMagic : bytes := z2b <$> [0xf7; 0xcf; 0xf4; 0x85; 0xb7; 0x41; 0xe2; 0x88].
Definition rocksDBMagicOffset : nat := rocksDBFooterLen - 8.
Definition rocksDBVersionOffset : nat := rocksDBMagicOffset - 4.
Definition pebbleDBMagic : bytes := z2b <$> [0xf0; 0x9f; 0xaa; 0xb3; 0xf0; 0x9f; 0xaa; 0xb3].
Definition minFooterLen : nat := levelDBFooterLen.
Definition maxFooterLen : nat := rocksDBFooterLen.
Definition rocksDBFormatVersion2 : Z := 2.

(** ** Table formats *)
Definition TableFormat : Type := Z.
Definition TableFormatUnspecified : TableFormat := 0.
Definition TableFormatLevelDB : TableFormat := 1.
Definition TableFormatRocksDBv2 : TableFormat := 2.
Definition TableFormatPebblev1 : TableFormat := 3.
Definition TableFormatPebblev2 : TableFormat := 4.
Definition TableFormatPebblev3 : TableFormat := 5.
Definition TableFormatPebblev4 : TableFormat := 6.

Definition ParseTableFormat (magic : bytes) (version : Z) : result TableFormat :=
  if bool_decide (magic = levelDBMagic) then Ok TableFormatLevelDB
  else if bool_decide (magic = rocksDBMagic) then
    if negb (version =? rocksDBFormatVersion2) then Err (New "pebble/table: unsupported rocksdb format version")
    else Ok TableFormatRocksDBv2
  else if bool_decide (magic = pebbleDBMagic) then
    if version =? 1 then Ok TableFormatPebblev1
    else if version =? 2 then Ok TableFormatPebblev2
    else if version =? 3 then Ok TableFormatPebblev3
    else if version =? 4 then Ok TableFormatPebblev4
    else Err (New "pebble/table: unsupported pebble format version")
  else Err (New "pebble/table: invalid table (bad magic number)").
Definition AsTuple (f : TableFormat) : go (bytes * Z) :=
  if f =? TableFormatLevelDB then Ret (levelDBMagic, 0)
  else if f =? TableFormatRocksDBv2 then Ret (rocksDBMagic, 2)
  else if f =? TableFormatPebblev1 then Ret (pebbleDBMagic, 1)
  else if f =? TableFormatPebblev2 then Ret (pebbleDBMagic, 2)
  else if f =? TableFormatPebblev3 then Ret (pebbleDBMagic, 3)
  else if f =? TableFormatPebblev4 then Ret (pebbleDBMagic, 4)
  else Panic "sstable: unknown table format version tuple".
Definition supportsTwoLevelIndex (format : TableFormat) : go bool :=
  if format =? TableFormatLevelDB then Ret false
  else if (TableFormatRocksDBv2 <=? format) && (format <=? TableFormatPebblev4) then Ret true
  else Panic "sstable: unspecified table format version".

(** ** Checksums *)
Definition ChecksumTypeNone : Z := 0.
Definition ChecksumTypeCRC32c : Z := 1.
Definition ChecksumTypeXXHash : Z := 2.
Definition ChecksumTypeXXHash64 : Z := 3.

(** [hash/crc32] with the Castagnoli polynomial, bit by bit. *)
Fixpoint crc_bits (n : nat) (crc : Z) : Z :=
  match n with
  | O => crc
  | S n => crc_bits n (if Z.odd crc then Z.lxor (Z.shiftr crc 1) 0x82f63b78 else Z.shiftr crc 1)
  end.
Definition crc_byte (crc : Z) (b : byte) : Z := crc_bits 8 (Z.lxor crc (b2z b)).
Definition crc32_Update (crc : Z) (p : bytes) : Z :=
  Z.lxor (foldl crc_byte (Z.lxor crc 0xffffffff) p) 0xffffffff.
Definition CRC_New (b : bytes) : Z := crc32_Update 0 b.
Definition CRC_Value (c : Z) : Z := u32 (Z.lor (Z.shiftr c 15) (u32 (Z.shiftl c 17)) + 0xa282ead8).

(** The block cache of a reader, by the offsets of the blocks. *)
Abbreviation Cache := (gmap Z bytes).

Section blocks.
Context {E : BlockEnv}.

(** The hasher of [checksummer] is reset for every block: its state is what was written to it. *)
Definition checksummer_checksum (checksumType : Z) (block blockType : bytes) : go Z :=
  if checksumType =? ChecksumTypeCRC32c then Ret (CRC_Value (crc32_Update (CRC_New block) blockType))
  else if checksumType =? ChecksumTypeXXHash64 then Ret (u32 (xxhash_Sum64 (block ++ blockType)))
  else Panic "unsupported checksum type".
Definition checkChecksum (checksumType : Z) (b : bytes) (bh : BlockHandle) : go (result unit) :=
  let n := Z.to_nat (bh_Length bh) in
  if (length b <? n + 5)%nat then Panic "slice bounds out of range" else
  let expectedChecksum := Uint32 (drop (n + 1) b) in
  match (if checksumType =? ChecksumTypeCRC32c then Some (CRC_Value (CRC_New (take (n + 1) b)))
         else if checksumType =? ChecksumTypeXXHash64 then Some (u32 (xxhash_Sum64 (take (n + 1) b)))
         else None) with
  | None => Ret (Err (New "unsupported checksum type"))
  | Some computedChecksum =>
      if negb (expectedChecksum =? computedChecksum)
      then Ret (Err (New "pebble/table: invalid table (checksum mismatch)"))
      else Ret (Ok tt)
  end.

(** ** Compression *)
Definition NoCompression : Z := 1.
Definition SnappyCompression : Z := 2.
Definition ZstdCompression : Z := 3.
Definition noCompressionBlockType : Z := 0.
Definition snappyCompressionBlockType : Z := 1.
Definition zstdCompressionBlockType : Z := 7.

Definition compressBlock (compression : Z) (b : bytes) : go (Z * bytes) :=
  if compression =? SnappyCompression then Ret (snappyCompressionBlockType, snappy_Encode b)
  else if compression =? NoCompression then Ret (noCompressionBlockType, b)
  else if compression =? ZstdCompression then Panic "zstd not supported"
  else Ret (noCompressionBlockType, b).

Definition decompressedLen (blockType : Z) (b : bytes) : result (Z * Z) :=
  if blockType =? noCompressionBlockType then Ok (0, 0)
  else if blockType =? snappyCompressionBlockType then
    match snappy_DecodedLen b with Ok l => Ok (Z.of_nat l, 0) | Err e => Err e end
  else if blockType =? zstdCompressionBlockType then
    let '(decodedLenU64, varIntLen) := Uvarint b in
    if varIntLen <=? 0 then Err (New "pebble/table: compression block has invalid length")
    else Ok (i64 decodedLenU64, varIntLen)
  else Err (New "pebble/table: unknown block compression").
(** The bytes decompressed into a buffer of a length.  Snappy allocates another buffer if
    this one is too short. *)
Definition decompressInto (blockType : Z) (compressed : bytes) (len : Z) : go (result bytes) :=
  if blockType =? zstdCompressionBlockType then Panic "zstd not supported"
  else if blockType =? snappyCompressionBlockType then
    match snappy_Decode compressed with
    | Err e => Ret (Err e)
    | Ok result =>
        if negb (length result =? 0)%nat && negb (Z.of_nat (length result) =? len)
        then Ret (Err (New "pebble/table: decompressed into unexpected buffer"))
        else Ret (Ok (result ++ replicate (Z.to_nat len - length result) Byte.x00))
    end
  else Ret (Ok (replicate (Z.to_nat len) Byte.x00)).

(** The block to be written and its trailer: the type and the checksum. *)
Definition compressAndChecksum (checksumType : Z) (b : bytes) (compression : Z) : go (bytes * bytes) :=
  '(blockType, compressed) ← compressBlock compression b;
  let '(b, blockType) := if (length compressed <? length b - length b / 8)%nat then (compressed, blockType)
                         else (b, noCompressionBlockType) in
  checksum ← checksummer_checksum checksumType b [z2b blockType];
  Ret (b, z2b blockType :: PutUint32 checksum).

(** ** Encryption *)
Context {A : AEAD}.

Definition edgGetNonce (bh : BlockHandle) : bytes := copy_at (replicate 12 Byte.x00) 0 (PutUint64 (bh_Offset bh)).
Definition edgGetFooterNonce (offset : Z) : bytes :=
  <[8%nat := Byte.x01]> (copy_at (replicate 12 Byte.x00) 0 (PutUint64 offset)).

(** The trailer is the one of a buffer that may be longer. *)
Definition edgEncrypt (aead : bytes) (bh : BlockHandle) (block blockTrailerBuf : bytes) : bytes :=
  Seal aead (edgGetNonce bh) (block ++ take (blockTrailerLen - GCMTagSize) blockTrailerBuf).
Definition edgEncryptFooter (aead : bytes) (encodedFooter : bytes) (offset : Z) : bytes :=
  Seal aead (edgGetFooterNonce offset) encodedFooter.
(** [Open] decrypts in place: the tag remains at the end of the buffer. *)
Definition edgDecrypt (unencrypted : bool) (aead : bytes) (bh : BlockHandle) (buf : bytes) : result bytes :=
  if unencrypted then Ok buf else
  match Open aead (edgGetNonce bh) buf with
  | None => Err (New "checksum mismatch")
  | Some p => Ok (p ++ drop (length p) buf)
  end.

(** ** Writing a block

    The file so far has [meta.Size] bytes; what is passed to [WriteApproved] is appended. *)
Definition writeCompressedBlock (aead file block blockTrailerBuf : bytes) : bytes * BlockHandle :=
  let bh := mkBlockHandle (u64 (Z.of_nat (length file))) (u64 (Z.of_nat (length block))) in
  let ciphertext := edgEncrypt aead bh block blockTrailerBuf in
  (file ++ ciphertext, bh).
Definition writeBlock (aead : bytes) (checksumType : Z) (file b : bytes) (compression : Z) : go (bytes * BlockHandle) :=
  '(b, trailer) ← compressAndChecksum checksumType b compression;
  Ret (writeCompressedBlock aead file b trailer).

(** ** Reading a block *)

(** [ReadAt] of a file: all the bytes, or an error. *)
Definition ReadAt (file : bytes) (len : nat) (off : Z) : result bytes :=
  if off <? 0 then Err (New "negative offset")
  else if (Z.of_nat (length file) <? off + Z.of_nat len) then Err EOF
  else Ok (slice file (Z.to_nat off) (Z.to_nat off + len)).

(** What is fixed for a reader. *)
Record ReaderParams := mkReaderParams {
  rp_file : bytes;
  rp_aead : bytes;
  rp_unencrypted : bool;
  rp_checksumType : Z;
}.

(** Reads a block from the file: what [readBlock] does when the block is not in the cache. *)
Definition readBlock_file (r : ReaderParams) (bh : BlockHandle) (transform : option (bytes -> go (result bytes))) :
    go (result bytes) :=
  let n := i64 (u64 (bh_Length bh + Z.of_nat blockTrailerLen)) in
  if n <? 0 then Panic "makeslice: len out of range" else
  compressed ⇐ Ret (ReadAt (rp_file r) (Z.to_nat n) (i64 (bh_Offset bh)));
  compressed ⇐ Ret (edgDecrypt (rp_unencrypted r) (rp_aead r) bh compressed);
  _ ⇐ checkChecksum (rp_checksumType r) compressed bh;
  match compressed !! Z.to_nat (bh_Length bh) with
  | None => Panic "index out of range"
  | Some typ =>
      let typ := b2z typ in
      let compressed := take (Z.to_nat (bh_Length bh)) compressed in
      decompressed ⇐
        (if typ =? noCompressionBlockType then Ret (Ok compressed) else
         '(decodedLen, prefixLen) ⇐ Ret (decompressedLen typ compressed);
         if decodedLen <? 0 then Panic "makeslice: len out of range" else
         decompressInto typ (drop (Z.to_nat prefixLen) compressed) decodedLen);
      match transform with
      | Some transform => transform decompressed
      | None => Ret (Ok decompressed)
      end
  end.
(** With a buffer pool the block is not added to the cache. *)
Definition readBlock (r : ReaderParams) (cache : Cache) (bh : BlockHandle)
    (transform : option (bytes -> go (result bytes))) (bufferPool : bool) : go (result (Cache * bytes)) :=
  match cache !! bh_Offset bh with
  | Some b => Ret (Ok (cache, b))
  | None =>
      b ⇐ readBlock_file r bh transform;
      Ret (Ok (if bufferPool then cache else <[bh_Offset bh := b]> cache, b))
  end.

(** ** The footer *)
Record footer := mkFooter {
  f_format : TableFormat;
  f_checksum : Z;
  f_metaindexBH : BlockHandle;
  f_indexBH : BlockHandle;
  f_footerBH : BlockHandle;
}.

(** [buf] has [blockHandleLikelyMaxLen] bytes. *)
Definition footer_encode (f : footer) : go bytes :=
  '(magic, version) ← AsTuple (f_format f);
  if bool_decide (magic = levelDBMagic) then
    let buf := replicate levelDBFooterLen Byte.x00 in
    '(buf, n) ← encodeBlockHandle buf 0 (f_metaindexBH f);
    '(buf, _) ← encodeBlockHandle buf n (f_indexBH f);
    Ret (copy_at buf (levelDBFooterLen - length levelDBMagic) levelDBMagic)
  else
    let buf := replicate rocksDBFooterLen Byte.x00 in
    if (f_checksum f <? 0) || (3 <? f_checksum f) then Panic "unknown checksum type" else
    let buf := <[0%nat := z2b (f_checksum f)]> buf in
    '(buf, n) ← encodeBlockHandle buf 1 (f_metaindexBH f);
    '(buf, _) ← encodeBlockHandle buf n (f_indexBH f);
    let buf := copy_at buf rocksDBVersionOffset (PutUint32 version) in
    Ret (copy_at buf (rocksDBFooterLen - length rocksDBMagic) magic).

(** [objstorage.Readable]: a file, or the decrypted footer. *)
Record Readable := mkReadable { rd_Size : Z; rd_ReadAt : nat -> Z -> go (result bytes) }.
Definition file_readable (file : bytes) : Readable :=
  mkReadable (Z.of_nat (length file)) (fun len off => Ret (ReadAt file len off)).
Definition decryptedFooter_readable (buf : bytes) (size : Z) : Readable :=
  mkReadable size (fun len off =>
    let k := off - size + Z.of_nat maxFooterLen in
    if (k <? 0) || (Z.of_nat (length buf) <? k) then Panic "slice bounds out of range"
    else Ret (Ok (copy_at (replicate len Byte.x00) 0 (drop (Z.to_nat k) buf)))).
Definition newDecryptedFooter (file aead : bytes) : result Readable :=
  let len := (maxFooterLen + GCMTagSize)%nat in
  let off := Z.of_nat (length file) - Z.of_nat len in
  if off <? 0 then Err (New "invalid table (file size is too small)") else
  buf ← ReadAt file len off;
  match Open aead (edgGetFooterNonce (u64 off)) buf with
  | None => Err (New "cipher: message authentication failed")
  | Some p => Ok (decryptedFooter_readable p (Z.of_nat (length file)))
  end.

Definition decode_footer_handles (ft : footer) (buf : bytes) (size : Z) : go (result footer) :=
  '(bh, n) ← decodeBlockHandle buf;
  if (n =? 0) || (size <? u64 (bh_Offset bh + bh_Length bh))
  then Ret (Err (New "pebble/table: invalid table (bad metaindex block handle)"))
  else if n <? 0 then Panic "slice bounds out of range" else
  '(ibh, n) ← decodeBlockHandle (drop (Z.to_nat n) buf);
  if (n =? 0) || (size <? u64 (bh_Offset ibh + bh_Length ibh))
  then Ret (Err (New "pebble/table: invalid table (bad index block handle)"))
  else Ret (Ok (mkFooter (f_format ft) (f_checksum ft) bh ibh (f_footerBH ft))).
Definition readFooter (f : Readable) : go (result footer) :=
  let size := rd_Size f in
  if size <? Z.of_nat minFooterLen
  then Ret (Err (New "pebble/table: invalid table (file size is too small)")) else
  let off := Z.max 0 (size - Z.of_nat maxFooterLen) in
  let len := Z.to_nat (Z.min size (Z.of_nat maxFooterLen)) in
  buf ⇐ rd_ReadAt f len off;
  let magic := drop (length buf - length rocksDBMagic) buf in
  let none := mkBlockHandle 0 0 in
  if bool_decide (magic = levelDBMagic) then
    if (length buf <? levelDBFooterLen)%nat then Ret (Err (New "pebble/table: invalid table (footer too short)")) else
    let fbh := mkBlockHandle (u64 (off + Z.of_nat (length buf) - Z.of_nat levelDBFooterLen)) (Z.of_nat levelDBFooterLen) in
    decode_footer_handles (mkFooter TableFormatLevelDB ChecksumTypeCRC32c none none fbh)
      (drop (length buf - levelDBFooterLen) buf) size
  else if bool_decide (magic = rocksDBMagic) || bool_decide (magic = pebbleDBMagic) then
    if (length buf <? rocksDBFooterLen)%nat then Ret (Err (New "pebble/table: invalid table (footer too short)")) else
    let fbh := mkBlockHandle (u64 (off + Z.of_nat (length buf) - Z.of_nat rocksDBFooterLen)) (Z.of_nat rocksDBFooterLen) in
    let buf := drop (length buf - rocksDBFooterLen) buf in
    let version := Uint32 (drop rocksDBVersionOffset buf) in
    format ⇐ Ret (ParseTableFormat magic version);
    match buf with
    | [] => Panic "index out of range"
    | c :: buf =>
        if (b2z c =? ChecksumTypeCRC32c) || (b2z c =? ChecksumTypeXXHash64)
        then decode_footer_handles (mkFooter format (b2z c) none none fbh) buf size
        else Ret (Err (New "pebble/table: unsupported checksum type"))
    end
  else Ret (Err (New "pebble/table: invalid table (bad magic number)")).
End blocks.
