(* ===== verification/BlockSpec.v ===== *)
(** What the iterator over a block (Block.v) promises: it is an iterator over the visible
    entries of the block, for the calls it supports. *)
From S2P Require Import Prelude.
From S2P Require Import Comparer.
From S2P Require Import InternalKey.
From S2P Require Import Iterators.
From S2P Require Import ValueBlock.
From S2P Require Import Block.
From S2P Require Import BlockFormat.
From S2P Require Import BlockRead.
From S2P Require Import BlockIter.
From S2P Require Import BlockSeek.
From S2P Require Import BlockPrefix.

Local Open Scope Z_scope.

(** ** The interface *)
Section instance.
Context {C : Comparer} (resolve : LazyValue -> bytes).

Definition entry_of (res : go block_result) : go (blockIter * option entry) :=
  '(i, r) ← res; Ret (i, fmap (M:=option) (to_entry resolve) r).
Definition blockIter_iterator : InternalIterator blockIter := {|
  op_SeekGE i key _ := entry_of (blockIter_SeekGE i key);
  op_SeekPrefixGE i prefix key _ := entry_of (blockIter_SeekPrefixGE i prefix key);
  op_SeekLT i key := entry_of (blockIter_SeekLT i key);
  op_First i := entry_of (blockIter_First i);
  op_Last i := entry_of (blockIter_Last i);
  op_Next i := entry_of (blockIter_Next i);
  op_NextPrefix i succKey := entry_of (blockIter_NextPrefix i succKey);
  op_Prev i := entry_of (blockIter_Prev i);
  op_SetBounds i lower upper := blockIter_SetBounds i lower upper;
|}.

(** The supported calls. [NextPrefix] moves from an entry to a later key; with value prefixes
    this is the successor of its prefix. *)
Definition prefix_of (k : InternalKey) : bytes := take (split_len (UserKey k)) (UserKey k).
Definition block_ok (hasPrefix : bool) (kvs : list entry) (s : iter_state) (c : iter_call) : bool :=
  match c with
  | CallSeekPrefixGE _ _ _ | CallSetBounds _ _ => false
  | CallNextPrefix succKey =>
      match st_pos s with
      | PosAt j =>
          match kvs !! j with
          | Some e => bool_decide (key_before succKey e) &&
              (negb hasPrefix || bool_decide (ImmediateSuccessor [] (prefix_of e.1) = succKey))
          | None => false
          end
      | _ => false
      end
  | _ => true
  end.
End instance.

Section spec.
Context {C : Comparer} {L : ComparerLaws C}.
Context (xs : list item) (rs : list restart) (Hwf : block_wf xs rs) (Hne : xs <> []).
Context (globalSeqNum : Z) (hide vbr hasPrefix : bool) (resolve : LazyValue -> bytes).
Context (Hlazy : Forall (fun x => item_lazy globalSeqNum vbr hasPrefix x = Ret (item_lv globalSeqNum vbr hasPrefix x)) xs).
Context (Hsorted : forall j k x y, xs !! j = Some x -> xs !! k = Some y -> (j <= k)%nat ->
  Compare (item_userKey x) (item_userKey y) <> Gt).
Context (Hpf : hasPrefix = true -> prefixes_wf xs rs globalSeqNum).

#[local] Abbreviation over := (over xs rs globalSeqNum hide vbr hasPrefix).
#[local] Abbreviation kvs := (kvs xs globalSeqNum hide vbr hasPrefix resolve).
#[local] Abbreviation vrank := (vrank xs hide).
#[local] Abbreviation at_item := (at_item xs rs globalSeqNum hide vbr hasPrefix).
#[local] Abbreviation at_before := (at_before xs rs globalSeqNum hide vbr hasPrefix).
#[local] Abbreviation at_after := (at_after xs rs globalSeqNum hide vbr hasPrefix).
#[local] Abbreviation moved_forward := (moved_forward xs rs globalSeqNum hide vbr hasPrefix resolve).
#[local] Abbreviation moved_backward := (moved_backward xs rs globalSeqNum hide vbr hasPrefix resolve).

Definition block_state (s : iter_state) (i : blockIter) : Prop :=
  st_lower s = None /\ st_upper s = None /\
  match st_pos s with
  | PosAt j => exists p x, at_item i p x /\ visible hide x = true /\ vrank p = j /\
      (st_reverse s = false -> bi_cachedBuf i = [])
  | PosBefore => at_before i
  | PosAfter => at_after i
  | PosNone => over i
  end.

Lemma block_state_over s i : block_state s i -> over i.
Proof.
  intros (_ & _ & H). destruct (st_pos s); [|by destruct H..|done]. by destruct H as (p & x & (Ho & _) & _).
Qed.

Lemma in_upper_None r : in_upper None r = r.
Proof. by destruct r. Qed.
Lemma in_lower_None r : in_lower None r = r.
Proof. by destruct r. Qed.

Lemma forward_state s i q (op : go block_result) s' r :
  (exists i' r', op = Ret (i', r') /\ moved_forward q i' r') -> block_state s i ->
  Some (forward kvs s (vrank q)) = Some (s', r) ->
  exists i', entry_of resolve op = Ret (i', r) /\ block_state s' i'.
Proof.
  intros (i' & r' & -> & Hr & Hmv) (Hl & Hu & _) [= <- <-]. unfold entry_of. rewrite bind_Ret, Hu, in_upper_None, Hr.
  exists i'. split; [done|]. split; [done|]. split; [done|]. rewrite <- Hr. destruct r' as [kl|]; cbn.
  - destruct Hmv as (p & x & _ & Hp & Hv & Hat & Hb & _). by exists p, x.
  - by destruct Hmv.
Qed.
Lemma backward_state s i q (op : go block_result) s' r :
  (exists i' r', op = Ret (i', r') /\ moved_backward q i' r') -> block_state s i ->
  Some (backward kvs s (vrank q)) = Some (s', r) ->
  exists i', entry_of resolve op = Ret (i', r) /\ block_state s' i'.
Proof.
  intros (i' & r' & -> & Hr & Hmv) (Hl & Hu & _) [= <- <-]. unfold entry_of. rewrite bind_Ret, Hl, in_lower_None, Hr.
  exists i'. split; [done|]. split; [done|]. split; [done|]. rewrite <- Hr. destruct r' as [kl|]; cbn.
  - destruct Hmv as (p & x & _ & Hp & Hv & Hat & _). exists p, x. split; [done|]. split; [done|]. split; [|done]. lia.
  - by destruct Hmv.
Qed.

Lemma NextPrefix_ok s i key j m :
  block_state s i -> st_pos s = PosAt j -> st_reverse s = false -> (m <= length xs)%nat ->
  (forall j x, xs !! j = Some x -> before key x = bool_decide (j < m)%nat) ->
  block_ok hasPrefix kvs s (CallNextPrefix key) = true ->
  exists i' r, blockIter_NextPrefix i key = Ret (i', r) /\ moved_forward m i' r.
Proof.
  intros (_ & _ & HR) Hj Hrev Hm Hsplit Hok. rewrite Hj in HR. destruct HR as (p & x & Hat & Hv & <- & Hb).
  pose proof Hat as (Ho & Hx & _). cbn in Hok. rewrite Hj, (kvs_at _ _ _ _ _ _ _ _ Hx Hv) in Hok.
  apply andb_prop in Hok as [Hlt Hp]. rewrite bool_decide_eq_true in Hlt. unfold key_before, kv in Hlt. cbn in Hlt.
  rewrite item_ikey_userKey in Hlt. assert (p < m)%nat as Hpm.
  { pose proof (Hsplit p x Hx) as E. unfold before in E. rewrite (bool_decide_eq_true_2 _ Hlt) in E. symmetry in E. by apply bool_decide_eq_true in E. }
  destruct hasPrefix eqn:Ehp.
  - cbn in Hp. rewrite bool_decide_eq_true in Hp. unfold prefix_of in Hp. rewrite item_ikey_userKey in Hp.
    apply (NextPrefix_V3 xs rs Hwf globalSeqNum hide vbr resolve Hlazy Hsorted (Hpf eq_refl) p x Hx key m Hm Hsplit);
      [|done|by apply Hb|done].
    by apply (succ_split xs rs globalSeqNum Hsorted (Hpf eq_refl)).
  - apply (NextPrefix_plain xs rs Hwf globalSeqNum hide vbr false resolve Hlazy Hsorted key m Hm Hsplit i p x); [done..|].
    pose proof (vrank_le xs hide (S p) m Hpm) as Hle. rewrite (vrank_S xs hide p x Hx), Hv in Hle. lia.
Qed.

Lemma block_simulates : simulates_on (H := blockIter_iterator resolve) (block_ok hasPrefix kvs) kvs block_state.
Proof.
  intros s i c s' r Hok HR Hc. pose proof (block_state_over s i HR) as Ho.
  assert (forall key, exists m, (m <= length xs)%nat /\ rank kvs key = vrank m /\
    forall j x, xs !! j = Some x -> before key x = bool_decide (j < m)%nat) as Hkey.
  { intros key. destruct (before_split xs Hsorted key) as (m & Hm & Hsplit). exists m. split; [done|]. split; [|done].
    by apply rank_kvs. }
  destruct c as [key t|pre key t|key| | | |key| |l u]; cbn [abs_call call op_SeekGE op_SeekLT op_First op_Last op_Next op_NextPrefix op_Prev blockIter_iterator] in *.
  - destruct (Hkey key) as (m & Hm & Em & Hsplit). destruct (t && _); [done|]. rewrite Em in Hc.
    eapply forward_state; [|done..].
    by apply (block_SeekGE_ok xs rs Hwf globalSeqNum hide vbr hasPrefix resolve Hlazy Hsorted key m Hm Hsplit).
  - done.
  - destruct (Hkey key) as (m & Hm & Em & Hsplit). rewrite Em in Hc. eapply backward_state; [|done..].
    by apply (block_SeekLT_ok xs rs Hwf globalSeqNum hide vbr hasPrefix resolve Hlazy Hsorted key m Hm Hsplit).
  - eapply (forward_state s i 0); [|done..]. by apply First_ok.
  - rewrite <- (vrank_end xs globalSeqNum hide vbr hasPrefix resolve (length xs)) in Hc by lia.
    eapply backward_state; [|done..]. by apply Last_ok.
  - destruct (st_pos s) as [j| | |] eqn:Ej; try done; pose proof HR as (_ & _ & Hs); rewrite Ej in Hs.
    + destruct Hs as (p & x & Hat & Hv & <- & _). assert (vrank (S p) = S (vrank p)) as E.
      { pose proof Hat as (_ & Hx & _). rewrite (vrank_S xs hide p x Hx), Hv. lia. }
      rewrite <- E in Hc. eapply forward_state; [|done..]. by apply (Next_item _ _ Hwf _ _ _ _ _ Hlazy i p x).
    + eapply (forward_state s i 0); [|done..]. by apply Next_before.
  - destruct (st_pos s) as [j| | |] eqn:Ej; try done. destruct (may_try _ _ _ && negb _) eqn:Et; [|done].
    apply andb_prop in Et as [_ Hrev%negb_true_iff]. destruct (Hkey key) as (m & Hm & Em & Hsplit). rewrite Em in Hc.
    eapply forward_state; [|done..]. by apply (NextPrefix_ok s i key j m).
  - destruct (st_pos s) as [j| | |] eqn:Ej; try done; pose proof HR as (_ & _ & Hs); rewrite Ej in Hs.
    + destruct Hs as (p & x & Hat & Hv & <- & _). eapply backward_state; [|done..].
      destruct (at_item_backward _ _ _ _ _ _ i p x Hat) as [c Hb]. by apply (Prev_ok _ _ Hwf _ _ _ _ _ Hlazy i c).
    + rewrite <- (vrank_end xs globalSeqNum hide vbr hasPrefix resolve (length xs)) in Hc by lia.
      eapply backward_state; [|done..]. pose proof (at_after_backward _ _ _ _ _ _ i Hs) as Hb.
      by apply (Prev_ok _ _ Hwf _ _ _ _ _ Hlazy i _ _ Hb).
  - done.
Qed.
End spec.

(** ** Blocks that are written *)

(** An entry that is added, as the iterator shows it. *)
Section added.
Context (globalSeqNum : Z) (hide vbr hasPrefix : bool) (resolve : LazyValue -> bytes).

Definition add_ikey (a : add) : InternalKey :=
  if negb (globalSeqNum =? 0) then SetSeqNum (a_key a) globalSeqNum else a_key a.
Definition add_visible (a : add) : bool := negb (hide && a_obsolete a).
Definition add_is_set (a : add) : bool := Kind (a_key a) =? InternalKeyKindSet.
Definition add_lv (a : add) : LazyValue :=
  if hasPrefix && add_is_set a && vbr && isValueHandle (a_prefix a)
  then match getLazyValueForPrefixAndValueHandle (raw_value a) with Ret lv => lv | Panic _ => MakeInPlaceValue [] end
  else MakeInPlaceValue (a_value a).
Definition add_kv (a : add) : entry := (add_ikey a, resolve (add_lv a)).
Definition add_kvs (l : list add) : list entry := add_kv <$> filter add_visible l.

(** Entries have kinds without the bit for obsolete entries; with value prefixes, SETs
    (and no others) have one, and it describes the value. *)
Record add_ok (a : add) : Prop := {
  ao_trailer : 0 <= Trailer (a_key a) < 2 ^ 64;
  ao_kind : Z.land (Trailer (a_key a)) trailerObsoleteBit = 0;
  ao_addPrefix : a_addPrefix a = hasPrefix && add_is_set a;
  ao_prefix : 0 <= a_prefix a < 256;
  ao_handle : isValueHandle (a_prefix a) = true -> exists v, handle_ok v /\ a_value a = enc_handle v;
}.

Lemma lor_bound n a b : 0 <= a < 2 ^ n -> 0 <= b < 2 ^ n -> 0 <= Z.lor a b < 2 ^ n.
Proof.
  intros Ha Hb. assert (0 <= Z.lor a b) as H0 by (apply Z.lor_nonneg; lia). split; [done|].
  destruct (decide (Z.lor a b = 0)) as [->|Hne]; [lia|]. apply Z.log2_lt_cancel.
  destruct (decide (0 < n)) as [Hn|Hn].
  - rewrite Z.log2_pow2 by lia. rewrite Z.log2_lor by lia. apply Z.max_lub_lt.
    + destruct (decide (a = 0)) as [->|]; [done|]. apply Z.log2_lt_pow2; lia.
    + destruct (decide (b = 0)) as [->|]; [done|]. apply Z.log2_lt_pow2; lia.
  - assert (2 ^ n <= 1) as H1 by (destruct (decide (n = 0)) as [->|]; [done|]; rewrite Z.pow_neg_r; lia).
    destruct Hne. assert (a = 0) as -> by lia. assert (b = 0) as -> by lia. done.
Qed.

Lemma trailer_mask t b :
  0 <= t -> Z.land t trailerObsoleteBit = 0 ->
  Z.land (if b : bool then Z.lor t trailerObsoleteBit else t) trailerObsoleteMask = Z.land t (2 ^ 64 - 1) /\
  (Z.land (if b then Z.lor t trailerObsoleteBit else t) trailerObsoleteBit =? 0) = negb b.
Proof.
  intros Ht H. assert (Z.land t trailerObsoleteMask = Z.land t (2 ^ 64 - 1)) as E.
  { change trailerObsoleteMask with (Z.ldiff (2 ^ 64 - 1) trailerObsoleteBit). rewrite <- (Z.lor_0_r (Z.land t _)).
    apply Z.bits_inj'. intros n Hn. apply (f_equal (fun z => Z.testbit z n)) in H. revert H.
    rewrite Z.lor_spec, !Z.land_spec, Z.ldiff_spec, Z.bits_0. destruct (Z.testbit t n), (Z.testbit (2 ^ 64 - 1) n), (Z.testbit trailerObsoleteBit n); done. }
  destruct b; [|by rewrite H].
  rewrite !Z.land_lor_distr_l, E, H. change (Z.land trailerObsoleteBit trailerObsoleteMask) with 0. by rewrite Z.lor_0_r.
Qed.

Lemma item_added x a :
  add_ok a -> x_key x = raw_key a ->
  item_userKey x = UserKey (a_key a) /\ item_ikey globalSeqNum x = add_ikey a /\ item_hidden hide x = hide && a_obsolete a.
Proof.
  intros Ha E. assert (length (x_key x) - 8 = length (UserKey (a_key a)))%nat as El by (rewrite E, length_raw_key; lia).
  assert (Uint64 (drop (length (x_key x) - 8) (x_key x)) = raw_trailer a) as Et.
  { rewrite El, E. unfold raw_key. rewrite drop_app_length, <- (app_nil_r (PutUint64 _)). apply Uint64_Put.
    pose proof (ao_trailer a Ha). unfold raw_trailer. destruct (a_obsolete a); [|done]. by apply lor_bound. }
  assert (item_userKey x = UserKey (a_key a)) as Eu.
  { unfold item_userKey. rewrite El, E. unfold raw_key. by rewrite take_app_length. }
  destruct (trailer_mask (Trailer (a_key a)) (a_obsolete a)) as [E1 E2]; [apply (ao_trailer a Ha)|apply (ao_kind a Ha)|].
  change (2 ^ 64 - 1) with (Z.ones 64) in E1. rewrite Z.land_ones, Z.mod_small in E1 by (done || apply (ao_trailer a Ha)). split; [done|]. split.
  - unfold item_ikey, add_ikey. rewrite Et. fold (item_userKey x). rewrite Eu. unfold raw_trailer. rewrite E1.
    destruct (a_key a). done.
  - unfold item_hidden. rewrite Et. unfold raw_trailer. by rewrite E2, negb_involutive.
Qed.

Lemma kind_add_ikey a : Kind (add_ikey a) = Kind (a_key a).
Proof. unfold add_ikey. destruct (negb _); [apply kind_SetSeqNum|done]. Qed.
Lemma item_added_lazy x a :
  add_ok a -> x_key x = raw_key a -> x_val x = raw_value a ->
  item_lazy globalSeqNum vbr hasPrefix x = Ret (add_lv a).
Proof.
  intros Ha Ek Ev. destruct (item_added x a Ha Ek) as (_ & E & _). unfold item_lazy, lazyValue_of, add_lv.
  rewrite E, Ev. change (TrailerKind (Trailer (add_ikey a))) with (Kind (add_ikey a)). rewrite kind_add_ikey. fold (add_is_set a).
  pose proof (ao_addPrefix a Ha) as Ep. unfold raw_value. rewrite Ep. rewrite <- negb_andb.
  destruct (hasPrefix && add_is_set a).
  2: reflexivity.
  cbn [negb app andb].
  rewrite b2z_z2b, Z.mod_small by apply (ao_prefix a Ha). rewrite <- negb_andb. change (true && vbr) with vbr. destruct (vbr && isValueHandle (a_prefix a)) eqn:Eh; [|done].
  cbn [negb]. apply andb_prop in Eh as [_ Eh]. destruct (ao_handle a Ha Eh) as (v & Hv & ->).
  unfold getLazyValueForPrefixAndValueHandle, enc_handle. unfold decodeLenFromValueHandle.
  destruct Hv as [Hv _ _]. by rewrite decodeVarint32_Put.
Qed.

(** Two entries that are added one after the other, with value prefixes. *)
Context {C : Comparer}.
Record next_ok (a b : add) : Prop := {
  no_same : a_same b = add_is_set b && setHasSamePrefix (a_prefix b);
  no_equal : add_is_set b = true -> setHasSamePrefix (a_prefix b) = true -> prefix_of (a_key b) = prefix_of (a_key a);
  no_changed : add_is_set a = true -> add_is_set b = true -> setHasSamePrefix (a_prefix b) = false ->
    prefix_of (a_key b) <> prefix_of (a_key a);
  no_shared : (a_maxShared b <= length (prefix_of (a_key a)))%nat;
}.
Record adds_ok (l : list add) : Prop := {
  as_each : Forall add_ok l;
  as_sorted j a b : l !! j = Some a -> l !! S j = Some b -> Compare (UserKey (a_key a)) (UserKey (a_key b)) <> Gt;
  as_next j a b : hasPrefix = true -> l !! j = Some a -> l !! S j = Some b -> next_ok a b;
  as_split a : hasPrefix = true -> a ∈ l -> prefix_key (prefix_of (a_key a));
}.

Section read.
Context {L : ComparerLaws C} (l : list add) (Hl : adds_ok l) (xs : list item) (rs : list restart) (Hw : written l xs rs).

Lemma written_at j x :
  xs !! j = Some x -> exists a, l !! j = Some a /\ add_ok a /\ x_key x = raw_key a /\ x_val x = raw_value a.
Proof.
  intros Hx. pose proof (f_equal (.!! j) (wt_keys _ _ _ Hw)) as Ek. pose proof (f_equal (.!! j) (wt_vals _ _ _ Hw)) as Ev.
  cbn in Ek, Ev. rewrite !list_lookup_fmap, Hx in Ek, Ev. destruct (l !! j) as [a|] eqn:Ea; [|done].
  injection Ek as Ek. injection Ev as Ev. exists a. split; [done|]. split; [|done].
  pose proof (as_each _ Hl) as H. rewrite Forall_forall in H. by apply H, (list_elem_of_lookup_2 _ j).
Qed.
Lemma adds_sorted : forall j k a b, l !! j = Some a -> l !! k = Some b -> (j <= k)%nat ->
  Compare (UserKey (a_key a)) (UserKey (a_key b)) <> Gt.
Proof.
  intros j k a b Ha Hb Hjk. revert b Hb. induction Hjk as [|k Hjk IH]; intros b Hb.
  - rewrite Ha in Hb. injection Hb as <-. by rewrite compare_refl.
  - destruct (lookup_lt_is_Some_2 l k) as [c Hc]; [apply lookup_lt_Some in Hb; lia|].
    exact (compare_le_trans _ _ _ (IH c Hc) (as_sorted _ Hl k c b Hc Hb)).
Qed.
Lemma written_sorted j k x y :
  xs !! j = Some x -> xs !! k = Some y -> (j <= k)%nat -> Compare (item_userKey x) (item_userKey y) <> Gt.
Proof.
  intros Hx Hy Hjk. destruct (written_at j x Hx) as (a & Ha & Hoa & Eka & _). destruct (written_at k y Hy) as (b & Hb & Hob & Ekb & _).
  destruct (item_added x a Hoa Eka) as (-> & _). destruct (item_added y b Hob Ekb) as (-> & _). by apply (adds_sorted j k).
Qed.
Lemma written_lazy : Forall (fun x => item_lazy globalSeqNum vbr hasPrefix x = Ret (item_lv globalSeqNum vbr hasPrefix x)) xs.
Proof.
  apply Forall_lookup. intros j x Hx. destruct (written_at j x Hx) as (a & _ & Ha & Ek & Ev).
  unfold item_lv. by rewrite (item_added_lazy x a Ha Ek Ev).
Qed.
Lemma written_prefixes : hasPrefix = true -> prefixes_wf xs rs globalSeqNum.
Proof.
  intros Hp. assert (forall j x a, xs !! j = Some x -> add_ok a -> x_key x = raw_key a -> x_val x = raw_value a ->
    is_set globalSeqNum x = add_is_set a /\ item_prefix x = prefix_of (a_key a) /\
    (add_is_set a = true -> x_val x <> [] /\ same_flag x = setHasSamePrefix (a_prefix a))) as Hd.
  { intros j x a Hx Ha Ek Ev. destruct (item_added x a Ha Ek) as (Eu & Ei & _). split; [|split].
    - unfold is_set. by rewrite Ei, kind_add_ikey.
    - unfold item_prefix. by rewrite Eu.
    - intros Es. unfold same_flag. rewrite Ev. unfold raw_value. rewrite (ao_addPrefix a Ha), Hp, Es. cbn [andb app].
      by rewrite b2z_z2b, Z.mod_small by apply (ao_prefix a Ha). }
  assert (forall j x, xs !! j = Some x -> exists a, l !! j = Some a /\ add_ok a /\
    is_set globalSeqNum x = add_is_set a /\ item_prefix x = prefix_of (a_key a) /\
    (add_is_set a = true -> x_val x <> [] /\ same_flag x = setHasSamePrefix (a_prefix a))) as Hat.
  { intros j x Hx. destruct (written_at j x Hx) as (a & Ha & Hoa & Ek & Ev). exists a. split; [done|]. split; [done|]. by apply (Hd j). }
  split.
  - intros j x Hx Es. destruct (Hat j x Hx) as (a & _ & _ & E & _ & H). apply H. congruence.
  - intros j x y Hx Hy Es Ef. destruct (Hat j x Hx) as (a & Ha & _ & _ & -> & _).
    destruct (Hat (S j) y Hy) as (b & Hb & _ & E & -> & H). rewrite E in Es. destruct (H Es) as [_ E']. rewrite E' in Ef.
    by apply (no_equal _ _ (as_next _ Hl j a b Hp Ha Hb)).
  - intros j x y Hx Hy Ex Ey Ef. destruct (Hat j x Hx) as (a & Ha & _ & Ea & -> & _).
    destruct (Hat (S j) y Hy) as (b & Hb & _ & E & -> & H). rewrite E in Ey. destruct (H Ey) as [_ E']. rewrite E' in Ef.
    apply (no_changed _ _ (as_next _ Hl j a b Hp Ha Hb)); congruence.
  - intros j x y Hx Hy. destruct (Hat j x Hx) as (a & Ha & _ & _ & -> & _). destruct (Hat (S j) y Hy) as (b & Hb & _).
    pose proof (no_shared _ _ (as_next _ Hl j a b Hp Ha Hb)). pose proof (wt_max _ _ _ Hw (S j) y b Hy Hb). lia.
  - intros h r0 r m y Hr0 Hr Hf Hm Hy. destruct (Hat m y Hy) as (b & Hb & _ & E & _ & H).
    pose proof (wt_flags _ _ _ Hw h r0 r m b Hr0 Hr Hf Hm Hb) as Hs.
    destruct (lookup_lt_is_Some_2 l (pred m)) as [a Ha]; [apply lookup_lt_Some in Hb; lia|].
    replace m with (S (pred m)) in Hb by lia. rewrite (no_same _ _ (as_next _ Hl (pred m) a b Hp Ha Hb)) in Hs.
    apply andb_prop in Hs as [Hs1 Hs2]. rewrite E. split; [done|]. by rewrite (proj2 (H Hs1)).
  - intros j x Hx. destruct (Hat j x Hx) as (a & Ha & _ & _ & -> & _). apply (as_split _ Hl a Hp). by apply (list_elem_of_lookup_2 _ j).
Qed.
Lemma written_kvs : kvs xs globalSeqNum hide vbr hasPrefix resolve = add_kvs l.
Proof.
  assert (Forall2 (fun x a => kv globalSeqNum vbr hasPrefix resolve x = add_kv a /\ visible hide x = add_visible a) xs l) as HF.
  { apply Forall2_same_length_lookup_2.
    - pose proof (f_equal length (wt_keys _ _ _ Hw)) as E. by rewrite !length_fmap in E.
    - intros j x a Hx Ha. destruct (written_at j x Hx) as (a' & Ha' & Hoa & Ek & Ev). rewrite Ha in Ha'. injection Ha' as <-.
      destruct (item_added x a Hoa Ek) as (_ & E1 & E2). unfold kv, add_kv, visible, add_visible. rewrite E1, E2.
      unfold item_lv. by rewrite (item_added_lazy x a Hoa Ek Ev). }
  unfold kvs, add_kvs. clear Hl Hw. induction HF as [|x a xs' l' [E1 E2] HF IH]; [done|]. rewrite !filter_cons, E2.
  destruct (add_visible a); [rewrite !decide_True by done|rewrite !decide_False by (by intros [])]; [|exact IH].
  rewrite !fmap_cons, E1. by f_equal.
Qed.
End read.
End added.

(** C36. Blocks ([blockWriter], [blockIter]): after entries have been added to a block writer
    in the order of their user keys, an iterator over the finished block answers every
    sequence of the calls it supports like an iterator over the list of these entries,
    without the obsolete ones if these are hidden, with the global sequence number if there
    is one. With value prefixes this includes [NextPrefix], which skips entries without
    comparing their keys. *)
Theorem block_iter_spec {C : Comparer} {L : ComparerLaws C} w a l globalSeqNum hide hasPrefix resolve i0 cs rs :
  fresh w -> add_bound (a :: l) -> shares_ok (raw_key a) l -> adds_ok hasPrefix (a :: l) ->
  bi_hasValuePrefix i0 = hasPrefix ->
  let kvs := add_kvs globalSeqNum hide (bi_vbr i0) hasPrefix resolve (a :: l) in
  abs_calls_on (block_ok hasPrefix kvs) kvs (mkState None None PosNone false) cs = Some rs ->
  exists w' i, do_adds w (a :: l) = Ret w' /\
    blockIter_init i0 (blockWriter_finish w').2 globalSeqNum hide = Ret (i, None) /\
    getFirstUserKey i = UserKey (a_key a) /\
    calls (H := blockIter_iterator resolve) i cs = Ret rs.
Proof.
  intros Hw Hb Hs Hl Hh kvs Hcs. destruct (write_block w a l Hw Hb Hs) as (w' & xs & rrs & E & Hwr & Ed & _).
  assert (xs <> []) as Hne.
  { intros ->. by pose proof (f_equal length (wt_keys _ _ _ Hwr)). }
  destruct (lookup_lt_is_Some_2 xs 0) as [x Hx]; [destruct xs; [done|cbn; lia]|].
  destruct (blockIter_init_ok xs rrs (wt_wf _ _ _ Hwr) globalSeqNum hide (bi_vbr i0) hasPrefix i0 x Hx eq_refl Hh)
    as (i & Ei & Ho & Ef).
  exists w', i. split; [done|]. rewrite Ed. split; [done|]. split.
  { rewrite Ef. destruct (written_at hasPrefix (a :: l) Hl xs rrs Hwr 0 x Hx) as (a' & [= <-] & Ha & Ek & _).
    by destruct (item_added globalSeqNum hide hasPrefix x a Ha Ek) as (-> & _). }
  assert (simulates_on (H := blockIter_iterator resolve) (block_ok hasPrefix kvs) kvs
    (block_state xs rrs globalSeqNum hide (bi_vbr i0) hasPrefix)) as Hsim.
  { unfold kvs. erewrite <- written_kvs by done. apply block_simulates; [apply (wt_wf _ _ _ Hwr)|done|..].
    - by eapply written_lazy.
    - by eapply written_sorted.
    - by eapply written_prefixes. }
  refine (simulates_on_calls (H := blockIter_iterator resolve) _ _ _ Hsim cs _ i rs _ Hcs).
  split; [done|]. split; [done|]. exact Ho.
Qed.

(** * Concrete blocks: the theorem on block iterators applied to one with value prefixes, and
    an empty block. *)
#[local] Existing Instance DefaultComparer.
#[local] Existing Instance default_laws.

(** Two versions of a key and another key. *)
Definition example_add (key : bytes) (seqNum : Z) (same : bool) (value : bytes) : add :=
  mkAdd (MakeInternalKey key seqNum InternalKeyKindSet) false value 1 true (makePrefixForInPlaceValue same) same.
Definition example_first : add := example_add [Byte.x61] 5 false [Byte.x31].
Definition example_adds : list add :=
  [example_add [Byte.x61] 3 true [Byte.x32]; example_add [Byte.x62] 4 false [Byte.x33]].
Definition example_iter : blockIter := zeroBlockIter false true.
Definition example_entries : list entry :=
  [(MakeInternalKey [Byte.x61] 5 InternalKeyKindSet, [Byte.x31]); (MakeInternalKey [Byte.x61] 3 InternalKeyKindSet, [Byte.x32]);
   (MakeInternalKey [Byte.x62] 4 InternalKeyKindSet, [Byte.x33])].

Lemma example_adds_ok : adds_ok true (example_first :: example_adds).
Proof.
  split.
  - repeat (apply Forall_cons; split; [split; [vm_compute; split; [discriminate|reflexivity]|vm_compute; reflexivity..
      |vm_compute; split; [discriminate|reflexivity]|intros H; vm_compute in H; discriminate H]|]). apply Forall_nil; exact I.
  - intros [|[|[|j]]] a b; cbn; intros [= <-] [= <-]; vm_compute; discriminate.
  - intros [|[|[|j]]] a b _; cbn; intros [= <-] [= <-]; split; vm_compute; (done || lia).
  - intros a _ Ha. repeat (apply elem_of_cons in Ha as [->|Ha]; [vm_compute; reflexivity|]). by apply elem_of_nil in Ha.
Qed.

Lemma block_iter_spec_witness : exists w' i,
  do_adds (newBlockWriter 16) (example_first :: example_adds) = Ret w' /\
  blockIter_init example_iter (blockWriter_finish w').2 0 false = Ret (i, None) /\
  getFirstUserKey i = [Byte.x61] /\
  calls (H := blockIter_iterator InPlaceValue) i [CallFirst; CallNextPrefix [Byte.x61; Byte.x00]; CallPrev; CallNext; CallNext] =
    Ret [example_entries !! 0%nat; example_entries !! 2%nat; example_entries !! 1%nat; example_entries !! 2%nat; None].
Proof.
  apply (block_iter_spec (newBlockWriter 16) example_first example_adds 0 false true InPlaceValue example_iter).
  - by split.
  - vm_compute. reflexivity.
  - split; [apply share_ok_short; vm_compute; lia|]. split; [apply share_ok_short; vm_compute; lia|exact I].
  - exact example_adds_ok.
  - reflexivity.
  - vm_compute. reflexivity.
Defined.

(** An iterator over an empty block, moved before the first entry and then forward and
    backward, shows an entry with an invalid key. *)
Definition empty_block_calls : go (option InternalKey) :=
  '(i, _) ← blockIter_init (zeroBlockIter false false) (blockWriter_finish (newBlockWriter 16)).2 0 false;
  '(i, _) ← blockIter_SeekLT i [Byte.x61];
  '(i, _) ← blockIter_Next i;
  '(_, r) ← blockIter_Prev i;
  Ret (match r with Some kl => Some kl.1 | None => None end).
Lemma empty_block_prev : empty_block_calls = Ret (Some (mkInternalKey [] InternalKeyKindInvalid)).
Proof. vm_compute. reflexivity. Qed.
