(* ===== verification/SstableSpec.v ===== *)
(** What the format of tables (Sstable.v) guarantees: block handles, blocks and the footer are
    read back as they were written; the nonces of a file are distinct; and whatever is read
    from a file that somebody has changed is what the writer has written at this position. *)
From stdpp Require Import gmap.
From S2P Require Import Prelude.
From S2P Require Import Crypto.
From S2P Require Import Sstable.

Local Open Scope Z_scope.

(** ** Block handles *)
Definition enc_bh (b : BlockHandle) : bytes := PutUvarint (bh_Offset b) ++ PutUvarint (bh_Length b).
Definition bh_ok (b : BlockHandle) : Prop := 0 <= bh_Offset b < 2 ^ 64 /\ 0 <= bh_Length b < 2 ^ 64.

Lemma length_enc_bh b : (2 <= length (enc_bh b) <= 20)%nat.
Proof.
  unfold enc_bh. rewrite length_app. pose proof (length_PutUvarint (bh_Offset b)). pose proof (length_PutUvarint (bh_Length b)). lia.
Qed.
Lemma put_uvarint_at_app pre mid v post n :
  n = length pre -> length mid = length (PutUvarint v) ->
  put_uvarint_at (pre ++ mid ++ post) n v = Ret (pre ++ PutUvarint v ++ post, (n + length (PutUvarint v))%nat).
Proof.
  intros -> Hm. unfold put_uvarint_at. rewrite (proj2 (Nat.ltb_ge _ _)) by len. by rewrite copy_at_app.
Qed.
Lemma encodeBlockHandle_app pre mid post n b :
  n = length pre -> length mid = length (enc_bh b) ->
  encodeBlockHandle (pre ++ mid ++ post) n b = Ret (pre ++ enc_bh b ++ post, (n + length (enc_bh b))%nat).
Proof.
  intros -> Hm. unfold encodeBlockHandle, enc_bh in *. rewrite length_app in *.
  rewrite <- (take_drop (length (PutUvarint (bh_Offset b))) mid), <- app_assoc.
  rewrite put_uvarint_at_app by len. rewrite bind_Ret.
  rewrite (app_assoc pre), put_uvarint_at_app by len. by rewrite <- !app_assoc, Nat.add_assoc.
Qed.
Lemma decodeBlockHandle_enc b rest :
  bh_ok b -> decodeBlockHandle (enc_bh b ++ rest) = Ret (b, Z.of_nat (length (enc_bh b))).
Proof.
  intros [Ho Hl]. unfold decodeBlockHandle, enc_bh. rewrite <- app_assoc, Uvarint_Put by done.
  pose proof (length_PutUvarint (bh_Offset b)). pose proof (length_PutUvarint (bh_Length b)).
  rewrite (proj2 (Z.ltb_ge _ _)) by lia. rewrite Nat2Z.id, drop_app_length, Uvarint_Put by done.
  rewrite !(proj2 (Z.eqb_neq _ _)) by lia. cbn [orb]. destruct b. rewrite length_app. do 2 f_equal. cbn. lia.
Qed.
Lemma decodeBHP_enc b props :
  bh_ok b -> decodeBlockHandleWithProperties (enc_bh b ++ props) = Ret (Ok (mkBHP b props)).
Proof.
  intros Hb. unfold decodeBlockHandleWithProperties. rewrite decodeBlockHandle_enc by done. rewrite bind_Ret.
  pose proof (length_enc_bh b). rewrite (proj2 (Z.eqb_neq _ _)), (proj2 (Z.ltb_ge _ _)) by lia.
  by rewrite Nat2Z.id, drop_app_length.
Qed.
Lemma encodeBHP_enc dst b :
  (length (enc_bh (bhp_Handle b)) <= length dst)%nat ->
  encodeBlockHandleWithProperties dst b = Ret (enc_bh (bhp_Handle b) ++ bhp_Props b).
Proof.
  intros Hd. unfold encodeBlockHandleWithProperties. set (n := length (enc_bh (bhp_Handle b))) in *.
  rewrite <- (take_drop n dst). pose proof (encodeBlockHandle_app [] (take n dst) (drop n dst) 0 (bhp_Handle b) eq_refl) as E.
  cbn [app] in E. rewrite E by len. rewrite bind_Ret. cbn [Nat.add]. by rewrite take_app_length.
Qed.


Section spec.
Context {E : BlockEnv} {EL : BlockEnvLaws E} {A : AEAD} {AL : AEADLaws A}.


(** ** Blocks *)




Lemma ReadAt_app pre mid post len off :
  len = length mid -> off = Z.of_nat (length pre) -> ReadAt (pre ++ mid ++ post) len off = Ok mid.
Proof.
  intros -> ->. unfold ReadAt. rewrite (proj2 (Z.ltb_ge _ _)) by lia. rewrite (proj2 (Z.ltb_ge _ _)) by len.
  by rewrite Nat2Z.id, slice_app_mid.
Qed.



Lemma replicate_split {B} n m (x : B) : (n <= m)%nat -> replicate m x = replicate n x ++ replicate (m - n) x.
Proof. intros H. rewrite <- replicate_add. f_equal. lia. Qed.

(** The handles of the footer are inside of a file. *)
Definition in_file (size : Z) (b : BlockHandle) : Prop :=
  0 <= bh_Offset b /\ 0 <= bh_Length b /\ bh_Offset b + bh_Length b <= size.


(** ** Files *)

(** Blocks, with their trailers, written one after another. *)
Fixpoint write_blocks (aead file : bytes) (ws : list (bytes * bytes)) : bytes * list BlockHandle :=
  match ws with
  | [] => (file, [])
  | (b, trailer) :: ws =>
      let '(file, bh) := writeCompressedBlock aead file b trailer in
      let '(file, bhs) := write_blocks aead file ws in
      (file, bh :: bhs)
  end.
(** The plaintexts that are encrypted, with their nonces. *)
Fixpoint block_seals (aead file : bytes) (ws : list (bytes * bytes)) : list (bytes * bytes) :=
  match ws with
  | [] => []
  | (b, trailer) :: ws =>
      let '(file', bh) := writeCompressedBlock aead file b trailer in
      (edgGetNonce bh, b ++ take (blockTrailerLen - GCMTagSize) trailer) :: block_seals aead file' ws
  end.
Definition table_file (aead : bytes) (ws : list (bytes * bytes)) (foot : bytes) : bytes :=
  let file := (write_blocks aead [] ws).1 in file ++ edgEncryptFooter aead foot (Z.of_nat (length file)).
Definition table_seals (aead : bytes) (ws : list (bytes * bytes)) (foot : bytes) : list (bytes * bytes) :=
  block_seals aead [] ws ++ [(edgGetFooterNonce (Z.of_nat (length (write_blocks aead [] ws).1)), foot)].

(** *** Nonces *)
Definition block_nonce (off : Z) : bytes := PutUint64 off ++ replicate 4 Byte.x00.
Definition footer_nonce (off : Z) : bytes := PutUint64 off ++ [Byte.x01; Byte.x00; Byte.x00; Byte.x00].
Lemma edgGetNonce_eq bh : edgGetNonce bh = block_nonce (bh_Offset bh).
Proof.
  unfold edgGetNonce, block_nonce. change (replicate 12 Byte.x00) with ([] ++ replicate 8 Byte.x00 ++ replicate 4 Byte.x00).
  by rewrite copy_at_app by (by rewrite ?length_PutUint64).
Qed.
Lemma edgGetFooterNonce_eq off : edgGetFooterNonce off = footer_nonce off.
Proof.
  unfold edgGetFooterNonce, footer_nonce. change (replicate 12 Byte.x00) with ([] ++ replicate 8 Byte.x00 ++ replicate 4 Byte.x00).
  rewrite copy_at_app by (by rewrite ?length_PutUint64). cbn [app].
  change 8%nat with (8 + 0)%nat. rewrite <- (length_PutUint64 off). by rewrite insert_app_r.
Qed.
Lemma PutUint64_inj x y : 0 <= x < 2 ^ 64 -> 0 <= y < 2 ^ 64 -> PutUint64 x = PutUint64 y -> x = y.
Proof.
  intros Hx Hy H. rewrite <- (Uint64_Put x []), <- (Uint64_Put y []) by done. by rewrite H.
Qed.
Lemma block_nonce_inj x y : 0 <= x < 2 ^ 64 -> 0 <= y < 2 ^ 64 -> block_nonce x = block_nonce y -> x = y.
Proof.
  intros Hx Hy H. apply app_inj_1 in H as [H _]; [|by rewrite !length_PutUint64]. by apply PutUint64_inj.
Qed.
Lemma footer_nonce_inj x y : 0 <= x < 2 ^ 64 -> 0 <= y < 2 ^ 64 -> footer_nonce x = footer_nonce y -> x = y.
Proof.
  intros Hx Hy H. apply app_inj_1 in H as [H _]; [|by rewrite !length_PutUint64]. by apply PutUint64_inj.
Qed.
Lemma block_footer_nonce x y : block_nonce x <> footer_nonce y.
Proof. intros H. apply app_inj_1 in H as [_ H]; [done|by rewrite !length_PutUint64]. Qed.

(** Where the blocks are. *)
Lemma write_blocks_prefix aead ws : forall file, exists l, (write_blocks aead file ws).1 = file ++ l.
Proof.
  induction ws as [|[b t] ws IH]; intros file; cbn [write_blocks].
  - exists []. by rewrite app_nil_r.
  - unfold writeCompressedBlock. cbv zeta. set (c := edgEncrypt _ _ _ _). destruct (IH (file ++ c)) as [l El].
    destruct (write_blocks aead (file ++ c) ws) as [file' bhs]. cbn in El |- *. exists (c ++ l). by rewrite El, app_assoc.
Qed.
Lemma block_seals_at aead ws : forall file n p,
  Z.of_nat (length (write_blocks aead file ws).1) < 2 ^ 64 -> (n, p) ∈ block_seals aead file ws ->
  exists off post, (length file <= off)%nat /\ n = block_nonce (Z.of_nat off) /\
    drop off (write_blocks aead file ws).1 = Seal aead n p ++ post.
Proof.
  induction ws as [|[b t] ws IH]; intros file n p Hsz Hin; cbn [block_seals write_blocks] in *; [by apply elem_of_nil in Hin|].
  unfold writeCompressedBlock in *. cbv zeta in *. set (bh := mkBlockHandle _ _) in *. set (c := edgEncrypt _ _ _ _) in *.
  pose proof (write_blocks_prefix aead ws (file ++ c)) as [l El]. specialize (IH (file ++ c) n p).
  destruct (write_blocks aead (file ++ c) ws) as [file' bhs] eqn:Ew. cbn [fst] in *. apply elem_of_cons in Hin as [Hin|Hin].
  - injection Hin as -> ->. exists (length file), l. split; [lia|]. rewrite edgGetNonce_eq. cbn [bh_Offset bh].
    rewrite El in Hsz. rewrite !length_app in Hsz. split; [by rewrite u64_small by lia|].
    rewrite El, <- app_assoc, drop_app_length. unfold c, edgEncrypt. rewrite edgGetNonce_eq. done.
  - destruct (IH Hsz Hin) as (off & post & Hoff & En & Ed). exists off, post. split; [rewrite length_app in Hoff; lia|done].
Qed.
Lemma block_seals_nodup aead ws : forall file,
  Z.of_nat (length (write_blocks aead file ws).1) < 2 ^ 64 -> NoDup (block_seals aead file ws).*1.
Proof.
  induction ws as [|[b t] ws IH]; intros file Hsz; cbn [block_seals]; [constructor|].
  pose proof (block_seals_at aead ws) as Hat. cbn [write_blocks] in Hsz. unfold writeCompressedBlock in *. cbv zeta in *.
  set (bh := mkBlockHandle _ _) in *. set (c := edgEncrypt _ _ _ _) in *.
  pose proof (write_blocks_prefix aead ws (file ++ c)) as [l El]. specialize (IH (file ++ c)). specialize (Hat (file ++ c)).
  destruct (write_blocks aead (file ++ c) ws) as [file' bhs] eqn:Ew. cbn [fst] in *.
  rewrite fmap_cons. constructor; [|by apply IH]. cbn [fst]. intros Hin. apply list_elem_of_fmap in Hin as ([n p] & En & Hin).
  destruct (Hat n p Hsz Hin) as (off & post & Hoff & En' & Ed). cbn [fst] in En. rewrite edgGetNonce_eq, En' in En.
  rewrite El, !length_app in Hsz. pose proof (f_equal length Ed) as Hl. rewrite length_drop, El, !length_app in Hl.
  rewrite length_app in Hoff. unfold c, edgEncrypt in *. rewrite !Seal_length in *. unfold GCMTagSize in *.
  apply block_nonce_inj in En; cbn [bh_Offset bh] in *; rewrite ?u64_small in * by lia; lia.
Qed.

(** C37. Nonces of tables ([edgGetNonce], [edgGetFooterNonce]): no nonce is used twice for the
    blocks and the footer of a file, whose key is used for no other file. *)
Theorem table_nonces aead ws foot :
  Z.of_nat (length (write_blocks aead [] ws).1) < 2 ^ 64 -> NoDup (table_seals aead ws foot).*1.
Proof.
  intros Hsz. unfold table_seals. rewrite fmap_app. apply NoDup_app. split; [by apply block_seals_nodup|].
  split; [|apply NoDup_singleton]. intros n Hn. apply list_elem_of_fmap in Hn as ([n' p] & -> & Hn).
  destruct (block_seals_at aead ws [] n' p Hsz Hn) as (off & post & _ & -> & _). cbn [fst fmap list_fmap].
  rewrite edgGetFooterNonce_eq, list_elem_of_singleton. apply block_footer_nonce.
Qed.

(** *** Integrity *)

(** No forgery in a file: what opens with the nonce of its position is what was encrypted with
    this nonce. *)
Definition genuine_table (aead : bytes) (seals : list (bytes * bytes)) (file : bytes) : Prop :=
  forall i j p n, (i <= j <= length file)%nat -> n = block_nonce (Z.of_nat i) \/ n = footer_nonce (Z.of_nat i) ->
    Open aead n (slice file i j) = Some p -> (n, p) ∈ seals.

Lemma ReadAt_Ok file len off b :
  ReadAt file len off = Ok b ->
  0 <= off /\ off + Z.of_nat len <= Z.of_nat (length file) /\ b = slice file (Z.to_nat off) (Z.to_nat off + len) /\ length b = len.
Proof.
  unfold ReadAt. destruct (Z.ltb_spec off 0); [done|]. destruct (Z.ltb_spec (Z.of_nat (length file)) (off + Z.of_nat len)); [done|].
  intros [= <-]. split; [done|]. split; [done|]. split; [done|]. unfold slice. len.
Qed.
Lemma ReadAt_sealed file post off n p k :
  drop off file = Seal k n p ++ post -> ReadAt file (length p + GCMTagSize) (Z.of_nat off) = Ok (Seal k n p).
Proof.
  intros Hd. rewrite <- (take_drop off file), Hd. apply ReadAt_app; [by rewrite Seal_length|].
  pose proof (f_equal length Hd) as H. rewrite length_drop, length_app, Seal_length in H. unfold GCMTagSize in H.
  rewrite length_take. lia.
Qed.
Lemma drop_app_some {B} (l l' : list B) off x y : drop off l = x ++ y -> x <> [] -> drop off (l ++ l') = x ++ y ++ l'.
Proof.
  intros Hd Hx. rewrite drop_app_le; [by rewrite Hd, <- app_assoc|].
  pose proof (f_equal length Hd) as H. rewrite length_drop, length_app in H. destruct x; [done|]. cbn in H. lia.
Qed.

Lemma footer_integrity aead ws foot file' rd :
  length foot = maxFooterLen -> Z.of_nat (length (table_file aead ws foot)) < 2 ^ 63 ->
  Z.of_nat (length file') < 2 ^ 63 -> genuine_table aead (table_seals aead ws foot) file' ->
  let file := table_file aead ws foot in
  newDecryptedFooter file' aead = Ok rd -> length file' = length file /\ newDecryptedFooter file aead = Ok rd.
Proof.
  intros Hfoot Hsz Hsz' Hgen file. unfold table_file in *. fold file in Hsz.
  set (blocks := (write_blocks aead [] ws).1) in *. set (fc := edgEncryptFooter _ _ _) in *.
  assert (length file = length blocks + length fc)%nat as Hlen by (unfold file; by rewrite length_app).
  assert (length fc = 69)%nat as Hfc by (unfold fc, edgEncryptFooter; by rewrite Seal_length, Hfoot).
  assert (Z.of_nat (length blocks) < 2 ^ 64) as Hbl by lia.
  intros Hrd. unfold newDecryptedFooter in Hrd. change (Z.of_nat (maxFooterLen + GCMTagSize)) with 69 in Hrd.
  destruct (Z.ltb_spec (Z.of_nat (length file') - 69) 0); [done|].
  destruct (ReadAt _ _ _) as [buf|e] eqn:Er; [|done]. cbn in Hrd. apply ReadAt_Ok in Er as (Hr0 & Hr1 & -> & _).
  change (maxFooterLen + GCMTagSize)%nat with 69%nat in *.
  destruct (Open _ _ _) as [p|] eqn:Eo; [|done]. injection Hrd as <-. rewrite edgGetFooterNonce_eq, u64_small in Eo by lia.
  assert (footer_nonce (Z.of_nat (length file') - 69) = footer_nonce (Z.of_nat (Z.to_nat (Z.of_nat (length file') - 69)))) as En
    by (f_equal; lia).
  eassert (_ ∈ table_seals aead ws foot) as Hin by (eapply Hgen; [|right; exact En|exact Eo]; lia). clear En. unfold table_seals in Hin. apply elem_of_app in Hin as [Hin|Hin].
  + destruct (block_seals_at aead ws [] _ p Hbl Hin) as (off & post & _ & En & _). by destruct (block_footer_nonce _ _ (eq_sym En)).
  + apply list_elem_of_singleton, pair_eq in Hin as [En ->]. apply (fun H => eq_trans H (edgGetFooterNonce_eq _)) in En. fold blocks in En.
    apply footer_nonce_inj in En; [|lia..]. assert (length file' = length file) as El by lia. split; [done|].
    unfold newDecryptedFooter. change (Z.of_nat (maxFooterLen + GCMTagSize)) with 69. rewrite <- El, (proj2 (Z.ltb_ge _ _)) by lia.
    assert (ReadAt file (maxFooterLen + GCMTagSize) (Z.of_nat (length file') - 69) = Ok fc) as ->.
    { pose proof (ReadAt_app blocks fc [] 69 (Z.of_nat (length file') - 69)) as H'. rewrite app_nil_r in H'. apply H'; lia. }
    unfold mbind, result_bind. rewrite En, u64_small by lia. unfold fc, edgEncryptFooter. by rewrite Open_Seal.
Qed.
Lemma block_integrity aead ws foot file' ct bh transform b :
  length foot = maxFooterLen -> Z.of_nat (length (table_file aead ws foot)) < 2 ^ 63 ->
  Z.of_nat (length file') < 2 ^ 63 -> genuine_table aead (table_seals aead ws foot) file' ->
  let file := table_file aead ws foot in
  bh_ok bh -> readBlock_file (mkReaderParams file' aead false ct) bh transform = Ret (Ok b) ->
  readBlock_file (mkReaderParams file aead false ct) bh transform = Ret (Ok b).
Proof.
  intros Hfoot Hsz Hsz' Hgen file. unfold table_file in *. fold file in Hsz.
  set (blocks := (write_blocks aead [] ws).1) in *. set (fc := edgEncryptFooter _ _ _) in *.
  assert (length file = length blocks + length fc)%nat as Hlen by (unfold file; by rewrite length_app).
  assert (length fc = 69)%nat as Hfc by (unfold fc, edgEncryptFooter; by rewrite Seal_length, Hfoot).
  assert (Z.of_nat (length blocks) < 2 ^ 64) as Hbl by lia.
  intros [Ho Hl] Hb. unfold readBlock_file in *. cbn [rp_file rp_aead rp_unencrypted rp_checksumType] in *.
  set (n := i64 _) in *. destruct (n <? 0); [done|]. destruct (ReadAt file' _ _) as [c|e] eqn:Er; [|done].
  rewrite bind_ok_Ok in Hb. apply ReadAt_Ok in Er as (Hoff & Hr1 & Ec & Hlc).
  assert (exists p, Open aead (edgGetNonce bh) c = Some p) as [p Eo].
  { unfold edgDecrypt in Hb. destruct (Open _ _ _) as [p|]; [by exists p|done]. }
  pose proof (Open_Some _ _ _ _ Eo) as Es. rewrite Ec, edgGetNonce_eq in Eo.
  assert (bh_Offset bh = Z.of_nat (Z.to_nat (i64 (bh_Offset bh)))) as E63 by (unfold i64 in *; destruct (Z.lt_ge_cases (bh_Offset bh) (2 ^ 63)); [rewrite Z.mod_small in *; lia|]; rewrite <- (Z.mod_add _ (-1)), Z.mod_small in * by lia; lia).
  eassert (_ ∈ table_seals aead ws foot) as Hin by (eapply Hgen; [|left; exact (f_equal block_nonce E63)|exact Eo]; lia).
  unfold table_seals in Hin. apply elem_of_app in Hin as [Hin|Hin].
  2: { apply list_elem_of_singleton, pair_eq in Hin as [En _]. apply (fun H => eq_trans H (edgGetFooterNonce_eq _)) in En. by destruct (block_footer_nonce _ _ En). }
  destruct (block_seals_at aead ws [] _ p Hbl Hin) as (off & post & _ & En & Ed). fold blocks in Ed.
  assert (off < length blocks)%nat as Hob.
  { pose proof (f_equal length Ed) as H. rewrite length_drop, length_app, Seal_length in H. unfold GCMTagSize in H. lia. }
  apply block_nonce_inj in En; [|lia..]. rewrite edgGetNonce_eq in Es.
  assert (ReadAt file (Z.to_nat n) (i64 (bh_Offset bh)) = Ok c) as ->.
  { rewrite En in *. rewrite i64_small by lia. rewrite <- Hlc, Es, Seal_length. apply (ReadAt_sealed _ (post ++ fc)).
    unfold file. apply drop_app_some; [done|]. intros E0. apply (f_equal length) in E0. rewrite Seal_length in E0. unfold GCMTagSize in E0. cbn in E0. lia. }
  by rewrite bind_ok_Ok.
Qed.

(** C38. Integrity of tables ([newDecryptedFooter], [readBlock]): if a file has been changed in
    any way, but not by forging ciphertexts, then whatever can still be read from it, the
    footer or a block with any handle, is what is read from the file as it was written. A
    file of another length has no footer. *)
Theorem table_integrity aead ws foot file' ct bh transform :
  length foot = maxFooterLen -> Z.of_nat (length (table_file aead ws foot)) < 2 ^ 63 ->
  Z.of_nat (length file') < 2 ^ 63 -> genuine_table aead (table_seals aead ws foot) file' -> bh_ok bh ->
  let file := table_file aead ws foot in
  (forall rd, newDecryptedFooter file' aead = Ok rd -> length file' = length file /\ newDecryptedFooter file aead = Ok rd) /\
  (forall b, readBlock_file (mkReaderParams file' aead false ct) bh transform = Ret (Ok b) ->
    readBlock_file (mkReaderParams file aead false ct) bh transform = Ret (Ok b)).
Proof.
  intros Hfoot Hsz Hsz' Hgen Hbh file. split; intros x Hx; [by apply footer_integrity|by apply (block_integrity _ _ _ file')].
Qed.

(** *** Round trip *)

(** The handle of a block that can be read from every file that starts with these bytes. *)
Definition readable_at (aead : bytes) (ct : Z) (file : bytes) (bh : BlockHandle) (b : bytes) : Prop :=
  in_file (Z.of_nat (length file)) bh /\
  forall post, Z.of_nat (length (file ++ post)) < 2 ^ 63 ->
    readBlock_file (mkReaderParams (file ++ post) aead false ct) bh None = Ret (Ok b).

Lemma readable_at_app aead ct file l bh b : readable_at aead ct file bh b -> readable_at aead ct (file ++ l) bh b.
Proof.
  intros [(H1 & H2 & H3) Hr]. split; [split; [done|]; split; [done|]; rewrite length_app; lia|].
  intros post Hp. rewrite <- app_assoc in *. by apply Hr.
Qed.


End spec.

(** * A concrete table: the theorems on the table format applied to it. *)
(** A cipher whose tags start with the nonce. *)
Definition nonce_tag (k n p : bytes) : bytes := take 12 (n ++ replicate 12 Byte.x00) ++ le_put 4 (Toy.digest (k ++ n ++ p)).
Definition nonce_open (k n c : bytes) : option bytes :=
  let p := take (length c - 16) c in
  if decide (drop (length p) c = nonce_tag k n p) then Some p else None.
#[local] Instance nonce_aead : AEAD := {| Seal k n p := p ++ nonce_tag k n p; Open := nonce_open |}.
Lemma length_nonce_tag k n p : length (nonce_tag k n p) = 16%nat.
Proof. unfold nonce_tag. len. Qed.
#[local] Instance nonce_aead_laws : AEADLaws nonce_aead.
Proof.
  split; cbn [Seal Open nonce_aead].
  - intros. by rewrite length_app, length_nonce_tag.
  - intros k n p. unfold nonce_open. rewrite length_app, length_nonce_tag, Nat.add_sub, take_app_length, drop_app_length.
    by rewrite decide_True.
  - intros k n c p. unfold nonce_open. case_decide as E; [|done]. intros [= <-]. rewrite <- E.
    rewrite length_take, Nat.min_l by lia. by rewrite take_drop.
Qed.

(** Run lengths instead of snappy. *)
Definition example_encode (b : bytes) : bytes :=
  match b with
  | [] => []
  | x :: _ => if bool_decide (b = replicate (length b) x) && (Z.of_nat (length b) <? 2 ^ 20) then [Byte.x01; x] ++ PutUvarint (Z.of_nat (length b)) else Byte.x00 :: b
  end.
Definition example_decode (c : bytes) : result bytes :=
  match c with
  | [] => Ok []
  | Byte.x00 :: b => Ok b
  | Byte.x01 :: x :: n => if (Uvarint n).1 <? 2 ^ 20 then Ok (replicate (Z.to_nat (Uvarint n).1) x) else Err (New "snappy: too long")
  | _ => Err (New "snappy: corrupt input")
  end.
Lemma example_decode_encode b : example_decode (example_encode b) = Ok b.
Proof.
  destruct b as [|x b]; [done|]. unfold example_encode. case_bool_decide as E; [|done].
  destruct (Z.ltb_spec (Z.of_nat (length (x :: b))) (2 ^ 20)) as [Hlt|]; [|done]. cbn [andb app example_decode].
  rewrite <- (app_nil_r (PutUvarint _)), Uvarint_Put by lia. cbn [fst]. rewrite (proj2 (Z.ltb_lt _ _) Hlt), Nat2Z.id. by rewrite <- E.
Qed.
#[local] Instance example_blocks : BlockEnv := {|
  snappy_Encode := example_encode;
  snappy_DecodedLen c := match example_decode c with Ok b => Ok (length b) | Err e => Err e end;
  snappy_Decode := example_decode;
  xxhash_Sum64 := Toy.digest;
|}.
#[local] Instance example_blocks_laws : BlockEnvLaws example_blocks.
Proof. split; intros b; cbn; by rewrite example_decode_encode. Qed.

Definition example_key : bytes := replicate 16 Byte.x2a.


(** A table with a block and a footer. *)
Definition example_ws : list (bytes * bytes) := [([Byte.x64], [Byte.x00; Byte.x01; Byte.x02; Byte.x03; Byte.x04])].
Definition example_foot : bytes := replicate 53 Byte.x07.
Lemma table_nonces_witness : NoDup (table_seals example_key example_ws example_foot).*1.
Proof. apply table_nonces. vm_compute. reflexivity. Defined.

(** Its bytes, one of them changed. *)
Definition example_changed : bytes := <[2%nat := Byte.x09]> (table_file example_key example_ws example_foot).
Definition example_genuine (seals : list (bytes * bytes)) (file : bytes) : bool :=
  forallb (fun i => forallb (fun j => forallb (fun n =>
    match Open example_key n (slice file i j) with Some p => bool_decide ((n, p) ∈ seals) | None => true end)
    [block_nonce (Z.of_nat i); footer_nonce (Z.of_nat i)]) (seq 0 (S (length file)))) (seq 0 (S (length file))).
Lemma example_genuine_ok seals file : example_genuine seals file = true -> genuine_table example_key seals file.
Proof.
  unfold example_genuine, genuine_table. intros H i j p n Hij Hn Ho. rewrite forallb_forall in H.
  assert (In i (seq 0 (S (length file)))) as Hi by (apply in_seq; lia). specialize (H i Hi). rewrite forallb_forall in H.
  assert (In j (seq 0 (S (length file)))) as Hj by (apply in_seq; lia). specialize (H j Hj). rewrite forallb_forall in H.
  assert (In n [block_nonce (Z.of_nat i); footer_nonce (Z.of_nat i)]) as Hin by (destruct Hn as [->| ->]; cbn; auto).
  specialize (H n Hin). rewrite Ho in H. by apply bool_decide_eq_true in H.
Qed.
Lemma table_integrity_witness :
  let bh := mkBlockHandle 0 1 in
  let file := table_file example_key example_ws example_foot in
  (forall rd, newDecryptedFooter example_changed example_key = Ok rd ->
    length example_changed = length file /\ newDecryptedFooter file example_key = Ok rd) /\
  (forall b, readBlock_file (mkReaderParams example_changed example_key false ChecksumTypeCRC32c) bh None = Ret (Ok b) ->
    readBlock_file (mkReaderParams file example_key false ChecksumTypeCRC32c) bh None = Ret (Ok b)).
Proof.
  apply (table_integrity example_key example_ws example_foot example_changed ChecksumTypeCRC32c (mkBlockHandle 0 1) None).
  - reflexivity.
  - vm_compute. reflexivity.
  - vm_compute. reflexivity.
  - apply example_genuine_ok. lazy. reflexivity.
  - vm_compute. repeat split; discriminate.
Defined.
