(* ===== verification/Bloom.v ===== *)
(** Bloom filters of tables: src/bloom/bloom.go, with the interface of filter policies in
    src/internal/base/options.go and its use by tables in src/sstable/filter.go.

    Hash blocks come from a pool and hold leftovers.  The theorem at the end states that
    a filter never denies a key that was added to it. *)
From S2P Require Import Prelude.
From Stdlib Require Import Floats.SpecFloat.

Local Open Scope Z_scope.

(** ** Filter policies (internal/base/options.go) *)

(** A policy and its writers.  [Finish] gets the buffer to append to as its bytes up to the
    capacity and its length. *)
Class FilterPolicy := {
  FilterWriter : Type;
  Name : string;
  NewWriter : FilterWriter;
  policy_AddKey : FilterWriter -> bytes -> go FilterWriter;
  policy_Finish : FilterWriter -> bytes -> nat -> go (FilterWriter * (bytes * nat));
  policy_MayContain : bytes -> bytes -> go bool;
}.

(** What the documentation of the interface promises, for up to [limit] keys: [holds w
    keys] is the set of keys since the writer was made or finished. *)
Class FilterPolicyLaws (P : FilterPolicy) (limit : nat) := {
  holds : FilterWriter -> list bytes -> Prop;
  holds_new : holds NewWriter [];
  holds_add w keys k :
    holds w keys -> (length keys < limit)%nat ->
    exists w', policy_AddKey w k = Ret w' /\ holds w' (keys ++ [k]);
  holds_finish w keys arr len :
    holds w keys -> (length keys <= limit)%nat -> (len <= length arr)%nat ->
    exists w' arr' len',
      policy_Finish w arr len = Ret (w', (arr', len')) /\ holds w' [] /\
      (len <= len' <= length arr')%nat /\ take len arr' = take len arr /\
      forall k, k ∈ keys -> policy_MayContain (slice arr' len len') k = Ret true;
}.

(** ** The filter of a table (sstable/filter.go) *)
Section table.
Context {P : FilterPolicy}.

Record FilterMetrics := mkFilterMetrics { fm_Hits : Z; fm_Misses : Z }.
Definition mayContain (metrics : option FilterMetrics) (data key : bytes)
    : go (bool * option FilterMetrics) :=
  mayContain ← policy_MayContain data key;
  Ret (mayContain,
    (fun m => if mayContain : bool then mkFilterMetrics (fm_Hits m) (i64 (fm_Misses m + 1))
              else mkFilterMetrics (i64 (fm_Hits m + 1)) (fm_Misses m)) <$> metrics).

Record table_filter_writer := mkTableFilterWriter { tw_writer : FilterWriter; tw_count : Z }.
Definition new_table_filter_writer : table_filter_writer := mkTableFilterWriter NewWriter 0.
Definition addKey (f : table_filter_writer) (key : bytes) : go table_filter_writer :=
  w ← policy_AddKey (tw_writer f) key;
  Ret (mkTableFilterWriter w (i64 (tw_count f + 1))).
(** [None] is the nil slice: no filter is written. *)
Definition finish (f : table_filter_writer) : go (table_filter_writer * option bytes) :=
  if tw_count f =? 0 then Ret (f, None) else
  '(w, (arr, len)) ← policy_Finish (tw_writer f) [] 0;
  Ret (mkTableFilterWriter w (tw_count f), Some (take len arr)).
Definition metaName : string := "fullfilter." ++ Name.

Fixpoint addKeys (f : table_filter_writer) (keys : list bytes) : go table_filter_writer :=
  match keys with
  | [] => Ret f
  | k :: keys => f ← addKey f k; addKeys f keys
  end.
End table.

(** ** The hash *)
Definition hash_m : Z := 0xc6a4a793.
Definition hash_seed : Z := 0xbc9f1d34.
(** [uint32(int8(b))]. *)
Definition sign_extend (b : byte) : Z := if b2z b <? 128 then b2z b else u32 (b2z b - 256).

Fixpoint hash_loop (b : bytes) (h : Z) : bytes * Z :=
  match b with
  | b0 :: b1 :: b2 :: b3 :: rest =>
      let h := u32 (h + Z.lor (Z.lor (Z.lor (b2z b0) (Z.shiftl (b2z b1) 8))
                                 (Z.shiftl (b2z b2) 16)) (Z.shiftl (b2z b3) 24)) in
      let h := u32 (h * hash_m) in
      hash_loop rest (Z.lxor h (Z.shiftr h 16))
  | _ => (b, h)
  end.
Definition hash (b : bytes) : Z :=
  let '(b, h) := hash_loop b (Z.lxor hash_seed (u32 (u32 (Z.of_nat (length b)) * hash_m))) in
  let last h b0 :=
    let h := u32 (h + sign_extend b0) in
    let h := u32 (h * hash_m) in
    Z.lxor h (Z.shiftr h 24) in
  match b with
  | [b0; b1; b2] =>
      let h := u32 (h + u32 (Z.shiftl (sign_extend b2) 16)) in
      let h := u32 (h + u32 (Z.shiftl (sign_extend b1) 8)) in
      last h b0
  | [b0; b1] =>
      let h := u32 (h + u32 (Z.shiftl (sign_extend b1) 8)) in
      last h b0
  | [b0] => last h b0
  | _ => h
  end.

(** [h>>17 | h<<15]. *)
Definition rotate (h : Z) : Z := Z.lor (Z.shiftr h 17) (u32 (Z.shiftl h 15)).

(** ** Reading a filter *)
Definition cacheLineSize : Z := 64.
Definition cacheLineBits : Z := cacheLineSize * 8.

Fixpoint mayContain_loop (f : bytes) (j : nat) (b h delta lineBits : Z) : go bool :=
  match j with
  | O => Ret true
  | S j =>
      if lineBits =? 0 then Panic "integer divide by zero" else
      let bitPos := u32 (b + h mod lineBits) in
      match f !! Z.to_nat (bitPos / 8) with
      | None => Panic "index out of range"
      | Some x =>
          if Z.land (b2z x) (u8 (Z.shiftl 1 (bitPos mod 8))) =? 0 then Ret false
          else mayContain_loop f j b (u32 (h + delta)) delta lineBits
      end
  end.
Definition tableFilter_MayContain (f key : bytes) : go bool :=
  if (length f <=? 5)%nat then Ret false else
  let n := (length f - 5)%nat in
  let nProbes := b2z (default Byte.x00 (f !! n)) in
  let nLines := Uint32 (drop (n + 1) f) in
  if nLines =? 0 then Panic "integer divide by zero" else
  let lineBits := u32 (8 * (u32 (Z.of_nat n) / nLines)) in
  let h := hash key in
  let b := u32 ((h mod nLines) * lineBits) in
  mayContain_loop f (Z.to_nat nProbes) b h (rotate h) lineBits.

(** ** Writing a filter *)

(** What the code takes from its surroundings: the block the pool gives when there are
    [n] blocks already, with whatever it holds, and the result of converting a
    floating point number that does not fit, which is up to the implementation of Go. *)
Class BloomEnv := {
  hashBlockPool_Get : nat -> list Z;
  float_overflow : spec_float -> Z;
}.
Definition hashBlockLen : nat := Z.to_nat 16384.
Class BloomEnvLaws (E : BloomEnv) := {
  pool_length n : length (hashBlockPool_Get n) = hashBlockLen;
  overflow_range x : 0 <= float_overflow x < 2 ^ 32;
}.

Section writer.
Context {E : BloomEnv}.

(** The product in double precision, and its conversion to [uint32]. *)
Definition float64 (n : Z) : spec_float := binary_normalize 53 1024 n 0 false.
Definition uint32_of_float (x : spec_float) : Z :=
  match x with
  | S754_zero _ => 0
  | S754_finite s m e =>
      let t := if e <? 0 then Z.shiftr (Z.pos m) (- e) else Z.shiftl (Z.pos m) e in
      let t := if s then - t else t in
      if (0 <=? t) && (t <? 2 ^ 32) then t else float_overflow x
  | _ => float_overflow x
  end.
Definition calculateProbes (bitsPerKey : Z) : Z :=
  let n := uint32_of_float
    (SFmul 53 1024 (float64 bitsPerKey) (S754_finite false 6214967485771284 (-53))) in
  let n := if n <? 1 then 1 else n in
  if 30 <? n then 30 else n.

(** [extend]: the buffer, given by its bytes up to the capacity and its length, with [n]
    more zero bytes.  [grow_cap] is the loop that finds the new capacity. *)
Fixpoint grow_cap (fuel : nat) (c want : nat) : go nat :=
  if (c <? want)%nat then
    match fuel with
    | O => Panic "out of fuel"
    | S fuel => grow_cap fuel (c + c / 4) want
    end
  else Ret c.
Definition extend (arr : bytes) (len n : nat) : go (bytes * nat) :=
  let want := (n + len)%nat in
  if (want <=? length arr)%nat
  then Ret (take len arr ++ replicate n Byte.x00 ++ drop want arr, want)
  else
    c ← grow_cap want 1024 want;
    Ret (take len arr ++ replicate n Byte.x00 ++ replicate (c - want) Byte.x00, want).

Record tableFilterWriter := mkTFW {
  tfw_bitsPerKey : Z;
  tfw_numHashes : nat;
  tfw_blocks : list (list Z);
  tfw_lastHash : Z;
}.
#[export] Instance settable_tfw : Settable tableFilterWriter :=
  fun w => mkTFW (tfw_bitsPerKey w) (tfw_numHashes w) (tfw_blocks w) (tfw_lastHash w).
Definition newTableFilterWriter (bitsPerKey : Z) : tableFilterWriter := mkTFW bitsPerKey 0 [] 0.

Definition AddKey (w : tableFilterWriter) (key : bytes) : go tableFilterWriter :=
  let h := hash key in
  if negb (tfw_numHashes w =? 0)%nat && (h =? tfw_lastHash w) then Ret w else
  let ofs := (tfw_numHashes w mod hashBlockLen)%nat in
  let blocks := if (ofs =? 0)%nat then tfw_blocks w ++ [hashBlockPool_Get (length (tfw_blocks w))]
                else tfw_blocks w in
  match last blocks with
  | None => Panic "index out of range"
  | Some b =>
      if (length b <=? ofs)%nat then Panic "index out of range" else
      Ret (w <| tfw_blocks := <[(length blocks - 1)%nat := <[ofs := h]> b]> blocks |>
             <| tfw_numHashes := S (tfw_numHashes w) |> <| tfw_lastHash := h |>)
  end.

(** [filter[bitPos/8] |= 1 << (bitPos % 8)]. *)
Definition set_bit (filter : bytes) (bitPos : Z) : go bytes :=
  match filter !! Z.to_nat (bitPos / 8) with
  | None => Panic "index out of range"
  | Some x =>
      Ret (<[Z.to_nat (bitPos / 8) := z2b (Z.lor (b2z x) (u8 (Z.shiftl 1 (bitPos mod 8))))]> filter)
  end.
Fixpoint probe_loop (filter : bytes) (i : nat) (b h delta : Z) : go bytes :=
  match i with
  | O => Ret filter
  | S i =>
      filter ← set_bit filter (u32 (b + h mod cacheLineBits));
      probe_loop filter i b (u32 (h + delta)) delta
  end.
Fixpoint hashes_loop (filter : bytes) (nLines : Z) (nProbes : nat) (hs : list Z) : go bytes :=
  match hs with
  | [] => Ret filter
  | h :: hs =>
      if u32 nLines =? 0 then Panic "integer divide by zero" else
      let b := u32 ((h mod u32 nLines) * cacheLineBits) in
      filter ← probe_loop filter nProbes b h (rotate h);
      hashes_loop filter nLines nProbes hs
  end.
Fixpoint blocks_loop (filter : bytes) (nLines : Z) (nProbes : nat) (numHashes : nat)
    (blocks : list (list Z)) : go bytes :=
  match blocks with
  | [] => Ret filter
  | b :: blocks =>
      let len := match blocks with
                 | [] => if negb (numHashes mod hashBlockLen =? 0)%nat
                         then (numHashes mod hashBlockLen)%nat else hashBlockLen
                 | _ => hashBlockLen
                 end in
      filter ← hashes_loop filter nLines nProbes (take len b);
      blocks_loop filter nLines nProbes numHashes blocks
  end.

(** The number of cache lines, with 64-bit [int]. *)
Definition filter_lines (numHashes : nat) (bitsPerKey : Z) : Z :=
  if (numHashes =? 0)%nat then 0 else
  let nLines := Z.quot (i64 (i64 (Z.of_nat numHashes * bitsPerKey) + cacheLineBits - 1)) cacheLineBits in
  if Z.rem nLines 2 =? 0 then nLines + 1 else nLines.
Definition Finish (w : tableFilterWriter) (arr : bytes) (len : nat)
    : go (tableFilterWriter * (bytes * nat)) :=
  let nLines := filter_lines (tfw_numHashes w) (tfw_bitsPerKey w) in
  let nBytes := nLines * cacheLineSize in
  if nBytes + 5 <? 0 then Panic "slice bounds out of range" else
  '(arr, len') ← extend arr len (Z.to_nat (nBytes + 5));
  let filter := slice arr len len' in
  filter ←
    (if nLines =? 0 then Ret filter else
     let nProbes := calculateProbes (tfw_bitsPerKey w) in
     filter ← blocks_loop filter nLines (Z.to_nat nProbes) (tfw_numHashes w) (tfw_blocks w);
     let filter := <[Z.to_nat nBytes := z2b nProbes]> filter in
     Ret (copy_at filter (Z.to_nat nBytes + 1) (PutUint32 (u32 nLines))));
  Ret (w <| tfw_blocks := [] |> <| tfw_numHashes := 0%nat |>, (copy_at arr len filter, len')).
End writer.

#[export] Instance bloom_FilterPolicy {E : BloomEnv} (p : Z) : FilterPolicy := {|
  FilterWriter := tableFilterWriter;
  Name := "rocksdb.BuiltinBloomFilter";
  NewWriter := newTableFilterWriter p;
  policy_AddKey := AddKey;
  policy_Finish := Finish;
  policy_MayContain := tableFilter_MayContain;
|}.

(** ** Bits of a filter *)
Definition has_bit (f : bytes) (p : Z) : Prop :=
  exists x, f !! Z.to_nat (p / 8) = Some x /\ Z.testbit (b2z x) (p mod 8) = true.

Lemma bit_of_byte (x : byte) k :
  0 <= k < 8 -> (Z.land (b2z x) (u8 (Z.shiftl 1 k)) =? 0) = negb (Z.testbit (b2z x) k).
Proof.
  intros Hk. rewrite Z.shiftl_1_l.
  assert (u8 (2 ^ k) = 2 ^ k) as ->.
  { apply Z.mod_small. change 256 with (2 ^ 8).
    split; [apply Z.pow_nonneg; lia|apply Z.pow_lt_mono_r; lia]. }
  destruct (Z.testbit (b2z x) k) eqn:E; simpl.
  - apply Z.eqb_neq. intros H. apply (f_equal (fun z => Z.testbit z k)) in H.
    rewrite Z.land_spec, E, Z.pow2_bits_true, Z.bits_0 in H by lia. done.
  - apply Z.eqb_eq, Z.bits_inj'. intros n Hn. rewrite Z.land_spec, Z.bits_0.
    destruct (decide (n = k)) as [->|]; [by rewrite E|].
    by rewrite Z.pow2_bits_false, andb_false_r by lia.
Qed.

Lemma set_bit_ok f p :
  0 <= p -> (Z.to_nat (p / 8) < length f)%nat ->
  exists f', set_bit f p = Ret f' /\ length f' = length f /\ has_bit f' p /\
    forall q, has_bit f q -> has_bit f' q.
Proof.
  intros Hp Hlt. unfold set_bit. apply lookup_lt_is_Some in Hlt as [x Hx]. rewrite Hx.
  pose proof (Z.mod_pos_bound p 8 ltac:(lia)) as Hm.
  set (y := z2b _). assert (forall k, 0 <= k < 8 ->
    Z.testbit (b2z y) k = Z.testbit (b2z x) k || Z.testbit (2 ^ (p mod 8)) k) as Hy.
  { intros k Hk. unfold y, u8. rewrite b2z_z2b, Z.shiftl_1_l. change 256 with (2 ^ 8).
    by rewrite Z.mod_pow2_bits_low, Z.lor_spec, Z.mod_pow2_bits_low by lia. }
  eexists. split; [reflexivity|]. split; [by rewrite length_insert|]. split.
  - exists y. rewrite list_lookup_insert_eq by (by eapply lookup_lt_Some).
    split; [done|]. by rewrite Hy, Z.pow2_bits_true, orb_true_r by lia.
  - intros q (z & Hz & Hb). unfold has_bit.
    destruct (decide (Z.to_nat (q / 8) = Z.to_nat (p / 8))) as [E|].
    + rewrite E, Hx in Hz. injection Hz as <-. exists y.
      rewrite E, list_lookup_insert_eq by (by eapply lookup_lt_Some). split; [done|].
      rewrite Hy, Hb by (apply Z.mod_pos_bound; lia). done.
    + exists z. by rewrite list_lookup_insert_ne.
Qed.

(** The positions that belong to a hash. *)
Fixpoint positions (i : nat) (b h delta : Z) : list Z :=
  match i with
  | O => []
  | S i => u32 (b + h mod cacheLineBits) :: positions i b (u32 (h + delta)) delta
  end.
Definition hash_positions (nLines : Z) (nProbes : nat) (h : Z) : list Z :=
  positions nProbes (u32 ((h mod nLines) * cacheLineBits)) h (rotate h).

Lemma positions_range i b h delta nLines :
  0 <= b -> b + cacheLineBits <= nLines * cacheLineBits ->
  Forall (fun p => 0 <= p < nLines * cacheLineBits) (positions i b h delta).
Proof.
  intros Hb Hl. revert h. induction i as [|i IH]; intros h; [constructor|].
  constructor; [|apply IH].
  pose proof (Z.mod_pos_bound h cacheLineBits ltac:(done)).
  pose proof (u32_range (b + h mod cacheLineBits)).
  pose proof (Z.mod_le (b + h mod cacheLineBits) (2 ^ 32) ltac:(lia) ltac:(lia)).
  unfold u32 in *. lia.
Qed.
Lemma hash_positions_range nLines nProbes h :
  0 < nLines ->
  Forall (fun p => 0 <= p < nLines * cacheLineBits) (hash_positions nLines nProbes h).
Proof.
  intros Hn. pose proof (Z.mod_pos_bound h nLines ltac:(lia)) as Hm.
  set (x := (h mod nLines) * cacheLineBits).
  assert (0 <= x /\ x + cacheLineBits <= nLines * cacheLineBits) as [Hx1 Hx2].
  { unfold x, cacheLineBits, cacheLineSize. lia. }
  pose proof (Z.mod_le x (2 ^ 32) ltac:(lia) ltac:(lia)). pose proof (u32_range x).
  apply positions_range; fold x; unfold u32 in *; lia.
Qed.

Lemma probe_loop_ok i f b h delta :
  Forall (fun p => 0 <= p < 8 * Z.of_nat (length f)) (positions i b h delta) ->
  exists f', probe_loop f i b h delta = Ret f' /\ length f' = length f /\
    (forall p, p ∈ positions i b h delta -> has_bit f' p) /\
    forall q, has_bit f q -> has_bit f' q.
Proof.
  revert f h. induction i as [|i IH]; intros f h Hf; simpl.
  { exists f. split_and!; [done..| |done]. by intros p ?%elem_of_nil. }
  apply Forall_cons in Hf as [Hp Hf].
  destruct (set_bit_ok f (u32 (b + h mod cacheLineBits))) as (f1 & -> & Hl1 & Hb1 & Hm1); [lia| |].
  { apply Nat2Z.inj_lt. rewrite Z2Nat.id by (apply Z.div_pos; lia).
    apply Z.div_lt_upper_bound; lia. }
  rewrite bind_Ret. rewrite <- Hl1 in Hf. destruct (IH f1 _ Hf) as (f2 & -> & Hl2 & Hb2 & Hm2).
  exists f2. split_and!; [done|lia| |auto].
  intros p [->|Hin]%elem_of_cons; auto.
Qed.

Lemma hashes_loop_ok nLines nProbes hs f :
  0 < nLines < 2 ^ 32 -> nLines * cacheLineBits <= 8 * Z.of_nat (length f) ->
  exists f', hashes_loop f nLines nProbes hs = Ret f' /\ length f' = length f /\
    (forall h p, h ∈ hs -> p ∈ hash_positions nLines nProbes h -> has_bit f' p) /\
    forall q, has_bit f q -> has_bit f' q.
Proof.
  intros Hn. revert f. induction hs as [|h hs IH]; intros f Hf; simpl.
  { exists f. split_and!; [done..| |done]. by intros h p ?%elem_of_nil. }
  rewrite (u32_small nLines) by lia. rewrite (proj2 (Z.eqb_neq nLines 0)) by lia.
  destruct (probe_loop_ok nProbes f (u32 (h mod nLines * cacheLineBits)) h (rotate h))
    as (f1 & -> & Hl1 & Hb1 & Hm1).
  { eapply Forall_impl; [apply hash_positions_range; lia|]. simpl. lia. }
  rewrite bind_Ret. destruct (IH f1) as (f2 & -> & Hl2 & Hb2 & Hm2); [by rewrite Hl1|].
  exists f2. split_and!; [done|lia| |auto].
  intros h' p [->|Hin]%elem_of_cons; eauto.
Qed.

Lemma mayContain_loop_ok f i b h delta :
  (forall p, p ∈ positions i b h delta -> has_bit f p) ->
  mayContain_loop f i b h delta cacheLineBits = Ret true.
Proof.
  revert h. induction i as [|i IH]; intros h Hf; [done|]. cbn [mayContain_loop].
  rewrite (proj2 (Z.eqb_neq cacheLineBits 0)) by done.
  destruct (Hf (u32 (b + h mod cacheLineBits))) as (x & -> & Hx); [left|].
  rewrite bit_of_byte, Hx by (apply Z.mod_pos_bound; lia). simpl.
  apply IH. intros p Hp. apply Hf. by right.
Qed.

(** ** The hashes of a writer *)

(** The hashes that are stored in the blocks: all blocks but the last are full. *)
Definition stored (blocks : list (list Z)) (hs : list Z) : Prop :=
  (blocks = [] /\ hs = []) \/
  exists full b r,
    blocks = full ++ [b] /\ Forall (fun b => length b = hashBlockLen) full /\
    length b = hashBlockLen /\ (1 <= r <= hashBlockLen)%nat /\ hs = concat full ++ take r b.

Lemma hashBlockLen_pos : (0 < hashBlockLen)%nat.
Proof. unfold hashBlockLen. lia. Qed.
#[local] Opaque hashBlockLen.
Lemma length_concat_full (full : list (list Z)) :
  Forall (fun b => length b = hashBlockLen) full ->
  length (concat full) = (hashBlockLen * length full)%nat.
Proof.
  induction 1 as [|b full Hb _ IH]; simpl; [lia|]. rewrite length_app, IH, Hb. lia.
Qed.

Lemma stored_mod full (b : list Z) r :
  Forall (fun b => length b = hashBlockLen) full -> length b = hashBlockLen ->
  (1 <= r <= hashBlockLen)%nat ->
  (length (concat full ++ take r b) mod hashBlockLen = r mod hashBlockLen)%nat.
Proof.
  intros Hf Hb Hr. pose proof hashBlockLen_pos.
  rewrite length_app, length_concat_full, length_take_le by (done || lia).
  rewrite Nat.add_comm, Nat.mul_comm. apply Nat.Div0.mod_add.
Qed.

Section bloom.
Context {E : BloomEnv} {L : BloomEnvLaws E}.

Lemma AddKey_store w hs key :
  stored (tfw_blocks w) hs -> tfw_numHashes w = length hs ->
  (tfw_numHashes w = 0%nat \/ hash key <> tfw_lastHash w) ->
  exists blocks', AddKey w key = Ret (w <| tfw_blocks := blocks' |>
      <| tfw_numHashes := S (tfw_numHashes w) |> <| tfw_lastHash := hash key |>) /\
    stored blocks' (hs ++ [hash key]).
Proof.
  intros Hs Hn Hc. pose proof hashBlockLen_pos as Hpos. unfold AddKey.
  assert ((negb (tfw_numHashes w =? 0)%nat && (hash key =? tfw_lastHash w)) = false) as ->.
  { destruct Hc as [->|Hc]; [done|]. apply Z.eqb_neq in Hc. by rewrite Hc, andb_false_r. }
  assert ((tfw_numHashes w mod hashBlockLen = 0)%nat ->
    exists full, tfw_blocks w = full /\ Forall (fun b => length b = hashBlockLen) full /\
      hs = concat full) as Hnew.
  { intros H0. destruct Hs as [[-> ->]|(full & b & r & -> & Hf & Hb & Hr & ->)].
    { exists []. auto. }
    rewrite Hn, stored_mod in H0 by done.
    assert (r = hashBlockLen) as ->.
    { destruct (decide (r = hashBlockLen)); [done|]. rewrite Nat.mod_small in H0; lia. }
    exists (full ++ [b]). rewrite concat_app, take_ge by lia. simpl. rewrite app_nil_r.
    split_and!; [done| |done]. apply Forall_app. auto. }
  destruct (Nat.eqb_spec (tfw_numHashes w mod hashBlockLen) 0) as [H0|H0].
  - destruct (Hnew H0) as (full & -> & Hf & ->). rewrite last_snoc, pool_length, H0.
    rewrite (proj2 (Nat.leb_gt _ _)) by lia. eexists. split; [reflexivity|].
    right. eexists full, _, 1%nat. split; [|split; [done|]].
    + rewrite length_app, insert_app_r_alt by (simpl; lia).
      replace (_ + _ - 1 - _)%nat with 0%nat by (simpl; lia). reflexivity.
    + rewrite length_insert, pool_length. split_and!; [done|lia..|].
      f_equal. destruct (hashBlockPool_Get (length full)) eqn:E0; [|done].
      pose proof (pool_length (length full)) as Hp. rewrite E0 in Hp. simpl in Hp. lia.
  - destruct Hs as [[E1 ->]|(full & b & r & E1 & Hf & Hb & Hr & ->)].
    { rewrite Hn in H0. by rewrite Nat.Div0.mod_0_l in H0. }
    rewrite Hn, stored_mod in * by done.
    assert (r <> hashBlockLen) by (intros ->; by rewrite Nat.Div0.mod_same in H0).
    rewrite Nat.mod_small in * by lia. rewrite E1, last_snoc, Hb.
    rewrite (proj2 (Nat.leb_gt _ _)) by lia. eexists. split; [reflexivity|].
    right. exists full, (<[r := hash key]> b), (S r).
    split; [|split; [done|]].
    + rewrite length_app, insert_app_r_alt by (simpl; lia).
      by replace (_ + _ - 1 - _)%nat with 0%nat by (simpl; lia).
    + rewrite length_insert. split_and!; [done|lia..|].
      rewrite <- app_assoc. f_equal.
      rewrite (take_S_r _ _ (hash key)) by (apply list_lookup_insert_eq; lia).
      by rewrite take_insert_ge by lia.
Qed.

Lemma blocks_loop_stored f nLines nProbes blocks hs :
  stored blocks hs ->
  blocks_loop f nLines nProbes (length hs) blocks = hashes_loop f nLines nProbes hs.
Proof.
  assert (forall hs1 hs2 f, hashes_loop f nLines nProbes (hs1 ++ hs2) =
    (f ← hashes_loop f nLines nProbes hs1; hashes_loop f nLines nProbes hs2)) as Happ.
  { induction hs1 as [|h hs1 IH]; intros hs2 f0; [done|]. cbn [hashes_loop app].
    destruct (u32 nLines =? 0); [done|].
    destruct (probe_loop _ _ _ _ _); [|done]. rewrite !bind_Ret. apply IH. }
  intros [[-> ->]|(full & b & r & -> & Hf & Hb & Hr & Ehs)]; [done|].
  pose proof (stored_mod full b r Hf Hb Hr) as Hmod. rewrite <- Ehs in Hmod.
  assert (take (if negb (length hs mod hashBlockLen =? 0)%nat then (length hs mod hashBlockLen)%nat
    else hashBlockLen) b = take r b) as Hlast.
  { rewrite Hmod. destruct (decide (r = hashBlockLen)) as [->|].
    - by rewrite Nat.Div0.mod_same.
    - rewrite Nat.mod_small by lia. by destruct (Nat.eqb_spec r 0); [lia|]. }
  rewrite Ehs at 2. clear Ehs Hmod. revert f. induction Hf as [|b0 full Hb0 _ IH]; intros f.
  - cbn [app blocks_loop concat]. rewrite Hlast. by destruct (hashes_loop _ _ _ _).
  - cbn [app blocks_loop concat]. rewrite <- app_assoc, Happ.
    assert (exists x l, full ++ [b] = x :: l) as (x & l & Ex).
    { destruct full; simpl; eauto. }
    rewrite Ex, <- Ex, take_ge by lia. by destruct (hashes_loop _ _ _ b0); [rewrite !bind_Ret|].
Qed.

(** ** The filter *)
Lemma calculateProbes_range n : 1 <= calculateProbes n <= 30.
Proof.
  unfold calculateProbes. cbv zeta. set (x := uint32_of_float _).
  destruct (Z.ltb_spec x 1); [simpl; lia|]. destruct (Z.ltb_spec 30 x); lia.
Qed.

Lemma grow_cap_ok fuel c want :
  (4 <= c)%nat -> (want <= c + fuel)%nat ->
  exists c', grow_cap fuel c want = Ret c' /\ (want <= c')%nat.
Proof.
  revert c. induction fuel as [|fuel IH]; intros c Hc Hw; cbn [grow_cap].
  - destruct (Nat.ltb_spec c want); [lia|eauto].
  - destruct (Nat.ltb_spec c want); [|eauto].
    assert (1 <= c / 4)%nat by (apply Nat.div_le_lower_bound; lia). apply IH; lia.
Qed.

(** The buffer, [n] zeros, and what is behind them. *)
Lemma extend_ok arr len n :
  (len <= length arr)%nat ->
  exists rest, extend arr len n = Ret (take len arr ++ replicate n Byte.x00 ++ rest, (n + len)%nat).
Proof.
  intros Hlen. unfold extend. destruct (Nat.leb_spec (n + len) (length arr)); [eauto|].
  destruct (grow_cap_ok (n + len) 1024 (n + len)) as (c & -> & Hc); [lia..|]. eauto.
Qed.

Lemma filter_lines_range n bitsPerKey :
  (0 < n)%nat -> 0 <= bitsPerKey -> Z.of_nat n * bitsPerKey < 2 ^ 35 - 2048 ->
  0 < filter_lines n bitsPerKey < 2 ^ 26.
Proof.
  intros Hn Hb Hlt. unfold filter_lines. destruct (Nat.eqb_spec n 0); [lia|].
  set (m := Z.of_nat n * bitsPerKey) in *. assert (0 <= m) by (unfold m; lia).
  unfold cacheLineBits, cacheLineSize. rewrite (i64_small m), i64_small by lia.
  rewrite Z.quot_div_nonneg by lia. set (q := (m + 64 * 8 - 1) / (64 * 8)).
  assert (0 <= q < 2 ^ 26 - 1) as Hq.
  { unfold q. split; [apply Z.div_pos; lia|apply Z.div_lt_upper_bound; lia]. }
  rewrite Z.rem_mod_nonneg by lia. destruct (Z.eqb_spec (q mod 2) 0) as [|Hr]; [lia|].
  destruct (decide (q = 0)) as [->|]; [done|lia].
Qed.

(** The trailer of a filter. *)
Lemma filter_trailer f n (x : byte) l :
  length f = (n + 5)%nat -> length l = 4%nat ->
  copy_at (<[n := x]> f) (n + 1) l = take n f ++ x :: l.
Proof.
  intros Hf Hl. unfold copy_at. rewrite length_insert, Hf, Hl.
  rewrite (drop_ge (<[n := x]> f)) by (rewrite length_insert; lia).
  rewrite (take_ge l), app_nil_r, Nat.add_1_r by lia.
  rewrite (take_S_r _ _ x) by (apply list_lookup_insert_eq; lia).
  by rewrite take_insert_ge, <- app_assoc by lia.
Qed.

Lemma MayContain_ok f nLines nProbes key :
  0 < nLines < 2 ^ 26 -> 1 <= nProbes <= 30 ->
  Z.of_nat (length f) = nLines * cacheLineSize ->
  (forall p, p ∈ hash_positions nLines (Z.to_nat nProbes) (hash key) -> has_bit f p) ->
  tableFilter_MayContain (f ++ z2b nProbes :: PutUint32 (u32 nLines)) key = Ret true.
Proof.
  intros Hn Hp Hf Hb. unfold tableFilter_MayContain, cacheLineSize in *.
  rewrite length_app, length_cons, length_PutUint32.
  destruct (Nat.leb_spec (length f + 5) 5); [lia|].
  replace (length f + 5 - 5)%nat with (length f) by lia.
  rewrite (lookup_app_r f), Nat.sub_diag by lia. cbn [lookup list_lookup default from_option id].
  rewrite b2z_z2b, (Z.mod_small nProbes) by lia.
  rewrite drop_app_add, skipn_cons, drop_0, u32_small by lia.
  rewrite <- (app_nil_r (PutUint32 _)), Uint32_Put by lia.
  destruct (Z.eqb_spec nLines 0); [lia|].
  rewrite (u32_small (Z.of_nat _)), Hf, (Z.mul_comm nLines), Z.div_mul by lia. change (u32 (8 * 64)) with cacheLineBits.
  apply mayContain_loop_ok. intros p Hin. apply Hb in Hin as (x & Hx & Ht).
  exists x. split; [|done]. by apply lookup_app_l_Some.
Qed.

Lemma Finish_ok w hs arr len :
  stored (tfw_blocks w) hs -> tfw_numHashes w = length hs ->
  0 <= tfw_bitsPerKey w -> Z.of_nat (length hs) * tfw_bitsPerKey w < 2 ^ 35 - 2048 ->
  (len <= length arr)%nat ->
  exists f rest,
    Finish w arr len =
      Ret (w <| tfw_blocks := [] |> <| tfw_numHashes := 0%nat |>,
           (take len arr ++ f ++ rest, (length f + len)%nat)) /\
    (forall key, hash key ∈ hs -> tableFilter_MayContain f key = Ret true) /\
    (hs = [] -> forall key, tableFilter_MayContain f key = Ret false).
Proof.
  intros Hs Hn Hb Hlt Hlen. unfold Finish. rewrite Hn.
  destruct (decide (length hs = 0%nat)) as [H0|H0].
  - apply length_zero_iff_nil in H0 as ->. change (filter_lines _ _) with 0. cbv zeta.
    change (0 * cacheLineSize + 5 <? 0) with false. change (Z.to_nat (0 * cacheLineSize + 5)) with 5%nat.
    destruct (extend_ok arr len 5 Hlen) as [rest ->]. rewrite bind_Ret. change (0 =? 0) with true.
    cbv iota. rewrite bind_Ret.
    exists (replicate 5 Byte.x00), rest. rewrite slice_app_mid by len.
    rewrite copy_at_app by len. split_and!; [done| |done]. by intros key ?%elem_of_nil.
  - pose proof (filter_lines_range (length hs) (tfw_bitsPerKey w) ltac:(lia) Hb Hlt) as Hr.
    set (nLines := filter_lines _ _) in *. set (nBytes := nLines * cacheLineSize).
    assert (0 < nBytes) by (unfold nBytes, cacheLineSize; lia).
    destruct (Z.ltb_spec (nBytes + 5) 0); [lia|].
    destruct (extend_ok arr len (Z.to_nat (nBytes + 5)) Hlen) as [rest ->]. rewrite bind_Ret.
    rewrite slice_app_mid by len. set (f0 := replicate _ _).
    assert (length f0 = Z.to_nat nBytes + 5)%nat as Hf0 by (unfold f0; len).
    destruct (Z.eqb_spec nLines 0); [lia|]. cbv zeta.
    pose proof (calculateProbes_range (tfw_bitsPerKey w)) as Hp. set (nProbes := calculateProbes _) in *.
    rewrite (blocks_loop_stored _ _ _ _ _ Hs).
    destruct (hashes_loop_ok nLines (Z.to_nat nProbes) hs f0) as (f1 & -> & Hf1 & Hbits & _); [lia| |].
    { rewrite Hf0. unfold nBytes, cacheLineBits, cacheLineSize in *. lia. }
    rewrite !bind_Ret, filter_trailer by len. set (f2 := take _ f1 ++ _).
    assert (length f2 = Z.to_nat (nBytes + 5)) as Hf2.
    { unfold f2. rewrite length_app, length_take, length_cons, length_PutUint32. lia. }
    exists f2, rest. split_and!.
    + rewrite copy_at_app by (rewrite ?length_take, ?Hf2; unfold f0; len). by rewrite Hf2.
    + intros key Hk. apply MayContain_ok; [lia..| |].
      { rewrite length_take. unfold nBytes in *. lia. }
      intros p Hin. destruct (Hbits _ _ Hk Hin) as (x & Hx & Ht). exists x. split; [|done].
      pose proof (hash_positions_range nLines (Z.to_nat nProbes) (hash key) ltac:(lia)) as Hrg.
      rewrite Forall_forall in Hrg. specialize (Hrg _ Hin).
      rewrite lookup_take_lt; [done|].
      apply Z2Nat.inj_lt; [apply Z.div_pos; lia|lia|]. apply Z.div_lt_upper_bound; [lia|].
      unfold nBytes, cacheLineBits, cacheLineSize in *. lia.
    + by intros ->.
Qed.

(** The keys a writer holds are those whose hash is stored. *)
Definition bloom_holds (bitsPerKey : Z) (w : tableFilterWriter) (keys : list bytes) : Prop :=
  tfw_bitsPerKey w = bitsPerKey /\
  exists hs, stored (tfw_blocks w) hs /\ tfw_numHashes w = length hs /\
    (length hs <= length keys)%nat /\ (hs <> [] -> tfw_lastHash w ∈ hs) /\
    forall k, k ∈ keys -> hash k ∈ hs.

Lemma bloom_holds_add bitsPerKey w keys k :
  bloom_holds bitsPerKey w keys ->
  exists w', AddKey w k = Ret w' /\ bloom_holds bitsPerKey w' (keys ++ [k]).
Proof.
  intros (Hb & hs & Hs & Hn & Hl & Hlast & Hin).
  destruct (decide (tfw_numHashes w <> 0%nat /\ hash k = tfw_lastHash w)) as [[H0 Eh]|Hc].
  - exists w. split.
    { unfold AddKey. rewrite (proj2 (Nat.eqb_neq _ _) H0), Eh, Z.eqb_refl. done. }
    split; [done|]. exists hs. rewrite length_app. split_and!; [done..|simpl; lia|done|].
    intros k' [?| ->%list_elem_of_singleton]%elem_of_app; [auto|].
    rewrite Eh. apply Hlast. intros ->. by rewrite Hn in H0.
  - destruct (AddKey_store w hs k Hs Hn) as (blocks & -> & Hs').
    { destruct (decide (tfw_numHashes w = 0%nat)); [by left|]. right. naive_solver. }
    eexists. split; [reflexivity|]. split; [done|]. exists (hs ++ [hash k]).
    rewrite !length_app. split_and!; [done|simpl; lia..| |].
    + intros _. apply elem_of_app. right. by apply list_elem_of_singleton.
    + intros k' [?| ->%list_elem_of_singleton]%elem_of_app; apply elem_of_app; [left; auto|].
      right. by apply list_elem_of_singleton.
Qed.

(** Bloom filters are a filter policy as long as they stay below 4 GiB. *)
Lemma bloom_FilterPolicyLaws bitsPerKey limit :
  0 <= bitsPerKey -> Z.of_nat limit * bitsPerKey < 2 ^ 35 - 2048 ->
  FilterPolicyLaws (bloom_FilterPolicy bitsPerKey) limit.
Proof.
  intros Hb Hl. refine (Build_FilterPolicyLaws (bloom_FilterPolicy bitsPerKey) limit (bloom_holds bitsPerKey) _ _ _).
  - split; [done|]. exists []. split_and!; [by left|done..|]. by intros k ?%elem_of_nil.
  - intros w keys k Hw _. by apply bloom_holds_add.
  - intros w keys arr len (Hbw & hs & Hs & Hn & Hle & _ & Hin) Hk Hlen.
    destruct (Finish_ok w hs arr len Hs Hn) as (f & rest & HF & Hmay & _);
      [lia|rewrite Hbw; nia|done|].
    eexists _, _, _. split; [exact HF|].
    split; [|split; [len|split; [by rewrite take_app_length' by len|]]].
    + split; [done|]. exists []. split_and!; [by left|done..|]. by intros k ?%elem_of_nil.
    + intros k Hkin. rewrite slice_app_mid by len. auto.
Qed.
End bloom.

(** ** Filters of tables *)
Section table_filter.
Context {P : FilterPolicy} {limit : nat} {L : FilterPolicyLaws P limit}.

Lemma addKeys_ok f keys more :
  holds (tw_writer f) keys -> tw_count f = Z.of_nat (length keys) ->
  (length (keys ++ more) <= limit)%nat -> Z.of_nat limit < 2 ^ 63 ->
  exists f', addKeys f more = Ret f' /\ holds (tw_writer f') (keys ++ more) /\
    tw_count f' = Z.of_nat (length (keys ++ more)).
Proof.
  intros Hh Hc Hl H63. revert f keys Hh Hc Hl. induction more as [|k more IH]; intros f keys Hh Hc Hl.
  { rewrite app_nil_r in *. eauto. }
  rewrite length_app in Hl. simpl in Hl.
  destruct (holds_add (tw_writer f) keys k Hh ltac:(lia)) as (w & Ew & Hw).
  cbn [addKeys]. unfold addKey. rewrite Ew, !bind_Ret.
  replace (keys ++ k :: more) with ((keys ++ [k]) ++ more) by (by rewrite <- app_assoc).
  apply IH; simpl; [done| |len].
  rewrite i64_small by lia. len.
Qed.

Lemma table_filter_ok keys :
  (length keys <= limit)%nat -> Z.of_nat limit < 2 ^ 63 ->
  exists f f' data,
    addKeys new_table_filter_writer keys = Ret f /\ finish f = Ret (f', data) /\
    (keys = [] <-> data = None) /\
    forall k d m, k ∈ keys -> data = Some d ->
      mayContain m d k =
        Ret (true, (fun m => mkFilterMetrics (fm_Hits m) (i64 (fm_Misses m + 1))) <$> m).
Proof.
  intros Hl H63.
  destruct (addKeys_ok new_table_filter_writer [] keys holds_new eq_refl Hl H63)
    as (f & -> & Hh & Hc). simpl in Hh, Hc. exists f. unfold finish. rewrite Hc.
  destruct keys as [|k0 keys]; simpl.
  { exists f, None. split_and!; [done..|]. by intros k d m ?%elem_of_nil. }
  destruct (holds_finish (tw_writer f) _ [] 0 Hh Hl ltac:(simpl; lia))
    as (w & arr & len & -> & _ & Hlen & _ & Hmay).
  eexists _, _. rewrite bind_Ret. split_and!; [done..|].
  intros k d m Hin [= <-]. unfold mayContain.
  specialize (Hmay k Hin). unfold slice in Hmay. rewrite drop_0, Nat.sub_0_r in Hmay.
  by rewrite Hmay.
Qed.
End table_filter.

(** C40. The Bloom filter of a table has no false negatives: for every key added to the
    writer of the filter, the reader finds in what [finish] returned that the table may
    contain the key.  A filter is written unless there are no keys.  This holds as long
    as the filter is smaller than 4 GiB. *)
Theorem bloom_no_false_negatives {E : BloomEnv} {L : BloomEnvLaws E} (bitsPerKey : Z)
    (keys : list bytes) :
  let P := bloom_FilterPolicy bitsPerKey in
  0 <= bitsPerKey ->
  Z.of_nat (length keys) * bitsPerKey < 2 ^ 35 - 2048 -> Z.of_nat (length keys) < 2 ^ 63 ->
  exists f f' data,
    addKeys new_table_filter_writer keys = Ret f /\ finish f = Ret (f', data) /\
    (keys = [] <-> data = None) /\
    forall k d m, k ∈ keys -> data = Some d ->
      mayContain m d k =
        Ret (true, (fun m => mkFilterMetrics (fm_Hits m) (i64 (fm_Misses m + 1))) <$> m).
Proof.
  intros P Hb Hl H63. pose proof (bloom_FilterPolicyLaws bitsPerKey (length keys) Hb Hl).
  by apply (table_filter_ok (limit := length keys)).
Qed.

(** ** A concrete filter *)
Definition example_env : BloomEnv :=
  {| hashBlockPool_Get := fun n => replicate hashBlockLen (Z.of_nat n); float_overflow := fun _ => 0 |}.
Lemma example_env_laws : BloomEnvLaws example_env.
Proof. split; [intros n; apply length_replicate|intros x; simpl; lia]. Qed.
Definition example_keys : list bytes := map bytes_of_string ["hello"; "world"]%string.

Lemma bloom_no_false_negatives_witness :
  let P := @bloom_FilterPolicy example_env 10 in
  exists f f' data,
    addKeys new_table_filter_writer example_keys = Ret f /\ finish f = Ret (f', data) /\
    (example_keys = [] <-> data = None) /\
    forall k d m, k ∈ example_keys -> data = Some d ->
      mayContain m d k =
        Ret (true, (fun m => mkFilterMetrics (fm_Hits m) (i64 (fm_Misses m + 1))) <$> m).
Proof.
  apply (@bloom_no_false_negatives example_env example_env_laws 10 example_keys);
    vm_compute; congruence.
Defined.

(** The filter that RocksDB writes for these keys (as in bloom_test.go): 512 bits, six
    probes, one cache line.  It denies a key that is not in it. *)
Lemma small_filter :
  let P := @bloom_FilterPolicy example_env 10 in
  (f ← addKeys new_table_filter_writer example_keys; '(_, data) ← finish f;
   r ← mayContain None (default [] data) (bytes_of_string "foo");
   Ret (length <$> data, drop 53 (default [] data), r)) =
  Ret (Some 69%nat, z2b <$> [16; 0; 0; 1; 0; 0; 0; 68; 0; 0; 0; 6; 1; 0; 0; 0], (false, None)).
Proof. vm_compute. reflexivity. Qed.
