(* ===== verification/Merger.v ===== *)
(** Merge operators (src/internal/base/merger.go and src/merger.go): the interface, what its
    documentation promises, and the default merger, which concatenates. *)
From S2P Require Import Prelude.

(** An [io.Closer]: what its [Close] returns. *)
Abbreviation Closer := (option error).

(** The interface.  A [ValueMerger] is an object with a state; [DeletableFinish] is [None]
    for a merger that does not implement [DeletableValueMerger]. *)
Class Merge := {
  ValueMerger : Type;
  merge_New : bytes -> bytes -> result ValueMerger;
  MergeNewer : ValueMerger -> bytes -> result ValueMerger;
  MergeOlder : ValueMerger -> bytes -> result ValueMerger;
  merge_Finish : ValueMerger -> bool -> result (bytes * option Closer);
  DeletableFinish : option (ValueMerger -> bool -> result (bytes * bool * option Closer));
}.

Section merge.
Context {M : Merge}.

(** The value, whether the key is to be deleted, and a closer if there is one. *)
Definition finishValueMerger (valueMerger : ValueMerger) (includesBase : bool)
    : result (bytes * bool * option Closer) :=
  match DeletableFinish with
  | Some f => f valueMerger includesBase
  | None => '(value, closer) ← merge_Finish valueMerger includesBase; Ok (value, false, closer)
  end.

(** Merging operands, the newest first. *)
Fixpoint merge_older (m : ValueMerger) (operands : list bytes) : result ValueMerger :=
  match operands with
  | [] => Ok m
  | v :: operands => m ← MergeOlder m v; merge_older m operands
  end.
Definition merge_all (key : bytes) (operands : list bytes) (includesBase : bool)
    : result (bytes * bool * option Closer) :=
  match operands with
  | [] => Err (New "no operands")
  | v :: operands =>
      m ← merge_New key v; m ← merge_older m operands; finishValueMerger m includesBase
  end.

Lemma merge_older_app m os v : merge_older m (os ++ [v]) = (m ← merge_older m os; MergeOlder m v).
Proof.
  revert m. induction os as [|x os IH]; intros m; simpl.
  - by destruct (MergeOlder m v).
  - unfold mbind, result_bind in *. by destruct (MergeOlder m x).
Qed.
End merge.

(** The mergers that the theorems about compactions are about: they return no errors and
    never delete the result (the interface allows both, see [DeletingMerger] of
    CompactionExamples.v for what happens then).  [merged] is the value of merged operands,
    the newest first.  Merging is associative: operands may be replaced by their merged
    value; the last ones also if they include the base. *)
Class MergeLaws (M : Merge) := {
  merged : bytes -> list bytes -> bool -> bytes;
  merge_ok key v : exists m, merge_New key v = Ok m;
  merge_older_ok key os v m : (x ← merge_New key v; merge_older x os) = Ok m ->
    forall v', exists m', MergeOlder m v' = Ok m';
  merged_ok key os v m includesBase : (x ← merge_New key v; merge_older x os) = Ok m ->
    exists closer, finishValueMerger m includesBase = Ok (merged key (v :: os) includesBase, false, closer) /\
      (closer = None \/ closer = Some None);
  merged_assoc key xs os ys :
    os <> [] -> merged key (xs ++ merged key os false :: ys) true = merged key (xs ++ os ++ ys) true;
  merged_base key xs os :
    os <> [] -> merged key (xs ++ [merged key os true]) true = merged key (xs ++ os) true;
}.

(** ** The default merger *)
Definition DefaultMerger : Merge := {|
  ValueMerger := bytes;
  merge_New := fun key value => Ok value;
  MergeNewer := fun buf value => Ok (buf ++ value);
  MergeOlder := fun buf value => Ok (value ++ buf);
  merge_Finish := fun buf includesBase => Ok (buf, None);
  DeletableFinish := None;
|}.

Lemma append_older (os : list bytes) (v : bytes) :
  merge_older (M := DefaultMerger) v os = Ok (concat (rev os) ++ v).
Proof.
  revert v. induction os as [|x os IH]; intros v; [done|]. simpl.
  etransitivity; [apply IH|]. rewrite concat_app. simpl. by rewrite app_nil_r, app_assoc.
Qed.

Lemma DefaultMerger_laws : MergeLaws DefaultMerger.
Proof.
  refine (Build_MergeLaws DefaultMerger (fun key os includesBase => concat (rev os)) _ _ _ _ _).
  - intros key v. by exists v.
  - intros key os v m H v'. by eexists.
  - intros key os v m b H. exists None. split; [|by left].
    change (merge_older (M := DefaultMerger) v os = Ok m) in H. rewrite append_older in H.
    injection H as <-. unfold finishValueMerger. simpl. rewrite concat_app. simpl. by rewrite app_nil_r.
  - intros key xs os ys _. rewrite !rev_app_distr. simpl. rewrite !concat_app. simpl.
    by rewrite !app_nil_r, ?app_assoc.
  - intros key xs os _. rewrite !rev_app_distr, !concat_app. simpl. by rewrite app_nil_r.
Defined.
