(* ===== verification/CompactionIter.v ===== *)
(** The compaction iterator (src/compaction_iter.go): it walks over the merged entries of
    the inputs of a compaction and drops those that are shadowed in their snapshot stripe.

    The input iterator is the list of the entries that are left, with the span that an
    interleaved range deletion or range key stands for.  Values are lazy; fetching one may
    fail.  Notifying the frontiers in [saveKey] does not change the iterator and is left
    out.  The callbacks for wrong uses of single deletes are recorded as events. *)
From S2P Require Import Prelude.
From S2P Require Import Comparer.
From S2P Require Import InternalKey.
From S2P Require Import GoStd.
From S2P Require Import Keyspan.
From S2P Require Import RangeKey.
From S2P Require Import Merger.

Local Open Scope Z_scope.

(** An entry of the input.  For a range deletion or range key, the span at which
    [c.rangeDelIter] or [c.rangeKeyInterleaving] is. *)
Record item := mkItem {
  it_key : InternalKey;
  it_value : result bytes;
  it_span : Span;
}.

Inductive stripeChangeType :=
| newStripeNewKey
| newStripeSameKey
| sameStripeSkippable
| sameStripeNonSkippable.
#[export] Instance stripeChangeType_eq_dec : EqDecision stripeChangeType.
Proof. solve_decision. Defined.

(** The two positions that are used of [iterPos]. *)
Inductive iterPos := iterPosCurForward | iterPosNext.
#[export] Instance iterPos_eq_dec : EqDecision iterPos.
Proof. solve_decision. Defined.

(** Calls of [ineffectualSingleDeleteCallback] and
    [singleDeleteInvariantViolationCallback]. *)
Inductive event := IneffectualSingleDelete (key : bytes) | SingleDeleteInvariantViolation (key : bytes).

Record compactionIter := mkCompactionIter {
  ci_iter : list item;
  ci_err : option error;
  ci_key : InternalKey;
  ci_keyTrailer : Z;
  ci_value : bytes;
  ci_valueCloser : option Closer;
  ci_valid : bool;
  ci_iterKey : option InternalKey;
  ci_iterValue : bytes;
  ci_iterSpan : Span;
  ci_iterStripeChange : stripeChangeType;
  ci_skip : bool;
  ci_pos : iterPos;
  ci_snapshotPinned : bool;
  ci_forceObsoleteDueToRangeDel : bool;
  ci_curSnapshotIdx : nat;
  ci_curSnapshotSeqNum : Z;
  ci_rangeDelFrag : Fragmenter;
  ci_rangeKeyFrag : Fragmenter;
  ci_tombstones : list Span;
  ci_rangeKeys : list Span;
  ci_countMissizedDels : Z;
  ci_events : list event;
}.
#[export] Instance settable_compactionIter : Settable compactionIter := fun i =>
  mkCompactionIter (ci_iter i) (ci_err i) (ci_key i) (ci_keyTrailer i) (ci_value i)
    (ci_valueCloser i) (ci_valid i) (ci_iterKey i) (ci_iterValue i) (ci_iterSpan i)
    (ci_iterStripeChange i) (ci_skip i) (ci_pos i) (ci_snapshotPinned i)
    (ci_forceObsoleteDueToRangeDel i) (ci_curSnapshotIdx i) (ci_curSnapshotSeqNum i)
    (ci_rangeDelFrag i) (ci_rangeKeyFrag i) (ci_tombstones i) (ci_rangeKeys i)
    (ci_countMissizedDels i) (ci_events i).

(** The arguments of [newCompactionIter] that do not change. *)
Record params := mkParams {
  snapshots : list Z;
  allowZeroSeqNum : bool;
  elideTombstone : bytes -> bool;
  elideRangeTombstone : bytes -> bytes -> bool;
  formatVersion : Z;
}.
Definition FormatSetWithDelete : Z := 4.

Definition nil_span : Span := mkSpan [] [] [] ByTrailerDesc.
Definition newCompactionIter (iter : list item) : compactionIter :=
  mkCompactionIter iter None (mkInternalKey [] 0) 0 [] None false None [] nil_span
    newStripeNewKey false iterPosCurForward false false 0 0
    new_fragmenter new_fragmenter [] [] 0 [].

(** [snapshotIndex]: the stripe of a sequence number and its upper bound. *)
Definition snapshotIndex (seq : Z) (snapshots : list Z) : nat * Z :=
  let index := sort_Search (length snapshots) (fun i => seq <? nth i snapshots 0) in
  if (length snapshots <=? index)%nat then (index, InternalKeySeqNumMax)
  else (index, nth index snapshots 0).

(** The kinds of point keys. *)
Definition is_tombstone (kind : Z) : bool :=
  (kind =? InternalKeyKindDelete) || (kind =? InternalKeyKindSingleDelete) ||
  (kind =? InternalKeyKindDeleteSized).
Definition is_set (kind : Z) : bool :=
  (kind =? InternalKeyKindSet) || (kind =? InternalKeyKindSetWithDelete).
Definition is_point (kind : Z) : bool :=
  is_tombstone kind || is_set kind || (kind =? InternalKeyKindMerge).

Section iter.
Context {C : Comparer} {M : Merge} (p : params).

Definition nil_deref {A} : go A := Panic "invalid memory address or nil pointer dereference".
Definition corruption : error := New "pebble: invalid internal key kind".

Definition set_snapshot (i : compactionIter) (key : InternalKey) : compactionIter :=
  let '(idx, seqNum) := snapshotIndex (SeqNum key) (snapshots p) in
  i <| ci_curSnapshotIdx := idx |> <| ci_curSnapshotSeqNum := seqNum |>.

Definition saveKey (i : compactionIter) : go compactionIter :=
  match ci_iterKey i with
  | None => nil_deref
  | Some k => Ret (i <| ci_key := k |> <| ci_keyTrailer := Trailer k |>)
  end.

(** Takes the next entry of the input. *)
Definition fetch (i : compactionIter) : compactionIter :=
  match ci_iter i with
  | [] => i <| ci_iterKey := None |> <| ci_iterValue := [] |> <| ci_err := None |>
  | it :: iter =>
      let i := i <| ci_iter := iter |> <| ci_iterSpan := it_span it |> in
      match it_value it with
      | Ok v => i <| ci_iterKey := Some (it_key it) |> <| ci_iterValue := v |> <| ci_err := None |>
      | Err e => i <| ci_iterKey := Some (it_key it) |> <| ci_iterValue := [] |> <| ci_err := Some e |>
      end
  end.
Definition iterNext (i : compactionIter) : compactionIter * bool :=
  let i := fetch i in
  let i := match ci_err i with Some _ => i <| ci_iterKey := None |> | None => i end in
  (i, match ci_iterKey i with Some _ => true | None => false end).

(** [nextInStripeHelper]. *)
Fixpoint nextInStripeHelper (fuel : nat) (origSnapshotIdx : nat) (i : compactionIter)
    : go (compactionIter * stripeChangeType) :=
  match fuel with
  | O => Panic "out of fuel"
  | S fuel =>
      let '(i, ok) := iterNext i in
      if negb ok then Ret (i, newStripeNewKey) else
      match ci_iterKey i with
      | None => nil_deref
      | Some key =>
          if negb (Equal (UserKey (ci_key i)) (UserKey key)) then
            Ret (set_snapshot i key, newStripeNewKey)
          else
          let prevSeqNum := SeqNumFromTrailer (ci_keyTrailer i) in
          if ((prevSeqNum =? 0) || (prevSeqNum <=? SeqNum key)) &&
             negb (Kind (ci_key i) =? InternalKeyKindRangeDelete) &&
             negb (Kind key =? InternalKeyKindRangeDelete)
          then Panic "pebble: invariant violation: keys out of order" else
          let i := set_snapshot i key in
          let same := (ci_curSnapshotIdx i =? origSnapshotIdx)%nat in
          let kind := Kind key in
          if (kind =? InternalKeyKindRangeDelete) then
            Ret (i, if same then sameStripeNonSkippable else newStripeSameKey)
          else if IsRangeKey kind then Panic "unreachable"
          else if (kind =? InternalKeyKindInvalid) then
            Ret (i, if same then sameStripeNonSkippable else newStripeSameKey)
          else if is_point kind then
            if same then
              cover ← Fragmenter_Covers (ci_rangeDelFrag i) key (ci_curSnapshotSeqNum i);
              match cover with
              | CoversVisibly => nextInStripeHelper fuel origSnapshotIdx i
              | _ => Ret (i, sameStripeSkippable)
              end
            else Ret (i, newStripeSameKey)
          else
            (* [iterKey] is set to nil before its kind is used in the error *)
            nil_deref
      end
  end.
Definition nextInStripe (i : compactionIter) : go (compactionIter * stripeChangeType) :=
  '(i, change) ← nextInStripeHelper (S (length (ci_iter i))) (ci_curSnapshotIdx i) i;
  Ret (i <| ci_iterStripeChange := change |>, change).

Definition new_stripe (c : stripeChangeType) : bool :=
  match c with newStripeNewKey | newStripeSameKey => true | _ => false end.

(** The loop of [skipInStripe]. *)
Fixpoint skip_loop (fuel : nat) (i : compactionIter) : go compactionIter :=
  match fuel with
  | O => Panic "out of fuel"
  | S fuel =>
      '(i, change) ← nextInStripe i;
      if decide (change = sameStripeSkippable) then
        match ci_err i with
        | Some _ => Panic "error in skipInStripe"
        | None => skip_loop fuel i
        end
      else Ret i
  end.
Definition skipInStripe (i : compactionIter) : go compactionIter :=
  let i := i <| ci_skip := true |> in
  i ← skip_loop (S (length (ci_iter i))) i;
  Ret (if new_stripe (ci_iterStripeChange i) then i <| ci_skip := false |> else i).

Definition maybeZeroSeqnum (i : compactionIter) (snapshotIdx : nat) : compactionIter :=
  if negb (allowZeroSeqNum p) then i
  else if (0 <? snapshotIdx)%nat then i
  else i <| ci_key := SetSeqNum (ci_key i) SeqNumZero |>.

Definition set_kind (i : compactionIter) (kind : Z) : compactionIter :=
  i <| ci_key := SetKind (ci_key i) kind |>.

(** The loop of [setNext] looks for a tombstone in the stripe. *)
Fixpoint setNext_loop (fuel : nat) (i : compactionIter) : go compactionIter :=
  match fuel with
  | O => Panic "out of fuel"
  | S fuel =>
      '(i, change) ← nextInStripe i;
      match change with
      | newStripeNewKey | newStripeSameKey => Ret (i <| ci_pos := iterPosNext |>)
      | sameStripeNonSkippable =>
          Ret ((set_kind (i <| ci_pos := iterPosNext |>) InternalKeyKindSetWithDelete) <| ci_skip := true |>)
      | sameStripeSkippable =>
          match ci_iterKey i with
          | None => nil_deref
          | Some key =>
              if is_tombstone (Kind key) then
                Ret ((set_kind i InternalKeyKindSetWithDelete) <| ci_skip := true |>)
              else if is_set (Kind key) || (Kind key =? InternalKeyKindMerge) then setNext_loop fuel i
              else setNext_loop fuel (i <| ci_err := Some corruption |> <| ci_valid := false |>)
          end
      end
  end.
Definition setNext (i : compactionIter) : go compactionIter :=
  i ← saveKey i;
  let i := i <| ci_value := ci_iterValue i |> <| ci_valid := true |> in
  let i := maybeZeroSeqnum i (ci_curSnapshotIdx i) in
  match ci_iterKey i with
  | None => nil_deref
  | Some key =>
      if (formatVersion p <? FormatSetWithDelete) || (Kind key =? InternalKeyKindSetWithDelete)
      then Ret (i <| ci_skip := true |>)
      else setNext_loop (S (length (ci_iter i))) i
  end.

(** The loop of [mergeNext], with the merger that it changes. *)
Fixpoint mergeNext_loop (fuel : nat) (i : compactionIter) (valueMerger : ValueMerger)
    : go (compactionIter * ValueMerger * stripeChangeType) :=
  match fuel with
  | O => Panic "out of fuel"
  | S fuel =>
      '(i, change) ← nextInStripe i;
      if decide (change <> sameStripeSkippable) then
        Ret (i <| ci_pos := iterPosNext |>, valueMerger, ci_iterStripeChange i)
      else
      match ci_err i, ci_iterKey i with
      | Some _, _ => Panic "error in mergeNext"
      | None, None => nil_deref
      | None, Some key =>
          let kind := Kind key in
          let failed e := (i <| ci_err := Some e |> <| ci_valid := false |>, valueMerger, sameStripeSkippable) in
          if is_tombstone kind then
            Ret ((set_kind i InternalKeyKindSetWithDelete) <| ci_skip := true |>, valueMerger,
                 sameStripeSkippable)
          else if is_set kind then
            match MergeOlder valueMerger (ci_iterValue i) with
            | Err e => Ret (failed e)
            | Ok valueMerger =>
                Ret ((set_kind i InternalKeyKindSet) <| ci_skip := true |>, valueMerger, sameStripeSkippable)
            end
          else if (kind =? InternalKeyKindMerge) then
            match MergeOlder valueMerger (ci_iterValue i) with
            | Err e => Ret (failed e)
            | Ok valueMerger => mergeNext_loop fuel i valueMerger
            end
          else Ret (failed corruption)
      end
  end.
Definition mergeNext (i : compactionIter) (valueMerger : ValueMerger)
    : go (compactionIter * ValueMerger * stripeChangeType) :=
  i ← saveKey i;
  let i := i <| ci_valid := true |> in
  mergeNext_loop (S (length (ci_iter i))) i valueMerger.

Definition ineffectual (i : compactionIter) : compactionIter :=
  i <| ci_events := ci_events i ++ [IneffectualSingleDelete (UserKey (ci_key i))] |>.
Definition violation (i : compactionIter) : compactionIter :=
  i <| ci_events := ci_events i ++ [SingleDeleteInvariantViolation (UserKey (ci_key i))] |>.

(** The loop of [singleDeleteNext]; the result is whether to yield the key. *)
Fixpoint singleDeleteNext_loop (fuel : nat) (i : compactionIter) : go (compactionIter * bool) :=
  match fuel with
  | O => Panic "out of fuel"
  | S fuel =>
      '(i, change) ← nextInStripe i;
      if decide (change <> sameStripeSkippable) then
        Ret (i <| ci_pos := iterPosNext |>, match ci_err i with None => true | Some _ => false end)
      else
      match ci_err i, ci_iterKey i with
      | Some _, _ => Panic "error in singleDeleteNext"
      | None, None => nil_deref
      | None, Some key =>
          let kind := Kind key in
          if (kind =? InternalKeyKindDelete) || (kind =? InternalKeyKindSetWithDelete) ||
             (kind =? InternalKeyKindDeleteSized) then
            let i := if (kind =? InternalKeyKindDelete) || (kind =? InternalKeyKindDeleteSized)
                     then ineffectual i else i in
            Ret ((set_kind i InternalKeyKindDelete) <| ci_skip := true |>, true)
          else if (kind =? InternalKeyKindSet) || (kind =? InternalKeyKindMerge) then
            '(i, change) ← nextInStripe i;
            i ←
              match change with
              | sameStripeSkippable | newStripeSameKey =>
                  match ci_iterKey i with
                  | None => nil_deref
                  | Some next =>
                      let nextKind := Kind next in
                      if is_set nextKind || (nextKind =? InternalKeyKindMerge) then
                        if decide (change = sameStripeSkippable) then Ret (violation i)
                        else
                          cover ← Fragmenter_Covers (ci_rangeDelFrag i) next (ci_curSnapshotSeqNum i);
                          Ret (match cover with NoCover => violation i | _ => i end)
                      else if is_tombstone nextKind || (nextKind =? InternalKeyKindRangeDelete) then Ret i
                      else Panic "unexpected internal key kind"
                  end
              | sameStripeNonSkippable | newStripeNewKey => Ret i
              end;
            Ret (i <| ci_valid := false |>, false)
          else if (kind =? InternalKeyKindSingleDelete) then
            singleDeleteNext_loop fuel (ineffectual i)
          else Ret (i <| ci_err := Some corruption |> <| ci_valid := false |>, false)
      end
  end.
Definition singleDeleteNext (i : compactionIter) : go (compactionIter * bool) :=
  i ← saveKey i;
  let i := i <| ci_value := ci_iterValue i |> <| ci_valid := true |> in
  singleDeleteNext_loop (S (length (ci_iter i))) i.

Fixpoint skipDueToSingleDeleteElision (fuel : nat) (i : compactionIter) : go compactionIter :=
  match fuel with
  | O => Panic "out of fuel"
  | S fuel =>
      '(i, stripeChange) ← nextInStripe i;
      match ci_err i with
      | Some _ => Panic "error in skipDueToSingleDeleteElision"
      | None =>
      match stripeChange with
      | newStripeNewKey => Ret ((ineffectual i) <| ci_skip := false |>)
      | newStripeSameKey => Panic "eliding single delete followed by same key in new stripe"
      | sameStripeNonSkippable => Ret (i <| ci_skip := true |>)
      | sameStripeSkippable =>
          match ci_iterKey i with
          | None => nil_deref
          | Some key =>
              let kind := Kind key in
              if is_tombstone kind then
                let i := ineffectual i in
                if (kind =? InternalKeyKindSingleDelete) then skipDueToSingleDeleteElision fuel i
                else skipInStripe i
              else if (kind =? InternalKeyKindSetWithDelete) then skipInStripe i
              else if (kind =? InternalKeyKindSet) || (kind =? InternalKeyKindMerge) then
                '(i, change) ← nextInStripe i;
                match ci_err i with
                | Some _ => Panic "error in skipDueToSingleDeleteElision"
                | None =>
                i ←
                  match change with
                  | newStripeSameKey => Panic "eliding single delete followed by same key in new stripe"
                  | newStripeNewKey | sameStripeNonSkippable => Ret i
                  | sameStripeSkippable =>
                      match ci_iterKey i with
                      | None => nil_deref
                      | Some next =>
                          let nextKind := Kind next in
                          if is_set nextKind || (nextKind =? InternalKeyKindMerge) then Ret (violation i)
                          else if is_tombstone nextKind || (nextKind =? InternalKeyKindRangeDelete)
                          then Ret i
                          else Panic "unexpected internal key kind"
                      end
                  end;
                Ret (i <| ci_skip := false |>)
                end
              else Panic "unexpected internal key kind"
          end
      end
      end
  end.

(** [deleteSizedNext]; the result is whether the key is returned. *)
Fixpoint deleteSizedNext_loop (fuel : nat) (i : compactionIter) : go (compactionIter * bool) :=
  match fuel with
  | O => Panic "out of fuel"
  | S fuel =>
      '(i, change) ← nextInStripe i;
      if decide (change <> sameStripeSkippable) then
        let i := if new_stripe (ci_iterStripeChange i) then i <| ci_skip := false |> else i in
        Ret (i, match ci_err i with None => true | Some _ => false end)
      else
      match ci_err i, ci_iterKey i with
      | Some _, _ => Panic "error in deleteSizedNext"
      | None, None => nil_deref
      | None, Some key =>
          let kind := Kind key in
          if is_tombstone kind then
            let i := match ci_value i with
                     | [] => i
                     | _ => i <| ci_countMissizedDels := u64 (ci_countMissizedDels i + 1) |>
                     end in
            let i := i <| ci_value := ci_iterValue i |> in
            if negb (kind =? InternalKeyKindDeleteSized) then
              i ← skipInStripe (set_kind i InternalKeyKindDelete);
              Ret (i, true)
            else deleteSizedNext_loop fuel i
          else if is_set kind || (kind =? InternalKeyKindMerge) then
            match ci_value i with
            | [] =>
                i ← skipInStripe (set_kind i InternalKeyKindDelete);
                Ret (i, true)
            | _ =>
                let '(expectedSize, n) := Uvarint (ci_value i) in
                if negb (n =? Z.of_nat (length (ci_value i))) then
                  Ret (i <| ci_err := Some (New "pebble: DELSIZED holds invalid value") |>
                         <| ci_valid := false |>, false)
                else
                let elidedSize := u64 (Z.of_nat (length (UserKey key)) + Z.of_nat (length (ci_iterValue i))) in
                if negb (elidedSize =? expectedSize) then
                  let i := i <| ci_countMissizedDels := u64 (ci_countMissizedDels i + 1) |> in
                  i ← skipInStripe ((set_kind i InternalKeyKindDelete) <| ci_value := [] |>);
                  Ret (i, true)
                else deleteSizedNext_loop fuel (i <| ci_value := [] |>)
            end
          else Ret (i <| ci_err := Some corruption |> <| ci_valid := false |>, false)
      end
  end.
Definition deleteSizedNext (i : compactionIter) : go (compactionIter * bool) :=
  i ← saveKey i;
  let i := i <| ci_valid := true |> <| ci_skip := true |> <| ci_value := ci_iterValue i |>
             <| ci_pos := iterPosNext |> in
  deleteSizedNext_loop (S (length (ci_iter i))) i.

(** What a positioning method returns. *)
Definition returned : Type := option (InternalKey * bytes).
Definition yield (i : compactionIter) : go (compactionIter * returned) :=
  Ret (i, Some (ci_key i, ci_value i)).

Definition closeValueCloser (i : compactionIter) : compactionIter * option error :=
  match ci_valueCloser i with
  | None => (i, None)
  | Some err =>
      let i := i <| ci_err := err |> <| ci_valueCloser := None |> in
      (match err with Some _ => i <| ci_valid := false |> | None => i end, err)
  end.

(** The case of a merge operand: the iterator and, unless the key is dropped, what is
    returned. *)
Definition next_merge (i : compactionIter) (key : InternalKey) : go (compactionIter * option returned) :=
  let origSnapshotIdx := ci_curSnapshotIdx i in
  let failed i e := Ret (i <| ci_err := Some e |> <| ci_valid := false |>, Some None) in
  match merge_New (UserKey key) (ci_iterValue i) with
  | Err e => failed i e
  | Ok valueMerger =>
      '(i, valueMerger, change) ← mergeNext i valueMerger;
      match ci_err i with
      | Some e => failed i e
      | None =>
          let kind := Kind (ci_key i) in
          if negb (is_set kind || (kind =? InternalKeyKindMerge)) then Panic "unexpected kind" else
          match finishValueMerger valueMerger (is_set kind) with
          | Err e => failed i e
          | Ok (value, needDelete, closer) =>
              let i := i <| ci_value := value |> <| ci_valueCloser := closer |> in
              if needDelete : bool then
                let '(i, err) := closeValueCloser (i <| ci_valid := false |>) in
                Ret (i, match err with Some _ => Some None | None => None end)
              else
                let i := if decide (change <> sameStripeNonSkippable)
                         then maybeZeroSeqnum i origSnapshotIdx else i in
                Ret (i, Some (Some (ci_key i, ci_value i)))
          end
      end
  end.

(** A tombstone in the last stripe that can be elided. *)
Definition next_elided (i : compactionIter) : go compactionIter :=
  i ← saveKey i;
  i ← (if (Kind (ci_key i) =? InternalKeyKindSingleDelete) then
         skipDueToSingleDeleteElision (S (length (ci_iter i))) i
       else
         i ← skipInStripe i;
         if negb (ci_skip i) && negb (bool_decide (ci_iterStripeChange i = newStripeNewKey))
         then Panic "pebble: skipInStripe in last stripe disabled skip without advancing to new key"
         else Ret i);
  if decide (ci_iterStripeChange i = newStripeSameKey)
  then Panic "pebble: skipInStripe in last stripe found a new stripe within the same key"
  else Ret i.

(** The loop of [Next]. *)
Fixpoint next_loop (fuel : nat) (i : compactionIter) : go (compactionIter * returned) :=
  match fuel with
  | O => Panic "out of fuel"
  | S fuel =>
      match ci_iterKey i with
      | None => Ret (i, None)
      | Some key =>
          let kind := Kind key in
          let i := i <| ci_snapshotPinned := bool_decide (ci_iterStripeChange i = newStripeSameKey) |> in
          if (kind =? InternalKeyKindRangeDelete) || IsRangeKey kind then
            i ← saveKey i;
            yield (i <| ci_snapshotPinned := false |> <| ci_value := ci_iterValue i |>
                     <| ci_valid := true |>)
          else
          cover ← Fragmenter_Covers (ci_rangeDelFrag i) key (ci_curSnapshotSeqNum i);
          match cover with
          | CoversVisibly =>
              i ← saveKey i;
              i ← skipInStripe i;
              next_loop fuel i
          | _ =>
              let i := match cover with
                       | CoversInvisibly =>
                           i <| ci_snapshotPinned := true |> <| ci_forceObsoleteDueToRangeDel := true |>
                       | _ => i <| ci_forceObsoleteDueToRangeDel := false |>
                       end in
              if is_tombstone kind then
                let elide := elideTombstone p (UserKey key) in
                if elide && (ci_curSnapshotIdx i =? 0)%nat then
                  i ← next_elided i;
                  next_loop fuel i
                else
                let i := if elide then i <| ci_snapshotPinned := true |> else i in
                if (kind =? InternalKeyKindDelete) then
                  i ← saveKey i;
                  yield (i <| ci_value := ci_iterValue i |> <| ci_valid := true |> <| ci_skip := true |>)
                else if (kind =? InternalKeyKindDeleteSized) then
                  '(i, ok) ← deleteSizedNext i;
                  if ok : bool then yield i else Ret (i, None)
                else
                  '(i, ok) ← singleDeleteNext i;
                  if ok : bool then yield i
                  else match ci_err i with
                       | Some _ => Ret (i, None)
                       | None => next_loop fuel i
                       end
              else if is_set kind then
                i ← setNext i;
                match ci_err i with
                | Some _ => Ret (i, None)
                | None => yield i
                end
              else if (kind =? InternalKeyKindMerge) then
                '(i, r) ← next_merge i key;
                match r with
                | Some r => Ret (i, r)
                | None => next_loop fuel i
                end
              else Ret (i <| ci_err := Some corruption |> <| ci_valid := false |>, None)
          end
      end
  end.

Definition Next (i : compactionIter) : go (compactionIter * returned) :=
  match ci_err i with
  | Some _ => Ret (i, None)
  | None =>
      let '(i, err) := closeValueCloser i in
      match err with
      | Some _ => Ret (i, None)
      | None =>
          i ←
            (if decide (ci_pos i = iterPosCurForward) then
               if ci_skip i then skipInStripe i
               else '(i, _) ← nextInStripe i; Ret i
             else if ci_skip i && negb (bool_decide (ci_iterStripeChange i = sameStripeNonSkippable))
             then Panic "compaction iterator has skip=true, but iterator is at iterPosNext"
             else Ret i);
          let i := i <| ci_pos := iterPosCurForward |> <| ci_valid := false |> in
          next_loop (S (S (length (ci_iter i)))) i
      end
  end.

Definition First (i : compactionIter) : go (compactionIter * returned) :=
  match ci_err i with
  | Some _ => Ret (i, None)
  | None =>
      let i := fetch i in
      match ci_err i with
      | Some _ => Ret (i, None)
      | None =>
          let i := match ci_iterKey i with Some key => set_snapshot i key | None => i end in
          Next (i <| ci_pos := iterPosNext |> <| ci_iterStripeChange := newStripeNewKey |>)
      end
  end.

(** [Close], where [err] is the error of closing the input. *)
Definition Close (i : compactionIter) (err : option error) : compactionIter * option error :=
  let i := match ci_err i with None => i <| ci_err := err |> | Some _ => i end in
  let i := match ci_valueCloser i with
           | None => i
           | Some e =>
               i <| ci_err := match ci_err i with Some err => Some err | None => e end |>
                 <| ci_valueCloser := None |>
           end in
  (i, ci_err i).

(** [emitRangeDelChunk]: of the keys of a fragment only the newest in each stripe is kept,
    and the one in the last stripe may be elided. *)
Fixpoint emit_loop (start end_ : bytes) (currentIdx : option nat) (keys : list Key) : list Key :=
  match keys with
  | [] => []
  | k :: keys =>
      let '(idx, _) := snapshotIndex (key_SeqNum k) (snapshots p) in
      if decide (currentIdx = Some idx) then emit_loop start end_ currentIdx keys
      else if (idx =? 0)%nat && elideRangeTombstone p start end_ then []
      else if (idx =? 0)%nat then [k]
      else k :: emit_loop start end_ (Some idx) keys
  end.
Definition emitRangeDelChunk (i : compactionIter) (fragmented : Span) : compactionIter :=
  match emit_loop (sp_Start fragmented) (sp_End fragmented) None (sp_Keys fragmented) with
  | [] => i
  | keys =>
      i <| ci_tombstones := ci_tombstones i ++
             [mkSpan (sp_Start fragmented) (sp_End fragmented) keys ByTrailerDesc] |>
  end.
Definition emitRangeKeyChunk (i : compactionIter) (fragmented : Span) : compactionIter :=
  match sp_Keys fragmented with
  | [] => i
  | _ => i <| ci_rangeKeys := ci_rangeKeys i ++ [fragmented] |>
  end.

(** Changing a fragmenter; [Emit] is called for the spans that it emits. *)
Definition with_rangeDelFrag (i : compactionIter) (f : Fragmenter) : compactionIter :=
  fold_left emitRangeDelChunk (drop (length (f_emitted (ci_rangeDelFrag i))) (f_emitted f))
    (i <| ci_rangeDelFrag := f |>).
Definition with_rangeKeyFrag (i : compactionIter) (f : Fragmenter) : compactionIter :=
  fold_left emitRangeKeyChunk (drop (length (f_emitted (ci_rangeKeyFrag i))) (f_emitted f))
    (i <| ci_rangeKeyFrag := f |>).

Context {S : Sort}.

(** [Tombstones] and [RangeKeys]: [None] is a nil key. *)
Definition flush_to (f : Fragmenter) (key : option bytes) : go Fragmenter :=
  match key with
  | None => Finish f
  | Some key => TruncateAndFlushTo f key
  end.
Definition Tombstones (i : compactionIter) (key : option bytes) : go (compactionIter * list Span) :=
  f ← flush_to (ci_rangeDelFrag i) key;
  let i := with_rangeDelFrag i f in
  Ret (i <| ci_tombstones := [] |>, ci_tombstones i).
Definition RangeKeys (i : compactionIter) (key : option bytes) : go (compactionIter * list Span) :=
  f ← flush_to (ci_rangeKeyFrag i) key;
  let i := with_rangeKeyFrag i f in
  Ret (i <| ci_rangeKeys := [] |>, ci_rangeKeys i).
End iter.
