(* ===== verification/CompactionStep.v ===== *)
(** What a compaction may do to the entries of a key.  First what a reader sees: the value of
    a user key from the point entries that are visible, newest first.  Two lists of entries
    are equivalent if they give the same value under any newer entries; the equivalences here
    are the rewritings compactions make.  Then snapshot stripes, and the steps of a
    compaction. *)
From S2P Require Import Prelude.
From S2P Require Import Comparer.
From S2P Require Import InternalKey.
From S2P Require Import GoStd.
From S2P Require Import Keyspan.
From S2P Require Import KeyspanSpec.
From S2P Require Import RangeKey.
From S2P Require Import Merger.
From S2P Require Import CompactionIter.
From Stdlib Require Import Sorted.

Local Open Scope Z_scope.

(** The kind and the value of an entry. *)
Definition op : Type := Z * bytes.

Section resolve.
Context {M : Merge} {ML : MergeLaws M} (key : bytes).

(** The operands of merges at the front of a list, with the value they end at. *)
Fixpoint operands (l : list op) : list bytes :=
  match l with
  | [] => []
  | (k, v) :: l =>
      if is_tombstone k then [] else if is_set k then [v] else v :: operands l
  end.
Definition resolve (l : list op) : option bytes :=
  match l with
  | [] => None
  | (k, v) :: l' =>
      if is_tombstone k then None
      else if is_set k then Some v
      else Some (merged key (v :: operands l') true)
  end.

(** The same value, whatever is newer. *)
Definition equiv (l1 l2 : list op) : Prop :=
  forall xs, resolve (xs ++ l1) = resolve (xs ++ l2).

#[export] Instance equiv_equivalence : Equivalence equiv.
Proof.
  split; [done|intros l1 l2 H xs; by rewrite H|intros l1 l2 l3 H1 H2 xs; by rewrite H1].
Qed.

Lemma equiv_app ys l1 l2 : equiv l1 l2 -> equiv (ys ++ l1) (ys ++ l2).
Proof. intros H xs. rewrite !app_assoc. apply H. Qed.

Lemma operands_app xs l :
  operands (xs ++ l) = operands xs ++ operands l \/ (forall l', operands (xs ++ l') = operands xs).
Proof.
  induction xs as [|[k v] xs IH]; [by left|]. simpl.
  destruct (is_tombstone k); [by right|]. destruct (is_set k); [by right|].
  destruct IH as [->|IH]; [by left|right]. intros l'. by rewrite IH.
Qed.

(** It is enough to look at the value and at the operands. *)
Lemma equiv_intro l1 l2 :
  resolve l1 = resolve l2 ->
  (forall os, os <> [] -> merged key (os ++ operands l1) true = merged key (os ++ operands l2) true) ->
  equiv l1 l2.
Proof.
  intros Hr Ho xs. destruct xs as [|[k v] xs]; [done|]. simpl.
  destruct (is_tombstone k); [done|]. destruct (is_set k); [done|]. f_equal.
  destruct (operands_app xs l1) as [E1|E1]; [|by rewrite !E1].
  destruct (operands_app xs l2) as [E2|E2]; [|by rewrite !E2].
  rewrite E1, E2. apply (Ho (v :: operands xs)). done.
Qed.

Lemma set_equiv k k' v r r' :
  is_tombstone k = false -> is_tombstone k' = false -> is_set k = true -> is_set k' = true ->
  equiv ((k, v) :: r) ((k', v) :: r').
Proof. intros Ht Ht' Hs Hs'. apply equiv_intro; simpl; by rewrite Ht, Ht', Hs, Hs'. Qed.

Lemma tombstone_equiv k k' v v' r r' :
  is_tombstone k = true -> is_tombstone k' = true -> equiv ((k, v) :: r) ((k', v') :: r').
Proof. intros Hk Hk'. apply equiv_intro; simpl; by rewrite Hk, Hk'. Qed.

Lemma tombstone_nil k v r : is_tombstone k = true -> equiv ((k, v) :: r) [].
Proof. intros Hk. apply equiv_intro; simpl; by rewrite Hk. Qed.

(** Merge operands. *)
Abbreviation merges os := ((fun v => (InternalKeyKindMerge, v)) <$> os).

Lemma operands_merges os r : operands (merges os ++ r) = os ++ operands r.
Proof. induction os as [|v os IH]; [done|]. simpl. by rewrite <- IH. Qed.

Lemma resolve_merges os r :
  os <> [] -> resolve (merges os ++ r) = Some (merged key (os ++ operands r) true).
Proof. destruct os as [|v os]; [done|]. intros _. simpl. by rewrite operands_merges. Qed.

Lemma merges_equiv os r :
  os <> [] -> equiv (merges os ++ r) ((InternalKeyKindMerge, merged key os false) :: r).
Proof.
  intros Hos. apply equiv_intro.
  - rewrite resolve_merges by done. simpl.
    rewrite <- (merged_assoc key [] os (operands r)) by done. done.
  - intros xs _. rewrite operands_merges. simpl. by rewrite merged_assoc.
Qed.

Lemma merges_set_equiv os k k' v r r' :
  os <> [] -> is_tombstone k = false -> is_set k = true -> is_tombstone k' = false -> is_set k' = true ->
  equiv (merges os ++ (k, v) :: r) ((k', merged key (os ++ [v]) true) :: r').
Proof.
  intros Hos Ht Hs Ht' Hs'.
  assert (operands ((k, v) :: r) = [v]) as E by (simpl; by rewrite Ht, Hs).
  assert (os ++ [v] <> []) by (by destruct os).
  apply equiv_intro.
  - rewrite resolve_merges, E by done. simpl. by rewrite Ht', Hs'.
  - intros xs _. rewrite operands_merges, E. simpl. rewrite Ht', Hs'. by rewrite merged_base.
Qed.

Lemma merges_tombstone_equiv os k k' v r r' :
  os <> [] -> is_tombstone k = true -> is_tombstone k' = false -> is_set k' = true ->
  equiv (merges os ++ (k, v) :: r) ((k', merged key os true) :: r').
Proof.
  intros Hos Ht Ht' Hs'.
  assert (operands ((k, v) :: r) = []) as E by (simpl; by rewrite Ht).
  apply equiv_intro.
  - rewrite resolve_merges, E, app_nil_r by done. simpl. by rewrite Ht', Hs'.
  - intros xs _. rewrite operands_merges, E, app_nil_r. simpl. rewrite Ht', Hs'. by rewrite merged_base.
Qed.

(** ** Single deletes *)

(** A single delete is used as documented: below the one entry it deletes there is
    nothing, or a tombstone. *)
Definition deleted (l : list op) : Prop :=
  match l with [] => True | (k, _) :: _ => is_tombstone k = true end.
Definition proper (l : list op) : Prop :=
  forall xs v x vx r,
    l = xs ++ (InternalKeyKindSingleDelete, v) :: (x, vx) :: r ->
    x = InternalKeyKindSet \/ x = InternalKeyKindMerge -> deleted r.

Lemma proper_suffix xs l : proper (xs ++ l) -> proper l.
Proof. intros H ys v x vx r -> Hx. apply (H (xs ++ ys) v x vx r); [by rewrite app_assoc|done]. Qed.

Lemma deleted_nil r : deleted r -> equiv r [].
Proof. destruct r as [|[k v] r]; [done|]. apply tombstone_nil. Qed.

(** A single delete and the entry it deletes disappear. *)
Lemma single_delete_equiv v x vx r :
  proper ((InternalKeyKindSingleDelete, v) :: (x, vx) :: r) ->
  x = InternalKeyKindSet \/ x = InternalKeyKindMerge ->
  equiv ((InternalKeyKindSingleDelete, v) :: (x, vx) :: r) r.
Proof.
  intros Hp Hx. transitivity (@nil op); [by apply tombstone_nil|].
  symmetry. apply deleted_nil. by apply (Hp [] v x vx r).
Qed.

(** Also after single deletes that had no effect. *)
Lemma single_deletes_equiv sds x vx r :
  sds <> [] -> Forall (fun o : op => fst o = InternalKeyKindSingleDelete) sds ->
  proper (sds ++ (x, vx) :: r) -> x = InternalKeyKindSet \/ x = InternalKeyKindMerge ->
  equiv (sds ++ (x, vx) :: r) r.
Proof.
  intros Hne Hsd Hp Hx. destruct (exists_last Hne) as (l & [k v] & ->).
  apply Forall_app in Hsd as [Hl [Hk _]%Forall_cons]. simpl in Hk. subst k.
  rewrite <- app_assoc in Hp |- *. apply proper_suffix in Hp.
  transitivity ((InternalKeyKindSingleDelete, v) :: (x, vx) :: r).
  - destruct l as [|[k0 v0] l]; [done|]. apply Forall_cons in Hl as [Hk0 _]. simpl in Hk0. subst k0.
    by apply tombstone_equiv.
  - by apply single_delete_equiv.
Qed.
End resolve.

(** * Snapshot stripes, and which entries of a compaction are visible in them. *)
(** The snapshots that readers use, and the one of readers without a snapshot. *)
Definition reader (snaps : list Z) (s : Z) : Prop := s ∈ snaps \/ s = InternalKeySeqNumMax.
Definition snaps_ok (snaps : list Z) : Prop :=
  StronglySorted Z.lt snaps /\ Forall (fun s => 0 < s < InternalKeySeqNumMax) snaps.

Section stripes.
Context (snaps : list Z) (Hsnaps : snaps_ok snaps).
Abbreviation idx q := (fst (snapshotIndex q snaps)).
Abbreviation bound q := (snd (snapshotIndex q snaps)).

Lemma snaps_lookup_lt i j x y : (i < j)%nat -> snaps !! i = Some x -> snaps !! j = Some y -> x < y.
Proof.
  intros Hij Hx Hy. destruct Hsnaps as [Hs _]. clear Hsnaps.
  revert i j Hij Hx Hy. induction Hs as [|z l Hs IH Hz]; intros i j Hij Hx Hy; [done|].
  destruct i as [|i], j as [|j]; simpl in *; try lia.
  - injection Hx as ->. rewrite Forall_forall in Hz. apply Hz. by eapply list_elem_of_lookup_2.
  - apply (IH i j); [lia|done..].
Qed.

Lemma snapshotIndex_spec q :
  (forall i x, snaps !! i = Some x -> (i < idx q)%nat <-> x <= q) /\
  (idx q <= length snaps)%nat /\
  bound q = match snaps !! idx q with Some x => x | None => InternalKeySeqNumMax end.
Proof.
  unfold snapshotIndex. set (f := fun i => q <? nth i snaps 0).
  destruct (sort_Search_spec (length snaps) f) as (H1 & H2 & H3).
  { intros x y Hxy. unfold f. rewrite !Z.ltb_lt. intros Hx.
    destruct (lookup_lt_is_Some_2 snaps x) as [vx Ex]; [lia|].
    destruct (lookup_lt_is_Some_2 snaps y) as [vy Ey]; [lia|].
    rewrite (nth_lookup_Some _ _ _ _ Ex) in Hx. rewrite (nth_lookup_Some _ _ _ _ Ey).
    destruct (decide (x = y)) as [->|]; [congruence|].
    pose proof (snaps_lookup_lt x y vx vy ltac:(lia) Ex Ey). lia. }
  set (r := sort_Search _ _) in *.
  assert (forall i x, snaps !! i = Some x -> (i < r)%nat <-> x <= q) as Hr.
  { intros i x Ex. assert (f i = (q <? x)) as Ef by (unfold f; by rewrite (nth_lookup_Some _ _ _ _ Ex)).
    pose proof (lookup_lt_Some _ _ _ Ex). split.
    - intros Hi. specialize (H2 i Hi). rewrite Ef in H2. lia.
    - intros Hx. destruct (decide (i < r)%nat); [done|]. specialize (H3 i ltac:(lia)).
      rewrite Ef in H3. lia. }
  destruct (Nat.leb_spec (length snaps) r); simpl.
  - rewrite (lookup_ge_None_2 snaps r) by lia. auto.
  - destruct (lookup_lt_is_Some_2 snaps r) as [x Ex]; [lia|]. rewrite Ex.
    by rewrite (nth_lookup_Some _ _ _ _ Ex).
Qed.

Lemma bound_reader q : reader snaps (bound q).
Proof.
  destruct (snapshotIndex_spec q) as (_ & _ & ->).
  destruct (snaps !! idx q) eqn:E; [left; by eapply list_elem_of_lookup_2|by right].
Qed.

Lemma bound_gt q : q < InternalKeySeqNumMax -> q < bound q.
Proof.
  intros Hq. destruct (snapshotIndex_spec q) as (H1 & _ & ->).
  destruct (snaps !! idx q) as [x|] eqn:E; [|done].
  pose proof (H1 _ _ E) as [_ H]. lia.
Qed.

(** A stripe is visible to a reader as a whole. *)
Lemma bound_visible q s : q < InternalKeySeqNumMax -> reader snaps s -> q < s <-> bound q <= s.
Proof.
  intros Hq Hs. pose proof (bound_gt q Hq) as Hgt. split; [|lia]. intros Hlt.
  destruct (snapshotIndex_spec q) as (H1 & _ & Hb). destruct Hs as [Hs| ->].
  - apply list_elem_of_lookup_1 in Hs as [i Hi]. pose proof (H1 i s Hi) as H.
    rewrite Hb. destruct (snaps !! idx q) as [x|] eqn:E.
    + destruct (decide (i = idx q)) as [->|]; [rewrite E in Hi; injection Hi as ->; lia|].
      destruct (decide (i < idx q)%nat); [lia|].
      pose proof (snaps_lookup_lt (idx q) i x s ltac:(lia) E Hi). lia.
    + apply lookup_ge_None_1 in E. pose proof (lookup_lt_Some _ _ _ Hi). lia.
  - rewrite Hb. destruct (snaps !! idx q) as [x|] eqn:E; [|done].
    destruct Hsnaps as [_ Hr]. rewrite Forall_forall in Hr.
    specialize (Hr x ltac:(by eapply list_elem_of_lookup_2)). lia.
Qed.

Lemma idx_bound q q' : idx q = idx q' -> bound q = bound q'.
Proof.
  intros E. destruct (snapshotIndex_spec q) as (_ & _ & ->).
  destruct (snapshotIndex_spec q') as (_ & _ & ->). by rewrite E.
Qed.

Lemma idx_mono q q' : q <= q' -> (idx q <= idx q')%nat.
Proof.
  intros Hq. destruct (snapshotIndex_spec q) as (H1 & H2 & _), (snapshotIndex_spec q') as (H1' & _ & _).
  destruct (decide (idx q <= idx q')%nat); [done|]. exfalso.
  destruct (lookup_lt_is_Some_2 snaps (idx q')) as [x Ex]; [lia|].
  pose proof (H1 _ _ Ex). pose proof (H1' _ _ Ex). lia.
Qed.

(** The last stripe is visible to every reader. *)
Lemma idx_0 q s : q < InternalKeySeqNumMax -> idx q = 0%nat -> reader snaps s -> q < s.
Proof.
  intros Hq H0 Hs. destruct Hs as [Hs| ->]; [|done].
  apply list_elem_of_lookup_1 in Hs as [i Hi].
  destruct (snapshotIndex_spec q) as (H1 & _ & _). pose proof (H1 i s Hi). lia.
Qed.

(** ** Visible entries *)
Context (T : bytes -> list Z).

(** An entry is dead for a reader if a tombstone that the reader sees is newer. *)
Definition dead (k : bytes) (s q : Z) : Prop := Exists (fun t => q < t < s) (T k).
#[export] Instance dead_dec k s q : Decision (dead k s q) := _.
Definition alive (k : bytes) (s : Z) (key : InternalKey) : Prop :=
  UserKey key = k /\ SeqNum key < s /\ ~ dead k s (SeqNum key).
#[export] Instance alive_dec k s key : Decision (alive k s key) := _.

(** It is covered if there is such a tombstone in its stripe. *)
Definition covered (key : InternalKey) : Prop :=
  dead (UserKey key) (bound (SeqNum key)) (SeqNum key).
#[export] Instance covered_dec key : Decision (covered key) := _.

Definition same_stripe (a b : InternalKey) : Prop :=
  UserKey a = UserKey b /\ idx (SeqNum a) = idx (SeqNum b).

Lemma covered_not_alive key k s :
  SeqNum key < InternalKeySeqNumMax -> reader snaps s -> covered key -> ~ alive k s key.
Proof.
  intros Hq Hs Hc (<- & Hlt & Hd). apply Hd. unfold covered, dead in *.
  apply bound_visible in Hlt; [|done..]. eapply Exists_impl; [exact Hc|]. simpl. lia.
Qed.

(** The entries of a stripe that are not covered are alive together. *)
Lemma alive_uniform a b k s :
  SeqNum a < InternalKeySeqNumMax -> SeqNum b < InternalKeySeqNumMax -> reader snaps s ->
  same_stripe a b -> ~ covered a -> ~ covered b -> alive k s a -> alive k s b.
Proof.
  intros Ha Hb Hs [Hu Hi] Hca Hcb (<- & Hlt & Hd). apply idx_bound in Hi.
  pose proof (bound_gt _ Ha). pose proof (bound_gt _ Hb).
  split_and!; [done| |].
  - apply bound_visible; [done..|]. rewrite <- Hi. by apply bound_visible.
  - intros (t & Ht & Hbt)%Exists_exists. apply Hd, Exists_exists. exists t. split; [done|].
    split; [|lia]. destruct (decide (t < bound (SeqNum b))); [|lia].
    exfalso. apply Hcb, Exists_exists. exists t. rewrite <- Hu. split; [done|lia].
Qed.

(** What is older in the stripe of an entry that is not alive is not alive. *)
Lemma not_alive_older a b k s :
  SeqNum a < InternalKeySeqNumMax -> reader snaps s ->
  same_stripe a b -> SeqNum b <= SeqNum a -> ~ alive k s a -> ~ alive k s b.
Proof.
  intros Ha Hs [Hu Hi] Hle Hna (<- & Hlt & Hd). apply Hna. apply idx_bound in Hi.
  split_and!; [done| |].
  - apply bound_visible; [done..|]. rewrite Hi. apply bound_visible; [lia|done..].
  - intros Hd'. apply Hd. unfold dead in *. eapply Exists_impl; [exact Hd'|]. simpl. lia.
Qed.

Lemma covered_older a b : same_stripe a b -> SeqNum b <= SeqNum a -> covered a -> covered b.
Proof.
  intros [Hu Hi] Hle Hc. unfold covered, dead in *. apply idx_bound in Hi.
  rewrite <- Hi, <- Hu. eapply Exists_impl; [exact Hc|]. simpl. lia.
Qed.
End stripes.

(** * Steps of a compaction: the entries that are left are replaced by entries that are
    written and fewer entries that are left, and no reader notices. *)
(** ** The input *)
Definition point (e : item) : Prop := is_point (Kind (it_key e)) = true.
#[export] Instance point_dec e : Decision (point e) := _.
Definition it_val (e : item) : bytes := match it_value e with Ok v => v | Err _ => [] end.
Definition item_op (e : item) : op := (Kind (it_key e), it_val e).
Abbreviation uk e := (UserKey (it_key e)).
Abbreviation sq e := (SeqNum (it_key e)).

(** The value of a sized tombstone is empty or a varint. *)
Definition delsized_ok (v : bytes) : Prop := v = [] \/ snd (Uvarint v) = Z.of_nat (length v).

Definition item_ok (e : item) : Prop :=
  0 <= Trailer (it_key e) < 2 ^ 64 /\ (exists v, it_value e = Ok v) /\
  ((point e /\ sq e < 2 ^ 55 /\ (Kind (it_key e) = InternalKeyKindDeleteSized -> delsized_ok (it_val e))) \/
   (Kind (it_key e) = InternalKeyKindRangeDelete /\ sq e < 2 ^ 55) \/
   IsRangeKey (Kind (it_key e)) = true).

(** Entries are in the order of internal keys.  Those of a user key have different sequence
    numbers, except that range deletions may share theirs with a point; a range key comes
    before the other entries of its start key. *)
Definition key_before {C : Comparer} (a b : InternalKey) : Prop :=
  InternalCompare a b = Lt /\
  (UserKey a = UserKey b ->
   IsRangeKey (Kind b) = false /\
   (SeqNum b < SeqNum a \/ Kind a = InternalKeyKindRangeDelete \/ Kind b = InternalKeyKindRangeDelete)).
Definition before {C : Comparer} (a b : item) : Prop := key_before (it_key a) (it_key b).
Definition items_ok {C : Comparer} (l : list item) : Prop :=
  StronglySorted before l /\ Forall item_ok l.

Lemma StronglySorted_app_iff {A} (R : A -> A -> Prop) l1 l2 :
  StronglySorted R (l1 ++ l2) <->
  StronglySorted R l1 /\ StronglySorted R l2 /\ Forall (fun x => Forall (R x) l2) l1.
Proof.
  induction l1 as [|x l1 IH]; simpl.
  - split; [intros H; split_and!; [constructor|done|constructor]|tauto].
  - split.
    + intros H. apply StronglySorted_inv in H as [H1 H2]. apply IH in H1 as (H1 & H3 & H4).
      apply Forall_app in H2 as [H2 H5]. split_and!; [by constructor|done|by constructor].
    + intros (H1 & H2 & H3). apply StronglySorted_inv in H1 as [H1 H4].
      apply Forall_cons in H3 as [H3 H5]. constructor; [by apply IH|by apply Forall_app].
Qed.

Lemma list_filter_ext_in {A} (P Q : A -> Prop) `{!forall x, Decision (P x), !forall x, Decision (Q x)} (l : list A) :
  (forall x, x ∈ l -> P x <-> Q x) -> filter P l = filter Q l.
Proof.
  induction l as [|x l IH]; intros Hl; [done|]. rewrite !filter_cons.
  assert (filter P l = filter Q l) as -> by (apply IH; intros y Hy; apply Hl; by right).
  pose proof (Hl x ltac:(left)). repeat case_decide; tauto.
Qed.

Lemma list_filter_none {A} (P : A -> Prop) `{!forall x, Decision (P x)} (l : list A) :
  (forall x, x ∈ l -> ~ P x) -> filter P l = [].
Proof.
  induction l as [|x l IH]; intros Hl; [done|]. rewrite filter_cons_False.
  - apply IH. intros y Hy. apply Hl. by right.
  - apply Hl. left.
Qed.

Section items.
Context {C : Comparer} {L : ComparerLaws C}.

Lemma items_ok_app l1 l2 : items_ok (l1 ++ l2) -> items_ok l1 /\ items_ok l2.
Proof.
  intros [Hs Hf]. apply StronglySorted_app_iff in Hs as (H1 & H2 & _). apply Forall_app in Hf as [H3 H4].
  done.
Qed.
Lemma items_ok_cons e l : items_ok (e :: l) -> item_ok e /\ items_ok l /\ Forall (before e) l.
Proof.
  intros [Hs Hf]. apply StronglySorted_inv in Hs as [H1 H2]. by apply Forall_cons in Hf as [H3 H4].
Qed.

Lemma before_seq a b :
  before a b -> uk a = uk b -> point a -> point b -> sq b < sq a.
Proof.
  intros [_ H] Hu Ha Hb. destruct (H Hu) as [_ [?|[E|E]]]; [done| |];
    unfold point in *; rewrite E in *; done.
Qed.

(** Older or equal, also with range deletions. *)
Lemma before_seq_le a b : key_before a b -> UserKey a = UserKey b -> SeqNum b <= SeqNum a.
Proof.
  intros [Hlt _] Hu. rewrite !SeqNum_eq. apply InternalCompare_lt in Hlt as [Hlt|[_ Hlt]].
  - by rewrite Hu, compare_refl in Hlt.
  - apply Z.div_le_mono; lia.
Qed.
End items.

(** ** What readers see *)
Section step.
Context {C : Comparer} {L : ComparerLaws C} {M : Merge} {ML : MergeLaws M}.
Context (snaps : list Z) (Hsnaps : snaps_ok snaps).
(** The sequence numbers of the range deletions that contain a user key, and the entries
    of a user key in the levels below the compaction. *)
Context (T : bytes -> list Z) (B : bytes -> list op).
Abbreviation idx q := (fst (snapshotIndex q snaps)).
Abbreviation covered := (covered snaps T).
Abbreviation same_stripe := (same_stripe snaps).

Definition live (k : bytes) (s : Z) (l : list item) : list op :=
  item_op <$> filter (fun e => point e /\ alive T k s (it_key e)) l.
Definition below (k : bytes) (s : Z) : list op :=
  if decide (Exists (fun t => t < s) (T k)) then [] else B k.

(** Entries that are written, with the internal key that they had. *)
Definition live_outs (k : bytes) (s : Z) (os : list (InternalKey * op)) : list op :=
  snd <$> filter (fun o => alive T k s (fst o)) os.

Definition step_ok (l : list item) (os : list (InternalKey * op)) (l' : list item) : Prop :=
  forall k s, reader snaps s -> proper (live k s l ++ below k s) ->
    equiv k (live k s l ++ below k s) (live_outs k s os ++ live k s l' ++ below k s) /\
    proper (live k s l' ++ below k s).

Lemma live_app k s l1 l2 : live k s (l1 ++ l2) = live k s l1 ++ live k s l2.
Proof. unfold live. by rewrite filter_app, fmap_app. Qed.
Lemma live_outs_app k s l1 l2 : live_outs k s (l1 ++ l2) = live_outs k s l1 ++ live_outs k s l2.
Proof. unfold live_outs. by rewrite filter_app, fmap_app. Qed.

Lemma step_ok_refl l : step_ok l [] l.
Proof. intros k s Hs Hp. split; [reflexivity|done]. Qed.
Lemma step_ok_trans l1 os1 l2 os2 l3 :
  step_ok l1 os1 l2 -> step_ok l2 os2 l3 -> step_ok l1 (os1 ++ os2) l3.
Proof.
  intros H1 H2 k s Hs Hp. destruct (H1 k s Hs Hp) as [E1 P1]. destruct (H2 k s Hs P1) as [E2 P2].
  split; [|done]. rewrite E1, live_outs_app, <- app_assoc. by apply equiv_app.
Qed.

(** The entries are left as they are seen. *)
Lemma step_ok_live l l' :
  (forall k s, reader snaps s -> live k s l' = live k s l) -> step_ok l [] l'.
Proof. intros H k s Hs Hp. rewrite H by done. split; [reflexivity|done]. Qed.

Lemma live_none k s l : Forall (fun e => point e -> ~ alive T k s (it_key e)) l -> live k s l = [].
Proof.
  intros H. unfold live. induction H as [|e l He _ IH]; [done|].
  rewrite filter_cons_False; [done|]. intros [Hp Ha]. by apply He.
Qed.

Lemma seq_max q : q < 2 ^ 55 -> q < InternalKeySeqNumMax.
Proof. unfold InternalKeySeqNumMax. rewrite Z.shiftl_mul_pow2 by lia. lia. Qed.
Lemma point_seq e : item_ok e -> point e -> sq e < InternalKeySeqNumMax.
Proof.
  intros (_ & _ & [(_ & H & _)|[[H _]|H]]) Hp; [by apply seq_max| |]; unfold point in Hp.
  - by rewrite H in Hp.
  - unfold IsRangeKey in H. apply orb_true_iff in H as [[H|H]%orb_true_iff|H];
      apply Z.eqb_eq in H; by rewrite H in Hp.
Qed.

(** ** Consuming entries of a stripe *)

(** [seg] are point entries of the stripe of [a]. *)
Definition segment (a : InternalKey) (seg : list item) : Prop :=
  Forall (fun e => point e /\ item_ok e /\ same_stripe a (it_key e)) seg.
Definition uncovered (seg : list item) : list item := filter (fun e => ~ covered (it_key e)) seg.

Lemma live_segment a seg e us k s :
  segment a seg -> uncovered seg = e :: us -> reader snaps s ->
  live k s seg = if decide (alive T k s (it_key e)) then item_op <$> (e :: us) else [].
Proof.
  intros Hseg Hu Hs.
  assert (e ∈ seg /\ ~ covered (it_key e)) as [Hin Hne].
  { assert (e ∈ uncovered seg) as H by (rewrite Hu; left).
    apply list_elem_of_filter in H. tauto. }
  unfold segment in Hseg. rewrite Forall_forall in Hseg.
  destruct (Hseg e Hin) as (Hpe & Hoke & Hse).
  assert (forall x, x ∈ seg -> point x /\ alive T k s (it_key x) <->
    alive T k s (it_key e) /\ ~ covered (it_key x)) as Hx.
  { intros x Hxin. destruct (Hseg x Hxin) as (Hpx & Hokx & Hsx).
    assert (same_stripe (it_key e) (it_key x)) as Hex by (unfold same_stripe in *; intuition congruence).
    assert (same_stripe (it_key x) (it_key e)) as Hxe by (unfold same_stripe in *; intuition congruence).
    pose proof (point_seq e Hoke Hpe). pose proof (point_seq x Hokx Hpx). split.
    - intros [_ Ha]. destruct (decide (covered (it_key x))) as [Hc|Hc].
      + by pose proof (covered_not_alive snaps Hsnaps T _ k s ltac:(done) Hs Hc).
      + split; [|done]. by apply (alive_uniform snaps Hsnaps T (it_key x) (it_key e)).
    - intros [Ha Hc]. split; [done|]. by apply (alive_uniform snaps Hsnaps T (it_key e) (it_key x)). }
  rewrite <- Hu. unfold live, uncovered. case_decide as Ha.
  - f_equal. apply list_filter_ext_in. intros x Hxin. rewrite (Hx x Hxin). tauto.
  - apply (live_none k s). apply Forall_forall. intros x Hxin Hp Hal.
    apply Ha. by apply (Hx x Hxin).
Qed.

Lemma live_other a seg k s : segment a seg -> k <> UserKey a -> live k s seg = [].
Proof.
  intros Hseg Hk. apply live_none. eapply Forall_impl; [exact Hseg|].
  intros e (_ & _ & [Hu _]) _ (Ha & _). congruence.
Qed.

Lemma live_covered a seg k s :
  segment a seg -> uncovered seg = [] -> reader snaps s -> live k s seg = [].
Proof.
  intros Hseg Hu Hs. apply live_none. apply Forall_forall. intros e He Hp.
  unfold segment in Hseg. rewrite Forall_forall in Hseg. destruct (Hseg e He) as (_ & Hok & _).
  apply covered_not_alive with snaps; [done|by apply point_seq|done|].
  destruct (decide (covered (it_key e))); [done|]. exfalso.
  assert (e ∈ uncovered seg) as H by (by apply list_elem_of_filter). rewrite Hu in H.
  by apply elem_of_nil in H.
Qed.

(** What is written for a segment: nothing, or one entry at the place of [e]. *)
Definition at_place (e : item) (o : option op) : list (InternalKey * op) :=
  match o with Some o => [(it_key e, o)] | None => [] end.
Lemma live_at_place k s e o :
  live_outs k s (at_place e o) = if decide (alive T k s (it_key e)) then option_list o else [].
Proof.
  destruct o as [o|]; simpl; unfold live_outs.
  - rewrite filter_cons. simpl. by case_decide.
  - by case_decide.
Qed.

(** Entries are replaced, whatever comes after them. *)
Lemma step_consume a seg e us o rest :
  segment a seg -> uncovered seg = e :: us ->
  (forall R, proper ((item_op <$> e :: us) ++ R) ->
    equiv (uk e) ((item_op <$> e :: us) ++ R) (option_list o ++ R)) ->
  step_ok (seg ++ rest) (at_place e o) rest.
Proof.
  intros Hseg Hu Ho k s Hs. rewrite live_app, (live_segment a seg e us) by done.
  rewrite live_at_place, <- !app_assoc. case_decide as Ha; [|by intros Hp; split; [reflexivity|]].
  intros Hp. split; [|by eapply proper_suffix]. destruct Ha as [<- _]. by apply Ho.
Qed.

(** The entries of a stripe are dropped. *)
Definition drop_stripe (a : InternalKey) (l : list item) : list item :=
  filter (fun e => ~ (point e /\ same_stripe a (it_key e))) l.
Definition in_stripe (a : InternalKey) (l : list item) : list item :=
  filter (fun e => point e /\ same_stripe a (it_key e)) l.

Lemma live_drop_other a l k s : k <> UserKey a -> live k s (drop_stripe a l) = live k s l.
Proof.
  intros Hk. unfold live, drop_stripe. f_equal. rewrite list_filter_filter.
  apply list_filter_ext_in. intros e _. split; [tauto|]. intros [Hp Ha]. split; [done|].
  intros [_ [Hu _]]. destruct Ha as [Ha _]. congruence.
Qed.

(** The entries of the stripe come first. *)
Lemma live_drop_split a l k s :
  items_ok l -> Forall (fun e => uk e = UserKey a -> sq e <= SeqNum a) l ->
  live k s l = live k s (in_stripe a l) ++ live k s (drop_stripe a l).
Proof.
  destruct (decide (k = UserKey a)) as [->|Hk].
  2: { intros _ _. rewrite (live_drop_other a l k s Hk).
       rewrite (live_none k s (in_stripe a l)); [done|]. apply Forall_forall.
       intros e [[_ [Hu _]] _]%list_elem_of_filter _ [Ha _]. congruence. }
  intros Hok Hle. induction l as [|e l IH]; [done|].
  apply items_ok_cons in Hok as (Hoke & Hok & Hb). apply Forall_cons in Hle as [Hle1 Hle].
  specialize (IH Hok Hle). rewrite !(live_app _ _ [e] l : live _ _ (e :: l) = _).
  unfold in_stripe, drop_stripe. rewrite !filter_cons. fold (in_stripe a l). fold (drop_stripe a l).
  destruct (decide (point e /\ same_stripe a (it_key e))) as [Hs|Hs].
  - rewrite decide_False by tauto. rewrite IH.
    by rewrite (live_app _ _ [e] (in_stripe a l) : live _ _ (e :: _) = _), app_assoc.
  - rewrite decide_True by tauto. rewrite IH.
    destruct (decide (point e /\ uk e = UserKey a)) as [[Hp Hu]|Hno].
    + (* older than the stripe *)
      rewrite (live_app _ _ [e] (drop_stripe a l) : live _ _ (e :: _) = _).
      assert (in_stripe a l = []) as ->; [|done].
      apply list_filter_none. rewrite Forall_forall in Hb, Hle.
      intros x Hx [Hpx [Hux Hix]]. specialize (Hb x Hx). specialize (Hle1 Hu).
      pose proof (before_seq e x Hb ltac:(congruence) Hp Hpx) as Hlt.
      apply Hs. split; [done|]. split; [done|].
      pose proof (idx_mono snaps Hsnaps _ _ Hle1). pose proof (idx_mono snaps Hsnaps (sq x) (sq e) ltac:(lia)).
      lia.
    + rewrite (live_app _ _ [e] (drop_stripe a l) : live _ _ (e :: _) = _).
      assert (live (UserKey a) s [e] = []) as ->; [|done].
      apply live_none. apply Forall_cons. split; [|constructor].
      intros Hp [Ha _]. tauto.
Qed.

(** The entries behind [e]. *)
Definition older (a : InternalKey) (l : list item) : Prop :=
  Forall (fun e => uk e = UserKey a -> sq e <= SeqNum a) l.
Lemma items_older seg rest e : items_ok (seg ++ rest) -> e ∈ seg -> older (it_key e) rest.
Proof.
  intros [Hs _] He. apply StronglySorted_app_iff in Hs as (_ & _ & Hb).
  rewrite Forall_forall in Hb. specialize (Hb e He). eapply Forall_impl; [exact Hb|].
  intros x Hx Hu. by apply before_seq_le.
Qed.
Lemma uncovered_in seg e us : uncovered seg = e :: us -> e ∈ seg /\ ~ covered (it_key e).
Proof.
  intros Hu. assert (e ∈ uncovered seg) as H by (rewrite Hu; left).
  apply list_elem_of_filter in H. tauto.
Qed.

Lemma live_in_stripe_dead a l k s :
  SeqNum a < InternalKeySeqNumMax -> reader snaps s -> older a l -> ~ alive T k s a ->
  live k s (in_stripe a l) = [].
Proof.
  intros Hq Hs Hle Ha. apply live_none. apply Forall_forall.
  intros x [[Hp Hst] Hx]%list_elem_of_filter _.
  unfold older in Hle. rewrite Forall_forall in Hle.
  apply (not_alive_older snaps Hsnaps T a (it_key x)); [done..| |done].
  apply Hle; [done|]. symmetry. apply Hst.
Qed.

Lemma segment_e seg e us a : segment a seg -> uncovered seg = e :: us ->
  item_ok e /\ point e /\ same_stripe a (it_key e).
Proof.
  intros Hseg Hu. destruct (uncovered_in seg e us Hu) as [He _].
  unfold segment in Hseg. rewrite Forall_forall in Hseg. destruct (Hseg e He) as (? & ? & ?). done.
Qed.

(** An entry is written that hides the rest of the stripe. *)
Lemma step_absorb seg e us o rest :
  items_ok (seg ++ rest) -> segment (it_key e) seg -> uncovered seg = e :: us ->
  (forall R R', equiv (uk e) ((item_op <$> e :: us) ++ R) (o :: R')) ->
  step_ok (seg ++ rest) [(it_key e, o)] (drop_stripe (it_key e) rest).
Proof.
  intros Hok Hseg Hu Ho k s Hs.
  destruct (segment_e _ _ _ _ Hseg Hu) as (Hoke & Hpe & _).
  destruct (uncovered_in _ _ _ Hu) as [Hin _].
  pose proof (items_older _ _ _ Hok Hin) as Hold. apply items_ok_app in Hok as [_ Hok].
  rewrite live_app, (live_segment _ _ _ _ _ _ Hseg Hu Hs).
  change [(it_key e, o)] with (at_place e (Some o)). rewrite live_at_place.
  rewrite (live_drop_split (it_key e) rest k s Hok Hold).
  case_decide as Ha.
  - rewrite <- !app_assoc. intros Hp. split.
    + destruct Ha as [<- _]. apply Ho.
    + eapply proper_suffix, proper_suffix. exact Hp.
  - rewrite (live_in_stripe_dead _ _ _ _ (point_seq _ Hoke Hpe) Hs Hold Ha). simpl.
    intros Hp. split; [reflexivity|done].
Qed.

Lemma last_stripe_empty a l k s :
  idx (SeqNum a) = 0%nat -> older a l -> k = UserKey a -> live k s (drop_stripe a l) = [].
Proof.
  intros H0 Hold ->. apply live_none. apply Forall_forall.
  intros x [Hd Hx]%list_elem_of_filter Hp [Hu _]. apply Hd. split; [done|]. split; [done|].
  unfold older in Hold. rewrite Forall_forall in Hold. specialize (Hold x Hx Hu).
  pose proof (idx_mono snaps Hsnaps _ _ Hold). lia.
Qed.

(** Tombstones in the last stripe are dropped with what they hide, if there is nothing
    below. *)
Lemma step_elide seg e us rest :
  items_ok (seg ++ rest) -> segment (it_key e) seg -> uncovered seg = e :: us ->
  idx (sq e) = 0%nat -> B (uk e) = [] ->
  (forall R, equiv (uk e) ((item_op <$> e :: us) ++ R) []) ->
  step_ok (seg ++ rest) [] (drop_stripe (it_key e) rest).
Proof.
  intros Hok Hseg Hu H0 HB Ho k s Hs.
  destruct (segment_e _ _ _ _ Hseg Hu) as (Hoke & Hpe & _).
  destruct (uncovered_in _ _ _ Hu) as [Hin _].
  pose proof (items_older _ _ _ Hok Hin) as Hold. apply items_ok_app in Hok as [_ Hok].
  rewrite live_app, (live_segment _ _ _ _ _ _ Hseg Hu Hs).
  rewrite (live_drop_split (it_key e) rest k s Hok Hold).
  case_decide as Ha.
  - destruct Ha as [<- _]. rewrite (last_stripe_empty _ _ _ _ H0 Hold eq_refl).
    assert (below (uk e) s = []) as -> by (unfold below; rewrite HB; by case_decide).
    rewrite <- !app_assoc. intros Hp. split; [apply Ho|]. by intros [|] v x vx r.
  - rewrite (live_in_stripe_dead _ _ _ _ (point_seq _ Hoke Hpe) Hs Hold Ha). simpl.
    intros Hp. split; [reflexivity|done].
Qed.

(** Entries that are covered are dropped. *)
Lemma step_covered e rest :
  items_ok (e :: rest) -> point e -> covered (it_key e) ->
  step_ok (e :: rest) [] (drop_stripe (it_key e) rest).
Proof.
  intros Hok Hp Hc. pose proof (items_older [e] rest e Hok ltac:(left)) as Hold.
  apply items_ok_cons in Hok as (Hoke & Hok & Hb). apply step_ok_live. intros k s Hs.
  rewrite (live_app k s [e] rest : live k s (e :: rest) = _), (live_drop_split (it_key e) rest k s Hok Hold).
  assert (segment (it_key e) (e :: in_stripe (it_key e) rest)) as Hseg.
  { apply Forall_cons. split; [done|]. apply Forall_forall.
    intros x [[Hpx Hsx] Hx]%list_elem_of_filter. split_and!; [done| |done].
    destruct Hok as [_ Hf]. rewrite Forall_forall in Hf. auto. }
  rewrite app_assoc, <- live_app, (live_covered (it_key e) ([e] ++ _)); [done|exact Hseg| |done].
  apply list_filter_none. intros x Hx Hn. apply Hn.
  unfold segment in Hseg. rewrite Forall_forall in Hseg. destruct (Hseg x Hx) as (_ & _ & Hst).
  apply (covered_older snaps Hsnaps T (it_key e)); [done| |done].
  apply elem_of_cons in Hx as [->|Hx]; [done|].
  unfold older in Hold. rewrite Forall_forall in Hold. apply Hold; [|symmetry; apply Hst].
  by apply list_elem_of_filter in Hx as [_ ?].
Qed.

(** Dropping a stripe again. *)
Lemma drop_stripe_segment a seg l : segment a seg -> drop_stripe a (seg ++ l) = drop_stripe a l.
Proof.
  intros Hseg. unfold drop_stripe. rewrite filter_app.
  rewrite (list_filter_none _ seg); [done|]. intros x Hx Hn. apply Hn.
  unfold segment in Hseg. rewrite Forall_forall in Hseg. by destruct (Hseg x Hx) as (? & _ & ?).
Qed.
Lemma drop_stripe_same a b l : same_stripe a b -> drop_stripe a l = drop_stripe b l.
Proof.
  intros [Hu Hi]. apply list_filter_ext_in. intros x _. unfold same_stripe. rewrite Hu, Hi. done.
Qed.
Lemma drop_stripe_none a l : Forall (fun e => point e -> ~ same_stripe a (it_key e)) l -> drop_stripe a l = l.
Proof.
  intros H. unfold drop_stripe. induction H as [|e l He _ IH]; [done|].
  rewrite filter_cons_True by tauto. by rewrite IH.
Qed.
End step.
