(* ===== verification/CompactionNext.v ===== *)
(** The methods of the compaction iterator that advance it within a snapshot stripe. *)
From S2P Require Import Prelude.
From S2P Require Import Comparer.
From S2P Require Import InternalKey.
From S2P Require Import Keyspan.
From S2P Require Import RangeKey.
From S2P Require Import Merger.
From S2P Require Import CompactionIter.
From S2P Require Import CompactionStep.
From Stdlib Require Import Sorted.

Local Open Scope Z_scope.

(** ** States *)

(** The entry the iterator is at. *)
Definition cur (i : compactionIter) : list item :=
  match ci_iterKey i with
  | Some k => [mkItem k (Ok (ci_iterValue i)) (ci_iterSpan i)]
  | None => []
  end.

(** Only the position in the input differs. *)
Definition erase (i : compactionIter) : compactionIter :=
  i <| ci_iter := [] |> <| ci_iterKey := None |> <| ci_iterValue := [] |> <| ci_iterSpan := nil_span |>
    <| ci_err := None |> <| ci_iterStripeChange := newStripeNewKey |> <| ci_curSnapshotIdx := 0%nat |>
    <| ci_curSnapshotSeqNum := 0 |>.
Definition moved (i i' : compactionIter) : Prop := erase i = erase i'.
#[export] Instance moved_equivalence : Equivalence moved.
Proof. unfold moved. split; congruence. Qed.

Section moved.
Context (i i' : compactionIter) (H : moved i i').
Lemma moved_key : ci_key i' = ci_key i. Proof. symmetry. exact (f_equal ci_key H). Qed.
Lemma moved_keyTrailer : ci_keyTrailer i' = ci_keyTrailer i.
Proof. symmetry. exact (f_equal ci_keyTrailer H). Qed.
Lemma moved_value : ci_value i' = ci_value i. Proof. symmetry. exact (f_equal ci_value H). Qed.
Lemma moved_closer : ci_valueCloser i' = ci_valueCloser i.
Proof. symmetry. exact (f_equal ci_valueCloser H). Qed.
Lemma moved_skip : ci_skip i' = ci_skip i. Proof. symmetry. exact (f_equal ci_skip H). Qed.
Lemma moved_pos : ci_pos i' = ci_pos i. Proof. symmetry. exact (f_equal ci_pos H). Qed.
Lemma moved_frag : ci_rangeDelFrag i' = ci_rangeDelFrag i.
Proof. symmetry. exact (f_equal ci_rangeDelFrag H). Qed.
Lemma moved_spans :
  ci_rangeKeyFrag i' = ci_rangeKeyFrag i /\ ci_tombstones i' = ci_tombstones i /\
  ci_rangeKeys i' = ci_rangeKeys i.
Proof.
  split_and!; symmetry;
    [exact (f_equal ci_rangeKeyFrag H)|exact (f_equal ci_tombstones H)|exact (f_equal ci_rangeKeys H)].
Qed.
End moved.

Section next.
Context {C : Comparer} {L : ComparerLaws C} {M : Merge} (p : params).
Context (Hsnaps : snaps_ok (snapshots p)) (T : bytes -> list Z).
Abbreviation idx q := (fst (snapshotIndex q (snapshots p))).
Abbreviation bound q := (snd (snapshotIndex q (snapshots p))).
Abbreviation covered := (covered (snapshots p) T).
Abbreviation same_stripe := (same_stripe (snapshots p)).
Abbreviation segment := (segment (snapshots p)).
Abbreviation uncovered := (uncovered (snapshots p) T).
Abbreviation drop_stripe := (drop_stripe (snapshots p)).

(** The fragmenter knows which points are covered, up to the next range deletion. *)
Definition covers_ok (f : Fragmenter) (l : list item) : Prop :=
  forall l1 e l2, l = l1 ++ e :: l2 ->
    Forall (fun x => Kind (it_key x) <> InternalKeyKindRangeDelete) l1 -> point e ->
    exists c, Fragmenter_Covers f (it_key e) (bound (sq e)) = Ret c /\ (c = CoversVisibly <-> covered (it_key e)).

Lemma covers_ok_cons f x l :
  covers_ok f (x :: l) -> Kind (it_key x) <> InternalKeyKindRangeDelete -> covers_ok f l.
Proof.
  intros H Hx l1 e l2 -> Hl1 He. apply (H (x :: l1) e l2); [done|by constructor|done].
Qed.
Lemma covers_ok_app f l1 l2 :
  covers_ok f (l1 ++ l2) -> Forall (fun x => Kind (it_key x) <> InternalKeyKindRangeDelete) l1 ->
  covers_ok f l2.
Proof.
  induction l1 as [|x l1 IH]; intros H Hl; [done|]. apply Forall_cons in Hl as [Hx Hl].
  apply IH; [|done]. by eapply covers_ok_cons.
Qed.
Lemma point_not_rangedel e : point e -> Kind (it_key e) <> InternalKeyKindRangeDelete.
Proof. intros Hp E. unfold point in Hp. by rewrite E in Hp. Qed.
Lemma segment_not_rangedel a seg :
  segment a seg -> Forall (fun x => Kind (it_key x) <> InternalKeyKindRangeDelete) seg.
Proof. intros H. eapply Forall_impl; [exact H|]. intros x (Hp & _). by apply point_not_rangedel. Qed.

(** The iterator is behind the entry [a], whose key it has saved. *)
Record behind (a : InternalKey) (i : compactionIter) : Prop := {
  bh_err : ci_err i = None;
  bh_items : items_ok (ci_iter i);
  bh_key : UserKey (ci_key i) = UserKey a;
  bh_kind : Kind a = InternalKeyKindRangeDelete -> Kind (ci_key i) = InternalKeyKindRangeDelete;
  bh_trailer : ci_keyTrailer i = Trailer a;
  bh_idx : ci_curSnapshotIdx i = idx (SeqNum a);
  bh_range : 0 <= Trailer a;
  bh_follows : Forall (fun e => key_before a (it_key e)) (ci_iter i);
}.
Definition covers (i : compactionIter) : Prop := covers_ok (ci_rangeDelFrag i) (ci_iter i).

Definition change_ok (a : InternalKey) (change : stripeChangeType) (l : list item) : Prop :=
  match change, l with
  | newStripeNewKey, [] => True
  | newStripeNewKey, [e] => uk e <> UserKey a
  | newStripeSameKey, [e] => uk e = UserKey a /\ idx (sq e) <> idx (SeqNum a)
  | sameStripeNonSkippable, [e] =>
      Kind (it_key e) = InternalKeyKindRangeDelete /\ same_stripe a (it_key e)
  | sameStripeSkippable, [e] => point e /\ same_stripe a (it_key e) /\ ~ covered (it_key e)
  | _, _ => False
  end.

(** The iterator is at the entry [cur i]. *)
Record at_entry (i : compactionIter) : Prop := {
  ae_err : ci_err i = None;
  ae_end : cur i = [] -> ci_iter i = [];
  ae_idx e : cur i = [e] -> ci_curSnapshotIdx i = idx (sq e) /\ ci_curSnapshotSeqNum i = bound (sq e);
}.

Lemma not_covered_kinds e :
  item_ok e -> ~ point e -> Kind (it_key e) <> InternalKeyKindRangeDelete ->
  IsRangeKey (Kind (it_key e)) = true.
Proof. intros (_ & _ & [[? _]|[[? _]|?]]); tauto. Qed.

(** The state after taking an entry. *)
Definition goto (i : compactionIter) (e : item) (l : list item) : compactionIter :=
  i <| ci_iter := l |> <| ci_iterSpan := it_span e |> <| ci_iterKey := Some (it_key e) |>
    <| ci_iterValue := it_val e |> <| ci_err := None |>.
Lemma iterNext_cons i e l : ci_iter i = e :: l -> item_ok e -> iterNext i = (goto i e l, true).
Proof.
  intros El (_ & [v Hv] & _). unfold iterNext, fetch, goto, it_val. rewrite El, Hv. done.
Qed.
Definition at_end (i : compactionIter) : compactionIter :=
  i <| ci_iterKey := None |> <| ci_iterValue := [] |> <| ci_err := None |>.
Lemma iterNext_nil i : ci_iter i = [] -> iterNext i = (at_end i, false).
Proof. intros El. unfold iterNext, fetch. by rewrite El. Qed.

Lemma item_eta e : item_ok e -> mkItem (it_key e) (Ok (it_val e)) (it_span e) = e.
Proof. intros (_ & [v Hv] & _). unfold it_val. destruct e; simpl in *. by rewrite Hv. Qed.
Definition on (i : compactionIter) (e : item) (l : list item) : compactionIter :=
  set_snapshot p (goto i e l) (it_key e).
Lemma on_eq i e l :
  on i e l = (goto i e l) <| ci_curSnapshotIdx := idx (sq e) |> <| ci_curSnapshotSeqNum := bound (sq e) |>.
Proof. unfold on, set_snapshot. by destruct (snapshotIndex (sq e) (snapshots p)). Qed.
Lemma on_ok i e l :
  item_ok e -> moved i (on i e l) /\ cur (on i e l) = [e] /\ ci_iter (on i e l) = l /\ at_entry (on i e l).
Proof.
  intros Hok. rewrite on_eq. pose proof (item_eta e Hok) as He.
  assert (forall j b, cur ((goto i e l) <| ci_curSnapshotIdx := j |> <| ci_curSnapshotSeqNum := b |>) = [e])
    as Hcur by (intros; unfold cur; simpl; by rewrite He).
  split; [done|]. split; [apply Hcur|]. split; [done|]. split; [done| |].
  - by rewrite Hcur.
  - intros e'. rewrite Hcur. intros [= <-]. done.
Qed.

Lemma kind_cases e :
  item_ok e -> IsRangeKey (Kind (it_key e)) = false ->
  Kind (it_key e) = InternalKeyKindRangeDelete \/
  (point e /\ Kind (it_key e) <> InternalKeyKindRangeDelete /\ Kind (it_key e) <> InternalKeyKindInvalid).
Proof.
  intros (_ & _ & [[Hp _]|[[? _]|?]]) Hr; [right|by left|congruence].
  split; [done|]. split; [by apply point_not_rangedel|].
  intros E. unfold point in Hp. by rewrite E in Hp.
Qed.

Lemma behind_moved a i i' :
  behind a i -> moved i i' -> ci_err i' = None -> ci_curSnapshotIdx i' = idx (SeqNum a) ->
  forall l, ci_iter i = l ++ ci_iter i' -> behind a i'.
Proof.
  intros [] Hm He Hx l El. split; try done.
  - rewrite El in bh_items0. by apply items_ok_app in bh_items0 as [_ ?].
  - by rewrite (moved_key _ _ Hm).
  - by rewrite (moved_key _ _ Hm).
  - by rewrite (moved_keyTrailer _ _ Hm).
  - rewrite El in bh_follows0. by apply Forall_app in bh_follows0 as [_ ?].
Qed.
Lemma covers_moved a i i' l :
  covers i -> moved i i' -> ci_iter i = l ++ ci_iter i' -> segment a l -> covers i'.
Proof.
  unfold covers. intros Hc Hm El Hl. rewrite (moved_frag _ _ Hm). rewrite El in Hc.
  eapply covers_ok_app; [exact Hc|]. by eapply segment_not_rangedel.
Qed.

(** The check of the order of entries does not fail. *)
Lemma in_order_check a i e :
  behind a i -> 0 <= Trailer (it_key e) -> key_before a (it_key e) -> uk e = UserKey a ->
  (((SeqNumFromTrailer (ci_keyTrailer i) =? 0) || (SeqNumFromTrailer (ci_keyTrailer i) <=? sq e)) &&
   negb (Kind (ci_key i) =? InternalKeyKindRangeDelete) &&
   negb (Kind (it_key e) =? InternalKeyKindRangeDelete)) = false.
Proof.
  intros Hb Hte Hfo Hu. destruct Hfo as [_ Hfo]. destruct (Hfo (eq_sym Hu)) as [_ [Hlt|[E|E]]].
  - rewrite (bh_trailer _ _ Hb). change (SeqNumFromTrailer (Trailer a)) with (SeqNum a).
    assert (0 <= sq e) by (rewrite SeqNum_eq; apply Z.div_pos; lia).
    destruct (Z.eqb_spec (SeqNum a) 0); [lia|]. by destruct (Z.leb_spec (SeqNum a) (sq e)); [lia|].
  - rewrite (bh_kind _ _ Hb E), Z.eqb_refl. by rewrite andb_false_r.
  - rewrite E, Z.eqb_refl. by rewrite andb_false_r.
Qed.

Lemma nextInStripeHelper_ok a fuel : forall i,
  behind a i -> covers i -> (length (ci_iter i) < fuel)%nat ->
  exists i' change skipped,
    nextInStripeHelper p fuel (idx (SeqNum a)) i = Ret (i', change) /\
    ci_iter i = skipped ++ cur i' ++ ci_iter i' /\
    segment a skipped /\ Forall (fun e => covered (it_key e)) skipped /\
    moved i i' /\ at_entry i' /\ change_ok a change (cur i').
Proof.
  induction fuel as [|fuel IH]; intros i Hb Hcv Hf; [lia|].
  cbn [nextInStripeHelper]. destruct (ci_iter i) as [|e l] eqn:El.
  { rewrite iterNext_nil by done. exists (at_end i), newStripeNewKey, [].
    assert (ci_iter (at_end i) = []) as El' by done.
    split; [done|]. split; [by rewrite El'|]. split; [constructor|]. split; [constructor|].
    split; [done|]. split; [split; [done|by rewrite El'|done]|done]. }
  pose proof (bh_items _ _ Hb) as Hok. rewrite El in Hok. apply items_ok_cons in Hok as (Hoke & Hok & Hbe).
  pose proof (bh_follows _ _ Hb) as Hfo. rewrite El in Hfo. apply Forall_cons in Hfo as [Hfe Hfo].
  rewrite (iterNext_cons i e l El Hoke). cbn [negb].
  change (ci_iterKey (goto i e l)) with (Some (it_key e)).
  change (ci_key (goto i e l)) with (ci_key i). change (ci_keyTrailer (goto i e l)) with (ci_keyTrailer i).
  cbv zeta. change (set_snapshot p (goto i e l) (it_key e)) with (on i e l).
  destruct (on_ok i e l Hoke) as (Hm & Hcur & Hit & Hat).
  assert (forall change, change_ok a change [e] ->
    exists i' change' skipped, Ret (on i e l, change) = Ret (i', change') /\
      e :: l = skipped ++ cur i' ++ ci_iter i' /\
      segment a skipped /\ Forall (fun e => covered (it_key e)) skipped /\
      moved i i' /\ at_entry i' /\ change_ok a change' (cur i')) as Hstop.
  { intros change Hch. exists (on i e l), change, []. rewrite Hcur, Hit.
    split_and!; try done; constructor. }
  rewrite (bh_key _ _ Hb). destruct (Equal (UserKey a) (uk e)) eqn:Eeq; cbn [negb].
  2: { apply Hstop. simpl. intros Hu. assert (Equal (UserKey a) (uk e) = true) as E; [|congruence].
       apply equal_spec. by rewrite Hu, compare_refl. }
  apply equal_spec, compare_eq in Eeq.
  rewrite (in_order_check a i e) by (done || apply Hoke).
  cbv zeta. change (set_snapshot p (goto i e l) (it_key e)) with (on i e l).
  destruct (ae_idx _ Hat e Hcur) as [Hidx Hbound]. rewrite Hidx, Hbound.
  destruct Hfe as [_ Hfe]. destruct (Hfe Eeq) as [Hrk _].
  destruct (kind_cases e Hoke Hrk) as [Ek|(Hp & Hk1 & Hk2)].
  { rewrite Ek, Z.eqb_refl. apply Hstop. destruct (Nat.eqb_spec (idx (sq e)) (idx (SeqNum a))); simpl; done. }
  rewrite (proj2 (Z.eqb_neq _ _) Hk1), Hrk, (proj2 (Z.eqb_neq _ _) Hk2), Hp.
  destruct (Nat.eqb_spec (idx (sq e)) (idx (SeqNum a))) as [Ei|Ei]; [|by apply Hstop].
  rewrite (moved_frag _ _ Hm).
  destruct (Hcv [] e l El (Forall_nil_2 _) Hp) as (c & -> & Hc). rewrite bind_Ret.
  assert (same_stripe a (it_key e)) as Hst by (split; [done|by rewrite Ei]).
  assert (c <> CoversVisibly -> ~ covered (it_key e)) as Hn by tauto.
  destruct c; [apply Hstop; simpl; split_and!; [done..|by apply Hn]..|].
  - assert (behind a (on i e l)) as Hb'.
    { apply (behind_moved a i _ Hb Hm (ae_err _ Hat) ltac:(by rewrite Hidx) [e]).
      by rewrite Hit. }
    assert (segment a [e]) as Hseg1 by (constructor; [done|constructor]).
    destruct (IH (on i e l) Hb') as (i' & change & sk & E & E2 & H1 & H2 & H3 & H4 & H5).
    { apply (covers_moved a i _ [e]); [done|done|by rewrite Hit|done]. }
    { rewrite Hit. simpl in Hf. lia. }
    exists i', change, (e :: sk). rewrite Hit in E2. split; [done|]. split; [by rewrite E2|].
    split_and!; [by constructor|constructor; [by apply Hc|done]|by etransitivity|done..].
Qed.

Lemma nextInStripe_ok a i :
  behind a i -> covers i ->
  exists i' change skipped,
    nextInStripe p i = Ret (i', change) /\ ci_iterStripeChange i' = change /\
    ci_iter i = skipped ++ cur i' ++ ci_iter i' /\
    segment a skipped /\ Forall (fun e => covered (it_key e)) skipped /\
    moved i i' /\ at_entry i' /\ change_ok a change (cur i').
Proof.
  intros Hb Hcv. unfold nextInStripe. rewrite (bh_idx _ _ Hb).
  destruct (nextInStripeHelper_ok a (S (length (ci_iter i))) i Hb Hcv ltac:(lia))
    as (i' & change & sk & -> & H1 & H2 & H3 & H4 & H5 & H6).
  rewrite bind_Ret. exists (i' <| ci_iterStripeChange := change |>), change, sk.
  split_and!; try done. destruct H5. by split.
Qed.

(** ** Skipping *)

(** The rest of the input is not in the stripe of [a]. *)
Lemma beyond_stripe a l e l' :
  items_ok l -> Forall (fun e => key_before a (it_key e)) l ->
  l = e :: l' -> ~ same_stripe a (it_key e) ->
  Forall (fun x => ~ same_stripe a (it_key x)) l.
Proof.
  intros Hok Hfo -> Hn. apply items_ok_cons in Hok as (Hoke & Hok & Hb).
  apply Forall_cons in Hfo as [Hfe Hfo]. apply Forall_cons. split; [done|].
  rewrite Forall_forall in Hb, Hfo |- *. intros x Hx [Hu Hi]. apply Hn.
  pose proof (Hb x Hx) as Hbx. pose proof (Hfo x Hx) as Hax.
  assert (uk e = UserKey a) as Hue.
  { destruct Hfe as [Hae _]. destruct Hbx as [Hex _].
    apply InternalCompare_lt in Hae as [Hae|[? _]]; [|done].
    apply InternalCompare_lt in Hex as [Hex|[? _]]; [|congruence].
    pose proof (compare_trans _ _ _ Hae Hex) as H. by rewrite Hu, compare_refl in H. }
  split; [done|].
  pose proof (before_seq_le _ _ Hfe ltac:(congruence)) as H1.
  pose proof (before_seq_le _ _ Hbx ltac:(congruence)) as H2.
  apply (idx_mono _ Hsnaps) in H1, H2. lia.
Qed.

(** The iterator is at an entry that is to be processed; if the stripe is to be skipped, it
    is a range deletion that interrupts the skipping. *)
Record top (i : compactionIter) : Prop := {
  tp_at : at_entry i;
  tp_items : items_ok (cur i ++ ci_iter i);
  tp_skip : ci_skip i = true ->
    exists e, cur i = [e] /\ Kind (it_key e) = InternalKeyKindRangeDelete;
}.
Definition left_top (i : compactionIter) : list item :=
  match cur i with
  | [] => []
  | e :: _ => e :: (if ci_skip i then drop_stripe (it_key e) (ci_iter i) else ci_iter i)
  end.

Lemma skip_loop_ok a fuel : forall i,
  behind a i -> covers i -> (length (ci_iter i) < fuel)%nat ->
  exists i' seg,
    skip_loop p fuel i = Ret i' /\ ci_iter i = seg ++ cur i' ++ ci_iter i' /\ segment a seg /\
    moved i i' /\ at_entry i' /\ ci_iterStripeChange i' <> sameStripeSkippable /\
    change_ok a (ci_iterStripeChange i') (cur i').
Proof.
  induction fuel as [|fuel IH]; intros i Hb Hcv Hf; [lia|]. cbn [skip_loop].
  destruct (nextInStripe_ok a i Hb Hcv) as (i1 & change & sk & -> & Hch & E & Hsk & _ & Hm & Hat & Hco).
  rewrite bind_Ret. case_decide as Hc.
  - rewrite (ae_err _ Hat), Hc in *. destruct (cur i1) as [|e [|]] eqn:Ecur; try done.
    destruct Hco as (Hp & Hst & _).
    assert (item_ok e) as Hoke.
    { pose proof (bh_items _ _ Hb) as [_ Hok]. rewrite E in Hok.
      by apply Forall_app in Hok as [_ [Hok _]%Forall_cons]. }
    assert (segment a (sk ++ [e])) as Hseg.
    { apply Forall_app. split; [done|]. apply Forall_cons. split; [done|constructor]. }
    destruct (IH i1) as (i2 & seg & E2 & E3 & H1 & H2 & H3 & H4 & H5).
    { apply (behind_moved a i i1 Hb Hm (ae_err _ Hat)) with (l := sk ++ [e]).
      - rewrite (proj1 (ae_idx _ Hat e Ecur)). symmetry. apply Hst.
      - by rewrite E, <- app_assoc. }
    { apply (covers_moved a i i1 (sk ++ [e])); [done|done|by rewrite E, <- app_assoc|done]. }
    { rewrite E, !length_app in Hf. simpl in Hf. lia. }
    exists i2, ((sk ++ [e]) ++ seg). split; [done|].
    split; [rewrite E, E3, <- !app_assoc; done|].
    split_and!; [by apply Forall_app|by etransitivity|done..].
  - exists i1, sk. rewrite Hch. done.
Qed.

Lemma drop_stripe_rest a e l :
  items_ok (e :: l) -> Forall (fun x => key_before a (it_key x)) (e :: l) ->
  ~ (point e /\ same_stripe a (it_key e)) ->
  drop_stripe a (e :: l) = e :: (if decide (same_stripe a (it_key e)) then drop_stripe (it_key e) l else l).
Proof.
  intros Hok Hfo Hn. case_decide as Hst.
  - unfold CompactionStep.drop_stripe at 1. rewrite filter_cons_True by done. f_equal.
    by apply drop_stripe_same.
  - apply drop_stripe_none. eapply Forall_impl; [by apply (beyond_stripe a (e :: l) e l)|].
    simpl. tauto.
Qed.

Lemma skipInStripe_ok a i :
  behind a i -> covers i ->
  exists i',
    skipInStripe p i = Ret i' /\ moved (i <| ci_skip := ci_skip i' |>) i' /\ top i' /\
    left_top i' = drop_stripe a (ci_iter i) /\
    (exists seg, ci_iter i = seg ++ cur i' ++ ci_iter i' /\ segment a seg) /\
    change_ok a (ci_iterStripeChange i') (cur i') /\
    ci_skip i' = negb (new_stripe (ci_iterStripeChange i')) /\
    ci_iterStripeChange i' <> sameStripeSkippable.
Proof.
  intros Hb Hcv. unfold skipInStripe.
  assert (behind a (i <| ci_skip := true |>)) as Hb' by (destruct Hb; by split).
  destruct (skip_loop_ok a (S (length (ci_iter i))) _ Hb' Hcv ltac:(simpl; lia))
    as (i1 & seg & E & E1 & Hseg & Hm & Hat & Hc & Hco).
  change (ci_iter (i <| ci_skip := true |>)) with (ci_iter i) in *. rewrite E, bind_Ret.
  pose proof (moved_skip _ _ Hm) as Hskip. change (ci_skip (i <| ci_skip := true |>)) with true in Hskip.
  set (b := negb (new_stripe (ci_iterStripeChange i1))).
  assert ((if new_stripe (ci_iterStripeChange i1) then i1 <| ci_skip := false |> else i1) =
    i1 <| ci_skip := b |>) as ->.
  { unfold b. destruct (new_stripe _); [done|]. destruct i1; simpl in *. by subst. }
  exists (i1 <| ci_skip := b |>).
  change (cur (i1 <| ci_skip := b |>)) with (cur i1).
  change (ci_iter (i1 <| ci_skip := b |>)) with (ci_iter i1).
  change (ci_iterStripeChange (i1 <| ci_skip := b |>)) with (ci_iterStripeChange i1).
  change (ci_skip (i1 <| ci_skip := b |>)) with b.
  pose proof (bh_items _ _ Hb) as Hok. rewrite E1 in Hok. apply items_ok_app in Hok as [_ Hok].
  pose proof (bh_follows _ _ Hb) as Hfo. rewrite E1 in Hfo. apply Forall_app in Hfo as [_ Hfo].
  split; [done|]. split; [unfold moved in *; exact (f_equal (fun i => i <| ci_skip := b |>) Hm)|].
  split.
  { split; [by destruct Hat|done|].
    change (cur (i1 <| ci_skip := b |>)) with (cur i1). simpl. unfold b.
    destruct (ci_iterStripeChange i1), (cur i1) as [|e [|]]; try done. intros _. exists e. by destruct Hco. }
  split; [|split; [by exists seg|done]].
  unfold left_top. change (cur (i1 <| ci_skip := b |>)) with (cur i1).
  change (ci_iter (i1 <| ci_skip := b |>)) with (ci_iter i1).
  change (ci_skip (i1 <| ci_skip := b |>)) with b.
  rewrite E1, drop_stripe_segment by done.
  pose proof (ae_end _ Hat) as Hend. destruct (cur i1) as [|e [|]] eqn:Ecur.
  - by rewrite Hend.
  - simpl in Hok, Hfo |- *. rewrite drop_stripe_rest; [|done..|].
    + f_equal. unfold b. destruct (ci_iterStripeChange i1); simpl in *; try done.
      * rewrite decide_False; [done|]. intros [? _]. congruence.
      * rewrite decide_False; [done|]. intros [? ?]. destruct Hco. congruence.
      * by rewrite decide_True by (apply Hco).
    + intros [Hp Hst]. destruct (ci_iterStripeChange i1); simpl in *; try done.
      * destruct Hst. congruence.
      * destruct Hst, Hco. congruence.
      * destruct Hco as [Hk _]. by apply point_not_rangedel in Hp.
  - by destruct (ci_iterStripeChange i1).
Qed.
End next.
