(* ===== verification/CompactionOps.v ===== *)
(** The cases of [Next] of the compaction iterator: what each kind of point key consumes
    and returns. *)
From S2P Require Import Prelude.
From S2P Require Import Comparer.
From S2P Require Import InternalKey.
From S2P Require Import Keyspan.
From S2P Require Import RangeKey.
From S2P Require Import Merger.
From S2P Require Import CompactionIter.
From S2P Require Import CompactionStep.
From S2P Require Import CompactionNext.
From Stdlib Require Import Sorted.

Local Open Scope Z_scope.

(** ** Changing parts of an internal key *)
Lemma ik_eta (k : InternalKey) : mkInternalKey (UserKey k) (Trailer k) = k.
Proof. by destruct k. Qed.
Lemma SeqNum_SetKind k kind : 0 <= kind < 256 -> SeqNum (SetKind k kind) = SeqNum k.
Proof.
  intros Hk. unfold SeqNum, SetKind. simpl. rewrite Z.shiftr_lor, Z.shiftr_ldiff.
  change (Z.shiftr 255 8) with 0. rewrite Z.ldiff_0_r.
  rewrite (Z.shiftr_div_pow2 kind), (Z.div_small kind), Z.lor_0_r by lia. done.
Qed.
Lemma Kind_SetKind k kind : 0 <= kind < 256 -> Kind (SetKind k kind) = kind.
Proof.
  intros Hk. unfold Kind, TrailerKind, SetKind. simpl. rewrite Z.land_lor_distr_l.
  rewrite Z.land_ldiff, Z.lor_0_l, (land_255 kind), (Z.mod_small kind) by lia.
  by apply Z.mod_small.
Qed.
Lemma Kind_range k : 0 <= Kind k < 256.
Proof. rewrite Kind_eq. apply Z.mod_pos_bound. lia. Qed.
Lemma SetSeqNum_zero k : SeqNum (SetSeqNum k SeqNumZero) = 0 /\ Kind (SetSeqNum k SeqNumZero) = Kind k.
Proof.
  unfold SetSeqNum, SeqNumZero. change (u64 (Z.shiftl 0 8)) with 0. rewrite Z.lor_0_l, land_255.
  pose proof (Z.mod_pos_bound (Trailer k) 256 ltac:(lia)). rewrite SeqNum_eq, !Kind_eq. simpl.
  rewrite Z.div_small, Z.mod_mod by lia. done.
Qed.

Section ops.
Context {C : Comparer} {L : ComparerLaws C} {M : Merge} {ML : MergeLaws M} (p : params).
Context (Hsnaps : snaps_ok (snapshots p)) (T : bytes -> list Z) (B : bytes -> list op).
Abbreviation idx q := (fst (snapshotIndex q (snapshots p))).
Abbreviation bound q := (snd (snapshotIndex q (snapshots p))).
Abbreviation covered := (covered (snapshots p) T).
Abbreviation same_stripe := (same_stripe (snapshots p)).
Abbreviation segment := (segment (snapshots p)).
Abbreviation uncovered := (uncovered (snapshots p) T).
Abbreviation drop_stripe := (drop_stripe (snapshots p)).
Abbreviation covers_ok := (covers_ok p T).
Abbreviation covers := (covers p T).
Abbreviation behind := (behind p).
Abbreviation top := (top p).
Abbreviation at_entry := (at_entry p).
Abbreviation change_ok := (change_ok p T).
Abbreviation step_ok := (step_ok (snapshots p) T B).

(** ** States between two calls *)

(** The entry whose key is saved. *)
Definition ctx (i : compactionIter) : InternalKey := mkInternalKey (UserKey (ci_key i)) (ci_keyTrailer i).
(** The entries that have not been processed, and those of them that count. *)
Definition pending (i : compactionIter) : list item :=
  match ci_pos i with iterPosCurForward => ci_iter i | iterPosNext => cur i ++ ci_iter i end.
Definition anchor (i : compactionIter) : InternalKey :=
  match ci_pos i, ci_iterKey i with iterPosNext, Some k => k | _, _ => ctx i end.
Definition remaining (i : compactionIter) : list item :=
  if ci_skip i then drop_stripe (anchor i) (pending i) else pending i.

Record ready (i : compactionIter) : Prop := {
  rd_closer : ci_valueCloser i = None \/ ci_valueCloser i = Some None;
  rd_cur : ci_pos i = iterPosCurForward -> behind (ctx i) i;
  rd_next : ci_pos i = iterPosNext ->
    top i /\ (ci_skip i = true -> ci_iterStripeChange i = sameStripeNonSkippable);
}.

(** What the methods leave to the caller. *)
Record kept (i i' : compactionIter) : Prop := {
  kp_frag : ci_rangeDelFrag i' = ci_rangeDelFrag i;
  kp_keyFrag : ci_rangeKeyFrag i' = ci_rangeKeyFrag i;
  kp_tombstones : ci_tombstones i' = ci_tombstones i;
  kp_rangeKeys : ci_rangeKeys i' = ci_rangeKeys i;
}.
Lemma kept_refl i : kept i i. Proof. done. Qed.
Lemma kept_trans i1 i2 i3 : kept i1 i2 -> kept i2 i3 -> kept i1 i3.
Proof. intros [] []. split; congruence. Qed.
Lemma kept_moved i i' : moved i i' -> kept i i'.
Proof.
  intros H. destruct (moved_spans _ _ H) as (? & ? & ?). split; [by apply moved_frag|done..].
Qed.

(** An entry that is returned in the place of [e]. *)
Definition emits (e : item) (key : InternalKey) : Prop :=
  UserKey key = uk e /\ is_point (Kind key) = true /\
  (SeqNum key = sq e \/ SeqNum key = 0 /\ allowZeroSeqNum p = true /\ idx (sq e) = 0%nat).

(** ** Saving the key *)
Definition saved (i : compactionIter) (e : item) : compactionIter :=
  i <| ci_key := it_key e |> <| ci_keyTrailer := Trailer (it_key e) |>.

Lemma cur_iterKey i e : cur i = [e] -> ci_iterKey i = Some (it_key e) /\ it_val e = ci_iterValue i.
Proof. unfold cur. destruct (ci_iterKey i) as [k|]; [|done]. by intros [= <-]. Qed.
Lemma saveKey_ok i e : cur i = [e] -> saveKey i = Ret (saved i e).
Proof. intros Hc. unfold saveKey. by rewrite (proj1 (cur_iterKey i e Hc)). Qed.

Lemma behind_saved i e : top i -> cur i = [e] -> behind (it_key e) (saved i e).
Proof.
  intros [Hat Hok _] Hc. rewrite Hc in Hok. apply items_ok_cons in Hok as (Hoke & Hok & Hb).
  split; try done.
  - apply Hat.
  - apply (ae_idx _ _ Hat e Hc).
  - apply Hoke.
Qed.

(** The fields that matter do not change. *)
Lemma behind_ext a i i' :
  behind a i -> ci_err i' = ci_err i -> ci_iter i' = ci_iter i -> UserKey (ci_key i') = UserKey (ci_key i) ->
  Kind a <> InternalKeyKindRangeDelete -> ci_keyTrailer i' = ci_keyTrailer i ->
  ci_curSnapshotIdx i' = ci_curSnapshotIdx i -> behind a i'.
Proof. intros [] H1 H2 H3 H4 H5 H6. split; congruence. Qed.

Lemma covers_top i e :
  covers_ok (ci_rangeDelFrag i) (cur i ++ ci_iter i) -> cur i = [e] -> point e ->
  covers_ok (ci_rangeDelFrag i) (ci_iter i).
Proof.
  intros Hc Hcur Hp. rewrite Hcur in Hc. eapply covers_ok_cons; [exact Hc|]. by apply point_not_rangedel.
Qed.

(** The place where a method that looks for the end of the stripe stops. *)
Lemma stop_at_entry a i i' l :
  behind a i -> ci_iter i = l ++ cur i' ++ ci_iter i' -> segment a l -> at_entry i' ->
  change_ok a (ci_iterStripeChange i') (cur i') ->
  ci_iterStripeChange i' <> sameStripeSkippable ->
  items_ok (cur i' ++ ci_iter i') /\
  match cur i' with
  | e :: _ => (ci_iterStripeChange i' = sameStripeNonSkippable /\
      Kind (it_key e) = InternalKeyKindRangeDelete /\
      drop_stripe a (cur i' ++ ci_iter i') = drop_stripe (it_key e) (cur i' ++ ci_iter i')) \/
      (new_stripe (ci_iterStripeChange i') = true /\
       drop_stripe a (cur i' ++ ci_iter i') = cur i' ++ ci_iter i')
  | [] => ci_iter i' = [] /\ new_stripe (ci_iterStripeChange i') = true
  end.
Proof.
  intros Hb E Hl Hat Hco Hc.
  pose proof (bh_items _ _ _ Hb) as Hok. rewrite E in Hok. apply items_ok_app in Hok as [_ Hok].
  pose proof (bh_follows _ _ _ Hb) as Hfo. rewrite E in Hfo. apply Forall_app in Hfo as [_ Hfo].
  split; [done|]. pose proof (ae_end _ _ Hat) as Hend.
  destruct (cur i') as [|e [|]] eqn:Ecur.
  { split; [auto|]. by destruct (ci_iterStripeChange i'). }
  2: { by destruct (ci_iterStripeChange i'). }
  simpl in Hok, Hfo |- *. destruct (ci_iterStripeChange i'); simpl in Hco; try done.
  - right. split; [done|]. rewrite (drop_stripe_rest p Hsnaps a); [|done..|intros [_ [? _]]; congruence].
    rewrite decide_False; [done|]. intros [? _]. congruence.
  - right. split; [done|]. destruct Hco as [Hu Hi].
    rewrite (drop_stripe_rest p Hsnaps a); [|done..|intros [_ [_ ?]]; congruence].
    rewrite decide_False; [done|]. intros [_ ?]. congruence.
  - left. destruct Hco as [Hk Hst]. split_and!; [done..|]. by apply drop_stripe_same.
Qed.

Lemma ctx_behind a i : behind a i -> ctx i = a.
Proof. intros []. unfold ctx. by rewrite bh_key, bh_trailer, ik_eta. Qed.

(** The two ways to stop: ahead of the next entry, and on the last one that was used. *)
Lemma ready_ahead a i i' l j :
  behind a i -> ci_iter i = l ++ cur i' ++ ci_iter i' -> segment a l -> at_entry i' ->
  change_ok a (ci_iterStripeChange i') (cur i') -> ci_iterStripeChange i' <> sameStripeSkippable ->
  cur j = cur i' /\ ci_iter j = ci_iter i' /\ ci_err j = None /\
    ci_curSnapshotIdx j = ci_curSnapshotIdx i' /\ ci_curSnapshotSeqNum j = ci_curSnapshotSeqNum i' /\
    ci_iterStripeChange j = ci_iterStripeChange i' ->
  (ci_valueCloser j = None \/ ci_valueCloser j = Some None) -> ci_pos j = iterPosNext ->
  (ci_skip j = true -> ci_iterStripeChange i' = sameStripeNonSkippable) ->
  ready j /\ pending j = cur i' ++ ci_iter i' /\
  (ci_skip j = negb (new_stripe (ci_iterStripeChange i')) -> remaining j = drop_stripe a (pending j)).
Proof.
  intros Hb E Hl Hat Hco Hc (J1 & J2 & J3 & J4 & J5 & J6) Hcl Hpos Hskip.
  destruct (stop_at_entry a i i' l Hb E Hl Hat Hco Hc) as [Hok Hcase].
  assert (pending j = cur i' ++ ci_iter i') as Hpend by (unfold pending; by rewrite Hpos, J1, J2).
  split; [|split; [done|]].
  - split; [done|by rewrite Hpos|]. intros _. split; [|by rewrite J6]. split.
    + split; [done|rewrite J1, J2; apply Hat|]. intros e. rewrite J1, J4, J5. apply Hat.
    + by rewrite J1, J2.
    + intros Hsk. specialize (Hskip Hsk). rewrite J1.
      destruct (cur i') as [|e [|]]; rewrite Hskip in Hco; try done. exists e. split; [done|apply Hco].
  - unfold remaining. rewrite Hpend. intros ->.
    destruct (cur i') as [|e l'] eqn:Ecur.
    + destruct Hcase as [-> ->]. done.
    + destruct Hcase as [(Hch & Hk & ->)|[-> ->]]; [|done]. rewrite Hch. simpl.
      unfold anchor. rewrite Hpos. assert (ci_iterKey j = Some (it_key e)) as ->; [|done].
      assert (cur j = e :: l') as Ej by done. unfold cur in Ej.
      destruct (ci_iterKey j); [|done]. injection Ej as <- _. done.
Qed.

Lemma ready_behind a j :
  behind a j -> (ci_valueCloser j = None \/ ci_valueCloser j = Some None) ->
  ci_pos j = iterPosCurForward -> ci_skip j = true ->
  ready j /\ pending j = ci_iter j /\ remaining j = drop_stripe a (pending j).
Proof.
  intros Hb Hcl Hpos Hskip. pose proof (ctx_behind a j Hb) as Hctx.
  split; [split; [done|by rewrite Hctx|by rewrite Hpos]|].
  split; [unfold pending; by rewrite Hpos|].
  unfold remaining, anchor. by rewrite Hskip, Hpos, Hctx.
Qed.

(** [nextInStripe], and what holds when it finds an entry that may be skipped. *)
Record advance (a : InternalKey) (i i1 : compactionIter) (sk : list item) : Prop := {
  av_moved : moved i i1;
  av_at : at_entry i1;
  av_seg : segment a sk;
  av_covered : Forall (fun e => covered (it_key e)) sk;
  av_iter : ci_iter i = sk ++ cur i1 ++ ci_iter i1;
  av_change : change_ok a (ci_iterStripeChange i1) (cur i1);
}.
Record found (a : InternalKey) (i i1 : compactionIter) (sk : list item) (e : item) : Prop := {
  fo_cur : cur i1 = [e];
  fo_key : ci_iterKey i1 = Some (it_key e);
  fo_val : ci_iterValue i1 = it_val e;
  fo_point : point e;
  fo_ok : item_ok e;
  fo_stripe : same_stripe a (it_key e);
  fo_uncovered : ~ covered (it_key e);
  fo_behind : behind a i1;
  fo_covers : covers i1;
  fo_seg : segment a (sk ++ [e]);
  fo_iter : ci_iter i = (sk ++ [e]) ++ ci_iter i1;
}.
Lemma next_cases a i :
  behind a i -> covers i ->
  exists i1 sk,
    nextInStripe p i = Ret (i1, ci_iterStripeChange i1) /\ advance a i i1 sk /\
    (ci_iterStripeChange i1 = sameStripeSkippable -> exists e, found a i i1 sk e).
Proof.
  intros Hb Hcv.
  destruct (nextInStripe_ok p T a i Hb Hcv) as (i1 & change & sk & -> & Hch & E & Hsk & Hskc & Hm & Hat & Hco).
  exists i1, sk. rewrite Hch. split; [done|]. split; [by split; rewrite ?Hch|]. intros ->.
  destruct (cur i1) as [|e [|]] eqn:Ecur; try done. destruct Hco as (Hp & Hst & Hnc).
  assert (item_ok e) as Hoke.
  { pose proof (bh_items _ _ _ Hb) as [_ Hok]. rewrite E in Hok.
    by apply Forall_app in Hok as [_ [Hok _]%Forall_cons]. }
  assert (segment a (sk ++ [e])) as Hseg.
  { apply Forall_app. split; [done|]. apply Forall_cons. split; [done|constructor]. }
  assert (ci_iter i = (sk ++ [e]) ++ ci_iter i1) as E' by (by rewrite E, <- app_assoc).
  destruct (cur_iterKey i1 e Ecur) as [Hk Hv].
  exists e. split; try done.
  - apply (behind_moved p a i i1 Hb Hm (ae_err _ _ Hat)) with (l := sk ++ [e]); [|done].
    rewrite (proj1 (ae_idx _ _ Hat e Ecur)). symmetry. apply Hst.
  - by apply (covers_moved p T a i i1 (sk ++ [e])).
Qed.

(** [j] is [i1] with other fields changed than those that say where the iterator is. *)
Definition same_place (i1 j : compactionIter) : Prop :=
  cur j = cur i1 /\ ci_iter j = ci_iter i1 /\ ci_err j = ci_err i1 /\
  ci_curSnapshotIdx j = ci_curSnapshotIdx i1 /\ ci_curSnapshotSeqNum j = ci_curSnapshotSeqNum i1 /\
  ci_iterStripeChange j = ci_iterStripeChange i1.
Definition closer_ok (i : compactionIter) : Prop :=
  ci_valueCloser i = None \/ ci_valueCloser i = Some None.

Lemma advance_ahead a i i1 sk j :
  behind a i -> advance a i i1 sk -> ci_iterStripeChange i1 <> sameStripeSkippable ->
  same_place i1 j -> closer_ok j -> ci_pos j = iterPosNext ->
  (ci_skip j = true -> ci_iterStripeChange i1 = sameStripeNonSkippable) ->
  ready j /\ pending j = cur i1 ++ ci_iter i1 /\
  (ci_skip j = negb (new_stripe (ci_iterStripeChange i1)) -> remaining j = drop_stripe a (pending j)).
Proof.
  intros Hb [] Hns (J1 & J2 & J3 & J4 & J5 & J6) Hcl Hpos Hskip.
  apply (ready_ahead a i i1 sk j); try done. split_and!; try done. rewrite J3. apply av_at0.
Qed.

(** ** Sets *)
Lemma setNext_loop_ok a fuel : forall i,
  behind a i -> covers i -> Kind a <> InternalKeyKindRangeDelete ->
  ci_skip i = false -> ci_pos i = iterPosCurForward -> closer_ok i -> (length (ci_iter i) < fuel)%nat ->
  exists i' seg,
    setNext_loop p fuel i = Ret i' /\ ci_err i' = None /\ kept i i' /\ ready i' /\
    ci_iter i = seg ++ pending i' /\ segment a seg /\ remaining i' = drop_stripe a (pending i') /\
    ci_value i' = ci_value i /\
    (ci_key i' = ci_key i \/ ci_key i' = SetKind (ci_key i) InternalKeyKindSetWithDelete).
Proof.
  induction fuel as [|fuel IH]; intros i Hb Hcv Ha Hskip Hpos Hcl Hf; [lia|]. cbn [setNext_loop].
  destruct (next_cases a i Hb Hcv) as (i1 & sk & -> & Hav & Hfound). rewrite bind_Ret.
  pose proof (av_moved _ _ _ _ Hav) as Hm. pose proof (av_at _ _ _ _ Hav) as Hat.
  assert (forall j, ci_iterStripeChange i1 <> sameStripeSkippable -> same_place i1 j ->
    ci_valueCloser j = ci_valueCloser i1 -> ci_pos j = iterPosNext -> kept i1 j -> ci_value j = ci_value i1 ->
    ci_key j = ci_key i1 \/ ci_key j = SetKind (ci_key i1) InternalKeyKindSetWithDelete ->
    ci_skip j = negb (new_stripe (ci_iterStripeChange i1)) ->
    exists i' seg,
      Ret j = Ret i' /\ ci_err i' = None /\ kept i i' /\ ready i' /\
      ci_iter i = seg ++ pending i' /\ segment a seg /\ remaining i' = drop_stripe a (pending i') /\
      ci_value i' = ci_value i /\
      (ci_key i' = ci_key i \/ ci_key i' = SetKind (ci_key i) InternalKeyKindSetWithDelete)) as Hstop.
  { intros j Hns J Jc Jp Jk Jv Jkey Jsk.
    destruct (advance_ahead a i i1 sk j Hb Hav Hns J) as (R1 & R2 & R3); [|done| |].
    { unfold closer_ok. by rewrite Jc, (moved_closer _ _ Hm). }
    { rewrite Jsk. by destruct (ci_iterStripeChange i1). }
    exists j, sk. rewrite R2, Jv, (moved_value _ _ Hm), <- (moved_key _ _ Hm).
    split_and!; try done; [|by eapply kept_trans; [apply kept_moved|]|apply Hav|apply Hav|by rewrite <- R2; auto].
    destruct J as (_ & _ & -> & _). apply Hat. }
  destruct (ci_iterStripeChange i1) eqn:Ech.
  - apply Hstop; try done; [by left|simpl; by rewrite (moved_skip _ _ Hm)].
  - apply Hstop; try done; [by left|simpl; by rewrite (moved_skip _ _ Hm)].
  - destruct (Hfound eq_refl) as (e & [Fcur Fkey Fval Fp Fok Fst Fnc Fb Fcv Fseg Fit]). rewrite Fkey.
    destruct (is_tombstone (Kind (it_key e))) eqn:Et.
    + set (j := (set_kind i1 InternalKeyKindSetWithDelete) <| ci_skip := true |>).
      assert (behind a j) as Hbj by (by apply (behind_ext a i1)).
      destruct (ready_behind a j Hbj) as (R1 & R2 & R3); [|by rewrite <- Hpos, <- (moved_pos _ _ Hm)|done|].
      { change (ci_valueCloser j) with (ci_valueCloser i1). by rewrite (moved_closer _ _ Hm). }
      exists j, (sk ++ [e]). rewrite R3, R2. split_and!; try done.
      * apply Hat.
      * by eapply kept_trans; [by apply kept_moved|].
      * exact (moved_value _ _ Hm).
      * right. unfold j. simpl. by rewrite (moved_key _ _ Hm).
    + assert (is_set (Kind (it_key e)) || (Kind (it_key e) =? InternalKeyKindMerge) = true) as ->.
      { unfold point, is_point in Fp. by rewrite Et in Fp. }
      destruct (IH i1 Fb Fcv Ha) as (i2 & seg & E2 & H1 & H2 & H3 & H4 & H5 & H6 & H7 & H8).
      { by rewrite (moved_skip _ _ Hm). }
      { by rewrite (moved_pos _ _ Hm). }
      { unfold closer_ok. by rewrite (moved_closer _ _ Hm). }
      { rewrite Fit, !length_app in Hf. simpl in Hf. lia. }
      exists i2, ((sk ++ [e]) ++ seg). rewrite <- app_assoc, <- H4, <- (moved_value _ _ Hm), <- (moved_key _ _ Hm).
      split_and!; try done; [by eapply kept_trans; [apply kept_moved|]|by apply Forall_app].
  - apply Hstop; try done. by right.
Qed.

(** ** Results *)

(** The iterator is at a point that is not covered. *)
Record at_point (i : compactionIter) (e : item) : Prop := {
  ap_top : top i;
  ap_cur : cur i = [e];
  ap_skip : ci_skip i = false;
  ap_point : point e;
  ap_uncovered : ~ covered (it_key e);
  ap_covers : covers_ok (ci_rangeDelFrag i) (cur i ++ ci_iter i);
  ap_pos : ci_pos i = iterPosCurForward;
  ap_closer : closer_ok i;
}.

(** The key of the iterator is returned in the place of [e]. *)
Record yields (i : compactionIter) (e : item) (i' : compactionIter) : Prop := {
  yi_err : ci_err i' = None;
  yi_kept : kept i i';
  yi_ready : ready i';
  yi_emits : emits e (ci_key i');
  yi_pending : exists seg, ci_iter i = seg ++ pending i' /\ segment (it_key e) seg;
  yi_step : step_ok (e :: ci_iter i) [(it_key e, (Kind (ci_key i'), ci_value i'))] (remaining i');
  yi_zero : SeqNum (ci_key i') <> sq e -> Forall (fun x => point x -> uk x <> uk e) (remaining i');
}.

(** Nothing is returned, and the iterator is at another entry. *)
Record continues (i : compactionIter) (e : item) (i' : compactionIter) : Prop := {
  co_kept : kept i i';
  co_top : top i';
  co_pos : ci_pos i' = iterPosCurForward;
  co_closer : closer_ok i';
  co_iter : exists seg, ci_iter i = seg ++ cur i' ++ ci_iter i' /\ segment (it_key e) seg;
  co_step : step_ok (e :: ci_iter i) [] (left_top p i');
}.

Lemma at_point_ok i e : at_point i e -> item_ok e /\ items_ok (e :: ci_iter i) /\ behind (it_key e) (saved i e) /\
  covers (saved i e) /\ Kind (it_key e) <> InternalKeyKindRangeDelete.
Proof.
  intros [Ht Hc _ Hp _ Hcv _ _]. pose proof (tp_items _ _ Ht) as Hok. rewrite Hc in Hok.
  pose proof (items_ok_cons _ _ Hok) as (Hoke & _ & _). split_and!; try done.
  - by apply behind_saved.
  - exact (covers_top i e Hcv Hc Hp).
  - by apply point_not_rangedel.
Qed.

Lemma segment_cons i e seg : at_point i e -> segment (it_key e) seg ->
  segment (it_key e) (e :: seg) /\ uncovered (e :: seg) = e :: uncovered seg.
Proof.
  intros Hap Hseg. destruct (at_point_ok i e Hap) as (Hoke & _). split.
  - constructor; [|done]. split; [apply Hap|done].
  - unfold CompactionStep.uncovered. rewrite filter_cons_True; [done|apply Hap].
Qed.

(** Nothing of the user key is left behind the last stripe. *)
Lemma last_stripe_rest i e seg l :
  at_point i e -> ci_iter i = seg ++ l -> idx (sq e) = 0%nat ->
  Forall (fun x => point x -> uk x <> uk e) (drop_stripe (it_key e) l).
Proof.
  intros Hap Hi H0. destruct (at_point_ok i e Hap) as (_ & Hok & _). rewrite Hi in Hok.
  pose proof (items_older (e :: seg) l e Hok ltac:(left)) as Hold. unfold older in Hold.
  rewrite Forall_forall in Hold |- *. intros x [Hd Hx]%list_elem_of_filter Hp Hu. apply Hd.
  split; [done|]. split; [done|]. pose proof (idx_mono _ Hsnaps _ _ (Hold x Hx Hu)). lia.
Qed.

(** An entry that hides the rest of the stripe. *)
Lemma absorb_yields i e i' seg :
  at_point i e -> ci_err i' = None -> kept i i' -> ready i' -> emits e (ci_key i') ->
  ci_iter i = seg ++ pending i' -> segment (it_key e) seg ->
  remaining i' = drop_stripe (it_key e) (pending i') ->
  (forall R R', equiv (uk e) ((item_op <$> e :: uncovered seg) ++ R) ((Kind (ci_key i'), ci_value i') :: R')) ->
  yields i e i'.
Proof.
  intros Hap He Hk Hr Hem E Hseg Hrem Heq. split; try done; [by exists seg| |].
  2: { intros Hz. rewrite Hrem. apply (last_stripe_rest i e seg); [done..|]. by destruct Hem as (_ & _ & [?|(_ & _ & ?)]). }
  rewrite Hrem, E. destruct (segment_cons i e seg Hap Hseg) as [Hs1 Hs2].
  apply (step_absorb _ Hsnaps T B (e :: seg) e (uncovered seg)); [|done..].
  simpl. rewrite <- E. by apply (at_point_ok i e).
Qed.

Lemma maybeZeroSeqnum_ok i n : exists k,
  maybeZeroSeqnum p i n = i <| ci_key := k |> /\ UserKey k = UserKey (ci_key i) /\ Kind k = Kind (ci_key i) /\
  (SeqNum k = SeqNum (ci_key i) \/ SeqNum k = 0 /\ allowZeroSeqNum p = true /\ n = 0%nat).
Proof.
  unfold maybeZeroSeqnum. destruct (allowZeroSeqNum p) eqn:Ea; simpl.
  2: { exists (ci_key i). split; [by destruct i|]. auto. }
  destruct (Nat.ltb_spec 0 n).
  { exists (ci_key i). split; [by destruct i|]. auto. }
  destruct (SetSeqNum_zero (ci_key i)) as [H1 H2].
  eexists. split; [reflexivity|]. split_and!; [done|done|]. right. split_and!; [done..|lia].
Qed.

Lemma is_set_not_tombstone k : is_set k = true -> is_tombstone k = false.
Proof.
  unfold is_set. intros [H|H]%orb_true_iff; apply Z.eqb_eq in H; by rewrite H.
Qed.

Lemma setNext_yields i e :
  at_point i e -> is_set (Kind (it_key e)) = true ->
  exists i', setNext p i = Ret i' /\ yields i e i'.
Proof.
  intros Hap Hset. pose proof Hap as [Ht Hc Hs Hp Hn Hcv Hpos Hcl].
  destruct (at_point_ok i e Hap) as (Hoke & Hok & Hb & Hcvs & Hk).
  unfold setNext. rewrite (saveKey_ok i e Hc), bind_Ret.
  set (i1 := (saved i e) <| ci_value := ci_iterValue (saved i e) |> <| ci_valid := true |>).
  destruct (maybeZeroSeqnum_ok i1 (ci_curSnapshotIdx i1)) as (k & -> & Hku & Hkk & Hkq).
  set (i2 := i1 <| ci_key := k |>).
  assert (ci_iterKey i2 = Some (it_key e)) as -> by (apply cur_iterKey in Hc; apply Hc).
  assert (behind (it_key e) i2) as Hb2 by (by apply (behind_ext _ (saved i e))).
  assert (ci_value i2 = it_val e) as Hv2 by (symmetry; apply (cur_iterKey i e Hc)).
  assert (emits e k) as Hem.
  { split; [done|]. rewrite Hkk. split; [exact Hp|]. destruct Hkq as [?|(? & ? & Hi)]; [by left|right].
    split_and!; [done..|]. rewrite <- Hi. symmetry. apply (ae_idx _ _ (tp_at _ _ Ht) e Hc). }
  destruct ((formatVersion p <? FormatSetWithDelete) || (Kind (it_key e) =? InternalKeyKindSetWithDelete)).
  - set (j := i2 <| ci_skip := true |>). exists j. split; [done|].
    assert (behind (it_key e) j) as Hbj by (by apply (behind_ext _ i2)).
    destruct (ready_behind (it_key e) j Hbj) as (R1 & R2 & R3); [exact Hcl|exact Hpos|done|].
    apply (absorb_yields i e j []); try done.
    + apply (bh_err _ _ _ Hb).
    + constructor.
    + intros R R'. change (ci_key j) with k. change (ci_value j) with (ci_value i2). rewrite Hkk, Hv2.
      by apply set_equiv; try apply is_set_not_tombstone.
  - destruct (setNext_loop_ok (it_key e) (S (length (ci_iter i2))) i2 Hb2)
      as (i' & seg & E & H1 & H2 & H3 & H4 & H5 & H6 & H7 & H8); try done; [lia|].
    exists i'. split; [done|].
    assert (is_set (Kind (ci_key i')) = true /\ emits e (ci_key i')) as [Hs' Hem'].
    { change (ci_key i2) with k in H8. destruct H8 as [->| ->]; [by rewrite Hkk|].
      destruct Hem as (? & ? & Hq). rewrite Kind_SetKind by done. split; [done|].
      split; [done|]. rewrite Kind_SetKind, SeqNum_SetKind by done. done. }
    apply (absorb_yields i e i' seg); try done.
    + by eapply kept_trans; [|exact H2].
    + intros R R'. rewrite H7, Hv2. by apply set_equiv; try apply is_set_not_tombstone.
Qed.

(** ** Tombstones *)
Lemma delete_yields i e :
  at_point i e -> Kind (it_key e) = InternalKeyKindDelete ->
  exists i1, saveKey i = Ret i1 /\
    yields i e (i1 <| ci_value := ci_iterValue i1 |> <| ci_valid := true |> <| ci_skip := true |>).
Proof.
  intros Hap Hk0. pose proof Hap as [Ht Hc Hs Hp Hn Hcv Hpos Hcl].
  destruct (at_point_ok i e Hap) as (Hoke & Hok & Hb & Hcvs & Hk).
  exists (saved i e). split; [by apply saveKey_ok|]. set (j := _ <| ci_skip := true |>).
  assert (behind (it_key e) j) as Hbj by (by apply (behind_ext _ (saved i e))).
  destruct (ready_behind (it_key e) j Hbj) as (R1 & R2 & R3); [exact Hcl|exact Hpos|done|].
  apply (absorb_yields i e j []); try done.
  - apply (bh_err _ _ _ Hb).
  - split_and!; [done|exact Hp|by left].
  - constructor.
  - intros R R'. change (ci_key j) with (it_key e). simpl. unfold item_op. rewrite Hk0.
    by apply tombstone_equiv.
Qed.

(** ** Merges *)
Abbreviation merges os := ((fun v => (InternalKeyKindMerge, v)) <$> os).

Lemma uncovered_app l1 l2 : uncovered (l1 ++ l2) = uncovered l1 ++ uncovered l2.
Proof. apply filter_app. Qed.
Lemma uncovered_found sk e :
  Forall (fun e => covered (it_key e)) sk -> ~ covered (it_key e) -> uncovered (sk ++ [e]) = [e].
Proof.
  intros Hsk Hn. rewrite uncovered_app. unfold CompactionStep.uncovered.
  rewrite filter_cons_True by done. rewrite (list_filter_none _ sk); [done|].
  rewrite Forall_forall in Hsk. intros x Hx Hnx. by apply Hnx, Hsk.
Qed.
Lemma uncovered_covered sk : Forall (fun e => covered (it_key e)) sk -> uncovered sk = [].
Proof.
  intros Hsk. apply list_filter_none. rewrite Forall_forall in Hsk. intros x Hx Hnx. by apply Hnx, Hsk.
Qed.

(** A merger that has received operands. *)
Definition received (key : bytes) (os : list bytes) (m : ValueMerger) : Prop :=
  match os with [] => False | v :: os => (x ← merge_New key v; merge_older x os) = Ok m end.
Lemma received_more key os m v :
  received key os m -> exists m', MergeOlder m v = Ok m' /\ received key (os ++ [v]) m'.
Proof.
  destruct os as [|v0 os]; [done|]. simpl. intros H.
  destruct (merge_older_ok key os v0 m H v) as [m' Hm']. exists m'. split; [done|].
  destruct (merge_New key v0) as [x|] eqn:E; [|done]. unfold mbind, result_bind in *.
  rewrite merge_older_app. unfold mbind, result_bind. by rewrite H.
Qed.

(** How merging ends: ahead of an entry that stays, on a tombstone, or on a value. *)
Inductive merge_end (a : InternalKey) (i i' : compactionIter) (us : list item) (os : list bytes)
    : stripeChangeType -> Prop :=
| merge_ahead change :
    ci_key i' = ci_key i -> remaining i' = pending i' -> item_op <$> us = merges os ->
    (change <> sameStripeNonSkippable -> remaining i' = drop_stripe a (pending i')) ->
    merge_end a i i' us os change
| merge_tombstone k v :
    ci_key i' = SetKind (ci_key i) InternalKeyKindSetWithDelete ->
    remaining i' = drop_stripe a (pending i') ->
    item_op <$> us = merges os ++ [(k, v)] -> is_tombstone k = true ->
    merge_end a i i' us os sameStripeSkippable
| merge_set os' k v :
    ci_key i' = SetKind (ci_key i) InternalKeyKindSet ->
    remaining i' = drop_stripe a (pending i') ->
    os = os' ++ [v] -> item_op <$> us = merges os' ++ [(k, v)] -> is_set k = true ->
    merge_end a i i' us os sameStripeSkippable.

Lemma merge_end_more a i i1 i' e us os change :
  moved i i1 -> Kind (it_key e) = InternalKeyKindMerge ->
  merge_end a i1 i' us os change -> merge_end a i i' (e :: us) (it_val e :: os) change.
Proof.
  intros Hm Hk H. pose proof (moved_key _ _ Hm) as Hkey.
  assert (item_op e = (InternalKeyKindMerge, it_val e)) as He by (unfold item_op; by rewrite Hk).
  destruct H as [change H1 H2 H3 H4|k v H1 H2 H3 H4|os' k v H1 H2 H3 H4 H5].
  - apply merge_ahead; [congruence|done| |done]. by rewrite !fmap_cons, He, H3.
  - apply merge_tombstone with k v; [congruence|done| |done]. by rewrite !fmap_cons, He, H3.
  - apply merge_set with (it_val e :: os') k v; [congruence|done|by rewrite H3| |done].
    by rewrite !fmap_cons, He, H4.
Qed.

Lemma mergeNext_loop_ok a fuel : forall i m os,
  behind a i -> covers i -> Kind a <> InternalKeyKindRangeDelete ->
  ci_skip i = false -> ci_pos i = iterPosCurForward -> closer_ok i -> (length (ci_iter i) < fuel)%nat ->
  received (UserKey a) os m ->
  exists i' m' change seg os',
    mergeNext_loop p fuel i m = Ret (i', m', change) /\ ci_err i' = None /\ kept i i' /\ ready i' /\
    ctx i' = a /\ ci_iter i = seg ++ pending i' /\ segment a seg /\ received (UserKey a) (os ++ os') m' /\
    merge_end a i i' (uncovered seg) os' change.
Proof.
  induction fuel as [|fuel IH]; intros i m os Hb Hcv Ha Hskip Hpos Hcl Hf Hrec; [lia|]. cbn [mergeNext_loop].
  destruct (next_cases a i Hb Hcv) as (i1 & sk & -> & Hav & Hfound). rewrite bind_Ret.
  pose proof (av_moved _ _ _ _ Hav) as Hm. pose proof (av_at _ _ _ _ Hav) as Hat.
  case_decide as Hch.
  { set (j := i1 <| ci_pos := iterPosNext |>).
    assert (ci_skip j = false) as Hsj by (simpl; by rewrite (moved_skip _ _ Hm)).
    destruct (advance_ahead a i i1 sk j Hb Hav Hch) as (R1 & R2 & R3); [done| |done|by rewrite Hsj|].
    { unfold closer_ok. simpl. by rewrite (moved_closer _ _ Hm). }
    exists j, m, (ci_iterStripeChange i1), sk, []. rewrite app_nil_r. split_and!; try done.
    - apply Hat.
    - by eapply kept_trans; [by apply kept_moved|].
    - rewrite <- (ctx_behind a i Hb). unfold ctx. simpl.
      by rewrite (moved_key _ _ Hm), (moved_keyTrailer _ _ Hm).
    - rewrite R2. apply Hav.
    - apply Hav.
    - apply merge_ahead.
      + exact (moved_key _ _ Hm).
      + unfold remaining. by rewrite Hsj.
      + by rewrite uncovered_covered by (apply Hav).
      + intros Hnn. apply R3. rewrite Hsj. by destruct (ci_iterStripeChange i1). }
  assert (ci_iterStripeChange i1 = sameStripeSkippable) as Hch' by (destruct (decide (ci_iterStripeChange i1 = sameStripeSkippable)); tauto).
  destruct (Hfound Hch') as (e & [Fcur Fkey Fval Fp Fok Fst Fnc Fb Fcv Fseg Fit]).
  rewrite (ae_err _ _ Hat), Fkey, Fval.
  pose proof (uncovered_found sk e (av_covered _ _ _ _ Hav) Fnc) as Hunc.
  assert (forall kind, 0 <= kind < 256 ->
    let j := (set_kind i1 kind) <| ci_skip := true |> in
    ci_err j = None /\ kept i j /\ ready j /\ ctx j = a /\ ci_iter i = (sk ++ [e]) ++ pending j /\
    remaining j = drop_stripe a (pending j) /\ ci_key j = SetKind (ci_key i) kind) as Hend.
  { intros kind Hkr j. assert (behind a j) as Hbj by (by apply (behind_ext a i1)).
    destruct (ready_behind a j Hbj) as (R1 & R2 & R3); [|by rewrite <- Hpos, <- (moved_pos _ _ Hm)|done|].
    { change (ci_valueCloser j) with (ci_valueCloser i1). by rewrite (moved_closer _ _ Hm). }
    rewrite R3, R2. split_and!; try done;
      [apply Hat|by eapply kept_trans; [by apply kept_moved|]|by apply ctx_behind|].
    unfold j. simpl. by rewrite (moved_key _ _ Hm). }
  destruct (is_tombstone (Kind (it_key e))) eqn:Et; [|destruct (is_set (Kind (it_key e))) eqn:Es].
  - destruct (Hend InternalKeyKindSetWithDelete ltac:(done)) as (E1 & E2 & E3 & E3' & E4 & E5 & E6).
    eexists _, m, sameStripeSkippable, (sk ++ [e]), []. rewrite app_nil_r, Hunc.
    split_and!; [reflexivity|done..|]. by eapply merge_tombstone.
  - destruct (received_more _ _ _ (it_val e) Hrec) as (m' & -> & Hrec').
    destruct (Hend InternalKeyKindSet ltac:(done)) as (E1 & E2 & E3 & E3' & E4 & E5 & E6).
    eexists _, m', sameStripeSkippable, (sk ++ [e]), [it_val e]. rewrite Hunc.
    split_and!; [reflexivity|done..|]. by eapply (merge_set _ _ _ _ _ []).
  - assert (Kind (it_key e) = InternalKeyKindMerge) as Ek.
    { unfold point, is_point in Fp. rewrite Et, Es in Fp. by apply Z.eqb_eq in Fp. }
    rewrite Ek, Z.eqb_refl.
    destruct (received_more _ _ _ (it_val e) Hrec) as (m' & -> & Hrec').
    destruct (IH i1 m' (os ++ [it_val e]) Fb Fcv Ha) as (i2 & m2 & ch & seg & os' & E2 & H1 & H2 & H3 & H3' & H4 & H5 & H6 & H7).
    { by rewrite (moved_skip _ _ Hm). }
    { by rewrite (moved_pos _ _ Hm). }
    { unfold closer_ok. by rewrite (moved_closer _ _ Hm). }
    { rewrite Fit, !length_app in Hf. simpl in Hf. lia. }
    { done. }
    exists i2, m2, ch, ((sk ++ [e]) ++ seg), (it_val e :: os').
    rewrite uncovered_app, Hunc, <- app_assoc, <- H4. rewrite <- app_assoc in H6.
    split_and!; try done; [by eapply kept_trans; [by apply kept_moved|]|by apply Forall_app|].
    by apply (merge_end_more a i i1).
Qed.

(** Changing the value, the closer and the trailer of the key that is returned. *)
Lemma ready_ext i j :
  ready i -> same_place i j -> ci_pos j = ci_pos i -> ci_skip j = ci_skip i -> closer_ok j ->
  UserKey (ci_key j) = UserKey (ci_key i) -> ci_keyTrailer j = ci_keyTrailer i ->
  Kind (ctx i) <> InternalKeyKindRangeDelete ->
  ready j /\ pending j = pending i /\ remaining j = remaining i.
Proof.
  intros [Hcl Hcur Hnext] (J1 & J2 & J3 & J4 & J5 & J6) Hp Hs Hc Hk Ht Hkind.
  assert (ctx j = ctx i) as Hctx by (unfold ctx; by rewrite Hk, Ht).
  assert (pending j = pending i) as Hpend by (unfold pending; by rewrite Hp, J1, J2).
  assert (ci_iterKey j = ci_iterKey i) as Hik.
  { unfold cur in J1. destruct (ci_iterKey j), (ci_iterKey i); congruence. }
  split; [|split; [done|]].
  - split; [done| |].
    + rewrite Hp, Hctx. intros Hcf. specialize (Hcur Hcf). by apply (behind_ext _ i).
    + rewrite Hp, Hs, J6. intros Hn. destruct (Hnext Hn) as [[[A1 A2 A3] T2 T3] H2]. split; [|done].
      split; [split| |]; rewrite ?J1, ?J2, ?J3, ?J4, ?J5; try done. by rewrite Hs.
  - unfold remaining, anchor. by rewrite Hs, Hp, Hctx, Hpend, Hik.
Qed.

Lemma next_merge_yields i e :
  at_point i e -> Kind (it_key e) = InternalKeyKindMerge ->
  exists i', next_merge p i (it_key e) = Ret (i', Some (Some (ci_key i', ci_value i'))) /\ yields i e i'.
Proof.
  intros Hap Hk0. pose proof Hap as [Ht Hc Hs Hp Hn Hcv Hpos Hcl].
  destruct (at_point_ok i e Hap) as (Hoke & Hok & Hb & Hcvs & Hk).
  unfold next_merge. rewrite <- (proj2 (cur_iterKey i e Hc)).
  destruct (merge_ok (uk e) (it_val e)) as [m Hm]. rewrite Hm.
  unfold mergeNext. rewrite (saveKey_ok i e Hc), bind_Ret.
  set (i1 := (saved i e) <| ci_valid := true |>).
  assert (behind (it_key e) i1) as Hb1 by (by apply (behind_ext _ (saved i e))).
  destruct (mergeNext_loop_ok (it_key e) (S (length (ci_iter i1))) i1 m [it_val e] Hb1)
    as (i2 & m2 & change & seg & os & E & He & Hkp & Hr & Hctx & Eit & Hseg & Hrec & Hend); try done; [lia|..].
  { simpl. unfold mbind, result_bind. by rewrite Hm. }
  rewrite E, bind_Ret, He.
  set (b := is_set (Kind (ci_key i2))).
  assert (b || (Kind (ci_key i2) =? InternalKeyKindMerge) = true) as ->.
  { unfold b. destruct Hend as [change H1|k v H1|os' k v H1]; rewrite H1; try rewrite Kind_SetKind by done; try done.
    simpl. by rewrite Hk0. }
  cbn [negb]. destruct (merged_ok (uk e) os (it_val e) m2 b Hrec) as (closer & -> & Hclo).
  set (v := merged _ _ _). set (i3 := i2 <| ci_value := v |> <| ci_valueCloser := closer |>).
  assert (exists k, (if decide (change <> sameStripeNonSkippable)
      then maybeZeroSeqnum p i3 (ci_curSnapshotIdx i) else i3) = i3 <| ci_key := k |> /\
    UserKey k = UserKey (ci_key i2) /\ Kind k = Kind (ci_key i2) /\
    (SeqNum k = SeqNum (ci_key i2) \/
     SeqNum k = 0 /\ allowZeroSeqNum p = true /\ ci_curSnapshotIdx i = 0%nat) /\
    (SeqNum k <> SeqNum (ci_key i2) -> change <> sameStripeNonSkippable))
    as (k & -> & Hku & Hkk & Hkq & Hkc).
  { case_decide.
    - destruct (maybeZeroSeqnum_ok i3 (ci_curSnapshotIdx i)) as (k & Hz). exists k. split_and!; try apply Hz. done.
    - exists (ci_key i2). split; [by destruct i2|]. split_and!; auto. }
  set (j := i3 <| ci_key := k |>). exists j. split; [done|].
  destruct (ready_ext i2 j Hr) as (R1 & R2 & R3); [done|done|done|exact Hclo|done|done|by rewrite Hctx|].
  rewrite <- R2 in Eit. change (ci_iter i1) with (ci_iter i) in Eit.
  assert (kept i j) as Hkj by (destruct Hkp; by split).
  assert (ci_curSnapshotIdx i = idx (sq e)) as Hidx by (apply (ae_idx _ _ (tp_at _ _ Ht) e Hc)).
  assert (forall kind, ci_key i2 = it_key e /\ kind = InternalKeyKindMerge \/
      0 <= kind < 256 /\ ci_key i2 = SetKind (it_key e) kind -> is_point kind = true ->
    Kind k = kind /\ emits e k) as Hem.
  { intros kind Hkind Hpk.
    assert (UserKey (ci_key i2) = uk e /\ SeqNum (ci_key i2) = sq e /\ Kind (ci_key i2) = kind) as (G1 & G2 & G3).
    { destruct Hkind as [[-> ->]|[Hr0 ->]]; [done|]. by rewrite SeqNum_SetKind, Kind_SetKind. }
    rewrite Hkk, G3. split; [done|]. split; [congruence|]. rewrite Hkk, G3. split; [done|].
    rewrite Hidx, G2 in Hkq. done. }
  change (ci_key i1) with (it_key e) in Hend.
  assert (item_op e = (InternalKeyKindMerge, it_val e)) as Hop by (unfold item_op; by rewrite Hk0).
  destruct Hend as [change H1 H2 H3 H4|k' v' H1 H2 H3 H4|os' k' v' H1 H2 H3 H4 H5].
  - destruct (Hem InternalKeyKindMerge ltac:(by left) ltac:(done)) as [Hkm Hemit].
    assert (b = false) as Hbf by (unfold b; rewrite H1; simpl; by rewrite Hk0).
    split; try done; [by exists seg| |].
    2: { intros Hz. rewrite R3, (H4 (Hkc ltac:(rewrite H1; exact Hz))), <- R2.
      apply (last_stripe_rest i e seg); [done..|]. by destruct Hemit as (_ & _ & [?|(_ & _ & ?)]). }
    rewrite R3, H2, <- R2, Eit.
    destruct (segment_cons i e seg Hap Hseg) as [Hs1 Hs2].
    apply (step_consume _ Hsnaps T B (it_key e) (e :: seg) e (uncovered seg)
      (Some (Kind (ci_key j), ci_value j)) (pending j)); [done..|].
    intros R _. rewrite fmap_cons, Hop, H3. change (ci_key j) with k. rewrite Hkm.
    change (ci_value j) with v. unfold v. rewrite Hbf.
    apply (merges_equiv (uk e) (it_val e :: os) R). done.
  - destruct (Hem InternalKeyKindSetWithDelete ltac:(by right) ltac:(done)) as [Hkm Hemit].
    assert (b = true) as Hbf by (unfold b; rewrite H1, Kind_SetKind by done; done).
    apply (absorb_yields i e j seg); try done; [by rewrite R3, R2|].
    intros R R'. rewrite fmap_cons, Hop, H3. change (ci_key j) with k. rewrite Hkm.
    change (ci_value j) with v. unfold v. rewrite Hbf.
    change ((InternalKeyKindMerge, it_val e) :: merges os ++ [(k', v')]) with (merges (it_val e :: os) ++ [(k', v')]).
    rewrite <- app_assoc. by apply merges_tombstone_equiv.
  - destruct (Hem InternalKeyKindSet ltac:(by right) ltac:(done)) as [Hkm Hemit].
    assert (b = true) as Hbf by (unfold b; rewrite H1, Kind_SetKind by done; done).
    apply (absorb_yields i e j seg); try done; [by rewrite R3, R2|].
    intros R R'. rewrite fmap_cons, Hop, H4. change (ci_key j) with k. rewrite Hkm.
    change (ci_value j) with v. unfold v. rewrite Hbf, H3.
    change ((InternalKeyKindMerge, it_val e) :: merges os' ++ [(k', v')]) with (merges (it_val e :: os') ++ [(k', v')]).
    rewrite <- app_assoc. apply (merges_set_equiv (uk e) (it_val e :: os')); try done.
    by apply is_set_not_tombstone.
Qed.

(** ** Single deletes *)
Abbreviation single_delete e := (Kind (it_key e) = InternalKeyKindSingleDelete).

(** The next entry after the one that is deleted. *)
Record past (a : InternalKey) (i i' : compactionIter) (seg : list item) : Prop := {
  pa_kept : kept i i';
  pa_top : top i';
  pa_skip : ci_skip i' = ci_skip i;
  pa_pos : ci_pos i' = ci_pos i;
  pa_closer : ci_valueCloser i' = ci_valueCloser i;
  pa_iter : ci_iter i = seg ++ cur i' ++ ci_iter i';
  pa_seg : segment a seg;
}.

Inductive single_end (a : InternalKey) (i i' : compactionIter) (seg : list item) : bool -> Prop :=
| single_ahead :
    ready i' -> ci_iter i = seg ++ pending i' -> ci_key i' = ci_key i -> remaining i' = pending i' ->
    Forall (fun e => single_delete e) (uncovered seg) ->
    single_end a i i' seg true
| single_delete_end :
    ready i' -> ci_iter i = seg ++ pending i' -> ci_key i' = SetKind (ci_key i) InternalKeyKindDelete ->
    remaining i' = drop_stripe a (pending i') ->
    single_end a i i' seg true
| single_set us x :
    past a i i' seg -> uncovered seg = us ++ [x] -> Forall (fun e => single_delete e) us ->
    Kind (it_key x) = InternalKeyKindSet \/ Kind (it_key x) = InternalKeyKindMerge ->
    single_end a i i' seg false.

Lemma top_advance a i i1 sk :
  behind a i -> advance a i i1 sk -> ci_skip i1 = false -> top i1.
Proof.
  intros Hb [] Hs. split; [done| |by rewrite Hs].
  pose proof (bh_items _ _ _ Hb) as Hok. rewrite av_iter0 in Hok. by apply items_ok_app in Hok as [_ ?].
Qed.

(** The entry after the deleted one may be looked at. *)
Lemma entry_kind a i i1 sk e :
  behind a i -> advance a i i1 sk -> cur i1 = [e] -> uk e = UserKey a ->
  Kind (it_key e) = InternalKeyKindRangeDelete \/ point e.
Proof.
  intros Hb [] Hc Hu. rewrite Hc in av_iter0.
  pose proof (bh_items _ _ _ Hb) as [_ Hok]. rewrite av_iter0 in Hok.
  apply Forall_app in Hok as [_ [Hoke _]%Forall_cons].
  pose proof (bh_follows _ _ _ Hb) as Hf. rewrite av_iter0 in Hf.
  apply Forall_app in Hf as [_ [[_ Hfe] _]%Forall_cons].
  destruct (kind_cases e Hoke (proj1 (Hfe (eq_sym Hu)))) as [?|(? & _)]; auto.
Qed.

Lemma advance_covers a i i1 sk e :
  covers i -> advance a i i1 sk -> cur i1 = [e] -> point e ->
  exists c, Fragmenter_Covers (ci_rangeDelFrag i1) (it_key e) (ci_curSnapshotSeqNum i1) = Ret c.
Proof.
  intros Hcv [] Hc Hp. rewrite (proj2 (ae_idx _ _ av_at0 e Hc)), (moved_frag _ _ av_moved0).
  destruct (Hcv sk e (ci_iter i1)) as (c & -> & _); [by rewrite av_iter0, Hc| |done|eauto].
  by eapply segment_not_rangedel.
Qed.

Lemma point_kinds e : point e ->
  is_set (Kind (it_key e)) || (Kind (it_key e) =? InternalKeyKindMerge) = true \/
  is_tombstone (Kind (it_key e)) = true.
Proof.
  unfold point, is_point. destruct (is_tombstone (Kind (it_key e))); [by right|]. by left.
Qed.
Lemma is_tombstone_not_set k : is_tombstone k = true -> is_set k || (k =? InternalKeyKindMerge) = false.
Proof.
  unfold is_tombstone. intros [[H|H]%orb_true_iff|H]%orb_true_iff; apply Z.eqb_eq in H; by rewrite H.
Qed.

Lemma top_ext i j : top i -> same_place i j -> ci_skip j = ci_skip i -> top j.
Proof.
  intros [[A1 A2 A3] T2 T3] (J1 & J2 & J3 & J4 & J5 & J6) Hs.
  split; [split| |]; rewrite ?J1, ?J2, ?J3, ?J4, ?J5; try done. by rewrite Hs.
Qed.
Lemma past_advance a i i1 sk j :
  behind a i -> advance a i i1 sk -> ci_skip i = false ->
  same_place i1 j -> kept i1 j -> ci_skip j = ci_skip i1 -> ci_pos j = ci_pos i1 ->
  ci_valueCloser j = ci_valueCloser i1 -> past a i j sk.
Proof.
  intros Hb Hav Hs Hsp Hkp Hsk Hpos Hcl. pose proof Hav as [Hm Hat Hseg Hcov Hit _].
  pose proof (moved_skip _ _ Hm). pose proof (moved_pos _ _ Hm). pose proof (moved_closer _ _ Hm).
  split; try congruence.
  - eapply kept_trans; [by apply kept_moved|done].
  - apply (top_ext i1); [|done|done]. apply (top_advance a i i1 sk); [done|done|congruence].
  - destruct Hsp as (-> & -> & _). done.
Qed.
Lemma past_trans a i i1 i2 s1 s2 :
  kept i i1 -> ci_skip i1 = ci_skip i -> ci_pos i1 = ci_pos i -> ci_valueCloser i1 = ci_valueCloser i ->
  ci_iter i = s1 ++ ci_iter i1 -> segment a s1 -> past a i1 i2 s2 -> past a i i2 (s1 ++ s2).
Proof.
  intros Hk Hs Hp Hc Hi Hseg []. split; try congruence.
  - by eapply kept_trans.
  - rewrite Hi, pa_iter0. by rewrite app_assoc.
  - by apply Forall_app.
Qed.

(** Looking behind the entry that is deleted. *)
Lemma single_peek a i :
  behind a i -> covers i -> ci_skip i = false ->
  exists i' sk,
    ('(i, change) ← nextInStripe p i;
     i ← match change with
         | sameStripeSkippable | newStripeSameKey =>
             match ci_iterKey i with
             | None => nil_deref
             | Some next =>
                 let nextKind := Kind next in
                 if is_set nextKind || (nextKind =? InternalKeyKindMerge) then
                   if decide (change = sameStripeSkippable) then Ret (violation i)
                   else
                     cover ← Fragmenter_Covers (ci_rangeDelFrag i) next (ci_curSnapshotSeqNum i);
                     Ret (match cover with NoCover => violation i | _ => i end)
                 else if is_tombstone nextKind || (nextKind =? InternalKeyKindRangeDelete) then Ret i
                 else Panic "unexpected internal key kind"
             end
         | sameStripeNonSkippable | newStripeNewKey => Ret i
         end;
     Ret (i <| ci_valid := false |>, false)) = Ret (i', false) /\
    past a i i' sk /\ uncovered sk = [].
Proof.
  intros Hb Hcv Hs. destruct (next_cases a i Hb Hcv) as (i1 & sk & -> & Hav & Hfound). rewrite bind_Ret.
  assert (forall j, j = i1 \/ j = violation i1 -> exists i' sk',
    Ret (j <| ci_valid := false |>, false) = Ret (i', false) /\ past a i i' sk' /\ uncovered sk' = []) as Hend.
  { intros j Hj. exists (j <| ci_valid := false |>), sk. split; [done|]. split.
    - apply (past_advance a i i1 sk); try done; by destruct Hj as [->| ->].
    - apply uncovered_covered, Hav. }
  assert (forall e, cur i1 = [e] -> uk e = UserKey a -> ci_iterKey i1 = Some (it_key e) /\
    (Kind (it_key e) = InternalKeyKindRangeDelete \/
     is_set (Kind (it_key e)) || (Kind (it_key e) =? InternalKeyKindMerge) = true \/
     is_tombstone (Kind (it_key e)) = true) /\
    (point e -> exists c, Fragmenter_Covers (ci_rangeDelFrag i1) (it_key e) (ci_curSnapshotSeqNum i1) = Ret c))
    as Hcase.
  { intros e Hc Hu. split; [apply (cur_iterKey i1 e Hc)|]. split; [|by apply (advance_covers a i i1 sk)].
    destruct (entry_kind a i i1 sk e Hb Hav Hc Hu) as [?|Hp]; [by left|]. right. by apply point_kinds. }
  pose proof (av_change _ _ _ _ Hav) as Hco.
  destruct (ci_iterStripeChange i1) eqn:Ech.
  - rewrite bind_Ret. apply Hend. by left.
  - destruct (cur i1) as [|e [|]] eqn:Ec; [done| |done]. destruct Hco as [Hu _].
    destruct (Hcase e eq_refl Hu) as (-> & Hk & Hcov). cbv zeta.
    destruct Hk as [Hk|[Hk|Hk]].
    + rewrite Hk. apply (Hend i1). by left.
    + rewrite Hk, decide_False by done. destruct Hcov as [c ->].
      { unfold point, is_point. by rewrite <- orb_assoc, Hk, orb_true_r. }
      rewrite !bind_Ret. destruct c; apply Hend; auto.
    + rewrite (is_tombstone_not_set _ Hk), Hk. apply (Hend i1). by left.
  - destruct (Hfound eq_refl) as (e & [Fcur Fkey Fval Fp Fok Fst Fnc Fb Fcv Fseg Fit]).
    destruct (Hcase e Fcur (eq_sym (proj1 Fst))) as (-> & Hk & _). cbv zeta.
    destruct Hk as [Hk|[Hk|Hk]].
    + rewrite Hk. apply (Hend i1). by left.
    + rewrite Hk, decide_True by done. rewrite bind_Ret. apply Hend. by right.
    + rewrite (is_tombstone_not_set _ Hk), Hk. apply (Hend i1). by left.
  - rewrite bind_Ret. apply Hend. by left.
Qed.

(** The kinds of points, as the loop tells them apart. *)
Lemma single_kinds e : point e ->
  let k := Kind (it_key e) in
  let c := (k =? InternalKeyKindDelete) || (k =? InternalKeyKindSetWithDelete) || (k =? InternalKeyKindDeleteSized) in
  let d := (k =? InternalKeyKindSet) || (k =? InternalKeyKindMerge) in
  c = true \/
  (c = false /\ d = true /\ (k = InternalKeyKindSet \/ k = InternalKeyKindMerge)) \/
  (c = false /\ d = false /\ k = InternalKeyKindSingleDelete).
Proof.
  unfold point, is_point, is_tombstone, is_set. cbv zeta. intros H.
  destruct (Z.eqb_spec (Kind (it_key e)) InternalKeyKindDelete); [by left|].
  destruct (Z.eqb_spec (Kind (it_key e)) InternalKeyKindSetWithDelete); [by left|].
  destruct (Z.eqb_spec (Kind (it_key e)) InternalKeyKindDeleteSized); [by left|]. right.
  destruct (Z.eqb_spec (Kind (it_key e)) InternalKeyKindSet); [left; auto|].
  destruct (Z.eqb_spec (Kind (it_key e)) InternalKeyKindMerge); [left; auto|].
  destruct (Z.eqb_spec (Kind (it_key e)) InternalKeyKindSingleDelete); [right; auto|done].
Qed.

Lemma single_end_more a i i1 i' s1 e s2 b :
  ci_iter i = s1 ++ ci_iter i1 -> uncovered s1 = [e] -> single_delete e -> segment a s1 ->
  kept i i1 -> ci_skip i1 = ci_skip i -> ci_pos i1 = ci_pos i -> ci_valueCloser i1 = ci_valueCloser i ->
  ci_key i1 = ci_key i ->
  single_end a i1 i' s2 b -> single_end a i i' (s1 ++ s2) b.
Proof.
  intros Hi Hu Hsd Hseg Hkp Hs Hp Hc Hk [H1 H2 H3 H4 H5|H1 H2 H3 H4|us x H1 H2 H3 H4].
  - apply single_ahead; try done; try congruence; [by rewrite Hi, H2, app_assoc|].
    rewrite uncovered_app, Hu. by constructor.
  - apply single_delete_end; try done; try congruence. by rewrite Hi, H2, app_assoc.
  - apply single_set with (e :: us) x; try done; [by apply (past_trans a i i1)| |by constructor].
    by rewrite uncovered_app, Hu, H2.
Qed.

Lemma singleDeleteNext_loop_ok a fuel : forall i,
  behind a i -> covers i -> Kind a <> InternalKeyKindRangeDelete ->
  ci_skip i = false -> ci_pos i = iterPosCurForward -> closer_ok i -> (length (ci_iter i) < fuel)%nat ->
  exists i' b seg,
    singleDeleteNext_loop p fuel i = Ret (i', b) /\ ci_err i' = None /\ kept i i' /\
    (b = true -> ci_value i' = ci_value i) /\ segment a seg /\ single_end a i i' seg b.
Proof.
  induction fuel as [|fuel IH]; intros i Hb Hcv Ha Hskip Hpos Hcl Hf; [lia|]. cbn [singleDeleteNext_loop].
  destruct (next_cases a i Hb Hcv) as (i1 & sk & -> & Hav & Hfound). rewrite bind_Ret.
  pose proof (av_moved _ _ _ _ Hav) as Hm. pose proof (av_at _ _ _ _ Hav) as Hat.
  case_decide as Hch.
  { set (j := i1 <| ci_pos := iterPosNext |>).
    assert (ci_skip j = false) as Hsj by (simpl; by rewrite (moved_skip _ _ Hm)).
    destruct (advance_ahead a i i1 sk j Hb Hav Hch) as (R1 & R2 & R3); [done| |done|by rewrite Hsj|].
    { unfold closer_ok. simpl. by rewrite (moved_closer _ _ Hm). }
    exists j, true, sk. rewrite (ae_err _ _ Hat). split_and!; try done.
    - apply Hat.
    - by eapply kept_trans; [by apply kept_moved|].
    - intros _. exact (moved_value _ _ Hm).
    - apply Hav.
    - apply single_ahead; [done|rewrite R2; apply Hav|exact (moved_key _ _ Hm)| |].
      + unfold remaining. by rewrite Hsj.
      + by rewrite uncovered_covered by (apply Hav). }
  assert (ci_iterStripeChange i1 = sameStripeSkippable) as Hch' by (destruct (decide (ci_iterStripeChange i1 = sameStripeSkippable)); tauto).
  destruct (Hfound Hch') as (e & [Fcur Fkey Fval Fp Fok Fst Fnc Fb Fcv Fseg Fit]).
  rewrite (ae_err _ _ Hat), Fkey. cbv zeta.
  pose proof (uncovered_found sk e (av_covered _ _ _ _ Hav) Fnc) as Hunc.
  destruct (single_kinds e Fp) as [Hk|[(Hc & Hd & Hk)|(Hc & Hd & Hk)]].
  - rewrite Hk. match goal with |- context [set_kind ?x _] => set (i2 := x) end.
    set (j := (set_kind i2 InternalKeyKindDelete) <| ci_skip := true |>).
    assert (i2 = i1 \/ i2 = ineffectual i1) as Hi2 by (unfold i2; match goal with |- context [if ?c then _ else _] => destruct c end; auto).
    assert (behind a j) as Hbj by (apply (behind_ext a i1); unfold j; by destruct Hi2 as [->| ->]).
    destruct (ready_behind a j Hbj) as (R1 & R2 & R3); [| |done|].
    { replace (ci_valueCloser j) with (ci_valueCloser i1) by (unfold j; by destruct Hi2 as [->| ->]).
      by rewrite (moved_closer _ _ Hm). }
    { rewrite <- Hpos, <- (moved_pos _ _ Hm). unfold j. by destruct Hi2 as [->| ->]. }
    assert (ci_iter j = ci_iter i1) as Hij by (unfold j; by destruct Hi2 as [->| ->]).
    exists j, true, (sk ++ [e]). split_and!; try done.
    + apply Hbj.
    + eapply kept_trans; [by apply kept_moved|]. unfold j. by destruct Hi2 as [->| ->].
    + intros _. rewrite <- (moved_value _ _ Hm). unfold j. by destruct Hi2 as [->| ->].
    + apply single_delete_end; [done|by rewrite R2, Hij| |done].
      rewrite <- (moved_key _ _ Hm). unfold j. by destruct Hi2 as [->| ->].
  - rewrite Hc, Hd.
    destruct (single_peek a i1 Fb Fcv) as (i2 & sk2 & E2 & Hpa & Hu2); [by rewrite (moved_skip _ _ Hm)|].
    pose proof Hpa as [Pk Pt _ _ _ _ Ps].
    exists i2, false, ((sk ++ [e]) ++ sk2). split; [exact E2|]. split_and!; try done.
    + apply Pt.
    + by eapply kept_trans; [by apply kept_moved|].
    + by apply Forall_app.
    + apply single_set with [] e; [|by rewrite uncovered_app, Hunc, Hu2|by constructor|done].
      apply (past_trans a i i1); try done; [by apply kept_moved|by apply moved_skip|by apply moved_pos|by apply moved_closer].
  - rewrite Hc, Hd. rewrite (proj2 (Z.eqb_eq _ _) Hk).
    destruct (IH (ineffectual i1)) as (i2 & b & seg & E2 & H1 & H2 & H3 & H4 & H5); try done.
    { by apply (behind_ext a i1). }
    { simpl. by rewrite (moved_skip _ _ Hm). }
    { simpl. by rewrite (moved_pos _ _ Hm). }
    { unfold closer_ok. simpl. by rewrite (moved_closer _ _ Hm). }
    { rewrite Fit, !length_app in Hf. simpl in Hf |- *. lia. }
    exists i2, b, ((sk ++ [e]) ++ seg). split_and!; try done.
    + eapply kept_trans; [by apply kept_moved|]. by eapply kept_trans; [|exact H2].
    + intros Hbt. rewrite (H3 Hbt). exact (moved_value _ _ Hm).
    + by apply Forall_app.
    + apply (single_end_more a i (ineffectual i1) i2 (sk ++ [e]) e); try done.
      * by eapply kept_trans; [by apply kept_moved|].
      * exact (moved_skip _ _ Hm).
      * exact (moved_pos _ _ Hm).
      * exact (moved_closer _ _ Hm).
      * exact (moved_key _ _ Hm).
Qed.

Lemma item_op_single e : single_delete e -> item_op e = (InternalKeyKindSingleDelete, it_val e).
Proof. intros H. unfold item_op. by rewrite H. Qed.
Lemma left_top_all i : at_entry i -> ci_skip i = false -> left_top p i = cur i ++ ci_iter i.
Proof.
  intros Hat Hs. unfold left_top. pose proof (ae_end _ _ Hat) as H. rewrite Hs. destruct (cur i) as [|e l] eqn:E.
  - by rewrite H.
  - unfold cur in E. destruct (ci_iterKey i); [|done]. by injection E as <- <-.
Qed.

(** A single delete disappears with the entry that it deletes. *)
Lemma past_continues i e i' seg us x :
  at_point i e -> single_delete e -> past (it_key e) (saved i e) i' seg ->
  uncovered seg = us ++ [x] -> Forall (fun e => single_delete e) us ->
  Kind (it_key x) = InternalKeyKindSet \/ Kind (it_key x) = InternalKeyKindMerge ->
  continues i e i'.
Proof.
  intros Hap Hsd [Pk Pt Ps Pp Pc Pi Pseg] Hu Hus Hx. pose proof Hap as [Ht Hc Hs Hp Hn Hcv Hpos Hcl].
  split; try done.
  - by destruct Pk.
  - by rewrite Pp.
  - unfold closer_ok. by rewrite Pc.
  - by exists seg.
  - change (ci_iter (saved i e)) with (ci_iter i) in Pi. change (ci_skip (saved i e)) with (ci_skip i) in Ps.
    rewrite left_top_all; [|apply Pt|congruence]. rewrite Pi, app_comm_cons.
    destruct (segment_cons i e seg Hap Pseg) as [S1 S2].
    apply (step_consume _ Hsnaps T B (it_key e) (e :: seg) e (uncovered seg) None); [done..|].
    intros R. rewrite Hu, app_comm_cons, fmap_app, <- app_assoc.
    intros HR. apply single_deletes_equiv; [done| |exact HR|done].
    apply Forall_fmap. constructor; [exact Hsd|]. done.
Qed.

Lemma singleDeleteNext_ok i e :
  at_point i e -> single_delete e ->
  exists i' b, singleDeleteNext p i = Ret (i', b) /\ if b then yields i e i' else continues i e i'.
Proof.
  intros Hap Hk0. pose proof Hap as [Ht Hc Hs Hp Hn Hcv Hpos Hcl].
  destruct (at_point_ok i e Hap) as (Hoke & Hok & Hb & Hcvs & Hk).
  unfold singleDeleteNext. rewrite (saveKey_ok i e Hc), bind_Ret.
  set (i1 := (saved i e) <| ci_value := ci_iterValue (saved i e) |> <| ci_valid := true |>).
  assert (behind (it_key e) i1) as Hb1 by (by apply (behind_ext _ (saved i e))).
  assert (ci_value i1 = it_val e) as Hv1 by (symmetry; apply (cur_iterKey i e Hc)).
  destruct (singleDeleteNext_loop_ok (it_key e) (S (length (ci_iter i1))) i1 Hb1)
    as (i' & b & seg & E & He & Hkp & Hv & Hseg & Hend); try done; [lia|].
  exists i', b. split; [done|].
  assert (kept i i') as Hkj by (destruct Hkp; by split).
  destruct Hend as [Hr Hi Hkey Hrem Hsd|Hr Hi Hkey Hrem|us x Hpa Hu Hus Hx].
  - rewrite Hv1 in Hv. change (ci_key i1) with (it_key e) in Hkey.
    split; rewrite ?Hkey; try done; [by split_and!; [|exact Hp|left]|by exists seg|].
    rewrite Hv, Hrem by done. rewrite (Hi : ci_iter i = _), app_comm_cons.
    destruct (segment_cons i e seg Hap Hseg) as [S1 S2].
    apply (step_consume _ Hsnaps T B (it_key e) (e :: seg) e (uncovered seg) (Some _)); [done..|].
    intros R _. rewrite Hk0. cbn [fmap list_fmap app option_list]. rewrite (item_op_single e Hk0).
    by apply tombstone_equiv.
  - apply (absorb_yields i e i' seg); try done.
    + rewrite Hkey. split; [done|]. rewrite Kind_SetKind, SeqNum_SetKind by done. split; [done|by left].
    + intros R R'. rewrite Hkey, Kind_SetKind by done. cbn [fmap list_fmap app].
      rewrite (item_op_single e Hk0). by apply tombstone_equiv.
  - apply (past_continues i e i' seg us x); try done. destruct Hpa; split; try done.
    by destruct pa_kept0.
Qed.

(** ** Eliding tombstones *)
Lemma no_same_key a i i1 sk :
  behind a i -> advance a i i1 sk -> idx (SeqNum a) = 0%nat -> ci_iterStripeChange i1 <> newStripeSameKey.
Proof.
  intros Hb [] H0 E. rewrite E in av_change0. destruct (cur i1) as [|e [|]]; try done.
  destruct av_change0 as [Hu Hne]. pose proof (bh_follows _ _ _ Hb) as Hf. rewrite av_iter0 in Hf.
  apply Forall_app in Hf as [_ [Hfe _]%Forall_cons].
  pose proof (before_seq_le a (it_key e) Hfe (eq_sym Hu)) as Hle.
  pose proof (idx_mono _ Hsnaps _ _ Hle). lia.
Qed.

Lemma left_top_stop a i i1 sk j :
  behind a i -> advance a i i1 sk -> ci_iterStripeChange i1 <> sameStripeSkippable ->
  cur j = cur i1 -> ci_iter j = ci_iter i1 -> ci_skip j = negb (new_stripe (ci_iterStripeChange i1)) ->
  left_top p j = drop_stripe a (cur j ++ ci_iter j).
Proof.
  intros Hb [] Hns Hc Hi Hs.
  destruct (stop_at_entry a i i1 sk Hb av_iter0 av_seg0 av_at0 av_change0 Hns) as [Hok Hcase].
  unfold left_top. rewrite Hc, Hi, Hs. destruct (cur i1) as [|e l] eqn:Ec.
  - by destruct Hcase as [-> _].
  - assert (l = []) as -> by (unfold cur in Ec; destruct (ci_iterKey i1); by simplify_eq).
    destruct Hcase as [(-> & Hk & ->)|[-> ->]]; simpl; [|done].
    unfold CompactionStep.drop_stripe at 2. rewrite filter_cons_True; [done|].
    intros [Hp _]. by apply point_not_rangedel in Hp.
Qed.

(** What is left of the stripe of an elided tombstone: nothing, or what is behind the
    entry that a single delete has deleted. *)
Record elided (a : InternalKey) (i i' : compactionIter) (seg : list item) : Prop := {
  el_kept : kept i i';
  el_top : top i';
  el_pos : ci_pos i' = ci_pos i;
  el_closer : ci_valueCloser i' = ci_valueCloser i;
  el_iter : ci_iter i = seg ++ cur i' ++ ci_iter i';
  el_seg : segment a seg;
  el_change : ci_iterStripeChange i' <> newStripeSameKey;
  el_left : left_top p i' = drop_stripe a (cur i' ++ ci_iter i') \/
    ci_skip i' = false /\ exists us x, uncovered seg = us ++ [x] /\ Forall (fun e => single_delete e) us /\
      (Kind (it_key x) = InternalKeyKindSet \/ Kind (it_key x) = InternalKeyKindMerge);
}.

Lemma elided_more a i i1 i' s1 e s2 :
  ci_iter i = s1 ++ ci_iter i1 -> uncovered s1 = [e] -> single_delete e -> segment a s1 ->
  kept i i1 -> ci_pos i1 = ci_pos i -> ci_valueCloser i1 = ci_valueCloser i ->
  elided a i1 i' s2 -> elided a i i' (s1 ++ s2).
Proof.
  intros Hi Hu Hsd Hseg Hkp Hp Hc []. split; try congruence.
  - by eapply kept_trans.
  - by rewrite Hi, el_iter0, app_assoc.
  - by apply Forall_app.
  - destruct el_left0 as [?|(? & us & x & Hx & Hus & Hkx)]; [by left|right].
    split; [done|]. exists (e :: us), x. split; [by rewrite uncovered_app, Hu, Hx|]. split; [by constructor|done].
Qed.

(** Ahead of the next entry that is not of the stripe, or a range deletion. *)
Lemma elided_stop a i i1 sk j :
  behind a i -> advance a i i1 sk -> idx (SeqNum a) = 0%nat ->
  ci_iterStripeChange i1 <> sameStripeSkippable -> same_place i1 j -> kept i1 j ->
  ci_pos j = ci_pos i1 -> ci_valueCloser j = ci_valueCloser i1 ->
  ci_skip j = negb (new_stripe (ci_iterStripeChange i1)) -> elided a i j sk.
Proof.
  intros Hb Hav H0 Hns Hsp Hkp Hpos Hcl Hs. pose proof Hav as [Hm Hat Hseg _ Hit Hco].
  pose proof Hsp as (J1 & J2 & J3 & J4 & J5 & J6).
  destruct (stop_at_entry a i i1 sk Hb Hit Hseg Hat Hco Hns) as [Hok Hcase].
  pose proof (moved_pos _ _ Hm). pose proof (moved_closer _ _ Hm). split; try congruence.
  - eapply kept_trans; [by apply kept_moved|done].
  - destruct Hat as [A1 A2 A3]. split; [split| |]; rewrite ?J1, ?J2, ?J3, ?J4, ?J5; try done.
    rewrite Hs. intros Hn. destruct (ci_iterStripeChange i1), (cur i1) as [|e [|]]; try done.
    exists e. by destruct Hco.
  - rewrite J6. by apply (no_same_key a i i1 sk).
  - left. by apply (left_top_stop a i i1 sk).
Qed.
(** All the rest of the stripe is skipped. *)
Lemma elided_skip a i seg i0 :
  ci_iter i = seg ++ ci_iter i0 -> segment a seg -> kept i i0 -> ci_pos i0 = ci_pos i ->
  ci_valueCloser i0 = ci_valueCloser i -> idx (SeqNum a) = 0%nat -> behind a i0 -> covers i0 ->
  exists i' seg', skipInStripe p i0 = Ret i' /\ elided a i i' (seg ++ seg') /\
    left_top p i' = drop_stripe a (cur i' ++ ci_iter i') /\
    ci_skip i' = negb (new_stripe (ci_iterStripeChange i')) /\
    ci_iterStripeChange i' <> sameStripeSkippable.
Proof.
  intros Hi Hseg Hk Hp Hc H0 Hb Hcv.
  destruct (skipInStripe_ok p Hsnaps T a i0 Hb Hcv)
    as (i' & -> & Hm & Ht & Hl & (sk & Hit & Hsk) & Hco & Hs & Hns).
  assert (left_top p i' = drop_stripe a (cur i' ++ ci_iter i')) as Hlt.
  { rewrite Hl, Hit. by apply drop_stripe_segment. }
  exists i', sk. split; [done|]. split; [|done].
  split; try done.
  - eapply kept_trans; [done|]. destruct (kept_moved _ _ Hm). by split.
  - rewrite (moved_pos _ _ Hm). done.
  - rewrite (moved_closer _ _ Hm). done.
  - by rewrite Hi, Hit, app_assoc.
  - by apply Forall_app.
  - intros E. rewrite E in Hco. destruct (cur i') as [|e [|]]; try done. destruct Hco as [Hu Hne].
    pose proof (bh_follows _ _ _ Hb) as Hf. rewrite Hit in Hf. apply Forall_app in Hf as [_ [Hfe _]%Forall_cons].
    pose proof (idx_mono _ Hsnaps _ _ (before_seq_le a (it_key e) Hfe (eq_sym Hu))). lia.
  - by left.
Qed.

(** Looking behind the entry that is deleted, in the last stripe. *)
Lemma elide_peek a i :
  behind a i -> covers i -> ci_skip i = false -> idx (SeqNum a) = 0%nat ->
  exists i' sk,
    ('(i, change) ← nextInStripe p i;
     match ci_err i with
     | Some _ => Panic "error in skipDueToSingleDeleteElision"
     | None =>
       i ← match change with
           | newStripeSameKey => Panic "eliding single delete followed by same key in new stripe"
           | newStripeNewKey | sameStripeNonSkippable => Ret i
           | sameStripeSkippable =>
               match ci_iterKey i with
               | None => nil_deref
               | Some next =>
                   let nextKind := Kind next in
                   if is_set nextKind || (nextKind =? InternalKeyKindMerge) then Ret (violation i)
                   else if is_tombstone nextKind || (nextKind =? InternalKeyKindRangeDelete) then Ret i
                   else Panic "unexpected internal key kind"
               end
           end;
       Ret (i <| ci_skip := false |>)
     end) = Ret i' /\ past a i i' sk /\ uncovered sk = [] /\ ci_iterStripeChange i' <> newStripeSameKey.
Proof.
  intros Hb Hcv Hs H0. destruct (next_cases a i Hb Hcv) as (i1 & sk & -> & Hav & Hfound). rewrite bind_Ret.
  rewrite (ae_err _ _ (av_at _ _ _ _ Hav)). pose proof (no_same_key a i i1 sk Hb Hav H0) as Hnk.
  assert (forall j, j = i1 \/ j = violation i1 -> exists i' sk',
    Ret (j <| ci_skip := false |>) = Ret i' /\ past a i i' sk' /\ uncovered sk' = [] /\
    ci_iterStripeChange i' <> newStripeSameKey) as Hend.
  { intros j Hj. pose proof (moved_skip _ _ (av_moved _ _ _ _ Hav)) as Hs1. rewrite Hs in Hs1.
    exists (j <| ci_skip := false |>), sk. split; [done|]. split; [|split].
    - apply (past_advance a i i1 sk); try done; by destruct Hj as [->| ->].
    - apply uncovered_covered, Hav.
    - by destruct Hj as [->| ->]. }
  destruct (ci_iterStripeChange i1) eqn:Ech.
  - apply (Hend i1). by left.
  - done.
  - destruct (Hfound eq_refl) as (e & [Fcur Fkey Fval Fp Fok Fst Fnc Fb Fcv Fseg Fit]).
    rewrite Fkey. cbv zeta. destruct (point_kinds e Fp) as [Hk|Hk].
    + rewrite Hk. apply (Hend (violation i1)). by right.
    + rewrite (is_tombstone_not_set _ Hk), Hk. apply (Hend i1). by left.
  - apply (Hend i1). by left.
Qed.

(** The kinds of points, as the elision tells them apart. *)
Lemma elide_kinds e : point e ->
  let k := Kind (it_key e) in
  (is_tombstone k = true /\ (k =? InternalKeyKindSingleDelete) = true /\ single_delete e) \/
  (is_tombstone k = true /\ (k =? InternalKeyKindSingleDelete) = false) \/
  (is_tombstone k = false /\ (k =? InternalKeyKindSetWithDelete) = true) \/
  (is_tombstone k = false /\ (k =? InternalKeyKindSetWithDelete) = false /\
   (k =? InternalKeyKindSet) || (k =? InternalKeyKindMerge) = true /\
   (k = InternalKeyKindSet \/ k = InternalKeyKindMerge)).
Proof.
  intros Hp. cbv zeta. destruct (single_kinds e Hp) as [Hk|[(Hc & Hd & [Hk|Hk])|(Hc & Hd & Hk)]].
  - apply orb_true_iff in Hk as [[Hk|Hk]%orb_true_iff|Hk]; apply Z.eqb_eq in Hk; rewrite Hk;
      [by right; left|by right; right; left|by right; left].
  - rewrite Hk. do 3 right. split_and!; [done..|by left].
  - rewrite Hk. do 3 right. split_and!; [done..|by right].
  - rewrite Hk. by left.
Qed.

Lemma skipDueToSingleDeleteElision_ok a fuel : forall i,
  behind a i -> covers i -> Kind a <> InternalKeyKindRangeDelete ->
  ci_skip i = false -> idx (SeqNum a) = 0%nat -> (length (ci_iter i) < fuel)%nat ->
  exists i' seg, skipDueToSingleDeleteElision p fuel i = Ret i' /\ elided a i i' seg.
Proof.
  induction fuel as [|fuel IH]; intros i Hb Hcv Ha Hskip H0 Hf; [lia|]. cbn [skipDueToSingleDeleteElision].
  destruct (next_cases a i Hb Hcv) as (i1 & sk & -> & Hav & Hfound). rewrite bind_Ret.
  pose proof (av_moved _ _ _ _ Hav) as Hm. rewrite (ae_err _ _ (av_at _ _ _ _ Hav)).
  pose proof (no_same_key a i i1 sk Hb Hav H0) as Hnk.
  destruct (ci_iterStripeChange i1) eqn:Ech.
  - exists ((ineffectual i1) <| ci_skip := false |>), sk. split; [done|].
    apply (elided_stop a i i1 sk); rewrite ?Ech; done.
  - done.
  - destruct (Hfound eq_refl) as (e & [Fcur Fkey Fval Fp Fok Fst Fnc Fb Fcv Fseg Fit]).
    rewrite Fkey. cbv zeta. pose proof (uncovered_found sk e (av_covered _ _ _ _ Hav) Fnc) as Hunc.
    assert (forall i0, i0 = i1 \/ i0 = ineffectual i1 ->
      behind a i0 /\ covers i0 /\ kept i i0 /\ ci_pos i0 = ci_pos i /\ ci_valueCloser i0 = ci_valueCloser i /\
      ci_iter i = (sk ++ [e]) ++ ci_iter i0 /\ ci_skip i0 = false) as Hi0.
    { intros i0 Hi0. assert (kept i1 i0) by (by destruct Hi0 as [->| ->]).
      split_and!; try (destruct Hi0 as [->| ->]; done).
      - apply (behind_ext a i1); try done; by destruct Hi0 as [->| ->].
      - by eapply kept_trans; [by apply kept_moved|].
      - rewrite <- (moved_pos _ _ Hm). by destruct Hi0 as [->| ->].
      - rewrite <- (moved_closer _ _ Hm). by destruct Hi0 as [->| ->].
      - rewrite <- Hskip, <- (moved_skip _ _ Hm). by destruct Hi0 as [->| ->]. }
    assert (forall i0, i0 = i1 \/ i0 = ineffectual i1 ->
      exists i' seg, skipInStripe p i0 = Ret i' /\ elided a i i' seg) as Hskp.
    { intros i0 Hi. destruct (Hi0 i0 Hi) as (Q1 & Q2 & Q3 & Q4 & Q5 & Q6 & _).
      destruct (elided_skip a i (sk ++ [e]) i0) as (i' & seg' & E & Hel & _); try done. eauto. }
    destruct (elide_kinds e Fp) as [(-> & -> & Hk)|[(-> & ->)|[(-> & ->)|(-> & -> & -> & Hk)]]].
    + destruct (Hi0 (ineffectual i1)) as (Q1 & Q2 & Q3 & Q4 & Q5 & Q6 & Q7); [by right|].
      destruct (IH (ineffectual i1)) as (i' & seg & E & Hel); try done.
      { rewrite Q6, !length_app in Hf. simpl in Hf |- *. lia. }
      exists i', ((sk ++ [e]) ++ seg). split; [done|]. by apply (elided_more a i (ineffectual i1) i' (sk ++ [e]) e).
    + apply Hskp. by right.
    + apply Hskp. by left.
    + destruct (Hi0 i1) as (Q1 & Q2 & Q3 & Q4 & Q5 & Q6 & Q7); [by left|].
      destruct (elide_peek a i1 Fb Fcv) as (i2 & sk2 & E2 & Hpa & Hu2 & Hnk2); [done..|].
      exists i2, ((sk ++ [e]) ++ sk2). split; [exact E2|].
      assert (past a i i2 ((sk ++ [e]) ++ sk2)) as [Pk Pt Ps Pp Pc Pi Pseg].
      { apply (past_trans a i i1); try done. congruence. }
      split; try done. right. split; [congruence|]. exists [], e.
      split; [by rewrite uncovered_app, Hunc, Hu2|]. done.
  - exists (i1 <| ci_skip := true |>), sk. split; [done|].
    apply (elided_stop a i i1 sk); rewrite ?Ech; done.
Qed.

Lemma next_elided_ok i e :
  at_point i e -> is_tombstone (Kind (it_key e)) = true -> ci_curSnapshotIdx i = 0%nat -> B (uk e) = [] ->
  exists i', next_elided p i = Ret i' /\ continues i e i'.
Proof.
  intros Hap Ht0 Hi0 HB. pose proof Hap as [Ht Hc Hs Hp Hn Hcv Hpos Hcl].
  destruct (at_point_ok i e Hap) as (Hoke & Hok & Hb & Hcvs & Hk).
  assert (idx (sq e) = 0%nat) as H0 by (rewrite <- Hi0; symmetry; apply (ae_idx _ _ (tp_at _ _ Ht) e Hc)).
  assert (forall i' seg, elided (it_key e) (saved i e) i' seg ->
    left_top p i' = drop_stripe (it_key e) (cur i' ++ ci_iter i') \/ single_delete e ->
    continues i e i') as Hend.
  { intros i' seg [Ek Et Ep Ec Ei Es Ech El] Hsd.
    assert (kept i i') as Hk' by (by destruct Ek).
    assert (left_top p i' = drop_stripe (it_key e) (cur i' ++ ci_iter i') \/
      (single_delete e /\ ci_skip i' = false /\ exists us x, uncovered seg = us ++ [x] /\
        Forall (fun e => single_delete e) us /\
        (Kind (it_key x) = InternalKeyKindSet \/ Kind (it_key x) = InternalKeyKindMerge)))
      as [Hl|(Hsd' & Hsk & us & x & Hu & Hus & Hx)].
    { destruct Hsd as [?|?]; [by left|]. destruct El as [?|[? ?]]; [by left|by right]. }
    - split; try done; [by rewrite Ep|unfold closer_ok; by rewrite Ec|by exists seg|].
      rewrite Hl, (Ei : ci_iter i = _), app_comm_cons.
      destruct (segment_cons i e seg Hap Es) as [S1 S2].
      apply (step_elide _ Hsnaps T B (e :: seg) e (uncovered seg)); try done.
      + simpl. by rewrite <- (Ei : ci_iter i = _).
      + intros R. by apply tombstone_nil.
    - apply (past_continues i e i' seg us x); try done. split; try done. simpl. congruence. }
  unfold next_elided. rewrite (saveKey_ok i e Hc), bind_Ret.
  change (ci_key (saved i e)) with (it_key e).
  destruct (Z.eqb_spec (Kind (it_key e)) InternalKeyKindSingleDelete) as [Hsd|Hsd].
  - destruct (skipDueToSingleDeleteElision_ok (it_key e) (S (length (ci_iter (saved i e)))) (saved i e))
      as (i' & seg & -> & Hel); try done; [lia|]. rewrite bind_Ret.
    rewrite decide_False by (apply Hel). exists i'. split; [done|]. apply (Hend i' seg Hel). by right.
  - destruct (elided_skip (it_key e) (saved i e) [] (saved i e)) as (i' & seg & -> & Hel & Hl & Hs' & Hns); try done.
    { constructor. }
    rewrite bind_Ret. pose proof (el_change _ _ _ _ Hel) as Hch.
    assert (negb (ci_skip i') && negb (bool_decide (ci_iterStripeChange i' = newStripeNewKey)) = false) as ->.
    { rewrite Hs'. by destruct (ci_iterStripeChange i'). }
    rewrite bind_Ret, decide_False by done. exists i'. split; [done|]. apply (Hend i' _ Hel). by left.
Qed.

(** ** Sized tombstones *)
Lemma remaining_left_top i : top i -> ci_pos i = iterPosNext -> remaining i = left_top p i.
Proof.
  intros [Hat Hok Htop] Hpos. unfold remaining, pending, anchor. rewrite Hpos.
  destruct (ci_skip i) eqn:Hs; [|by rewrite left_top_all].
  destruct (Htop eq_refl) as (e & Hc & Hk). destruct (cur_iterKey i e Hc) as [-> _].
  unfold left_top. rewrite Hc, Hs. unfold CompactionStep.drop_stripe at 1. cbn [app].
  rewrite (filter_cons_True _ e); [done|]. intros [Hp _]. by apply point_not_rangedel in Hp.
Qed.

Record sized_end (a : InternalKey) (i i' : compactionIter) (seg : list item) : Prop := {
  sz_err : ci_err i' = None;
  sz_kept : kept i i';
  sz_ready : ready i';
  sz_iter : ci_iter i = seg ++ pending i';
  sz_seg : segment a seg;
  sz_remaining : remaining i' = drop_stripe a (pending i');
  sz_key : ci_key i' = ci_key i \/ ci_key i' = SetKind (ci_key i) InternalKeyKindDelete;
}.

(** The tombstone becomes one without a size, and the rest of the stripe is skipped. *)
Lemma sized_skip a i i0 seg :
  behind a i0 -> covers i0 -> closer_ok i0 -> ci_pos i0 = iterPosNext -> kept i i0 ->
  ci_iter i = seg ++ ci_iter i0 -> segment a seg ->
  ci_key i0 = SetKind (ci_key i) InternalKeyKindDelete ->
  exists i' seg', (i ← skipInStripe p i0; Ret (i, true)) = Ret (i', true) /\ sized_end a i i' seg'.
Proof.
  intros Hb Hcv Hcl Hpos Hk Hi Hseg Hkey.
  destruct (skipInStripe_ok p Hsnaps T a i0 Hb Hcv)
    as (i' & -> & Hm & Ht & Hl & (sk & Hit & Hsk) & Hco & Hs & Hns).
  rewrite bind_Ret. exists i', (seg ++ sk). split; [done|].
  assert (ci_pos i' = iterPosNext) as Hpos' by (rewrite (moved_pos _ _ Hm); done).
  assert (pending i' = cur i' ++ ci_iter i') as Hpend by (unfold pending; by rewrite Hpos').
  split; rewrite ?Hpend.
  - apply Ht.
  - eapply kept_trans; [done|]. destruct (kept_moved _ _ Hm). by split.
  - split; [rewrite (moved_closer _ _ Hm); exact Hcl|by rewrite Hpos'|]. intros _. split; [done|].
    rewrite Hs. by destruct (ci_iterStripeChange i').
  - by rewrite Hi, Hit, app_assoc.
  - by apply Forall_app.
  - rewrite remaining_left_top by done. rewrite Hl, Hit. by apply drop_stripe_segment.
  - right. rewrite (moved_key _ _ Hm). done.
Qed.

Lemma sized_end_more a i i1 i' s1 s2 :
  kept i i1 -> ci_iter i = s1 ++ ci_iter i1 -> segment a s1 -> ci_key i1 = ci_key i ->
  sized_end a i1 i' s2 -> sized_end a i i' (s1 ++ s2).
Proof.
  intros Hk Hi Hs Hkey []. split; try done; try congruence.
  - by eapply kept_trans.
  - by rewrite Hi, sz_iter0, app_assoc.
  - by apply Forall_app.
Qed.

Lemma deleteSizedNext_loop_ok a fuel : forall i,
  behind a i -> covers i -> Kind a <> InternalKeyKindRangeDelete -> delsized_ok (ci_value i) ->
  ci_skip i = true -> ci_pos i = iterPosNext -> closer_ok i -> (length (ci_iter i) < fuel)%nat ->
  exists i' seg, deleteSizedNext_loop p fuel i = Ret (i', true) /\ sized_end a i i' seg.
Proof.
  induction fuel as [|fuel IH]; intros i Hb Hcv Ha Hv Hskip Hpos Hcl Hf; [lia|]. cbn [deleteSizedNext_loop].
  destruct (next_cases a i Hb Hcv) as (i1 & sk & -> & Hav & Hfound). rewrite bind_Ret.
  pose proof (av_moved _ _ _ _ Hav) as Hm. pose proof (av_at _ _ _ _ Hav) as Hat.
  pose proof (moved_skip _ _ Hm) as Hs1. rewrite Hskip in Hs1.
  pose proof (moved_pos _ _ Hm) as Hp1. rewrite Hpos in Hp1.
  assert (closer_ok i1) as Hcl1 by (unfold closer_ok; by rewrite (moved_closer _ _ Hm)).
  case_decide as Hch.
  { assert ((if new_stripe (ci_iterStripeChange i1) then i1 <| ci_skip := false |> else i1) =
      i1 <| ci_skip := negb (new_stripe (ci_iterStripeChange i1)) |>) as ->.
    { destruct (new_stripe _); [done|]. destruct i1; simpl in *. by subst. }
    set (j := i1 <| ci_skip := _ |>).
    destruct (advance_ahead a i i1 sk j Hb Hav Hch) as (R1 & R2 & R3); [done|done|done| |].
    { simpl. by destruct (ci_iterStripeChange i1). }
    exists j, sk. change (ci_err j) with (ci_err i1). rewrite (ae_err _ _ Hat). split; [done|].
    split; try done; [apply Hat|by eapply kept_trans; [by apply kept_moved|]|rewrite R2; apply Hav|apply Hav|by apply R3|].
    left. exact (moved_key _ _ Hm). }
  assert (ci_iterStripeChange i1 = sameStripeSkippable) as Hch' by (destruct (decide (ci_iterStripeChange i1 = sameStripeSkippable)); tauto).
  destruct (Hfound Hch') as (e & [Fcur Fkey Fval Fp Fok Fst Fnc Fb Fcv Fseg Fit]).
  rewrite (ae_err _ _ Hat), Fkey, Fval. cbv zeta.
  assert (forall n v, exists i' seg,
    (i ← skipInStripe p ((set_kind i1 InternalKeyKindDelete) <| ci_countMissizedDels := n |> <| ci_value := v |>);
     Ret (i, true)) = Ret (i', true) /\ sized_end a i i' seg) as Hskp.
  { intros n v. apply (sized_skip a i _ (sk ++ [e])); try done.
    - by apply (behind_ext a i1).
    - by eapply kept_trans; [by apply kept_moved|].
    - simpl. by rewrite (moved_key _ _ Hm). }
  assert (forall n v, delsized_ok v -> exists i' seg,
    deleteSizedNext_loop p fuel (i1 <| ci_countMissizedDels := n |> <| ci_value := v |>) = Ret (i', true) /\
    sized_end a i i' seg) as Hloop.
  { intros n v Hv'. set (j := _ <| ci_value := v |>).
    destruct (IH j) as (i' & seg & E & Hsz); try done.
    { by apply (behind_ext a i1). }
    { rewrite Fit, !length_app in Hf. simpl in Hf |- *. lia. }
    exists i', ((sk ++ [e]) ++ seg). split; [done|]. apply (sized_end_more a i j); try done.
    - by eapply kept_trans; [by apply kept_moved|].
    - exact (moved_key _ _ Hm). }
  assert (forall v, delsized_ok v -> v <> [] -> negb (snd (Uvarint v) =? Z.of_nat (length v)) = false) as Huv.
  { intros v [?|H] Hne; [done|]. by rewrite H, Z.eqb_refl. }
  assert (i1 = i1 <| ci_countMissizedDels := ci_countMissizedDels i1 |> <| ci_value := ci_value i1 |>) as Heta
    by (by destruct i1).
  rewrite <- (moved_value _ _ Hm) in Hv.
  destruct (is_tombstone (Kind (it_key e))) eqn:Et.
  - assert (delsized_ok (it_val e) \/ (Kind (it_key e) =? InternalKeyKindDeleteSized) = false) as Hve.
    { destruct (Z.eqb_spec (Kind (it_key e)) InternalKeyKindDeleteSized) as [E|E]; [left|by right].
      destruct Fok as (_ & _ & [(_ & _ & H)|[[H _]|H]]); [auto|by rewrite E in H..]. }
    assert (exists n, match ci_value i1 with [] => i1 | _ :: _ =>
        i1 <| ci_countMissizedDels := u64 (ci_countMissizedDels i1 + 1) |> end =
      i1 <| ci_countMissizedDels := n |>) as [n ->].
    { destruct (ci_value i1); [|by eexists]. exists (ci_countMissizedDels i1). by destruct i1. }
    change (ci_iterValue (i1 <| ci_countMissizedDels := n |>)) with (ci_iterValue i1). rewrite Fval.
    destruct (Kind (it_key e) =? InternalKeyKindDeleteSized); cbn [negb].
    + apply Hloop. by destruct Hve.
    + apply Hskp.
  - assert (is_set (Kind (it_key e)) || (Kind (it_key e) =? InternalKeyKindMerge) = true) as ->.
    { unfold point, is_point in Fp. by rewrite Et in Fp. }
    destruct (ci_value i1) as [|b0 v] eqn:Ev.
    + rewrite Heta. apply (Hskp _ []).
    + specialize (Huv _ Hv ltac:(done)). destruct (Uvarint (b0 :: v)) as [size n]. cbn [snd] in Huv. rewrite Huv.
      match goal with |- context [if ?c then _ else _] => destruct c end.
      * apply (Hskp _ []).
      * rewrite Heta. apply (Hloop _ []). by left.
Qed.

Lemma deleteSizedNext_ok i e :
  at_point i e -> Kind (it_key e) = InternalKeyKindDeleteSized ->
  exists i', deleteSizedNext p i = Ret (i', true) /\ yields i e i'.
Proof.
  intros Hap Hk0. pose proof Hap as [Ht Hc Hs Hp Hn Hcv Hpos Hcl].
  destruct (at_point_ok i e Hap) as (Hoke & Hok & Hb & Hcvs & Hk).
  unfold deleteSizedNext. rewrite (saveKey_ok i e Hc), bind_Ret.
  set (i1 := (saved i e) <| ci_valid := true |> <| ci_skip := true |> <| ci_value := _ |> <| ci_pos := _ |>).
  assert (behind (it_key e) i1) as Hb1 by (by apply (behind_ext _ (saved i e))).
  assert (ci_value i1 = it_val e) as Hv1 by (symmetry; apply (cur_iterKey i e Hc)).
  destruct (deleteSizedNext_loop_ok (it_key e) (S (length (ci_iter i1))) i1 Hb1)
    as (i' & seg & E & [Z1 Z2 Z3 Z4 Z5 Z6 Z7]); try done; [|lia|].
  { rewrite Hv1. destruct Hoke as (_ & _ & [(_ & _ & H)|[[H _]|H]]); [auto|by rewrite Hk0 in H..]. }
  exists i'. split; [done|]. change (ci_key i1) with (it_key e) in Z7.
  apply (absorb_yields i e i' seg); try done.
  - by destruct Z2.
  - destruct Z7 as [->| ->]; [split_and!; [done|exact Hp|by left]|].
    split; [done|]. rewrite Kind_SetKind, SeqNum_SetKind by done. split; [done|by left].
  - intros R R'. cbn [fmap list_fmap app]. apply tombstone_equiv.
    + by rewrite Hk0.
    + destruct Z7 as [->| ->]; [by rewrite Hk0|by rewrite Kind_SetKind].
Qed.
End ops.
