(* ===== verification/CompactionLoop.v ===== *)
(** [Next] and [First] of the compaction iterator: every call returns, and what it returns
    and leaves is seen by readers as what was left before. *)
From S2P Require Import Prelude.
From S2P Require Import Comparer.
From S2P Require Import InternalKey.
From S2P Require Import Keyspan.
From S2P Require Import RangeKey.
From S2P Require Import Merger.
From S2P Require Import CompactionIter.
From S2P Require Import CompactionStep.
From S2P Require Import CompactionNext.
From S2P Require Import CompactionOps.
From Stdlib Require Import Sorted.

Local Open Scope Z_scope.

Section loop.
Context {C : Comparer} {L : ComparerLaws C} {M : Merge} {ML : MergeLaws M} (p : params).
Context (Hsnaps : snaps_ok (snapshots p)) (T : bytes -> list Z) (B : bytes -> list op).
Context (Helide : forall k, elideTombstone p k = true -> B k = []).
Abbreviation idx q := (fst (snapshotIndex q (snapshots p))).
Abbreviation covered := (covered (snapshots p) T).
Abbreviation same_stripe := (same_stripe (snapshots p)).
Abbreviation drop_stripe := (drop_stripe (snapshots p)).
Abbreviation segment := (segment (snapshots p)).
Abbreviation covers_ok := (covers_ok p T).
Abbreviation covers := (covers p T).
Abbreviation behind := (behind p).
Abbreviation top := (top p).
Abbreviation ready := (ready p).
Abbreviation remaining := (remaining p).
Abbreviation left_top := (left_top p).
Abbreviation step_ok := (step_ok (snapshots p) T B).

(** What is skipped are points. *)
Lemma segment_points a seg : segment a seg -> Forall point seg.
Proof. intros H. eapply Forall_impl; [exact H|]. by intros x (Hp & _). Qed.
Lemma covers_ok_points f l1 l2 : covers_ok f (l1 ++ l2) -> Forall point l1 -> covers_ok f l2.
Proof.
  intros H Hp. eapply covers_ok_app; [exact H|]. eapply Forall_impl; [exact Hp|]. intros x. apply point_not_rangedel.
Qed.

(** What a call returns, from the entries [l] that are in the input of which [left] count. *)
Inductive outcome (l left : list item) (i' : compactionIter) : returned -> Prop :=
| outcome_end :
    cur i' = [] -> Forall point l -> step_ok left [] [] -> closer_ok i' -> outcome l left i' None
| outcome_span e seg :
    Forall point seg -> l = seg ++ e :: pending i' -> ~ point e -> item_ok e -> cur i' = [e] -> ready i' ->
    sublist (remaining i') left -> step_ok left [] (remaining i') ->
    outcome l left i' (Some (it_key e, it_val e))
| outcome_point e seg :
    Forall point seg -> l = seg ++ pending i' -> e ∈ seg -> point e -> item_ok e -> ~ covered (it_key e) -> ready i' ->
    emits p e (ci_key i') -> sublist (e :: remaining i') left ->
    step_ok left [(it_key e, (Kind (ci_key i'), ci_value i'))] (remaining i') ->
    (SeqNum (ci_key i') <> sq e -> Forall (fun x => point x -> uk x <> uk e) (remaining i')) ->
    outcome l left i' (Some (ci_key i', ci_value i')).

Lemma outcome_more seg l left l' left' i' r :
  Forall point seg -> l = seg ++ l' -> sublist left' left -> step_ok left [] left' ->
  outcome l' left' i' r -> outcome l left i' r.
Proof.
  intros Hs -> Hsub Hst [H1 H2 H3 Hcl|e s H1 H2 H3 H4 H5 H6 H7 H8|e s H1 H2 He H3 H4 H5 H6 H7 H8 H9 H10].
  - apply outcome_end; [done|by apply Forall_app| |done]. exact (step_ok_trans _ _ _ _ [] _ [] _ Hst H3).
  - apply outcome_span with (seg ++ s); try done; [by apply Forall_app|by rewrite H2, app_assoc|by etransitivity|].
    exact (step_ok_trans _ _ _ _ [] _ [] _ Hst H8).
  - apply outcome_point with e (seg ++ s); try done;
      [by apply Forall_app|by rewrite H2, app_assoc|apply elem_of_app; by right|by etransitivity|].
    exact (step_ok_trans _ _ _ _ [] _ [_] _ Hst H9).
Qed.

Lemma remaining_sub i : sublist (remaining i) (pending i).
Proof. unfold CompactionOps.remaining. destruct (ci_skip i); [apply sublist_filter|done]. Qed.
Lemma left_top_sub i : sublist (left_top i) (cur i ++ ci_iter i).
Proof.
  unfold CompactionNext.left_top, cur. destruct (ci_iterKey i); simpl; [|apply sublist_nil_l].
  apply sublist_skip. destruct (ci_skip i); [apply sublist_filter|done].
Qed.
Lemma left_top_point i e : top i -> cur i = [e] -> point e -> ci_skip i = false /\ left_top i = e :: ci_iter i.
Proof.
  intros [Hat Hok Hs] Hc Hp. assert (ci_skip i = false) as Hf.
  { destruct (ci_skip i); [|done]. destruct (Hs eq_refl) as (e' & Hc' & Hk).
    rewrite Hc in Hc'. injection Hc' as <-. by apply point_not_rangedel in Hp. }
  split; [done|]. unfold CompactionNext.left_top. by rewrite Hc, Hf.
Qed.

Lemma yields_outcome i e i' :
  at_point p T i e -> yields p T B i e i' ->
  outcome (cur i ++ ci_iter i) (left_top i) i' (Some (ci_key i', ci_value i')).
Proof.
  intros Hap [Y1 Y2 Y3 Y4 (seg & Y5 & Y6) Y7 Y8].
  destruct (at_point_ok p T i e Hap) as (Hoke & Hok & Hb & Hcv & Hk).
  destruct (left_top_point i e (ap_top _ _ _ _ Hap) (ap_cur _ _ _ _ Hap) (ap_point _ _ _ _ Hap)) as [Hf Hl].
  apply outcome_point with e (e :: seg); try done; try apply Hap.
  - constructor; [apply Hap|]. by apply (segment_points (it_key e)).
  - rewrite (ap_cur _ _ _ _ Hap), Y5. done.
  - left.
  - rewrite Hl. apply sublist_skip. rewrite Y5. apply sublist_inserts_l, remaining_sub.
  - by rewrite Hl.
Qed.

(** What is needed to go on. *)
Record going (i i' : compactionIter) (seg : list item) : Prop := {
  go_kept : kept i i';
  go_top : top i';
  go_pos : ci_pos i' = iterPosCurForward;
  go_closer : closer_ok i';
  go_seg : Forall point seg;
  go_iter : cur i ++ ci_iter i = seg ++ cur i' ++ ci_iter i';
  go_cons : seg <> [];
  go_sub : sublist (left_top i') (left_top i);
  go_step : step_ok (left_top i) [] (left_top i');
}.
Lemma continues_going i e i' :
  at_point p T i e -> continues p T B i e i' -> exists seg, going i i' seg.
Proof.
  intros Hap [C1 C2 C3 C4 (seg & C5 & C6) C7].
  destruct (at_point_ok p T i e Hap) as (Hoke & Hok & Hb & Hcv & Hk).
  destruct (left_top_point i e (ap_top _ _ _ _ Hap) (ap_cur _ _ _ _ Hap) (ap_point _ _ _ _ Hap)) as [Hf Hl].
  exists (e :: seg). split; try done.
  - constructor; [apply Hap|]. by apply (segment_points (it_key e)).
  - rewrite (ap_cur _ _ _ _ Hap), C5. done.
  - rewrite Hl. apply sublist_cons. rewrite C5. apply sublist_inserts_l, left_top_sub.
  - by rewrite Hl.
Qed.

(** The state of the loop. *)
Record looping (i : compactionIter) : Prop := {
  lo_top : top i;
  lo_pos : ci_pos i = iterPosCurForward;
  lo_closer : closer_ok i;
  lo_covers : covers_ok (ci_rangeDelFrag i) (cur i ++ ci_iter i);
}.
Lemma looping_going i i' seg : looping i -> going i i' seg -> looping i'.
Proof.
  intros [L1 L2 L3 L4] []. split; try done. rewrite (kp_frag _ _ go_kept0).
  rewrite go_iter0 in L4. by eapply covers_ok_points.
Qed.
Definition loop_result (i : compactionIter) (m : go (compactionIter * returned)) : Prop :=
  exists i' r, m = Ret (i', r) /\ ci_err i' = None /\ kept i i' /\
    outcome (cur i ++ ci_iter i) (left_top i) i' r.
Lemma loop_result_going i i' seg m : going i i' seg -> loop_result i' m -> loop_result i m.
Proof.
  intros [] (i2 & r & -> & He & Hk & Ho). exists i2, r. split; [done|]. split; [done|].
  split; [by eapply kept_trans|]. by apply (outcome_more seg _ _ (cur i' ++ ci_iter i') (left_top i')).
Qed.
Lemma loop_result_yields i e i' :
  at_point p T i e -> yields p T B i e i' -> loop_result i (Ret (i', Some (ci_key i', ci_value i'))).
Proof.
  intros Hap Hy. exists i', (Some (ci_key i', ci_value i')). split; [done|].
  split; [apply Hy|]. split; [apply Hy|]. by apply (yields_outcome i e i').
Qed.

(** The cases of a point that is not covered. *)
Lemma next_point i e fuel :
  at_point p T i e ->
  (forall i' seg, going i i' seg -> loop_result i' (next_loop p fuel i')) ->
  loop_result i
    (let kind := Kind (it_key e) in
     if is_tombstone kind then
       let elide := elideTombstone p (UserKey (it_key e)) in
       if elide && (ci_curSnapshotIdx i =? 0)%nat then
         i ← next_elided p i;
         next_loop p fuel i
       else
       let i := if elide then i <| ci_snapshotPinned := true |> else i in
       if (kind =? InternalKeyKindDelete) then
         i ← saveKey i;
         yield (i <| ci_value := ci_iterValue i |> <| ci_valid := true |> <| ci_skip := true |>)
       else if (kind =? InternalKeyKindDeleteSized) then
         '(i, ok) ← deleteSizedNext p i;
         if ok : bool then yield i else Ret (i, None)
       else
         '(i, ok) ← singleDeleteNext p i;
         if ok : bool then yield i
         else match ci_err i with
              | Some _ => Ret (i, None)
              | None => next_loop p fuel i
              end
     else if is_set kind then
       i ← setNext p i;
       match ci_err i with
       | Some _ => Ret (i, None)
       | None => yield i
       end
     else if (kind =? InternalKeyKindMerge) then
       '(i, r) ← next_merge p i (it_key e);
       match r with
       | Some r => Ret (i, r)
       | None => next_loop p fuel i
       end
     else Ret (i <| ci_err := Some corruption |> <| ci_valid := false |>, None)).
Proof.
  intros Hap Hgo. pose proof (ap_point _ _ _ _ Hap) as Hp. unfold point, is_point in Hp. cbv zeta.
  destruct (is_tombstone (Kind (it_key e))) eqn:Et.
  - destruct (elideTombstone p (uk e) && (ci_curSnapshotIdx i =? 0)%nat) eqn:Eel.
    { apply andb_true_iff in Eel as [He H0]. apply Nat.eqb_eq in H0.
      destruct (next_elided_ok p Hsnaps T B i e Hap Et H0 (Helide _ He)) as (i' & -> & Hc). rewrite bind_Ret.
      destruct (continues_going i e i' Hap Hc) as [seg Hg]. by eapply loop_result_going; [|apply (Hgo i' seg)]. }
    set (i2 := if elideTombstone p (uk e) then i <| ci_snapshotPinned := true |> else i).
    assert (at_point p T i2 e /\ (forall m, loop_result i2 m -> loop_result i m) /\
      (forall i' seg, going i2 i' seg -> going i i' seg)) as (Hap2 & Hres & Hgg).
    { unfold i2. destruct (elideTombstone p (uk e)); [|done]. split_and!.
      - destruct Hap. split; try done. by apply (top_ext p i).
      - intros m (i' & r & -> & He & Hk & Ho). exists i', r. split; [done|]. split; [done|].
        split; [by destruct Hk|]. exact Ho.
      - intros i' seg []. split; try done. by destruct go_kept0. }
    apply Hres. destruct (Z.eqb_spec (Kind (it_key e)) InternalKeyKindDelete) as [Hd|Hd].
    { destruct (delete_yields p Hsnaps T B i2 e Hap2 Hd) as (i' & -> & Hy). rewrite bind_Ret.
      by apply (loop_result_yields i2 e). }
    destruct (Z.eqb_spec (Kind (it_key e)) InternalKeyKindDeleteSized) as [Hz|Hz].
    { destruct (deleteSizedNext_ok p Hsnaps T B i2 e Hap2 Hz) as (i' & -> & Hy). rewrite bind_Ret.
      by apply (loop_result_yields i2 e). }
    assert (Kind (it_key e) = InternalKeyKindSingleDelete) as Hs.
    { unfold is_tombstone in Et. apply orb_true_iff in Et as [[E|E]%orb_true_iff|E]; by apply Z.eqb_eq in E. }
    destruct (singleDeleteNext_ok p Hsnaps T B i2 e Hap2 Hs) as (i' & b & -> & Hy). rewrite bind_Ret.
    destruct b; [by apply (loop_result_yields i2 e)|].
    rewrite (ae_err _ _ (tp_at _ _ (co_top _ _ _ _ _ _ Hy))).
    destruct (continues_going i2 e i' Hap2 Hy) as [seg Hg]. eapply loop_result_going; [exact Hg|]. eauto.
  - destruct (is_set (Kind (it_key e))) eqn:Es.
    { destruct (setNext_yields p Hsnaps T B i e Hap Es) as (i' & -> & Hy). rewrite bind_Ret.
      rewrite (yi_err _ _ _ _ _ _ Hy). by apply (loop_result_yields i e). }
    simpl in Hp. rewrite Hp. apply Z.eqb_eq in Hp.
    destruct (next_merge_yields p Hsnaps T B i e Hap Hp) as (i' & -> & Hy). rewrite bind_Ret.
    by apply (loop_result_yields i e).
Qed.

(** A point that is covered is skipped with the rest of its stripe. *)
Lemma next_covered i e :
  looping i -> cur i = [e] -> point e -> covered (it_key e) ->
  exists i' seg, skipInStripe p (saved i e) = Ret i' /\ going i i' seg.
Proof.
  intros [Ht Hpos Hcl Hcv] Hc Hp Hcov. pose proof (tp_items _ _ Ht) as Hok. rewrite Hc in Hok.
  destruct (left_top_point i e Ht Hc Hp) as [Hf Hl].
  destruct (skipInStripe_ok p Hsnaps T (it_key e) (saved i e) (behind_saved p i e Ht Hc)
    (covers_top p T i e Hcv Hc Hp)) as (i' & -> & Hm & Ht' & Hlt & (seg & Hit & Hsk) & _).
  change (ci_iter (saved i e)) with (ci_iter i) in *.
  exists i', (e :: seg). split; [done|]. split; try done.
  - destruct (kept_moved _ _ Hm). by split.
  - rewrite (moved_pos _ _ Hm). done.
  - unfold closer_ok. rewrite (moved_closer _ _ Hm). done.
  - constructor; [done|]. by apply (segment_points (it_key e)).
  - by rewrite Hc, Hit.
  - rewrite Hl. apply sublist_cons. rewrite Hit. apply sublist_inserts_l, left_top_sub.
  - rewrite Hl, Hlt. by apply step_covered.
Qed.

Lemma looping_at_point i e j :
  looping i -> cur i = [e] -> point e -> ~ covered (it_key e) ->
  same_place i j -> kept i j -> ci_skip j = ci_skip i -> ci_pos j = ci_pos i ->
  ci_valueCloser j = ci_valueCloser i -> at_point p T j e.
Proof.
  intros [Ht Hpos Hcl Hcv] Hc Hp Hn Hsp Hk Hs Hpj Hclj.
  destruct (left_top_point i e Ht Hc Hp) as [Hf _]. pose proof Hsp as (J1 & J2 & _).
  split; try congruence.
  - by apply (top_ext p i).
  - by rewrite (kp_frag _ _ Hk), J1, J2.
  - unfold closer_ok. by rewrite Hclj.
Qed.

(** A range deletion or a range key is returned as it is. *)
Lemma next_span i e :
  looping i -> cur i = [e] -> ~ point e ->
  loop_result i
    (i ← saveKey i;
     yield (i <| ci_snapshotPinned := false |> <| ci_value := ci_iterValue i |> <| ci_valid := true |>)).
Proof.
  intros [Ht Hpos Hcl Hcv] Hc Hp. rewrite (saveKey_ok i e Hc), bind_Ret. unfold yield.
  pose proof (tp_items _ _ Ht) as Hok. rewrite Hc in Hok. pose proof (items_ok_cons _ _ Hok) as (Hoke & _ & _).
  set (j := _ <| ci_valid := true |>).
  assert (behind (it_key e) j) as Hb by (destruct (behind_saved p i e Ht Hc); by split).
  assert (pending j = ci_iter i) as Hpend by (unfold pending; simpl; by rewrite Hpos).
  assert (left_top i = e :: remaining j) as Hl.
  { unfold CompactionNext.left_top. rewrite Hc. f_equal. unfold CompactionOps.remaining.
    rewrite Hpend. change (ci_skip j) with (ci_skip i).
    unfold anchor. change (ci_pos j) with (ci_pos i). rewrite Hpos. by rewrite (ctx_behind p _ _ Hb). }
  exists j, (Some (it_key e, it_val e)). split_and!.
  - change (ci_key j) with (it_key e). change (ci_value j) with (ci_iterValue i).
    by rewrite (proj2 (cur_iterKey i e Hc)).
  - apply Hb.
  - done.
  - apply outcome_span with []; try done.
    + by rewrite Hc, Hpend.
    + split; [exact Hcl|by rewrite (ctx_behind p _ _ Hb)|]. intros Hn. change (ci_pos j) with (ci_pos i) in Hn. congruence.
    + rewrite Hl. by apply sublist_cons.
    + rewrite Hl. apply step_ok_live. intros k s Hs. unfold live. rewrite filter_cons_False by tauto. done.
Qed.

Lemma compactionIter_next_loop_ok fuel : forall i,
  looping i -> (length (cur i ++ ci_iter i) < fuel)%nat -> loop_result i (next_loop p fuel i).
Proof.
  induction fuel as [|fuel IH]; intros i Hlo Hf; [lia|]. cbn [next_loop].
  destruct (cur i) as [|e [|]] eqn:Hc; [| |unfold cur in Hc; by destruct (ci_iterKey i)].
  { assert (ci_iterKey i = None) as -> by (unfold cur in Hc; by destruct (ci_iterKey i)).
    pose proof (tp_at _ _ (lo_top _ Hlo)) as [A1 A2 _].
    exists i, None. split_and!; try done. apply outcome_end; [done| | |apply Hlo].
    - rewrite Hc, A2; done.
    - unfold CompactionNext.left_top. rewrite Hc. apply step_ok_refl. }
  destruct (cur_iterKey i e Hc) as [-> _]. cbv zeta.
  set (i1 := i <| ci_snapshotPinned := _ |>).
  assert (looping i1) as Hlo1 by (destruct Hlo; split; try done; by apply (top_ext p i)).
  assert (Hc1 : cur i1 = [e]) by done.
  assert (forall i' seg, going i1 i' seg -> loop_result i' (next_loop p fuel i')) as Hgo.
  { intros i' seg Hg. apply IH; [by eapply looping_going|].
    pose proof (go_iter _ _ _ Hg) as E. pose proof (go_cons _ _ _ Hg) as Hne. apply (f_equal length) in E.
    rewrite Hc1 in E. destruct seg; [done|]. rewrite !length_app in E. simpl in E, Hf. rewrite length_app. lia. }
  enough (forall m, loop_result i1 m -> loop_result i m) as Hi1.
  2: { intros m (i' & r & -> & He & Hk & Ho). exists i', r. split_and!; [done..|by destruct Hk|exact Ho]. }
  apply Hi1. pose proof (tp_items _ _ (lo_top _ Hlo)) as Hok. rewrite Hc in Hok.
  pose proof (items_ok_cons _ _ Hok) as (Hoke & _ & _).
  destruct (decide (point e)) as [Hp|Hp].
  2: { assert ((Kind (it_key e) =? InternalKeyKindRangeDelete) || IsRangeKey (Kind (it_key e)) = true) as ->.
    { destruct Hoke as (_ & _ & [[? _]|[[-> _]| ->]]); [done..|apply orb_true_r]. }
    by apply next_span with e. }
  assert ((Kind (it_key e) =? InternalKeyKindRangeDelete) || IsRangeKey (Kind (it_key e)) = false) as ->.
  { apply orb_false_iff. split; [apply Z.eqb_neq; by apply point_not_rangedel|].
    destruct (IsRangeKey (Kind (it_key e))) eqn:E; [|done]. unfold IsRangeKey in E. unfold point in Hp.
    apply orb_true_iff in E as [[E|E]%orb_true_iff|E]; apply Z.eqb_eq in E; by rewrite E in Hp. }
  change (ci_rangeDelFrag i1) with (ci_rangeDelFrag i). change (ci_curSnapshotSeqNum i1) with (ci_curSnapshotSeqNum i).
  rewrite (proj2 (ae_idx _ _ (tp_at _ _ (lo_top _ Hlo)) e Hc)).
  destruct (lo_covers _ Hlo [] e (ci_iter i)) as (c & -> & Hcov); [by rewrite Hc|constructor|done|].
  rewrite bind_Ret.
  assert (forall b1 b2, let j := i1 <| ci_snapshotPinned := b1 |> <| ci_forceObsoleteDueToRangeDel := b2 |> in
    c <> CoversVisibly -> at_point p T j e /\
    (forall i' seg, going j i' seg -> loop_result i' (next_loop p fuel i')) /\
    (forall m, loop_result j m -> loop_result i1 m)) as Hj.
  { intros b1 b2 j Hnc. split_and!.
    - apply (looping_at_point i1); try done. tauto.
    - intros i' seg []. apply (Hgo i' seg). split; try done. by destruct go_kept0.
    - intros m (i' & r & -> & He & Hk & Ho). exists i', r. split_and!; [done..|by destruct Hk|exact Ho]. }
  destruct c.
  - destruct (Hj (ci_snapshotPinned i1) false) as (Hap & Hg & Hr); [done|]. apply Hr. exact (next_point _ e fuel Hap Hg).
  - destruct (Hj true true) as (Hap & Hg & Hr); [done|]. apply Hr. exact (next_point _ e fuel Hap Hg).
  - rewrite (saveKey_ok i1 e Hc1), bind_Ret.
    destruct (next_covered i1 e Hlo1 Hc1 Hp (proj1 Hcov eq_refl)) as (i' & seg & -> & Hg). rewrite bind_Ret.
    eapply loop_result_going; [exact Hg|]. eauto.
Qed.

(** ** [Next] *)
Lemma closeValueCloser_ok i :
  closer_ok i -> exists b, (closeValueCloser i = (i <| ci_err := b |> <| ci_valueCloser := None |>, None)) /\
    (ci_err i = None -> b = None).
Proof.
  unfold closeValueCloser. intros [H|H]; rewrite H.
  - exists (ci_err i). split; [|done]. f_equal. destruct i; simpl in *. by subst.
  - exists None. done.
Qed.

Lemma looping_valid i j :
  top i -> covers_ok (ci_rangeDelFrag i) (cur i ++ ci_iter i) -> closer_ok i ->
  j = i <| ci_pos := iterPosCurForward |> <| ci_valid := false |> ->
  looping j /\ kept i j /\ cur j = cur i /\ ci_iter j = ci_iter i /\ left_top j = left_top i.
Proof. intros Ht Hcv Hcl ->. split; [split; try done; by apply (top_ext p i)|done]. Qed.

Lemma compactionIter_Next_ok i :
  ci_err i = None -> ready i -> covers_ok (ci_rangeDelFrag i) (pending i) ->
  exists i' r, Next p i = Ret (i', r) /\ ci_err i' = None /\ kept i i' /\
    outcome (pending i) (remaining i) i' r.
Proof.
  intros He [Hcl Hcur Hnext] Hcv. unfold Next. rewrite He.
  destruct (closeValueCloser_ok i Hcl) as (b & -> & Hb). specialize (Hb He). subst b.
  set (i0 := i <| ci_err := None |> <| ci_valueCloser := None |>).
  assert (forall i1 seg, top i1 -> kept i i1 -> closer_ok i1 -> Forall point seg ->
    pending i = seg ++ cur i1 ++ ci_iter i1 -> sublist (left_top i1) (remaining i) ->
    step_ok (remaining i) [] (left_top i1) ->
    exists i' r,
      (let i := i1 <| ci_pos := iterPosCurForward |> <| ci_valid := false |> in
       next_loop p (S (S (length (ci_iter i)))) i) = Ret (i', r) /\ ci_err i' = None /\ kept i i' /\
      outcome (pending i) (remaining i) i' r) as Hend.
  { intros i1 seg Ht Hk Hcl1 Hseg Hpend Hsub Hst. cbv zeta.
    set (j := i1 <| ci_pos := iterPosCurForward |> <| ci_valid := false |>).
    destruct (looping_valid i1 j Ht) as (Hlo & Hkj & Hcj & Hij & Hlj); [|done..|].
    { rewrite (kp_frag _ _ Hk). rewrite Hpend in Hcv. by eapply covers_ok_points. }
    destruct (compactionIter_next_loop_ok (S (S (length (ci_iter j)))) j Hlo) as (i' & r & -> & He' & Hk' & Ho).
    { rewrite length_app. unfold cur. destruct (ci_iterKey j); simpl; lia. }
    exists i', r. split_and!; try done; [exact (kept_trans _ _ _ Hk (kept_trans _ _ _ Hkj Hk'))|].
    rewrite Hcj, Hij, Hlj in Ho. by eapply outcome_more. }
  change (ci_pos i0) with (ci_pos i). change (ci_skip i0) with (ci_skip i).
  change (ci_iterStripeChange i0) with (ci_iterStripeChange i).
  destruct (ci_pos i) eqn:Hpos.
  - rewrite decide_True by done. specialize (Hcur eq_refl).
    assert (behind (ctx i) i0) as Hb0 by (destruct Hcur; by split).
    assert (pending i = ci_iter i) as Hpe by (unfold pending; by rewrite Hpos). rewrite Hpe in Hcv.
    assert (remaining i = if ci_skip i then drop_stripe (ctx i) (ci_iter i) else ci_iter i) as Hre.
    { unfold CompactionOps.remaining, anchor. by rewrite Hpos, Hpe. }
    destruct (ci_skip i) eqn:Hsk.
    + destruct (skipInStripe_ok p Hsnaps T (ctx i) i0 Hb0 Hcv) as (i1 & -> & Hm & Ht & Hlt & (seg & Hit & Hsg) & _).
      rewrite bind_Ret. apply (Hend i1 seg); try done.
      * destruct (kept_moved _ _ Hm). by split.
      * unfold closer_ok. rewrite (moved_closer _ _ Hm). by left.
      * by apply (segment_points (ctx i)).
      * by rewrite Hpe, <- Hit.
      * by rewrite Hre, Hlt.
      * rewrite Hre, Hlt. apply step_ok_refl.
    + destruct (next_cases p T (ctx i) i0 Hb0 Hcv) as (i1 & sk & -> & Hav & _). rewrite !bind_Ret.
      pose proof Hav as [Hm Hat Hseg Hcov Hit _]. change (ci_iter i0) with (ci_iter i) in Hit.
      assert (ci_skip i1 = false) as Hs1 by (rewrite (moved_skip _ _ Hm); done).
      assert (left_top i1 = cur i1 ++ ci_iter i1) as Hl1 by (by apply left_top_all).
      apply (Hend i1 sk); try done.
      * by apply (top_advance p T (ctx i) i0 i1 sk).
      * destruct (kept_moved _ _ Hm). by split.
      * unfold closer_ok. rewrite (moved_closer _ _ Hm). by left.
      * by apply (segment_points (ctx i)).
      * by rewrite Hpe, Hit.
      * rewrite Hl1, Hre, Hit. by apply sublist_inserts_l.
      * rewrite Hl1, Hre, Hit. apply step_ok_live. intros k s Hs. rewrite (live_app T k s sk).
        by rewrite (live_covered _ Hsnaps T (ctx i) sk), app_nil_l by (try done; by apply uncovered_covered).
  - rewrite decide_False by done. destruct (Hnext eq_refl) as [Ht Hch].
    assert (ci_skip i && negb (bool_decide (ci_iterStripeChange i = sameStripeNonSkippable)) = false) as ->.
    { destruct (ci_skip i); [|done]. simpl. by rewrite bool_decide_eq_true_2 by auto. }
    assert (left_top i0 = remaining i) as Hl by (rewrite (remaining_left_top p i) by done; done).
    rewrite bind_Ret. apply (Hend i0 []); try done.
    * by apply (top_ext p i).
    * by left.
    * unfold pending. by rewrite Hpos.
    * by rewrite Hl.
    * rewrite Hl. apply step_ok_refl.
Qed.

Lemma compactionIter_First_ok i :
  ci_err i = None -> closer_ok i -> ci_skip i = false -> items_ok (ci_iter i) ->
  covers_ok (ci_rangeDelFrag i) (ci_iter i) ->
  exists i' r, First p i = Ret (i', r) /\ ci_err i' = None /\ kept i i' /\
    outcome (ci_iter i) (ci_iter i) i' r.
Proof.
  intros He Hcl Hs Hok Hcv. unfold First. rewrite He.
  assert (forall j, top j -> kept i j -> closer_ok j -> ci_skip j = false -> cur j ++ ci_iter j = ci_iter i ->
    exists i' r, Next p (j <| ci_pos := iterPosNext |> <| ci_iterStripeChange := newStripeNewKey |>) = Ret (i', r) /\
      ci_err i' = None /\ kept i i' /\ outcome (ci_iter i) (ci_iter i) i' r) as Hend.
  { intros j [[A1 A2 A3] Ht2 Ht3] Hk Hclj Hsj Hj. set (j2 := _ <| ci_iterStripeChange := _ |>).
    assert (pending j2 = ci_iter i) as Hpe by done.
    assert (remaining j2 = ci_iter i) as Hre.
    { unfold CompactionOps.remaining. change (ci_skip j2) with (ci_skip j). by rewrite Hsj. }
    destruct (compactionIter_Next_ok j2) as (i' & r & -> & He' & Hk' & Ho); [done| | |].
    - split; [done..|]. intros _. split; [by split|]. change (ci_skip j2) with (ci_skip j). by rewrite Hsj.
    - rewrite Hpe. change (ci_rangeDelFrag j2) with (ci_rangeDelFrag j). by rewrite (kp_frag _ _ Hk).
    - exists i', r. rewrite Hpe, Hre in Ho. split_and!; [done..| |done].
      destruct Hk, Hk'. split; simpl in *; congruence. }
  destruct (ci_iter i) as [|e l] eqn:El.
  - assert (fetch i = at_end i) as -> by (unfold fetch; by rewrite El).
    assert (ci_iter (at_end i) = []) as Ei by done.
    apply (Hend (at_end i)); try done. split; [by split|by rewrite Ei|].
    change (ci_skip (at_end i)) with (ci_skip i). by rewrite Hs.
  - destruct (items_ok_cons _ _ Hok) as (Hoke & _ & _).
    assert (fetch i = goto i e l) as ->.
    { destruct Hoke as (_ & [v Hv] & _). unfold fetch, goto, it_val. by rewrite El, Hv. }
    destruct (on_ok p i e l Hoke) as (Hm & Hc & Hi & Hat).
    apply (Hend (on p i e l)).
    + split; [done|by rewrite Hc, Hi|]. rewrite (moved_skip _ _ Hm). by rewrite Hs.
    + by apply kept_moved.
    + unfold closer_ok. by rewrite (moved_closer _ _ Hm).
    + by rewrite (moved_skip _ _ Hm).
    + by rewrite Hc, Hi.
Qed.
End loop.
