(* ===== verification/Splitter.v ===== *)
(** Where the output of a compaction is split into tables.

    The model follows [src/compaction.go]: the interface [compactionOutputSplitter] and the
    splitters for file sizes, for limits, for changes of the user key and for groups, with
    the limits that come from the grandparent files and from the level L0.  The frontiers of
    [src/compaction_iter.go] tell the splitters which user key the compaction has reached;
    each splitter is told until its own frontier is beyond the key. *)
From S2P Require Import Prelude.
From S2P Require Import Comparer.
From S2P Require Import InternalKey.
From S2P Require Import GoStd.
From stdpp Require Import sorting.
From Stdlib Require Import Sorted.

Local Open Scope Z_scope.

(** ** The interface *)

(** The writer of the current output is [None] when it is nil, or its estimated size.  The
    last argument of [shouldSplitBefore] is the user key of [unsafePrevUserKey]. *)
Class Splitter := {
  splitter : Type;
  advance : splitter -> bytes -> splitter;
  shouldSplitBefore : splitter -> InternalKey -> option Z -> bytes -> splitter * bool;
  onNewOutput : splitter -> option bytes -> splitter * option bytes;
}.

(** What the compaction relies on: [in_output s limit] says that the current output has the
    limit [limit] and that no key has reached it. *)
Class SplitterLaws {C : Comparer} (S : Splitter) := {
  split_inv : splitter -> Prop;
  in_output : splitter -> option bytes -> Prop;
  limits : list bytes;
  in_output_inv s lim : in_output s lim -> split_inv s;
  advance_inv s k : split_inv s -> split_inv (advance s k);
  advance_advance s k1 k2 : split_inv s -> Compare k1 k2 <> Gt -> advance (advance s k1) k2 = advance s k2;
  onNewOutput_ok s k s' lim : split_inv s -> onNewOutput s k = (s', lim) ->
    in_output s' lim /\
    forall x, lim = Some x -> x ∈ limits /\ exists k0, k = Some k0 /\ Compare k0 x = Lt;
  shouldSplitBefore_first s k s1 lim key prev s2 b : split_inv s -> onNewOutput s (Some k) = (s1, lim) ->
    shouldSplitBefore s1 key None prev = (s2, b) -> b = false /\ in_output s2 lim;
  shouldSplitBefore_ok s lim key tw prev s' b : in_output s lim ->
    shouldSplitBefore (advance s (UserKey key)) key tw prev = (s', b) ->
    split_inv s' /\
    (b = false -> in_output s' lim /\ forall x, lim = Some x -> Compare (UserKey key) x = Lt) /\
    (b = true -> tw <> None /\ Compare (UserKey key) prev = Gt \/
      exists x, lim = Some x /\ Compare x (UserKey key) <> Gt);
}.

(** ** The files of the next level *)
Record file := mkFile {
  fl_Smallest : bytes;
  fl_Largest : bytes;
  fl_Size : Z;
}.

(** ** Sizes of files *)
Record fileSizeSplitter := mkFileSizeSplitter {
  fs_frontier : option bytes;
  fs_targetFileSize : Z;
  fs_atGrandparentBoundary : bool;
  fs_boundariesObserved : Z;
  fs_nextGrandparent : option file;
  fs_grandparents : list file;
}.
#[export] Instance settable_fileSizeSplitter : Settable fileSizeSplitter := fun s =>
  mkFileSizeSplitter (fs_frontier s) (fs_targetFileSize s) (fs_atGrandparentBoundary s)
    (fs_boundariesObserved s) (fs_nextGrandparent s) (fs_grandparents s).

Definition newFileSizeSplitter (targetFileSize : Z) (grandparents : list file) : fileSizeSplitter :=
  mkFileSizeSplitter (fl_Smallest <$> head grandparents) targetFileSize false 0 (head grandparents)
    (tail grandparents).

Definition fs_reached (f : fileSizeSplitter) : fileSizeSplitter :=
  f <| fs_atGrandparentBoundary := true |>
    <| fs_boundariesObserved := u64 (fs_boundariesObserved f + 1) |>
    <| fs_nextGrandparent := head (fs_grandparents f) |>
    <| fs_frontier := fl_Smallest <$> head (fs_grandparents f) |>
    <| fs_grandparents := tail (fs_grandparents f) |>.

Definition minUint64 (a b : Z) : Z := if b <? a then b else a.

Definition fs_shouldSplitBefore (f : fileSizeSplitter) (key : InternalKey) (tw : option Z)
    : fileSizeSplitter * bool :=
  let atGrandparentBoundary := fs_atGrandparentBoundary f in
  let f := f <| fs_atGrandparentBoundary := false |> in
  if Kind key =? InternalKeyKindRangeDelete then (f, false) else
  match tw with
  | None => (f, false)
  | Some estSize =>
      (f, if estSize <? fs_targetFileSize f / 2 then false
          else if u64 (2 * fs_targetFileSize f) <=? estSize then true
          else if negb atGrandparentBoundary then
            match fs_nextGrandparent f with
            | None => fs_targetFileSize f <=? estSize
            | Some _ => false
            end
          else
            let minimumPctOfTargetSize := u64 (50 + 5 * minUint64 (u64 (fs_boundariesObserved f - 1)) 8) in
            negb (estSize <? u64 (minimumPctOfTargetSize * fs_targetFileSize f) / 100))
  end.

Definition fs_onNewOutput (f : fileSizeSplitter) : fileSizeSplitter := f <| fs_boundariesObserved := 0 |>.

Section splitters.
Context {C : Comparer}.

(** The frontier is told until it is beyond the key. *)
Fixpoint fs_advance (fuel : nat) (f : fileSizeSplitter) (k : bytes) : fileSizeSplitter :=
  match fuel, fs_frontier f with
  | Datatypes.S fuel, Some key =>
      if bool_decide (Compare k key = Lt) then f else fs_advance fuel (fs_reached f) k
  | _, _ => f
  end.

(** ** Limits *)
Record limitFuncSplitter := mkLimitFuncSplitter {
  lf_frontier : option bytes;
  lf_split : bool;
}.
Definition newLimitFuncSplitter : limitFuncSplitter := mkLimitFuncSplitter None false.
Definition lf_advance (lf : limitFuncSplitter) (k : bytes) : limitFuncSplitter :=
  match lf_frontier lf with
  | Some key => if bool_decide (Compare k key = Lt) then lf else mkLimitFuncSplitter None true
  | None => lf
  end.
Definition lf_onNewOutput (limitFunc : bytes -> option bytes) (lf : limitFuncSplitter) (key : option bytes)
    : limitFuncSplitter * option bytes :=
  match key with
  | Some key => let limit := limitFunc key in (mkLimitFuncSplitter limit false, limit)
  | None => (mkLimitFuncSplitter None false, None)
  end.

(** The loop of [findGrandparentLimit], on the files from the first that does not end before
    [start]. *)
Fixpoint grandparent_loop (maxOverlapBytes : Z) (start : bytes) (files : list file)
    (overlappedBytes : Z) (greater : bool) : option bytes :=
  match files with
  | [] => None
  | f :: files =>
      let overlappedBytes := u64 (overlappedBytes + fl_Size f) in
      let greater := greater || bool_decide (Compare (fl_Smallest f) start = Gt) in
      if negb greater then grandparent_loop maxOverlapBytes start files overlappedBytes greater
      else if maxOverlapBytes <? overlappedBytes then Some (fl_Smallest f)
      else grandparent_loop maxOverlapBytes start files overlappedBytes greater
  end.
Fixpoint files_SeekGE (files : list file) (key : bytes) : list file :=
  match files with
  | [] => []
  | f :: rest => if bool_decide (Compare (fl_Largest f) key = Lt) then files_SeekGE rest key else files
  end.
Definition findGrandparentLimit (grandparents : list file) (maxOverlapBytes : Z) (start : bytes) : option bytes :=
  grandparent_loop maxOverlapBytes start (files_SeekGE grandparents start) 0 false.

Definition findL0Limit (startLevel outputLevel : Z) (l0Limits : list bytes) (start : bytes) : option bytes :=
  if (-1 <? startLevel) || negb (outputLevel =? 0) || (length l0Limits =? 0)%nat then None
  else
    let index := sort_Search (length l0Limits) (fun i => bool_decide (Compare (nth i l0Limits []) start = Gt)) in
    if (index <? length l0Limits)%nat then Some (nth index l0Limits []) else None.
End splitters.

(** ** The splitters of a compaction *)

(** The parts of [compaction] that do not change while it runs. *)
Record UserKeyRange := mkUserKeyRange { ur_Start : bytes; ur_End : bytes }.
Record compaction := mkCompaction {
  cp_flushing : bool;
  cp_startLevel : Z;
  cp_outputLevel : Z;
  cp_smallest : option bytes;
  cp_largest : option bytes;
  cp_maxOutputFileSize : Z;
  cp_maxOverlapBytes : Z;
  cp_disableSpanElision : bool;
  cp_grandparents : list file;
  cp_l0Limits : list bytes;
  cp_inuseKeyRanges : list UserKeyRange;
  cp_inuseEntireRange : bool;
}.

(** [outputSplitters]: the one for sizes is wrapped by [userKeyChangeSplitter], and the one
    for L0 is there when flushes are split. *)
Record outputSplitters := mkOutputSplitters {
  os_size : fileSizeSplitter;
  os_grandparent : limitFuncSplitter;
  os_l0 : option limitFuncSplitter;
}.
Definition new_outputSplitters (c : compaction) (splitL0Outputs : bool) : outputSplitters :=
  mkOutputSplitters (newFileSizeSplitter (cp_maxOutputFileSize c) (cp_grandparents c)) newLimitFuncSplitter
    (if splitL0Outputs then Some newLimitFuncSplitter else None).

Section group.
Context {C : Comparer} (c : compaction).

Definition group_advance (s : outputSplitters) (k : bytes) : outputSplitters :=
  mkOutputSplitters (fs_advance (Datatypes.S (length (fs_grandparents (os_size s)))) (os_size s) k)
    (lf_advance (os_grandparent s) k) ((fun lf => lf_advance lf k) <$> os_l0 s).

Definition group_shouldSplitBefore (s : outputSplitters) (key : InternalKey) (tw : option Z)
    (unsafePrevUserKey : bytes) : outputSplitters * bool :=
  let '(size, split) := fs_shouldSplitBefore (os_size s) key tw in
  (mkOutputSplitters size (os_grandparent s) (os_l0 s),
   split && bool_decide (Compare (UserKey key) unsafePrevUserKey = Gt) ||
   lf_split (os_grandparent s) ||
   match os_l0 s with Some lf => lf_split lf | None => false end).

Definition earliest (a b : option bytes) : option bytes :=
  match a, b with
  | Some a, Some b => Some (if bool_decide (Compare b a = Lt) then b else a)
  | None, b => b
  | a, None => a
  end.
Definition group_onNewOutput (s : outputSplitters) (key : option bytes) : outputSplitters * option bytes :=
  let '(grandparent, limit1) :=
    lf_onNewOutput (findGrandparentLimit (cp_grandparents c) (cp_maxOverlapBytes c)) (os_grandparent s) key in
  let '(l0, limit2) :=
    match os_l0 s with
    | Some lf =>
        let '(lf, limit) :=
          lf_onNewOutput (findL0Limit (cp_startLevel c) (cp_outputLevel c) (cp_l0Limits c)) lf key in
        (Some lf, limit)
    | None => (None, None)
    end in
  (mkOutputSplitters (fs_onNewOutput (os_size s)) grandparent l0, earliest limit1 limit2).

Definition splitterGroup : Splitter := {|
  splitter := outputSplitters;
  advance := group_advance;
  shouldSplitBefore := group_shouldSplitBefore;
  onNewOutput := group_onNewOutput;
|}.

(** ** The laws *)
Context {L : ComparerLaws C}.
Context (Hfiles : StronglySorted (fun a b => Compare (fl_Smallest a) (fl_Smallest b) = Lt) (cp_grandparents c)).

Lemma sort_Search_true n f : (sort_Search n f < n)%nat -> f (sort_Search n f) = true.
Proof.
  unfold sort_Search.
  assert (forall fuel i j, (j - i <= fuel)%nat -> (i <= j)%nat ->
    search_loop fuel i j f = j \/ f (search_loop fuel i j f) = true) as H.
  { induction fuel as [|fuel IH]; intros i j Hf Hij; cbn [search_loop]; [left; lia|].
    destruct (Nat.ltb_spec i j); [|left; lia].
    assert (i <= (i + j) / 2 < j)%nat as Hh.
    { split; [apply Nat.div_le_lower_bound|apply Nat.Div0.div_lt_upper_bound]; lia. }
    set (h := ((i + j) / 2)%nat) in *. clearbody h. cbn zeta. destruct (f h) eqn:E.
    - destruct (IH i h) as [-> | ?]; [lia|lia|by right|by right].
    - apply IH; lia. }
  intros Hlt. destruct (H n 0%nat n) as [?|?]; [lia|lia|lia|done].
Qed.

Lemma findL0Limit_ok start x : findL0Limit (cp_startLevel c) (cp_outputLevel c) (cp_l0Limits c) start = Some x ->
  x ∈ cp_l0Limits c /\ Compare start x = Lt.
Proof.
  unfold findL0Limit. destruct (_ || _ || _); [done|].
  set (f := fun i => _). cbv zeta. destruct (Nat.ltb_spec (sort_Search (length (cp_l0Limits c)) f) (length (cp_l0Limits c))) as [Hlt|]; [|done].
  intros [= <-]. split.
  - apply list_elem_of_In, nth_In. done.
  - apply sort_Search_true in Hlt. unfold f in Hlt at 1. apply bool_decide_eq_true in Hlt. by apply compare_gt_lt.
Qed.

Lemma grandparent_loop_ok m start files : forall o g,
  StronglySorted (fun a b => Compare (fl_Smallest a) (fl_Smallest b) = Lt) files ->
  (g = true -> Forall (fun f => Compare start (fl_Smallest f) = Lt) files) -> forall x,
  grandparent_loop m start files o g = Some x -> x ∈ fl_Smallest <$> files /\ Compare start x = Lt.
Proof.
  induction files as [|f files IH]; intros o g Hs Hg x; [done|]. cbn [grandparent_loop]. cbv zeta.
  apply StronglySorted_inv in Hs as [Hs Hf].
  set (g' := g || _).
  assert (g' = true -> Compare start (fl_Smallest f) = Lt) as Hg'.
  { unfold g'. intros [->|H]%orb_true_iff; [by apply Forall_cons in Hg as [? _]|].
    apply bool_decide_eq_true in H. by apply compare_gt_lt. }
  assert (g' = true -> Forall (fun f => Compare start (fl_Smallest f) = Lt) files) as Hgf.
  { intros H. eapply Forall_impl; [exact Hf|]. intros f2 H2. exact (compare_trans _ _ _ (Hg' H) H2). }
  destruct g'; cbn [negb].
  - destruct (_ <? _).
    + intros [= <-]. split; [left|auto].
    + intros H. destruct (IH _ _ Hs Hgf _ H) as [? ?]. split; [by right|done].
  - intros H. destruct (IH _ _ Hs Hgf _ H) as [? ?]. split; [by right|done].
Qed.
Lemma files_SeekGE_suffix files k : exists l, files = l ++ files_SeekGE files k.
Proof.
  induction files as [|f files [l IH]]; [by exists []|]. cbn [files_SeekGE]. case_bool_decide; [|by exists []].
  exists (f :: l). simpl. by rewrite <- IH.
Qed.
Lemma findGrandparentLimit_ok start x :
  findGrandparentLimit (cp_grandparents c) (cp_maxOverlapBytes c) start = Some x ->
  x ∈ fl_Smallest <$> cp_grandparents c /\ Compare start x = Lt.
Proof.
  intros H. destruct (files_SeekGE_suffix (cp_grandparents c) start) as [l E].
  apply grandparent_loop_ok in H as [Hx ?]; [|rewrite E in Hfiles; by apply StronglySorted_app_1_r in Hfiles|done].
  split; [|done]. rewrite E, fmap_app. apply elem_of_app. by right.
Qed.

(** A frontier that has been told is beyond the key. *)
Lemma fs_advance_beyond fuel : forall f k1 k2,
  (length (fs_grandparents f) < fuel)%nat -> Compare k1 k2 <> Gt ->
  forall fuel2, (length (fs_grandparents (fs_advance fuel f k1)) < fuel2)%nat ->
  fs_advance fuel2 (fs_advance fuel f k1) k2 = fs_advance fuel f k2.
Proof.
  induction fuel as [|fuel IH]; intros f k1 k2 Hf Hk fuel2 Hf2; [lia|]. cbn [fs_advance] in *.
  destruct (fs_frontier f) as [key|] eqn:E.
  2: { destruct fuel2; [lia|]. cbn [fs_advance]. by rewrite E. }
  case_bool_decide as H1.
  - clear IH. revert f fuel fuel2 Hf Hf2 E H1.
    assert (forall f fuel fuel2, (length (fs_grandparents f) < fuel)%nat -> (length (fs_grandparents f) < fuel2)%nat ->
      fs_advance fuel f k2 = fs_advance fuel2 f k2) as Hfuel.
    { intros f fuel. revert f. induction fuel as [|fuel IH]; intros f fuel2 Hf Hf2; [lia|].
      destruct fuel2 as [|fuel2]; [lia|]. cbn [fs_advance]. destruct (fs_frontier f) as [k|]; [|done].
      case_bool_decide; [done|]. unfold fs_reached.
      destruct (fs_grandparents f) as [|g gs] eqn:Eg.
      - simpl in *. destruct fuel, fuel2; cbn [fs_advance]; done.
      - apply IH; simpl in *; lia. }
    intros f fuel fuel2 Hf Hf2 E H1. rewrite (Hfuel f fuel2 (Datatypes.S fuel)) by done.
    cbn [fs_advance]. by rewrite E.
  - assert (Compare k2 key <> Lt) as H2.
    { intros H2. apply H1. exact (compare_le_lt_trans _ _ _ Hk H2). }
    rewrite bool_decide_eq_false_2 by done.
    destruct (fs_grandparents f) as [|g gs] eqn:Eg.
    + assert (forall n k, fs_advance n (fs_reached f) k = fs_reached f) as Hend.
      { intros n k. unfold fs_reached. rewrite Eg. by destruct n. }
      by rewrite !Hend.
    + apply IH; [|done|done]. unfold fs_reached. rewrite Eg. simpl in *. lia.
Qed.

Lemma lf_advance_advance lf k1 k2 : Compare k1 k2 <> Gt -> lf_advance (lf_advance lf k1) k2 = lf_advance lf k2.
Proof.
  intros Hk. unfold lf_advance at 2 3. destruct (lf_frontier lf) as [key|] eqn:E.
  - case_bool_decide as H1.
    + unfold lf_advance. by rewrite E.
    + rewrite bool_decide_eq_false_2; [done|]. intros H2. apply H1. exact (compare_le_lt_trans _ _ _ Hk H2).
  - unfold lf_advance. by rewrite E.
Qed.
Lemma lf_advance_split lf k : lf_split lf = false ->
  lf_split (lf_advance lf k) = false /\ lf_advance lf k = lf /\ (forall x, lf_frontier lf = Some x -> Compare k x = Lt) \/
  lf_split (lf_advance lf k) = true /\ exists x, lf_frontier lf = Some x /\ Compare x k <> Gt.
Proof.
  intros Hs. unfold lf_advance. destruct (lf_frontier lf) as [x|]; [|left; split_and!; [done|done|congruence]].
  case_bool_decide as H; [left|right].
  - split_and!; [done|done|congruence].
  - split; [done|]. exists x. split; [done|]. by rewrite compare_gt_lt.
Qed.
Lemma lf_onNewOutput_ok f lf k lf' x : lf_onNewOutput f lf k = (lf', x) ->
  lf_split lf' = false /\ lf_frontier lf' = x /\ (forall l, x = Some l -> exists k0, k = Some k0 /\ f k0 = Some l).
Proof. unfold lf_onNewOutput. destruct k as [k|]; intros [= <- <-]; (split_and!; [done|done|]); [eauto|done]. Qed.

Lemma earliest_some a b x : earliest a b = Some x -> a = Some x \/ b = Some x.
Proof. destruct a, b; simpl; intros H; auto. case_bool_decide; auto. Qed.
Lemma earliest_le a b x : (a = Some x \/ b = Some x) -> exists y, earliest a b = Some y /\ Compare y x <> Gt.
Proof.
  assert (forall z, Compare z z <> Gt) as Hr by (intros z; by rewrite compare_refl).
  destruct a as [a|], b as [b|]; simpl; intros [H|H]; try done; injection H as ->; eauto; case_bool_decide as Hc; eauto.
  - exists b. split; [done|]. by rewrite Hc.
  - exists a. split; [done|]. by rewrite compare_gt_lt.
Qed.
Lemma earliest_lt a b k : (forall x, earliest a b = Some x -> Compare k x = Lt) <->
  (forall x, a = Some x -> Compare k x = Lt) /\ (forall x, b = Some x -> Compare k x = Lt).
Proof.
  split.
  - intros H. split; intros x Hx; destruct (earliest_le a b x ltac:(auto)) as (y & Hy & Hle);
      exact (compare_lt_le_trans _ _ _ (H y Hy) Hle).
  - intros [H1 H2] x [Hx|Hx]%earliest_some; auto.
Qed.

Definition l0_frontier (s : outputSplitters) : option bytes := os_l0 s ≫= lf_frontier.
Definition l0_split (s : outputSplitters) : bool := match os_l0 s with Some lf => lf_split lf | None => false end.
Definition group_in_output (s : outputSplitters) (lim : option bytes) : Prop :=
  lf_split (os_grandparent s) = false /\ l0_split s = false /\
  lim = earliest (lf_frontier (os_grandparent s)) (l0_frontier s).

Lemma group_advance_advance s k1 k2 :
  Compare k1 k2 <> Gt -> group_advance (group_advance s k1) k2 = group_advance s k2.
Proof.
  intros Hk. unfold group_advance. cbn [os_size os_grandparent os_l0]. f_equal.
  - apply fs_advance_beyond; [lia|done|lia].
  - by apply lf_advance_advance.
  - destruct (os_l0 s); [|done]. simpl. by rewrite lf_advance_advance.
Qed.

Lemma group_onNewOutput_ok s k s' lim : group_onNewOutput s k = (s', lim) ->
  group_in_output s' lim /\
  forall x, lim = Some x ->
    x ∈ (fl_Smallest <$> cp_grandparents c) ++ cp_l0Limits c /\ exists k0, k = Some k0 /\ Compare k0 x = Lt.
Proof.
  unfold group_onNewOutput.
  destruct (lf_onNewOutput (findGrandparentLimit _ _) _ _) as [g l1] eqn:E1.
  apply lf_onNewOutput_ok in E1 as (G1 & G2 & G3).
  assert (forall x, l1 = Some x -> x ∈ (fl_Smallest <$> cp_grandparents c) ++ cp_l0Limits c /\
    exists k0, k = Some k0 /\ Compare k0 x = Lt) as H1.
  { intros x Hx. destruct (G3 x Hx) as (k0 & -> & Hk). apply findGrandparentLimit_ok in Hk as [? ?].
    split; [apply elem_of_app; by left|eauto]. }
  destruct (os_l0 s) as [lf|]; [destruct (lf_onNewOutput (findL0Limit _ _ _) _ _) as [l0 l2] eqn:E2|];
    intros [= <- <-].
  - apply lf_onNewOutput_ok in E2 as (F1 & F2 & F3). split.
    + split_and!; [done|done|]. unfold l0_frontier. simpl. by rewrite G2, F2.
    + intros x [Hx|Hx]%earliest_some; [auto|]. destruct (F3 x Hx) as (k0 & -> & Hk).
      apply findL0Limit_ok in Hk as [? ?]. split; [apply elem_of_app; by right|eauto].
  - split.
    + split_and!; [done|done|]. unfold l0_frontier. simpl. by rewrite G2.
    + intros x [Hx|Hx]%earliest_some; [auto|done].
Qed.

Lemma fs_no_writer f key : snd (fs_shouldSplitBefore f key None) = false.
Proof. unfold fs_shouldSplitBefore. by destruct (_ =? _). Qed.

Lemma group_first s k s1 lim key prev s2 b : group_onNewOutput s (Some k) = (s1, lim) ->
  group_shouldSplitBefore s1 key None prev = (s2, b) -> b = false /\ group_in_output s2 lim.
Proof.
  intros Hn. apply group_onNewOutput_ok in Hn as [(H1 & H2 & H3) _]. unfold group_shouldSplitBefore.
  pose proof (fs_no_writer (os_size s1) key) as Hf.
  destruct (fs_shouldSplitBefore (os_size s1) key None) as [f b']. simpl in Hf. subst b'.
  intros [= <- <-]. rewrite H1. split; [exact H2|done].
Qed.

Lemma group_shouldSplitBefore_ok s lim key tw prev s' b : group_in_output s lim ->
  group_shouldSplitBefore (group_advance s (UserKey key)) key tw prev = (s', b) ->
  (b = false -> group_in_output s' lim /\ forall x, lim = Some x -> Compare (UserKey key) x = Lt) /\
  (b = true -> tw <> None /\ Compare (UserKey key) prev = Gt \/
    exists x, lim = Some x /\ Compare x (UserKey key) <> Gt).
Proof.
  intros (H1 & H2 & ->). unfold group_shouldSplitBefore.
  pose proof (fs_no_writer (os_size (group_advance s (UserKey key))) key) as Hf.
  destruct (fs_shouldSplitBefore _ key tw) as [f split] eqn:Ef. intros [= <- <-].
  change (os_grandparent (group_advance s (UserKey key))) with (lf_advance (os_grandparent s) (UserKey key)).
  change (os_l0 (group_advance s (UserKey key))) with ((fun lf => lf_advance lf (UserKey key)) <$> os_l0 s).
  assert ((l0_split (mkOutputSplitters f (os_grandparent s) ((fun lf => lf_advance lf (UserKey key)) <$> os_l0 s)) = false /\
    (fun lf => lf_advance lf (UserKey key)) <$> os_l0 s = os_l0 s /\
    (forall x, l0_frontier s = Some x -> Compare (UserKey key) x = Lt)) \/
    (exists x, l0_frontier s = Some x /\ Compare x (UserKey key) <> Gt)) as Hl0.
  { unfold l0_split, l0_frontier in *. destruct (os_l0 s) as [lf|]; simpl in *; [|by left].
    destruct (lf_advance_split lf (UserKey key) H2) as [(? & -> & ?)|(? & ?)]; auto. }
  destruct (lf_advance_split (os_grandparent s) (UserKey key) H1) as [(G1 & G2 & G3)|(G1 & x & G2 & G3)].
  2: { rewrite G1, orb_true_r. simpl. split; [done|]. intros _. right.
    destruct (earliest_le (lf_frontier (os_grandparent s)) (l0_frontier s) x ltac:(auto)) as (y & Hy & Hle).
    exists y. split; [done|]. exact (compare_le_trans _ _ _ Hle G3). }
  destruct Hl0 as [(L1 & L2 & L3)|(x & L2 & L3)].
  2: { split; [|intros _; right; destruct (earliest_le (lf_frontier (os_grandparent s)) (l0_frontier s) x ltac:(auto)) as (y & Hy & Hle);
    exists y; split; [done|exact (compare_le_trans _ _ _ Hle L3)]].
    intros Hb. exfalso. apply orb_false_iff in Hb as [_ Hb]. unfold l0_frontier, l0_split in *.
    destruct (os_l0 s) as [lf|]; [|done]. simpl in *.
    destruct (lf_advance_split lf (UserKey key) H2) as [(_ & _ & Hx)|(? & _)]; [|congruence].
    specialize (Hx x L2). by apply L3, compare_gt_lt. }
  rewrite G2, L2, H1. unfold l0_split in H2. rewrite H2, !orb_false_r. split.
  - intros _. split; [done|]. apply earliest_lt. done.
  - intros [-> Hc]%andb_true_iff. apply bool_decide_eq_true in Hc. left. split; [|done].
    intros ->. rewrite Ef in Hf. done.
Qed.

(** The splitters of a compaction behave as the compaction relies on. *)
#[export] Instance splitterGroup_laws : SplitterLaws splitterGroup := {|
  split_inv := fun _ => True;
  in_output := group_in_output : @splitter splitterGroup -> _;
  limits := (fl_Smallest <$> cp_grandparents c) ++ cp_l0Limits c;
  in_output_inv := fun _ _ _ => I;
  advance_inv := fun _ _ _ => I;
  advance_advance := fun s k1 k2 _ => group_advance_advance s k1 k2;
  onNewOutput_ok := fun s k s' lim _ => group_onNewOutput_ok s k s' lim;
  shouldSplitBefore_first := fun s k s1 lim key prev s2 b _ => group_first s k s1 lim key prev s2 b;
  shouldSplitBefore_ok := fun s lim key tw prev s' b H E =>
    conj I (group_shouldSplitBefore_ok s lim key tw prev s' b H E);
|}.
End group.
