(* ===== verification/Compaction.v ===== *)
(** Running a compaction.

    The model follows [src/compaction.go]: which tombstones may be elided, the loop of
    [runCompaction] that moves the keys of the compaction iterator to tables, [finishOutput]
    with all its checks of the bounds of a table, and from [src/internal/manifest/version.go]
    how the bounds of a table are extended and validated.  Files are not modelled: a table is
    what is added to its writer. *)
From S2P Require Import Prelude.
From S2P Require Import Comparer.
From S2P Require Import InternalKey.
From S2P Require Import GoStd.
From S2P Require Import Keyspan.
From S2P Require Import RangeKey.
From S2P Require Import Merger.
From S2P Require Import CompactionIter.
From S2P Require Import Splitter.

Local Open Scope Z_scope.

(** ** Eliding tombstones *)
Section elide.
Context {C : Comparer} (c : compaction).

(** The loop of [elideTombstone] over the ranges from [elideTombstoneIndex] on: the index
    after it, and the answer. *)
Fixpoint elide_ranges (index : nat) (ranges : list UserKeyRange) (key : bytes) : nat * bool :=
  match ranges with
  | [] => (index, true)
  | r :: ranges =>
      if bool_decide (Compare key (ur_End r) = Gt) then elide_ranges (Datatypes.S index) ranges key
      else (index, bool_decide (Compare key (ur_Start r) = Lt))
  end.
Definition elideTombstone_from (index : nat) (key : bytes) : nat * bool :=
  if cp_inuseEntireRange c || cp_flushing c then (index, false)
  else elide_ranges index (drop index (cp_inuseKeyRanges c)) key.

(** The keys of several calls are in order, so that the index does not matter. *)
Definition compaction_elideTombstone (key : bytes) : bool := snd (elideTombstone_from 0 key).

Definition compaction_elideRangeTombstone (start end_ : bytes) : bool :=
  if cp_disableSpanElision c || cp_flushing c then false
  else
    let ranges := cp_inuseKeyRanges c in
    let n := length ranges in
    let range i := nth i ranges (mkUserKeyRange [] []) in
    let lower := sort_Search n (fun i => bool_decide (Compare (ur_End (range i)) start <> Lt)) in
    let upper := sort_Search n (fun i => bool_decide (Compare (ur_Start (range i)) end_ = Gt)) in
    (upper <=? lower)%nat.
Definition compaction_elideRangeKey (start end_ : bytes) : bool := compaction_elideRangeTombstone start end_.
Definition compaction_allowZeroSeqNum : bool := 
  compaction_elideRangeTombstone (default [] (cp_smallest c)) (default [] (cp_largest c)).

Definition compaction_params (snaps : list Z) (formatVersion : Z) : params :=
  mkParams snaps compaction_allowZeroSeqNum compaction_elideTombstone compaction_elideRangeTombstone formatVersion.
End elide.

(** ** Bounds of tables *)

(** The smallest and the largest key. *)
Definition bounds : Type := InternalKey * InternalKey.

Record fileMetadata := mkFileMetadata {
  fm_PointKey : option bounds;
  fm_RangeKey : option bounds;
  fm_Bounds : option bounds;
}.
Definition new_fileMetadata : fileMetadata := mkFileMetadata None None None.

Section bounds.
Context {C : Comparer}.

Definition extend (b : option bounds) (smallest largest : InternalKey) : bounds :=
  match b with
  | None => (smallest, largest)
  | Some (s, l) =>
      (if bool_decide (InternalCompare smallest s = Lt) then smallest else s,
       if bool_decide (InternalCompare largest l = Gt) then largest else l)
  end.
Definition extendOverallBounds (m : fileMetadata) (smallest largest : InternalKey) : fileMetadata :=
  mkFileMetadata (fm_PointKey m) (fm_RangeKey m) (Some (extend (fm_Bounds m) smallest largest)).
Definition ExtendPointKeyBounds (m : fileMetadata) (smallest largest : InternalKey) : fileMetadata :=
  let b := extend (fm_PointKey m) smallest largest in
  extendOverallBounds (mkFileMetadata (Some b) (fm_RangeKey m) (fm_Bounds m)) (fst b) (snd b).
Definition ExtendRangeKeyBounds (m : fileMetadata) (smallest largest : InternalKey) : fileMetadata :=
  let b := extend (fm_RangeKey m) smallest largest in
  extendOverallBounds (mkFileMetadata (fm_PointKey m) (Some b) (fm_Bounds m)) (fst b) (snd b).

(** The bounds that are not set are those of empty keys. *)
Definition nil_bounds : bounds := (mkInternalKey [] 0, mkInternalKey [] 0).
Definition fm_Smallest (m : fileMetadata) : InternalKey := fst (default nil_bounds (fm_Bounds m)).
Definition fm_Largest (m : fileMetadata) : InternalKey := snd (default nil_bounds (fm_Bounds m)).

(** [Validate], but for the sequence numbers and the backing file. *)
Definition Validate_bounds (m : fileMetadata) (b : option bounds) (msg1 msg2 : string) : option error :=
  match b with
  | None => None
  | Some (s, l) =>
      if bool_decide (InternalCompare s l = Gt) then Some (New msg1)
      else if bool_decide (InternalCompare s (fm_Smallest m) = Lt) || bool_decide (InternalCompare l (fm_Largest m) = Gt)
      then Some (New msg2) else None
  end.
Definition Validate (m : fileMetadata) : option error :=
  match fm_PointKey m, fm_RangeKey m with
  | None, None => Some (New "file has neither point nor range keys")
  | _, _ =>
      if bool_decide (InternalCompare (fm_Smallest m) (fm_Largest m) = Gt)
      then Some (New "file has inconsistent bounds")
      else
        match Validate_bounds m (fm_PointKey m) "file has inconsistent point key bounds"
                "file has inconsistent point key bounds relative to overall bounds" with
        | Some e => Some e
        | None =>
            Validate_bounds m (fm_RangeKey m) "file has inconsistent range key bounds"
              "file has inconsistent range key bounds relative to overall bounds"
        end
  end.
End bounds.

(** ** Tables *)

(** What is added to a writer: points and range deletions as they are encoded, and spans of
    range keys. *)
Record table := mkTable {
  tb_points : list (InternalKey * bytes);
  tb_rangeDels : list (InternalKey * bytes);
  tb_rangeKeys : list Span;
}.
Definition new_table : table := mkTable [] [] [].

Section table.
Context {C : Comparer}.

(** The checks of the order of keys in [AddWithForceObsolete] and in [addTombstone]. *)
Definition tw_Add (t : table) (key : InternalKey) (val : bytes) : result table :=
  let add := Ok (mkTable (tb_points t ++ [(key, val)]) (tb_rangeDels t) (tb_rangeKeys t)) in
  match last (tb_points t) with
  | None => add
  | Some (prev, _) =>
      match Compare (UserKey prev) (UserKey key) with
      | Gt => Err (New "pebble: keys must be added in strictly increasing order")
      | Eq => if Trailer prev <=? Trailer key
              then Err (New "pebble: keys must be added in strictly increasing order") else add
      | Lt => add
      end
  end.

Definition tw_addTombstone (t : table) (key : InternalKey) (value : bytes) : result table :=
  let add :=
    if Trailer key =? InternalKeyRangeDeleteSentinel then Err (New "pebble: cannot add range delete sentinel")
    else Ok (mkTable (tb_points t) (tb_rangeDels t ++ [(key, value)]) (tb_rangeKeys t)) in
  match last (tb_rangeDels t) with
  | None => add
  | Some (prev, prevValue) =>
      match Compare (UserKey prev) (UserKey key) with
      | Gt => Err (New "pebble: keys must be added in order")
      | Eq =>
          if bool_decide (Compare prevValue value <> Eq)
          then Err (New "pebble: overlapping tombstones must be fragmented")
          else if SeqNum prev <=? SeqNum key
          then Err (New "pebble: keys must be added in strictly increasing order")
          else add
      | Lt =>
          if bool_decide (Compare prevValue (UserKey key) = Gt)
          then Err (New "pebble: overlapping tombstones must be fragmented") else add
      end
  end.
Fixpoint add_tombstones (t : table) (entries : list (InternalKey * bytes)) : result table :=
  match entries with
  | [] => Ok t
  | (key, value) :: entries =>
      match tw_addTombstone t key value with
      | Err e => Err e
      | Ok t => add_tombstones t entries
      end
  end.

(** [rangedel.Encode(&v, tw.Add)]: an error of the encoding comes after the entries that
    were added before. *)
Definition add_rangeDel (t : table) (v : Span) : result table :=
  let '(entries, err) := rangedel_Encode (fun _ _ => None) v (sp_Keys v) [] in
  match add_tombstones t entries, err with
  | Err e, _ => Err e
  | Ok _, Some e => Err e
  | Ok t, None => Ok t
  end.
Fixpoint add_rangeDels (tw : option table) (spans : list Span) : result (option table) :=
  match spans with
  | [] => Ok tw
  | v :: spans =>
      match add_rangeDel (default new_table tw) v with
      | Err e => Err e
      | Ok t => add_rangeDels (Some t) spans
      end
  end.

(** [rangekey.Encode(&v, tw.AddRangeKey)] for spans of range keys; the writer's checks are
    not modelled. *)
Definition add_rangeKeys (tw : option table) (spans : list Span) : option table :=
  match spans with
  | [] => tw
  | _ =>
      let t := default new_table tw in
      Some (mkTable (tb_points t) (tb_rangeDels t) (tb_rangeKeys t ++ spans))
  end.

(** The metadata of the writer: the bounds of the keys of each kind.  The keys of a span are
    encoded in the order of their trailers. *)
Definition wm_Point (t : table) : option bounds :=
  match head (tb_points t), last (tb_points t) with
  | Some (s, _), Some (l, _) => Some (s, l)
  | _, _ => None
  end.
Definition wm_RangeDel (t : table) : option bounds :=
  match head (tb_rangeDels t), last (tb_rangeDels t) with
  | Some (s, _), Some (_, end_) => Some (s, MakeRangeDeleteSentinelKey end_)
  | _, _ => None
  end.
Definition span_SmallestKey (s : Span) : InternalKey :=
  mkInternalKey (sp_Start s) (from_option key_Trailer 0 (head (sp_Keys s))).
Definition span_LargestKey (s : Span) : InternalKey :=
  MakeExclusiveSentinelKey (from_option key_Kind 0 (last (sp_Keys s))) (sp_End s).
Definition wm_RangeKey (t : table) : option bounds :=
  match head (tb_rangeKeys t), last (tb_rangeKeys t) with
  | Some s, Some l => Some (span_SmallestKey s, span_LargestKey l)
  | _, _ => None
  end.
Definition table_meta (t : table) : fileMetadata :=
  let m := new_fileMetadata in
  let m := match wm_Point t with Some (s, l) => ExtendPointKeyBounds m s l | None => m end in
  let m := match wm_RangeDel t with Some (s, l) => ExtendPointKeyBounds m s l | None => m end in
  match wm_RangeKey t with Some (s, l) => ExtendRangeKeyBounds m s l | None => m end.
End table.

(** ** The loop of a compaction *)
Section run.
Context {C : Comparer} {M : Merge} {So : Sort} {Sp : Splitter}.
(** The size that the writer estimates for a table that is not finished. *)
Context (EstimatedSize : table -> Z).
Context (c : compaction) (p : params).

(** The checks of [finishOutput] on the new table, after the one with [prevMeta]. *)
Definition check_rangeDel (prevMeta : option fileMetadata) (splitKey : option bytes) (t : table) : option error :=
  match wm_RangeDel t with
  | None => None
  | Some (s, l) =>
      let err1 :=
        match prevMeta with
        | None => None
        | Some prev =>
            match Compare (UserKey s) (UserKey (fm_Largest prev)) with
            | Lt => Some (New "pebble: smallest range tombstone start key is less than previous sstable largest key")
            | Eq => if IsExclusiveSentinel (fm_Largest prev) then None
                    else Some (New "pebble: invariant violation: previous sstable largest key")
            | Gt => None
            end
        end in
      match err1, splitKey with
      | Some e, _ => Some e
      | None, Some k =>
          if bool_decide (Compare (UserKey l) k = Gt)
          then Some (New "pebble: invariant violation: rangedel largest key extends beyond split key") else None
      | None, None => None
      end
  end.
Definition check_bounds (meta : fileMetadata) : option error :=
  if from_option (fun k => bool_decide (Compare (UserKey (fm_Smallest meta)) k = Lt)) false (cp_smallest c)
  then Some (New "pebble: compaction output grew beyond bounds of input")
  else if from_option (fun k => bool_decide (Compare (UserKey (fm_Largest meta)) k = Gt)) false (cp_largest c)
  then Some (New "pebble: compaction output grew beyond bounds of input")
  else None.
Definition errorOnUserKeyOverlap (prevMeta : option fileMetadata) (meta : fileMetadata) : option error :=
  match prevMeta with
  | None => None
  | Some prev =>
      if negb (IsExclusiveSentinel (fm_Largest prev)) &&
         bool_decide (Compare (UserKey (fm_Largest prev)) (UserKey (fm_Smallest meta)) <> Lt)
      then Some (New "pebble: compaction split user key across two sstables") else None
  end.
Definition finish_table (prevMeta : option fileMetadata) (splitKey : option bytes) (t : table) : result fileMetadata :=
  let meta := table_meta t in
  match check_rangeDel prevMeta splitKey t, check_bounds meta, errorOnUserKeyOverlap prevMeta meta, Validate meta with
  | Some e, _, _, _ | None, Some e, _, _ | None, None, Some e, _ | None, None, None, Some e => Err e
  | None, None, None, None => Ok meta
  end.

(** The start of the first span that is not written. *)
Definition first_start (i : compactionIter) : option bytes :=
  let startKey := match ci_tombstones i with
                  | s :: _ => Some (sp_Start s)
                  | [] => Fragmenter_Start (ci_rangeDelFrag i)
                  end in
  match startKey, ci_rangeKeys i with
  | Some k, _ => Some k
  | None, s :: _ => Some (sp_Start s)
  | None, [] => Fragmenter_Start (ci_rangeKeyFrag i)
  end.

(** [finishOutput]; a copy of an empty key is nil. *)
Definition finishOutput (i : compactionIter) (tw : option table) (prevMeta : option fileMetadata)
    (splitKey : option bytes) : go (result (compactionIter * option (table * fileMetadata))) :=
  if match tw, splitKey with
     | None, Some k => bool_decide (Compare (default [] (first_start i)) k = Eq)
     | _, _ => false
     end
  then Ret (Ok (i, None))
  else
  let splitKey := match splitKey with Some [] => None | k => k end in
  '(i, tombstones) ← Tombstones p i splitKey;
  match add_rangeDels tw tombstones with
  | Err e => Ret (Err e)
  | Ok tw =>
      '(i, rangeKeys) ← RangeKeys i splitKey;
      match add_rangeKeys tw rangeKeys with
      | None => Ret (Ok (i, None))
      | Some t =>
          match finish_table prevMeta splitKey t with
          | Err e => Ret (Err e)
          | Ok meta => Ret (Ok (i, Some (t, meta)))
          end
      end
  end.

(** The iterator and the splitters after [First] or [Next]: saving a key advances the
    frontiers, at last to the key that is returned. *)
Definition reach (s : splitter) (r : returned) : splitter :=
  match r with Some (key, _) => advance s (UserKey key) | None => s end.

Definition unsafePrevUserKey (i : compactionIter) (tw : option table) : bytes :=
  let prevPoint := match tw with
                   | Some t => match last (tb_points t) with Some (k, _) => UserKey k | None => [] end
                   | None => []
                   end in
  let start := default [] (Fragmenter_Start (ci_rangeDelFrag i)) in
  if bool_decide (Compare prevPoint start = Gt) then prevPoint else start.

(** A copy of the span at the iterator is added to a fragmenter. *)
Definition clone_span (s : Span) : Span := mkSpan (sp_Start s) (sp_End s) (sp_Keys s) ByTrailerDesc.
Definition add_tombstone_span (i : compactionIter) : go compactionIter :=
  if span_Empty (ci_iterSpan i) then Ret i
  else f ← Add (ci_rangeDelFrag i) (clone_span (ci_iterSpan i)); Ret (with_rangeDelFrag p i f).
Definition add_rangeKey_span (i : compactionIter) : go compactionIter :=
  if span_Empty (ci_iterSpan i) then Ret i
  else f ← Add (ci_rangeKeyFrag i) (clone_span (ci_iterSpan i)); Ret (with_rangeKeyFrag i f).

(** The inner loop, which fills one output. *)
Fixpoint output_loop (fuel : nat) (i : compactionIter) (s : splitter) (tw : option table) (r : returned)
    : go (result (compactionIter * splitter * option table * returned)) :=
  match fuel with
  | O => Panic "out of fuel"
  | Datatypes.S fuel =>
      match r with
      | None => Ret (Ok (i, s, tw, None))
      | Some (key, val) =>
          let '(s, split) := shouldSplitBefore s key (EstimatedSize <$> tw) (unsafePrevUserKey i tw) in
          if split : bool then Ret (Ok (i, s, tw, r)) else
          if Kind key =? InternalKeyKindRangeDelete then
            i ← add_tombstone_span i;
            '(i, r) ← Next p i;
            output_loop fuel i (reach s r) tw r
          else if IsRangeKey (Kind key) then
            i ← add_rangeKey_span i;
            '(i, r) ← Next p i;
            output_loop fuel i (reach s r) tw r
          else
            match tw_Add (default new_table tw) key val with
            | Err e => Ret (Err e)
            | Ok t =>
                '(i, r) ← Next p i;
                output_loop fuel i (reach s r) (Some t) r
            end
      end
  end.

(** The outer loop, and the tables that it has written. *)
Fixpoint compaction_loop (fuel : nat) (i : compactionIter) (s : splitter) (r : returned)
    (out : list (table * fileMetadata)) : go (result (compactionIter * list (table * fileMetadata))) :=
  match fuel with
  | O => Panic "out of fuel"
  | Datatypes.S fuel =>
      if bool_decide (r = None) && Fragmenter_Empty (ci_rangeDelFrag i) && Fragmenter_Empty (ci_rangeKeyFrag i)
      then Ret (Ok (i, out))
      else
      let firstKey := match r with
                      | Some (key, _) => Some (UserKey key)
                      | None => Fragmenter_Start (ci_rangeDelFrag i)
                      end in
      let '(s, splitterSuggestion) := onNewOutput s firstKey in
      res ← output_loop (3 + length (ci_iter i)) i s None r;
      match res with
      | Err e => Ret (Err e)
      | Ok (i, s, tw, r) =>
          let splitKey :=
            match r, splitterSuggestion with
            | Some (key, _), None => Some (UserKey key)
            | Some (key, _), Some k =>
                Some (if bool_decide (Compare k (UserKey key) = Gt) then UserKey key else k)
            | None, k => k
            end in
          res ← finishOutput i tw (snd <$> last out) splitKey;
          match res with
          | Err e => Ret (Err e)
          | Ok (i, o) => compaction_loop fuel i s r (out ++ option_list o)
          end
      end
  end.

(** [runCompaction]: from the merged input to the new tables; [fuel] bounds their number. *)
Definition runCompaction (fuel : nat) (s : splitter) (input : list item)
    : go (result (list (table * fileMetadata))) :=
  '(i, r) ← First p (newCompactionIter input);
  res ← compaction_loop fuel i (reach s r) r [];
  match res with
  | Err e => Ret (Err e)
  | Ok (i, out) =>
      match snd (Close i None) with
      | Some e => Ret (Err e)
      | None => Ret (Ok out)
      end
  end.
End run.
