(* ===== verification/CompactionRun.v ===== *)
(** The range deletions that a compaction writes, compared with those of its input; and the
    state of a compaction while it runs. *)
From stdpp Require Import sorting.
From S2P Require Import Prelude.
From S2P Require Import Comparer.
From S2P Require Import InternalKey.
From S2P Require Import GoStd.
From S2P Require Import Keyspan.
From S2P Require Import KeyspanSpec.
From S2P Require Import RangeKey.
From S2P Require Import Merger.
From S2P Require Import CompactionIter.
From S2P Require Import CompactionStep.
From S2P Require Import CompactionNext.
From S2P Require Import CompactionOps.
From S2P Require Import CompactionLoop.
From S2P Require Import Splitter.
From S2P Require Import Compaction.
From Stdlib Require Import Sorted.

Local Open Scope Z_scope.

Section tombs.
Context {C : Comparer} {L : ComparerLaws C} (p : params) (Hsnaps : snaps_ok (snapshots p)).
Abbreviation idx q := (fst (snapshotIndex q (snapshots p))).
Abbreviation kidx k := (fst (snapshotIndex (key_SeqNum k) (snapshots p))).

(** ** The keys of a fragment that are kept *)
Definition newest (start end_ : bytes) (k : Key) (out : list Key) : Prop :=
  exists k', k' ∈ out /\ kidx k' = kidx k /\ key_SeqNum k <= key_SeqNum k'.

Lemma emit_loop_spec start end_ keys : forall cur,
  StronglySorted (fun a b => key_SeqNum b <= key_SeqNum a) keys ->
  Forall (fun k => forall c, cur = Some c -> (kidx k <= c)%nat) keys ->
  let out := emit_loop p start end_ cur keys in
  sublist out keys /\
  Forall (fun k => cur <> Some (kidx k) -> (0 < kidx k)%nat \/ elideRangeTombstone p start end_ = false ->
    newest start end_ k out) keys /\
  Forall (fun k => (forall c, cur = Some c -> (kidx k < c)%nat) /\
    (elideRangeTombstone p start end_ = true -> kidx k <> 0%nat)) out /\
  StronglySorted (fun a b => (kidx b < kidx a)%nat) out.
Proof.
  induction keys as [|k keys IH]; intros cur Hs Hc; cbn [emit_loop].
  { split_and!; try done; constructor. }
  apply StronglySorted_inv in Hs as [Hs Hk]. apply Forall_cons in Hc as [Hck Hc].
  destruct (snapshotIndex (key_SeqNum k) (snapshots p)) as [n b] eqn:En.
  assert (n = kidx k) as Hn by (by rewrite En). cbn [fst] in Hck.
  case_decide as Hcur.
  { destruct (IH cur Hs Hc) as (I1 & I2 & I3 & I4). split_and!; try done.
    - by apply sublist_cons.
    - apply Forall_cons. split; [|done]. rewrite Hcur, Hn. done. }
  assert (forall k', k' ∈ keys -> (kidx k' <= n)%nat) as Hle.
  { intros k' Hk'. rewrite Forall_forall in Hk. rewrite Hn. apply idx_mono; [done|]. by apply Hk. }
  destruct (Nat.eqb_spec n 0) as [H0|H0]; cbn [andb].
  - assert (forall k', k' ∈ k :: keys -> kidx k' = 0%nat) as Hz.
    { intros k' [->|Hk']%elem_of_cons; [congruence|]. specialize (Hle k' Hk'). lia. }
    destruct (elideRangeTombstone p start end_) eqn:Eel.
    + split_and!; [apply sublist_nil_l| |constructor|constructor].
      apply Forall_forall. intros k' Hk' _ [?|?]; [|done]. specialize (Hz k' Hk'). lia.
    + split_and!.
      * apply sublist_skip, sublist_nil_l.
      * apply Forall_forall. intros k' Hk' _ _. exists k. split; [left|]. split; [by rewrite !Hz by (done || left)|].
        apply elem_of_cons in Hk' as [->|Hk']; [lia|]. rewrite Forall_forall in Hk. by apply Hk.
      * constructor; [|constructor]. split; [|done]. intros c Ec. specialize (Hck c Ec).
        destruct (decide (n = c)) as [->|]; [congruence|lia].
      * constructor; constructor.
  - destruct (IH (Some n) Hs) as (I1 & I2 & I3 & I4).
    { apply Forall_forall. intros k' Hk' c [= <-]. by apply Hle. }
    assert (forall c, cur = Some c -> (n < c)%nat) as Hlt.
    { intros c Ec. specialize (Hck c Ec). destruct (decide (n = c)) as [->|]; [congruence|lia]. }
    split_and!.
    + by apply sublist_skip.
    + apply Forall_forall. intros k' Hk' _ Hor.
      destruct (decide (kidx k' = n)) as [E|E].
      * exists k. split; [left|]. split; [congruence|].
        apply elem_of_cons in Hk' as [->|Hk']; [lia|]. rewrite Forall_forall in Hk. by apply Hk.
      * apply elem_of_cons in Hk' as [->|Hk']; [congruence|]. rewrite Forall_forall in I2.
        destruct (I2 k' Hk' ltac:(congruence) Hor) as (k2 & Hin & ?). exists k2. split; [by right|done].
    + apply Forall_cons. split; [split; [intros; rewrite <- Hn; auto|intros _; lia]|].
      eapply Forall_impl; [exact I3|]. intros k' [H1 H2]. split; [|done]. intros c Ec.
      specialize (H1 n eq_refl). specialize (Hlt c Ec). lia.
    + constructor; [done|]. eapply Forall_impl; [exact I3|]. intros k' [H1 _]. rewrite <- Hn. by apply H1.
Qed.

(** ** Chunks *)
Definition chunk (s : Span) : list Span :=
  match emit_loop p (sp_Start s) (sp_End s) None (sp_Keys s) with
  | [] => []
  | keys => [mkSpan (sp_Start s) (sp_End s) keys ByTrailerDesc]
  end.
Definition chunks (l : list Span) : list Span := concat (chunk <$> l).
Lemma chunks_app l1 l2 : chunks (l1 ++ l2) = chunks l1 ++ chunks l2.
Proof. unfold chunks. by rewrite fmap_app, concat_app. Qed.

Lemma fold_chunks l : forall i,
  fold_left (emitRangeDelChunk p) l i = i <| ci_tombstones := ci_tombstones i ++ chunks l |>.
Proof.
  induction l as [|s l IH]; intros i; simpl.
  - unfold chunks. simpl. rewrite app_nil_r. by destruct i.
  - rewrite IH. unfold emitRangeDelChunk, chunks. cbn [fmap list_fmap concat].
    unfold chunk at 2. destruct (emit_loop _ _ _ _ _); [done|]. simpl. by rewrite <- app_assoc.
Qed.
Lemma with_rangeDelFrag_eq i f out :
  f_emitted f = f_emitted (ci_rangeDelFrag i) ++ out ->
  with_rangeDelFrag p i f = i <| ci_rangeDelFrag := f |> <| ci_tombstones := ci_tombstones i ++ chunks out |>.
Proof. intros E. unfold with_rangeDelFrag. rewrite E, drop_app_length. exact (fold_chunks out (i <| ci_rangeDelFrag := f |>)). Qed.

Definition rchunks (l : list Span) : list Span := filter (fun s => sp_Keys s <> []) l.
Lemma with_rangeKeyFrag_eq i f out :
  f_emitted f = f_emitted (ci_rangeKeyFrag i) ++ out ->
  with_rangeKeyFrag i f = i <| ci_rangeKeyFrag := f |> <| ci_rangeKeys := ci_rangeKeys i ++ rchunks out |>.
Proof.
  intros E. unfold with_rangeKeyFrag. rewrite E, drop_app_length.
  assert (forall l i, fold_left emitRangeKeyChunk l i = i <| ci_rangeKeys := ci_rangeKeys i ++ rchunks l |>) as H.
  { clear. induction l as [|s l IH]; intros i; simpl; [rewrite app_nil_r; by destruct i|].
    rewrite IH. unfold emitRangeKeyChunk, rchunks. rewrite filter_cons.
    destruct (sp_Keys s) eqn:Ek; case_decide; try done. simpl. by rewrite <- app_assoc. }
  exact (H out (i <| ci_rangeKeyFrag := f |>)).
Qed.

(** ** The tombstones of a user key *)
Definition seqs_at (l : list Span) (k : bytes) : list Z := key_SeqNum <$> at_key k l.

Lemma chunk_contains s x : Contains s x = false -> at_key x (chunk s) = [].
Proof.
  intros H. unfold chunk. destruct (emit_loop _ _ _ _ _); [done|]. rewrite at_key_cons.
  assert (Contains (mkSpan (sp_Start s) (sp_End s) (k :: l) ByTrailerDesc) x = Contains s x) as -> by done.
  by rewrite H.
Qed.
Lemma chunks_none x l : Forall (fun s => Contains s x = false) l -> at_key x (chunks l) = [].
Proof.
  induction 1 as [|s l Hs _ IH]; [done|]. unfold chunks in *. cbn [fmap list_fmap concat].
  by rewrite at_key_app, chunk_contains, IH.
Qed.

Lemma chain_contains lo l x : chain lo l -> Compare x lo = Lt -> Forall (fun s => Contains s x = false) l.
Proof.
  intros Hc Hx. eapply Forall_impl; [exact (chain_starts _ _ Hc)|]. intros s Hs.
  apply not_true_iff_false. rewrite Contains_spec. intros [H _]. apply H. apply compare_gt_lt.
  exact (compare_lt_le_trans _ _ _ Hx Hs).
Qed.

Lemma tombs_at x l : forall lo, chain lo l ->
  (at_key x l = [] /\ at_key x (chunks l) = []) \/
  exists s, s ∈ l /\ Contains s x = true /\ at_key x l = sp_Keys s /\
    at_key x (chunks l) = emit_loop p (sp_Start s) (sp_End s) None (sp_Keys s) /\
    StronglySorted (fun a b => key_SeqNum b <= key_SeqNum a) (sp_Keys s).
Proof.
  induction l as [|s l IH]; intros lo Hc; [by left|]. destruct Hc as (H1 & H2 & H3 & H4).
  destruct (Contains s x) eqn:Ec.
  - right. exists s. apply Contains_spec in Ec as [E1 E2].
    pose proof (chain_contains _ _ _ H4 E2) as Hn. split; [left|]. split; [by apply Contains_spec|].
    assert (Contains s x = true) as Ec by (by apply Contains_spec).
    split; [rewrite at_key_cons, Ec, at_key_none by done; apply app_nil_r|]. split.
    + unfold chunks. cbn [fmap list_fmap concat]. fold (chunks l). rewrite at_key_app, chunks_none, app_nil_r by done.
      unfold chunk. destruct (emit_loop _ _ _ _ _) eqn:Ee; [done|]. rewrite at_key_cons.
      assert (Contains (mkSpan (sp_Start s) (sp_End s) (k :: l0) ByTrailerDesc) x = Contains s x) as -> by done.
      rewrite Ec. apply app_nil_r.
    + clear -H3. induction H3 as [|k ks Hs IH Hk]; constructor; [done|]. eapply Forall_impl; [exact Hk|].
      intros k'. apply key_SeqNum_mono.
  - unfold chunks. cbn [fmap list_fmap concat]. fold (chunks l).
    rewrite at_key_cons, Ec, at_key_app, chunk_contains by done. cbn [app].
    destruct (IH _ H4) as [?|(s' & ? & ?)]; [by left|right]. exists s'. split; [by right|done].
Qed.

Section equiv.
Context (E : list Span) (T : bytes -> list Z) (B : bytes -> list op).
Context (HE : chain [] E) (HT : forall k t, t ∈ T k <-> t ∈ seqs_at E k).
Context (Hrange : forall k t, t ∈ T k -> t < InternalKeySeqNumMax).
Context (Helide : forall s x, elideRangeTombstone p (sp_Start s) (sp_End s) = true -> Contains s x = true -> B x = []).
Context (Hzero : allowZeroSeqNum p = true ->
  Forall (fun s => sp_Keys s <> [] -> elideRangeTombstone p (sp_Start s) (sp_End s) = true) E).
Abbreviation Tout := (seqs_at (chunks E)).

Lemma out_sub k t : t ∈ Tout k -> t ∈ T k.
Proof.
  rewrite HT. unfold seqs_at. destruct (tombs_at k E [] HE) as [[_ ->]|(s & _ & _ & -> & -> & Hs)]; [by intros ?%elem_of_nil|].
  destruct (emit_loop_spec (sp_Start s) (sp_End s) (sp_Keys s) None Hs) as (Hsub & _).
  { apply Forall_forall. done. }
  intros (key & -> & Hk)%list_elem_of_fmap. apply list_elem_of_fmap. exists key. split; [done|].
  by eapply elem_of_sublist.
Qed.
Lemma out_newest k t : t ∈ T k -> (0 < idx t)%nat \/ B k <> [] ->
  exists t', t' ∈ Tout k /\ idx t' = idx t /\ t <= t'.
Proof.
  rewrite HT. unfold seqs_at. intros (key & -> & Hk)%list_elem_of_fmap Hor.
  destruct (tombs_at k E [] HE) as [[E1 _]|(s & Hin & Hc & E1 & -> & Hs)].
  { rewrite E1 in Hk. by apply elem_of_nil in Hk. }
  rewrite E1 in Hk.
  destruct (emit_loop_spec (sp_Start s) (sp_End s) (sp_Keys s) None Hs) as (_ & Hn & _).
  { apply Forall_forall. done. }
  rewrite Forall_forall in Hn. destruct (Hn key Hk) as (k' & Hk' & Hi & Hle); [done| |].
  { destruct Hor as [?|HB]; [by left|right]. destruct (elideRangeTombstone p (sp_Start s) (sp_End s)) eqn:Eel; [|done].
    exfalso. apply HB. by apply (Helide s). }
  exists (key_SeqNum k'). split; [|done]. apply list_elem_of_fmap. by exists k'.
Qed.
Lemma out_zero k t : allowZeroSeqNum p = true -> t ∈ Tout k -> idx t <> 0%nat.
Proof.
  intros Hz. unfold seqs_at. destruct (tombs_at k E [] HE) as [[_ ->]|(s & Hin & _ & _ & -> & Hs)]; [by intros ?%elem_of_nil|].
  destruct (emit_loop_spec (sp_Start s) (sp_End s) (sp_Keys s) None Hs) as (_ & _ & Ho & _).
  { apply Forall_forall. done. }
  intros (key & -> & Hk)%list_elem_of_fmap. rewrite Forall_forall in Ho. apply (Ho key Hk).
  specialize (Hzero Hz). rewrite Forall_forall in Hzero. apply Hzero; [done|].
  intros E0. rewrite E0 in Hk. by apply elem_of_nil in Hk.
Qed.

(** A newer tombstone of the stripe is visible to the same readers. *)
Lemma newest_visible k t t' s : t ∈ T k -> t' ∈ T k -> idx t' = idx t -> reader (snapshots p) s -> t < s -> t' < s.
Proof.
  intros Ht Ht' Hi Hs Hlt. apply (bound_visible _ Hsnaps); [by eapply Hrange|done|].
  rewrite (idx_bound _ Hsnaps _ _ Hi). by apply (bound_visible _ Hsnaps); [eapply Hrange|..].
Qed.

Lemma below_out k s : reader (snapshots p) s -> below T B k s = below Tout B k s.
Proof.
  intros Hs. unfold below. destruct (decide (B k = [])) as [->|HB]; [by repeat case_decide|].
  assert (Exists (fun t => t < s) (T k) <-> Exists (fun t => t < s) (Tout k)) as Hiff.
  { rewrite !Exists_exists. split; intros (t & Ht & Hlt).
    - destruct (out_newest k t Ht (or_intror HB)) as (t' & Ht' & Hi & _). exists t'. split; [done|].
      by apply (newest_visible k t); [|apply out_sub|..].
    - exists t. split; [by apply out_sub|done]. }
  repeat case_decide; tauto.
Qed.

Lemma alive_out e key k s :
  item_ok e -> point e -> ~ covered (snapshots p) T (it_key e) -> emits p e key -> reader (snapshots p) s ->
  alive T k s (it_key e) <-> alive Tout k s key.
Proof.
  intros Hok Hp Hnc (Hu & _ & Hq) Hs. pose proof (point_seq e Hok Hp) as Hmax.
  assert (0 <= sq e) as Hpos. { rewrite SeqNum_eq. apply Z.div_pos; [apply Hok|lia]. }
  unfold alive. rewrite Hu.
  assert (uk e = k -> dead T k s (sq e) -> exists t, t ∈ Tout k /\ sq e < t < s) as Hin.
  { intros Hk (t & Ht & Hlt)%Exists_exists. rewrite <- Hk in *. 
    assert (bound_q : ~ t < snd (snapshotIndex (sq e) (snapshots p))).
    { intros Hb. apply Hnc. apply Exists_exists. exists t. split; [done|lia]. }
    assert (0 < idx t)%nat as Hi.
    { destruct (decide (idx t = 0%nat)) as [H0|]; [|lia]. exfalso.
      pose proof (idx_mono _ Hsnaps (sq e) t ltac:(lia)). 
      pose proof (idx_bound _ Hsnaps (sq e) t ltac:(lia)) as Hb.
      pose proof (bound_gt _ Hsnaps t ltac:(by eapply Hrange)). lia. }
    destruct (out_newest _ t Ht (or_introl Hi)) as (t' & Ht' & Hi' & Hle). exists t'. split; [done|].
    split; [lia|]. apply (newest_visible (uk e) t); [done|by apply out_sub|done|done|lia]. }
  assert (SeqNum key = 0 /\ allowZeroSeqNum p = true /\ idx (sq e) = 0%nat ->
    uk e = k -> sq e < s /\ SeqNum key < s /\ (dead T k s (sq e) <-> dead Tout k s (SeqNum key))) as Hz.
  { intros (H0 & Hal & Hi) Hk. pose proof (idx_0 _ Hsnaps _ _ Hmax Hi Hs) as Hlt. rewrite H0. split; [done|].
    split; [lia|]. split.
    - intros Hd. destruct (Hin Hk Hd) as (t & Ht & Hts). apply Exists_exists. exists t. split; [done|lia].
    - intros (t & Ht & Hts)%Exists_exists. apply Exists_exists. exists t. split; [by apply out_sub|].
      split; [|lia]. pose proof (out_zero k t Hal Ht). destruct (decide (t <= sq e)); [|lia].
      pose proof (idx_mono _ Hsnaps t (sq e) ltac:(done)). lia. }
  split.
  - intros (Hk & Hlt & Hd). split; [done|]. destruct Hq as [Hq|Hq].
    + rewrite Hq. split; [done|]. intros (t & Ht & Hts)%Exists_exists. apply Hd, Exists_exists. exists t.
      split; [by apply out_sub|done].
    + destruct (Hz Hq Hk) as (_ & ? & <-). done.
  - intros (Hk & Hlt & Hd). split; [done|]. destruct Hq as [Hq|Hq].
    + rewrite Hq in *. split; [done|]. intros Hd'. apply Hd. destruct (Hin Hk Hd') as (t & Ht & Hts).
      apply Exists_exists. by exists t.
    + destruct (Hz Hq Hk) as (? & _ & Hiff). split; [done|]. by rewrite Hiff.
Qed.
End equiv.
End tombs.

(** * The state of a compaction while it runs: what has been read and written, and that
    [First] and [Next] keep it. *)
(** ** The spans of the input *)
Definition is_rangedel (e : item) : Prop := Kind (it_key e) = InternalKeyKindRangeDelete.
Definition is_rangekey (e : item) : Prop := IsRangeKey (Kind (it_key e)) = true.
#[export] Instance is_rangedel_dec e : Decision (is_rangedel e) := _.
#[export] Instance is_rangekey_dec e : Decision (is_rangekey e) := _.
Definition del_spans (l : list item) : list Span := clone_span ∘ it_span <$> filter is_rangedel l.
Definition key_spans (l : list item) : list Span := clone_span ∘ it_span <$> filter is_rangekey l.

(** The span of a range deletion or a range key starts at its user key, and the keys of a
    range deletion are not newer than its first one. *)
Definition span_ok {C : Comparer} (e : item) : Prop :=
  sp_Start (it_span e) = uk e /\ Compare (sp_Start (it_span e)) (sp_End (it_span e)) = Lt /\
  sp_Keys (it_span e) <> [].
Definition del_ok {C : Comparer} (e : item) : Prop :=
  span_ok e /\ Forall (fun k => key_Kind k = InternalKeyKindRangeDelete /\ key_SeqNum k <= sq e) (sp_Keys (it_span e)).
Definition key_ok {C : Comparer} (e : item) : Prop :=
  span_ok e /\ Forall (fun k => IsRangeKey (key_Kind k) = true) (sp_Keys (it_span e)).
Record input_ok {C : Comparer} (input : list item) : Prop := {
  in_items : items_ok input;
  in_dels : Forall (fun e => is_rangedel e -> del_ok e) input;
  in_keys : Forall (fun e => is_rangekey e -> key_ok e) input;
}.

Lemma del_spans_app l1 l2 : del_spans (l1 ++ l2) = del_spans l1 ++ del_spans l2.
Proof. unfold del_spans. by rewrite filter_app, fmap_app. Qed.
Lemma key_spans_app l1 l2 : key_spans (l1 ++ l2) = key_spans l1 ++ key_spans l2.
Proof. unfold key_spans. by rewrite filter_app, fmap_app. Qed.
Lemma point_not_rangekey e : point e -> ~ is_rangekey e.
Proof.
  unfold point, is_rangekey, IsRangeKey. intros Hp [[E|E]%orb_true_iff|E]%orb_true_iff;
    apply Z.eqb_eq in E; by rewrite E in Hp.
Qed.
Lemma points_spans l : Forall point l -> del_spans l = [] /\ key_spans l = [].
Proof.
  intros H. unfold del_spans, key_spans. rewrite Forall_forall in H.
  rewrite !list_filter_none; [done| |]; intros x Hx.
  - apply point_not_rangekey. auto.
  - unfold is_rangedel. apply point_not_rangedel. auto.
Qed.
Lemma not_point_kind e : item_ok e -> ~ point e -> is_rangedel e \/ is_rangekey e.
Proof. intros (_ & _ & [[? _]|[[? _]|?]]) Hp; [done|by left|by right]. Qed.
Lemma rangekey_not_del e : is_rangekey e -> ~ is_rangedel e.
Proof. unfold is_rangekey, is_rangedel. intros H E. by rewrite E in H. Qed.

Section run.
Context {C : Comparer} {L : ComparerLaws C} {M : Merge} {ML : MergeLaws M} {So : Sort} {SoL : SortLaws So}.
Context (p : params) (Hsnaps : snaps_ok (snapshots p)) (input : list item) (Hin : input_ok input).
(** The sequence numbers of the range deletions of a user key, and its entries below. *)
Definition tombs (input : list item) (k : bytes) : list Z := seqs_at (del_spans input) k.
Context (B : bytes -> list op) (Helide : forall k, elideTombstone p k = true -> B k = []).
(** An upper bound of the input. *)
Context (hi : option bytes).
Abbreviation T := (tombs input).
Abbreviation idx q := (fst (snapshotIndex q (snapshots p))).
Abbreviation bound q := (snd (snapshotIndex q (snapshots p))).
Abbreviation covered := (covered (snapshots p) T).
Abbreviation ready := (ready p).
Abbreviation remaining := (remaining p).
Abbreviation step_ok := (step_ok (snapshots p) T B).

(** ** Fragments *)

(** The keys at a user key come from items of the input. *)
Lemma at_item_spans (P : item -> Prop) `{!forall e, Decision (P e)} x l k :
  k ∈ at_key x (clone_span ∘ it_span <$> filter P l) <->
  exists e, e ∈ l /\ P e /\ Contains (it_span e) x = true /\ k ∈ sp_Keys (it_span e).
Proof.
  unfold at_key. rewrite list_elem_of_In, in_concat. split.
  - intros (ks & Hks & Hk). apply list_elem_of_In in Hks, Hk.
    apply list_elem_of_fmap in Hks as (s & -> & [Hc Hs]%list_elem_of_filter).
    apply list_elem_of_fmap in Hs as (e & -> & [He Hin']%list_elem_of_filter). exists e. done.
  - intros (e & He & Hd & Hc & Hk). exists (sp_Keys (clone_span (it_span e))).
    split; apply list_elem_of_In; [|done]. apply list_elem_of_fmap. exists (clone_span (it_span e)).
    split; [done|]. apply list_elem_of_filter. split; [done|]. apply list_elem_of_fmap. exists e. split; [done|].
    by apply list_elem_of_filter.
Qed.
Lemma at_del_spans x l k :
  k ∈ at_key x (del_spans l) <->
  exists e, e ∈ l /\ is_rangedel e /\ Contains (it_span e) x = true /\ k ∈ sp_Keys (it_span e).
Proof. apply at_item_spans. Qed.
Lemma at_key_spans x l k :
  k ∈ at_key x (key_spans l) <->
  exists e, e ∈ l /\ is_rangekey e /\ Contains (it_span e) x = true /\ k ∈ sp_Keys (it_span e).
Proof. apply at_item_spans. Qed.

Lemma del_seq_range e k : e ∈ input -> is_rangedel e -> k ∈ sp_Keys (it_span e) -> key_SeqNum k < 2 ^ 55.
Proof.
  intros He Hd Hk. destruct Hin as [[_ Hok] Hdel _]. rewrite Forall_forall in Hok, Hdel.
  destruct (Hdel e He Hd) as [_ Hks]. rewrite Forall_forall in Hks. destruct (Hks k Hk) as [_ Hle].
  destruct (Hok e He) as (_ & _ & [(Hp & ? & _)|[[_ ?]|Hr]]); [lia|lia|]. by apply rangekey_not_del in Hr.
Qed.
Lemma tombs_range k t : t ∈ T k -> t < InternalKeySeqNumMax.
Proof.
  unfold tombs, seqs_at. intros (key & -> & (e & He & Hd & _ & Hk)%at_del_spans)%list_elem_of_fmap.
  apply seq_max. by apply (del_seq_range e).
Qed.

(** The fragmenter knows all range deletions that matter for the next points. *)
Lemma covers_rest done rest cuts q pos f :
  input = done ++ rest -> FInv (del_spans done) cuts q pos f ->
  Forall (fun x => Compare pos (uk x) <> Gt) rest -> covers_ok p T f rest.
Proof.
  intros Hi Hf Hpos l1 e l2 Hl Hn Hp. subst rest.
  apply Forall_app in Hpos as [_ [Hpe _]%Forall_cons].
  rewrite (FInv_covers _ _ _ _ _ _ _ Hf Hpe). eexists. split; [reflexivity|].
  unfold cover_spec, CompactionStep.covered, dead.
  set (P := Exists _ _). assert (P <-> Exists (fun t => sq e < t < bound (sq e)) (T (uk e))) as Hiff.
  { unfold P, tombs, seqs_at. rewrite Exists_fmap, !Exists_exists. split.
    - intros (k & (x & Hx & Hd & Hc & Hk)%at_del_spans & Hlt & Hv). exists k.
      assert (x ∈ input) as Hxi by (rewrite Hi; apply elem_of_app; by left).
      split; [apply at_del_spans; eauto|]. split; [done|].
      unfold key_VisibleAt in Hv. apply orb_true_iff in Hv as [Hv|Hv]; [by apply Z.ltb_lt|].
      exfalso. pose proof (del_seq_range x k Hxi Hd Hk).
      assert (0 <= sq e). { rewrite SeqNum_eq. apply Z.div_pos; [|lia].
        destruct Hin as [[_ Hok] _ _]. rewrite Forall_forall in Hok. apply Hok. rewrite Hi, !elem_of_app. right. right. left. }
      rewrite batch_bit_spec in Hv by lia. lia.
    - intros (k & (x & Hx & Hd & Hc & Hk)%at_del_spans & Hlt). cbn in Hlt. exists k.
      split; [|split; [lia|]]. 2: { unfold key_VisibleAt. apply orb_true_iff. left. apply Z.ltb_lt. lia. }
      apply at_del_spans. exists x. split; [|done].
      destruct Hin as [[Hs Hok] Hdel _]. rewrite Hi in Hx, Hs.
      apply elem_of_app in Hx as [Hx|Hx]; [done|]. exfalso.
      apply elem_of_app in Hx as [Hx|Hx].
      { rewrite Forall_forall in Hn. by apply (Hn x Hx). }
      apply elem_of_cons in Hx as [->|Hx]; [by apply point_not_rangedel in Hp|].
      apply StronglySorted_app_1_r, StronglySorted_app_1_r, StronglySorted_inv in Hs as [_ Hb].
      rewrite Forall_forall in Hb. specialize (Hb x Hx).
      rewrite Forall_forall in Hdel.
      destruct (Hdel x) as [(Hst & _) Hks]; [rewrite Hi, !elem_of_app; right; right; by right|done|].
      rewrite Forall_forall in Hks. destruct (Hks k Hk) as [_ Hle].
      apply Contains_spec in Hc as [Hc _]. rewrite Hst in Hc. pose proof (proj1 Hb) as Hb1.
      apply InternalCompare_lt in Hb1 as [Hb1|[Hb1 _]].
      + apply Hc. by apply compare_gt_lt.
      + pose proof (before_seq_le (it_key e) (it_key x) Hb Hb1). lia. }
  rewrite <- Hiff. split; [|by intros; rewrite decide_True].
  case_decide; [done|]. case_decide; done.
Qed.

(** ** Entries that are written *)

(** An entry of the input, and the key and value in its place. *)
Definition orig (o : item * (InternalKey * bytes)) : InternalKey * op :=
  (it_key (fst o), (Kind (fst (snd o)), snd (snd o))).
Definition out_ok (o : item * (InternalKey * bytes)) : Prop :=
  fst o ∈ input /\ point (fst o) /\ item_ok (fst o) /\ ~ covered (it_key (fst o)) /\ emits p (fst o) (fst (snd o)).
Definition out_lt (o1 o2 : item * (InternalKey * bytes)) : Prop :=
  InternalCompare (fst (snd o1)) (fst (snd o2)) = Lt.

(** An entry that may still be written after [o]. *)
Definition after (o : item * (InternalKey * bytes)) (x : item) : Prop :=
  before (fst o) x /\ (SeqNum (fst (snd o)) <> sq (fst o) -> uk x <> uk (fst o)).
Lemma seq_trailer k1 k2 : SeqNum k1 < SeqNum k2 -> Trailer k1 < Trailer k2.
Proof.
  rewrite !SeqNum_eq. intros H. destruct (Z.lt_ge_cases (Trailer k1) (Trailer k2)); [done|].
  pose proof (Z.div_le_mono (Trailer k2) (Trailer k1) 256 ltac:(lia) ltac:(lia)). lia.
Qed.
Lemma after_lt o1 o2 : out_ok o1 -> out_ok o2 -> after o1 (fst o2) -> out_lt o1 o2.
Proof.
  destruct o1 as [e1 [k1 v1]], o2 as [e2 [k2 v2]]. unfold out_ok, out_lt, after. simpl.
  intros (_ & Hp1 & Hok1 & _ & (Hu1 & _ & Hq1)) (_ & Hp2 & Hok2 & _ & (Hu2 & _ & Hq2)) [Hb Hz].
  apply InternalCompare_lt. rewrite Hu1, Hu2. pose proof (proj1 Hb) as Hlt.
  apply InternalCompare_lt in Hlt as [?|[Hu _]]; [by left|right]. split; [done|].
  apply seq_trailer. pose proof (before_seq e1 e2 Hb Hu Hp1 Hp2).
  assert (0 <= sq e2) by (rewrite SeqNum_eq; apply Z.div_pos; [apply Hok2|lia]).
  destruct (decide (SeqNum k1 = sq e1)) as [->|Hne]; [|by destruct (Hz Hne)]. destruct Hq2 as [->|(-> & _)]; lia.
Qed.

(** ** The state *)

(** A fragmenter that starts at a key with [Q]; [W] are the fragments in tables that are
    finished, which end at [lo], and [E] those that are not written. *)
Definition frag_inv (spans : list Span) (f : Fragmenter) (lo : bytes) (W E : list Span) (Q : bytes -> Prop) : Prop :=
  exists cuts q, FInv spans cuts q q f /\ f_emitted f = W ++ E /\ chain lo E /\ Compare lo q <> Gt /\
    Compare (chain_end lo E) q <> Gt /\ Q q /\ fits hi f /\ (f_pending f = [] -> E = []).
Definition frags (i : compactionIter) (done : list item) (lo : bytes) (W WK : list Span) (Q : bytes -> Prop) : Prop :=
  (exists E, ci_tombstones i = chunks p E /\ frag_inv (del_spans done) (ci_rangeDelFrag i) lo W E Q) /\
  (exists E, ci_rangeKeys i = rchunks E /\ frag_inv (key_spans done) (ci_rangeKeyFrag i) lo WK E Q).

(** The fragmenter is not ahead of the entries that are left, nor of a limit. *)
Definition not_ahead (rest : list item) (lim : option bytes) (q : bytes) : Prop :=
  Forall (fun x => Compare q (uk x) <> Gt) rest /\ forall x, lim = Some x -> Compare q x <> Gt.
Lemma not_ahead_incl rest rest' lim q :
  (forall x, x ∈ rest' -> x ∈ rest) -> not_ahead rest lim q -> not_ahead rest' lim q.
Proof.
  intros Hincl [H1 H2]. split; [|done]. rewrite Forall_forall in H1 |- *. auto.
Qed.
Lemma frags_impl i done lo W WK Q Q' :
  (forall q, Q q -> Q' q) -> frags i done lo W WK Q -> frags i done lo W WK Q'.
Proof.
  intros HQ [(E1 & T1 & c1 & q1 & F1) (E2 & T2 & c2 & q2 & F2)].
  split; [exists E1|exists E2]; (split; [done|]); [exists c1, q1|exists c2, q2]; intuition.
Qed.

Lemma frags_points i i' done seg lo W WK Q :
  frags i done lo W WK Q -> kept i i' -> Forall point seg -> frags i' (done ++ seg) lo W WK Q.
Proof.
  intros [(E1 & T1 & F1) (E2 & T2 & F2)] [K1 K2 K3 K4] Hp. destruct (points_spans seg Hp) as [P1 P2].
  split; [exists E1|exists E2]; rewrite ?del_spans_app, ?key_spans_app, ?P1, ?P2, app_nil_r, ?K1, ?K2, ?K3, ?K4; done.
Qed.

(** Between handling a key and [Next]. *)
Record Mid (i : compactionIter) (done : list item) (outs : list (item * (InternalKey * bytes)))
    (lim : option bytes) (lo : bytes) (W WK : list Span) : Prop := {
  md_input : input = done ++ pending i;
  md_err : ci_err i = None;
  md_ready : ready i;
  md_step : step_ok input (orig <$> outs) (remaining i);
  md_outs : Forall out_ok outs;
  md_sorted : StronglySorted out_lt outs;
  md_after : Forall (fun o => Forall (fun x => point x -> after o x) (remaining i)) outs;
  md_frags : frags i done lo W WK (not_ahead (pending i) lim);
  md_lo : Forall (fun x => Compare lo (uk x) <> Gt) (pending i);
}.

(** After [First] or [Next] returned [r]: [cm] is the entry that it stands for. *)
Inductive stand (i : compactionIter) : returned -> list item -> list (item * (InternalKey * bytes)) -> Prop :=
| stand_end : cur i = [] -> closer_ok i -> stand i None [] []
| stand_span e :
    ready i -> ~ point e -> cur i = [e] -> stand i (Some (it_key e, it_val e)) (e :: pending i) []
| stand_point o :
    ready i -> point (fst o) -> stand i (Some (snd o)) (pending i) [o].
Definition cm_items (cm : list (item * (InternalKey * bytes))) : list item := fst <$> cm.
Definition left (i : compactionIter) (r : returned) : list item :=
  match r with None => [] | Some _ => remaining i end.
Record Inv (i : compactionIter) (r : returned) (done rest : list item)
    (outs cm : list (item * (InternalKey * bytes))) (lim : option bytes) (lo : bytes) (W WK : list Span) : Prop := {
  iv_input : input = done ++ rest;
  iv_err : ci_err i = None;
  iv_stand : stand i r rest cm;
  iv_step : step_ok input (orig <$> outs ++ cm) (left i r);
  iv_outs : Forall out_ok (outs ++ cm);
  iv_sorted : StronglySorted out_lt (outs ++ cm);
  iv_after : Forall (fun o => Forall (fun x => point x -> after o x) (left i r)) (outs ++ cm);
  iv_frags : frags i done lo W WK (not_ahead (rest ++ cm_items cm) lim);
  iv_lo : Forall (fun x => Compare lo (uk x) <> Gt) (rest ++ cm_items cm);
  iv_cm : Forall (fun o => fst o ∈ done) cm;
}.

Lemma sublist_sorted {A} (R : A -> A -> Prop) l1 l2 : sublist l1 l2 -> StronglySorted R l2 -> StronglySorted R l1.
Proof.
  induction 1 as [|x l1 l2 Hs IH|x l1 l2 Hs IH]; intros H; [done| |].
  - apply StronglySorted_inv in H as [H1 H2]. constructor; [auto|].
    rewrite Forall_forall in H2 |- *. intros y Hy. apply H2. by eapply elem_of_sublist.
  - apply StronglySorted_inv in H as [H1 _]. auto.
Qed.

(** What [First] and [Next] return keeps the state. *)
Lemma outcome_inv i i' r done l lf outs lim lo W WK :
  outcome p T B l lf i' r -> ci_err i' = None -> kept i i' ->
  input = done ++ l -> sublist lf l -> step_ok input (orig <$> outs) lf ->
  Forall out_ok outs -> StronglySorted out_lt outs ->
  Forall (fun o => Forall (fun x => point x -> after o x) lf) outs ->
  frags i done lo W WK (not_ahead l lim) -> Forall (fun x => Compare lo (uk x) <> Gt) l ->
  exists done' rest' cm, Inv i' r done' rest' outs cm lim lo W WK /\ (length (rest' ++ cm_items cm) <= length l)%nat.
Proof.
  intros Ho He Hk Hi Hsub Hst Hok Hsort Haft Hfr Hlo.
  destruct Ho as [O1 O2 O3 Ocl|e seg O1 O2 O3 O4 O5 O6 O7 O8|e seg O1 O2 Oe O3 O4 O5 O6 O7 O8 O9 O10].
  - exists (done ++ l), [], []. split; [|simpl; lia]. split; rewrite ?app_nil_r; try done.
    + by apply stand_end.
    + replace (orig <$> outs) with ((orig <$> outs) ++ []) by apply app_nil_r. by eapply step_ok_trans.
    + apply Forall_forall. intros o _. constructor.
    + apply (frags_points i); [|done|done]. eapply frags_impl; [|exact Hfr]. intros q. apply not_ahead_incl.
      by intros x ?%elem_of_nil.
  - exists (done ++ seg), (e :: pending i'), []. split; [|rewrite app_nil_r, O2, !length_app; simpl; lia].
    split; rewrite ?app_nil_r; try done.
    + by rewrite Hi, O2, app_assoc.
    + by apply stand_span.
    + replace (orig <$> outs) with ((orig <$> outs) ++ []) by apply app_nil_r. by eapply step_ok_trans.
    + eapply Forall_impl; [exact Haft|]. intros o Ha. rewrite Forall_forall in Ha |- *. intros x Hx. apply Ha.
      by eapply elem_of_sublist.
    + apply (frags_points i); [|done|done]. eapply frags_impl; [|exact Hfr]. intros q. apply not_ahead_incl.
      intros x Hx. rewrite O2, elem_of_app. by right.
    + rewrite O2 in Hlo. by apply Forall_app in Hlo as [_ ?].
  - set (o := (e, (ci_key i', ci_value i'))).
    assert (e ∈ lf) as Hel by (eapply elem_of_sublist; [|exact O8]; left).
    assert (e ∈ input) as Hei.
    { rewrite Hi, elem_of_app. right. by eapply elem_of_sublist. }
    assert (out_ok o) as Hoo by (by split_and!).
    assert (StronglySorted before (e :: remaining i')) as Hbs.
    { eapply sublist_sorted; [exact O8|]. eapply sublist_sorted; [exact Hsub|].
      destruct Hin as [[Hs _] _ _]. rewrite Hi in Hs. by apply StronglySorted_app_1_r in Hs. }
    apply StronglySorted_inv in Hbs as [_ Hbe].
    assert (Forall (fun o => Forall (fun x => point x -> after o x) (remaining i')) outs) as Hafr.
    { eapply Forall_impl; [exact Haft|]. intros o' Ha. rewrite Forall_forall in Ha |- *. intros x Hx. apply Ha.
      eapply elem_of_sublist; [|exact O8]. by right. }
    exists (done ++ seg), (pending i'), [o]. split.
    2: { rewrite O2, !length_app. destruct seg; [by apply elem_of_nil in Oe|]. simpl. lia. }
    split; try done.
    + by rewrite Hi, O2, app_assoc.
    + exact (stand_point i' o O6 O3).
    + rewrite fmap_app. by eapply step_ok_trans.
    + apply Forall_app. split; [done|]. constructor; [done|constructor].
    + apply StronglySorted_app_2; [|done|repeat constructor].
      intros o1 o2 Ho1 ->%list_elem_of_singleton. rewrite Forall_forall in Haft, Hok.
      apply after_lt; [auto|done|]. specialize (Haft o1 Ho1). rewrite Forall_forall in Haft. by apply Haft.
    + apply Forall_app. split; [done|]. constructor; [|constructor].
      rewrite Forall_forall in Hbe |- *. intros x Hx Hpx. split; [by apply Hbe|]. intros Hz.
      specialize (O10 Hz). rewrite Forall_forall in O10. by apply O10.
    + apply (frags_points i); [|done|done]. eapply frags_impl; [|exact Hfr]. intros q. apply not_ahead_incl.
      intros x [Hx| ->%list_elem_of_singleton]%elem_of_app.
      * rewrite O2, elem_of_app. by right.
      * exact (elem_of_sublist _ _ _ Hel Hsub).
    + rewrite Forall_app. split.
      * rewrite O2 in Hlo. by apply Forall_app in Hlo as [_ ?].
      * simpl. constructor; [|constructor]. rewrite Forall_forall in Hlo. apply Hlo.
        exact (elem_of_sublist _ _ _ Hel Hsub).
    + constructor; [|constructor]. apply elem_of_app. by right.
Qed.

Lemma frags_covers i done rest lim lo W WK :
  input = done ++ rest -> frags i done lo W WK (not_ahead rest lim) -> covers_ok p T (ci_rangeDelFrag i) rest.
Proof.
  intros Hi [(E & _ & (cuts & q & F1 & _ & _ & _ & _ & [F6 _] & _)) _]. by apply (covers_rest done rest cuts q q).
Qed.

Lemma Next_inv i done outs lim lo W WK :
  Mid i done outs lim lo W WK ->
  exists i' r done' rest' cm, Next p i = Ret (i', r) /\ Inv i' r done' rest' outs cm lim lo W WK /\
    (length (rest' ++ cm_items cm) <= length (pending i))%nat.
Proof.
  intros [].
  destruct (compactionIter_Next_ok p Hsnaps T B Helide i) as (i' & r & E & He & Hk & Ho); [done|done|by eapply frags_covers|].
  destruct (outcome_inv i i' r done (pending i) (remaining i) outs lim lo W WK) as (d & rest & cm & H); try done.
  { apply remaining_sub. }
  exists i', r, d, rest, cm. done.
Qed.

Lemma First_inv :
  exists i r done rest cm, First p (newCompactionIter input) = Ret (i, r) /\ Inv i r done rest [] cm None [] [] [] /\
    kept (newCompactionIter input) i /\ (length (rest ++ cm_items cm) <= length input)%nat.
Proof.
  set (i0 := newCompactionIter input).
  assert (frags i0 [] [] [] [] (not_ahead input None)) as Hf.
  { assert (Forall (fun x => Compare [] (uk x) <> Gt) input) as Hl.
    { apply Forall_forall. intros x _. apply compare_nil_le. }
    assert (frag_inv [] new_fragmenter [] [] [] (not_ahead input None)) as H.
    { exists [], []. split_and!; try done; [apply FInv_new|by rewrite compare_refl..]. }
    split; exists []; (split; [done|exact H]). }
  destruct (compactionIter_First_ok p Hsnaps T B Helide i0) as (i' & r & E & He & Hk & Ho); try done.
  { by left. }
  { apply Hin. }
  { by apply (frags_covers i0 [] input None [] [] []). }
  destruct (outcome_inv i0 i' r [] input input [] None [] [] []) as (d & rest & cm & H & Hlen); try done.
  - constructor.
  - apply Forall_forall. intros x _. apply compare_nil_le.
  - exists i', r, d, rest, cm. done.
Qed.
End run.
