(* ===== verification/CompactionOutput.v ===== *)
(** Filling one output of a compaction. *)
From stdpp Require Import sorting.
From S2P Require Import Prelude.
From S2P Require Import Comparer.
From S2P Require Import InternalKey.
From S2P Require Import GoStd.
From S2P Require Import Keyspan.
From S2P Require Import KeyspanSpec.
From S2P Require Import RangeKey.
From S2P Require Import Merger.
From S2P Require Import CompactionIter.
From S2P Require Import CompactionStep.
From S2P Require Import CompactionNext.
From S2P Require Import CompactionOps.
From S2P Require Import CompactionLoop.
From S2P Require Import Splitter.
From S2P Require Import Compaction.
From S2P Require Import CompactionRun.
From Stdlib Require Import Sorted.

Local Open Scope Z_scope.

Section output.
Context {C : Comparer} {L : ComparerLaws C} {M : Merge} {ML : MergeLaws M} {So : Sort} {SoL : SortLaws So}.
Context {Sp : Splitter} {SpL : SplitterLaws Sp} (EstimatedSize : table -> Z).
Context (p : params) (Hsnaps : snaps_ok (snapshots p)) (input : list item) (Hin : input_ok input).
Context (B : bytes -> list op) (Helide : forall k, elideTombstone p k = true -> B k = []).
Context (hi : option bytes) (Hhi : Forall (fun e => ~ point e -> below_hi hi (it_span e)) input).
Abbreviation Mid := (Mid p input B hi).
Abbreviation Inv := (Inv p input B hi).
Abbreviation frags := (frags p hi).
Abbreviation frag_inv := (frag_inv hi).
Abbreviation out := (item * (InternalKey * bytes))%type.

(** ** Adding spans *)
Lemma frag_Add spans f lo W E Q s :
  frag_inv spans f lo W E Q -> (forall q, Q q -> Compare q (sp_Start s) <> Gt) ->
  sp_KeysOrder s = ByTrailerDesc -> Compare (sp_Start s) (sp_End s) = Lt -> below_hi hi s ->
  exists f' out, Add f s = Ret f' /\ f_emitted f' = f_emitted f ++ out /\
    frag_inv (spans ++ [s]) f' lo W (E ++ out) (eq (sp_Start s)).
Proof.
  intros (cuts & q & F1 & F2 & F3 & F4 & F5 & F6 & F7 & _) HQ Hord Hlt Hh.
  destruct (FInv_Add _ _ _ _ _ s F1 (HQ q F6) Hord) as (f' & p' & E1 & E2 & (out & O1 & O2 & O3 & O4) & E3).
  rewrite (E3 Hlt) in *. exists f', out. split; [done|]. split; [done|].
  exists cuts, (sp_Start s). split_and!; try done.
  - by rewrite O1, F2, app_assoc.
  - apply chain_app. split; [done|]. by eapply chain_weaken.
  - exact (compare_le_trans _ _ _ F4 O3).
  - rewrite chain_end_app. destruct out; simpl in *; [|done]. exact (compare_le_trans _ _ _ F5 O3).
  - exact (fits_Add hi f s f' F7 Hh E1).
  - intros Hp. by destruct (Add_pending f s f' Hlt E1).
Qed.
Lemma frag_inv_impl spans f lo W E (Q Q' : bytes -> Prop) :
  (forall q, Q q -> Q' q) -> frag_inv spans f lo W E Q -> frag_inv spans f lo W E Q'.
Proof. intros HQ (cuts & q & F). exists cuts, q. intuition. Qed.

(** Changing the fragmenters does not move the iterator. *)
Lemma ready_frags i f1 f2 t1 t2 :
  ready p i -> ready p (i <| ci_rangeDelFrag := f1 |> <| ci_tombstones := t1 |>
    <| ci_rangeKeyFrag := f2 |> <| ci_rangeKeys := t2 |>).
Proof.
  intros [R1 R2 R3]. split; [done| |].
  - intros Hc. destruct (R2 Hc). by split.
  - intros Hn. destruct (R3 Hn) as [[[] ? ?] ?]. split; [split; [by split|done|done]|done].
Qed.

Lemma cur_span i e : cur i = [e] -> item_ok e -> ci_iterSpan i = it_span e.
Proof. unfold cur. destruct (ci_iterKey i); [|done]. by intros [= <-] _. Qed.

(** A span that is handled. *)
Lemma handled_not_ahead done e l lim :
  input = done ++ e :: l -> (forall x, lim = Some x -> Compare (uk e) x = Lt) -> not_ahead l lim (uk e).
Proof.
  intros Hi Hlim. split.
  - destruct Hin as [[Hs _] _ _]. rewrite Hi in Hs. apply StronglySorted_app_1_r, StronglySorted_inv in Hs as [_ Hb].
    eapply Forall_impl; [exact Hb|]. intros x [Hx _]. apply InternalCompare_lt in Hx as [Hx|[Hx _]].
    + by rewrite Hx.
    + rewrite Hx. by rewrite compare_refl.
  - intros x Hx. by rewrite (Hlim x Hx).
Qed.
Lemma add_tombstone_span_ok i e done rest outs lim lo W WK :
  Inv i (Some (it_key e, it_val e)) done rest outs [] lim lo W WK -> ~ point e -> cur i = [e] ->
  rest = e :: pending i -> is_rangedel e -> (forall x, lim = Some x -> Compare (uk e) x = Lt) ->
  exists i', add_tombstone_span p i = Ret i' /\ Mid i' (done ++ [e]) outs lim lo W WK /\
    ci_iter i' = ci_iter i /\ pending i' = pending i.
Proof.
  intros [I1 I2 I3 I4 I5 I6 I7 [(E1 & T1 & F1) (E2 & T2 & F2)] I9 _] Hnp Hc Hr Hd Hlim.
  rewrite app_nil_r in *. subst rest.
  assert (e ∈ input) as He by (rewrite I1, elem_of_app; right; left).
  pose proof Hin as [[_ Hok] Hdel _]. rewrite Forall_forall in Hok, Hdel.
  destruct (Hdel e He Hd) as [(S1 & S2 & S3) _].
  assert (ready p i) as Hrd by (by inversion I3).
  assert (below_hi hi (clone_span (it_span e))) as Hhe by (rewrite Forall_forall in Hhi; exact (Hhi e He Hnp)).
  unfold add_tombstone_span. rewrite (cur_span i e Hc (Hok e He)).
  assert (span_Empty (it_span e) = false) as -> by (unfold span_Empty; by destruct (sp_Keys (it_span e))).
  destruct (frag_Add _ _ _ _ _ _ (clone_span (it_span e)) F1) as (f' & out & A1 & A2 & A3); [|done|done|exact Hhe|].
  { intros q [Hq _]. simpl. rewrite S1. by apply Forall_cons in Hq as [Hq _]. }
  rewrite A1, bind_Ret, (with_rangeDelFrag_eq p i f' out A2).
  set (i' := i <| ci_rangeDelFrag := _ |> <| ci_tombstones := _ |>). exists i'.
  assert (i' = i <| ci_rangeDelFrag := f' |> <| ci_tombstones := ci_tombstones i ++ chunks p out |>
    <| ci_rangeKeyFrag := ci_rangeKeyFrag i |> <| ci_rangeKeys := ci_rangeKeys i |>) as Hi' by (unfold i'; by destruct i).
  split; [done|]. split; [|done]. apply Forall_cons in I9 as [I9a I9].
  split; try done.
  - rewrite I1, <- app_assoc. done.
  - rewrite Hi'. by apply ready_frags.
  - split.
    + exists (E1 ++ out). change (ci_tombstones i') with (ci_tombstones i ++ chunks p out).
      rewrite T1, chunks_app. split; [done|]. rewrite del_spans_app.
      unfold del_spans at 2. rewrite filter_cons_True by done. simpl.
      eapply frag_inv_impl; [|exact A3]. intros q <-. simpl. rewrite S1. by apply (handled_not_ahead done).
    + exists E2. split; [done|]. rewrite key_spans_app. unfold key_spans at 2.
      rewrite filter_cons_False by (intros H; by apply (rangekey_not_del e)). rewrite app_nil_r.
      eapply frag_inv_impl; [|exact F2]. intros q. apply not_ahead_incl. by right.
Qed.

Lemma add_rangeKey_span_ok i e done rest outs lim lo W WK :
  Inv i (Some (it_key e, it_val e)) done rest outs [] lim lo W WK -> ~ point e -> cur i = [e] ->
  rest = e :: pending i -> is_rangekey e -> (forall x, lim = Some x -> Compare (uk e) x = Lt) ->
  exists i', add_rangeKey_span i = Ret i' /\ Mid i' (done ++ [e]) outs lim lo W WK /\
    ci_iter i' = ci_iter i /\ pending i' = pending i.
Proof.
  intros [I1 I2 I3 I4 I5 I6 I7 [(E1 & T1 & F1) (E2 & T2 & F2)] I9 _] Hnp Hc Hr Hd Hlim.
  rewrite app_nil_r in *. subst rest.
  assert (e ∈ input) as He by (rewrite I1, elem_of_app; right; left).
  pose proof Hin as [[_ Hok] _ Hkey]. rewrite Forall_forall in Hok, Hkey.
  destruct (Hkey e He Hd) as [(S1 & S2 & S3) _].
  assert (ready p i) as Hrd by (by inversion I3).
  assert (below_hi hi (clone_span (it_span e))) as Hhe by (rewrite Forall_forall in Hhi; exact (Hhi e He Hnp)).
  unfold add_rangeKey_span. rewrite (cur_span i e Hc (Hok e He)).
  assert (span_Empty (it_span e) = false) as -> by (unfold span_Empty; by destruct (sp_Keys (it_span e))).
  destruct (frag_Add _ _ _ _ _ _ (clone_span (it_span e)) F2) as (f' & out & A1 & A2 & A3); [|done|done|exact Hhe|].
  { intros q [Hq _]. simpl. rewrite S1. by apply Forall_cons in Hq as [Hq _]. }
  rewrite A1, bind_Ret, (with_rangeKeyFrag_eq i f' out A2).
  set (i' := i <| ci_rangeKeyFrag := _ |> <| ci_rangeKeys := _ |>). exists i'.
  assert (i' = i <| ci_rangeDelFrag := ci_rangeDelFrag i |> <| ci_tombstones := ci_tombstones i |>
    <| ci_rangeKeyFrag := f' |> <| ci_rangeKeys := ci_rangeKeys i ++ rchunks out |>) as Hi' by (unfold i'; by destruct i).
  split; [done|]. split; [|done]. apply Forall_cons in I9 as [I9a I9].
  split; try done.
  - rewrite I1, <- app_assoc. done.
  - rewrite Hi'. by apply ready_frags.
  - split.
    + exists E1. split; [done|]. rewrite del_spans_app. unfold del_spans at 2.
      rewrite filter_cons_False by (by apply (rangekey_not_del e)). rewrite app_nil_r.
      eapply frag_inv_impl; [|exact F1]. intros q. apply not_ahead_incl. by right.
    + exists (E2 ++ out). change (ci_rangeKeys i') with (ci_rangeKeys i ++ rchunks out).
      rewrite T2. unfold rchunks. rewrite filter_app. split; [done|]. rewrite key_spans_app.
      unfold key_spans at 2. rewrite filter_cons_True by done. simpl.
      eapply frag_inv_impl; [|exact A3]. intros q <-. simpl. rewrite S1. by apply (handled_not_ahead done).
Qed.

(** ** Adding points *)
Definition tw_ok (tw : option table) (ot : list out) : Prop :=
  match tw with None => ot = [] | Some t => t = mkTable (snd <$> ot) [] [] /\ ot <> [] end.

Lemma tw_Add_ok tw ot o :
  tw_ok tw ot -> StronglySorted out_lt (ot ++ [o]) ->
  tw_Add (default new_table tw) (fst (snd o)) (snd (snd o)) = Ok (mkTable (snd <$> ot ++ [o]) [] []).
Proof.
  intros Htw Hs. destruct o as [e [key val]]. cbn [fst snd].
  assert (default new_table tw = mkTable (snd <$> ot) [] []) as ->.
  { destruct tw; [by destruct Htw|]. simpl in Htw. by subst. }
  unfold tw_Add. cbn [tb_points tb_rangeDels tb_rangeKeys]. rewrite fmap_app. rewrite fmap_last.
  destruct (last ot) as [[e' [prev v']]|] eqn:El; [|done]. cbn [fmap option_fmap option_map snd].
  assert (out_lt (e', (prev, v')) (e, (key, val))) as Hlt.
  { apply last_Some in El as [l ->]. rewrite <- app_assoc in Hs. apply StronglySorted_app_1_r in Hs.
    apply StronglySorted_inv in Hs as [_ Hs]. by apply Forall_cons in Hs as [? _]. }
  unfold out_lt in Hlt. simpl in Hlt. apply InternalCompare_lt in Hlt as [->|[Hu Ht]]; [done|].
  rewrite Hu, compare_refl. destruct (Z.leb_spec (Trailer prev) (Trailer key)); [lia|done].
Qed.

(** ** The splitters *)
Inductive at_split (s : splitter) (r : returned) (lim : option bytes) (tw : option table) : Prop :=
| at_first s0 key val :
    split_inv s0 -> onNewOutput s0 (Some (UserKey key)) = (s, lim) -> r = Some (key, val) -> tw = None ->
    at_split s r lim tw
| at_later s0 : in_output s0 lim -> s = reach s0 r -> at_split s r lim tw.

Lemma at_split_ok s key val lim tw prev s' b :
  at_split s (Some (key, val)) lim tw ->
  shouldSplitBefore s key (EstimatedSize <$> tw) prev = (s', b) ->
  split_inv s' /\
  (b = false -> in_output s' lim /\ forall x, lim = Some x -> Compare (UserKey key) x = Lt) /\
  (b = true -> (tw <> None /\ Compare (UserKey key) prev = Gt \/ exists x, lim = Some x /\ Compare x (UserKey key) <> Gt)).
Proof.
  intros [s0 key' val' Hi Hn Hr ->|s0 Hi ->] Hs.
  - injection Hr as <- <-. simpl in Hs.
    destruct (shouldSplitBefore_first _ _ _ _ _ _ _ _ Hi Hn Hs) as [-> Ho].
    split; [by eapply in_output_inv|]. split; [|done]. intros _. split; [done|].
    intros x Hx. destruct (onNewOutput_ok _ _ _ _ Hi Hn) as [_ Hl]. destruct (Hl x Hx) as (_ & k0 & [= <-] & ?). done.
  - simpl in Hs. destruct (shouldSplitBefore_ok _ _ _ _ _ _ _ Hi Hs) as (H1 & H2 & H3).
    split; [done|]. split; [done|]. intros Hb. destruct (H3 Hb) as [[H4 H5]|H4]; [left|by right].
    split; [|done]. intros ->. done.
Qed.

Record filled (i : compactionIter) (s : splitter) (tw : option table) (r : returned) (done rest : list item)
    (outs ot cm : list out) (lim : option bytes) (lo : bytes) (W WK : list Span) : Prop := {
  fd_inv : Inv i r done rest (outs ++ ot) cm lim lo W WK;
  fd_tw : tw_ok tw ot;
  fd_split : split_inv s;
  fd_lim : Forall (fun o => forall x, lim = Some x -> Compare (uk (fst o)) x = Lt) ot;
  fd_lo : Forall (fun o => Compare lo (uk (fst o)) <> Gt) ot;
  fd_key : forall key v, r = Some (key, v) -> Forall (fun o => Compare (uk (fst o)) (UserKey key) = Lt) ot;
  fd_nil : forall key v, r = Some (key, v) -> UserKey key <> [];
}.

(** The user keys of the points are not after the last of them. *)
Lemma points_le_last outs ot o :
  Forall (out_ok p input) (outs ++ ot) -> StronglySorted out_lt (outs ++ ot) -> last ot = Some o ->
  Forall (fun o' => Compare (uk (fst o')) (UserKey (fst (snd o))) <> Gt) ot.
Proof.
  intros Hok Hs Hl. apply last_Some in Hl as [l ->]. apply Forall_app in Hok as [_ Hok].
  apply StronglySorted_app_1_r in Hs. rewrite Forall_forall in Hok. apply Forall_forall. intros o' Ho'.
  destruct (Hok o' Ho') as (_ & _ & _ & _ & (Hu & _)). rewrite <- Hu.
  apply elem_of_app in Ho' as [Ho'| ->%list_elem_of_singleton]; [|by rewrite compare_refl].
  pose proof (StronglySorted_app_1_elem_of _ _ _ o' o Hs Ho' ltac:(left)) as Hlt.
  unfold out_lt in Hlt. apply InternalCompare_lt in Hlt as [-> |[-> _]]; [done|by rewrite compare_refl].
Qed.

Lemma split_key i tw outs ot lim key :
  Forall (out_ok p input) (outs ++ ot) -> StronglySorted out_lt (outs ++ ot) -> tw_ok tw ot ->
  Forall (fun o => forall x, lim = Some x -> Compare (uk (fst o)) x = Lt) ot ->
  (tw <> None /\ Compare (UserKey key) (unsafePrevUserKey i tw) = Gt \/ exists x, lim = Some x /\ Compare x (UserKey key) <> Gt) ->
  Forall (fun o => Compare (uk (fst o)) (UserKey key) = Lt) ot.
Proof.
  intros Hok Hs Htw Hlim [[Hne Hgt]|(x & -> & Hx)].
  - destruct tw as [t|]; [|done]. destruct Htw as [-> Hot]. destruct (last ot) as [o|] eqn:El.
    2: { by apply last_None in El. }
    eapply Forall_impl; [by eapply points_le_last|]. intros o' Ho'.
    apply (compare_le_lt_trans _ _ _ Ho'). apply compare_gt_lt. unfold unsafePrevUserKey in Hgt.
    cbn [tb_points] in Hgt. rewrite fmap_last, El in Hgt. cbn [fmap option_fmap option_map] in Hgt.
    destruct o as [e [k v]]. cbn [snd fst] in *.
    case_bool_decide as Hc; [done|]. apply compare_gt_lt. apply compare_gt_lt in Hgt.
    exact (compare_le_lt_trans _ _ _ Hc Hgt).
  - eapply Forall_impl; [exact Hlim|]. intros o Ho. exact (compare_lt_le_trans _ _ _ (Ho x eq_refl) Hx).
Qed.

(** A point that is handled. *)
Lemma point_Mid i o done rest outs ot lim lo W WK :
  Inv i (Some (snd o)) done rest (outs ++ ot) [o] lim lo W WK -> rest = pending i -> ready p i ->
  Mid i done (outs ++ ot ++ [o]) lim lo W WK.
Proof.
  intros [I1 I2 I3 I4 I5 I6 I7 I8 I9 _] -> Hr. rewrite <- app_assoc in *.
  apply Forall_app in I9 as [I9 _]. split; try done.
  eapply frags_impl; [|exact I8]. intros q. apply not_ahead_incl. intros x Hx. apply elem_of_app. by left.
Qed.

(** There is no split before the empty key. *)
Lemma split_not_nil (tw : option table) lim prev key :
  lim <> Some [] ->
  (tw <> None /\ Compare (UserKey key) prev = Gt \/ exists x, lim = Some x /\ Compare x (UserKey key) <> Gt) ->
  UserKey key <> [].
Proof.
  intros Hl [[_ Hgt]|(x & -> & Hx)] Hk; rewrite Hk in *.
  - by destruct (compare_nil_le prev).
  - destruct x as [|b x]; [done|]. apply Hx, compare_gt_lt. by rewrite compare_nil.
Qed.

Lemma output_loop_ok fuel : forall i s tw r done rest outs ot cm lim lo W WK,
  Inv i r done rest (outs ++ ot) cm lim lo W WK -> tw_ok tw ot -> at_split s r lim tw ->
  Forall (fun o => forall x, lim = Some x -> Compare (uk (fst o)) x = Lt) ot ->
  Forall (fun o => Compare lo (uk (fst o)) <> Gt) ot ->
  lim <> Some [] -> (length (rest ++ cm_items cm) < fuel)%nat ->
  exists i' s' tw' r' done' rest' ot' cm',
    output_loop EstimatedSize p fuel i s tw r = Ret (Ok (i', s', tw', r')) /\
    filled i' s' tw' r' done' rest' outs ot' cm' lim lo W WK /\
    (length (rest' ++ cm_items cm') <= length (rest ++ cm_items cm))%nat /\
    (r <> None -> tw = None -> (exists s0 k, split_inv s0 /\ onNewOutput s0 (Some k) = (s, lim)) ->
      (length (rest' ++ cm_items cm') < length (rest ++ cm_items cm))%nat).
Proof.
  induction fuel as [|fuel IH]; intros i s tw r done rest outs ot cm lim lo W WK HI Htw Hsp Hlim Hlo Hl0 Hf; [lia|].
  cbn [output_loop]. destruct r as [[key val]|].
  2: { exists i, s, tw, None, done, rest, ot, cm. split; [done|]. split; [|split; [lia|done]].
    split; try done. destruct Hsp as [s0 k v H1 H2 H3 H4|s0 H1 ->]; [done|]. by eapply in_output_inv. }
  destruct (shouldSplitBefore s key (EstimatedSize <$> tw) (unsafePrevUserKey i tw)) as [s1 b] eqn:Es.
  destruct (at_split_ok _ _ _ _ _ _ _ _ Hsp Es) as (Hs1 & Hs2 & Hs3).
  assert (Forall (out_ok p input) (outs ++ ot) /\ StronglySorted out_lt (outs ++ ot)) as [Hok Hsort].
  { destruct HI as [_ _ _ _ I5 I6 _ _ _ _]. apply Forall_app in I5 as [I5 _]. apply StronglySorted_app_1_l in I6. done. }
  destruct b.
  { exists i, s1, tw, (Some (key, val)), done, rest, ot, cm. split; [done|]. split; [|split; [lia|]].
    - split; try done; intros key' v' [= <- <-].
      + apply (split_key i tw outs ot lim); auto.
      + exact (split_not_nil tw lim _ key Hl0 (Hs3 eq_refl)).
    - intros _ -> (s0 & k & Hi0 & Hn0). exfalso.
      destruct (shouldSplitBefore_first _ _ _ _ _ _ _ _ Hi0 Hn0 Es) as [? _]. done. }
  destruct (Hs2 eq_refl) as [Ho Hkl]. clear Hs2 Hs3.
  (* going on after a key *)
  assert (forall i1 done1 ot1 tw1,
    Mid i1 done1 (outs ++ ot1) lim lo W WK -> tw_ok tw1 ot1 ->
    Forall (fun o => forall x, lim = Some x -> Compare (uk (fst o)) x = Lt) ot1 ->
    Forall (fun o => Compare lo (uk (fst o)) <> Gt) ot1 ->
    (length (pending i1) < length (rest ++ cm_items cm))%nat ->
    exists i' s' tw' r' done' rest' ot' cm',
      ('(i, r) ← Next p i1; output_loop EstimatedSize p fuel i (reach s1 r) tw1 r) = Ret (Ok (i', s', tw', r')) /\
      filled i' s' tw' r' done' rest' outs ot' cm' lim lo W WK /\
      (length (rest' ++ cm_items cm') < length (rest ++ cm_items cm))%nat) as Hgo.
  { intros i1 done1 ot1 tw1 HM Htw1 Hlim1 Hlo1 Hlen.
    destruct (Next_inv p Hsnaps input Hin B Helide hi i1 done1 _ lim lo W WK HM)
      as (i2 & r2 & done2 & rest2 & cm2 & -> & HI2 & Hlen2). rewrite bind_Ret.
    destruct (IH i2 (reach s1 r2) tw1 r2 done2 rest2 outs ot1 cm2 lim lo W WK)
      as (i' & s' & tw' & r' & done' & rest' & ot' & cm' & E & Hfd & Hle & _); try done; [|lia|].
    { apply at_later with s1; done. }
    exists i', s', tw', r', done', rest', ot', cm'. split; [done|]. split; [done|]. lia. }
  enough (exists i' s' tw' r' done' rest' ot' cm',
    (if Kind key =? InternalKeyKindRangeDelete then
       i ← add_tombstone_span p i;
       '(i, r) ← Next p i; output_loop EstimatedSize p fuel i (reach s1 r) tw r
     else if IsRangeKey (Kind key) then
       i ← add_rangeKey_span i;
       '(i, r) ← Next p i; output_loop EstimatedSize p fuel i (reach s1 r) tw r
     else
       match tw_Add (default new_table tw) key val with
       | Err e => Ret (Err e)
       | Ok t => '(i, r) ← Next p i; output_loop EstimatedSize p fuel i (reach s1 r) (Some t) r
       end) = Ret (Ok (i', s', tw', r')) /\
    filled i' s' tw' r' done' rest' outs ot' cm' lim lo W WK /\
    (length (rest' ++ cm_items cm') < length (rest ++ cm_items cm))%nat) as H.
  { destruct H as (i' & s' & tw' & r' & done' & rest' & ot' & cm' & E & Hfd & Hlt).
    exists i', s', tw', r', done', rest', ot', cm'. split; [exact E|]. split; [done|]. split; [lia|]. auto. }
  pose proof (iv_stand _ _ _ _ _ _ _ _ _ _ _ _ _ _ HI) as Hst.
  inversion Hst as [|e Hr Hnp Hc E1 E2 E3|o Hr Hp E1 E2 E3]; subst.
  - assert (item_ok e) as Hoke.
    { destruct Hin as [[_ Hok'] _ _]. rewrite Forall_forall in Hok'. apply Hok'.
      rewrite (iv_input _ _ _ _ _ _ _ _ _ _ _ _ _ _ HI), elem_of_app. right. left. }
    destruct (not_point_kind e Hoke Hnp) as [Hd|Hk].
    + rewrite (proj2 (Z.eqb_eq _ _) Hd).
      destruct (add_tombstone_span_ok i e done _ _ lim lo W WK HI Hnp Hc eq_refl Hd Hkl) as (i1 & -> & HM & _ & Hpe).
      rewrite bind_Ret. apply (Hgo i1 (done ++ [e]) ot tw); try done. rewrite Hpe. simpl. rewrite app_nil_r. lia.
    + rewrite (proj2 (Z.eqb_neq _ _)) by (by apply (rangekey_not_del e)). rewrite Hk.
      destruct (add_rangeKey_span_ok i e done _ _ lim lo W WK HI Hnp Hc eq_refl Hk Hkl) as (i1 & -> & HM & _ & Hpe).
      rewrite bind_Ret. apply (Hgo i1 (done ++ [e]) ot tw); try done. rewrite Hpe. simpl. rewrite app_nil_r. lia.
  - destruct o as [e [key' val']]. simpl in E1. injection E1 as -> ->.
    assert (out_ok p input (e, (key, val))) as Hoo.
    { pose proof (iv_outs _ _ _ _ _ _ _ _ _ _ _ _ _ _ HI) as H5. apply Forall_app in H5 as [_ H5].
      by apply Forall_cons in H5 as [? _]. }
    pose proof Hoo as (_ & _ & _ & _ & (Hu & Hpk & _)). simpl in Hu, Hpk.
    assert ((Kind key =? InternalKeyKindRangeDelete) = false /\ IsRangeKey (Kind key) = false) as [-> ->].
    { split; [apply Z.eqb_neq; intros E; by rewrite E in Hpk|].
      destruct (IsRangeKey (Kind key)) eqn:E; [|done]. unfold IsRangeKey in E.
      apply orb_true_iff in E as [[E|E]%orb_true_iff|E]; apply Z.eqb_eq in E; by rewrite E in Hpk. }
    pose proof (iv_sorted _ _ _ _ _ _ _ _ _ _ _ _ _ _ HI) as Hss. rewrite <- app_assoc in Hss.
    apply StronglySorted_app_1_r in Hss.
    pose proof (tw_Add_ok tw ot (e, (key, val)) Htw Hss) as Hadd. cbn [fst snd] in Hadd. rewrite Hadd.
    apply (Hgo i done (ot ++ [(e, (key, val))]) (Some _)).
    + by apply (point_Mid i (e, (key, val)) done (pending i)).
    + split; [done|]. by destruct ot.
    + apply Forall_app. split; [done|]. constructor; [|constructor]. intros x Hx. simpl. rewrite <- Hu. auto.
    + apply Forall_app. split; [done|]. constructor; [|constructor]. simpl.
      pose proof (iv_lo _ _ _ _ _ _ _ _ _ _ _ _ _ _ HI) as H9. apply Forall_app in H9 as [_ H9].
      by apply Forall_cons in H9 as [? _].
    + simpl. rewrite length_app. simpl. lia.
Qed.
End output.
