(* ===== verification/CompactionFinish.v ===== *)
(** Finishing one output of a compaction: the bounds of a table, its range deletions and
    range keys, and the checks of [finishOutput]. *)
From stdpp Require Import sorting.
From S2P Require Import Prelude.
From S2P Require Import Comparer.
From S2P Require Import InternalKey.
From S2P Require Import GoStd.
From S2P Require Import Keyspan.
From S2P Require Import KeyspanSpec.
From S2P Require Import RangeKey.
From S2P Require Import Merger.
From S2P Require Import CompactionIter.
From S2P Require Import CompactionStep.
From S2P Require Import CompactionNext.
From S2P Require Import CompactionOps.
From S2P Require Import CompactionLoop.
From S2P Require Import Splitter.
From S2P Require Import Compaction.
From S2P Require Import CompactionRun.
From S2P Require Import CompactionOutput.
From Stdlib Require Import Sorted.

Local Open Scope Z_scope.

(** * Bounds *)
Section bounds.
Context {C : Comparer} {L : ComparerLaws C}.

Lemma InternalCompare_refl a : InternalCompare a a = Eq.
Proof. by apply InternalCompare_eq. Qed.
Lemma InternalCompare_gt_lt a b : InternalCompare a b = Gt <-> InternalCompare b a = Lt.
Proof. rewrite (InternalCompare_antisym a b). by destruct (InternalCompare a b). Qed.
Lemma InternalCompare_le_trans a b c :
  InternalCompare a b <> Gt -> InternalCompare b c <> Gt -> InternalCompare a c <> Gt.
Proof.
  intros H1 H2. destruct (InternalCompare a b) eqn:E1; [|destruct (InternalCompare b c) eqn:E2|done].
  - by apply InternalCompare_eq in E1 as ->.
  - apply InternalCompare_eq in E2 as ->. by rewrite E1.
  - by rewrite (InternalCompare_trans _ _ _ E1 E2).
  - done.
Qed.
Lemma InternalCompare_le_user a b : InternalCompare a b <> Gt -> Compare (UserKey a) (UserKey b) <> Gt.
Proof.
  intros H. destruct (InternalCompare a b) eqn:E; [| |done].
  - apply InternalCompare_eq in E as ->. by rewrite compare_refl.
  - apply InternalCompare_lt in E as [-> |[-> _]]; [done|by rewrite compare_refl].
Qed.

(** The largest key of a table is before [k]. *)
Definition ends_before (l : InternalKey) (k : bytes) : Prop :=
  Compare (UserKey l) k = Lt \/ UserKey l = k /\ IsExclusiveSentinel l = true.
Lemma ends_before_le l k : ends_before l k -> Compare (UserKey l) k <> Gt.
Proof. intros [->|[-> _]]; [done|by rewrite compare_refl]. Qed.
Lemma ends_before_mono l k k' : ends_before l k -> Compare k k' <> Gt -> ends_before l k'.
Proof.
  intros [H|[H Hs]] Hk; [left; by eapply compare_lt_le_trans|]. subst k.
  destruct (Compare (UserKey l) k') eqn:E; [|by left|done]. apply compare_eq in E. by right.
Qed.

(** Bounds in the part of the key space from [lo] to [K] that is covered by a table, and in
    that of the compaction. *)
Context (c : compaction) (lo : bytes) (K : option bytes).
Record in_bounds (b : bounds) : Prop := {
  ib_order : InternalCompare (fst b) (snd b) <> Gt;
  ib_lo : Compare lo (UserKey (fst b)) <> Gt;
  ib_split k : K = Some k -> ends_before (snd b) k;
  ib_smallest k : cp_smallest c = Some k -> Compare (UserKey (fst b)) k <> Lt;
  ib_largest k : cp_largest c = Some k -> Compare (UserKey (snd b)) k <> Gt;
}.
Definition contains (b b' : bounds) : Prop :=
  InternalCompare (fst b) (fst b') <> Gt /\ InternalCompare (snd b') (snd b) <> Gt.

Lemma bounds_extend_ok b s l :
  (forall b0, b = Some b0 -> in_bounds b0) -> in_bounds (s, l) ->
  in_bounds (extend b s l) /\ contains (extend b s l) (s, l) /\
  forall b0, b = Some b0 -> contains (extend b s l) b0.
Proof.
  intros Hb [N1 N2 N3 N4 N5]. cbn [fst snd] in *. destruct b as [[s0 l0]|]; cbn [extend].
  2: { split; [by split|]. split; [|done]. split; cbn; by rewrite InternalCompare_refl. }
  destruct (Hb _ eq_refl) as [O1 O2 O3 O4 O5]. cbn [fst snd] in *.
  set (s' := if bool_decide _ then s else s0). set (l' := if bool_decide _ then l else l0).
  assert ((s' = s \/ s' = s0) /\ InternalCompare s' s <> Gt /\ InternalCompare s' s0 <> Gt) as (Hs & Hs1 & Hs2).
  { unfold s'. case_bool_decide as H; rewrite ?InternalCompare_refl; rewrite ?H; split_and!; auto; [done..|].
    intros E. apply InternalCompare_gt_lt in E. done. }
  assert ((l' = l \/ l' = l0) /\ InternalCompare l l' <> Gt /\ InternalCompare l0 l' <> Gt) as (Hl & Hl1 & Hl2).
  { unfold l'. case_bool_decide as H; rewrite ?InternalCompare_refl; split_and!; auto; try done.
    apply InternalCompare_gt_lt in H. by rewrite H. }
  split; [|split; [done|intros b0 [= <-]; done]]. split; cbn [fst snd].
  - exact (InternalCompare_le_trans _ _ _ Hs1 (InternalCompare_le_trans _ _ _ N1 Hl1)).
  - destruct Hs as [-> | ->]; done.
  - intros k Hk. destruct Hl as [-> | ->]; auto.
  - intros k Hk. destruct Hs as [-> | ->]; auto.
  - intros k Hk. destruct Hl as [-> | ->]; auto.
Qed.
Lemma contains_trans b1 b2 b3 : contains b1 b2 -> contains b2 b3 -> contains b1 b3.
Proof. intros [H1 H2] [H3 H4]. split; by eapply InternalCompare_le_trans. Qed.

(** ** Metadata *)
Record meta_ok (m : fileMetadata) : Prop := {
  mt_bounds : match fm_Bounds m with
              | None => fm_PointKey m = None /\ fm_RangeKey m = None
              | Some b => in_bounds b /\ (fm_PointKey m <> None \/ fm_RangeKey m <> None)
              end;
  mt_point b : fm_PointKey m = Some b -> in_bounds b /\ forall b', fm_Bounds m = Some b' -> contains b' b;
  mt_range b : fm_RangeKey m = Some b -> in_bounds b /\ forall b', fm_Bounds m = Some b' -> contains b' b;
}.

Lemma ExtendPointKeyBounds_ok m s l :
  meta_ok m -> in_bounds (s, l) ->
  meta_ok (ExtendPointKeyBounds m s l) /\ fm_Bounds (ExtendPointKeyBounds m s l) <> None.
Proof.
  intros [H1 H2 H3] Hb. unfold ExtendPointKeyBounds, extendOverallBounds. cbn [fm_PointKey fm_RangeKey fm_Bounds].
  destruct (bounds_extend_ok (fm_PointKey m) s l) as (E1 & _ & _); [intros b0 H; by apply H2|done|].
  set (b := extend (fm_PointKey m) s l) in *. clearbody b. destruct b as [s' l']. cbn [fst snd].
  destruct (bounds_extend_ok (fm_Bounds m) s' l') as (E2 & E3 & E4); [|done|].
  { intros b0 H. rewrite H in H1. apply H1. }
  split; [|done]. split; cbn [fm_PointKey fm_RangeKey fm_Bounds].
  - split; [done|by left].
  - intros b [= <-]. split; [done|]. by intros b' [= <-].
  - intros b H. destruct (H3 b H) as [H4 H5]. split; [done|]. intros b' [= <-].
    destruct (fm_Bounds m) as [b1|] eqn:Eb; [|by destruct H1 as [_ ?]; congruence].
    exact (contains_trans _ _ _ (E4 b1 eq_refl) (H5 b1 eq_refl)).
Qed.
Lemma ExtendRangeKeyBounds_ok m s l :
  meta_ok m -> in_bounds (s, l) ->
  meta_ok (ExtendRangeKeyBounds m s l) /\ fm_Bounds (ExtendRangeKeyBounds m s l) <> None.
Proof.
  intros [H1 H2 H3] Hb. unfold ExtendRangeKeyBounds, extendOverallBounds. cbn [fm_PointKey fm_RangeKey fm_Bounds].
  destruct (bounds_extend_ok (fm_RangeKey m) s l) as (E1 & _ & _); [intros b0 H; by apply H3|done|].
  set (b := extend (fm_RangeKey m) s l) in *. clearbody b. destruct b as [s' l']. cbn [fst snd].
  destruct (bounds_extend_ok (fm_Bounds m) s' l') as (E2 & E3 & E4); [|done|].
  { intros b0 H. rewrite H in H1. apply H1. }
  split; [|done]. split; cbn [fm_PointKey fm_RangeKey fm_Bounds].
  - split; [done|by right].
  - intros b H. destruct (H2 b H) as [H4 H5]. split; [done|]. intros b' [= <-].
    destruct (fm_Bounds m) as [b1|] eqn:Eb; [|by destruct H1 as [? _]; congruence].
    exact (contains_trans _ _ _ (E4 b1 eq_refl) (H5 b1 eq_refl)).
  - intros b [= <-]. split; [done|]. by intros b' [= <-].
Qed.
Lemma table_meta_ok t :
  (forall b, wm_Point t = Some b -> in_bounds b) -> (forall b, wm_RangeDel t = Some b -> in_bounds b) ->
  (forall b, wm_RangeKey t = Some b -> in_bounds b) ->
  meta_ok (table_meta t) /\
  (wm_Point t <> None \/ wm_RangeDel t <> None \/ wm_RangeKey t <> None -> fm_Bounds (table_meta t) <> None).
Proof.
  intros H1 H2 H3. unfold table_meta.
  assert (meta_ok new_fileMetadata) as Hm by done.
  assert (forall m b, meta_ok m -> (forall b', b = Some b' -> in_bounds b') ->
    meta_ok (match b with Some (s, l) => ExtendPointKeyBounds m s l | None => m end) /\
    (b <> None \/ fm_Bounds m <> None -> fm_Bounds (match b with Some (s, l) => ExtendPointKeyBounds m s l | None => m end) <> None))
    as Hp.
  { intros m [[s l]|] Hm' Hb; [|split; [done|by intros [?|?]]].
    destruct (ExtendPointKeyBounds_ok m s l Hm' (Hb _ eq_refl)). done. }
  destruct (Hp _ _ Hm H1) as [M1 N1].
  destruct (Hp _ _ M1 H2) as [M2 N2].
  destruct (wm_RangeKey t) as [[s l]|].
  - destruct (ExtendRangeKeyBounds_ok _ s l M2 (H3 _ eq_refl)). done.
  - split; [done|]. intros [?|[?|?]]; tauto.
Qed.

Lemma Validate_ok m : meta_ok m -> fm_Bounds m <> None -> Validate m = None.
Proof.
  intros [H1 H2 H3] Hb. destruct (fm_Bounds m) as [b|] eqn:Eb; [|done]. destruct H1 as [H1 Hor].
  assert (fm_Smallest m = fst b /\ fm_Largest m = snd b) as [Es El] by (unfold fm_Smallest, fm_Largest; by rewrite Eb).
  assert (forall o msg1 msg2, (forall b', o = Some b' -> in_bounds b' /\ forall b1, Some b = Some b1 -> contains b1 b') ->
    Validate_bounds m o msg1 msg2 = None) as Hv.
  { intros [[s l]|] msg1 msg2 Ho; [|done]. destruct (Ho _ eq_refl) as [[Ho1 _ _ _ _] Ho2].
    destruct (Ho2 b eq_refl) as [C1 C2]. cbn [fst snd] in *. unfold Validate_bounds. rewrite Es, El.
    rewrite bool_decide_eq_false_2 by done.
    rewrite bool_decide_eq_false_2 by (intros E; apply InternalCompare_gt_lt in E; done).
    by rewrite bool_decide_eq_false_2. }
  unfold Validate. rewrite Es, El.
  rewrite (bool_decide_eq_false_2 _ (ib_order _ H1)).
  rewrite (Hv _ _ _ H2), (Hv _ _ _ H3).
  destruct (fm_PointKey m), (fm_RangeKey m); try done. by destruct Hor.
Qed.

(** The bounds of a table contain its points. *)
Definition within (m : fileMetadata) (kv : InternalKey * bytes) : Prop :=
  InternalCompare (fm_Smallest m) (fst kv) <> Gt /\ InternalCompare (fst kv) (fm_Largest m) <> Gt.
Definition around (m : fileMetadata) (b : bounds) : Prop := exists b', fm_Bounds m = Some b' /\ contains b' b.

Lemma extend_contains b s l :
  contains (extend b s l) (s, l) /\ forall b0, b = Some b0 -> contains (extend b s l) b0.
Proof.
  unfold contains. destruct b as [[s0 l0]|]; cbn [extend fst snd]; [|by rewrite !InternalCompare_refl].
  assert (forall x y, InternalCompare x y <> Lt -> InternalCompare y x <> Gt) as Hn.
  { intros x y H E. by apply InternalCompare_gt_lt in E. }
  split; [|intros b0 [= <-]; cbn [fst snd]]; split; case_bool_decide as H; rewrite ?InternalCompare_refl; auto; try done;
    rewrite ?H; try done; apply InternalCompare_gt_lt in H; by rewrite H.
Qed.
Lemma around_point m s l :
  around (ExtendPointKeyBounds m s l) (s, l) /\ forall b, around m b -> around (ExtendPointKeyBounds m s l) b.
Proof.
  unfold ExtendPointKeyBounds, extendOverallBounds. destruct (extend_contains (fm_PointKey m) s l) as [H1 _].
  set (b0 := extend (fm_PointKey m) s l) in *.
  destruct (extend_contains (fm_Bounds m) (fst b0) (snd b0)) as [H2 H3]. split.
  - eexists. split; [done|]. exact (contains_trans _ _ _ H2 H1).
  - intros b (b' & Hb & Hc). eexists. split; [done|]. exact (contains_trans _ _ _ (H3 b' Hb) Hc).
Qed.
Lemma around_range m s l b : around m b -> around (ExtendRangeKeyBounds m s l) b.
Proof.
  intros (b' & Hb & Hc). unfold ExtendRangeKeyBounds, extendOverallBounds. set (b0 := extend (fm_RangeKey m) s l).
  destruct (extend_contains (fm_Bounds m) (fst b0) (snd b0)) as [_ H3].
  eexists. split; [done|]. exact (contains_trans _ _ _ (H3 b' Hb) Hc).
Qed.
Lemma table_within t :
  StronglySorted (fun a b => InternalCompare (fst a) (fst b) = Lt) (tb_points t) ->
  Forall (within (table_meta t)) (tb_points t).
Proof.
  intros Hs. destruct (wm_Point t) as [[s l]|] eqn:Ep.
  2: { unfold wm_Point in Ep. destruct (tb_points t) as [|[k v] pts]; [constructor|].
    cbn [head] in Ep. destruct (last ((k, v) :: pts)) as [[? ?]|] eqn:El; [done|]. by apply last_None in El. }
  assert (around (table_meta t) (s, l)) as (b & Hb & Hb1 & Hb2).
  { unfold table_meta. rewrite Ep. pose proof (proj1 (around_point new_fileMetadata s l)) as H.
    destruct (wm_RangeDel t) as [[s1 l1]|]; [apply around_point with (s := s1) (l := l1) in H|];
      (destruct (wm_RangeKey t) as [[s2 l2]|]; [by apply around_range|done]). }
  apply Forall_forall. intros kv Hkv. unfold within, fm_Smallest, fm_Largest. rewrite Hb. cbn [default fst snd] in *.
  assert (InternalCompare s (fst kv) <> Gt /\ InternalCompare (fst kv) l <> Gt) as [H1 H2].
  { unfold wm_Point in Ep. destruct (head (tb_points t)) as [[s' v]|] eqn:Eh; [|done].
    destruct (last (tb_points t)) as [[l' w]|] eqn:El; [|done]. injection Ep as -> ->. split.
    - destruct (tb_points t) as [|o pts]; [done|]. injection Eh as ->. apply StronglySorted_inv in Hs as [_ Hs].
      apply elem_of_cons in Hkv as [->|Hkv]; [by rewrite InternalCompare_refl|].
      rewrite Forall_forall in Hs. specialize (Hs _ Hkv). cbn in Hs. by rewrite Hs.
    - apply last_Some in El as [pts E]. rewrite E in Hkv, Hs.
      apply elem_of_app in Hkv as [Hkv| ->%list_elem_of_singleton]; [|by rewrite InternalCompare_refl].
      pose proof (StronglySorted_app_1_elem_of _ _ _ kv (l, w) Hs Hkv ltac:(left)) as H. cbn in H. by rewrite H. }
  split; by eapply InternalCompare_le_trans.
Qed.

(** The checks on a new table. *)
Lemma finish_table_ok prevMeta t :
  (forall b, wm_Point t = Some b -> in_bounds b) -> (forall b, wm_RangeDel t = Some b -> in_bounds b) ->
  (forall b, wm_RangeKey t = Some b -> in_bounds b) ->
  wm_Point t <> None \/ wm_RangeDel t <> None \/ wm_RangeKey t <> None ->
  (forall m, prevMeta = Some m -> ends_before (fm_Largest m) lo) ->
  finish_table c prevMeta K t = Ok (table_meta t) /\
  in_bounds (fm_Smallest (table_meta t), fm_Largest (table_meta t)).
Proof.
  intros H1 H2 H3 Hne Hprev. destruct (table_meta_ok t H1 H2 H3) as [Hm Hb]. specialize (Hb Hne).
  assert (in_bounds (fm_Smallest (table_meta t), fm_Largest (table_meta t))) as Hin.
  { destruct Hm as [Hm _ _]. unfold fm_Smallest, fm_Largest. destruct (fm_Bounds (table_meta t)) as [[s l]|]; [|done].
    apply Hm. }
  split; [|done]. unfold finish_table.
  assert (check_rangeDel prevMeta K t = None) as ->.
  { unfold check_rangeDel. destruct (wm_RangeDel t) as [[s l]|]; [|done].
    destruct (H2 _ eq_refl) as [_ B2 B3 _ _]. cbn [fst snd] in *.
    set (err1 := match prevMeta with None => _ | Some _ => _ end).
    assert (err1 = None) as ->.
    { unfold err1. destruct prevMeta as [m|]; [|done]. specialize (Hprev m eq_refl).
      pose proof (compare_le_trans _ _ _ (ends_before_le _ _ Hprev) B2) as Hle.
      destruct (Compare (UserKey s) (UserKey (fm_Largest m))) eqn:E; [|by apply compare_gt_lt in E|done].
      apply compare_eq in E. destruct Hprev as [Hlt|[_ ->]]; [|done]. rewrite <- E in Hlt.
      apply compare_gt_lt in Hlt. done. }
    destruct K as [k|]; [|done]. rewrite bool_decide_eq_false_2; [done|]. by apply ends_before_le, B3. }
  assert (check_bounds c (table_meta t) = None) as ->.
  { destruct Hin as [_ _ _ B4 B5]. cbn [fst snd] in *. unfold check_bounds.
    destruct (cp_smallest c) as [k|]; cbn [from_option]; [rewrite bool_decide_eq_false_2 by (by apply B4)|].
    all: destruct (cp_largest c) as [k'|]; cbn [from_option]; [rewrite bool_decide_eq_false_2 by (by apply B5)|]; done. }
  assert (errorOnUserKeyOverlap prevMeta (table_meta t) = None) as ->.
  { unfold errorOnUserKeyOverlap. destruct prevMeta as [m|]; [|done]. destruct (Hprev m eq_refl) as [Hlt|[_ ->]]; [|done].
    rewrite (bool_decide_eq_false_2 (Compare _ _ <> Lt)); [by rewrite andb_false_r|].
    intros Hn. apply Hn. eapply compare_lt_le_trans; [exact Hlt|]. apply Hin. }
  by rewrite (Validate_ok _ Hm Hb).
Qed.
End bounds.

(** * Range deletions of a table *)
Section dels.
Context {C : Comparer} {L : ComparerLaws C}.

(** The entries for the keys of a span. *)
Definition enc_keys (start end_ : bytes) (ks : list Key) : list (InternalKey * bytes) :=
  (fun k => (mkInternalKey start (key_Trailer k), end_)) <$> ks.
Definition enc (s : Span) : list (InternalKey * bytes) := enc_keys (sp_Start s) (sp_End s) (sp_Keys s).
Definition encs (l : list Span) : list (InternalKey * bytes) := concat (enc <$> l).
Lemma encs_app l1 l2 : encs (l1 ++ l2) = encs l1 ++ encs l2.
Proof. unfold encs. by rewrite fmap_app, concat_app. Qed.

Definition del_key_ok (k : Key) : Prop := key_Kind k = InternalKeyKindRangeDelete /\ key_SeqNum k < 2 ^ 55.
Record del_keys_ok (ks : list Key) : Prop := {
  dk_some : ks <> [];
  dk_ok : Forall del_key_ok ks;
  dk_sorted : StronglySorted (fun a b => key_SeqNum b < key_SeqNum a) ks;
}.
Fixpoint del_chain (lo : bytes) (l : list Span) : Prop :=
  match l with
  | [] => True
  | s :: l =>
      Compare lo (sp_Start s) <> Gt /\ Compare (sp_Start s) (sp_End s) = Lt /\ del_keys_ok (sp_Keys s) /\
      del_chain (sp_End s) l
  end.
Lemma del_chain_weaken lo lo' l : Compare lo' lo <> Gt -> del_chain lo l -> del_chain lo' l.
Proof. intros H. destruct l as [|s l]; [done|]. intros [H1 H2]. split; [by eapply compare_le_trans|done]. Qed.

Lemma rangedel_Encode_ok s ks : forall out, Forall del_key_ok ks ->
  rangedel_Encode (fun _ _ => None) s ks out = (out ++ enc_keys (sp_Start s) (sp_End s) ks, None).
Proof.
  induction ks as [|k ks IH]; intros out Hk; cbn [rangedel_Encode]; [by rewrite app_nil_r|].
  apply Forall_cons in Hk as [[Hk _] Hks]. rewrite (proj2 (Z.eqb_eq _ _) Hk). cbn [negb Emit].
  rewrite IH by done. by rewrite <- app_assoc.
Qed.

Lemma del_not_sentinel start k : del_key_ok k -> (Trailer (mkInternalKey start (key_Trailer k)) =? InternalKeyRangeDeleteSentinel) = false.
Proof.
  intros [_ Hs]. apply Z.eqb_neq. cbn [Trailer]. intros E. unfold key_SeqNum in Hs. rewrite E in Hs. by vm_compute in Hs.
Qed.

(** More keys of the last span. *)
Lemma add_keys_ok start end_ ks : forall pts dels rks k0,
  Forall del_key_ok ks -> StronglySorted (fun a b => key_SeqNum b < key_SeqNum a) (k0 :: ks) ->
  last dels = Some (mkInternalKey start (key_Trailer k0), end_) ->
  add_tombstones (mkTable pts dels rks) (enc_keys start end_ ks) = Ok (mkTable pts (dels ++ enc_keys start end_ ks) rks).
Proof.
  induction ks as [|k ks IH]; intros pts dels rks k0 Hk Hs Hl; cbn [enc_keys fmap list_fmap add_tombstones].
  { by rewrite app_nil_r. }
  apply Forall_cons in Hk as [Hk Hks]. apply StronglySorted_inv in Hs as [Hs H0]. apply Forall_cons in H0 as [H0 _].
  unfold tw_addTombstone. cbn [tb_rangeDels tb_points tb_rangeKeys]. rewrite Hl. cbn [UserKey].
  rewrite !compare_refl. rewrite bool_decide_eq_false_2 by (intros H; by apply H).
  rewrite (del_not_sentinel start k Hk).
  assert ((SeqNum (mkInternalKey start (key_Trailer k0)) <=? SeqNum (mkInternalKey start (key_Trailer k))) = false) as ->.
  { apply Z.leb_gt. exact H0. }
  fold (enc_keys start end_ ks). rewrite (IH _ _ _ k Hks Hs) by apply last_snoc. by rewrite <- app_assoc.
Qed.

Definition dels_before (dels : list (InternalKey * bytes)) (q : bytes) : Prop :=
  forall prev pv, last dels = Some (prev, pv) -> Compare (UserKey prev) pv = Lt /\ Compare pv q <> Gt.
Lemma enc_last s : sp_Keys s <> [] -> exists k, last (enc s) = Some (mkInternalKey (sp_Start s) (key_Trailer k), sp_End s).
Proof.
  intros Hne. unfold enc, enc_keys. rewrite fmap_last. destruct (last (sp_Keys s)) as [k|] eqn:E; [by exists k|].
  by apply last_None in E.
Qed.
Lemma dels_before_enc dels s : Compare (sp_Start s) (sp_End s) = Lt -> sp_Keys s <> [] -> dels_before (dels ++ enc s) (sp_End s).
Proof.
  intros Hlt Hne prev pv. rewrite last_app. destruct (enc_last s Hne) as [k ->]. intros [= <- <-]. cbn [UserKey].
  split; [done|]. by rewrite compare_refl.
Qed.

Lemma add_rangeDel_ok pts dels rks s :
  dels_before dels (sp_Start s) -> Compare (sp_Start s) (sp_End s) = Lt -> del_keys_ok (sp_Keys s) ->
  add_rangeDel (mkTable pts dels rks) s = Ok (mkTable pts (dels ++ enc s) rks).
Proof.
  intros Hb Hlt [Hne Hk Hs]. unfold add_rangeDel. rewrite rangedel_Encode_ok by done. cbn [app].
  destruct (sp_Keys s) as [|k ks] eqn:Ek; [done|]. unfold enc. rewrite Ek.
  cbn [enc_keys fmap list_fmap add_tombstones]. apply Forall_cons in Hk as [Hk Hks].
  assert (tw_addTombstone (mkTable pts dels rks) (mkInternalKey (sp_Start s) (key_Trailer k)) (sp_End s) =
    Ok (mkTable pts (dels ++ [(mkInternalKey (sp_Start s) (key_Trailer k), sp_End s)]) rks)) as ->.
  { unfold tw_addTombstone. cbn [tb_rangeDels tb_points tb_rangeKeys]. rewrite (del_not_sentinel _ k Hk).
    destruct (last dels) as [[prev pv]|] eqn:El; [|done]. destruct (Hb _ _ El) as [H1 H2]. cbn [UserKey].
    rewrite (compare_lt_le_trans _ _ _ H1 H2). by rewrite bool_decide_eq_false_2. }
  fold (enc_keys (sp_Start s) (sp_End s) ks). rewrite (add_keys_ok _ _ _ _ _ _ k Hks Hs) by apply last_snoc.
  by rewrite <- app_assoc.
Qed.

Lemma add_rangeDels_ok l : forall lo pts dels rks tw,
  del_chain lo l -> dels_before dels lo -> default new_table tw = mkTable pts dels rks ->
  add_rangeDels tw l = Ok (match l with [] => tw | _ => Some (mkTable pts (dels ++ encs l) rks) end).
Proof.
  induction l as [|s l IH]; intros lo pts dels rks tw Hc Hb Ht; cbn [add_rangeDels]; [done|].
  destruct Hc as (H1 & H2 & H3 & H4). rewrite Ht, add_rangeDel_ok; [|by intros prev pv [? ?]%Hb; split; [|eapply compare_le_trans]|done..].
  rewrite (IH (sp_End s) pts (dels ++ enc s) rks) by (done || by apply dels_before_enc; [|apply H3]).
  unfold encs. cbn [fmap list_fmap concat]. destruct l; [by rewrite app_nil_r|]. by rewrite <- app_assoc.
Qed.
End dels.

(** * The fragments of a table *)
Section fragments.
Context {C : Comparer} {L : ComparerLaws C} {So : Sort} {SoL : SortLaws So}.
Context (p : params) (Hsnaps : snaps_ok (snapshots p)) (hi : option bytes).

(** Spans in order from [lo]. *)
Fixpoint spaced (lo : bytes) (l : list Span) : Prop :=
  match l with
  | [] => True
  | s :: l => Compare lo (sp_Start s) <> Gt /\ Compare (sp_Start s) (sp_End s) = Lt /\ spaced (sp_End s) l
  end.
Lemma spaced_weaken lo lo' l : Compare lo' lo <> Gt -> spaced lo l -> spaced lo' l.
Proof. intros H. destruct l as [|s l]; [done|]. intros [H1 H2]. split; [by eapply compare_le_trans|done]. Qed.
Lemma spaced_last lo l b : spaced lo l -> last l = Some b -> Compare lo (sp_End b) = Lt.
Proof.
  revert lo. induction l as [|s l IH]; intros lo; [done|]. intros (H1 & H2 & H3) Hl.
  pose proof (compare_le_lt_trans _ _ _ H1 H2) as Hlt.
  destruct l as [|s' l]; [by injection Hl as <-|]. eapply compare_lt_le_trans; [exact Hlt|].
  by rewrite (IH _ H3 Hl).
Qed.
Lemma spaced_bounds lo l a b : spaced lo l -> head l = Some a -> last l = Some b ->
  Compare lo (sp_Start a) <> Gt /\ Compare (sp_Start a) (sp_End b) = Lt.
Proof.
  destruct l as [|s l]; [done|]. intros (H1 & H2 & H3) [= <-] Hl. split; [done|].
  destruct l as [|s' l]; [by injection Hl as <-|].
  exact (compare_lt_le_trans _ _ _ H2 ltac:(by rewrite (spaced_last _ _ _ H3 Hl))).
Qed.

Lemma chunks_cons s l : chunks p (s :: l) = chunk p s ++ chunks p l.
Proof. done. Qed.
Lemma chunk_cases s :
  chunk p s = [] \/ exists ks, ks <> [] /\ ks = emit_loop p (sp_Start s) (sp_End s) None (sp_Keys s) /\
    chunk p s = [mkSpan (sp_Start s) (sp_End s) ks ByTrailerDesc].
Proof.
  unfold chunk. destruct (emit_loop _ _ _ _ _) as [|k ks]; [by left|right]. by exists (k :: ks).
Qed.

Lemma trailers_seqs ks : StronglySorted (fun a b => key_Trailer b <= key_Trailer a) ks ->
  StronglySorted (fun a b => key_SeqNum b <= key_SeqNum a) ks.
Proof.
  induction 1 as [|k ks Hs IH Hk]; constructor; [done|]. eapply Forall_impl; [exact Hk|]. intros k'. apply key_SeqNum_mono.
Qed.
Lemma chunks_del_chain l : forall lo, chain lo l -> Forall (fun s => Forall del_key_ok (sp_Keys s)) l ->
  del_chain lo (chunks p l).
Proof.
  induction l as [|s l IH]; intros lo Hc Hk; [done|]. destruct Hc as (H1 & H2 & H3 & H4).
  apply Forall_cons in Hk as [Hks Hk]. specialize (IH _ H4 Hk). rewrite chunks_cons.
  destruct (chunk_cases s) as [->|(ks & Hne & Eks & ->)].
  { eapply del_chain_weaken; [|exact IH]. by rewrite (compare_le_lt_trans _ _ _ H1 H2). }
  destruct (emit_loop_spec p Hsnaps (sp_Start s) (sp_End s) (sp_Keys s) None (trailers_seqs _ H3)) as (S1 & _ & _ & S4).
  { apply Forall_forall. done. }
  rewrite <- Eks in S1, S4. simpl. split; [done|]. split; [done|]. split; [|done]. split; [done| |].
  - rewrite Forall_forall in Hks |- *. intros k Hin. apply Hks. by eapply elem_of_sublist.
  - clear -S4 Hsnaps. induction S4 as [|k ks Hs IH Hk]; constructor; [done|]. eapply Forall_impl; [exact Hk|].
    intros k' Hlt. cbn in Hlt. destruct (Z.lt_ge_cases (key_SeqNum k') (key_SeqNum k)) as [?|Hge]; [done|].
    pose proof (idx_mono _ Hsnaps _ _ Hge). lia.
Qed.
Lemma del_chain_spaced lo l : del_chain lo l -> spaced lo l.
Proof. revert lo. induction l as [|s l IH]; intros lo; [done|]. intros (H1 & H2 & _ & H4). split; [done|]. split; [done|]. auto. Qed.
Lemma chunks_in s l : s ∈ chunks p l ->
  exists s', s' ∈ l /\ sp_Start s = sp_Start s' /\ sp_End s = sp_End s' /\ sp_Keys s <> [] /\ sp_Keys s' <> [].
Proof.
  induction l as [|s0 l IH]; [by intros ?%elem_of_nil|]. rewrite chunks_cons, elem_of_app.
  intros [Hs|Hs]; [|destruct (IH Hs) as (s' & ? & ?); exists s'; split; [by right|done]].
  destruct (chunk_cases s0) as [E|(ks & Hne & Eks & E)]; rewrite E in Hs; [by apply elem_of_nil in Hs|].
  apply list_elem_of_singleton in Hs as ->. exists s0. split; [left|]. split_and!; try done.
  intros E0. rewrite E0 in Eks. done.
Qed.
Lemma rchunks_spaced l : forall lo, chain lo l -> spaced lo (rchunks l).
Proof.
  unfold rchunks. induction l as [|s l IH]; intros lo; [done|]. intros (H1 & H2 & _ & H4). rewrite filter_cons.
  specialize (IH _ H4). case_decide; [done|]. eapply spaced_weaken; [|exact IH].
  by rewrite (compare_le_lt_trans _ _ _ H1 H2).
Qed.
End fragments.

(** * Bounds of new tables *)
Section table_bounds.
Context {C : Comparer} {L : ComparerLaws C} (c : compaction) (lo : bytes) (K : option bytes).
Abbreviation in_bounds := (in_bounds c lo K).

Lemma sentinel_rangedel u : IsExclusiveSentinel (MakeRangeDeleteSentinelKey u) = true.
Proof. done. Qed.
Lemma sentinel_rangekey kind u : IsRangeKey kind = true -> IsExclusiveSentinel (MakeExclusiveSentinelKey kind u) = true.
Proof. unfold IsRangeKey. intros [[E|E]%orb_true_iff|E]%orb_true_iff; by apply Z.eqb_eq in E as ->. Qed.
Lemma sentinel_before l k : IsExclusiveSentinel l = true -> Compare (UserKey l) k <> Gt -> ends_before l k.
Proof. intros Hs Hk. destruct (Compare (UserKey l) k) eqn:E; [|by left|done]. apply compare_eq in E. by right. Qed.

(** A span in the part of the key space of the table. *)
Record placed (s : Span) : Prop := {
  pl_split k : K = Some k -> Compare (sp_End s) k <> Gt;
  pl_smallest k : cp_smallest c = Some k -> Compare (sp_Start s) k <> Lt;
  pl_largest : below_hi (cp_largest c) s;
}.
Lemma spans_bounds l a b s_ l_ :
  spaced lo l -> Forall placed l -> head l = Some a -> last l = Some b ->
  UserKey s_ = sp_Start a -> UserKey l_ = sp_End b -> IsExclusiveSentinel l_ = true -> in_bounds (s_, l_).
Proof.
  intros Hs Hp Ha Hb Es El Hx. destruct (spaced_bounds _ _ _ _ Hs Ha Hb) as [H1 H2].
  rewrite Forall_forall in Hp.
  assert (placed a) as [_ A2 _] by (apply Hp; destruct l; [done|]; injection Ha as <-; left).
  assert (placed b) as [B1 _ B3] by (apply Hp; apply last_Some in Hb as [l' ->]; rewrite elem_of_app; right; left).
  split; cbn [fst snd]; rewrite ?Es; try done.
  - rewrite (proj2 (InternalCompare_lt _ _)); [done|]. left. by rewrite Es, El.
  - intros k Hk. apply sentinel_before; [done|]. rewrite El. auto.
  - intros k Hk. rewrite El. by apply B3.
Qed.

Lemma encs_head a l pts rks b :
  sp_Keys a <> [] -> last (a :: l) = Some b -> Forall (fun s => sp_Keys s <> []) (a :: l) ->
  exists t, wm_RangeDel (mkTable pts (encs (a :: l)) rks) = Some (mkInternalKey (sp_Start a) t, MakeRangeDeleteSentinelKey (sp_End b)).
Proof.
  intros Hne Hl Hk. unfold wm_RangeDel. cbn [tb_rangeDels].
  assert (head (encs (a :: l)) <> None) as Hh.
  { unfold encs, enc, enc_keys. cbn [fmap list_fmap concat]. destruct (sp_Keys a); done. }
  assert (exists k, head (encs (a :: l)) = Some (mkInternalKey (sp_Start a) (key_Trailer k), sp_End a)) as [k ->].
  { unfold encs, enc, enc_keys. cbn [fmap list_fmap concat]. destruct (sp_Keys a) as [|k ks]; [done|]. by exists k. }
  apply last_Some in Hl as [l' Hl]. rewrite Hl in *. rewrite encs_app, last_app.
  apply Forall_app in Hk as [_ [Hb _]%Forall_cons]. unfold encs at 1. cbn [fmap list_fmap concat].
  rewrite app_nil_r. destruct (enc_last b Hb) as [k' ->]. by exists (key_Trailer k).
Qed.
Lemma del_bounds l pts rks b :
  del_chain lo l -> Forall placed l -> wm_RangeDel (mkTable pts (encs l) rks) = Some b -> in_bounds b.
Proof.
  intros Hc Hp. destruct l as [|a l]; [done|]. intros Hb.
  assert (Forall (fun s => sp_Keys s <> []) (a :: l)) as Hk.
  { clear -Hc. set (l' := a :: l) in *. clearbody l'. revert lo Hc. induction l' as [|s l' IH]; intros lo; [constructor|].
    intros (_ & _ & [H _ _] & Hc). constructor; [done|]. by eapply IH. }
  destruct (last (a :: l)) as [b0|] eqn:El; [|by apply last_None in El].
  destruct (encs_head a l pts rks b0 (proj1 (Forall_cons_1 _ _ _ Hk)) El Hk) as [t Ht]. rewrite Ht in Hb. injection Hb as <-.
  by apply (spans_bounds (a :: l) a b0); [apply del_chain_spaced| | | | | |apply sentinel_rangedel].
Qed.

Lemma key_bounds l pts dels b :
  spaced lo l -> Forall placed l -> Forall (fun s => sp_Keys s <> [] /\ Forall (fun k => IsRangeKey (key_Kind k) = true) (sp_Keys s)) l ->
  wm_RangeKey (mkTable pts dels l) = Some b -> in_bounds b.
Proof.
  intros Hc Hp Hk. unfold wm_RangeKey. cbn [tb_rangeKeys].
  destruct (head l) as [a|] eqn:Ea; [|done]. destruct (last l) as [b0|] eqn:Eb; [|done]. intros [= <-].
  apply (spans_bounds l a b0); try done. apply sentinel_rangekey.
  rewrite Forall_forall in Hk. destruct (Hk b0) as [Hne Hks].
  { apply last_Some in Eb as [l' ->]. rewrite elem_of_app. right. left. }
  destruct (last (sp_Keys b0)) as [k|] eqn:El; [|by apply last_None in El]. cbn [from_option].
  rewrite Forall_forall in Hks. apply Hks. apply last_Some in El as [l' ->]. rewrite elem_of_app. right. left.
Qed.

Lemma point_bounds (pts : list (InternalKey * bytes)) dels rks b :
  StronglySorted (fun a b => InternalCompare (fst a) (fst b) = Lt) pts ->
  Forall (fun o => Compare lo (UserKey (fst o)) <> Gt /\ (forall k, K = Some k -> Compare (UserKey (fst o)) k = Lt) /\
    (forall k, cp_smallest c = Some k -> Compare (UserKey (fst o)) k <> Lt) /\
    (forall k, cp_largest c = Some k -> Compare (UserKey (fst o)) k <> Gt)) pts ->
  wm_Point (mkTable pts dels rks) = Some b -> in_bounds b.
Proof.
  intros Hs Hp. unfold wm_Point. cbn [tb_points].
  destruct (head pts) as [[s v]|] eqn:Ea; [|done]. destruct (last pts) as [[l w]|] eqn:Eb; [|done]. intros [= <-].
  rewrite Forall_forall in Hp.
  assert ((s, v) ∈ pts) as Hin1 by (destruct pts; [done|]; injection Ea as <-; left).
  assert ((l, w) ∈ pts) as Hin2 by (apply last_Some in Eb as [l' ->]; rewrite elem_of_app; right; left).
  destruct (Hp _ Hin1) as (A1 & A2 & A3 & A4). destruct (Hp _ Hin2) as (B1 & B2 & B3 & B4).
  split; cbn [fst snd] in *; try done.
  - destruct pts as [|o pts]; [done|]. injection Ea as ->. apply StronglySorted_inv in Hs as [_ Hs].
    apply elem_of_cons in Hin2 as [[= -> ->]|Hin2]; [by rewrite InternalCompare_refl|].
    rewrite Forall_forall in Hs. specialize (Hs _ Hin2). cbn in Hs. by rewrite Hs.
  - intros k Hk. left. auto.
Qed.
End table_bounds.

(** * [finishOutput] *)
Section finish.
Context {C : Comparer} {L : ComparerLaws C} {M : Merge} {ML : MergeLaws M} {So : Sort} {SoL : SortLaws So}.
Context {Sp : Splitter} {SpL : SplitterLaws Sp}.
Context (c : compaction) (p : params) (Hsnaps : snaps_ok (snapshots p)) (input : list item) (Hin : input_ok input).
Context (B : bytes -> list op).
Abbreviation hi := (cp_largest c).

(** The input is in the range of the compaction. *)
Record in_range (e : item) : Prop := {
  ir_smallest k : cp_smallest c = Some k -> Compare (uk e) k <> Lt;
  ir_largest k : cp_largest c = Some k -> Compare (uk e) k <> Gt;
  ir_span : ~ point e -> below_hi hi (it_span e);
}.
Context (Hrange : Forall in_range input).
Abbreviation Inv := (Inv p input B hi).
Abbreviation frags := (frags p hi).
Abbreviation frag_inv := (frag_inv hi).
Abbreviation filled := (filled p input B hi).
Abbreviation out := (item * (InternalKey * bytes))%type.

(** ** The key at which the output ends *)
Definition split_of (r : returned) (lim : option bytes) : option bytes :=
  match r, lim with
  | Some (key, _), None => Some (UserKey key)
  | Some (key, _), Some k => Some (if bool_decide (Compare k (UserKey key) = Gt) then UserKey key else k)
  | None, k => k
  end.

Lemma sorted_le l1 l2 x y : input = l1 ++ l2 -> x ∈ l1 -> y ∈ l2 -> Compare (uk x) (uk y) <> Gt.
Proof.
  intros Hi Hx Hy. destruct Hin as [[Hs _] _ _]. rewrite Hi in Hs.
  destruct (StronglySorted_app_1_elem_of _ _ _ x y Hs Hx Hy) as [Hlt _].
  apply InternalCompare_le_user. by rewrite Hlt.
Qed.

(** The key that was returned, among the entries that are left. *)
Lemma returned_first i key v done rest outs cm lim lo W WK :
  Inv i (Some (key, v)) done rest outs cm lim lo W WK ->
  (exists x, x ∈ rest ++ cm_items cm /\ uk x = UserKey key) /\
  Forall (fun x => Compare (UserKey key) (uk x) <> Gt) (rest ++ cm_items cm).
Proof.
  intros [I1 I2 I3 _ I5 _ _ _ _ I10]. revert I1.
  inversion I3 as [|e Hr Hp Hc E1 E2 E3|o Hr Hp E1 E2 E3]; subst; intros I1.
  - rewrite app_nil_r. split; [exists e; split; [left|done]|]. constructor; [by rewrite compare_refl|].
    apply Forall_forall. intros x Hx. apply (sorted_le (done ++ [e]) (pending i)); [|rewrite elem_of_app; right; left|done].
    by rewrite I1, <- app_assoc.
  - apply Forall_app in I5 as [_ [Ho _]%Forall_cons]. destruct o as [e [key' v']]. cbn in E1. injection E1 as -> ->.
    destruct Ho as (_ & _ & _ & _ & (Hu & _)). cbn in Hu. apply Forall_cons in I10 as [He _]. cbn in He.
    split; [exists e; split; [rewrite elem_of_app; right; left|done]|].
    apply Forall_app. split; [|constructor; [|constructor]; cbn; rewrite Hu; by rewrite compare_refl].
    apply Forall_forall. intros x Hx. rewrite Hu. by apply (sorted_le done (pending i)).
Qed.

Record split_at (k : bytes) (r : returned) (rest : list item) (ot cm : list out) (lim : option bytes) : Prop := {
  sa_points : Forall (fun o : out => Compare (uk (fst o)) k = Lt) ot;
  sa_ahead q : not_ahead (rest ++ cm_items cm) lim q -> Compare q k <> Gt;
  sa_rest : Forall (fun x => Compare k (uk x) <> Gt) (rest ++ cm_items cm);
  sa_nil : k <> [];
  sa_lim : r = None -> lim = Some k;
  sa_key key v : r = Some (key, v) -> Compare k (UserKey key) <> Gt;
}.
Lemma split_of_ok i s tw r done rest outs ot cm lim lo W WK k :
  filled i s tw r done rest outs ot cm lim lo W WK -> lim <> Some [] -> split_of r lim = Some k ->
  split_at k r rest ot cm lim.
Proof.
  intros [F1 F2 F3 F4 F5 F6 F7] Hl Hk. destruct r as [[key v]|]; cbn [split_of] in Hk.
  - destruct (returned_first _ _ _ _ _ _ _ _ _ _ _ F1) as [(x & Hx & Hxu) Hle].
    assert (k = UserKey key \/ lim = Some k /\ Compare k (UserKey key) <> Gt) as Hor.
    { destruct lim as [y|]; [|injection Hk as <-; by left]. case_bool_decide; injection Hk as <-; [by left|by right]. }
    assert (Compare k (UserKey key) <> Gt) as Hkk by (destruct Hor as [->|[_ ?]]; [by rewrite compare_refl|done]).
    split; try done.
    + destruct Hor as [->|[-> _]]; [by apply (F6 key v)|]. eapply Forall_impl; [exact F4|]. auto.
    + intros q [Hq1 Hq2]. destruct Hor as [->|[-> _]]; [|auto]. rewrite Forall_forall in Hq1. rewrite <- Hxu. auto.
    + eapply Forall_impl; [exact Hle|]. intros y Hy. by eapply compare_le_trans.
    + destruct Hor as [->|[-> _]]; [by apply (F7 key v)|congruence].
    + intros key' v' [= <- <-]. done.
  - subst lim. destruct F1 as [_ _ I3 _ _ _ _ _ _ _]. inversion I3; subst. split; try done.
    + eapply Forall_impl; [exact F4|]. auto.
    + intros q [_ Hq]. auto.
    + congruence.
Qed.
Lemma split_of_None r lim : split_of r lim = None -> r = None /\ lim = None.
Proof. destruct r as [[key v]|], lim; done. Qed.
(** ** Flushing the fragmenters *)
Lemma frag_flush spans f lo W E Q K :
  frag_inv spans f lo W E Q -> (forall q k, Q q -> K = Some k -> Compare q k <> Gt) ->
  exists f' out, flush_to f K = Ret f' /\ f_emitted f' = f_emitted f ++ out /\ f_emitted f = W ++ E /\
    chain lo (E ++ out) /\ fits hi f' /\ chain [] (f_emitted f') /\
    (forall x k, k ∈ at_key x (f_emitted f') -> k ∈ at_key x spans) /\
    (forall k, K = Some k -> Compare lo k <> Gt /\ Compare (chain_end lo (E ++ out)) k <> Gt /\
      frag_inv spans f' k (f_emitted f') [] (eq k)) /\
    (K = None -> f_finished f' = true /\ forall x, at_key x (f_emitted f') ≡ₚ at_key x spans).
Proof.
  intros (cuts & q & F1 & F2 & F3 & F4 & F5 & F6 & F7 & _) HQ.
  assert (forall out, chain q out -> chain lo (E ++ out)) as Hch.
  { intros out Ho. apply chain_app. split; [done|]. by eapply chain_weaken. }
  destruct K as [k|]; cbn [flush_to].
  - pose proof (HQ q k F6 eq_refl) as Hqk.
    destruct (FInv_TruncateAndFlushTo _ _ _ _ _ k F1 Hqk) as (f' & E1 & E2 & (out & O1 & O2 & O3 & O4)).
    exists f', out. split; [done|]. split; [done|]. split; [done|]. split; [auto|].
    pose proof (fits_TruncateAndFlushTo _ _ _ _ F7 E1) as Hfit. split; [done|].
    split; [apply E2|]. split; [|split; [|done]].
    + intros x k0 Hk0. rewrite <- (fi_at _ _ _ _ _ E2 x), elem_of_app. by left.
    + intros k' [= <-]. split; [exact (compare_le_trans _ _ _ F4 Hqk)|]. split.
      * rewrite chain_end_app. destruct out; [|done]. simpl in *. exact (compare_le_trans _ _ _ F5 Hqk).
      * exists (cuts ++ [k]), k. rewrite app_nil_r. split_and!; try done; by rewrite compare_refl.
  - destruct (FInv_Finish _ _ _ _ _ F1) as (f' & out & E1 & E2 & E3 & E4 & E5 & E6 & _).
    exists f', out. split; [done|]. split; [done|]. split; [done|]. split; [auto|].
    split; [exact (fits_Finish _ _ _ F7 E1)|]. split; [done|]. split; [|done].
    intros x k. by rewrite E6.
Qed.

(** A fragment has its keys from the input. *)
Lemma fragment_source l lo ins s k :
  chain lo l -> s ∈ l -> k ∈ sp_Keys s -> (forall x k, k ∈ at_key x l -> k ∈ at_key x ins) -> k ∈ at_key (sp_Start s) ins.
Proof.
  intros Hc Hs Hk Hat. apply Hat. unfold at_key. rewrite list_elem_of_In, in_concat.
  exists (sp_Keys s). split; apply list_elem_of_In; [|done]. apply list_elem_of_fmap. exists s. split; [done|].
  apply list_elem_of_filter. split; [|done]. apply Contains_spec. rewrite compare_refl. split; [done|].
  clear -Hc Hs. revert lo Hc. induction l as [|s' l IH]; intros lo; [by apply elem_of_nil in Hs|].
  intros (_ & H2 & _ & H4). apply elem_of_cons in Hs as [->|Hs]; [done|]. by eapply IH.
Qed.
Lemma del_fragment done rest l lo s :
  input = done ++ rest -> chain lo l -> (forall x k, k ∈ at_key x l -> k ∈ at_key x (del_spans done)) -> s ∈ l ->
  Forall del_key_ok (sp_Keys s) /\
  (sp_Keys s <> [] -> forall k, cp_smallest c = Some k -> Compare (sp_Start s) k <> Lt).
Proof.
  intros Hi Hc Hat Hs.
  assert (forall k, k ∈ sp_Keys s -> exists e, e ∈ input /\ is_rangedel e /\ Contains (it_span e) (sp_Start s) = true /\ k ∈ sp_Keys (it_span e)) as Hsrc.
  { intros k Hk. destruct (proj1 (at_del_spans _ _ _) (fragment_source _ _ _ _ _ Hc Hs Hk Hat)) as (e & He & H).
    exists e. split; [rewrite Hi, elem_of_app; by left|done]. }
  pose proof Hin as [_ Hd _]. rewrite Forall_forall in Hd, Hrange. split.
  - apply Forall_forall. intros k Hk. destruct (Hsrc k Hk) as (e & He & Hde & _ & Hke).
    destruct (Hd e He Hde) as [_ Hks]. rewrite Forall_forall in Hks. split; [by apply Hks|].
    exact (del_seq_range input Hin e k He Hde Hke).
  - intros Hne k Hk. destruct (sp_Keys s) as [|k0 ks]; [done|].
    destruct (Hsrc k0 ltac:(left)) as (e & He & Hde & Hce & _). destruct (Hd e He Hde) as [(Hst & _) _].
    destruct (Hrange e He) as [Hsm _ _]. apply Contains_spec in Hce as [Hce _]. rewrite Hst in Hce.
    rewrite compare_not_lt. apply (compare_le_trans _ _ _ (proj1 (compare_not_lt _ _) (Hsm k Hk)) Hce).
Qed.
Lemma key_fragment done rest l lo s :
  input = done ++ rest -> chain lo l -> (forall x k, k ∈ at_key x l -> k ∈ at_key x (key_spans done)) -> s ∈ l ->
  Forall (fun k => IsRangeKey (key_Kind k) = true) (sp_Keys s) /\
  (sp_Keys s <> [] -> forall k, cp_smallest c = Some k -> Compare (sp_Start s) k <> Lt).
Proof.
  intros Hi Hc Hat Hs.
  assert (forall k, k ∈ sp_Keys s -> exists e, e ∈ input /\ is_rangekey e /\ Contains (it_span e) (sp_Start s) = true /\ k ∈ sp_Keys (it_span e)) as Hsrc.
  { intros k Hk. destruct (proj1 (at_key_spans _ _ _) (fragment_source _ _ _ _ _ Hc Hs Hk Hat)) as (e & He & H).
    exists e. split; [rewrite Hi, elem_of_app; by left|done]. }
  pose proof Hin as [_ _ Hd]. rewrite Forall_forall in Hd, Hrange. split.
  - apply Forall_forall. intros k Hk. destruct (Hsrc k Hk) as (e & He & Hde & _ & Hke).
    destruct (Hd e He Hde) as [_ Hks]. rewrite Forall_forall in Hks. by apply Hks.
  - intros Hne k Hk. destruct (sp_Keys s) as [|k0 ks]; [done|].
    destruct (Hsrc k0 ltac:(left)) as (e & He & Hde & Hce & _). destruct (Hd e He Hde) as [(Hst & _) _].
    destruct (Hrange e He) as [Hsm _ _]. apply Contains_spec in Hce as [Hce _]. rewrite Hst in Hce.
    rewrite compare_not_lt. apply (compare_le_trans _ _ _ (proj1 (compare_not_lt _ _) (Hsm k Hk)) Hce).
Qed.
(** ** The new table *)

(** The tables that an output makes, none if there is nothing to write. *)
Record made (pts : list (InternalKey * bytes)) (F1 F2 : list Span) (lo : bytes) (K : option bytes)
    (o : list (table * fileMetadata)) : Prop := {
  mk_points : concat (tb_points ∘ fst <$> o) = pts;
  mk_dels : concat (tb_rangeDels ∘ fst <$> o) = encs (chunks p F1);
  mk_keys : concat (tb_rangeKeys ∘ fst <$> o) = rchunks F2;
  mk_meta : Forall (fun tm => snd tm = table_meta (fst tm) /\ Validate (snd tm) = None /\
    Forall (within (snd tm)) (tb_points (fst tm)) /\ in_bounds c lo K (fm_Smallest (snd tm), fm_Largest (snd tm))) o;
  mk_one : (length o <= 1)%nat;
}.

(** The parts of a table that are in the part of the key space for it. *)
Record parts_ok (ot : list out) (F1 F2 : list Span) (lo : bytes) (K : option bytes) : Prop := {
  pt_out : Forall (out_ok p input) ot;
  pt_sorted : StronglySorted out_lt ot;
  pt_points : Forall (fun o => Compare lo (uk (fst o)) <> Gt /\ forall k, K = Some k -> Compare (uk (fst o)) k = Lt) ot;
  pt_dels : del_chain lo (chunks p F1) /\ Forall (placed c K) (chunks p F1);
  pt_keys : spaced lo (rchunks F2) /\ Forall (placed c K) (rchunks F2) /\
    Forall (fun s => sp_Keys s <> [] /\ Forall (fun k => IsRangeKey (key_Kind k) = true) (sp_Keys s)) (rchunks F2);
}.
Lemma outs_sorted ot : StronglySorted out_lt ot -> StronglySorted (fun a b => InternalCompare (fst a) (fst b) = Lt) (snd <$> ot).
Proof. induction 1 as [|o ot Hs IH Ho]; cbn; constructor; [done|]. by apply Forall_fmap. Qed.
Lemma parts_points ot F1 F2 lo K dels rks b :
  parts_ok ot F1 F2 lo K -> wm_Point (mkTable (snd <$> ot) dels rks) = Some b -> in_bounds c lo K b.
Proof.
  intros [P1 P2 P3 _ _]. apply point_bounds.
  - by apply outs_sorted.
  - apply Forall_fmap. rewrite Forall_forall in P1, P3 |- *. rewrite Forall_forall in Hrange. intros o Ho. cbn.
    destruct (P1 o Ho) as (He & _ & _ & _ & (Hu & _)). destruct (P3 o Ho) as [H1 H2].
    destruct (Hrange _ He) as [H3 H4 _]. rewrite Hu. done.
Qed.
Lemma finish_parts tw ot F1 F2 lo K prevMeta :
  tw_ok tw ot -> parts_ok ot F1 F2 lo K -> (forall m, prevMeta = Some m -> ends_before (fm_Largest m) lo) ->
  exists o, made (snd <$> ot) F1 F2 lo K (option_list o) /\
  match add_rangeDels tw (chunks p F1) with
  | Err e => False
  | Ok tw =>
      match add_rangeKeys tw (rchunks F2) with
      | None => o = None
      | Some t => exists meta, finish_table c prevMeta K t = Ok meta /\ o = Some (t, meta)
      end
  end.
Proof.
  intros Htw Hp Hprev. pose proof Hp as [P1 P2 P3 [P4 P5] (P6 & P7 & P8)].
  assert (default new_table tw = mkTable (snd <$> ot) [] []) as Hd.
  { destruct tw; [by destruct Htw|]. simpl in Htw. by subst. }
  rewrite (add_rangeDels_ok _ lo (snd <$> ot) [] [] tw P4); [|done|done].
  set (t := mkTable (snd <$> ot) (encs (chunks p F1)) (rchunks F2)).
  set (tw1 := match chunks p F1 with [] => tw | _ => _ end).
  assert (default new_table tw1 = mkTable (snd <$> ot) (encs (chunks p F1)) []) as Hd1.
  { unfold tw1. destruct (chunks p F1); [by rewrite Hd|done]. }
  assert (tw1 = None -> snd <$> ot = [] /\ chunks p F1 = []) as Hn1.
  { unfold tw1. destruct (chunks p F1); [|done]. intros ->. simpl in Htw. by subst. }
  assert (tw1 <> None -> (snd <$> ot) <> [] \/ chunks p F1 <> []) as Hs1.
  { unfold tw1. destruct (chunks p F1); [|by right]. intros H. left. destruct tw; [|done]. destruct Htw as [_ Hne]. by destruct ot. }
  assert (add_rangeKeys tw1 (rchunks F2) = None /\ snd <$> ot = [] /\ chunks p F1 = [] /\ rchunks F2 = [] \/
    add_rangeKeys tw1 (rchunks F2) = Some t /\ ((snd <$> ot) <> [] \/ chunks p F1 <> [] \/ rchunks F2 <> [])) as Hk.
  { unfold add_rangeKeys, t. destruct (rchunks F2) as [|r rs].
    - destruct tw1 as [t1|]; [right|left; split; [done|]; destruct (Hn1 eq_refl); done].
      simpl in Hd1. rewrite Hd1. split; [done|]. destruct (Hs1 ltac:(done)); tauto.
    - right. rewrite Hd1. split; [done|]. right. by right. }
  destruct Hk as [(-> & E1 & E2 & E3)|[-> Hne]].
  - exists None. split; [|done]. split; cbn; rewrite ?E1, ?E2, ?E3; try done; lia.
  - assert (forall b, wm_Point t = Some b -> in_bounds c lo K b) as W1 by (intros b; by eapply parts_points).
    assert (forall b, wm_RangeDel t = Some b -> in_bounds c lo K b) as W2 by (intros b; by apply del_bounds).
    assert (forall b, wm_RangeKey t = Some b -> in_bounds c lo K b) as W3 by (intros b; by apply key_bounds).
    assert (wm_Point t <> None \/ wm_RangeDel t <> None \/ wm_RangeKey t <> None) as Hsome.
    { destruct Hne as [H|[H|H]].
      - left. unfold wm_Point, t. cbn [tb_points]. destruct (snd <$> ot) as [|[k v] l] eqn:El; [done|]. cbn [head].
        destruct (last ((k, v) :: l)) as [[? ?]|] eqn:Ell; [done|]. by apply last_None in Ell.
      - right. left. destruct (chunks p F1) as [|a l] eqn:Ec; [done|].
        destruct (last (a :: l)) as [b|] eqn:El; [|by apply last_None in El].
        assert (Forall (fun s => sp_Keys s <> []) (a :: l)) as Hkk.
        { apply Forall_forall. intros s Hs. rewrite <- Ec in Hs. by destruct (chunks_in _ _ _ Hs) as (? & _ & _ & _ & ? & _). }
        destruct (encs_head a l (snd <$> ot) (rchunks F2) b (proj1 (Forall_cons_1 _ _ _ Hkk)) El Hkk) as [tr Htr].
        unfold t. by rewrite Htr.
      - right. right. unfold wm_RangeKey, t. cbn [tb_rangeKeys]. destruct (rchunks F2) as [|a l]; [done|]. cbn [head].
        destruct (last (a :: l)) eqn:El; [done|]. by apply last_None in El. }
    destruct (finish_table_ok c lo K prevMeta t W1 W2 W3 Hsome Hprev) as [Hf Hb].
    destruct (table_meta_ok c lo K t W1 W2 W3) as [Hm Hmb]. pose proof (Validate_ok _ _ _ _ Hm (Hmb Hsome)) as Hv.
    pose proof (table_within t (outs_sorted _ P2)) as Hwi.
    exists (Some (t, table_meta t)). split; [|by exists (table_meta t)].
    split; cbn; rewrite ?app_nil_r; try done; first [lia | by constructor].
Qed.
(** ** All of [finishOutput] *)
Record flushed (spans : list Span) (f : Fragmenter) (W F : list Span) (lo : bytes) (K : option bytes) : Prop := {
  fl_emitted : f_emitted f = W ++ F;
  fl_chain : chain [] (f_emitted f);
  fl_fits : fits hi f;
  fl_split k : K = Some k -> Compare lo k <> Gt /\ frag_inv spans f k (W ++ F) [] (eq k);
  fl_end : K = None -> f_finished f = true /\ forall x, at_key x (f_emitted f) ≡ₚ at_key x spans;
}.
Lemma fragment_placed f l lo K s :
  chain lo l -> (forall s, s ∈ l -> s ∈ f_emitted f) -> fits hi f ->
  (forall k, K = Some k -> Compare (chain_end lo l) k <> Gt) ->
  (forall k, cp_smallest c = Some k -> Compare (sp_Start s) k <> Lt) ->
  forall s', s' ∈ l -> sp_Start s = sp_Start s' -> sp_End s = sp_End s' -> placed c K s.
Proof.
  intros Hc Hl Hf Hend Hsm s' Hs' Es Ee. split; [|done|].
  - intros k Hk. rewrite Ee. pose proof (chain_ends _ _ Hc) as He. rewrite Forall_forall in He.
    exact (compare_le_trans _ _ _ (He s' Hs') (Hend k Hk)).
  - destruct Hf as [_ Hf]. rewrite Forall_forall in Hf. intros h Hh. rewrite Ee. by apply (Hf s'); [apply Hl|].
Qed.

Definition flushed_iter (i : compactionIter) (f1 f2 : Fragmenter) : compactionIter :=
  i <| ci_rangeDelFrag := f1 |> <| ci_tombstones := [] |> <| ci_rangeKeyFrag := f2 |> <| ci_rangeKeys := [] |>.

Lemma finishOutput_ok i s tw r done rest outs ot cm lim lo W WK prevMeta :
  filled i s tw r done rest outs ot cm lim lo W WK -> lim <> Some [] ->
  (forall m, prevMeta = Some m -> ends_before (fm_Largest m) lo) ->
  (tw = None /\ split_of r lim = Some (default [] (first_start i)) /\
   finishOutput c p i tw prevMeta (split_of r lim) = Ret (Ok (i, None))) \/
  (exists f1 f2 F1 F2 o,
    finishOutput c p i tw prevMeta (split_of r lim) = Ret (Ok (flushed_iter i f1 f2, o)) /\
    made (snd <$> ot) F1 F2 lo (split_of r lim) (option_list o) /\
    flushed (del_spans done) f1 W F1 lo (split_of r lim) /\ flushed (key_spans done) f2 WK F2 lo (split_of r lim)).
Proof.
  intros HF Hl Hprev. pose proof HF as [F1 F2 F3 F4 F5 F6 F7].
  pose proof F1 as [I1 _ _ _ I5 I6 _ [(E1 & T1 & G1) (E2 & T2 & G2)] _ _].
  pose proof (fun k => split_of_ok _ _ _ _ _ _ _ _ _ _ _ _ _ k HF Hl) as HK.
  set (K := split_of r lim) in *. unfold finishOutput.
  match goal with |- context [if ?b then _ else _] => destruct b eqn:Hb end.
  { left. destruct tw; [done|]. destruct K as [k|]; [|done]. apply bool_decide_eq_true, compare_eq in Hb. by rewrite Hb. }
  right. clear Hb.
  assert (match K with Some [] => None | k => k end = K) as ->.
  { destruct K as [[|]|]; [|done|done]. by destruct (sa_nil _ _ _ _ _ _ (HK [] eq_refl)). }
  destruct (frag_flush _ _ _ _ _ _ K G1) as (f1 & o1 & A1 & A2 & A3 & A4 & A5 & A6 & A7 & A8 & A9).
  { intros q k Hq Hk. exact (sa_ahead _ _ _ _ _ _ (HK k Hk) q Hq). }
  destruct (frag_flush _ _ _ _ _ _ K G2) as (f2 & o2 & B1 & B2 & B3 & B4 & B5 & B6 & B7 & B8 & B9).
  { intros q k Hq Hk. exact (sa_ahead _ _ _ _ _ _ (HK k Hk) q Hq). }
  assert (forall s, s ∈ E1 ++ o1 -> s ∈ f_emitted f1) as S1.
  { intros s0 Hs0. rewrite A2, A3, <- app_assoc, elem_of_app. by right. }
  assert (forall s, s ∈ E2 ++ o2 -> s ∈ f_emitted f2) as S2.
  { intros s0 Hs0. rewrite B2, B3, <- app_assoc, elem_of_app. by right. }
  assert (parts_ok ot (E1 ++ o1) (E2 ++ o2) lo K) as Hparts.
  { apply Forall_app in I5 as [I5 _]. apply Forall_app in I5 as [_ I5].
    apply StronglySorted_app_1_l, StronglySorted_app_1_r in I6. split; [done|done| | |].
    - rewrite Forall_forall in F5 |- *. intros o Ho. split; [by apply F5|]. intros k Hk.
      pose proof (sa_points _ _ _ _ _ _ (HK k Hk)) as H. rewrite Forall_forall in H. by apply H.
    - split.
      + apply (chunks_del_chain p Hsnaps); [done|]. apply Forall_forall. intros s0 Hs0.
        exact (proj1 (del_fragment _ _ _ _ _ I1 A6 A7 (S1 s0 Hs0))).
      + apply Forall_forall. intros s0 (s' & Hs' & Es & Ee & _ & Hne)%chunks_in.
        eapply (fragment_placed f1); [exact A4|done|done|intros k Hk; by apply A8| |exact Hs'|done|done].
        rewrite Es. exact (proj2 (del_fragment _ _ _ _ _ I1 A6 A7 (S1 s' Hs')) Hne).
    - split; [by apply rchunks_spaced|]. split; apply Forall_forall; intros s0 [Hne Hs0]%list_elem_of_filter.
      + eapply (fragment_placed f2); [exact B4|done|done|intros k Hk; by apply B8| |exact Hs0|done|done].
        exact (proj2 (key_fragment _ _ _ _ _ I1 B6 B7 (S2 s0 Hs0)) Hne).
      + split; [done|]. exact (proj1 (key_fragment _ _ _ _ _ I1 B6 B7 (S2 s0 Hs0))). }
  destruct (finish_parts tw ot _ _ lo K prevMeta F2 Hparts Hprev) as (o & Hmade & Hcode).
  exists f1, f2, (E1 ++ o1), (E2 ++ o2), o. split; [|split; [done|split; split; try done]].
  - unfold Tombstones. rewrite A1, bind_Ret, (with_rangeDelFrag_eq p i f1 o1 A2).
    change (ci_tombstones (i <| ci_rangeDelFrag := f1 |> <| ci_tombstones := ?x |>)) with x.
    rewrite bind_Ret. rewrite T1, <- chunks_app.
    destruct (add_rangeDels tw (chunks p (E1 ++ o1))) as [tw1|]; [|done].
    unfold RangeKeys. change (ci_rangeKeyFrag (_ <| ci_tombstones := [] |>)) with (ci_rangeKeyFrag i).
    rewrite B1, bind_Ret.
    match goal with |- context [with_rangeKeyFrag ?j f2] => rewrite (with_rangeKeyFrag_eq j f2 o2 B2), bind_Ret end.
    change (ci_rangeKeys (_ <| ci_rangeKeyFrag := f2 |> <| ci_rangeKeys := ?x |>)) with x.
    change (ci_rangeKeys (_ <| ci_tombstones := [] |>)) with (ci_rangeKeys i).
    rewrite T2. unfold rchunks in *. rewrite <- filter_app.
    destruct (add_rangeKeys tw1 _) as [t1|]; [destruct Hcode as (meta & -> & ->)|subst o]; by destruct i.
  - by rewrite A2, A3, <- app_assoc.
  - intros k Hk. destruct (A8 k Hk) as (H1 & _ & H2). split; [done|]. by rewrite A2, A3, <- app_assoc in H2.
  - by rewrite B2, B3, <- app_assoc.
  - intros k Hk. destruct (B8 k Hk) as (H1 & _ & H2). split; [done|]. by rewrite B2, B3, <- app_assoc in H2.
Qed.
End finish.
