(* ===== verification/CompactionSpec.v ===== *)
(** What a compaction promises: it ends, its tables are in order, every reader finds the same
    values in them as in the input, and range keys are kept. *)
From stdpp Require Import sorting.
From S2P Require Import Prelude.
From S2P Require Import Comparer.
From S2P Require Import InternalKey.
From S2P Require Import GoStd.
From S2P Require Import Keyspan.
From S2P Require Import KeyspanSpec.
From S2P Require Import RangeKey.
From S2P Require Import Merger.
From S2P Require Import CompactionIter.
From S2P Require Import CompactionStep.
From S2P Require Import CompactionNext.
From S2P Require Import CompactionOps.
From S2P Require Import CompactionLoop.
From S2P Require Import Splitter.
From S2P Require Import Compaction.
From S2P Require Import CompactionRun.
From S2P Require Import CompactionOutput.
From S2P Require Import CompactionFinish.
From Stdlib Require Import Sorted.

Local Open Scope Z_scope.

(** * Eliding tombstones *)
Section elide.
Context {C : Comparer} {L : ComparerLaws C} (c : compaction).

(** The key ranges in use are in order. *)
Record ranges_ok (ranges : list UserKeyRange) : Prop := {
  rg_order : StronglySorted (fun a b => Compare (ur_End a) (ur_Start b) = Lt) ranges;
  rg_ranges : Forall (fun r => Compare (ur_Start r) (ur_End r) <> Gt) ranges;
}.
Definition in_use (k : bytes) : Prop :=
  Exists (fun r => Compare (ur_Start r) k <> Gt /\ Compare k (ur_End r) <> Gt) (cp_inuseKeyRanges c).
Context (Hr : ranges_ok (cp_inuseKeyRanges c)).

(** A point tombstone is elided only if its key is not in use; also if the search starts
    at a range that the keys have reached. *)
Lemma elide_ranges_ok ranges k : forall index, ranges_ok ranges ->
  snd (elide_ranges index ranges k) = true <->
  ~ Exists (fun r => Compare (ur_Start r) k <> Gt /\ Compare k (ur_End r) <> Gt) ranges.
Proof.
  induction ranges as [|r ranges IH]; intros index [H1 H2]; cbn [elide_ranges].
  { split; [|done]. intros _ H. by apply Exists_nil in H. }
  apply StronglySorted_inv in H1 as [H1 H3]. apply Forall_cons in H2 as [H2 H4].
  case_bool_decide as Hk.
  - rewrite IH by done. rewrite Exists_cons. tauto.
  - cbn [snd]. rewrite bool_decide_eq_true, Exists_cons. split.
    + intros Hlt [[Ha _]|Hex]; [by apply compare_gt_lt in Hlt|]. apply Exists_exists in Hex as (r' & Hr' & Ha & _).
      rewrite Forall_forall in H3. specialize (H3 r' Hr').
      pose proof (compare_lt_le_trans _ _ _ (compare_lt_le_trans _ _ _ Hlt H2) ltac:(by rewrite H3)) as Hc.
      by apply compare_gt_lt in Hc.
    + intros Hn. destruct (Compare k (ur_Start r)) eqn:E; [|done|]; exfalso; apply Hn; left; (split; [|done]).
      * apply compare_eq in E as ->. by rewrite compare_refl.
      * apply compare_gt_lt in E. by rewrite E.
Qed.
Lemma elideTombstone_ok k : compaction_elideTombstone c k = true -> cp_flushing c = false /\ ~ in_use k.
Proof.
  unfold compaction_elideTombstone, elideTombstone_from. destruct (cp_flushing c); [by rewrite orb_true_r|].
  destruct (cp_inuseEntireRange c); [done|]. cbn [orb]. rewrite drop_0. intros H. split; [done|].
  by apply (elide_ranges_ok _ _ 0).
Qed.

(** The ranges before [elideTombstoneIndex] do not matter for keys that come later: asking
    with the index that an earlier key left is asking from the start. *)
Lemma elide_ranges_index ranges k1 k2 : Compare k1 k2 <> Gt -> forall index,
  exists n, fst (elide_ranges index ranges k1) = (index + n)%nat /\
    elide_ranges index ranges k2 = elide_ranges (index + n) (drop n ranges) k2.
Proof.
  intros Hk. induction ranges as [|r ranges IH]; intros index; cbn [elide_ranges].
  { exists 0%nat. by rewrite Nat.add_0_r. }
  case_bool_decide as H1.
  - destruct (IH (Datatypes.S index)) as (n & E1 & E2). exists (Datatypes.S n). rewrite E1, <- Nat.add_succ_comm. split; [done|].
    rewrite bool_decide_eq_true_2; [exact E2|]. apply compare_gt_lt. apply compare_gt_lt in H1.
    exact (compare_lt_le_trans _ _ _ H1 Hk).
  - exists 0%nat. rewrite Nat.add_0_r, drop_0. done.
Qed.
Lemma elideTombstone_index index k1 k2 : Compare k1 k2 <> Gt ->
  elideTombstone_from c (fst (elideTombstone_from c index k1)) k2 = elideTombstone_from c index k2.
Proof.
  intros Hk. unfold elideTombstone_from. destruct (cp_inuseEntireRange c || cp_flushing c); [done|].
  destruct (elide_ranges_index (drop index (cp_inuseKeyRanges c)) k1 k2 Hk index) as (n & -> & ->).
  by rewrite drop_drop.
Qed.

(** ** Range tombstones *)
Abbreviation range i := (nth i (cp_inuseKeyRanges c) (mkUserKeyRange [] [])).
Lemma range_lt x y : (x < y < length (cp_inuseKeyRanges c))%nat -> Compare (ur_End (range x)) (ur_Start (range y)) = Lt.
Proof.
  destruct Hr as [Ho _]. revert x y Ho. generalize (cp_inuseKeyRanges c). intros l x y Ho. revert x y.
  induction Ho as [|r l Hs IH Hf]; intros x y Hxy; cbn in Hxy; [lia|].
  destruct y as [|y]; [lia|]. destruct x as [|x]; cbn.
  - rewrite Forall_forall in Hf. apply Hf. apply list_elem_of_In, nth_In. lia.
  - apply IH. lia.
Qed.
Lemma range_order x : (x < length (cp_inuseKeyRanges c))%nat -> Compare (ur_Start (range x)) (ur_End (range x)) <> Gt.
Proof. intros Hx. destruct Hr as [_ H]. rewrite Forall_forall in H. apply H. by apply list_elem_of_In, nth_In. Qed.
Lemma range_ends x y : (x <= y < length (cp_inuseKeyRanges c))%nat ->
  Compare (ur_End (range x)) (ur_End (range y)) <> Gt /\ Compare (ur_Start (range x)) (ur_Start (range y)) <> Gt.
Proof.
  intros Hxy. destruct (decide (x = y)) as [->|Hne]; [by rewrite !compare_refl|].
  pose proof (range_lt x y ltac:(lia)) as Hlt. split.
  - by rewrite (compare_lt_le_trans _ _ _ Hlt (range_order y ltac:(lia))).
  - by rewrite (compare_le_lt_trans _ _ _ (range_order x ltac:(lia)) Hlt).
Qed.

Definition lower (start : bytes) : nat :=
  sort_Search (length (cp_inuseKeyRanges c)) (fun i => bool_decide (Compare (ur_End (range i)) start <> Lt)).
Definition upper (end_ : bytes) : nat :=
  sort_Search (length (cp_inuseKeyRanges c)) (fun i => bool_decide (Compare (ur_Start (range i)) end_ = Gt)).
Lemma lower_ok start : (lower start <= length (cp_inuseKeyRanges c))%nat /\
  forall x, (x < length (cp_inuseKeyRanges c))%nat ->
    (lower start <= x)%nat <-> Compare (ur_End (range x)) start <> Lt.
Proof.
  destruct (sort_Search_spec (length (cp_inuseKeyRanges c)) (fun i => bool_decide (Compare (ur_End (range i)) start <> Lt)))
    as (H1 & H2 & H3).
  { intros x y Hxy. rewrite !bool_decide_eq_true, !compare_not_lt. intros Hx.
    exact (compare_le_trans _ _ _ Hx (proj1 (range_ends x y Hxy))). }
  split; [done|]. intros x Hx. fold (lower start) in *. split.
  - intros Hle. apply (bool_decide_eq_true_1 _), H3. lia.
  - intros Hc. destruct (decide (x < lower start)%nat) as [Hlt|]; [|lia]. specialize (H2 x Hlt).
    by apply bool_decide_eq_false in H2.
Qed.
Lemma upper_ok end_ : (upper end_ <= length (cp_inuseKeyRanges c))%nat /\
  forall x, (x < length (cp_inuseKeyRanges c))%nat ->
    (upper end_ <= x)%nat <-> Compare (ur_Start (range x)) end_ = Gt.
Proof.
  destruct (sort_Search_spec (length (cp_inuseKeyRanges c)) (fun i => bool_decide (Compare (ur_Start (range i)) end_ = Gt)))
    as (H1 & H2 & H3).
  { intros x y Hxy. rewrite !bool_decide_eq_true, !compare_gt_lt. intros Hx.
    exact (compare_lt_le_trans _ _ _ Hx (proj2 (range_ends x y Hxy))). }
  split; [done|]. intros x Hx. fold (upper end_) in *. split.
  - intros Hle. apply (bool_decide_eq_true_1 _), H3. lia.
  - intros Hc. destruct (decide (x < upper end_)%nat) as [Hlt|]; [|lia]. specialize (H2 x Hlt).
    by apply bool_decide_eq_false in H2.
Qed.

(** Range tombstones are elided only if no key that they contain is in use. *)
Lemma elideRange_ok start end_ : compaction_elideRangeTombstone c start end_ = true ->
  cp_flushing c = false /\
  (forall k, Compare start k <> Gt -> Compare k end_ = Lt -> ~ in_use k) /\
  forall s e, Compare start s <> Gt -> Compare e end_ <> Gt -> compaction_elideRangeTombstone c s e = true.
Proof.
  unfold compaction_elideRangeTombstone. destruct (cp_disableSpanElision c); [done|].
  destruct (cp_flushing c); [done|]. cbn [orb]. intros Hul. apply Nat.leb_le in Hul.
  fold (lower start) (upper end_) in Hul. split; [done|]. split.
  - intros k Hs He (r & Hin & Ha & Hb)%Exists_exists.
    apply list_elem_of_In, (In_nth _ _ (mkUserKeyRange [] [])) in Hin as (x & Hx & <-).
    assert (lower start <= x)%nat.
    { apply lower_ok; [done|]. rewrite compare_not_lt. by eapply compare_le_trans. }
    assert (upper end_ <= x)%nat as Hux by lia. apply upper_ok in Hux; [|done]. apply compare_gt_lt in Hux.
    pose proof (compare_lt_le_trans _ _ _ (compare_le_lt_trans k end_ _ ltac:(by rewrite He) Hux) ltac:(by rewrite compare_refl)) as Hlt.
    by apply compare_gt_lt in Hlt.
  - intros s e Hs He. apply Nat.leb_le. fold (lower s) (upper e).
    destruct (lower_ok s) as [L1 L2], (upper_ok e) as [U1 U2], (lower_ok start) as [L3 L4], (upper_ok end_) as [U3 U4].
    destruct (decide (lower s < length (cp_inuseKeyRanges c))%nat) as [Hl|]; [|lia].
    apply U2; [done|]. assert (lower start <= lower s)%nat as H1.
    { apply L4; [done|]. rewrite compare_not_lt.
      pose proof (proj1 (L2 _ Hl) ltac:(lia)) as H. rewrite compare_not_lt in H. by eapply compare_le_trans. }
    assert (upper end_ <= lower s)%nat as H2 by lia. apply U4 in H2; [|done].
    apply compare_gt_lt. apply compare_gt_lt in H2. exact (compare_le_lt_trans _ _ _ He H2).
Qed.
End elide.

(** * The loop *)
Section loop.
Context {C : Comparer} {L : ComparerLaws C} {M : Merge} {ML : MergeLaws M} {So : Sort} {SoL : SortLaws So}.
Context {Sp : Splitter} {SpL : SplitterLaws Sp} (EstimatedSize : table -> Z).
Context (c : compaction) (p : params) (Hsnaps : snaps_ok (snapshots p)) (input : list item) (Hin : input_ok input).
Context (B : bytes -> list op) (Helide : forall k, elideTombstone p k = true -> B k = []).
Context (Hrange : Forall (in_range c) input).
Abbreviation hi := (cp_largest c).
Abbreviation Inv := (Inv p input B hi).
Abbreviation frags := (frags p hi).
Abbreviation frag_inv := (frag_inv hi).
Abbreviation filled := (filled p input B hi).
Abbreviation step_ok := (step_ok (snapshots p) (tombs input) B).
Abbreviation out := (item * (InternalKey * bytes))%type.
Abbreviation tables := (list (table * fileMetadata)).

(** ** Moving the state to the next output *)
Lemma Inv_relimit i r done rest outs cm lim lo W WK lim' :
  Inv i r done rest outs cm lim lo W WK ->
  (forall q x, not_ahead (rest ++ cm_items cm) lim q -> lim' = Some x -> Compare q x <> Gt) ->
  Inv i r done rest outs cm lim' lo W WK.
Proof.
  intros [] Hq. split; try done. eapply frags_impl; [|done]. intros q Hn. split; [apply Hn|]. intros x Hx. by eapply Hq.
Qed.

Lemma Inv_next_output i f1 f2 r done rest outs cm lim lim' lo W WK F1 F2 k ot :
  Inv i r done rest outs cm lim lo W WK -> split_at k r rest ot cm lim ->
  flushed c (del_spans done) f1 W F1 lo (Some k) -> flushed c (key_spans done) f2 WK F2 lo (Some k) ->
  (forall x, lim' = Some x -> Compare k x <> Gt) ->
  Inv (flushed_iter i f1 f2) r done rest outs cm lim' k (W ++ F1) (WK ++ F2).
Proof.
  intros [I1 I2 I3 I4 I5 I6 I7 I8 I9 I10] Hk [_ _ _ G1 _] [_ _ _ G2 _] Hlim.
  assert (pending (flushed_iter i f1 f2) = pending i) as Hp by (by destruct i).
  assert (ready p i -> ready p (flushed_iter i f1 f2)) as Hr by apply ready_frags.
  assert (not_ahead (rest ++ cm_items cm) lim' k) as Hna by (split; [apply Hk|done]).
  split; try done.
  - inversion I3; subst; [by apply stand_end|rewrite <- Hp; apply stand_span; auto|rewrite <- Hp; apply stand_point; auto].
  - destruct (G1 k eq_refl) as [_ H1], (G2 k eq_refl) as [_ H2].
    split; exists []; (split; [done|]); (eapply frag_inv_impl; [|first [exact H1|exact H2]]); by intros q <-.
  - apply Hk.
Qed.

(** ** Where the next output starts *)
Definition first_key (i : compactionIter) (r : returned) : option bytes :=
  match r with
  | Some (key, _) => Some (UserKey key)
  | None => Fragmenter_Start (ci_rangeDelFrag i)
  end.

Lemma start_pos spans cuts q f k : FInv spans cuts q q f -> Fragmenter_Start f = Some k -> k = q.
Proof.
  intros Hf. unfold Fragmenter_Start. destruct (f_pending f) as [|s l] eqn:Ep; [done|]. intros [= <-].
  pose proof (fi_group _ _ _ _ _ Hf) as Hg. rewrite Ep in Hg. by apply Forall_cons in Hg as [[? _] _].
Qed.
(** The first span that is not written is not after the pending ones. *)
Lemma first_start_le i done lo W WK Q k : frags i done lo W WK Q -> Fragmenter_Start (ci_rangeDelFrag i) = Some k ->
  exists q, q = k /\ Q q /\ Compare lo k <> Gt /\
    (ci_tombstones i = [] /\ first_start i = Some k \/
     exists x, first_start i = Some x /\ Compare x k = Lt).
Proof.
  intros [(E1 & T1 & cuts & q & F1 & F2 & F3 & F4 & F5 & F6 & _) _] Hs.
  pose proof (start_pos _ _ _ _ _ F1 Hs) as ->. exists q. split; [done|]. split; [done|]. split; [done|].
  unfold first_start. rewrite Hs. destruct (ci_tombstones i) as [|s l] eqn:Et; [by left|right].
  exists (sp_Start s). split; [done|]. destruct (chunks_in p s E1) as (s' & Hs' & -> & _); [rewrite <- T1; left|].
  pose proof (chain_ends _ _ F3) as He. rewrite Forall_forall in He.
  eapply compare_lt_le_trans; [|exact (compare_le_trans _ _ _ (He s' Hs') F5)].
  clear -F3 Hs'. revert lo F3. induction E1 as [|s0 E1 IH]; intros lo; [by apply elem_of_nil in Hs'|].
  intros (_ & H2 & _ & H4). apply elem_of_cons in Hs' as [->|Hs']; [done|]. by eapply IH.
Qed.

(** ** Tables that are written *)
Definition table_ok (tm : table * fileMetadata) : Prop :=
  snd tm = table_meta (fst tm) /\ Validate (snd tm) = None /\ Forall (within (snd tm)) (tb_points (fst tm)).
(** The second table is after the first: their user keys do not overlap. *)
Definition table_lt (a b : table * fileMetadata) : Prop :=
  ends_before (fm_Largest (snd a)) (UserKey (fm_Smallest (snd b))).
Definition tables_before (lo : bytes) (tabs : tables) : Prop :=
  Forall (fun tm => ends_before (fm_Largest (snd tm)) lo) tabs.
Record stored (outs : list out) (W WK : list Span) (tabs : tables) : Prop := {
  st_points : concat (tb_points ∘ fst <$> tabs) = snd <$> outs;
  st_dels : concat (tb_rangeDels ∘ fst <$> tabs) = encs (chunks p W);
  st_keys : concat (tb_rangeKeys ∘ fst <$> tabs) = rchunks WK;
  st_tables : Forall table_ok tabs;
  st_order : StronglySorted table_lt tabs;
}.
Lemma stored_made outs ot W WK F1 F2 lo K tabs o :
  stored outs W WK tabs -> tables_before lo tabs -> made c p (snd <$> ot) F1 F2 lo K o ->
  stored (outs ++ ot) (W ++ F1) (WK ++ F2) (tabs ++ o) /\
  forall k, K = Some k -> Compare lo k <> Gt -> tables_before k (tabs ++ o).
Proof.
  intros [S1 S2 S3 S4 S5] Hb [M1 M2 M3 M4 M5]. split.
  - split.
    + by rewrite !fmap_app, concat_app, S1, M1.
    + by rewrite fmap_app, concat_app, S2, M2, chunks_app, encs_app.
    + unfold rchunks in *. by rewrite fmap_app, concat_app, S3, M3, filter_app.
    + apply Forall_app. split; [done|]. eapply Forall_impl; [exact M4|]. intros tm (H1 & H2 & H3 & _). done.
    + apply StronglySorted_app_2; [|done|].
      * intros a b Ha Hb'. unfold tables_before in Hb. rewrite Forall_forall in Hb, M4.
        destruct (M4 b Hb') as (_ & _ & _ & [_ H _ _ _]). exact (ends_before_mono _ _ _ (Hb a Ha) H).
      * destruct o as [|a [|a2 o]]; cbn in M5; [constructor|constructor; constructor|lia].
  - intros k -> Hk. apply Forall_app. split.
    + eapply Forall_impl; [exact Hb|]. intros tm H. exact (ends_before_mono _ _ _ H Hk).
    + eapply Forall_impl; [exact M4|]. intros tm (_ & _ & _ & [_ _ H _ _]). by apply H.
Qed.

(** The result of a compaction. *)
Record compacted (tabs : tables) : Prop := {
  cd_points : exists outs, step_ok input (orig <$> outs) [] /\ Forall (out_ok p input) outs /\
    StronglySorted out_lt outs /\ concat (tb_points ∘ fst <$> tabs) = snd <$> outs;
  cd_dels : exists W, chain [] W /\ (forall x, at_key x W ≡ₚ at_key x (del_spans input)) /\
    Forall (below_hi hi) W /\ concat (tb_rangeDels ∘ fst <$> tabs) = encs (chunks p W);
  cd_keys : exists WK, chain [] WK /\ (forall x, at_key x WK ≡ₚ at_key x (key_spans input)) /\
    concat (tb_rangeKeys ∘ fst <$> tabs) = rchunks WK;
  cd_tables : Forall table_ok tabs;
  cd_order : StronglySorted table_lt tabs;
}.
(** ** One output *)
Record LInv (i : compactionIter) (s : splitter) (r : returned) (done rest : list item) (outs cm : list out)
    (lo : bytes) (W WK : list Span) (tabs : tables) : Prop := {
  lv_inv lim : (forall x, lim = Some x -> exists k, first_key i r = Some k /\ Compare k x = Lt) ->
    Inv i r done rest outs cm lim lo W WK;
  lv_split : split_inv s;
  lv_stored : stored outs W WK tabs;
  lv_before : tables_before lo tabs;
}.

Lemma empty_emitted f spans lo W E Q : frag_inv spans f lo W E Q -> Fragmenter_Empty f = true ->
  E = [] /\ chain [] W /\ (forall x, at_key x W ≡ₚ at_key x spans) /\ Forall (below_hi hi) W.
Proof.
  intros (cuts & q & F1 & F2 & _ & _ & _ & _ & [_ F7] & F8) He. unfold Fragmenter_Empty in He.
  rewrite (fi_finished _ _ _ _ _ F1) in He. destruct (f_pending f) as [|] eqn:Ep; [|done].
  specialize (F8 eq_refl) as ->. rewrite app_nil_r in F2. rewrite <- F2. split; [done|]. split; [apply F1|].
  split; [|done]. intros x. pose proof (fi_at _ _ _ _ _ F1 x) as Hx. rewrite Ep in Hx. by rewrite app_nil_r in Hx.
Qed.

(** The loop ends when there is nothing left. *)
Lemma loop_end i s done rest outs cm lo W WK tabs :
  LInv i s None done rest outs cm lo W WK tabs ->
  Fragmenter_Empty (ci_rangeDelFrag i) = true -> Fragmenter_Empty (ci_rangeKeyFrag i) = true ->
  ci_err i = None /\ closer_ok i /\ compacted tabs.
Proof.
  intros [H1 _ [S1 S2 S3 S4 S5] _] E1 E2. destruct (H1 None ltac:(done)) as [I1 I2 I3 I4 I5 I6 I7 [(X1 & _ & G1) (X2 & _ & G2)] _ _].
  inversion I3; subst rest cm. rewrite app_nil_r in *.
  destruct (empty_emitted _ _ _ _ _ _ G1 E1) as (_ & P1 & P2 & P3).
  destruct (empty_emitted _ _ _ _ _ _ G2 E2) as (_ & Q1 & Q2 & _). rewrite <- I1 in P2, Q2.
  split; [done|]. split; [done|]. split; try done; [by exists outs|by exists W|by exists WK].
Qed.

Lemma prev_before lo tabs m : tables_before lo tabs -> snd <$> last tabs = Some m -> ends_before (fm_Largest m) lo.
Proof.
  intros Hb. destruct (last tabs) as [[t m']|] eqn:El; [|done]. intros [= <-].
  apply last_Some in El as [l ->]. apply Forall_app in Hb as [_ [Hb _]%Forall_cons]. done.
Qed.

(** After filling an output: nothing is written, or it ends at a key, or it is the last. *)
Inductive finished_at (i : compactionIter) (s : splitter) (tw : option table) (r : returned) (done rest : list item)
    (outs ot cm : list out) (lim : option bytes) (lo : bytes) (W WK : list Span) (tabs : tables)
    : go (result (compactionIter * option (table * fileMetadata))) -> Prop :=
| fin_early :
    tw = None -> split_of r lim = Some (default [] (first_start i)) ->
    LInv i s r done rest outs cm lo W WK tabs ->
    finished_at i s tw r done rest outs ot cm lim lo W WK tabs (Ret (Ok (i, None)))
| fin_split i' o k W' WK' :
    split_of r lim = Some k -> Compare lo k <> Gt ->
    LInv i' s r done rest (outs ++ ot) cm k W' WK' (tabs ++ option_list o) ->
    finished_at i s tw r done rest outs ot cm lim lo W WK tabs (Ret (Ok (i', o)))
| fin_last i' o :
    r = None -> Fragmenter_Empty (ci_rangeDelFrag i') = true -> Fragmenter_Empty (ci_rangeKeyFrag i') = true ->
    ci_err i' = None -> closer_ok i' -> compacted (tabs ++ option_list o) ->
    finished_at i s tw r done rest outs ot cm lim lo W WK tabs (Ret (Ok (i', o))).

Lemma early_LInv i s r done rest outs cm lim lo W WK tabs :
  Inv i r done rest outs cm lim lo W WK -> split_inv s -> stored outs W WK tabs -> tables_before lo tabs ->
  split_of r lim = Some (default [] (first_start i)) -> LInv i s r done rest outs cm lo W WK tabs.
Proof.
  intros HI Hs Hst Hb Hk. split; try done. intros lim' Hlim'. apply (Inv_relimit _ _ _ _ _ _ lim); [done|].
  intros q x Hq Hx. destruct (Hlim' x Hx) as (k & Hf & Hlt). destruct r as [[key v]|]; cbn in Hf.
  - injection Hf as <-. destruct (returned_first c p input Hin B _ _ _ _ _ _ _ _ _ _ _ HI) as [(y & Hy & Hyu) _].
    destruct Hq as [Hq _]. rewrite Forall_forall in Hq. rewrite (compare_le_lt_trans q (UserKey key) x); [done| |done].
    rewrite <- Hyu. by apply Hq.
  - cbn in Hk. destruct (first_start_le _ _ _ _ _ _ _ (iv_frags _ _ _ _ _ _ _ _ _ _ _ _ _ _ HI) Hf)
      as (q0 & -> & [_ Hq0] & _ & [[_ E]|(z & E & Hz)]); rewrite E in Hk; cbn in Hk.
    + destruct Hq as [_ Hq]. rewrite (compare_le_lt_trans _ _ _ (Hq k Hk) Hlt). done.
    + specialize (Hq0 z Hk). apply compare_gt_lt in Hz. done.
Qed.

Lemma finish_ok i s tw r done rest outs ot cm lim lo W WK tabs :
  filled i s tw r done rest outs ot cm lim lo W WK -> lim <> Some [] ->
  stored outs W WK tabs -> tables_before lo tabs ->
  finished_at i s tw r done rest outs ot cm lim lo W WK tabs
    (finishOutput c p i tw (snd <$> last tabs) (split_of r lim)).
Proof.
  intros HF Hl Hst Hb. pose proof HF as [F1 F2 F3 F4 F5 F6 F7].
  destruct (finishOutput_ok c p Hsnaps input Hin B Hrange i s tw r done rest outs ot cm lim lo W WK (snd <$> last tabs) HF Hl
    (fun m => prev_before lo tabs m Hb)) as [(-> & Hk & ->)|(f1 & f2 & G1 & G2 & o & -> & Hm & A1 & A2)].
  { apply fin_early; [done|done|]. simpl in F2. subst ot. rewrite app_nil_r in F1. by apply (early_LInv _ _ _ _ _ _ _ lim). }
  destruct (stored_made _ _ _ _ _ _ _ _ _ _ Hst Hb Hm) as [Hst' Hb'].
  destruct (split_of r lim) as [k|] eqn:Hk.
  - pose proof (split_of_ok c p input Hin B _ _ _ _ _ _ _ _ _ _ _ _ _ k HF Hl Hk) as Hsa.
    destruct (fl_split _ _ _ _ _ _ _ A1 k eq_refl) as [Hlo (cuts & q & X1 & _ & _ & _ & _ & <- & _)].
    apply (fin_split _ _ _ _ _ _ _ _ _ _ _ _ _ _ _ _ k (W ++ G1) (WK ++ G2)); [done|done|].
    split; [|done|done|by apply Hb']. intros lim' Hlim'.
    apply (Inv_next_output i f1 f2 r done rest _ cm lim lim' lo W WK G1 G2 k ot); try done.
    intros x Hx. destruct (Hlim' x Hx) as (k' & Hf & Hlt). destruct r as [[key v]|]; cbn in Hf.
    + injection Hf as <-. pose proof (sa_key _ _ _ _ _ _ Hsa key v eq_refl) as Hle.
      by rewrite (compare_le_lt_trans _ _ _ Hle Hlt).
    + rewrite (start_pos _ _ _ _ k' X1 Hf) in Hlt. by rewrite Hlt.
  - apply split_of_None in Hk as [-> ->]. destruct A1 as [Y1 Y2 [_ Y0] _ Y3], A2 as [Z1 Z2 _ _ Z3].
    destruct (Y3 eq_refl) as [Y4 Y5], (Z3 eq_refl) as [Z4 Z5].
    destruct F1 as [I1 I2 I3 I4 I5 I6 _ _ _ _]. inversion I3; subst rest cm. rewrite app_nil_r in *.
    apply fin_last; try done; [unfold Fragmenter_Empty; cbn; by rewrite ?Y4, ?Z4..|].
    destruct Hst' as [S1 S2 S3 S4 S5]. rewrite <- I1, Y1 in Y5. rewrite <- I1, Z1 in Z5. rewrite Y1 in Y2, Y0. rewrite Z1 in Z2.
    split; try done; [by exists (outs ++ ot)| |by exists (WK ++ G2)]. by exists (W ++ G1).
Qed.
(** ** The loop *)

(** The limits that are left after [lo]. *)
Definition above (lo : bytes) : nat := length (filter (fun x => Compare lo x = Lt) limits).
Lemma filter_above_mono lo k (l : list bytes) : Compare lo k <> Gt ->
  (length (filter (fun x => Compare k x = Lt) l) <= length (filter (fun x => Compare lo x = Lt) l))%nat.
Proof.
  intros Hk. induction l as [|x l IH]; [done|]. rewrite !filter_cons.
  destruct (decide (Compare k x = Lt)) as [H1|H1], (decide (Compare lo x = Lt)) as [H2|H2]; cbn [length]; try lia.
  exfalso. apply H2. exact (compare_le_lt_trans _ _ _ Hk H1).
Qed.
Lemma limits_above_mono lo k : Compare lo k <> Gt -> (above k <= above lo)%nat.
Proof. apply filter_above_mono. Qed.
Lemma above_lt lo k : k ∈ limits -> Compare lo k = Lt -> (above k < above lo)%nat.
Proof.
  intros (l1 & l2 & Hl)%list_elem_of_split Hk. unfold above. rewrite Hl, !filter_app, !length_app, !filter_cons.
  rewrite decide_False by (by rewrite compare_refl). rewrite decide_True by done. cbn [length].
  assert (Compare lo k <> Gt) as Hle by (by rewrite Hk).
  pose proof (filter_above_mono lo k l1 Hle). pose proof (filter_above_mono lo k l2 Hle). lia.
Qed.

Lemma input_spans : Forall (fun e => ~ point e -> below_hi hi (it_span e)) input.
Proof. eapply Forall_impl; [exact Hrange|]. by intros e []. Qed.
Lemma stand_length i r rest cm : stand p i r rest cm -> (length (rest ++ cm_items cm) <= 2 + length (ci_iter i))%nat.
Proof.
  intros Hs. assert (length (pending i) <= 1 + length (ci_iter i))%nat as Hp.
  { unfold pending, cur. destruct (ci_pos i); [lia|]. destruct (ci_iterKey i); cbn; lia. }
  inversion Hs; subst; rewrite length_app; cbn; lia.
Qed.

(** An output starts. *)
Lemma fill_ok i s r done rest outs cm lo W WK tabs s1 lim :
  LInv i s r done rest outs cm lo W WK tabs -> onNewOutput s (first_key i r) = (s1, lim) ->
  lim <> Some [] /\ (forall x, lim = Some x -> x ∈ limits /\ exists k, first_key i r = Some k /\ Compare k x = Lt) /\
  exists i' s' tw' r' done' rest' ot' cm',
    output_loop EstimatedSize p (3 + length (ci_iter i)) i s1 None r = Ret (Ok (i', s', tw', r')) /\
    filled i' s' tw' r' done' rest' outs ot' cm' lim lo W WK /\
    (length (rest' ++ cm_items cm') <= length (rest ++ cm_items cm))%nat /\
    (r <> None -> (length (rest' ++ cm_items cm') < length (rest ++ cm_items cm))%nat) /\
    (r = None -> i' = i /\ tw' = None /\ r' = None).
Proof.
  intros [V1 V2 V3 V4] Hn. destruct (onNewOutput_ok _ _ _ _ V2 Hn) as [Ho Hlim].
  assert (lim <> Some []) as Hl.
  { intros ->. destruct (Hlim [] eq_refl) as (_ & k & _ & Hk). apply compare_gt_lt in Hk. by destruct (compare_nil_le k). }
  split; [done|]. split; [done|].
  assert (Inv i r done rest outs cm lim lo W WK) as HI by (apply V1; intros x Hx; by destruct (Hlim x Hx)).
  assert (at_split s1 r lim None) as Hat.
  { destruct r as [[key v]|]; [by apply (at_first _ _ _ _ s key v)|by apply (at_later _ _ _ _ s1)]. }
  rewrite <- (app_nil_r outs) in HI.
  destruct (output_loop_ok EstimatedSize p Hsnaps input Hin B Helide hi input_spans (3 + length (ci_iter i)) i s1 None r
    done rest outs [] cm lim lo W WK HI eq_refl Hat) as (i' & s' & tw' & r' & done' & rest' & ot' & cm' & E & Hfd & Hle & Hlt);
    [constructor|constructor|done| |].
  { pose proof (stand_length _ _ _ _ (iv_stand _ _ _ _ _ _ _ _ _ _ _ _ _ _ HI)). lia. }
  exists i', s', tw', r', done', rest', ot', cm'. split; [done|]. split; [done|]. split; [done|]. split.
  - intros Hr. apply Hlt; [done|done|]. destruct r as [[key v]|]; [|done]. exists s, (UserKey key). done.
  - intros ->. cbn in E. injection E as <- _ <- <-. done.
Qed.

Lemma compaction_loop_ok fuel : forall i s r done rest outs cm lo W WK tabs,
  LInv i s r done rest outs cm lo W WK tabs ->
  (length (rest ++ cm_items cm) + above lo + 2 <= fuel)%nat ->
  exists i' tabs', compaction_loop EstimatedSize c p fuel i s r tabs = Ret (Ok (i', tabs')) /\
    ci_err i' = None /\ closer_ok i' /\ compacted tabs'.
Proof.
  induction fuel as [|fuel IH]; intros i s r done rest outs cm lo W WK tabs HL Hf; [lia|]. cbn [compaction_loop].
  destruct (bool_decide (r = None) && Fragmenter_Empty (ci_rangeDelFrag i) && Fragmenter_Empty (ci_rangeKeyFrag i)) eqn:Hex.
  { apply andb_true_iff in Hex as [[Hr H1]%andb_true_iff H2]. apply bool_decide_eq_true in Hr as ->.
    exists i, tabs. split; [done|]. by apply (loop_end i s done rest outs cm lo W WK). }
  change (match r with Some (key, _) => Some (UserKey key) | None => Fragmenter_Start (ci_rangeDelFrag i) end)
    with (first_key i r).
  destruct (onNewOutput s (first_key i r)) as [s1 lim] eqn:En.
  destruct (fill_ok _ _ _ _ _ _ _ _ _ _ _ _ _ HL En)
    as (Hl & Hlim & i1 & s2 & tw & r1 & done1 & rest1 & ot & cm1 & -> & HF & Hle & Hlt & Hnone). rewrite bind_Ret.
  change (match r1, lim with
          | Some (key, _), None => Some (UserKey key)
          | Some (key, _), Some k => Some (if bool_decide (Compare k (UserKey key) = Gt) then UserKey key else k)
          | None, k => k
          end) with (split_of r1 lim).
  destruct HL as [V1 V2 V3 V4].
  destruct (finish_ok i1 s2 tw r1 done1 rest1 outs ot cm1 lim lo W WK tabs HF Hl V3 V4)
    as [Htw Hk HL'|i2 o k W' WK' Hk Hlo HL'|i2 o Hr E1 E2 He Hc Hcd]; rewrite bind_Ret.
  - rewrite app_nil_r. apply (IH i1 s2 r1 done1 rest1 outs cm1 lo W WK); [done|].
    destruct r as [kv|]; [specialize (Hlt ltac:(done)); lia|]. exfalso. destruct (Hnone eq_refl) as (-> & _ & ->).
    cbn in Hk. destruct (Hlim _ Hk) as (_ & k & Hs & Hkx). cbn in Hs.
    assert (Inv i None done rest outs cm None lo W WK) as HI by (by apply V1).
    destruct (first_start_le _ _ _ _ _ _ _ (iv_frags _ _ _ _ _ _ _ _ _ _ _ _ _ _ HI) Hs)
      as (_ & _ & _ & _ & [[_ E]|(z & E & Hz)]); rewrite E in Hkx; cbn in Hkx; [by rewrite compare_refl in Hkx|].
    apply compare_gt_lt in Hz. by rewrite Hz in Hkx.
  - apply (IH i2 s2 r1 done1 rest1 (outs ++ ot) cm1 k W' WK'); [done|]. pose proof (limits_above_mono lo k Hlo).
    destruct r as [kv|]; [specialize (Hlt ltac:(done)); lia|]. destruct (Hnone eq_refl) as (-> & _ & ->). cbn in Hk.
    destruct (Hlim k Hk) as (Hkl & k0 & Hs & Hkx). cbn in Hs.
    assert (Inv i None done rest outs cm None lo W WK) as HI by (by apply V1).
    destruct (first_start_le _ _ _ _ _ _ _ (iv_frags _ _ _ _ _ _ _ _ _ _ _ _ _ _ HI) Hs) as (_ & _ & _ & Hlk & _).
    pose proof (above_lt lo k Hkl (compare_le_lt_trans _ _ _ Hlk Hkx)). lia.
  - destruct fuel as [|fuel]; [lia|]. cbn [compaction_loop]. subst r1. rewrite bool_decide_true, E1, E2 by done. cbn.
    exists i2, (tabs ++ option_list o). done.
Qed.

Lemma runCompaction_ok s fuel :
  split_inv s -> (length input + length limits + 2 <= fuel)%nat ->
  exists tabs, runCompaction EstimatedSize c p fuel s input = Ret (Ok tabs) /\ compacted tabs.
Proof.
  intros Hs Hf. unfold runCompaction.
  destruct (First_inv p Hsnaps input Hin B Helide hi) as (i & r & done & rest & cm & -> & HI & Hk & Hlen). rewrite bind_Ret.
  destruct (compaction_loop_ok fuel i (reach s r) r done rest [] cm [] [] [] []) as (i' & tabs & -> & He & Hc & Hcd).
  - split; [|destruct r as [[key v]|]; [by apply advance_inv|done]|by split; try constructor|constructor].
    intros lim Hlim. apply (Inv_relimit _ _ _ _ _ _ None); [done|]. intros q x Hq Hx.
    destruct (Hlim x Hx) as (k & Hf' & Hlt). destruct r as [[key v]|]; cbn in Hf'.
    + injection Hf' as <-. destruct (returned_first c p input Hin B _ _ _ _ _ _ _ _ _ _ _ HI) as [(y & Hy & Hyu) _].
      destruct Hq as [Hq _]. rewrite Forall_forall in Hq. rewrite (compare_le_lt_trans q (UserKey key) x); [done| |done].
      rewrite <- Hyu. by apply Hq.
    + rewrite (kp_frag _ _ Hk) in Hf'. done.
  - assert (above [] <= length limits)%nat by (unfold above; apply length_filter). lia.
  - rewrite bind_Ret. exists tabs. split; [|done]. unfold Close. rewrite He.
    destruct Hc as [Hc|Hc]; cbn; rewrite Hc; done.
Qed.
End loop.

(** * What readers see *)
Definition entry_op (kv : InternalKey * bytes) : op := (Kind (fst kv), snd kv).

(** The operations on [k] that a reader with the snapshot [s] sees, the newest first: those
    of [points] that are not covered by tombstones, and of the levels below. *)
Definition view (T : bytes -> list Z) (B : bytes -> list op) (k : bytes) (s : Z) (points : list (InternalKey * bytes))
    : list op :=
  (entry_op <$> filter (fun kv => alive T k s (fst kv)) points) ++ below T B k s.

Definition points_of (input : list item) : list (InternalKey * bytes) :=
  (fun e => (it_key e, it_val e)) <$> filter point input.
Lemma view_live T B k s input : view T B k s (points_of input) = live T k s input ++ below T B k s.
Proof.
  unfold view, live, points_of. f_equal. induction input as [|e l IH]; [done|]. rewrite !filter_cons.
  destruct (decide (point e)) as [Hp|Hp].
  - rewrite fmap_cons, filter_cons. cbn [fst].
    destruct (decide (alive T k s (it_key e))) as [Ha|Ha].
    + rewrite decide_True by done. rewrite !fmap_cons, IH. done.
    + rewrite decide_False by tauto. exact IH.
  - rewrite decide_False by tauto. exact IH.
Qed.

(** The contents of tables. *)
Definition all_points (tabs : list (table * fileMetadata)) : list (InternalKey * bytes) := concat (tb_points ∘ fst <$> tabs).
Definition all_rangeDels (tabs : list (table * fileMetadata)) : list (InternalKey * bytes) :=
  concat (tb_rangeDels ∘ fst <$> tabs).
Definition all_rangeKeys (tabs : list (table * fileMetadata)) : list Span := concat (tb_rangeKeys ∘ fst <$> tabs).
Definition tombs_of {C : Comparer} (dels : list (InternalKey * bytes)) (k : bytes) : list Z :=
  SeqNum ∘ fst <$> filter (fun d => Compare (UserKey (fst d)) k <> Gt /\ Compare k (snd d) = Lt) dels.

Section views.
Context {C : Comparer} {L : ComparerLaws C}.

Lemma tombs_enc s k : tombs_of (enc s) k = if Contains s k then key_SeqNum <$> sp_Keys s else [].
Proof.
  unfold tombs_of, enc, enc_keys. destruct (Contains s k) eqn:Ec.
  - apply Contains_spec in Ec. induction (sp_Keys s) as [|x l IH]; [done|]. rewrite fmap_cons, filter_cons_True by done.
    rewrite !fmap_cons, IH. done.
  - assert (~ (Compare (sp_Start s) k <> Gt /\ Compare k (sp_End s) = Lt)) as Hn.
    { rewrite <- Contains_spec, Ec. done. }
    induction (sp_Keys s) as [|x l IH]; [done|]. rewrite fmap_cons, filter_cons_False by done. exact IH.
Qed.
Lemma tombs_encs l k : tombs_of (encs l) k = seqs_at l k.
Proof.
  unfold seqs_at. induction l as [|s l IH]; [done|]. rewrite at_key_cons, fmap_app, <- IH.
  unfold encs. cbn [fmap list_fmap concat]. unfold tombs_of at 1. rewrite filter_app, fmap_app. f_equal.
  fold (tombs_of (enc s) k). rewrite tombs_enc. by destruct (Contains s k).
Qed.
Lemma at_key_rchunks x l : at_key x (rchunks l) = at_key x l.
Proof.
  unfold rchunks. induction l as [|s l IH]; [done|]. rewrite filter_cons, at_key_cons.
  case_decide as H; [by rewrite at_key_cons, IH|]. rewrite IH. destruct (sp_Keys s) eqn:Ek; [by destruct (Contains s x)|done].
Qed.

Lemma alive_ext T T' k s key : T k = T' k -> alive T k s key <-> alive T' k s key.
Proof. intros E. unfold alive, dead. by rewrite E. Qed.
Lemma below_ext T T' B k s : T k = T' k -> below T B k s = below T' B k s.
Proof. intros E. unfold below. by rewrite E. Qed.
Lemma view_ext T T' B k s points : T k = T' k -> view T B k s points = view T' B k s points.
Proof.
  intros E. unfold view. rewrite (below_ext T T') by done. f_equal. f_equal. apply list_filter_ext_in.
  intros x _. by apply alive_ext.
Qed.
End views.

(** * Compactions *)
Section compactions.
Context {C : Comparer} {L : ComparerLaws C} {M : Merge} {ML : MergeLaws M} {So : Sort} {SoL : SortLaws So}.
Context (EstimatedSize : table -> Z) (c : compaction) (snaps : list Z) (formatVersion : Z) (input : list item).

(** What the code relies on: the input is sorted and in the range of the compaction, the
    files of the next level and the key ranges in use are in order. *)
Record compaction_input : Prop := {
  cn_snaps : snaps_ok snaps;
  cn_input : input_ok input;
  cn_range : Forall (in_range c) input;
  cn_ranges : ranges_ok (cp_inuseKeyRanges c);
  cn_files : StronglySorted (fun a b => Compare (fl_Smallest a) (fl_Smallest b) = Lt) (cp_grandparents c);
  cn_largest : cp_flushing c = false -> cp_largest c <> None;
}.
(** The levels below have only keys that are in use, unless this is a flush, which never
    elides tombstones. *)
Definition levels_below (B : bytes -> list op) : Prop := cp_flushing c = false -> forall k, B k <> [] -> in_use c k.
Definition compaction_fuel : nat := length input + (length (cp_grandparents c) + length (cp_l0Limits c)) + 2.
Abbreviation p := (compaction_params c snaps formatVersion).

Context (Hc : compaction_input).
Lemma not_in_use B k : levels_below B -> cp_flushing c = false -> ~ in_use c k -> B k = [].
Proof. intros HB Hf Hn. destruct (decide (B k = [])) as [|Hne]; [done|]. by destruct (Hn (HB Hf k Hne)). Qed.
Lemma elide_points B : levels_below B -> forall k, elideTombstone p k = true -> B k = [].
Proof. intros HB k [Hf Hn]%(elideTombstone_ok c (cn_ranges Hc)). by apply not_in_use. Qed.
Lemma elide_spans B : levels_below B ->
  forall s x, elideRangeTombstone p (sp_Start s) (sp_End s) = true -> Contains s x = true -> B x = [].
Proof.
  intros HB s x (Hf & Hn & _)%(elideRange_ok c (cn_ranges Hc)) [H1 H2]%Contains_spec. apply not_in_use; auto.
Qed.
Lemma zero_elides W :
  chain [] W -> (forall x, at_key x W ≡ₚ at_key x (del_spans input)) -> Forall (below_hi (cp_largest c)) W ->
  allowZeroSeqNum p = true -> Forall (fun s => sp_Keys s <> [] -> elideRangeTombstone p (sp_Start s) (sp_End s) = true) W.
Proof.
  intros Hch Hat Hhi (Hf & _ & He)%(elideRange_ok c (cn_ranges Hc)). apply Forall_forall. intros s Hs Hne. apply He.
  - destruct (cp_smallest c) as [k|] eqn:Ek; [|apply compare_nil_le]. cbn.
    apply compare_not_lt. eapply (del_fragment c input (cn_input Hc) (cn_range Hc) input [] W []); try done.
    + by rewrite app_nil_r.
    + intros x k0. by rewrite Hat.
  - rewrite Forall_forall in Hhi. specialize (Hhi s Hs). pose proof (cn_largest Hc Hf) as Hl.
    destruct (cp_largest c) as [h|]; [|done]. by apply Hhi.
Qed.

(** Every reader sees the same in the tables. *)
Lemma compacted_reads B tabs k s :
  compacted c p input B tabs -> levels_below B -> reader snaps s ->
  proper (view (tombs input) B k s (points_of input)) ->
  equiv k (view (tombs input) B k s (points_of input)) (view (tombs_of (all_rangeDels tabs)) B k s (all_points tabs)).
Proof.
  intros [(outs & O1 & O2 & O3 & O4) (W & W1 & W2 & W3 & W4) _ _ _] HB Hs Hp. rewrite view_live in *.
  destruct (O1 k s Hs Hp) as [He _]. rewrite He. clear He.
  assert (tombs_of (all_rangeDels tabs) k = seqs_at (chunks p W) k) as Ht by (unfold all_rangeDels; by rewrite W4, tombs_encs).
  rewrite (view_ext _ _ B k s _ Ht). unfold view.
  assert (forall k t, t ∈ tombs input k <-> t ∈ seqs_at W k) as HT.
  { intros k' t. unfold tombs, seqs_at. by rewrite W2. }
  pose proof (tombs_range input (cn_input Hc)) as Htr.
  pose proof (zero_elides W W1 W2 W3) as Hz.
  rewrite (below_out p (cn_snaps Hc) W (tombs input) B W1 HT Htr (elide_spans B HB) k s Hs).
  unfold all_points. rewrite O4. cbn [live filter list_filter fmap list_fmap app]. change (live _ k s []) with (@nil op). cbn [app].
  enough (live_outs (tombs input) k s (orig <$> outs) =
    entry_op <$> filter (fun kv => alive (seqs_at (chunks p W)) k s (fst kv)) (snd <$> outs)) as -> by done.
  clear -O2 Hs HT Htr Hz W1 W2 W3 HB Hc L. unfold live_outs. induction O2 as [|o outs (Ho1 & Ho2 & Ho3 & Ho4 & Ho5) _ IH]; [done|].
  rewrite !fmap_cons, !filter_cons. change (fst (orig o)) with (it_key (fst o)).
  pose proof (alive_out p (cn_snaps Hc) W (tombs input) B W1 HT Htr (elide_spans B HB) Hz
    (fst o) (fst (snd o)) k s Ho3 Ho2 Ho4 Ho5 Hs) as Hiff.
  destruct (decide (alive (tombs input) k s (it_key (fst o)))) as [Ha|Ha];
    [rewrite decide_True by tauto|rewrite decide_False by tauto]; rewrite ?fmap_cons, IH; done.
Qed.
Lemma run_compacted B splitL0Outputs fuel : levels_below B -> (compaction_fuel <= fuel)%nat ->
  exists tabs, runCompaction (Sp := splitterGroup c) EstimatedSize c p fuel (new_outputSplitters c splitL0Outputs) input = Ret (Ok tabs) /\
    compacted c p input B tabs.
Proof.
  intros HB Hf.
  apply (runCompaction_ok (SpL := splitterGroup_laws c (cn_files Hc)) EstimatedSize c p (cn_snaps Hc) input (cn_input Hc) B
    (elide_points B HB) (cn_range Hc)); [done|].
  unfold compaction_fuel in Hf. cbn. rewrite length_app, length_fmap. lia.
Qed.
End compactions.

(** C1. Compactions preserve what readers see.  Let the merge operator return no errors and
    never delete ([MergeLaws]), the input be sorted and in the range of the compaction
    ([compaction_input]), and the levels below have no keys outside of the key ranges in use
    unless this is a flush ([levels_below]).  Then the compaction ends without a panic and
    without an error of the iterator or of the checks of the output, and every reader, with or
    without a snapshot, finds for a key the same value in the tables it writes, over the levels
    below and under whatever is newer, as in the input, provided that the single deletes of
    this key in the input and in the levels below are used as documented ([proper]).  (The
    checks of the table writer on range keys are not modelled.) *)
Theorem compaction_reads {C : Comparer} {L : ComparerLaws C} {M : Merge} {ML : MergeLaws M} {So : Sort} {SoL : SortLaws So}
    (EstimatedSize : table -> Z) (c : compaction) (snaps : list Z) (formatVersion : Z) (splitL0Outputs : bool)
    (input : list item) (fuel : nat) :
  compaction_input c snaps input -> (compaction_fuel c input <= fuel)%nat ->
  exists tabs,
    runCompaction (Sp := splitterGroup c) EstimatedSize c (compaction_params c snaps formatVersion) fuel
      (new_outputSplitters c splitL0Outputs) input = Ret (Ok tabs) /\
    forall B k s, levels_below c B -> reader snaps s -> proper (view (tombs input) B k s (points_of input)) ->
      equiv k (view (tombs input) B k s (points_of input)) (view (tombs_of (all_rangeDels tabs)) B k s (all_points tabs)).
Proof.
  intros Hc Hf.
  destruct (run_compacted EstimatedSize c snaps formatVersion input Hc (fun _ => []) splitL0Outputs fuel)
    as (tabs & E & _); [by intros _ k []|done|]. exists tabs. split; [done|]. intros B k s HB Hs Hp.
  destruct (run_compacted EstimatedSize c snaps formatVersion input Hc B splitL0Outputs fuel HB Hf) as (tabs' & E' & Hcd).
  rewrite E in E'. injection E' as <-. by apply (compacted_reads c snaps formatVersion input Hc).
Qed.

(** C2. The tables that a compaction writes are in order: points are strictly increasing
    over all tables; the metadata of every table is that of its contents, is valid and
    contains the points of the table; and the bounds of different tables share no user key,
    unless the earlier one excludes it.  At every user key the tables have the range keys of
    the input. *)
Theorem compaction_tables {C : Comparer} {L : ComparerLaws C} {M : Merge} {ML : MergeLaws M} {So : Sort} {SoL : SortLaws So}
    (EstimatedSize : table -> Z) (c : compaction) (snaps : list Z) (formatVersion : Z) (splitL0Outputs : bool)
    (input : list item) (fuel : nat) :
  compaction_input c snaps input -> (compaction_fuel c input <= fuel)%nat ->
  exists tabs,
    runCompaction (Sp := splitterGroup c) EstimatedSize c (compaction_params c snaps formatVersion) fuel
      (new_outputSplitters c splitL0Outputs) input = Ret (Ok tabs) /\
    StronglySorted (fun a b => InternalCompare (fst a) (fst b) = Lt) (all_points tabs) /\
    Forall table_ok tabs /\ StronglySorted table_lt tabs /\
    forall x, at_key x (all_rangeKeys tabs) ≡ₚ at_key x (key_spans input).
Proof.
  intros Hc Hf.
  destruct (run_compacted EstimatedSize c snaps formatVersion input Hc (fun _ => []) splitL0Outputs fuel)
    as (tabs & E & [(outs & _ & _ & O3 & O4) _ (WK & _ & K2 & K3) H4 H5]); [by intros _ k []|done|].
  exists tabs. split; [done|]. split; [|split; [done|split; [done|]]].
  - unfold all_points. rewrite O4. by apply outs_sorted.
  - intros x. unfold all_rangeKeys. by rewrite K3, at_key_rchunks.
Qed.
