(* ===== verification/CompactionExamples.v ===== *)
(** A concrete compaction: with a snapshot, a range deletion, a range key, merges, and a limit
    that splits the output. *)
From S2P Require Import Prelude.
From S2P Require Import Comparer.
From S2P Require Import InternalKey.
From S2P Require Import GoStd.
From S2P Require Import Keyspan.
From S2P Require Import KeyspanSpec.
From S2P Require Import RangeKey.
From S2P Require Import Merger.
From S2P Require Import CompactionIter.
From S2P Require Import CompactionStep.
From S2P Require Import Splitter.
From S2P Require Import Compaction.
From S2P Require Import CompactionRun.
From S2P Require Import CompactionFinish.
From S2P Require Import CompactionSpec.
From Stdlib Require Import Sorted.

Local Open Scope Z_scope.

#[local] Existing Instance DefaultComparer.
#[local] Existing Instance default_laws.
#[local] Existing Instance DefaultMerger.
#[local] Existing Instance DefaultMerger_laws.
#[local] Existing Instance insertion_sort.
#[local] Existing Instance insertion_sort_laws.

Definition example_point (k : bytes) (seq kind : Z) (v : bytes) : item :=
  mkItem (MakeInternalKey k seq kind) (Ok v) nil_span.
Definition example_span (start end_ : bytes) (seq skind sseq : Z) : item :=
  let k := MakeInternalKey start seq skind in
  mkItem k (Ok end_) (mkSpan start end_ [mkKey (Trailer (MakeInternalKey start sseq skind)) [] []] ByTrailerDesc).

Definition example_input : list item := [
  example_span [Byte.x61] [Byte.x63] InternalKeySeqNumMax InternalKeyKindRangeKeySet 2;
  example_span [Byte.x61] [Byte.x63] 7 InternalKeyKindRangeDelete 7;
  example_point [Byte.x61] 6 InternalKeyKindSet [Byte.x31];
  example_point [Byte.x61] 3 InternalKeyKindSet [Byte.x32];
  example_point [Byte.x62] 9 InternalKeyKindMerge [Byte.x33];
  example_point [Byte.x62] 8 InternalKeyKindMerge [Byte.x34];
  example_point [Byte.x62] 4 InternalKeyKindDelete [];
  example_point [Byte.x64] 10 InternalKeyKindSet [Byte.x35]
].
Definition example_compaction : compaction :=
  mkCompaction false 1 2 (Some [Byte.x61]) (Some [Byte.x64]) 1000 10 false
    [mkFile [Byte.x61] [Byte.x61] 100; mkFile [Byte.x62] [Byte.x64] 100] []
    [mkUserKeyRange [Byte.x62] [Byte.x62]] false.
Definition example_run :=
  runCompaction (Sp := splitterGroup example_compaction) (fun t => Z.of_nat (length (tb_points t))) example_compaction
    (compaction_params example_compaction [5] FormatSetWithDelete) 20 (new_outputSplitters example_compaction false) example_input.

(** The points and the range deletions of the two tables: the first SET is deleted by the range
    deletion, the older one is kept for the snapshot, the merge operands are merged, and the
    range deletion is cut at the limit. *)
Lemma example_tables : exists tabs, example_run = Ret (Ok tabs) /\
  (tb_points ∘ fst <$> tabs) =
    [[(MakeInternalKey [Byte.x61] 3 InternalKeyKindSet, [Byte.x32])];
     [(MakeInternalKey [Byte.x62] 9 InternalKeyKindMerge, [Byte.x34; Byte.x33]);
      (MakeInternalKey [Byte.x62] 4 InternalKeyKindDelete, []);
      (MakeInternalKey [Byte.x64] 10 InternalKeyKindSet, [Byte.x35])]] /\
  (tb_rangeDels ∘ fst <$> tabs) =
    [[(MakeInternalKey [Byte.x61] 7 InternalKeyKindRangeDelete, [Byte.x62])];
     [(MakeInternalKey [Byte.x62] 7 InternalKeyKindRangeDelete, [Byte.x63])]].
Proof. eexists. split; [vm_compute; reflexivity|]. split; vm_compute; reflexivity. Qed.

(** ** The input is as the code relies on *)
Lemma example_items : items_ok example_input.
Proof.
  split.
  - repeat first [apply SSorted_nil | apply SSorted_cons | apply Forall_nil_2 | apply Forall_cons_2];
      (split; [vm_compute; reflexivity|]); intros E; vm_compute in E; try discriminate E;
      (split; [vm_compute; reflexivity|]); vm_compute; auto.
  - repeat (apply Forall_cons_2; [split; [vm_compute; split; [intros E; discriminate E|reflexivity]|]; split; [eexists; reflexivity|]|]);
      [..|apply Forall_nil_2].
    1: right; right; reflexivity.
    1: right; left; split; reflexivity.
    all: left; split; [reflexivity|]; split; [reflexivity|]; intros E; vm_compute in E; discriminate E.
Qed.
Lemma example_input_ok : input_ok example_input.
Proof.
  split; [exact example_items| |].
  - repeat (apply Forall_cons_2; [intros E; try (vm_compute in E; discriminate E)|]); [|apply Forall_nil_2].
    split; [split; [reflexivity|]; split; [vm_compute; reflexivity|]; intros E'; discriminate E'|].
    apply Forall_cons_2; [|apply Forall_nil_2]. split; [reflexivity|]. vm_compute. intros E'. discriminate E'.
  - repeat (apply Forall_cons_2; [intros E; try (vm_compute in E; discriminate E)|]); [|apply Forall_nil_2].
    split; [split; [reflexivity|]; split; [vm_compute; reflexivity|]; intros E'; discriminate E'|].
    apply Forall_cons_2; [reflexivity|apply Forall_nil_2].
Qed.
Lemma example_compaction_ok : compaction_input example_compaction [5] example_input.
Proof.
  split.
  - split; [repeat constructor|]. apply Forall_cons_2; [|apply Forall_nil_2]. vm_compute. done.
  - exact example_input_ok.
  - repeat (apply Forall_cons_2; [split; [intros k [= <-]; vm_compute; discriminate|intros k [= <-]; vm_compute; discriminate|
      intros Hp h [= <-]; try (vm_compute; discriminate); exfalso; by apply Hp]|]). apply Forall_nil_2.
  - split; [repeat constructor|]. apply Forall_cons_2; [|apply Forall_nil_2]. vm_compute. discriminate.
  - repeat constructor; vm_compute; reflexivity.
  - intros _ E. discriminate E.
Qed.

(** The theorems applied to it; the key b has an older value in the levels below. *)
Definition example_below (k : bytes) : list op := if decide (k = [Byte.x62]) then [(InternalKeyKindSet, [Byte.x39])] else [].
Lemma example_view :
  view (tombs example_input) example_below [Byte.x62] InternalKeySeqNumMax (points_of example_input) =
  [(InternalKeyKindMerge, [Byte.x33]); (InternalKeyKindMerge, [Byte.x34])].
Proof. vm_compute. reflexivity. Qed.
Lemma compaction_reads_witness :
  compaction_input example_compaction [5] example_input /\
  exists tabs, example_run = Ret (Ok tabs) /\
    resolve [Byte.x62] (view (tombs_of (all_rangeDels tabs)) example_below [Byte.x62] InternalKeySeqNumMax (all_points tabs)) =
    Some [Byte.x34; Byte.x33].
Proof.
  split; [exact example_compaction_ok|].
  destruct (compaction_reads (fun t => Z.of_nat (length (tb_points t))) example_compaction [5] FormatSetWithDelete false example_input 20
    example_compaction_ok ltac:(vm_compute; lia)) as (tabs & E & H).
  exists tabs. split; [exact E|]. clear E.
  assert (levels_below example_compaction example_below) as Hb.
  { intros _ k Hk. unfold example_below in Hk. case_decide as Hd; [|done]. subst k. constructor. vm_compute. split; discriminate. }
  pose proof (H example_below [Byte.x62] InternalKeySeqNumMax Hb ltac:(by right)) as H1. clear H. rewrite example_view in H1.
  specialize (H1 ltac:(intros xs v x vx r Hl _; destruct xs as [|? [|? [|? xs]]]; discriminate Hl) []).
  rewrite !app_nil_l in H1. rewrite <- H1. vm_compute. reflexivity.
Defined.

Lemma compaction_tables_witness :
  compaction_input example_compaction [5] example_input /\
  exists tabs, example_run = Ret (Ok tabs) /\ StronglySorted table_lt tabs.
Proof.
  split; [exact example_compaction_ok|].
  destruct (compaction_tables (fun t => Z.of_nat (length (tb_points t))) example_compaction [5] FormatSetWithDelete false example_input 20
    example_compaction_ok ltac:(vm_compute; lia)) as (tabs & E & _ & _ & H & _).
  exists tabs. split; [exact E|exact H].
Defined.

(** ** Mergers that delete *)

(** Why [MergeLaws] leaves mergers that delete out: with one whose results are all deleted,
    a compaction drops merge operands alone, but panics when they are above a SET. *)
Definition DeletingMerger : Merge := {|
  ValueMerger := bytes;
  merge_New := fun key value => Ok value;
  MergeNewer := fun buf value => Ok (buf ++ value);
  MergeOlder := fun buf value => Ok (value ++ buf);
  merge_Finish := fun buf includesBase => Ok (buf, None);
  DeletableFinish := Some (fun buf includesBase => Ok (buf, true, None));
|}.
Definition deleting_run (kind : Z) :=
  runCompaction (M := DeletingMerger) (Sp := splitterGroup example_compaction) (fun t => Z.of_nat (length (tb_points t)))
    example_compaction (compaction_params example_compaction [] FormatSetWithDelete) 20
    (new_outputSplitters example_compaction false)
    [example_point [Byte.x62] 9 InternalKeyKindMerge [Byte.x33];
     example_point [Byte.x62] 8 kind [Byte.x34];
     example_point [Byte.x64] 10 InternalKeyKindSet [Byte.x35]].
Lemma deleting_merger_panics :
  (exists tabs, deleting_run InternalKeyKindMerge = Ret (Ok tabs) /\
     all_points tabs = [(MakeInternalKey [Byte.x64] 10 InternalKeyKindSet, [Byte.x35])]) /\
  deleting_run InternalKeyKindSet = Panic "compaction iterator has skip=true, but iterator is at iterPosNext".
Proof. split; [eexists; split|]; vm_compute; reflexivity. Qed.
